(* ===== verification/_CoqProject ===== *)
-Q . S2P
Prelude.v
RaftModel.v
RaftLog.v
RaftCore.v
RaftStep.v
RaftHandlers.v
RaftEffect.v
RaftCampaign.v
RaftSafety.v
RaftProps.v
RaftElection.v
RaftNode.v
RpcBreaker.v
RpcBalance.v
RpcProtocol.v
GoSort.v
GoStrings.v
SkipCore.v
CacheHash.v
CacheList.v
CacheLru.v
CacheLruProof.v
CacheStore.v
CacheMaint.v
LsmCodec.v
LsmFilter.v
LsmKeys.v
LsmSkiplist.v
LsmTable.v
LsmTableProof.v
LsmNames.v
LsmTree.v
LsmTreeProof.v
LsmRecover.v
LsmCompact.v
LsmCases.v
HttpRouter.v
HttpRouterProof.v
RingHash.v
RingProof.v
RingRemove.v
RingLocal.v
RingCases.v
TimeWheel.v
GoProg.v
RpcClient.v
RpcClientProof.v
RpcFuture.v
RpcPool.v
TccModel.v
TccSafety.v
TccStore.v
TccCases.v
RedisLock.v
TccComponent.v
CacheAside.v
CacheCoherent.v
CacheAdapters.v
CacheCases.v
OrmQuery.v
OrmProof.v
OrmLike.v
OrmGroup.v
GoBytes.v
HttpResponse.v
HttpSse.v
WsConn.v
WsFrames.v
WsProof.v
WsCases.v
TfModel.v
TfSafety.v
TfSchedule.v
TfRelay.v
TfTxStore.v
TfAudit.v
CacheFront.v
CacheGroup.v
CacheFlight.v
CachePeers.v
