(* ===== verification/Prelude.v ===== *)
(** * yukino.go: a verification development

    yukino.go is a collection of Go libraries and components.  This development
    covers the ones that carry its own algorithms: a Raft library, an LSM-tree
    storage engine, an in-process cache with consistent hashing of keys to peers,
    a consistent-hash ring that migrates data, a time wheel, locks in Redis, a
    cache kept consistent with a database, a manager of TCC transactions, the client
    side of an RPC framework, the router, responses and web sockets of an HTTP framework, the
    query builder of a library for MongoDB, and the executions of a task scheduler, an
    application that puts several of the components together.  They are separate Go
    modules; the parts of one module call each other as described below.

    ** Conventions

    Definitions keep the names of the source.  Machine integers are [Z], wrapped
    explicitly ([u64], [u32], [s64], ...) where the source computes with them;
    lengths and positions of data in memory are not wrapped, since Go's [int] holds
    the length of every slice.  A function that can panic returns an [outcome]
    ([Ret], [Panic]); errors are values.  Pointers that are shared are addresses
    in an explicit store (skip list, nodes and memtables of the tree).  What the
    runtime or a library decides (order of map iteration, random numbers, the
    clock, the channel a [select] takes, hash functions given in a configuration,
    encoding/json, compress/gzip) is a parameter or an argument, and the theorems
    hold for every choice, under the documented laws of the parameter where there
    are any.  Interfaces of the source are type classes with the laws their
    clients rely on ([Storage], [Filter], [MemTable], [LoadBalancer], [HashRing],
    [TXStore], [Cache], [DB]), and the implementations are instances.  So are the
    services behind a client ([Redis], [TxTable], [Gorm], [Mongo], [Regex]), whose
    documented behaviour is the laws; the cases use an instance in memory.

    ** Files

    Shared: [Prelude] (this file: integers, [outcome], lists, tactics), [GoSort],
    [GoStrings] and [GoBytes] (the functions of sort, strings, strconv,
    hash/fnv, encoding/binary, crypto/sha1 and encoding/base64 that are used), [SkipCore] (the linked structure of the two skip lists), [GoProg]
    (a goroutine as the tree of its calls).

    Raft ([components/raft/raft]).  [RaftModel]: model.go, storage.go.  [RaftLog]:
    log.go.  [RaftCore]: progress.go, read.go, util.go, raft.go, follower.go,
    candidate.go, leader.go; [Step] is the whole message handler.  [RaftNode]:
    node.go and ready.go, one iteration of the goroutine's loop as a function of
    the event that [select] takes.  Proofs: [RaftStep], [RaftHandlers],
    [RaftEffect], [RaftCampaign], [RaftSafety] specify each handler and join them
    into the [effect] of a [Step]; [RaftProps] derives the properties of one node
    (terms and votes, committed entries, the commit rule, the leader's log, no
    panic); [RaftElection] is a cluster of nodes and a network that loses, delays,
    duplicates and reorders, as a step relation, with election safety by rule
    induction; [RaftNode] ends with exactly-once delivery of committed entries.

    RPC ([libs/yukino_rpc/internal]).  [RpcBreaker]: breaker and token bucket.
    [RpcBalance]: the three balancers and their fairness.  [RpcProtocol]: packet
    format, choice of compression and reassembly of packets from the stream.
    [RpcClient]: future.go, stream.go and tcp_client.go, a goroutine being the program of
    its atomic operations.  [RpcClientProof]: all interleavings on one connection; every
    call that was accepted is answered, with its own answer.  [RpcFuture]: one future, one
    result, one callback.  [RpcPool]: tcp_connection_pool.go.
    [RpcClientProof] ends with a scheduler and concrete interleavings.

    Cache ([libs/yukino_cache]).  [CacheHash]: consistent_hash.go.  [CacheList] and
    [CacheLru]: lru.go, the linked list in an array, the two-level segments and
    the sharded store.  [CacheLruProof] refines a segment to a recency list,
    [CacheStore] the buckets and the store to a map of live entries.  [CacheMaint]:
    walking, counting, clearing and the periodic sweep.  [CacheFront]: cache.go, the cache
    of a group as a map that may lose entries.  [CacheGroup]: single_flight.go, group.go
    and the handlers of server.go as programs of calls.  [CacheFlight]: all interleavings of
    them on any number of nodes; one load at a time, where values come from, and no
    goroutine stuck; then a scheduler, and the races.  [CachePeers]: peers.go on
    the ring of [CacheHash]; which peers a node has, and when nodes agree on the owner of a
    key; and the registry of groups.

    LSM tree ([components/lsm_tree]).  [LsmCodec]: util, block.go, wal.
    [LsmFilter]: filter.  [LsmKeys]: order of keys, sorted runs, the interface of
    the memtable.  [LsmSkiplist]: memtable/skiplist.go.  [LsmTable]: sst_writer.go,
    sst_reader.go, node.go.  [LsmNames]: names of files.  [LsmTree]: config.go,
    tree.go, tree_compact.go, tree_restore.go on a disk of byte files.  Proofs:
    [LsmTableProof] (a table reads back and answers like its run), [LsmTreeProof]
    (writes, flushes), [LsmRecover] (recovery; histories refine a map),
    [LsmCompact] (compaction of levels), [LsmCases] (concrete trees).

    Consistent hashing ([components/consistent_hash]).  [RingHash]: hash_ring.go,
    encryptor.go, option.go, consistent_hash.go, migration.go, as computations on
    any ring that keeps the laws of [HashRing].  [RingLocal]: local/hash_ring.go,
    a skip list of scores, which keeps them.  [RingProof] and [RingRemove]: every
    recorded key is at its owner after [AddNode] and [RemoveNode], and the migrations
    carry exactly the keys whose owner changes.  [RingCases]: concrete rings.

    Time wheel ([components/time_wheel]).  [TimeWheel]: time_wheel.go, refined to a
    list of tasks that wait for ticks.

    Locks in Redis ([components/redis_lock]).  [RedisLock]: the client, the lock, its
    scripts and watch dog, and RedLock, through a network that delays and loses calls; a
    lease excludes everybody else, and so does a majority of leases.

    TCC transactions ([components/tcc]).  [TccModel]: txmanager.go, model.go,
    tccregister.go and option.go; a goroutine is a program of calls.  [TccSafety]: the
    laws of a store, the interleavings of all goroutines as a step relation, and the
    safety of the two phases, by a weakest precondition over the worlds the other
    goroutines may bring about.  [TccStore]: example/txstore.go and example/dao keep
    the laws of a store.  [TccCases]: a scheduler, and concrete interleavings.
    [TccComponent]: example/tcc_component.go on [RedisLock], refined to a state machine.

    Consistent cache ([components/consistent_cache]).  [CacheAside]: interface.go,
    option.go and service.go; [Put] and [Get] are programs of calls, and the laws that
    they need of the cache and the database.  [CacheCoherent]: all interleavings of
    them; a hit returns the row.  [CacheAdapters]: redis/ and mysql/ keep the laws, on a
    Redis server and on gorm.  [CacheCases]: a scheduler, and concrete interleavings.

    HTTP ([libs/yukino_http]).  [HttpRouter]: trie.go, router.go, group.go and the
    composition of middlewares of yukino.go.  [HttpRouterProof]: routing against
    a relation between patterns and paths; middlewares as nested calls.
    [HttpResponse]: context.go, response.go and recovery.go, the deferred response.
    [HttpSse]: sse.go; an event source reads back the events.  [WsConn]: websocket.go, a
    connection being the bytes that the peer sends and those written to it.  [WsFrames]:
    the frames of RFC 6455.  [WsProof]: messages and the loop that listens.  [WsCases]:
    the limit on messages, and concrete peers.

    Queries for MongoDB ([libs/yukino_orm]).  [OrmQuery]: filter.go, query.go,
    query_group.go, naming.go and what query_exec.go and query_aggregate.go hand to the
    driver.  [OrmProof]: the queries that the methods can make, typed, and the documents
    that the filter of a query selects, on a server that keeps the laws of [Mongo].
    [OrmLike]: LIKE patterns as regular expressions.  [OrmGroup]: the rules and columns of
    grouped queries, a small server, and concrete queries.

    The task scheduler ([apps/task_flow/server/internal]).  [TfModel]: the goroutines that
    move an execution on (dispatcher, components of the TCC transaction, executor, condition
    pipeline, monitor, migrator, handlers), as programs of calls.  [TfSafety]: all
    interleavings of them on a table with conditional updates and a queue that repeats;
    an execution is run at most once, after its confirmation, and only moves on.
    It ends with concrete interleavings.  [TfSchedule]: the fires that the migrator registers
    and the dispatcher checks.  [TfRelay]: cdc/relay.go, changes fanned out to executions
    and published through an outbox.  [TfTxStore]: engine/tccstore.go keeps the laws that
    [TccSafety] asks of a store.  [TfAudit]: consensus/ledger.go on top of [RaftNode], and
    journal/journal.go.

    ** Bounds and fuel

    Recursions that are not structural carry fuel computed from their input (the
    number of slots of a list or entries of a log, bytes left in a block, nodes of
    a skip list, a difference of indices); the theorems state that the function returns,
    so the fuel is enough.  Raft indices and terms stay below 2^64 ([raft_wf],
    [msg_ok]).  A run written to a table has at most 2^24 pairs and 2^40 bytes
    ([run_ok]); a tree has tables of at most 8 MB, pairs of at most 4 MB and
    histories shorter than 2^30 operations ([conf_ok]), so that the offsets of the
    table format, counters of names and sizes do not wrap.  One turn of a time
    wheel and the delay of a task are shorter than 2^62 nanoseconds.  The search
    for the next node of a ring makes at most 2^32 calls; scores are 31-bit and
    none is visited twice.  A connection of the RPC client makes fewer than 2^64 calls.
    The loop over the fires of a task needs as much fuel as its window has seconds.

    ** What the theorems leave open

    [LsmRecover.history_refines] covers writes, flushes in order and restarts.
    Flushing out of order and compaction of levels do not preserve the map:
    [LsmCases] has the histories, and [LsmCompact] says what compaction does.
    [TccSafety.never_both] asks for punctual clocks and contexts; without them a
    transaction can be confirmed and cancelled ([TccCases.stale_snapshot_cancels]).
    [TccComponent.component_refines] is about calls that get through: a lost write
    breaks it ([TccComponent.confirm_not_idempotent]).
    [CacheCoherent.cache_coherent] asks for writes and reads that keep to the options'
    times, and for keys that are enabled between the writes; the [Enable] of one [Put]
    in the middle of another leaves a stale value ([CacheCases.overlapping_puts_stale]).
    [RaftElection] has no restarts, since a restarted node forgets its vote
    ([RaftNode.restart_votes_twice]).
    [OrmProof.filter_exact] is about conditions that do not name [$and] and equalities
    with literal values ([OrmGroup.and_overwritten], [OrmGroup.operator_document]);
    [OrmLike.like_exact] about ASCII text without newlines.
    [HttpRouterProof.route_exact] is about paths without a part that begins with a star: at
    such a part the router cuts the path off ([HttpRouterProof.star_path_cut_off]).
    [WsFrames.readFrame_exact] says which frames are taken that RFC 6455 forbids, those with
    a length in more bytes than it needs ([WsCases.long_length]).
    [TfRelay.drain_complete] leaves the tasks as they are while a drain runs, and says nothing
    of the rows that another relay holds when the drain last looks.
    [TfSchedule.materialize_exact] covers intervals too, but the dispatcher then cancels what
    was made of them ([TfSchedule.every_never_matches]).
    [TfSafety] says nothing of progress: an execution cancelled while it is reserved keeps
    its transaction open for ever ([TfSafety.confirm_fails_for_ever]), and two hundred such
    transactions hide the others ([TfTxStore.newest_not_seen]).
    [CacheFlight.get_provenance] does not say that a value is the newest one: a load
    undoes a delete ([CacheFlight.deleted_value_back]).  [CacheFlight.requests_finish] uses
    that a request to a peer has a deadline ([CacheFlight.peers_wait_for_each_other]).

    ** Not modelled

    Failing system calls other than the torn write of a log and missing files;
    closing of trees, nodes and connections, which ends goroutines and changes
    nothing else; locks, where one goroutine at a time owns the state.  Dialling,
    etcd, the server and reflection of the RPC framework; the gRPC connections,
    registration and dashboard of the cache; the driver of MongoDB, its cursors and sessions; how net/http reads requests.
    The other components that
    are clients of Redis, MySQL or message queues (the message queue, the timer,
    the rings and wheels kept in Redis), and the applications under
    [apps] but for the executions of [task_flow], whose behaviour is that of services not in
    the repository; of [task_flow], its reports, agent, console, definitions cache, registry
    and database replicas.
    Bytes are values: that [Set] of a cache group hands its caller's slice to the goroutine
    which tells the peers is not seen.  The callbacks of a web socket connection answer an
    event with frames to write; they keep no state, do not close the connection, and no
    other goroutine writes while [Listen] does.  The recovery of a panic in an execution,
    which finalizes it once more and so changes nothing, is left out.

    ** This file

    Machine integers, the [outcome] monad, lemmas on lists and maps, and the tactics
    and hints the other files share. *)
From stdpp Require Export prelude gmap strings sorting.
From Stdlib Require Export ZArith Lia.

#[global] Open Scope Z_scope.

(** ** Machine integers *)

(** [uint64] arithmetic: every addition and subtraction of the source is
    wrapped with [u64]; [uint32] with [u32]; conversion of a 64-bit pattern
    to Go's [int] with [s64]. *)
Definition u64 (x : Z) : Z := x mod 18446744073709551616.
Definition u32 (x : Z) : Z := x mod 4294967296.
Definition u16 (x : Z) : Z := x mod 65536.
Definition u8 (x : Z) : Z := x mod 256.
Definition s64 (x : Z) : Z :=
  (x + 9223372036854775808) mod 18446744073709551616 - 9223372036854775808.
Definition s32 (x : Z) : Z := (x + 2147483648) mod 4294967296 - 2147483648.

Lemma u64_small x : 0 <= x < 18446744073709551616 -> u64 x = x.
Proof. intros. by apply Z.mod_small. Qed.

Lemma u64_range x : 0 <= u64 x < 18446744073709551616.
Proof. by apply Z.mod_pos_bound. Qed.

Lemma u32_small x : 0 <= x < 4294967296 -> u32 x = x.
Proof. intros. by apply Z.mod_small. Qed.

Lemma u32_range x : 0 <= u32 x < 4294967296.
Proof. by apply Z.mod_pos_bound. Qed.

Lemma u16_small x : 0 <= x < 65536 -> u16 x = x.
Proof. intros. by apply Z.mod_small. Qed.

Lemma u8_small x : 0 <= x < 256 -> u8 x = x.
Proof. intros. by apply Z.mod_small. Qed.

Lemma u8_range x : 0 <= u8 x < 256.
Proof. by apply Z.mod_pos_bound. Qed.

Lemma s64_small x :
  -9223372036854775808 <= x < 9223372036854775808 -> s64 x = x.
Proof. intros. unfold s64. rewrite Z.mod_small; lia. Qed.

Lemma s32_small x : -2147483648 <= x < 2147483648 -> s32 x = x.
Proof. intros. unfold s32. rewrite Z.mod_small; lia. Qed.

(** [unwrap] removes the wrap-around of every machine operation whose
    operand [lia] shows to be in range. *)
Ltac unwrap :=
  repeat match goal with
    | |- context [u64 ?x] => rewrite (u64_small x) by lia
    | H : context [u64 ?x] |- _ => rewrite (u64_small x) in H by lia
    | |- context [s64 ?x] => rewrite (s64_small x) by lia
    | H : context [s64 ?x] |- _ => rewrite (s64_small x) in H by lia
    | |- context [u32 ?x] => rewrite (u32_small x) by lia
    | H : context [u32 ?x] |- _ => rewrite (u32_small x) in H by lia
    end.

(** ** Bytes *)

Abbreviation bytes := (list Z).
Definition byte_ok (b : Z) : Prop := 0 <= b < 256.

(** ** Panics

    A Go function that may panic is a computation in [outcome]; [Panic]
    carries the panic value as text. *)
Inductive outcome (A : Type) : Type :=
  | Ret (a : A)
  | Panic (msg : string).
Arguments Ret {A} _.
Arguments Panic {A} _.

#[export] Instance outcome_ret : MRet outcome := @Ret.
#[export] Instance outcome_bind : MBind outcome :=
  fun A B f m => match m with Ret a => f a | Panic s => Panic s end.

#[export] Instance outcome_eq_dec {A} `{EqDecision A} : EqDecision (outcome A).
Proof. solve_decision. Defined.

Definition returns {A} (m : outcome A) : Prop := exists a, m = Ret a.

Lemma bind_Ret {A B} (m : outcome A) (f : A -> outcome B) b :
  (m ≫= f) = Ret b -> exists a, m = Ret a /\ f a = Ret b.
Proof. destruct m; simpl; [eauto | discriminate]. Qed.

(** ** Fallible calls: a value or an error. *)
Inductive result (E A : Type) : Type :=
  | Ok (a : A)
  | Err (e : E).
Arguments Ok {E A} _.
Arguments Err {E A} _.

#[export] Instance result_eq_dec {E A} `{EqDecision E, EqDecision A} :
  EqDecision (result E A).
Proof. solve_decision. Defined.

(** ** Automation *)

(** Invert a successful sequence of [outcome] computations. *)
Ltac inv_bind :=
  repeat match goal with
    | H : Ret _ = Ret _ |- _ => injection H as H; subst
    | H : mret _ = Ret _ |- _ => injection H as H; subst
    | H : Panic _ = Ret _ |- _ => discriminate H
    | H : Ret _ = Panic _ |- _ => discriminate H
    | H : (_ ≫= _) = Ret _ |- _ =>
        let a := fresh "v" in let H1 := fresh "Hb" in
        apply bind_Ret in H as (a & H1 & H)
    | H : (let '(_, _) := ?p in _) = Ret _ |- _ => destruct p
    end.

(** Turn boolean comparisons on [Z] into propositions. *)
Ltac zb :=
  repeat match goal with
    | H : (_ && _) = true |- _ => apply andb_true_iff in H as [? ?]
    | H : (_ || _) = false |- _ => apply orb_false_iff in H as [? ?]
    | H : (_ && _) = false |- _ => apply andb_false_iff in H
    | H : (_ || _) = true |- _ => apply orb_true_iff in H
    | H : negb _ = true |- _ => apply negb_true_iff in H
    | H : negb _ = false |- _ => apply negb_false_iff in H
    | H : (_ =? _)%Z = true |- _ => apply Z.eqb_eq in H
    | H : (_ =? _)%Z = false |- _ => apply Z.eqb_neq in H
    | H : (_ <? _)%Z = true |- _ => apply Z.ltb_lt in H
    | H : (_ <? _)%Z = false |- _ => apply Z.ltb_ge in H
    | H : (_ <=? _)%Z = true |- _ => apply Z.leb_le in H
    | H : (_ <=? _)%Z = false |- _ => apply Z.leb_gt in H
    end.

(** Case analysis on the boolean tests of the goal, as propositions. *)
Ltac zcase :=
  match goal with
  | |- context [if ?b then _ else _] =>
      let E := fresh "Eb" in destruct b eqn:E; zb
  end.

Ltac zcase_in H :=
  match type of H with
  | context [if ?b then _ else _] =>
      let E := fresh "Eb" in destruct b eqn:E; zb
  end.

(** ** Lists indexed by machine integers *)

Definition zlen {A} (l : list A) : Z := Z.of_nat (length l).

Definition zlookup {A} (l : list A) (i : Z) : option A :=
  if i <? 0 then None else l !! Z.to_nat i.

(** [l[i]]: panics when [i] is out of range. *)
Definition go_index {A} (l : list A) (i : Z) : outcome A :=
  match zlookup l i with
  | Some x => Ret x
  | None => Panic "index out of range"
  end.

(** [l[lo:hi]].  Bounds are checked against the length; a Go slice expression
    checks [hi] against the capacity, and every slice expression of the
    modelled code has [hi] at most the length. *)
Definition go_slice {A} (l : list A) (lo hi : Z) : outcome (list A) :=
  if (lo <? 0) || (hi <? lo) || (zlen l <? hi)
  then Panic "slice bounds out of range"
  else Ret (take (Z.to_nat (hi - lo)) (drop (Z.to_nat lo) l)).

Lemma zlen_nonneg {A} (l : list A) : 0 <= zlen l.
Proof. unfold zlen. lia. Qed.

Lemma zlen_nil A : zlen (@nil A) = 0.
Proof. done. Qed.

Lemma zlen_cons {A} (x : A) l : zlen (x :: l) = zlen l + 1.
Proof. unfold zlen. simpl. lia. Qed.

Lemma zlen_app {A} (l k : list A) : zlen (l ++ k) = zlen l + zlen k.
Proof. unfold zlen. rewrite length_app. lia. Qed.

Lemma zlen_take {A} (l : list A) n :
  zlen (take n l) = Z.min (Z.of_nat n) (zlen l).
Proof. unfold zlen. rewrite length_take. lia. Qed.

Lemma zlen_drop {A} (l : list A) n :
  zlen (drop n l) = Z.max 0 (zlen l - Z.of_nat n).
Proof. unfold zlen. rewrite length_drop. lia. Qed.

Lemma zlen_0_nil {A} (l : list A) : zlen l = 0 -> l = [].
Proof. destruct l; [done |]. rewrite zlen_cons. pose proof (zlen_nonneg l). lia. Qed.

Lemma zlookup_Some_range {A} (l : list A) i x :
  zlookup l i = Some x -> 0 <= i < zlen l.
Proof.
  unfold zlookup, zlen. zcase; [done |]. intros H%lookup_lt_Some. lia.
Qed.

Lemma zlookup_is_Some {A} (l : list A) i :
  0 <= i < zlen l -> exists x, zlookup l i = Some x.
Proof.
  unfold zlookup, zlen. intros H. zcase; [lia |].
  destruct (lookup_lt_is_Some_2 l (Z.to_nat i)) as [x Hx]; [lia |]. by exists x.
Qed.

Lemma zlookup_app_l {A} (l k : list A) i :
  i < zlen l -> zlookup (l ++ k) i = zlookup l i.
Proof.
  unfold zlookup, zlen. intros. zcase; [done |]. rewrite lookup_app_l; [done | lia].
Qed.

Lemma zlookup_app_r {A} (l k : list A) i :
  zlen l <= i -> zlookup (l ++ k) i = zlookup k (i - zlen l).
Proof.
  unfold zlookup, zlen. intros. do 2 (zcase; try lia).
  rewrite lookup_app_r by lia. f_equal. lia.
Qed.

Lemma zlookup_take {A} (l : list A) n i :
  i < Z.of_nat n -> zlookup (take n l) i = zlookup l i.
Proof.
  unfold zlookup. intros. zcase; [done |]. rewrite lookup_take_lt by lia. done.
Qed.

Lemma zlookup_drop {A} (l : list A) n i :
  0 <= i -> zlookup (drop n l) i = zlookup l (Z.of_nat n + i).
Proof.
  unfold zlookup. intros. do 2 (zcase; try lia). rewrite lookup_drop. f_equal. lia.
Qed.

Lemma zlookup_Forall {A} (P : A -> Prop) l i x :
  Forall P l -> zlookup l i = Some x -> P x.
Proof.
  unfold zlookup. zcase; [done |]. intros HF Hl. by eapply Forall_lookup_1.
Qed.

Lemma go_index_Some {A} (l : list A) i x : zlookup l i = Some x -> go_index l i = Ret x.
Proof. unfold go_index. by intros ->. Qed.

Lemma go_slice_ok {A} (l : list A) lo hi :
  0 <= lo -> lo <= hi -> hi <= zlen l ->
  go_slice l lo hi = Ret (take (Z.to_nat (hi - lo)) (drop (Z.to_nat lo) l)).
Proof.
  intros. unfold go_slice. zcase; [| done]. destruct Eb as [Eb | Eb]; zb; [| lia].
  destruct Eb; zb; lia.
Qed.

Lemma list_eq_zlookup {A} (l k : list A) :
  zlen l = zlen k -> (forall i, 0 <= i < zlen l -> zlookup l i = zlookup k i) -> l = k.
Proof.
  intros Hlen H. apply list_eq_same_length with (length k); [done | unfold zlen in *; lia |].
  intros i x y Hi Hx Hy. unfold zlen in *.
  specialize (H (Z.of_nat i) ltac:(lia)). unfold zlookup in H.
  destruct (Z.of_nat i <? 0) eqn:E; zb; [lia |]. rewrite !Nat2Z.id in H. congruence.
Qed.

Lemma dom_insert_same {A} (m : gmap Z A) i x y : m !! i = Some x -> dom (<[i:=y]> m) = dom m.
Proof.
  intros Hi. rewrite dom_insert_L. apply subseteq_union_1_L, singleton_subseteq_l.
  by apply elem_of_dom_2 in Hi.
Qed.

Lemma zlookup_insert {A} (l : list A) i x j : 0 <= i < zlen l ->
  zlookup (<[Z.to_nat i := x]> l) j = if decide (j = i) then Some x else zlookup l j.
Proof.
  intros Hi. unfold zlookup. zcase; [case_decide; [lia | done] |]. case_decide as Hd.
  - subst. apply list_lookup_insert_eq. unfold zlen in *. lia.
  - rewrite list_lookup_insert_ne; [done | lia].
Qed.

Lemma zlen_insert {A} (l : list A) i x : zlen (<[i := x]> l) = zlen l.
Proof. unfold zlen. by rewrite length_insert. Qed.

(** ** Lists related element by element *)

Lemma Forall2_in_l {A B} (R : A -> B -> Prop) l k x : Forall2 R l k -> x ∈ l -> exists y, y ∈ k /\ R x y.
Proof.
  intros HF (i & Hi)%list_elem_of_lookup_1. destruct (Forall2_lookup_l _ _ _ _ _ HF Hi) as (y & Hy & HR).
  exists y. split; [by eapply list_elem_of_lookup_2 | done].
Qed.

Lemma Forall2_in_r {A B} (R : A -> B -> Prop) l k y : Forall2 R l k -> y ∈ k -> exists x, x ∈ l /\ R x y.
Proof.
  intros HF (i & Hi)%list_elem_of_lookup_1. destruct (Forall2_lookup_r _ _ _ _ _ HF Hi) as (x & Hx & HR).
  exists x. split; [by eapply list_elem_of_lookup_2 | done].
Qed.

Lemma Forall2_impl_in {A B} (R Q : A -> B -> Prop) l k : Forall2 R l k ->
  (forall x y, x ∈ l -> y ∈ k -> R x y -> Q x y) -> Forall2 Q l k.
Proof.
  induction 1 as [| x y l k HR _ IH]; intros HQ; constructor.
  - by apply HQ; [left | left |].
  - apply IH. intros x0 y0 Hx Hy. by apply HQ; right.
Qed.

Lemma filter_ext_in {A} (P Q : A -> Prop) `{!forall x, Decision (P x), !forall x, Decision (Q x)} (l : list A) :
  (forall x, x ∈ l -> P x <-> Q x) -> filter P l = filter Q l.
Proof.
  induction l as [| x l IH]; intros HPQ; [done |]. rewrite !filter_cons, IH by (intros; apply HPQ; by right).
  specialize (HPQ x ltac:(by left)). destruct (decide (P x)), (decide (Q x)); tauto.
Qed.

Lemma filter_fmap {A B} (f : A -> B) (P : B -> Prop) `{!forall x, Decision (P x)} (l : list A) :
  filter P (f <$> l) = f <$> filter (fun x => P (f x)) l.
Proof.
  induction l as [| x l IH]; [done |]. rewrite fmap_cons, !filter_cons, IH. by destruct (decide (P (f x))).
Qed.

Lemma NoDup_fmap_filter {A B} (f : A -> B) (P : A -> Prop) `{!forall x, Decision (P x)} (l : list A) :
  NoDup (f <$> l) -> NoDup (f <$> filter P l).
Proof.
  induction l as [| x l IH]; [done |]. rewrite filter_cons, fmap_cons. intros [Hn Hd]%NoDup_cons.
  case_decide; [| by apply IH]. rewrite fmap_cons. apply NoDup_cons. split; [| by apply IH].
  intros (y & E & [_ Hy]%list_elem_of_filter)%list_elem_of_fmap. apply Hn. rewrite E. by apply list_elem_of_fmap_2.
Qed.

Lemma NoDup_fmap_in {A B} (f : A -> B) (l : list A) x y :
  NoDup (f <$> l) -> x ∈ l -> y ∈ l -> f x = f y -> x = y.
Proof.
  intros Hnd (i & Hi)%list_elem_of_lookup_1 (j & Hj)%list_elem_of_lookup_1 E.
  assert (i = j) as ->; [| congruence]. eapply NoDup_lookup; [done | |]; rewrite list_lookup_fmap.
  - by rewrite Hi.
  - by rewrite Hj, E.
Qed.

Lemma Forall_filter_keep {A} (P Q : A -> Prop) `{!forall x, Decision (Q x)} (l : list A) :
  Forall P l -> Forall P (filter Q l).
Proof. rewrite !Forall_forall. intros HP x [_ Hx]%list_elem_of_filter. by apply HP. Qed.

Lemma filter_all {A} (P : A -> Prop) `{!forall x, Decision (P x)} (l : list A) : Forall P l -> filter P l = l.
Proof. induction 1 as [| x l Hx HF IH]; [done |]. by rewrite filter_cons_True, IH. Qed.

Lemma Forall2_filter_rel {A B} (R : A -> B -> Prop) (P : A -> Prop) (Q : B -> Prop)
    `{!forall a, Decision (P a), !forall b, Decision (Q b)} l k :
  Forall2 (fun a b => (P a <-> Q b) /\ (Q b -> R a b)) l k -> Forall2 R (filter P l) (filter Q k).
Proof.
  induction 1 as [| a b l k [HPQ HR] _ IH]; [constructor |]. rewrite !filter_cons.
  destruct (decide (P a)), (decide (Q b)); try tauto. constructor; auto.
Qed.

Create HintDb yk.
Create Rewrite HintDb zlen.
#[export] Hint Rewrite @zlen_nil @zlen_cons @zlen_app @zlen_take @zlen_drop @zlen_insert : zlen.
#[export] Hint Resolve zlen_nonneg u64_range : yk.

(** Normalise lengths and close the arithmetic. *)
Ltac zlen_pos :=
  repeat match goal with
    | |- context [zlen ?l] =>
        lazymatch goal with
        | _ : 0 <= zlen l |- _ => fail
        | _ => pose proof (zlen_nonneg l)
        end
    | _ : context [zlen ?l] |- _ =>
        lazymatch goal with
        | _ : 0 <= zlen l |- _ => fail
        | _ => pose proof (zlen_nonneg l)
        end
    end.
Ltac zl := autorewrite with zlen in *; zlen_pos; lia.
