(* ===== verification/RaftModel.v ===== *)
(** * Raft: data model and storage

    The data types of [components/raft/raft/model.go], the [Storage]
    interface of [storage.go] as a type class with its laws, and
    [MemoryStorage], which is shown to satisfy the laws. *)
From S2P Require Import Prelude.

(** ** model.go *)

Abbreviation bytes := (list Z).

Definition None_id : Z := 0.

Inductive EntryType := EntryNormal | EntryConfChange.

#[export] Instance EntryType_eq_dec : EqDecision EntryType.
Proof. solve_decision. Defined.

Record Entry := mkEntry {
  e_Term : Z;
  e_Index : Z;
  e_Type : EntryType;
  e_Data : bytes
}.

#[export] Instance Entry_eq_dec : EqDecision Entry.
Proof. solve_decision. Defined.

Definition zeroEntry : Entry := mkEntry 0 0 EntryNormal [].

Inductive MessageType :=
  | MsgHup | MsgBeat | MsgProp | MsgApp | MsgAppResp | MsgVote | MsgVoteResp
  | MsgHeartbeat | MsgHeartbeatResp | MsgReadIndex | MsgReadIndexResp
  | MsgPreVote | MsgPreVoteResp.

#[export] Instance MessageType_eq_dec : EqDecision MessageType.
Proof. solve_decision. Defined.

Record Message := mkMessage {
  m_Type : MessageType;
  m_To : Z;
  m_From : Z;
  m_Term : Z;
  m_LogTerm : Z;
  m_LogIndex : Z;
  m_Entries : list Entry;
  m_CommitIndex : Z;
  m_Reject : bool;
  m_RejectHint : Z;
  m_Context : bytes
}.

#[export] Instance Message_eq_dec : EqDecision Message.
Proof. solve_decision. Defined.

(** [Message{Type: ty, To: to}]: the other fields have their zero values. *)
Definition msg (ty : MessageType) (to : Z) : Message :=
  mkMessage ty to 0 0 0 0 [] 0 false 0 [].

Inductive StateType :=
  | StateFollower | StateCandidate | StateLeader | StatePreCandidate.

#[export] Instance StateType_eq_dec : EqDecision StateType.
Proof. solve_decision. Defined.

Record SoftState := mkSoftState { ss_Lead : Z; ss_RaftState : StateType }.

Definition SoftState_equal (s pre : SoftState) : bool :=
  (ss_Lead s =? ss_Lead pre) && bool_decide (ss_RaftState s = ss_RaftState pre).

Record HardState := mkHardState { hs_Term : Z; hs_Vote : Z; hs_CommitIndex : Z }.

Definition emptyHardState : HardState := mkHardState 0 0 0.

Definition isHardStateEqual (a b : HardState) : bool :=
  (hs_Term a =? hs_Term b) && (hs_Vote a =? hs_Vote b) &&
  (hs_CommitIndex a =? hs_CommitIndex b).

Definition IsEmptyHardState (h : HardState) : bool := isHardStateEqual h emptyHardState.

Record ConfState := mkConfState { cs_Nodes : list Z }.

Inductive CampaignType := campaignPreElection | campaignElection.

Inductive ConfChangeType := ConfChangeAddNode | ConfChangeRemoveNode | ConfChangeUpdateNode.

Record ConfChange := mkConfChange {
  cc_ID : Z;
  cc_Type : ConfChangeType;
  cc_NodeID : Z;
  cc_Context : bytes
}.

Lemma isHardStateEqual_eq a b : isHardStateEqual a b = true <-> a = b.
Proof.
  destruct a, b. unfold isHardStateEqual. simpl.
  rewrite !andb_true_iff, !Z.eqb_eq. split; [intros [[-> ->] ->] | intros [= -> -> ->]]; done.
Qed.

(** ** The log as a sequence

    [contiguous i es]: the entries carry the indices [i], [i+1], ... *)
Fixpoint contiguous (i : Z) (es : list Entry) : Prop :=
  match es with
  | [] => True
  | e :: es' => e_Index e = i /\ contiguous (i + 1) es'
  end.

Lemma contiguous_app i es fs :
  contiguous i (es ++ fs) <-> contiguous i es /\ contiguous (i + zlen es) fs.
Proof.
  revert i. induction es as [| e es IH]; intros i; simpl.
  - rewrite zlen_nil, Z.add_0_r. tauto.
  - rewrite IH, zlen_cons. replace (i + (zlen es + 1)) with (i + 1 + zlen es) by lia. tauto.
Qed.

Lemma contiguous_take i es n : contiguous i es -> contiguous i (take n es).
Proof. intros H. rewrite <- (take_drop n es) in H. by apply contiguous_app in H as [? _]. Qed.

Lemma contiguous_drop i es n :
  (n <= length es)%nat -> contiguous i es -> contiguous (i + Z.of_nat n) (drop n es).
Proof.
  intros Hn H. rewrite <- (take_drop n es) in H. apply contiguous_app in H as [_ H].
  rewrite zlen_take in H. unfold zlen in H. by replace (Z.min _ _) with (Z.of_nat n) in H by lia.
Qed.

Lemma contiguous_lookup i es k e :
  contiguous i es -> zlookup es k = Some e -> e_Index e = i + k.
Proof.
  revert i k. induction es as [| e' es IH]; intros i k Hc Hl.
  - apply zlookup_Some_range in Hl. rewrite zlen_nil in Hl. lia.
  - destruct Hc as [He Hc]. destruct (decide (k = 0)) as [-> | Hk].
    + unfold zlookup in Hl. simpl in Hl. injection Hl as <-. lia.
    + pose proof (zlookup_Some_range _ _ _ Hl).
      change (e' :: es) with ([e'] ++ es) in Hl.
      rewrite zlookup_app_r in Hl by (unfold zlen; simpl; lia).
      pose proof (IH _ _ Hc Hl) as H'. zl.
Qed.

(** What a log holds: the (index, term) of the entry before the first one,
    and the entries. *)
Record LogView := mkView { lv_off : Z; lv_offterm : Z; lv_ents : list Entry }.

Definition view_last (v : LogView) : Z := lv_off v + zlen (lv_ents v).

(** Indices stay below [idx_limit], so that no index arithmetic wraps. *)
Definition idx_limit : Z := 9223372036854775807.

Record view_wf (v : LogView) : Prop := {
  vw_off : 0 <= lv_off v;
  vw_contig : contiguous (lv_off v + 1) (lv_ents v);
  vw_last : view_last v < idx_limit
}.

Definition view_term (v : LogView) (i : Z) : option Z :=
  if i =? lv_off v then Some (lv_offterm v)
  else e_Term <$> zlookup (lv_ents v) (i - lv_off v - 1).

(** The entries with indices in [lo, hi). *)
Definition view_slice (v : LogView) (lo hi : Z) : list Entry :=
  take (Z.to_nat (hi - lo)) (drop (Z.to_nat (lo - lv_off v - 1)) (lv_ents v)).

(** Keep the entries before index [i] and put [es] after them. *)
Definition view_splice (v : LogView) (i : Z) (es : list Entry) : LogView :=
  mkView (lv_off v) (lv_offterm v) (take (Z.to_nat (i - lv_off v - 1)) (lv_ents v) ++ es).

(** ** storage.go *)

Inductive StorageErr := ErrCompacted | ErrUnavailable | ErrOther (s : string).

#[export] Instance StorageErr_eq_dec : EqDecision StorageErr.
Proof. solve_decision. Defined.

(** The interface.  An operation of an implementation may panic (an index out
    of range, say), hence the [outcome] around each result. *)
Class Storage (S : Type) := {
  InitialState : S -> outcome (result StorageErr (HardState * ConfState));
  Entries : S -> Z -> Z -> outcome (result StorageErr (list Entry));
  Term : S -> Z -> outcome (result StorageErr Z);
  LastIndex : S -> outcome (result StorageErr Z);
  FirstIndex : S -> outcome (result StorageErr Z);
  Append : S -> list Entry -> outcome (result StorageErr S);
  SetHardState : S -> HardState -> outcome (result StorageErr S)
}.

(** What the log relies on: in a well-formed store the reading operations
    answer from a view, and the writing ones change the view. *)
Class StorageLaws (S : Type) `{Storage S} := {
  st_view : S -> LogView;
  st_wf : S -> Prop;
  st_view_wf s : st_wf s -> view_wf (st_view s);
  st_init s : st_wf s -> exists hs cs, InitialState s = Ret (Ok (hs, cs));
  st_first s : st_wf s -> FirstIndex s = Ret (Ok (lv_off (st_view s) + 1));
  st_last s : st_wf s -> LastIndex s = Ret (Ok (view_last (st_view s)));
  st_term s i t : st_wf s -> view_term (st_view s) i = Some t -> Term s i = Ret (Ok t);
  st_entries s lo hi : st_wf s ->
    lv_off (st_view s) < lo -> lo < hi -> hi <= view_last (st_view s) + 1 ->
    Entries s lo hi = Ret (Ok (view_slice (st_view s) lo hi));
  st_append s es i : st_wf s -> es <> [] -> contiguous i es ->
    lv_off (st_view s) < i -> i <= view_last (st_view s) + 1 ->
    i + zlen es <= idx_limit ->
    exists s', Append s es = Ret (Ok s') /\ st_wf s' /\
               st_view s' = view_splice (st_view s) i es;
  st_sethard s hs : st_wf s ->
    exists s', SetHardState s hs = Ret (Ok s') /\ st_wf s' /\ st_view s' = st_view s
}.

Lemma view_slice_len v lo hi :
  lv_off v < lo -> lo <= hi -> hi <= view_last v + 1 -> zlen (view_slice v lo hi) = hi - lo.
Proof. unfold view_slice, view_last. intros. zl. Qed.

Lemma view_slice_contig v lo hi :
  view_wf v -> lv_off v < lo -> lo <= hi -> hi <= view_last v + 1 ->
  contiguous lo (view_slice v lo hi).
Proof.
  intros [H0 Hc Hl] ???. unfold view_slice, view_last in *. apply contiguous_take.
  replace lo with (lv_off v + 1 + Z.of_nat (Z.to_nat (lo - lv_off v - 1))) at 1 by lia.
  apply contiguous_drop; [unfold zlen in *; lia | done].
Qed.

Lemma view_splice_last v i es :
  lv_off v < i -> i <= view_last v + 1 -> view_last (view_splice v i es) = i + zlen es - 1.
Proof. unfold view_last. simpl. intros. zl. Qed.

Lemma view_splice_end v es :
  lv_ents (view_splice v (view_last v + 1) es) = lv_ents v ++ es.
Proof.
  unfold view_last. simpl. f_equal. apply firstn_all2. unfold zlen. lia.
Qed.

Lemma view_splice_wf v i es :
  view_wf v -> contiguous i es -> lv_off v < i -> i <= view_last v + 1 ->
  i + zlen es <= idx_limit -> view_wf (view_splice v i es).
Proof.
  intros [H0 Hc Hl] Hes ???. split; [done | |].
  - simpl. apply contiguous_app. split; [by apply contiguous_take |].
    unfold view_last in *. rewrite zlen_take.
    by replace (lv_off v + 1 + _) with i by lia.
  - rewrite view_splice_last by done. lia.
Qed.

Lemma view_term_splice_old v i es k :
  lv_off v < i -> i <= view_last v + 1 -> k < i ->
  view_term (view_splice v i es) k = view_term v k.
Proof.
  unfold view_term, view_last. simpl. intros. zcase; [done |]. f_equal.
  destruct (decide (k < lv_off v)).
  - unfold zlookup. zcase; [done | lia].
  - rewrite zlookup_app_l by zl. apply zlookup_take. lia.
Qed.

Lemma view_term_splice_new v i es k :
  lv_off v < i -> i <= view_last v + 1 -> i <= k ->
  view_term (view_splice v i es) k = e_Term <$> zlookup es (k - i).
Proof.
  unfold view_term, view_last. simpl. intros. zcase; [lia |].
  rewrite zlookup_app_r by zl. do 2 f_equal. zl.
Qed.

Lemma view_term_range v i t :
  view_term v i = Some t -> lv_off v <= i <= view_last v.
Proof.
  unfold view_term, view_last. zcase.
  - intros. zl.
  - intros (e & H%zlookup_Some_range & _)%fmap_Some. lia.
Qed.

Lemma view_term_is_Some v i :
  lv_off v <= i <= view_last v -> exists t, view_term v i = Some t.
Proof.
  unfold view_term, view_last. intros H. zcase; [eauto |].
  destruct (zlookup_is_Some (lv_ents v) (i - lv_off v - 1)) as [e He]; [lia |].
  rewrite He. simpl. eauto.
Qed.

(** *** MemoryStorage *)
Module MemoryStorage.

Record t := mk { hardState : HardState; entries : list Entry }.

Definition NewMemoryStorage : t := mk emptyHardState [zeroEntry].

Definition InitialState_ (m : t) : outcome (result StorageErr (HardState * ConfState)) :=
  Ret (Ok (hardState m, mkConfState [])).

Definition lastIndex (m : t) : outcome Z :=
  e0 ← go_index (entries m) 0;
  Ret (u64 (u64 (e_Index e0 + zlen (entries m)) - 1)).

Definition firstIndex (m : t) : outcome Z :=
  e0 ← go_index (entries m) 0;
  Ret (u64 (e_Index e0 + 1)).

Definition LastIndex_ (m : t) : outcome (result StorageErr Z) :=
  i ← lastIndex m; Ret (Ok i).

Definition FirstIndex_ (m : t) : outcome (result StorageErr Z) :=
  i ← firstIndex m; Ret (Ok i).

Definition Entries_ (m : t) (l r : Z) : outcome (result StorageErr (list Entry)) :=
  e0 ← go_index (entries m) 0;
  let offset := e_Index e0 in
  if l <=? offset then Ret (Err ErrCompacted)
  else
    last ← lastIndex m;
    if u64 (last + 1) <? r then Ret (Err ErrUnavailable)
    else if zlen (entries m) =? 1 then Ret (Err ErrUnavailable)
    else
      es ← go_slice (entries m) (u64 (l - offset)) (u64 (r - offset));
      Ret (Ok es).

Definition Term_ (m : t) (i : Z) : outcome (result StorageErr Z) :=
  e0 ← go_index (entries m) 0;
  let offset := e_Index e0 in
  if i <? offset then Ret (Err ErrCompacted)
  else if zlen (entries m) <=? s64 (u64 (i - offset)) then Ret (Err ErrUnavailable)
  else
    e ← go_index (entries m) (u64 (i - offset));
    Ret (Ok (e_Term e)).

Definition Append_ (m : t) (es : list Entry) : outcome (result StorageErr t) :=
  match es with
  | [] => Ret (Ok m)
  | e :: _ =>
      let first := e_Index e in
      e0 ← go_index (entries m) 0;
      let offset := e_Index e0 in
      if first <? offset then Ret (Ok m)
      else
        last ← lastIndex m;
        if u64 (last + 1) <? first then Ret (Err ErrUnavailable)
        else
          kept ← go_slice (entries m) 0 (u64 (first - offset));
          Ret (Ok (mk (hardState m) (kept ++ es)))
  end.

Definition SetHardState_ (m : t) (hs : HardState) : outcome (result StorageErr t) :=
  Ret (Ok (mk hs (entries m))).

#[export] Instance storage : Storage t := {
  InitialState := InitialState_;
  Entries := Entries_;
  Term := Term_;
  LastIndex := LastIndex_;
  FirstIndex := FirstIndex_;
  Append := Append_;
  SetHardState := SetHardState_
}.

(** The dummy entry before the first one. *)
Definition head (m : t) : Entry := default zeroEntry (entries m !! 0%nat).

Definition view (m : t) : LogView :=
  mkView (e_Index (head m)) (e_Term (head m)) (tail (entries m)).

Definition wf (m : t) : Prop := entries m <> [] /\ view_wf (view m).

Lemma wf_shape m : wf m ->
  entries m = head m :: lv_ents (view m) /\ zlen (entries m) = zlen (lv_ents (view m)) + 1.
Proof.
  intros [Hne _]. destruct m as [hs es]. unfold view, head in *. simpl in *.
  destruct es; [done |]. simpl. by rewrite zlen_cons.
Qed.

Lemma go_index_head m : wf m -> go_index (entries m) 0 = Ret (head m).
Proof. intros H. by rewrite (proj1 (wf_shape _ H)). Qed.

(** [unfold_wf H]: expose the bounds of a well-formed store. *)
Ltac unfold_wf H :=
  let Hs := fresh "Hs" in let Hl := fresh "Hl" in let Hh := fresh "Hh" in
  pose proof (wf_shape _ H) as [Hs Hl]; pose proof (go_index_head _ H) as Hh;
  destruct H as [_ [? ? ?]]; unfold view_last, idx_limit in *; cbn [view lv_off lv_ents] in *.

Lemma lastIndex_view m : wf m -> lastIndex m = Ret (view_last (view m)).
Proof.
  intros H. unfold_wf H. unfold lastIndex. rewrite Hh, Hl. simpl. zlen_pos. unwrap.
  do 2 f_equal. lia.
Qed.

Lemma firstIndex_view m : wf m -> firstIndex m = Ret (lv_off (view m) + 1).
Proof. intros H. unfold_wf H. unfold firstIndex. rewrite Hh. simpl. zlen_pos. by unwrap. Qed.

Lemma Term_view m i t0 : wf m -> view_term (view m) i = Some t0 -> Term_ m i = Ret (Ok t0).
Proof.
  intros H Ht. pose proof (view_term_range _ _ _ Ht) as Hr. unfold_wf H.
  unfold Term_. rewrite Hh. simpl. rewrite Hl. zlen_pos. unwrap. zcase; [lia |]. zcase; [lia |].
  unfold view_term in Ht. cbn [view lv_off lv_offterm lv_ents] in *. unfold go_index. rewrite Hs.
  change (head m :: ?l) with ([head m] ++ l) at 1. zcase_in Ht.
  - injection Ht as <-. replace (i - _) with 0 by lia. done.
  - rewrite zlookup_app_r by zl. replace (i - e_Index (head m) - zlen [head m])
      with (i - e_Index (head m) - 1) by zl.
    apply fmap_Some in Ht as (e & He & Hx). rewrite He, Hx. done.
Qed.

Lemma Entries_view m lo hi : wf m ->
  lv_off (view m) < lo -> lo < hi -> hi <= view_last (view m) + 1 ->
  Entries_ m lo hi = Ret (Ok (view_slice (view m) lo hi)).
Proof.
  intros H. pose proof (lastIndex_view _ H) as HL. unfold_wf H. intros ???.
  unfold Entries_. rewrite HL, Hh. simpl. unfold view_last. cbn [view lv_off lv_ents] in *.
  zlen_pos. unwrap. rewrite Hl. do 3 (zcase; [lia |]). rewrite go_slice_ok by lia.
  unfold view_slice. cbn [view lv_off lv_ents]. simpl. do 2 f_equal.
  rewrite Hs at 1. replace (Z.to_nat (lo - e_Index (head m)))
    with (S (Z.to_nat (lo - e_Index (head m) - 1))) by lia. simpl. f_equal. lia.
Qed.

Lemma Append_view m es i : wf m -> es <> [] -> contiguous i es ->
  lv_off (view m) < i -> i <= view_last (view m) + 1 -> i + zlen es <= idx_limit ->
  exists m', Append_ m es = Ret (Ok m') /\ wf m' /\ view m' = view_splice (view m) i es.
Proof.
  intros H Hne Hc ???. destruct es as [| e0 es]; [done |].
  assert (e_Index e0 = i) as He0 by apply Hc.
  pose proof (view_splice_wf (view m) i (e0 :: es) ltac:(apply H) Hc ltac:(done) ltac:(done)
    ltac:(done)) as Hwf.
  pose proof (lastIndex_view _ H) as HL. unfold_wf H.
  unfold Append_. rewrite HL, He0, Hh. simpl. unfold view_last. cbn [view lv_off lv_ents].
  zlen_pos. unwrap. do 2 (zcase; [lia |]). rewrite go_slice_ok by lia. simpl.
  eexists. split; [done |].
  assert (forall es', view (mk (hardState m)
     (take (Z.to_nat (i - e_Index (head m))) (entries m) ++ es')) = view_splice (view m) i es') as Hv.
  { intros es'. rewrite Hs at 1.
    replace (Z.to_nat (i - e_Index (head m))) with (S (Z.to_nat (i - e_Index (head m) - 1))) by lia.
    unfold view, view_splice, head. done. }
  rewrite Z.sub_0_r, drop_0. rewrite <- Hv in Hwf |- *. split; [| done]. split; [| done].
  simpl. by destruct (take _ _).
Qed.

#[export] Program Instance storage_laws : StorageLaws t := {
  st_view := view;
  st_wf := wf
}.
Next Obligation. by intros s [_ ?]. Qed.
Next Obligation. intros s _. simpl. unfold InitialState_. eauto. Qed.
Next Obligation. intros s H. simpl. unfold FirstIndex_. by rewrite firstIndex_view. Qed.
Next Obligation. intros s H. simpl. unfold LastIndex_. by rewrite lastIndex_view. Qed.
Next Obligation. intros. by apply Term_view. Qed.
Next Obligation. intros. by apply Entries_view. Qed.
Next Obligation. intros. by apply Append_view. Qed.
Next Obligation. intros s hs [H1 H2]. simpl. eexists. done. Qed.

Lemma New_wf : wf NewMemoryStorage.
Proof. split; [done |]. by split. Qed.

End MemoryStorage.
