(* ===== verification/RaftLog.v ===== *)
(** * Raft: the replicated log

    [components/raft/raft/log.go]: the unstable tail and the [raftLog] that
    joins it with a [Storage].  The operations are shown to implement their
    meaning on the sequence of entries the log stands for ([log_view]),
    against the laws of the [Storage] interface. *)
From S2P Require Import Prelude RaftModel.

(** ** unstable *)

Record unstable := mkUnstable { u_entries : list Entry; u_offset : Z }.

Definition unstable_mustCheckOutOfBounds (u : unstable) (l r : Z) : outcome unit :=
  if r <? l then Panic "invalid unstable slice"
  else if (l <? u_offset u) || (u64 (u_offset u + zlen (u_entries u)) <? r)
       then Panic "invalid unstable slice"
       else Ret tt.

Definition unstable_slice (u : unstable) (l r : Z) : outcome (list Entry) :=
  _ ← unstable_mustCheckOutOfBounds u l r;
  go_slice (u_entries u) (u64 (l - u_offset u)) (u64 (r - u_offset u)).

Definition truncateAndAppend (u : unstable) (entries : list Entry) : outcome unstable :=
  e0 ← go_index entries 0;
  let after := e_Index e0 in
  if after =? u64 (u_offset u + zlen (u_entries u)) then
    Ret (mkUnstable (u_entries u ++ entries) (u_offset u))
  else if after <=? u_offset u then
    Ret (mkUnstable entries after)
  else
    kept ← unstable_slice u (u_offset u) after;
    Ret (mkUnstable (kept ++ entries) (u_offset u)).

Definition maybeLastIndex (u : unstable) : option Z :=
  let l := zlen (u_entries u) in
  if negb (l =? 0) then Some (u64 (u64 (u_offset u + l) - 1)) else None.

Definition maybeTerm (u : unstable) (i : Z) : outcome (option Z) :=
  if i <? u_offset u then Ret None
  else match maybeLastIndex u with
       | None => Ret None
       | Some last =>
           if last <? i then Ret None
           else e ← go_index (u_entries u) (u64 (i - u_offset u)); Ret (Some (e_Term e))
       end.

Definition unstable_stableTo (u : unstable) (i t : Z) : outcome unstable :=
  gt ← maybeTerm u i;
  match gt with
  | None => Ret u
  | Some gt =>
      if (t =? gt) && (u_offset u <=? i) then
        es ← go_slice (u_entries u) (u64 (u64 (i - u_offset u) + 1)) (zlen (u_entries u));
        Ret (mkUnstable es (u64 (i + 1)))
      else Ret u
  end.

(** ** raftLog *)

Record raftLog (S : Type) := mkRaftLog {
  rl_storage : S;
  rl_unstable : unstable;
  rl_commitIndex : Z;
  rl_applyIndex : Z
}.
Arguments mkRaftLog {S} _ _ _ _.
Arguments rl_storage {S} _.
Arguments rl_unstable {S} _.
Arguments rl_commitIndex {S} _.
Arguments rl_applyIndex {S} _.

Definition rl_set_unstable {S} (u : unstable) (l : raftLog S) : raftLog S :=
  mkRaftLog (rl_storage l) u (rl_commitIndex l) (rl_applyIndex l).
Definition rl_set_commitIndex {S} (c : Z) (l : raftLog S) : raftLog S :=
  mkRaftLog (rl_storage l) (rl_unstable l) c (rl_applyIndex l).
Definition rl_set_applyIndex {S} (a : Z) (l : raftLog S) : raftLog S :=
  mkRaftLog (rl_storage l) (rl_unstable l) (rl_commitIndex l) a.
Definition rl_set_storage {S} (s : S) (l : raftLog S) : raftLog S :=
  mkRaftLog s (rl_unstable l) (rl_commitIndex l) (rl_applyIndex l).

(** [if err != nil { panic(err) }] *)
Definition err_text (e : StorageErr) : string :=
  match e with
  | ErrCompacted => "requested index is unavailable due to compaction"
  | ErrUnavailable => "request entry at index is unavailable"
  | ErrOther s => s
  end.

Definition must {A} (m : outcome (result StorageErr A)) : outcome A :=
  r ← m;
  match r with Ok a => Ret a | Err e => Panic (err_text e) end.

Section Ops.
Context {S : Type} `{Storage S}.

(** The code also panics on a nil storage; a [raftLog] of the model always has one. *)
Definition newRaftLog (storage : S) : outcome (raftLog S) :=
  firstIndex ← must (FirstIndex storage);
  lastIndex ← must (LastIndex storage);
  Ret (mkRaftLog storage (mkUnstable [] (u64 (lastIndex + 1)))
         (u64 (firstIndex - 1)) (u64 (firstIndex - 1))).

Definition stableTo (l : raftLog S) (i t : Z) : outcome (raftLog S) :=
  u ← unstable_stableTo (rl_unstable l) i t;
  Ret (rl_set_unstable u l).

Definition unstableEntries (l : raftLog S) : list Entry := u_entries (rl_unstable l).

Definition firstIndex (l : raftLog S) : outcome Z := must (FirstIndex (rl_storage l)).

Definition lastIndex (l : raftLog S) : outcome Z :=
  match maybeLastIndex (rl_unstable l) with
  | Some i => Ret i
  | None => must (LastIndex (rl_storage l))
  end.

Definition mustCheckOutOfBounds (l : raftLog S) (lo hi : Z) : outcome unit :=
  if hi <? lo then Panic "invalid raft log index"
  else
    fi ← firstIndex l;
    if lo <? fi then Panic "invalid raft log index"
    else
      last ← lastIndex l;
      if u64 (last + 1) <? hi then Panic "invalid raft log index"
      else Ret tt.

(** The code returns an error as well, which is always nil. *)
Definition slice (l : raftLog S) (lo hi : Z) : outcome (list Entry) :=
  _ ← mustCheckOutOfBounds l lo hi;
  if lo =? hi then Ret []
  else
    let off := u_offset (rl_unstable l) in
    stable ← (if lo <? off then must (Entries (rl_storage l) lo (Z.min off hi)) else Ret []);
    unst ← (if off <? hi then unstable_slice (rl_unstable l) (Z.max lo off) hi else Ret []);
    Ret (stable ++ unst).

Definition nextEntries (l : raftLog S) : outcome (list Entry) :=
  fi ← firstIndex l;
  let off := Z.max (u64 (rl_applyIndex l + 1)) fi in
  if off <? u64 (rl_commitIndex l + 1)
  then slice l off (u64 (rl_commitIndex l + 1))
  else Ret [].

Definition append (l : raftLog S) (entries : list Entry) : outcome (raftLog S * Z) :=
  match entries with
  | [] => last ← lastIndex l; Ret (l, last)
  | e0 :: _ =>
      let after := u64 (e_Index e0 - 1) in
      if after <? rl_commitIndex l then Panic "entry index less then commit index"
      else
        u ← truncateAndAppend (rl_unstable l) entries;
        let l' := rl_set_unstable u l in
        last ← lastIndex l';
        Ret (l', last)
  end.

Definition term (l : raftLog S) (i : Z) : outcome (result StorageErr Z) :=
  fi ← firstIndex l;
  let dummyIndex := u64 (fi - 1) in
  last ← lastIndex l;
  if (i <? dummyIndex) || (last <? i) then Ret (Ok 0)
  else
    mt ← maybeTerm (rl_unstable l) i;
    match mt with
    | Some t =>
        if negb (t =? 0) then Ret (Ok t)
        else r ← Term (rl_storage l) i;
             match r with
             | Ok t => Ret (Ok t)
             | Err (ErrOther s) => Panic s
             | Err e => Ret (Err e)
             end
    | None =>
        r ← Term (rl_storage l) i;
        match r with
        | Ok t => Ret (Ok t)
        | Err (ErrOther s) => Panic s
        | Err e => Ret (Err e)
        end
    end.

Definition lastTerm (l : raftLog S) : outcome Z :=
  last ← lastIndex l;
  must (term l last).

Definition isUpToDate (l : raftLog S) (index tm : Z) : outcome bool :=
  lt ← lastTerm l;
  if lt <? tm then Ret true
  else if tm =? lt then last ← lastIndex l; Ret (last <=? index)
  else Ret false.

Definition appliedTo (l : raftLog S) (i : Z) : outcome (raftLog S) :=
  if i =? 0 then Ret l
  else if (rl_commitIndex l <? i) || (i <? rl_applyIndex l) then Panic "invalid apply index"
  else Ret (rl_set_applyIndex i l).

Definition entries (l : raftLog S) (i : Z) : outcome (list Entry) :=
  last ← lastIndex l;
  if last <? i then Ret []
  else slice l i (u64 (last + 1)).

Definition zeroTermOnErrCompacted (r : result StorageErr Z) : outcome Z :=
  match r with
  | Ok t => Ret t
  | Err ErrCompacted => Ret 0
  | Err e => Panic (err_text e)
  end.

Definition commitTo (l : raftLog S) (toCommit : Z) : outcome (raftLog S) :=
  if toCommit <=? rl_commitIndex l then Ret l
  else
    last ← lastIndex l;
    if last <? toCommit then Panic "commit index over last index"
    else Ret (rl_set_commitIndex toCommit l).

Definition maybeCommit (l : raftLog S) (maxIndex tm : Z) : outcome (raftLog S * bool) :=
  if rl_commitIndex l <? maxIndex then
    r ← term l maxIndex;
    t ← zeroTermOnErrCompacted r;
    if t =? tm then l' ← commitTo l maxIndex; Ret (l', true)
    else Ret (l, false)
  else Ret (l, false).

Definition matchTerm (l : raftLog S) (logIndex logTerm : Z) : outcome bool :=
  r ← term l logIndex;
  match r with
  | Ok t => Ret (t =? logTerm)
  | Err _ => Ret false
  end.

Fixpoint findConflict (l : raftLog S) (es : list Entry) : outcome Z :=
  match es with
  | [] => Ret 0
  | ent :: es' =>
      b ← matchTerm l (e_Index ent) (e_Term ent);
      if b : bool then findConflict l es' else Ret (e_Index ent)
  end.

Definition maybeAppend (l : raftLog S) (logIndex logTerm commitIndex : Z) (es : list Entry) :
    outcome (raftLog S * option Z) :=
  ok ← matchTerm l logIndex logTerm;
  if negb ok then Ret (l, None)
  else
    let lastNewI := u64 (logIndex + zlen es) in
    conflictStart ← findConflict l es;
    l1 ← (if conflictStart =? 0 then Ret l
          else if conflictStart <=? rl_commitIndex l then Panic "conflict before commit index"
          else
            let offset := u64 (logIndex + 1) in
            tl ← go_slice es (u64 (conflictStart - offset)) (zlen es);
            p ← append l tl; Ret p.1);
    l2 ← commitTo l1 (Z.min commitIndex lastNewI);
    Ret (l2, Some lastNewI).

End Ops.

(** ** What the log stands for *)

Section Theory.
Context {S : Type} `{StorageLaws S}.
Implicit Types l : raftLog S.

(** The stored entries below the unstable offset, then the unstable ones. *)
Definition log_view (l : raftLog S) : LogView :=
  view_splice (st_view (rl_storage l)) (u_offset (rl_unstable l)) (u_entries (rl_unstable l)).

Definition log_ents (l : raftLog S) : list Entry := lv_ents (log_view l).
Definition log_last (l : raftLog S) : Z := view_last (log_view l).
Definition log_off (l : raftLog S) : Z := lv_off (st_view (rl_storage l)).

(** The term of an index, 0 outside of the log. *)
Definition log_term (l : raftLog S) (i : Z) : Z := default 0 (view_term (log_view l) i).

Record log_wf (l : raftLog S) : Prop := {
  lw_storage : st_wf (rl_storage l);
  lw_offset : log_off l < u_offset (rl_unstable l) <= view_last (st_view (rl_storage l)) + 1;
  lw_contig : contiguous (u_offset (rl_unstable l)) (u_entries (rl_unstable l));
  lw_terms : Forall (fun e => 0 < e_Term e) (u_entries (rl_unstable l));
  lw_empty : u_entries (rl_unstable l) = [] ->
    u_offset (rl_unstable l) = view_last (st_view (rl_storage l)) + 1;
  lw_limit : u_offset (rl_unstable l) + zlen (u_entries (rl_unstable l)) <= idx_limit;
  lw_apply : log_off l <= rl_applyIndex l <= rl_commitIndex l;
  lw_commit : rl_commitIndex l <= log_last l
}.

Lemma log_last_eq l : log_wf l ->
  log_last l = u_offset (rl_unstable l) + zlen (u_entries (rl_unstable l)) - 1.
Proof. intros []. unfold log_off in *. apply view_splice_last; lia. Qed.

Lemma log_off_nonneg l : log_wf l -> 0 <= log_off l.
Proof. intros []. unfold log_off. by apply st_view_wf in lw_storage0 as []. Qed.

Lemma log_view_wf l : log_wf l -> view_wf (log_view l).
Proof.
  intros []. apply view_splice_wf; try done; try apply lw_offset0. by apply st_view_wf.
Qed.

Lemma log_view_off l : lv_off (log_view l) = log_off l.
Proof. done. Qed.

(** [lw H]: the bounds of a well-formed log, as facts for [lia]. *)
Ltac lw H :=
  pose proof (log_last_eq _ H); pose proof (log_off_nonneg _ H);
  pose proof (vw_last _ (log_view_wf _ H));
  pose proof (lw_offset _ H); pose proof (lw_limit _ H);
  pose proof (lw_apply _ H); pose proof (lw_commit _ H);
  zlen_pos; unfold idx_limit in *.

Lemma firstIndex_spec l : log_wf l -> firstIndex l = Ret (log_off l + 1).
Proof. intros Hw. unfold firstIndex. by rewrite st_first by apply Hw. Qed.

Lemma maybeLastIndex_spec l : log_wf l ->
  maybeLastIndex (rl_unstable l) =
    if zlen (u_entries (rl_unstable l)) =? 0 then None else Some (log_last l).
Proof.
  intros Hw. unfold maybeLastIndex. destruct (Z.eqb_spec (zlen (u_entries (rl_unstable l))) 0);
    [done |]. simpl. f_equal. lw Hw. unwrap. lia.
Qed.

Lemma lastIndex_spec l : log_wf l -> lastIndex l = Ret (log_last l).
Proof.
  intros Hw. unfold lastIndex. rewrite maybeLastIndex_spec by done. zcase; [| done].
  rewrite st_last by apply Hw. simpl. f_equal.
  pose proof (lw_empty _ Hw (zlen_0_nil _ Eb)). lw Hw. lia.
Qed.

Lemma maybeTerm_spec l i : log_wf l ->
  maybeTerm (rl_unstable l) i =
    Ret (if i <? u_offset (rl_unstable l) then None
         else e_Term <$> zlookup (u_entries (rl_unstable l)) (i - u_offset (rl_unstable l))).
Proof.
  intros Hw. unfold maybeTerm. zcase; [done |]. rewrite maybeLastIndex_spec by done.
  lw Hw. destruct (decide (i <= log_last l)).
  - zcase; [lia |]. zcase; [lia |]. unwrap.
    destruct (zlookup_is_Some (u_entries (rl_unstable l)) (i - u_offset (rl_unstable l)))
      as [e He]; [lia |].
    unfold go_index. by rewrite He.
  - assert (zlookup (u_entries (rl_unstable l)) (i - u_offset (rl_unstable l)) = None) as ->.
    { destruct (zlookup _ _) eqn:E; [| done]. apply zlookup_Some_range in E. lia. }
    zcase; [done |]. by zcase; [| lia].
Qed.

Lemma term_spec l i : log_wf l -> term l i = Ret (Ok (log_term l i)).
Proof.
  intros Hw. unfold term. rewrite firstIndex_spec, lastIndex_spec by done. simpl.
  lw Hw. unwrap. replace (log_off l + 1 - 1) with (log_off l) by lia. unfold log_term.
  destruct (decide (log_off l <= i <= log_last l)) as [Hi | Hi].
  - zcase; [destruct Eb; zb; lia |].
    rewrite maybeTerm_spec by done. simpl.
    unfold log_view. zcase.
    + rewrite view_term_splice_old by (unfold log_off in *; lia).
      destruct (view_term_is_Some (st_view (rl_storage l)) i) as [t Ht];
        [unfold log_off in *; lia |].
      rewrite Ht, (st_term _ _ t) by (done || apply Hw). done.
    + rewrite view_term_splice_new by (unfold log_off in *; lia).
      destruct (zlookup_is_Some (u_entries (rl_unstable l)) (i - u_offset (rl_unstable l)))
        as [e He]; [lia |].
      rewrite He. simpl.
      pose proof (zlookup_Forall _ _ _ _ (lw_terms _ Hw) He) as Hpos. simpl in Hpos.
      zcase; [done | lia].
  - assert (view_term (log_view l) i = None) as ->.
    { destruct (view_term _ _) eqn:E; [| done]. apply view_term_range in E.
      rewrite log_view_off in E. unfold log_last in *. lia. }
    simpl. zcase; [done | lia].
Qed.

Lemma view_slice_nil v i : view_slice v i i = [].
Proof. unfold view_slice. by rewrite Z.sub_diag. Qed.

(** A slice of a spliced log is made of a slice of the old part and one of the new. *)
Lemma view_slice_splice v o es lo hi :
  lv_off v < o -> o <= view_last v + 1 -> lv_off v < lo -> lo <= hi -> hi <= o + zlen es ->
  view_slice (view_splice v o es) lo hi =
    (if lo <? o then view_slice v lo (Z.min o hi) else []) ++
    (if o <? hi then take (Z.to_nat (hi - Z.max lo o)) (drop (Z.to_nat (Z.max lo o - o)) es) else []).
Proof.
  unfold view_last. intros. unfold view_slice, view_splice. simpl. unfold zlen in *.
  rewrite drop_app, take_app. f_equal.
  - zcase.
    + apply list_eq. intros k.
      rewrite !lookup_take, !lookup_drop, !lookup_take.
      repeat case_decide; try done; try lia.
    + rewrite (drop_ge (take _ _)) by (rewrite length_take; lia). by rewrite take_nil.
  - rewrite length_drop, length_take. zcase.
    + f_equal; [lia |]. f_equal. lia.
    + replace (_ - _)%nat with 0%nat by lia. done.
Qed.

Lemma unstable_slice_spec l lo hi : log_wf l ->
  u_offset (rl_unstable l) <= lo -> lo <= hi -> hi <= log_last l + 1 ->
  unstable_slice (rl_unstable l) lo hi =
    Ret (take (Z.to_nat (hi - lo)) (drop (Z.to_nat (lo - u_offset (rl_unstable l)))
           (u_entries (rl_unstable l)))).
Proof.
  intros Hw ???. lw Hw. unfold unstable_slice, unstable_mustCheckOutOfBounds. unwrap.
  zcase; [lia |]. zcase; [destruct Eb0; zb; lia |]. simpl. unwrap.
  rewrite go_slice_ok by lia. do 2 f_equal; lia.
Qed.

Lemma mustCheckOutOfBounds_ok l lo hi : log_wf l ->
  log_off l < lo -> lo <= hi -> hi <= log_last l + 1 ->
  mustCheckOutOfBounds l lo hi = Ret tt.
Proof.
  intros Hw ???. lw Hw. unfold mustCheckOutOfBounds.
  rewrite firstIndex_spec, lastIndex_spec by done. simpl. unwrap.
  do 3 (zcase; [lia |]). done.
Qed.

Lemma slice_spec l lo hi : log_wf l ->
  log_off l < lo -> lo <= hi -> hi <= log_last l + 1 ->
  slice l lo hi = Ret (view_slice (log_view l) lo hi).
Proof.
  intros Hw ???. lw Hw. unfold slice. rewrite mustCheckOutOfBounds_ok by done. simpl.
  destruct (Z.eqb_spec lo hi); [subst; by rewrite view_slice_nil |].
  unfold log_view. rewrite view_slice_splice by (unfold log_off in *; lia).
  set (off := u_offset (rl_unstable l)) in *.
  assert ((if lo <? off then must (Entries (rl_storage l) lo (Z.min off hi)) else Ret []) =
          Ret (if lo <? off then view_slice (st_view (rl_storage l)) lo (Z.min off hi) else []))
    as ->.
  { zcase; [| done]. rewrite st_entries; [done | apply Hw | | |]; unfold log_off in *; lia. }
  assert ((if off <? hi then unstable_slice (rl_unstable l) (Z.max lo off) hi else Ret []) =
          Ret (if off <? hi then take (Z.to_nat (hi - Z.max lo off))
            (drop (Z.to_nat (Z.max lo off - off)) (u_entries (rl_unstable l))) else [])) as ->.
  { zcase; [| done]. apply unstable_slice_spec; try done; lia. }
  done.
Qed.

Lemma entries_spec l i : log_wf l -> log_off l < i ->
  entries l i = Ret (view_slice (log_view l) i (Z.max i (log_last l + 1))).
Proof.
  intros Hw ?. lw Hw. unfold entries. rewrite lastIndex_spec by done. simpl. zcase.
  - rewrite Z.max_l by lia. by rewrite view_slice_nil.
  - unwrap. rewrite Z.max_r by lia. apply slice_spec; try done; lia.
Qed.

Lemma nextEntries_spec l : log_wf l ->
  nextEntries l = Ret (view_slice (log_view l) (rl_applyIndex l + 1) (rl_commitIndex l + 1)).
Proof.
  intros Hw. lw Hw. unfold nextEntries. rewrite firstIndex_spec by done. simpl. unwrap.
  rewrite Z.max_l by lia. zcase.
  - apply slice_spec; try done; lia.
  - replace (rl_commitIndex l) with (rl_applyIndex l) by lia. by rewrite view_slice_nil.
Qed.

Lemma lastTerm_spec l : log_wf l -> lastTerm l = Ret (log_term l (log_last l)).
Proof. intros Hw. unfold lastTerm. rewrite lastIndex_spec by done. simpl. by rewrite term_spec. Qed.

(** The comparison of the Raft paper: by last term, then by length. *)
Lemma isUpToDate_spec l i t : log_wf l ->
  isUpToDate l i t =
    Ret (bool_decide (log_term l (log_last l) < t \/
                      t = log_term l (log_last l) /\ log_last l <= i)).
Proof.
  intros Hw. unfold isUpToDate. rewrite lastTerm_spec, lastIndex_spec by done. simpl.
  zcase; [by rewrite bool_decide_true by auto |]. zcase.
  - f_equal. rewrite <- bool_decide_eq_true with (P := log_last l <= i) || idtac.
    destruct (Z.leb_spec (log_last l) i);
      [rewrite bool_decide_true | rewrite bool_decide_false]; auto; lia.
  - rewrite bool_decide_false; [done | lia].
Qed.

Lemma matchTerm_spec l i t : log_wf l -> matchTerm l i t = Ret (log_term l i =? t).
Proof. intros Hw. unfold matchTerm. by rewrite term_spec. Qed.

(** *** append *)

Lemma view_splice_splice_in v o es i fs :
  lv_off v < o -> o <= view_last v + 1 -> o <= i -> i <= o + zlen es ->
  view_splice (view_splice v o es) i fs = view_splice v o (take (Z.to_nat (i - o)) es ++ fs).
Proof.
  unfold view_last. intros. unfold view_splice. simpl. f_equal.
  rewrite app_assoc. f_equal. unfold zlen in *.
  rewrite take_app, take_take. f_equal; f_equal; [lia |]. rewrite length_take. lia.
Qed.

Lemma view_splice_splice_before v o es i fs :
  lv_off v < i -> i <= o -> o <= view_last v + 1 ->
  view_splice (view_splice v o es) i fs = view_splice v i fs.
Proof.
  unfold view_last. intros. unfold view_splice. simpl. do 2 f_equal. unfold zlen in *.
  rewrite take_app_le by (rewrite length_take; lia). rewrite take_take. f_equal. lia.
Qed.

(** What happens to the unstable entries before they are saved: they may be
    replaced from an earlier index on, and never become none. *)
Definition unstable_keeps (u u' : unstable) : Prop :=
  u_offset u' <= u_offset u /\ (u_entries u <> [] -> u_entries u' <> []).

#[export] Instance unstable_keeps_preorder : PreOrder unstable_keeps.
Proof.
  split; [by intros u |]. intros u1 u2 u3 [? ?] [? ?]. split; [lia | auto].
Qed.

Lemma truncateAndAppend_spec l i es : log_wf l ->
  es <> [] -> contiguous i es -> log_off l < i -> i <= log_last l + 1 ->
  exists u, truncateAndAppend (rl_unstable l) es = Ret u /\
    log_view (rl_set_unstable u l) = view_splice (log_view l) i es /\
    log_off l < u_offset u <= view_last (st_view (rl_storage l)) + 1 /\
    u_offset u + zlen (u_entries u) = i + zlen es /\
    contiguous (u_offset u) (u_entries u) /\
    (u_entries u <> [] /\ u_offset u <= u_offset (rl_unstable l)) /\
    (Forall (fun e => 0 < e_Term e) es -> Forall (fun e => 0 < e_Term e) (u_entries u)).
Proof.
  intros Hw Hne Hc ??. destruct es as [| e0 es]; [done |].
  assert (e_Index e0 = i) as He0 by apply Hc. lw Hw.
  pose proof (lw_contig _ Hw) as Hcu. pose proof (lw_terms _ Hw) as Htu.
  unfold truncateAndAppend. simpl. rewrite He0. unwrap.
  unfold log_off in *. destruct l as [st [ue uo] ci ai]. unfold log_view in *. simpl in *.
  zcase; [| zcase].
  - eexists. split; [done |]. simpl. rewrite view_splice_splice_in by lia.
    replace (Z.to_nat (i - uo)) with (length ue) by (unfold zlen in *; lia).
    rewrite firstn_all. split_and!; try done; try lia; [zl | | by destruct ue |].
    + apply contiguous_app. split; [done |]. by replace (uo + zlen ue) with i by lia.
    + intros. by apply Forall_app.
  - eexists. split; [done |]. simpl. rewrite view_splice_splice_before by lia.
    split_and!; try lia; try done; apply Hc.
  - pose proof (unstable_slice_spec _ uo i Hw) as Hsl. simpl in Hsl.
    rewrite Hsl by lia. rewrite Z.sub_diag, drop_0. simpl. eexists. split; [done |]. simpl.
    rewrite view_splice_splice_in by lia.
    split_and!; try done; try lia; [zl | | by destruct (take (Z.to_nat (i - uo)) ue) |].
    + apply contiguous_app. split; [by apply contiguous_take |].
      rewrite zlen_take. by replace (uo + Z.min _ _) with i by lia.
    + intros. apply Forall_app. split; [by apply Forall_take | done].
Qed.

(** Appending at index [i], above the commit index, replaces what the log had from [i] on. *)
Lemma append_spec l i es : log_wf l ->
  es <> [] -> contiguous i es -> Forall (fun e => 0 < e_Term e) es ->
  rl_commitIndex l < i -> i <= log_last l + 1 -> i + zlen es <= idx_limit ->
  exists l', append l es = Ret (l', i + zlen es - 1) /\ log_wf l' /\
    log_view l' = view_splice (log_view l) i es /\
    rl_storage l' = rl_storage l /\
    rl_commitIndex l' = rl_commitIndex l /\ rl_applyIndex l' = rl_applyIndex l /\
    unstable_keeps (rl_unstable l) (rl_unstable l').
Proof.
  intros Hw Hne Hc Ht ???. lw Hw.
  destruct (truncateAndAppend_spec l i es Hw Hne Hc) as (u & Hu & Hv & Huo & Hlen & Hcu & [Hun Hmo] & Htu);
    [lia | lia |].
  assert (log_wf (rl_set_unstable u l)) as Hw'.
  { split; simpl; try apply Hw; try done; [by apply Htu | unfold idx_limit in *; lia |].
    unfold log_last. rewrite Hv, view_splice_last by (rewrite ?log_view_off; unfold log_last in *; lia).
    destruct es; [done |]. zl. }
  exists (rl_set_unstable u l). split; [| done]. unfold append.
  destruct es as [| e0 es]; [done |]. assert (e_Index e0 = i) as He0 by apply Hc.
  rewrite He0. unwrap. zcase; [lia |]. rewrite Hu. simpl. rewrite lastIndex_spec by done.
  simpl. do 2 f_equal. rewrite log_last_eq by done. simpl. lia.
Qed.

Lemma append_below_commit l e es :
  0 < e_Index e -> e_Index e <= rl_commitIndex l -> rl_commitIndex l < idx_limit ->
  append l (e :: es) = Panic "entry index less then commit index".
Proof.
  intros. unfold append, idx_limit in *. unwrap. zcase; [done | lia].
Qed.

(** *** commitTo, appliedTo *)

Lemma log_wf_set_commit l c : log_wf l -> rl_commitIndex l <= c -> c <= log_last l ->
  log_wf (rl_set_commitIndex c l).
Proof. intros [] ??. split; simpl; try done. unfold log_off in *. simpl. lia. Qed.

Lemma commitTo_spec l c : log_wf l -> c <= log_last l ->
  exists l', commitTo l c = Ret l' /\ l' = rl_set_commitIndex (Z.max (rl_commitIndex l) c) l /\
    log_wf l'.
Proof.
  intros Hw ?. lw Hw. eexists. split; [| split; [done |]].
  - unfold commitTo. zcase.
    + rewrite Z.max_l by lia. by destruct l.
    + rewrite lastIndex_spec by done. simpl. zcase; [lia |]. by rewrite Z.max_r by lia.
  - apply log_wf_set_commit; try done; lia.
Qed.

Lemma appliedTo_spec l i : log_wf l -> rl_applyIndex l <= i -> i <= rl_commitIndex l -> i <> 0 ->
  appliedTo l i = Ret (rl_set_applyIndex i l) /\ log_wf (rl_set_applyIndex i l).
Proof.
  intros Hw ???. split.
  - unfold appliedTo. zcase; [lia |]. zcase; [destruct Eb0; zb; lia | done].
  - destruct Hw. split; simpl; try done. unfold log_off in *. simpl. lia.
Qed.

(** *** maybeAppend *)

(** The first entry of [es] that the log does not have. *)
Fixpoint conflict_at (v : LogView) (es : list Entry) : option Z :=
  match es with
  | [] => None
  | e :: es' =>
      if decide (view_term v (e_Index e) = Some (e_Term e)) then conflict_at v es'
      else Some (e_Index e)
  end.

(** The log after receiving the entries [es] that follow index [prev]. *)
Definition view_append (v : LogView) (prev : Z) (es : list Entry) : LogView :=
  match conflict_at v es with
  | None => v
  | Some c => view_splice v c (drop (Z.to_nat (c - prev - 1)) es)
  end.

Lemma findConflict_spec l es : log_wf l -> Forall (fun e => 0 < e_Term e) es ->
  findConflict l es = Ret (default 0 (conflict_at (log_view l) es)).
Proof.
  intros Hw. induction 1 as [| e es He _ IH]; [done |]. cbn [findConflict conflict_at].
  rewrite matchTerm_spec by done. simpl. unfold log_term. case_decide as Hd.
  - rewrite Hd. simpl. by rewrite Z.eqb_refl.
  - zcase; [| done]. destruct (view_term _ _) as [t |] eqn:E; simpl in *; [congruence | lia].
Qed.

(** A conflict is inside the new entries; everything before it matches. *)
Lemma conflict_at_Some v prev es c :
  contiguous (prev + 1) es -> conflict_at v es = Some c ->
  prev < c <= prev + zlen es /\
  (forall k e, zlookup es k = Some e -> prev + 1 + k < c ->
     view_term v (prev + 1 + k) = Some (e_Term e)).
Proof.
  revert prev. induction es as [| e es IH]; intros prev Hc Hx; simpl in *; [done |].
  destruct Hc as [He Hc]. case_decide as Hd.
  - destruct (IH (prev + 1) Hc Hx) as [Hr Hm]. split; [zl |].
    intros k e' Hk Hlt. destruct (decide (k = 0)) as [-> | Hk0].
    + unfold zlookup in Hk. simpl in Hk. injection Hk as <-. rewrite <- Hd. f_equal. lia.
    + pose proof (zlookup_Some_range _ _ _ Hk).
      change (e :: es) with ([e] ++ es) in Hk. rewrite zlookup_app_r in Hk by zl.
      replace (k - zlen [e]) with (k - 1) in Hk by zl.
      replace (prev + 1 + k) with (prev + 1 + 1 + (k - 1)) by lia. apply Hm; [done | lia].
  - injection Hx as <-. zlen_pos. split; [zl |].
    intros k e' Hk%zlookup_Some_range Hlt. lia.
Qed.

Lemma conflict_at_None v prev es :
  contiguous (prev + 1) es -> conflict_at v es = None ->
  forall k e, zlookup es k = Some e -> view_term v (prev + 1 + k) = Some (e_Term e).
Proof.
  revert prev. induction es as [| e es IH]; intros prev Hc Hx k e' Hk.
  - apply zlookup_Some_range in Hk. rewrite zlen_nil in Hk. lia.
  - simpl in Hx. destruct Hc as [He Hc]. case_decide as Hd; [| done].
    destruct (decide (k = 0)) as [-> | Hk0].
    + unfold zlookup in Hk. simpl in Hk. injection Hk as <-. rewrite <- Hd. f_equal. lia.
    + pose proof (zlookup_Some_range _ _ _ Hk).
      change (e :: es) with ([e] ++ es) in Hk. rewrite zlookup_app_r in Hk by zl.
      replace (k - zlen [e]) with (k - 1) in Hk by zl.
      replace (prev + 1 + k) with (prev + 1 + 1 + (k - 1)) by lia. by apply (IH (prev + 1)).
Qed.

Lemma conflict_at_last v prev es c :
  view_wf v -> contiguous (prev + 1) es -> lv_off v <= prev -> prev <= view_last v ->
  conflict_at v es = Some c -> c <= view_last v + 1.
Proof.
  intros Hv Hc ?? Hx. destruct (conflict_at_Some _ _ _ _ Hc Hx) as [Hr Hm].
  destruct (decide (c <= view_last v + 1)); [done | exfalso].
  destruct (zlookup_is_Some es (c - prev - 2)) as [e He]; [lia |].
  specialize (Hm _ _ He ltac:(lia)). apply view_term_range in Hm. lia.
Qed.

Lemma maybeAppend_reject l i t c es : log_wf l -> log_term l i <> t ->
  maybeAppend l i t c es = Ret (l, None).
Proof.
  intros Hw Ht. unfold maybeAppend. rewrite matchTerm_spec by done. simpl.
  by rewrite (proj2 (Z.eqb_neq _ _) Ht).
Qed.

Lemma maybeAppend_accept l prev c es : log_wf l ->
  log_off l <= prev <= log_last l ->
  contiguous (prev + 1) es -> Forall (fun e => 0 < e_Term e) es ->
  prev + 1 + zlen es <= idx_limit ->
  (forall k, conflict_at (log_view l) es = Some k -> rl_commitIndex l < k) ->
  exists l', maybeAppend l prev (log_term l prev) c es = Ret (l', Some (prev + zlen es)) /\
    log_wf l' /\ log_view l' = view_append (log_view l) prev es /\
    rl_storage l' = rl_storage l /\ rl_applyIndex l' = rl_applyIndex l /\
    rl_commitIndex l' = Z.max (rl_commitIndex l) (Z.min c (prev + zlen es)) /\
    unstable_keeps (rl_unstable l) (rl_unstable l').
Proof.
  intros Hw Hprev Hc Ht Hlim Hconf. lw Hw. unfold maybeAppend.
  rewrite matchTerm_spec by done. simpl. rewrite Z.eqb_refl. simpl.
  rewrite findConflict_spec by done. simpl. unwrap. unfold view_append.
  destruct (conflict_at (log_view l) es) as [k |] eqn:Ek; cbn [default].
  - cbn [from_option id]. destruct (conflict_at_Some _ _ _ _ Hc Ek) as [Hk _].
    pose proof (conflict_at_last _ _ _ _ (log_view_wf _ Hw) Hc ltac:(rewrite log_view_off; lia)
      ltac:(unfold log_last in *; lia) Ek) as Hkl.
    specialize (Hconf _ eq_refl). zcase; [lia |]. zcase; [lia |]. unwrap.
    rewrite go_slice_ok by lia. simpl.
    replace (Z.to_nat (zlen es - (k - (prev + 1)))) with
      (length (drop (Z.to_nat (k - (prev + 1))) es)) by (rewrite length_drop; unfold zlen in *; lia).
    rewrite firstn_all. replace (k - (prev + 1)) with (k - prev - 1) by lia.
    set (tl := drop (Z.to_nat (k - prev - 1)) es).
    assert (zlen tl = prev + zlen es - k + 1) as Htl by (subst tl; rewrite zlen_drop; lia).
    destruct (append_spec l k tl Hw) as (l1 & Ha & Hw1 & Hv1 & Hs1 & Hc1 & Ha1 & Hk1);
      [ intros E; rewrite E, zlen_nil in Htl; lia | | | done | unfold log_last in *; lia
      | unfold idx_limit; lia |].
    { replace k with (prev + 1 + Z.of_nat (Z.to_nat (k - prev - 1))) by lia.
      apply contiguous_drop; [unfold zlen in *; lia | done]. }
    { by apply Forall_drop. }
    rewrite Ha. simpl.
    assert (log_last l1 = prev + zlen es) as Hl1.
    { unfold log_last. rewrite Hv1, view_splice_last; [lia | rewrite log_view_off; lia | lia]. }
    destruct (commitTo_spec l1 (Z.min c (prev + zlen es)) Hw1) as (l2 & -> & -> & Hw2); [lia |].
    simpl. eexists. split; [done |]. rewrite Hc1 in *. done.
  - simpl. assert (prev + zlen es <= log_last l) as Hle.
    { destruct (decide (zlen es = 0)); [lia |].
      destruct (zlookup_is_Some es (zlen es - 1)) as [e He]; [lia |].
      pose proof (conflict_at_None _ _ _ Hc Ek _ _ He) as Hx%view_term_range.
      unfold log_last. lia. }
    destruct (commitTo_spec l (Z.min c (prev + zlen es)) Hw) as (l2 & -> & -> & Hw2); [lia |].
    simpl. eexists. split; [done |]. done.
Qed.

(** A conflict at or below the commit index stops the node. *)
Lemma maybeAppend_conflict_committed l prev c es k : log_wf l ->
  contiguous (prev + 1) es -> Forall (fun e => 0 < e_Term e) es -> 0 <= prev ->
  conflict_at (log_view l) es = Some k -> k <= rl_commitIndex l ->
  maybeAppend l prev (log_term l prev) c es = Panic "conflict before commit index".
Proof.
  intros Hw Hc Ht Hp Hk Hle. destruct (conflict_at_Some _ _ _ _ Hc Hk) as [Hr _].
  unfold maybeAppend. rewrite matchTerm_spec by done. simpl. rewrite Z.eqb_refl. simpl.
  rewrite findConflict_spec by done. simpl. rewrite Hk. cbn [from_option id].
  replace (k =? 0) with false by lia. replace (k <=? rl_commitIndex l) with true by lia. done.
Qed.

(** Every entry received is in the log afterwards; what precedes them is unchanged. *)
Lemma view_append_terms v prev es : view_wf v ->
  lv_off v <= prev <= view_last v -> contiguous (prev + 1) es ->
  (forall k e, zlookup es k = Some e ->
     view_term (view_append v prev es) (prev + 1 + k) = Some (e_Term e)) /\
  (forall i, i <= prev -> view_term (view_append v prev es) i = view_term v i).
Proof.
  intros Hv Hp Hc. unfold view_append. destruct (conflict_at v es) as [c |] eqn:Ec.
  - destruct (conflict_at_Some _ _ _ _ Hc Ec) as [Hr Hm].
    pose proof (conflict_at_last _ _ _ _ Hv Hc ltac:(lia) ltac:(lia) Ec) as Hcl. split.
    + intros k e Hk. pose proof (zlookup_Some_range _ _ _ Hk).
      destruct (decide (prev + 1 + k < c)).
      * rewrite view_term_splice_old by lia. by apply Hm.
      * rewrite view_term_splice_new, zlookup_drop by lia.
        replace (Z.of_nat _ + _) with k by lia. by rewrite Hk.
    + intros i Hi. apply view_term_splice_old; lia.
  - split; [by apply conflict_at_None | done].
Qed.

(** The entry of a view at an index. *)
Definition view_entry (v : LogView) (i : Z) : option Entry := zlookup (lv_ents v) (i - lv_off v - 1).

Definition log_entry (l : raftLog S) (i : Z) : option Entry := view_entry (log_view l) i.

Lemma view_term_entry v i : lv_off v < i -> view_term v i = e_Term <$> view_entry v i.
Proof. intros. unfold view_term. by zcase; [lia |]. Qed.

Lemma view_entry_splice_old v i es k :
  lv_off v < i -> i <= view_last v + 1 -> k < i -> view_entry (view_splice v i es) k = view_entry v k.
Proof.
  unfold view_entry, view_last. cbn [view_splice lv_ents lv_off]. intros. destruct (decide (k <= lv_off v)).
  - unfold zlookup. by zcase; [| lia].
  - by rewrite zlookup_app_l, zlookup_take by zl.
Qed.

Lemma view_entry_splice_new v i es k :
  lv_off v < i -> i <= view_last v + 1 -> i <= k -> view_entry (view_splice v i es) k = zlookup es (k - i).
Proof. unfold view_entry, view_last. cbn [view_splice lv_ents lv_off]. intros. rewrite zlookup_app_r by zl. f_equal. zl. Qed.

(** The first entry that the log does not have differs from what the log has there. *)
Lemma conflict_at_differs v prev es c :
  contiguous (prev + 1) es -> conflict_at v es = Some c ->
  exists e, zlookup es (c - prev - 1) = Some e /\ view_term v c <> Some (e_Term e).
Proof.
  revert prev. induction es as [| e es IH]; intros prev Hc Hx; cbn [conflict_at] in Hx; [done |]. destruct Hc as [He Hc]. case_decide as Hd.
  - destruct (IH (prev + 1) Hc Hx) as (e' & He' & Hne). exists e'. split; [| done]. destruct (conflict_at_Some _ _ _ _ Hc Hx) as [Hr _].
    change (e :: es) with ([e] ++ es). rewrite zlookup_app_r by zl. rewrite <- He'. f_equal. zl.
  - injection Hx as <-. exists e. split; [| done]. rewrite He. by replace (prev + 1 - prev - 1) with 0 by lia.
Qed.

(** Where [view_append] begins to take the entries received. *)
Definition append_from (v : LogView) (prev : Z) (es : list Entry) : Z := default (prev + zlen es + 1) (conflict_at v es).

Lemma view_append_entries v prev es (c := append_from v prev es) (v' := view_append v prev es) :
  view_wf v -> lv_off v <= prev <= view_last v -> contiguous (prev + 1) es ->
  prev < c <= prev + zlen es + 1 /\
  (forall i, i < c -> view_entry v' i = view_entry v i) /\
  (forall k e, zlookup es k = Some e -> prev + 1 + k < c -> e_Term <$> view_entry v (prev + 1 + k) = Some (e_Term e)) /\
  (forall k e, zlookup es k = Some e -> c <= prev + 1 + k -> view_entry v' (prev + 1 + k) = Some e) /\
  (if decide (c <= prev + zlen es)
   then (exists e, zlookup es (c - prev - 1) = Some e /\ e_Term <$> view_entry v c <> Some (e_Term e)) /\ view_last v' = prev + zlen es
   else v' = v).
Proof.
  intros Hv Hp Hc. subst c v'. unfold append_from, view_append. zlen_pos. destruct (conflict_at v es) as [c |] eqn:Ec; cbn [default from_option id].
  - destruct (conflict_at_Some _ _ _ _ Hc Ec) as [Hr Hm]. pose proof (conflict_at_last _ _ _ _ Hv Hc ltac:(lia) ltac:(lia) Ec) as Hcl.
    assert (Hd : zlen (drop (Z.to_nat (c - prev - 1)) es) = prev + zlen es - c + 1) by (rewrite zlen_drop; lia).
    split_and!; [lia | lia | | | |].
    + intros i Hi. by apply view_entry_splice_old; lia.
    + intros k e Hk Hlt. pose proof (zlookup_Some_range _ _ _ Hk). rewrite <- view_term_entry by lia. by apply Hm.
    + intros k e Hk Hge. rewrite view_entry_splice_new, zlookup_drop by lia. rewrite <- Hk. f_equal. lia.
    + rewrite decide_True by lia. split; [| rewrite view_splice_last by lia; lia].
      destruct (conflict_at_differs _ _ _ _ Hc Ec) as (e & He & Hne). exists e. split; [done |]. by rewrite <- view_term_entry by lia.
  - split_and!; [lia | lia | done | | |].
    + intros k e Hk _. pose proof (zlookup_Some_range _ _ _ Hk). rewrite <- view_term_entry by lia. by apply (conflict_at_None _ _ _ Hc Ec).
    + intros k e Hk%zlookup_Some_range Hge. lia.
    + by rewrite decide_False by lia.
Qed.

Lemma maybeCommit_spec l i t : log_wf l -> 0 < t ->
  maybeCommit l i t =
    if decide (rl_commitIndex l < i /\ log_term l i = t)
    then Ret (rl_set_commitIndex i l, true) else Ret (l, false).
Proof.
  intros Hw Hpos. unfold maybeCommit. case_decide as Hd.
  - destruct Hd as [Hlt Ht]. zcase; [| lia]. rewrite term_spec by done. simpl.
    rewrite Ht, Z.eqb_refl.
    assert (i <= log_last l) as Hi.
    { unfold log_term in Ht. destruct (view_term _ i) eqn:E; simpl in Ht; [| lia].
      by apply view_term_range in E as [_ ?]. }
    destruct (commitTo_spec l i Hw Hi) as (l' & -> & -> & _). simpl.
    by rewrite Z.max_r by lia.
  - zcase; [| done]. rewrite term_spec by done. simpl. zcase; [| done]. tauto.
Qed.

Lemma newRaftLog_spec s : st_wf s ->
  exists l, newRaftLog s = Ret l /\ log_wf l /\ log_view l = st_view s /\
    rl_storage l = s /\ rl_commitIndex l = lv_off (st_view s) /\
    rl_applyIndex l = lv_off (st_view s).
Proof.
  intros Hs. destruct (st_view_wf _ Hs) as [Ho Hc Hl]. unfold newRaftLog.
  rewrite st_first, st_last by done. simpl. eexists. split; [done |].
  unfold view_last, idx_limit in *. zlen_pos.
  assert (forall (l : raftLog S), rl_unstable l = mkUnstable [] (view_last (st_view s) + 1) ->
    rl_storage l = s -> log_view l = st_view s) as Hview.
  { intros l Hu Hst. unfold log_view, view_splice. rewrite Hu, Hst. unfold view_last. simpl.
    rewrite app_nil_r, firstn_all2 by (unfold zlen; lia). by destruct (st_view s). }
  unwrap. rewrite Hview by done. split; [| repeat split; simpl; unwrap; lia].
  split; simpl; unwrap; try done; unfold log_off, view_last, idx_limit in *; simpl;
    rewrite ?zlen_nil; try lia.
  unfold log_last. rewrite Hview by done. simpl. unfold view_last. lia.
Qed.

End Theory.

#[global] Arguments log_view : simpl never.
#[global] Arguments log_ents : simpl never.
#[global] Arguments log_last : simpl never.
#[global] Arguments log_off : simpl never.
#[global] Arguments log_term : simpl never.

(** [lw H]: the bounds of a well-formed log, as facts for [lia]. *)
Ltac lw H :=
  pose proof (log_last_eq _ H); pose proof (log_off_nonneg _ H);
  pose proof (vw_last _ (log_view_wf _ H));
  pose proof (lw_offset _ H); pose proof (lw_limit _ H);
  pose proof (lw_apply _ H); pose proof (lw_commit _ H);
  zlen_pos; unfold idx_limit in *.
