(* ===== verification/RaftCore.v ===== *)
(** * Raft: the node's state machine

    [components/raft/raft]: [progress.go], [read.go], [util.go], [raft.go],
    [follower.go], [candidate.go] and [leader.go].  A node is the record
    [raft]; every method is a function on it, in [outcome] where the code can
    panic.  [Step] is the whole handler of one message. *)
From S2P Require Import Prelude RaftModel RaftLog.

(** ** The runtime's choices

    [rand.Intn] and the order of [range] over a map are not determined by the
    program.  They are read from a tape: the [k]-th choice of a run is
    [rand_intn k n] or [range_keys k m]; the node keeps its position. *)
Class GoRuntime := {
  rand_intn : nat -> Z -> Z;
  rand_intn_range k n : 0 < n -> 0 <= rand_intn k n < n;
  range_keys : nat -> gset Z -> list Z;
  range_keys_perm k s : range_keys k s ≡ₚ elements s
}.

(** ** progress.go *)

Inductive ProgressStateType := ProgressStateProbe | ProgressStateReplicate.

Record Progress := mkProgress { p_Match : Z; p_Next : Z; p_State : ProgressStateType }.

Definition maybeUpdate (pr : Progress) (n : Z) : Progress * bool :=
  let '(mt, updated) := if p_Match pr <? n then (n, true) else (p_Match pr, false) in
  let nx := if p_Next pr <? u64 (n + 1) then u64 (n + 1) else p_Next pr in
  (mkProgress mt nx (p_State pr), updated).

Definition mayDecreaseTo (pr : Progress) (logIndex rejectHint : Z) : Progress * bool :=
  if negb (u64 (p_Next pr - 1) =? logIndex) then (pr, false)
  else
    let nx := Z.min logIndex (u64 (rejectHint + 1)) in
    (mkProgress (p_Match pr) (if nx <? 1 then 1 else nx) (p_State pr), true).

(** ** read.go *)

Record ReadState := mkReadState { rs_Index : Z; rs_RequestCtx : bytes }.

Record readIndexStatus := mkReadIndexStatus {
  ri_req : Message;
  ri_index : Z;
  ri_acks : gset Z
}.

Record readOnly := mkReadOnly {
  pendingReadIndex : gmap bytes readIndexStatus;
  readIndexQueue : list bytes
}.

Definition newReadOnly : readOnly := mkReadOnly ∅ [].

Definition addRequest (ro : readOnly) (ctx : bytes) (readIndex : Z) (m : Message) :
    readOnly * bool :=
  match pendingReadIndex ro !! ctx with
  | Some _ => (ro, false)
  | None =>
      (mkReadOnly (<[ctx := mkReadIndexStatus m readIndex ∅]> (pendingReadIndex ro))
                  (readIndexQueue ro ++ [ctx]), true)
  end.

Definition recvAck (ro : readOnly) (ctx : bytes) (from : Z) : readOnly * gset Z :=
  match pendingReadIndex ro !! ctx with
  | None => (ro, ∅)
  | Some rs =>
      let acks := {[from]} ∪ ri_acks rs in
      (mkReadOnly (<[ctx := mkReadIndexStatus (ri_req rs) (ri_index rs) acks]>
                     (pendingReadIndex ro)) (readIndexQueue ro), acks)
  end.

(** The loop over the queue: the statuses up to and including [ctx], the rest
    of the queue, and whether [ctx] was found. *)
Fixpoint advance_loop (ro : readOnly) (queue : list bytes) (ctx : bytes)
    (rss : list readIndexStatus) : outcome (list readIndexStatus * list bytes * bool) :=
  match queue with
  | [] => Ret (rss, [], false)
  | queued :: rest =>
      match pendingReadIndex ro !! queued with
      | None => Panic "cannot find corresponding read state from pending map"
      | Some rs =>
          if decide (queued = ctx) then Ret (rss ++ [rs], rest, true)
          else advance_loop ro rest ctx (rss ++ [rs])
      end
  end.

Fixpoint delete_requests (pending : gmap bytes readIndexStatus) (rss : list readIndexStatus) :
    outcome (gmap bytes readIndexStatus) :=
  match rss with
  | [] => Ret pending
  | rs :: rss' =>
      e0 ← go_index (m_Entries (ri_req rs)) 0;
      delete_requests (delete (e_Data e0) pending) rss'
  end.

Definition advance (ro : readOnly) (ctx : bytes) :
    outcome (readOnly * list readIndexStatus) :=
  p ← advance_loop ro (readIndexQueue ro) ctx [];
  let '(rss, rest, found) := p in
  if found : bool then
    pending ← delete_requests (pendingReadIndex ro) rss;
    Ret (mkReadOnly pending rest, rss)
  else Ret (ro, []).

(** ** util.go *)

Definition numOfPendingConf (entries : list Entry) : Z :=
  zlen (filter (fun e => e_Type e = EntryConfChange) entries).

(** The order [sort.Reverse(uint64Slice)] sorts by. *)
Definition uint64_ge (x y : Z) : Prop := y <= x.
#[export] Instance uint64_ge_dec : RelDecision uint64_ge.
Proof. intros x y. unfold uint64_ge. apply _. Defined.

(** ** raft.go *)

(** The method values stored in [r.step] and [r.tick]. *)
Inductive StepFunc := stepFollower_ | stepCandidate_ | stepLeader_.
Inductive TickFunc := tickElection_ | tickHeartbeat_ | nilTick_.

Record raft (S : Type) := mkRaft {
  r_id : Z;
  r_Term : Z;
  r_readStates : list ReadState;
  r_raftLog : raftLog S;
  r_prs : gmap Z Progress;
  r_state : StateType;
  r_votes : gmap Z bool;
  r_msgs : list Message;
  r_lead : Z;
  r_pendingConf : bool;
  r_readOnly : readOnly;
  r_preVote : bool;
  r_tick : TickFunc;
  r_step : StepFunc;
  r_Vote : Z;
  r_checkQuorum : bool;
  r_electionTimeout : Z;
  r_randomizedElectionTimeout : Z;
  r_electionElapsed : Z;
  r_heartbeatTimeout : Z;
  r_heartbeatElapsed : Z;
  r_tape : nat
}.
Arguments mkRaft {S}.
Arguments r_id {S} _.
Arguments r_Term {S} _.
Arguments r_readStates {S} _.
Arguments r_raftLog {S} _.
Arguments r_prs {S} _.
Arguments r_state {S} _.
Arguments r_votes {S} _.
Arguments r_msgs {S} _.
Arguments r_lead {S} _.
Arguments r_pendingConf {S} _.
Arguments r_readOnly {S} _.
Arguments r_preVote {S} _.
Arguments r_tick {S} _.
Arguments r_step {S} _.
Arguments r_Vote {S} _.
Arguments r_checkQuorum {S} _.
Arguments r_electionTimeout {S} _.
Arguments r_randomizedElectionTimeout {S} _.
Arguments r_electionElapsed {S} _.
Arguments r_heartbeatTimeout {S} _.
Arguments r_heartbeatElapsed {S} _.
Arguments r_tape {S} _.

Definition set_Term {S} (x : Z) (r : raft S) : raft S :=
  mkRaft (r_id r) x (r_readStates r) (r_raftLog r) (r_prs r) (r_state r) (r_votes r) (r_msgs r)
    (r_lead r) (r_pendingConf r) (r_readOnly r) (r_preVote r) (r_tick r) (r_step r) (r_Vote r)
    (r_checkQuorum r) (r_electionTimeout r) (r_randomizedElectionTimeout r)
    (r_electionElapsed r) (r_heartbeatTimeout r) (r_heartbeatElapsed r) (r_tape r).
Definition set_readStates {S} (x : list ReadState) (r : raft S) : raft S :=
  mkRaft (r_id r) (r_Term r) x (r_raftLog r) (r_prs r) (r_state r) (r_votes r) (r_msgs r)
    (r_lead r) (r_pendingConf r) (r_readOnly r) (r_preVote r) (r_tick r) (r_step r) (r_Vote r)
    (r_checkQuorum r) (r_electionTimeout r) (r_randomizedElectionTimeout r)
    (r_electionElapsed r) (r_heartbeatTimeout r) (r_heartbeatElapsed r) (r_tape r).
Definition set_raftLog {S} (x : raftLog S) (r : raft S) : raft S :=
  mkRaft (r_id r) (r_Term r) (r_readStates r) x (r_prs r) (r_state r) (r_votes r) (r_msgs r)
    (r_lead r) (r_pendingConf r) (r_readOnly r) (r_preVote r) (r_tick r) (r_step r) (r_Vote r)
    (r_checkQuorum r) (r_electionTimeout r) (r_randomizedElectionTimeout r)
    (r_electionElapsed r) (r_heartbeatTimeout r) (r_heartbeatElapsed r) (r_tape r).
Definition set_prs {S} (x : gmap Z Progress) (r : raft S) : raft S :=
  mkRaft (r_id r) (r_Term r) (r_readStates r) (r_raftLog r) x (r_state r) (r_votes r) (r_msgs r)
    (r_lead r) (r_pendingConf r) (r_readOnly r) (r_preVote r) (r_tick r) (r_step r) (r_Vote r)
    (r_checkQuorum r) (r_electionTimeout r) (r_randomizedElectionTimeout r)
    (r_electionElapsed r) (r_heartbeatTimeout r) (r_heartbeatElapsed r) (r_tape r).
Definition set_state {S} (x : StateType) (r : raft S) : raft S :=
  mkRaft (r_id r) (r_Term r) (r_readStates r) (r_raftLog r) (r_prs r) x (r_votes r) (r_msgs r)
    (r_lead r) (r_pendingConf r) (r_readOnly r) (r_preVote r) (r_tick r) (r_step r) (r_Vote r)
    (r_checkQuorum r) (r_electionTimeout r) (r_randomizedElectionTimeout r)
    (r_electionElapsed r) (r_heartbeatTimeout r) (r_heartbeatElapsed r) (r_tape r).
Definition set_votes {S} (x : gmap Z bool) (r : raft S) : raft S :=
  mkRaft (r_id r) (r_Term r) (r_readStates r) (r_raftLog r) (r_prs r) (r_state r) x (r_msgs r)
    (r_lead r) (r_pendingConf r) (r_readOnly r) (r_preVote r) (r_tick r) (r_step r) (r_Vote r)
    (r_checkQuorum r) (r_electionTimeout r) (r_randomizedElectionTimeout r)
    (r_electionElapsed r) (r_heartbeatTimeout r) (r_heartbeatElapsed r) (r_tape r).
Definition set_msgs {S} (x : list Message) (r : raft S) : raft S :=
  mkRaft (r_id r) (r_Term r) (r_readStates r) (r_raftLog r) (r_prs r) (r_state r) (r_votes r) x
    (r_lead r) (r_pendingConf r) (r_readOnly r) (r_preVote r) (r_tick r) (r_step r) (r_Vote r)
    (r_checkQuorum r) (r_electionTimeout r) (r_randomizedElectionTimeout r)
    (r_electionElapsed r) (r_heartbeatTimeout r) (r_heartbeatElapsed r) (r_tape r).
Definition set_lead {S} (x : Z) (r : raft S) : raft S :=
  mkRaft (r_id r) (r_Term r) (r_readStates r) (r_raftLog r) (r_prs r) (r_state r) (r_votes r)
    (r_msgs r) x (r_pendingConf r) (r_readOnly r) (r_preVote r) (r_tick r) (r_step r) (r_Vote r)
    (r_checkQuorum r) (r_electionTimeout r) (r_randomizedElectionTimeout r)
    (r_electionElapsed r) (r_heartbeatTimeout r) (r_heartbeatElapsed r) (r_tape r).
Definition set_pendingConf {S} (x : bool) (r : raft S) : raft S :=
  mkRaft (r_id r) (r_Term r) (r_readStates r) (r_raftLog r) (r_prs r) (r_state r) (r_votes r)
    (r_msgs r) (r_lead r) x (r_readOnly r) (r_preVote r) (r_tick r) (r_step r) (r_Vote r)
    (r_checkQuorum r) (r_electionTimeout r) (r_randomizedElectionTimeout r)
    (r_electionElapsed r) (r_heartbeatTimeout r) (r_heartbeatElapsed r) (r_tape r).
Definition set_readOnly {S} (x : readOnly) (r : raft S) : raft S :=
  mkRaft (r_id r) (r_Term r) (r_readStates r) (r_raftLog r) (r_prs r) (r_state r) (r_votes r)
    (r_msgs r) (r_lead r) (r_pendingConf r) x (r_preVote r) (r_tick r) (r_step r) (r_Vote r)
    (r_checkQuorum r) (r_electionTimeout r) (r_randomizedElectionTimeout r)
    (r_electionElapsed r) (r_heartbeatTimeout r) (r_heartbeatElapsed r) (r_tape r).
Definition set_tick {S} (x : TickFunc) (r : raft S) : raft S :=
  mkRaft (r_id r) (r_Term r) (r_readStates r) (r_raftLog r) (r_prs r) (r_state r) (r_votes r)
    (r_msgs r) (r_lead r) (r_pendingConf r) (r_readOnly r) (r_preVote r) x (r_step r) (r_Vote r)
    (r_checkQuorum r) (r_electionTimeout r) (r_randomizedElectionTimeout r)
    (r_electionElapsed r) (r_heartbeatTimeout r) (r_heartbeatElapsed r) (r_tape r).
Definition set_step {S} (x : StepFunc) (r : raft S) : raft S :=
  mkRaft (r_id r) (r_Term r) (r_readStates r) (r_raftLog r) (r_prs r) (r_state r) (r_votes r)
    (r_msgs r) (r_lead r) (r_pendingConf r) (r_readOnly r) (r_preVote r) (r_tick r) x (r_Vote r)
    (r_checkQuorum r) (r_electionTimeout r) (r_randomizedElectionTimeout r)
    (r_electionElapsed r) (r_heartbeatTimeout r) (r_heartbeatElapsed r) (r_tape r).
Definition set_Vote {S} (x : Z) (r : raft S) : raft S :=
  mkRaft (r_id r) (r_Term r) (r_readStates r) (r_raftLog r) (r_prs r) (r_state r) (r_votes r)
    (r_msgs r) (r_lead r) (r_pendingConf r) (r_readOnly r) (r_preVote r) (r_tick r) (r_step r) x
    (r_checkQuorum r) (r_electionTimeout r) (r_randomizedElectionTimeout r)
    (r_electionElapsed r) (r_heartbeatTimeout r) (r_heartbeatElapsed r) (r_tape r).
Definition set_randomizedElectionTimeout {S} (x : Z) (r : raft S) : raft S :=
  mkRaft (r_id r) (r_Term r) (r_readStates r) (r_raftLog r) (r_prs r) (r_state r) (r_votes r)
    (r_msgs r) (r_lead r) (r_pendingConf r) (r_readOnly r) (r_preVote r) (r_tick r) (r_step r)
    (r_Vote r) (r_checkQuorum r) (r_electionTimeout r) x (r_electionElapsed r)
    (r_heartbeatTimeout r) (r_heartbeatElapsed r) (r_tape r).
Definition set_electionElapsed {S} (x : Z) (r : raft S) : raft S :=
  mkRaft (r_id r) (r_Term r) (r_readStates r) (r_raftLog r) (r_prs r) (r_state r) (r_votes r)
    (r_msgs r) (r_lead r) (r_pendingConf r) (r_readOnly r) (r_preVote r) (r_tick r) (r_step r)
    (r_Vote r) (r_checkQuorum r) (r_electionTimeout r) (r_randomizedElectionTimeout r) x
    (r_heartbeatTimeout r) (r_heartbeatElapsed r) (r_tape r).
Definition set_heartbeatElapsed {S} (x : Z) (r : raft S) : raft S :=
  mkRaft (r_id r) (r_Term r) (r_readStates r) (r_raftLog r) (r_prs r) (r_state r) (r_votes r)
    (r_msgs r) (r_lead r) (r_pendingConf r) (r_readOnly r) (r_preVote r) (r_tick r) (r_step r)
    (r_Vote r) (r_checkQuorum r) (r_electionTimeout r) (r_randomizedElectionTimeout r)
    (r_electionElapsed r) (r_heartbeatTimeout r) x (r_tape r).
Definition set_tape {S} (x : nat) (r : raft S) : raft S :=
  mkRaft (r_id r) (r_Term r) (r_readStates r) (r_raftLog r) (r_prs r) (r_state r) (r_votes r)
    (r_msgs r) (r_lead r) (r_pendingConf r) (r_readOnly r) (r_preVote r) (r_tick r) (r_step r)
    (r_Vote r) (r_checkQuorum r) (r_electionTimeout r) (r_randomizedElectionTimeout r)
    (r_electionElapsed r) (r_heartbeatTimeout r) (r_heartbeatElapsed r) x.

Record Config (S : Type) := mkConfig {
  cf_ID : Z;
  cf_peers : list Z;
  cf_Storage : S;
  cf_Applied : Z;
  cf_PreVote : bool;
  cf_ElectionTick : Z;
  cf_HeartbeatTick : Z
}.
Arguments mkConfig {S}.
Arguments cf_ID {S} _.
Arguments cf_peers {S} _.
Arguments cf_Storage {S} _.
Arguments cf_Applied {S} _.
Arguments cf_PreVote {S} _.
Arguments cf_ElectionTick {S} _.
Arguments cf_HeartbeatTick {S} _.

Section Raft.
Context {S : Type} `{Storage S} `{GoRuntime}.
Implicit Types r : raft S.

(** [for id := range r.prs]: an order of the keys, chosen by the runtime. *)
Definition range_prs (r : raft S) : list Z * raft S :=
  (range_keys (r_tape r) (dom (r_prs r)), set_tape (r_tape r + 1)%nat r).

Definition resetRandomizedElectionTimeout (r : raft S) : raft S :=
  let n := if r_electionTimeout r <=? 0 then 1 else r_electionTimeout r in
  set_tape (r_tape r + 1)%nat
    (set_randomizedElectionTimeout (s32 (n + rand_intn (r_tape r) n)) r).

Definition reset (r : raft S) (tm : Z) : raft S :=
  let r := if negb (r_Term r =? tm) then set_Vote None_id (set_Term tm r) else r in
  let r := set_lead None_id r in
  let r := set_electionElapsed 0 r in
  let r := set_heartbeatElapsed 0 r in
  let r := set_votes ∅ r in
  let r := set_pendingConf false r in
  resetRandomizedElectionTimeout r.

Definition softState (r : raft S) : SoftState := mkSoftState (r_lead r) (r_state r).

Definition hardState (r : raft S) : HardState :=
  mkHardState (r_Term r) (r_Vote r) (rl_commitIndex (r_raftLog r)).

Definition becomeFollower (r : raft S) (tm lead : Z) : raft S :=
  let r := reset r tm in
  let r := set_step stepFollower_ r in
  let r := set_tick tickElection_ r in
  let r := set_lead lead r in
  set_state StateFollower r.

Definition addNode (r : raft S) (id : Z) : outcome (raft S) :=
  match r_prs r !! id with
  | Some _ => Ret r
  | None =>
      last ← lastIndex (r_raftLog r);
      Ret (set_prs (<[id := mkProgress 0 (u64 (last + 1)) ProgressStateProbe]> (r_prs r)) r)
  end.

Definition removeNode (r : raft S) (id : Z) : raft S :=
  match r_prs r !! id with
  | None => r
  | Some _ =>
      let r := set_prs (delete id (r_prs r)) r in
      if id =? r_id r then becomeFollower r (r_Term r) None_id else r
  end.

(** [slices.Sort] of the keys. *)
Definition nodes (r : raft S) : list Z := merge_sort Z.le (elements (dom (r_prs r))).

Definition applyConfChange (r : raft S) (cc : ConfChange) : outcome (raft S * ConfState) :=
  r ← (if negb (cc_NodeID cc =? None_id) then
         match cc_Type cc with
         | ConfChangeAddNode => addNode r (cc_NodeID cc)
         | ConfChangeRemoveNode => Ret (removeNode r (cc_NodeID cc))
         | ConfChangeUpdateNode => addNode r (cc_NodeID cc)
         end
       else Ret r);
  let r := set_pendingConf false r in
  Ret (r, mkConfState (nodes r)).

Definition send (r : raft S) (m : Message) : raft S :=
  let from := if m_From m =? None_id then r_id r else m_From m in
  let tm := if bool_decide (m_Type m <> MsgProp /\ m_Type m <> MsgReadIndex)
            then r_Term r else m_Term m in
  set_msgs (r_msgs r ++
    [mkMessage (m_Type m) (m_To m) from tm (m_LogTerm m) (m_LogIndex m) (m_Entries m)
       (m_CommitIndex m) (m_Reject m) (m_RejectHint m) (m_Context m)]) r.

Definition poll (r : raft S) (id : Z) (v : bool) : raft S * Z :=
  let votes := match r_votes r !! id with
               | Some _ => r_votes r
               | None => <[id := v]> (r_votes r)
               end in
  (set_votes votes r, Z.of_nat (size (filter (fun kv => kv.2 = true) votes))).

Definition quorum (r : raft S) : Z := Z.shiftr (Z.of_nat (size (r_prs r))) 1 + 1.

Definition promotable (r : raft S) (id : Z) : bool :=
  match r_prs r !! id with Some _ => true | None => false end.

Definition pastElectionTimeout (r : raft S) : bool :=
  r_randomizedElectionTimeout r <=? r_electionElapsed r.

Definition matches (r : raft S) (ids : list Z) : list Z :=
  omap (fun id => p_Match <$> r_prs r !! id) ids.

Definition raft_maybeCommit (r : raft S) : outcome (raft S * bool) :=
  let '(ids, r) := range_prs r in
  let sorted := merge_sort uint64_ge (matches r ids) in
  mid ← go_index sorted (quorum r - 1);
  p ← maybeCommit (r_raftLog r) mid (r_Term r);
  Ret (set_raftLog p.1 r, p.2).

Fixpoint stamp (tm next : Z) (es : list Entry) : list Entry :=
  match es with
  | [] => []
  | e :: es' => mkEntry tm next (e_Type e) (e_Data e) :: stamp tm (u64 (next + 1)) es'
  end.

Definition appendEntry (r : raft S) (es : list Entry) : outcome (raft S) :=
  last ← lastIndex (r_raftLog r);
  p ← append (r_raftLog r) (stamp (r_Term r) (u64 (last + 1)) es);
  let r := set_raftLog p.1 r in
  last' ← lastIndex (r_raftLog r);
  match r_prs r !! r_id r with
  | None => Panic "invalid memory address or nil pointer dereference"
  | Some pr =>
      let r := set_prs (<[r_id r := (maybeUpdate pr last').1]> (r_prs r)) r in
      q ← raft_maybeCommit r;
      Ret q.1
  end.

(** ** candidate.go *)

Definition becomePreCandidate (r : raft S) : outcome (raft S) :=
  if bool_decide (r_state r = StateLeader)
  then Panic "invalid transition leader -> pre-candidate"
  else
    let r := set_step stepCandidate_ r in
    let r := set_tick tickElection_ r in
    let r := set_votes ∅ r in
    Ret (set_state StatePreCandidate r).

(** The assignments of [becomeCandidate]. *)
Definition candidate_node (r : raft S) : raft S :=
  let r := set_step stepCandidate_ r in
  let r := reset r (u64 (r_Term r + 1)) in
  let r := set_tick tickElection_ r in
  let r := set_Vote (r_id r) r in
  set_state StateCandidate r.

Definition becomeCandidate (r : raft S) : outcome (raft S) :=
  if bool_decide (r_state r = StateLeader)
  then Panic "invalid transition leader -> candidate"
  else Ret (candidate_node r).

(** ** leader.go *)

(** [for id := range r.prs { if id == r.id { continue }; ... }] *)
Definition others (r : raft S) (ids : list Z) : list Z := filter (fun id => id <> r_id r) ids.

(** The assignments of [becomeLeader]. *)
Definition leader_node (r : raft S) : raft S :=
  let r := set_step stepLeader_ r in
  let r := reset r (r_Term r) in
  let r := set_tick tickHeartbeat_ r in
  let r := set_lead (r_id r) r in
  set_state StateLeader r.

(** The loop of [becomeLeader]: the progress of every other node starts anew. *)
Definition reset_progress (r : raft S) (lastIndex : Z) : raft S :=
  let '(ids, r) := range_prs r in
  set_prs (foldl (fun prs id =>
             <[id := mkProgress 0 (u64 (lastIndex + 1)) ProgressStateProbe]> prs)
             (r_prs r) (others r ids)) r.

Definition becomeLeader (r : raft S) : outcome (raft S) :=
  if bool_decide (r_state r = StateFollower)
  then Panic "invalid transition [follower -> leader]"
  else
    let r := leader_node r in
    last ← lastIndex (r_raftLog r);
    appendEntry (reset_progress r last) [zeroEntry].

Definition sendHeartbeat (r : raft S) (id : Z) (ctx : bytes) : outcome (raft S) :=
  match r_prs r !! id with
  | None => Panic "invalid memory address or nil pointer dereference"
  | Some pr =>
      let commit := Z.min (rl_commitIndex (r_raftLog r)) (p_Match pr) in
      Ret (send r (mkMessage MsgHeartbeat id 0 0 0 0 [] commit false 0 ctx))
  end.

Definition sendAppend (r : raft S) (to : Z) : outcome (raft S) :=
  match r_prs r !! to with
  | None => Panic "invalid memory address or nil pointer dereference"
  | Some pr =>
      rt ← term (r_raftLog r) (u64 (p_Next pr - 1));
      let tm := match rt with Ok t => t | Err _ => 0 end in
      es ← entries (r_raftLog r) (p_Next pr);
      Ret (send r (mkMessage MsgApp to 0 0 tm (u64 (p_Next pr - 1)) es
                     (rl_commitIndex (r_raftLog r)) false 0 []))
  end.

Fixpoint for_each (f : raft S -> Z -> outcome (raft S)) (ids : list Z) (r : raft S) :
    outcome (raft S) :=
  match ids with
  | [] => Ret r
  | id :: ids' => r' ← f r id; for_each f ids' r'
  end.

Definition broadcastHeartbeatWithCtx (r : raft S) (ctx : bytes) : outcome (raft S) :=
  let '(ids, r) := range_prs r in
  for_each (fun r id => sendHeartbeat r id ctx) (others r ids) r.

Definition broadcastHeartbeat (r : raft S) : outcome (raft S) := broadcastHeartbeatWithCtx r [].

Definition broadcastAppend (r : raft S) : outcome (raft S) :=
  let '(ids, r) := range_prs r in
  for_each sendAppend (others r ids) r.

(** The loop over the proposed entries: only one configuration change may be
    pending; a further one is replaced by an empty normal entry. *)
Fixpoint check_conf (pending : bool) (es : list Entry) : bool * list Entry :=
  match es with
  | [] => (pending, [])
  | e :: es' =>
      if bool_decide (e_Type e = EntryConfChange) then
        let e' := if pending then zeroEntry else e in
        let '(p', es'') := check_conf true es' in (p', e' :: es'')
      else
        let '(p', es'') := check_conf pending es' in (p', e :: es'')
  end.

(** The loop over the read requests a quorum has confirmed. *)
Fixpoint serve_reads (r : raft S) (rss : list readIndexStatus) : outcome (raft S) :=
  match rss with
  | [] => Ret r
  | rs :: rss' =>
      let req := ri_req rs in
      if (m_From req =? None_id) || (m_From req =? r_id r) then
        e0 ← go_index (m_Entries req) 0;
        serve_reads (set_readStates (r_readStates r ++ [mkReadState (ri_index rs) (e_Data e0)]) r) rss'
      else
        serve_reads (send r (mkMessage MsgReadIndexResp (m_From req) 0 0 0 (ri_index rs)
                               (m_Entries req) 0 false 0 [])) rss'
  end.

Definition stepLeader (r : raft S) (m : Message) : outcome (raft S) :=
  match m_Type m with
  | MsgBeat => broadcastHeartbeat r
  | MsgProp =>
      match m_Entries m with
      | [] => Panic "propose entries can not be empty"
      | _ :: _ =>
          match r_prs r !! r_id r with
          | None => Ret r
          | Some _ =>
              let '(pending, es) := check_conf (r_pendingConf r) (m_Entries m) in
              r1 ← appendEntry (set_pendingConf pending r) es;
              broadcastAppend r1
          end
      end
  | MsgReadIndex =>
      match r_prs r !! r_id r with
      | None => Ret r
      | Some _ =>
          if 1 <? Z.of_nat (size (r_prs r)) then
            rt ← term (r_raftLog r) (rl_commitIndex (r_raftLog r));
            t ← zeroTermOnErrCompacted rt;
            if negb (t =? r_Term r) then Ret r
            else
              e0 ← go_index (m_Entries m) 0;
              let '(ro, fresh) :=
                addRequest (r_readOnly r) (e_Data e0) (rl_commitIndex (r_raftLog r)) m in
              let r := set_readOnly ro r in
              if fresh : bool then broadcastHeartbeatWithCtx r (e_Data e0) else Ret r
          else
            e0 ← go_index (m_Entries m) 0;
            Ret (set_readStates (r_readStates r ++
                   [mkReadState (rl_commitIndex (r_raftLog r)) (e_Data e0)]) r)
      end
  | MsgAppResp =>
      match r_prs r !! m_From m with
      | None => Ret r
      | Some pr =>
          if m_Reject m then
            let '(pr', ok) := mayDecreaseTo pr (m_LogIndex m) (m_RejectHint m) in
            let r := set_prs (<[m_From m := pr']> (r_prs r)) r in
            if ok : bool then sendAppend r (m_From m) else Ret r
          else
            let '(pr', updated) := maybeUpdate pr (m_LogIndex m) in
            let r := set_prs (<[m_From m := pr']> (r_prs r)) r in
            if updated : bool then
              p ← raft_maybeCommit r;
              if p.2 : bool then broadcastAppend p.1 else Ret p.1
            else Ret r
      end
  | MsgHeartbeatResp =>
      match r_prs r !! m_From m with
      | None => Ret r
      | Some _ =>
          match readIndexQueue (r_readOnly r) with
          | [] => Ret r
          | _ :: _ =>
              let '(ro, acks) := recvAck (r_readOnly r) (m_Context m) (m_From m) in
              let r := set_readOnly ro r in
              if Z.of_nat (size acks) <? quorum r then Ret r
              else
                p ← advance (r_readOnly r) (m_Context m);
                serve_reads (set_readOnly p.1 r) p.2
          end
      end
  | _ => Ret r
  end.

(** ** campaign *)

Definition campaign_with (again : raft S -> outcome (raft S)) (r : raft S) (typ : CampaignType) :
    outcome (raft S) :=
  r1 ← (match typ with
        | campaignPreElection => becomePreCandidate r
        | campaignElection => becomeCandidate r
        end);
  let tm := match typ with
            | campaignPreElection => u64 (r_Term r1 + 1)
            | campaignElection => r_Term r1
            end in
  let msgType := match typ with
                 | campaignPreElection => MsgPreVote
                 | campaignElection => MsgVote
                 end in
  let '(r2, granted) := poll r1 (r_id r1) true in
  if quorum r2 =? granted then
    match typ with
    | campaignPreElection => again r2
    | campaignElection => becomeLeader r2
    end
  else
    let '(ids, r3) := range_prs r2 in
    for_each (fun r id =>
      lt ← lastTerm (r_raftLog r);
      li ← lastIndex (r_raftLog r);
      Ret (send r (mkMessage msgType id 0 tm lt li [] 0 false 0 []))) (others r3 ids) r3.

(** A pre-election that is won at once starts the election; the election never
    recurses. *)
Definition campaign (r : raft S) (typ : CampaignType) : outcome (raft S) :=
  campaign_with (fun r => campaign_with Ret r campaignElection) r typ.

(** The recursive equation of the source. *)
Lemma campaign_unfold r typ :
  campaign r typ = campaign_with (fun r => campaign r campaignElection) r typ.
Proof. by destruct typ. Qed.

(** ** follower.go *)

Definition handleAppendEntries (r : raft S) (m : Message) : outcome (raft S) :=
  p ← maybeAppend (r_raftLog r) (m_LogIndex m) (m_LogTerm m) (m_CommitIndex m) (m_Entries m);
  let r := set_raftLog p.1 r in
  match p.2 with
  | Some mLastIndex =>
      Ret (send r (mkMessage MsgAppResp (m_From m) 0 0 0 mLastIndex [] 0 false 0 []))
  | None =>
      last ← lastIndex (r_raftLog r);
      Ret (send r (mkMessage MsgAppResp (m_From m) 0 0 0 (m_LogIndex m) [] 0 true last []))
  end.

Definition handleHeartbeat (r : raft S) (m : Message) : outcome (raft S) :=
  last ← lastIndex (r_raftLog r);
  l ← commitTo (r_raftLog r) (Z.min (m_CommitIndex m) last);
  Ret (send (set_raftLog l r)
         (mkMessage MsgHeartbeatResp (m_From m) 0 0 0 0 [] 0 false 0 (m_Context m))).

(** [m.To = r.lead; r.send(m)] *)
Definition forward (r : raft S) (m : Message) : raft S :=
  if r_lead r =? None_id then r
  else send r (mkMessage (m_Type m) (r_lead r) (m_From m) (m_Term m) (m_LogTerm m) (m_LogIndex m)
                 (m_Entries m) (m_CommitIndex m) (m_Reject m) (m_RejectHint m) (m_Context m)).

Definition stepFollower (r : raft S) (m : Message) : outcome (raft S) :=
  match m_Type m with
  | MsgProp => Ret (forward r m)
  | MsgApp => handleAppendEntries (set_lead (m_From m) (set_electionElapsed 0 r)) m
  | MsgHeartbeat => handleHeartbeat (set_lead (m_From m) (set_electionElapsed 0 r)) m
  | MsgReadIndex => Ret (forward r m)
  | MsgReadIndexResp =>
      e0 ← go_index (m_Entries m) 0;
      Ret (set_readStates (r_readStates r ++ [mkReadState (m_LogIndex m) (e_Data e0)]) r)
  | _ => Ret r
  end.

Definition stepCandidate (r : raft S) (m : Message) : outcome (raft S) :=
  let voteRespType := if bool_decide (r_state r = StatePreCandidate)
                      then MsgPreVoteResp else MsgVoteResp in
  match m_Type m with
  | MsgProp => Ret r
  | MsgApp => handleAppendEntries (becomeFollower r (r_Term r) (m_From m)) m
  | MsgHeartbeat => handleHeartbeat (becomeFollower r (m_Term m) (m_From m)) m
  | ty =>
      if bool_decide (ty = voteRespType) then
        let '(r, granted) := poll r (m_From m) (negb (m_Reject m)) in
        if quorum r =? granted then
          if bool_decide (r_state r = StatePreCandidate) then campaign r campaignElection
          else r1 ← becomeLeader r; broadcastAppend r1
        else if quorum r =? Z.of_nat (size (r_votes r)) - granted then
          Ret (becomeFollower r (r_Term r) None_id)
        else Ret r
      else Ret r
  end.

(** ** Step *)

Definition step_call (r : raft S) (m : Message) : outcome (raft S) :=
  match r_step r with
  | stepFollower_ => stepFollower r m
  | stepCandidate_ => stepCandidate r m
  | stepLeader_ => stepLeader r m
  end.

(** The vote and pre-vote requests. *)
Definition handleVote (r : raft S) (m : Message) : outcome (raft S) :=
  up ← isUpToDate (r_raftLog r) (m_LogIndex m) (m_LogTerm m);
  let isVote := bool_decide (m_Type m = MsgVote) in
  if up && ((r_Vote r =? None_id) || (r_Term r <? m_Term m) || (m_From m =? r_Vote r)) then
    if isVote then Ret (send (set_Vote (m_From m) r) (msg MsgVoteResp (m_From m)))
    else Ret (send r (msg MsgPreVoteResp (m_From m)))
  else
    let ty := if isVote then MsgVoteResp else MsgPreVoteResp in
    Ret (send r (mkMessage ty (m_From m) 0 0 0 0 [] 0 true 0 [])).

Definition handleHup (r : raft S) : outcome (raft S) :=
  if bool_decide (r_state r = StateLeader) then Ret r
  else if negb (promotable r (r_id r)) then Ret r
  else
    es ← slice (r_raftLog r) (u64 (rl_applyIndex (r_raftLog r) + 1))
           (u64 (rl_commitIndex (r_raftLog r) + 1));
    if 0 <? numOfPendingConf es then Ret r
    else if r_preVote r then campaign r campaignPreElection
    else campaign r campaignElection.

(** The comparison of terms that precedes the handling of a message: [None]
    when the message is dropped. *)
Definition step_term (r : raft S) (m : Message) : raft S * bool :=
  if m_Term m =? 0 then (r, true)
  else if r_Term r <? m_Term m then
    let lead := if bool_decide (m_Type m = MsgVote \/ m_Type m = MsgPreVote)
                then None_id else m_From m in
    if bool_decide (m_Type m <> MsgPreVote) &&
       (bool_decide (m_Type m <> MsgPreVoteResp) || m_Reject m)
    then (becomeFollower r (m_Term m) lead, true)
    else (r, true)
  else if m_Term m <? r_Term r then
    if r_checkQuorum r && bool_decide (m_Type m = MsgHeartbeat \/ m_Type m = MsgApp)
    then (send r (msg MsgAppResp (m_From m)), false)
    else (r, false)
  else (r, true).

Definition Step (r : raft S) (m : Message) : outcome (raft S) :=
  let '(r, go) := step_term r m in
  if negb go then Ret r
  else match m_Type m with
       | MsgHup => handleHup r
       | MsgVote | MsgPreVote => handleVote r m
       | _ => step_call r m
       end.

(** ** Ticks *)

Definition tickElection (r : raft S) : outcome (raft S) :=
  let r := set_electionElapsed (s32 (r_electionElapsed r + 1)) r in
  if promotable r (r_id r) && pastElectionTimeout r then
    Step (set_electionElapsed 0 r) (mkMessage MsgHup 0 (r_id r) 0 0 0 [] 0 false 0 [])
  else Ret r.

Definition tickHeartbeat (r : raft S) : outcome (raft S) :=
  if negb (bool_decide (r_state r = StateLeader)) then Ret r
  else
    let r := set_heartbeatElapsed (s32 (r_heartbeatElapsed r + 1)) r in
    if r_heartbeatTimeout r <=? r_heartbeatElapsed r then
      Step (set_heartbeatElapsed 0 r) (mkMessage MsgBeat 0 (r_id r) 0 0 0 [] 0 false 0 [])
    else Ret r.

Definition tick (r : raft S) : outcome (raft S) :=
  match r_tick r with
  | tickElection_ => tickElection r
  | tickHeartbeat_ => tickHeartbeat r
  | nilTick_ => Panic "invalid memory address or nil pointer dereference"
  end.

(** ** newRaft *)

Definition newRaft (conf : Config S) : outcome (raft S) :=
  st ← must (InitialState (cf_Storage conf));
  let '(hs, cs) := st in
  let peers := match cf_peers conf with [] => cs_Nodes cs | ps => ps end in
  l ← newRaftLog (cf_Storage conf);
  let r := mkRaft (cf_ID conf) 0 [] l ∅ StateFollower ∅ [] None_id false newReadOnly
             (cf_PreVote conf) nilTick_ stepFollower_ 0 false (cf_ElectionTick conf) 0 0
             (cf_HeartbeatTick conf) 0 0%nat in
  let r := set_prs (foldl (fun prs peer => <[peer := mkProgress 0 1 ProgressStateProbe]> prs)
                      ∅ peers) r in
  l' ← appliedTo (r_raftLog r) (cf_Applied conf);
  let l' := if rl_commitIndex l' <? hs_CommitIndex hs
            then rl_set_commitIndex (hs_CommitIndex hs) l' else l' in
  let r := set_raftLog l' r in
  let tm := if hs_Term hs =? 0 then 1 else hs_Term hs in
  Ret (becomeFollower r tm None_id).

End Raft.
