(* ===== verification/RaftStep.v ===== *)
(** * Raft: what one step of a node does

    Specifications of the operations of [RaftCore] under the invariant
    [raft_wf], each in the form "the operation returns, and ...", and their
    composition: the effect of [Step] on terms, votes, the log and the
    messages. *)
From S2P Require Import Prelude RaftModel RaftLog RaftCore.

(** ** Field equations *)

(** A projection of an updated node: compute it. *)
Ltac crush_field :=
  intros; unfold becomeFollower, reset, resetRandomizedElectionTimeout;
  cbn; repeat (case_match; cbn); zb; try done; try congruence.

Section Fields.
Context {S : Type} `{Storage S} `{GoRuntime}.
Implicit Types r : raft S.

Lemma reset_Term r t : r_Term (reset r t) = t.
Proof. crush_field. Qed.
Lemma reset_Vote r t : r_Vote (reset r t) = if r_Term r =? t then r_Vote r else None_id.
Proof. crush_field. Qed.
Lemma reset_id r t : r_id (reset r t) = r_id r.
Proof. crush_field. Qed.
Lemma reset_prs r t : r_prs (reset r t) = r_prs r.
Proof. crush_field. Qed.
Lemma reset_raftLog r t : r_raftLog (reset r t) = r_raftLog r.
Proof. crush_field. Qed.
Lemma reset_msgs r t : r_msgs (reset r t) = r_msgs r.
Proof. crush_field. Qed.
Lemma reset_votes r t : r_votes (reset r t) = ∅.
Proof. crush_field. Qed.
Lemma reset_state r t : r_state (reset r t) = r_state r.
Proof. crush_field. Qed.
Lemma reset_step r t : r_step (reset r t) = r_step r.
Proof. crush_field. Qed.
Lemma reset_readOnly r t : r_readOnly (reset r t) = r_readOnly r.
Proof. crush_field. Qed.
Lemma reset_readStates r t : r_readStates (reset r t) = r_readStates r.
Proof. crush_field. Qed.
Lemma reset_preVote r t : r_preVote (reset r t) = r_preVote r.
Proof. crush_field. Qed.

Lemma bf_Term r t l : r_Term (becomeFollower r t l) = t.
Proof. crush_field. Qed.
Lemma bf_Vote r t l : r_Vote (becomeFollower r t l) = if r_Term r =? t then r_Vote r else None_id.
Proof. crush_field. Qed.
Lemma bf_id r t l : r_id (becomeFollower r t l) = r_id r.
Proof. crush_field. Qed.
Lemma bf_prs r t l : r_prs (becomeFollower r t l) = r_prs r.
Proof. crush_field. Qed.
Lemma bf_raftLog r t l : r_raftLog (becomeFollower r t l) = r_raftLog r.
Proof. crush_field. Qed.
Lemma bf_msgs r t l : r_msgs (becomeFollower r t l) = r_msgs r.
Proof. crush_field. Qed.
Lemma bf_votes r t l : r_votes (becomeFollower r t l) = ∅.
Proof. crush_field. Qed.
Lemma bf_state r t l : r_state (becomeFollower r t l) = StateFollower.
Proof. crush_field. Qed.
Lemma bf_step r t l : r_step (becomeFollower r t l) = stepFollower_.
Proof. crush_field. Qed.
Lemma bf_tick r t l : r_tick (becomeFollower r t l) = tickElection_.
Proof. crush_field. Qed.
Lemma bf_lead r t l : r_lead (becomeFollower r t l) = l.
Proof. crush_field. Qed.
Lemma bf_readOnly r t l : r_readOnly (becomeFollower r t l) = r_readOnly r.
Proof. crush_field. Qed.
Lemma bf_readStates r t l : r_readStates (becomeFollower r t l) = r_readStates r.
Proof. crush_field. Qed.
Lemma bf_preVote r t l : r_preVote (becomeFollower r t l) = r_preVote r.
Proof. crush_field. Qed.

End Fields.

Create Rewrite HintDb raft.
#[export] Hint Rewrite @reset_Term @reset_Vote @reset_id @reset_prs @reset_raftLog @reset_msgs
  @reset_votes @reset_state @reset_step @reset_readOnly @reset_readStates @reset_preVote
  @bf_Term @bf_Vote @bf_id @bf_prs @bf_raftLog @bf_msgs @bf_votes @bf_state @bf_step @bf_tick @bf_lead
  @bf_readOnly @bf_readStates @bf_preVote : raft.

(** Reduce projections of updated nodes. *)
Ltac rcbn :=
  repeat progress (cbn -[reset becomeFollower] in *; autorewrite with raft in *).

(** ** The invariant of a node *)

Definition step_of (s : StateType) : StepFunc :=
  match s with
  | StateFollower => stepFollower_
  | StateLeader => stepLeader_
  | StateCandidate | StatePreCandidate => stepCandidate_
  end.

Definition tick_of (s : StateType) : TickFunc :=
  match s with StateLeader => tickHeartbeat_ | _ => tickElection_ end.

(** The queue of read requests lists exactly the pending ones, once, each under
    the context its request carries. *)
Record ro_wf (ro : readOnly) : Prop := {
  ro_nodup : NoDup (readIndexQueue ro);
  ro_dom : forall c, c ∈ readIndexQueue ro <-> is_Some (pendingReadIndex ro !! c);
  ro_ctx : forall c rs, pendingReadIndex ro !! c = Some rs ->
    exists e, m_Entries (ri_req rs) !! 0%nat = Some e /\ e_Data e = c
}.

Definition u64_limit : Z := 18446744073709551616.

(** A progress never points before the log's first entry, and stays in range. *)
Definition progress_ok (pr : Progress) : Prop :=
  0 <= p_Match pr < u64_limit /\ 1 <= p_Next pr < u64_limit.

Section Wf.
Context {S : Type} `{StorageLaws S} `{GoRuntime}.
Implicit Types r : raft S.

Record raft_wf (r : raft S) : Prop := {
  rw_log : log_wf (r_raftLog r);
  rw_off : log_off (r_raftLog r) = 0;
  rw_term : 0 < r_Term r < u64_limit;
  rw_id : 0 < r_id r;
  rw_step : r_step r = step_of (r_state r);
  rw_tick : r_tick r = tick_of (r_state r);
  rw_self : r_state r <> StateFollower -> is_Some (r_prs r !! r_id r);
  rw_prs : map_Forall (fun _ => progress_ok) (r_prs r);
  rw_ro : ro_wf (r_readOnly r)
}.

(** ** Effects

    [log_ext]: entries are only added, the commit index only grows.
    [log_adv]: the committed entries are kept, the commit index only grows. *)
Record log_ext (l l' : raftLog S) : Prop := {
  le_storage : rl_storage l' = rl_storage l;
  le_view : exists es, log_ents l' = log_ents l ++ es;
  le_commit : rl_commitIndex l <= rl_commitIndex l';
  le_apply : rl_applyIndex l' = rl_applyIndex l;
  le_unstable : unstable_keeps (rl_unstable l) (rl_unstable l')
}.

Record log_adv (l l' : raftLog S) : Prop := {
  la_storage : rl_storage l' = rl_storage l;
  la_view : take (Z.to_nat (rl_commitIndex l - log_off l)) (log_ents l') =
            take (Z.to_nat (rl_commitIndex l - log_off l)) (log_ents l);
  la_commit : rl_commitIndex l <= rl_commitIndex l';
  la_apply : rl_applyIndex l' = rl_applyIndex l;
  la_unstable : unstable_keeps (rl_unstable l) (rl_unstable l')
}.

(** A message that carries no vote and, unless it is a client's message being
    passed on, is the node's own message of its current term. *)
Definition plain_msg (r : raft S) (m : Message) : Prop :=
  m_Type m <> MsgVoteResp /\
  (m_Type m <> MsgProp -> m_Type m <> MsgReadIndex -> m_From m = r_id r /\ m_Term m = r_Term r).

(** [calm]: the fields that an election depends on are unchanged, and only
    plain messages are sent. *)
Record calm (r r' : raft S) : Prop := {
  cm_id : r_id r' = r_id r;
  cm_Term : r_Term r' = r_Term r;
  cm_Vote : r_Vote r' = r_Vote r;
  cm_state : r_state r' = r_state r;
  cm_step : r_step r' = r_step r;
  cm_tick : r_tick r' = r_tick r;
  cm_votes : r_votes r' = r_votes r;
  cm_preVote : r_preVote r' = r_preVote r;
  cm_dom : dom (r_prs r') = dom (r_prs r);
  cm_msgs : exists new, r_msgs r' = r_msgs r ++ new /\ Forall (plain_msg r) new
}.

#[export] Instance log_ext_preorder : PreOrder log_ext.
Proof.
  split.
  - intros l. split; try done. exists []. by rewrite app_nil_r.
  - intros l1 l2 l3 [? [es1 Hv1] ? ? ?] [? [es2 Hv2] ? ? ?]. split; try congruence; [| lia | by etrans].
    exists (es1 ++ es2). by rewrite Hv2, Hv1, app_assoc.
Qed.

#[export] Instance calm_preorder : PreOrder calm.
Proof.
  split.
  - intros r. split; try done. exists []. by rewrite app_nil_r.
  - intros r1 r2 r3 [] []. split; try congruence.
    destruct cm_msgs0 as (n1 & E1 & F1), cm_msgs1 as (n2 & E2 & F2).
    exists (n1 ++ n2). rewrite E2, E1, app_assoc. split; [done |]. apply Forall_app. split; [done |].
    eapply Forall_impl; [exact F2 |]. intros m [? Hm]. split; [done |].
    intros. rewrite <- cm_id0, <- cm_Term0. auto.
Qed.

Lemma log_ext_adv l l' : log_wf l -> log_ext l l' -> log_adv l l'.
Proof.
  intros Hw [? [es Hv] ? ? ?]. split; try done. rewrite Hv. apply take_app_le.
  pose proof (log_last_eq _ Hw). pose proof (lw_commit _ Hw).
  unfold log_last, log_ents, view_last in *. rewrite log_view_off in *. unfold zlen in *. lia.
Qed.

#[export] Instance log_adv_refl : Reflexive log_adv.
Proof. intros l. by split. Qed.

(** A node that changes in neither way but its log is still well-formed. *)
Lemma raft_wf_calm r r' :
  raft_wf r -> calm r r' -> log_wf (r_raftLog r') ->
  rl_storage (r_raftLog r') = rl_storage (r_raftLog r) ->
  map_Forall (fun _ => progress_ok) (r_prs r') -> ro_wf (r_readOnly r') -> raft_wf r'.
Proof.
  intros [] [] Hl Hs Hp Hro. split; try congruence; try done.
  - unfold log_off in *. congruence.
  - intros Hne. apply elem_of_dom. rewrite cm_dom0, cm_id0. apply elem_of_dom. apply rw_self0.
    congruence.
Qed.

(** *** Simple updates are calm *)

Lemma calm_send r m :
  m_Type m <> MsgVoteResp ->
  (m_Type m <> MsgProp -> m_Type m <> MsgReadIndex -> m_From m = None_id) ->
  calm r (send r m).
Proof.
  intros Hty Hfrom. split; try done. unfold send. rcbn. eexists. split; [done |].
  apply Forall_singleton. split; [done |]. cbn. intros Hp Hr.
  rewrite Hfrom by done. rewrite bool_decide_true by done. done.
Qed.

Lemma calm_set_raftLog r l : calm r (set_raftLog l r).
Proof. split; try done. exists []. by rewrite app_nil_r. Qed.
Lemma calm_set_readOnly r x : calm r (set_readOnly x r).
Proof. split; try done. exists []. by rewrite app_nil_r. Qed.
Lemma calm_set_readStates r x : calm r (set_readStates x r).
Proof. split; try done. exists []. by rewrite app_nil_r. Qed.
Lemma calm_set_pendingConf r x : calm r (set_pendingConf x r).
Proof. split; try done. exists []. by rewrite app_nil_r. Qed.
Lemma calm_set_tape r x : calm r (set_tape x r).
Proof. split; try done. exists []. by rewrite app_nil_r. Qed.
Lemma calm_set_lead r x : calm r (set_lead x r).
Proof. split; try done. exists []. by rewrite app_nil_r. Qed.
Lemma calm_set_electionElapsed r x : calm r (set_electionElapsed x r).
Proof. split; try done. exists []. by rewrite app_nil_r. Qed.
Lemma calm_set_heartbeatElapsed r x : calm r (set_heartbeatElapsed x r).
Proof. split; try done. exists []. by rewrite app_nil_r. Qed.
Lemma calm_set_prs r x : dom x = dom (r_prs r) -> calm r (set_prs x r).
Proof. intros. split; try done. exists []. by rewrite app_nil_r. Qed.

(** *** Specifications of the operations of a leader

    [good]: the node is well-formed apart from its log, which has room for [n]
    more entries. *)
Definition room (r : raft S) (n : Z) : Prop := log_last (r_raftLog r) + n < idx_limit.

Definition runs (r : raft S) (m : outcome (raft S)) : Prop :=
  exists r', m = Ret r' /\ raft_wf r' /\ calm r r' /\ log_ext (r_raftLog r) (r_raftLog r').

Lemma runs_ret r r' :
  raft_wf r' -> calm r r' -> log_ext (r_raftLog r) (r_raftLog r') -> runs r (Ret r').
Proof. intros. by exists r'. Qed.

Lemma runs_trans r r1 m :
  calm r r1 -> log_ext (r_raftLog r) (r_raftLog r1) -> runs r1 m -> runs r m.
Proof.
  intros Hc Hl (r' & -> & Hw & Hc' & Hl'). exists r'. split_and!; try done; by etrans.
Qed.

Lemma runs_bind r m (f : raft S -> outcome (raft S)) :
  runs r m -> (forall r1, raft_wf r1 -> calm r r1 -> log_ext (r_raftLog r) (r_raftLog r1) ->
    runs r1 (f r1)) -> runs r (m ≫= f).
Proof.
  intros (r1 & -> & Hw & Hc & Hl) Hf. simpl. eapply runs_trans; eauto.
Qed.

Lemma runs_same_log r r' : raft_wf r -> calm r r' ->
  r_raftLog r' = r_raftLog r -> map_Forall (fun _ => progress_ok) (r_prs r') ->
  ro_wf (r_readOnly r') -> runs r (Ret r').
Proof.
  intros Hw Hc Hl Hp Hro. apply runs_ret; [| done | by rewrite Hl].
  apply (raft_wf_calm r); try done; rewrite Hl; [apply Hw | done].
Qed.

Lemma for_each_runs (f : raft S -> Z -> outcome (raft S)) ids r :
  raft_wf r ->
  (forall r1 id, raft_wf r1 -> dom (r_prs r1) = dom (r_prs r) -> id ∈ ids -> runs r1 (f r1 id)) ->
  runs r (for_each f ids r).
Proof.
  revert r. induction ids as [| id ids IH]; intros r Hw Hf; simpl.
  - apply runs_ret; [done | reflexivity | reflexivity].
  - apply runs_bind; [apply Hf; [done | done | left] |].
    intros r1 Hw1 Hc1 Hl1. apply IH; [done |].
    intros r2 id' Hw2 Hd Hin. apply Hf; [done | | by right].
    rewrite Hd. apply Hc1.
Qed.

Lemma sendHeartbeat_runs r id ctx : raft_wf r -> id ∈ dom (r_prs r) ->
  runs r (sendHeartbeat r id ctx).
Proof.
  intros Hw [pr Hpr]%elem_of_dom. unfold sendHeartbeat. rewrite Hpr.
  apply runs_same_log; try done; try apply Hw. by apply calm_send.
Qed.

Lemma sendAppend_runs r id : raft_wf r -> id ∈ dom (r_prs r) -> runs r (sendAppend r id).
Proof.
  intros Hw [pr Hpr]%elem_of_dom. unfold sendAppend. rewrite Hpr.
  destruct (rw_prs _ Hw _ _ Hpr) as [_ Hn]. unfold u64_limit in *.
  rewrite term_spec by apply Hw. simpl.
  rewrite entries_spec by (apply Hw || (rewrite (rw_off _ Hw); lia)). simpl.
  apply runs_same_log; try done; try apply Hw. by apply calm_send.
Qed.

Lemma others_in r ids id : id ∈ others r ids -> id ∈ ids.
Proof. unfold others. rewrite list_elem_of_filter. tauto. Qed.

Lemma range_in k (s : gset Z) id : id ∈ range_keys k s -> id ∈ s.
Proof. rewrite range_keys_perm. by rewrite elem_of_elements. Qed.

Lemma raft_wf_tape r k : raft_wf r -> raft_wf (set_tape k r).
Proof. intros []. by split. Qed.

Lemma broadcast_runs (f : raft S -> Z -> outcome (raft S)) r :
  raft_wf r ->
  (forall r1 id, raft_wf r1 -> id ∈ dom (r_prs r1) -> runs r1 (f r1 id)) ->
  runs r (let '(ids, r) := range_prs r in for_each f (others r ids) r).
Proof.
  intros Hw Hf. simpl. apply (runs_trans r (set_tape (r_tape r + 1)%nat r));
    [apply calm_set_tape | reflexivity |].
  apply for_each_runs; [by apply raft_wf_tape |]. intros r1 id Hw1 Hd Hin.
  apply Hf; [done |]. rewrite Hd. simpl. by apply others_in, range_in in Hin.
Qed.

Lemma broadcastHeartbeatWithCtx_runs r ctx : raft_wf r -> runs r (broadcastHeartbeatWithCtx r ctx).
Proof. intros. apply broadcast_runs; [done |]. intros. by apply sendHeartbeat_runs. Qed.

Lemma broadcastAppend_runs r : raft_wf r -> runs r (broadcastAppend r).
Proof. intros. apply broadcast_runs; [done |]. intros. by apply sendAppend_runs. Qed.

(** *** The quorum index *)

Lemma quorum_range r : (0 < size (r_prs r))%nat ->
  0 < quorum r <= Z.of_nat (size (r_prs r)) /\ Z.of_nat (size (r_prs r)) < 2 * quorum r.
Proof.
  intros Hs. unfold quorum. rewrite Z.shiftr_div_pow2 by lia. change (2 ^ 1) with 2.
  pose proof (Z.div_mod (Z.of_nat (size (r_prs r))) 2 ltac:(lia)).
  pose proof (Z.mod_pos_bound (Z.of_nat (size (r_prs r))) 2 ltac:(lia)). lia.
Qed.

Lemma quorum_dom r r' : dom (r_prs r') = dom (r_prs r) -> quorum r' = quorum r.
Proof. intros Hd. unfold quorum. by rewrite <- !size_dom, Hd. Qed.

Lemma matches_keys r ids : (forall id, id ∈ ids -> id ∈ dom (r_prs r)) ->
  length (matches r ids) = length ids.
Proof.
  unfold matches. induction ids as [| id ids IH]; intros Hin; [done |]. simpl.
  destruct (r_prs r !! id) eqn:E; simpl.
  - f_equal. apply IH. intros. apply Hin. by right.
  - exfalso. apply not_elem_of_dom in E. apply E, Hin. left.
Qed.

Lemma matches_range_len r k :
  length (matches r (range_keys k (dom (r_prs r)))) = size (r_prs r).
Proof.
  rewrite matches_keys by (intros id; apply range_in).
  rewrite range_keys_perm. rewrite <- (size_dom (D := gset Z)). done.
Qed.

(** The value at the quorum position of the descending matches. *)
Lemma quorum_mid r k : (0 < size (r_prs r))%nat ->
  exists mid, zlookup (merge_sort uint64_ge (matches r (range_keys k (dom (r_prs r)))))
    (quorum r - 1) = Some mid.
Proof.
  intros Hs. apply zlookup_is_Some. unfold zlen. rewrite merge_sort_Permutation, matches_range_len.
  pose proof (quorum_range r Hs). lia.
Qed.

Lemma raft_wf_set_commit r c :
  raft_wf r -> rl_commitIndex (r_raftLog r) <= c <= log_last (r_raftLog r) ->
  raft_wf (set_raftLog (rl_set_commitIndex c (r_raftLog r)) r).
Proof.
  intros Hw Hc. apply (raft_wf_calm r); try done; try apply Hw; [apply calm_set_raftLog |].
  apply log_wf_set_commit; [apply Hw | lia | lia].
Qed.

Lemma maybeCommit_runs r : raft_wf r -> (0 < size (r_prs r))%nat ->
  exists r' b, raft_maybeCommit r = Ret (r', b) /\ raft_wf r' /\ calm r r' /\
    log_ext (r_raftLog r) (r_raftLog r') /\ log_view (r_raftLog r') = log_view (r_raftLog r).
Proof.
  intros Hw Hs. unfold raft_maybeCommit, range_prs.
  destruct (quorum_mid r (r_tape r) Hs) as [mid Hmid].
  change (matches (set_tape _ r)) with (matches r). change (quorum (set_tape _ r)) with (quorum r).
  rewrite (go_index_Some _ _ _ Hmid). simpl.
  rewrite maybeCommit_spec by (apply Hw). case_decide as Hd.
  - destruct Hd as [Hlt Ht]. simpl. eexists _, true. split; [done |].
    assert (mid <= log_last (r_raftLog r)) as Hle.
    { unfold log_term in Ht. pose proof (rw_term _ Hw).
      destruct (view_term _ mid) eqn:E; simpl in Ht; [| lia].
      by apply view_term_range in E as [_ ?]. }
    split_and!.
    + apply (raft_wf_set_commit (set_tape (r_tape r + 1)%nat r)); [by apply raft_wf_tape |]. simpl. lia.
    + etrans; [apply calm_set_tape | apply calm_set_raftLog].
    + split; simpl; try done; [exists []; by rewrite app_nil_r | lia].
    + done.
  - simpl. eexists _, false. split; [done |]. split_and!; try reflexivity.
    + destruct Hw. by split.
    + etrans; [apply calm_set_tape | apply calm_set_raftLog].
Qed.

(** *** appendEntry *)

Lemma stamp_props tm i es : 0 <= i -> i + zlen es < u64_limit -> 0 < tm ->
  contiguous i (stamp tm i es) /\ zlen (stamp tm i es) = zlen es /\
  Forall (fun e => 0 < e_Term e) (stamp tm i es) /\
  Forall (fun e => e_Term e = tm) (stamp tm i es).
Proof.
  unfold u64_limit. revert i. induction es as [| e es IH]; intros i Hi Hl Ht; simpl; [done |].
  rewrite zlen_cons in Hl. zlen_pos. unwrap.
  destruct (IH (i + 1)) as (Hc & Hz & Hp & Ht'); [lia | lia | done |].
  rewrite !zlen_cons. split_and!; try done; try lia; by constructor.
Qed.

Lemma maybeUpdate_ok pr n : progress_ok pr -> 0 <= n -> n + 1 < u64_limit ->
  progress_ok (maybeUpdate pr n).1.
Proof.
  unfold progress_ok, maybeUpdate, u64_limit. intros [] ??. unwrap.
  repeat (case_match; simpl; simplify_eq/=; zb); lia.
Qed.

Lemma appendEntry_runs r es :
  raft_wf r -> is_Some (r_prs r !! r_id r) -> es <> [] -> room r (zlen es) ->
  exists r', appendEntry r es = Ret r' /\ raft_wf r' /\ calm r r' /\
    log_ext (r_raftLog r) (r_raftLog r') /\
    log_ents (r_raftLog r') =
      log_ents (r_raftLog r) ++ stamp (r_Term r) (log_last (r_raftLog r) + 1) es.
Proof.
  intros Hw [pr Hpr] Hne Hroom. unfold appendEntry, room, idx_limit in *.
  pose proof (rw_log _ Hw) as Hlw. pose proof (log_off_nonneg _ Hlw).
  pose proof (lw_commit _ Hlw) as Hci. pose proof (lw_apply _ Hlw).
  rewrite lastIndex_spec by done. simpl. zlen_pos. unwrap.
  set (i := log_last (r_raftLog r) + 1) in *.
  destruct (stamp_props (r_Term r) i es) as (Hc & Hz & Hp & _);
    [lia | unfold u64_limit; lia | apply Hw |].
  destruct (append_spec (r_raftLog r) i (stamp (r_Term r) i es) Hlw) as
    (l' & -> & Hw' & Hv' & Hs' & Hc' & Ha' & Hk'); try done; try lia.
  { by destruct es. } { unfold idx_limit. lia. }
  simpl. rewrite lastIndex_spec by done. simpl. rewrite Hpr.
  assert (log_ents l' = log_ents (r_raftLog r) ++ stamp (r_Term r) i es) as Hve.
  { unfold log_ents. rewrite Hv'. apply view_splice_end. }
  assert (log_last l' = i + zlen es - 1) as Hll.
  { unfold log_last. rewrite Hv', view_splice_last; rewrite ?Hz, ?log_view_off;
      unfold log_last in *; lia. }
  set (r2 := set_prs _ _).
  assert (calm r r2) as Hcalm.
  { etrans; [apply (calm_set_raftLog r l') |]. apply calm_set_prs. by eapply dom_insert_same. }
  assert (raft_wf r2) as Hw2.
  { apply (raft_wf_calm r); try done; [| apply Hw]. subst r2. simpl.
    apply map_Forall_insert_2; [| apply Hw].
    apply maybeUpdate_ok; [by apply (rw_prs _ Hw _ _ Hpr) | lia | unfold u64_limit; lia]. }
  assert (log_ext (r_raftLog r) (r_raftLog r2)) as Hext.
  { split; subst r2; simpl; try congruence; [by eexists | lia]. }
  destruct (maybeCommit_runs r2 Hw2) as (r3 & b & -> & Hw3 & Hc3 & Hl3 & Hv3).
  { subst r2. simpl. pose proof (map_size_non_empty_iff (<[r_id r := (maybeUpdate pr (log_last l')).1]> (r_prs r))) as Hx.
    destruct (size _) eqn:E; [| lia]. exfalso. apply Hx; [apply insert_non_empty | done]. }
  simpl. exists r3. split; [done |]. split; [done |]. split; [by etrans |]. split; [by etrans |].
  unfold log_ents in *. rewrite Hv3. exact Hve.
Qed.

End Wf.
