(* ===== verification/RaftHandlers.v ===== *)
(** * Raft: the handlers return, and what they change

    The message handlers of leader, follower and candidate, the campaign and
    [Step]: under [raft_wf] and [msg_ok] each returns (none of the code's
    panics is reachable), and its effect is the record [effect]. *)
From S2P Require Import Prelude RaftModel RaftLog RaftCore RaftStep.

(** ** The read-only queue *)

Section ReadOnly.

Lemma addRequest_wf ro ctx i m e :
  ro_wf ro -> m_Entries m !! 0%nat = Some e -> e_Data e = ctx ->
  ro_wf (addRequest ro ctx i m).1.
Proof.
  intros [Hn Hd Hc] He Hctx. unfold addRequest.
  destruct (pendingReadIndex ro !! ctx) eqn:E; [by split |]. simpl.
  assert (ctx ∉ readIndexQueue ro) as Hni by (rewrite Hd, E; by intros [? ?]).
  split; simpl.
  - apply NoDup_app. split_and!; [done | | apply NoDup_singleton].
    intros c Hin ->%list_elem_of_singleton. done.
  - intros c. rewrite elem_of_app, list_elem_of_singleton, Hd, lookup_insert. case_decide.
    + subst. split; [by eauto | by right].
    + split; [intros [? | ->]; done | by left].
  - intros c rs. rewrite lookup_insert. case_decide as Hcc; [| apply Hc].
    intros [= <-]. subst. simpl. eauto.
Qed.

Lemma recvAck_wf ro ctx from : ro_wf ro -> ro_wf (recvAck ro ctx from).1.
Proof.
  intros [Hn Hd Hc]. unfold recvAck. destruct (pendingReadIndex ro !! ctx) as [rs |] eqn:E; [| by split].
  split; simpl; [done | |].
  - intros c. rewrite Hd, lookup_insert. case_decide; [subst; rewrite E; split; by eauto | done].
  - intros c rs'. rewrite lookup_insert. case_decide as Hcc; [| apply Hc].
    intros [= <-]. subst. simpl. by apply Hc in E.
Qed.

(** The loop walks the queue up to [ctx]. *)
Lemma advance_loop_spec ro queue ctx acc :
  (forall c, c ∈ queue -> is_Some (pendingReadIndex ro !! c)) ->
  exists rss rest found, advance_loop ro queue ctx acc = Ret ((acc ++ rss), rest, found) /\
    Forall (fun rs => exists c, c ∈ queue /\ pendingReadIndex ro !! c = Some rs) rss /\
    (found = true -> exists pre, queue = pre ++ (ctx :: rest) /\ (ctx ∉ pre) /\
       Forall2 (fun c rs => pendingReadIndex ro !! c = Some rs) (pre ++ [ctx]) rss) /\
    (found = false -> ctx ∉ queue).
Proof.
  revert acc. induction queue as [| c queue IH]; intros acc Hin; simpl.
  - exists [], [], false. rewrite app_nil_r. split_and!; try done. intros _. apply not_elem_of_nil.
  - destruct (Hin c ltac:(left)) as [rs Hrs]. rewrite Hrs. case_decide as Hc.
    + subst. exists [rs], queue, true. split; [done |]. split; [| split; [| done]].
      * constructor; [| done]. exists ctx. split; [left | done].
      * intros _. exists []. split; [done |]. split; [apply not_elem_of_nil |]. by repeat constructor.
    + destruct (IH (acc ++ [rs])) as (rss & rest & found & -> & HF & Ht & Hf).
      { intros. apply Hin. by right. }
      exists (rs :: rss), rest, found. rewrite <- app_assoc. split; [done |]. split; [| split].
      * constructor; [exists c; split; [left | done] |].
        eapply Forall_impl; [exact HF |]. intros rs' (c' & ? & ?). exists c'. split; [by right | done].
      * intros E. destruct (Ht E) as (pre & -> & Hni & HF2). exists (c :: pre). split; [done |].
        split; [by apply not_elem_of_cons |]. by constructor.
      * intros E. apply not_elem_of_cons. split; [done | by apply Hf].
Qed.

Lemma delete_requests_spec pending rss cs :
  Forall2 (fun c rs => exists e, m_Entries (ri_req rs) !! 0%nat = Some e /\ e_Data e = c) cs rss ->
  exists p, delete_requests pending rss = Ret p /\
    forall c, (c ∈ cs -> p !! c = None) /\ (c ∉ cs -> p !! c = pending !! c).
Proof.
  intros HF. revert pending. induction HF as [| c rs cs rss (e & He & Hd) HF IH]; intros pending; simpl.
  - exists pending. split; [done |]. intros c. split; [by intros ?%not_elem_of_nil | done].
  - assert (go_index (m_Entries (ri_req rs)) 0 = Ret e) as ->.
    { apply go_index_Some. unfold zlookup. simpl. done. }
    simpl. rewrite Hd. destruct (IH (delete c pending)) as (p & -> & Hp). exists p. split; [done |].
    intros c'. destruct (Hp c') as [Hp1 Hp2]. split.
    + intros [-> | ?]%elem_of_cons; [| by apply Hp1].
      destruct (decide (c ∈ cs)); [by apply Hp1 |]. rewrite Hp2 by done. apply lookup_delete_eq.
    + intros [? ?]%not_elem_of_cons. rewrite Hp2 by done. by apply lookup_delete_ne.
Qed.

(** [advance] pops the prefix of the queue that ends with [ctx], and forgets
    exactly those requests; it does nothing for an unknown context. *)
Lemma advance_spec ro ctx : ro_wf ro ->
  exists ro' rss, advance ro ctx = Ret (ro', rss) /\ ro_wf ro' /\
    Forall (fun rs => exists c, pendingReadIndex ro !! c = Some rs) rss /\
    (ctx ∈ readIndexQueue ro -> exists pre,
       readIndexQueue ro = pre ++ (ctx :: readIndexQueue ro') /\
       Forall2 (fun c rs => pendingReadIndex ro !! c = Some rs) (pre ++ [ctx]) rss) /\
    (ctx ∉ readIndexQueue ro -> ro' = ro /\ rss = []).
Proof.
  intros Hwf. pose proof Hwf as [Hn Hd Hc]. unfold advance.
  destruct (advance_loop_spec ro (readIndexQueue ro) ctx []) as (rss & rest & found & -> & HF & Ht & Hf);
    [intros; by apply Hd |]. simpl.
  assert (Forall (fun rs => exists c, pendingReadIndex ro !! c = Some rs) rss) as HF'.
  { eapply Forall_impl; [exact HF |]. intros rs (c & _ & ?). eauto. }
  destruct found.
  - destruct (Ht eq_refl) as (pre & Hq & Hni & HF2).
    assert (Forall2 (fun c rs => exists e, m_Entries (ri_req rs) !! 0%nat = Some e /\ e_Data e = c)
              (pre ++ [ctx]) rss) as HF3.
    { eapply Forall2_impl; [exact HF2 |]. intros c rs. apply Hc. }
    destruct (delete_requests_spec (pendingReadIndex ro) rss _ HF3) as (p & -> & Hp). simpl.
    eexists _, rss. split; [done |]. rewrite Hq in Hn. apply NoDup_app in Hn as (Hn1 & Hn2 & Hn3).
    split; [| split; [done |]].
    + split; simpl.
      * by apply NoDup_cons_1_2 in Hn3.
      * intros c. destruct (decide (c ∈ pre ++ [ctx])) as [Hin | Hin].
        -- rewrite (proj1 (Hp c) Hin). split; [| by intros [? ?]]. intros Hr. exfalso.
           apply elem_of_app in Hin as [Hin | ->%list_elem_of_singleton].
           ++ eapply Hn2; [exact Hin |]. by right.
           ++ by apply NoDup_cons_1_1 in Hn3.
        -- rewrite (proj2 (Hp c) Hin), <- Hd, Hq, elem_of_app, elem_of_cons. set_solver.
      * intros c rs. destruct (decide (c ∈ pre ++ [ctx])) as [Hin | Hin];
          [by rewrite (proj1 (Hp c) Hin) | rewrite (proj2 (Hp c) Hin); apply Hc].
    + split; [by exists pre | intros Hx; exfalso]. apply Hx. rewrite Hq. set_solver.
  - exists ro, []. split_and!; try done. intros Hx. by apply Hf in Hx.
Qed.

End ReadOnly.

(** ** Messages a node can process *)

Section Handlers.
Context {S : Type} `{StorageLaws S} `{GoRuntime}.
Implicit Types r : raft S.

(** An append message: consecutive entries of positive terms after [LogIndex]. *)
Record app_ok (m : Message) : Prop := {
  ao_contig : contiguous (m_LogIndex m + 1) (m_Entries m);
  ao_terms : Forall (fun e => 0 < e_Term e) (m_Entries m);
  ao_limit : m_LogIndex m + 1 + zlen (m_Entries m) <= idx_limit;
  ao_zero : m_LogTerm m = 0 -> m_LogIndex m = 0
}.

Record msg_ok (r : raft S) (m : Message) : Prop := {
  mo_term : 0 <= m_Term m /\ m_Term m + 1 < u64_limit;
  mo_remote : m_Type m = MsgVoteResp \/ m_Type m = MsgHeartbeat -> m_Term m <> 0;
  mo_index : 0 <= m_LogIndex m /\ m_LogIndex m + 1 < u64_limit /\
             0 <= m_RejectHint m /\ m_RejectHint m + 1 < u64_limit;
  mo_prop : m_Type m = MsgProp -> m_Entries m <> [];
  mo_read : m_Type m = MsgReadIndex \/ m_Type m = MsgReadIndexResp -> m_Entries m <> [];
  mo_room : room r (zlen (m_Entries m) + 1);
  mo_app : m_Type m = MsgApp -> app_ok m
}.

(** ** Leader *)

Lemma check_conf_len p es : length (check_conf p es).2 = length es.
Proof.
  revert p. induction es as [| e es IH]; intros p; simpl; [done |].
  destruct (bool_decide _); [destruct (check_conf true es) eqn:E | destruct (check_conf p es) eqn:E];
    simpl; f_equal; [rewrite <- (IH true) | rewrite <- (IH p)]; by rewrite E.
Qed.

Lemma mayDecreaseTo_ok pr i h : progress_ok pr -> 0 <= i < u64_limit ->
  0 <= h -> h + 1 < u64_limit -> progress_ok (mayDecreaseTo pr i h).1.
Proof.
  unfold progress_ok, mayDecreaseTo, u64_limit. intros [] ???. unwrap.
  repeat (case_match; simpl; zb); lia.
Qed.

Lemma go_index_first {A} (l : list A) : l <> [] -> exists x, go_index l 0 = Ret x /\ l !! 0%nat = Some x.
Proof. destruct l as [| x l]; [done |]. intros _. by exists x. Qed.

Lemma serve_reads_runs r rss : raft_wf r ->
  Forall (fun rs => exists e, m_Entries (ri_req rs) !! 0%nat = Some e) rss ->
  runs r (serve_reads r rss).
Proof.
  intros Hw HF. revert r Hw. induction HF as [| rs rss (e & He) _ IH]; intros r Hw; simpl.
  - apply runs_ret; [done | reflexivity | reflexivity].
  - destruct (_ || _).
    + destruct (go_index_first (m_Entries (ri_req rs))) as (e' & -> & _); [by destruct (m_Entries _) |].
      simpl. eapply runs_trans; [apply calm_set_readStates | reflexivity |].
      apply IH. destruct Hw. by split.
    + eapply runs_trans; [| | apply IH]; [by apply calm_send | reflexivity |].
      destruct Hw. by split.
Qed.

Lemma appendEntry_runs' r es :
  raft_wf r -> is_Some (r_prs r !! r_id r) -> es <> [] -> room r (zlen es) -> runs r (appendEntry r es).
Proof.
  intros Hw Hs Hne Hr. destruct (appendEntry_runs r es Hw Hs Hne Hr) as (r' & E & ? & ? & ? & _).
  by exists r'.
Qed.

Lemma stepLeader_runs r m : raft_wf r -> msg_ok r m -> runs r (stepLeader r m).
Proof.
  intros Hw Hm. unfold stepLeader.
  assert (runs r (Ret r)) as Hskip by (apply runs_ret; [done | reflexivity | reflexivity]).
  destruct (m_Type m) eqn:Ety; try exact Hskip.
  - by apply broadcastHeartbeatWithCtx_runs.
  - destruct (m_Entries m) as [| e0 es0] eqn:Ees; [by apply (mo_prop _ _ Hm) in Ety |].
    destruct (r_prs r !! r_id r) eqn:Eself; [| done].
    destruct (check_conf _ _) as [pc es] eqn:Ec.
    assert (length es = length (m_Entries m)) as Hlen.
    { rewrite Ees. pose proof (check_conf_len (r_pendingConf r) (e0 :: es0)) as Hl. by rewrite Ec in Hl. }
    eapply runs_trans; [apply (calm_set_pendingConf _ pc) | reflexivity |].
    apply runs_bind; [| intros; by apply broadcastAppend_runs].
    apply appendEntry_runs'; [destruct Hw; by split | simpl; rewrite Eself; by eauto | |].
    + intros ->. by rewrite Ees in Hlen.
    + pose proof (mo_room _ _ Hm). unfold room, zlen in *. simpl. lia.
  - destruct (r_prs r !! m_From m) as [pr |] eqn:Epr; [| done].
    pose proof (mo_index _ _ Hm) as (Hi1 & Hi2 & Hi3 & Hi4).
    pose proof (rw_prs _ Hw _ _ Epr) as Hpr. simpl in Hpr.
    assert (forall pr', progress_ok pr' -> raft_wf (set_prs (<[m_From m := pr']> (r_prs r)) r) /\
      calm r (set_prs (<[m_From m := pr']> (r_prs r)) r)) as Hset.
    { intros pr' Hok. assert (calm r (set_prs (<[m_From m := pr']> (r_prs r)) r)) as Hc.
      { apply calm_set_prs. by eapply dom_insert_same. }
      split; [| done]. apply (raft_wf_calm r); try done; try apply Hw.
      simpl. apply map_Forall_insert_2; [done | apply Hw]. }
    destruct (m_Reject m).
    + pose proof (mayDecreaseTo_ok pr (m_LogIndex m) (m_RejectHint m) Hpr
        ltac:(lia) ltac:(lia) ltac:(lia)) as Hok.
      destruct (mayDecreaseTo _ _ _) as [pr' ok]. destruct (Hset pr' Hok) as [Hw' Hc'].
      eapply runs_trans; [exact Hc' | reflexivity |]. destruct ok.
      * apply sendAppend_runs; [done |]. simpl. rewrite dom_insert_L. set_solver.
      * apply runs_ret; [done | reflexivity | reflexivity].
    + pose proof (maybeUpdate_ok pr (m_LogIndex m) Hpr ltac:(lia) ltac:(lia)) as Hok.
      destruct (maybeUpdate _ _) as [pr' up]. destruct (Hset pr' Hok) as [Hw' Hc'].
      eapply runs_trans; [exact Hc' | reflexivity |]. destruct up.
      * destruct (maybeCommit_runs _ Hw') as (r2 & b & -> & Hw2 & Hc2 & Hl2 & _).
        { simpl. apply Nat.neq_0_lt_0. intros E%map_size_empty_inv. by apply insert_non_empty in E. }
        simpl. eapply runs_trans; [exact Hc2 | exact Hl2 |].
        destruct b; [by apply broadcastAppend_runs | apply runs_ret; [done | reflexivity | reflexivity]].
      * apply runs_ret; [done | reflexivity | reflexivity].
  - destruct (r_prs r !! m_From m); [| done].
    destruct (readIndexQueue (r_readOnly r)); [done |].
    pose proof (recvAck_wf _ (m_Context m) (m_From m) (rw_ro _ Hw)) as Hro.
    destruct (recvAck _ _ _) as [ro acks]. simpl in Hro.
    assert (raft_wf (set_readOnly ro r)) as Hw' by (destruct Hw; by split).
    eapply runs_trans; [apply (calm_set_readOnly _ ro) | reflexivity |].
    destruct (_ <? _); [apply runs_ret; [done | reflexivity | reflexivity] |].
    destruct (advance_spec ro (m_Context m) Hro) as (ro' & rss & E & Hro' & HF & _).
    cbn [set_readOnly r_readOnly]. rewrite E. simpl.
    eapply runs_trans; [apply (calm_set_readOnly _ ro') | reflexivity |].
    apply serve_reads_runs; [destruct Hw; by split |].
    eapply Forall_impl; [exact HF |]. intros rs (c & Hc).
    apply (ro_ctx _ Hro) in Hc as (e & He & _). eauto.
  - destruct (r_prs r !! r_id r); [| done].
    destruct (go_index_first (m_Entries m)) as (e & -> & He);
      [by apply (mo_read _ _ Hm); left |]. simpl.
    destruct (1 <? _).
    + rewrite term_spec by apply Hw. simpl. destruct (negb _); [done |].
      pose proof (addRequest_wf _ (e_Data e) (rl_commitIndex (r_raftLog r)) m e (rw_ro _ Hw) He eq_refl)
        as Hro.
      destruct (addRequest _ _ _ _) as [ro fresh]. simpl in Hro.
      assert (raft_wf (set_readOnly ro r)) as Hw' by (destruct Hw; by split).
      eapply runs_trans; [apply (calm_set_readOnly _ ro) | reflexivity |].
      destruct fresh; [by apply broadcastHeartbeatWithCtx_runs
                      | apply runs_ret; [done | reflexivity | reflexivity]].
    + apply runs_ret; [destruct Hw; by split | apply calm_set_readStates | reflexivity].
Qed.

End Handlers.
