(* ===== verification/RaftEffect.v ===== *)
(** * Raft: the effect of one [Step]

    Followers, candidates, campaigns and the dispatch of [Step].  [does r m o]
    says that the computation [o] returns a node whose relation to [r] is
    [effect]: the facts about terms, votes, the log and the messages sent that
    the safety of the cluster is derived from. *)
From S2P Require Import Prelude RaftModel RaftLog RaftCore RaftStep RaftHandlers.

Section Effect.
Context {S : Type} `{StorageLaws S} `{GoRuntime}.
Implicit Types r : raft S.

(** A vote response that grants carries the node's vote of its current term;
    every message but a client's message passed on is of the node's term. *)
Definition new_msg (r' : raft S) (m : Message) : Prop :=
  (m_Type m = MsgVoteResp -> m_Reject m = false -> m_To m = r_Vote r') /\
  (m_Type m <> MsgProp -> m_Type m <> MsgReadIndex -> m_From m = r_id r' /\ m_Term m = r_Term r').

(** Why a vote of [v] is counted: it is the node's own, it was counted before
    in the same candidacy, or it is what the message [m] says. *)
Definition vote_src (r r' : raft S) (m : Message) (v : Z) : Prop :=
  (v = r_id r /\ r_Vote r' = r_id r) \/
  (r_state r = StateCandidate /\ r_Term r' = r_Term r /\ r_votes r !! v = Some true) \/
  (m_Type m = MsgVoteResp /\ m_From m = v /\ m_Reject m = false /\ m_Term m = r_Term r').

Record effect (r : raft S) (m : Message) (r' : raft S) : Prop := {
  ef_wf : raft_wf r';
  ef_id : r_id r' = r_id r;
  ef_dom : dom (r_prs r') = dom (r_prs r);
  ef_term : r_Term r <= r_Term r';
  ef_vote : r_Term r' = r_Term r -> r_Vote r <> None_id -> r_Vote r' = r_Vote r;
  ef_log : log_adv (r_raftLog r) (r_raftLog r');
  ef_append_only : r_state r = StateLeader -> r_Term r' = r_Term r ->
    log_ext (r_raftLog r) (r_raftLog r');
  ef_msgs : exists new, r_msgs r' = r_msgs r ++ new /\ Forall (new_msg r') new;
  ef_cand : r_state r' = StateCandidate ->
    forall v, r_votes r' !! v = Some true -> vote_src r r' m v;
  ef_lead : r_state r' = StateLeader ->
    (r_state r = StateLeader /\ r_Term r' = r_Term r) \/
    exists Q : gset Z, quorum r <= Z.of_nat (size Q) /\ forall v, v ∈ Q -> vote_src r r' m v
}.

(** An append message whose entries contradict committed entries of the log:
    the one message the code answers with a panic. *)
Definition contradicts (l : raftLog S) (m : Message) : Prop :=
  m_Type m = MsgApp /\ log_term l (m_LogIndex m) = m_LogTerm m /\
  exists k, conflict_at (log_view l) (m_Entries m) = Some k /\ k <= rl_commitIndex l.

Definition does (r : raft S) (m : Message) (o : outcome (raft S)) : Prop :=
  (exists r', o = Ret r' /\ effect r m r') \/
  (o = Panic "conflict before commit index" /\ contradicts (r_raftLog r) m).

Lemma does_ret r m r' : effect r m r' -> does r m (Ret r').
Proof. intros. left. by exists r'. Qed.

Lemma plain_new r r' m : r_id r' = r_id r -> r_Term r' = r_Term r -> plain_msg r m -> new_msg r' m.
Proof. intros E1 E2 [Hty Hm]. unfold new_msg. by rewrite E1, E2. Qed.

Lemma calm_msgs r r' : calm r r' ->
  exists new, r_msgs r' = r_msgs r ++ new /\ Forall (new_msg r') new.
Proof.
  intros []. destruct cm_msgs as (new & E & HF). exists new. split; [done |].
  eapply Forall_impl; [exact HF |]. intros m. by apply plain_new.
Qed.

(** A calm change, when only a follower or a candidate may lose entries. *)
Lemma effect_calm r m r' :
  raft_wf r' -> calm r r' -> log_adv (r_raftLog r) (r_raftLog r') ->
  (r_state r = StateLeader -> log_ext (r_raftLog r) (r_raftLog r')) -> effect r m r'.
Proof.
  intros Hw Hc Hl Hext. pose proof (calm_msgs _ _ Hc). destruct Hc. split; try done; try congruence.
  - lia.
  - auto.
  - intros Hs v Hv. right. left. split_and!; congruence.
  - intros Hs. left. split; congruence.
Qed.

Lemma runs_does r m o : raft_wf r -> runs r o -> does r m o.
Proof.
  intros Hw0 (r' & -> & Hw & Hc & Hl). apply does_ret.
  apply effect_calm; try done. apply log_ext_adv; [apply Hw0 | done].
Qed.

Lemma does_skip r m : raft_wf r -> does r m (Ret r).
Proof. intros. apply runs_does; [done |]. apply runs_ret; [done | reflexivity | reflexivity]. Qed.

(** *** Becoming a follower *)

Lemma becomeFollower_wf r tm lead : raft_wf r -> 0 < tm < u64_limit -> raft_wf (becomeFollower r tm lead).
Proof. intros [] Ht. split; rcbn; try done. Qed.

(** What happens after becoming a follower (of a later term, or from a state
    that is not leader) counts as having happened to the node before. *)
Lemma effect_follower r m tm lead r' :
  r_Term r <= tm -> (r_Term r < tm \/ r_state r <> StateLeader) ->
  effect (becomeFollower r tm lead) m r' -> effect r m r'.
Proof.
  intros Hle Hor []. unfold vote_src, quorum in *. rcbn. split; unfold vote_src, quorum; try done.
  - lia.
  - intros Ht Hv. assert (r_Term r = tm) as Heq by lia. rewrite Heq, Z.eqb_refl in *. auto.
  - intros Hs Ht. destruct Hor; [lia | done].
  - intros Hs v Hv. destruct (ef_cand0 Hs v Hv) as [? | [(? & _) | ?]];
      [by left | done | by right; right].
  - intros Hs. right. destruct (ef_lead0 Hs) as [[? _] | (Q & HQ & Hin)]; [done |].
    exists Q. split; [done |]. intros v Hv.
    destruct (Hin v Hv) as [? | [(? & _) | ?]]; [by left | done | by right; right].
Qed.

Lemma does_follower r m tm lead o :
  r_Term r <= tm -> (r_Term r < tm \/ r_state r <> StateLeader) ->
  does (becomeFollower r tm lead) m o -> does r m o.
Proof.
  intros ?? [(r' & -> & He) | [-> Hx]]; [left; exists r'; split; [done |]; by eapply effect_follower |].
  right. by rewrite bf_raftLog in Hx.
Qed.

(** *** Followers *)

Lemma view_append_keep v prev es c :
  c <= view_last v -> (forall k, conflict_at v es = Some k -> c < k) ->
  take (Z.to_nat (c - lv_off v)) (lv_ents (view_append v prev es)) =
  take (Z.to_nat (c - lv_off v)) (lv_ents v).
Proof.
  intros Hc Hk. unfold view_append. destruct (conflict_at v es) as [k |] eqn:E; [| done].
  specialize (Hk k eq_refl). simpl. unfold view_last, zlen in *.
  rewrite take_app_le, take_take by (rewrite length_take; lia). f_equal. lia.
Qed.

Lemma handleAppendEntries_does r m :
  raft_wf r -> msg_ok r m -> m_Type m = MsgApp -> r_state r <> StateLeader ->
  does r m (handleAppendEntries r m).
Proof.
  intros Hw Hm Hty Hns. destruct (mo_app _ _ Hm Hty). pose proof (mo_index _ _ Hm) as [Hi _].
  pose proof (rw_log _ Hw) as Hlw. pose proof (rw_off _ Hw) as Hoff.
  unfold handleAppendEntries.
  destruct (decide (log_term (r_raftLog r) (m_LogIndex m) = m_LogTerm m)) as [Heq | Hneq].
  - destruct (decide (default (rl_commitIndex (r_raftLog r) + 1)
        (conflict_at (log_view (r_raftLog r)) (m_Entries m)) <= rl_commitIndex (r_raftLog r))) as [Hle | Hnc].
    { destruct (conflict_at _ _) as [k |] eqn:Hk; simpl in Hle; [| lia].
      right. split; [| split_and!; try done; by exists k]. rewrite <- Heq.
      erewrite maybeAppend_conflict_committed; done. }
    assert (forall k, conflict_at (log_view (r_raftLog r)) (m_Entries m) = Some k ->
      rl_commitIndex (r_raftLog r) < k) as ao_commit.
    { intros k Hk. rewrite Hk in Hnc. simpl in Hnc. lia. }
    assert (log_off (r_raftLog r) <= m_LogIndex m <= log_last (r_raftLog r)) as Hrange.
    { destruct (decide (m_LogTerm m = 0)) as [Hz | Hz].
      - pose proof (lw_apply _ Hlw). pose proof (lw_commit _ Hlw). rewrite (ao_zero Hz). lia.
      - unfold log_term in Heq. destruct (view_term _ _) eqn:E; simpl in Heq; [| congruence].
        by apply view_term_range in E. }
    destruct (maybeAppend_accept (r_raftLog r) (m_LogIndex m) (m_CommitIndex m) (m_Entries m))
      as (l' & E & Hw' & Hv & Hs & Ha & Hc & Hk'); try done.
    rewrite Heq in E. rewrite E. simpl. apply does_ret.
    assert (calm r (send (set_raftLog l' r)
      (mkMessage MsgAppResp (m_From m) 0 0 0 (m_LogIndex m + zlen (m_Entries m)) [] 0 false 0 [])))
      as Hcalm by (etrans; [apply (calm_set_raftLog r l') | by apply calm_send]).
    apply effect_calm; [| done | | done].
    + apply (raft_wf_calm r); try done; apply Hw.
    + split; simpl; try done; [| lia]. unfold log_ents. rewrite Hv.
      rewrite <- log_view_off. apply view_append_keep; [apply Hlw | done].
  - rewrite maybeAppend_reject by done. simpl. rewrite lastIndex_spec by done. simpl.
    apply does_ret.
    assert (calm r (send (set_raftLog (r_raftLog r) r)
      (mkMessage MsgAppResp (m_From m) 0 0 0 (m_LogIndex m) [] 0 true (log_last (r_raftLog r)) [])))
      as Hcalm by (etrans; [apply (calm_set_raftLog r) | by apply calm_send]).
    apply effect_calm; [| done | reflexivity | done]. apply (raft_wf_calm r); try done; apply Hw.
Qed.

Lemma handleHeartbeat_does r m : raft_wf r -> does r m (handleHeartbeat r m).
Proof.
  intros Hw. pose proof (rw_log _ Hw) as Hlw. unfold handleHeartbeat.
  rewrite lastIndex_spec by done. simpl.
  destruct (commitTo_spec (r_raftLog r) (Z.min (m_CommitIndex m) (log_last (r_raftLog r))) Hlw)
    as (l' & -> & -> & Hw'); [lia |]. simpl.
  apply runs_does; [done |].
  set (l' := rl_set_commitIndex _ _) in *.
  assert (calm r (send (set_raftLog l' r)
      (mkMessage MsgHeartbeatResp (m_From m) 0 0 0 0 [] 0 false 0 (m_Context m))))
    as Hcalm by (etrans; [apply (calm_set_raftLog r l') | by apply calm_send]).
  apply runs_ret; [| done |].
  - apply (raft_wf_calm r); try done; apply Hw.
  - split; simpl; try done; [exists []; by rewrite app_nil_r | lia].
Qed.

Lemma forward_does r m : raft_wf r -> m_Type m = MsgProp \/ m_Type m = MsgReadIndex ->
  does r m (Ret (forward r m)).
Proof.
  intros Hw Hty. apply runs_does; [done |]. unfold forward. destruct (_ =? _).
  - apply runs_ret; [done | reflexivity | reflexivity].
  - assert (forall m', m_Type m' = m_Type m -> calm r (send r m')) as Hcs.
    { intros m' E. apply calm_send; rewrite E; destruct Hty as [-> | ->]; congruence. }
    apply runs_ret; [| by apply Hcs | reflexivity].
    apply (raft_wf_calm r); try done; try apply Hw. by apply Hcs.
Qed.

Lemma msg_ok_calm r r' m :
  r_raftLog r' = r_raftLog r -> msg_ok r m -> msg_ok r' m.
Proof. intros E []. split; unfold room in *; rewrite ?E; done. Qed.

Lemma does_calm r r1 m o :
  calm r r1 -> r_raftLog r1 = r_raftLog r -> r_msgs r1 = r_msgs r -> does r1 m o -> does r m o.
Proof.
  intros Hc Hl Hms [(r' & -> & []) | [-> Hx]]; [| right; by rewrite <- Hl]. apply does_ret.
  pose proof (quorum_dom r r1 (cm_dom _ _ Hc)) as Hq. destruct Hc. unfold vote_src in *.
  rewrite Hq, Hl, Hms, cm_id, cm_Term, cm_Vote, cm_state, cm_votes, cm_dom in *.
  by split.
Qed.

Lemma stepFollower_does r m : raft_wf r -> msg_ok r m -> r_state r = StateFollower ->
  does r m (stepFollower r m).
Proof.
  intros Hw Hm Hs. unfold stepFollower.
  assert (calm r (set_lead (m_From m) (set_electionElapsed 0 r))) as Hc
    by (etrans; [apply calm_set_electionElapsed | apply calm_set_lead]).
  assert (raft_wf (set_lead (m_From m) (set_electionElapsed 0 r))) as Hw' by (destruct Hw; by split).
  destruct (m_Type m) eqn:Ety; try (by apply does_skip).
  - apply forward_does; auto.
  - eapply does_calm; [exact Hc | done | done |].
    apply handleAppendEntries_does; try done; [by apply (msg_ok_calm r) | simpl; by rewrite Hs].
  - eapply does_calm; [exact Hc | done | done |]. by apply handleHeartbeat_does.
  - apply forward_does; auto.
  - destruct (go_index_first (m_Entries m)) as (e & -> & _); [apply (mo_read _ _ Hm); by right |].
    simpl. apply runs_does; [done |].
    apply runs_ret; [destruct Hw; by split | apply calm_set_readStates | reflexivity].
Qed.

End Effect.
