(* ===== verification/RaftCampaign.v ===== *)
(** * Raft: campaigns, votes and [Step]

    The rest of the effect of a step: campaigns, becoming leader, counting
    votes, granting votes, and the theorem for [Step] and [tick] as a whole. *)
From S2P Require Import Prelude RaftModel RaftLog RaftCore RaftStep RaftHandlers RaftEffect.

Section Campaign.
Context {S : Type} `{StorageLaws S} `{GoRuntime}.
Implicit Types r : raft S.

(** *** Becoming leader *)

Lemma foldl_insert_props (prs : gmap Z Progress) ids p :
  (forall id, id ∈ ids -> id ∈ dom prs) -> progress_ok p ->
  map_Forall (fun _ => progress_ok) prs ->
  dom (foldl (fun prs id => <[id := p]> prs) prs ids) = dom prs /\
  map_Forall (fun _ => progress_ok) (foldl (fun prs id => <[id := p]> prs) prs ids).
Proof.
  revert prs. induction ids as [| id ids IH]; intros prs Hin Hp Hok; simpl; [done |].
  assert (dom (<[id := p]> prs) = dom prs) as Hd.
  { destruct (proj1 (elem_of_dom prs id) (Hin id ltac:(left))) as [x Hx].
    by eapply dom_insert_same. }
  destruct (IH (<[id := p]> prs)) as [Hd' Hok']; [| done | by apply map_Forall_insert_2 |].
  - intros. rewrite Hd. apply Hin. by right.
  - by rewrite Hd', Hd.
Qed.

(** The facts about a node that has become leader. *)
Record led (r r' : raft S) : Prop := {
  ld_wf : raft_wf r';
  ld_id : r_id r' = r_id r;
  ld_Term : r_Term r' = r_Term r;
  ld_Vote : r_Vote r' = r_Vote r;
  ld_state : r_state r' = StateLeader;
  ld_dom : dom (r_prs r') = dom (r_prs r);
  ld_log : log_ext (r_raftLog r) (r_raftLog r');
  ld_msgs : exists new, r_msgs r' = r_msgs r ++ new /\ Forall (new_msg r') new
}.

Lemma ln_id r : r_id (leader_node r) = r_id r.
Proof. unfold leader_node. crush_field. Qed.
Lemma ln_Term r : r_Term (leader_node r) = r_Term r.
Proof. unfold leader_node. crush_field. Qed.
Lemma ln_Vote r : r_Vote (leader_node r) = r_Vote r.
Proof. unfold leader_node. crush_field. Qed.
Lemma ln_raftLog r : r_raftLog (leader_node r) = r_raftLog r.
Proof. unfold leader_node. crush_field. Qed.
Lemma ln_msgs r : r_msgs (leader_node r) = r_msgs r.
Proof. unfold leader_node. crush_field. Qed.
Lemma ln_prs r : r_prs (leader_node r) = r_prs r.
Proof. unfold leader_node. crush_field. Qed.
Lemma ln_state r : r_state (leader_node r) = StateLeader.
Proof. unfold leader_node. crush_field. Qed.
Lemma ln_step r : r_step (leader_node r) = stepLeader_.
Proof. unfold leader_node. crush_field. Qed.
Lemma ln_tick r : r_tick (leader_node r) = tickHeartbeat_.
Proof. unfold leader_node. crush_field. Qed.
Lemma ln_readOnly r : r_readOnly (leader_node r) = r_readOnly r.
Proof. unfold leader_node. crush_field. Qed.

Lemma leader_node_wf r : raft_wf r -> is_Some (r_prs r !! r_id r) -> raft_wf (leader_node r).
Proof.
  intros [] Hself. split; rewrite ?ln_id, ?ln_Term, ?ln_raftLog, ?ln_prs, ?ln_state, ?ln_step, ?ln_tick,
    ?ln_readOnly; done.
Qed.

Lemma reset_progress_runs r last : raft_wf r -> 0 <= last < idx_limit ->
  runs r (Ret (reset_progress r last)) /\ r_raftLog (reset_progress r last) = r_raftLog r.
Proof.
  intros Hw Hlast. split; [| done]. unfold reset_progress. simpl.
  destruct (foldl_insert_props (r_prs r)
     (others (set_tape (r_tape r + 1) r) (range_keys (r_tape r) (dom (r_prs r))))
     (mkProgress 0 (u64 (last + 1)) ProgressStateProbe)) as [Hd Hok]; [| | apply Hw |].
  { intros id Hin%others_in. by apply range_in in Hin. }
  { unfold progress_ok, u64_limit, idx_limit in *. simpl. unwrap. lia. }
  apply runs_same_log; try done; [| apply Hw].
  etrans; [apply (calm_set_tape r) | by apply calm_set_prs].
Qed.

Lemma becomeLeader_led r :
  raft_wf r -> r_state r <> StateFollower -> is_Some (r_prs r !! r_id r) -> room r 1 ->
  exists r', becomeLeader r = Ret r' /\ led r r'.
Proof.
  intros Hw Hs Hself Hroom. pose proof (rw_log _ Hw) as Hlw. unfold room in Hroom.
  unfold becomeLeader. rewrite bool_decide_false by done. cbv zeta.
  pose proof (leader_node_wf r Hw Hself) as Hw1.
  pose proof (ln_id r) as Hid. pose proof (ln_Term r) as HT. pose proof (ln_Vote r) as HV.
  pose proof (ln_state r) as Hst. pose proof (ln_raftLog r) as Hl. pose proof (ln_msgs r) as Hms.
  pose proof (ln_prs r) as Hp. generalize dependent (leader_node r). intros r1 ????????.
  rewrite Hl, lastIndex_spec by done. simpl.
  pose proof (log_off_nonneg _ Hlw). pose proof (lw_commit _ Hlw). pose proof (lw_apply _ Hlw).
  destruct (reset_progress_runs r1 (log_last (r_raftLog r)) Hw1) as [(r2 & E2 & Hw2 & Hc2 & Hx2) Hl2]; [lia |].
  injection E2 as E2. rewrite E2 in *. clear E2.
  destruct (appendEntry_runs r2 [zeroEntry] Hw2) as (r' & -> & Hw' & Hc & Hl' & _); [| done | |].
  { apply elem_of_dom. rewrite (cm_dom _ _ Hc2), (cm_id _ _ Hc2), Hp, Hid. by apply elem_of_dom. }
  { unfold room. by rewrite Hl2, Hl. }
  exists r'. split; [done |]. assert (calm r1 r') as Hc' by (by etrans).
  pose proof (calm_msgs _ _ Hc'). destruct Hc'. rewrite Hl2, Hl, Hms, Hp in *.
  split; congruence.
Qed.

(** *** The election campaign *)

Record elected (r r' : raft S) : Prop := {
  el_wf : raft_wf r';
  el_id : r_id r' = r_id r;
  el_dom : dom (r_prs r') = dom (r_prs r);
  el_Term : r_Term r' = r_Term r + 1;
  el_Vote : r_Vote r' = r_id r;
  el_log : log_ext (r_raftLog r) (r_raftLog r');
  el_msgs : exists new, r_msgs r' = r_msgs r ++ new /\ Forall (new_msg r') new;
  el_state : r_state r' = StateCandidate \/ (r_state r' = StateLeader /\ quorum r = 1);
  el_votes : r_state r' = StateCandidate -> forall v, r_votes r' !! v = Some true -> v = r_id r
}.

Lemma elected_effect r m r' : raft_wf r -> elected r r' -> effect r m r'.
Proof.
  intros Hw []. split; try done; try lia.
  - by apply log_ext_adv; [apply Hw |].
  - intros Hs v Hv. left. split; [by apply el_votes0 | congruence].
  - intros Hs. right. destruct el_state0 as [? | [_ Hq]]; [congruence |].
    exists {[r_id r]}. rewrite size_singleton. split; [lia |].
    intros v ->%elem_of_singleton. by left.
Qed.

Lemma elected_from r0 r r' :
  r_id r = r_id r0 -> dom (r_prs r) = dom (r_prs r0) -> r_Term r = r_Term r0 ->
  r_raftLog r = r_raftLog r0 -> r_msgs r = r_msgs r0 -> elected r r' -> elected r0 r'.
Proof.
  intros E1 E2 E3 E4 E5 []. rewrite (quorum_dom r0 r) in * by done.
  rewrite E1, E2, E3, E4, E5 in *. by split.
Qed.

Lemma runs_elected r r1 o :
  elected r r1 -> runs r1 o -> exists r', o = Ret r' /\ elected r r'.
Proof.
  intros [] (r' & -> & Hw & Hc & Hl). exists r'. split; [done |].
  destruct (calm_msgs _ _ Hc) as (n2 & E2 & F2), el_msgs0 as (n1 & E1 & F1).
  destruct Hc. split; try congruence; try done.
  - by etrans.
  - exists (n1 ++ n2). rewrite E2, E1, app_assoc. split; [done |]. apply Forall_app. split; [| done].
    eapply Forall_impl; [exact F1 |]. intros x. unfold new_msg. rewrite cm_id, cm_Term, cm_Vote. done.
  - rewrite cm_state, cm_votes. done.
Qed.

Lemma cn_id r : r_id (candidate_node r) = r_id r.
Proof. unfold candidate_node. crush_field. Qed.
Lemma cn_Term r : r_Term (candidate_node r) = u64 (r_Term r + 1).
Proof. unfold candidate_node. crush_field. Qed.
Lemma cn_Vote r : r_Vote (candidate_node r) = r_id r.
Proof. unfold candidate_node. crush_field. Qed.
Lemma cn_raftLog r : r_raftLog (candidate_node r) = r_raftLog r.
Proof. unfold candidate_node. crush_field. Qed.
Lemma cn_msgs r : r_msgs (candidate_node r) = r_msgs r.
Proof. unfold candidate_node. crush_field. Qed.
Lemma cn_prs r : r_prs (candidate_node r) = r_prs r.
Proof. unfold candidate_node. crush_field. Qed.
Lemma cn_state r : r_state (candidate_node r) = StateCandidate.
Proof. unfold candidate_node. crush_field. Qed.
Lemma cn_step r : r_step (candidate_node r) = stepCandidate_.
Proof. unfold candidate_node. crush_field. Qed.
Lemma cn_tick r : r_tick (candidate_node r) = tickElection_.
Proof. unfold candidate_node. crush_field. Qed.
Lemma cn_readOnly r : r_readOnly (candidate_node r) = r_readOnly r.
Proof. unfold candidate_node. crush_field. Qed.
Lemma cn_votes r : r_votes (candidate_node r) = ∅.
Proof. unfold candidate_node. crush_field. Qed.

Lemma candidate_node_elected r :
  raft_wf r -> is_Some (r_prs r !! r_id r) -> r_Term r + 1 < u64_limit ->
  elected r (candidate_node r).
Proof.
  intros [] Hself Ht. unfold u64_limit in *.
  assert (u64 (r_Term r + 1) = r_Term r + 1) as Hu by (by unwrap).
  split; [split |..]; rewrite ?cn_id, ?cn_Term, ?cn_Vote, ?cn_raftLog, ?cn_msgs, ?cn_prs, ?cn_state,
    ?cn_step, ?cn_tick, ?cn_readOnly, ?Hu; try done.
  - unfold u64_limit. lia.
  - exists []. by rewrite app_nil_r.
  - by left.
Qed.

(** Counting its own vote leaves a fresh candidate a candidate. *)
Lemma elected_self_vote r r1 : elected r r1 -> r_votes r1 = ∅ ->
  elected r (set_votes {[r_id r1 := true]} r1).
Proof.
  intros [] Hv. split; try done; [by destruct el_wf0; split |].
  intros _ v Hin. simpl in Hin. apply lookup_singleton_Some in Hin as [<- _]. done.
Qed.

Lemma granted_self (id : Z) : Z.of_nat (size (filter (fun kv => kv.2 = true) ({[id := true]} : gmap Z bool))) = 1.
Proof. rewrite map_filter_singleton_True by done. by rewrite map_size_singleton. Qed.

Lemma led_elected r r1 r' : elected r r1 -> led r1 r' -> quorum r = 1 -> elected r r'.
Proof.
  intros [] [] Hq. split; try congruence; try done.
  - by etrans.
  - destruct el_msgs0 as (n1 & E1 & F1), ld_msgs0 as (n2 & E2 & F2).
    exists (n1 ++ n2). rewrite E2, E1, app_assoc. split; [done |]. apply Forall_app. split; [| done].
    eapply Forall_impl; [exact F1 |]. intros x. unfold new_msg. by rewrite ld_id0, ld_Term0, ld_Vote0.
  - by right.
Qed.

(** The loop that asks the other nodes for their (pre-)votes. *)
Lemma request_votes_runs r ty tm :
  raft_wf r -> ty = MsgVote \/ ty = MsgPreVote ->
  runs r (let '(ids, r3) := range_prs r in
    for_each (fun r id =>
      lt ← lastTerm (r_raftLog r);
      li ← lastIndex (r_raftLog r);
      Ret (send r (mkMessage ty id 0 tm lt li [] 0 false 0 []))) (others r3 ids) r3).
Proof.
  intros Hw Hty. apply broadcast_runs; [done |]. intros r1 id Hw1 _.
  rewrite lastTerm_spec, lastIndex_spec by apply Hw1. simpl.
  apply runs_same_log; try done; try apply Hw1. apply calm_send; simpl; destruct Hty as [-> | ->]; done.
Qed.

Lemma campaignElection_elected r again :
  raft_wf r -> r_state r <> StateLeader -> is_Some (r_prs r !! r_id r) ->
  r_Term r + 1 < u64_limit -> room r 1 ->
  exists r', campaign_with again r campaignElection = Ret r' /\ elected r r'.
Proof.
  intros Hw Hs Hself Ht Hroom. unfold campaign_with, becomeCandidate.
  rewrite bool_decide_false by done. cbn [mbind outcome_bind].
  pose proof (candidate_node_elected r Hw Hself Ht) as He.
  pose proof (cn_raftLog r) as Hl. pose proof (cn_state r) as Hst. pose proof (cn_votes r) as Hv.
  generalize dependent (candidate_node r). intros r0 He Hl Hst Hv.
  assert (poll r0 (r_id r0) true = (set_votes {[r_id r0 := true]} r0, 1)) as ->.
  { unfold poll. by rewrite Hv, lookup_empty, insert_empty, granted_self. }
  apply elected_self_vote in He; [| done].
  set (r1 := set_votes _ r0) in *. assert (r_raftLog r1 = r_raftLog r) as Hl1 by done.
  assert (r_state r1 = StateCandidate) as Hst1 by done. clearbody r1. clear Hl Hst.
  rename Hl1 into Hl, Hst1 into Hst.
  pose proof (el_wf _ _ He) as Hw1.
  rewrite (quorum_dom r r1) by apply He. destruct (Z.eqb_spec (quorum r) 1) as [Hq | Hq].
  - destruct (becomeLeader_led r1) as (r' & -> & Hld); try done; [by rewrite Hst | | |].
    + apply (rw_self _ Hw1). by rewrite Hst.
    + unfold room in *. by rewrite Hl.
    + exists r'. split; [done |]. by eapply led_elected.
  - eapply runs_elected; [exact He |]. apply request_votes_runs; [done | by left].
Qed.

(** *** The pre-election *)

Lemma campaignPreElection_does r m :
  raft_wf r -> r_state r <> StateLeader -> is_Some (r_prs r !! r_id r) ->
  r_Term r + 1 < u64_limit -> room r 1 ->
  does r m (campaign r campaignPreElection).
Proof.
  intros Hw Hs Hself Ht Hroom. unfold campaign. unfold campaign_with at 1. unfold becomePreCandidate.
  rewrite bool_decide_false by done. cbn [mbind outcome_bind].
  unfold poll at 1. cbn -[quorum range_prs campaign_with u64]. rewrite lookup_empty, insert_empty, granted_self.
  set (r1 := set_votes {[r_id r := true]} _).
  assert (raft_wf r1) as Hw1 by (destruct Hw; split; cbn; done).
  destruct (quorum r1 =? 1).
  - destruct (campaignElection_elected r1 Ret Hw1) as (r' & -> & He); try done.
    apply does_ret, elected_effect; [done |]. by apply (elected_from r r1).
  - destruct (request_votes_runs r1 MsgPreVote (u64 (r_Term r + 1)) Hw1 ltac:(by right))
      as (r' & E & Hw' & Hc & Hl).
    left. exists r'. split; [exact E |]. pose proof (calm_msgs _ _ Hc) as Hms. destruct Hc. simpl in *.
    split; try done; try congruence.
    + lia.
    + apply log_ext_adv; [apply Hw | done].
Qed.

Lemma campaign_does r m typ :
  raft_wf r -> r_state r <> StateLeader -> is_Some (r_prs r !! r_id r) ->
  r_Term r + 1 < u64_limit -> room r 1 -> does r m (campaign r typ).
Proof.
  intros. destruct typ; [by apply campaignPreElection_does |].
  edestruct (campaignElection_elected r) as (r' & E & He); try done.
  left. exists r'. split; [exact E |]. by apply elected_effect.
Qed.

End Campaign.
