(* ===== verification/RaftSafety.v ===== *)
(** * Raft: the theorem for [Step], and what follows for one node *)
From S2P Require Import Prelude RaftModel RaftLog RaftCore RaftStep RaftHandlers RaftEffect RaftCampaign.

Section Step.
Context {S : Type} `{StorageLaws S} `{GoRuntime}.
Implicit Types r : raft S.

(** *** Voting *)

Lemma handleVote_does r m : raft_wf r ->
  m_Type m = MsgVote \/ m_Type m = MsgPreVote ->
  (m_Type m = MsgVote -> m_Term m <= r_Term r) ->
  does r m (handleVote r m).
Proof.
  intros Hw Hty Hle. unfold handleVote. rewrite isUpToDate_spec by apply Hw. cbn [mbind outcome_bind].
  set (up := bool_decide _). clearbody up.
  destruct (up && _) eqn:Eg; case_bool_decide as Hv.
  - apply does_ret. destruct Hw. split; try done.
    + apply andb_true_iff in Eg as [_ Eg]. intros _ Hn. simpl.
      apply orb_true_iff in Eg as [[Hz | Hz]%orb_true_iff | Hz]; zb; try done.
      specialize (Hle Hv). lia.
    + simpl. eexists. split; [done |]. apply Forall_singleton. split; simpl; [done |].
      done.
    + intros Hs v Hx. right. left. done.
    + intros Hs. left. done.
  - apply runs_does; [done |]. apply runs_same_log; try done; try apply Hw. by apply calm_send.
  - apply does_ret. destruct Hw. split; try done.
    + simpl. eexists. split; [done |]. apply Forall_singleton. split; simpl; [done |].
      done.
    + intros Hs v Hx. right. left. done.
    + intros Hs. left. done.
  - apply runs_does; [done |]. apply runs_same_log; try done; try apply Hw. by apply calm_send.
Qed.

(** *** Counting votes *)

Lemma poll_spec r id v :
  poll r id v = (set_votes (match r_votes r !! id with
                            | Some _ => r_votes r
                            | None => <[id := v]> (r_votes r)
                            end) r,
    Z.of_nat (size (filter (fun kv => kv.2 = true) (match r_votes r !! id with
                            | Some _ => r_votes r
                            | None => <[id := v]> (r_votes r)
                            end)))).
Proof. done. Qed.

(** The voters counted after a response. *)
Lemma poll_src r m votes v :
  r_state r = StateCandidate -> m_Type m = MsgVoteResp -> m_Term m = r_Term r ->
  votes = match r_votes r !! m_From m with
          | Some _ => r_votes r
          | None => <[m_From m := negb (m_Reject m)]> (r_votes r)
          end ->
  votes !! v = Some true ->
  (r_state r = StateCandidate /\ r_votes r !! v = Some true) \/
  (m_Type m = MsgVoteResp /\ m_From m = v /\ m_Reject m = false /\ m_Term m = r_Term r).
Proof.
  intros Hs Hty Ht -> Hv. destruct (r_votes r !! m_From m) eqn:E; [by left |].
  rewrite lookup_insert in Hv. case_decide; [right | by left].
  injection Hv as Hv%negb_true_iff. done.
Qed.

Lemma raft_wf_votes r vs : raft_wf r -> raft_wf (set_votes vs r).
Proof. intros []. by split. Qed.

Definition vote_resp (r : raft S) : MessageType :=
  if bool_decide (r_state r = StatePreCandidate) then MsgPreVoteResp else MsgVoteResp.

Lemma stepVoteResp_does r m :
  raft_wf r -> msg_ok r m -> r_state r = StateCandidate \/ r_state r = StatePreCandidate ->
  m_Type m = vote_resp r -> (m_Type m = MsgVoteResp -> m_Term m = r_Term r) ->
  r_Term r + 1 < u64_limit ->
  does r m (let '(r, granted) := poll r (m_From m) (negb (m_Reject m)) in
        if quorum r =? granted then
          if bool_decide (r_state r = StatePreCandidate) then campaign r campaignElection
          else r1 ← becomeLeader r; broadcastAppend r1
        else if quorum r =? Z.of_nat (size (r_votes r)) - granted then
          Ret (becomeFollower r (r_Term r) None_id)
        else Ret r).
Proof.
  intros Hw Hm Hs Hty Hmt Ht. rewrite poll_spec.
  set (votes := match r_votes r !! m_From m with Some _ => _ | None => _ end).
  pose proof (raft_wf_votes r votes Hw) as Hw2. simpl.
  change (quorum (set_votes votes r)) with (quorum r).
  assert (r_state r <> StateFollower) as Hnf by (destruct Hs as [-> | ->]; done).
  pose proof (rw_self _ Hw Hnf) as Hself.
  assert (room r 1) as Hroom.
  { pose proof (mo_room _ _ Hm). unfold room in *. zlen_pos. lia. }
  assert (r_state r = StateCandidate -> forall v, votes !! v = Some true ->
    vote_src r (set_votes votes r) m v) as Hsrc.
  { intros Hsc v Hv. unfold vote_resp in Hty. rewrite Hsc, bool_decide_false in Hty by done.
    destruct (poll_src r m votes v Hsc Hty (Hmt Hty) eq_refl Hv) as [[? ?] | ?];
      [right; left; done | right; right; done]. }
  destruct (Z.eqb_spec (quorum r) (Z.of_nat (size (filter (fun kv => kv.2 = true) votes)))) as [Hq | _];
    [| destruct (_ =? _)].
  - case_bool_decide as Hpre.
    + destruct (campaignElection_elected (set_votes votes r)
        (fun r => campaign_with Ret r campaignElection) Hw2) as (r' & E & He); try done.
      { simpl. by rewrite Hpre. }
      left. exists r'. split; [exact E |]. apply elected_effect; [done |].
      by apply (elected_from r (set_votes votes r)).
    + destruct Hs as [Hs | Hs]; [| done].
      destruct (becomeLeader_led (set_votes votes r) Hw2) as (r1 & -> & Hld); try done. simpl.
      destruct (broadcastAppend_runs r1 (ld_wf _ _ Hld)) as (r' & -> & Hw' & Hc & Hx).
      apply does_ret. destruct (calm_msgs _ _ Hc) as (n2 & E2 & F2).
      destruct Hld, Hc. destruct ld_msgs as (n1 & E1 & F1). simpl in *.
      split; try congruence; try done.
      * lia.
      * apply log_ext_adv; [apply Hw | by etrans].
      * exists (n1 ++ n2). rewrite E2, E1, app_assoc. split; [done |]. apply Forall_app. split; [| done].
        eapply Forall_impl; [exact F1 |]. intros x. unfold new_msg. by rewrite cm_id, cm_Term, cm_Vote.
      * intros _. right. exists (dom (filter (fun kv => kv.2 = true) votes)).
        rewrite size_dom. split; [lia |]. intros v [b [Hb Hbt]%map_lookup_filter_Some]%elem_of_dom.
        simpl in Hbt. subst b. specialize (Hsrc Hs v Hb). unfold vote_src in *. simpl in *.
        by rewrite cm_Term, cm_Vote, ld_Term, ld_Vote.
  - apply does_ret.
    split; rewrite ?bf_id, ?bf_Term, ?bf_Vote, ?bf_prs, ?bf_raftLog, ?bf_msgs, ?bf_state; try done.
    + by apply becomeFollower_wf; [| apply Hw].
    + simpl. by rewrite Z.eqb_refl.
    + exists []. by rewrite app_nil_r.
  - apply does_ret. split; try done.
    + exists []. by rewrite app_nil_r.
    + simpl. intros Hl. by left.
Qed.

Lemma stepCandidate_does r m :
  raft_wf r -> msg_ok r m -> r_state r = StateCandidate \/ r_state r = StatePreCandidate ->
  (m_Type m = MsgVoteResp \/ m_Type m = MsgHeartbeat -> m_Term m = r_Term r) ->
  r_Term r + 1 < u64_limit ->
  does r m (stepCandidate r m).
Proof.
  intros Hw Hm Hs Hmt Ht. unfold stepCandidate. fold (vote_resp r).
  assert (r_state r <> StateLeader) as Hnl by (destruct Hs as [-> | ->]; done).
  pose proof (rw_term _ Hw) as HT.
  destruct (m_Type m) eqn:Ety;
    try (case_bool_decide as Hr; [apply stepVoteResp_does; try done; rewrite Ety; auto | by apply does_skip]).
  - by apply does_skip.
  - apply (does_follower r m (r_Term r) (m_From m)); [lia | by right |].
    apply handleAppendEntries_does; [by apply becomeFollower_wf | | done | by rewrite bf_state].
    apply (msg_ok_calm r); [by rewrite bf_raftLog | done].
  - rewrite Hmt by auto.
    apply (does_follower r m (r_Term r) (m_From m)); [lia | by right |].
    apply handleHeartbeat_does. by apply becomeFollower_wf.
Qed.

(** *** Step *)

Lemma step_call_does r m :
  raft_wf r -> msg_ok r m ->
  (m_Type m = MsgVoteResp \/ m_Type m = MsgHeartbeat -> m_Term m = r_Term r) ->
  r_Term r + 1 < u64_limit ->
  does r m (step_call r m).
Proof.
  intros Hw Hm Hmt Ht. unfold step_call. rewrite (rw_step _ Hw).
  destruct (r_state r) eqn:Es; simpl.
  - by apply stepFollower_does.
  - apply stepCandidate_does; auto.
  - apply runs_does; [done |]. by apply stepLeader_runs.
  - apply stepCandidate_does; auto.
Qed.

Lemma handleHup_does r m :
  raft_wf r -> room r 1 -> r_Term r + 1 < u64_limit -> does r m (handleHup r).
Proof.
  intros Hw Hroom Ht. unfold handleHup. pose proof (rw_log _ Hw) as Hlw.
  case_bool_decide as Hs; [by apply does_skip |].
  unfold promotable. destruct (r_prs r !! r_id r) eqn:Ep; [| by apply does_skip]. simpl.
  pose proof (log_off_nonneg _ Hlw). pose proof (lw_commit _ Hlw). pose proof (lw_apply _ Hlw).
  unfold room, idx_limit in *. unwrap. rewrite slice_spec by (done || lia). simpl.
  destruct (0 <? _); [by apply does_skip |].
  destruct (r_preVote r); apply campaign_does; try done; rewrite ?Ep; by eauto.
Qed.

Lemma dispatch_does r m :
  raft_wf r -> msg_ok r m -> m_Term m <= r_Term r \/ m_Type m = MsgPreVote \/ m_Type m = MsgPreVoteResp ->
  (m_Type m = MsgVoteResp \/ m_Type m = MsgHeartbeat -> m_Term m = r_Term r) ->
  r_Term r + 1 < u64_limit ->
  does r m (match m_Type m with
       | MsgHup => handleHup r
       | MsgVote | MsgPreVote => handleVote r m
       | _ => step_call r m
       end).
Proof.
  intros Hw Hm Hle Hmt Ht.
  assert (room r 1) as Hroom.
  { pose proof (mo_room _ _ Hm). unfold room in *. zlen_pos. lia. }
  destruct (m_Type m) eqn:Ety; try (apply step_call_does; try done; rewrite Ety; auto).
  - by apply handleHup_does.
  - apply handleVote_does; auto. intros _. destruct Hle as [? | [? | ?]]; congruence || done.
  - apply handleVote_does; auto. congruence.
Qed.

Lemma Step_does r m :
  raft_wf r -> msg_ok r m -> r_Term r + 1 < u64_limit -> does r m (Step r m).
Proof.
  intros Hw Hm Ht. pose proof (mo_term _ _ Hm) as Hmt. pose proof (mo_remote _ _ Hm) as Hrem.
  unfold Step, step_term. destruct (Z.eqb_spec (m_Term m) 0) as [Hz | Hz].
  { simpl. apply dispatch_does; try done; [| intros Hx; by apply Hrem in Hx].
    left. pose proof (rw_term _ Hw). lia. }
  destruct (Z.ltb_spec (r_Term r) (m_Term m)) as [Hlt | Hge].
  - destruct (_ && _) eqn:Eb; simpl.
    + eapply does_follower; [| left; exact Hlt |]; [lia |].
      apply dispatch_does; rewrite ?bf_Term; try done.
      * apply becomeFollower_wf; [done | unfold u64_limit in *; lia].
      * apply (msg_ok_calm r); [by rewrite bf_raftLog | done].
      * left. lia.
      * lia.
    + apply andb_false_iff in Eb as [Eb | [Eb _]%orb_false_iff]; apply bool_decide_eq_false, dec_stable in Eb;
        (apply dispatch_does; rewrite ?Eb; try done; [auto | by intros [? | ?]]).
  - destruct (Z.ltb_spec (m_Term m) (r_Term r)).
    + destruct (_ && _); simpl; apply runs_does; try done.
      * apply runs_same_log; try done; try apply Hw. by apply calm_send.
      * apply runs_ret; [done | reflexivity | reflexivity].
    + simpl. apply dispatch_does; try done; [left; lia | intros; lia].
Qed.

(** *** Ticks *)

Definition hup (r : raft S) : Message := mkMessage MsgHup 0 (r_id r) 0 0 0 [] 0 false 0 [].
Definition beat (r : raft S) : Message := mkMessage MsgBeat 0 (r_id r) 0 0 0 [] 0 false 0 [].

Lemma local_msg_ok r ty : room r 1 -> ty = MsgHup \/ ty = MsgBeat ->
  msg_ok r (mkMessage ty 0 (r_id r) 0 0 0 [] 0 false 0 []).
Proof.
  intros Hr Hty. unfold u64_limit. split; simpl; try (unfold u64_limit; lia);
    destruct Hty as [-> | ->]; try done; by intros [? | ?].
Qed.

(** A timer tick: the effect of the local message it may give rise to. *)
Lemma tick_does r : raft_wf r -> room r 1 -> r_Term r + 1 < u64_limit ->
  exists m, (m_Type m = MsgHup \/ m_Type m = MsgBeat) /\ does r m (tick r).
Proof.
  intros Hw Hroom Ht. unfold tick. rewrite (rw_tick _ Hw).
  destruct (decide (r_state r = StateLeader)) as [Hs | Hs].
  - exists (beat r). split; [by right |]. rewrite Hs. simpl. unfold tickHeartbeat.
    rewrite bool_decide_true by done. simpl.
    destruct (_ <=? _).
    + eapply (does_calm r (set_heartbeatElapsed 0 (set_heartbeatElapsed (s32 (r_heartbeatElapsed r + 1)) r)));
        [etrans; apply calm_set_heartbeatElapsed | done | done |].
      apply Step_does; [destruct Hw; by split | | done].
      by apply (local_msg_ok (set_heartbeatElapsed 0 (set_heartbeatElapsed (s32 (r_heartbeatElapsed r + 1)) r)));
        [| right].
    + apply runs_does; [done |]. apply runs_same_log; try done; try apply Hw. apply calm_set_heartbeatElapsed.
  - exists (hup r). split; [by left |].
    assert (tick_of (r_state r) = tickElection_) as -> by (by destruct (r_state r)).
    unfold tickElection. destruct (_ && _).
    + eapply (does_calm r (set_electionElapsed 0 (set_electionElapsed (s32 (r_electionElapsed r + 1)) r)));
        [etrans; apply calm_set_electionElapsed | done | done |].
      apply Step_does; [destruct Hw; by split | | done].
      by apply (local_msg_ok (set_electionElapsed 0 (set_electionElapsed (s32 (r_electionElapsed r + 1)) r)));
        [| left].
    + apply runs_does; [done |]. apply runs_same_log; try done; try apply Hw. apply calm_set_electionElapsed.
Qed.

End Step.
