(* ===== verification/RaftProps.v ===== *)
(** * Raft: properties of one node

    Consequences of the effect of [Step], the commit rule, and the witnesses:
    a concrete three-node member running on [MemoryStorage]. *)
From S2P Require Import Prelude RaftModel RaftLog RaftCore RaftStep RaftHandlers RaftEffect RaftCampaign RaftSafety.

(** ** The commit rule *)

Section Commit.
Context {S : Type} `{StorageLaws S} `{GoRuntime}.
Implicit Types r : raft S.

#[local] Instance uint64_ge_trans : Transitive uint64_ge.
Proof. intros x y z. unfold uint64_ge. lia. Qed.
#[local] Instance uint64_ge_total : Total uint64_ge.
Proof. intros x y. unfold uint64_ge. lia. Qed.

(** In a descending list, at least [k + 1] elements reach the [k]-th one. *)
Lemma descending_count (l : list Z) (k : nat) (x : Z) :
  StronglySorted uint64_ge l -> l !! k = Some x ->
  (k < length (filter (fun y => (x <= y)%Z) l))%nat.
Proof.
  intros Hs. revert k. induction Hs as [| y l Hs IH HF]; intros k Hk; [done |].
  destruct k as [| k]; simpl in Hk.
  - injection Hk as ->. rewrite filter_cons_True by lia. simpl. lia.
  - specialize (IH k Hk). rewrite filter_cons_True; [simpl; lia |].
    rewrite Forall_forall in HF. apply (HF x). by eapply list_elem_of_lookup_2.
Qed.

(** The nodes of [ids] whose match index reaches [x]. *)
Definition reaching (r : raft S) (x : Z) (ids : list Z) : list Z :=
  filter (fun id => Is_true match r_prs r !! id with Some pr => x <=? p_Match pr | None => false end) ids.

Lemma reaching_count r x ids :
  length (filter (fun y => x <= y) (matches r ids)) = length (reaching r x ids).
Proof.
  unfold matches, reaching. induction ids as [| id ids IH]; [done |]. simpl.
  rewrite filter_cons. destruct (r_prs r !! id) as [pr |] eqn:E; simpl.
  - rewrite filter_cons. destruct (Z.leb_spec x (p_Match pr)).
    all: repeat (case_decide; simpl in *; try tauto; try lia); try f_equal; exact IH.
  - exact IH.
Qed.

(** C2: The commit rule.  When a leader's [maybeCommit] succeeds, the new commit
    index is above the old one, the entry there is of the leader's current term,
    and a quorum of the cluster has acknowledged the log up to it; the log itself
    is unchanged. *)
Theorem maybeCommit_quorum r r' :
  raft_wf r -> (0 < size (r_prs r))%nat -> raft_maybeCommit r = Ret (r', true) ->
  let i := rl_commitIndex (r_raftLog r') in
  rl_commitIndex (r_raftLog r) < i <= log_last (r_raftLog r) /\
  log_term (r_raftLog r) i = r_Term r /\
  log_view (r_raftLog r') = log_view (r_raftLog r) /\
  exists Q : gset Z, quorum r <= Z.of_nat (size Q) /\
    forall id, id ∈ Q -> exists pr, r_prs r !! id = Some pr /\ i <= p_Match pr.
Proof.
  intros Hw Hs. unfold raft_maybeCommit, range_prs.
  destruct (quorum_mid r (r_tape r) Hs) as [mid Hmid].
  change (matches (set_tape _ r)) with (matches r). change (quorum (set_tape _ r)) with (quorum r).
  rewrite (go_index_Some _ _ _ Hmid). simpl.
  rewrite maybeCommit_spec by (apply Hw). case_decide as Hd; [| done].
  destruct Hd as [Hlt Ht]. simpl. intros [= <-]. simpl.
  split; [split; [done |] |].
  { unfold log_term in Ht. pose proof (rw_term _ Hw).
    destruct (view_term _ mid) eqn:E; simpl in Ht; [| lia]. by apply view_term_range in E as [_ ?]. }
  split; [done |]. split; [done |].
  set (ids := range_keys (r_tape r) (dom (r_prs r))) in *.
  exists (list_to_set (reaching r mid ids)). split.
  - rewrite size_list_to_set.
    + rewrite <- reaching_count. unfold zlookup in Hmid. zcase_in Hmid; [done |].
      apply descending_count in Hmid; [| by apply StronglySorted_merge_sort; apply _].
      rewrite merge_sort_Permutation in Hmid. lia.
    + apply NoDup_filter. subst ids. rewrite range_keys_perm. apply NoDup_elements.
  - intros id [Hm _]%elem_of_list_to_set%list_elem_of_filter.
    destruct (r_prs r !! id) as [pr |]; [exists pr; split; [done | by apply Z.leb_le, Is_true_true] | done].
Qed.

End Commit.

(** ** The effect of [Step], restated *)

Section Node.
Context {S : Type} `{StorageLaws S} `{GoRuntime}.
Implicit Types r : raft S.

(** C6: No handler panics.  On a well-formed node and message [Step] returns a
    well-formed node; the only panic left is the deliberate one, for an append
    message that contradicts entries already committed. *)
Theorem Step_returns r m :
  raft_wf r -> msg_ok r m -> r_Term r + 1 < u64_limit ->
  (exists r', Step r m = Ret r' /\ raft_wf r') \/
  (Step r m = Panic "conflict before commit index" /\ contradicts (r_raftLog r) m).
Proof.
  intros Hw Hm Ht. destruct (Step_does r m Hw Hm Ht) as [(r' & E & He) | ?]; [left | by right].
  exists r'. split; [done | apply He].
Qed.

(** C5: Terms never go back, and a vote is final.  Over any [Step] the term does
    not decrease; while the term stays the same a vote once given is not changed;
    every vote response that grants is addressed to the candidate the node has
    recorded as its vote, in the node's current term. *)
Theorem Step_term_vote r m r' :
  raft_wf r -> msg_ok r m -> r_Term r + 1 < u64_limit -> Step r m = Ret r' ->
  r_Term r <= r_Term r' /\
  (r_Term r' = r_Term r -> r_Vote r <> None_id -> r_Vote r' = r_Vote r) /\
  exists new, r_msgs r' = r_msgs r ++ new /\
    Forall (fun m' => m_Type m' = MsgVoteResp -> m_Reject m' = false ->
      m_To m' = r_Vote r' /\ m_Term m' = r_Term r' /\ m_From m' = r_id r) new.
Proof.
  intros Hw Hm Ht E. destruct (Step_does r m Hw Hm Ht) as [(r1 & E1 & []) | [E1 _]]; [| congruence].
  rewrite E in E1. injection E1 as <-. split; [done |]. split; [done |].
  destruct ef_msgs as (new & En & HF). exists new. split; [done |].
  eapply Forall_impl; [exact HF |]. intros x [Ha Hb] Hx Hrej.
  destruct Hb as [? ?]; rewrite ?Hx; try done. split_and!; auto. congruence.
Qed.

(** C4: Committed entries stay.  Over any [Step] the commit index does not
    decrease, the entries up to the old commit index are the same, and the commit
    index stays inside the log. *)
Theorem Step_committed r m r' :
  raft_wf r -> msg_ok r m -> r_Term r + 1 < u64_limit -> Step r m = Ret r' ->
  rl_commitIndex (r_raftLog r) <= rl_commitIndex (r_raftLog r') <= log_last (r_raftLog r') /\
  take (Z.to_nat (rl_commitIndex (r_raftLog r) - log_off (r_raftLog r))) (log_ents (r_raftLog r')) =
  take (Z.to_nat (rl_commitIndex (r_raftLog r) - log_off (r_raftLog r))) (log_ents (r_raftLog r)).
Proof.
  intros Hw Hm Ht E. destruct (Step_does r m Hw Hm Ht) as [(r1 & E1 & []) | [E1 _]]; [| congruence].
  rewrite E in E1. injection E1 as <-. destruct ef_log. split; [| done]. split; [done |].
  apply (rw_log _ ef_wf).
Qed.

(** A leader only appends.  While a node is leader and its term does not
    change, its log is extended at the end and never rewritten. *)
Theorem leader_append_only r m r' :
  raft_wf r -> msg_ok r m -> r_Term r + 1 < u64_limit -> Step r m = Ret r' ->
  r_state r = StateLeader -> r_Term r' = r_Term r ->
  exists es, log_ents (r_raftLog r') = log_ents (r_raftLog r) ++ es.
Proof.
  intros Hw Hm Ht E Hs HT. destruct (Step_does r m Hw Hm Ht) as [(r1 & E1 & []) | [E1 _]]; [| congruence].
  rewrite E in E1. injection E1 as <-. by destruct (ef_append_only Hs HT).
Qed.

(** C7: The follower's side of log replication.  When the previous entry matches
    and no committed entry is contradicted, [maybeAppend] returns the index of the
    last new entry.  There is an index [i0] after [prev] such that the log keeps its
    entries below it, and those received below it have the terms that are there; from
    [i0] on, the log has the entries received, as they were sent, and no others, and
    [i0] is the first place where the terms differ; if none differs the log is the
    same.  The commit index advances to what the leader announced, within the new
    entries. *)
Theorem maybeAppend_refines (l : raftLog S) prev c es :
  log_wf l -> log_off l <= prev <= log_last l ->
  contiguous (prev + 1) es -> Forall (fun e => 0 < e_Term e) es ->
  prev + 1 + zlen es <= idx_limit ->
  (forall k, conflict_at (log_view l) es = Some k -> rl_commitIndex l < k) ->
  exists l' i0, maybeAppend l prev (log_term l prev) c es = Ret (l', Some (prev + zlen es)) /\
    log_wf l' /\ prev < i0 <= prev + zlen es + 1 /\
    (forall i, i < i0 -> log_entry l' i = log_entry l i) /\
    (forall k e, zlookup es k = Some e -> prev + 1 + k < i0 -> e_Term <$> log_entry l (prev + 1 + k) = Some (e_Term e)) /\
    (forall k e, zlookup es k = Some e -> i0 <= prev + 1 + k -> log_entry l' (prev + 1 + k) = Some e) /\
    (if decide (i0 <= prev + zlen es)
     then (exists e, zlookup es (i0 - prev - 1) = Some e /\ e_Term <$> log_entry l i0 <> Some (e_Term e)) /\
          log_last l' = prev + zlen es
     else log_view l' = log_view l) /\
    rl_commitIndex l' = Z.max (rl_commitIndex l) (Z.min c (prev + zlen es)).
Proof.
  intros Hw Hp Hc Ht Hl Hk.
  destruct (maybeAppend_accept l prev c es Hw Hp Hc Ht Hl Hk) as (l' & E & Hw' & Hv & _ & _ & Hci & _).
  destruct (view_append_entries (log_view l) prev es (log_view_wf _ Hw)) as (Hi0 & Hold & Hmat & Hnew & Hend); [done | done |].
  exists l', (append_from (log_view l) prev es). unfold log_entry, log_last. rewrite Hv. split_and!; try done; lia.
Qed.

Lemma prs_init_lookup (ps : list Z) (m : gmap Z Progress) (id : Z) :
  foldl (fun prs peer => <[peer := mkProgress 0 1 ProgressStateProbe]> prs) m ps !! id =
  if decide (id ∈ ps) then Some (mkProgress 0 1 ProgressStateProbe) else m !! id.
Proof.
  revert m. induction ps as [| p ps IH]; intros m; simpl; [done |].
  rewrite IH. destruct (decide (p = id)) as [-> | Hne]; simplify_map_eq;
    repeat case_decide; set_solver.
Qed.

Lemma newRaft_spec (conf : Config S) hs cs :
  st_wf (cf_Storage conf) -> lv_off (st_view (cf_Storage conf)) = 0 ->
  InitialState (cf_Storage conf) = Ret (Ok (hs, cs)) ->
  0 <= hs_Term hs < u64_limit -> hs_CommitIndex hs <= view_last (st_view (cf_Storage conf)) ->
  0 < cf_ID conf -> cf_Applied conf = 0 ->
  exists r, newRaft conf = Ret r /\ raft_wf r /\ r_id r = cf_ID conf /\
    r_state r = StateFollower /\ r_Term r = Z.max 1 (hs_Term hs) /\ r_Vote r = None_id /\
    log_view (r_raftLog r) = st_view (cf_Storage conf) /\
    rl_commitIndex (r_raftLog r) = Z.max 0 (hs_CommitIndex hs) /\
    rl_applyIndex (r_raftLog r) = 0 /\ r_msgs r = [] /\
    forall id, r_prs r !! id = if decide (id ∈ match cf_peers conf with [] => cs_Nodes cs | ps => ps end)
                               then Some (mkProgress 0 1 ProgressStateProbe) else None.
Proof.
  intros Hst Hoff Hini Ht Hc Hid Hap.
  destruct (newRaftLog_spec _ Hst) as (l & El & Hlw & Hv & Hls & Hci & Hai).
  unfold newRaft. rewrite Hini. simpl. rewrite El. simpl.
  unfold appliedTo. rewrite Hap. simpl.
  set (l2 := if rl_commitIndex l <? hs_CommitIndex hs
             then rl_set_commitIndex (hs_CommitIndex hs) l else l).
  assert (log_wf l2 /\ log_view l2 = log_view l /\ rl_commitIndex l2 = Z.max 0 (hs_CommitIndex hs) /\
    rl_applyIndex l2 = 0) as (Hw2 & Hv2 & Hc2 & Ha2).
  { subst l2. zcase; [| split_and!; try done; lia]. split_and!; try done; simpl; [| lia | lia].
    destruct Hlw. split; simpl; try done.
    - unfold log_off in *. simpl. lia.
    - unfold log_last in *. change (log_view (rl_set_commitIndex _ l)) with (log_view l). by rewrite Hv. }
  clearbody l2. eexists. split; [done |].
  assert ((if hs_Term hs =? 0 then 1 else hs_Term hs) = Z.max 1 (hs_Term hs)) as -> by (zcase; lia).
  set (prs := foldl _ _ _).
  assert (forall id, prs !! id = if decide (id ∈ match cf_peers conf with [] => cs_Nodes cs | ps => ps end)
            then Some (mkProgress 0 1 ProgressStateProbe) else None) as Hprs
    by (intros id; subst prs; by rewrite prs_init_lookup).
  clearbody prs.
  split; [| rcbn; split_and!; try done; try congruence].
  2: { set (zz := Z.max 1 _). destruct zz; reflexivity. }
  split; rcbn; try done.
  - unfold log_off. etransitivity; [apply (f_equal lv_off Hv2) |]. by rewrite Hv.
  - unfold u64_limit in *. lia.
  - intros id pr Hid'. rewrite Hprs in Hid'. case_decide; [| done]. injection Hid' as <-.
    unfold progress_ok, u64_limit. simpl. lia.
  - split; simpl; [by constructor | | done].
    intros c. rewrite lookup_empty. split; [by intros ?%not_elem_of_nil | by intros [? ?]].
Qed.

(** [newRaft] restores a follower.  From a well-formed storage whose hard
    state lies within the log, and with nothing marked as applied, it returns a
    well-formed follower with the stored log, term and commit index, and one
    unprobed [Progress] per peer.  The stored vote is not restored: [Vote] is
    [None] whatever [hs.Vote] says. *)
Theorem newRaft_restores (conf : Config S) hs cs :
  st_wf (cf_Storage conf) -> lv_off (st_view (cf_Storage conf)) = 0 ->
  InitialState (cf_Storage conf) = Ret (Ok (hs, cs)) ->
  0 <= hs_Term hs < u64_limit -> hs_CommitIndex hs <= view_last (st_view (cf_Storage conf)) ->
  0 < cf_ID conf -> cf_Applied conf = 0 ->
  exists r, newRaft conf = Ret r /\ raft_wf r /\ r_id r = cf_ID conf /\
    r_state r = StateFollower /\ r_Term r = Z.max 1 (hs_Term hs) /\ r_Vote r = None_id /\
    log_view (r_raftLog r) = st_view (cf_Storage conf) /\
    rl_commitIndex (r_raftLog r) = Z.max 0 (hs_CommitIndex hs) /\
    rl_applyIndex (r_raftLog r) = 0 /\ r_msgs r = [] /\
    forall id, r_prs r !! id = if decide (id ∈ match cf_peers conf with [] => cs_Nodes cs | ps => ps end)
                               then Some (mkProgress 0 1 ProgressStateProbe) else None.
Proof. apply newRaft_spec. Qed.

End Node.

(** ** A concrete node *)

(** A runtime that always draws 0 and walks maps in a fixed order. *)
#[export] Program Instance det_runtime : GoRuntime := {
  rand_intn _ _ := 0;
  range_keys _ s := elements s
}.
Next Obligation. intros. lia. Qed.
Next Obligation. done. Qed.

#[local] Existing Instances MemoryStorage.storage MemoryStorage.storage_laws.

Definition ex_conf (id : Z) : Config MemoryStorage.t :=
  mkConfig id [1; 2; 3] MemoryStorage.NewMemoryStorage 0 false 10 1.

Definition ex_node (id : Z) : raft MemoryStorage.t :=
  match newRaft (ex_conf id) with
  | Ret r => r
  | Panic _ => mkRaft 0 0 [] (mkRaftLog MemoryStorage.NewMemoryStorage (mkUnstable [] 0) 0 0) ∅
      StateFollower ∅ [] 0 false newReadOnly false nilTick_ stepFollower_ 0 false 0 0 0 0 0 0%nat
  end.

Definition ret_or {A} (d : A) (m : outcome A) : A := match m with Ret a => a | Panic _ => d end.

(** Node 1 after it campaigned, and after node 2 voted for it. *)
Definition ex_candidate : raft MemoryStorage.t :=
  ret_or (ex_node 1) (Step (ex_node 1) (msg MsgHup 0)).
Definition ex_grant : Message := mkMessage MsgVoteResp 1 2 2 0 0 [] 0 false 0 [].
Definition ex_leader : raft MemoryStorage.t :=
  ret_or (ex_node 1) (Step ex_candidate ex_grant).

(** Invariants of concrete states, by computation. *)
Lemma ro_wf_empty : ro_wf newReadOnly.
Proof.
  split; simpl; [by constructor | | done].
  intros c. rewrite lookup_empty. split; [by intros ?%not_elem_of_nil | by intros [? ?]].
Qed.

Lemma ex_node_wf id : 0 < id -> raft_wf (ex_node id).
Proof.
  intros Hid. destruct (newRaft_spec (ex_conf id) (mkHardState 0 0 0) (mkConfState []))
    as (r & E & Hw & _); try done. unfold ex_node. by rewrite E.
Qed.

Lemma Step_wf {S} `{StorageLaws S} `{GoRuntime} (r : raft S) m r' :
  raft_wf r -> msg_ok r m -> r_Term r + 1 < u64_limit -> Step r m = Ret r' -> raft_wf r'.
Proof.
  intros Hw Hm Ht E. destruct (Step_does r m Hw Hm Ht) as [(r1 & E1 & []) | [E1 _]]; congruence.
Qed.

Lemma set_prs_wf {S} `{StorageLaws S} (r : raft S) prs :
  raft_wf r -> is_Some (prs !! r_id r) -> map_Forall (fun _ => progress_ok) prs ->
  raft_wf (set_prs prs r).
Proof. intros [] ? ?. by split. Qed.

(** The side conditions of a concrete message, by computation. *)
Ltac concrete_msg :=
  split; vm_compute; intros; try done; repeat split; try done;
  try match goal with H : _ \/ _ |- _ => by destruct H end; repeat constructor.

Lemma ex_hup_ok : msg_ok (ex_node 1) (msg MsgHup 0).
Proof. concrete_msg. Qed.
Lemma ex_grant_ok : msg_ok ex_candidate ex_grant.
Proof. concrete_msg. Qed.

Lemma ex_candidate_wf : raft_wf ex_candidate.
Proof.
  apply (Step_wf (ex_node 1) (msg MsgHup 0)); [by apply ex_node_wf | exact ex_hup_ok | done |].
  by vm_compute.
Qed.

Lemma ex_leader_wf : raft_wf ex_leader.
Proof.
  apply (Step_wf ex_candidate ex_grant); [exact ex_candidate_wf | exact ex_grant_ok | done |].
  by vm_compute.
Qed.

(** The leader with node 2's acknowledgement of its first entry recorded. *)
Definition ex_acked : raft MemoryStorage.t :=
  set_prs (<[2 := mkProgress 1 2 ProgressStateReplicate]> (r_prs ex_leader)) ex_leader.

Lemma ex_acked_wf : raft_wf ex_acked.
Proof.
  apply set_prs_wf; [exact ex_leader_wf | by vm_compute; eauto |].
  apply map_Forall_insert_2; [unfold progress_ok, u64_limit; simpl; lia | exact (rw_prs _ ex_leader_wf)].
Qed.

Definition ex_acked' : raft MemoryStorage.t :=
  match raft_maybeCommit ex_acked with Ret (r, _) => r | Panic _ => ex_acked end.

(** A follower's log holding entries of terms 1 and 2, the first one committed. *)
Definition ex_log : raftLog MemoryStorage.t :=
  mkRaftLog MemoryStorage.NewMemoryStorage
    (mkUnstable [mkEntry 1 1 EntryNormal []; mkEntry 1 2 EntryNormal []] 1) 1 0.
Definition ex_entries : list Entry := [mkEntry 2 2 EntryNormal [7]].

Lemma ex_log_wf : log_wf ex_log.
Proof. split; try done; repeat constructor. Qed.

Lemma maybeCommit_quorum_witness :
  rl_commitIndex (r_raftLog ex_acked') = 1 /\
  exists Q : gset Z, quorum ex_acked <= Z.of_nat (size Q) /\
    forall id, id ∈ Q -> exists pr, r_prs ex_acked !! id = Some pr /\ 1 <= p_Match pr.
Proof.
  split; [by vm_compute |].
  destruct (maybeCommit_quorum ex_acked ex_acked' ex_acked_wf) as (_ & _ & _ & HQ);
    [by vm_compute; lia | by vm_compute |].
  exact HQ.
Defined.

Lemma Step_returns_witness :
  (exists r', Step (ex_node 1) (msg MsgHup 0) = Ret r' /\ raft_wf r') \/
  (Step (ex_node 1) (msg MsgHup 0) = Panic "conflict before commit index" /\
   contradicts (r_raftLog (ex_node 1)) (msg MsgHup 0)).
Proof. apply (Step_returns (ex_node 1)); [by apply ex_node_wf | exact ex_hup_ok | by vm_compute]. Defined.

Lemma Step_term_vote_witness : r_Term ex_candidate <= r_Term ex_leader /\ r_Vote ex_leader = 1.
Proof.
  destruct (Step_term_vote ex_candidate ex_grant ex_leader ex_candidate_wf ex_grant_ok)
    as (Ht & Hv & _); [by vm_compute | by vm_compute |].
  split; [exact Ht |]. rewrite Hv; by vm_compute.
Defined.

Lemma Step_committed_witness :
  rl_commitIndex (r_raftLog ex_candidate) <= rl_commitIndex (r_raftLog ex_leader)
    <= log_last (r_raftLog ex_leader).
Proof.
  destruct (Step_committed ex_candidate ex_grant ex_leader ex_candidate_wf ex_grant_ok)
    as [Hc _]; [done | by vm_compute | exact Hc].
Defined.

(** A client proposes a command to the leader. *)
Definition ex_prop : Message := mkMessage MsgProp 0 0 0 0 0 [mkEntry 0 0 EntryNormal [5]] 0 false 0 [].
Definition ex_proposed : raft MemoryStorage.t := ret_or ex_leader (Step ex_leader ex_prop).

Lemma leader_append_only_witness :
  exists es, log_ents (r_raftLog ex_proposed) = log_ents (r_raftLog ex_leader) ++ es.
Proof.
  apply (leader_append_only ex_leader ex_prop ex_proposed ex_leader_wf);
    [concrete_msg | done | by vm_compute | by vm_compute | by vm_compute].
Defined.

Lemma maybeAppend_refines_witness :
  exists l', maybeAppend ex_log 1 (log_term ex_log 1) 5 ex_entries = Ret (l', Some 2) /\
    log_entry l' 2 = Some (mkEntry 2 2 EntryNormal [7]) /\ rl_commitIndex l' = 2.
Proof.
  destruct (maybeAppend_refines ex_log 1 5 ex_entries ex_log_wf)
    as (l' & i0 & E & _ & Hi & _ & Hold & Hnew & _ & Hc); try (by vm_compute); try by repeat constructor.
  { by intros k [= <-]. }
  exists l'. split; [exact E |]. split; [| exact Hc]. destruct (decide (2 < i0)) as [Hlt | Hge].
  - specialize (Hold 0 _ eq_refl Hlt). by vm_compute in Hold.
  - exact (Hnew 0 _ eq_refl ltac:(lia)).
Defined.

(** A stored hard state with a vote for node 3. *)
Definition ex_voted : Config MemoryStorage.t :=
  mkConfig 1 [1; 2; 3] (MemoryStorage.mk (mkHardState 4 3 0) [mkEntry 0 0 EntryNormal []]) 0 false 10 1.

Lemma newRaft_restores_witness :
  exists r, newRaft ex_voted = Ret r /\ r_Term r = 4 /\ r_Vote r = None_id.
Proof.
  destruct (newRaft_restores ex_voted (mkHardState 4 3 0) (mkConfState []))
    as (r & E & _ & _ & _ & Ht & Hv & _); try done.
  exists r. split; [exact E |]. split; [exact Ht | exact Hv].
Defined.
