(* ===== verification/RaftElection.v ===== *)
(** * Raft: at most one leader per term

    A cluster of [raft] nodes with a fixed membership and a network that may
    lose, delay, duplicate and reorder messages: a message once sent may be
    delivered any number of times, at any later moment, or never.  [ballots] is
    a history variable: the votes ever cast.  Nodes do not restart: [newRaft]
    does not restore the stored vote (see [RaftProps]). *)
From S2P Require Import Prelude RaftModel RaftLog RaftCore RaftStep RaftHandlers RaftEffect RaftCampaign RaftSafety RaftProps.

Section Cluster.
Context {S : Type} `{StorageLaws S} `{GoRuntime}.
Context (members : gset Z).
Implicit Types r : raft S.

Record cluster := mkCluster {
  c_nodes : gmap Z (raft S);
  c_net : list Message;
  c_ballots : gset (Z * Z * Z)
}.

(** The vote a node has on record: voter, term, candidate. *)
Definition ballot_of (n : Z) (r : raft S) : gset (Z * Z * Z) :=
  if bool_decide (r_Vote r = None_id) then ∅ else {[ (n, r_Term r, r_Vote r) ]}.

(** Node [n] has moved to [r]: its outgoing messages go to the network. *)
Definition publish (c : cluster) (n : Z) (r : raft S) : cluster :=
  mkCluster (<[n := set_msgs [] r]> (c_nodes c)) (c_net c ++ r_msgs r)
            (ballot_of n r ∪ c_ballots c).

Definition local_type (ty : MessageType) : bool :=
  match ty with MsgHup | MsgBeat | MsgProp | MsgReadIndex => true | _ => false end.

Inductive cluster_step (c : cluster) : cluster -> Prop :=
| cs_deliver n r m r' :
    c_nodes c !! n = Some r -> m ∈ c_net c -> m_To m = n ->
    msg_ok r m -> r_Term r + 1 < u64_limit -> Step r m = Ret r' ->
    cluster_step c (publish c n r')
| cs_local n r m r' :
    c_nodes c !! n = Some r -> local_type (m_Type m) = true ->
    msg_ok r m -> r_Term r + 1 < u64_limit -> Step r m = Ret r' ->
    cluster_step c (publish c n r')
| cs_tick n r r' :
    c_nodes c !! n = Some r -> room r 1 -> r_Term r + 1 < u64_limit -> tick r = Ret r' ->
    cluster_step c (publish c n r').

(** Freshly started members. *)
Record initial (c : cluster) : Prop := {
  in_dom : dom (c_nodes c) = members;
  in_nodes : map_Forall (fun n r => raft_wf r /\ r_id r = n /\ dom (r_prs r) = members /\
    r_state r = StateFollower /\ r_Vote r = None_id /\ r_msgs r = []) (c_nodes c);
  in_net : c_net c = [];
  in_ballots : c_ballots c = ∅
}.

Inductive reachable : cluster -> Prop :=
| reach_init c : initial c -> reachable c
| reach_step c c' : reachable c -> cluster_step c c' -> reachable c'.

(** ** The invariant *)

Record node_inv (c : cluster) (n : Z) (r : raft S) : Prop := {
  ni_wf : raft_wf r;
  ni_id : r_id r = n;
  ni_dom : dom (r_prs r) = members;
  ni_msgs : r_msgs r = [];
  ni_vote : r_Vote r <> None_id -> (n, r_Term r, r_Vote r) ∈ c_ballots c;
  ni_cand : r_state r = StateCandidate ->
    forall v, r_votes r !! v = Some true -> (v, r_Term r, n) ∈ c_ballots c;
  ni_lead : r_state r = StateLeader ->
    exists Q : gset Z, quorum r <= Z.of_nat (size Q) /\
      forall v, v ∈ Q -> (v, r_Term r, n) ∈ c_ballots c
}.

Record cluster_inv (c : cluster) : Prop := {
  ci_dom : dom (c_nodes c) = members;
  ci_nodes n r : c_nodes c !! n = Some r -> node_inv c n r;
  ci_sound v t x : (v, t, x) ∈ c_ballots c ->
    exists r, c_nodes c !! v = Some r /\ t <= r_Term r /\
      (t = r_Term r -> r_Vote r = x) /\ x <> None_id;
  ci_unique v t x y : (v, t, x) ∈ c_ballots c -> (v, t, y) ∈ c_ballots c -> x = y;
  ci_net m : m ∈ c_net c -> m_Type m = MsgVoteResp -> m_Reject m = false -> m_To m <> None_id ->
    (m_From m, m_Term m, m_To m) ∈ c_ballots c
}.

Lemma initial_inv c : initial c -> cluster_inv c.
Proof.
  intros [Hd Hn Hnet Hb]. split.
  - done.
  - intros n r E. destruct (Hn n r E) as (? & ? & ? & Hs & Hv & ?). split; try done; congruence.
  - intros v t x. rewrite Hb. set_solver.
  - intros v t x y. rewrite Hb. set_solver.
  - intros m. rewrite Hnet. by intros ?%not_elem_of_nil.
Qed.

Lemma ballot_of_spec n r b : b ∈ ballot_of n r <-> b = (n, r_Term r, r_Vote r) /\ r_Vote r <> None_id.
Proof. unfold ballot_of. case_bool_decide; set_solver. Qed.

(** Where a counted vote comes from, it is a ballot. *)
Definition backed (c : cluster) (n : Z) (m : Message) : Prop :=
  m_Type m = MsgVoteResp -> m_Reject m = false -> (m_From m, m_Term m, n) ∈ c_ballots c.

Lemma vote_src_ballot c n r m r' v :
  cluster_inv c -> c_nodes c !! n = Some r -> 0 < n -> effect r m r' -> backed c n m ->
  vote_src r r' m v -> (v, r_Term r', n) ∈ c_ballots (publish c n r').
Proof.
  intros Hc Hr Hn He Hm Hv. destruct (ci_nodes _ Hc _ _ Hr) as []. simpl.
  rewrite elem_of_union, ballot_of_spec. destruct Hv as [[-> Hv] | [(Hs & Ht & Hv) | (Hty & Hf & Hrej & Ht)]].
  - left. rewrite Hv, ni_id0. unfold None_id. split; [done | lia].
  - right. rewrite Ht. by apply ni_cand0.
  - right. rewrite <- Hf, <- Ht. by apply Hm.
Qed.

(** The node that moved satisfies its part of the invariant. *)
Lemma publish_self c n r m r' :
  cluster_inv c -> c_nodes c !! n = Some r -> effect r m r' -> backed c n m ->
  node_inv (publish c n r') n (set_msgs [] r').
Proof.
  intros Hc Hr He Hm. pose proof (ci_nodes _ Hc _ _ Hr) as Hn.
  pose proof (rw_id _ (ni_wf _ _ _ Hn)) as Hpos. rewrite (ni_id _ _ _ Hn) in Hpos.
  pose proof (fun v => vote_src_ballot c n r m r' v Hc Hr Hpos He Hm) as Hsrc.
  destruct He. destruct Hn. split; cbn [set_msgs r_id r_prs r_msgs r_Vote r_Term r_state r_votes]; try congruence.
  - destruct ef_wf. by split.
  - intros Hv. simpl. rewrite elem_of_union, ballot_of_spec. by left.
  - intros Hs v Hv. apply Hsrc. by apply ef_cand.
  - intros Hs. destruct (ef_lead Hs) as [[Hl Ht] | (Q & HQ & Hin)].
    + destruct (ni_lead0 Hl) as (Q & HQ & Hin). exists Q. split.
      * unfold quorum in *. change (r_prs (set_msgs [] r')) with (r_prs r').
        by rewrite <- size_dom, ef_dom, size_dom.
      * intros v Hv. simpl. rewrite elem_of_union, Ht. right. by apply Hin.
    + exists Q. split; [| auto]. unfold quorum in *. change (r_prs (set_msgs [] r')) with (r_prs r').
      by rewrite <- size_dom, ef_dom, size_dom.
Qed.

Lemma node_inv_mono c c' n r :
  c_ballots c ⊆ c_ballots c' -> node_inv c n r -> node_inv c' n r.
Proof.
  intros Hsub []. split; try done; auto. intros Hl. destruct (ni_lead0 Hl) as (Q & ? & ?).
  exists Q. auto.
Qed.

(** The ballot a step adds agrees with every ballot of the same voter and term. *)
Lemma publish_agrees c n r m r' x :
  cluster_inv c -> c_nodes c !! n = Some r -> effect r m r' ->
  (n, r_Term r', x) ∈ c_ballots c -> r_Vote r' = x.
Proof.
  intros Hc Hr [] Hx. destruct (ci_sound _ Hc _ _ _ Hx) as (r1 & E1 & Hle & Hv & Hne).
  assert (r1 = r) as -> by congruence. assert (r_Term r' = r_Term r) as Ht by lia.
  specialize (Hv Ht). rewrite <- Hv in *. by apply ef_vote.
Qed.

(** One node's step keeps the invariant. *)
Lemma publish_inv c n r m r' :
  cluster_inv c -> c_nodes c !! n = Some r -> effect r m r' -> backed c n m ->
  cluster_inv (publish c n r').
Proof.
  intros Hc Hr He Hm. pose proof (publish_self c n r m r' Hc Hr He Hm) as Hself.
  pose proof (fun x => publish_agrees c n r m r' x Hc Hr He) as Hagree.
  split.
  - simpl. by rewrite (dom_insert_same _ _ _ _ Hr), (ci_dom _ Hc).
  - intros n1 r1 E. simpl in E. apply lookup_insert_Some in E as [[<- <-] | [Hne E]]; [done |].
    eapply node_inv_mono; [| by eapply ci_nodes]. simpl. apply union_subseteq_r.
  - intros v t x. simpl. rewrite elem_of_union, ballot_of_spec.
    intros [[[= -> -> ->] Hv] | Hb].
    + exists (set_msgs [] r'). by rewrite lookup_insert_eq.
    + destruct (ci_sound _ Hc _ _ _ Hb) as (r1 & E1 & Hle & Hv & Hne).
      destruct (decide (v = n)) as [-> | Hvn]; [| exists r1; by rewrite lookup_insert_ne].
      exists (set_msgs [] r'). rewrite lookup_insert_eq. assert (r1 = r) as -> by congruence.
      pose proof (ef_term _ _ _ He). split_and!; simpl; try done; [lia |].
      intros ->. by apply Hagree.
  - intros v t x y. simpl. rewrite !elem_of_union, !ballot_of_spec.
    intros [[E1 Hv] | Hb] [[E2 Hv'] | Hb']; simplify_eq/=; try done.
    + by apply Hagree.
    + symmetry. by apply Hagree.
    + by eapply ci_unique.
  - intros x Hx Hty Hrej Hto. simpl in Hx |- *. rewrite elem_of_union, ballot_of_spec.
    apply elem_of_app in Hx as [Hx | Hx]; [right; by apply (ci_net _ Hc) |].
    destruct (ef_msgs _ _ _ He) as (new & En & HF).
    rewrite (ni_msgs _ _ _ (ci_nodes _ Hc _ _ Hr)) in En. simpl in En. rewrite En in Hx.
    rewrite Forall_forall in HF. destruct (HF x Hx) as [Hv Hft].
    destruct Hft as [Hf Ht]; [by rewrite Hty | by rewrite Hty |].
    left. rewrite <- (Hv Hty Hrej), Hf, Ht, (ef_id _ _ _ He), (ni_id _ _ _ (ci_nodes _ Hc _ _ Hr)).
    done.
Qed.

Lemma step_effect r m r' :
  raft_wf r -> msg_ok r m -> r_Term r + 1 < u64_limit -> Step r m = Ret r' -> effect r m r'.
Proof.
  intros Hw Hm Ht E. destruct (Step_does r m Hw Hm Ht) as [(r1 & E1 & He) | [E1 _]]; congruence.
Qed.

Lemma cluster_step_inv c c' : cluster_inv c -> cluster_step c c' -> cluster_inv c'.
Proof.
  intros Hc Hs. destruct Hs as [n r m r' Hr Hin Hto Hm Ht E | n r m r' Hr Hty Hm Ht E | n r r' Hr Hroom Ht E].
  all: pose proof (ci_nodes _ Hc _ _ Hr) as Hn; pose proof (ni_wf _ _ _ Hn) as Hw.
  all: pose proof (rw_id _ Hw) as Hpos; rewrite (ni_id _ _ _ Hn) in Hpos.
  - apply (publish_inv c n r m r'); [done | done | by apply step_effect |].
    intros Hty Hrej. subst n. apply (ci_net _ Hc); try done. unfold None_id. lia.
  - apply (publish_inv c n r m r'); [done | done | by apply step_effect |].
    intros Hv. by rewrite Hv in Hty.
  - destruct (tick_does r Hw Hroom Ht) as (m & Hty & [(r1 & E1 & He) | [E1 _]]); [| congruence].
    rewrite E in E1. injection E1 as <-. apply (publish_inv c n r m r'); [done | done | done |].
    intros Hv. rewrite Hv in Hty. by destruct Hty.
Qed.

Lemma reachable_inv c : reachable c -> cluster_inv c.
Proof. induction 1; [by apply initial_inv | by eapply cluster_step_inv]. Qed.

(** Two majorities of the same finite set intersect. *)
Lemma majorities_meet (Q1 Q2 : gset Z) :
  Q1 ⊆ members -> Q2 ⊆ members ->
  Z.of_nat (size members) / 2 + 1 <= Z.of_nat (size Q1) ->
  Z.of_nat (size members) / 2 + 1 <= Z.of_nat (size Q2) -> exists v, v ∈ Q1 /\ v ∈ Q2.
Proof.
  intros H1s H2s Hq1 Hq2. destruct (decide (Q1 ∩ Q2 = ∅)) as [He | He].
  - exfalso. assert (size (Q1 ∪ Q2) = (size Q1 + size Q2)%nat) as Hsz
      by (apply size_union; set_solver).
    assert (size (Q1 ∪ Q2) <= size members)%nat by (apply subseteq_size; set_solver).
    pose proof (Z.div_mod (Z.of_nat (size members)) 2). pose proof (Z.mod_pos_bound (Z.of_nat (size members)) 2).
    lia.
  - apply set_choose_L in He as [v Hv]. exists v. set_solver.
Qed.

(** C1: Election safety.  In every state the cluster can reach, whatever messages
    are lost, duplicated or reordered, and whenever nodes tick, campaign or take
    proposals, two leaders of the same term are the same node. *)
Theorem election_safety c n1 n2 r1 r2 :
  reachable c -> c_nodes c !! n1 = Some r1 -> c_nodes c !! n2 = Some r2 ->
  r_state r1 = StateLeader -> r_state r2 = StateLeader -> r_Term r1 = r_Term r2 -> n1 = n2.
Proof.
  intros Hc%reachable_inv E1 E2 L1 L2 Ht.
  destruct (ci_nodes _ Hc _ _ E1), (ci_nodes _ Hc _ _ E2).
  destruct (ni_lead0 L1) as (Q1 & Hq1 & HQ1), (ni_lead1 L2) as (Q2 & Hq2 & HQ2).
  unfold quorum in *. rewrite Z.shiftr_div_pow2, <- size_dom in Hq1, Hq2 by done.
  rewrite ni_dom0 in Hq1. rewrite ni_dom1 in Hq2.
  assert (forall v t x, (v, t, x) ∈ c_ballots c -> v ∈ members) as Hmem.
  { intros v t x Hb. destruct (ci_sound _ Hc _ _ _ Hb) as (r & E & _).
    rewrite <- (ci_dom _ Hc). by eapply elem_of_dom_2. }
  assert (exists v, v ∈ Q1 /\ v ∈ Q2) as (v & Hv1 & Hv2); [apply majorities_meet; try done |].
  - intros v Hv. by eapply Hmem, HQ1.
  - intros v Hv. by eapply Hmem, HQ2.
  - apply HQ1 in Hv1. apply HQ2 in Hv2. rewrite Ht in Hv1. by eapply ci_unique.
Qed.

End Cluster.

(** ** A run that elects a leader *)

#[local] Existing Instances MemoryStorage.storage MemoryStorage.storage_laws.

Definition ex_members : gset Z := {[1; 2; 3]}.

Definition ex_c0 : cluster :=
  mkCluster (<[1 := ex_node 1]> (<[2 := ex_node 2]> (<[3 := ex_node 3]> ∅))) [] ∅.

(** The vote request node 1 sends to node 2, and node 2 after granting it. *)
Definition ex_request : Message := mkMessage MsgVote 2 1 2 0 0 [] 0 false 0 [].
Definition ex_voter : raft MemoryStorage.t := ret_or (ex_node 2) (Step (ex_node 2) ex_request).
Definition ex_elected : raft MemoryStorage.t :=
  ret_or (ex_node 1) (Step (set_msgs [] ex_candidate) ex_grant).

Definition ex_c1 : cluster := publish ex_c0 1 ex_candidate.
Definition ex_c2 : cluster := publish ex_c1 2 ex_voter.
Definition ex_c3 : cluster := publish ex_c2 1 ex_elected.

Lemma ex_c0_initial : initial ex_members ex_c0.
Proof.
  split; [by vm_compute | | done | done].
  unfold ex_c0; simpl. repeat apply map_Forall_insert_2; try apply map_Forall_empty.
  all: split; [by apply ex_node_wf | repeat split; by vm_compute].
Qed.

Lemma ex_c3_reachable : reachable ex_members ex_c3.
Proof.
  apply (reach_step _ ex_c2); [apply (reach_step _ ex_c1); [apply (reach_step _ ex_c0) |] |].
  - apply reach_init. exact ex_c0_initial.
  - apply (cs_local _ 1 (ex_node 1) (msg MsgHup 0)); [by vm_compute | done | exact ex_hup_ok | by vm_compute | by vm_compute].
  - apply (cs_deliver _ 2 (ex_node 2) ex_request); [by vm_compute | | done | concrete_msg | by vm_compute | by vm_compute].
    apply list_elem_of_In. vm_compute. tauto.
  - apply (cs_deliver _ 1 (set_msgs [] ex_candidate) ex_grant);
      [by vm_compute | | done | concrete_msg | by vm_compute | by vm_compute].
    apply list_elem_of_In. vm_compute. tauto.
Qed.

Lemma election_safety_witness :
  r_state ex_elected = StateLeader /\
  forall n r, c_nodes ex_c3 !! n = Some r -> r_state r = StateLeader -> r_Term r = 2 -> n = 1.
Proof.
  split; [by vm_compute |]. intros n r E L T.
  apply (election_safety ex_members ex_c3 n 1 r (set_msgs [] ex_elected) ex_c3_reachable E);
    [by vm_compute | exact L | by vm_compute | rewrite T; by vm_compute].
Defined.
