(* ===== verification/RaftNode.v ===== *)
(** * Raft: the node's event loop

    [components/raft/raft/node.go] and [ready.go]: the goroutine that owns the
    [raft] state, hands a [Ready] to the application and, when the application
    calls [Advance], saves what the [Ready] announced.  One iteration of the
    [for] loop of [run] is [run_iter]; the channel operation the [select]
    chooses is an [event].  The theorems: no iteration panics, and the
    committed entries reach the application in order and exactly once. *)
From S2P Require Import Prelude RaftModel RaftLog RaftCore RaftStep RaftHandlers RaftEffect RaftCampaign RaftSafety RaftProps.

(** ** Ready *)

Record Ready := mkReady {
  rd_SoftState : option SoftState;
  rd_HardState : HardState;
  rd_ReadStates : list ReadState;
  rd_Entries : list Entry;
  rd_CommittedEntries : list Entry;
  rd_Message : list Message
}.

Definition emptyReady : Ready := mkReady None emptyHardState [] [] [] [].

Definition containsUpdates (rd : Ready) : bool :=
  match rd_SoftState rd with Some _ => true | None => false end ||
  negb (IsEmptyHardState (rd_HardState rd)) ||
  (0 <? zlen (rd_Entries rd)) || (0 <? zlen (rd_CommittedEntries rd)) ||
  (0 <? zlen (rd_Message rd)) || (0 <? zlen (rd_ReadStates rd)).

Section Ops.
Context {S : Type} `{Storage S} `{GoRuntime}.

Definition newReady (r : raft S) (preSoft : SoftState) (preHard : HardState) : outcome Ready :=
  ce ← nextEntries (r_raftLog r);
  Ret (mkReady
    (if negb (SoftState_equal (softState r) preSoft) then Some (softState r) else None)
    (if negb (isHardStateEqual (hardState r) preHard) then hardState r else emptyHardState)
    (match r_readStates r with [] => [] | rs => rs end)
    (unstableEntries (r_raftLog r)) ce (r_msgs r)).

(** ** The loop *)

(** The local variables of [run]; [n_advance] is [advanceChan != nil]. *)
Record node := mkNode {
  n_raft : raft S;
  n_advance : bool;
  n_rd : Ready;
  n_prevSoft : SoftState;
  n_prevHard : HardState;
  n_prevLastUnstableI : Z;
  n_prevLastUnstableT : Z;
  n_hasPrevLastUnstableI : bool
}.

Definition set_raft (r : raft S) (n : node) : node :=
  mkNode r (n_advance n) (n_rd n) (n_prevSoft n) (n_prevHard n)
    (n_prevLastUnstableI n) (n_prevLastUnstableT n) (n_hasPrevLastUnstableI n).

(** The state with which [run(r)] enters its loop. *)
Definition run_init (r : raft S) : node :=
  mkNode r false emptyReady (softState r) emptyHardState 0 0 false.

(** The channel operation the [select] takes.  The inner [select] of the
    configuration case has two ways: the state is received, or the node stops. *)
Inductive event :=
  | EvStopped
  | EvProc (m : Message)
  | EvRecv (m : Message)
  | EvConf (cc : ConfChange) (received : bool)
  | EvTick
  | EvReady
  | EvAdvance.

(** Another iteration follows, or [run] returns. *)
Inductive iteration :=
  | Continue (n : node)
  | Return.

(** The head of an iteration: the [Ready] on offer, and whether there is one. *)
Definition run_head (n : node) : outcome (node * bool) :=
  if n_advance n then Ret (n, false)
  else
    rd ← newReady (n_raft n) (n_prevSoft n) (n_prevHard n);
    Ret (mkNode (n_raft n) (n_advance n) rd (n_prevSoft n) (n_prevHard n)
           (n_prevLastUnstableI n) (n_prevLastUnstableT n) (n_hasPrevLastUnstableI n),
         containsUpdates rd).

Definition set_From (from : Z) (m : Message) : Message :=
  mkMessage (m_Type m) (m_To m) from (m_Term m) (m_LogTerm m) (m_LogIndex m) (m_Entries m)
    (m_CommitIndex m) (m_Reject m) (m_RejectHint m) (m_Context m).

(** [case readyChan <- rd] *)
Definition run_ready (n : node) : outcome node :=
  let rd := n_rd n in
  let soft := match rd_SoftState rd with Some s => s | None => n_prevSoft n end in
  let hard := if negb (IsEmptyHardState (rd_HardState rd)) then rd_HardState rd else n_prevHard n in
  let r := set_readStates [] (set_msgs [] (n_raft n)) in
  if 0 <? zlen (rd_Entries rd) then
    e ← go_index (rd_Entries rd) (zlen (rd_Entries rd) - 1);
    Ret (mkNode r true rd soft hard (e_Index e) (e_Term e) true)
  else
    Ret (mkNode r true rd soft hard (n_prevLastUnstableI n) (n_prevLastUnstableT n)
           (n_hasPrevLastUnstableI n)).

(** [case <-advanceChan] *)
Definition run_advance (n : node) : outcome node :=
  let l := r_raftLog (n_raft n) in
  l ← (if negb (IsEmptyHardState (n_prevHard n)) then
         s ← must (SetHardState (rl_storage l) (n_prevHard n));
         Ret (rl_set_storage s l)
       else Ret l);
  l ← (if negb (hs_CommitIndex (n_prevHard n) =? 0)
       then appliedTo l (hs_CommitIndex (n_prevHard n)) else Ret l);
  l ← (if n_hasPrevLastUnstableI n then
         s ← must (Append (rl_storage l) (rd_Entries (n_rd n)));
         stableTo (rl_set_storage s l) (n_prevLastUnstableI n) (n_prevLastUnstableT n)
       else Ret l);
  Ret (mkNode (set_raftLog l (n_raft n)) false (n_rd n) (n_prevSoft n) (n_prevHard n)
         (n_prevLastUnstableI n) (n_prevLastUnstableT n) false).

(** One iteration with the given choice of the [select]; [None] when that
    channel operation is not ready. *)
Definition run_iter (n0 : node) (ev : event) : outcome (option iteration) :=
  h ← run_head n0;
  let '(n, offered) := (h : node * bool) in
  match ev with
  | EvStopped => Ret (Some Return)
  | EvProc m => r ← Step (n_raft n) (set_From (r_id (n_raft n)) m); Ret (Some (Continue (set_raft r n)))
  | EvRecv m => r ← Step (n_raft n) m; Ret (Some (Continue (set_raft r n)))
  | EvConf cc received =>
      rc ← applyConfChange (n_raft n) cc;
      Ret (Some (if received then Continue (set_raft rc.1 n) else Return))
  | EvTick => r ← tick (n_raft n); Ret (Some (Continue (set_raft r n)))
  | EvReady => if offered then n' ← run_ready n; Ret (Some (Continue n')) else Ret None
  | EvAdvance => if n_advance n then n' ← run_advance n; Ret (Some (Continue n')) else Ret None
  end.

(** The [Ready] an iteration hands to the application. *)
Definition handed (n0 : node) (ev : event) : outcome (option Ready) :=
  h ← run_head n0;
  let '(n, offered) := (h : node * bool) in
  match ev with
  | EvReady => Ret (if offered then Some (n_rd n) else None)
  | _ => Ret None
  end.

(** ** The node's interface *)

Definition StartNode (conf : Config S) (peers : list Z) : outcome node :=
  r ← newRaft conf;
  r ← foldl (fun o peer => r ← o; addNode r peer) (Ret r) peers;
  last ← lastIndex (r_raftLog r);
  Ret (run_init (set_raftLog (rl_set_commitIndex last (r_raftLog r)) r)).

(** [step]: proposals go to [proc], the rest to [recvChan]. *)
Definition node_step (m : Message) : event :=
  if bool_decide (m_Type m = MsgProp) then EvProc m else EvRecv m.

Definition Campaign : event := node_step (msg MsgHup 0).

Definition with_entries (ty : MessageType) (es : list Entry) : Message :=
  mkMessage ty 0 0 0 0 0 es 0 false 0 [].

Definition Propose (data : bytes) : event :=
  node_step (with_entries MsgProp [mkEntry 0 0 EntryNormal data]).

(** [marshal] is [json.Marshal]. *)
Definition ProposeConfChange (marshal : ConfChange -> bytes) (cc : ConfChange) : event :=
  node_step (with_entries MsgProp [mkEntry 0 0 EntryConfChange (marshal cc)]).

Definition node_ReadIndex (rctx : bytes) : event :=
  node_step (with_entries MsgReadIndex [mkEntry 0 0 EntryNormal rctx]).

End Ops.
Arguments node : clear implicits.
Arguments iteration : clear implicits.

(** ** Saving the entries of a [Ready] *)

Section Theory.
Context {S : Type} `{StorageLaws S} `{GoRuntime}.
Implicit Types (r : raft S) (l : raftLog S) (n : node S).

(** Entries [es] with the indices [off .. i] that may be written to storage while
    [l] is the log: they join what is stored, and the unstable part of the log
    starts at or before them. *)
Record saving l (es : list Entry) (i t : Z) : Prop := {
  sv_contig : contiguous (i + 1 - zlen es) es;
  sv_last : e_Term <$> zlookup es (zlen es - 1) = Some t;
  sv_off : u_offset (rl_unstable l) <= i + 1 - zlen es <= view_last (st_view (rl_storage l)) + 1;
  sv_limit : i + 1 <= idx_limit;
  sv_unstable : u_entries (rl_unstable l) <> []
}.

(** What storage will hold when [es] are written agrees with the log up to [k]. *)
Definition keeps l (es : list Entry) (i k : Z) : Prop :=
  take (Z.to_nat (k - log_off l)) (log_ents l) =
  take (Z.to_nat (k - log_off l)) (lv_ents (view_splice (st_view (rl_storage l)) (i + 1 - zlen es) es)).

Lemma saving_len l es i t : saving l es i t -> 0 < zlen es.
Proof.
  intros []. destruct (zlookup es (zlen es - 1)) eqn:E; [| done]. apply zlookup_Some_range in E. lia.
Qed.

(** New entries in storage below the unstable part do not change the log. *)
Lemma saved_view l s es i t : log_wf l -> saving l es i t ->
  st_view s = view_splice (st_view (rl_storage l)) (i + 1 - zlen es) es ->
  log_view (rl_set_storage s l) = log_view l.
Proof.
  intros Hw Hs Hv. destruct Hs. lw Hw. unfold log_view. simpl. rewrite Hv.
  apply view_splice_splice_before; unfold log_off in *; lia.
Qed.

Lemma saved_wf l s es i t : log_wf l -> saving l es i t -> st_wf s ->
  st_view s = view_splice (st_view (rl_storage l)) (i + 1 - zlen es) es ->
  log_wf (rl_set_storage s l).
Proof.
  intros Hw Hs Hws Hv. pose proof (saved_view _ _ _ _ _ Hw Hs Hv) as Hlv.
  pose proof (saving_len _ _ _ _ Hs). destruct Hs. lw Hw. destruct Hw.
  assert (log_off (rl_set_storage s l) = log_off l) as Ho by (unfold log_off; simpl; by rewrite Hv).
  split; simpl; try done; try (rewrite Ho; done).
  - rewrite Ho, Hv, view_splice_last by (unfold log_off in *; lia). lia.
  - unfold log_last. by rewrite Hlv.
Qed.

Lemma take_overlay {A} (k : nat) (a b : list A) :
  take k a = take k b -> take k (a ++ drop (length a) b) = take k b.
Proof.
  intros Heq. destruct (decide (k <= length a)%nat) as [Hk | Hk]; [by rewrite take_app_le |].
  assert (Ha : a = take (length a) b).
  { apply (f_equal (take (length a))) in Heq. rewrite !take_take in Heq. rewrite firstn_all2 in Heq at 1 by lia.
    replace (length a `min` k)%nat with (length a) in Heq by lia. done. }
  rewrite Ha at 1. by rewrite take_drop.
Qed.

(** Entries moved from the unstable part to storage: the log then is what storage holds
    up to [i], and what it was after that. *)
Lemma stable_ents l s es (i : Z) :
  log_wf l -> u_offset (rl_unstable l) <= i -> i <= log_last l -> i + 1 - zlen es <= view_last (st_view (rl_storage l)) + 1 ->
  log_off l < i + 1 - zlen es -> st_view s = view_splice (st_view (rl_storage l)) (i + 1 - zlen es) es ->
  lv_ents (view_splice (st_view s) (i + 1) (drop (Z.to_nat (i - u_offset (rl_unstable l) + 1)) (u_entries (rl_unstable l)))) =
  lv_ents (st_view s) ++ drop (length (lv_ents (st_view s))) (log_ents l).
Proof.
  intros Hw Hi Hl Hsv Hoff Hv. lw Hw. zlen_pos.
  assert (Hlen : zlen (lv_ents (st_view s)) = i - log_off l).
  { pose proof (view_splice_last (st_view (rl_storage l)) (i + 1 - zlen es) es Hoff Hsv) as Hx.
    rewrite <- Hv in Hx. unfold view_last in Hx. assert (lv_off (st_view s) = log_off l) as Eo by (rewrite Hv; done). lia. }
  assert (Eo : lv_off (st_view s) = log_off l) by (by rewrite Hv).
  unfold view_splice at 1. cbn [lv_ents]. rewrite firstn_all2 by (unfold zlen in *; lia). f_equal.
  unfold log_ents, log_view, view_splice, log_off, view_last in *. cbn [lv_ents lv_off] in *.
  rewrite drop_app_ge by (rewrite length_take; unfold zlen in *; lia). f_equal. rewrite length_take. unfold zlen in *. lia.
Qed.

(** [stableTo] on the log with the entries in storage. *)
Lemma stableTo_spec l s es i t k : log_wf l -> saving l es i t -> keeps l es i k ->
  st_wf s -> st_view s = view_splice (st_view (rl_storage l)) (i + 1 - zlen es) es ->
  exists l', stableTo (rl_set_storage s l) i t = Ret l' /\ log_wf l' /\
    log_off l' = log_off l /\ log_last l' = log_last l /\
    take (Z.to_nat (k - log_off l)) (log_ents l') = take (Z.to_nat (k - log_off l)) (log_ents l) /\
    rl_commitIndex l' = rl_commitIndex l /\ rl_applyIndex l' = rl_applyIndex l.
Proof.
  intros Hw Hs Hm Hws Hv. pose proof (saved_view _ _ _ _ _ Hw Hs Hv) as Hlv.
  pose proof (saved_wf _ _ _ _ _ Hw Hs Hws Hv) as Hw1. pose proof (saving_len _ _ _ _ Hs) as Hlen.
  assert (log_off (rl_set_storage s l) = log_off l) as Ho by (unfold log_off; simpl; by rewrite Hv).
  assert (Hsame : exists l', Ret (rl_set_storage s l) = Ret l' /\ log_wf l' /\
    log_off l' = log_off l /\ log_last l' = log_last l /\
    take (Z.to_nat (k - log_off l)) (log_ents l') = take (Z.to_nat (k - log_off l)) (log_ents l) /\
    rl_commitIndex l' = rl_commitIndex l /\ rl_applyIndex l' = rl_applyIndex l).
  { eexists. split; [done |]. unfold log_last, log_ents. rewrite Hlv. done. }
  unfold stableTo, unstable_stableTo. rewrite maybeTerm_spec by done. simpl.
  zcase; [exact Hsame |].
  set (u := rl_unstable l) in *.
  destruct (zlookup (u_entries u) (i - u_offset u)) as [e |] eqn:He; simpl; [| exact Hsame].
  destruct (Z.eqb_spec t (e_Term e)) as [Ht | Ht]; simpl; [| exact Hsame]. clear Hsame.
  zcase; [| lia]. pose proof (zlookup_Some_range _ _ _ He) as Hr. lw Hw. subst u.
  unwrap. rewrite go_slice_ok by lia. simpl. eexists. split; [done |].
  set (u := rl_unstable l) in *.
  set (tl := take _ (drop _ (u_entries u))).
  assert (tl = drop (Z.to_nat (i - u_offset u + 1)) (u_entries u)) as Etl.
  { subst tl. apply firstn_all2. rewrite length_drop. unfold zlen in *. lia. }
  clearbody tl. subst tl. destruct Hs. subst u.
  assert (view_last (st_view s) = i) as Hlast
    by (rewrite Hv, view_splice_last by (unfold log_off in *; lia); lia).
  set (l' := rl_set_unstable _ (rl_set_storage s l)).
  assert (Hlog : log_last l' = log_last l).
  { unfold log_last at 1, log_view, l'. cbn [rl_storage rl_unstable rl_set_unstable rl_set_storage u_offset u_entries].
    rewrite view_splice_last by (unfold log_off in *; rewrite Hv; cbn [view_splice lv_off]; unfold log_off in *; rewrite <- ?Hv, ?Hlast; lia).
    rewrite zlen_drop. rewrite log_last_eq by done. lia. }
  assert (Hents : take (Z.to_nat (k - log_off l)) (log_ents l') = take (Z.to_nat (k - log_off l)) (log_ents l)).
  { unfold log_ents at 1, log_view, l'. cbn [rl_storage rl_unstable rl_set_unstable rl_set_storage u_offset u_entries].
    rewrite (stable_ents l s es i) by (try done; unfold log_off in *; lia). apply take_overlay. rewrite Hv. by symmetry. }
  split; [| done]. destruct Hw1. split; simpl in *; try done.
  - unfold log_off in *. simpl in *. rewrite Hlast, Hv. simpl. lia.
  - replace (i + 1) with (u_offset (rl_unstable l) + Z.of_nat (Z.to_nat (i - u_offset (rl_unstable l) + 1))) by lia.
    apply contiguous_drop; [unfold zlen in *; lia | done].
  - by apply Forall_drop.
  - lia.
  - rewrite zlen_drop. unfold idx_limit in *. lia.
  - fold l'. rewrite Hlog. lia.
Qed.

(** Storage that stands for the same entries. *)
Lemma set_storage_same l s : log_wf l -> st_wf s -> st_view s = st_view (rl_storage l) ->
  log_wf (rl_set_storage s l) /\ log_view (rl_set_storage s l) = log_view l.
Proof.
  intros [] Hs Hv.
  assert (log_view (rl_set_storage s l) = log_view l) as Hl by (unfold log_view; simpl; by rewrite Hv).
  split; [| done]. split; unfold log_off, log_last in *; simpl; rewrite ?Hv, ?Hl; done.
Qed.

(** ** The invariant of the loop *)

Definition pending n (es : list Entry) (i t : Z) : Prop :=
  n_hasPrevLastUnstableI n = true /\ es = rd_Entries (n_rd n) /\
  i = n_prevLastUnstableI n /\ t = n_prevLastUnstableT n.

(** Between a [Ready] and its [Advance], the hard state to be saved lies between
    what is applied and what is committed now, and the entries to be saved fit
    the log, and agree with it as far as it was committed then; otherwise nothing is
    pending. *)
Record node_wf n : Prop := {
  nw_raft : raft_wf (n_raft n);
  nw_idle : n_advance n = false -> n_hasPrevLastUnstableI n = false;
  nw_hard : n_advance n = true ->
    rl_applyIndex (r_raftLog (n_raft n)) <= hs_CommitIndex (n_prevHard n)
      <= rl_commitIndex (r_raftLog (n_raft n));
  nw_save es i t : pending n es i t -> saving (r_raftLog (n_raft n)) es i t;
  nw_keep es i t : pending n es i t -> keeps (r_raftLog (n_raft n)) es i (hs_CommitIndex (n_prevHard n))
}.

(** The index up to which committed entries were handed to the application. *)
Definition shown n : Z :=
  if n_advance n then hs_CommitIndex (n_prevHard n) else rl_applyIndex (r_raftLog (n_raft n)).

Lemma saving_adv l l' es i t : log_adv l l' -> saving l es i t -> saving l' es i t.
Proof.
  intros [Hs _ _ _ [Ho Hu]] []. split; try done; [| auto]. rewrite Hs. lia.
Qed.

Lemma keeps_adv l l' es i k : log_adv l l' -> k <= rl_commitIndex l -> keeps l es i k -> keeps l' es i k.
Proof.
  intros [Hs Hv _ _ _] Hk Hkp. unfold keeps in *. unfold log_off in *. rewrite Hs in *. rewrite <- Hkp.
  apply (f_equal (take (Z.to_nat (k - lv_off (st_view (rl_storage l)))))) in Hv. rewrite !take_take in Hv.
  replace (Z.to_nat (k - _) `min` _)%nat with (Z.to_nat (k - lv_off (st_view (rl_storage l)))) in Hv by lia. done.
Qed.

Lemma set_raft_wf n r : node_wf n -> raft_wf r ->
  log_adv (r_raftLog (n_raft n)) (r_raftLog r) -> node_wf (set_raft r n).
Proof.
  intros [] Hr Hl. split; simpl; try done.
  - intros Ha. specialize (nw_hard0 Ha). destruct Hl. lia.
  - intros es i t Hp. eapply saving_adv; [done |]. by apply nw_save0.
  - intros es i t Hp. destruct (n_advance n) eqn:Ea; [| by destruct Hp as [Hx _]; cbn in Hx; rewrite nw_idle0 in Hx].
    eapply keeps_adv; [done | by apply nw_hard0 |]. by apply (nw_keep0 _ _ t).
Qed.

(** *** Configuration changes *)

Lemma addNode_spec r id : raft_wf r -> exists prs,
  addNode r id = Ret (set_prs prs r) /\ raft_wf (set_prs prs r) /\ dom prs = {[id]} ∪ dom (r_prs r).
Proof.
  intros Hw. unfold addNode. pose proof (rw_log _ Hw) as Hlw. lw Hlw. unfold log_last in *.
  destruct (r_prs r !! id) as [pr |] eqn:E.
  - exists (r_prs r). replace (set_prs (r_prs r) r) with r by (by destruct r). split; [done |].
    split; [done |]. apply elem_of_dom_2 in E. set_solver.
  - rewrite lastIndex_spec by done. simpl. unfold log_last. unwrap. eexists. split; [done |].
    split; [| apply dom_insert_L]. destruct Hw. split; try done; simpl.
    + intros Hs. destruct (decide (id = r_id r)) as [-> | Hne];
        [rewrite lookup_insert_eq | rewrite lookup_insert_ne by done]; [done | auto].
    + apply map_Forall_insert_2; [| done]. unfold progress_ok, u64_limit. simpl. lia.
Qed.

Lemma removeNode_spec r id : raft_wf r ->
  raft_wf (removeNode r id) /\ r_raftLog (removeNode r id) = r_raftLog r.
Proof.
  intros Hw. unfold removeNode. destruct (r_prs r !! id) eqn:E; [| done].
  zcase.
  - split; [| by rcbn]. pose proof (rw_term _ Hw). destruct Hw. split; rcbn; try done.
    by apply map_Forall_delete.
  - split; [| done]. destruct Hw. split; simpl; try done; [| by apply map_Forall_delete].
    intros Hs. rewrite lookup_delete_ne by done. auto.
Qed.

Lemma applyConfChange_spec r cc : raft_wf r ->
  exists r' cs, applyConfChange r cc = Ret (r', cs) /\ raft_wf r' /\ r_raftLog r' = r_raftLog r.
Proof.
  intros Hw. unfold applyConfChange.
  assert (exists r', (if negb (cc_NodeID cc =? None_id) then
      match cc_Type cc with
      | ConfChangeRemoveNode => Ret (removeNode r (cc_NodeID cc))
      | _ => addNode r (cc_NodeID cc) end else Ret r) = Ret r' /\ raft_wf r' /\ r_raftLog r' = r_raftLog r)
    as (r' & E & Hw' & Hl').
  { destruct (addNode_spec r (cc_NodeID cc) Hw) as (prs & Ea & Hwa & _).
    destruct (removeNode_spec r (cc_NodeID cc) Hw).
    destruct (negb _); [| by exists r]. destruct (cc_Type cc); by eexists. }
  assert ((if negb (cc_NodeID cc =? None_id) then
         match cc_Type cc with
         | ConfChangeAddNode => addNode r (cc_NodeID cc)
         | ConfChangeRemoveNode => Ret (removeNode r (cc_NodeID cc))
         | ConfChangeUpdateNode => addNode r (cc_NodeID cc)
         end else Ret r) = Ret r') as ->.
  { rewrite <- E. by destruct (negb _), (cc_Type cc). }
  simpl. do 2 eexists. split; [done |]. split; [| done]. destruct Hw'. by split.
Qed.

(** *** The iteration *)

(** Well-formed inputs. *)
Definition event_ok n (ev : event) : Prop :=
  let r := n_raft n in
  match ev with
  | EvProc m => msg_ok r (set_From (r_id r) m) /\ r_Term r + 1 < u64_limit
  | EvRecv m => msg_ok r m /\ r_Term r + 1 < u64_limit
  | EvTick => room r 1 /\ r_Term r + 1 < u64_limit
  | _ => True
  end.

Lemma run_head_spec n : node_wf n -> exists rd b,
  run_head n = Ret (mkNode (n_raft n) (n_advance n) rd (n_prevSoft n) (n_prevHard n)
    (n_prevLastUnstableI n) (n_prevLastUnstableT n) (n_hasPrevLastUnstableI n), b) /\
  (n_advance n = true -> rd = n_rd n /\ b = false) /\
  (n_advance n = false -> newReady (n_raft n) (n_prevSoft n) (n_prevHard n) = Ret rd /\
    b = containsUpdates rd /\
    rd_CommittedEntries rd = view_slice (log_view (r_raftLog (n_raft n)))
      (rl_applyIndex (r_raftLog (n_raft n)) + 1) (rl_commitIndex (r_raftLog (n_raft n)) + 1)).
Proof.
  intros Hw. unfold run_head. destruct (n_advance n) eqn:E.
  - exists (n_rd n), false. destruct n. simpl in *. by subst.
  - unfold newReady. rewrite nextEntries_spec by apply Hw. simpl. by do 2 eexists.
Qed.

Lemma head_wf n rd : node_wf n -> (n_advance n = true -> rd = n_rd n) ->
  node_wf (mkNode (n_raft n) (n_advance n) rd (n_prevSoft n) (n_prevHard n)
    (n_prevLastUnstableI n) (n_prevLastUnstableT n) (n_hasPrevLastUnstableI n)).
Proof.
  intros [] Hrd. split; simpl; try done; intros es i t (Hh & -> & -> & ->); simpl in *;
    (destruct (n_advance n) eqn:E; [| by rewrite nw_idle0 in Hh]); rewrite (Hrd eq_refl); [by apply nw_save0 | by eapply nw_keep0].
Qed.

Lemma newReady_hard r s h rd : newReady r s h = Ret rd -> 0 < r_Term r ->
  (if negb (IsEmptyHardState (rd_HardState rd)) then rd_HardState rd else h) = hardState r.
Proof.
  unfold newReady. intros E Ht. apply bind_Ret in E as (ce & _ & [= <-]). simpl.
  destruct (isHardStateEqual (hardState r) h) eqn:E; simpl.
  - by apply isHardStateEqual_eq in E.
  - destruct (IsEmptyHardState (hardState r)) eqn:E2; [| done]. exfalso.
    apply isHardStateEqual_eq in E2. unfold hardState, emptyHardState in E2. injection E2. lia.
Qed.

(** Offering a [Ready]: everything in it becomes pending. *)
Lemma run_ready_spec n rd : node_wf n -> n_advance n = false -> n_rd n = rd ->
  newReady (n_raft n) (n_prevSoft n) (n_prevHard n) = Ret rd ->
  exists n', run_ready n = Ret n' /\ node_wf n' /\
    r_raftLog (n_raft n') = r_raftLog (n_raft n) /\ n_rd n' = rd /\ n_advance n' = true /\
    n_prevHard n' = hardState (n_raft n).
Proof.
  intros Hw Ha Hrd E. pose proof (nw_raft _ Hw) as Hr.
  pose proof (newReady_hard _ _ _ _ E (proj1 (rw_term _ Hr))) as Hh.
  assert (raft_wf (set_readStates [] (set_msgs [] (n_raft n)))) as Hr' by (destruct Hr; by split).
  assert (rd_Entries rd = u_entries (rl_unstable (r_raftLog (n_raft n)))) as Hes.
  { unfold newReady in E. by apply bind_Ret in E as (ce & _ & [= <-]). }
  pose proof (rw_log _ Hr) as Hlw. pose proof (lw_apply _ Hlw).
  unfold run_ready. rewrite Hrd, Hh. zlen_pos.
  zcase.
  - destruct (zlookup_is_Some (rd_Entries rd) (zlen (rd_Entries rd) - 1)) as [e He]; [lia |].
    rewrite (go_index_Some _ _ _ He). simpl. eexists. split; [done |]. split; [| done].
    split; simpl; [done | done | lia | |]; intros es i t (_ & -> & -> & ->); simpl; rewrite Hes in *; lw Hlw;
      pose proof (contiguous_lookup _ _ _ _ (lw_contig _ Hlw) He) as Hi.
    2: { unfold keeps. replace (e_Index e + 1 - zlen _) with (u_offset (rl_unstable (r_raftLog (n_raft n)))) by lia. done. }
    split; simpl.
    + replace (e_Index e + 1 - zlen _) with (u_offset (rl_unstable (r_raftLog (n_raft n)))) by lia. apply Hlw.
    + by rewrite He.
    + lia.
    + unfold idx_limit. lia.
    + intros Hn. rewrite Hn, zlen_nil in Eb. lia.
  - eexists. split; [done |]. split; [| done].
    split; simpl; [done | done | lia | |]; intros es i t (Hp & _); simpl in Hp; by rewrite (nw_idle _ Hw Ha) in Hp.
Qed.

(** [SetHardState] and [appliedTo] of an [Advance]. *)
Lemma advance_hard l h : log_wf l ->
  rl_applyIndex l <= hs_CommitIndex h <= rl_commitIndex l ->
  exists s l1, (if negb (IsEmptyHardState h) then
      s ← must (SetHardState (rl_storage l) h); Ret (rl_set_storage s l) else Ret l) =
      Ret (rl_set_storage s l) /\
    (if negb (hs_CommitIndex h =? 0) then appliedTo (rl_set_storage s l) (hs_CommitIndex h)
     else Ret (rl_set_storage s l)) = Ret l1 /\
    log_wf l1 /\ log_view l1 = log_view l /\ rl_unstable l1 = rl_unstable l /\
    st_view (rl_storage l1) = st_view (rl_storage l) /\
    rl_commitIndex l1 = rl_commitIndex l /\ rl_applyIndex l1 = hs_CommitIndex h.
Proof.
  intros Hw Hh. pose proof (log_off_nonneg _ Hw). pose proof (lw_apply _ Hw).
  assert (exists s, (if negb (IsEmptyHardState h) then
      s ← must (SetHardState (rl_storage l) h); Ret (rl_set_storage s l) else Ret l) =
      Ret (rl_set_storage s l) /\ st_wf s /\ st_view s = st_view (rl_storage l)) as (s & -> & Hs & Hv).
  { destruct (negb _).
    - destruct (st_sethard (rl_storage l) h) as (s & -> & ? & ?); [apply Hw |]. by exists s.
    - exists (rl_storage l). split; [by destruct l | split; [apply Hw | done]]. }
  destruct (set_storage_same l s Hw Hs Hv) as [Hw1 Hv1]. exists s.
  zcase; simpl.
  - destruct (appliedTo_spec (rl_set_storage s l) (hs_CommitIndex h) Hw1) as [Ea Hwa]; simpl; try lia.
    eexists. split; [done |]. split; [exact Ea |]. done.
  - eexists. split; [done |]. split; [done |]. split_and!; try done. simpl. lia.
Qed.

Lemma run_advance_spec n : node_wf n -> n_advance n = true ->
  exists n', run_advance n = Ret n' /\ node_wf n' /\ n_advance n' = false /\
    take (Z.to_nat (hs_CommitIndex (n_prevHard n))) (log_ents (r_raftLog (n_raft n'))) =
    take (Z.to_nat (hs_CommitIndex (n_prevHard n))) (log_ents (r_raftLog (n_raft n))) /\
    rl_commitIndex (r_raftLog (n_raft n')) = rl_commitIndex (r_raftLog (n_raft n)) /\
    rl_applyIndex (r_raftLog (n_raft n')) = hs_CommitIndex (n_prevHard n).
Proof.
  intros Hw Ha. pose proof (nw_raft _ Hw) as Hr. pose proof (rw_log _ Hr) as Hlw. pose proof (rw_off _ Hr) as Hoff.
  pose proof (nw_hard _ Hw Ha) as Hh. unfold run_advance. set (k := hs_CommitIndex (n_prevHard n)) in *.
  destruct (advance_hard _ (n_prevHard n) Hlw Hh) as (s & l1 & -> & E1 & Hw1 & Hv1 & Hu1 & Hst1 & Hc1 & Ha1).
  cbn [mbind outcome_bind]. simpl. fold k in E1. rewrite E1. simpl. clear E1.
  assert (Ho1 : log_off l1 = 0) by (rewrite <- log_view_off, Hv1, log_view_off; done).
  assert (exists l2, (if n_hasPrevLastUnstableI n then
       s ← must (Append (rl_storage l1) (rd_Entries (n_rd n)));
       stableTo (rl_set_storage s l1) (n_prevLastUnstableI n) (n_prevLastUnstableT n) else Ret l1) = Ret l2 /\
     log_wf l2 /\ log_off l2 = 0 /\ take (Z.to_nat k) (log_ents l2) = take (Z.to_nat k) (log_ents l1) /\
     rl_commitIndex l2 = rl_commitIndex l1 /\ rl_applyIndex l2 = rl_applyIndex l1) as (l2 & E2 & Hw2 & Ho2 & Hv2 & Hc2 & Ha2).
  { destruct (n_hasPrevLastUnstableI n) eqn:Hp; [| by exists l1].
    set (es := rd_Entries (n_rd n)). set (i := n_prevLastUnstableI n). set (t := n_prevLastUnstableT n).
    assert (pending n es i t) as Hpend by done.
    pose proof (nw_save _ Hw _ _ _ Hpend) as Hs0. pose proof (nw_keep _ Hw _ _ _ Hpend) as Hm0.
    assert (saving l1 es i t) as Hs1 by (destruct Hs0; split; rewrite ?Hu1, ?Hst1; done).
    assert (keeps l1 es i k) as Hm1.
    { unfold keeps, log_ents, log_off in *. by rewrite Hst1, Hv1. }
    pose proof (saving_len _ _ _ _ Hs1). pose proof Hs1 as []. lw Hw1.
    destruct (st_append (rl_storage l1) es (i + 1 - zlen es)) as (s2 & -> & Hs2 & Hv2);
      try done; try (unfold log_off in *; lia); [apply Hw1 | intros Hn; rewrite Hn, zlen_nil in *; lia | unfold idx_limit; lia |].
    simpl. destruct (stableTo_spec l1 s2 es i t k Hw1 Hs1 Hm1 Hs2 Hv2) as (l2 & E2 & G1 & G2 & _ & G3 & G4 & G5).
    rewrite Ho1, Z.sub_0_r in G3. exists l2. split_and!; try done. lia. }
  rewrite E2. simpl. eexists. split; [done |]. simpl.
  split_and!; try done; try congruence.
  - split; simpl; try done; [| by intros es i t [? _] ..]. destruct Hr. split; simpl; done.
  - rewrite Hv2. unfold log_ents. by rewrite Hv1.
  - by rewrite Ha2, Ha1.
Qed.

(** What one iteration does to the log and to the entries handed over: the
    entries handed over stay, and [ds], the entries handed over, are the committed
    ones that follow those handed over before. *)
Record delivers n (ds : list Entry) n' : Prop := {
  dl_wf : node_wf n';
  dl_keep : take (Z.to_nat (shown n')) (log_ents (r_raftLog (n_raft n'))) =
            take (Z.to_nat (shown n')) (log_ents (r_raftLog (n_raft n)));
  dl_commit : rl_commitIndex (r_raftLog (n_raft n)) <= rl_commitIndex (r_raftLog (n_raft n'));
  dl_shown : shown n <= shown n' <= rl_commitIndex (r_raftLog (n_raft n));
  dl_ents : ds = view_slice (log_view (r_raftLog (n_raft n))) (shown n + 1) (shown n' + 1)
}.

(** The committed entries an iteration hands to the application. *)
Definition delivered n (ev : event) : list Entry :=
  match handed n ev with Ret (Some rd) => rd_CommittedEntries rd | _ => [] end.

Lemma shown_bounds n : node_wf n -> 0 <= shown n <= rl_commitIndex (r_raftLog (n_raft n)).
Proof.
  intros Hw. pose proof (nw_hard _ Hw). pose proof (rw_log _ (nw_raft _ Hw)) as Hlw. lw Hlw.
  unfold shown. destruct (n_advance n); [specialize (H2 eq_refl) |]; lia.
Qed.

Lemma set_raft_delivers n n1 r : node_wf n -> node_wf n1 -> n_raft n1 = n_raft n ->
  n_advance n1 = n_advance n -> n_prevHard n1 = n_prevHard n -> raft_wf r ->
  log_adv (r_raftLog (n_raft n)) (r_raftLog r) -> delivers n [] (set_raft r n1).
Proof.
  intros Hw Hw1 Er Ea Eh Hr Hl. pose proof (shown_bounds _ Hw).
  pose proof (rw_off _ (nw_raft _ Hw)) as Ho.
  assert (shown (set_raft r n1) = shown n) as Hs.
  { unfold shown. simpl. rewrite Ea, Eh. destruct (n_advance n); [done | apply Hl]. }
  split; rewrite ?Hs; simpl; try lia; try apply Hl.
  - apply set_raft_wf; try done. by rewrite Er.
  - pose proof (la_view _ _ Hl) as Hv. rewrite Ho, Z.sub_0_r in Hv.
    apply (f_equal (take (Z.to_nat (shown n)))) in Hv. rewrite !take_take in Hv.
    by replace (Z.to_nat (shown n) `min` _)%nat with (Z.to_nat (shown n)) in Hv by lia.
  - by rewrite view_slice_nil.
Qed.

(** An iteration returns and hands over the next committed entries, or it
    stops at an append message that contradicts committed entries. *)
Definition iter_ok n (ev : event) : Prop :=
  (exists o, run_iter n ev = Ret o /\ forall n', o = Some (Continue n') -> delivers n (delivered n ev) n') \/
  (run_iter n ev = Panic "conflict before commit index" /\
   exists m, (ev = EvRecv m \/ ev = EvProc m) /\ contradicts (r_raftLog (n_raft n)) m).

(** The cases in which the [select] changes only the [raft] state. *)
Lemma iter_does n n1 ev m (o : outcome (raft S)) :
  node_wf n -> node_wf n1 -> n_raft n1 = n_raft n -> n_advance n1 = n_advance n ->
  n_prevHard n1 = n_prevHard n -> delivered n ev = [] -> does (n_raft n) m o ->
  (contradicts (r_raftLog (n_raft n)) m -> exists m', (ev = EvRecv m' \/ ev = EvProc m') /\
    contradicts (r_raftLog (n_raft n)) m') ->
  run_iter n ev = (r ← o; Ret (Some (Continue (set_raft r n1)))) -> iter_ok n ev.
Proof.
  intros Hw Hw1 Er Ea Eh Hd Ho Hm E. unfold iter_ok. rewrite E, Hd.
  destruct Ho as [(r' & -> & []) | [-> Hc]]; simpl; [left | right; auto].
  eexists. split; [done |]. intros n' [= <-]. by apply set_raft_delivers.
Qed.

Lemma iter_ok_all n ev : node_wf n -> event_ok n ev -> iter_ok n ev.
Proof.
  intros Hw Hev. destruct (run_head_spec n Hw) as (rd & b & Eh & Ht & Hf).
  assert (node_wf _) as Hw1 by (apply (head_wf n rd Hw); intros E; by apply Ht).
  set (n1 := mkNode _ _ rd _ _ _ _ _) in *.
  assert (forall ev', match ev' with EvReady => False | _ => True end -> delivered n ev' = []) as Hd.
  { intros ev' He. unfold delivered, handed. rewrite Eh. by destruct ev'. }
  destruct ev as [| m | m | cc rcv | | |].
  - left. unfold run_iter. rewrite Eh. simpl. eexists. split; [done |]. by intros n' [=].
  - destruct Hev as [Hm Hb].
    apply (iter_does n n1 _ (set_From (r_id (n_raft n)) m) (Step (n_raft n) (set_From (r_id (n_raft n)) m)));
      try done; [by apply Hd | by apply Step_does; [apply Hw | |] | | unfold run_iter; by rewrite Eh].
    intros Hc. exists m. by split; [right |].
  - destruct Hev as [Hm Hb]. apply (iter_does n n1 _ m (Step (n_raft n) m));
      try done; [by apply Hd | by apply Step_does; [apply Hw | |] | | unfold run_iter; by rewrite Eh].
    intros Hc. exists m. by split; [left |].
  - left. unfold run_iter. rewrite Eh, Hd by done. simpl.
    destruct (applyConfChange_spec (n_raft n) cc (nw_raft _ Hw)) as (r' & cs & -> & Hr & Hl). simpl.
    eexists. split; [done |]. intros n' E. destruct rcv; [| done]. injection E as <-.
    apply set_raft_delivers; try done. rewrite Hl. reflexivity.
  - destruct Hev as [Hm Hb]. destruct (tick_does (n_raft n) (nw_raft _ Hw) Hm Hb) as (m & Hty & Ho).
    apply (iter_does n n1 _ m (tick (n_raft n))); try done; [by apply Hd | | unfold run_iter; by rewrite Eh].
    intros (Hx & _). rewrite Hx in Hty. by destruct Hty.
  - left. unfold run_iter, delivered, handed. rewrite Eh. simpl. destruct (n_advance n) eqn:Ea.
    { destruct (Ht eq_refl) as [_ ->]. eexists. split; [done |]. by intros n' [=]. }
    destruct (Hf eq_refl) as (E & Eb & Ec). destruct b; [| eexists; split; [done |]; by intros n' [=]].
    destruct (run_ready_spec n1 rd Hw1) as (n2 & -> & Hw2 & Hl2 & _ & Ha2 & Hh2); try done. simpl.
    eexists. split; [done |]. intros n' [= <-]. rewrite Ec. pose proof (shown_bounds n Hw).
    assert (shown n2 = rl_commitIndex (r_raftLog (n_raft n))) as Hs2.
    { unfold shown. by rewrite Ha2, Hh2. }
    assert (shown n = rl_applyIndex (r_raftLog (n_raft n))) as Hs by (unfold shown; by rewrite Ea).
    split; rewrite ?Hl2; try done; [rewrite Hs2; lia | by rewrite Hs2, Hs].
  - left. unfold run_iter. rewrite Eh, Hd by done. simpl. destruct (n_advance n) eqn:Ea;
      [| eexists; split; [done |]; by intros n' [=]].
    destruct (Ht eq_refl) as [-> _].
    destruct (run_advance_spec n1 Hw1) as (n2 & -> & Hw2 & Ha2 & Hv2 & Hc2 & Hap2); try done. simpl.
    eexists. split; [done |]. intros n' [= <-]. pose proof (shown_bounds n Hw).
    assert (shown n2 = shown n) as Hs2 by (unfold shown; by rewrite Ha2, Ea, Hap2).
    split; try done; rewrite ?Hs2; [unfold shown; rewrite Ea; exact Hv2 | rewrite Hc2; simpl; lia | lia |].
    by rewrite view_slice_nil.
Qed.

(** The event loop does not panic.  In a well-formed loop state, and for
    well-formed input, every iteration returns and leaves a well-formed loop state: in particular [Advance] never marks an
    uncommitted entry as applied, and never leaves a gap in storage.  The only
    panic is the deliberate one, on an append message that contradicts committed
    entries. *)
Theorem run_iter_returns n ev :
  node_wf n -> event_ok n ev ->
  (exists o, run_iter n ev = Ret o /\ forall n', o = Some (Continue n') -> node_wf n') \/
  (run_iter n ev = Panic "conflict before commit index" /\
   exists m, (ev = EvRecv m \/ ev = EvProc m) /\ contradicts (r_raftLog (n_raft n)) m).
Proof.
  intros Hw Hev. destruct (iter_ok_all n ev Hw Hev) as [(o & E & Ho) | ?]; [left | by right].
  exists o. split; [done |]. intros n' E'. by destruct (Ho n' E').
Qed.

(** ** Runs *)

(** [node_run n0 ds n]: the loop goes from [n0] to [n] and hands [ds] to the
    application, in this order, on the way. *)
Inductive node_run n0 : list Entry -> node S -> Prop :=
| nr_start : node_run n0 [] n0
| nr_iter ds n ev n' : node_run n0 ds n -> event_ok n ev ->
    run_iter n ev = Ret (Some (Continue n')) -> node_run n0 (ds ++ delivered n ev) n'.

Lemma view_slice_join v a b c : lv_off v < a -> a <= b -> b <= c ->
  view_slice v a b ++ view_slice v b c = view_slice v a c.
Proof.
  intros. unfold view_slice.
  replace (Z.to_nat (c - a)) with (Z.to_nat (b - a) + Z.to_nat (c - b))%nat by lia.
  rewrite <- take_take_drop, drop_drop. do 3 f_equal. lia.
Qed.

Lemma view_slice_prefix (v w : LogView) k a b :
  take (Z.to_nat k) (lv_ents v) = take (Z.to_nat k) (lv_ents w) ->
  lv_off v = 0 -> lv_off w = 0 -> 0 < a -> b <= k + 1 -> view_slice v a b = view_slice w a b.
Proof.
  intros Ht Hv Hw Ha Hb. unfold view_slice. rewrite Hv, Hw, !take_drop_commute.
  destruct (decide (a <= b)).
  - replace (Z.to_nat (a - 0 - 1) + Z.to_nat (b - a))%nat with (Z.to_nat (b - 1) `min` Z.to_nat k)%nat by lia.
    by rewrite <- !take_take, Ht.
  - replace (Z.to_nat (b - a)) with 0%nat by lia. rewrite Nat.add_0_r.
    rewrite !drop_ge; [done | |]; rewrite length_take; lia.
Qed.

Lemma node_run_shown n0 ds n : node_wf n0 -> node_run n0 ds n ->
  node_wf n /\ shown n0 <= shown n /\
  ds = view_slice (log_view (r_raftLog (n_raft n))) (shown n0 + 1) (shown n + 1).
Proof.
  intros Hw. induction 1 as [| ds n ev n' Hrun (IHw & IHs & IHd) Hev E].
  { by rewrite view_slice_nil. }
  destruct (iter_ok_all n ev IHw Hev) as [(o & E' & Ho) | [E' _]]; rewrite E in E'; [| done].
  injection E' as <-. destruct (Ho n' eq_refl). split; [done |]. split; [lia |].
  pose proof (shown_bounds _ Hw). pose proof (shown_bounds _ IHw).
  pose proof (rw_off _ (nw_raft _ IHw)) as Ho1. pose proof (rw_off _ (nw_raft _ dl_wf0)) as Ho2.
  rewrite IHd, dl_ents0, view_slice_join by (rewrite ?log_view_off; lia).
  symmetry. eapply view_slice_prefix; [exact dl_keep0 | | | lia | lia]; by rewrite log_view_off.
Qed.

(** C8: Committed entries are delivered in order and exactly once.  Over any run
    of the loop, the entries handed to the application are precisely the log's
    entries that follow what was handed over before, up to an index that is
    committed: no entry is skipped, repeated, reordered, or handed over before it
    is committed, whatever is proposed, received or reconfigured meanwhile, also
    between a [Ready] and its [Advance].  Messages are well-formed and terms do not
    overflow. *)
Theorem committed_delivered_once n0 ds n :
  node_wf n0 -> node_run n0 ds n ->
  exists k, shown n0 <= k <= rl_commitIndex (r_raftLog (n_raft n)) /\
    ds = view_slice (log_view (r_raftLog (n_raft n))) (shown n0 + 1) (k + 1).
Proof.
  intros Hw Hrun. destruct (node_run_shown n0 ds n Hw Hrun) as (Hw' & Hs & Hd).
  exists (shown n). pose proof (shown_bounds _ Hw'). split; [lia | done].
Qed.

(** ** StartNode *)

Lemma addNodes_spec r peers : raft_wf r -> exists prs,
  foldl (fun o peer => r ← o; addNode r peer) (Ret r) peers = Ret (set_prs prs r) /\
  raft_wf (set_prs prs r) /\ dom prs = list_to_set peers ∪ dom (r_prs r).
Proof.
  revert r. induction peers as [| p peers IH]; intros r Hw; cbn [foldl].
  { exists (r_prs r). replace (set_prs (r_prs r) r) with r by (by destruct r). set_solver. }
  destruct (addNode_spec r p Hw) as (prs & E & Hw1 & Hd).
  destruct (IH _ Hw1) as (prs2 & E2 & Hw2 & Hd2). exists prs2.
  simpl. rewrite E. split; [exact E2 |]. split; [exact Hw2 |]. simpl in Hd2. rewrite Hd2, Hd. set_solver.
Qed.

Lemma StartNode_spec (conf : Config S) hs cs peers :
  st_wf (cf_Storage conf) -> lv_off (st_view (cf_Storage conf)) = 0 ->
  InitialState (cf_Storage conf) = Ret (Ok (hs, cs)) ->
  0 <= hs_Term hs < u64_limit -> hs_CommitIndex hs <= view_last (st_view (cf_Storage conf)) ->
  0 < cf_ID conf -> cf_Applied conf = 0 ->
  exists n, StartNode conf peers = Ret n /\ node_wf n /\ shown n = 0 /\
    log_view (r_raftLog (n_raft n)) = st_view (cf_Storage conf) /\
    rl_commitIndex (r_raftLog (n_raft n)) = view_last (st_view (cf_Storage conf)).
Proof.
  intros Hst Hoff Hini Ht Hc Hid Hap.
  destruct (newRaft_spec conf hs cs) as (r & E & Hw & _ & Hfol & _ & _ & Hv & Hci & Hai & _); try done.
  unfold StartNode. rewrite E. cbn [mbind outcome_bind].
  destruct (addNodes_spec r peers Hw) as (prs & E2 & Hw2 & _).
  rewrite E2. simpl. pose proof (rw_log _ Hw) as Hlw.
  rewrite lastIndex_spec by done. simpl. eexists. split; [done |].
  pose proof (log_wf_set_commit (r_raftLog r) (log_last (r_raftLog r)) Hlw (lw_commit _ Hlw) ltac:(done)) as Hlw'.
  unfold log_last in *. rewrite Hv in *.
  split_and!; try done.
  - split; simpl; try done; [| by intros ? ? ? [? _] ..].
    destruct Hw2. split; try done.
Qed.

(** Starting a node commits its whole log.  From a well-formed storage,
    [StartNode] enters the loop in a well-formed state with nothing handed over
    yet, and with every entry found in storage marked as committed, including
    those above the stored commit index. *)
Theorem StartNode_commits_all (conf : Config S) hs cs peers :
  st_wf (cf_Storage conf) -> lv_off (st_view (cf_Storage conf)) = 0 ->
  InitialState (cf_Storage conf) = Ret (Ok (hs, cs)) ->
  0 <= hs_Term hs < u64_limit -> hs_CommitIndex hs <= view_last (st_view (cf_Storage conf)) ->
  0 < cf_ID conf -> cf_Applied conf = 0 ->
  exists n, StartNode conf peers = Ret n /\ node_wf n /\ shown n = 0 /\
    log_view (r_raftLog (n_raft n)) = st_view (cf_Storage conf) /\
    rl_commitIndex (r_raftLog (n_raft n)) = view_last (st_view (cf_Storage conf)).
Proof. apply StartNode_spec. Qed.

End Theory.

(** ** Concrete runs *)

#[local] Existing Instances MemoryStorage.storage MemoryStorage.storage_laws.

(** A single-member cluster: it elects itself and commits its own entries. *)
Definition solo_conf : Config MemoryStorage.t :=
  mkConfig 1 [1] MemoryStorage.NewMemoryStorage 0 false 10 1.

Definition node_or (d : node MemoryStorage.t) (o : outcome (option (iteration MemoryStorage.t))) :=
  match o with Ret (Some (Continue n)) => n | _ => d end.

Definition solo0 : node MemoryStorage.t :=
  ret_or (run_init (ex_node 1)) (StartNode solo_conf []).
Definition solo1 := node_or solo0 (run_iter solo0 Campaign).
Definition solo2 := node_or solo1 (run_iter solo1 EvReady).
Definition solo3 := node_or solo2 (run_iter solo2 EvAdvance).

Lemma solo0_wf : node_wf solo0.
Proof.
  destruct (StartNode_spec solo_conf emptyHardState (mkConfState []) []) as (n & E & Hw & _); try done.
  unfold solo0. by rewrite E.
Qed.

Definition solo4 := node_or solo3 (run_iter solo3 (Propose [5])).
Definition solo5 := node_or solo4 (run_iter solo4 EvReady).
Definition solo6 := node_or solo5 (run_iter solo5 EvAdvance).

(** The last iteration of a concrete run. *)
Ltac iterate := eapply nr_iter; [| first [done | split; [concrete_msg | by vm_compute]] | by vm_compute].

(** It becomes leader, hands out its first entry, saves it, takes a proposal, hands that
    out and saves it. *)
Lemma solo_run : node_run solo0 [mkEntry 2 1 EntryNormal []; mkEntry 2 2 EntryNormal [5]] solo6.
Proof.
  replace [mkEntry 2 1 EntryNormal []; mkEntry 2 2 EntryNormal [5]]
    with (((((([] ++ delivered solo0 Campaign) ++ delivered solo1 EvReady) ++ delivered solo2 EvAdvance) ++
            delivered solo3 (Propose [5])) ++ delivered solo4 EvReady) ++ delivered solo5 EvAdvance) by (by vm_compute).
  iterate. iterate. iterate. iterate. iterate. iterate. constructor.
Qed.

Lemma run_iter_returns_witness :
  exists o, run_iter solo0 Campaign = Ret o /\ forall n', o = Some (Continue n') -> node_wf n'.
Proof.
  destruct (run_iter_returns solo0 Campaign solo0_wf) as [Ho | [E _]]; [| exact Ho |].
  - split; [concrete_msg | by vm_compute].
  - by vm_compute in E.
Defined.

Lemma committed_delivered_once_witness :
  exists k, shown solo0 <= k <= rl_commitIndex (r_raftLog (n_raft solo6)) /\
    [mkEntry 2 1 EntryNormal []; mkEntry 2 2 EntryNormal [5]] =
    view_slice (log_view (r_raftLog (n_raft solo6))) (shown solo0 + 1) (k + 1).
Proof. exact (committed_delivered_once solo0 _ solo6 solo0_wf solo_run). Defined.

(** Storage with one entry above the stored commit index. *)
Definition crashed : MemoryStorage.t :=
  MemoryStorage.mk (mkHardState 3 0 0) [mkEntry 0 0 EntryNormal []; mkEntry 3 1 EntryNormal [9]].

Lemma StartNode_commits_all_witness :
  exists n, StartNode (mkConfig 1 [1; 2; 3] crashed 0 false 10 1) [] = Ret n /\
    rl_commitIndex (r_raftLog (n_raft n)) = 1.
Proof.
  destruct (StartNode_commits_all (mkConfig 1 [1; 2; 3] crashed 0 false 10 1)
    (mkHardState 3 0 0) (mkConfState []) []) as (n & E & _ & _ & _ & Hc); try done.
  exists n. split; [exact E | exact Hc].
Defined.

(** ** Where the code departs from the protocol *)

(** Node 1 has voted for node 3 in term 4 and saved that vote. *)
Definition revoter : raft MemoryStorage.t := ret_or (ex_node 1) (newRaft ex_voted).
Definition second_request : Message := mkMessage MsgVote 1 2 4 0 0 [] 0 false 0 [].

(** A restarted node may vote twice in a term.  Node 1 saved a vote for node
    3 in term 4; [newRaft] does not read the vote back, and the restarted node
    grants its vote of the same term 4 to node 2. *)
Theorem restart_votes_twice :
  MemoryStorage.hardState (rl_storage (r_raftLog revoter)) = mkHardState 4 3 0 /\
  exists r', Step revoter second_request = Ret r' /\ r_Term r' = 4 /\ r_Vote r' = 2 /\
    r_msgs r' = [mkMessage MsgVoteResp 2 1 4 0 0 [] 0 false 0 []].
Proof. split; [by vm_compute |]. eexists. split; [by vm_compute |]. by vm_compute. Qed.

(** A member configured with [PreVote]. *)
Definition prevoter : raft MemoryStorage.t :=
  ret_or (ex_node 1) (newRaft (mkConfig 1 [1; 2; 3] MemoryStorage.NewMemoryStorage 0 true 10 1)).

(** A pre-vote request carries the current term.  [campaign] asks for term
    [Term + 1], but [send] overwrites it: the request goes out with the sender's
    term, and a peer of that term that has already voted refuses it. *)
Theorem prevote_term_overwritten :
  r_Term prevoter = 1 /\
  (exists r', Step prevoter (msg MsgHup 0) = Ret r' /\
    Forall (fun m => m_Type m = MsgPreVote /\ m_Term m = 1) (r_msgs r') /\ zlen (r_msgs r') = 2) /\
  (exists r', Step (set_Vote 3 (ex_node 2)) (mkMessage MsgPreVote 2 1 1 0 0 [] 0 false 0 []) = Ret r' /\
    (m_Type <$> r_msgs r') = [MsgPreVoteResp] /\ (m_Reject <$> r_msgs r') = [true]).
Proof.
  split; [by vm_compute |]. split.
  - eexists. split; [by vm_compute |]. split; [| by vm_compute]. vm_compute. by repeat constructor.
  - eexists. split; [by vm_compute |]. by vm_compute.
Qed.

(** A two-member cluster whose leader, node 1, has committed its first entry and
    has one read request waiting for the acknowledgement of node 2. *)
Definition pair_steps (r : raft MemoryStorage.t) (ms : list Message) : raft MemoryStorage.t :=
  foldl (fun r m => ret_or r (Step r m)) r ms.
Definition pair_leader : raft MemoryStorage.t :=
  pair_steps (ret_or (ex_node 1) (newRaft (mkConfig 1 [1; 2] MemoryStorage.NewMemoryStorage 0 false 10 1)))
    [msg MsgHup 0; mkMessage MsgVoteResp 1 2 2 0 0 [] 0 false 0 [];
     mkMessage MsgAppResp 1 2 2 0 1 [] 0 false 0 [];
     mkMessage MsgReadIndex 0 0 0 0 0 [mkEntry 0 0 EntryNormal [7]] 0 false 0 []].

(** Reads never complete in a two-member cluster.  A read request waits for a
    quorum of acknowledgements, but the leader's own is not counted: after the
    only other member has acknowledged, the request still waits. *)
Theorem readindex_pair_waits :
  r_state pair_leader = StateLeader /\ rl_commitIndex (r_raftLog pair_leader) = 1 /\
  exists r', Step pair_leader (mkMessage MsgHeartbeatResp 1 2 2 0 0 [] 0 false 0 [7]) = Ret r' /\
    r_readStates r' = [] /\ readIndexQueue (r_readOnly r') = [[7]].
Proof.
  split; [by vm_compute |]. split; [by vm_compute |].
  eexists. split; [by vm_compute |]. by vm_compute.
Qed.
