(* ===== verification/RpcBreaker.v ===== *)
(** * RPC client: circuit breaker and rate limiter

    [libs/yukino_rpc/internal/breaker/breaker.go] and
    [limiter/token_bucket.go].  [time.Now()] is an argument of the operations
    that read the clock, in nanoseconds; [float64] is IEEE 754 binary64. *)
From S2P Require Import Prelude.
From Stdlib Require Import SpecFloat.

(** ** binary64 *)

Definition float64 := spec_float.
Definition float_of_int (z : Z) : float64 := binary_normalize 53 1024 z 0 false.
Definition fdiv (x y : float64) : float64 := SFdiv 53 1024 x y.
Definition fge (x y : float64) : bool := SFleb y x.

(** [time.Since]: the difference as a [Duration], which saturates. *)
Definition since (now t : Z) : Z :=
  Z.max (-9223372036854775808) (Z.min 9223372036854775807 (now - t)).

Module Breaker.

Inductive State := Closed | Open | HalfOpen.

#[export] Instance State_eq_dec : EqDecision State.
Proof. solve_decision. Defined.

Record CircuitBreaker := mk {
  state : State;
  failureCount : Z;
  successCount : Z;
  windowSize : Z;
  failureThreshold : float64;
  openTimeout : Z;
  lastStateChange : Z;
  halfOpenProbe : bool
}.

Definition NewCircuitBreaker (window : Z) (threshold : float64) (timeout now : Z) : CircuitBreaker :=
  mk Closed 0 0 window threshold timeout now false.

Definition resetCounts (cb : CircuitBreaker) : CircuitBreaker :=
  mk (state cb) 0 0 (windowSize cb) (failureThreshold cb) (openTimeout cb)
    (lastStateChange cb) (halfOpenProbe cb).

Definition toOpen (now : Z) (cb : CircuitBreaker) : CircuitBreaker :=
  let cb := resetCounts (mk Open (failureCount cb) (successCount cb) (windowSize cb)
              (failureThreshold cb) (openTimeout cb) now (halfOpenProbe cb)) in
  mk (state cb) (failureCount cb) (successCount cb) (windowSize cb) (failureThreshold cb)
    (openTimeout cb) (lastStateChange cb) false.

Definition toClosed (now : Z) (cb : CircuitBreaker) : CircuitBreaker :=
  let cb := resetCounts (mk Closed (failureCount cb) (successCount cb) (windowSize cb)
              (failureThreshold cb) (openTimeout cb) now (halfOpenProbe cb)) in
  mk (state cb) (failureCount cb) (successCount cb) (windowSize cb) (failureThreshold cb)
    (openTimeout cb) (lastStateChange cb) false.

Definition set_state_probe (s : State) (p : bool) (cb : CircuitBreaker) : CircuitBreaker :=
  mk s (failureCount cb) (successCount cb) (windowSize cb) (failureThreshold cb)
    (openTimeout cb) (lastStateChange cb) p.

Definition Allow (now : Z) (cb : CircuitBreaker) : bool * CircuitBreaker :=
  match state cb with
  | Closed => (true, cb)
  | Open =>
      if openTimeout cb <? since now (lastStateChange cb)
      then (true, set_state_probe HalfOpen true cb)
      else (false, cb)
  | HalfOpen =>
      if halfOpenProbe cb then (false, cb)
      else (true, set_state_probe HalfOpen true cb)
  end.

(** [rate >= cb.failureThreshold] *)
Definition rate_reached (failures total : Z) (threshold : float64) : bool :=
  fge (fdiv (float_of_int failures) (float_of_int total)) threshold.

(** The end of a window: [resetClosedWindowIfReady], and the same lines in
    [RecordFailure]. *)
Definition resetClosedWindowIfReady (now : Z) (cb : CircuitBreaker) : CircuitBreaker :=
  let total := s64 (failureCount cb + successCount cb) in
  if total <? windowSize cb then cb
  else if rate_reached (failureCount cb) total (failureThreshold cb) then toOpen now cb
  else resetCounts cb.

Definition add_counts (f s : Z) (cb : CircuitBreaker) : CircuitBreaker :=
  mk (state cb) (s64 (failureCount cb + f)) (s64 (successCount cb + s)) (windowSize cb)
    (failureThreshold cb) (openTimeout cb) (lastStateChange cb) (halfOpenProbe cb).

Definition RecordSuccess (now : Z) (cb : CircuitBreaker) : CircuitBreaker :=
  match state cb with
  | Closed => resetClosedWindowIfReady now (add_counts 0 1 cb)
  | HalfOpen => toClosed now cb
  | Open => cb
  end.

Definition RecordFailure (now : Z) (cb : CircuitBreaker) : CircuitBreaker :=
  match state cb with
  | Closed =>
      let cb := add_counts 1 0 cb in
      let total := s64 (failureCount cb + successCount cb) in
      if total <? windowSize cb then cb
      else if rate_reached (failureCount cb) total (failureThreshold cb) then toOpen now cb
      else resetCounts cb
  | HalfOpen => toOpen now cb
  | Open => cb
  end.

(** ** Runs: calls in the order the mutex serialises them *)

Inductive call := CAllow (now : Z) | CSuccess (now : Z) | CFailure (now : Z).

Definition call_time (c : call) : Z :=
  match c with CAllow t | CSuccess t | CFailure t => t end.

Definition step (cb : CircuitBreaker) (c : call) : list bool * CircuitBreaker :=
  match c with
  | CAllow t => let '(b, cb') := Allow t cb in ([b], cb')
  | CSuccess t => ([], RecordSuccess t cb)
  | CFailure t => ([], RecordFailure t cb)
  end.

(** The answers of the [Allow] calls, and the final state. *)
Fixpoint run (cb : CircuitBreaker) (cs : list call) : list bool * CircuitBreaker :=
  match cs with
  | [] => ([], cb)
  | c :: cs' => let '(bs, cb') := step cb c in
                let '(bs', cb'') := run cb' cs' in (bs ++ bs', cb'')
  end.

(** ** Invariant *)

Record wf (cb : CircuitBreaker) : Prop := {
  wf_window : 0 < windowSize cb < 4611686018427387904;
  wf_counts : 0 <= failureCount cb /\ 0 <= successCount cb;
  wf_total : failureCount cb + successCount cb < windowSize cb;
  wf_zero : state cb <> Closed -> failureCount cb = 0 /\ successCount cb = 0;
  wf_probe : halfOpenProbe cb = true -> state cb = HalfOpen
}.

Lemma record_window now cb f s : wf cb -> state cb = Closed ->
  0 <= f -> 0 <= s -> f + s = 1 ->
  wf (resetClosedWindowIfReady now (add_counts f s cb)) /\
  (failureCount cb + f + (successCount cb + s) < windowSize cb ->
    resetClosedWindowIfReady now (add_counts f s cb) =
      mk Closed (failureCount cb + f) (successCount cb + s) (windowSize cb) (failureThreshold cb)
        (openTimeout cb) (lastStateChange cb) (halfOpenProbe cb)) /\
  (failureCount cb + f + (successCount cb + s) = windowSize cb ->
    state (resetClosedWindowIfReady now (add_counts f s cb)) =
      if rate_reached (failureCount cb + f) (windowSize cb) (failureThreshold cb) then Open else Closed).
Proof.
  intros [Hw [Hf Hs] Ht Hz Hp] Hcl ???. unfold resetClosedWindowIfReady, add_counts. simpl. unwrap.
  split_and!.
  - zcase; [| zcase].
    + split; simpl; try done; lia.
    + split; simpl; try done; lia.
    + split; simpl; try done; lia.
  - intros. zcase; [by rewrite Hcl | lia].
  - intros ->. zcase; [lia |]. by destruct (rate_reached _ _ _).
Qed.

Lemma RecordFailure_window now cb : state cb = Closed ->
  RecordFailure now cb = resetClosedWindowIfReady now (add_counts 1 0 cb).
Proof. intros E. unfold RecordFailure. by rewrite E. Qed.

Lemma step_wf cb c : wf cb -> wf (step cb c).2.
Proof.
  intros Hw. destruct c as [t | t | t]; simpl.
  - unfold Allow. destruct (state cb) eqn:E; simpl; try done.
    + zcase; simpl; [| done]. destruct Hw. split; simpl; try done. intros _. apply wf_zero0. congruence.
    + destruct (halfOpenProbe cb); simpl; [done |]. destruct Hw. split; simpl; try done.
      intros _. apply wf_zero0. congruence.
  - unfold RecordSuccess. destruct (state cb) eqn:E; try done; [by apply record_window |].
    destruct Hw. split; simpl; try done; lia.
  - destruct (state cb) eqn:E; [rewrite RecordFailure_window by done; by apply record_window | |];
      unfold RecordFailure; rewrite E; [done |]. destruct Hw. split; simpl; try done; lia.
Qed.

Lemma run_wf cb cs : wf cb -> wf (run cb cs).2.
Proof.
  revert cb. induction cs as [| c cs IH]; intros cb Hw; simpl; [done |].
  pose proof (step_wf cb c Hw) as Hs. destruct (step cb c) as [bs cb'] eqn:E. simpl in Hs.
  pose proof (IH cb' Hs) as Hr. destruct (run cb' cs) as [bs' cb'']. exact Hr.
Qed.

(** ** The contract *)

(** One result of a call, [true] for a failure. *)
Definition record (now : Z) (cb : CircuitBreaker) (failed : bool) : CircuitBreaker :=
  if failed then RecordFailure now cb else RecordSuccess now cb.

Definition failures (rs : list bool) : Z := zlen (filter (fun b => Is_true b) rs).

Lemma record_closed now cb (b : bool) : state cb = Closed ->
  record now cb b =
  resetClosedWindowIfReady now (add_counts (if b then 1 else 0) (if b then 0 else 1) cb).
Proof. intros E. destruct b; simpl; [by apply RecordFailure_window |]. unfold RecordSuccess. by rewrite E. Qed.

Lemma failures_cons b rs : failures (b :: rs) = (if b then 1 else 0) + failures rs.
Proof.
  unfold failures, zlen. rewrite filter_cons. destruct b; case_decide as H; simpl in *; try tauto; lia.
Qed.

Lemma failures_bounds rs : 0 <= failures rs <= zlen rs.
Proof. unfold failures, zlen. pose proof (length_filter (fun b => Is_true b) rs). lia. Qed.

Lemma window_run now cb rs : wf cb -> state cb = Closed ->
  failureCount cb + successCount cb + zlen rs = windowSize cb -> rs <> [] ->
  state (foldl (record now) cb rs) =
    if rate_reached (failureCount cb + failures rs) (windowSize cb) (failureThreshold cb)
    then Open else Closed.
Proof.
  revert cb. induction rs as [| b rs IH]; intros cb Hw Hc Hlen Hne; [done |].
  rewrite failures_cons. rewrite zlen_cons in Hlen. cbn [foldl]. rewrite record_closed by done.
  destruct (record_window now cb (if b then 1 else 0) (if b then 0 else 1) Hw Hc)
    as (Hw' & Hlt & Heq); try by destruct b.
  destruct rs as [| b' rs].
  - simpl. rewrite zlen_nil in Hlen. rewrite Heq by (destruct b; lia).
    change (failures []) with 0. by rewrite Z.add_0_r.
  - rewrite Hlt by (rewrite zlen_cons in Hlen; zlen_pos; destruct b; lia).
    rewrite Hlt in Hw' by (rewrite zlen_cons in Hlen; zlen_pos; destruct b; lia).
    rewrite IH; simpl; try done; [| destruct b; lia]. by rewrite Z.add_assoc.
Qed.

(** A window of results decides.  From a fresh closed breaker, the first
    [windowSize] results open it exactly when the fraction of failures among them
    reaches the threshold; otherwise it stays closed. *)
Theorem window_decides now cb rs :
  wf cb -> state cb = Closed -> failureCount cb = 0 -> successCount cb = 0 ->
  zlen rs = windowSize cb ->
  state (foldl (record now) cb rs) =
    if rate_reached (failures rs) (windowSize cb) (failureThreshold cb) then Open else Closed.
Proof.
  intros Hw Hc Hf Hs Hlen. rewrite window_run; try done; [by rewrite Hf | lia |].
  intros ->. pose proof (wf_window _ Hw). rewrite zlen_nil in Hlen. lia.
Qed.

(** While the timeout has not passed, an open breaker stays as it is. *)
Lemma open_step cb c : state cb = Open ->
  since (call_time c) (lastStateChange cb) <= openTimeout cb ->
  step cb c = (match c with CAllow _ => [false] | _ => [] end, cb).
Proof.
  intros Ho Ht. destruct c as [t | t | t]; simpl in *; unfold Allow, RecordSuccess, RecordFailure;
    rewrite Ho; [zcase; [lia | done] | done | done].
Qed.

(** An open breaker rejects.  Until more than [openTimeout] has passed since
    it opened, an open breaker refuses every call, whatever results of earlier
    calls are still reported, and does not change. *)
Theorem open_rejects cb cs :
  state cb = Open -> Forall (fun c => since (call_time c) (lastStateChange cb) <= openTimeout cb) cs ->
  (run cb cs).2 = cb /\ Forall (fun b => b = false) (run cb cs).1.
Proof.
  intros Ho HF. induction HF as [| c cs Hc HF [IH1 IH2]]; simpl; [done |].
  rewrite open_step by done. destruct (run cb cs) as [bs' cb'']. simpl in *. subst.
  split; [done |]. destruct c; simpl; [by constructor | done | done].
Qed.

Definition is_allow (c : call) : bool := match c with CAllow _ => true | _ => false end.

Lemma halfopen_run cb cs : state cb = HalfOpen -> halfOpenProbe cb = true ->
  Forall (fun c => is_allow c = true) cs ->
  (run cb cs).2 = cb /\ Forall (fun b => b = false) (run cb cs).1.
Proof.
  intros Hs Hp HF. induction HF as [| c cs Hc HF [IH1 IH2]]; simpl; [done |].
  destruct c; [| done | done]. simpl. unfold Allow. rewrite Hs, Hp.
  destruct (run cb cs) as [bs' cb'']. simpl in *. subst. split; [done | by constructor].
Qed.

Lemma allow_run_length cb cs : Forall (fun c => is_allow c = true) cs ->
  length (run cb cs).1 = length cs.
Proof.
  intros HF. revert cb. induction HF as [| c cs Hc HF IH]; intros cb; simpl; [done |].
  destruct c as [t | |]; [| done | done]. simpl. destruct (Allow t cb) as [b cb'].
  specialize (IH cb'). destruct (run cb' cs). simpl in *. lia.
Qed.

(** One probe at a time.  Once the timeout has passed, the next call is let
    through and no other, until its result is reported: a success closes the
    breaker, a failure opens it again from that moment on. *)
Theorem one_probe cb now cs now' :
  state cb = Open -> openTimeout cb < since now (lastStateChange cb) ->
  Forall (fun c => is_allow c = true) cs ->
  exists cb', run cb (CAllow now :: cs) = (true :: replicate (length cs) false, cb') /\
    state (RecordSuccess now' cb') = Closed /\
    state (RecordFailure now' cb') = Open /\ lastStateChange (RecordFailure now' cb') = now'.
Proof.
  intros Ho Ht HF. set (cb' := set_state_probe HalfOpen true cb). exists cb'.
  destruct (halfopen_run cb' cs eq_refl eq_refl HF) as [H1 H2].
  split; [| done]. simpl. unfold Allow. rewrite Ho. zcase; [| lia].
  fold cb'. destruct (run cb' cs) as [bs cb''] eqn:E. simpl in *. subst cb''. do 2 f_equal.
  pose proof (allow_run_length cb' cs HF) as Hlen. rewrite E in Hlen. simpl in Hlen. rewrite <- Hlen.
  clear -H2. induction H2 as [| b bs -> _ IH]; simpl; congruence.
Qed.

(** A lost probe blocks the breaker for ever.  A caller that was let through
    as the probe and then reports no result leaves the breaker half-open, where
    every later call is refused, at any later time. *)
Theorem lost_probe_blocks cb now cs :
  state cb = Open -> openTimeout cb < since now (lastStateChange cb) ->
  Forall (fun c => is_allow c = true) cs ->
  let cb' := (Allow now cb).2 in
  (Allow now cb).1 = true /\ state (run cb' cs).2 = HalfOpen /\
  Forall (fun b => b = false) (run cb' cs).1.
Proof.
  intros Ho Ht HF. unfold Allow. rewrite Ho. zcase; [| lia]. cbv zeta. simpl fst. simpl snd.
  destruct (halfopen_run (set_state_probe HalfOpen true cb) cs eq_refl eq_refl HF) as [H1 H2].
  by rewrite H1.
Qed.

End Breaker.

(** ** Witnesses of the breaker's properties *)

(** The client's configuration: 10 results, 0.6, 5 seconds. *)
Definition ex_threshold : float64 := fdiv (float_of_int 6) (float_of_int 10).
Definition ex_breaker : Breaker.CircuitBreaker :=
  Breaker.NewCircuitBreaker 10 ex_threshold 5000000000 0.
Definition ex_results : list bool := [true; false; true; true; false; true; true; false; true; false].
Definition ex_open : Breaker.CircuitBreaker := foldl (Breaker.record 7) ex_breaker ex_results.

Lemma ex_breaker_wf : Breaker.wf ex_breaker.
Proof. split; simpl; (done || lia). Qed.

Lemma window_decides_witness : Breaker.state ex_open = Breaker.Open.
Proof.
  unfold ex_open.
  rewrite (Breaker.window_decides 7 ex_breaker ex_results ex_breaker_wf); by vm_compute.
Defined.

Lemma open_rejects_witness :
  (Breaker.run ex_open [Breaker.CAllow 100; Breaker.CSuccess 101; Breaker.CAllow 102]).2 = ex_open.
Proof.
  destruct (Breaker.open_rejects ex_open [Breaker.CAllow 100; Breaker.CSuccess 101; Breaker.CAllow 102])
    as [E _]; [by vm_compute | | exact E].
  do 3 (apply Forall_cons_2; [by vm_compute |]). by apply Forall_nil_2.
Defined.

Lemma one_probe_witness : exists cb',
  Breaker.run ex_open [Breaker.CAllow 6000000000; Breaker.CAllow 6000000001] = ([true; false], cb') /\
  Breaker.state (Breaker.RecordSuccess 6000000002 cb') = Breaker.Closed.
Proof.
  destruct (Breaker.one_probe ex_open 6000000000 [Breaker.CAllow 6000000001] 6000000002)
    as (cb' & E & Hs & _); [by vm_compute | by vm_compute | by repeat constructor |].
  exists cb'. split; [exact E | exact Hs].
Defined.

Lemma lost_probe_blocks_witness :
  Forall (fun b => b = false)
    (Breaker.run (Breaker.Allow 6000000000 ex_open).2
       [Breaker.CAllow 7000000000; Breaker.CAllow 900000000000]).1.
Proof.
  destruct (Breaker.lost_probe_blocks ex_open 6000000000
    [Breaker.CAllow 7000000000; Breaker.CAllow 900000000000]) as (_ & _ & HF);
    [by vm_compute | by vm_compute | by repeat constructor | exact HF].
Defined.

(** ** Token bucket *)

Module TokenBucket.

Record t := mk { tokens : Z; rate : Z; stopped : bool }.

Definition NewTokenBucket (rate : Z) : t :=
  let rate := if rate <? 0 then 0 else rate in
  mk rate rate false.

(** The goroutine's reaction to the ticker, unless it has returned. *)
Definition refill (tb : t) : t :=
  if stopped tb then tb else mk (rate tb) (rate tb) (stopped tb).

Definition Allow (tb : t) : bool * t :=
  if 0 <? tokens tb then (true, mk (tokens tb - 1) (rate tb) (stopped tb)) else (false, tb).

Definition Stop (tb : t) : t := mk (tokens tb) (rate tb) true.

Inductive op := OAllow | ORefill | OStop.

Definition apply (tb : t) (o : op) : list bool * t :=
  match o with
  | OAllow => let '(b, tb') := Allow tb in ([b], tb')
  | ORefill => ([], refill tb)
  | OStop => ([], Stop tb)
  end.

(** The answers of the [Allow] calls of a history, in order. *)
Fixpoint answers (tb : t) (os : list op) : list bool :=
  match os with
  | [] => []
  | o :: os' => let '(bs, tb') := apply tb o in bs ++ answers tb' os'
  end.

Definition granted (bs : list bool) : Z := zlen (filter (fun b => Is_true b) bs).

Definition count_op (p : op -> bool) (os : list op) : Z := zlen (filter (fun o => Is_true (p o)) os).
Definition refills : list op -> Z := count_op (fun o => match o with ORefill => true | _ => false end).
Definition allows : list op -> Z := count_op (fun o => match o with OAllow => true | _ => false end).

Record wf (tb : t) : Prop := { wf_tokens : 0 <= tokens tb <= rate tb }.

Lemma apply_wf tb o : wf tb -> wf (apply tb o).2 /\ rate (apply tb o).2 = rate tb.
Proof.
  intros [Ht]. destruct o; simpl.
  - unfold Allow. zcase; simpl; (split; [constructor; simpl; lia | done]).
  - unfold refill. destruct (stopped tb); (split; [constructor; simpl; lia | done]).
  - split; [by constructor | done].
Qed.

Lemma granted_cons b bs : granted (b :: bs) = (if b then 1 else 0) + granted bs.
Proof. unfold granted, zlen. rewrite filter_cons. destruct b; case_decide as H; simpl in *; try tauto; lia. Qed.

Lemma count_op_cons p o os : count_op p (o :: os) = (if p o then 1 else 0) + count_op p os.
Proof. unfold count_op, zlen. rewrite filter_cons. destruct (p o); case_decide as H; simpl in *; try tauto; lia. Qed.

Lemma count_op_nonneg p os : 0 <= count_op p os.
Proof. apply zlen_nonneg. Qed.

(** The limiter's bound.  Whatever the order of calls, refills and stops, the
    number of calls let through is at most the tokens there were plus the rate
    times the number of refills. *)
Theorem granted_bound tb os :
  wf tb -> granted (answers tb os) <= tokens tb + rate tb * refills os.
Proof.
  revert tb. induction os as [| o os IH]; intros tb Hw; simpl.
  { change (granted []) with 0. change (refills []) with 0. destruct Hw. lia. }
  pose proof (apply_wf tb o Hw) as [Hw' Hr]. unfold refills in *. rewrite count_op_cons.
  pose proof (count_op_nonneg (fun o => match o with ORefill => true | _ => false end) os) as Hc.
  destruct o; simpl in *.
  - unfold Allow in *. zcase; simpl in *; rewrite granted_cons; specialize (IH _ Hw'); simpl in *; lia.
  - specialize (IH _ Hw'). unfold refill in *. destruct Hw as [?]. destruct (stopped tb); simpl in *; nia.
  - specialize (IH _ Hw'). simpl in *. lia.
Qed.

(** No call is refused while tokens remain.  Between two refills, the calls let
    through are exactly the first ones, as many as there are tokens. *)
Theorem granted_exact tb os :
  wf tb -> refills os = 0 -> granted (answers tb os) = Z.min (tokens tb) (allows os).
Proof.
  revert tb. induction os as [| o os IH]; intros tb Hw Hr; simpl.
  { change (granted []) with 0. change (allows []) with 0. destruct Hw. lia. }
  pose proof (apply_wf tb o Hw) as [Hw' _]. unfold refills, allows in *. rewrite count_op_cons in *.
  pose proof (count_op_nonneg (fun o => match o with ORefill => true | _ => false end) os) as Hc.
  pose proof (count_op_nonneg (fun o => match o with OAllow => true | _ => false end) os) as Hc2.
  destruct o; simpl in *; [| lia | by rewrite IH by (done || lia)].
  unfold Allow in *. destruct Hw as [?].
  zcase; simpl in *; rewrite granted_cons, IH by (done || lia); simpl; lia.
Qed.

End TokenBucket.

Definition ex_history : list TokenBucket.op :=
  replicate 4 TokenBucket.OAllow ++ [TokenBucket.ORefill; TokenBucket.OAllow].

Lemma granted_bound_witness :
  TokenBucket.granted (TokenBucket.answers (TokenBucket.NewTokenBucket 2) ex_history) <= 4.
Proof.
  etransitivity; [apply (TokenBucket.granted_bound (TokenBucket.NewTokenBucket 2) ex_history); by constructor |].
  by vm_compute.
Defined.

Lemma granted_exact_witness :
  TokenBucket.granted (TokenBucket.answers (TokenBucket.NewTokenBucket 2)
    (replicate 4 TokenBucket.OAllow)) = 2.
Proof.
  rewrite (TokenBucket.granted_exact (TokenBucket.NewTokenBucket 2) (replicate 4 TokenBucket.OAllow));
    [done | by constructor | done].
Defined.
