(* ===== verification/RpcBalance.v ===== *)
(** * RPC client: load balancers

    [libs/yukino_rpc/internal/load_balance]: the [LoadBalancer] interface and its
    three implementations.  [RoundRobin] visits the instances in turn;
    [WeightedRR] (smooth weighted round robin) picks every instance as often as
    its weight says in each period of [totalWeight] selections. *)
From S2P Require Import Prelude.

(** [registry.Instance] *)
Record Instance := mkInstance { Addr : string }.

#[export] Instance Instance_eq_dec : EqDecision Instance.
Proof. solve_decision. Defined.

Definition zeroInstance : Instance := mkInstance "".

(** The interface: a selection may change the balancer's state.  Its promise
    is that a selection returns an instance of the list, or the zero [Instance]
    when the balancer cannot choose. *)
Class LoadBalancer (B : Type) := Select : B -> list Instance -> outcome (Instance * B).

Class LoadBalancerLaws (B : Type) `{LoadBalancer B} := {
  lb_ok : B -> list Instance -> Prop;
  lb_select b l : lb_ok b l ->
    exists i b', Select b l = Ret (i, b') /\ lb_ok b' l /\ (i ∈ l \/ i = zeroInstance)
}.

(** ** Random and RoundRobin *)

(** [intn] is the generator's [Intn]; its state is the number of draws. *)
Section RandomBalancer.
Context (intn : nat -> Z -> Z).

Record Random := mkRandom { draws : nat }.

#[export] Instance Random_Select : LoadBalancer Random := fun r l =>
  if zlen l =? 0 then Ret (zeroInstance, r)
  else i ← go_index l (intn (draws r) (zlen l)); Ret (i, mkRandom (S (draws r))).

Context (intn_range : forall k n, 0 < n -> 0 <= intn k n < n).

#[export] Program Instance Random_laws : LoadBalancerLaws Random := { lb_ok _ _ := True }.
Next Obligation.
  intros r l _. unfold Select, Random_Select. zcase; [by eauto 6 |].
  destruct (zlookup_is_Some l (intn (draws r) (zlen l))) as [i Hi];
    [apply intn_range; pose proof (zlen_nonneg l); lia |].
  rewrite (go_index_Some _ _ _ Hi). simpl. do 2 eexists. split; [done |]. split; [done |].
  left. unfold zlookup in Hi. zcase_in Hi; [done |]. by eapply list_elem_of_lookup_2.
Qed.

End RandomBalancer.

Record RoundRobin := mkRR { idx : Z }.

Definition NewRR : RoundRobin := mkRR 0.

#[export] Instance RR_Select : LoadBalancer RoundRobin := fun r l =>
  if zlen l =? 0 then Ret (zeroInstance, r)
  else
    let i := u64 (idx r + 1) in
    x ← go_index l (u64 (i - 1) mod zlen l);
    Ret (x, mkRR i).

Lemma zlookup_mem {A} (l : list A) i x : zlookup l i = Some x -> x ∈ l.
Proof. unfold zlookup. zcase; [done |]. apply list_elem_of_lookup_2. Qed.

Lemma RR_select r l : l <> [] -> 0 <= idx r < 18446744073709551615 ->
  exists x, zlookup l (idx r mod zlen l) = Some x /\ Select r l = Ret (x, mkRR (idx r + 1)).
Proof.
  intros Hne Hr. assert (0 < zlen l) by (destruct l; [done | rewrite zlen_cons; zlen_pos; lia]).
  destruct (zlookup_is_Some l (idx r mod zlen l)) as [x Hx]; [by apply Z.mod_pos_bound |].
  exists x. split; [done |]. unfold Select, RR_Select. zcase; [lia |]. unwrap.
  replace (idx r + 1 - 1) with (idx r) by lia. by rewrite (go_index_Some _ _ _ Hx).
Qed.

(** [k] selections from the same list. *)
Fixpoint selects {B} `{LoadBalancer B} (b : B) (l : list Instance) (k : nat) :
    outcome (list Instance * B) :=
  match k with
  | 0%nat => Ret ([], b)
  | S k' => ib ← Select b l; rest ← selects ib.2 l k'; Ret (ib.1 :: rest.1, rest.2)
  end.

Lemma RR_selects r l k : l <> [] -> 0 <= idx r -> idx r + Z.of_nat k < 18446744073709551616 ->
  exists xs, selects r l k = Ret (xs, mkRR (idx r + Z.of_nat k)) /\ length xs = k /\
    forall j, (j < k)%nat -> xs !! j = l !! Z.to_nat ((idx r + Z.of_nat j) mod zlen l).
Proof.
  revert r. induction k as [| k IH]; intros r Hne H0 Hk; cbn [selects].
  { exists []. split; [destruct r; simpl; by rewrite Z.add_0_r | split; [done | lia]]. }
  destruct (RR_select r l Hne) as (x & Hx & ->); [lia |]. simpl.
  destruct (IH (mkRR (idx r + 1)) Hne) as (xs & E & Hl & Hxs); simpl in *; [lia | lia |].
  rewrite E. simpl. exists (x :: xs). split; [do 3 f_equal; lia |]. split; [simpl; lia |].
  intros [| j] Hj; simpl.
  - rewrite Z.add_0_r. unfold zlookup in Hx. zcase_in Hx; [done | by rewrite Hx].
  - rewrite Hxs by lia. do 3 f_equal. lia.
Qed.

(** Reading a list from position [i] on, modulo its length, rotates it. *)
Lemma rotation_lookup {A} (i : Z) (l xs : list A) :
  0 < zlen l -> length xs = length l ->
  (forall j, (j < length xs)%nat -> xs !! j = l !! Z.to_nat ((i + Z.of_nat j) mod zlen l)) ->
  let q := Z.to_nat (i mod zlen l) in xs = drop q l ++ take q l.
Proof.
  intros Hpos Hlen Hxs q. pose proof (Z.mod_pos_bound i (zlen l) Hpos) as Hm. unfold zlen in *.
  apply list_eq. intros j. destruct (decide (j < length xs)%nat) as [Hj | Hj].
  2: { rewrite !lookup_ge_None_2; [done | rewrite length_app, length_drop, length_take; lia | lia]. }
  rewrite Hxs by done. rewrite Z.add_mod, (Z.mod_small (Z.of_nat j)) by lia.
  destruct (decide (j < length l - q)%nat).
  - rewrite lookup_app_l by (rewrite length_drop; lia). rewrite lookup_drop, Z.mod_small by lia.
    f_equal. lia.
  - rewrite lookup_app_r by (rewrite length_drop; lia). rewrite length_drop, lookup_take_lt by lia.
    f_equal. rewrite <- (Z.mod_unique (i mod Z.of_nat (length l) + Z.of_nat j) (Z.of_nat (length l)) 1
      (i mod Z.of_nat (length l) + Z.of_nat j - Z.of_nat (length l))); lia.
Qed.

(** Round robin is fair.  From any counter that does not wrap, as many
    consecutive selections as there are instances return every instance exactly
    once: the list, rotated. *)
Theorem round_robin_fair r l :
  l <> [] -> 0 <= idx r -> idx r + zlen l < 18446744073709551616 ->
  exists xs r', selects r l (length l) = Ret (xs, r') /\ xs ≡ₚ l.
Proof.
  intros Hne H0 Hl. destruct (RR_selects r l (length l) Hne H0 Hl) as (xs & E & Hlen & Hxs).
  do 2 eexists. split; [exact E |].
  assert (0 < zlen l) as Hpos by (destruct l; [done | rewrite zlen_cons; zlen_pos; lia]).
  set (q := Z.to_nat (idx r mod zlen l)).
  assert ((q < length l)%nat) as Hq.
  { subst q. pose proof (Z.mod_pos_bound (idx r) (zlen l) Hpos). unfold zlen in *. lia. }
  assert (xs = drop q l ++ take q l) as ->.
  { apply (rotation_lookup (idx r)); try done. by rewrite Hlen. }
  rewrite Permutation_app_comm. by rewrite take_drop.
Qed.

(** ** WeightedRR *)

Record WeightedRR := mkWRR { weights : list Z; currentWeight : list Z; totalWeight : Z }.

Definition NewWeightedRR (ws : list Z) : WeightedRR :=
  let clamped := (fun wt => if wt <? 0 then 0 else wt) <$> ws in
  mkWRR clamped (replicate (length ws) 0) (foldl (fun total wt => s64 (total + wt)) 0 clamped).

(** The loop of [Select] from index [i] on.  [best] is [maxIdx] with
    [currentWeight[maxIdx]], which the rest of the loop does not change, and
    [None] for [maxIdx == -1]. *)
Fixpoint wrr_loop (i : Z) (ws cws : list Z) (best : option (Z * Z)) : list Z * option (Z * Z) :=
  match ws, cws with
  | w :: ws', c :: cws' =>
      let c' := s64 (c + w) in
      let best' := match best with
                   | None => Some (i, c')
                   | Some (k, m) => if m <? c' then Some (i, c') else best
                   end in
      let '(cs, b) := wrr_loop (i + 1) ws' cws' best' in (c' :: cs, b)
  | _, _ => ([], best)
  end.

#[export] Instance WRR_Select : LoadBalancer WeightedRR := fun w l =>
  if zlen l =? 0 then Ret (zeroInstance, w)
  else if negb (zlen l =? zlen (weights w)) then Ret (zeroInstance, w)
  else if totalWeight w <=? 0 then Ret (zeroInstance, w)
  else
    let '(cs, best) := wrr_loop 0 (weights w) (currentWeight w) None in
    match best with
    | None => Panic "index out of range"
    | Some (k, m) =>
        x ← go_index l k;
        Ret (x, mkWRR (weights w) (<[Z.to_nat k := s64 (m - totalWeight w)]> cs) (totalWeight w))
    end.

Definition sumZ (l : list Z) : Z := foldr Z.add 0 l.

Lemma sumZ_cons x l : sumZ (x :: l) = x + sumZ l.
Proof. done. Qed.

(** Between selections the current weights sum to zero and none of them is as
    low as [-totalWeight]. *)
Record wrr_wf (w : WeightedRR) : Prop := {
  ww_len : length (currentWeight w) = length (weights w);
  ww_nonneg : Forall (fun x => 0 <= x) (weights w);
  ww_total : totalWeight w = sumZ (weights w);
  ww_zero : sumZ (currentWeight w) = 0;
  ww_low : Forall (fun c => - totalWeight w < c) (currentWeight w);
  ww_range : zlen (weights w) * totalWeight w < 4611686018427387904
}.

Lemma sumZ_lower (l : list Z) b : Forall (fun x => b < x) l -> sumZ l >= b * zlen l + zlen l.
Proof.
  induction 1 as [| x l Hx HF IH]; simpl; [rewrite zlen_nil; lia |]. rewrite zlen_cons. lia.
Qed.

Lemma sumZ_elem (l : list Z) i x b : zlookup l i = Some x -> Forall (fun y => b < y) l -> b <= 0 ->
  x + b * (zlen l - 1) <= sumZ l.
Proof.
  unfold zlookup. zcase; [done |]. generalize (Z.to_nat i) as k. clear.
  induction l as [| y l IH]; intros k E HF Hb; [done |]. apply Forall_cons in HF as [Hy HF].
  rewrite zlen_cons. destruct k as [| k]; simpl in *.
  - injection E as ->. pose proof (sumZ_lower l b HF). zlen_pos. lia.
  - specialize (IH k E HF Hb). lia.
Qed.

Lemma sumZ_zip (a b : list Z) : length a = length b -> sumZ (zip_with Z.add a b) = sumZ a + sumZ b.
Proof. revert b. induction a as [| x a IH]; intros [| y b] E; simpl in *; try done. rewrite IH by lia. lia. Qed.

Lemma sumZ_insert (l : list Z) k x y : l !! k = Some x -> sumZ (<[k := y]> l) = sumZ l - x + y.
Proof.
  revert k. induction l as [| z l IH]; intros [| k] E; simpl in *; try done; [injection E as ->; lia |].
  rewrite (IH _ E). lia.
Qed.

(** The loop adds the weights and finds a greatest current weight. *)
Lemma wrr_loop_spec i ws cws best : length cws = length ws ->
  Forall (fun c => -9223372036854775808 <= c < 9223372036854775808) (zip_with Z.add cws ws) ->
  let cs := zip_with Z.add cws ws in
  exists best', wrr_loop i ws cws best = (cs, best') /\
    match best' with
    | None => best = None /\ cs = []
    | Some (k, m) =>
        (best = Some (k, m) \/ exists j, k = i + Z.of_nat j /\ cs !! j = Some m) /\
        Forall (fun c => c <= m) cs /\ match best with Some (_, m0) => m0 <= m | None => True end
    end.
Proof.
  revert i cws best. induction ws as [| w ws IH]; intros i [| c cws] best El HF; try done; cbn [wrr_loop].
  { exists best. split; [done |]. destruct best as [[k m] |]; [| done]. split; [by left | done]. }
  simpl in HF. apply Forall_cons in HF as [Hc HF]. unwrap.
  set (best1 := match best with None => _ | Some _ => _ end).
  destruct (IH (i + 1) cws best1) as (best' & -> & Hb); [by injection El | done |].
  exists best'. split; [done |]. destruct best' as [[k m] |].
  - destruct Hb as (Hor & Hle & Hge).
    assert (exists k1 m1, best1 = Some (k1, m1) /\ c + w <= m1 /\
      ((best = Some (k1, m1)) \/ (k1 = i /\ m1 = c + w)) /\
      match best with Some (_, m0) => m0 <= m1 | None => True end) as (k1 & m1 & E1 & Hc1 & Hor1 & Hge1).
    { subst best1. destruct best as [[k0 m0] |]; [zcase |]; do 2 eexists; split_and!; eauto; lia. }
    rewrite E1 in *. split_and!.
    + destruct Hor as [[= <- <-] | (j & -> & Hj)].
      * destruct Hor1 as [? | [-> ->]]; [by left |]. right. exists 0%nat. simpl. split; [lia | done].
      * right. exists (S j). simpl. split; [lia | done].
    + simpl. constructor; [lia | done].
    + destruct best as [[? ?] |]; [lia | done].
  - destruct Hb as [Hb _]. subst best1. destruct best as [[k0 m0] |]; [zcase_in Hb |]; done.
Qed.

Lemma sumZ_pos_max (l : list Z) m : Forall (fun c => c <= m) l -> 0 < sumZ l -> 0 < m.
Proof.
  intros HF Hs. destruct (decide (0 < m)); [done |]. exfalso.
  assert (sumZ l <= 0); [| lia]. clear Hs. induction HF as [| c l Hc HF IH]; simpl; lia.
Qed.

Lemma weight_le_total (ws : list Z) i w : Forall (fun x => 0 <= x) ws -> ws !! i = Some w -> 0 <= w <= sumZ ws.
Proof.
  intros HF. revert i. induction HF as [| x l Hx HF IH]; intros [| i] E; simpl in *; try done.
  - injection E as ->. assert (0 <= sumZ l); [| lia]. clear -HF. induction HF; simpl; lia.
  - specialize (IH i E). lia.
Qed.

(** The sums the loop computes do not overflow. *)
Lemma wrr_sums_range w : wrr_wf w ->
  Forall (fun c => - totalWeight w < c < 9223372036854775808) (zip_with Z.add (currentWeight w) (weights w)).
Proof.
  intros []. apply Forall_lookup_2. intros i c E.
  apply lookup_zip_with_Some in E as (a & b & -> & Ha & Hb).
  pose proof (weight_le_total _ _ _ ww_nonneg0 Hb). rewrite <- ww_total0 in *.
  assert (- totalWeight w < a) by (by eapply Forall_lookup_1 in ww_low0).
  pose proof (sumZ_elem (currentWeight w) (Z.of_nat i) a (- totalWeight w)) as Hs.
  unfold zlookup in Hs. rewrite Nat2Z.id in Hs.
  assert (zlen (currentWeight w) = zlen (weights w)) as Hz by (unfold zlen; lia).
  rewrite Hz, ww_zero0 in Hs. revert Hs. zcase; [lia |]. intros Hs.
  specialize (Hs Ha ww_low0 ltac:(lia)). nia.
Qed.

Lemma WRR_step w l : wrr_wf w -> length l = length (weights w) -> 0 < totalWeight w ->
  exists k x w', l !! k = Some x /\ Select w l = Ret (x, w') /\ wrr_wf w' /\
    weights w' = weights w /\ totalWeight w' = totalWeight w /\
    forall i c wt, currentWeight w !! i = Some c -> weights w !! i = Some wt ->
      currentWeight w' !! i = Some (c + wt - if decide (i = k) then totalWeight w else 0).
Proof.
  intros Hw Hl Ht. pose proof (wrr_sums_range _ Hw) as Hr. destruct Hw.
  set (cs := zip_with Z.add (currentWeight w) (weights w)) in *.
  assert (length cs = length (weights w)) as Hlcs by (subst cs; rewrite length_zip_with; lia).
  assert (0 < sumZ cs) as Hsum by (subst cs; rewrite sumZ_zip by lia; lia).
  assert (totalWeight w < 9223372036854775808) as Htb.
  { destruct (weights w) as [| w0 ws]; [simpl in *; lia |]. rewrite zlen_cons in ww_range0. zlen_pos. nia. }
  destruct (wrr_loop_spec 0 (weights w) (currentWeight w) None) as (best & Eloop & Hb); [done | |].
  { eapply Forall_impl; [exact Hr |]. simpl. intros. lia. }
  fold cs in Hb, Eloop.
  destruct best as [[k m] |]; [| destruct Hb as [_ Hb]; rewrite Hb in Hsum; simpl in Hsum; lia].
  destruct Hb as ([? | (j & Hk & Hj)] & Hmax & _); [done |]. rewrite Z.add_0_l in Hk. subst k.
  pose proof (sumZ_pos_max _ _ Hmax Hsum) as Hm.
  assert (m < 9223372036854775808) as Hm2 by (eapply Forall_lookup_1 in Hr; [| done]; simpl in Hr; lia).
  assert (j < length l)%nat as Hjl by (apply lookup_lt_Some in Hj; lia).
  destruct (lookup_lt_is_Some_2 l j Hjl) as [x Hx]. exists j, x. eexists. split; [done |]. split.
  - unfold Select, WRR_Select. unfold zlen. rewrite Hl.
    replace (Z.of_nat (length (weights w)) =? 0) with false by lia. rewrite Z.eqb_refl. simpl.
    zcase; [lia |]. rewrite Eloop. cbv beta iota. rewrite (go_index_Some l (Z.of_nat j) x).
    + simpl. unwrap. rewrite Nat2Z.id. done.
    + unfold zlookup. zcase; [lia | by rewrite Nat2Z.id].
  - split; [| split; [done | split; [done |]]].
    + split; simpl; try done.
      * rewrite length_insert. done.
      * rewrite (sumZ_insert _ _ m) by done. unfold cs. unwrap. rewrite sumZ_zip by lia. lia.
      * apply Forall_insert; [| lia]. eapply Forall_impl; [exact Hr |]. by intros ? [? _].
    + intros i c wt Hc Hwt. simpl. assert (cs !! i = Some (c + wt)) as Hci
        by (subst cs; apply lookup_zip_with_Some; eauto).
      case_decide as Hd.
      * subst i. rewrite list_lookup_insert_eq by (by eapply lookup_lt_Some). f_equal. rewrite Hj in Hci.
        injection Hci as ->. done.
      * rewrite list_lookup_insert_ne by done. rewrite Hci. f_equal. lia.
Qed.

Definition count_of {A} `{EqDecision A} (x : A) (l : list A) : Z := zlen (filter (fun y => y = x) l).

Lemma count_of_cons {A} `{EqDecision A} (x y : A) l :
  count_of x (y :: l) = (if decide (y = x) then 1 else 0) + count_of x l.
Proof. unfold count_of, zlen. rewrite filter_cons. case_decide; simpl; lia. Qed.

(** After [n] selections the current weights account for every choice. *)
Lemma WRR_run w l n : wrr_wf w -> length l = length (weights w) -> 0 < totalWeight w ->
  exists ks w', selects w l n = Ret (omap (fun k => l !! k) ks, w') /\ wrr_wf w' /\
    length ks = n /\ Forall (fun k => (k < length l)%nat) ks /\
    weights w' = weights w /\ totalWeight w' = totalWeight w /\
    forall i c wt, currentWeight w !! i = Some c -> weights w !! i = Some wt ->
      currentWeight w' !! i = Some (c + Z.of_nat n * wt - totalWeight w * count_of i ks).
Proof.
  revert w. induction n as [| n IH]; intros w Hw Hl Ht; cbn [selects].
  { exists [], w. split_and!; try done. intros i c wt Hc Hwt. rewrite Hc. f_equal.
    change (count_of i []) with 0. lia. }
  destruct (WRR_step w l Hw Hl Ht) as (k & x & w1 & Hx & -> & Hw1 & Ew & Et & Hcw). simpl.
  destruct (IH w1 Hw1) as (ks & w2 & -> & Hw2 & Hlk & HF & Ew2 & Et2 & Hcw2); [by rewrite Ew | by rewrite Et |].
  simpl. exists (k :: ks), w2. split_and!; try done; try congruence.
  - simpl. by rewrite Hx.
  - simpl. lia.
  - constructor; [by eapply lookup_lt_Some | done].
  - intros i c wt Hc Hwt. erewrite Hcw2; [| by eapply Hcw | by rewrite Ew]. f_equal.
    rewrite Et, count_of_cons. repeat case_decide; subst; try done; lia.
Qed.

Lemma sumZ_counts (ks : list nat) n : Forall (fun k => (k < n)%nat) ks ->
  sumZ ((fun i => count_of i ks) <$> seq 0 n) = zlen ks.
Proof.
  induction 1 as [| k ks Hk HF IH].
  { rewrite zlen_nil. generalize 0%nat. induction n as [| n IH]; intros s; simpl; [done |]. by rewrite IH. }
  rewrite zlen_cons, <- IH. clear IH HF.
  assert (forall s, (s <= k < s + n)%nat ->
    sumZ ((fun i => count_of i (k :: ks)) <$> seq s n) = sumZ ((fun i => count_of i ks) <$> seq s n) + 1) as Hs.
  2: { apply Hs. lia. }
  clear Hk. induction n as [| n IH]; intros s Hs; [lia |].
  cbn [seq]. rewrite !fmap_cons, !sumZ_cons, count_of_cons. case_decide as Hd.
  - subst s. assert (forall t m, (k < t)%nat ->
      sumZ ((fun i => count_of i (k :: ks)) <$> seq t m) = sumZ ((fun i => count_of i ks) <$> seq t m)) as Hrest.
    { intros t m. revert t. induction m as [| m IHm]; intros t Ht; [done |].
      cbn [seq]. rewrite !fmap_cons, !sumZ_cons, count_of_cons, IHm by lia. case_decide; lia. }
    rewrite Hrest by lia. lia.
  - rewrite IH by lia. lia.
Qed.

(** Pointwise at most and equal in sum: equal. *)
Lemma sumZ_squeeze (a b : list Z) : Forall2 Z.le a b -> sumZ a = sumZ b -> a = b.
Proof.
  induction 1 as [| x y a b Hxy HF IH]; simpl; [done |]. intros E.
  assert (sumZ a <= sumZ b) by (clear -HF; induction HF; simpl; lia).
  f_equal; [lia | apply IH; lia].
Qed.

Definition clamp (ws : list Z) : list Z := (fun wt => if wt <? 0 then 0 else wt) <$> ws.

Lemma NewWeightedRR_wf ws : zlen ws * sumZ (clamp ws) < 4611686018427387904 -> 0 < sumZ (clamp ws) ->
  wrr_wf (NewWeightedRR ws) /\ totalWeight (NewWeightedRR ws) = sumZ (clamp ws).
Proof.
  intros Hr Hp.
  assert (Forall (fun x => 0 <= x) (clamp ws)) as Hn.
  { unfold clamp. apply Forall_fmap, Forall_true. intros x. simpl. zcase; lia. }
  assert (zlen (clamp ws) = zlen ws) as Hz by (unfold zlen, clamp; by rewrite length_fmap).
  assert (0 < zlen ws) as Hl by (destruct ws; [simpl in Hp; lia | rewrite zlen_cons; zlen_pos; lia]).
  assert (forall (l : list Z) a, Forall (fun x => 0 <= x) l -> 0 <= a -> a + sumZ l < 9223372036854775808 ->
    foldl (fun total wt => s64 (total + wt)) a l = a + sumZ l) as Hfold.
  { induction l as [| x l IH]; intros a HF Ha Hb; simpl; [lia |]. apply Forall_cons in HF as [Hx HF].
    simpl in Hb. assert (0 <= sumZ l) by (clear -HF; induction HF; simpl; lia).
    unwrap. rewrite IH by (done || lia). lia. }
  assert (totalWeight (NewWeightedRR ws) = sumZ (clamp ws)) as Ht.
  { simpl. fold (clamp ws). rewrite Hfold by (done || nia). lia. }
  split; [| done]. split; simpl; try done.
  - by rewrite length_replicate, length_fmap.
  - generalize (length ws). induction n as [| n IH]; simpl; lia.
  - apply Forall_replicate. simpl in Ht. rewrite Ht. lia.
  - simpl in Ht. fold (clamp ws) in *. by rewrite Ht, Hz.
Qed.

(** After a whole period every index was chosen as often as its weight says. *)
Lemma WRR_period ws l : zlen ws * sumZ (clamp ws) < 4611686018427387904 -> 0 < sumZ (clamp ws) ->
  length l = length ws ->
  exists ks, selects (NewWeightedRR ws) l (Z.to_nat (sumZ (clamp ws))) =
      Ret (omap (fun k => l !! k) ks, NewWeightedRR ws) /\
    (fun i => count_of i ks) <$> seq 0 (length ws) = clamp ws /\ Forall (fun k => (k < length l)%nat) ks.
Proof.
  intros Hr Hp Hl. destruct (NewWeightedRR_wf ws Hr Hp) as [Hw Ht].
  set (w := NewWeightedRR ws) in *. set (T := sumZ (clamp ws)) in *.
  assert (weights w = clamp ws) as Hws by done.
  destruct (WRR_run w l (Z.to_nat T) Hw) as (ks & w' & E & Hw' & Hlk & HF & Ew & Et & Hcw).
  { rewrite Hws. unfold clamp. by rewrite length_fmap. } { lia. }
  assert (length (clamp ws) = length ws) as Hlc by (unfold clamp; by rewrite length_fmap).
  assert (forall i wt, clamp ws !! i = Some wt ->
    currentWeight w' !! i = Some (T * (wt - count_of i ks))) as Hc0.
  { intros i wt Hwt. rewrite (Hcw i 0 wt); [| | by rewrite Hws].
    - f_equal. rewrite Ht, Z2Nat.id by lia. fold T. ring.
    - simpl. apply lookup_replicate_2. apply lookup_lt_Some in Hwt. lia. }
  assert ((fun i => count_of i ks) <$> seq 0 (length ws) = clamp ws) as Hcounts.
  { apply sumZ_squeeze.
    - apply Forall2_lookup. intros i. rewrite list_lookup_fmap.
      destruct (decide (i < length ws)%nat) as [Hi | Hi].
      + rewrite lookup_seq_lt by done. simpl.
        destruct (lookup_lt_is_Some_2 (clamp ws) i) as [wt Hwt]; [lia |]. rewrite Hwt. constructor.
        pose proof (ww_low _ Hw') as Hlow. rewrite Et, Ht in Hlow. fold T in Hlow.
        eapply Forall_lookup_1 in Hlow; [| by apply Hc0]. simpl in Hlow. nia.
      + rewrite lookup_seq_ge by lia. simpl. rewrite lookup_ge_None_2 by lia. constructor.
    - rewrite sumZ_counts by (by rewrite <- Hl). unfold zlen. fold T. lia. }
  exists ks. split; [| done]. rewrite E. f_equal. f_equal.
  destruct w' as [ws' cw' t']. simpl in *. unfold w, NewWeightedRR. fold (clamp ws). f_equal.
  - by rewrite Ew.
  - apply list_eq. intros i. destruct (decide (i < length ws)%nat) as [Hi | Hi].
    + destruct (lookup_lt_is_Some_2 (clamp ws) i) as [wt Hwt]; [lia |].
      rewrite (Hc0 i wt Hwt), lookup_replicate_2 by lia. f_equal.
      assert (count_of i ks = wt); [| lia].
      assert (((fun i => count_of i ks) <$> seq 0 (length ws)) !! i = Some wt) as Hx by (by rewrite Hcounts).
      rewrite list_lookup_fmap, lookup_seq_lt in Hx by done. simpl in Hx. by injection Hx.
    + pose proof (ww_len _ Hw') as Hl'. simpl in Hl'. rewrite Ew, Hws in Hl'.
      rewrite !lookup_ge_None_2; [done | rewrite length_replicate; lia | lia].
  - by rewrite Et.
Qed.

Lemma count_omap (l : list Instance) ks i x : NoDup l -> l !! i = Some x ->
  Forall (fun k => (k < length l)%nat) ks -> count_of x (omap (fun k => l !! k) ks) = count_of i ks.
Proof.
  intros Hnd Hx. induction 1 as [| k ks Hk HF IH]; simpl; [done |].
  destruct (lookup_lt_is_Some_2 l k Hk) as [y Hy]. rewrite Hy, !count_of_cons. f_equal; [| exact IH].
  repeat case_decide; subst; try done; [| congruence].
  exfalso. eauto using NoDup_lookup.
Qed.

(** Weighted round robin is exact.  From a new balancer with positive total
    weight (negative weights count as zero), [totalWeight] selections pick every
    instance exactly as often as its weight says, and leave the balancer in its
    initial state, so every further period does the same. *)
Theorem weighted_rr_fair ws l :
  NoDup l -> length l = length ws ->
  0 < sumZ (clamp ws) -> zlen ws * sumZ (clamp ws) < 4611686018427387904 ->
  exists xs, selects (NewWeightedRR ws) l (Z.to_nat (sumZ (clamp ws))) = Ret (xs, NewWeightedRR ws) /\
    forall i x wt, l !! i = Some x -> clamp ws !! i = Some wt -> count_of x xs = wt.
Proof.
  intros Hnd Hl Hp Hr. destruct (WRR_period ws l Hr Hp Hl) as (ks & E & Hc & HF).
  eexists. split; [exact E |]. intros i x wt Hx Hwt. rewrite (count_omap l ks i x) by done.
  rewrite <- Hc, list_lookup_fmap in Hwt. apply lookup_lt_Some in Hx.
  rewrite lookup_seq_lt in Hwt by lia. simpl in Hwt. by injection Hwt.
Qed.

(** [WeightedRR] and [RoundRobin] keep the interface's promise. *)
#[export] Program Instance WRR_laws : LoadBalancerLaws WeightedRR := { lb_ok w _ := wrr_wf w }.
Next Obligation.
  intros w l Hw. destruct (decide (length l = length (weights w) /\ 0 < totalWeight w /\ l <> []))
    as [(Hl & Ht & Hne) | Hn].
  - destruct (WRR_step w l Hw Hl Ht) as (k & x & w' & Hx & E & Hw' & _).
    exists x, w'. split; [done |]. split; [done |]. left. by eapply list_elem_of_lookup_2.
  - exists zeroInstance, w. split; [| by auto]. unfold Select, WRR_Select, zlen.
    zcase; [done |]. zcase; [done |]. zcase; [done |]. exfalso. apply Hn. split_and!; [lia | lia |].
    by intros ->.
Qed.

#[export] Program Instance RR_laws : LoadBalancerLaws RoundRobin := { lb_ok r _ := 0 <= idx r < 18446744073709551616 }.
Next Obligation.
  intros r l Hr. unfold Select, RR_Select. zcase; [exists zeroInstance, r; auto |].
  pose proof (zlen_nonneg l).
  destruct (zlookup_is_Some l (u64 (u64 (idx r + 1) - 1) mod zlen l)) as [x Hx];
    [apply Z.mod_pos_bound; lia |].
  rewrite (go_index_Some _ _ _ Hx). simpl. do 2 eexists. split; [done |].
  split; [apply u64_range | left; by eapply zlookup_mem].
Qed.

(** ** Witnesses *)

Definition ex_instances : list Instance := [mkInstance "a"; mkInstance "b"; mkInstance "c"].

Lemma round_robin_fair_witness :
  exists xs r', selects (mkRR 4) ex_instances 3 = Ret (xs, r') /\ xs ≡ₚ ex_instances.
Proof. apply (round_robin_fair (mkRR 4) ex_instances); [done | simpl; lia | vm_compute; done]. Defined.

Lemma weighted_rr_fair_witness :
  exists xs, selects (NewWeightedRR [1; 2; 3]) ex_instances 6 = Ret (xs, NewWeightedRR [1; 2; 3]) /\
    count_of (mkInstance "c") xs = 3.
Proof.
  destruct (weighted_rr_fair [1; 2; 3] ex_instances) as (xs & E & Hc);
    [by apply (bool_decide_eq_true_1 _); vm_compute | done | by vm_compute | by vm_compute |].
  exists xs. split; [exact E |]. exact (Hc 2%nat _ 3 eq_refl eq_refl).
Defined.
