(* ===== verification/RpcProtocol.v ===== *)
(** * RPC: wire protocol

    [libs/yukino_rpc/internal/protocol] (the packet format), [codec/compress.go]
    (the choice of the compressor) and [transport/tcp_connection.go] (packets
    reassembled from the byte stream).  The theorems: a message survives
    [Encode] and [Decode], and a sequence of messages survives any division of
    the stream into reads. *)
From S2P Require Import Prelude.

(** ** encoding/binary, big endian *)

Definition be16 (x : Z) : bytes := [Z.land (Z.shiftr x 8) 255; Z.land x 255].
Definition be32 (x : Z) : bytes :=
  [Z.land (Z.shiftr x 24) 255; Z.land (Z.shiftr x 16) 255; Z.land (Z.shiftr x 8) 255; Z.land x 255].

(** [binary.BigEndian.Uint16] and [Uint32]: the bounds check is the index panic. *)
Definition Uint16 (b : bytes) : outcome Z :=
  match b with
  | b0 :: b1 :: _ => Ret (Z.lor b1 (Z.shiftl b0 8))
  | _ => Panic "index out of range"
  end.
Definition Uint32 (b : bytes) : outcome Z :=
  match b with
  | b0 :: b1 :: b2 :: b3 :: _ =>
      Ret (Z.lor b3 (Z.lor (Z.shiftl b2 8) (Z.lor (Z.shiftl b1 16) (Z.shiftl b0 24))))
  | _ => Panic "index out of range"
  end.

(** [copy(buf[off:], src)] *)
Definition copy_at (buf : bytes) (off : Z) (src : bytes) : outcome bytes :=
  tl ← go_slice buf off (zlen buf);
  Ret (take (Z.to_nat off) buf ++ take (length tl) src ++ drop (length src) tl).

(** [PutUint16(buf[lo:hi], x)] and the like: the bytes must fit. *)
Definition put_at (buf : bytes) (lo hi : Z) (b : bytes) : outcome bytes :=
  _ ← go_slice buf lo hi;
  copy_at buf lo b.

(** ** header.go, compress.go *)

Record Header := mkHeader {
  RequestID : Z;
  ServiceName : string;
  MethodName : string;
  Error : string;
  CodecType : Z;
  Compression : Z;
  StreamFlag : Z
}.

Definition CompressionNone : Z := 0.
Definition CompressionGzip : Z := 1.

(** [encoding/json] on headers and [compress/gzip].  Their documented
    behaviour: what [Marshal] produced, [Unmarshal] reads back, for headers
    whose strings are valid UTF-8 ([header_ok]); [gunzip] inverts [gzip]. *)
Class Codecs := {
  json_marshal : Header -> result string bytes;
  json_unmarshal : bytes -> result string Header;
  gzip : bytes -> result string bytes;
  gunzip : bytes -> result string bytes
}.

Class CodecLaws `{Codecs} := {
  header_ok : Header -> Prop;
  json_roundtrip h : header_ok h -> exists b, json_marshal h = Ok b /\ json_unmarshal b = Ok h;
  gzip_roundtrip b : exists c, gzip b = Ok c /\ gunzip c = Ok b
}.

Definition Magic : Z := 4660. (* 0x1234 *)

Record Message := mkMessage { m_Header : option Header; m_Body : bytes }.

Section Protocol.
Context `{Codecs}.

(** The registry of compressors holds what [init] registers: gzip. *)
Definition Compress (data : bytes) (t : Z) : result string bytes :=
  if t =? CompressionGzip then gzip data else Err "compressor not found".
Definition Decompress (data : bytes) (t : Z) : result string bytes :=
  if t =? CompressionGzip then gunzip data else Err "compressor not found".

Definition Encode (msg : Message) : outcome (result string bytes) :=
  match m_Header msg with
  | None => Ret (Err "header is nil")
  | Some h =>
      match (if negb (Compression h =? CompressionNone) then Compress (m_Body msg) (Compression h)
             else Ok (m_Body msg)) with
      | Err e => Ret (Err e)
      | Ok bodyBytes =>
          match json_marshal h with
          | Err e => Ret (Err e)
          | Ok headerBytes =>
              let headerLen := u32 (zlen headerBytes) in
              let bodyLen := u32 (zlen bodyBytes) in
              let total := u32 (u32 (10 + headerLen) + bodyLen) in
              let buf := replicate (Z.to_nat total) 0 in
              buf ← put_at buf 0 2 (be16 Magic);
              buf ← put_at buf 2 6 (be32 headerLen);
              buf ← put_at buf 6 10 (be32 bodyLen);
              buf ← copy_at buf 10 headerBytes;
              buf ← copy_at buf (u32 (10 + headerLen)) bodyBytes;
              Ret (Ok buf)
          end
      end
  end.

Definition DecodeHeaderLen (data : bytes) : outcome Z :=
  if zlen data <? 4 then Ret 0 else Uint32 data.
Definition DecodeBodyLen (data : bytes) : outcome Z :=
  if zlen data <? 4 then Ret 0 else Uint32 data.

Definition Decode (data : bytes) : outcome (result string Message) :=
  if zlen data <? 10 then Ret (Err "data too short")
  else
    magic ← (go_slice data 0 2 ≫= Uint16);
    if negb (magic =? Magic) then Ret (Err "invalid magic number")
    else
      headerLen ← (go_slice data 2 6 ≫= Uint32);
      bodyLen ← (go_slice data 6 10 ≫= Uint32);
      let totalLen := u64 (u64 (10 + headerLen) + bodyLen) in
      if 9223372036854775807 <? totalLen then Ret (Err "packet too large")
      else if zlen data <? totalLen then Ret (Err "incomplete packet")
      else
        headerBytes ← go_slice data 10 (u32 (10 + headerLen));
        match json_unmarshal headerBytes with
        | Err e => Ret (Err e)
        | Ok header =>
            bodyBytes ← go_slice data (u32 (10 + headerLen)) (u32 (u32 (10 + headerLen) + bodyLen));
            match (if negb (Compression header =? CompressionNone)
                   then Decompress bodyBytes (Compression header) else Ok bodyBytes) with
            | Err e => Ret (Err e)
            | Ok body => Ret (Ok (mkMessage (Some header) body))
            end
        end.

(** ** tcp_connection.go *)

(** The resynchronisation loop of [PacketBuffer.Read]. *)
Fixpoint skip_to_magic (buf : bytes) : bytes :=
  match buf with
  | b0 :: ((b1 :: _) as tl) => if Z.lor b1 (Z.shiftl b0 8) =? Magic then buf else skip_to_magic tl
  | _ => buf
  end.

(** [PacketBuffer.Read]: a packet, if there is a whole one, and the buffer left. *)
Definition PacketBuffer_Read (buf : bytes) : outcome (option bytes * bytes) :=
  let buf := skip_to_magic buf in
  if zlen buf <? 10 then Ret (None, buf)
  else
    headerLen ← (go_slice buf 2 6 ≫= DecodeHeaderLen);
    bodyLen ← (go_slice buf 6 10 ≫= DecodeBodyLen);
    let totalLen := s64 (s64 (10 + headerLen) + bodyLen) in
    if zlen buf <? totalLen then Ret (None, buf)
    else
      packet ← go_slice buf 0 totalLen;
      rest ← go_slice buf totalLen (zlen buf);
      Ret (Some packet, rest).

Definition PacketBuffer_Write (buf data : bytes) : bytes := buf ++ data.

Definition EOF : string := "EOF".

(** [TCPConnection.Read], where the next reads of the socket return [chunks] and
    then the end of the stream: the result, the buffer and the chunks left. *)
Fixpoint conn_Read (buf : bytes) (chunks : list bytes) :
    outcome (result string Message * bytes * list bytes) :=
  pb ← PacketBuffer_Read buf;
  match pb with
  | (Some packet, buf') => m ← Decode packet; Ret (m, buf', chunks)
  | (None, buf') =>
      match chunks with
      | [] => Ret (Err EOF, buf', [])
      | c :: cs => conn_Read (if 0 <? zlen c then PacketBuffer_Write buf' c else buf') cs
      end
  end.

(** Successive calls of [Read], up to the first error. *)
Fixpoint conn_reads (n : nat) (buf : bytes) (chunks : list bytes) : outcome (list Message * bytes * list bytes) :=
  match n with
  | 0%nat => Ret ([], buf, chunks)
  | S n' =>
      r ← conn_Read buf chunks;
      match r with
      | (Ok m, buf', cs) => rest ← conn_reads n' buf' cs; Ret (m :: rest.1.1, rest.1.2, rest.2)
      | (Err _, buf', cs) => Ret ([], buf', cs)
      end
  end.

End Protocol.

(** ** Bytes *)

Lemma be16_len x : length (be16 x) = 2%nat.
Proof. done. Qed.
Lemma be32_len x : length (be32 x) = 4%nat.
Proof. done. Qed.

Lemma testbit_byte x k n : 0 <= k -> 0 <= n ->
  Z.testbit (Z.land (Z.shiftr x k) 255) n = (n <? 8) && Z.testbit x (n + k).
Proof.
  intros. change 255 with (Z.ones 8). rewrite Z.land_spec, Z.shiftr_spec by done.
  destruct (Z.ltb_spec n 8).
  - rewrite Z.ones_spec_low by lia. by rewrite andb_true_r.
  - rewrite Z.ones_spec_high by lia. by rewrite andb_false_r.
Qed.

Lemma testbit_high x w n : 0 <= x < 2 ^ w -> 0 <= w <= n -> Z.testbit x n = false.
Proof.
  intros Hx Hn. destruct (decide (x = 0)) as [-> | Hne]; [apply Z.bits_0 |].
  apply Z.bits_above_log2; [lia |]. apply Z.log2_lt_pow2; [lia |].
  apply Z.lt_le_trans with (2 ^ w); [lia |]. apply Z.pow_le_mono_r; lia.
Qed.

Lemma Uint32_be32 x rest : 0 <= x < 4294967296 -> Uint32 (be32 x ++ rest) = Ret x.
Proof.
  intros Hx. simpl. f_equal. apply Z.bits_inj'. intros n Hn.
  rewrite !Z.lor_spec, !Z.shiftl_spec by done.
  rewrite <- (Z.shiftr_0_r x) at 1.
  destruct (decide (n < 8)); [| destruct (decide (n < 16)); [| destruct (decide (n < 24)); [| destruct (decide (n < 32))]]].
  all: repeat match goal with
    | |- context [Z.testbit (Z.land (Z.shiftr ?y ?k) 255) ?m] =>
        destruct (decide (0 <= m));
        [rewrite (testbit_byte y k m) by lia | rewrite (Z.testbit_neg_r _ m) by lia]
    end.
  all: repeat match goal with |- context [?a <? 8] => destruct (Z.ltb_spec a 8); try lia end; simpl.
  all: rewrite ?orb_false_r; try lia; try (f_equal; lia).
  symmetry. apply (testbit_high x 32); [exact Hx | lia].
Qed.

(** ** Slices of concatenations *)

Lemma go_slice_mid {A} (a b c : list A) lo hi : lo = zlen a -> hi = zlen a + zlen b ->
  go_slice (a ++ b ++ c) lo hi = Ret b.
Proof.
  intros -> ->. rewrite go_slice_ok by (rewrite ?zlen_app; zlen_pos; lia). f_equal.
  unfold zlen. rewrite Nat2Z.id, drop_app_length.
  replace (Z.to_nat _) with (length b) by lia. by rewrite take_app_length.
Qed.

Lemma copy_next (P src : bytes) k off : off = zlen P -> (length src <= k)%nat ->
  copy_at (P ++ replicate k 0) off src = Ret ((P ++ src) ++ replicate (k - length src) 0).
Proof.
  intros -> Hk. unfold copy_at.
  rewrite <- (app_nil_r (P ++ replicate k 0)) at 1. rewrite <- app_assoc.
  rewrite (go_slice_mid P (replicate k 0) []); [| done | by rewrite zlen_app].
  simpl. f_equal. unfold zlen. rewrite Nat2Z.id, take_app_length, <- app_assoc. f_equal.
  rewrite length_replicate, take_ge by done. f_equal. apply drop_replicate.
Qed.

Lemma put_next (P src : bytes) k lo hi : lo = zlen P -> hi = zlen P + zlen src -> (length src <= k)%nat ->
  put_at (P ++ replicate k 0) lo hi src = Ret ((P ++ src) ++ replicate (k - length src) 0).
Proof.
  intros -> -> Hk. unfold put_at. rewrite go_slice_ok.
  - simpl. by apply copy_next.
  - zlen_pos. lia.
  - zlen_pos. lia.
  - rewrite zlen_app. unfold zlen. rewrite length_replicate. lia.
Qed.

(** ** The packet format *)

Section Theory.
Context `{CodecLaws}.

(** A packet with the given header and body bytes. *)
Definition frame (hb bb : bytes) : bytes :=
  be16 Magic ++ be32 (zlen hb) ++ be32 (zlen bb) ++ hb ++ bb.
#[local] Arguments frame : simpl never.

Definition frame_fits (hb bb : bytes) : Prop := 10 + zlen hb + zlen bb < 4294967296.

Lemma frame_len hb bb : zlen (frame hb bb) = 10 + zlen hb + zlen bb.
Proof. unfold frame. rewrite !zlen_app. unfold zlen. rewrite be16_len, !be32_len. lia. Qed.

(** The bytes [Encode] writes after the compression of the body. *)
Lemma Encode_frame msg h hb bb :
  m_Header msg = Some h -> json_marshal h = Ok hb ->
  (if negb (Compression h =? CompressionNone) then Compress (m_Body msg) (Compression h)
   else Ok (m_Body msg)) = Ok bb ->
  frame_fits hb bb -> Encode msg = Ret (Ok (frame hb bb)).
Proof.
  intros Eh Ehb Ebb Hfit. unfold Encode, frame_fits in *. rewrite Eh, Ebb, Ehb. zlen_pos. unwrap.
  rewrite <- (app_nil_l (replicate _ 0)).
  rewrite put_next; [| done | done | simpl; lia]. cbn [mbind outcome_bind].
  rewrite put_next; [| done | done | simpl; lia]. cbn [mbind outcome_bind].
  rewrite put_next; [| done | done | simpl; lia]. cbn [mbind outcome_bind].
  rewrite copy_next; [| done | rewrite !be32_len, be16_len; unfold zlen; lia]. cbn [mbind outcome_bind].
  rewrite copy_next; [| rewrite !zlen_app; unfold zlen; rewrite !be32_len, be16_len; simpl; lia |].
  - cbn [mbind outcome_bind]. do 2 f_equal. unfold frame. rewrite !be32_len, be16_len.
    replace (_ - _ - _ - _ - _ - _)%nat with 0%nat by (unfold zlen; lia).
    rewrite (app_nil_l (be16 Magic)). cbn [replicate]. by rewrite app_nil_r, <- !app_assoc.
  - rewrite !be32_len, be16_len. unfold zlen. lia.
Qed.

Lemma Decode_frame hb bb rest : frame_fits hb bb ->
  Decode (frame hb bb ++ rest) =
    match json_unmarshal hb with
    | Err e => Ret (Err e)
    | Ok header =>
        match (if negb (Compression header =? CompressionNone)
               then Decompress bb (Compression header) else Ok bb) with
        | Err e => Ret (Err e)
        | Ok body => Ret (Ok (mkMessage (Some header) body))
        end
    end.
Proof.
  intros Hfit. unfold Decode, frame_fits in *. pose proof (frame_len hb bb) as Hlen.
  pose proof (zlen_nonneg hb). pose proof (zlen_nonneg bb). pose proof (zlen_nonneg rest).
  rewrite zlen_app, Hlen. zcase; [lia |].
  assert (frame hb bb ++ rest = be16 Magic ++ be32 (zlen hb) ++ be32 (zlen bb) ++ hb ++ bb ++ rest) as Ef
    by (unfold frame; by rewrite <- !app_assoc).
  assert (go_slice (frame hb bb ++ rest) 0 2 = Ret (be16 Magic)) as ->
    by (rewrite Ef; apply (go_slice_mid [] (be16 Magic)); done).
  assert (go_slice (frame hb bb ++ rest) 2 6 = Ret (be32 (zlen hb))) as ->
    by (rewrite Ef; apply (go_slice_mid (be16 Magic) (be32 (zlen hb))); done).
  assert (go_slice (frame hb bb ++ rest) 6 10 = Ret (be32 (zlen bb))) as ->
    by (rewrite Ef; apply (go_slice_mid (be16 Magic ++ be32 (zlen hb)) (be32 (zlen bb))); done).
  assert (Uint16 (be16 Magic) = Ret Magic) as Hmag by done.
  pose proof (Uint32_be32 (zlen hb) [] ltac:(lia)) as Hhl. pose proof (Uint32_be32 (zlen bb) [] ltac:(lia)) as Hbl.
  rewrite app_nil_r in Hhl, Hbl. cbn [mbind outcome_bind]. rewrite Hmag, Hhl, Hbl.
  cbn [mbind outcome_bind]. rewrite Z.eqb_refl. cbn [negb]. unwrap.
  zcase; [lia |]. zcase; [lia |].
  set (pre := be16 Magic ++ be32 (zlen hb) ++ be32 (zlen bb)).
  assert (zlen pre = 10) as Hpre by (subst pre; rewrite !zlen_app; done).
  assert (frame hb bb ++ rest = pre ++ hb ++ bb ++ rest) as Ef1
    by (rewrite Ef; subst pre; by rewrite <- !app_assoc).
  assert (go_slice (frame hb bb ++ rest) 10 (10 + zlen hb) = Ret hb) as ->
    by (rewrite Ef1; apply go_slice_mid; lia).
  assert (go_slice (frame hb bb ++ rest) (10 + zlen hb) (10 + zlen hb + zlen bb) = Ret bb) as ->.
  { rewrite Ef1, app_assoc. apply go_slice_mid; rewrite zlen_app; lia. }
  done.
Qed.

(** ** Messages that can be sent *)

Record sendable (msg : Message) : Prop := {
  sd_header : exists h, m_Header msg = Some h /\ header_ok h /\
    (Compression h = CompressionNone \/ Compression h = CompressionGzip) /\
    forall hb bb, json_marshal h = Ok hb ->
      (if negb (Compression h =? CompressionNone) then gzip (m_Body msg) else Ok (m_Body msg)) = Ok bb ->
      frame_fits hb bb
}.

Lemma sendable_frame msg : sendable msg -> exists hb bb, frame_fits hb bb /\
  Encode msg = Ret (Ok (frame hb bb)) /\ forall rest, Decode (frame hb bb ++ rest) = Ret (Ok msg).
Proof.
  intros [(h & Eh & Hok & Hc & Hfit)]. destruct msg as [oh body]. cbn [m_Header m_Body] in *. subst oh.
  destruct (json_roundtrip h Hok) as (hb & Em & Eu). destruct (gzip_roundtrip body) as (c & Ec & Ed).
  destruct Hc as [Hc | Hc]; rewrite Hc in Hfit; simpl in Hfit.
  - exists hb, body. split; [by apply Hfit |]. split.
    + eapply Encode_frame; try done; [by rewrite Hc | by apply Hfit].
    + intros rest. rewrite Decode_frame by (by apply Hfit). by rewrite Eu, Hc.
  - exists hb, c. split; [by apply Hfit |]. split.
    + eapply Encode_frame; try done; [by rewrite Hc | by apply Hfit].
    + intros rest. rewrite Decode_frame by (by apply Hfit). rewrite Eu, Hc. unfold Decompress. simpl.
      by rewrite Ed.
Qed.

(** Encode and Decode are inverse.  A message whose header has a JSON form and
    whose packet is shorter than 4 GiB is encoded without error, and decoding the
    packet, whatever bytes follow it, gives the message back. *)
Theorem encode_decode_roundtrip msg rest :
  sendable msg ->
  exists packet, Encode msg = Ret (Ok packet) /\ Decode (packet ++ rest) = Ret (Ok msg).
Proof.
  intros Hs. destruct (sendable_frame msg Hs) as (hb & bb & _ & E & D). exists (frame hb bb). auto.
Qed.

(** ** The byte stream *)

Lemma skip_magic rest : skip_to_magic (be16 Magic ++ rest) = be16 Magic ++ rest.
Proof. done. Qed.

Lemma frame_split hb bb : exists tl,
  frame hb bb = be16 Magic ++ be32 (zlen hb) ++ be32 (zlen bb) ++ tl /\ zlen tl = zlen hb + zlen bb.
Proof. exists (hb ++ bb). split; [done | by rewrite zlen_app]. Qed.

(** What [PacketBuffer.Read] computes once ten bytes of a packet are there. *)
Lemma Read_header hl bl tl : 0 <= hl < 4294967296 -> 0 <= bl < 4294967296 ->
  let buf := be16 Magic ++ be32 hl ++ be32 bl ++ tl in
  PacketBuffer_Read buf =
    if zlen buf <? 10 + hl + bl then Ret (None, buf)
    else packet ← go_slice buf 0 (10 + hl + bl);
         rest ← go_slice buf (10 + hl + bl) (zlen buf);
         Ret (Some packet, rest).
Proof.
  intros Hh Hb buf. unfold PacketBuffer_Read. subst buf. rewrite skip_magic.
  set (buf := be16 Magic ++ be32 hl ++ be32 bl ++ tl).
  assert (10 <= zlen buf) as Hlen.
  { subst buf. rewrite !zlen_app. pose proof (zlen_nonneg tl). change (zlen (be16 Magic)) with 2.
    change (zlen (be32 hl)) with 4. change (zlen (be32 bl)) with 4. lia. }
  zcase; [lia |].
  assert (go_slice buf 2 6 = Ret (be32 hl)) as -> by (apply (go_slice_mid (be16 Magic)); done).
  assert (go_slice buf 6 10 = Ret (be32 bl)) as ->
    by (subst buf; rewrite (app_assoc (be16 Magic)); apply (go_slice_mid (be16 Magic ++ be32 hl)); done).
  pose proof (Uint32_be32 hl [] Hh) as Eh. pose proof (Uint32_be32 bl [] Hb) as Eb'.
  rewrite app_nil_r in Eh, Eb'.
  assert (DecodeHeaderLen (be32 hl) = Ret hl) as Eh1 by exact Eh.
  assert (DecodeBodyLen (be32 bl) = Ret bl) as Eb1 by exact Eb'.
  cbn [mbind outcome_bind]. rewrite Eh1, Eb1. cbn [mbind outcome_bind]. unwrap. done.
Qed.

Lemma Read_whole hb bb rest : frame_fits hb bb ->
  PacketBuffer_Read (frame hb bb ++ rest) = Ret (Some (frame hb bb), rest).
Proof.
  intros Hfit. unfold frame_fits in Hfit. pose proof (zlen_nonneg hb). pose proof (zlen_nonneg bb).
  pose proof (frame_len hb bb) as Hlen. pose proof (zlen_nonneg rest).
  assert (frame hb bb ++ rest = be16 Magic ++ be32 (zlen hb) ++ be32 (zlen bb) ++ (hb ++ bb ++ rest)) as Ef
    by (unfold frame; by rewrite <- !app_assoc).
  rewrite Ef, Read_header by lia. rewrite <- Ef, zlen_app, Hlen. zcase; [lia |].
  assert (go_slice (frame hb bb ++ rest) 0 (10 + zlen hb + zlen bb) = Ret (frame hb bb)) as ->
    by (apply (go_slice_mid [] (frame hb bb) rest); rewrite zlen_nil; lia).
  assert (go_slice (frame hb bb ++ rest) (10 + zlen hb + zlen bb) (10 + zlen hb + zlen bb + zlen rest) = Ret rest) as ->.
  { rewrite <- (app_nil_r rest) at 1. apply go_slice_mid; lia. }
  done.
Qed.

(** An incomplete packet stays in the buffer. *)
Lemma Read_partial hb bb pre suf : frame_fits hb bb -> frame hb bb = pre ++ suf -> suf <> [] ->
  PacketBuffer_Read pre = Ret (None, pre).
Proof.
  intros Hfit Ef Hne. unfold frame_fits in Hfit. pose proof (zlen_nonneg hb). pose proof (zlen_nonneg bb).
  pose proof (frame_len hb bb) as Hlen.
  assert (zlen pre < 10 + zlen hb + zlen bb) as Hlt.
  { rewrite <- Hlen, Ef, zlen_app. destruct suf; [done |]. rewrite zlen_cons. pose proof (zlen_nonneg suf). lia. }
  destruct (decide (zlen pre < 10)) as [Hs | Hs].
  - assert (skip_to_magic pre = pre) as Hsk.
    { destruct pre as [| b0 [| b1 pre]]; [done | done |]. injection Ef as <- <- _. done. }
    unfold PacketBuffer_Read. rewrite Hsk. zcase; [done | lia].
  - destruct (frame_split hb bb) as (tl & Etl & _).
    assert (exists tl', pre = be16 Magic ++ be32 (zlen hb) ++ be32 (zlen bb) ++ tl') as (tl' & ->).
    { rewrite Ef in Etl. exists (drop 10 pre). rewrite <- (take_drop 10 pre) at 1.
      assert (take 10 pre = take 10 (pre ++ suf)) as -> by (rewrite take_app_le; [done | unfold zlen in *; lia]).
      rewrite Etl. done. }
    rewrite Read_header by lia. zcase; [done | lia].
Qed.

Lemma app_split_cases {A} (a b c d : list A) : a ++ b = c ++ d ->
  (exists r, a = c ++ r /\ d = r ++ b) \/ (exists r, c = a ++ r /\ b = r ++ d /\ r <> []).
Proof.
  revert c. induction a as [| x a IH]; intros [| y c] E; simpl in *.
  - left. exists []. by rewrite E.
  - right. by exists (y :: c).
  - left. exists (x :: a). by rewrite <- E.
  - injection E as -> E. destruct (IH c E) as [(r & -> & ->) | (r & -> & -> & Hr)];
      [left | right]; by exists r.
Qed.

(** [TCPConnection.Read] returns the first message of the stream, and leaves
    the rest of the stream behind it. *)
Lemma conn_Read_first hb bb msg rest : frame_fits hb bb -> Decode (frame hb bb) = Ret (Ok msg) ->
  forall chunks buf, buf ++ concat chunks = frame hb bb ++ rest ->
  exists buf' cs, conn_Read buf chunks = Ret (Ok msg, buf', cs) /\ buf' ++ concat cs = rest.
Proof.
  intros Hfit Hd. induction chunks as [| c cs IH]; intros buf Hb.
  - cbn [concat] in Hb. rewrite app_nil_r in Hb. subst buf. cbn [conn_Read]. rewrite Read_whole by done.
    simpl. rewrite Hd. simpl. do 2 eexists. split; [done |]. apply app_nil_r.
  - destruct (app_split_cases _ _ _ _ Hb) as [(r & -> & ->) | (r & Hf & Hrest & Hr)].
    + cbn [conn_Read]. rewrite Read_whole by done. simpl. rewrite Hd. simpl. by do 2 eexists.
    + cbn [conn_Read]. rewrite (Read_partial hb bb buf r) by done. simpl.
      apply IH. unfold PacketBuffer_Write. cbn [concat] in Hb. rewrite <- Hb.
      destruct c as [| b c]; [done |]. rewrite zlen_cons. pose proof (zlen_nonneg c).
      zcase; [by rewrite <- app_assoc | lia].
Qed.

Lemma conn_Read_eof chunks : concat chunks = [] -> conn_Read [] chunks = Ret (Err EOF, [], []).
Proof.
  induction chunks as [| c cs IH]; intros Hc; [done |]. simpl in Hc. apply app_eq_nil in Hc as [-> Hc].
  simpl. by apply IH.
Qed.

Lemma conn_reads_all ms ps : Forall sendable ms -> Forall2 (fun m p => Encode m = Ret (Ok p)) ms ps ->
  forall buf chunks, buf ++ concat chunks = concat ps ->
  exists cs, conn_reads (length ms) buf chunks = Ret (ms, [], cs) /\ concat cs = [].
Proof.
  intros Hs HF. revert Hs. induction HF as [| m p ms ps Ep HF IH]; intros Hs buf chunks Hb; simpl in Hb.
  { apply app_eq_nil in Hb as [-> Hc]. exists chunks. auto. }
  apply Forall_cons in Hs as [Hm Hs]. destruct (sendable_frame m Hm) as (hb & bb & Hfit & Ee & Hd).
  rewrite Ee in Ep. injection Ep as <-. specialize (Hd []). rewrite app_nil_r in Hd.
  destruct (conn_Read_first hb bb m (concat ps) Hfit Hd chunks buf Hb) as (buf' & cs & E & Hrest).
  cbn [length conn_reads]. rewrite E. simpl.
  destruct (IH Hs buf' cs Hrest) as (cs' & -> & Hc). by exists cs'.
Qed.

(** C24: Messages survive the byte stream.  Whatever pieces the socket delivers
    the encoded messages in (several messages in one read, a message in many
    reads, empty reads), successive calls of [Read] return exactly the messages
    sent, in order, and then the end of the stream. *)
Theorem stream_roundtrip ms ps chunks :
  Forall sendable ms -> Forall2 (fun m p => Encode m = Ret (Ok p)) ms ps ->
  concat chunks = concat ps ->
  exists cs, conn_reads (length ms) [] chunks = Ret (ms, [], cs) /\
    conn_Read [] cs = Ret (Err EOF, [], []).
Proof.
  intros Hs HF Hc. destruct (conn_reads_all ms ps Hs HF [] chunks Hc) as (cs & E & Hcs).
  exists cs. split; [done | by apply conn_Read_eof].
Qed.

End Theory.

(** ** Witnesses *)

(** Codecs for the witnesses: strings of code points, length first, and no
    compression. *)
Definition enc_string (s : string) : bytes :=
  let cs := (fun a => Z.of_N (Ascii.N_of_ascii a)) <$> String.list_ascii_of_string s in zlen cs :: cs.

Definition dec_string (b : bytes) : string * bytes :=
  match b with
  | n :: b' => (String.string_of_list_ascii ((fun z => Ascii.ascii_of_N (Z.to_N z)) <$> take (Z.to_nat n) b'),
                drop (Z.to_nat n) b')
  | [] => (String.EmptyString, [])
  end.

Definition plain_codecs : Codecs := {|
  json_marshal h := Ok (RequestID h :: CodecType h :: Compression h :: StreamFlag h ::
    enc_string (ServiceName h) ++ enc_string (MethodName h) ++ enc_string (Error h));
  json_unmarshal b :=
    match b with
    | i :: ct :: cm :: sf :: b1 =>
        let '(s, b2) := dec_string b1 in
        let '(m, b3) := dec_string b2 in
        let '(e, _) := dec_string b3 in Ok (mkHeader i s m e ct cm sf)
    | _ => Err "unexpected end of JSON input"
    end;
  gzip b := Ok b;
  gunzip b := Ok b
|}.
#[local] Existing Instance plain_codecs.

Lemma dec_enc_string s rest : dec_string (enc_string s ++ rest) = (s, rest).
Proof.
  unfold enc_string, dec_string. simpl. unfold zlen. rewrite Nat2Z.id.
  rewrite take_app_length, drop_app_length. f_equal.
  rewrite <- list_fmap_compose. rewrite <- (String.string_of_list_ascii_of_string s) at 2. f_equal.
  rewrite <- (list_fmap_id (String.list_ascii_of_string s)) at 2. apply list_fmap_ext.
  intros _ a _. simpl. by rewrite N2Z.id, Ascii.ascii_N_embedding.
Qed.

#[local] Program Instance plain_laws : CodecLaws := { header_ok _ := True }.
Next Obligation.
  intros h _. eexists. split; [done |]. cbn [json_unmarshal plain_codecs].
  rewrite <- (app_nil_r (enc_string (Error h))). rewrite !dec_enc_string. by destruct h.
Qed.
Next Obligation. intros b. by exists b. Qed.

Definition ex_msg (id : Z) : Message :=
  mkMessage (Some (mkHeader id "Echo" "Say" "" 1 CompressionGzip 0)) [104; 105; id].

Lemma ex_msg_sendable id : sendable (ex_msg id).
Proof.
  constructor. eexists. split; [done |]. split; [done |]. split; [by right |].
  intros hb bb [= <-] [= <-]. by vm_compute.
Qed.

Lemma encode_decode_roundtrip_witness :
  exists packet, Encode (ex_msg 7) = Ret (Ok packet) /\ Decode (packet ++ [1; 2]) = Ret (Ok (ex_msg 7)).
Proof. exact (encode_decode_roundtrip (ex_msg 7) [1; 2] (ex_msg_sendable 7)). Defined.

Definition ex_packet (id : Z) : bytes :=
  match Encode (ex_msg id) with Ret (Ok p) => p | _ => [] end.

Lemma stream_roundtrip_witness :
  exists cs, conn_reads 2 [] [take 5 (ex_packet 1); []; drop 5 (ex_packet 1) ++ ex_packet 2] =
    Ret ([ex_msg 1; ex_msg 2], [], cs) /\ conn_Read [] cs = Ret (Err EOF, [], []).
Proof.
  apply (stream_roundtrip [ex_msg 1; ex_msg 2] [ex_packet 1; ex_packet 2]
    [take 5 (ex_packet 1); []; drop 5 (ex_packet 1) ++ ex_packet 2]).
  - repeat constructor; apply ex_msg_sendable.
  - repeat constructor; by vm_compute.
  - by vm_compute.
Defined.
