(* ===== verification/GoSort.v ===== *)
(** * Go's sort and hash/fnv packages, as far as the program uses them

    [sort.Search] with the binary search of the standard library, sorted lists of
    integers ([sort.Ints]), and the 32-bit FNV-1a hash. *)
From Stdlib Require Import Ascii.
From S2P Require Import Prelude.

(** ** sort.Search *)

Fixpoint search_loop (fuel : nat) (i j : Z) (f : Z -> bool) : Z :=
  match fuel with
  | 0%nat => i
  | S fuel' =>
      if i <? j then
        let h := Z.shiftr (i + j) 1 in
        if negb (f h) then search_loop fuel' (h + 1) j f else search_loop fuel' i h f
      else i
  end.

(** The interval shrinks at every step, so [n + 1] steps are enough. *)
Definition Search (n : Z) (f : Z -> bool) : Z := search_loop (S (Z.to_nat n)) 0 n f.

Lemma search_loop_spec fuel i j f :
  0 <= i <= j -> j - i < Z.of_nat fuel ->
  (forall a b, 0 <= a -> a <= b -> b < j -> f a = true -> f b = true) ->
  let r := search_loop fuel i j f in
  i <= r <= j /\ (forall k, i <= k < r -> f k = false) /\ (r < j -> f r = true).
Proof.
  revert i j. induction fuel as [| fuel IH]; intros i j Hij Hf Hm; [lia |]. cbn [search_loop].
  destruct (Z.ltb_spec i j) as [Hlt | Hge]; [| split_and!; try lia].
  rewrite Z.shiftr_div_pow2 by done. change (2 ^ 1) with 2.
  pose proof (Z.div_mod (i + j) 2 ltac:(lia)). pose proof (Z.mod_pos_bound (i + j) 2 ltac:(lia)).
  set (h := (i + j) / 2) in *. destruct (f h) eqn:E; cbn [negb].
  - destruct (IH i h) as (Hr & Hlo & Hhi); [lia | lia | intros; eapply Hm; eauto; lia |].
    split; [lia |]. split; [done |]. intros.
    destruct (decide (search_loop fuel i h f < h)); [auto |].
    by replace (search_loop fuel i h f) with h by lia.
  - destruct (IH (h + 1) j) as (Hr & Hlo & Hhi); [lia | lia | done |].
    split; [lia |]. split; [| done]. intros k Hk. destruct (decide (k <= h)); [| apply Hlo; lia].
    destruct (f k) eqn:Ek; [| done]. rewrite (Hm k h) in E by (done || lia). done.
Qed.

(** [Search] returns the least index at which a monotone predicate holds. *)
Lemma Search_spec n f : 0 <= n ->
  (forall a b, 0 <= a -> a <= b -> b < n -> f a = true -> f b = true) ->
  let r := Search n f in
  0 <= r <= n /\ (forall k, 0 <= k < r -> f k = false) /\ (r < n -> f r = true).
Proof. intros Hn Hm. apply search_loop_spec; [lia | lia | done]. Qed.

(** ** sort.Slice

    Sorting is unstable, but a list whose keys are distinct has one sorted
    permutation. *)
Lemma sorted_unique {A} (R S : relation A) l k :
  (forall x y, S x y -> ~ R y x) -> l ≡ₚ k -> StronglySorted R l -> StronglySorted S k -> l = k.
Proof.
  intros Hrs Hp Hl Hk. revert l Hp Hl. induction Hk as [| y k Hk IH Hy]; intros l Hp Hl; [by apply Permutation_nil_r |].
  destruct Hl as [| x l Hl Hx]; [by apply Permutation_nil_l in Hp |]. rewrite Forall_forall in Hx, Hy.
  assert (x = y) as ->.
  { assert (x ∈ y :: k) as Hxk by (rewrite <- Hp; by left). assert (y ∈ x :: l) as Hyl by (rewrite Hp; by left).
    apply elem_of_cons in Hxk as [? | Hxk]; [done |]. apply elem_of_cons in Hyl as [? | Hyl]; [done |].
    by destruct (Hrs y x (Hy x Hxk) (Hx y Hyl)). }
  f_equal. apply IH; [by apply Permutation_cons_inv in Hp | done].
Qed.

Lemma sort_Slice_unique {A} (R S : relation A) `{!RelDecision R, !Transitive R, !Total R} l k :
  (forall x y, S x y -> ~ R y x) -> l ≡ₚ k -> StronglySorted S k -> merge_sort R l = k.
Proof.
  intros Hrs Hp Hk. apply (sorted_unique R S); [done | by rewrite merge_sort_Permutation | | done].
  apply StronglySorted_merge_sort; apply _.
Qed.

(** ** Sorted integers *)

Definition Ints (l : list Z) : list Z := merge_sort Z.le l.

#[export] Instance Z_le_total : Total Z.le.
Proof. intros x y. lia. Qed.

Lemma Ints_sorted l : StronglySorted Z.le (Ints l).
Proof. apply StronglySorted_merge_sort; apply _. Qed.

Lemma Ints_perm l : Ints l ≡ₚ l.
Proof. apply merge_sort_Permutation. Qed.

Lemma sorted_lookup l i j x y : StronglySorted Z.le l -> (i <= j)%nat ->
  l !! i = Some x -> l !! j = Some y -> x <= y.
Proof.
  intros Hs. revert i j. induction Hs as [| z l Hs IH HF]; intros i j Hij Hi Hj; [done |].
  destruct i as [| i], j as [| j]; simpl in *; try lia; simplify_eq.
  - done.
  - rewrite Forall_forall in HF. apply HF. by eapply list_elem_of_lookup_2.
  - eapply (IH i j); eauto. lia.
Qed.

Lemma sorted_filter (P : Z -> Prop) `{!forall x, Decision (P x)} l :
  StronglySorted Z.le l -> StronglySorted Z.le (filter P l).
Proof.
  induction 1 as [| z l Hs IH HF]; [constructor |]. rewrite filter_cons. case_decide; [| done].
  constructor; [done |]. apply Forall_forall. intros x [_ Hx]%list_elem_of_filter.
  rewrite Forall_forall in HF. by apply HF.
Qed.

Lemma filter_none {A} (P : A -> Prop) `{!forall x, Decision (P x)} (l : list A) :
  Forall (fun x => ~ P x) l -> filter P l = [].
Proof. induction 1 as [| x l Hx HF IH]; [done |]. by rewrite filter_cons_False. Qed.

(** The first element at or above [h], searched for in a sorted list. *)
Definition lower_bound (l : list Z) (h : Z) : Z :=
  Search (zlen l) (fun i => match zlookup l i with Some k => h <=? k | None => false end).

Lemma lower_bound_spec l h : StronglySorted Z.le l ->
  0 <= lower_bound l h <= zlen l /\
  l !! Z.to_nat (lower_bound l h) = head (filter (fun k => h <= k) l).
Proof.
  intros Hs. unfold lower_bound.
  destruct (Search_spec (zlen l) (fun i => match zlookup l i with Some k => h <=? k | None => false end))
    as (Hr & Hlo & Hhi).
  { apply zlen_nonneg. }
  { intros a b Ha Hab Hb. destruct (zlookup_is_Some l a) as [x Hx]; [lia |].
    destruct (zlookup_is_Some l b) as [y Hy]; [lia |]. rewrite Hx, Hy.
    unfold zlookup in Hx, Hy. zcase_in Hx; [done |]. zcase_in Hy; [done |].
    pose proof (sorted_lookup l (Z.to_nat a) (Z.to_nat b) x y Hs ltac:(lia) Hx Hy). lia. }
  set (r := Search _ _) in *. split; [done |].
  assert (filter (fun k => h <= k) l = filter (fun k => h <= k) (drop (Z.to_nat r) l)) as ->.
  { rewrite <- (take_drop (Z.to_nat r) l) at 1. rewrite filter_app.
    assert (filter (fun k => h <= k) (take (Z.to_nat r) l) = []) as ->; [| done].
    apply filter_none, Forall_lookup. intros i x Hi. apply lookup_take_Some in Hi as [Hi Hlt].
    specialize (Hlo (Z.of_nat i) ltac:(lia)). unfold zlookup in Hlo. rewrite Nat2Z.id, Hi in Hlo.
    zcase_in Hlo; lia. }
  destruct (l !! Z.to_nat r) as [k |] eqn:E.
  - rewrite (drop_S _ _ _ E). specialize (Hhi ltac:(apply lookup_lt_Some in E; unfold zlen; lia)).
    unfold zlookup in Hhi. zcase_in Hhi; [lia |]. rewrite E in Hhi.
    rewrite filter_cons_True by lia. done.
  - apply lookup_ge_None in E. by rewrite drop_ge.
Qed.

(** ** hash/fnv

    [fnv.New32a], the 32-bit FNV-1a hash, and the bytes of a string. *)

(** The sum after the bytes [l] have been written to a new hash. *)
Definition Sum32a (l : bytes) : Z := foldl (fun h c => u32 (Z.lxor h c * 16777619)) 2166136261 l.

Definition string_bytes (s : string) : bytes := (fun c => Z.of_N (N_of_ascii c)) <$> String.list_ascii_of_string s.

Lemma Sum32a_range l : 0 <= Sum32a l < 4294967296.
Proof.
  unfold Sum32a. induction l as [| c l _] using rev_ind; [cbn; lia |]. rewrite foldl_snoc. apply u32_range.
Qed.
