(* ===== verification/GoStrings.v ===== *)
(** * Go's strings and strconv packages, as far as the program uses them

    [strings.HasPrefix], [HasSuffix], [TrimSuffix], [Contains], [Split], [Join],
    [ReplaceAll], [ToLower], [TrimSpace], [strconv.Atoi] and [ParseUint], with the
    lemmas that decimal numerals read back and that joining splits back. *)
From stdpp Require Import pretty.
From Stdlib Require Import Ascii.
From S2P Require Import Prelude.

(** [strings.HasSuffix] and [strings.TrimSuffix]. *)
Fixpoint HasSuffix (s suffix : string) : bool :=
  bool_decide (s = suffix) || match s with String _ s' => HasSuffix s' suffix | EmptyString => false end.

Lemma length_append (a b : string) : String.length (a +:+ b) = (String.length a + String.length b)%nat.
Proof. induction a; simpl; [done | by f_equal]. Qed.

Lemma append_inj_r (s s' t : string) : s +:+ t = s' +:+ t -> s = s'.
Proof.
  revert s'. induction s as [| c s IH]; intros [| c' s'] H; simpl in *; [done | .. | injection H as -> H; f_equal; auto];
    apply (f_equal String.length) in H; simpl in H; rewrite !length_append in H; simpl in H; lia.
Qed.

(** [strings.Contains]. *)
Fixpoint Contains (s substr : string) : bool :=
  String.prefix substr s || match s with String _ s' => Contains s' substr | EmptyString => false end.

Definition TrimSuffix (s suffix : string) : string :=
  if HasSuffix s suffix then String.substring 0 (String.length s - String.length suffix) s else s.

(** [strings.Split] on a separator of one character. *)
Fixpoint Split (sep : ascii) (s : string) : list string :=
  match s with
  | EmptyString => [EmptyString]
  | String c s' =>
      if decide (c = sep) then EmptyString :: Split sep s'
      else match Split sep s' with
        | part :: parts => String c part :: parts
        | [] => [String c EmptyString]
        end
  end.

(** [strings.ReplaceAll(s, old, "")] for a non-empty [old]; [skip] counts the
    characters of a match that are still to be left out. *)
Fixpoint erase (old : string) (skip : nat) (s : string) : string :=
  match s with
  | EmptyString => EmptyString
  | String c s' =>
      match skip with
      | S k => erase old k s'
      | O => if String.prefix old s then erase old (String.length old - 1) s' else String c (erase old 0 s')
      end
  end.

Definition ReplaceAll_empty (s old : string) : string := erase old 0 s.

(** [strconv.Atoi]: the value, and whether there was no error.  A syntax error
    gives 0, a number out of range the nearest [int]. *)
Definition digit (c : ascii) : option Z :=
  let n := Z.of_N (N_of_ascii c) - 48 in
  if (0 <=? n) && (n <=? 9) then Some n else None.

Fixpoint digits (acc : Z) (s : string) : option Z :=
  match s with
  | EmptyString => Some acc
  | String c s' => d ← digit c; digits (acc * 10 + d) s'
  end.

Definition clamp (x : Z) : Z * bool :=
  if x <? -9223372036854775808 then (-9223372036854775808, false)
  else if 9223372036854775807 <? x then (9223372036854775807, false) else (x, true).

Definition unsigned (s : string) : option Z :=
  match s with EmptyString => None | _ => digits 0 s end.

Definition Atoi (s : string) : Z * bool :=
  match s with
  | String "-"%char s' => match unsigned s' with Some n => clamp (- n) | None => (0, false) end
  | String "+"%char s' => match unsigned s' with Some n => clamp n | None => (0, false) end
  | _ => match unsigned s with Some n => clamp n | None => (0, false) end
  end.

(** ** Numbers read back *)

(** Every character is a digit. *)
Fixpoint all_digits (s : string) : Prop :=
  match s with EmptyString => True | String c s' => digit c <> None /\ all_digits s' end.

Lemma digit_pretty n : (n < 10)%N -> digit (pretty_N_char n) = Some (Z.of_N n).
Proof.
  intros Hn. assert (Forall (fun k => digit (pretty_N_char (N.of_nat k)) = Some (Z.of_nat k)) (seq 0 10)) as HF by (by repeat constructor).
  rewrite Forall_forall in HF. specialize (HF (N.to_nat n)). rewrite N2Nat.id, N_nat_Z in HF. apply HF, elem_of_seq. lia.
Qed.

Lemma digits_pretty_go x s : digits 0 (pretty_N_go x s) = digits (Z.of_N x) s.
Proof.
  revert s. induction (N.lt_wf_0 x) as [x _ IH]; intros s.
  destruct (decide (x = 0%N)) as [-> | Hx]; [done |].
  rewrite pretty_N_go_step by lia. rewrite IH by (apply N.div_lt; lia). cbn [digits].
  assert (x `mod` 10 < 10)%N by (apply N.mod_lt; done).
  rewrite digit_pretty by done. cbn [mbind option_bind]. f_equal.
  pose proof (N.div_mod x 10 ltac:(done)). lia.
Qed.

Lemma all_digits_go x s : all_digits s -> all_digits (pretty_N_go x s).
Proof.
  revert s. induction (N.lt_wf_0 x) as [x _ IH]; intros s Hs.
  destruct (decide (x = 0%N)) as [-> | Hx]; [done |].
  rewrite pretty_N_go_step by lia. apply IH; [apply N.div_lt; lia |]. split; [| done].
  rewrite digit_pretty by (apply N.mod_lt; done). done.
Qed.

(** The decimal numeral of a natural number. *)
Lemma pretty_Z_spec z : 0 <= z -> digits 0 (pretty z) = Some z /\ all_digits (pretty z) /\ pretty z <> EmptyString.
Proof.
  intros Hz. destruct z as [| p | p]; [done | | lia].
  unfold pretty, pretty_Z, pretty_positive, pretty, pretty_N. destruct (decide _); [done |].
  rewrite digits_pretty_go. split; [done |]. split; [by apply all_digits_go |].
  intros E. pose proof (digits_pretty_go (Npos p) EmptyString) as Hd. rewrite E in Hd. done.
Qed.

Lemma Atoi_digits s n : s <> EmptyString -> all_digits s -> digits 0 s = Some n -> 0 <= n < 9223372036854775808 -> Atoi s = (n, true).
Proof.
  intros Hs Hd Hn Hr. unfold Atoi. destruct s as [| c s]; [done |].
  assert (unsigned (String c s) = Some n) as -> by done.
  assert (clamp n = (n, true)) as -> by (unfold clamp; repeat zcase; [lia | lia | done]).
  destruct Hd as [Hc _]. destruct c as [[] [] [] [] [] [] [] []]; try done; by destruct Hc.
Qed.

Lemma Atoi_pretty z : 0 <= z < 9223372036854775808 -> Atoi (pretty z) = (z, true).
Proof. intros Hz. destruct (pretty_Z_spec z) as (Hd & Ha & He); [lia |]. by apply Atoi_digits. Qed.

(** ** Characters that are not digits *)

Lemma app_String c (s t : string) : String c s +:+ t = String c (s +:+ t).
Proof. done. Qed.

Lemma app_Empty (t : string) : EmptyString +:+ t = t.
Proof. done. Qed.

(** The empty string is neutral. *)
Lemma append_nil_r (s : string) : s +:+ EmptyString = s.
Proof. induction s as [| c s IH]; [done |]. rewrite app_String. by f_equal. Qed.

Lemma Split_digits s t : all_digits s -> Split "_" (s +:+ ("_" +:+ t)) = s :: Split "_" t.
Proof.
  change ("_" +:+ t) with (String "_" t).
  induction s as [| c s IH]; [done |]. intros [Hc Hs]. rewrite app_String. cbn [Split].
  destruct (decide (c = "_"%char)) as [-> |]; [by destruct Hc |]. by rewrite IH.
Qed.

Lemma Split_all_digits s : all_digits s -> Split "_" s = [s].
Proof.
  induction s as [| c s IH]; [done |]. intros [Hc Hs]. cbn [Split].
  destruct (decide (c = "_"%char)) as [-> |]; [by destruct Hc |]. by rewrite IH.
Qed.

(** Erasing leaves digits and underscores alone up to the suffix. *)
Definition plain (c : ascii) : Prop := c <> "."%char.

Fixpoint all_plain (s : string) : Prop :=
  match s with EmptyString => True | String c s' => plain c /\ all_plain s' end.

Lemma digits_plain s : all_digits s -> all_plain s.
Proof. induction s as [| c s IH]; [done |]. intros [Hc Hs]. split; [| auto]. intros ->. by destruct Hc. Qed.

Lemma all_plain_app s t : all_plain s -> all_plain t -> all_plain (s +:+ t).
Proof. induction s as [| c s IH]; [done |]. intros [Hc Hs] Ht. split; [done | by apply IH]. Qed.

Lemma erase_skip old s : erase old (String.length s) s = EmptyString.
Proof. induction s as [| c s IH]; [done | exact IH]. Qed.

Lemma erase_plain old s : all_plain s -> String.prefix "." old = true -> (String.length old > 0)%nat ->
  ReplaceAll_empty (s +:+ old) old = s.
Proof.
  intros Hs Hp Hl. unfold ReplaceAll_empty. destruct old as [| o old]; [done |].
  assert (o = "."%char) as -> by (cbn [String.prefix] in Hp; by destruct (ascii_dec "." o)).
  induction s as [| c s IH]; rewrite ?app_Empty, ?app_String; cbn [erase].
  - assert (String.prefix (String "." old) (String "." old) = true) as ->.
    { generalize (String "." old). intros s. induction s as [| c s IH]; [done |]. simpl. by destruct (ascii_dec c c). }
    cbn [String.length]. rewrite Nat.sub_succ, Nat.sub_0_r. apply erase_skip.
  - destruct Hs as [Hc Hs]. cbn [String.prefix]. destruct (ascii_dec "." c); [by destruct Hc |]. by rewrite IH.
Qed.

Lemma HasSuffix_app s suf : HasSuffix (s +:+ suf) suf = true.
Proof.
  induction s as [| c s IH]; rewrite ?app_Empty, ?app_String.
  - destruct suf; cbn [HasSuffix]; by rewrite bool_decide_eq_true_2.
  - cbn [HasSuffix]. rewrite IH. apply orb_true_r.
Qed.

Lemma substring_app s t : String.substring 0 (String.length s) (s +:+ t) = s.
Proof. induction s as [| c s IH]; [by destruct t |]. rewrite app_String. simpl. by rewrite IH. Qed.

Lemma string_length_app s t : String.length (s +:+ t) = (String.length s + String.length t)%nat.
Proof. induction s as [| c s IH]; [done |]. rewrite app_String. simpl. by rewrite IH. Qed.

Lemma TrimSuffix_app s suf : TrimSuffix (s +:+ suf) suf = s.
Proof.
  unfold TrimSuffix. rewrite HasSuffix_app, string_length_app. rewrite Nat.add_sub. apply substring_app.
Qed.

Lemma string_app_assoc (a b c : string) : (a +:+ b) +:+ c = a +:+ (b +:+ c).
Proof. induction a as [| x a IH]; [done |]. rewrite !app_String. by rewrite IH. Qed.

(** ** strings.Join *)

Fixpoint Join (sep : string) (parts : list string) : string :=
  match parts with
  | [] => EmptyString
  | [p] => p
  | p :: parts' => p +:+ sep +:+ Join sep parts'
  end.

(** [s[1:]] of a non-empty string. *)
Definition tail_string (s : string) : string := match s with String _ s' => s' | EmptyString => EmptyString end.

(** A string without a character. *)
Fixpoint lacks (sep : ascii) (s : string) : Prop :=
  match s with EmptyString => True | String c s' => c <> sep /\ lacks sep s' end.

Lemma Split_lacks sep s : lacks sep s -> Split sep s = [s].
Proof. induction s as [| c s IH]; [done |]. intros [Hc Hs]. cbn [Split]. rewrite decide_False by done. by rewrite IH. Qed.

Lemma Split_app sep s t : lacks sep s -> Split sep (s +:+ String sep t) = s :: Split sep t.
Proof.
  induction s as [| c s IH]; intros Hs.
  - rewrite app_Empty. cbn [Split]. by rewrite decide_True.
  - destruct Hs as [Hc Hs]. rewrite app_String. cbn [Split]. rewrite decide_False by done. by rewrite IH.
Qed.

(** Splitting what was joined. *)
Lemma Split_Join sep parts : Forall (lacks sep) parts -> parts <> [] -> Split sep (Join (String sep EmptyString) parts) = parts.
Proof.
  induction 1 as [| p parts Hp HF IH]; intros Hne; [done |]. destruct parts as [| q parts]; [by apply Split_lacks |].
  change (Join _ (p :: q :: parts)) with (p +:+ (String sep EmptyString +:+ Join (String sep EmptyString) (q :: parts))).
  rewrite app_String, app_Empty, Split_app by done. by rewrite IH.
Qed.

(** Every part of a split lacks the separator. *)
Lemma Split_parts sep s : Forall (lacks sep) (Split sep s).
Proof.
  induction s as [| c s IH]; cbn [Split]; [repeat constructor |].
  destruct (decide (c = sep)); [by constructor |]. destruct IH as [| p parts Hp HF]; [repeat constructor; done |]. by constructor.
Qed.

(** ** Unsigned numbers *)

(** [strconv.ParseUint(s, 10, 64)]. *)
Definition ParseUint (s : string) : result string Z :=
  match s with
  | EmptyString => Err "invalid syntax"
  | _ =>
      match digits 0 s with
      | None => Err "invalid syntax"
      | Some n => if n <? 18446744073709551616 then Ok n else Err "value out of range"
      end
  end.

Lemma ParseUint_pretty n : 0 <= n < 18446744073709551616 -> ParseUint (pretty n) = Ok n.
Proof.
  intros Hn. destruct (pretty_Z_spec n) as (Hd & _ & Hne); [lia |]. unfold ParseUint. rewrite Hd.
  destruct (pretty n); [done |]. zcase; [done | lia].
Qed.

(** ** Case, spaces and replacement

    [strings.ToLower], [strings.EqualFold] and [strings.TrimSpace] on strings of ASCII;
    [strings.ReplaceAll] of a string of one byte. *)

Definition ascii_lower (c : ascii) : ascii :=
  let n := nat_of_ascii c in if (65 <=? n)%nat && (n <=? 90)%nat then ascii_of_nat (n + 32) else c.

Fixpoint ToLower (s : string) : string :=
  match s with EmptyString => EmptyString | String c s => String (ascii_lower c) (ToLower s) end.

Definition EqualFold (s t : string) : bool := bool_decide (ToLower s = ToLower t).

Definition ascii_space (c : ascii) : bool :=
  let n := nat_of_ascii c in ((9 <=? n)%nat && (n <=? 13)%nat) || (n =? 32)%nat.

Fixpoint TrimLeft (s : string) : string :=
  match s with
  | String c s' => if ascii_space c then TrimLeft s' else s
  | EmptyString => EmptyString
  end.

Fixpoint TrimRight (s : string) : string :=
  match s with
  | String c s' => match TrimRight s' with
                   | EmptyString => if ascii_space c then EmptyString else String c EmptyString
                   | t => String c t
                   end
  | EmptyString => EmptyString
  end.

Definition TrimSpace (s : string) : string := TrimRight (TrimLeft s).

Fixpoint ReplaceByte (old : ascii) (new s : string) : string :=
  match s with
  | EmptyString => EmptyString
  | String c s => if decide (c = old) then new +:+ ReplaceByte old new s else String c (ReplaceByte old new s)
  end.
