(* ===== verification/SkipCore.v ===== *)
(** * Skip lists

    The linked structure that [components/lsm_tree/memtable/skiplist.go] and
    [components/consistent_hash/local/hash_ring.go] share: nodes with a tower of
    pointers, a head without a key, the search from the top level down and the
    linking and unlinking of a node.  The nodes are in a heap and point to each
    other by their address in it; address 0 is the head.  Keys are of any type with a
    strict total order. *)
From S2P Require Import Prelude.

Class SkipOrder (K : Type) := klt : K -> K -> bool.

Class SkipOrderLaws (K : Type) `{SkipOrder K} := {
  klt_irrefl k : klt k k = false;
  klt_trans a b c : klt a b = true -> klt b c = true -> klt a c = true;
  klt_cases a b : klt a b = true \/ a = b \/ klt b a = true
}.

Notation "a ⊏ b" := (klt a b = true) (at level 70).

Record skipNode (K V : Type) := mkSkipNode { sn_nexts : list (option nat); sn_key : K; sn_value : V }.
Arguments mkSkipNode {K V} _ _ _.
Arguments sn_nexts {K V} _.
Arguments sn_key {K V} _.
Arguments sn_value {K V} _.

Section skip.
Context {K V : Type} {Keq : EqDecision K} {Kinh : Inhabited K} {Vinh : Inhabited V} {Kord : SkipOrder K}.

#[local] Abbreviation heap := (list (skipNode K V)).

(** Dereferencing an address; the heap holds every address in use. *)
Definition deref (h : heap) (i : nat) : outcome (skipNode K V) :=
  match h !! i with Some n => Ret n | None => Panic "invalid memory address" end.

(** [move.nexts[level]] *)
Definition next (h : heap) (i : nat) (level : nat) : outcome (option nat) :=
  n ← deref h i;
  go_index (sn_nexts n) (Z.of_nat level).

(** [move.nexts[level] = j] *)
Definition set_next (h : heap) (i : nat) (level : nat) (j : option nat) : outcome heap :=
  n ← deref h i;
  _ ← go_index (sn_nexts n) (Z.of_nat level);
  Ret (<[i := mkSkipNode (<[level := j]> (sn_nexts n)) (sn_key n) (sn_value n)]> h).

(** The inner loop: move right while the next node has a key in [P].  Every step
    visits another node, so the size of the heap bounds the steps. *)
Fixpoint walk (fuel : nat) (h : heap) (move level : nat) (P : K -> bool) : outcome nat :=
  match fuel with
  | O => Panic "fuel"
  | S fuel' =>
      nx ← next h move level;
      match nx with
      | None => Ret move
      | Some j => n ← deref h j;
                  if P (sn_key n) then walk fuel' h j level P else Ret move
      end
  end.

(** The search of a key from the level below [levels] down: every level is walked
    to the last smaller key, and the search ends when the next key is the one. *)
Fixpoint getNode_loop (h : heap) (levels : nat) (move : nat) (key : K) : outcome (option nat) :=
  match levels with
  | O => Ret None
  | S level =>
      move ← walk (S (length h)) h move level (fun k => klt k key);
      nx ← next h move level;
      match nx with
      | None => getNode_loop h level move key
      | Some j => n ← deref h j;
                  if decide (sn_key n = key) then Ret (Some j) else getNode_loop h level move key
      end
  end.

Definition getNode (h : heap) (key : K) : outcome (option nat) :=
  hd ← deref h 0;
  getNode_loop h (length (sn_nexts hd)) 0 key.

(** The walk through all levels, without a test for the key. *)
Fixpoint descend (h : heap) (levels : nat) (move : nat) (P : K -> bool) : outcome nat :=
  match levels with
  | O => Ret move
  | S level =>
      move ← walk (S (length h)) h move level P;
      descend h level move P
  end.

(** The loop that links [new], from the level below [levels] down. *)
Fixpoint link_loop (h : heap) (levels : nat) (move new : nat) (key : K) : outcome heap :=
  match levels with
  | O => Ret h
  | S level =>
      move ← walk (S (length h)) h move level (fun k => klt k key);
      nx ← next h move level;
      h ← set_next h new level nx;
      h ← set_next h move level (Some new);
      link_loop h level move new key
  end.

(** The loop that takes the node of [key] out. *)
Fixpoint unlink_loop (h : heap) (levels : nat) (move : nat) (key : K) : outcome heap :=
  match levels with
  | O => Ret h
  | S level =>
      move ← walk (S (length h)) h move level (fun k => klt k key);
      nx ← next h move level;
      match nx with
      | None => unlink_loop h level move key
      | Some j =>
          n ← deref h j;
          if klt key (sn_key n) then unlink_loop h level move key
          else
            nx ← next h j level;
            h ← set_next h move level nx;
            unlink_loop h level move key
      end
  end.

(** ** Shape of the heap

    Keys, values and heights of nodes, which linking does not change, and the
    pointers of one level. *)

Definition shape (n : skipNode K V) : nat * K * V := (length (sn_nexts n), sn_key n, sn_value n).
Definition shapes (h : heap) : list (nat * K * V) := shape <$> h.

Definition shape_of (h : heap) (i : nat) : nat * K * V := default (0%nat, inhabitant, inhabitant) (shapes h !! i).
Definition height (h : heap) (i : nat) : nat := (shape_of h i).1.1.
Definition keyof (h : heap) (i : nat) : K := (shape_of h i).1.2.
Definition valof (h : heap) (i : nat) : V := (shape_of h i).2.
Definition nexts_at (h : heap) (i l : nat) : option (option nat) := n ← h !! i; sn_nexts n !! l.

Definition content (h : heap) (L : list nat) : list (K * V) := (fun i => (keyof h i, valof h i)) <$> L.

(** The first node of [p] that reaches level [l], or else [o]. *)
Fixpoint first_tall (h : heap) (l : nat) (p : list nat) (o : option nat) : option nat :=
  match p with
  | [] => o
  | i :: q => if (l <? height h i)%nat then Some i else first_tall h l q o
  end.

(** The pointers of level [l] of the nodes [p], followed by [o], link each node
    that reaches the level to the next one that does. *)
Fixpoint linked (h : heap) (l : nat) (p : list nat) (o : option nat) : Prop :=
  match p with
  | [] => True
  | i :: q => ((l < height h i)%nat -> nexts_at h i l = Some (first_tall h l q o)) /\ linked h l q o
  end.

Lemma shape_of_Some (h : heap) i n : h !! i = Some n -> shape_of h i = shape n.
Proof. intros E. unfold shape_of, shapes. by rewrite list_lookup_fmap, E. Qed.

Lemma height_Some (h : heap) i : (0 < height h i)%nat -> exists n, h !! i = Some n.
Proof.
  unfold height, shape_of, shapes. rewrite list_lookup_fmap. destruct (h !! i); [eauto | simpl; lia].
Qed.

Lemma deref_tall (h : heap) i l : (l < height h i)%nat ->
  exists n, h !! i = Some n /\ deref h i = Ret n /\ sn_key n = keyof h i /\ sn_value n = valof h i.
Proof.
  intros Hl. destruct (height_Some h i) as [n E]; [lia |]. exists n. unfold deref, keyof, valof.
  by rewrite E, (shape_of_Some _ _ _ E).
Qed.

Lemma next_spec (h : heap) i l j : nexts_at h i l = Some j -> next h i l = Ret j.
Proof.
  unfold nexts_at, next, deref. destruct (h !! i) as [n |]; [| done]. simpl. intros E.
  apply go_index_Some. unfold zlookup. destruct (Z.ltb_spec (Z.of_nat l) 0); [lia |]. by rewrite Nat2Z.id.
Qed.

Lemma shapes_insert (h : heap) i n n' : h !! i = Some n -> shape n' = shape n -> shapes (<[i := n']> h) = shapes h.
Proof.
  intros E Es. unfold shapes. rewrite list_fmap_insert, Es. apply list_insert_id.
  by rewrite list_lookup_fmap, E.
Qed.

Lemma set_next_spec (h : heap) i l j : (l < height h i)%nat ->
  exists h', set_next h i l j = Ret h' /\ shapes h' = shapes h /\
    nexts_at h' i l = Some j /\
    forall i' l', (i' <> i \/ l' <> l) -> nexts_at h' i' l' = nexts_at h i' l'.
Proof.
  intros Hl. destruct (deref_tall h i l Hl) as (n & En & Ed & _). unfold set_next. rewrite Ed.
  cbn [mbind outcome_bind]. unfold height in Hl. rewrite (shape_of_Some _ _ _ En) in Hl. simpl in Hl.
  destruct (lookup_lt_is_Some_2 (sn_nexts n) l Hl) as [o Eo].
  rewrite (go_index_Some _ _ o) by (unfold zlookup; destruct (Z.ltb_spec (Z.of_nat l) 0); [lia |]; by rewrite Nat2Z.id).
  cbn [mbind outcome_bind]. eexists. split; [done |]. pose proof (lookup_lt_Some _ _ _ En).
  split; [| split].
  - apply (shapes_insert _ _ n); [done |]. unfold shape. simpl. by rewrite length_insert.
  - unfold nexts_at. rewrite list_lookup_insert_eq by done. simpl. by apply list_lookup_insert_eq.
  - intros i' l' Hne. unfold nexts_at. destruct (decide (i' = i)) as [-> |].
    + rewrite list_lookup_insert_eq, En by done. simpl. apply list_lookup_insert_ne. naive_solver.
    + by rewrite list_lookup_insert_ne.
Qed.

Section SameShape.
Context (h h' : heap) (Hs : shapes h' = shapes h).

Lemma same_shape_of i : shape_of h' i = shape_of h i.
Proof. unfold shape_of. by rewrite Hs. Qed.
Lemma same_height i : height h' i = height h i.
Proof. unfold height. by rewrite same_shape_of. Qed.
Lemma same_keyof i : keyof h' i = keyof h i.
Proof. unfold keyof. by rewrite same_shape_of. Qed.
Lemma same_length : length h' = length h.
Proof. unfold shapes in Hs. apply (f_equal length) in Hs. by rewrite !length_fmap in Hs. Qed.
Lemma same_content L : content h' L = content h L.
Proof.
  unfold content. apply list_fmap_ext. intros k i _. unfold keyof, valof. by rewrite same_shape_of.
Qed.
End SameShape.

(** Only which nodes reach the level matters to [first_tall], and its pointers to
    [linked]. *)
Lemma first_tall_reach (h h' : heap) l p o : (forall i, i ∈ p -> (l < height h' i <-> l < height h i)%nat) ->
  first_tall h' l p o = first_tall h l p o.
Proof.
  induction p as [| i q IH]; simpl; intros H; [done |].
  rewrite IH by (intros j Hj; apply H; by right). specialize (H i ltac:(by left)).
  destruct (Nat.ltb_spec l (height h' i)), (Nat.ltb_spec l (height h i)); done || lia.
Qed.

Lemma linked_reach (h h' : heap) l p o : (forall i, i ∈ p -> (l < height h' i <-> l < height h i)%nat) ->
  (forall i, i ∈ p -> (l < height h i)%nat -> nexts_at h' i l = nexts_at h i l) -> linked h l p o -> linked h' l p o.
Proof.
  induction p as [| i q IH]; simpl; intros Hh Hn; [done |]. intros [H1 H2]. split.
  - intros Hl. apply Hh in Hl; [| by left]. rewrite Hn, H1 by (done || by left). f_equal. symmetry.
    apply first_tall_reach. intros j Hj. apply Hh. by right.
  - apply IH; [intros j Hj; apply Hh; by right | intros j Hj; apply Hn; by right | done].
Qed.

Lemma first_tall_ext (h h' : heap) l p o : (forall i, i ∈ p -> height h' i = height h i) ->
  first_tall h' l p o = first_tall h l p o.
Proof. intros H. apply first_tall_reach. intros i Hi. by rewrite H. Qed.

Lemma linked_ext (h h' : heap) l p o : (forall i, i ∈ p -> height h' i = height h i) ->
  (forall i, i ∈ p -> nexts_at h' i l = nexts_at h i l) -> linked h l p o -> linked h' l p o.
Proof. intros Hh Hn. apply linked_reach; [intros i Hi; by rewrite Hh | auto]. Qed.

Lemma first_tall_app (h : heap) l p q o : first_tall h l (p ++ q) o = first_tall h l p (first_tall h l q o).
Proof. induction p as [| i p IH]; simpl; [done |]. by rewrite IH. Qed.

Lemma linked_app (h : heap) l p q o : linked h l (p ++ q) o <-> linked h l p (first_tall h l q o) /\ linked h l q o.
Proof. induction p as [| i p IH]; simpl; [tauto |]. rewrite IH, first_tall_app. tauto. Qed.

Lemma first_tall_None (h : heap) l p : first_tall h l p None = None -> Forall (fun i => (height h i <= l)%nat) p.
Proof.
  induction p as [| i p IH]; simpl; [constructor |]. destruct (Nat.ltb_spec l (height h i)); [done |].
  intros E. constructor; [lia | auto].
Qed.

Lemma first_tall_Some (h : heap) l p j : first_tall h l p None = Some j ->
  exists q r, p = q ++ j :: r /\ Forall (fun i => (height h i <= l)%nat) q /\ (l < height h j)%nat.
Proof.
  induction p as [| i p IH]; simpl; [done |]. destruct (Nat.ltb_spec l (height h i)).
  - intros [= ->]. by exists [], p.
  - intros (q & r & -> & Hq & Hj)%IH. exists (i :: q), r. split; [done |]. split; [by constructor; [lia |] | done].
Qed.

Lemma first_tall_low (h : heap) l p o : Forall (fun i => (height h i <= l)%nat) p -> first_tall h l p o = o.
Proof. induction 1 as [| i p Hi H IH]; simpl; [done |]. destruct (Nat.ltb_spec l (height h i)); [lia | done]. Qed.

Lemma linked_low (h : heap) l p o : Forall (fun i => (height h i <= l)%nat) p -> linked h l p o.
Proof. induction 1 as [| i p Hi H IH]; simpl; [done |]. split; [lia | done]. Qed.

(** ** Searching *)

Context {Klaws : SkipOrderLaws K}.

Lemma klt_asym a b : a ⊏ b -> b ⊏ a -> False.
Proof. intros H1 H2. pose proof (klt_trans _ _ _ H1 H2). by rewrite klt_irrefl in H. Qed.

Lemma klt_ge a b : klt a b = false -> a = b \/ b ⊏ a.
Proof. destruct (klt_cases a b) as [E | ?]; [congruence | done]. Qed.

Definition ordered (h : heap) (L : list nat) : Prop :=
  StronglySorted (fun i j => keyof h i ⊏ keyof h j) L.

Lemma ordered_ext (h h' : heap) L : (forall i, i ∈ L -> keyof h' i = keyof h i) -> ordered h L -> ordered h' L.
Proof.
  intros H Ho. induction Ho as [| i L Ho IH Hi]; [constructor |]. constructor.
  - apply IH. intros j Hj. apply H. by right.
  - rewrite Forall_forall in *. intros j Hj. rewrite !H by (by constructor). auto.
Qed.

(** A walk is over a set of keys that holds every key below one it holds. *)
Definition closed (P : K -> bool) : Prop := forall a b, a ⊏ b -> P b = true -> P a = true.

Lemma closed_below key : closed (fun k => klt k key).
Proof. intros a b Hab Hb. by eapply klt_trans. Qed.

Lemma closed_all : closed (fun _ => true).
Proof. done. Qed.

(** [m] is the head or has a key in [P]. *)
Definition below (h : heap) (P : K -> bool) (m : nat) : Prop := m = 0%nat \/ P (keyof h m) = true.

(** Where [walk] stops: at a node in [P], whose next node at the level is not. *)
Record stop (h : heap) (l : nat) (L : list nat) (P : K -> bool) (pre : list nat) (m : nat) (post : list nat) : Prop := {
  st_split : 0%nat :: L = pre ++ m :: post;
  st_tall : (l < height h m)%nat;
  st_below : below h P m;
  st_next : nexts_at h m l = Some (first_tall h l post None);
  st_above j : first_tall h l post None = Some j -> P (keyof h j) = false
}.

Lemma walk_spec (h : heap) l L P fuel pre m post :
  linked h l (0%nat :: L) None -> 0%nat :: L = pre ++ m :: post ->
  (l < height h m)%nat -> below h P m -> (length post < fuel)%nat ->
  exists pre' m' post', walk fuel h m l P = Ret m' /\ stop h l L P pre' m' post'.
Proof.
  intros Hl. revert pre m post. induction fuel as [| fuel IH]; intros pre m post E Hm Hb Hf; [lia |].
  assert (nexts_at h m l = Some (first_tall h l post None)) as Hn
    by (rewrite E in Hl; apply linked_app in Hl as [_ [Hn _]]; auto).
  cbn [walk]. rewrite (next_spec _ _ _ _ Hn). cbn [mbind outcome_bind].
  destruct (first_tall h l post None) as [j |] eqn:Ej; [| by exists pre, m, post; split; [| split; rewrite ?Ej]].
  destruct (first_tall_Some _ _ _ _ Ej) as (q & r & -> & _ & Hj).
  destruct (deref_tall h j l Hj) as (n & _ & Ed & Ek & _).
  rewrite Ed. cbn [mbind outcome_bind]. rewrite Ek.
  destruct (P (keyof h j)) eqn:EP.
  - apply (IH (pre ++ m :: q) j r); [by rewrite <- app_assoc | done | by right |].
    rewrite length_app in Hf. simpl in Hf. lia.
  - exists pre, m, (q ++ j :: r). split; [done |]. split; rewrite ?Ej; try done. intros j' [= <-]. done.
Qed.

Section Ok.
Context (h : heap) (L : list nat).
Context (HnoDup : NoDup (0%nat :: L)) (Ho : ordered h L).
Context (Hh : forall i, i ∈ L -> (0 < height h i)%nat).

Lemma ordered_split A i B : L = A ++ i :: B ->
  (forall a, a ∈ A -> keyof h a ⊏ keyof h i) /\ (forall b, b ∈ B -> keyof h i ⊏ keyof h b).
Proof.
  intros E. unfold ordered in Ho. rewrite E in Ho. split; intros x Hx.
  - refine (StronglySorted_app_1_elem_of (fun i j => keyof h i ⊏ keyof h j) A (i :: B) x i Ho Hx _). by left.
  - apply StronglySorted_app_1_r in Ho. inversion_clear Ho as [| ? ? _ HF]. rewrite Forall_forall in HF. auto.
Qed.

(** A stop splits the list: what is not after it is in [P]. *)
Lemma stop_split l P pre m post : closed P -> stop h l L P pre m post ->
  exists A, 0%nat :: A = pre ++ [m] /\ L = A ++ post /\ Forall (fun i => P (keyof h i) = true) A.
Proof.
  intros HP [E _ Hb _ _]. destruct pre as [| z pre]; injection E as <- E.
  { exists []. by rewrite E. }
  exists (pre ++ [m]). split; [done |]. split; [by rewrite E, <- app_assoc |].
  assert (m ∈ L) as HmL by (rewrite E; apply elem_of_app; right; by left).
  assert (P (keyof h m) = true) as Hm.
  { destruct Hb as [-> | Hb]; [| done]. apply NoDup_cons in HnoDup as [Hn _]. done. }
  apply Forall_app. split; [| by constructor].
  apply Forall_forall. intros a Ha. destruct (ordered_split _ _ _ E) as [H1 _].
  exact (HP _ _ (H1 a Ha) Hm).
Qed.

(** At the bottom level what is after it is not in [P]. *)
Lemma stop_bottom P pre m post : closed P -> stop h 0 L P pre m post ->
  Forall (fun i => P (keyof h i) = false) post.
Proof.
  intros HP Hst. destruct (stop_split _ _ _ _ _ HP Hst) as (A & _ & E & _). destruct Hst as [_ _ _ _ Ha].
  destruct post as [| j post]; [constructor |].
  assert (P (keyof h j) = false) as Hj.
  { apply Ha. simpl. assert (0 < height h j)%nat by (apply Hh; rewrite E; apply elem_of_app; right; by left).
    destruct (Nat.ltb_spec 0 (height h j)); [done | lia]. }
  destruct (ordered_split _ _ _ E) as [_ H2]. constructor; [done |].
  apply Forall_forall. intros b Hb. destruct (P (keyof h b)) eqn:EP; [| done].
  rewrite (HP _ _ (H2 b Hb) EP) in Hj. done.
Qed.

Lemma getNode_loop_spec key levels pre m post :
  (forall l, (l < levels)%nat -> linked h l (0%nat :: L) None) ->
  0%nat :: L = pre ++ m :: post -> (levels <= height h m)%nat -> below h (fun k => klt k key) m -> (length L < length h)%nat ->
  exists r, getNode_loop h levels m key = Ret r /\
    match r with
    | Some j => j ∈ L /\ keyof h j = key
    | None => levels = 0%nat \/ forall i, i ∈ L -> keyof h i <> key
    end.
Proof.
  revert pre m post. induction levels as [| level IH]; intros pre m post Hl E Hm Hb Hf; cbn [getNode_loop].
  { exists None. auto. }
  assert (length post <= length L)%nat as Hp.
  { apply (f_equal length) in E. rewrite length_app in E. simpl in E. lia. }
  destruct (walk_spec h level L (fun k => klt k key) (S (length h)) pre m post) as (pre' & m' & post' & -> & Hst);
    [by apply Hl; lia | done | lia | done | lia |].
  cbn [mbind outcome_bind]. rewrite (next_spec _ _ _ _ (st_next _ _ _ _ _ _ _ Hst)). cbn [mbind outcome_bind].
  assert (exists r, getNode_loop h level m' key = Ret r /\
    match r with
    | Some j => j ∈ L /\ keyof h j = key
    | None => level = 0%nat \/ forall i, i ∈ L -> keyof h i <> key
    end) as (r & Er & Hr).
  { apply (IH pre' m' post'); [| by apply Hst | | by apply Hst | done].
    - intros l Hl'. apply Hl. lia.
    - pose proof (st_tall _ _ _ _ _ _ _ Hst). lia. }
  destruct (stop_split _ _ _ _ _ (closed_below key) Hst) as (A & _ & EL & HA).
  assert (forall i, i ∈ post' -> i ∈ L) as Hpost by (intros i Hi; rewrite EL; apply elem_of_app; by right).
  assert (level = 0%nat -> (forall j, first_tall h level post' None = Some j -> keyof h j <> key) ->
          forall i, i ∈ L -> keyof h i <> key) as Hmiss.
  { intros -> Hne i Hi Hik. rewrite EL in Hi. apply elem_of_app in Hi as [Hi | Hi].
    - rewrite Forall_forall in HA. specialize (HA i Hi). cbn in HA. rewrite Hik, klt_irrefl in HA. done.
    - pose proof (stop_bottom _ pre' m' post' (closed_below key) Hst) as HF.
      destruct post' as [| j post']; [by apply not_elem_of_nil in Hi |].
      assert (keyof h j <> key) as Hj.
      { apply Hne. simpl. assert (0 < height h j)%nat by (apply Hh, Hpost; by left).
        destruct (Nat.ltb_spec 0 (height h j)); [done | lia]. }
      apply elem_of_cons in Hi as [-> | Hi]; [done |].
      destruct (ordered_split _ _ _ EL) as [_ H2]. specialize (H2 i Hi). rewrite Hik in H2.
      inversion_clear HF. congruence. }
  destruct (first_tall h level post' None) as [j |] eqn:Ej.
  - destruct (first_tall_Some _ _ _ _ Ej) as (q & r' & Eq & _ & Hj).
    destruct (deref_tall h j level Hj) as (n & _ & Ed & Ek & _).
    rewrite Ed. cbn [mbind outcome_bind]. rewrite Ek.
    destruct (decide (keyof h j = key)) as [Hjk | Hjk].
    + exists (Some j). split; [done |]. split; [| done]. apply Hpost. rewrite Eq. apply elem_of_app. right. by left.
    + exists r. split; [done |]. destruct r as [i |]; [done |]. right.
      destruct Hr as [-> | Hr]; [| done]. apply Hmiss; [done |]. by intros j' [= <-].
  - exists r. split; [done |]. destruct r as [i |]; [done |]. right.
    destruct Hr as [-> | Hr]; [| done]. by apply Hmiss.
Qed.

(** The walk through all levels ends with a stop at the bottom level. *)
Lemma descend_spec P levels pre m post :
  (forall l, (l < S levels)%nat -> linked h l (0%nat :: L) None) ->
  0%nat :: L = pre ++ m :: post -> (S levels <= height h m)%nat -> below h P m -> (length L < length h)%nat ->
  exists pre' m' post', descend h (S levels) m P = Ret m' /\ stop h 0 L P pre' m' post'.
Proof.
  revert pre m post. induction levels as [| level IH]; intros pre m post Hl E Hm Hb Hf.
  - assert (length post <= length L)%nat as Hp by (apply (f_equal length) in E; rewrite length_app in E; simpl in E; lia).
    destruct (walk_spec h 0 L P (S (length h)) pre m post) as (pre' & m' & post' & Ew & Hst);
      [by apply Hl; lia | done | lia | done | lia |].
    exists pre', m', post'. cbn [descend]. rewrite Ew. done.
  - assert (length post <= length L)%nat as Hp by (apply (f_equal length) in E; rewrite length_app in E; simpl in E; lia).
    destruct (walk_spec h (S level) L P (S (length h)) pre m post) as (pre' & m' & post' & Ew & Hst);
      [by apply Hl; lia | done | lia | done | lia |].
    change (descend h (S (S level)) m P) with (move ← walk (S (length h)) h m (S level) P; descend h (S level) move P).
    rewrite Ew. cbn [mbind outcome_bind]. apply (IH pre' m' post'); [| apply Hst | | apply Hst | done].
    + intros l Hl'. apply Hl. lia.
    + pose proof (st_tall _ _ _ _ _ _ _ Hst). lia.
Qed.
End Ok.

(** Where a walk stops in a list of two parts, the first in [P] and the second not:
    no node between the stop and the second part reaches the level. *)
Lemma stop_mid (h : heap) A C P l pre m post : NoDup (0%nat :: A ++ C) -> ordered h (A ++ C) -> closed P ->
  (forall a, a ∈ A -> P (keyof h a) = true) -> (forall b, b ∈ C -> P (keyof h b) = false) ->
  stop h l (A ++ C) P pre m post ->
  exists mid, 0%nat :: A = pre ++ m :: mid /\ post = mid ++ C /\ Forall (fun i => (height h i <= l)%nat) mid.
Proof.
  intros Hnd Ho HP HA HC Hst.
  destruct (stop_split h (A ++ C) Hnd Ho l P pre m post HP Hst) as (A1 & E1 & E2 & HA1).
  assert (exists mid, A = A1 ++ mid /\ post = mid ++ C) as (mid & EA & Ep).
  { apply app_eq_inv in E2 as [(k & -> & ->) | (k & -> & EB)]; [by exists k |].
    destruct k as [| b k]; [exists []; by rewrite !app_nil_r in * |]. exfalso.
    rewrite Forall_forall in HA1. specialize (HA1 b ltac:(apply elem_of_app; right; by left)).
    rewrite HC in HA1; [done |]. rewrite EB. by left. }
  exists mid. split; [| split; [done |]].
  { change (0%nat :: A) with ([0%nat] ++ A). rewrite EA, app_assoc. change ([0%nat] ++ A1) with (0%nat :: A1).
    by rewrite E1, <- app_assoc. }
  destruct Hst as [_ _ _ _ Hab]. rewrite Ep, first_tall_app in Hab.
  apply Forall_forall. intros i Hi. destruct (decide (height h i <= l)%nat) as [? | Hgt]; [done | exfalso].
  destruct (first_tall h l mid None) as [j |] eqn:Ej.
  - destruct (first_tall_Some _ _ _ _ Ej) as (q & r & -> & Hq & Hj).
    assert (P (keyof h j) = false) as Hjk.
    { apply (Hab j). rewrite first_tall_app. rewrite first_tall_low by done. simpl. by destruct (Nat.ltb_spec l (height h j)); [| lia]. }
    rewrite HA in Hjk; [done |]. rewrite EA. apply elem_of_app. right. apply elem_of_app. right. by left.
  - apply first_tall_None in Ej. rewrite Forall_forall in Ej. specialize (Ej i Hi). lia.
Qed.

(** ** Linking *)

Section Link.
Context (A B : list nat) (new : nat) (key : K).
Context (Hnd : NoDup (0%nat :: A ++ new :: B)).

(** The list the new node goes into, with the keys around it. *)
Record around (h : heap) : Prop := {
  ar_ordered : ordered h (A ++ B);
  ar_low a : a ∈ A -> keyof h a ⊏ key;
  ar_high b : b ∈ B -> key ⊏ keyof h b;
  ar_length : (length (A ++ B) < length h)%nat
}.

Lemma around_shapes (h h' : heap) : shapes h' = shapes h -> around h -> around h'.
Proof.
  intros Hs [Ho Hl Hh Hn]. split.
  - eapply ordered_ext; [| exact Ho]. intros i _. by apply same_keyof.
  - intros a. rewrite (same_keyof _ _ Hs). auto.
  - intros b. rewrite (same_keyof _ _ Hs). auto.
  - by rewrite (same_length _ _ Hs).
Qed.

Lemma NoDup_old : NoDup (0%nat :: A ++ B).
Proof.
  change (NoDup ((0%nat :: A) ++ B)). change (NoDup ((0%nat :: A) ++ [new] ++ B)) in Hnd.
  apply NoDup_app in Hnd as (H1 & H2 & H3). apply NoDup_app in H3 as (_ & _ & H3).
  apply NoDup_app. split; [done |]. split; [| done]. intros x Hx Hb. apply (H2 x Hx). apply elem_of_app. by right.
Qed.

(** A stop before the new node's place: no node between reaches the level. *)
Lemma stop_around (h : heap) l pre m post : around h -> stop h l (A ++ B) (fun k => klt k key) pre m post ->
  exists mid, 0%nat :: A = pre ++ m :: mid /\ post = mid ++ B /\ Forall (fun i => (height h i <= l)%nat) mid.
Proof.
  intros [Ho Hl Hh _] Hst. apply (stop_mid h A B (fun k => klt k key)); [apply NoDup_old | done | apply closed_below | done | | done].
  intros b Hb. destruct (klt (keyof h b) key) eqn:E; [| done]. by destruct (klt_asym _ _ E (Hh b Hb)).
Qed.

(** One level of linking. *)
Lemma link_level (h : heap) l pre m mid :
  linked h l (0%nat :: A ++ B) None -> 0%nat :: A = pre ++ m :: mid ->
  Forall (fun i => (height h i <= l)%nat) mid -> (l < height h m)%nat -> (l < height h new)%nat ->
  exists h1 h2, set_next h new l (first_tall h l B None) = Ret h1 /\ set_next h1 m l (Some new) = Ret h2 /\
    shapes h2 = shapes h /\ linked h2 l (0%nat :: A ++ new :: B) None /\
    forall i l', l' <> l -> nexts_at h2 i l' = nexts_at h i l'.
Proof.
  intros Hl E Hmid Hm Hn.
  destruct (set_next_spec h new l (first_tall h l B None) Hn) as (h1 & E1 & S1 & N1 & F1).
  destruct (set_next_spec h1 m l (Some new)) as (h2 & E2 & S2 & N2 & F2); [by rewrite (same_height _ _ S1) |].
  assert (shapes h2 = shapes h) as S by congruence.
  exists h1, h2. split; [done |]. split; [done |]. split; [done |]. split.
  2: { intros i l' Hne. rewrite F2, F1 by (by right). done. }
  assert (NoDup (pre ++ m :: mid ++ new :: B)) as Hnd'.
  { change (NoDup ((0%nat :: A) ++ new :: B)) in Hnd. rewrite E, <- app_assoc in Hnd. done. }
  assert (forall i, i ∈ pre \/ i ∈ B -> i <> m /\ i <> new) as Hne.
  { apply NoDup_app in Hnd' as (_ & Hd & Hr). apply NoDup_cons in Hr as [Hm' Hr].
    apply NoDup_app in Hr as (_ & _ & Hr). apply NoDup_cons in Hr as [Hn' _].
    intros i [Hi | Hi]; split; intros ->.
    - apply (Hd m Hi). by left.
    - apply (Hd new Hi). right. apply elem_of_app. right. by left.
    - apply Hm'. apply elem_of_app. right. by right.
    - done. }
  assert (new <> m) as Hnm.
  { apply NoDup_app in Hnd' as (_ & _ & Hr). apply NoDup_cons in Hr as [Hm' _]. intros <-. apply Hm'.
    apply elem_of_app. right. by left. }
  change (0%nat :: A ++ B) with ((0%nat :: A) ++ B) in Hl. rewrite E, <- app_assoc in Hl.
  change (0%nat :: A ++ new :: B) with ((0%nat :: A) ++ new :: B). rewrite E, <- app_assoc.
  apply linked_app in Hl as [Hpre [_ Hrest]]. apply linked_app in Hrest as [_ HB].
  assert (forall p o, (forall i, i ∈ p -> i ∈ pre \/ i ∈ B) -> linked h l p o -> linked h2 l p o) as Hframe.
  { intros p o Hp. apply linked_ext; intros i Hi; [by apply same_height |].
    destruct (Hne i (Hp i Hi)). rewrite F2, F1 by (by left). done. }
  assert (forall p o, first_tall h2 l p o = first_tall h l p o) as Hft
    by (intros; apply first_tall_ext; intros; by apply same_height).
  assert (Forall (fun i => (height h2 i <= l)%nat) mid) as Hmid2
    by (eapply Forall_impl; [exact Hmid | intros i; simpl; by rewrite (same_height _ _ S)]).
  assert (forall p o, first_tall h l (m :: p) o = Some m) as Hfm
    by (intros; simpl; destruct (Nat.ltb_spec l (height h m)); [done | lia]).
  apply linked_app. split; [| split; [| apply linked_app; split; [| split]]].
  - rewrite Hft. change ((m :: mid) ++ new :: B) with (m :: (mid ++ new :: B)). rewrite Hfm.
    apply Hframe; [auto |]. change ((m :: mid) ++ B) with (m :: (mid ++ B)) in Hpre. by rewrite Hfm in Hpre.
  - intros _. change ((fix app (l m : list nat) := _) mid (new :: B)) with (mid ++ new :: B).
    rewrite N2, Hft, first_tall_app, first_tall_low by done. simpl.
    destruct (Nat.ltb_spec l (height h new)); [done | lia].
  - by apply linked_low.
  - intros _. rewrite F2 by (by left). by rewrite N1, Hft.
  - apply Hframe; [auto | done].
Qed.

Lemma link_loop_spec levels : forall (h : heap) pre m mid,
  around h -> (levels <= height h new)%nat -> 0%nat :: A = pre ++ m :: mid -> (levels <= height h m)%nat ->
  below h (fun k => klt k key) m -> (forall l, (l < levels)%nat -> linked h l (0%nat :: A ++ B) None) ->
  exists h', link_loop h levels m new key = Ret h' /\ shapes h' = shapes h /\
    (forall l, (l < levels)%nat -> linked h' l (0%nat :: A ++ new :: B) None) /\
    (forall l i, (levels <= l)%nat -> nexts_at h' i l = nexts_at h i l).
Proof.
  induction levels as [| level IH]; intros h pre m mid Har Hn E Hm Hb Hl; cbn [link_loop].
  { exists h. split_and!; try done. lia. }
  assert (length (mid ++ B) <= length (A ++ B))%nat as Hlen.
  { apply (f_equal length) in E. rewrite length_app in E. simpl in E. rewrite !length_app. lia. }
  destruct (walk_spec h level (A ++ B) (fun k => klt k key) (S (length h)) pre m (mid ++ B)) as (pre' & m' & post' & -> & Hst).
  { apply Hl. lia. }
  { change (0%nat :: A ++ B) with ((0%nat :: A) ++ B). by rewrite E, <- app_assoc. }
  { lia. } { done. } { pose proof (ar_length _ Har). lia. }
  cbn [mbind outcome_bind]. rewrite (next_spec _ _ _ _ (st_next _ _ _ _ _ _ _ Hst)). cbn [mbind outcome_bind].
  destruct (stop_around h level pre' m' post' Har Hst) as (mid' & E' & -> & Hmid).
  rewrite first_tall_app, first_tall_low by done.
  destruct (link_level h level pre' m' mid') as (h1 & h2 & E1 & E2 & S2 & L2 & F2);
    [apply Hl; lia | done | done | apply Hst | lia |].
  rewrite E1. cbn [mbind outcome_bind]. rewrite E2. cbn [mbind outcome_bind].
  destruct (IH h2 pre' m' mid') as (h' & Eh & S' & L' & F').
  - by apply (around_shapes h).
  - rewrite (same_height _ _ S2). lia.
  - done.
  - rewrite (same_height _ _ S2). pose proof (st_tall _ _ _ _ _ _ _ Hst). lia.
  - pose proof (st_below _ _ _ _ _ _ _ Hst) as [-> | Hb']; [by left | right]. by rewrite (same_keyof _ _ S2).
  - intros l Hll. eapply linked_ext; [| | apply Hl; lia]; intros i _; [by apply same_height | apply F2; lia].
  - exists h'. split; [done |]. split; [congruence |]. split.
    + intros l Hll. destruct (decide (l = level)) as [-> | Hne]; [| apply L'; lia].
      eapply linked_ext; [| | exact L2]; intros i _; [by apply same_height | by apply F'].
    + intros l i Hll. rewrite F', F2 by lia. done.
Qed.
End Link.

(** ** The invariant *)

Record heap_ok (h : heap) (L : list nat) : Prop := {
  ok_NoDup : NoDup (0%nat :: L);
  ok_heap i : i ∈ 0%nat :: L -> (i < length h)%nat;
  ok_heights i : i ∈ L -> (0 < height h i <= height h 0)%nat;
  ok_ordered : ordered h L;
  ok_linked l : (l < height h 0)%nat -> linked h l (0%nat :: L) None
}.

Lemma NoDup_bounded n l : NoDup l -> (forall i, i ∈ l -> (i < n)%nat) -> (length l <= n)%nat.
Proof.
  intros Hnd Hb. rewrite <- (length_seq n 0). apply submseteq_length, NoDup_submseteq; [done |].
  intros i Hi. apply elem_of_seq. specialize (Hb i Hi). lia.
Qed.

Lemma ok_length (h : heap) L : heap_ok h L -> (length L < length h)%nat.
Proof. intros H. pose proof (NoDup_bounded _ _ (ok_NoDup _ _ H) (ok_heap _ _ H)) as Hl. simpl in Hl. lia. Qed.

Lemma deref_Some (h : heap) i n : h !! i = Some n -> deref h i = Ret n.
Proof. unfold deref. by intros ->. Qed.

Lemma ok_head (h : heap) L : heap_ok h L -> exists hd, h !! 0%nat = Some hd /\ length (sn_nexts hd) = height h 0.
Proof.
  intros H. destruct (lookup_lt_is_Some_2 h 0) as [hd E]; [apply (ok_heap _ _ H); by left |].
  exists hd. split; [done |]. unfold height. by rewrite (shape_of_Some _ _ _ E).
Qed.

Lemma ok_pos (h : heap) L i : heap_ok h L -> i ∈ L -> (0 < i < length h)%nat.
Proof.
  intros H Hi. pose proof (ok_heap _ _ H i ltac:(by right)). pose proof (ok_NoDup _ _ H) as Hn.
  apply NoDup_cons in Hn as [Hn _]. split; [| done]. destruct i; [done | lia].
Qed.

Lemma getNode_spec (h : heap) L key : heap_ok h L ->
  exists r, getNode h key = Ret r /\
    match r with
    | Some j => j ∈ L /\ keyof h j = key
    | None => forall i, i ∈ L -> keyof h i <> key
    end.
Proof.
  intros H. destruct (ok_head h L H) as (hd & E & Hl). unfold getNode. rewrite (deref_Some _ _ _ E).
  cbn [mbind outcome_bind]. rewrite Hl.
  destruct (getNode_loop_spec h L (ok_NoDup _ _ H) (ok_ordered _ _ H)) with
    (key := key) (levels := height h 0) (pre := @nil nat) (m := 0%nat) (post := L) as (r & Er & Hr).
  - intros i Hi. apply (ok_heights _ _ H i Hi).
  - intros l. apply (ok_linked _ _ H).
  - done.
  - done.
  - by left.
  - by apply ok_length.
  - exists r. split; [done |]. destruct r as [j |]; [done |]. destruct Hr as [Hz | Hr]; [| done].
    intros i Hi. pose proof (ok_heights _ _ H i Hi). lia.
Qed.

Lemma content_app (h : heap) A B : content h (A ++ B) = content h A ++ content h B.
Proof. apply fmap_app. Qed.
Lemma content_cons (h : heap) i B : content h (i :: B) = (keyof h i, valof h i) :: content h B.
Proof. done. Qed.

(** Only the head: the empty list. *)
Lemma heap_ok_empty key value : heap_ok [mkSkipNode [] key value] [].
Proof.
  split; simpl; try done.
  - apply NoDup_singleton.
  - intros i ->%list_elem_of_singleton. lia.
  - by intros i ?%not_elem_of_nil.
  - constructor.
  - intros l Hl. unfold height in Hl. simpl in Hl. lia.
Qed.

(** ** Replacing the value of a node *)

Lemma set_value_spec (h : heap) L j n value : heap_ok h L -> j ∈ L -> h !! j = Some n ->
  let h' := <[j := mkSkipNode (sn_nexts n) (sn_key n) value]> h in
  heap_ok h' L /\ (forall l i, nexts_at h' i l = nexts_at h i l) /\ (forall i, height h' i = height h i) /\
  exists A B, L = A ++ j :: B /\
    content h L = content h A ++ (sn_key n, sn_value n) :: content h B /\
    content h' L = content h A ++ (sn_key n, value) :: content h B.
Proof.
  intros H Hj En h'. set (n' := mkSkipNode (sn_nexts n) (sn_key n) value) in *.
  pose proof (lookup_lt_Some _ _ _ En) as Hlt.
  assert (forall i, h' !! i = if decide (i = j) then Some n' else h !! i) as Hlook.
  { intros i. destruct (decide (i = j)) as [-> |]; [by apply list_lookup_insert_eq | by apply list_lookup_insert_ne]. }
  assert (forall i, shape_of h' i = if decide (i = j) then shape n' else shape_of h i) as Hsh.
  { intros i. unfold shape_of, shapes. rewrite !list_lookup_fmap, Hlook. by destruct (decide (i = j)). }
  assert (shape_of h j = shape n) as Hjn by (by apply shape_of_Some).
  assert (forall i, height h' i = height h i) as Hh.
  { intros i. unfold height. rewrite Hsh. destruct (decide (i = j)) as [-> |]; [by rewrite Hjn | done]. }
  assert (forall i, keyof h' i = keyof h i) as Hk.
  { intros i. unfold keyof. rewrite Hsh. destruct (decide (i = j)) as [-> |]; [by rewrite Hjn | done]. }
  assert (forall l i, nexts_at h' i l = nexts_at h i l) as Hn.
  { intros l i. unfold nexts_at. rewrite Hlook. destruct (decide (i = j)) as [-> |]; [by rewrite En | done]. }
  assert (forall M, j ∉ M -> content h' M = content h M) as Hc.
  { intros M HM. apply list_fmap_ext. intros k i Hi. f_equal; [apply Hk |]. unfold valof. rewrite Hsh.
    rewrite decide_False; [done |]. intros ->. apply HM. by eapply list_elem_of_lookup_2. }
  split; [| split; [done | split; [done |]]].
  - split.
    + apply (ok_NoDup _ _ H).
    + intros i. unfold h'. rewrite length_insert. apply (ok_heap _ _ H).
    + intros i Hi. rewrite !Hh. by apply (ok_heights _ _ H).
    + apply (ordered_ext h); [intros; apply Hk | apply (ok_ordered _ _ H)].
    + intros l Hl. rewrite Hh in Hl. apply (linked_ext h); [intros; apply Hh | intros; apply Hn | by apply (ok_linked _ _ H)].
  - destruct (list_elem_of_split _ _ Hj) as (A & B & EL). exists A, B. split; [done |].
    pose proof (ok_NoDup _ _ H) as Hnd. apply NoDup_cons in Hnd as [_ Hnd]. rewrite EL in Hnd.
    apply NoDup_app in Hnd as (_ & HdA & HdB). apply NoDup_cons in HdB as [HdB _]. rewrite EL. split.
    + rewrite content_app, content_cons. unfold keyof, valof. by rewrite Hjn.
    + rewrite content_app, content_cons, !Hc by first [done | intros HA; apply (HdA j HA); by left].
      unfold keyof, valof. by rewrite Hsh, decide_True.
Qed.

(** ** Inserting a node *)

(** Splitting the list at a key that it does not hold. *)
Lemma split_at (h : heap) L key : ordered h L -> (forall i, i ∈ L -> keyof h i <> key) ->
  exists A B, L = A ++ B /\ (forall a, a ∈ A -> keyof h a ⊏ key) /\ (forall b, b ∈ B -> key ⊏ keyof h b).
Proof.
  induction 1 as [| i L Ho IH Hi]; intros Hne.
  { exists [], []. split; [done |]. split; by intros ? ?%not_elem_of_nil. }
  destruct IH as (A & B & -> & HA & HB); [intros j Hj; apply Hne; by right |].
  destruct (klt_cases (keyof h i) key) as [Hlt | [E | Hgt]].
  - exists (i :: A), B. split; [done |]. split; [| done]. intros a [-> | Ha]%elem_of_cons; auto.
  - exfalso. apply (Hne i); [by left | done].
  - exists [], (i :: A ++ B). split; [done |]. split; [by intros ? ?%not_elem_of_nil |].
    intros b [-> | Hb]%elem_of_cons; [done |]. rewrite Forall_forall in Hi.
    exact (klt_trans _ _ _ Hgt (Hi b Hb)).
Qed.

(** The heap the new node is linked into: the head raised if need be, the node
    appended. *)
Definition raised (h : heap) (hd : skipNode K V) (hgt ext : nat) : heap :=
  if (length (sn_nexts hd) <? hgt)%nat
  then <[0%nat := mkSkipNode (sn_nexts hd ++ replicate ext None) (sn_key hd) (sn_value hd)]> h
  else h.

Section NewNode.
Context (h : heap) (hd : skipNode K V) (hgt ext : nat) (key : K) (value : V).
Context (Hhd : h !! 0%nat = Some hd) (Hext : (hgt <= length (sn_nexts hd) + ext)%nat).
Let hN : heap := raised h hd hgt ext ++ [mkSkipNode (replicate hgt None) key value].

Lemma raised_length : length (raised h hd hgt ext) = length h.
Proof. unfold raised. destruct (_ <? _)%nat; [apply length_insert | done]. Qed.

Lemma new_old i : (0 < i < length h)%nat -> hN !! i = h !! i.
Proof.
  intros Hi. unfold hN. rewrite lookup_app_l by (rewrite raised_length; lia). unfold raised.
  destruct (_ <? _)%nat; [apply list_lookup_insert_ne; lia | done].
Qed.

Lemma new_new : hN !! length h = Some (mkSkipNode (replicate hgt None) key value).
Proof. unfold hN. rewrite lookup_app_r by (by rewrite raised_length). by rewrite raised_length, Nat.sub_diag. Qed.

Lemma new_head : exists hd', hN !! 0%nat = Some hd' /\
  (Nat.max (length (sn_nexts hd)) hgt <= length (sn_nexts hd'))%nat /\
  (forall l, (l < length (sn_nexts hd))%nat -> sn_nexts hd' !! l = sn_nexts hd !! l) /\
  (forall l, (length (sn_nexts hd) <= l < length (sn_nexts hd'))%nat -> sn_nexts hd' !! l = Some None).
Proof.
  pose proof (lookup_lt_Some _ _ _ Hhd). unfold hN. rewrite lookup_app_l by (by rewrite raised_length).
  unfold raised. destruct (Nat.ltb_spec (length (sn_nexts hd)) hgt).
  - rewrite list_lookup_insert_eq by done. eexists. split; [done |]. simpl. rewrite length_app, length_replicate.
    split; [lia |]. split; intros l Hl.
    + by apply lookup_app_l.
    + rewrite lookup_app_r by lia. apply lookup_replicate. split; [done | lia].
  - exists hd. split; [done |]. split; [lia |]. split; [done | lia].
Qed.

Lemma new_shape i : (0 < i < length h)%nat -> shape_of hN i = shape_of h i.
Proof. intros Hi. unfold shape_of, shapes. by rewrite !list_lookup_fmap, new_old. Qed.

Lemma new_nexts i l : (0 < i < length h)%nat -> nexts_at hN i l = nexts_at h i l.
Proof. intros Hi. unfold nexts_at. by rewrite new_old. Qed.

Lemma new_height : height hN (length h) = hgt.
Proof. unfold height. rewrite (shape_of_Some _ _ _ new_new). simpl. apply length_replicate. Qed.

Lemma new_linked L l : NoDup (0%nat :: L) -> (forall i, i ∈ L -> (0 < i < length h)%nat) ->
  (forall i, i ∈ L -> (height h i <= height h 0)%nat) ->
  (forall l, (l < height h 0)%nat -> linked h l (0%nat :: L) None) ->
  (l < height hN 0)%nat -> linked hN l (0%nat :: L) None.
Proof.
  intros Hnd Hi Hh Hl Hlt. destruct new_head as (hd' & Ehd & Hmax & Hold & Hnew).
  assert (height h 0 = length (sn_nexts hd)) as H0 by (unfold height; by rewrite (shape_of_Some _ _ _ Hhd)).
  assert (height hN 0 = length (sn_nexts hd')) as H0' by (unfold height; by rewrite (shape_of_Some _ _ _ Ehd)).
  assert (forall i, i ∈ L -> height hN i = height h i) as HL
    by (intros i Hin; unfold height; by rewrite new_shape by (by apply Hi)).
  destruct (decide (l < height h 0)%nat) as [Hlow | Hhigh].
  - eapply linked_reach; [| | by apply Hl].
    + intros i [-> | Hin]%elem_of_cons; [split; lia | by rewrite HL].
    + intros i [-> | Hin]%elem_of_cons _; [| by apply new_nexts, Hi].
      unfold nexts_at. rewrite Ehd, Hhd. simpl. apply Hold. lia.
  - assert (Forall (fun i => (height hN i <= l)%nat) L) as HF.
    { apply Forall_forall. intros i Hin. rewrite HL by done. specialize (Hh i Hin). lia. }
    split; [| by apply linked_low]. intros _. rewrite first_tall_low by done.
    unfold nexts_at. rewrite Ehd. simpl. apply Hnew. lia.
Qed.
End NewNode.

Lemma linked_skip (h : heap) l p i q o : (height h i <= l)%nat -> linked h l (p ++ q) o -> linked h l (p ++ i :: q) o.
Proof.
  intros Hi [H1 H2]%linked_app. apply linked_app. simpl. destruct (Nat.ltb_spec l (height h i)); [lia |].
  split; [done |]. split; [lia | done].
Qed.

(** Inserting a key the list does not hold. *)
Lemma skip_insert_spec (h : heap) L hd hgt ext key value : heap_ok h L -> h !! 0%nat = Some hd -> (0 < hgt)%nat ->
  (hgt <= length (sn_nexts hd) + ext)%nat -> (forall i, i ∈ L -> keyof h i <> key) ->
  let hN := raised h hd hgt ext ++ [mkSkipNode (replicate hgt None) key value] in
  exists h' A B, L = A ++ B /\ link_loop hN hgt 0 (length h) key = Ret h' /\
    heap_ok h' (A ++ length h :: B) /\ content h' (A ++ length h :: B) = content h A ++ (key, value) :: content h B /\
    height h' 0 = height hN 0 /\ height h' (length h) = hgt /\
    (forall a, a ∈ A -> keyof h a ⊏ key) /\ (forall b, b ∈ B -> key ⊏ keyof h b).
Proof.
  intros H Ehd Hhgt Hext Hne.
  set (new := length h). intros hN.
  destruct (split_at h L key (ok_ordered _ _ H) Hne) as (A & B & EL & HA & HB).
  assert (forall i, i ∈ L -> (0 < i < length h)%nat) as Hold.
  { intros i Hi. by eapply ok_pos. }
  pose proof (lookup_lt_Some _ _ _ Ehd) as Hpos.
  assert (NoDup (0%nat :: A ++ new :: B)) as Hnd.
  { pose proof (ok_NoDup _ _ H) as Hn. rewrite EL in Hn. apply NoDup_cons in Hn as [Hn0 Hn].
    assert (new ∉ A ++ B) as Hnew by (rewrite <- EL; intros Hin%Hold; unfold new in Hin; lia).
    rewrite <- Permutation_middle. apply NoDup_cons. split.
    - intros [E | Hin]%elem_of_cons; [unfold new in E; lia | done].
    - by apply NoDup_cons. }
  assert (forall i, i ∈ L -> shape_of hN i = shape_of h i) as Hsh by (intros i Hi; by apply new_shape, Hold).
  assert (forall i, i ∈ L -> keyof hN i = keyof h i) as Hk by (intros i Hi; unfold keyof; by rewrite Hsh).
  assert (forall l, (l < height hN 0)%nat -> linked hN l (0%nat :: A ++ B) None) as Hlk.
  { intros l. rewrite <- EL. apply new_linked; [done | done | apply (ok_NoDup _ _ H) | done | | apply (ok_linked _ _ H)].
    intros i Hi. apply (ok_heights _ _ H i Hi). }
  destruct (new_head h hd hgt ext key value Ehd Hext) as (hd' & Ehd' & Hmax & _). fold hN in Ehd'.
  assert (height hN 0 = length (sn_nexts hd')) as H0 by (unfold height; by rewrite (shape_of_Some _ _ _ Ehd')).
  assert (height h 0 = length (sn_nexts hd)) as H0' by (unfold height; by rewrite (shape_of_Some _ _ _ Ehd)).
  assert (height hN new = hgt) as Hhn by apply new_height.
  assert (shape_of hN new = (hgt, key, value)) as Hshn.
  { unfold hN, new. rewrite (shape_of_Some _ _ _ (new_new h hd hgt ext key value)).
    unfold shape. simpl. by rewrite length_replicate. }
  assert (length hN = S (length h)) as Hlen by (unfold hN; rewrite length_app, raised_length; simpl; lia).
  assert (ordered hN L) as Hord by (apply (ordered_ext h); [done | apply (ok_ordered _ _ H)]).
  assert (around A B key hN) as Har.
  { split.
    - by rewrite <- EL.
    - intros a Ha. rewrite Hk; [auto |]. rewrite EL. apply elem_of_app. by left.
    - intros b Hb. rewrite Hk; [auto |]. rewrite EL. apply elem_of_app. by right.
    - rewrite <- EL, Hlen. pose proof (ok_length _ _ H). lia. }
  destruct (link_loop_spec A B new key Hnd hgt hN [] 0%nat A Har) as (h' & Eh & S' & L' & F');
    [lia | done | lia | by left | intros l Hl; apply Hlk; lia |].
  exists h', A, B. split; [done |]. split; [done |].
  assert (content h' (A ++ new :: B) = content h A ++ (key, value) :: content h B) as Hc.
  { rewrite (same_content _ _ S'), content_app, content_cons. unfold keyof, valof. rewrite Hshn.
    f_equal; [| f_equal]; apply list_fmap_ext; intros k i Hi%list_elem_of_lookup_2; unfold keyof, valof;
      (rewrite Hsh; [done |]); rewrite EL; apply elem_of_app; auto. }
  split; [| split; [done | split; [by rewrite (same_height _ _ S'), H0 | split; [by rewrite (same_height _ _ S'), Hhn | by split]]]].
  split.
  - done.
  - intros i. rewrite (same_length _ _ S'), Hlen. intros [-> | Hi]%elem_of_cons; [lia |].
    apply elem_of_app in Hi as [Hi | [-> | Hi]%elem_of_cons]; [| unfold new; lia |];
      (assert (i ∈ L) as Hin by (rewrite EL; apply elem_of_app; auto)); specialize (Hold i Hin); lia.
  - intros i Hi. rewrite !(same_height _ _ S'), H0.
    assert (i = new \/ i ∈ L) as [-> | Hin].
    { rewrite EL. apply elem_of_app in Hi as [Hi | [-> | Hi]%elem_of_cons]; [right | by left | right];
        apply elem_of_app; auto. }
    + rewrite Hhn. lia.
    + pose proof (ok_heights _ _ H i Hin) as Hh. unfold height at 1 2. rewrite Hsh by done.
      unfold height in *. lia.
  - apply (ordered_ext hN); [intros; by apply same_keyof |].
    unfold ordered. rewrite EL in Hord. unfold ordered in Hord.
    assert (keyof hN new = key) as Hkn by (unfold keyof; by rewrite Hshn).
    apply StronglySorted_app_2.
    + intros x y Hx [-> | Hy]%elem_of_cons; [rewrite Hkn; by apply (ar_low _ _ _ _ Har) |].
      exact (StronglySorted_app_1_elem_of _ _ _ _ _ Hord Hx Hy).
    + by apply StronglySorted_app_1_l in Hord.
    + constructor; [by apply StronglySorted_app_1_r in Hord |]. apply Forall_forall. intros b Hb.
      rewrite Hkn. by apply (ar_high _ _ _ _ Har).
  - intros l Hl. rewrite (same_height _ _ S') in Hl. destruct (decide (l < hgt)%nat) as [Hlt | Hge]; [by apply L' |].
    apply (linked_ext hN); [intros; by apply same_height | intros; apply F'; lia |].
    apply (linked_skip _ _ (0%nat :: A)); [lia | by apply Hlk].
Qed.

(** ** Taking a node out *)

Lemma linked_drop (h : heap) l p i q o : (height h i <= l)%nat -> linked h l (p ++ i :: q) o -> linked h l (p ++ q) o.
Proof.
  intros Hi. rewrite !linked_app. simpl. destruct (Nat.ltb_spec l (height h i)); [lia |]. tauto.
Qed.

Section Unlink.
Context (A B : list nat) (j : nat).
Context (Hnd : NoDup (0%nat :: A ++ j :: B)).

Lemma unlink_level (h : heap) l pre m mid :
  linked h l (0%nat :: A ++ j :: B) None -> 0%nat :: A = pre ++ m :: mid ->
  Forall (fun i => (height h i <= l)%nat) mid -> (l < height h m)%nat -> (l < height h j)%nat ->
  nexts_at h j l = Some (first_tall h l B None) /\
  exists h2, set_next h m l (first_tall h l B None) = Ret h2 /\
    shapes h2 = shapes h /\ linked h2 l (0%nat :: A ++ B) None /\
    forall i l', l' <> l -> nexts_at h2 i l' = nexts_at h i l'.
Proof.
  intros Hl E Hmid Hm Hj.
  change (0%nat :: A ++ j :: B) with ((0%nat :: A) ++ j :: B) in Hl, Hnd. rewrite E, <- app_assoc in Hl, Hnd.
  apply linked_app in Hl as [Hpre [_ Hrest]]. apply linked_app in Hrest as [_ [Hnj HB]].
  split; [by apply Hnj |].
  destruct (set_next_spec h m l (first_tall h l B None) Hm) as (h2 & E2 & S2 & N2 & F2).
  exists h2. split; [done |]. split; [done |]. split; [| intros i l' Hne; apply F2; by right].
  assert (forall i, i ∈ pre \/ i ∈ B -> i <> m) as Hne.
  { apply NoDup_app in Hnd as (_ & Hd & Hr). apply NoDup_cons in Hr as [Hm' _].
    intros i [Hi | Hi] ->; [apply (Hd m Hi); by left |]. apply Hm', elem_of_app. right. by right. }
  assert (forall p o, (forall i, i ∈ p -> i ∈ pre \/ i ∈ B) -> linked h l p o -> linked h2 l p o) as Hframe.
  { intros p o Hp. apply linked_ext; intros i Hi; [by apply same_height |]. apply F2. left. auto. }
  assert (forall p o, first_tall h2 l p o = first_tall h l p o) as Hft
    by (intros; apply first_tall_ext; intros; by apply same_height).
  assert (forall p o, first_tall h l (m :: p) o = Some m) as Hfm
    by (intros; simpl; destruct (Nat.ltb_spec l (height h m)); [done | lia]).
  change (0%nat :: A ++ B) with ((0%nat :: A) ++ B). rewrite E, <- app_assoc.
  apply linked_app. split; [| split].
  - rewrite Hft. change ((m :: mid) ++ B) with (m :: (mid ++ B)). rewrite Hfm. apply Hframe; [auto |].
    change ((m :: mid) ++ j :: B) with (m :: (mid ++ j :: B)) in Hpre. by rewrite Hfm in Hpre.
  - intros _. change ((fix app (l m : list nat) := _) mid B) with (mid ++ B).
    rewrite N2, Hft, first_tall_app, (first_tall_low h l mid) by done. done.
  - change ((fix app (l m : list nat) := _) mid B) with (mid ++ B). apply linked_app. split.
    + apply linked_low. eapply Forall_impl; [exact Hmid |]. intros i. simpl. by rewrite (same_height _ _ S2).
    + apply Hframe; [auto | done].
Qed.

Lemma unlink_loop_spec key levels : forall (h : heap) pre m mid,
  ordered h (A ++ j :: B) -> keyof h j = key -> (length (A ++ j :: B) < length h)%nat ->
  0%nat :: A = pre ++ m :: mid -> (levels <= height h m)%nat -> below h (fun k => klt k key) m ->
  (forall l, (l < levels)%nat -> linked h l (0%nat :: A ++ j :: B) None) ->
  exists h', unlink_loop h levels m key = Ret h' /\ shapes h' = shapes h /\
    (forall l, (l < levels)%nat -> linked h' l (0%nat :: A ++ B) None) /\
    (forall l i, (levels <= l)%nat -> nexts_at h' i l = nexts_at h i l).
Proof.
  induction levels as [| level IH]; intros h pre m mid Ho Hk Hlen E Hm Hb Hl; cbn [unlink_loop].
  { exists h. split_and!; try done. lia. }
  destruct (ordered_split h _ Ho A j B eq_refl) as [HA HB]. rewrite Hk in HA, HB.
  assert (length (mid ++ j :: B) <= length (A ++ j :: B))%nat as Hle.
  { apply (f_equal length) in E. rewrite length_app in E. simpl in E. rewrite !length_app. lia. }
  destruct (walk_spec h level (A ++ j :: B) (fun k => klt k key) (S (length h)) pre m (mid ++ j :: B)) as (pre' & m' & post' & -> & Hst).
  { apply Hl. lia. }
  { change (0%nat :: A ++ j :: B) with ((0%nat :: A) ++ j :: B). by rewrite E, <- app_assoc. }
  { lia. } { done. } { lia. }
  cbn [mbind outcome_bind]. rewrite (next_spec _ _ _ _ (st_next _ _ _ _ _ _ _ Hst)). cbn [mbind outcome_bind].
  destruct (stop_mid h A (j :: B) (fun k => klt k key) level pre' m' post') as (mid' & E' & -> & Hmid);
    [done | done | apply closed_below | done | | done |].
  { intros b [-> | Hb']%elem_of_cons; [by rewrite Hk, klt_irrefl |].
    destruct (klt (keyof h b) key) eqn:Ekb; [| done]. by destruct (klt_asym _ _ Ekb (HB b Hb')). }
  rewrite first_tall_app, first_tall_low by done.
  pose proof (st_tall _ _ _ _ _ _ _ Hst) as Htall. pose proof (st_below _ _ _ _ _ _ _ Hst) as Hbelow.
  (* one level done, with heap [h2] *)
  assert (forall h2 : heap, shapes h2 = shapes h -> linked h2 level (0%nat :: A ++ B) None ->
    (forall i l', l' <> level -> nexts_at h2 i l' = nexts_at h i l') ->
    exists h', unlink_loop h2 level m' key = Ret h' /\ shapes h' = shapes h /\
      (forall l, (l < S level)%nat -> linked h' l (0%nat :: A ++ B) None) /\
      (forall l i, (S level <= l)%nat -> nexts_at h' i l = nexts_at h i l)) as Hrest.
  { intros h2 S2 L2 F2. destruct (IH h2 pre' m' mid') as (h' & Eh & S' & L' & F').
    - eapply ordered_ext; [| exact Ho]. intros i _. by apply same_keyof.
    - by rewrite (same_keyof _ _ S2).
    - by rewrite (same_length _ _ S2).
    - done.
    - rewrite (same_height _ _ S2). lia.
    - destruct Hbelow as [-> | Hb']; [by left | right]. by rewrite (same_keyof _ _ S2).
    - intros l Hll. eapply linked_ext; [| | apply Hl; lia]; intros i _; [by apply same_height | apply F2; lia].
    - exists h'. split; [done |]. split; [congruence |]. split.
      + intros l Hll. destruct (decide (l = level)) as [-> | Hne]; [| apply L'; lia].
        eapply linked_ext; [| | exact L2]; intros i _; [by apply same_height | by apply F'].
      + intros l i Hll. rewrite F', F2 by lia. done. }
  simpl. destruct (Nat.ltb_spec level (height h j)) as [Hj | Hj].
  - destruct (deref_tall h j level Hj) as (n & _ & Ed & Ek & _). rewrite Ed. cbn [mbind outcome_bind].
    rewrite Ek, Hk, klt_irrefl.
    destruct (unlink_level h level pre' m' mid') as (Nj & h2 & E2 & S2 & L2 & F2); [apply Hl; lia | done | done | done | done |].
    rewrite (next_spec _ _ _ _ Nj). cbn [mbind outcome_bind]. rewrite E2. cbn [mbind outcome_bind]. by apply Hrest.
  - assert (linked h level (0%nat :: A ++ B) None) as L2 by (apply (linked_drop h level (0%nat :: A) j B); [done | apply Hl; lia]).
    destruct (first_tall h level B None) as [x |] eqn:Ex; [| by apply Hrest].
    destruct (first_tall_Some _ _ _ _ Ex) as (q & r & EB & _ & Hx).
    destruct (deref_tall h x level Hx) as (n & _ & Ed & Ek & _). rewrite Ed. cbn [mbind outcome_bind].
    rewrite Ek, HB; [by apply Hrest |]. rewrite EB. apply elem_of_app. right. by left.
Qed.
End Unlink.

(** Taking the node [j] out of all levels. *)
Lemma remove_spec (h : heap) L j key : heap_ok h L -> j ∈ L -> keyof h j = key ->
  exists h' A B, L = A ++ j :: B /\ unlink_loop h (height h 0) 0 key = Ret h' /\ heap_ok h' (A ++ B) /\
    shapes h' = shapes h.
Proof.
  intros H Hj Hk. destruct (list_elem_of_split _ _ Hj) as (A & B & EL). pose proof (ok_NoDup _ _ H) as Hnd.
  pose proof (ok_ordered _ _ H) as Ho. pose proof (ok_length _ _ H) as Hlen. rewrite EL in Hnd, Ho, Hlen.
  destruct (unlink_loop_spec A B j Hnd key (height h 0) h [] 0%nat A Ho Hk Hlen) as (h' & E & S' & L' & _);
    [done | done | by left | intros l Hl; rewrite <- EL; by apply (ok_linked _ _ H) |].
  exists h', A, B. split_and!; try done.
  assert (forall i, i ∈ A ++ B -> i ∈ L) as Hsub.
  { intros i. rewrite EL, !elem_of_app, elem_of_cons. tauto. }
  split.
  - apply NoDup_cons in Hnd as [H0 Hnd]. apply NoDup_cons. split.
    + intros Hin. apply H0. rewrite elem_of_app in *. rewrite elem_of_cons. tauto.
    + apply NoDup_app in Hnd as (HA & Hd & HB). apply NoDup_cons in HB as [_ HB]. apply NoDup_app. split_and!; try done.
      intros x Hx HxB. apply (Hd x Hx). by right.
  - intros i Hi. rewrite (same_length _ _ S'). apply (ok_heap _ _ H). apply elem_of_cons in Hi as [-> | Hi]; [by left | right; auto].
  - intros i Hi. rewrite !(same_height _ _ S'). apply (ok_heights _ _ H); auto.
  - apply (ordered_ext h); [intros; by apply same_keyof |]. unfold ordered in *. apply StronglySorted_app_2.
    + intros x y Hx Hy. refine (StronglySorted_app_1_elem_of _ A (j :: B) x y Ho Hx _). by right.
    + by apply StronglySorted_app_1_l in Ho.
    + apply StronglySorted_app_1_r in Ho. by inversion_clear Ho.
  - intros l Hl. rewrite (same_height _ _ S') in Hl. by apply L'.
Qed.

(** Lowering the head to a level no node reaches. *)
Lemma cut_head (h : heap) L hd k : heap_ok h L -> h !! 0%nat = Some hd -> (k <= length (sn_nexts hd))%nat ->
  (forall i, i ∈ L -> (height h i <= k)%nat) ->
  let h' := <[0%nat := mkSkipNode (take k (sn_nexts hd)) (sn_key hd) (sn_value hd)]> h in
  heap_ok h' L /\ content h' L = content h L /\ height h' 0 = k.
Proof.
  intros H Ehd Hk Hlow h'. pose proof (lookup_lt_Some _ _ _ Ehd) as Hpos.
  assert (forall i, i <> 0%nat -> h' !! i = h !! i) as Hother by (intros i Hi; by apply list_lookup_insert_ne).
  assert (forall i, i ∈ L -> shape_of h' i = shape_of h i) as Hsh.
  { intros i Hi. unfold shape_of, shapes. rewrite !list_lookup_fmap, Hother; [done |].
    pose proof (ok_pos _ _ _ H Hi). lia. }
  assert (height h' 0 = k) as H0.
  { unfold height, h'. erewrite shape_of_Some by (by apply list_lookup_insert_eq). cbn. rewrite length_take. lia. }
  assert (height h 0 = length (sn_nexts hd)) as H0' by (unfold height; by rewrite (shape_of_Some _ _ _ Ehd)).
  assert (forall i, i ∈ L -> height h' i = height h i) as Hhi by (intros i Hi; unfold height; by rewrite Hsh).
  split; [split | split; [| done]].
  - apply (ok_NoDup _ _ H).
  - intros i. unfold h'. rewrite length_insert. apply (ok_heap _ _ H).
  - intros i Hi. rewrite Hhi, H0 by done. split; [by apply (ok_heights _ _ H) | auto].
  - apply (ordered_ext h); [intros i Hi; unfold keyof; by rewrite Hsh | apply (ok_ordered _ _ H)].
  - intros l Hl. rewrite H0 in Hl. eapply linked_reach; [| | apply (ok_linked _ _ H); lia].
    + intros i [-> | Hi]%elem_of_cons; [split; lia | by rewrite Hhi].
    + intros i [-> | Hi]%elem_of_cons _.
      * unfold nexts_at, h'. rewrite list_lookup_insert_eq, Ehd by done. cbn. by rewrite lookup_take_lt.
      * unfold nexts_at. rewrite Hother; [done |]. pose proof (ok_pos _ _ _ H Hi). lia.
  - apply list_fmap_ext. intros k' i Hi%list_elem_of_lookup_2. unfold keyof, valof. by rewrite Hsh.
Qed.

(** ** Where the walk through all levels ends *)

(** The nodes of [L] with a key in [P] are [A]; the walk ends at the last of them,
    or at the head, and its next node is the first of the rest. *)
Lemma descend_ok (h : heap) L P : heap_ok h L -> closed P -> (0 < height h 0)%nat ->
  exists m A B, descend h (height h 0) 0 P = Ret m /\ L = A ++ B /\
    Forall (fun i => P (keyof h i) = true) A /\ Forall (fun i => P (keyof h i) = false) B /\
    (m = 0%nat /\ A = [] \/ m <> 0%nat /\ exists A', A = A' ++ [m]) /\ next h m 0 = Ret (head B).
Proof.
  intros H HP Hpos. destruct (height h 0) as [| levels] eqn:E0; [lia |].
  destruct (descend_spec h L P levels [] 0%nat L) as (pre & m & post & Ed & Hst).
  - intros l Hl. apply (ok_linked _ _ H). lia.
  - done.
  - lia.
  - by left.
  - by apply ok_length.
  - assert (forall i, i ∈ L -> (0 < height h i)%nat) as Hh by (intros i Hi; apply (ok_heights _ _ H i Hi)).
    destruct (stop_split h L (ok_NoDup _ _ H) (ok_ordered _ _ H) 0 P pre m post HP Hst) as (A & E1 & E2 & HA).
    pose proof (stop_bottom h L (ok_NoDup _ _ H) (ok_ordered _ _ H) Hh P pre m post HP Hst) as HB.
    exists m, A, post. split_and!; try done.
    + destruct pre as [| z pre]; injection E1; intros EA Em; [left; by subst |]. right. subst A. split; [| by exists pre].
      intros ->. pose proof (ok_NoDup _ _ H) as [Hn _]%NoDup_cons. apply Hn. rewrite E2. apply elem_of_app. left.
      apply elem_of_app. right. by left.
    + rewrite (next_spec _ _ _ _ (st_next _ _ _ _ _ _ _ Hst)). f_equal. destruct post as [| x post]; [done |]. simpl.
      destruct (Nat.ltb_spec 0 (height h x)) as [| Hx]; [done |].
      specialize (Hh x ltac:(rewrite E2; apply elem_of_app; right; by left)). lia.
Qed.
End skip.
