(* ===== verification/CacheHash.v ===== *)
(** * Cache: consistent hashing of keys to peers

    [libs/yukino_cache/consistent_hash.go].  [HashFunc] is a field of the
    configuration (CRC-32 by default) and a parameter here; the request
    counters are part of the state.  The theorems: [Get] follows the ring
    clockwise, and adding or removing a node moves only the keys it has to. *)
From S2P Require Import Prelude GoSort.
From stdpp Require Import pretty.
#[local] Open Scope Z_scope.

Record ConsistentHashMap := mkRing {
  keys : list Z;
  hashMap : gmap Z string;
  nodeHashes : gmap string (list Z);
  nodeCounts : gmap string Z;
  totalRequests : Z
}.

Section Ring.
(** [config.HashFunc] on the bytes of a string, and [config.DefaultReplicas]. *)
Context (HashFunc : string -> Z) (DefaultReplicas : Z).

Definition NewConsistentHash : ConsistentHashMap := mkRing [] ∅ ∅ ∅ 0.

(** [fmt.Appendf(nil, "%s-%d", node, i)] *)
Definition replica_name (node : string) (i : nat) : string := node +:+ "-" +:+ pretty (N.of_nat i).

(** The loop over the replicas: the ring, and the node's hashes so far. *)
Fixpoint add_replicas (node : string) (rs : list nat) (ks : list Z) (hm : gmap Z string)
    (hashes : list Z) : list Z * gmap Z string * list Z :=
  match rs with
  | [] => (ks, hm, hashes)
  | i :: rs' =>
      let hash := HashFunc (replica_name node i) in
      match hm !! hash with
      | Some _ => add_replicas node rs' ks hm hashes
      | None => add_replicas node rs' (ks ++ [hash]) (<[hash := node]> hm) (hashes ++ [hash])
      end
  end.

Definition addNodeLocked (m : ConsistentHashMap) (node : string) (replicas : Z) : ConsistentHashMap :=
  match nodeHashes m !! node with
  | Some _ => m
  | None =>
      let '(ks, hm, hashes) := add_replicas node (seq 0 (Z.to_nat replicas)) (keys m) (hashMap m) [] in
      mkRing ks hm (<[node := hashes]> (nodeHashes m))
        (match nodeCounts m !! node with Some _ => nodeCounts m | None => <[node := 0]> (nodeCounts m) end)
        (totalRequests m)
  end.

Definition Add (m : ConsistentHashMap) (nodes : list string) : result string ConsistentHashMap :=
  match nodes with
  | [] => Err "no nodes provided"
  | _ =>
      let m := foldl (fun m node => if bool_decide (node = "") then m
                                    else addNodeLocked m node DefaultReplicas) m nodes in
      Ok (mkRing (Ints (keys m)) (hashMap m) (nodeHashes m) (nodeCounts m) (totalRequests m))
  end.

Definition removeNodeLocked (m : ConsistentHashMap) (node : string) : result string ConsistentHashMap :=
  match nodeHashes m !! node with
  | None => Err ("node " +:+ node +:+ " not found")
  | Some hashes =>
      let hm := foldl (fun hm h => delete h hm) (hashMap m) hashes in
      let toRemove : gset Z := list_to_set hashes in
      Ok (mkRing (filter (fun k => k ∉ toRemove) (keys m)) hm
            (delete node (nodeHashes m)) (delete node (nodeCounts m)) (totalRequests m))
  end.

Definition Remove (m : ConsistentHashMap) (node : string) : result string ConsistentHashMap :=
  if bool_decide (node = "") then Err "invalid node" else removeNodeLocked m node.

(** [Get]: the node, and the ring with its counters updated. *)
Definition Get (m : ConsistentHashMap) (key : string) : outcome (string * ConsistentHashMap) :=
  if bool_decide (key = "") then Ret ("", m)
  else if zlen (keys m) =? 0 then Ret ("", m)
  else
    let hash := HashFunc key in
    let idx := lower_bound (keys m) hash in
    let idx := if idx =? zlen (keys m) then 0 else idx in
    k ← go_index (keys m) idx;
    let node := default "" (hashMap m !! k) in
    let counts := match nodeCounts m !! node with
                  | Some c => <[node := s64 (c + 1)]> (nodeCounts m)
                  | None => nodeCounts m
                  end in
    Ret (node, mkRing (keys m) (hashMap m) (nodeHashes m) counts (s64 (totalRequests m + 1))).

(** ** The invariant *)

Record ring_wf (m : ConsistentHashMap) : Prop := {
  rw_sorted : StronglySorted Z.le (keys m);
  rw_nodup : NoDup (keys m);
  rw_keys k : k ∈ keys m <-> is_Some (hashMap m !! k);
  rw_nodes k node : hashMap m !! k = Some node <-> exists hs, nodeHashes m !! node = Some hs /\ k ∈ hs;
  rw_named node : is_Some (nodeHashes m !! node) -> node <> ""
}.

(** The same without the order of [keys], as it is while nodes are added. *)
Record ring_loose (m : ConsistentHashMap) : Prop := {
  rl_nodup : NoDup (keys m);
  rl_keys k : k ∈ keys m <-> is_Some (hashMap m !! k);
  rl_nodes k node : hashMap m !! k = Some node <-> exists hs, nodeHashes m !! node = Some hs /\ k ∈ hs;
  rl_named node : is_Some (nodeHashes m !! node) -> node <> ""
}.

Lemma wf_loose m : ring_wf m -> ring_loose m.
Proof. intros []. by split. Qed.

(** Adding replicas: what is taken stays, what is new belongs to [node]. *)
Lemma add_replicas_spec node rs ks hm hashes :
  NoDup ks -> (forall k, k ∈ ks <-> is_Some (hm !! k)) ->
  let '(ks', hm', hashes') := add_replicas node rs ks hm hashes in
  exists new, ks' = ks ++ new /\ hashes' = hashes ++ new /\ NoDup ks' /\
    (forall k, k ∈ ks' <-> is_Some (hm' !! k)) /\
    (forall k, hm' !! k = if decide (k ∈ new) then Some node else hm !! k) /\
    (forall k, k ∈ new -> hm !! k = None).
Proof.
  revert ks hm hashes. induction rs as [| i rs IH]; intros ks hm hashes Hnd Hk; cbn [add_replicas].
  { exists []. rewrite !app_nil_r. split_and!; try done. by intros k ?%not_elem_of_nil. }
  set (h := HashFunc _). destruct (hm !! h) as [n0 |] eqn:Eh; [by apply IH |].
  assert (h ∉ ks) as Hnin by (rewrite Hk, Eh; by intros [? ?]).
  assert (forall k, k ∈ ks ++ [h] <-> is_Some (<[h := node]> hm !! k)) as Hk'.
  { intros k. rewrite elem_of_app, list_elem_of_singleton, Hk, lookup_insert_is_Some'. naive_solver. }
  specialize (IH (ks ++ [h]) (<[h := node]> hm) (hashes ++ [h])).
  destruct (add_replicas node rs _ _ _) as [[ks' hm'] hashes'].
  destruct IH as (new & -> & -> & Hnd' & Hkk & Hl & Hn); [| done |].
  { apply NoDup_app. split_and!; [done | | apply NoDup_singleton]. intros x Hx ->%list_elem_of_singleton. done. }
  exists (h :: new). rewrite <- !app_assoc. simpl. split_and!; try done.
  - by rewrite <- app_assoc in Hnd'.
  - intros k. rewrite <- Hkk, <- app_assoc. done.
  - intros k. rewrite Hl. destruct (decide (k = h)) as [-> | Hne].
    + rewrite lookup_insert_eq. repeat case_decide; set_solver.
    + rewrite lookup_insert_ne by done. repeat case_decide; set_solver.
  - intros k [-> | Hkn]%elem_of_cons; [done |]. apply Hn in Hkn.
    destruct (decide (k = h)) as [-> | ?]; [done |]. by rewrite lookup_insert_ne in Hkn.
Qed.

(** What adding nodes does to the ring: nothing taken changes hands. *)
Record grows (nodes : list string) (m m' : ConsistentHashMap) : Prop := {
  gr_old k n : hashMap m !! k = Some n -> hashMap m' !! k = Some n;
  gr_new k n : hashMap m' !! k = Some n -> hashMap m !! k = Some n \/ n ∈ nodes;
  gr_reg n : n ∈ nodes -> n <> "" -> is_Some (nodeHashes m' !! n);
  gr_keep n hs : nodeHashes m !! n = Some hs -> nodeHashes m' !! n = Some hs
}.

Lemma addNodeLocked_spec m node replicas : ring_loose m -> node <> "" ->
  ring_loose (addNodeLocked m node replicas) /\ grows [node] m (addNodeLocked m node replicas).
Proof.
  intros [Hnd Hk Hn Hnm] Hne. unfold addNodeLocked. destruct (nodeHashes m !! node) as [hs |] eqn:E.
  { split; [by split |]. split; try done; [by left | intros n ->%list_elem_of_singleton _; by eexists]. }
  pose proof (add_replicas_spec node (seq 0 (Z.to_nat replicas)) (keys m) (hashMap m) [] Hnd Hk) as Hs.
  destruct (add_replicas _ _ _ _ _) as [[ks hm] hashes].
  destruct Hs as (new & -> & -> & Hnd' & Hk' & Hl & Hfree). simpl in *.
  split; split; simpl; try done.
  - intros k n. rewrite Hl. split.
    + case_decide as Hd; [intros [= <-]; exists new; by rewrite lookup_insert_eq |].
      intros (hs & Hhs & Hin)%Hn. exists hs. split; [| done]. rewrite lookup_insert_ne; [done | congruence].
    + intros (hs & Hhs & Hin). destruct (decide (node = n)) as [<- | Hne'].
      * rewrite lookup_insert_eq in Hhs. injection Hhs as <-. by rewrite decide_True.
      * rewrite lookup_insert_ne in Hhs by done.
        assert (hashMap m !! k = Some n) as Hkn by (apply Hn; eauto).
        case_decide as Hd; [apply Hfree in Hd; congruence | done].
  - intros n. rewrite lookup_insert_is_Some'. intros [<- | ?]; auto.
  - intros k n Hkn. rewrite Hl. case_decide as Hd; [apply Hfree in Hd; congruence | done].
  - intros k n. rewrite Hl. case_decide; [intros [= <-]; right; set_solver | by left].
  - intros n ->%list_elem_of_singleton _. rewrite lookup_insert_eq. by eexists.
  - intros n hs Hhs. rewrite lookup_insert_ne; [done | congruence].
Qed.

Lemma grows_app a b m1 m2 m3 : grows a m1 m2 -> grows b m2 m3 -> grows (a ++ b) m1 m3.
Proof.
  intros [A1 A2 A3 A4] [B1 B2 B3 B4]. split; eauto.
  - intros k n Hk. destruct (B2 k n Hk) as [Hk2 | ?]; [destruct (A2 k n Hk2) as [? | ?] |]; [by left | |];
      right; apply elem_of_app; auto.
  - intros n [Hn | Hn]%elem_of_app Hne; [| eauto]. destruct (A3 n Hn Hne) as [hs Hhs]. eauto.
Qed.

Lemma Add_spec m nodes m' : ring_wf m -> Add m nodes = Ok m' -> ring_wf m' /\ grows nodes m m'.
Proof.
  intros Hw E. unfold Add in E. destruct nodes as [| n0 nodes']; [done |].
  set (nodes := n0 :: nodes') in *.
  set (m1 := foldl (fun m node => if bool_decide (node = "") then m
                                  else addNodeLocked m node DefaultReplicas) m nodes) in E.
  assert (m' = mkRing (Ints (keys m1)) (hashMap m1) (nodeHashes m1) (nodeCounts m1) (totalRequests m1))
    as -> by (by injection E). clear E.
  assert (ring_loose m1 /\ grows nodes m m1) as [Hl Hg].
  { apply wf_loose in Hw. clearbody nodes. subst m1. clear n0 nodes'. revert m Hw.
    induction nodes as [| n nodes IH]; intros m Hw; simpl.
    { split; [done |]. split; try done; [by left | by intros n ?%not_elem_of_nil]. }
    case_bool_decide as Hn.
    - subst n. destruct (IH m Hw) as [Hl Hg]. split; [done |]. destruct Hg. split; try done.
      + intros k n Hk. destruct (gr_new0 k n Hk); [by left | right; set_solver].
      + intros n [-> | ?]%elem_of_cons ?; [done | auto].
    - destruct (addNodeLocked_spec m n DefaultReplicas Hw Hn) as [Hl1 Hg1].
      destruct (IH _ Hl1) as [Hl2 Hg2]. split; [done |]. by apply (grows_app [n] nodes m _ _ Hg1). }
  destruct Hl. split; [| by destruct Hg].
  split; simpl; try done.
  - apply Ints_sorted.
  - by rewrite Ints_perm.
  - intros k. by rewrite Ints_perm.
Qed.

Lemma delete_all_lookup (hs : list Z) (hm : gmap Z string) k :
  foldl (fun hm h => delete h hm) hm hs !! k = if decide (k ∈ hs) then None else hm !! k.
Proof.
  revert hm. induction hs as [| h hs IH]; intros hm; simpl; [done |].
  rewrite IH. destruct (decide (h = k)) as [-> | Hne].
  - rewrite lookup_delete_eq. repeat case_decide; set_solver.
  - rewrite lookup_delete_ne by done. repeat case_decide; set_solver.
Qed.

Lemma Remove_spec m node m' : ring_wf m -> Remove m node = Ok m' ->
  ring_wf m' /\ nodeHashes m' = delete node (nodeHashes m) /\
  keys m' = filter (fun k => hashMap m !! k <> Some node) (keys m) /\
  (forall k, hashMap m' !! k = if decide (hashMap m !! k = Some node) then None else hashMap m !! k).
Proof.
  intros [Hs Hnd Hk Hn Hnm] E. unfold Remove in E. case_bool_decide; [done |].
  unfold removeNodeLocked in E. destruct (nodeHashes m !! node) as [hs |] eqn:Eh; [| done].
  injection E as <-. simpl.
  assert (forall k, k ∈ hs <-> hashMap m !! k = Some node) as Hhs.
  { intros k. rewrite Hn. split; [eauto | intros (hs' & ? & ?); by simplify_eq]. }
  assert (filter (fun k => k ∉ (list_to_set hs : gset Z)) (keys m) =
          filter (fun k => hashMap m !! k <> Some node) (keys m)) as Ekeys.
  { apply list_filter_iff. intros k. by rewrite elem_of_list_to_set, Hhs. }
  assert (forall k, foldl (fun hm h => delete h hm) (hashMap m) hs !! k =
            if decide (hashMap m !! k = Some node) then None else hashMap m !! k) as Ehm.
  { intros k. rewrite delete_all_lookup. repeat case_decide; try done; exfalso; naive_solver. }
  split; [| done]. split; simpl.
  - rewrite Ekeys. by apply sorted_filter.
  - by apply NoDup_filter.
  - intros k. rewrite Ekeys, list_elem_of_filter, Hk, Ehm. case_decide; split; naive_solver.
  - intros k n. rewrite Ehm. split.
    + case_decide as Hd; [done |]. intros (hs' & Hh & Hin)%Hn. exists hs'. split; [| done].
      rewrite lookup_delete_ne; [done |]. intros ->. apply Hd. apply Hn. eauto.
    + intros (hs' & Hh & Hin). apply lookup_delete_Some in Hh as [Hne Hh].
      assert (hashMap m !! k = Some n) as Hkn by (apply Hn; eauto).
      rewrite decide_False; [done | congruence].
  - intros n [? Hx]. apply lookup_delete_Some in Hx as [_ Hx]. apply Hnm. eauto.
Qed.

(** ** Clockwise ownership *)

(** The first point at or after [h] on the ring, or the first point of all. *)
Definition successor (ks : list Z) (h : Z) : option Z :=
  match head (filter (fun k => h <= k) ks) with
  | Some k => Some k
  | None => head ks
  end.

(** The node a key belongs to; the empty string when there is none. *)
Definition owner (m : ConsistentHashMap) (key : string) : string :=
  match successor (keys m) (HashFunc key) with
  | Some k => default "" (hashMap m !! k)
  | None => ""
  end.

Lemma Get_spec m key : ring_wf m -> key <> "" ->
  exists m', Get m key = Ret (owner m key, m') /\ keys m' = keys m /\ hashMap m' = hashMap m /\
    nodeHashes m' = nodeHashes m.
Proof.
  intros [Hs _ _ _ _] Hne. unfold Get, owner, successor. rewrite bool_decide_false by done.
  destruct (keys m) as [| k0 ks] eqn:Ek.
  { simpl. by exists m. }
  rewrite <- Ek in *. destruct (lower_bound_spec (keys m) (HashFunc key) Hs) as [Hr Hlb].
  assert (0 < zlen (keys m)) by (rewrite Ek, zlen_cons; zlen_pos; lia).
  zcase; [lia |]. rewrite <- Hlb.
  destruct (decide (lower_bound (keys m) (HashFunc key) = zlen (keys m))) as [He | He].
  - rewrite He, Z.eqb_refl. unfold zlen. rewrite Nat2Z.id, lookup_ge_None_2 by done.
    rewrite (go_index_Some (keys m) 0 k0) by (by rewrite Ek). simpl. rewrite Ek. simpl. eexists. done.
  - rewrite (proj2 (Z.eqb_neq _ _) He).
    destruct (zlookup_is_Some (keys m) (lower_bound (keys m) (HashFunc key))) as [k Hkk]; [lia |].
    rewrite (go_index_Some _ _ _ Hkk). simpl. unfold zlookup in Hkk. zcase_in Hkk; [lia |].
    rewrite Hkk. by eexists.
Qed.

Lemma head_filter_filter (P Q : Z -> Prop) `{!forall x, Decision (P x)} `{!forall x, Decision (Q x)} ks k :
  head (filter P ks) = Some k -> Q k -> head (filter P (filter Q ks)) = Some k.
Proof.
  induction ks as [| x ks IH]; [done |]. rewrite (filter_cons P), (filter_cons Q).
  repeat case_decide; simpl; intros E HQ; simplify_eq; rewrite ?filter_cons_True, ?filter_cons_False by done;
    simpl; auto; done.
Qed.

Lemma head_filter_none (P Q : Z -> Prop) `{!forall x, Decision (P x)} `{!forall x, Decision (Q x)} ks :
  head (filter P ks) = None -> head (filter P (filter Q ks)) = None.
Proof.
  induction ks as [| x ks IH]; [done |]. rewrite (filter_cons P), (filter_cons Q).
  repeat case_decide; simpl; intros E; try done; rewrite ?filter_cons_False by done; auto.
Qed.

(** Points that do not own the key play no part. *)
Lemma successor_filter (Q : Z -> Prop) `{!forall x, Decision (Q x)} ks h k :
  successor ks h = Some k -> Q k -> successor (filter Q ks) h = Some k.
Proof.
  intros E HQ. unfold successor in *.
  destruct (head (filter (fun k => h <= k) ks)) as [k1 |] eqn:E1.
  - injection E as ->. by rewrite (head_filter_filter _ _ ks k).
  - rewrite head_filter_none by done. destruct ks as [| x ks]; [done |]. injection E as ->.
    by rewrite filter_cons_True.
Qed.

Lemma successor_mem ks h k : successor ks h = Some k -> k ∈ ks.
Proof.
  unfold successor. destruct (head (filter _ ks)) as [k1 |] eqn:E.
  - intros [= ->]. apply head_filter_Some in E as (l1 & l2 & -> & _). set_solver.
  - destruct ks; [done |]. intros [= ->]. set_solver.
Qed.

Lemma successor_is_Some ks h : ks <> [] -> is_Some (successor ks h).
Proof. intros Hne. unfold successor. destruct (head (filter _ ks)); [by eexists |]. by destruct ks; [| eexists]. Qed.

(** [Get] follows the ring.  On a well-formed ring with at least one point,
    [Get] returns a registered node: the one owning the first point at or after
    the key's hash, going round at the end; the ring itself does not change. *)
Theorem Get_owner m key :
  ring_wf m -> keys m <> [] -> key <> "" ->
  exists m', Get m key = Ret (owner m key, m') /\ keys m' = keys m /\ hashMap m' = hashMap m /\
    is_Some (nodeHashes m !! owner m key).
Proof.
  intros Hw Hne Hkey. destruct (Get_spec m key Hw Hkey) as (m' & E & Hk & Hh & _).
  exists m'. split_and!; try done. unfold owner.
  destruct (successor_is_Some (keys m) (HashFunc key) Hne) as [k Ek]. rewrite Ek.
  apply successor_mem, (rw_keys _ Hw) in Ek as [n Hn]. rewrite Hn. simpl.
  apply (rw_nodes _ Hw) in Hn as (hs & -> & _). by eexists.
Qed.

(** A ring whose points are some of the points of another, with the same
    owners: a key owned by a point of both is owned alike. *)
Lemma owner_filter m m' (Q : Z -> Prop) `{!forall x, Decision (Q x)} key k :
  keys m = filter Q (keys m') -> (forall x, Q x -> hashMap m !! x = hashMap m' !! x) ->
  successor (keys m') (HashFunc key) = Some k -> Q k -> owner m key = owner m' key.
Proof.
  intros Hk Hh Es HQ. unfold owner. rewrite Es, Hk, (successor_filter Q _ _ k) by done. by rewrite Hh.
Qed.

(** Removing a node moves only its keys.  [Remove] of a registered node keeps
    the ring well-formed, forgets the node, and every key owned by another node
    keeps its owner. *)
Theorem remove_moves_only_its_keys m node m' :
  ring_wf m -> Remove m node = Ok m' ->
  ring_wf m' /\ nodeHashes m' !! node = None /\
  forall key, owner m key <> node -> owner m' key = owner m key.
Proof.
  intros Hw E. destruct (Remove_spec m node m' Hw E) as (Hw' & Hn & Hk & Hh).
  split; [done |]. split; [by rewrite Hn, lookup_delete_eq |]. intros key Hne.
  destruct (successor (keys m) (HashFunc key)) as [k |] eqn:Es.
  - apply (owner_filter m' m (fun k => hashMap m !! k <> Some node) key k); try done.
    + intros x Hx. by rewrite Hh, decide_False.
    + intros Hkn. apply Hne. unfold owner. by rewrite Es, Hkn.
  - assert (keys m = []) as Hnil.
    { destruct (keys m) eqn:Ek; [done |]. destruct (successor_is_Some (keys m) (HashFunc key)) as [? Hx];
        [by rewrite Ek |]. rewrite Ek in Hx. congruence. }
    unfold owner. by rewrite Hk, Hnil.
Qed.

(** Adding nodes moves keys only to them.  [Add] keeps the ring well-formed,
    registers the nodes, and a key either keeps its owner or goes to one of the
    nodes added. *)
Theorem add_moves_only_to_new m nodes m' :
  ring_wf m -> Add m nodes = Ok m' ->
  ring_wf m' /\ (forall n, n ∈ nodes -> n <> "" -> is_Some (nodeHashes m' !! n)) /\
  forall key, keys m <> [] -> owner m' key = owner m key \/ owner m' key ∈ nodes.
Proof.
  intros Hw E. destruct (Add_spec m nodes m' Hw E) as [Hw' Hg].
  split; [done |]. split; [apply Hg |]. intros key Hne.
  assert (keys m <> [] -> keys m' <> []) as Hne'.
  { intros _ Hnil. destruct (keys m) as [| k ks] eqn:Ek; [done |].
    assert (k ∈ keys m) as Hin by (rewrite Ek; set_solver).
    apply (rw_keys _ Hw) in Hin as [n Hn]. apply (gr_old _ _ _ Hg) in Hn.
    assert (k ∈ keys m') as Hin' by (apply (rw_keys _ Hw'); eauto). rewrite Hnil in Hin'. set_solver. }
  destruct (successor_is_Some (keys m') (HashFunc key) (Hne' Hne)) as [k Es].
  pose proof (successor_mem _ _ _ Es) as [n Hn]%(rw_keys _ Hw').
  destruct (gr_new _ _ _ Hg k n Hn) as [Hold | Hin].
  - left. symmetry. apply (owner_filter m m' (fun x => is_Some (hashMap m !! x)) key k). 3: done. 3: by eexists.
    + apply (StronglySorted_unique Z.le); [apply Hw | apply sorted_filter, Hw' |].
      apply NoDup_Permutation; [apply Hw | apply NoDup_filter, Hw' |]. intros x.
      rewrite list_elem_of_filter, (rw_keys _ Hw), (rw_keys _ Hw'). split; [| naive_solver].
      intros [y Hy]. split; [by eexists |]. exists y. by apply (gr_old _ _ _ Hg).
    + intros x [y Hy]. rewrite Hy. symmetry. by apply (gr_old _ _ _ Hg).
  - right. unfold owner. by rewrite Es, Hn.
Qed.

End Ring.

(** ** Concrete rings *)

(** A hash function for the examples: BKDR, modulo 2^32. *)
Definition ex_hash (s : string) : Z :=
  foldl (fun h a => u32 (h * 131 + Z.of_N (Ascii.N_of_ascii a))) 0 (String.list_ascii_of_string s).

Definition ring_of (hash : string -> Z) (replicas : Z) (nodes : list string) : ConsistentHashMap :=
  match Add hash replicas NewConsistentHash nodes with Ok m => m | Err _ => NewConsistentHash end.

Definition ex_ring : ConsistentHashMap := ring_of ex_hash 3 ["a"; "b"; "c"].

Lemma ring_New_wf : ring_wf NewConsistentHash.
Proof.
  split; simpl; [constructor | constructor | | |].
  - intros k. rewrite lookup_empty. split; [by intros ?%not_elem_of_nil | by intros [? ?]].
  - intros k node. rewrite !lookup_empty. split; [done | by intros (hs & ? & _)].
  - intros node. rewrite lookup_empty. by intros [? ?].
Qed.

Lemma ex_ring_wf : ring_wf ex_ring.
Proof.
  apply (Add_spec ex_hash 3 NewConsistentHash ["a"; "b"; "c"]); [apply ring_New_wf | by vm_compute].
Qed.

Lemma Get_owner_witness :
  exists m', Get ex_hash ex_ring "some key" = Ret (owner ex_hash ex_ring "some key", m') /\
    is_Some (nodeHashes ex_ring !! owner ex_hash ex_ring "some key").
Proof.
  destruct (Get_owner ex_hash ex_ring "some key" ex_ring_wf) as (m' & E & _ & _ & Hn);
    [by vm_compute | done |].
  exists m'. split; [exact E | exact Hn].
Defined.

Lemma remove_moves_only_its_keys_witness :
  exists m', Remove ex_ring "b" = Ok m' /\
    forall key, owner ex_hash ex_ring key <> "b" -> owner ex_hash m' key = owner ex_hash ex_ring key.
Proof.
  destruct (Remove ex_ring "b") as [m' | e] eqn:E; [| by vm_compute in E].
  exists m'. split; [done |].
  destruct (remove_moves_only_its_keys ex_hash ex_ring "b" m' ex_ring_wf E) as (_ & _ & Hk). exact Hk.
Defined.

Lemma add_moves_only_to_new_witness :
  exists m', Add ex_hash 3 ex_ring ["d"] = Ok m' /\
    forall key, owner ex_hash m' key = owner ex_hash ex_ring key \/ owner ex_hash m' key ∈ ["d"].
Proof.
  destruct (Add ex_hash 3 ex_ring ["d"]) as [m' | e] eqn:E; [| by vm_compute in E].
  exists m'. split; [done |].
  destruct (add_moves_only_to_new ex_hash 3 ex_ring ["d"] m' ex_ring_wf E) as (_ & _ & Hk).
  intros key. apply Hk. by vm_compute.
Defined.

(** A hash function under which the first replicas of "a" and "b" collide. *)
Definition colliding (s : string) : Z :=
  if bool_decide (s = "a-0") then 100 else if bool_decide (s = "b-0") then 100 else ex_hash s.

(** On a collision the ring depends on the order of the nodes.  A point that
    is already taken is skipped, so two rings of the same nodes, added in
    different orders, may send the same key to different nodes; and a point lost
    to a collision is not given back when its holder is removed. *)
Theorem collision_depends_on_order :
  owner colliding (ring_of colliding 1 ["a"; "b"]) "k" = "a" /\
  owner colliding (ring_of colliding 1 ["b"; "a"]) "k" = "b" /\
  exists m', Remove (ring_of colliding 1 ["a"; "b"]) "a" = Ok m' /\
    is_Some (nodeHashes m' !! "b") /\ owner colliding m' "k" = "".
Proof.
  split; [by vm_compute |]. split; [by vm_compute |].
  eexists. split; [by vm_compute |]. split; [by vm_compute; eauto | by vm_compute].
Qed.
