(* ===== verification/CacheList.v ===== *)
(** * Cache: the linked list of an LRU segment

    The array-based doubly linked list of [libs/yukino_cache/lru.go]: slot 0 of
    [doubleLink] is the sentinel, [doubleLink[i][n]] points towards the oldest
    entry and [doubleLink[i][p]] towards the newest.  [adjust] moves a slot to
    one end; it is shown to implement that move on the list of slots. *)
From S2P Require Import Prelude.

(** The second index of [doubleLink]: [p] is 0 and [n] is 1. *)
Inductive side := Sp | Sn.

Definition other (s : side) : side := match s with Sp => Sn | Sn => Sp end.

#[export] Instance side_eq_dec : EqDecision side.
Proof. solve_decision. Defined.

Definition pick (s : side) (x : Z * Z) : Z := match s with Sp => x.1 | Sn => x.2 end.
Definition put_side (s : side) (x : Z * Z) (v : Z) : Z * Z :=
  match s with Sp => (v, x.2) | Sn => (x.1, v) end.

(** [doubleLink[i][s]] and [doubleLink[i][s] = v] *)
Definition dl_get (dl : list (Z * Z)) (i : Z) (s : side) : outcome Z :=
  x ← go_index dl i; Ret (pick s x).
Definition dl_set (dl : list (Z * Z)) (i : Z) (s : side) (v : Z) : outcome (list (Z * Z)) :=
  x ← go_index dl i; Ret (<[Z.to_nat i := put_side s x v]> dl).

Definition adjust (dl : list (Z * Z)) (idx : Z) (f t : side) : outcome (list (Z * Z)) :=
  a ← dl_get dl idx f;
  if negb (a =? 0) then
    b ← dl_get dl idx t;
    a ← dl_get dl idx f;
    dl ← dl_set dl b f a;
    a ← dl_get dl idx f;
    b ← dl_get dl idx t;
    dl ← dl_set dl a t b;
    dl ← dl_set dl idx f 0;
    h ← dl_get dl 0 t;
    dl ← dl_set dl idx t h;
    h ← dl_get dl 0 t;
    dl ← dl_set dl h f idx;
    dl_set dl 0 t idx
  else Ret dl.

(** ** Links as functions *)

Definition at_ (dl : list (Z * Z)) (s : side) (i : Z) : Z :=
  match zlookup dl i with Some x => pick s x | None => 0 end.

Definition upd (g : Z -> Z) (i v : Z) : Z -> Z := fun j => if decide (j = i) then v else g j.

Lemma dl_get_ok dl i s : 0 <= i < zlen dl -> dl_get dl i s = Ret (at_ dl s i).
Proof.
  intros Hi. destruct (zlookup_is_Some dl i Hi) as [x Hx]. unfold dl_get, at_.
  by rewrite (go_index_Some _ _ _ Hx), Hx.
Qed.

Lemma dl_set_ok dl i s v : 0 <= i < zlen dl -> exists dl', dl_set dl i s v = Ret dl' /\
  zlen dl' = zlen dl /\ (forall j, at_ dl' s j = upd (at_ dl s) i v j) /\
  (forall j, at_ dl' (other s) j = at_ dl (other s) j).
Proof.
  intros Hi. destruct (zlookup_is_Some dl i Hi) as [x Hx]. unfold dl_set.
  rewrite (go_index_Some _ _ _ Hx). simpl. eexists. split; [done |].
  split; [unfold zlen; by rewrite length_insert |].
  assert (forall j, zlookup (<[Z.to_nat i := put_side s x v]> dl) j =
                    if decide (j = i) then Some (put_side s x v) else zlookup dl j) as Hl.
  { intros j. unfold zlookup in *. zcase; [case_decide; [lia | done] |]. zcase_in Hx; [lia |].
    case_decide as Hd; [subst; apply list_lookup_insert_eq; unfold zlen in *; lia |].
    rewrite list_lookup_insert_ne; [done | lia]. }
  split; intros j; unfold at_, upd; rewrite Hl; case_decide; subst; try done.
  - by destruct s.
  - rewrite Hx. by destruct s.
Qed.

(** [path g x l y]: from [x] the function [g] leads through [l] to [y]. *)
Fixpoint path (g : Z -> Z) (x : Z) (l : list Z) (y : Z) : Prop :=
  match l with
  | [] => g x = y
  | z :: l' => g x = z /\ path g z l' y
  end.

Lemma path_app g x l z k y : path g x (l ++ z :: k) y <-> path g x l z /\ path g z k y.
Proof. revert x. induction l as [| w l IH]; intros x; simpl; [done |]. rewrite IH. tauto. Qed.

(** The same nodes from another start, when the start leads to the same node. *)
Lemma path_start g g' x x' l y :
  path g x l y -> g' x' = g x -> (forall z, z ∈ l -> g' z = g z) -> path g' x' l y.
Proof.
  revert x x'. induction l as [| w l IH]; intros x x'; simpl; [congruence |].
  intros [Hx Hp] Hx' Hl. split; [congruence |]. apply (IH w w Hp).
  - apply Hl. by left.
  - intros z Hz. apply Hl. by right.
Qed.

(** The same nodes to another end, when the last node leads there. *)
Lemma path_end g g' x l y y' :
  path g x l y -> NoDup (x :: l) -> g' (default x (last l)) = y' ->
  (forall z, z ∈ x :: l -> z <> default x (last l) -> g' z = g z) -> path g' x l y'.
Proof.
  revert x. induction l as [| w l IH]; intros x; cbn [path]; [done |].
  intros [Hx Hp] Hnd Hlast Hl. apply NoDup_cons in Hnd as [Hxn Hnd].
  assert (default x (last (w :: l)) = default w (last l)) as El
    by (rewrite last_cons; by destruct (last l)).
  rewrite El in *.
  assert (default w (last l) ∈ w :: l) as Hin.
  { destruct (last l) eqn:E; simpl; [right; by apply last_Some_elem_of | left]. }
  split; [rewrite Hl; [done | by left | intros ->; contradiction] |].
  apply IH; try done. intros z Hz. apply Hl. by right.
Qed.

(** ** The ring *)

(** [ring dl s order]: following [s] from the sentinel visits [order]; following
    the other side visits it backwards. *)
Record ring (dl : list (Z * Z)) (s : side) (order : list Z) : Prop := {
  ri_forth : path (at_ dl s) 0 order 0;
  ri_back : path (at_ dl (other s)) 0 (rev order) 0;
  ri_nodup : NoDup order;
  ri_range : Forall (fun i => 0 < i < zlen dl) order
}.

Lemma rev_Permutation (l : list Z) : rev l ≡ₚ l.
Proof. symmetry. apply Permutation_rev. Qed.

Lemma ring_sym dl s order : ring dl s order -> ring dl (other s) (rev order).
Proof.
  intros []. split.
  - done.
  - rewrite rev_involutive. by destruct s.
  - by rewrite rev_Permutation.
  - apply Forall_forall. intros i Hi. rewrite Forall_forall in ri_range0. apply ri_range0.
    by apply list_elem_of_In, in_rev, list_elem_of_In.
Qed.

Definition without (i : Z) (l : list Z) : list Z := filter (fun j => j <> i) l.

Lemma without_notin i l : i ∉ l -> without i l = l.
Proof.
  induction l as [| x l IH]; intros Hn; [done |]. unfold without. rewrite filter_cons_True by set_solver.
  f_equal. apply IH. set_solver.
Qed.

Lemma without_split i A B : NoDup (A ++ i :: B) -> without i (A ++ i :: B) = A ++ B.
Proof.
  intros Hnd. apply NoDup_app in Hnd as (_ & Hd & Hnd2). apply NoDup_cons in Hnd2 as [HB _].
  unfold without. rewrite filter_app, filter_cons_False by tauto. f_equal; apply without_notin; set_solver.
Qed.

(** The pointer operations of a move, on the link functions. *)
Lemma move_forth T A a idx B h : let T' := upd (upd (upd T a (default 0 (head B))) idx h) 0 idx in
  path T 0 ((A ++ [a]) ++ idx :: B) 0 -> NoDup ((A ++ [a]) ++ idx :: B) ->
  0 ∉ (A ++ [a]) ++ idx :: B -> h = T 0 ->
  path T' 0 (idx :: (A ++ [a]) ++ B) 0.
Proof.
  intros T' Hp Hnd H0 Hh. rewrite <- app_assoc in *. simpl in *.
  apply path_app in Hp as [HpA [HTa HpB]].
  assert (NoDup (a :: idx :: B) /\ (forall x, x ∈ A -> x <> a /\ x <> idx /\ x <> 0 /\ x ∉ B)) as [Hnd2 HA].
  { apply NoDup_app in Hnd as (_ & Hd & ?). split; [done |]. intros x Hx. specialize (Hd x Hx). set_solver. }
  assert (idx <> 0 /\ a <> 0 /\ 0 ∉ B) as (Hi0 & Ha0 & HB0) by set_solver.
  apply NoDup_cons in Hnd2 as [Hai [HiB HndB]%NoDup_cons].
  assert (a <> idx /\ a ∉ B) as [Hne HaB] by set_solver.
  split; [unfold T', upd; by rewrite decide_True |]. apply path_app. split.
  - eapply path_start; [exact HpA | |].
    + unfold T', upd. rewrite decide_False, decide_True by done. done.
    + intros z Hz. destruct (HA z Hz) as (? & ? & ? & ?). unfold T', upd. by rewrite !decide_False.
  - assert (T idx = default 0 (head B)) as HTi by (destruct B; apply HpB).
    eapply path_start; [exact HpB | |].
    + unfold T', upd. rewrite HTi, !decide_False, decide_True by done. done.
    + intros z Hz. unfold T', upd. rewrite !decide_False; set_solver.
Qed.

Lemma last_rev (l : list Z) : last (rev l) = head l.
Proof. destruct l as [| x l]; [done |]. simpl. by rewrite last_snoc. Qed.

Lemma move_back F A a idx B h : let F' := upd (upd (upd F (default 0 (head B)) a) idx 0) h idx in
  path F 0 (rev ((A ++ [a]) ++ idx :: B)) 0 -> NoDup ((A ++ [a]) ++ idx :: B) ->
  0 ∉ (A ++ [a]) ++ idx :: B -> h = default a (head A) ->
  path F' 0 (rev (idx :: (A ++ [a]) ++ B)) 0.
Proof.
  intros F' Hp Hnd H0 Hh.
  assert (rev ((A ++ [a]) ++ idx :: B) = rev B ++ idx :: a :: rev A) as E1.
  { rewrite !rev_app_distr. simpl. by rewrite <- app_assoc. }
  assert (rev (idx :: (A ++ [a]) ++ B) = rev B ++ a :: rev A ++ [idx]) as E2.
  { simpl. rewrite !rev_app_distr. simpl. by rewrite <- app_assoc. }
  rewrite E1 in Hp. rewrite E2. apply path_app in Hp as [HpB [HFi HpA]].
  rewrite <- app_assoc in *. simpl in *.
  assert (NoDup (a :: idx :: B) /\ NoDup (a :: A) /\ (forall x, x ∈ a :: A -> x <> idx /\ x <> 0 /\ x ∉ B))
    as (Hnd2 & HndA & HA).
  { apply NoDup_app in Hnd as (HnA & Hd & Hn2). split; [done |]. apply NoDup_cons in Hn2 as Hn3.
    destruct Hn3 as [? [? ?]%NoDup_cons]. split; [constructor; [| done]; intros Hx; specialize (Hd _ Hx); set_solver |].
    intros x [-> | Hx]%elem_of_cons; [set_solver |]. specialize (Hd x Hx). set_solver. }
  assert (idx <> 0 /\ 0 ∉ B) as (Hi0 & HB0) by set_solver.
  apply NoDup_cons in Hnd2 as [Hai [HiB HndB]%NoDup_cons].
  set (b := default 0 (head B)) in *.
  assert (b = 0 \/ b ∈ B) as Hb by (subst b; destruct B; simpl; set_solver).
  assert (h ∈ a :: A) as HhA by (subst h; destruct A; simpl; set_solver).
  destruct (HA h HhA) as (Hhi & Hh0 & HhB).
  assert (b <> idx) as Hbi by (intros Eb; rewrite Eb in Hb; by destruct Hb).
  assert (b <> h) as Hbh by (intros Eb; rewrite Eb in Hb; by destruct Hb).
  apply path_app. split.
  - eapply path_end; [exact HpB | | |].
    + constructor; [by intros Hx%list_elem_of_In%in_rev%list_elem_of_In |].
      by rewrite rev_Permutation.
    + rewrite last_rev. fold b. unfold F', upd. by rewrite (decide_False (P := b = h)), (decide_False (P := b = idx)), decide_True.
    + rewrite last_rev. fold b. intros z Hz Hzb. unfold F', upd.
      assert (z = 0 \/ z ∈ B) as Hz'.
      { apply elem_of_cons in Hz as [-> | Hz]; [by left | right]. by apply list_elem_of_In, in_rev, list_elem_of_In. }
      rewrite !decide_False; [done | done | |]; intros ->; destruct Hz' as [? | ?]; done.
  - apply path_app. split; [| simpl; unfold F', upd; by rewrite (decide_False (P := idx = h)), decide_True].
    eapply path_end; [exact HpA | by rewrite rev_Permutation | |].
    + rewrite last_rev, <- Hh. unfold F', upd. by rewrite decide_True.
    + rewrite last_rev, <- Hh. intros z Hz Hzh.
      assert (z ∈ a :: A) as Hz'.
      { apply elem_of_cons in Hz as [-> | Hz]; [by left | right]. by apply list_elem_of_In, in_rev, list_elem_of_In. }
      destruct (HA z Hz') as (? & ? & ?). unfold F', upd.
      rewrite !decide_False; [done | | done | done]. intros ->. by destruct Hb.
Qed.

Lemma other_other s : other (other s) = s.
Proof. by destruct s. Qed.

Lemma path_ext g g' x l y : (forall z, g z = g' z) -> path g x l y -> path g' x l y.
Proof. intros E Hp. by apply (path_start g g' x x l y Hp). Qed.

(** [adjust] moves a slot to the front of the direction [t]. *)
Lemma adjust_spec dl t order idx : ring dl t order -> idx ∈ order -> 0 < zlen dl ->
  exists dl', adjust dl idx (other t) t = Ret dl' /\ zlen dl' = zlen dl /\
    ring dl' t (idx :: without idx order).
Proof.
  intros Hr Hin Hlen. pose proof Hr as [Hf Hb Hnd Hrg].
  apply list_elem_of_split in Hin as (A & B & ->).
  assert (Forall (fun i => 0 < i < zlen dl) A /\ 0 < idx < zlen dl /\ Forall (fun i => 0 < i < zlen dl) B)
    as (HrA & Hri & HrB) by (apply Forall_app in Hrg as [? Hx]; by apply Forall_cons in Hx as [? ?]).
  assert (0 ∉ A ++ idx :: B) as H0.
  { intros Hx. rewrite Forall_forall in Hrg. specialize (Hrg 0 Hx). lia. }
  rewrite without_split by done.
  unfold adjust. rewrite dl_get_ok by lia. cbn [mbind outcome_bind].
  destruct A as [| a A _] using rev_ind.
  { assert (at_ dl (other t) idx = 0) as E.
    { simpl in Hb. by apply path_app in Hb as [_ ?]. }
    rewrite E. simpl. exists dl. by split_and!. }
  apply Forall_app in HrA as [HrA Hra]. apply Forall_cons in Hra as [Hra _].
  set (T := at_ dl t) in *. set (F := at_ dl (other t)) in *.
  set (b := default 0 (head B)). set (h := default a (head A)).
  assert (F idx = a) as HFi.
  { rewrite !rev_app_distr in Hb. simpl in Hb. rewrite <- app_assoc in Hb. simpl in Hb.
    by apply path_app in Hb as [_ [? _]]. }
  assert (T idx = b) as HTi by (apply path_app in Hf as [_ Hx]; subst b; by destruct B; apply Hx).
  assert (T 0 = h) as HT0 by (subst h; destruct A; simpl in Hf; apply Hf).
  assert (0 <= b < zlen dl) as Hbr.
  { subst b. destruct B; simpl; [lia |]. apply Forall_cons in HrB as [? _]. lia. }
  assert (0 < h < zlen dl) as Hhr.
  { subst h. destruct A; simpl; [lia |]. by apply Forall_cons in HrA as [? _]. }
  assert (a <> idx /\ a <> 0) as [Hai Ha0].
  { split; [| lia]. intros ->. apply NoDup_app in Hnd as (_ & Hd & _). apply (Hd idx); set_solver. }
  rewrite HFi. zcase; [| lia].
  rewrite dl_get_ok by lia. cbn [mbind outcome_bind]. fold T. rewrite HTi.
  destruct (dl_set_ok dl b (other t) a Hbr) as (d1 & -> & L1 & F1 & T1).
  rewrite other_other in T1. cbn [mbind outcome_bind].
  do 2 (rewrite dl_get_ok by lia; cbn [mbind outcome_bind]).
  assert (at_ d1 (other t) idx = a) as -> by (rewrite F1; unfold upd; case_decide; done).
  rewrite T1. fold T. rewrite HTi.
  destruct (dl_set_ok d1 a t b) as (d2 & -> & L2 & T2 & F2); [lia |]. cbn [mbind outcome_bind].
  destruct (dl_set_ok d2 idx (other t) 0) as (d3 & -> & L3 & F3 & T3); [lia |].
  rewrite other_other in T3. cbn [mbind outcome_bind]. rewrite dl_get_ok by lia. cbn [mbind outcome_bind].
  assert (at_ d3 t 0 = h) as ->.
  { rewrite T3, T2. unfold upd. rewrite decide_False by lia. rewrite T1. done. }
  destruct (dl_set_ok d3 idx t h) as (d4 & -> & L4 & T4 & F4); [lia |]. cbn [mbind outcome_bind].
  rewrite dl_get_ok by lia. cbn [mbind outcome_bind].
  assert (at_ d4 t 0 = h) as ->.
  { rewrite T4. unfold upd. rewrite decide_False by lia. rewrite T3, T2. unfold upd.
    rewrite decide_False by lia. rewrite T1. done. }
  destruct (dl_set_ok d4 h (other t) idx) as (d5 & -> & L5 & F5 & T5); [lia |].
  rewrite other_other in T5. cbn [mbind outcome_bind].
  destruct (dl_set_ok d5 0 t idx) as (d6 & -> & L6 & T6 & F6); [lia |].
  exists d6. split; [done |]. split; [lia |]. split.
  - apply (path_ext (upd (upd (upd T a b) idx h) 0 idx)); [| by apply move_forth].
    intros z. rewrite T6. unfold upd. case_decide; [done |]. rewrite T5, T4. unfold upd.
    case_decide; [done |]. rewrite T3, T2. unfold upd. case_decide; [done |]. by rewrite T1.
  - apply (path_ext (upd (upd (upd F b a) idx 0) h idx)); [| by apply move_back].
    intros z. rewrite F6, F5. unfold upd. case_decide; [done |]. rewrite F4, F3. unfold upd.
    case_decide; [done |]. rewrite F2, F1. done.
  - apply NoDup_app in Hnd as (Hn1 & Hd & [HiB HnB]%NoDup_cons). constructor.
    + intros [Hx | Hx]%elem_of_app; [apply (Hd idx Hx); set_solver | done].
    + apply NoDup_app. split_and!; try done. intros x Hx Hx2. apply (Hd x Hx). set_solver.
  - constructor; [lia |]. apply Forall_app. split; [apply Forall_app; split; [| repeat constructor] |];
      try (eapply Forall_impl; [eassumption |]; simpl; lia); lia.
Qed.

(** A new slot [i] put in front, as [put] does it. *)
Definition push_front (dl : list (Z * Z)) (i : Z) (empty : bool) : outcome (list (Z * Z)) :=
  dl ← (if empty then dl_set dl 0 Sp i
        else h ← dl_get dl 0 Sn; dl_set dl h Sp i);
  h ← dl_get dl 0 Sn;
  _ ← go_index dl i;
  let dl := <[Z.to_nat i := (0, h)]> dl in
  dl_set dl 0 Sn i.

Lemma slot_set_ok (dl : list (Z * Z)) i x : 0 <= i < zlen dl ->
  zlen (<[Z.to_nat i := x]> dl) = zlen dl /\
  forall s j, at_ (<[Z.to_nat i := x]> dl) s j = upd (at_ dl s) i (pick s x) j.
Proof.
  intros Hi. split; [unfold zlen; by rewrite length_insert |]. intros s j. unfold at_, upd, zlookup.
  zcase; [case_decide; [lia | done] |]. case_decide as Hd.
  - subst. rewrite list_lookup_insert_eq; [done | unfold zlen in *; lia].
  - rewrite list_lookup_insert_ne; [done | lia].
Qed.

Lemma push_front_spec dl order i empty : ring dl Sn order -> i ∉ order -> 0 < i < zlen dl ->
  (empty = true <-> order = []) ->
  exists dl', push_front dl i empty = Ret dl' /\ zlen dl' = zlen dl /\ ring dl' Sn (i :: order).
Proof.
  intros [Hf Hb Hnd Hrg] Hni Hi He. simpl in Hb. unfold push_front.
  set (T := at_ dl Sn) in *. set (F := at_ dl Sp) in *. set (h := default 0 (head order)).
  assert (T 0 = h) as HT0 by (subst h; destruct order; apply Hf).
  assert (0 <= h < zlen dl /\ h <> i) as [Hh Hhi].
  { subst h. destruct order as [| z order]; simpl; [lia |]. apply Forall_cons in Hrg as [? _]. split; [lia |].
    intros ->. apply Hni. by left. }
  assert (0 ∉ order) as H0.
  { intros Hx. rewrite Forall_forall in Hrg. specialize (Hrg 0 Hx). lia. }
  assert ((if empty then dl_set dl 0 Sp i else h ← dl_get dl 0 Sn; dl_set dl h Sp i) = dl_set dl h Sp i) as ->.
  { rewrite dl_get_ok by lia. fold T. rewrite HT0. cbn [mbind outcome_bind]. destruct empty; [| done].
    subst h. by rewrite (proj1 He eq_refl). }
  destruct (dl_set_ok dl h Sp i Hh) as (d1 & -> & L1 & F1 & T1). simpl in T1.
  cbn [mbind outcome_bind]. rewrite dl_get_ok by lia. cbn [mbind outcome_bind]. rewrite T1. fold T. rewrite HT0.
  destruct (zlookup_is_Some d1 i) as [y Hy]; [lia |]. rewrite (go_index_Some _ _ _ Hy). cbn [mbind outcome_bind].
  destruct (slot_set_ok d1 i (0, h)) as [L2 G2]; [lia |].
  set (d2 := <[Z.to_nat i := (0, h)]> d1) in *.
  destruct (dl_set_ok d2 0 Sn i) as (d3 & -> & L3 & T3 & F3); [lia |]. simpl in F3.
  exists d3. split; [done |]. split; [lia |]. split.
  - simpl. split; [rewrite T3; unfold upd; by rewrite decide_True |].
    eapply path_start; [exact Hf | |].
    + rewrite T3. unfold upd. rewrite decide_False by lia. rewrite G2. unfold upd. by rewrite decide_True.
    + intros z Hz. rewrite T3. unfold upd. rewrite decide_False by congruence. rewrite G2. unfold upd.
      rewrite decide_False by congruence. apply T1.
  - simpl. apply path_app. split.
    + eapply path_end; [exact Hb | | |].
      * constructor; [by intros Hx%list_elem_of_In%in_rev%list_elem_of_In | by rewrite rev_Permutation].
      * rewrite last_rev. fold h. rewrite F3, G2. unfold upd. rewrite decide_False by done. rewrite F1.
        unfold upd. by rewrite decide_True.
      * rewrite last_rev. fold h. intros z Hz Hzh. rewrite F3, G2. unfold upd.
        rewrite decide_False; [rewrite F1; unfold upd; by rewrite decide_False |].
        intros ->. apply elem_of_cons in Hz as [-> | Hz]; [lia |].
        apply Hni. by apply list_elem_of_In, in_rev, list_elem_of_In.
    + simpl. rewrite F3, G2. unfold upd. by rewrite decide_True.
  - by constructor.
  - constructor; [lia |]. eapply Forall_impl; [exact Hrg |]. simpl. lia.
Qed.

Lemma ring_last dl s order : ring dl s order -> at_ dl (other s) 0 = default 0 (last order).
Proof.
  intros [_ Hb _ _]. rewrite <- (rev_involutive order), last_rev.
  destruct (rev order) as [| z l]; apply Hb.
Qed.

Lemma ring_head dl s order : ring dl s order -> at_ dl s 0 = default 0 (head order).
Proof. intros [Hf _ _ _]. destruct order; apply Hf. Qed.
