(* ===== verification/CacheLru.v ===== *)
(** * Cache: the two-level LRU store

    [libs/yukino_cache/lru.go].  [cache] is one LRU segment: an array of
    entries, a key index and the linked list of [CacheList]; a bucket of the
    store is a pair of segments, level 0 for entries used once and level 1 for
    entries used again.  Calls of [onEvicted] are returned as a list, in order.
    [Now()] is an argument.  A [Value] is a type with its [Len]; nil is [None]. *)
From S2P Require Import Prelude CacheList.

Section Lru.
Context {V : Type} (vLen : V -> Z).

Record lnode := mkLnode { nd_k : string; nd_v : option V; nd_expireAt : Z }.

Record cache := mkCache {
  doubleLink : list (Z * Z);
  c_m : list lnode;
  c_hashMap : gmap string Z;
  c_bytes : Z;
  c_nevict : Z;
  c_last : Z
}.

Definition zeroNode : lnode := mkLnode "" None 0.

Definition Create (cap : Z) : cache :=
  mkCache (replicate (Z.to_nat (u16 (cap + 1))) (0, 0)) (replicate (Z.to_nat cap) zeroNode) ∅ 0 0 0.

Definition strlen (s : string) : Z := Z.of_nat (String.length s).

Definition entryBytes (key : string) (val : option V) : Z :=
  match val with
  | None => strlen key
  | Some v => s64 (strlen key + vLen v)
  end.

Definition evicted := list (string * option V).

(** [c.m[idx-1]] and assignments to it. *)
Definition slot (c : cache) (idx : Z) : outcome lnode := go_index (c_m c) (u16 (idx - 1)).
Definition set_slot (idx : Z) (nd : lnode) (c : cache) : cache :=
  mkCache (doubleLink c) (<[Z.to_nat (u16 (idx - 1)) := nd]> (c_m c)) (c_hashMap c) (c_bytes c)
    (c_nevict c) (c_last c).
Definition set_links (dl : list (Z * Z)) (c : cache) : cache :=
  mkCache dl (c_m c) (c_hashMap c) (c_bytes c) (c_nevict c) (c_last c).
Definition set_bytes (b : Z) (c : cache) : cache :=
  mkCache (doubleLink c) (c_m c) (c_hashMap c) b (c_nevict c) (c_last c).

Definition put (c : cache) (key : string) (val : option V) (expireAt : Z) : outcome (cache * Z * evicted) :=
  match c_hashMap c !! key with
  | Some idx =>
      nd ← slot c idx;
      let b := if 0 <? nd_expireAt nd
               then s64 (c_bytes c + s64 (entryBytes key val - entryBytes (nd_k nd) (nd_v nd)))
               else s64 (c_bytes c + entryBytes key val) in
      let c := set_slot idx (mkLnode (nd_k nd) val expireAt) (set_bytes b c) in
      dl ← adjust (doubleLink c) idx Sp Sn;
      Ret (set_links dl c, 0, [])
  | None =>
      if c_last c =? u16 (zlen (c_m c)) then
        t ← dl_get (doubleLink c) 0 Sp;
        tail ← slot c t;
        let '(b, nev, ev) :=
          if 0 <? nd_expireAt tail
          then (s64 (c_bytes c - entryBytes (nd_k tail) (nd_v tail)), s64 (c_nevict c + 1),
                [(nd_k tail, nd_v tail)])
          else (c_bytes c, c_nevict c, []) in
        let hm := delete (nd_k tail) (c_hashMap c) in
        let b := s64 (b + entryBytes key val) in
        let c := mkCache (doubleLink c) (<[Z.to_nat (u16 (t - 1)) := mkLnode key val expireAt]> (c_m c))
                   (<[key := t]> hm) b nev (c_last c) in
        t' ← dl_get (doubleLink c) 0 Sp;
        dl ← adjust (doubleLink c) t' Sp Sn;
        Ret (set_links dl c, 1, ev)
      else
        let last := u16 (c_last c + 1) in
        dl ← push_front (doubleLink c) last (Z.of_nat (size (c_hashMap c)) <=? 0);
        _ ← go_index (c_m c) (u16 (last - 1));
        Ret (mkCache dl (<[Z.to_nat (u16 (last - 1)) := mkLnode key val expireAt]> (c_m c))
               (<[key := last]> (c_hashMap c)) (s64 (c_bytes c + entryBytes key val)) (c_nevict c) last,
             1, [])
  end.

(** [peek]: the entry and its slot. *)
Definition peek (c : cache) (key : string) : outcome (option (lnode * Z)) :=
  match c_hashMap c !! key with
  | Some idx => nd ← slot c idx; Ret (Some (nd, idx))
  | None => Ret None
  end.

(** [del]: the slot of the entry, when it was live, and its expiry. *)
Definition del (c : cache) (key : string) : outcome (cache * option Z * Z) :=
  match c_hashMap c !! key with
  | Some idx =>
      nd ← slot c idx;
      if 0 <? nd_expireAt nd then
        let b := s64 (c_bytes c - entryBytes (nd_k nd) (nd_v nd)) in
        let c := set_slot idx (mkLnode (nd_k nd) (nd_v nd) 0) (set_bytes b c) in
        dl ← adjust (doubleLink c) idx Sn Sp;
        Ret (set_links dl c, Some idx, nd_expireAt nd)
      else Ret (c, None, 0)
  | None => Ret (c, None, 0)
  end.

(** [nd.v = nil] through the pointer [del] returned. *)
Definition clear_v (c : cache) (idx : Z) : outcome cache :=
  nd ← slot c idx; Ret (set_slot idx (mkLnode (nd_k nd) None (nd_expireAt nd)) c).

Definition drop_key (c : cache) (key : string) : outcome cache :=
  r ← del c key;
  match r with
  | (c, Some idx, _) => clear_v c idx
  | (c, None, _) => Ret c
  end.

(** The loop of [evictOldest] from slot [idx]; a list has at most [len(doubleLink)] slots. *)
Fixpoint evict_loop (fuel : nat) (c : cache) (idx : Z) : outcome (cache * bool * evicted) :=
  match fuel with
  | 0%nat => Panic "unreachable"
  | S fuel' =>
      if idx =? 0 then Ret (c, false, [])
      else
        nd ← slot c idx;
        if nd_expireAt nd <=? 0 then
          nx ← dl_get (doubleLink c) idx Sp;
          evict_loop fuel' c nx
        else
          let b := s64 (c_bytes c - entryBytes (nd_k nd) (nd_v nd)) in
          let c := mkCache (doubleLink c) (<[Z.to_nat (u16 (idx - 1)) := mkLnode (nd_k nd) None 0]> (c_m c))
                     (c_hashMap c) b (s64 (c_nevict c + 1)) (c_last c) in
          dl ← adjust (doubleLink c) idx Sn Sp;
          Ret (set_links dl c, true, [(nd_k nd, nd_v nd)])
  end.

Definition evictOldest (c : cache) : outcome (cache * bool * evicted) :=
  t ← dl_get (doubleLink c) 0 Sp;
  evict_loop (S (length (doubleLink c))) c t.

(** [walk]: the walker keeps a state and says whether to go on. *)
Fixpoint walk_loop {St} (walker : St -> lnode -> outcome (St * bool)) (fuel : nat) (c : cache) (idx : Z) (s : St) : outcome St :=
  match fuel with
  | 0%nat => Panic "unreachable"
  | S fuel' =>
      if idx =? 0 then Ret s
      else
        nd ← slot c idx;
        r ← (if 0 <? nd_expireAt nd then walker s nd else Ret (s, true));
        if negb (r : St * bool).2 then Ret r.1
        else
          nx ← dl_get (doubleLink c) idx Sn;
          walk_loop walker fuel' c nx r.1
  end.

Definition walk {St} (walker : St -> lnode -> outcome (St * bool)) (c : cache) (s : St) : outcome St :=
  h ← dl_get (doubleLink c) 0 Sn;
  walk_loop walker (S (length (doubleLink c))) c h s.

(** ** The bucket: two segments behind one mutex *)

Record bucket := mkBucket { b_0 : cache; b_1 : cache }.

Definition bucket_Get (b : bucket) (key : string) (now : Z) :
    outcome (option V * bool * bucket * evicted) :=
  r ← del (b_0 b) key;
  match r with
  | (c0, Some idx, expireAt) =>
      nd ← slot c0 idx;
      let v := nd_v nd in
      c0 ← clear_v c0 idx;
      if expireAt <=? now then
        c1 ← drop_key (b_1 b) key;
        Ret (None, false, mkBucket c0 c1, [(key, v)])
      else
        p ← put (b_1 b) key v expireAt;
        Ret (v, true, mkBucket c0 p.1.1, p.2)
  | (c0, None, _) =>
      pk ← peek (b_1 b) key;
      match pk with
      | Some (n2, idx2) =>
          if 0 <? nd_expireAt n2 then
            if nd_expireAt n2 <=? now then
              c1 ← drop_key (b_1 b) key;
              Ret (None, false, mkBucket c0 c1, [(key, nd_v n2)])
            else
              dl ← adjust (doubleLink (b_1 b)) idx2 Sp Sn;
              Ret (nd_v n2, true, mkBucket c0 (set_links dl (b_1 b)), [])
          else Ret (None, false, mkBucket c0 (b_1 b), [])
      | None => Ret (None, false, mkBucket c0 (b_1 b), [])
      end
  end.

Definition evictFromBucket (b : bucket) : outcome (bucket * bool * evicted) :=
  r ← evictOldest (b_0 b);
  match r with
  | (c0, true, ev) => Ret (mkBucket c0 (b_1 b), true, ev)
  | (c0, false, _) =>
      r ← evictOldest (b_1 b);
      Ret (mkBucket c0 r.1.1, r.1.2, r.2)
  end.

(** The eviction loop of [SetWithExpiration]; each pass takes one entry out. *)
Fixpoint shrink (fuel : nat) (maxBytes : Z) (b : bucket) : outcome (bucket * evicted) :=
  match fuel with
  | 0%nat => Panic "unreachable"
  | S fuel' =>
      if maxBytes <? s64 (c_bytes (b_0 b) + c_bytes (b_1 b)) then
        r ← evictFromBucket b;
        match r with
        | (b, true, ev) => rest ← shrink fuel' maxBytes b; Ret (rest.1, ev ++ rest.2)
        | (b, false, ev) => Ret (b, ev)
        end
      else Ret (b, [])
  end.

Definition bucket_Set (b : bucket) (maxBytes : Z) (key : string) (value : V) (expireAt : Z) :
    outcome (bucket * evicted) :=
  p ← put (b_0 b) key (Some value) expireAt;
  c1 ← drop_key (b_1 b) key;
  let b := mkBucket p.1.1 c1 in
  if 0 <? maxBytes then
    r ← shrink (S (S (length (c_m (b_0 b)) + length (c_m (b_1 b))))) maxBytes b;
    Ret (r.1, p.2 ++ r.2)
  else Ret (b, p.2).

(** [lruStore.delete] on its bucket. *)
Definition bucket_delete (b : bucket) (key : string) : outcome (bool * bucket * evicted) :=
  r1 ← del (b_0 b) key;
  r2 ← del (b_1 b) key;
  let '(c0, i1, _) := r1 in
  let '(c1, i2, _) := r2 in
  v1 ← (match i1 with Some i => nd ← slot c0 i; Ret (nd_v nd) | None => Ret None end);
  v2 ← (match i2 with Some i => nd ← slot c1 i; Ret (nd_v nd) | None => Ret None end);
  let ev := match i1, i2 with
            | None, None => []
            | _, _ => match v1, v2 with
                      | Some v, _ => [(key, Some v)]
                      | None, Some v => [(key, Some v)]
                      | None, None => []
                      end
            end in
  c0 ← (match i1 with Some i => clear_v c0 i | None => Ret c0 end);
  c1 ← (match i2 with Some i => clear_v c1 i | None => Ret c1 end);
  Ret (match i1, i2 with None, None => false | _, _ => true end, mkBucket c0 c1, ev).

End Lru.
Arguments lnode : clear implicits.
Arguments cache : clear implicits.
Arguments bucket : clear implicits.
