(* ===== verification/CacheLruProof.v ===== *)
(** * Cache: the LRU segments implement a recency list

    The invariant of a [cache] segment, its abstraction to the list of entries
    from the most to the least recently used, and the refinement of [put],
    [del] and [evictOldest] to operations on that list. *)
From S2P Require Import Prelude CacheList CacheLru.

Section Theory.
Context {V : Type} (vLen : V -> Z).
Implicit Types (c : cache V) (order : list Z).

(** ** The invariant *)

Definition live (nd : lnode V) : bool := 0 <? nd_expireAt nd.

Definition live_bytes (m : list (lnode V)) : Z :=
  foldr (fun nd s => (if live nd then entryBytes vLen (nd_k nd) (nd_v nd) else 0) + s) 0 m.

Record seg c order : Prop := {
  sg_cap : 0 < zlen (c_m c) < 65535;
  sg_dl : zlen (doubleLink c) = zlen (c_m c) + 1;
  sg_last : 0 <= c_last c <= zlen (c_m c);
  sg_ring : ring (doubleLink c) Sn order;
  sg_order i : i ∈ order <-> 0 < i <= c_last c;
  sg_keys k i : c_hashMap c !! k = Some i <->
    exists nd, 0 < i <= c_last c /\ zlookup (c_m c) (i - 1) = Some nd /\ nd_k nd = k;
  sg_unused i nd : c_last c <= i -> zlookup (c_m c) i = Some nd -> nd_expireAt nd = 0;
  sg_bytes : c_bytes c = s64 (live_bytes (c_m c))
}.

(** The entries in the order of their last use. *)
Definition entries (m : list (lnode V)) (order : list Z) : list (lnode V) :=
  omap (fun i => zlookup m (i - 1)) order.
Lemma entries_cons m j order : entries m (j :: order) =
  match zlookup m (j - 1) with Some nd => nd :: entries m order | None => entries m order end.
Proof. done. Qed.

Definition abs c order : list (lnode V) := entries (c_m c) order.

(** ** Updates of the array *)

Lemma slot_ok c order i : seg c order -> 0 < i <= c_last c ->
  exists nd, zlookup (c_m c) (i - 1) = Some nd /\ slot c i = Ret nd.
Proof.
  intros [] Hi. destruct (zlookup_is_Some (c_m c) (i - 1)) as [nd Hnd]; [lia |].
  exists nd. split; [done |]. unfold slot. rewrite u16_small by lia. by apply go_index_Some.
Qed.

Lemma entries_insert m i nd order : 0 <= i - 1 < zlen m -> i ∉ order ->
  entries (<[Z.to_nat (i - 1) := nd]> m) order = entries m order.
Proof.
  intros Hi. induction order as [| j order IH]; intros Hn; [done |].
  rewrite !entries_cons, zlookup_insert by done. rewrite decide_False by (intros E; apply Hn; replace j with i by lia; by left).
  by rewrite IH by (intros Hx; apply Hn; by right).
Qed.

Lemma live_bytes_insert m i nd old : 0 <= i -> zlookup m i = Some old ->
  live_bytes (<[Z.to_nat i := nd]> m) = live_bytes m
    - (if live old then entryBytes vLen (nd_k old) (nd_v old) else 0)
    + (if live nd then entryBytes vLen (nd_k nd) (nd_v nd) else 0).
Proof.
  intros Hi. unfold zlookup. zcase; [lia |]. generalize (Z.to_nat i) as k. clear.
  induction m as [| x m IH]; intros [| k] E; simpl in *; try done; [injection E as ->; lia |].
  rewrite (IH k E). lia.
Qed.

(** Wrap-around of sums. *)
Lemma s64_mod x y : (x - y) mod 18446744073709551616 = 0 -> s64 x = s64 y.
Proof.
  intros E. unfold s64. f_equal. replace (x + 9223372036854775808) with
    (y + 9223372036854775808 + (x - y)) by lia. rewrite Z.add_mod, E, Z.add_0_r, Z.mod_mod by lia. done.
Qed.

Lemma s64_eq_mod x : (s64 x - x) mod 18446744073709551616 = 0.
Proof.
  unfold s64. pose proof (Z.div_mod (x + 9223372036854775808) 18446744073709551616 ltac:(lia)) as E.
  replace (_ - _ - x) with (- ((x + 9223372036854775808) / 18446744073709551616) * 18446744073709551616) by lia.
  apply Z.mod_mul. lia.
Qed.

Lemma s64_add x y : s64 (s64 x + y) = s64 (x + y).
Proof. apply s64_mod. replace (s64 x + y - (x + y)) with (s64 x - x) by lia. apply s64_eq_mod. Qed.

Lemma s64_add_r x y : s64 (x + s64 y) = s64 (x + y).
Proof. rewrite Z.add_comm, s64_add. f_equal. lia. Qed.

Lemma s64_sub x y : s64 (s64 x - y) = s64 (x - y).
Proof. apply (s64_add x (- y)). Qed.

(** Every key has one slot. *)
Lemma seg_unique c order i j ndi ndj : seg c order -> 0 < i <= c_last c -> 0 < j <= c_last c ->
  zlookup (c_m c) (i - 1) = Some ndi -> zlookup (c_m c) (j - 1) = Some ndj -> nd_k ndi = nd_k ndj -> i = j.
Proof.
  intros Hs Hi Hj Ei Ej Ek.
  assert (c_hashMap c !! nd_k ndi = Some i) as H1 by (apply (sg_keys _ _ Hs); eauto).
  assert (c_hashMap c !! nd_k ndi = Some j) as H2 by (apply (sg_keys _ _ Hs); eauto).
  congruence.
Qed.

Definition other_key (k : string) (nd : lnode V) : Prop := nd_k nd <> k.
#[export] Instance other_key_dec k nd : Decision (other_key k nd) := decide (nd_k nd <> k).

(** Taking a slot out of the order takes its key out of the list. *)
Lemma entries_without c order i nd : seg c order -> 0 < i <= c_last c ->
  zlookup (c_m c) (i - 1) = Some nd ->
  entries (c_m c) (without i order) = filter (other_key (nd_k nd)) (abs c order).
Proof.
  intros Hs Hi Ei. unfold abs.
  assert (forall j, j ∈ order -> 0 < j <= c_last c) as Hsub by (intros j; apply Hs).
  assert (forall j ndj, 0 < j <= c_last c -> zlookup (c_m c) (j - 1) = Some ndj ->
    nd_k ndj = nd_k nd -> j = i) as Huniq by (intros; by eapply seg_unique).
  pose proof (sg_last _ _ Hs) as Hlast. clear Hs.
  induction order as [| j order IH]; [done |].
  assert (0 < j <= c_last c) as Hj by (apply Hsub; by left).
  destruct (zlookup_is_Some (c_m c) (j - 1)) as [ndj Hndj]; [lia |].
  unfold without in *. rewrite (filter_cons (fun j => j <> i)), !entries_cons, Hndj, filter_cons.
  specialize (IH ltac:(intros; apply Hsub; by right)).
  destruct (decide (j = i)) as [-> | Hne].
  - rewrite decide_False by tauto. rewrite Ei in Hndj. injection Hndj as ->.
    rewrite decide_False by (intros Hx; by apply Hx). exact IH.
  - rewrite decide_True by done. rewrite decide_True by (intros E; apply Hne; by apply (Huniq j ndj)).
    rewrite entries_cons, Hndj. f_equal. exact IH.
Qed.

(** ** Moves and updates *)

Lemma without_perm i order : NoDup order -> i ∈ order -> i :: without i order ≡ₚ order.
Proof.
  intros Hnd (A & B & ->)%list_elem_of_split. rewrite without_split by done.
  by rewrite Permutation_middle.
Qed.

Lemma rev_without i order : rev (without i (rev order)) = without i order.
Proof.
  unfold without. induction order as [| j order IH]; [done |]. simpl.
  rewrite filter_app, rev_app_distr, IH, !filter_cons. case_decide; done.
Qed.

Lemma adjust_front c order i : seg c order -> 0 < i <= c_last c ->
  exists dl, adjust (doubleLink c) i Sp Sn = Ret dl /\ zlen dl = zlen (doubleLink c) /\
    ring dl Sn (i :: without i order).
Proof.
  intros Hs Hi. pose proof (sg_cap _ _ Hs). pose proof (sg_dl _ _ Hs).
  apply (adjust_spec (doubleLink c) Sn); [apply Hs | by apply Hs | lia].
Qed.

Lemma adjust_end c order i : seg c order -> 0 < i <= c_last c ->
  exists dl, adjust (doubleLink c) i Sn Sp = Ret dl /\ zlen dl = zlen (doubleLink c) /\
    ring dl Sn (without i order ++ [i]).
Proof.
  intros Hs Hi. pose proof (sg_cap _ _ Hs). pose proof (sg_dl _ _ Hs).
  destruct (adjust_spec (doubleLink c) Sp (rev order) i) as (dl & E & L & R).
  - apply (ring_sym _ Sn), Hs.
  - rewrite rev_Permutation. by apply Hs.
  - lia.
  - exists dl. split; [done |]. split; [done |]. apply ring_sym in R. simpl in R.
    by rewrite rev_without in R.
Qed.

(** An entry rewritten in place, and the slots reordered. *)
Lemma seg_update c order i old nd dl order' b nev :
  seg c order -> 0 < i <= c_last c -> zlookup (c_m c) (i - 1) = Some old -> nd_k nd = nd_k old ->
  zlen dl = zlen (doubleLink c) -> ring dl Sn order' -> order' ≡ₚ order ->
  b = s64 (live_bytes (<[Z.to_nat (i - 1) := nd]> (c_m c))) ->
  seg (mkCache dl (<[Z.to_nat (i - 1) := nd]> (c_m c)) (c_hashMap c) b nev (c_last c)) order'.
Proof.
  intros [] Hi Ei Ek Ldl Hr Hp ->.
  assert (zlen (<[Z.to_nat (i - 1) := nd]> (c_m c)) = zlen (c_m c)) as Hl by (unfold zlen; by rewrite length_insert).
  split; simpl; rewrite ?Hl; try done; try lia.
  - intros j. rewrite Hp. apply sg_order0.
  - intros k j. rewrite sg_keys0. split; intros (x & Hj & Ex & Hk).
    + destruct (decide (j = i)) as [-> | Hne].
      * exists nd. rewrite zlookup_insert, decide_True by lia. rewrite Ei in Ex. injection Ex as ->.
        split_and!; try done; lia || congruence.
      * exists x. rewrite zlookup_insert, decide_False by lia. done.
    + rewrite zlookup_insert in Ex by lia. case_decide as Hd.
      * injection Ex as <-. replace j with i by lia. exists old. split_and!; try done; lia || congruence.
      * by exists x.
  - intros j x Hj. rewrite zlookup_insert by lia. rewrite decide_False by lia. by apply sg_unused0.
Qed.

Definition lookup_key (k : string) (l : list (lnode V)) : option (lnode V) :=
  head (filter (fun nd => nd_k nd = k) l).

(** The abstract list and the key index agree. *)
Lemma lookup_key_spec c order k : seg c order ->
  lookup_key k (abs c order) =
  match c_hashMap c !! k with Some i => zlookup (c_m c) (i - 1) | None => None end.
Proof.
  intros Hs. unfold lookup_key, abs.
  assert (forall l, (forall j, j ∈ l -> 0 < j <= c_last c) -> NoDup l ->
    head (filter (fun nd => nd_k nd = k) (entries (c_m c) l)) =
    match c_hashMap c !! k with
    | Some i => if decide (i ∈ l) then zlookup (c_m c) (i - 1) else None
    | None => None end) as Hl.
  { induction l as [| j l IH]; intros Hsub Hnd.
    { destruct (c_hashMap c !! k); [| done]. by rewrite decide_False by apply not_elem_of_nil. }
    apply NoDup_cons in Hnd as [Hj Hnd]. specialize (IH ltac:(intros; apply Hsub; by right) Hnd).
    assert (0 < j <= c_last c) as Hjr by (apply Hsub; by left).
    destruct (slot_ok c order j Hs Hjr) as (nd & Ej & _).
    rewrite entries_cons, Ej, filter_cons. destruct (decide (nd_k nd = k)) as [Hk | Hk].
    - assert (c_hashMap c !! k = Some j) as -> by (apply (sg_keys _ _ Hs); eauto).
      by rewrite decide_True by (by left).
    - rewrite IH. destruct (c_hashMap c !! k) as [i |] eqn:Ei; [| done].
      apply (sg_keys _ _ Hs) in Ei as (x & Hi & Ex & Hxk).
      assert (i <> j) by congruence.
      destruct (decide (i ∈ l)); [by rewrite decide_True by (by right) |].
      rewrite decide_False; [done |]. intros [? | ?]%elem_of_cons; done. }
  rewrite Hl; [| intros j; apply Hs | apply Hs].
  destruct (c_hashMap c !! k) as [i |] eqn:Ei; [| done].
  rewrite decide_True; [done |]. apply (sg_order _ _ Hs).
  by apply (sg_keys _ _ Hs) in Ei as (x & ? & _).
Qed.

(** ** put *)

(** [put] on the recency list: an entry with the key is replaced and comes
    first; a new one comes first, and if there is no room the last one goes. *)
Definition lru_put (cap : Z) (l : list (lnode V)) (k : string) (v : option V) (e : Z) :
    list (lnode V) * evicted (V := V) :=
  match lookup_key k l with
  | Some _ => (mkLnode k v e :: filter (other_key k) l, [])
  | None =>
      if zlen l <? cap then (mkLnode k v e :: l, [])
      else (mkLnode k v e :: removelast l,
            match last l with
            | Some t => if live t then [(nd_k t, nd_v t)] else []
            | None => []
            end)
  end.

Lemma put_hit c order k v e i : seg c order -> 0 < e -> c_hashMap c !! k = Some i ->
  exists c', put vLen c k v e = Ret (c', 0, []) /\ seg c' (i :: without i order) /\
    abs c' (i :: without i order) = mkLnode k v e :: filter (other_key k) (abs c order) /\
    c_m c' = <[Z.to_nat (i - 1) := mkLnode k v e]> (c_m c) /\ c_hashMap c' = c_hashMap c.
Proof.
  intros Hs He Ei. pose proof Ei as Hx. apply (sg_keys _ _ Hs) in Hx as (nd & Hi & End & Hk).
  destruct (slot_ok c order i Hs Hi) as (nd' & End' & Eslot). rewrite End in End'. injection End' as <-.
  pose proof (sg_cap _ _ Hs). pose proof (sg_last _ _ Hs). pose proof (sg_bytes _ _ Hs) as Hb.
  unfold put. rewrite Ei, Eslot. cbn [mbind outcome_bind].
  destruct (adjust_front c order i Hs Hi) as (dl & Ea & Ldl & Hr).
  unfold set_slot, set_bytes, set_links. cbn [doubleLink c_m c_hashMap c_bytes c_nevict c_last].
  rewrite Ea. cbn [mbind outcome_bind]. rewrite u16_small by lia. rewrite Hk. eexists. split; [done |].
  assert (i ∉ without i order) as Hni by (unfold without; by intros [? _]%list_elem_of_filter).
  split_and!.
  - eapply (seg_update c order i nd); try done.
    + apply without_perm; [apply Hs | by apply Hs].
    + rewrite (live_bytes_insert _ _ _ nd) by (done || lia). rewrite Hb. unfold live. simpl. rewrite Hk.
      replace (0 <? e) with true by lia.
      destruct (0 <? nd_expireAt nd); rewrite ?s64_add_r, s64_add; f_equal; lia.
  - unfold abs. cbn [c_m]. rewrite entries_cons, zlookup_insert, decide_True by lia.
    f_equal. rewrite entries_insert by (done || lia). rewrite (entries_without c order i nd) by done.
    by rewrite Hk.
  - done.
  - done.
Qed.

Lemma entries_length c order : seg c order -> zlen (abs c order) = c_last c /\ zlen order = c_last c.
Proof.
  intros Hs. pose proof (sg_last _ _ Hs).
  assert (length order = Z.to_nat (c_last c)) as Hlo.
  { assert (order ≡ₚ Z.of_nat <$> seq 1 (Z.to_nat (c_last c))) as Hp.
    { apply NoDup_Permutation; [apply Hs | apply NoDup_fmap_2; [apply _ | apply NoDup_seq] |].
      intros i. rewrite (sg_order _ _ Hs), list_elem_of_fmap. split.
      - intros Hi. exists (Z.to_nat i). rewrite elem_of_seq. lia.
      - intros (n & -> & Hn%elem_of_seq). lia. }
    by rewrite Hp, length_fmap, length_seq. }
  assert (forall l, (forall j, j ∈ l -> 0 < j <= c_last c) -> length (entries (c_m c) l) = length l) as He.
  { induction l as [| j l IH]; intros Hsub; [done |]. rewrite entries_cons.
    destruct (slot_ok c order j Hs) as (nd & -> & _); [apply Hsub; by left |].
    simpl. rewrite IH; [done |]. intros; apply Hsub; by right. }
  unfold zlen, abs. rewrite He by (intros j; apply Hs). lia.
Qed.

Lemma put_new c order k v e : seg c order -> 0 < e -> c_hashMap c !! k = None -> c_last c < zlen (c_m c) ->
  exists c', put vLen c k v e = Ret (c', 1, []) /\ seg c' (c_last c + 1 :: order) /\
    abs c' (c_last c + 1 :: order) = mkLnode k v e :: abs c order /\
    c_m c' = <[Z.to_nat (c_last c) := mkLnode k v e]> (c_m c) /\
    c_hashMap c' = <[k := c_last c + 1]> (c_hashMap c).
Proof.
  intros Hs He Ek Hlt. pose proof (sg_cap _ _ Hs). pose proof (sg_last _ _ Hs). pose proof (sg_dl _ _ Hs).
  assert (c_last c + 1 ∉ order) as Hni by (rewrite (sg_order _ _ Hs); lia).
  unfold put. rewrite Ek. rewrite (u16_small (zlen (c_m c))) by lia. zcase; [lia |].
  rewrite (u16_small (c_last c + 1)) by lia. replace (c_last c + 1 - 1) with (c_last c) by lia.
  rewrite (u16_small (c_last c)) by lia.
  destruct (push_front_spec (doubleLink c) order (c_last c + 1) (Z.of_nat (size (c_hashMap c)) <=? 0))
    as (dl & -> & Ldl & Hr); [apply Hs | done | lia | |].
  { rewrite Z.leb_le. split; intros Hx.
    - assert (c_hashMap c = ∅) as Hemp by (apply map_size_empty_iff; lia).
      destruct order as [| i order]; [done |]. exfalso.
      assert (0 < i <= c_last c) as Hi by (apply (sg_order _ _ Hs); by left).
      destruct (slot_ok c _ i Hs Hi) as (nd & End & _).
      assert (c_hashMap c !! nd_k nd = Some i) as Hy by (apply (sg_keys _ _ Hs); eauto).
      by rewrite Hemp, lookup_empty in Hy.
    - destruct (entries_length c order Hs) as [_ Hlo]. rewrite Hx, zlen_nil in Hlo.
      assert (c_hashMap c = ∅) as ->; [| by rewrite map_size_empty].
      apply map_empty. intros k'. destruct (c_hashMap c !! k') as [i |] eqn:Ei; [| done].
      apply (sg_keys _ _ Hs) in Ei as (? & ? & _). lia. }
  cbn [mbind outcome_bind].
  destruct (zlookup_is_Some (c_m c) (c_last c)) as [old Hold]; [lia |].
  rewrite (go_index_Some _ _ _ Hold). cbn [mbind outcome_bind]. eexists. split; [done |].
  assert (zlen (<[Z.to_nat (c_last c) := mkLnode k v e]> (c_m c)) = zlen (c_m c)) as Hl
    by (unfold zlen; by rewrite length_insert).
  split_and!; [| | done | done].
  - destruct Hs. split; cbn [doubleLink c_m c_hashMap c_bytes c_nevict c_last]; rewrite ?Hl; try done; try lia.
    + intros i. rewrite elem_of_cons, sg_order0. lia.
    + intros k' i. destruct (decide (k' = k)) as [-> | Hne].
      * rewrite lookup_insert_eq. split.
        -- intros [= <-]. eexists. replace (c_last c + 1 - 1) with (c_last c) by lia.
           rewrite zlookup_insert, decide_True by lia. split_and!; done || lia.
        -- intros (nd & Hi & End & Hk). rewrite zlookup_insert in End by lia. case_decide; [f_equal; lia |].
           assert (c_hashMap c !! k = Some i) as Hx by (apply sg_keys0; exists nd; split_and!; done || lia).
           congruence.
      * rewrite lookup_insert_ne by done. rewrite sg_keys0. split; intros (nd & Hi & End & Hk).
        -- exists nd. rewrite zlookup_insert, decide_False by lia. split_and!; done || lia.
        -- rewrite zlookup_insert in End by lia. case_decide; [injection End as <-; simpl in Hk; congruence |].
           exists nd. split_and!; done || lia.
    + intros i nd Hi. rewrite zlookup_insert by lia. rewrite decide_False by lia. apply sg_unused0. lia.
    + rewrite (live_bytes_insert _ _ _ old), sg_bytes0, s64_add by (done || lia). f_equal.
      unfold live. rewrite (sg_unused0 (c_last c) old) by (done || lia). simpl.
      replace (0 <? e) with true by lia. lia.
  - unfold abs. cbn [c_m]. rewrite entries_cons. replace (c_last c + 1 - 1) with (c_last c) by lia.
    rewrite zlookup_insert, decide_True by lia. f_equal.
    pose proof (entries_insert (c_m c) (c_last c + 1) (mkLnode k v e) order) as Hx.
    replace (c_last c + 1 - 1) with (c_last c) in Hx by lia. apply Hx; [lia | done].
Qed.

Lemma entries_app m a b : entries m (a ++ b) = entries m a ++ entries m b.
Proof.
  induction a as [| x a IH]; [done |]. simpl app. rewrite !entries_cons.
  destruct (zlookup m (x - 1)); simpl; by rewrite IH.
Qed.

Lemma without_snoc t O : NoDup (O ++ [t]) -> without t (O ++ [t]) = O.
Proof. intros Hnd. by rewrite without_split, app_nil_r. Qed.

Lemma put_full c order k v e : seg c order -> 0 < e -> c_hashMap c !! k = None -> c_last c = zlen (c_m c) ->
  exists c' t O tail, order = O ++ [t] /\ zlookup (c_m c) (t - 1) = Some tail /\
    put vLen c k v e = Ret (c', 1, if live tail then [(nd_k tail, nd_v tail)] else []) /\
    seg c' (t :: O) /\ abs c' (t :: O) = mkLnode k v e :: entries (c_m c) O /\
    c_m c' = <[Z.to_nat (t - 1) := mkLnode k v e]> (c_m c) /\
    c_hashMap c' = <[k := t]> (delete (nd_k tail) (c_hashMap c)).
Proof.
  intros Hs He Ek Hfull. pose proof (sg_cap _ _ Hs). pose proof (sg_dl _ _ Hs).
  destruct (entries_length c order Hs) as [_ Hlo].
  destruct order as [| t O _] using rev_ind; [rewrite zlen_nil in Hlo; lia |].
  assert (0 < t <= c_last c) as Ht by (apply (sg_order _ _ Hs); apply elem_of_app; right; by left).
  destruct (slot_ok c _ t Hs Ht) as (tail & Etail & Eslot).
  pose proof (ring_last _ _ _ (sg_ring _ _ Hs)) as Hlast. simpl in Hlast. rewrite last_snoc in Hlast. simpl in Hlast.
  pose proof (ri_nodup _ _ _ (sg_ring _ _ Hs)) as Hnd.
  assert (t ∉ O) as HtO by (apply NoDup_app in Hnd as (_ & Hd & _); intros Hx; apply (Hd t Hx); by left).
  unfold put. rewrite Ek, (u16_small (zlen (c_m c))) by lia. zcase; [| lia].
  rewrite dl_get_ok by lia. cbn [mbind outcome_bind]. rewrite Hlast, Eslot. cbn [mbind outcome_bind].
  destruct (adjust_front c _ t Hs Ht) as (dl & Ea & Ldl & Hr). rewrite without_snoc in Hr by done.
  set (bne := if 0 <? nd_expireAt tail then _ else _).
  exists (mkCache dl (<[Z.to_nat (t - 1) := mkLnode k v e]> (c_m c)) (<[k := t]> (delete (nd_k tail) (c_hashMap c)))
     (s64 (bne.1.1 + entryBytes vLen k v)) bne.1.2 (c_last c)), t, O, tail.
  split; [done |]. split; [done |]. split.
  { destruct bne as [[b nev] ev] eqn:Ebne. cbn [doubleLink]. rewrite dl_get_ok by lia. cbn [mbind outcome_bind].
    rewrite Hlast, Ea. cbn [mbind outcome_bind]. unfold set_links.
    cbn [doubleLink c_m c_hashMap c_bytes c_nevict c_last]. rewrite u16_small by lia. f_equal. f_equal.
    unfold live. subst bne. destruct (0 <? nd_expireAt tail); by injection Ebne. }
  assert (zlen (<[Z.to_nat (t - 1) := mkLnode k v e]> (c_m c)) = zlen (c_m c)) as Hl
    by (unfold zlen; by rewrite length_insert).
  split_and!; [| | done | done].
  - pose proof Hs as []. split; cbn [doubleLink c_m c_hashMap c_bytes c_nevict c_last]; rewrite ?Hl; try done; try lia.
    + intros i. rewrite <- sg_order0, elem_of_cons, elem_of_app, list_elem_of_singleton. tauto.
    + intros k' i. destruct (decide (k' = k)) as [-> | Hne].
      * rewrite lookup_insert_eq. split.
        -- intros [= <-]. eexists. rewrite zlookup_insert, decide_True by lia. split_and!; done || lia.
        -- intros (nd & Hi & End & Hk). rewrite zlookup_insert in End by lia. case_decide; [f_equal; lia |].
           assert (c_hashMap c !! k = Some i) as Hx by (apply sg_keys0; exists nd; split_and!; done || lia).
           congruence.
      * rewrite lookup_insert_ne by done. rewrite lookup_delete_Some, sg_keys0.
        split; [intros (Hk' & nd & Hi & End & Hk) | intros (nd & Hi & End & Hk)].
        -- exists nd. rewrite zlookup_insert by lia. rewrite decide_False; [done |].
           intros E. replace i with t in End by lia. congruence.
        -- rewrite zlookup_insert in End by lia. case_decide; [injection End as <-; simpl in Hk; congruence |].
           split; [| by exists nd]. intros E.
           apply H1. f_equal. eapply (seg_unique c _ i t nd tail); done || lia || congruence.
    + intros i nd Hi. rewrite zlookup_insert by lia. rewrite decide_False by lia. apply sg_unused0. lia.
    + rewrite (live_bytes_insert _ _ _ tail) by (done || lia). unfold live, bne. cbn [nd_k nd_v nd_expireAt].
      replace (0 <? e) with true by lia. rewrite sg_bytes0.
      destruct (0 <? nd_expireAt tail); simpl; rewrite ?s64_sub, s64_add; f_equal; lia.
  - unfold abs. cbn [c_m]. rewrite entries_cons, zlookup_insert, decide_True by lia. f_equal.
    by apply entries_insert; [lia |].
Qed.

Lemma removelast_snoc {A} (l : list A) x : removelast (l ++ [x]) = l.
Proof. rewrite removelast_app by done. simpl. apply app_nil_r. Qed.

Lemma put_spec c order k v e :
  seg c order -> 0 < e ->
  exists c' n order', put vLen c k v e = Ret (c', n, (lru_put (zlen (c_m c)) (abs c order) k v e).2) /\
    seg c' order' /\ abs c' order' = (lru_put (zlen (c_m c)) (abs c order) k v e).1 /\
    zlen (c_m c') = zlen (c_m c).
Proof.
  intros Hs He. pose proof (lookup_key_spec c order k Hs) as Hlk. unfold lru_put. rewrite Hlk.
  destruct (c_hashMap c !! k) as [i |] eqn:Ei.
  - destruct (put_hit c order k v e i Hs He Ei) as (c' & E & Hs' & Ha & Hm & _).
    apply (sg_keys _ _ Hs) in Ei as (nd & _ & -> & _). do 3 eexists. split; [exact E |].
    split; [exact Hs' |]. split; [exact Ha |]. rewrite Hm. unfold zlen. by rewrite length_insert.
  - destruct (entries_length c order Hs) as [Hla _]. rewrite Hla.
    pose proof (sg_last _ _ Hs). zcase.
    + destruct (put_new c order k v e Hs He Ei Eb) as (c' & E & Hs' & Ha & Hm & _).
      do 3 eexists. split; [exact E |]. split; [exact Hs' |]. split; [exact Ha |].
      rewrite Hm. unfold zlen. by rewrite length_insert.
    + destruct (put_full c order k v e Hs He Ei) as (c' & t & O & tail & -> & Et & E & Hs' & Ha & Hm & _); [lia |].
      assert (abs c (O ++ [t]) = entries (c_m c) O ++ [tail]) as Habs.
      { unfold abs. rewrite entries_app. f_equal. rewrite entries_cons, Et. done. }
      do 3 eexists. split; [rewrite E, Habs, last_snoc; done |]. split; [exact Hs' |].
      split; [rewrite Ha, Habs, removelast_snoc; done |]. rewrite Hm. unfold zlen. by rewrite length_insert.
Qed.

(** ** The live entries as a map *)

Definition content c (k : string) : option (option V * Z) :=
  match c_hashMap c !! k with
  | Some i =>
      match zlookup (c_m c) (i - 1) with
      | Some nd => if live nd then Some (nd_v nd, nd_expireAt nd) else None
      | None => None
      end
  | None => None
  end.

(** A slot rewritten: only its key is affected. *)
Lemma content_update c order i nd' dl b nev k : seg c order -> 0 < i <= c_last c ->
  zlookup (c_m c) (i - 1) = Some k -> nd_k nd' = nd_k k ->
  forall k', content (mkCache dl (<[Z.to_nat (i - 1) := nd']> (c_m c)) (c_hashMap c) b nev (c_last c)) k' =
    if decide (k' = nd_k k) then (if live nd' then Some (nd_v nd', nd_expireAt nd') else None)
    else content c k'.
Proof.
  intros Hs Hi Ei Ek k'. pose proof (sg_last _ _ Hs). unfold content. cbn [c_hashMap c_m].
  destruct (decide (k' = nd_k k)) as [-> | Hne].
  - assert (c_hashMap c !! nd_k k = Some i) as -> by (apply (sg_keys _ _ Hs); eauto).
    by rewrite zlookup_insert, decide_True by lia.
  - destruct (c_hashMap c !! k') as [j |] eqn:Ej; [| done].
    apply (sg_keys _ _ Hs) in Ej as (x & Hj & Ex & Hx).
    rewrite zlookup_insert by lia. rewrite decide_False; [done |].
    intros E. replace j with i in Ex by lia. congruence.
Qed.

Lemma none_evicted {B} k' (a b : B) :
  (if decide (k' ∈ ([] : evicted (V := V)).*1) then a else b) = b.
Proof. rewrite decide_False; [done |]. apply not_elem_of_nil. Qed.

Lemma put_content c order k v e : seg c order -> 0 < e ->
  exists c' n ev order', put vLen c k v e = Ret (c', n, ev) /\ seg c' order' /\ zlen (c_m c') = zlen (c_m c) /\
    (forall k', content c' k' =
       if decide (k' = k) then Some (v, e)
       else if decide (k' ∈ ev.*1) then None else content c k') /\
    (forall k' v', (k', v') ∈ ev -> k' <> k /\ exists e', content c k' = Some (v', e')).
Proof.
  intros Hs He. pose proof (sg_last _ _ Hs) as Hlast. assert (live (mkLnode k v e) = true) as Hlive by (unfold live; simpl; lia).
  destruct (c_hashMap c !! k) as [i |] eqn:Ei.
  - destruct (put_hit c order k v e i Hs He Ei) as (c' & E & Hs' & _ & Hm & Hh).
    apply (sg_keys _ _ Hs) in Ei as (nd & Hi & End & Hk).
    do 4 eexists. split; [exact E |]. split; [exact Hs' |]. split; [rewrite Hm; unfold zlen; by rewrite length_insert |].
    split; [| by intros ? ? ?%not_elem_of_nil]. intros k'.
    pose proof (content_update c order i (mkLnode k v e) [] 0 0 nd Hs Hi End ltac:(done) k') as Hc.
    unfold content in Hc |- *. cbn [c_hashMap c_m] in Hc. rewrite Hm, Hh, Hc, Hk, Hlive. by rewrite none_evicted.
  - destruct (decide (c_last c < zlen (c_m c))) as [Hlt | Hge].
    + destruct (put_new c order k v e Hs He Ei Hlt) as (c' & E & Hs' & _ & Hm & Hh).
      do 4 eexists. split; [exact E |]. split; [exact Hs' |]. split; [rewrite Hm; unfold zlen; by rewrite length_insert |].
      split; [| by intros ? ? ?%not_elem_of_nil]. intros k'. unfold content. rewrite Hm, Hh.
      destruct (decide (k' = k)) as [-> | Hne].
      * rewrite lookup_insert_eq. replace (c_last c + 1 - 1) with (c_last c) by lia.
        by rewrite zlookup_insert, decide_True, Hlive by lia.
      * rewrite none_evicted, lookup_insert_ne by done. destruct (c_hashMap c !! k') as [j |] eqn:Ej; [| done].
        apply (sg_keys _ _ Hs) in Ej as (x & Hj & Ex & Hx).
        rewrite zlookup_insert, decide_False by lia. done.
    + destruct (put_full c order k v e Hs He Ei) as (c' & t & O & tail & -> & Et & E & Hs' & _ & Hm & Hh); [lia |].
      assert (0 < t <= c_last c) as Ht by (apply (sg_order _ _ Hs); apply elem_of_app; right; by left).
      assert (c_hashMap c !! nd_k tail = Some t) as Htk by (apply (sg_keys _ _ Hs); eauto).
      assert (nd_k tail <> k) as Hne by congruence.
      do 4 eexists. split; [exact E |]. split; [exact Hs' |]. split; [rewrite Hm; unfold zlen; by rewrite length_insert |].
      assert (content c (nd_k tail) = if live tail then Some (nd_v tail, nd_expireAt tail) else None) as Hct
        by (unfold content; by rewrite Htk, Et).
      split.
      * intros k'. destruct (decide (k' = k)) as [-> | Hnk].
        { unfold content. rewrite Hm, Hh, lookup_insert_eq, zlookup_insert, decide_True, Hlive by lia. done. }
        destruct (decide (k' = nd_k tail)) as [-> | Hnt].
        { unfold content at 1. rewrite Hh, lookup_insert_ne, lookup_delete_eq by done.
          destruct (live tail) eqn:El; [by rewrite decide_True by (simpl; left) |].
          by rewrite none_evicted, Hct. }
        unfold content. rewrite Hm, Hh, lookup_insert_ne, lookup_delete_ne by done.
        rewrite decide_False.
        2: { destruct (live tail); simpl; [by intros ->%list_elem_of_singleton | apply not_elem_of_nil]. }
        destruct (c_hashMap c !! k') as [j |] eqn:Ej; [| done].
        apply (sg_keys _ _ Hs) in Ej as (x & Hj & Ex & Hx). rewrite zlookup_insert by lia.
        rewrite decide_False; [done |]. intros Ejt. replace j with t in Ex by lia. congruence.
      * intros k' v' Hin. destruct (live tail) eqn:El; [| by apply not_elem_of_nil in Hin].
        apply list_elem_of_singleton in Hin as [= -> ->]. split; [done |]. rewrite Hct. eauto.
Qed.

(** ** del, drop, evictOldest *)

Definition live_count (m : list (lnode V)) : Z :=
  foldr (fun nd s => (if live nd then 1 else 0) + s) 0 m.

Lemma live_count_bounds m : 0 <= live_count m <= zlen m.
Proof.
  induction m as [| nd m IH]; simpl; [rewrite zlen_nil; lia |]. rewrite zlen_cons. destruct (live nd); lia.
Qed.

Lemma live_count_insert m i nd old : 0 <= i -> zlookup m i = Some old ->
  live_count (<[Z.to_nat i := nd]> m) =
  live_count m - (if live old then 1 else 0) + (if live nd then 1 else 0).
Proof.
  intros Hi. unfold zlookup. zcase; [lia |]. generalize (Z.to_nat i) as k. clear.
  induction m as [| x m IH]; intros [| k] E; simpl in *; try done; [injection E as ->; lia |].
  rewrite (IH k E). lia.
Qed.

(** Killing the entry of a slot: [nd'] is dead and has its key. *)
Lemma kill_slot c order i nd nd' b nev dl : seg c order -> 0 < i <= c_last c ->
  zlookup (c_m c) (i - 1) = Some nd -> live nd = true -> nd_k nd' = nd_k nd -> live nd' = false ->
  b = s64 (c_bytes c - entryBytes vLen (nd_k nd) (nd_v nd)) ->
  zlen dl = zlen (doubleLink c) -> ring dl Sn (without i order ++ [i]) ->
  let c' := mkCache dl (<[Z.to_nat (i - 1) := nd']> (c_m c)) (c_hashMap c) b nev (c_last c) in
  seg c' (without i order ++ [i]) /\
  abs c' (without i order ++ [i]) = filter (other_key (nd_k nd)) (abs c order) ++ [nd'] /\
  (forall k', content c' k' = if decide (k' = nd_k nd) then None else content c k') /\
  zlen (c_m c') = zlen (c_m c) /\ live_count (c_m c') = live_count (c_m c) - 1.
Proof.
  intros Hs Hi Ei Hl Hk Hl' Hb Ldl Hr c'. pose proof (sg_last _ _ Hs).
  assert (i ∉ without i order) as Hni by (unfold without; by intros [? _]%list_elem_of_filter).
  split_and!.
  - eapply (seg_update c order i nd); try done.
    + rewrite Permutation_app_comm. apply without_perm; [apply Hs | by apply Hs].
    + rewrite (live_bytes_insert _ _ _ nd), Hl, Hl', Hb, (sg_bytes _ _ Hs), s64_sub by (done || lia). f_equal. lia.
  - unfold abs at 1. subst c'. cbn [c_m]. rewrite entries_app, entries_insert by (done || lia).
    rewrite (entries_without c order i nd) by done. f_equal.
    rewrite entries_cons, zlookup_insert, decide_True by lia. done.
  - intros k'. subst c'. rewrite (content_update c order i nd' dl b nev nd Hs Hi Ei Hk). by rewrite Hl'.
  - subst c'. cbn [c_m]. unfold zlen. by rewrite length_insert.
  - subst c'. cbn [c_m]. rewrite (live_count_insert _ _ _ nd), Hl, Hl' by (done || lia). lia.
Qed.

Definition lru_del (l : list (lnode V)) (k : string) : list (lnode V) :=
  match lookup_key k l with
  | Some nd => if live nd then filter (other_key k) l ++ [mkLnode k (nd_v nd) 0] else l
  | None => l
  end.

Lemma del_spec c order k : seg c order ->
  exists c' oi e order', del vLen c k = Ret (c', oi, e) /\ seg c' order' /\
    abs c' order' = lru_del (abs c order) k /\ zlen (c_m c') = zlen (c_m c) /\
    (forall k', content c' k' = if decide (k' = k) then None else content c k') /\
    match content c k with
    | Some (v, e') => e = e' /\ exists i, oi = Some i /\ 0 < i <= c_last c' /\
        zlookup (c_m c') (i - 1) = Some (mkLnode k v 0)
    | None => oi = None /\ e = 0
    end.
Proof.
  intros Hs. unfold lru_del. rewrite (lookup_key_spec c order k Hs). unfold del.
  destruct (c_hashMap c !! k) as [i |] eqn:Ei.
  2: { exists c, None, 0, order. split_and!; try done.
       - intros k'. case_decide; [subst; unfold content; by rewrite Ei | done].
       - unfold content. by rewrite Ei. }
  assert (content c k = match zlookup (c_m c) (i - 1) with
    | Some nd => if live nd then Some (nd_v nd, nd_expireAt nd) else None | None => None end) as Hc
    by (unfold content; by rewrite Ei).
  pose proof Ei as Hx. apply (sg_keys _ _ Hs) in Hx as (nd & Hi & End & Hk). rewrite End in *.
  destruct (slot_ok c order i Hs Hi) as (nd' & End' & Eslot). rewrite End in End'. injection End' as <-.
  rewrite Eslot. cbn [mbind outcome_bind]. fold (live nd). destruct (live nd) eqn:El.
  - destruct (adjust_end c order i Hs Hi) as (dl & Ea & Ldl & Hr). pose proof (sg_cap _ _ Hs). pose proof (sg_last _ _ Hs).
    unfold set_slot, set_bytes, set_links. cbn [doubleLink c_m c_hashMap c_bytes c_nevict c_last].
    rewrite Ea. cbn [mbind outcome_bind]. rewrite u16_small by lia.
    destruct (kill_slot c order i nd (mkLnode (nd_k nd) (nd_v nd) 0) _ (c_nevict c) dl Hs Hi End El eq_refl eq_refl
      eq_refl Ldl Hr) as (Hs' & Ha & Hc' & Hz & _).
    do 4 eexists. split; [done |]. split; [exact Hs' |]. split; [rewrite Ha, Hk; done |]. split; [exact Hz |].
    split; [intros k'; rewrite Hc', Hk; done |]. rewrite Hc. split; [done |]. exists i. split; [done |].
    split; [exact Hi |]. cbn [c_m]. rewrite zlookup_insert, decide_True by lia. by rewrite Hk.
  - exists c, None, 0, order. split_and!; try done; [| by rewrite Hc].
    intros k'. case_decide; [subst; by rewrite Hc | done].
Qed.

(** Forgetting the value of a dead entry changes nothing that can be seen. *)
Lemma clear_v_spec c order i nd : seg c order -> 0 < i <= c_last c ->
  zlookup (c_m c) (i - 1) = Some nd -> live nd = false ->
  exists c', clear_v c i = Ret c' /\ seg c' order /\ (forall k, content c' k = content c k) /\
    zlen (c_m c') = zlen (c_m c).
Proof.
  intros Hs Hi Ei Hl. pose proof (sg_cap _ _ Hs). pose proof (sg_last _ _ Hs).
  destruct (slot_ok c order i Hs Hi) as (nd' & End' & Eslot). rewrite Ei in End'. injection End' as <-.
  unfold clear_v. rewrite Eslot. cbn [mbind outcome_bind]. unfold set_slot. rewrite u16_small by lia.
  eexists. split; [done |]. split_and!.
  - eapply (seg_update c order i nd); try done; [apply Hs |].
    rewrite (live_bytes_insert _ _ _ nd), (sg_bytes _ _ Hs) by (done || lia). unfold live in *. simpl.
    rewrite Hl. f_equal. lia.
  - intros k. rewrite (content_update c order i (mkLnode (nd_k nd) None (nd_expireAt nd)) _ _ _ nd Hs Hi Ei eq_refl).
    unfold live in *. simpl.
    rewrite Hl. case_decide as Hd; [| done]. subst k. unfold content.
    assert (c_hashMap c !! nd_k nd = Some i) as -> by (apply (sg_keys _ _ Hs); eauto).
    rewrite Ei. unfold live. by rewrite Hl.
  - cbn [c_m]. unfold zlen. by rewrite length_insert.
Qed.

Lemma drop_key_spec c order k : seg c order ->
  exists c' order', drop_key vLen c k = Ret c' /\ seg c' order' /\ zlen (c_m c') = zlen (c_m c) /\
    (forall k', content c' k' = if decide (k' = k) then None else content c k').
Proof.
  intros Hs. destruct (del_spec c order k Hs) as (c' & oi & e & order' & E & Hs' & _ & Hz & Hc & Hm).
  unfold drop_key. rewrite E. cbn [mbind outcome_bind]. destruct (content c k) as [[v e'] |].
  - destruct Hm as (_ & i & -> & Hi & Ei). destruct (clear_v_spec c' order' i _ Hs' Hi Ei) as (c2 & -> & Hs2 & Hc2 & Hz2); [done |].
    exists c2, order'. split_and!; try done; [lia |]. intros k'. by rewrite Hc2.
  - destruct Hm as [-> _]. exists c', order'. by split_and!.
Qed.

(** The least recently used live entry. *)
Definition oldest_live (l : list (lnode V)) : option (lnode V) := last (filter (fun nd => live nd = true) l).

(** The loop of [evictOldest], from the last slot of [A] on, when the slots
    after it hold dead entries. *)
Lemma evict_loop_spec fuel c order A B : seg c order -> order = A ++ B -> (length A < fuel)%nat ->
  match oldest_live (entries (c_m c) A) with
  | Some nd => exists c' order', evict_loop vLen fuel c (default 0 (last A)) = Ret (c', true, [(nd_k nd, nd_v nd)]) /\
      seg c' order' /\ zlen (c_m c') = zlen (c_m c) /\ live_count (c_m c') = live_count (c_m c) - 1 /\
      content c (nd_k nd) = Some (nd_v nd, nd_expireAt nd) /\
      (forall k, content c' k = if decide (k = nd_k nd) then None else content c k)
  | None => evict_loop vLen fuel c (default 0 (last A)) = Ret (c, false, [])
  end.
Proof.
  intros Hs. revert A B. induction fuel as [| fuel IH]; intros A B HA Hf; [lia |].
  destruct A as [| i A _] using rev_ind; [done |].
  assert (0 < i <= c_last c) as Hi.
  { apply (sg_order _ _ Hs). rewrite HA. apply elem_of_app. left. apply elem_of_app. right. by left. }
  destruct (slot_ok c order i Hs Hi) as (nd & Ei & Eslot).
  assert (entries (c_m c) (A ++ [i]) = entries (c_m c) A ++ [nd]) as ->
    by (rewrite entries_app, entries_cons, Ei; done).
  rewrite last_snoc. cbn [default evict_loop]. cbn [from_option id]. unfold id. replace (i =? 0) with false by lia.
  rewrite Eslot. cbn [mbind outcome_bind]. unfold oldest_live. rewrite filter_app.
  pose proof (sg_cap _ _ Hs). pose proof (sg_last _ _ Hs). pose proof (sg_dl _ _ Hs).
  destruct (Z.leb_spec (nd_expireAt nd) 0) as [Hd | Hlv].
  - rewrite (filter_cons_False _ nd) by (unfold live; lia). rewrite filter_nil, app_nil_r.
    rewrite dl_get_ok by lia. cbn [mbind outcome_bind].
    assert (at_ (doubleLink c) Sp i = default 0 (last A)) as ->.
    { pose proof (ri_back _ _ _ (sg_ring _ _ Hs)) as Hb. rewrite HA, <- app_assoc in Hb. simpl in Hb.
      rewrite rev_app_distr in Hb. simpl in Hb. rewrite <- app_assoc in Hb. simpl in Hb.
      apply path_app in Hb as [_ Hb]. rewrite <- (rev_involutive A), last_rev.
      destruct (rev A); apply Hb. }
    apply (IH A (i :: B)); [by rewrite HA, <- app_assoc | rewrite length_app in Hf; simpl in Hf; lia].
  - rewrite (filter_cons_True _ nd) by (unfold live; lia). rewrite filter_nil, last_snoc.
    destruct (adjust_end c order i Hs Hi) as (dl & Ea & Ldl & Hr).
    cbn [doubleLink]. rewrite Ea. cbn [mbind outcome_bind]. unfold set_links.
    cbn [doubleLink c_m c_hashMap c_bytes c_nevict c_last]. rewrite u16_small by lia.
    assert (live nd = true) as El by (unfold live; lia).
    destruct (kill_slot c order i nd (mkLnode (nd_k nd) None 0) _ (s64 (c_nevict c + 1)) dl Hs Hi Ei El eq_refl eq_refl
      eq_refl Ldl Hr) as (Hs' & _ & Hc' & Hz & Hcnt).
    do 2 eexists. split; [done |]. split; [exact Hs' |]. split; [exact Hz |]. split; [exact Hcnt |]. split; [| exact Hc'].
    unfold content. assert (c_hashMap c !! nd_k nd = Some i) as -> by (apply (sg_keys _ _ Hs); eauto).
    by rewrite Ei, El.
Qed.

Lemma evictOldest_spec c order : seg c order ->
  match oldest_live (abs c order) with
  | Some nd => exists c' order', evictOldest vLen c = Ret (c', true, [(nd_k nd, nd_v nd)]) /\
      seg c' order' /\ zlen (c_m c') = zlen (c_m c) /\ live_count (c_m c') = live_count (c_m c) - 1 /\
      content c (nd_k nd) = Some (nd_v nd, nd_expireAt nd) /\
      (forall k, content c' k = if decide (k = nd_k nd) then None else content c k)
  | None => evictOldest vLen c = Ret (c, false, [])
  end.
Proof.
  intros Hs. unfold evictOldest. pose proof (sg_cap _ _ Hs). pose proof (sg_last _ _ Hs). pose proof (sg_dl _ _ Hs).
  rewrite dl_get_ok by lia. cbn [mbind outcome_bind].
  pose proof (ring_last _ _ _ (sg_ring _ _ Hs)) as Hl. simpl in Hl. rewrite Hl.
  apply (evict_loop_spec _ c order order []); [done | by rewrite app_nil_r |].
  destruct (entries_length c order Hs) as [_ Hlo]. unfold zlen in *. lia.
Qed.

(** When no entry is live the segment accounts for no bytes. *)
Lemma no_live c order : seg c order -> oldest_live (abs c order) = None ->
  c_bytes c = 0 /\ forall k, content c k = None.
Proof.
  intros Hs Ho.
  assert (forall i nd, zlookup (c_m c) i = Some nd -> live nd = false) as Hdead.
  { intros i nd Hi. pose proof (zlookup_Some_range _ _ _ Hi) as Hr.
    destruct (decide (c_last c <= i)) as [Hge | Hlt].
    - unfold live. rewrite (sg_unused _ _ Hs i nd) by done. done.
    - assert (i + 1 ∈ order) as Hin by (apply (sg_order _ _ Hs); lia).
      assert (nd ∈ abs c order) as Hnd.
      { unfold abs, entries. apply list_elem_of_omap. exists (i + 1). split; [done |].
        by replace (i + 1 - 1) with i by lia. }
      destruct (live nd) eqn:El; [| done]. exfalso. unfold oldest_live in Ho. apply last_None in Ho.
      assert (nd ∈ filter (fun nd => live nd = true) (abs c order)) as Hx by (by apply list_elem_of_filter).
      rewrite Ho in Hx. by apply not_elem_of_nil in Hx. }
  split.
  - rewrite (sg_bytes _ _ Hs). assert (live_bytes (c_m c) = 0) as ->; [| done].
    assert (Forall (fun nd => live nd = false) (c_m c)) as HF.
    { apply Forall_lookup. intros j nd Hj. apply (Hdead (Z.of_nat j)). unfold zlookup. zcase; [lia |].
      by rewrite Nat2Z.id. }
    clear -HF. revert HF. generalize (c_m c). induction 1 as [| nd m Hnd _ IH]; simpl; [done |]. by rewrite Hnd, IH.
  - intros k. unfold content. destruct (c_hashMap c !! k) as [i |]; [| done].
    destruct (zlookup (c_m c) (i - 1)) eqn:E; [| done]. by rewrite (Hdead _ _ E).
Qed.

(** [put] implements the recency list.  On a well-formed segment of any
    capacity, [put] of a live entry never fails, keeps the segment well-formed
    (linked list, key index and byte count included), and its effect on the
    entries in order of use is that of an LRU list; the entry it evicts, if any,
    is the least recently used one. *)
Theorem put_refines c order k v e :
  seg c order -> 0 < e ->
  exists c' n order', put vLen c k v e = Ret (c', n, (lru_put (zlen (c_m c)) (abs c order) k v e).2) /\
    seg c' order' /\ abs c' order' = (lru_put (zlen (c_m c)) (abs c order) k v e).1 /\
    zlen (c_m c') = zlen (c_m c).
Proof. apply put_spec. Qed.

(** [del] implements the recency list.  [del] finds exactly the live entries;
    a deleted entry stops counting, goes to the old end of the list, from where
    its slot is reused first, and no other key is affected. *)
Theorem del_refines c order k :
  seg c order ->
  exists c' oi e order', del vLen c k = Ret (c', oi, e) /\ seg c' order' /\
    abs c' order' = lru_del (abs c order) k /\
    (forall k', content c' k' = if decide (k' = k) then None else content c k') /\
    (oi = None <-> content c k = None).
Proof.
  intros Hs. destruct (del_spec c order k Hs) as (c' & oi & e & order' & E & Hs' & Ha & _ & Hc & Hm).
  do 4 eexists. split_and!; try done. destruct (content c k) as [[v e'] |].
  - destruct Hm as (_ & i & -> & _). done.
  - by destruct Hm as [-> _].
Qed.

(** Eviction takes the least recently used live entry.  [evictOldest] reports
    whether there was a live entry, removes exactly the last one in order of use,
    and hands it to the callback. *)
Theorem evictOldest_lru c order :
  seg c order ->
  match oldest_live (abs c order) with
  | Some nd => exists c' order', evictOldest vLen c = Ret (c', true, [(nd_k nd, nd_v nd)]) /\ seg c' order' /\
      (forall k, content c' k = if decide (k = nd_k nd) then None else content c k)
  | None => evictOldest vLen c = Ret (c, false, []) /\ c_bytes c = 0
  end.
Proof.
  intros Hs. pose proof (evictOldest_spec c order Hs) as He.
  destruct (oldest_live (abs c order)) as [nd |] eqn:Eo.
  - destruct He as (c' & order' & E & Hs' & _ & _ & _ & Hc). eauto.
  - split; [done | by apply (no_live c order)].
Qed.

End Theory.
