(* ===== verification/CacheStore.v ===== *)
(** * Cache: buckets of the LRU store

    [lruStore.Get], [SetWithExpiration], [Delete] on one bucket, proved on the
    map of live entries that the two segments hold together, and the store that
    routes a key to its bucket. *)
From S2P Require Import Prelude CacheList CacheLru CacheLruProof.

Section Bucket.
Context {V : Type} (vLen : V -> Z).
Implicit Types b : bucket V.

(** A key is live in at most one level. *)
Record bucket_wf b : Prop := {
  bw_0 : exists order, seg vLen (b_0 b) order;
  bw_1 : exists order, seg vLen (b_1 b) order;
  bw_one k : content (b_0 b) k <> None -> content (b_1 b) k = None
}.

Definition bcontent b (k : string) : option (option V * Z) :=
  match content (b_0 b) k with
  | Some x => Some x
  | None => content (b_1 b) k
  end.

(** [m'] is [m] without the keys of [ev]. *)
Definition minus (m : string -> option (option V * Z)) (ev : evicted (V := V)) (k : string) :
    option (option V * Z) :=
  if decide (k ∈ ev.*1) then None else m k.

Lemma minus_nil m k : minus m [] k = m k.
Proof. unfold minus. apply none_evicted. Qed.

Lemma content_live c order k v e : seg vLen c order -> content c k = Some (v, e) -> 0 < e.
Proof.
  intros _ Hc. unfold content in Hc. repeat case_match; simplify_eq. unfold live in *. lia.
Qed.

Lemma bucket_Get_spec b key now : bucket_wf b ->
  exists v ok b' ev, bucket_Get vLen b key now = Ret (v, ok, b', ev) /\ bucket_wf b' /\
    match bcontent b key with
    | Some (v0, e) =>
        if e <=? now
        then v = None /\ ok = false /\ ev = [(key, v0)] /\
             forall k, bcontent b' k = if decide (k = key) then None else bcontent b k
        else v = v0 /\ ok = true /\ ~ (key ∈ ev.*1) /\ forall k, bcontent b' k = minus (bcontent b) ev k
    | None => v = None /\ ok = false /\ ev = [] /\ forall k, bcontent b' k = bcontent b k
    end.
Proof.
  intros [[o0 H0] [o1 H1] Hone]. unfold bucket_Get, bcontent.
  destruct (del_spec vLen (b_0 b) o0 key H0) as (c0 & oi & e & o0' & -> & Hs0 & _ & _ & Hc0 & Hm).
  cbn [mbind outcome_bind]. destruct (content (b_0 b) key) as [[v0 e0] |] eqn:E0.
  - destruct Hm as (-> & i & -> & Hi & Ei).
    destruct (slot_ok vLen c0 o0' i Hs0 Hi) as (nd & End & ->). rewrite Ei in End. injection End as <-.
    cbn [mbind outcome_bind nd_v].
    destruct (clear_v_spec vLen c0 o0' i _ Hs0 Hi Ei) as (c0' & -> & Hs0' & Hc0' & _); [done |].
    cbn [mbind outcome_bind]. pose proof (content_live _ _ _ _ _ H0 E0) as Hpos.
    assert (content (b_1 b) key = None) as E1 by (apply Hone; congruence).
    destruct (Z.leb_spec e0 now).
    + destruct (drop_key_spec vLen (b_1 b) o1 key H1) as (c1 & o1' & -> & Hs1 & _ & Hc1). cbn [mbind outcome_bind].
      do 4 eexists. split; [done |]. split; [split; simpl; eauto |].
      { intros k. rewrite Hc0', Hc0, Hc1. case_decide; [done |]. apply Hone. }
      split_and!; try done. intros k. simpl. rewrite Hc0', Hc0, Hc1. by case_decide.
    + destruct (put_content vLen (b_1 b) o1 key v0 e0 H1 Hpos) as (c1 & n & ev & o1' & -> & Hs1 & _ & Hc1 & Hev).
      cbn [mbind outcome_bind fst snd].
      do 4 eexists. split; [done |]. split; [split; simpl; eauto |].
      { intros k. rewrite Hc0', Hc0, Hc1. repeat case_decide; try done. apply Hone. }
      split; [done |]. split; [done |]. split.
      { intros Hin. apply list_elem_of_fmap in Hin as ([k v] & -> & Hin). by destruct (Hev k v Hin). }
      intros k. simpl. unfold minus. rewrite Hc0', Hc0, Hc1. destruct (decide (k = key)) as [-> | Hne].
      { rewrite decide_False, E0; [done |]. intros Hin. apply list_elem_of_fmap in Hin as ([k v] & -> & Hin). by destruct (Hev k v Hin). }
      destruct (decide (k ∈ ev.*1)) as [Hin | Hin]; [| done].
      apply list_elem_of_fmap in Hin as ([k' v'] & -> & Hin). destruct (Hev k' v' Hin) as (_ & e' & Hx). simpl.
      destruct (content (b_0 b) k') eqn:Ek; [| done]. rewrite Hone in Hx; congruence.
  - destruct Hm as [-> ->]. unfold peek.
    assert (forall k, content c0 k = content (b_0 b) k) as Hc0'.
    { intros k. rewrite Hc0. case_decide; [by subst | done]. }
    destruct (c_hashMap (b_1 b) !! key) as [i |] eqn:Ei.
    + pose proof Ei as Hx. apply (sg_keys _ _ _ H1) in Hx as (nd & Hi & End & Hk).
      destruct (slot_ok vLen (b_1 b) o1 i H1 Hi) as (nd' & End' & ->). rewrite End in End'. injection End' as <-.
      cbn [mbind outcome_bind]. fold (live nd).
      assert (content (b_1 b) key = if live nd then Some (nd_v nd, nd_expireAt nd) else None) as E1
        by (unfold content; by rewrite Ei, End).
      rewrite E1. destruct (live nd) eqn:El.
      * destruct (Z.leb_spec (nd_expireAt nd) now).
        -- destruct (drop_key_spec vLen (b_1 b) o1 key H1) as (c1 & o1' & -> & Hs1 & _ & Hc1). cbn [mbind outcome_bind].
           do 4 eexists. split; [done |]. split; [split; simpl; eauto |].
           { intros k. rewrite Hc0', Hc1. case_decide; [done |]. apply Hone. }
           split_and!; try done. intros k. simpl. rewrite Hc0', Hc1. case_decide; [subst; by rewrite E0 | done].
        -- destruct (adjust_front vLen (b_1 b) o1 i H1 Hi) as (dl & -> & Ldl & Hr). cbn [mbind outcome_bind].
           assert (seg vLen (set_links dl (b_1 b)) (i :: without i o1)) as Hs1.
           { destruct H1. split; simpl; try done; try lia. intros j. rewrite <- sg_order.
             rewrite without_perm; [done | apply sg_ring | apply sg_order; lia]. }
           do 4 eexists. split; [done |]. split; [split; simpl; eauto |].
           { intros k. rewrite Hc0'. apply Hone. }
           split_and!; try done; [apply not_elem_of_nil |]. intros k. rewrite minus_nil. simpl. by rewrite Hc0'.
      * do 4 eexists. split; [done |]. split; [split; simpl; eauto; intros k; rewrite Hc0'; apply Hone |].
        split_and!; try done. intros k. simpl. by rewrite Hc0'.
    + cbn [mbind outcome_bind].
      assert (content (b_1 b) key = None) as -> by (unfold content; by rewrite Ei).
      do 4 eexists. split; [done |]. split; [split; simpl; eauto; intros k; rewrite Hc0'; apply Hone |].
      split_and!; try done. intros k. simpl. by rewrite Hc0'.
Qed.

Definition b_live b : Z := live_count (c_m (b_0 b)) + live_count (c_m (b_1 b)).

Lemma evictFromBucket_spec b : bucket_wf b ->
  (exists b' k v e, evictFromBucket vLen b = Ret (b', true, [(k, v)]) /\ bucket_wf b' /\
     b_live b' = b_live b - 1 /\ bcontent b k = Some (v, e) /\
     forall k', bcontent b' k' = if decide (k' = k) then None else bcontent b k') \/
  (evictFromBucket vLen b = Ret (b, false, []) /\ c_bytes (b_0 b) = 0 /\ c_bytes (b_1 b) = 0).
Proof.
  intros Hw. pose proof Hw as [[o0 H0] [o1 H1] Hone]. unfold evictFromBucket, b_live, bcontent.
  pose proof (evictOldest_spec vLen (b_0 b) o0 H0) as E0. pose proof (no_live vLen (b_0 b) o0 H0) as N0.
  destruct (oldest_live (abs (b_0 b) o0)) as [nd |].
  - destruct E0 as (c0 & o0' & -> & Hs0 & _ & Hcnt & Hc & Hc0). left. cbn [mbind outcome_bind].
    do 4 eexists. split; [done |]. split; [split; simpl; eauto |].
    { intros k. rewrite Hc0. case_decide; [done | apply Hone]. }
    simpl. split; [lia |]. rewrite Hc. split; [done |]. intros k'. rewrite Hc0. case_decide as Hd; [| done].
    subst k'. apply Hone. congruence.
  - rewrite E0. cbn [mbind outcome_bind]. destruct N0 as [Hb0 Hn0]; [done |].
    pose proof (evictOldest_spec vLen (b_1 b) o1 H1) as E1. pose proof (no_live vLen (b_1 b) o1 H1) as N1.
    destruct (oldest_live (abs (b_1 b) o1)) as [nd |].
    + destruct E1 as (c1 & o1' & -> & Hs1 & _ & Hcnt & Hc & Hc1). left. cbn [mbind outcome_bind fst snd].
      do 4 eexists. split; [done |]. split; [split; simpl; eauto |].
      { intros k Hk. by rewrite Hn0 in Hk. }
      simpl. split; [lia |]. rewrite Hn0, Hc. split; [done |]. intros k'. rewrite Hn0, Hc1. done.
    + rewrite E1. right. cbn [mbind outcome_bind fst snd]. destruct N1 as [Hb1 _]; [done |].
      split; [by destruct b | done].
Qed.

Definition b_bytes b : Z := s64 (c_bytes (b_0 b) + c_bytes (b_1 b)).

(** The loop ends with the bucket within its limit. *)
Lemma shrink_spec fuel maxBytes b : bucket_wf b -> 0 < maxBytes -> b_live b < Z.of_nat fuel ->
  exists b' ev, shrink vLen fuel maxBytes b = Ret (b', ev) /\ bucket_wf b' /\ b_bytes b' <= maxBytes /\
    (forall k, bcontent b' k = minus (bcontent b) ev k) /\
    (forall k v, (k, v) ∈ ev -> exists e, bcontent b k = Some (v, e)).
Proof.
  revert b. induction fuel as [| fuel IH]; intros b Hw Hm Hf.
  { pose proof (live_count_bounds (c_m (b_0 b))). pose proof (live_count_bounds (c_m (b_1 b))). unfold b_live in Hf. lia. }
  cbn [shrink]. fold (b_bytes b). zcase.
  - destruct (evictFromBucket_spec b Hw) as [(b1 & k & v & e & -> & Hw1 & Hl1 & Hk & Hc1) | (-> & Z0 & Z1)].
    + cbn [mbind outcome_bind]. destruct (IH b1 Hw1 Hm) as (b2 & ev & -> & Hw2 & Hb2 & Hc2 & Hev); [lia |].
      cbn [mbind outcome_bind fst snd]. do 2 eexists. split; [done |]. split; [done |]. split; [done |]. split.
      * intros k'. rewrite Hc2. unfold minus. rewrite Hc1. change (([(k, v)] ++ ev).*1) with (k :: ev.*1).
        destruct (decide (k' = k)) as [-> | Hne].
        -- rewrite (decide_True (P := k ∈ k :: ev.*1)) by (by left). by case_decide.
        -- destruct (decide (k' ∈ ev.*1)); [by rewrite decide_True by (by right) |].
           rewrite decide_False; [done |]. by intros [? | ?]%elem_of_cons.
      * intros k' v' [[= -> ->] | Hin]%elem_of_cons; [eauto |]. destruct (Hev k' v' Hin) as [e' He'].
        rewrite Hc1 in He'. case_decide; [done | eauto].
    + exfalso. unfold b_bytes in Eb. rewrite Z0, Z1 in Eb. change (s64 (0 + 0)) with 0 in Eb. lia.
  - do 2 eexists. split; [done |]. split; [done |]. split; [lia |]. split.
    + intros k. by rewrite minus_nil.
    + by intros ? ? ?%not_elem_of_nil.
Qed.

Lemma Set_spec b maxBytes key value e : bucket_wf b -> 0 < e ->
  exists b' ev, bucket_Set vLen b maxBytes key value e = Ret (b', ev) /\ bucket_wf b' /\
    (0 < maxBytes -> b_bytes b' <= maxBytes) /\
    (forall k, bcontent b' k =
       minus (fun k => if decide (k = key) then Some (Some value, e) else bcontent b k) ev k) /\
    (maxBytes <= 0 -> ~ (key ∈ ev.*1)).
Proof.
  intros [[o0 H0] [o1 H1] Hone] He. unfold bucket_Set.
  destruct (put_content vLen (b_0 b) o0 key (Some value) e H0 He) as (c0 & n & ev & o0' & -> & Hs0 & _ & Hc0 & Hev).
  cbn [mbind outcome_bind fst snd].
  destruct (drop_key_spec vLen (b_1 b) o1 key H1) as (c1 & o1' & -> & Hs1 & _ & Hc1). cbn [mbind outcome_bind].
  set (b1 := mkBucket c0 c1).
  assert (~ (key ∈ ev.*1)) as Hkev.
  { intros Hin. apply list_elem_of_fmap in Hin as ([k v] & -> & Hin). by destruct (Hev k v Hin). }
  assert (bucket_wf b1) as Hw1.
  { split; simpl; eauto. intros k. rewrite Hc0, Hc1. repeat case_decide; try done. apply Hone. }
  assert (forall k, bcontent b1 k =
    minus (fun k => if decide (k = key) then Some (Some value, e) else bcontent b k) ev k) as Hb1.
  { intros k. unfold bcontent, minus. simpl. rewrite Hc0, Hc1. destruct (decide (k = key)) as [-> | Hne].
    - by rewrite decide_False.
    - destruct (decide (k ∈ ev.*1)) as [Hin | Hin]; [| done].
      apply list_elem_of_fmap in Hin as ([k' v'] & -> & Hin). destruct (Hev k' v' Hin) as (_ & e' & Hx). simpl.
      apply Hone. simpl. congruence. }
  zcase.
  - destruct (shrink_spec (S (S (length (c_m c0) + length (c_m c1)))) maxBytes b1 Hw1 Eb)
      as (b2 & ev2 & E & Hw2 & Hb2 & Hc2 & Hev2).
    { unfold b_live. pose proof (live_count_bounds (c_m c0)). pose proof (live_count_bounds (c_m c1)).
      unfold zlen in *. simpl. lia. }
    simpl b_0. simpl b_1. rewrite E. cbn [mbind outcome_bind fst snd].
    do 2 eexists. split; [done |]. split; [done |]. split; [done |]. split; [| lia].
    intros k. rewrite Hc2. unfold minus. rewrite Hb1. unfold minus. rewrite fmap_app.
    destruct (decide (k ∈ ev2.*1)), (decide (k ∈ ev.*1)), (decide (k ∈ ev.*1 ++ ev2.*1)) as [Hi | Hi];
      rewrite elem_of_app in Hi; try done; tauto.
  - do 2 eexists. split; [done |]. split; [done |]. split; [lia |]. by split.
Qed.

Lemma delete_spec b key : bucket_wf b ->
  exists b' ev, bucket_delete vLen b key =
      Ret (match bcontent b key with Some _ => true | None => false end, b', ev) /\ bucket_wf b' /\
    (forall k, bcontent b' k = if decide (k = key) then None else bcontent b k).
Proof.
  intros [[o0 H0] [o1 H1] Hone]. unfold bucket_delete, bcontent.
  destruct (del_spec vLen (b_0 b) o0 key H0) as (c0 & i0 & e0 & o0' & -> & Hs0 & _ & _ & Hc0 & Hm0).
  destruct (del_spec vLen (b_1 b) o1 key H1) as (c1 & i1 & e1 & o1' & -> & Hs1 & _ & _ & Hc1 & Hm1).
  cbn [mbind outcome_bind].
  assert (exists v0 c0', match i0 with Some i => nd ← slot c0 i; Ret (nd_v nd) | None => Ret None end = Ret v0 /\
    match i0 with Some i => clear_v c0 i | None => Ret c0 end = Ret c0' /\ (exists o, seg vLen c0' o) /\
    (forall k, content c0' k = content c0 k) /\ (i0 = None <-> content (b_0 b) key = None))
    as (v0 & c0' & -> & -> & Hs0' & Hc0' & Hi0).
  { destruct (content (b_0 b) key) as [[v e] |].
    - destruct Hm0 as (_ & i & -> & Hi & Ei). destruct (slot_ok vLen c0 o0' i Hs0 Hi) as (nd & End & ->).
      destruct (clear_v_spec vLen c0 o0' i _ Hs0 Hi Ei) as (c & -> & Hs & Hc & _); [done |].
      do 2 eexists. split; [done |]. split; [done |]. split; [eauto |]. split; done.
    - destruct Hm0 as [-> _]. do 2 eexists. split; [done |]. split; [done |]. split; [eauto |]. split; done. }
  assert (exists v1 c1', match i1 with Some i => nd ← slot c1 i; Ret (nd_v nd) | None => Ret None end = Ret v1 /\
    match i1 with Some i => clear_v c1 i | None => Ret c1 end = Ret c1' /\ (exists o, seg vLen c1' o) /\
    (forall k, content c1' k = content c1 k) /\ (i1 = None <-> content (b_1 b) key = None))
    as (v1 & c1' & -> & -> & Hs1' & Hc1' & Hi1).
  { destruct (content (b_1 b) key) as [[v e] |].
    - destruct Hm1 as (_ & i & -> & Hi & Ei). destruct (slot_ok vLen c1 o1' i Hs1 Hi) as (nd & End & ->).
      destruct (clear_v_spec vLen c1 o1' i _ Hs1 Hi Ei) as (c & -> & Hs & Hc & _); [done |].
      do 2 eexists. split; [done |]. split; [done |]. split; [eauto |]. split; done.
    - destruct Hm1 as [-> _]. do 2 eexists. split; [done |]. split; [done |]. split; [eauto |]. split; done. }
  cbn [mbind outcome_bind]. do 2 eexists. split.
  - do 3 f_equal. destruct i0, i1, (content (b_0 b) key), (content (b_1 b) key); try done; naive_solver.
  - split; [split; simpl; eauto |].
    + intros k. rewrite Hc0', Hc0, Hc1', Hc1. case_decide; [done | apply Hone].
    + intros k. simpl. rewrite Hc0', Hc0, Hc1', Hc1. by case_decide.
Qed.

End Bucket.

(** ** The store *)

(** [hash = hash*131 + int32(s[i])] *)
Definition HashBKRD (s : string) : Z :=
  foldl (fun hash a => s32 (s32 (hash * 131) + Z.of_N (Ascii.N_of_ascii a))) 0 (String.list_ascii_of_string s).

Definition MaskOfNextPowOf2 (cap : Z) : Z :=
  if (0 <? cap) && (Z.land cap (u16 (cap - 1)) =? 0) then u16 (cap - 1)
  else
    let cap := Z.lor cap (Z.shiftr cap 1) in
    let cap := Z.lor cap (Z.shiftr cap 2) in
    let cap := Z.lor cap (Z.shiftr cap 4) in
    Z.lor cap (Z.shiftr cap 8).

Record StoreOptions := mkOptions {
  BucketCount : Z; CapPerBucket : Z; Level2Cap : Z; MaxBytes : Z
}.

Definition maxExpireAt : Z := 9223372036854775807.

Section Store.
Context {V : Type} (vLen : V -> Z).

Record lruStore := mkStore {
  s_caches : list (bucket V);
  s_maxBucketBytes : Z;
  s_mask : Z
}.

Definition NewStore (opts : StoreOptions) : outcome lruStore :=
  let bc := if BucketCount opts =? 0 then 16 else BucketCount opts in
  let cap := if CapPerBucket opts =? 0 then 512 else CapPerBucket opts in
  let cap2 := if Level2Cap opts =? 0 then 256 else Level2Cap opts in
  let mask := MaskOfNextPowOf2 bc in
  let n := u16 (mask + 1) in
  max ← (if 0 <? MaxBytes opts then
           if n =? 0 then Panic "integer divide by zero"
           else let m := Z.quot (MaxBytes opts) n in Ret (if m <=? 0 then 1 else m)
         else Ret 0);
  Ret (mkStore (replicate (Z.to_nat n) (mkBucket (Create cap) (Create cap2))) max mask).

(** [HashBKRD(key) & s.mask] *)
Definition bucket_index (s : lruStore) (key : string) : Z := Z.land (HashBKRD key) (s_mask s).

Definition set_bucket (s : lruStore) (i : Z) (b : bucket V) : lruStore :=
  mkStore (<[Z.to_nat i := b]> (s_caches s)) (s_maxBucketBytes s) (s_mask s).

Definition store_Get (s : lruStore) (key : string) (now : Z) : outcome (option V * bool * lruStore * evicted (V := V)) :=
  let i := bucket_index s key in
  b ← go_index (s_caches s) i;
  r ← bucket_Get vLen b key now;
  let '(v, ok, b', ev) := (r : option V * bool * bucket V * evicted (V := V)) in
  Ret (v, ok, set_bucket s i b', ev).

Definition SetWithExpiration (s : lruStore) (key : string) (value : V) (expiration now : Z) :
    outcome (lruStore * evicted (V := V)) :=
  let expireAt := if 0 <? expiration then s64 (now + expiration) else maxExpireAt in
  let i := bucket_index s key in
  b ← go_index (s_caches s) i;
  r ← bucket_Set vLen b (s_maxBucketBytes s) key value expireAt;
  Ret (set_bucket s i r.1, r.2).

Definition store_Set (s : lruStore) (key : string) (value : V) (now : Z) : outcome (lruStore * evicted (V := V)) :=
  SetWithExpiration s key value 0 now.

Definition store_Delete (s : lruStore) (key : string) : outcome (bool * lruStore * evicted (V := V)) :=
  let i := bucket_index s key in
  b ← go_index (s_caches s) i;
  r ← bucket_delete vLen b key;
  Ret (r.1.1, set_bucket s i r.1.2, r.2).

Definition Bytes (s : lruStore) : Z :=
  foldl (fun total b => s64 (total + s64 (c_bytes (b_0 b) + c_bytes (b_1 b)))) 0 (s_caches s).

Definition Evictions (s : lruStore) : Z :=
  foldl (fun total b => s64 (total + s64 (c_nevict (b_0 b) + c_nevict (b_1 b)))) 0 (s_caches s).

(** ** Its contract *)

Record store_wf (s : lruStore) : Prop := {
  st_mask : exists k, 0 <= k /\ s_mask s = 2 ^ k - 1;
  st_len : zlen (s_caches s) = s_mask s + 1;
  st_buckets : Forall (bucket_wf vLen) (s_caches s)
}.

Definition scontent (s : lruStore) (k : string) : option (option V * Z) :=
  match zlookup (s_caches s) (bucket_index s k) with Some b => bcontent b k | None => None end.

Lemma bucket_ok s key : store_wf s -> exists b, 0 <= bucket_index s key < zlen (s_caches s) /\
  zlookup (s_caches s) (bucket_index s key) = Some b /\ go_index (s_caches s) (bucket_index s key) = Ret b /\
  bucket_wf vLen b.
Proof.
  intros [(k & Hk & Hm) Hl HF].
  assert (0 <= bucket_index s key < zlen (s_caches s)) as Hr.
  { unfold bucket_index. rewrite Hl, Hm. replace (2 ^ k - 1) with (Z.ones k) by (rewrite Z.ones_equiv; lia).
    rewrite Z.land_ones by done. rewrite Z.ones_equiv. pose proof (Z.mod_pos_bound (HashBKRD key) (2 ^ k)). lia. }
  destruct (zlookup_is_Some _ _ Hr) as [b Hb]. exists b. split; [done |]. split; [done |].
  split; [by apply go_index_Some |]. by apply (zlookup_Forall _ _ _ _ HF Hb).
Qed.

Lemma set_bucket_wf s i b : store_wf s -> 0 <= i -> bucket_wf vLen b -> store_wf (set_bucket s i b).
Proof.
  intros [Hm Hl HF] Hi Hb. split; simpl; try done.
  - unfold zlen in *. by rewrite length_insert.
  - by apply Forall_insert.
Qed.

(** Keys of other buckets are untouched. *)
Lemma scontent_set s i b k : 0 <= i < zlen (s_caches s) ->
  scontent (set_bucket s i b) k = if decide (bucket_index s k = i) then bcontent b k else scontent s k.
Proof.
  intros Hi. unfold scontent. change (bucket_index (set_bucket s i b) k) with (bucket_index s k).
  unfold zlookup. simpl. destruct (Z.ltb_spec (bucket_index s k) 0).
  - rewrite decide_False by lia. done.
  - case_decide as Hd.
    + subst i. rewrite list_lookup_insert_eq; [done | unfold zlen in *; lia].
    + rewrite list_lookup_insert_ne by lia. done.
Qed.

Lemma store_Get_spec s key now : store_wf s ->
  exists v ok s' ev, store_Get s key now = Ret (v, ok, s', ev) /\ store_wf s' /\
    match scontent s key with
    | Some (v0, e) => if e <=? now then v = None /\ ok = false /\ scontent s' key = None
                      else v = v0 /\ ok = true /\ scontent s' key = Some (v0, e)
    | None => v = None /\ ok = false /\ scontent s' key = None
    end /\
    forall k, k <> key -> scontent s' k = scontent s k \/ (k ∈ ev.*1 /\ scontent s' k = None).
Proof.
  intros Hw. destruct (bucket_ok s key Hw) as (b & Hi & Hb & Eb & Hbw).
  unfold store_Get. rewrite Eb. cbn [mbind outcome_bind].
  destruct (bucket_Get_spec vLen b key now Hbw) as (v & ok & b' & ev & -> & Hbw' & Hm). cbn [mbind outcome_bind].
  do 4 eexists. split; [done |]. split; [apply set_bucket_wf; done || lia |].
  assert (forall k, bucket_index s k = bucket_index s key -> scontent s k = bcontent b k) as Hsc.
  { intros k E. unfold scontent. by rewrite E, Hb. }
  rewrite scontent_set, decide_True, (Hsc key) by done.
  assert (forall k, k <> key ->
    (bucket_index s k = bucket_index s key -> bcontent b' k = bcontent b k \/ (k ∈ ev.*1 /\ bcontent b' k = None)) ->
    scontent (set_bucket s (bucket_index s key) b') k = scontent s k \/
    (k ∈ ev.*1 /\ scontent (set_bucket s (bucket_index s key) b') k = None)) as Hrest.
  { intros k Hne Hk. rewrite scontent_set by done. case_decide as Hd; [rewrite (Hsc k Hd); auto | by left]. }
  destruct (bcontent b key) as [[v0 e] |] eqn:Ek.
  - destruct (e <=? now) eqn:Ee.
    + destruct Hm as (-> & -> & -> & Hc). split; [by rewrite Hc, decide_True |].
      intros k Hne. apply Hrest; [done |]. intros _. left. by rewrite Hc, decide_False.
    + destruct Hm as (-> & -> & Hn & Hc). split; [rewrite Hc; unfold minus; by rewrite decide_False |].
      intros k Hne. apply Hrest; [done |]. intros _. rewrite Hc. unfold minus.
      destruct (decide (k ∈ ev.*1)); [by right | by left].
  - destruct Hm as (-> & -> & -> & Hc). split; [by rewrite Hc |].
    intros k Hne. apply Hrest; [done |]. intros _. left. apply Hc.
Qed.

Lemma store_Set_spec s key value d now : store_wf s ->
  let e := if 0 <? d then s64 (now + d) else maxExpireAt in 0 < e ->
  exists s' ev, SetWithExpiration s key value d now = Ret (s', ev) /\ store_wf s' /\
    (scontent s' key = Some (Some value, e) \/ (0 < s_maxBucketBytes s /\ key ∈ ev.*1 /\ scontent s' key = None)) /\
    (forall k, k <> key -> scontent s' k = scontent s k \/ (k ∈ ev.*1 /\ scontent s' k = None)) /\
    (0 < s_maxBucketBytes s -> exists b, zlookup (s_caches s') (bucket_index s' key) = Some b /\
       b_bytes b <= s_maxBucketBytes s).
Proof.
  intros Hw e He. destruct (bucket_ok s key Hw) as (b & Hi & Hb & Eb & Hbw).
  unfold SetWithExpiration. rewrite Eb. cbn [mbind outcome_bind]. fold e.
  destruct (Set_spec vLen b (s_maxBucketBytes s) key value e Hbw He) as (b' & ev & -> & Hbw' & Hmax & Hc & Hno).
  cbn [mbind outcome_bind fst snd]. do 2 eexists. split; [done |]. split; [apply set_bucket_wf; done || lia |].
  split; [| split].
  - rewrite scontent_set, decide_True, Hc by done. unfold minus.
    destruct (decide (key ∈ ev.*1)) as [Hin | Hin]; [right | left; by rewrite decide_True].
    split; [| by split]. destruct (decide (0 < s_maxBucketBytes s)); [done |]. exfalso. apply Hno; [lia | done].
  - intros k Hne. rewrite scontent_set by done. case_decide as Hd; [| by left]. rewrite Hc. unfold minus.
    destruct (decide (k ∈ ev.*1)); [by right |]. left. rewrite decide_False by done.
    unfold scontent. by rewrite Hd, Hb.
  - intros Hpos. exists b'. split; [| by apply Hmax].
    change (bucket_index (set_bucket s (bucket_index s key) b') key) with (bucket_index s key).
    unfold zlookup. zcase; [lia |]. simpl. apply list_lookup_insert_eq. unfold zlen in *. lia.
Qed.

(** *** NewStore *)

Lemma at_replicate n s i : at_ (replicate n (0, 0)) s i = 0.
Proof.
  unfold at_, zlookup. zcase; [done |]. destruct (replicate n (0, 0) !! Z.to_nat i) as [x |] eqn:E; [| done].
  apply lookup_replicate in E as [-> _]. by destruct s.
Qed.

Lemma Create_seg cap : 0 < cap < 65535 -> seg vLen (Create cap) [].
Proof.
  intros Hc. unfold Create. rewrite u16_small by lia.
  assert (forall (A : Type) (x : A) n, zlen (replicate n x) = Z.of_nat n) as Hz
    by (intros; unfold zlen; by rewrite length_replicate).
  split; simpl; rewrite ?Hz; try lia.
  - split; simpl; [apply at_replicate | apply at_replicate | constructor | constructor].
  - intros i. split; [by intros ?%not_elem_of_nil | lia].
  - intros k i. rewrite lookup_empty. split; [done |]. intros (nd & ? & _). lia.
  - intros i nd _. unfold zlookup. zcase; [done |]. intros [-> _]%lookup_replicate. done.
  - assert (forall n, live_bytes vLen (replicate n (@zeroNode V)) = 0) as ->; [| done].
    induction n as [| n IH]; [done |]. exact IH.
Qed.

Definition is_mask (cap m : Z) : bool :=
  (m =? 2 ^ Z.log2 (m + 1) - 1) && (cap <=? m + 1) && (m <? 65535).

(** [p] holds of the [n] integers from [z] on; the counter is binary, so that it
    evaluates fast. *)
Fixpoint forall_from (p : Z -> bool) (n : nat) (z : Z) : bool :=
  match n with O => true | S n' => p z && forall_from p n' (z + 1) end.

Lemma forall_from_spec p n z : forall_from p n z = true -> forall x, z <= x < z + Z.of_nat n -> p x = true.
Proof.
  revert z. induction n as [| n IH]; simpl; intros z H x Hx; [lia |].
  apply andb_prop in H as [Hz Hn]. destruct (decide (x = z)) as [-> | ?]; [done |].
  apply (IH _ Hn). lia.
Qed.

Lemma mask_ok cap : 0 < cap <= 32768 -> is_mask cap (MaskOfNextPowOf2 cap) = true.
Proof.
  intros Hc. apply (forall_from_spec (fun x => is_mask x (MaskOfNextPowOf2 x)) (Z.to_nat 32768) 1); [| lia].
  vm_compute. reflexivity.
Qed.

Lemma empty_content c (k : string) : c_hashMap c = ∅ -> @content V c k = None.
Proof. intros E. unfold content. by rewrite E, lookup_empty. Qed.

(** [NewStore] builds a working store.  With at most 32768 buckets and
    segment capacities below 65535 (zero standing for the default), it returns a
    well-formed empty store with a power of two of buckets, at least as many as
    asked for. *)
Theorem NewStore_starts opts :
  0 <= BucketCount opts <= 32768 -> 0 <= CapPerBucket opts < 65535 -> 0 <= Level2Cap opts < 65535 ->
  exists s, NewStore opts = Ret s /\ store_wf s /\ BucketCount opts <= zlen (s_caches s) /\
    forall k, scontent s k = None.
Proof.
  intros Hb Hc1 Hc2. unfold NewStore.
  set (bc := if BucketCount opts =? 0 then 16 else BucketCount opts).
  set (cap := if CapPerBucket opts =? 0 then 512 else CapPerBucket opts).
  set (cap2 := if Level2Cap opts =? 0 then 256 else Level2Cap opts).
  assert (0 < bc <= 32768 /\ BucketCount opts <= bc) as [Hbc Hle] by (subst bc; zcase; lia).
  assert (0 < cap < 65535) as Hcap by (subst cap; zcase; lia).
  assert (0 < cap2 < 65535) as Hcap2 by (subst cap2; zcase; lia).
  pose proof (mask_ok bc Hbc) as Hm. unfold is_mask in Hm. zb. set (mask := MaskOfNextPowOf2 bc) in *.
  pose proof (Z.log2_nonneg (mask + 1)).
  rewrite u16_small by lia.
  assert (exists max, (if 0 <? MaxBytes opts then
           if mask + 1 =? 0 then Panic "integer divide by zero"
           else Ret (if Z.quot (MaxBytes opts) (mask + 1) <=? 0 then 1 else Z.quot (MaxBytes opts) (mask + 1))
         else Ret 0) = Ret max) as [max ->].
  { destruct (0 <? MaxBytes opts); [| by eexists]. destruct (Z.eqb_spec (mask + 1) 0); [lia | by eexists]. }
  cbn [mbind outcome_bind]. eexists. split; [done |].
  assert (bucket_wf vLen (mkBucket (Create cap) (Create cap2))) as Hbw.
  { split; simpl; [by exists []; apply Create_seg | by exists []; apply Create_seg |].
    intros k Hk. by rewrite empty_content in Hk. }
  assert (zlen (replicate (Z.to_nat (mask + 1)) (@mkBucket V (Create cap) (Create cap2))) = mask + 1) as Hz
    by (unfold zlen; rewrite length_replicate; lia).
  split_and!.
  - split; simpl; [exists (Z.log2 (mask + 1)); split; [done | lia] | exact Hz | by apply Forall_replicate].
  - simpl. rewrite Hz. lia.
  - intros k. unfold scontent. destruct (zlookup _ _) as [b |] eqn:E; [| done].
    unfold zlookup in E. simpl in E. zcase_in E; [done |]. apply lookup_replicate in E as [-> _].
    unfold bcontent. simpl. rewrite !empty_content; done.
Qed.

(** [Get] returns exactly the live entries.  On a well-formed store, [Get]
    never fails; it returns the value stored for the key when there is one that
    has not expired, and nothing otherwise; it keeps the store well-formed, and
    other keys are lost only by eviction, which the callback reports. *)
Theorem store_get_live s key now :
  store_wf s ->
  exists v ok s' ev, store_Get s key now = Ret (v, ok, s', ev) /\ store_wf s' /\
    match scontent s key with
    | Some (v0, e) => if e <=? now then v = None /\ ok = false /\ scontent s' key = None
                      else v = v0 /\ ok = true /\ scontent s' key = Some (v0, e)
    | None => v = None /\ ok = false /\ scontent s' key = None
    end /\
    forall k, k <> key -> scontent s' k = scontent s k \/ (k ∈ ev.*1 /\ scontent s' k = None).
Proof. apply store_Get_spec. Qed.

(** What was set can be read.  After [SetWithExpiration], [Get] of the same
    key before the expiry returns the value, unless the byte limit of the bucket
    made the store evict the entry at once, which the callback reports. *)
Theorem store_set_get s key value d now now' :
  store_wf s -> 0 <= now -> now + d < 9223372036854775808 ->
  (if 0 <? d then now' < now + d else now' < maxExpireAt) ->
  exists s' ev, SetWithExpiration s key value d now = Ret (s', ev) /\ store_wf s' /\
    ((exists s'' ev', store_Get s' key now' = Ret (Some value, true, s'', ev')) \/
     (0 < s_maxBucketBytes s /\ key ∈ ev.*1)).
Proof.
  intros Hw H0 Hd Hn. pose proof (store_Set_spec s key value d now Hw) as Hset. cbv zeta in Hset.
  assert (0 < (if 0 <? d then s64 (now + d) else maxExpireAt) /\
          now' < (if 0 <? d then s64 (now + d) else maxExpireAt)) as [He Hlt].
  { destruct (Z.ltb_spec 0 d); [unwrap; lia | done]. }
  destruct (Hset He) as (s' & ev & E & Hw' & [Hc | (Hev1 & Hev2 & _)] & _); exists s', ev; (split; [done |]; split; [done |]);
    [left | by right].
  destruct (store_Get_spec s' key now' Hw') as (v & ok & s'' & ev' & E' & _ & Hm & _).
  rewrite Hc in Hm. zcase_in Hm; [lia |]. destruct Hm as (-> & -> & _). eauto.
Qed.

(** C17: The byte limit holds after every write.  When a limit is configured,
    after [SetWithExpiration] the bucket's accounted bytes are within it; other
    keys are lost only by eviction. *)
Theorem store_set_bounded s key value d now :
  store_wf s -> 0 <= now -> now + d < 9223372036854775808 -> 0 < s_maxBucketBytes s ->
  exists s' ev b, SetWithExpiration s key value d now = Ret (s', ev) /\ store_wf s' /\
    zlookup (s_caches s') (bucket_index s' key) = Some b /\ b_bytes b <= s_maxBucketBytes s /\
    forall k, k <> key -> scontent s' k = scontent s k \/ (k ∈ ev.*1 /\ scontent s' k = None).
Proof.
  intros Hw H0 Hd Hmax. pose proof (store_Set_spec s key value d now Hw) as Hset. cbv zeta in Hset.
  assert (0 < (if 0 <? d then s64 (now + d) else maxExpireAt)) as He
    by (destruct (Z.ltb_spec 0 d); [unwrap; lia | done]).
  destruct (Hset He) as (s' & ev & E & Hw' & _ & Hk & Hb). destruct (Hb Hmax) as (b & Eb & Hle). eauto 8.
Qed.

End Store.
Arguments lruStore : clear implicits.

(** Too many buckets are none.  The number of buckets is computed in 16 bits:
    when more than 32768 are asked for, the store gets none at all, and every
    access panics. *)
Theorem bucket_count_overflow :
  exists s, NewStore (V := Z) (mkOptions 40000 0 0 0) = Ret s /\ s_caches s = [] /\
    store_Get (fun _ => 0) s "key" 0 = Panic "index out of range".
Proof. eexists. split; [by vm_compute |]. split; by vm_compute. Qed.

(** ** Witnesses *)

Definition ex_len (v : Z) : Z := 8.
Definition ex_seg : cache Z := Create 2.

Lemma ex_seg_wf : seg ex_len ex_seg [].
Proof. by apply Create_seg. Qed.

Definition seg_or {A B} (d : cache Z) (o : outcome (cache Z * A * B)) : cache Z :=
  match o with Ret (c, _, _) => c | Panic _ => d end.
Definition ex_seg1 : cache Z := seg_or ex_seg (put ex_len ex_seg "a" (Some 1) 10).

Lemma ex_seg1_wf : exists order, seg ex_len ex_seg1 order.
Proof.
  destruct (put_spec ex_len ex_seg [] "a" (Some 1) 10 ex_seg_wf) as (c' & n & order' & E & Hs & _); [lia |].
  exists order'. unfold ex_seg1. by rewrite E.
Qed.

Lemma put_refines_witness :
  exists c' n order', put ex_len ex_seg "a" (Some 1) 10 = Ret (c', n, []) /\ seg ex_len c' order' /\
    abs c' order' = [mkLnode "a" (Some 1) 10].
Proof.
  destruct (put_refines ex_len ex_seg [] "a" (Some 1) 10 ex_seg_wf) as (c' & n & order' & E & Hs & Ha & _); [lia |].
  exists c', n, order'. split; [exact E |]. split; [exact Hs | exact Ha].
Defined.

Lemma del_refines_witness : exists order c' oi e order',
  del ex_len ex_seg1 "a" = Ret (c', oi, e) /\ seg ex_len c' order' /\
  abs c' order' = lru_del (abs ex_seg1 order) "a".
Proof.
  destruct ex_seg1_wf as [order Hs]. exists order.
  destruct (del_refines ex_len ex_seg1 order "a" Hs) as (c' & oi & e & order' & E & Hs' & Ha & _).
  exists c', oi, e, order'. split; [exact E |]. split; [exact Hs' | exact Ha].
Defined.

Lemma evictOldest_lru_witness : evictOldest ex_len ex_seg = Ret (ex_seg, false, []) /\ c_bytes ex_seg = 0.
Proof. exact (evictOldest_lru ex_len ex_seg [] ex_seg_wf). Defined.

Definition ex_options : StoreOptions := mkOptions 2 2 2 40.
Definition store_or (o : outcome (lruStore Z)) : lruStore Z :=
  match o with Ret s => s | Panic _ => mkStore [] 0 0 end.
Definition ex_store : lruStore Z := store_or (NewStore ex_options).

Lemma NewStore_starts_witness :
  exists s, NewStore (V := Z) ex_options = Ret s /\ store_wf ex_len s /\ 2 <= zlen (s_caches s).
Proof.
  destruct (NewStore_starts ex_len ex_options) as (s & E & Hw & Hl & _); [by vm_compute | by vm_compute | by vm_compute |].
  exists s. split; [exact E |]. split; [exact Hw | exact Hl].
Defined.

Lemma ex_store_wf : store_wf ex_len ex_store.
Proof.
  assert (bucket_wf ex_len (mkBucket (Create 2) (Create 2))) as Hb.
  { split; simpl; [by exists []; apply Create_seg | by exists []; apply Create_seg |].
    intros k Hk. by rewrite empty_content in Hk. }
  split; [by exists 1 | done | exact (Forall_cons_2 _ _ _ Hb (Forall_cons_2 _ _ _ Hb (Forall_nil_2 _)))].
Qed.

Lemma store_get_live_witness :
  exists v ok s' ev, store_Get ex_len ex_store "a" 5 = Ret (v, ok, s', ev) /\ v = None /\ ok = false.
Proof.
  destruct (store_get_live ex_len ex_store "a" 5 ex_store_wf) as (v & ok & s' & ev & E & _ & Hm & _).
  assert (scontent ex_store "a" = None) as Hc by (by vm_compute). rewrite Hc in Hm.
  exists v, ok, s', ev. split; [exact E |]. split; apply Hm.
Defined.

Lemma store_set_get_witness :
  exists s' ev, SetWithExpiration ex_len ex_store "a" 7 100 5 = Ret (s', ev) /\
    ((exists s'' ev', store_Get ex_len s' "a" 50 = Ret (Some 7, true, s'', ev')) \/
     (0 < s_maxBucketBytes ex_store /\ "a" ∈ ev.*1)).
Proof.
  destruct (store_set_get ex_len ex_store "a" 7 100 5 50 ex_store_wf) as (s' & ev & E & _ & Hg);
    [lia | lia | by vm_compute |].
  exists s', ev. split; [exact E | exact Hg].
Defined.

Lemma store_set_bounded_witness :
  exists s' ev b, SetWithExpiration ex_len ex_store "a" 7 100 5 = Ret (s', ev) /\
    zlookup (s_caches s') (bucket_index s' "a") = Some b /\ b_bytes b <= 20.
Proof.
  destruct (store_set_bounded ex_len ex_store "a" 7 100 5 ex_store_wf) as (s' & ev & b & E & _ & Hb & Hl & _);
    [lia | lia | by vm_compute |].
  exists s', ev, b. split; [exact E |]. split; [exact Hb | exact Hl].
Defined.
