(* ===== verification/CacheMaint.v ===== *)
(** * Cache: walking, clearing and cleaning the store

    [lruStore.Clear], [Len], [Walk] and the sweep of [cleanupLoop], on the buckets of
    [CacheStore].  The order in which Go iterates over a map of keys is a parameter. *)
From S2P Require Import Prelude CacheList CacheLru CacheLruProof CacheStore.

Section Maint.
Context {V : Type} (vLen : V -> Z).

(** ** Operations *)

(** The walker of [Clear] and [Len]: it collects keys. *)
Definition add_key (keys : gset string) (nd : lnode V) : outcome (gset string * bool) := Ret (keys ∪ {[nd_k nd]}, true).

Definition bucket_keys (b : bucket V) : outcome (gset string) :=
  keys ← walk add_key (b_0 b) ∅;
  walk add_key (b_1 b) keys.

(** [for key := range keys { s.delete(key, i) }] *)
Fixpoint delete_keys (b : bucket V) (ks : list string) : outcome (bucket V * evicted (V := V)) :=
  match ks with
  | [] => Ret (b, [])
  | k :: ks =>
      r ← bucket_delete vLen b k;
      let '(_, b, ev) := (r : bool * bucket V * evicted (V := V)) in
      r ← delete_keys b ks;
      Ret (r.1, ev ++ r.2)
  end.

(** The loop over the buckets, each under its lock. *)
Fixpoint each_bucket (f : bucket V -> outcome (bucket V * evicted (V := V))) (bs : list (bucket V)) :
    outcome (list (bucket V) * evicted (V := V)) :=
  match bs with
  | [] => Ret ([], [])
  | b :: bs =>
      r ← f b;
      rs ← each_bucket f bs;
      Ret (r.1 :: rs.1, r.2 ++ rs.2)
  end.

Definition set_caches (s : lruStore V) (r : list (bucket V) * evicted (V := V)) : lruStore V * evicted (V := V) :=
  (mkStore r.1 (s_maxBucketBytes s) (s_mask s), r.2).

Definition Clear (ord : gset string -> list string) (s : lruStore V) : outcome (lruStore V * evicted (V := V)) :=
  r ← each_bucket (fun b => keys ← bucket_keys b; delete_keys b (ord keys)) (s_caches s);
  Ret (set_caches s r).

(** The walker of the sweep. *)
Definition add_expired (currentTime : Z) (keys : gset string) (nd : lnode V) : outcome (gset string * bool) :=
  Ret (if nd_expireAt nd <=? currentTime then keys ∪ {[nd_k nd]} else keys, true).

(** One tick of [cleanupLoop]. *)
Definition cleanup (ord : gset string -> list string) (currentTime : Z) (s : lruStore V) :
    outcome (lruStore V * evicted (V := V)) :=
  r ← each_bucket (fun b =>
        keys ← walk (add_expired currentTime) (b_0 b) ∅;
        keys ← walk (add_expired currentTime) (b_1 b) keys;
        delete_keys b (ord keys)) (s_caches s);
  Ret (set_caches s r).

Fixpoint count_buckets (bs : list (bucket V)) (count : Z) : outcome Z :=
  match bs with
  | [] => Ret count
  | b :: bs => seen ← bucket_keys b; count_buckets bs (count + Z.of_nat (size seen))
  end.

Definition Len (s : lruStore V) : outcome Z := count_buckets (s_caches s) 0.

Record Entry := mkEntry { en_Key : string; en_Size : Z; en_ExpireAt : Z; en_Level : Z }.

(** [value.Len()] of a nil value panics. *)
Definition to_entry (nd : lnode V) (level : Z) : outcome Entry :=
  match nd_v nd with
  | None => Panic "nil pointer dereference"
  | Some v => Ret (mkEntry (nd_k nd) (vLen v) (nd_expireAt nd) level)
  end.

Definition walk_level1 {St} (fn : St -> Entry -> St * bool) (x : gset string * St) (nd : lnode V) :
    outcome ((gset string * St) * bool) :=
  e ← to_entry nd 1;
  let r := fn x.2 e in
  Ret ((x.1 ∪ {[nd_k nd]}, r.1), r.2).

Definition walk_level0 {St} (fn : St -> Entry -> St * bool) (seen : gset string) (s : St) (nd : lnode V) :
    outcome (St * bool) :=
  if decide (nd_k nd ∈ seen) then Ret (s, true)
  else e ← to_entry nd 0; Ret (fn s e).

(** [fn] keeps a state [St]; when it returns false the level being walked is left, and
    the walk goes on with the next level or bucket. *)
Fixpoint Walk_buckets {St} (fn : St -> Entry -> St * bool) (bs : list (bucket V)) (s : St) : outcome St :=
  match bs with
  | [] => Ret s
  | b :: bs =>
      r ← walk (walk_level1 fn) (b_1 b) (∅, s);
      s ← walk (walk_level0 fn r.1) (b_0 b) r.2;
      Walk_buckets fn bs s
  end.

Definition Walk {St} (fn : St -> Entry -> St * bool) (s : lruStore V) (st : St) : outcome St :=
  Walk_buckets fn (s_caches s) st.

(** ** Walking a segment *)

(** The walker over a list, until it stops. *)
Fixpoint visit {St} (walker : St -> lnode V -> outcome (St * bool)) (l : list (lnode V)) (s : St) : outcome St :=
  match l with
  | [] => Ret s
  | nd :: l => r ← walker s nd; if negb (r : St * bool).2 then Ret r.1 else visit walker l r.1
  end.

Definition live_nodes (c : cache V) (order : list Z) : list (lnode V) := filter (fun nd => live nd = true) (abs c order).

Lemma walk_loop_spec {St} (walker : St -> lnode V -> outcome (St * bool)) fuel c order A B s :
  seg vLen c order -> order = A ++ B -> (length B < fuel)%nat ->
  walk_loop walker fuel c (default 0 (head B)) s = visit walker (filter (fun nd => live nd = true) (entries (c_m c) B)) s.
Proof.
  intros Hs. revert A B s. induction fuel as [| fuel IH]; intros A B s HA Hf; [lia |]. destruct B as [| i B]; [done |].
  assert (0 < i <= c_last c) as Hi.
  { apply (sg_order _ _ _ Hs). rewrite HA. apply elem_of_app. right. by left. }
  destruct (slot_ok vLen c order i Hs Hi) as (nd & Ei & Eslot). rewrite entries_cons, Ei, filter_cons. cbn [head default walk_loop].
  cbn [from_option]. unfold id. replace (i =? 0) with false by lia. rewrite Eslot. cbn [mbind outcome_bind].
  pose proof (sg_dl _ _ _ Hs). pose proof (sg_last _ _ _ Hs).
  assert (at_ (doubleLink c) Sn i = default 0 (head B)) as Hnx.
  { pose proof (ri_forth _ _ _ (sg_ring _ _ _ Hs)) as Hp. rewrite HA in Hp. apply path_app in Hp as [_ Hp]. destruct B; apply Hp. }
  assert (forall s, (nx ← dl_get (doubleLink c) i Sn; walk_loop walker fuel c nx s) =
    visit walker (filter (fun nd => live nd = true) (entries (c_m c) B)) s) as Hrest.
  { intros s'. rewrite dl_get_ok by lia. cbn [mbind outcome_bind]. rewrite Hnx.
    apply (IH (A ++ [i]) B); [by rewrite <- app_assoc | simpl in Hf; lia]. }
  unfold live at 1. case_decide as Hl.
  - rewrite Hl. cbn [visit]. destruct (walker s nd) as [[s' go] | msg]; [| done]. cbn [mbind outcome_bind fst snd].
    destruct go; [apply Hrest | done].
  - apply not_true_is_false in Hl. rewrite Hl. cbn [mbind outcome_bind fst snd negb]. apply Hrest.
Qed.

Lemma segment_walk_spec {St} (walker : St -> lnode V -> outcome (St * bool)) c order s : seg vLen c order ->
  walk walker c s = visit walker (live_nodes c order) s.
Proof.
  intros Hs. unfold walk. pose proof (sg_dl _ _ _ Hs). pose proof (sg_cap _ _ _ Hs). rewrite dl_get_ok by lia.
  cbn [mbind outcome_bind]. rewrite (ring_head _ _ _ (sg_ring _ _ _ Hs)). apply (walk_loop_spec _ _ _ order []); [done | done |].
  destruct (entries_length vLen c order Hs) as [_ Hl]. pose proof (sg_last _ _ _ Hs). unfold zlen in *. lia.
Qed.

(** The live nodes are the content. *)
Lemma live_nodes_content c order nd : seg vLen c order -> nd ∈ live_nodes c order <->
  live nd = true /\ content c (nd_k nd) = Some (nd_v nd, nd_expireAt nd) /\ nd ∈ abs c order.
Proof.
  intros Hs. unfold live_nodes. rewrite list_elem_of_filter. split; [| by intros (? & _ & ?)]. intros [Hl Hin].
  split; [done |]. split; [| done]. unfold abs, entries in Hin. apply list_elem_of_omap in Hin as (i & Hi & Ei).
  apply (sg_order _ _ _ Hs) in Hi. unfold content.
  assert (c_hashMap c !! nd_k nd = Some i) as -> by (apply (sg_keys _ _ _ Hs); eauto). by rewrite Ei, Hl.
Qed.

Lemma content_live_node c order k v e : seg vLen c order -> content c k = Some (v, e) ->
  mkLnode k v e ∈ live_nodes c order.
Proof.
  intros Hs. unfold content. destruct (c_hashMap c !! k) as [i |] eqn:Ei; [| done].
  apply (sg_keys _ _ _ Hs) in Ei as (nd & Hi & Ei & <-). rewrite Ei. destruct (live nd) eqn:El; [| done]. intros [= <- <-].
  apply list_elem_of_filter. split; [by destruct nd |]. apply list_elem_of_omap. exists i.
  split; [by apply (sg_order _ _ _ Hs) |]. rewrite Ei. by destruct nd.
Qed.

Lemma visit_keys l keys : visit add_key l keys = Ret (keys ∪ list_to_set (map nd_k l)).
Proof using Type.
  revert keys. induction l as [| nd l IH]; intros keys; simpl; [by rewrite union_empty_r_L |]. rewrite IH. f_equal. set_solver.
Qed.

Lemma visit_expired now l keys : visit (add_expired now) l keys =
  Ret (keys ∪ list_to_set (map nd_k (filter (fun nd => nd_expireAt nd <= now) l))).
Proof using Type.
  revert keys. induction l as [| nd l IH]; intros keys; simpl; [by rewrite union_empty_r_L |]. rewrite IH, filter_cons.
  f_equal. zcase; case_decide; try lia; simpl; [set_solver | done].
Qed.

(** ** Buckets *)

(** What [b] holds at either level. *)
Lemma bcontent_node b o0 o1 k v e : seg vLen (b_0 b) o0 -> seg vLen (b_1 b) o1 ->
  (forall k, content (b_0 b) k <> None -> content (b_1 b) k = None) ->
  bcontent b k = Some (v, e) <-> mkLnode k v e ∈ live_nodes (b_0 b) o0 \/ mkLnode k v e ∈ live_nodes (b_1 b) o1.
Proof.
  intros H0 H1 Hone. unfold bcontent. split.
  - destruct (content (b_0 b) k) eqn:E; intros Hb; simplify_eq.
    + left. by eapply content_live_node.
    + right. by eapply content_live_node.
  - intros [Hin | Hin]; (eapply live_nodes_content in Hin; [| done]); destruct Hin as (_ & Hc & _); simpl in Hc.
    + by rewrite Hc.
    + rewrite Hc. destruct (content (b_0 b) k) eqn:E; [| done]. rewrite Hone in Hc; congruence.
Qed.

Lemma node_key (l : list (lnode V)) k : k ∈ map nd_k l <-> exists v e, mkLnode k v e ∈ l.
Proof using Type.
  split.
  - intros (nd & -> & Hin)%list_elem_of_fmap. exists (nd_v nd), (nd_expireAt nd). by destruct nd.
  - intros (v & e & Hin). apply list_elem_of_fmap. by exists (mkLnode k v e).
Qed.

Lemma bucket_keys_spec b : bucket_wf vLen b ->
  exists ks, bucket_keys b = Ret ks /\ forall k, k ∈ ks <-> bcontent b k <> None.
Proof.
  intros [[o0 H0] [o1 H1] Hone]. unfold bucket_keys. rewrite (segment_walk_spec _ _ o0), visit_keys by done. cbn [mbind outcome_bind].
  rewrite (segment_walk_spec _ _ o1), visit_keys by done. eexists. split; [done |]. intros k.
  rewrite !elem_of_union, !elem_of_list_to_set, !node_key. split.
  - intros [[Hin | (v & e & Hin)] | (v & e & Hin)] Hb; [by apply not_elem_of_empty in Hin | |];
      rewrite (proj2 (bcontent_node b o0 o1 k v e H0 H1 Hone)) in Hb by auto; done.
  - intros Hb. destruct (bcontent b k) as [[v e] |] eqn:E; [| done].
    apply (bcontent_node b o0 o1 k v e H0 H1 Hone) in E as [E | E]; [left; right | right]; eauto.
Qed.

Lemma expired_keys_spec b now : bucket_wf vLen b ->
  exists ks, (keys ← walk (add_expired now) (b_0 b) ∅; walk (add_expired now) (b_1 b) keys) = Ret ks /\
    forall k, k ∈ ks <-> exists v e, bcontent b k = Some (v, e) /\ e <= now.
Proof.
  intros [[o0 H0] [o1 H1] Hone]. rewrite (segment_walk_spec _ _ o0), visit_expired by done. cbn [mbind outcome_bind].
  rewrite (segment_walk_spec _ _ o1), visit_expired by done. eexists. split; [done |]. intros k.
  rewrite !elem_of_union, !elem_of_list_to_set, !node_key. setoid_rewrite list_elem_of_filter. simpl. split.
  - intros [[Hin | (v & e & He & Hin)] | (v & e & He & Hin)]; [by apply not_elem_of_empty in Hin | |];
      exists v, e; split; try done; apply (bcontent_node b o0 o1 k v e H0 H1 Hone); auto.
  - intros (v & e & E & He). apply (bcontent_node b o0 o1 k v e H0 H1 Hone) in E as [E | E]; [left; right | right]; eauto.
Qed.

Lemma delete_keys_spec ks b : bucket_wf vLen b ->
  exists b' ev, delete_keys b ks = Ret (b', ev) /\ bucket_wf vLen b' /\
    forall k, bcontent b' k = if decide (k ∈ ks) then None else bcontent b k.
Proof.
  revert b. induction ks as [| k0 ks IH]; intros b Hb; [do 2 eexists; split; [done |]; split; [done |]; intros k;
    by rewrite decide_False by apply not_elem_of_nil |].
  simpl. destruct (delete_spec vLen b k0 Hb) as (b1 & ev1 & -> & Hb1 & Hc1). cbn [mbind outcome_bind].
  destruct (IH b1 Hb1) as (b2 & ev2 & -> & Hb2 & Hc2). cbn [mbind outcome_bind fst snd]. do 2 eexists. split; [done |].
  split; [done |]. intros k. rewrite Hc2, Hc1. destruct (decide (k ∈ ks)); [by rewrite decide_True by (by right) |].
  case_decide as Hk; [subst; by rewrite decide_True by (by left) |]. rewrite decide_False; [done |]. by intros [? | ?]%elem_of_cons.
Qed.

Lemma each_bucket_spec (P : bucket V -> bucket V -> Prop) f bs :
  (forall b, bucket_wf vLen b -> exists b' ev, f b = Ret (b', ev) /\ bucket_wf vLen b' /\ P b b') ->
  Forall (bucket_wf vLen) bs -> exists bs' ev, each_bucket f bs = Ret (bs', ev) /\ Forall (bucket_wf vLen) bs' /\ Forall2 P bs bs'.
Proof.
  intros Hf. induction 1 as [| b bs Hb _ IH]; [do 2 eexists; split; [done |]; by split |]. simpl.
  destruct (Hf b Hb) as (b' & ev & -> & Hb' & HP). destruct IH as (bs' & evs & -> & HF & HP'). cbn [mbind outcome_bind fst snd].
  do 2 eexists. split; [done |]. split; by constructor.
Qed.

(** ** The store *)

(** A pass over the buckets that maps the content of each key. *)
Lemma pass_spec s f (g : option (option V * Z) -> option (option V * Z)) : store_wf vLen s ->
  (forall b, bucket_wf vLen b -> exists b' ev, f b = Ret (b', ev) /\ bucket_wf vLen b' /\ forall k, bcontent b' k = g (bcontent b k)) ->
  exists s' ev, (r ← each_bucket f (s_caches s); Ret (set_caches s r)) = Ret (s', ev) /\ store_wf vLen s' /\
    forall k, scontent s' k = g (scontent s k).
Proof.
  intros Hs Hf. destruct (each_bucket_spec _ f (s_caches s) Hf (st_buckets _ _ Hs)) as (bs & ev & -> & HF & HP).
  cbn [mbind outcome_bind]. do 2 eexists. split; [done |]. split.
  - destruct Hs as [Hm Hl _]. split; simpl; [done | | done]. unfold zlen in *. by rewrite <- (Forall2_length _ _ _ HP).
  - intros k. destruct (bucket_ok vLen s k Hs) as (b & Hr & Hb & _ & _). unfold scontent, bucket_index in *. simpl. rewrite Hb.
    unfold zlookup in *. destruct (Z.land _ _ <? 0); [done |]. destruct (Forall2_lookup_l _ _ _ _ _ HP Hb) as (b' & -> & HP'). apply HP'.
Qed.

Definition iterates (ord : gset string -> list string) : Prop := forall X k, k ∈ ord X <-> k ∈ X.

(** [Clear] empties the store.  It never fails, keeps the store well-formed, and no
    key is live afterwards. *)
Theorem clear_empties ord s : iterates ord -> store_wf vLen s ->
  exists s' ev, Clear ord s = Ret (s', ev) /\ store_wf vLen s' /\ forall k, scontent s' k = None.
Proof.
  intros Ho Hs. apply (pass_spec s _ (fun _ => None) Hs). intros b Hb. destruct (bucket_keys_spec b Hb) as (ks & -> & Hk).
  cbn [mbind outcome_bind]. destruct (delete_keys_spec (ord ks) b Hb) as (b' & ev & -> & Hb' & Hc).
  do 2 eexists. split; [done |]. split; [done |]. intros k. rewrite Hc. case_decide as Hin; [done |].
  rewrite (Ho ks), Hk in Hin. by apply dec_stable in Hin.
Qed.

(** the sweep removes exactly what has expired.  A tick of the cleanup goroutine never
    fails, and afterwards a key is live if it was and its expiry lies ahead. *)
Theorem cleanup_exact ord now s : iterates ord -> store_wf vLen s ->
  exists s' ev, cleanup ord now s = Ret (s', ev) /\ store_wf vLen s' /\
    forall k, scontent s' k = match scontent s k with
                              | Some (v, e) => if e <=? now then None else Some (v, e)
                              | None => None
                              end.
Proof.
  intros Ho Hs.
  apply (pass_spec s _ (fun x => match x with Some (v, e) => if e <=? now then None else Some (v, e) | None => None end) Hs).
  intros b Hb. destruct (expired_keys_spec b now Hb) as (ks & Ek & Hk).
  destruct (delete_keys_spec (ord ks) b Hb) as (b' & ev & Ed & Hb' & Hc). exists b', ev. split.
  { destruct (walk _ (b_0 b) ∅) as [k0 | msg]; [| done]. cbn [mbind outcome_bind] in *. by rewrite Ek. }
  split; [done |]. intros k. rewrite Hc. case_decide as Hin.
  - rewrite (Ho ks), Hk in Hin. destruct Hin as (v & e & -> & He). by zcase; [| lia].
  - destruct (bcontent b k) as [[v e] |] eqn:E; [| done]. zcase; [| done]. destruct Hin. rewrite (Ho ks), Hk. eauto.
Qed.

(** [Len] counts the live keys of the buckets. *)
Lemma Len_counts s : store_wf vLen s -> exists kss : list (gset string), Len s = Ret (foldr (fun ks n => Z.of_nat (size ks) + n) 0 kss) /\
  Forall2 (fun b ks => forall k, k ∈ ks <-> bcontent b k <> None) (s_caches s) kss.
Proof.
  intros Hs. unfold Len. assert (forall bs count, Forall (bucket_wf vLen) bs -> exists kss : list (gset string),
    count_buckets bs count = Ret (count + foldr (fun ks n => Z.of_nat (size ks) + n) 0 kss) /\
    Forall2 (fun b ks => forall k, k ∈ ks <-> bcontent b k <> None) bs kss) as Hc.
  { intros bs count HF. revert count. induction HF as [| b bs Hb _ IH]; intros count; simpl.
    - exists []. split; [f_equal; simpl; lia | constructor].
    - destruct (bucket_keys_spec b Hb) as (ks & -> & Hk). cbn [mbind outcome_bind].
      destruct (IH (count + Z.of_nat (size ks))) as (kss & -> & HF2). exists (ks :: kss). split; [simpl; f_equal; lia | by constructor]. }
  destruct (Hc (s_caches s) 0 (st_buckets _ _ Hs)) as (kss & -> & HF). exists kss. split; [f_equal; lia | done].
Qed.

End Maint.

(** ** Witnesses *)

Lemma elements_iterates : iterates elements.
Proof. intros X k. apply elem_of_elements. Qed.

Lemma clear_empties_witness : exists s' ev, Clear ex_len elements ex_store = Ret (s', ev) /\
  store_wf ex_len s' /\ scontent s' "a" = None.
Proof.
  destruct (clear_empties ex_len elements ex_store elements_iterates ex_store_wf) as (s' & ev & E & Hs & Hc).
  exists s', ev. split; [exact E |]. split; [exact Hs | apply Hc].
Defined.

Lemma cleanup_exact_witness : exists s' ev, cleanup ex_len elements 100 ex_store = Ret (s', ev) /\
  store_wf ex_len s' /\ scontent s' "a" = None.
Proof.
  destruct (cleanup_exact ex_len elements 100 ex_store elements_iterates ex_store_wf) as (s' & ev & E & Hs & Hc).
  exists s', ev. split; [exact E |]. split; [exact Hs |]. rewrite Hc. by vm_compute.
Defined.
