(* ===== verification/LsmCodec.v ===== *)
(** * LSM tree: record encoding

    [components/lsm_tree]: [util/string.go], the prefix-compressed records of
    [block.go] and their reader in [sst_reader.go], and the write-ahead log of
    [wal].  Lengths and counts of data in memory are mathematical integers: Go's
    [int] holds every length of a slice. *)
From S2P Require Import Prelude.

(** ** encoding/binary: varints *)

Definition MaxVarintLen64 : nat := 10.

(** The bytes [PutUvarint] writes for [x]; a [uint64] needs at most ten. *)
Fixpoint uvarint_bytes (fuel : nat) (x : Z) : bytes :=
  match fuel with
  | O => []
  | S fuel' =>
      if 128 <=? x then Z.lor (Z.land x 127) 128 :: uvarint_bytes fuel' (Z.shiftr x 7)
      else [x]
  end.

(** [PutUvarint(buf, x)] with room for [room] bytes in [buf]: the bytes
    written; an index panic when they do not fit. *)
Definition PutUvarint (room : Z) (x : Z) : outcome bytes :=
  let b := uvarint_bytes MaxVarintLen64 (u64 x) in
  if room <? zlen b then Panic "index out of range" else Ret b.

(** Errors of package [io] and of [binary.ReadUvarint]. *)
Inductive ioerr := EOF | ErrUnexpectedEOF | errOverflow | ErrShortWrite.

#[export] Instance ioerr_eq_dec : EqDecision ioerr.
Proof. solve_decision. Defined.

(** [binary.ReadUvarint]: the value and what is left to read. *)
Fixpoint read_uvarint (n : nat) (i : Z) (x s : Z) (r : bytes) : result ioerr (Z * bytes) :=
  match n with
  | O => Err errOverflow
  | S n' =>
      match r with
      | [] => Err (if 0 <? i then ErrUnexpectedEOF else EOF)
      | b :: r' =>
          if b <? 128 then
            if (i =? 9) && (1 <? b) then Err errOverflow
            else Ok (Z.lor x (u64 (Z.shiftl b s)), r')
          else read_uvarint n' (i + 1) (Z.lor x (u64 (Z.shiftl (Z.land b 127) s))) (s + 7) r'
      end
  end.
Definition ReadUvarint (r : bytes) : result ioerr (Z * bytes) := read_uvarint MaxVarintLen64 0 0 0 r.

(** The value [binary.ReadUvarint] returns, also when it returns an error: what
    it has accumulated. *)
Fixpoint uvarint_value (n : nat) (i x s : Z) (r : bytes) : Z :=
  match n, r with
  | S n', b :: r' =>
      if b <? 128 then if (i =? 9) && (1 <? b) then x else Z.lor x (u64 (Z.shiftl b s))
      else uvarint_value n' (i + 1) (Z.lor x (u64 (Z.shiftl (Z.land b 127) s))) (s + 7) r'
  | _, _ => x
  end.
Definition UvarintValue (r : bytes) : Z := uvarint_value MaxVarintLen64 0 0 0 r.

(** [binary.Uvarint]: the value and the number of bytes read, 0 when the buffer
    is too short and negative on overflow. *)
Fixpoint uvarint_loop (i x s : Z) (b : bytes) : Z * Z :=
  match b with
  | [] => (0, 0)
  | c :: b' =>
      if i =? 10 then (0, - (i + 1))
      else if c <? 128 then
        if (i =? 9) && (1 <? c) then (0, - (i + 1)) else (Z.lor x (u64 (Z.shiftl c s)), i + 1)
      else uvarint_loop (i + 1) (Z.lor x (u64 (Z.shiftl (Z.land c 127) s))) (s + 7) b'
  end.
Definition Uvarint (b : bytes) : Z * Z := uvarint_loop 0 0 0 b.

(** ** io.ReadFull and make *)

(** [io.ReadFull] of [n] bytes from a reader in memory. *)
Definition ReadFull (n : Z) (r : bytes) : result ioerr (bytes * bytes) :=
  if zlen r <? n then Err (if zlen r =? 0 then EOF else ErrUnexpectedEOF)
  else Ok (take (Z.to_nat n) r, drop (Z.to_nat n) r).

(** [make([]byte, n)] panics beyond the address space (2^48 bytes on 64-bit
    platforms); allocation itself is assumed to succeed. *)
Definition maxAlloc : Z := 281474976710656.
Definition make_bytes (n : Z) : outcome unit :=
  if maxAlloc <? n then Panic "makeslice: len out of range" else Ret tt.

(** ** util/string.go *)

Fixpoint SharedPrefixLen (a b : bytes) : Z :=
  match a, b with
  | x :: a', y :: b' => if x =? y then SharedPrefixLen a' b' + 1 else 0
  | _, _ => 0
  end.

(** The last byte is decremented in [uint8]. *)
Definition GetSeparatorBetween (a b : bytes) : outcome bytes :=
  if zlen b =? 0 then Ret b
  else if zlen a =? 0 then
    hd ← go_slice b 0 (zlen b - 1);
    x ← go_index b (zlen b - 1);
    Ret (hd ++ [u8 (x - 1)])
  else Ret a.

(** ** block.go *)

Record Block := mkBlock { record : bytes; entriesCnt : Z; prevKey : bytes }.

Definition NewBlock : Block := mkBlock [] 0 [].

(** The scratch buffer holds 30 bytes; what of it is written is what the
    three calls put there. *)
Definition Append (b : Block) (key value : bytes) : outcome Block :=
  let sharedPrefixLen := SharedPrefixLen (prevKey b) key in
  h1 ← PutUvarint 30 sharedPrefixLen;
  h2 ← PutUvarint (30 - zlen h1) (zlen key - sharedPrefixLen);
  h3 ← PutUvarint (30 - zlen h1 - zlen h2) (zlen value);
  suffix ← go_slice key sharedPrefixLen (zlen key);
  Ret (mkBlock (record b ++ (h1 ++ h2 ++ h3) ++ suffix ++ value) (entriesCnt b + 1) key).

Definition Size (b : Block) : Z := zlen (record b).
Definition ToBytes (b : Block) : bytes := record b.
Definition clear (b : Block) : Block := mkBlock [] 0 [].

(** Flushing to a buffer in memory: the buffer, the cleared block, the bytes
    written. *)
Definition FlushTo (b : Block) (dest : bytes) : bytes * Block * Z :=
  (dest ++ ToBytes b, clear b, zlen (ToBytes b)).

(** ** sst_reader.go: records *)

Record KV := mkKV { Key : bytes; Value : bytes }.

#[export] Instance KV_eq_dec : EqDecision KV.
Proof. solve_decision. Defined.

(** An error return, or the rest of the computation. *)
Definition err_bind {E A B} (r : result E A) (f : A -> outcome (result E B)) : outcome (result E B) :=
  match r with Ok a => f a | Err e => Ret (Err e) end.

Definition ReadRecord (prevKey : bytes) (buf : bytes) : outcome (result ioerr (bytes * bytes * bytes)) :=
  err_bind (ReadUvarint buf) (fun '(sharedPrefixLen, buf) =>
  err_bind (ReadUvarint buf) (fun '(keyLen, buf) =>
  err_bind (ReadUvarint buf) (fun '(valLen, buf) =>
  _ ← make_bytes keyLen;
  err_bind (ReadFull keyLen buf) (fun '(key, buf) =>
  _ ← make_bytes valLen;
  err_bind (ReadFull valLen buf) (fun '(value, buf) =>
  _ ← make_bytes sharedPrefixLen;
  sharedPrefix ← go_slice prevKey 0 sharedPrefixLen;
  Ret (Ok (sharedPrefix ++ key, value, buf))))))).

(** The loop over the records of a block that the three readers share: every
    record is folded into the result by [f]; the end of the block ends it. *)
Fixpoint read_records {A} (fuel : nat) (f : A -> bytes -> bytes -> outcome A) (acc : A)
    (prevKey buf : bytes) : outcome (result ioerr A) :=
  match fuel with
  | O => Ret (Err EOF)
  | S fuel' =>
      r ← ReadRecord prevKey buf;
      match r with
      | Err EOF => Ret (Ok acc)
      | Err e => Ret (Err e)
      | Ok (key, value, buf') => acc' ← f acc key value; read_records fuel' f acc' key buf'
      end
  end.

(** A record takes at least three bytes, so the length of the block bounds the
    number of iterations. *)
Definition ReadBlockData (block : bytes) : outcome (result ioerr (list KV)) :=
  read_records (S (length block)) (fun data key value => Ret (data ++ [mkKV key value])) [] [] block.

(** ** wal/writer.go, wal/reader.go *)

(** [Write] appends one record to the file; a write of the operating system
    may be cut short after [written] bytes. *)
Definition wal_record (key value : bytes) : outcome bytes :=
  h1 ← PutUvarint 30 (zlen key);
  h2 ← PutUvarint (30 - zlen h1) (zlen value);
  Ret (h1 ++ h2 ++ key ++ value).

Definition wal_Write (file key value : bytes) (written : option nat) : outcome (bytes * result ioerr unit) :=
  buf ← wal_record key value;
  match written with
  | Some n => if (n <? length buf)%nat then Ret (file ++ take n buf, Err ErrShortWrite)
              else Ret (file ++ buf, Ok tt)
  | None => Ret (file ++ buf, Ok tt)
  end.

Fixpoint wal_readAll (fuel : nat) (kvs : list KV) (reader : bytes) : outcome (result ioerr (list KV)) :=
  match fuel with
  | O => Ret (Err errOverflow)
  | S fuel' =>
      match ReadUvarint reader with
      | Err EOF => Ret (Ok kvs)
      | Err e => Ret (Err e)
      | Ok (keyLen, reader) =>
          err_bind (ReadUvarint reader) (fun '(valLen, reader) =>
          _ ← make_bytes keyLen;
          err_bind (ReadFull keyLen reader) (fun '(keyBuf, reader) =>
          _ ← make_bytes valLen;
          err_bind (ReadFull valLen reader) (fun '(valBuf, reader) =>
          wal_readAll fuel' (kvs ++ [mkKV keyBuf valBuf]) reader)))
      end
  end.
Definition readAll (body : bytes) : outcome (result ioerr (list KV)) := wal_readAll (S (length body)) [] body.

(** ** Varints read back *)

Lemma lor_shiftl_add a b s : 0 <= s -> 0 <= a < 2 ^ s -> Z.lor a (Z.shiftl b s) = a + b * 2 ^ s.
Proof.
  intros Hs Ha. rewrite <- Z.shiftl_mul_pow2 by done.
  assert (Z.land a (Z.shiftl b s) = 0) as Hl.
  { apply Z.bits_inj'. intros n Hn. rewrite Z.land_spec, Z.bits_0.
    destruct (Z.lt_ge_cases n s); [rewrite (Z.shiftl_spec_low _ _ _ H); apply andb_false_r |].
    rewrite (proj2 (Z.testbit_false a n Hn)); [done |].
    rewrite Z.div_small; [done |]. split; [lia |].
    apply Z.lt_le_trans with (2 ^ s); [lia |]. apply Z.pow_le_mono_r; lia. }
  by rewrite <- Z.lxor_lor, <- Z.add_nocarry_lxor by done.
Qed.

Lemma uvarint_byte x : 0 <= x -> Z.lor (Z.land x 127) 128 = x mod 128 + 128.
Proof.
  intros Hx. change 127 with (Z.ones 7). rewrite Z.land_ones by done. change (2 ^ 7) with 128.
  change (Z.lor (x mod 128) 128) with (Z.lor (x mod 128) (Z.shiftl 1 7)).
  rewrite lor_shiftl_add; [done | done |]. apply Z.mod_pos_bound. done.
Qed.

Lemma uvarint_bytes_ok fuel x : 0 <= x -> Forall byte_ok (uvarint_bytes fuel x).
Proof.
  revert x. induction fuel as [| fuel IH]; intros x Hx; simpl; [constructor |].
  destruct (Z.leb_spec 128 x).
  - constructor; [| apply IH; by apply Z.shiftr_nonneg].
    rewrite uvarint_byte by done. pose proof (Z.mod_pos_bound x 128). unfold byte_ok. lia.
  - constructor; [unfold byte_ok; lia | constructor].
Qed.

Lemma uvarint_length fuel x : (length (uvarint_bytes fuel x) <= fuel)%nat.
Proof.
  revert x. induction fuel as [| fuel IH]; intros x; simpl; [lia |].
  destruct (128 <=? x); simpl; [specialize (IH (Z.shiftr x 7)) |]; lia.
Qed.

Lemma uvarint_nonempty x : uvarint_bytes MaxVarintLen64 x <> [].
Proof. unfold MaxVarintLen64. cbn [uvarint_bytes]. by destruct (128 <=? x). Qed.

(** One step of the loops that read a varint: the accumulated value. *)
Lemma uvarint_acc acc b i : 0 <= i <= 9 -> 0 <= acc < 2 ^ (7 * i) -> 0 <= b ->
  b * 2 ^ (7 * i) < 2 ^ 64 -> Z.lor acc (u64 (Z.shiftl b (7 * i))) = acc + b * 2 ^ (7 * i).
Proof.
  intros Hi Ha Hb Hlt. unfold u64. change 18446744073709551616 with (2 ^ 64).
  rewrite Z.shiftl_mul_pow2 by lia. rewrite Z.mod_small by nia.
  rewrite <- Z.shiftl_mul_pow2, lor_shiftl_add by lia. by rewrite Z.shiftl_mul_pow2 by lia.
Qed.

(** What both readers find on the bytes of [y], read from the [i]-th byte on. *)
Lemma uvarint_step y i : 0 <= i <= 9 -> 128 <= y < 2 ^ (64 - 7 * i) ->
  i < 9 /\ 0 <= Z.shiftr y 7 < 2 ^ (64 - 7 * (i + 1)) /\ (y mod 128) * 2 ^ (7 * i) < 2 ^ 64 /\
  y mod 128 + 128 * Z.shiftr y 7 = y.
Proof.
  intros Hi Hy. assert (i < 9) as Hi'.
  { destruct (decide (i = 9)) as [-> |]; [| lia]. simpl in Hy. lia. }
  rewrite Z.shiftr_div_pow2 by done. change (2 ^ 7) with 128.
  pose proof (Z.mod_pos_bound y 128 ltac:(done)).
  split; [done |]. split; [split; [apply Z.div_pos; lia |] |]; [| split].
  - apply Z.div_lt_upper_bound; [done |]. replace 128 with (2 ^ 7) by done.
    rewrite <- Z.pow_add_r by lia. replace (7 + (64 - 7 * (i + 1))) with (64 - 7 * i) by lia. lia.
  - apply Z.lt_le_trans with (2 ^ 7 * 2 ^ (7 * i)).
    + apply Z.mul_lt_mono_pos_r; [apply Z.pow_pos_nonneg; lia | simpl; lia].
    + rewrite <- Z.pow_add_r by lia. apply Z.pow_le_mono_r; lia.
  - rewrite (Z.div_mod y 128) at 3 by done. lia.
Qed.

Lemma land_uvarint_byte y : 0 <= y -> Z.land (y mod 128 + 128) 127 = y mod 128.
Proof.
  intros Hy. change 127 with (Z.ones 7). rewrite Z.land_ones by done. change (2 ^ 7) with 128.
  rewrite <- Z.add_mod_idemp_r, Z.mod_same, Z.add_0_r by done. by apply Z.mod_mod.
Qed.

Lemma read_uvarint_spec fuel i acc y r :
  0 <= i -> i + Z.of_nat fuel = 10 -> 0 <= acc < 2 ^ (7 * i) -> 0 <= y < 2 ^ (64 - 7 * i) -> i <= 9 ->
  read_uvarint fuel i acc (7 * i) (uvarint_bytes fuel y ++ r) = Ok (acc + y * 2 ^ (7 * i), r).
Proof.
  revert i acc y. induction fuel as [| fuel IH]; intros i acc y Hi Hf Ha Hy Hi9; [lia |].
  cbn [uvarint_bytes]. destruct (Z.leb_spec 128 y) as [Hbig | Hsmall].
  - destruct (uvarint_step y i) as (Hi' & Hs & Hm & Hy'); [lia | lia |].
    cbn [app read_uvarint]. rewrite uvarint_byte by lia.
    pose proof (Z.mod_pos_bound y 128 ltac:(done)).
    destruct (Z.ltb_spec (y mod 128 + 128) 128); [lia |].
    rewrite land_uvarint_byte, uvarint_acc by lia.
    replace (7 * i + 7) with (7 * (i + 1)) by lia.
    assert (2 ^ (7 * (i + 1)) = 128 * 2 ^ (7 * i)) as Hp
      by (replace (7 * (i + 1)) with (7 + 7 * i) by lia; rewrite Z.pow_add_r by lia; done).
    rewrite IH; [| lia | lia | nia | lia | lia]. f_equal. f_equal. rewrite Hp. nia.
  - cbn [app read_uvarint]. destruct (Z.ltb_spec y 128); [| lia].
    assert ((i =? 9) && (1 <? y) = false) as ->.
    { destruct (Z.eqb_spec i 9) as [-> |]; [| done]. simpl in Hy. apply Z.ltb_ge. lia. }
    rewrite uvarint_acc; [done | lia | lia | lia |].
    apply Z.lt_le_trans with (2 ^ (64 - 7 * i) * 2 ^ (7 * i)).
    + apply Z.mul_lt_mono_pos_r; [apply Z.pow_pos_nonneg; lia | lia].
    + rewrite <- Z.pow_add_r by lia. apply Z.pow_le_mono_r; lia.
Qed.

Lemma ReadUvarint_bytes x r : 0 <= x < 18446744073709551616 ->
  ReadUvarint (uvarint_bytes MaxVarintLen64 x ++ r) = Ok (x, r).
Proof.
  intros Hx. unfold ReadUvarint. change 0 with (7 * 0) at 3.
  rewrite (read_uvarint_spec MaxVarintLen64 0 0 x r) by (unfold MaxVarintLen64; simpl; lia).
  rewrite Z.mul_0_r, Z.pow_0_r. do 2 f_equal. lia.
Qed.

(** A proper prefix of a varint is not one. *)
Lemma uvarint_bytes_high fuel x b l : uvarint_bytes fuel x = b ++ l -> l <> [] -> 0 <= x ->
  Forall (fun c => 128 <= c) b.
Proof.
  revert x b. induction fuel as [| fuel IH]; intros x b E Hl Hx; cbn [uvarint_bytes] in E.
  { destruct b; [constructor | done]. }
  destruct b as [| c b]; [constructor |]. destruct (Z.leb_spec 128 x).
  - injection E as <- E. constructor; [| eapply IH; eauto; by apply Z.shiftr_nonneg].
    rewrite uvarint_byte by done. pose proof (Z.mod_pos_bound x 128). lia.
  - injection E as <- E. destruct b; [| done]. by subst.
Qed.

Lemma read_uvarint_high fuel i acc s b : Forall (fun c => 128 <= c) b -> (length b < fuel)%nat -> 0 <= i ->
  read_uvarint fuel i acc s b = Err (if i + zlen b =? 0 then EOF else ErrUnexpectedEOF).
Proof.
  revert i acc s b. induction fuel as [| fuel IH]; intros i acc s b Hb Hl Hi; [lia |].
  destruct b as [| c b]; cbn [read_uvarint].
  - rewrite zlen_nil, Z.add_0_r. destruct (Z.eqb_spec i 0), (Z.ltb_spec 0 i); done || lia.
  - inversion_clear Hb as [| ? ? Hc Hb']. destruct (Z.ltb_spec c 128); [lia |].
    simpl in Hl. rewrite IH by (done || lia). rewrite zlen_cons.
    replace (i + 1 + zlen b) with (i + (zlen b + 1)) by lia. done.
Qed.

Lemma ReadUvarint_cut x b l : 0 <= x -> uvarint_bytes MaxVarintLen64 x = b ++ l -> l <> [] ->
  ReadUvarint b = Err (if zlen b =? 0 then EOF else ErrUnexpectedEOF).
Proof.
  intros Hx E Hl. unfold ReadUvarint. rewrite read_uvarint_high; [done | by eapply uvarint_bytes_high | | done].
  pose proof (uvarint_length MaxVarintLen64 x) as Hlen. rewrite E, length_app in Hlen.
  destruct l; [done |]. simpl in Hlen. unfold MaxVarintLen64 in *. lia.
Qed.

Lemma uvarint_loop_read fuel i acc s b x r : i + Z.of_nat fuel = 10 ->
  read_uvarint fuel i acc s b = Ok (x, r) -> uvarint_loop i acc s b = (x, i + zlen b - zlen r).
Proof.
  revert i acc s b. induction fuel as [| fuel IH]; intros i acc s b Hf E; [done |].
  destruct b as [| c b]; cbn [read_uvarint] in E; [done |]. cbn [uvarint_loop].
  destruct (Z.eqb_spec i 10); [lia |]. destruct (c <? 128).
  - destruct ((i =? 9) && (1 <? c)); [done |]. injection E as <- <-. rewrite zlen_cons. f_equal. lia.
  - apply IH in E; [| lia]. rewrite E, zlen_cons. f_equal. lia.
Qed.

Lemma uvarint_value_read fuel i acc s b x r :
  read_uvarint fuel i acc s b = Ok (x, r) -> uvarint_value fuel i acc s b = x.
Proof.
  revert i acc s b. induction fuel as [| fuel IH]; intros i acc s b E; [done |].
  destruct b as [| c b]; cbn [read_uvarint uvarint_value] in *; [done |]. destruct (c <? 128); [| by apply IH].
  destruct ((i =? 9) && (1 <? c)); [done |]. by injection E as <- <-.
Qed.

Lemma UvarintValue_bytes x r : 0 <= x < 18446744073709551616 ->
  UvarintValue (uvarint_bytes MaxVarintLen64 x ++ r) = x.
Proof. intros Hx. by apply uvarint_value_read with r, ReadUvarint_bytes. Qed.

(** Seven bits a byte. *)
Lemma uvarint_short fuel x k : (1 <= k)%nat -> 0 <= x < 2 ^ (7 * Z.of_nat k) ->
  (length (uvarint_bytes fuel x) <= k)%nat.
Proof.
  revert x k. induction fuel as [| fuel IH]; intros x k Hk Hx; cbn [uvarint_bytes]; [simpl; lia |].
  destruct (Z.leb_spec 128 x); [| simpl; lia].
  assert (k <> 1)%nat by (intros ->; simpl in Hx; lia).
  destruct k as [| k]; [lia |]. simpl. apply le_n_S, IH; [lia |]. rewrite Z.shiftr_div_pow2 by done. change (2 ^ 7) with 128.
  split; [apply Z.div_pos; lia |]. apply Z.div_lt_upper_bound; [done |].
  replace (128 * 2 ^ (7 * Z.of_nat k)) with (2 ^ (7 * Z.of_nat (S k))); [lia |].
  replace (7 * Z.of_nat (S k)) with (7 + 7 * Z.of_nat k) by lia. by rewrite Z.pow_add_r by lia.
Qed.

Lemma Uvarint_bytes x r : 0 <= x < 18446744073709551616 ->
  Uvarint (uvarint_bytes MaxVarintLen64 x ++ r) = (x, zlen (uvarint_bytes MaxVarintLen64 x)).
Proof.
  intros Hx. unfold Uvarint. rewrite (uvarint_loop_read 10 0 0 0 _ x r); [| done | by apply ReadUvarint_bytes].
  f_equal. zl.
Qed.

Lemma PutUvarint_ok room x : 10 <= room -> 0 <= x < 18446744073709551616 ->
  PutUvarint room x = Ret (uvarint_bytes MaxVarintLen64 x).
Proof.
  intros Hr Hx. unfold PutUvarint. rewrite u64_small by done.
  pose proof (uvarint_length MaxVarintLen64 x). unfold zlen, MaxVarintLen64 in *. zcase; [lia | done].
Qed.

Lemma uvarint_zlen x : 0 < zlen (uvarint_bytes MaxVarintLen64 x) <= 10.
Proof.
  pose proof (uvarint_length MaxVarintLen64 x). pose proof (uvarint_nonempty x).
  destruct (uvarint_bytes MaxVarintLen64 x); [done |]. unfold zlen, MaxVarintLen64 in *. simpl in *. lia.
Qed.

(** ** Records read back *)

(** Data small enough to be allocated. *)
Definition fits (b : bytes) : Prop := zlen b <= maxAlloc.

Lemma SharedPrefixLen_spec a b :
  0 <= SharedPrefixLen a b <= zlen a /\ SharedPrefixLen a b <= zlen b /\
  take (Z.to_nat (SharedPrefixLen a b)) a = take (Z.to_nat (SharedPrefixLen a b)) b.
Proof.
  revert b. induction a as [| x a IH]; intros [| y b]; cbn [SharedPrefixLen]; try (split_and!; (done || zl)).
  destruct (Z.eqb_spec x y) as [-> |]; [| split_and!; (done || zl)].
  destruct (IH b) as (H1 & H2 & H3). rewrite !zlen_cons. split_and!; try lia.
  replace (Z.to_nat (SharedPrefixLen a b + 1)) with (S (Z.to_nat (SharedPrefixLen a b))) by lia.
  simpl. by rewrite H3.
Qed.

Lemma ReadFull_app a r : ReadFull (zlen a) (a ++ r) = Ok (a, r).
Proof.
  unfold ReadFull. destruct (Z.ltb_spec (zlen (a ++ r)) (zlen a)); [zl |].
  unfold zlen. by rewrite Nat2Z.id, take_app_length, drop_app_length.
Qed.

Lemma make_bytes_ok n : n <= maxAlloc -> make_bytes n = Ret tt.
Proof. intros. unfold make_bytes. destruct (Z.ltb_spec maxAlloc n); [lia | done]. Qed.

(** The bytes a block appends for a record after [prev]. *)
Definition enc_record (prev key value : bytes) : bytes :=
  let n := SharedPrefixLen prev key in
  uvarint_bytes MaxVarintLen64 n ++ uvarint_bytes MaxVarintLen64 (zlen key - n) ++
  uvarint_bytes MaxVarintLen64 (zlen value) ++ drop (Z.to_nat n) key ++ value.

Lemma Append_spec b key value : fits key -> fits value ->
  Append b key value = Ret (mkBlock (record b ++ enc_record (prevKey b) key value) (entriesCnt b + 1) key).
Proof.
  intros Hk Hv. unfold Append, fits, maxAlloc in *. destruct (SharedPrefixLen_spec (prevKey b) key) as (H1 & H2 & _).
  set (n := SharedPrefixLen (prevKey b) key) in *.
  rewrite PutUvarint_ok by lia. cbn [mbind outcome_bind].
  pose proof (uvarint_zlen n). pose proof (uvarint_zlen (zlen key - n)). pose proof (zlen_nonneg value).
  rewrite PutUvarint_ok by lia. cbn [mbind outcome_bind].
  rewrite PutUvarint_ok by lia. cbn [mbind outcome_bind].
  rewrite go_slice_ok by lia. cbn [mbind outcome_bind]. unfold enc_record. fold n.
  rewrite take_ge by (rewrite length_drop; unfold zlen in *; lia). by rewrite <- !app_assoc.
Qed.

Lemma ReadRecord_enc prev key value r : fits prev -> fits key -> fits value ->
  ReadRecord prev (enc_record prev key value ++ r) = Ret (Ok (key, value, r)).
Proof.
  intros Hp Hk Hv. unfold ReadRecord, enc_record, fits, maxAlloc in *.
  destruct (SharedPrefixLen_spec prev key) as (H1 & H2 & H3).
  set (n := SharedPrefixLen prev key) in *. pose proof (zlen_nonneg value).
  rewrite <- !app_assoc. rewrite ReadUvarint_bytes by lia. cbn [err_bind].
  rewrite ReadUvarint_bytes by lia. cbn [err_bind]. rewrite ReadUvarint_bytes by lia. cbn [err_bind].
  rewrite !make_bytes_ok by (unfold maxAlloc; lia). cbn [mbind outcome_bind].
  replace (zlen key - n) with (zlen (drop (Z.to_nat n) key)) by (rewrite zlen_drop; lia).
  rewrite ReadFull_app. cbn [err_bind mbind outcome_bind]. rewrite ReadFull_app. cbn [err_bind mbind outcome_bind].
  rewrite go_slice_ok by lia. cbn [mbind outcome_bind].
  rewrite drop_0, Z.sub_0_r, H3, take_drop. done.
Qed.

(** The bytes of a sequence of records, and appending them all. *)
Fixpoint enc_records (prev : bytes) (kvs : list KV) : bytes :=
  match kvs with
  | [] => []
  | kv :: kvs' => enc_record prev (Key kv) (Value kv) ++ enc_records (Key kv) kvs'
  end.

Fixpoint Appends (b : Block) (kvs : list KV) : outcome Block :=
  match kvs with
  | [] => Ret b
  | kv :: kvs' => b' ← Append b (Key kv) (Value kv); Appends b' kvs'
  end.

Definition kv_fits (kv : KV) : Prop := fits (Key kv) /\ fits (Value kv).

(** The last key appended, given the one before. *)
Definition last_key (prev : bytes) (kvs : list KV) : bytes := default prev (Key <$> last kvs).

Lemma last_key_cons prev kv kvs : last_key prev (kv :: kvs) = last_key (Key kv) kvs.
Proof. unfold last_key. destruct kvs as [| kv' kvs]; [done |]. rewrite last_cons. by destruct (last (kv' :: kvs)) eqn:E; [| by apply last_None in E]. Qed.

Lemma Appends_spec b kvs : Forall kv_fits kvs ->
  Appends b kvs = Ret (mkBlock (record b ++ enc_records (prevKey b) kvs) (entriesCnt b + zlen kvs)
                               (last_key (prevKey b) kvs)).
Proof.
  intros H. revert b. induction H as [| kv kvs [Hk Hv] H IH]; intros b; cbn [Appends enc_records].
  - destruct b as [r e p]. simpl. unfold last_key. simpl. rewrite app_nil_r, zlen_nil, Z.add_0_r. done.
  - rewrite Append_spec by done. cbn [mbind outcome_bind]. rewrite IH. cbn [record entriesCnt prevKey].
    rewrite last_key_cons, zlen_cons, <- app_assoc. f_equal. f_equal. lia.
Qed.

Lemma enc_record_length prev key value : (3 <= length (enc_record prev key value))%nat.
Proof.
  unfold enc_record. rewrite !length_app. set (n := SharedPrefixLen prev key).
  pose proof (uvarint_zlen n). pose proof (uvarint_zlen (zlen key - n)). pose proof (uvarint_zlen (zlen value)).
  unfold zlen in *. lia.
Qed.

(** The record loop visits the records appended, in order. *)
Lemma read_records_enc {A} (f : A -> bytes -> bytes -> outcome A) (g : A -> KV -> A) fuel acc prev kvs :
  (forall a kv, kv ∈ kvs -> f a (Key kv) (Value kv) = Ret (g a kv)) ->
  Forall kv_fits kvs -> fits prev -> (length (enc_records prev kvs) < fuel)%nat ->
  read_records fuel f acc prev (enc_records prev kvs) = Ret (Ok (foldl g acc kvs)).
Proof.
  intros Hf H. revert fuel acc prev Hf. induction H as [| kv kvs [Hk Hv] H IH];
    intros fuel acc prev Hf Hp Hl; (destruct fuel as [| fuel]; [lia |]); cbn [read_records enc_records].
  - done.
  - rewrite ReadRecord_enc by done. cbn [mbind outcome_bind]. rewrite Hf by (apply elem_of_cons; by left).
    cbn [mbind outcome_bind foldl]. cbn [enc_records] in Hl. rewrite length_app in Hl.
    pose proof (enc_record_length prev (Key kv) (Value kv)).
    apply IH; [| done | lia]. intros a kv' Hin. apply Hf. apply elem_of_cons. by right.
Qed.

Lemma foldl_snoc_id {A} (l k : list A) : foldl (fun acc x => acc ++ [x]) l k = l ++ k.
Proof.
  revert l. induction k as [| x k IH]; intros l; simpl; [by rewrite app_nil_r |].
  by rewrite IH, <- app_assoc.
Qed.

Lemma ReadBlockData_enc kvs : Forall kv_fits kvs -> ReadBlockData (enc_records [] kvs) = Ret (Ok kvs).
Proof.
  intros H. unfold ReadBlockData.
  rewrite (read_records_enc _ (fun acc kv => acc ++ [kv])); [by rewrite foldl_snoc_id | | done | done | lia].
  intros a [k v] _. done.
Qed.

(** ** The write-ahead log reads back *)

Definition wal_bytes (kv : KV) : bytes :=
  uvarint_bytes MaxVarintLen64 (zlen (Key kv)) ++ uvarint_bytes MaxVarintLen64 (zlen (Value kv)) ++
  Key kv ++ Value kv.

Lemma wal_record_spec kv : kv_fits kv -> wal_record (Key kv) (Value kv) = Ret (wal_bytes kv).
Proof.
  intros [Hk Hv]. unfold wal_record, fits, maxAlloc in *.
  pose proof (zlen_nonneg (Key kv)). pose proof (zlen_nonneg (Value kv)). pose proof (uvarint_zlen (zlen (Key kv))).
  rewrite PutUvarint_ok by lia. cbn [mbind outcome_bind]. rewrite PutUvarint_ok by lia. done.
Qed.

Fixpoint wal_Writes (file : bytes) (kvs : list KV) : outcome bytes :=
  match kvs with
  | [] => Ret file
  | kv :: kvs' => r ← wal_Write file (Key kv) (Value kv) None; wal_Writes (fst r) kvs'
  end.

Definition wal_image (kvs : list KV) : bytes := mjoin (wal_bytes <$> kvs).

Lemma wal_Writes_spec file kvs : Forall kv_fits kvs -> wal_Writes file kvs = Ret (file ++ wal_image kvs).
Proof.
  intros H. revert file. induction H as [| kv kvs Hkv H IH]; intros file; cbn [wal_Writes].
  { by rewrite app_nil_r. }
  unfold wal_Write. rewrite wal_record_spec by done. cbn [mbind outcome_bind fst]. rewrite IH.
  unfold wal_image. simpl. by rewrite <- app_assoc.
Qed.

(** Reading one whole record. *)
Lemma wal_readAll_step fuel acc kv r : kv_fits kv ->
  wal_readAll (S fuel) acc (wal_bytes kv ++ r) = wal_readAll fuel (acc ++ [kv]) r.
Proof.
  intros [Hk Hv]. unfold wal_bytes. rewrite <- !app_assoc. cbn [wal_readAll].
  pose proof (zlen_nonneg (Key kv)). pose proof (zlen_nonneg (Value kv)). unfold fits, maxAlloc in *.
  rewrite ReadUvarint_bytes by lia. rewrite ReadUvarint_bytes by lia. cbn [err_bind].
  rewrite !make_bytes_ok by (unfold maxAlloc; lia). cbn [mbind outcome_bind].
  rewrite ReadFull_app. cbn [err_bind mbind outcome_bind]. rewrite ReadFull_app. cbn [err_bind]. by destruct kv.
Qed.

Lemma wal_bytes_length kv : (2 <= length (wal_bytes kv))%nat.
Proof.
  unfold wal_bytes. rewrite !length_app. pose proof (uvarint_zlen (zlen (Key kv))).
  pose proof (uvarint_zlen (zlen (Value kv))). unfold zlen in *. lia.
Qed.

Lemma wal_readAll_image fuel acc kvs r : Forall kv_fits kvs -> (length (wal_image kvs) <= fuel)%nat ->
  exists fuel', (fuel - length (wal_image kvs) <= fuel')%nat /\
    wal_readAll fuel acc (wal_image kvs ++ r) = wal_readAll fuel' (acc ++ kvs) r.
Proof.
  intros H. revert fuel acc. induction H as [| kv kvs Hkv H IH]; intros fuel acc Hl.
  { exists fuel. rewrite app_nil_r. split; [lia | done]. }
  unfold wal_image in *. cbn [fmap list_fmap] in *. simpl mjoin in *. rewrite length_app in *.
  pose proof (wal_bytes_length kv). destruct fuel as [| fuel]; [lia |].
  rewrite <- app_assoc, wal_readAll_step by done.
  destruct (IH fuel (acc ++ [kv])) as (fuel' & Hf & E); [lia |]. exists fuel'.
  rewrite E, <- app_assoc. split; [lia | done].
Qed.

(** A record cut short is an error, wherever the cut. *)
Lemma ReadUvarint_take x n r : 0 <= x < 18446744073709551616 ->
  let b := uvarint_bytes MaxVarintLen64 x in
  (n < length b)%nat /\ ReadUvarint (take n (b ++ r)) = Err (if (n =? 0)%nat then EOF else ErrUnexpectedEOF) \/
  (length b <= n)%nat /\ ReadUvarint (take n (b ++ r)) = Ok (x, take (n - length b) r).
Proof.
  intros Hx b. destruct (decide (n < length b)%nat) as [Hn | Hn]; [left | right]; (split; [lia |]).
  - rewrite take_app_le by lia. rewrite (ReadUvarint_cut x (take n b) (drop n b)).
    + unfold zlen. rewrite length_take. destruct (Nat.eqb_spec n 0), (Z.eqb_spec (Z.of_nat (n `min` length b)) 0); done || lia.
    + lia.
    + by rewrite take_drop.
    + intros E. apply (f_equal length) in E. rewrite length_drop in E. simpl in E. lia.
  - rewrite take_app_ge by lia. by apply ReadUvarint_bytes.
Qed.

Lemma ReadFull_take a r n : (n < length a)%nat -> exists e, ReadFull (zlen a) (take n (a ++ r)) = Err e.
Proof.
  intros Hn. unfold ReadFull. rewrite take_app_le, zlen_take by lia.
  destruct (Z.ltb_spec (Z.of_nat n `min` zlen a) (zlen a)); [eauto | unfold zlen in *; lia].
Qed.

Lemma wal_readAll_cut fuel acc kv n : kv_fits kv -> (0 < n < length (wal_bytes kv))%nat ->
  exists e, wal_readAll (S fuel) acc (take n (wal_bytes kv)) = Ret (Err e).
Proof.
  intros [Hk Hv] Hn. unfold wal_bytes in *. cbn [wal_readAll].
  pose proof (zlen_nonneg (Key kv)). pose proof (zlen_nonneg (Value kv)). unfold fits, maxAlloc in *.
  rewrite !length_app in Hn.
  destruct (ReadUvarint_take (zlen (Key kv)) n (uvarint_bytes MaxVarintLen64 (zlen (Value kv)) ++ Key kv ++ Value kv))
    as [[Hl ->] | [Hl ->]]; [lia | destruct (Nat.eqb_spec n 0); [lia | eauto] |].
  set (n1 := (n - _)%nat).
  destruct (ReadUvarint_take (zlen (Value kv)) n1 (Key kv ++ Value kv)) as [[Hl' ->] | [Hl' ->]]; [lia | cbn [err_bind]; eauto |].
  set (n2 := (n1 - _)%nat). cbn [err_bind]. rewrite !make_bytes_ok by (unfold maxAlloc; lia). cbn [mbind outcome_bind].
  destruct (decide (n2 < length (Key kv))%nat).
  { destruct (ReadFull_take (Key kv) (Value kv) n2) as [e ->]; [done |]. eauto. }
  rewrite take_app_ge, ReadFull_app by lia. cbn [err_bind mbind outcome_bind].
  destruct (ReadFull_take (Value kv) [] (n2 - length (Key kv))) as [e E]; [lia |].
  rewrite app_nil_r in E. rewrite E. eauto.
Qed.

#[global] Arguments uvarint_bytes : simpl never.
#[global] Arguments enc_record : simpl never.

(** ** Claims *)

(** Blocks read back.  The records appended to a block, whatever their
    order, are the records [ReadBlockData] finds in its bytes: the prefix
    compression loses nothing. *)
Theorem block_roundtrip kvs : Forall kv_fits kvs ->
  exists b, Appends NewBlock kvs = Ret b /\ entriesCnt b = zlen kvs /\ ReadBlockData (ToBytes b) = Ret (Ok kvs).
Proof.
  intros H. rewrite Appends_spec by done. eexists. split; [done |].
  split; [done |]. exact (ReadBlockData_enc kvs H).
Qed.

Lemma readAll_image kvs : Forall kv_fits kvs -> readAll (wal_image kvs) = Ret (Ok kvs).
Proof.
  intros H. unfold readAll.
  destruct (wal_readAll_image (S (length (wal_image kvs))) [] kvs [] H) as (fuel & Hf & E); [lia |].
  rewrite app_nil_r in E. rewrite E. destruct fuel; [lia | done].
Qed.

(** The log replays.  After any sequence of completed writes, [readAll]
    returns exactly the records written, in order. *)
Theorem wal_replay kvs : Forall kv_fits kvs ->
  exists file, wal_Writes [] kvs = Ret file /\ readAll file = Ret (Ok kvs).
Proof.
  intros H. rewrite wal_Writes_spec by done. exists (wal_image kvs). split; [done |]. by apply readAll_image.
Qed.

(** A torn record makes the log unreadable.  When a write is cut short
    strictly inside its record, [readAll] reports an error and none of the
    records written before it. *)
Theorem wal_torn kvs key value n : Forall kv_fits kvs -> kv_fits (mkKV key value) ->
  (0 < n < length (wal_bytes (mkKV key value)))%nat ->
  exists file file' e, wal_Writes [] kvs = Ret file /\
    wal_Write file key value (Some n) = Ret (file', Err ErrShortWrite) /\ readAll file' = Ret (Err e).
Proof.
  intros H Hkv Hn. rewrite wal_Writes_spec by done. simpl.
  pose proof (wal_record_spec _ Hkv) as Hr. simpl in Hr. unfold wal_Write. rewrite Hr. cbn [mbind outcome_bind].
  destruct (Nat.ltb_spec n (length (wal_bytes (mkKV key value)))); [| lia].
  set (cut := take n (wal_bytes (mkKV key value))).
  destruct (wal_readAll_image (S (length (wal_image kvs ++ cut))) [] kvs cut H) as (fuel & Hf & E);
    [rewrite length_app; lia |].
  destruct fuel as [| fuel]; [rewrite length_app in Hf; lia |].
  destruct (wal_readAll_cut fuel ([] ++ kvs) (mkKV key value) n Hkv Hn) as [e Ee].
  exists (wal_image kvs), (wal_image kvs ++ cut), e. split; [done |]. split; [done |].
  unfold readAll. rewrite E. exact Ee.
Qed.

Definition ex_kvs : list KV := [mkKV [97; 98] [1]; mkKV [97; 98; 99] [2; 3]; mkKV [] []].

Lemma ex_kvs_fits : Forall kv_fits ex_kvs.
Proof. by repeat constructor. Qed.

Lemma block_roundtrip_witness : Forall kv_fits ex_kvs /\
  exists b, Appends NewBlock ex_kvs = Ret b /\ ReadBlockData (ToBytes b) = Ret (Ok ex_kvs).
Proof.
  split; [exact ex_kvs_fits |]. destruct (block_roundtrip ex_kvs ex_kvs_fits) as (b & E & _ & R). eauto.
Defined.

Lemma wal_replay_witness : exists file, wal_Writes [] ex_kvs = Ret file /\ readAll file = Ret (Ok ex_kvs).
Proof. exact (wal_replay ex_kvs ex_kvs_fits). Defined.

Lemma wal_torn_witness : exists file file' e, wal_Writes [] ex_kvs = Ret file /\
  wal_Write file [100] [4; 5] (Some 3%nat) = Ret (file', Err ErrShortWrite) /\ readAll file' = Ret (Err e).
Proof.
  apply (wal_torn ex_kvs [100] [4; 5] 3 ex_kvs_fits); [by split | vm_compute; lia].
Defined.
