(* ===== verification/LsmFilter.v ===== *)
(** * LSM tree: bloom filter

    [components/lsm_tree/filter]: the [Filter] interface as a class with what
    its clients rely on, and [BloomFilter], which implements it. *)
From S2P Require Import Prelude GoSort LsmCodec.

(** ** filter.go *)

(** A bitmap is absent when the slice is [nil]. *)
Class Filter (F : Type) := {
  f_Add : F -> bytes -> F;
  f_Exist : F -> option bytes -> bytes -> outcome bool;
  f_Hash : F -> outcome bytes;
  f_Reset : F -> F;
  f_KeyLen : F -> Z
}.

(** The largest bitmap a table holds for a block: a megabyte. *)
Definition bitmap_max : Z := 1048578.

(** What the tables rely on: [f_rep f keys] says that [keys] were added since
    the last reset, and [f_width] is the part of a filter that no operation
    changes.  A bitmap made by a filter answers [true] for every key it was made
    of, whichever filter of the same width is asked. *)
Class FilterLaws (F : Type) `{Filter F} := {
  f_rep : F -> list bytes -> Prop;
  f_width : F -> Z;
  f_Add_rep f keys k : f_rep f keys -> f_rep (f_Add f k) (keys ++ [k]) /\ f_width (f_Add f k) = f_width f;
  f_Reset_rep f keys : f_rep f keys -> f_rep (f_Reset f) [] /\ f_width (f_Reset f) = f_width f;
  f_KeyLen_rep f keys : f_rep f keys -> f_KeyLen f = zlen keys;
  f_Hash_rep f keys : f_rep f keys -> keys <> [] ->
    exists bm, f_Hash f = Ret bm /\ zlen bm <= bitmap_max /\
      forall f' keys', f_rep f' keys' -> f_width f' = f_width f ->
        forall k, exists b, f_Exist f' (Some bm) k = Ret b /\ (k ∈ keys -> b = true)
}.

(** ** bloom_filter.go *)

Definition hashKey (key : bytes) : Z := Sum32a key.

Record BloomFilter := mkBloom { bf_m : Z; hashedKeys : list Z }.

Definition NewBloomFilter (m : Z) : result string BloomFilter :=
  if m <=? 0 then Err "m must be positive" else Ok (mkBloom m []).

Definition Add (bf : BloomFilter) (key : bytes) : BloomFilter :=
  mkBloom (bf_m bf) (hashedKeys bf ++ [hashKey key]).

Definition Reset (bf : BloomFilter) : BloomFilter := mkBloom (bf_m bf) [].
Definition KeyLen (bf : BloomFilter) : Z := zlen (hashedKeys bf).

Definition bestK (bf : BloomFilter) : outcome Z :=
  if zlen (hashedKeys bf) =? 0 then Panic "integer divide by zero"
  else Ret (Z.min (Z.max (u8 (Z.quot (Z.quot (s64 (69 * bf_m bf)) 100) (zlen (hashedKeys bf)))) 1) 30).

Definition bitmap (bf : BloomFilter) (k : Z) : bytes :=
  replicate (Z.to_nat (Z.shiftr (bf_m bf + 7) 3)) 0 ++ [k].

Definition delta (hashedKey : Z) : Z := Z.lor (Z.shiftr hashedKey 17) (u32 (Z.shiftl hashedKey 15)).

(** [(hashedKey + i*delta) % uint32(bf.m)] *)
Definition targetBit (bf : BloomFilter) (hashedKey i : Z) : outcome Z :=
  if u32 (bf_m bf) =? 0 then Panic "integer divide by zero"
  else Ret (u32 (hashedKey + u32 (i * delta hashedKey)) mod u32 (bf_m bf)).

(** The inner loop of [Hash], from [i] on with [n] rounds left. *)
Fixpoint set_bits (bf : BloomFilter) (hashedKey : Z) (n : nat) (i : Z) (bm : bytes) : outcome bytes :=
  match n with
  | O => Ret bm
  | S n' =>
      t ← targetBit bf hashedKey i;
      c ← go_index bm (Z.shiftr t 3);
      set_bits bf hashedKey n' (i + 1)
        (<[Z.to_nat (Z.shiftr t 3) := Z.lor c (u8 (Z.shiftl 1 (Z.land t 7)))]> bm)
  end.

Fixpoint set_keys (bf : BloomFilter) (k : Z) (hs : list Z) (bm : bytes) : outcome bytes :=
  match hs with
  | [] => Ret bm
  | h :: hs' => bm' ← set_bits bf h (Z.to_nat k) 0 bm; set_keys bf k hs' bm'
  end.

Definition Hash (bf : BloomFilter) : outcome bytes :=
  k ← bestK bf;
  set_keys bf k (hashedKeys bf) (bitmap bf k).

Fixpoint test_bits (bf : BloomFilter) (hashedKey : Z) (n : nat) (i : Z) (bm : bytes) : outcome bool :=
  match n with
  | O => Ret true
  | S n' =>
      t ← targetBit bf hashedKey i;
      c ← go_index bm (Z.shiftr t 3);
      if Z.land c (u8 (Z.shiftl 1 (Z.land t 7))) =? 0 then Ret false
      else test_bits bf hashedKey n' (i + 1) bm
  end.

Definition Exist (bf : BloomFilter) (bm : option bytes) (key : bytes) : outcome bool :=
  b ← (match bm with Some b => Ret b | None => Hash bf end);
  k ← go_index b (zlen b - 1);
  test_bits bf (hashKey key) (Z.to_nat k) 0 b.

#[export] Instance BloomFilter_Filter : Filter BloomFilter :=
  {| f_Add := Add; f_Exist := Exist; f_Hash := Hash; f_Reset := Reset; f_KeyLen := KeyLen |}.

(** ** Theory *)

(** The bit [t] of a bitmap, and the bits of a bitmap of width [m]: the last byte
    is the number of rounds. *)
Definition bit (bm : bytes) (t : Z) : bool :=
  match zlookup bm (Z.shiftr t 3) with Some c => Z.testbit c (Z.land t 7) | None => false end.

Definition width_ok (m : Z) (bm : bytes) : Prop := zlen bm = Z.shiftr (m + 7) 3 + 1.

Lemma width_index m bm t : width_ok m bm -> 0 <= t < m ->
  0 <= Z.shiftr t 3 < zlen bm - 1 /\ 0 <= Z.land t 7 < 8.
Proof.
  unfold width_ok. intros Hw Ht. rewrite Hw, !Z.shiftr_div_pow2 by done. change (2 ^ 3) with 8.
  change 7 with (Z.ones 3). rewrite Z.land_ones by done. change (2 ^ 3) with 8. change (Z.ones 3) with 7.
  pose proof (Z.mod_pos_bound t 8 ltac:(done)). split; [| done]. split; [apply Z.div_pos; lia |].
  apply Z.lt_le_trans with (t / 8 + 1); [lia |].
  replace (t / 8 + 1) with ((t + 1 * 8) / 8) by (by rewrite Z.div_add by done).
  rewrite Z.add_simpl_r. apply Z.div_le_mono; lia.
Qed.

(** A one-bit mask of a byte. *)
Lemma mask_testbit j i : 0 <= j < 8 -> 0 <= i -> Z.testbit (u8 (Z.shiftl 1 j)) i = (i =? j).
Proof.
  intros Hj Hi. rewrite Z.shiftl_1_l. unfold u8. rewrite Z.mod_small.
  - rewrite Z.pow2_bits_eqb by lia. apply Z.eqb_sym.
  - split; [apply Z.pow_nonneg; lia |]. change 256 with (2 ^ 8). apply Z.pow_lt_mono_r; lia.
Qed.

Lemma mask_test c j : 0 <= j < 8 -> (Z.land c (u8 (Z.shiftl 1 j)) =? 0) = negb (Z.testbit c j).
Proof.
  intros Hj. destruct (Z.testbit c j) eqn:E; simpl.
  - apply Z.eqb_neq. intros H0. assert (Z.testbit (Z.land c (u8 (Z.shiftl 1 j))) j = false) as Hf
      by (by rewrite H0, Z.bits_0).
    rewrite Z.land_spec, E, mask_testbit, Z.eqb_refl in Hf by lia. done.
  - apply Z.eqb_eq, Z.bits_inj'. intros n Hn. rewrite Z.land_spec, mask_testbit, Z.bits_0 by lia.
    destruct (Z.eqb_spec n j) as [-> |]; [by rewrite E | apply andb_false_r].
Qed.

Lemma testbit_or_mask c j i : 0 <= j < 8 -> 0 <= i ->
  Z.testbit (Z.lor c (u8 (Z.shiftl 1 j))) i = Z.testbit c i || (i =? j).
Proof. intros. by rewrite Z.lor_spec, mask_testbit. Qed.

Section Bloom.
Context (bf : BloomFilter) (Hm : 0 < bf_m bf < 4294967296).

(** The position of round [i] for a hash. *)
Definition pos (h i : Z) : Z := u32 (h + u32 (i * delta h)) mod bf_m bf.

Lemma targetBit_ok h i : targetBit bf h i = Ret (pos h i) /\ 0 <= pos h i < bf_m bf.
Proof.
  unfold targetBit, pos. rewrite (u32_small (bf_m bf)) by lia. destruct (Z.eqb_spec (bf_m bf) 0); [lia |].
  split; [done |]. apply Z.mod_pos_bound. lia.
Qed.

(** Setting the bits of a hash: they are set, none is cleared, and the last byte
    keeps. *)
Lemma set_bits_spec h n i bm : width_ok (bf_m bf) bm -> 0 <= i ->
  exists bm', set_bits bf h n i bm = Ret bm' /\ width_ok (bf_m bf) bm' /\
    zlookup bm' (zlen bm' - 1) = zlookup bm (zlen bm - 1) /\
    (forall t, 0 <= t -> bit bm t = true -> bit bm' t = true) /\
    (forall j, i <= j < i + Z.of_nat n -> bit bm' (pos h j) = true).
Proof.
  revert i bm. induction n as [| n IH]; intros i bm Hw Hi; cbn [set_bits].
  { exists bm. split_and!; try done. lia. }
  destruct (targetBit_ok h i) as [-> Hp]. cbn [mbind outcome_bind]. set (t := pos h i) in *.
  destruct (width_index _ _ _ Hw Hp) as [Hx Hb].
  destruct (zlookup_is_Some bm (Z.shiftr t 3)) as [c Hc]; [lia |]. rewrite (go_index_Some _ _ _ Hc).
  cbn [mbind outcome_bind]. set (c' := Z.lor c _). set (bm1 := <[_ := c']> bm).
  assert (zlen bm1 = zlen bm) as Hl by (unfold zlen, bm1; f_equal; apply length_insert).
  assert (forall x, 0 <= x -> zlookup bm1 x = if decide (x = Z.shiftr t 3) then Some c' else zlookup bm x) as Hlook.
  { intros x Hx0. unfold zlookup, bm1. destruct (Z.ltb_spec x 0); [lia |].
    destruct (decide (x = Z.shiftr t 3)) as [-> | Hne].
    - apply list_lookup_insert_eq. unfold zlen in *. lia.
    - apply list_lookup_insert_ne. lia. }
  assert (forall s, 0 <= s -> bit bm1 s = bit bm s || (s =? t)) as Hbit.
  { intros s Hs. unfold bit. rewrite Hlook by (by apply Z.shiftr_nonneg).
    assert (0 <= Z.land s 7) by (by apply Z.land_nonneg; left).
    destruct (decide (Z.shiftr s 3 = Z.shiftr t 3)) as [E | Hne].
    - rewrite E, Hc. unfold c'. rewrite testbit_or_mask by lia. f_equal.
      destruct (Z.eqb_spec (Z.land s 7) (Z.land t 7)) as [E' | Hne'], (Z.eqb_spec s t) as [-> | Hne2]; try done.
      exfalso. apply Hne2. revert E E'. change 7 with (Z.ones 3). rewrite !Z.land_ones by done.
      rewrite !Z.shiftr_div_pow2 by done. change (2 ^ 3) with 8. intros.
      rewrite (Z.div_mod s 8), (Z.div_mod t 8) by done. lia.
    - destruct (Z.eqb_spec s t) as [-> |]; [done |]. by rewrite orb_false_r. }
  destruct (IH (i + 1) bm1) as (bm' & E & Hw' & Hlast & Hkeep & Hset); [by unfold width_ok; rewrite Hl | lia |].
  exists bm'. split; [done |]. split; [done |]. split; [| split].
  - rewrite Hlast, Hl, Hlook by lia. destruct (decide (zlen bm - 1 = Z.shiftr t 3)); [lia | done].
  - intros s Hs Hs1. apply Hkeep; [done |]. by rewrite Hbit, Hs1.
  - intros j Hj. destruct (decide (j = i)) as [-> |]; [| apply Hset; lia].
    apply Hkeep; [lia |]. fold t. rewrite Hbit, Z.eqb_refl by lia. apply orb_true_r.
Qed.

Lemma set_keys_spec k hs bm : width_ok (bf_m bf) bm -> 0 <= k ->
  exists bm', set_keys bf k hs bm = Ret bm' /\ width_ok (bf_m bf) bm' /\
    zlookup bm' (zlen bm' - 1) = zlookup bm (zlen bm - 1) /\
    (forall t, 0 <= t -> bit bm t = true -> bit bm' t = true) /\
    (forall h j, h ∈ hs -> 0 <= j < k -> bit bm' (pos h j) = true).
Proof.
  intros Hw Hk. revert bm Hw. induction hs as [| h hs IH]; intros bm Hw; cbn [set_keys].
  { exists bm. split_and!; try done. by intros h j ?%not_elem_of_nil. }
  destruct (set_bits_spec h (Z.to_nat k) 0 bm Hw) as (bm1 & -> & Hw1 & Hl1 & Hk1 & Hs1); [lia |].
  cbn [mbind outcome_bind]. destruct (IH bm1 Hw1) as (bm' & E & Hw' & Hl' & Hk' & Hs').
  exists bm'. split; [done |]. split; [done |]. split; [congruence |]. split; [auto |].
  intros h' j [-> | Hin]%elem_of_cons Hj; [| by apply Hs'].
  apply Hk'; [apply (targetBit_ok h j) |]. apply Hs1. lia.
Qed.

Lemma test_bits_spec h n i bm : width_ok (bf_m bf) bm -> 0 <= i ->
  exists b, test_bits bf h n i bm = Ret b /\
    (b = true <-> forall j, i <= j < i + Z.of_nat n -> bit bm (pos h j) = true).
Proof.
  intros Hw. revert i. induction n as [| n IH]; intros i Hi; cbn [test_bits].
  { exists true. split; [done |]. split; [lia | done]. }
  destruct (targetBit_ok h i) as [-> Hp]. cbn [mbind outcome_bind].
  destruct (width_index _ _ _ Hw Hp) as [Hx Hb].
  destruct (zlookup_is_Some bm (Z.shiftr (pos h i) 3)) as [c Hc]; [lia |]. rewrite (go_index_Some _ _ _ Hc).
  cbn [mbind outcome_bind]. rewrite mask_test by done.
  assert (bit bm (pos h i) = Z.testbit c (Z.land (pos h i) 7)) as Hbit by (unfold bit; by rewrite Hc).
  destruct (Z.testbit c (Z.land (pos h i) 7)); cbn [negb].
  - destruct (IH (i + 1)) as (b & E & Hiff); [lia |]. exists b. split; [done |]. rewrite Hiff. split.
    + intros H j Hj. destruct (decide (j = i)) as [-> |]; [done | apply H; lia].
    + intros H j Hj. apply H. lia.
  - exists false. split; [done |]. split; [done |]. intros H. rewrite H in Hbit by lia. done.
Qed.

Lemma bitmap_width k : width_ok (bf_m bf) (bitmap bf k) /\
  zlookup (bitmap bf k) (zlen (bitmap bf k) - 1) = Some k.
Proof.
  assert (0 <= Z.shiftr (bf_m bf + 7) 3) by (apply Z.shiftr_nonneg; lia).
  assert (zlen (replicate (Z.to_nat (Z.shiftr (bf_m bf + 7) 3)) 0) = Z.shiftr (bf_m bf + 7) 3) as Hr
    by (unfold zlen; rewrite length_replicate; lia).
  unfold width_ok, bitmap. rewrite zlen_app, Hr. split; [done |].
  rewrite zlookup_app_r by (rewrite Hr; unfold zlen; simpl; lia).
  rewrite Hr. replace (_ - 1 - _) with 0 by (unfold zlen; simpl; lia). done.
Qed.

Lemma Hash_spec : hashedKeys bf <> [] -> exists bm k, Hash bf = Ret bm /\ width_ok (bf_m bf) bm /\
  zlookup bm (zlen bm - 1) = Some k /\ 1 <= k <= 30 /\
  forall h j, h ∈ hashedKeys bf -> 0 <= j < k -> bit bm (pos h j) = true.
Proof.
  intros Hne. unfold Hash, bestK. destruct (Z.eqb_spec (zlen (hashedKeys bf)) 0) as [E | _];
    [by apply zlen_0_nil in E |].
  cbn [mbind outcome_bind]. set (k := Z.min _ 30).
  assert (1 <= k <= 30) as Hk by lia. clearbody k. destruct (bitmap_width k) as [Hw Hl].
  destruct (set_keys_spec k (hashedKeys bf) (bitmap bf k) Hw) as (bm & E & Hw' & Hl' & _ & Hs); [lia |].
  exists bm, k. rewrite Hl'. done.
Qed.
End Bloom.

Definition bloom_rep (bf : BloomFilter) (keys : list bytes) : Prop :=
  0 < bf_m bf < 4294967296 /\ hashedKeys bf = hashKey <$> keys.

Lemma Exist_Hash bf keys : bloom_rep bf keys -> keys <> [] ->
  exists bm, Hash bf = Ret bm /\ zlen bm = Z.shiftr (bf_m bf + 7) 3 + 1 /\
    forall bf', bf_m bf' = bf_m bf ->
      forall key, exists b, Exist bf' (Some bm) key = Ret b /\ (key ∈ keys -> b = true).
Proof.
  intros [Hm Hk] Hne. destruct (Hash_spec bf Hm) as (bm & k & E & Hw & Hl & Hk' & Hs).
  { rewrite Hk. by destruct keys. }
  exists bm. split; [done |]. split; [done |]. intros bf' Hm' key. unfold Exist. cbn [mbind outcome_bind].
  rewrite (go_index_Some _ _ _ Hl). cbn [mbind outcome_bind].
  assert (0 < bf_m bf' < 4294967296) as Hmw by lia.
  destruct (test_bits_spec bf' Hmw (hashKey key) (Z.to_nat k) 0 bm) as (b & Eb & Hiff); [by rewrite Hm' | done |].
  exists b. split; [done |]. intros Hin. apply Hiff. intros j Hj. unfold pos. rewrite Hm'.
  apply Hs; [| lia]. rewrite Hk. by apply list_elem_of_fmap_2.
Qed.

(** The filters of the tables have at most 2^23 bits (the default is 1024). *)
Definition table_bloom (bf : BloomFilter) (keys : list bytes) : Prop := bloom_rep bf keys /\ bf_m bf <= 8388608.

#[export] Instance BloomFilter_Laws : FilterLaws BloomFilter.
Proof.
  refine {| f_rep := table_bloom; f_width := bf_m |}.
  - intros f keys k [[Hm Hk] Hw]. split; [| done]. split; [| done]. split; [done |]. simpl. by rewrite Hk, fmap_app.
  - intros f keys [[Hm Hk] Hw]. done.
  - intros f keys [[Hm Hk] Hw]. simpl. unfold KeyLen, zlen. by rewrite Hk, length_fmap.
  - intros f keys [Hr Hw] Hne. destruct (Exist_Hash f keys Hr Hne) as (bm & E & Hl & Hx). exists bm.
    split; [done |]. split; [| intros f' keys' _ Hw'; by apply Hx].
    destruct Hr as [Hm _]. unfold bitmap_max. rewrite Hl, Z.shiftr_div_pow2 by done. change (2 ^ 3) with 8.
    pose proof (Z.div_le_upper_bound (bf_m f + 7) 8 1048577 ltac:(done) ltac:(lia)). lia.
Defined.

(** No false negatives.  For every width of at least one and less than 2^32
    bits and every non-empty set of keys added, [Hash] returns a bitmap (it does
    not index out of range) for which [Exist], asked of any filter of that width,
    answers [true] for each key added, and answers without panicking for any
    other. *)
Theorem bloom_no_false_negatives bf keys : bloom_rep bf keys -> keys <> [] ->
  exists bm, Hash bf = Ret bm /\ zlen bm = Z.shiftr (bf_m bf + 7) 3 + 1 /\
    forall bf', bf_m bf' = bf_m bf ->
      forall key, exists b, Exist bf' (Some bm) key = Ret b /\ (key ∈ keys -> b = true).
Proof. apply Exist_Hash. Qed.

Lemma bloom_no_false_negatives_witness :
  exists bm, Hash (mkBloom 16 [hashKey [97]; hashKey [98]]) = Ret bm /\
    Exist (mkBloom 16 []) (Some bm) [98] = Ret true.
Proof.
  destruct (bloom_no_false_negatives (mkBloom 16 [hashKey [97]; hashKey [98]]) [[97]; [98]]) as (bm & E & _ & Hx);
    [by split | done |].
  exists bm. split; [exact E |]. destruct (Hx (mkBloom 16 []) eq_refl [98]) as (b & Eb & Hb).
  rewrite Hb in Eb; [exact Eb |]. by right; left.
Defined.
