(* ===== verification/LsmKeys.v ===== *)
(** * LSM tree: keys, sorted runs, the memtable interface

    [bytes.Compare] as a strict total order, sorted lists of key-value pairs as
    the abstract content of memtables and tables, and the interface
    [components/lsm_tree/memtable/memtable.go] with what its clients rely on. *)
From S2P Require Import Prelude LsmCodec.

(** ** bytes.Compare *)

Fixpoint Compare (a b : bytes) : Z :=
  match a, b with
  | [], [] => 0
  | [], _ => -1
  | _, [] => 1
  | x :: a', y :: b' => if x <? y then -1 else if y <? x then 1 else Compare a' b'
  end.

Notation "a ≺ b" := (Compare a b < 0) (at level 70).

Lemma Compare_refl a : Compare a a = 0.
Proof. induction a as [| x a IH]; simpl; [done |]. by rewrite Z.ltb_irrefl. Qed.

Lemma Compare_eq a b : Compare a b = 0 -> a = b.
Proof.
  revert b. induction a as [| x a IH]; intros [| y b]; simpl; try done.
  destruct (Z.ltb_spec x y); [done |]. destruct (Z.ltb_spec y x); [done |].
  intros ->%IH. f_equal. lia.
Qed.

Lemma Compare_sym a b : Compare b a = - Compare a b.
Proof.
  revert b. induction a as [| x a IH]; intros [| y b]; simpl; try done.
  destruct (Z.ltb_spec x y), (Z.ltb_spec y x); done || lia.
Qed.

Lemma Compare_trans a b c : a ≺ b -> b ≺ c -> a ≺ c.
Proof.
  revert b c. induction a as [| x a IH]; intros [| y b] [| z c]; simpl; try done; try lia.
  destruct (Z.ltb_spec x y), (Z.ltb_spec y x), (Z.ltb_spec y z), (Z.ltb_spec z y),
    (Z.ltb_spec x z), (Z.ltb_spec z x); try lia. apply IH.
Qed.

Lemma Compare_cases a b : a ≺ b \/ a = b \/ b ≺ a.
Proof.
  pose proof (Compare_sym a b). destruct (Z.lt_trichotomy (Compare a b) 0) as [? | [E | ?]]; [auto | | lia].
  apply Compare_eq in E. auto.
Qed.

Lemma Compare_irrefl a : ~ a ≺ a.
Proof. rewrite Compare_refl. lia. Qed.

Lemma Compare_asym a b : a ≺ b -> ~ b ≺ a.
Proof. pose proof (Compare_sym a b). lia. Qed.

Lemma Compare_ge a b : ~ a ≺ b -> a = b \/ b ≺ a.
Proof. destruct (Compare_cases a b) as [? | [? | ?]]; tauto. Qed.

(** Reasoning with the order: the shape of every case analysis on keys. *)
Ltac border :=
  exfalso; repeat match goal with
    | H : ?a ≺ ?a |- _ => exact (Compare_irrefl a H)
    | H : ?a ≺ ?b, H' : ?b ≺ ?a |- _ => exact (Compare_asym a b H H')
    | H : ?a ≺ ?b, H' : ?b ≺ ?c |- _ =>
        lazymatch goal with
        | _ : a ≺ c |- _ => fail
        | _ => pose proof (Compare_trans a b c H H')
        end
    end.

(** ** Sorted runs *)

Lemma StronglySorted_lookup_lt {A} (R : relation A) l i j x y :
  StronglySorted R l -> (i < j)%nat -> l !! i = Some x -> l !! j = Some y -> R x y.
Proof.
  intros Hs. revert i j. induction Hs as [| z l Hs IH Hz]; intros i j Hij Hx Hy; [done |].
  destruct j as [| j]; [lia |]. destruct i as [| i]; simpl in *; [| by apply (IH i j); [lia | |]].
  injection Hx as ->. by eapply Forall_lookup_1.
Qed.

Definition klt (a b : KV) : Prop := Key a ≺ Key b.

(** Keys strictly increasing. *)
Abbreviation sorted := (StronglySorted klt).

(** The value of a key: the first pair with it. *)
Fixpoint kv_get (l : list KV) (key : bytes) : option bytes :=
  match l with
  | [] => None
  | kv :: l' => if decide (Key kv = key) then Some (Value kv) else kv_get l' key
  end.

(** Insertion in order, replacing the value of a key that is present. *)
Fixpoint kv_put (l : list KV) (key value : bytes) : list KV :=
  match l with
  | [] => [mkKV key value]
  | kv :: l' =>
      if decide (Key kv = key) then mkKV key value :: l'
      else if Compare (Key kv) key <? 0 then kv :: kv_put l' key value
      else mkKV key value :: kv :: l'
  end.

(** The bytes a run accounts for. *)
Definition kv_size (l : list KV) : Z := foldr (fun kv n => zlen (Key kv) + zlen (Value kv) + n) 0 l.

Lemma kv_get_app l k key : kv_get (l ++ k) key = match kv_get l key with Some v => Some v | None => kv_get k key end.
Proof. induction l as [| kv l IH]; simpl; [done |]. by destruct (decide (Key kv = key)). Qed.

Lemma kv_get_None l key : kv_get l key = None <-> key ∉ Key <$> l.
Proof.
  induction l as [| kv l IH]; simpl; [split; [intros _; apply not_elem_of_nil | done] |].
  rewrite not_elem_of_cons. destruct (decide (Key kv = key)) as [-> |]; [split; [done | tauto] |].
  rewrite IH. split; [| tauto]. intros. split; [congruence | done].
Qed.

Lemma kv_get_In l key v : kv_get l key = Some v -> mkKV key v ∈ l.
Proof.
  induction l as [| [k w] l IH]; simpl; [done |]. destruct (decide (k = key)) as [-> |].
  - intros [= ->]. by left.
  - intros H. right. auto.
Qed.

Lemma kv_get_sorted l kv : sorted l -> kv ∈ l -> kv_get l (Key kv) = Some (Value kv).
Proof.
  induction 1 as [| x l Hs IH Hx]; [by intros ?%not_elem_of_nil |].
  intros [-> | Hin]%elem_of_cons; simpl; [by destruct (decide (Key x = Key x)) |].
  destruct (decide (Key x = Key kv)) as [E |]; [| auto].
  rewrite Forall_forall in Hx. specialize (Hx kv Hin). unfold klt in Hx. rewrite E in Hx. border.
Qed.

Lemma kv_get_put l key value k : kv_get (kv_put l key value) k = if decide (key = k) then Some value else kv_get l k.
Proof.
  induction l as [| kv l IH]; simpl; [by destruct (decide (key = k)) |].
  destruct (decide (Key kv = key)) as [<- |]; simpl.
  - by destruct (decide (Key kv = k)).
  - destruct (Compare (Key kv) key <? 0); simpl; [| done]. rewrite IH.
    destruct (decide (Key kv = k)), (decide (key = k)); congruence.
Qed.

Lemma kv_put_keys l key value x : x ∈ kv_put l key value -> x = mkKV key value \/ x ∈ l.
Proof.
  induction l as [| kv l IH]; simpl; [by intros ->%list_elem_of_singleton; left |].
  destruct (decide (Key kv = key)).
  - intros [-> | ?]%elem_of_cons; [by left | right; by right].
  - destruct (Compare (Key kv) key <? 0); intros [-> | H]%elem_of_cons; auto.
    + right. by left.
    + destruct (IH H); [by left | right; by right].
Qed.

Lemma kv_put_sorted l key value : sorted l -> sorted (kv_put l key value).
Proof.
  induction 1 as [| x l Hs IH Hx]; simpl; [repeat constructor |].
  destruct (decide (Key x = key)) as [<- |]; [by constructor |].
  destruct (Z.ltb_spec (Compare (Key x) key) 0) as [Hlt | Hge].
  - constructor; [done |]. apply Forall_forall. intros y [-> | Hy]%kv_put_keys; [done |].
    rewrite Forall_forall in Hx. auto.
  - assert (key ≺ Key x) as Hk by (destruct (Compare_ge (Key x) key) as [? | ?]; [lia | done | done]).
    constructor; [by constructor |]. constructor; [done |].
    eapply Forall_impl; [exact Hx |]. intros y Hy. exact (Compare_trans _ _ _ Hk Hy).
Qed.

(** Insertion between what is smaller and what is larger. *)
Lemma kv_put_split l1 l2 key value :
  Forall (fun kv => Key kv ≺ key) l1 -> Forall (fun kv => key ≺ Key kv) l2 ->
  kv_put (l1 ++ l2) key value = l1 ++ mkKV key value :: l2.
Proof.
  intros H1 H2. induction H1 as [| x l1 Hx H1 IH]; simpl.
  - destruct H2 as [| y l2 Hy H2]; simpl; [done |].
    destruct (decide (Key y = key)) as [E |]; [rewrite E in Hy; border |].
    destruct (Z.ltb_spec (Compare (Key y) key) 0); [border | done].
  - destruct (decide (Key x = key)) as [E |]; [rewrite E in Hx; border |].
    destruct (Z.ltb_spec (Compare (Key x) key) 0); [by rewrite IH | lia].
Qed.

(** Replacing the value of a key that is present. *)
Lemma kv_put_replace l1 l2 key v value : Forall (fun kv => Key kv ≺ key) l1 ->
  kv_put (l1 ++ mkKV key v :: l2) key value = l1 ++ mkKV key value :: l2.
Proof.
  intros H1. induction H1 as [| x l1 Hx H1 IH]; simpl; [by destruct (decide (key = key)) |].
  destruct (decide (Key x = key)) as [E |]; [rewrite E in Hx; border |].
  destruct (Z.ltb_spec (Compare (Key x) key) 0); [by rewrite IH | lia].
Qed.

Lemma kv_size_app l k : kv_size (l ++ k) = kv_size l + kv_size k.
Proof. induction l as [| kv l IH]; simpl; [done |]. rewrite IH. lia. Qed.

(** ** memtable.go *)

Class MemTable (M : Type) := {
  mt_Put : M -> bytes -> bytes -> outcome M;
  mt_Get : M -> bytes -> outcome (option bytes);
  mt_All : M -> outcome (list KV);
  mt_Size : M -> Z;
  mt_EntriesCnt : M -> Z
}.

(** A memtable holds a sorted run; every operation returns, and does to the run
    what its name says. *)
Class MemTableLaws (M : Type) `{MemTable M} := {
  mt_rep : M -> list KV -> Prop;
  mt_sorted m l : mt_rep m l -> sorted l;
  mt_Put_rep m l key value : mt_rep m l -> exists m', mt_Put m key value = Ret m' /\ mt_rep m' (kv_put l key value);
  mt_Get_rep m l key : mt_rep m l -> mt_Get m key = Ret (kv_get l key);
  mt_All_rep m l : mt_rep m l -> mt_All m = Ret l;
  mt_Size_rep m l : mt_rep m l -> mt_Size m = kv_size l;
  mt_EntriesCnt_rep m l : mt_rep m l -> mt_EntriesCnt m = zlen l
}.
