(* ===== verification/LsmSkiplist.v ===== *)
(** * LSM tree: skip list

    [components/lsm_tree/memtable/skiplist.go], on the linked structure of
    [SkipCore].  The coin tossed by [roll] is the function [flips] in the state: the
    number of ones the [n]-th roll sees before the first zero. *)
From S2P Require Import Prelude SkipCore LsmCodec LsmKeys.

#[export] Instance bytes_order : SkipOrder bytes := fun a b => Compare a b <? 0.

Lemma klt_Compare (a b : bytes) : a ⊏ b <-> a ≺ b.
Proof. apply Z.ltb_lt. Qed.

#[export] Instance bytes_order_laws : SkipOrderLaws bytes.
Proof.
  split.
  - intros k. apply Z.ltb_ge. rewrite Compare_refl. lia.
  - intros a b c. rewrite !klt_Compare. apply Compare_trans.
  - intros a b. rewrite !klt_Compare. apply Compare_cases.
Qed.

Abbreviation heap := (list (skipNode bytes bytes)).

Record Skiplist := mkSkiplist {
  sl_nodes : heap;   (* the head is node 0 *)
  sl_entriesCnt : Z;
  sl_size : Z;
  sl_flips : nat -> nat
}.

Definition NewSkiplist (flips : nat -> nat) : Skiplist := mkSkiplist [mkSkipNode [] [] []] 0 0 flips.

Definition roll (s : Skiplist) : nat := S (sl_flips s (Z.to_nat (sl_entriesCnt s))).

Definition Put (s : Skiplist) (key value : bytes) : outcome Skiplist :=
  let h := sl_nodes s in
  r ← getNode h key;
  match r with
  | Some i =>
      n ← deref h i;
      Ret (mkSkiplist (<[i := mkSkipNode (sn_nexts n) (sn_key n) value]> h) (sl_entriesCnt s)
             (sl_size s + (zlen value - zlen (sn_value n))) (sl_flips s))
  | None =>
      let newNodeHeight := roll s in
      hd ← deref h 0;
      let len := length (sn_nexts hd) in
      let h := if (len <? newNodeHeight)%nat
               then <[0%nat := mkSkipNode (sn_nexts hd ++ replicate (newNodeHeight + 1 - len) None)
                                    (sn_key hd) (sn_value hd)]> h
               else h in
      let new := length h in
      h ← link_loop (h ++ [mkSkipNode (replicate newNodeHeight None) key value]) newNodeHeight 0 new key;
      Ret (mkSkiplist h (sl_entriesCnt s + 1) (sl_size s + (zlen key + zlen value)) (sl_flips s))
  end.

Definition Get (s : Skiplist) (key : bytes) : outcome (option bytes) :=
  r ← getNode (sl_nodes s) key;
  match r with
  | Some i => n ← deref (sl_nodes s) i; Ret (Some (sn_value n))
  | None => Ret None
  end.

Fixpoint all_loop (fuel : nat) (h : heap) (move : nat) (kvs : list KV) : outcome (list KV) :=
  match fuel with
  | O => Panic "fuel"
  | S fuel' =>
      nx ← next h move 0;
      match nx with
      | None => Ret kvs
      | Some j => n ← deref h j; all_loop fuel' h j (kvs ++ [mkKV (sn_key n) (sn_value n)])
      end
  end.

Definition All (s : Skiplist) : outcome (list KV) :=
  hd ← deref (sl_nodes s) 0;
  if (length (sn_nexts hd) =? 0)%nat then Ret []
  else all_loop (S (length (sl_nodes s))) (sl_nodes s) 0 [].

#[export] Instance Skiplist_MemTable : MemTable Skiplist :=
  {| mt_Put := Put; mt_Get := Get; mt_All := All; mt_Size := sl_size; mt_EntriesCnt := sl_entriesCnt |}.

Definition ex_put3 : outcome (list KV) :=
  s ← Put (NewSkiplist (fun n => n mod 3)%nat) [3] [30];
  s ← Put s [1] [10];
  s ← Put s [2] [20];
  s ← Put s [1] [11];
  All s.

Example ex_put3_sorted : ex_put3 = Ret [mkKV [1] [11]; mkKV [2] [20]; mkKV [3] [30]].
Proof. vm_compute. reflexivity. Qed.

(** ** The invariant *)

Lemma kv_size_cons kv l : kv_size (kv :: l) = zlen (Key kv) + zlen (Value kv) + kv_size l.
Proof. done. Qed.

Definition kvs_of (h : heap) (L : list nat) : list KV := (fun p => mkKV p.1 p.2) <$> content h L.

Record sl_ok (s : Skiplist) (L : list nat) : Prop := {
  sl_heap : heap_ok (sl_nodes s) L;
  sl_entries : sl_entriesCnt s = zlen L;
  sl_bytes : sl_size s = kv_size (kvs_of (sl_nodes s) L)
}.

Lemma NewSkiplist_ok flips : sl_ok (NewSkiplist flips) [].
Proof. split; [apply heap_ok_empty | done | done]. Qed.

Lemma kvs_get (h : heap) L key : ordered h L ->
  (forall j, j ∈ L -> keyof h j = key -> kv_get (kvs_of h L) key = Some (valof h j)) /\
  ((forall i, i ∈ L -> keyof h i <> key) -> kv_get (kvs_of h L) key = None).
Proof.
  intros Ho. split.
  - induction Ho as [| i L Ho IH Hi]; [by intros ? ?%not_elem_of_nil |].
    intros j [-> | Hj]%elem_of_cons E; simpl; [by rewrite E, decide_True |].
    rewrite decide_False; [by apply IH |]. rewrite Forall_forall in Hi. specialize (Hi j Hj). rewrite E in Hi.
    intros E'. rewrite E', klt_irrefl in Hi. done.
  - intros Hne. apply kv_get_None. intros Hin. unfold kvs_of, content in Hin. rewrite <- !list_fmap_compose in Hin.
    apply list_elem_of_fmap in Hin as (i & -> & Hi). by apply (Hne i).
Qed.

Lemma sl_Get_spec s L key : sl_ok s L -> Get s key = Ret (kv_get (kvs_of (sl_nodes s) L) key).
Proof.
  intros H. unfold Get. destruct (getNode_spec (sl_nodes s) L key (sl_heap _ _ H)) as (r & -> & Hr). cbn [mbind outcome_bind].
  destruct (kvs_get (sl_nodes s) L key (ok_ordered _ _ (sl_heap _ _ H))) as [H1 H2].
  destruct r as [j |]; [| by rewrite H2]. destruct Hr as [Hj Ek].
  destruct (deref_tall (sl_nodes s) j 0) as (n & _ & Ed & _ & Ev); [apply (ok_heights _ _ (sl_heap _ _ H) j Hj) |].
  rewrite Ed. cbn [mbind outcome_bind]. by rewrite Ev, (H1 j).
Qed.

Lemma all_loop_spec (h : heap) pre L m fuel acc : linked h 0 (pre ++ m :: L) None ->
  (0 < height h m)%nat -> (forall i, i ∈ L -> (0 < height h i)%nat) -> (length L < fuel)%nat ->
  all_loop fuel h m acc = Ret (acc ++ kvs_of h L).
Proof.
  revert pre L m acc. induction fuel as [| fuel IH]; intros pre L m acc Hl Hm HL Hf; [lia |].
  pose proof Hl as [_ [Hn _]]%linked_app. specialize (Hn Hm).
  cbn [all_loop]. rewrite (next_spec _ _ _ _ Hn). cbn [mbind outcome_bind].
  destruct L as [| j L]; simpl; [by rewrite app_nil_r |].
  assert (0 < height h j)%nat as Hj by (apply HL; by left).
  destruct (Nat.ltb_spec 0 (height h j)); [| lia].
  destruct (deref_tall h j 0 Hj) as (n & _ & Ed & Ek & Ev). rewrite Ed. cbn [mbind outcome_bind]. rewrite Ek, Ev.
  rewrite (IH (pre ++ [m]) L j); [by rewrite <- app_assoc | by rewrite <- app_assoc | done | | simpl in Hf; lia].
  intros i Hi. apply HL. by right.
Qed.

Lemma All_spec s L : sl_ok s L -> All s = Ret (kvs_of (sl_nodes s) L).
Proof.
  intros [H _ _]. destruct (ok_head _ L H) as (hd & E & Hl). unfold All. rewrite (deref_Some _ _ _ E).
  cbn [mbind outcome_bind]. rewrite Hl. destruct (Nat.eqb_spec (height (sl_nodes s) 0) 0) as [E0 | Hne].
  - destruct L as [| i L]; [done |]. pose proof (ok_heights _ _ H i ltac:(by left)). lia.
  - rewrite (all_loop_spec _ [] L); [done | apply (ok_linked _ _ H); lia | lia | |].
    + intros i Hi. apply (ok_heights _ _ H i Hi).
    + pose proof (ok_length _ _ H). lia.
Qed.

Lemma kvs_sorted (h : heap) L : ordered h L -> sorted (kvs_of h L).
Proof.
  induction 1 as [| i L Ho IH Hi]; [constructor |].
  change (kvs_of h (i :: L)) with (mkKV (keyof h i) (valof h i) :: kvs_of h L). constructor; [done |].
  unfold kvs_of, content. rewrite <- list_fmap_compose. apply Forall_fmap. eapply Forall_impl; [exact Hi |].
  intros j. cbn. by rewrite klt_Compare.
Qed.

(** ** Claims *)

(** A skip list holds the sorted run [l]. *)
Definition sl_rep (s : Skiplist) (l : list KV) : Prop := exists L, sl_ok s L /\ l = kvs_of (sl_nodes s) L.

Lemma Put_spec s l key value : sl_rep s l ->
  exists s', Put s key value = Ret s' /\ sl_rep s' (kv_put l key value).
Proof.
  intros (L & [H Hn Hs] & ->). unfold Put. set (h := sl_nodes s) in *.
  destruct (getNode_spec h L key H) as (r & -> & Hr). cbn [mbind outcome_bind]. destruct r as [j |].
  - destruct Hr as [Hj Ek]. destruct (deref_tall h j 0) as (n & En & Ed & Ekn & _); [apply (ok_heights _ _ H j Hj) |].
    rewrite Ed. cbn [mbind outcome_bind]. eexists. split; [done |].
    destruct (set_value_spec h L j n value H Hj En) as (Hok & _ & _ & A & B & EL & E1 & E2).
    assert (sn_key n = key) as Ek' by congruence.
    assert (kvs_of (<[j := mkSkipNode (sn_nexts n) (sn_key n) value]> h) L = kv_put (kvs_of h L) key value) as Hc.
    { unfold kvs_of. rewrite E1, E2, !fmap_app, !fmap_cons, <- Ek'. cbn. symmetry. apply kv_put_replace.
      unfold content. rewrite <- list_fmap_compose. apply Forall_fmap, Forall_forall. intros a Ha. cbn.
      destruct (ordered_split h L (ok_ordered _ _ H) A j B EL) as [H1 _]. rewrite <- klt_Compare, Ekn. auto. }
    exists L. split; [| done]. split; [done | done |]. cbn [sl_nodes sl_size].
    unfold kvs_of in *. rewrite Hs, E1, E2, !fmap_app, !fmap_cons, !kv_size_app, !kv_size_cons. cbn [Key Value fst snd]. lia.
  - destruct (ok_head h L H) as (hd & Ehd & Hhd). rewrite (deref_Some _ _ _ Ehd). cbn [mbind outcome_bind].
    destruct (skip_insert_spec h L hd (roll s) (roll s + 1 - length (sn_nexts hd)) key value H Ehd) as
      (h' & A & B & EL & E & Hok & Hc & _ & _ & HA & HB); [unfold roll; lia | lia | done |].
    unfold raised in E. set (hr := if (length (sn_nexts hd) <? roll s)%nat then _ else h) in *.
    assert (length hr = length h) as -> by (unfold hr; destruct (_ <? _)%nat; [apply length_insert | done]).
    rewrite E. cbn [mbind outcome_bind]. eexists. split; [done |].
    assert (kvs_of h' (A ++ length h :: B) = kv_put (kvs_of h L) key value) as Hput.
    { unfold kvs_of. rewrite Hc, EL, content_app, !fmap_app, fmap_cons. cbn. symmetry.
      apply kv_put_split; unfold content; rewrite <- list_fmap_compose; apply Forall_fmap, Forall_forall; cbn; intros x Hx;
        rewrite <- klt_Compare; auto. }
    exists (A ++ length h :: B). split; [| done]. split; [done | cbn [sl_entriesCnt]; rewrite Hn, EL; zl |].
    cbn [sl_nodes sl_size]. unfold kvs_of in *. rewrite Hs, Hc, EL, content_app, !fmap_app, fmap_cons, !kv_size_app, kv_size_cons.
    cbn [Key Value fst snd]. lia.
Qed.

#[export] Instance Skiplist_Laws : MemTableLaws Skiplist.
Proof.
  refine {| mt_rep := sl_rep |}.
  - intros s l (L & H & ->). apply kvs_sorted, (ok_ordered _ _ (sl_heap _ _ H)).
  - apply Put_spec.
  - intros s l key (L & H & ->). by apply sl_Get_spec.
  - intros s l (L & H & ->). by apply All_spec.
  - intros s l (L & H & ->). apply (sl_bytes _ _ H).
  - intros s l (L & H & ->). unfold zlen, kvs_of, content. rewrite !length_fmap. apply (sl_entries _ _ H).
Defined.

(** C16: The skip list is a sorted map.  Whatever the coin of [roll] shows, [Put],
    [Get] and [All] return (they never follow a nil pointer or index past a
    node's height); [Get] after a [Put] finds the value just written and the old
    value of every other key, [All] lists the pairs by strictly increasing key,
    and [Size] counts the bytes of exactly these pairs. *)
Theorem skiplist_refines s l key value : sl_rep s l ->
  exists s' l', Put s key value = Ret s' /\ sl_rep s' l' /\
    (forall k, Get s' k = Ret (if decide (key = k) then Some value else kv_get l k)) /\
    All s' = Ret l' /\ sorted l' /\ sl_size s' = kv_size l' /\ sl_entriesCnt s' = zlen l'.
Proof.
  intros H. destruct (Put_spec s l key value H) as (s' & E & H'). exists s', (kv_put l key value).
  split; [done |]. split; [done |]. split_and!.
  - intros k. rewrite <- kv_get_put. exact (mt_Get_rep s' _ k H').
  - exact (mt_All_rep s' _ H').
  - exact (mt_sorted s' _ H').
  - exact (mt_Size_rep s' _ H').
  - exact (mt_EntriesCnt_rep s' _ H').
Qed.

Lemma skiplist_refines_witness : exists s' l', Put (NewSkiplist (fun n => n)) [7] [1] = Ret s' /\ sl_rep s' l' /\
  Get s' [7] = Ret (Some [1]).
Proof.
  destruct (skiplist_refines (NewSkiplist (fun n => n)) [] [7] [1]) as (s' & l' & E & H & G & _);
    [exists []; split; [apply NewSkiplist_ok | done] |].
  exists s', l'. split; [exact E |]. split; [exact H |]. exact (G [7]).
Defined.
