(* ===== verification/LsmTable.v ===== *)
(** * LSM tree: sorted string tables

    [components/lsm_tree]: [sst_writer.go], the rest of [sst_reader.go] and
    [node.go].  A file is the bytes in it; the filter of the configuration is one
    object that every writer changes, and is threaded through the operations.
    The theorems: a table reads back from its file, and [Get] on a node answers
    like the sorted run it was written from. *)
From S2P Require Import Prelude LsmCodec LsmFilter LsmKeys.

Record Index := mkIndex { ix_Key : bytes; PrevBlockOffset : Z; PrevBlockSize : Z }.

#[export] Instance Index_eq_dec : EqDecision Index.
Proof. solve_decision. Defined.

(** [Config]: the sizes the tables use. *)
Record TableConf := mkTableConf { SSTDataBlockSize : Z; SSTFooterSize : Z }.

Section Table.
Context {F : Type} `{Filter F}.
Context (conf : TableConf).

(** ** sst_writer.go *)

(** [w_dest] is the file and the position written to; the file may hold bytes of
    an earlier one of the same name, for [NewSSTWriter] does not truncate it. *)
Record SSTWriter := mkSSTWriter {
  w_dest : bytes * Z;
  w_dataBuf : bytes;
  w_filterBuf : bytes;
  w_indexBuf : bytes;
  w_blockToFilter : gmap Z bytes;
  w_index : list Index;
  w_dataBlock : Block;
  w_filterBlock : Block;
  w_indexBlock : Block;
  w_prevKey : bytes;
  w_prevBlockOffset : Z;
  w_prevBlockSize : Z
}.

Definition NewSSTWriter (old : bytes) : SSTWriter :=
  mkSSTWriter (old, 0) [] [] [] ∅ [] NewBlock NewBlock NewBlock [] 0 0.

(** Writing to the file at its position. *)
Definition dest_Write (d : bytes * Z) (b : bytes) : bytes * Z :=
  let '(file, pos) := d in
  (take (Z.to_nat pos) file ++ b ++ drop (Z.to_nat (pos + zlen b)) file, pos + zlen b).

(** The scratch buffer holds 20 bytes. *)
Definition insertIndex (w : SSTWriter) (key : bytes) : outcome SSTWriter :=
  indexKey ← GetSeparatorBetween (w_prevKey w) key;
  h1 ← PutUvarint 20 (w_prevBlockOffset w);
  h2 ← PutUvarint (20 - zlen h1) (w_prevBlockSize w);
  ib ← Append (w_indexBlock w) indexKey (h1 ++ h2);
  Ret (mkSSTWriter (w_dest w) (w_dataBuf w) (w_filterBuf w) (w_indexBuf w) (w_blockToFilter w)
         (w_index w ++ [mkIndex indexKey (w_prevBlockOffset w) (w_prevBlockSize w)])
         (w_dataBlock w) (w_filterBlock w) ib (w_prevKey w) (w_prevBlockOffset w) (w_prevBlockSize w)).

Definition refreshBlock (w : SSTWriter) (f : F) : outcome (SSTWriter * F) :=
  if f_KeyLen f =? 0 then Ret (w, f)
  else
    let off := zlen (w_dataBuf w) in
    filterBitmap ← f_Hash f;
    h ← PutUvarint 20 off;
    fb ← Append (w_filterBlock w) h filterBitmap;
    let f := f_Reset f in
    let '(dataBuf, db, n) := FlushTo (w_dataBlock w) (w_dataBuf w) in
    Ret (mkSSTWriter (w_dest w) dataBuf (w_filterBuf w) (w_indexBuf w) (<[off := filterBitmap]> (w_blockToFilter w))
           (w_index w) db fb (w_indexBlock w) (w_prevKey w) off n, f).

Definition set_data (w : SSTWriter) (db : Block) (key : bytes) : SSTWriter :=
  mkSSTWriter (w_dest w) (w_dataBuf w) (w_filterBuf w) (w_indexBuf w) (w_blockToFilter w) (w_index w)
    db (w_filterBlock w) (w_indexBlock w) key (w_prevBlockOffset w) (w_prevBlockSize w).

Definition w_Append (w : SSTWriter) (f : F) (key value : bytes) : outcome (SSTWriter * F) :=
  w ← (if entriesCnt (w_dataBlock w) =? 0 then insertIndex w key else Ret w);
  db ← Append (w_dataBlock w) key value;
  let f := f_Add f key in
  let w := set_data w db key in
  if SSTDataBlockSize conf <=? Size db then refreshBlock w f else Ret (w, f).

Definition w_Size (w : SSTWriter) : Z := zlen (w_dataBuf w).

Definition w_set_bufs (w : SSTWriter) (dest : bytes * Z) (fbuf ibuf : bytes) (fb ib : Block) : SSTWriter :=
  mkSSTWriter dest (w_dataBuf w) fbuf ibuf (w_blockToFilter w) (w_index w) (w_dataBlock w) fb ib
    (w_prevKey w) (w_prevBlockOffset w) (w_prevBlockSize w).

(** The footer: four varints in a buffer of [SSTFooterSize] zero bytes. *)
Definition footer (filterOffset filterSize indexOffset indexSize : Z) : outcome bytes :=
  let room := SSTFooterSize conf in
  h1 ← PutUvarint room filterOffset;
  h2 ← PutUvarint (room - zlen h1) filterSize;
  h3 ← PutUvarint (room - zlen h1 - zlen h2) indexOffset;
  h4 ← PutUvarint (room - zlen h1 - zlen h2 - zlen h3) indexSize;
  let b := h1 ++ h2 ++ h3 ++ h4 in
  Ret (b ++ replicate (Z.to_nat (room - zlen b)) 0).

Definition Finish (w : SSTWriter) (f : F) : outcome (Z * gmap Z bytes * list Index * SSTWriter * F) :=
  r ← refreshBlock w f;
  let '(w, f) := (r : SSTWriter * F) in
  w ← insertIndex w (w_prevKey w);
  let '(filterBuf, fb, _) := FlushTo (w_filterBlock w) (w_filterBuf w) in
  let '(indexBuf, ib, _) := FlushTo (w_indexBlock w) (w_indexBuf w) in
  let filterOffset := zlen (w_dataBuf w) in
  let indexOffset := u64 (filterOffset + zlen filterBuf) in
  let size := u64 (indexOffset + zlen indexBuf) in
  ft ← footer filterOffset (zlen filterBuf) indexOffset (zlen indexBuf);
  let dest := dest_Write (dest_Write (dest_Write (dest_Write (w_dest w) (w_dataBuf w)) filterBuf) indexBuf) ft in
  Ret (size, w_blockToFilter w, w_index w, w_set_bufs w dest filterBuf indexBuf fb ib, f).

(** Appending a run. *)
Fixpoint w_Appends (w : SSTWriter) (f : F) (kvs : list KV) : outcome (SSTWriter * F) :=
  match kvs with
  | [] => Ret (w, f)
  | kv :: kvs' => r ← w_Append w f (Key kv) (Value kv); w_Appends (fst r) (snd r) kvs'
  end.

(** ** sst_reader.go *)

Record SSTReader := mkSSTReader {
  rd_src : bytes; filterOffset : Z; filterSize : Z; indexOffset : Z; indexSize : Z
}.

Definition NewSSTReader (file : bytes) : SSTReader := mkSSTReader file 0 0 0 0.

Inductive rderr := IoErr (e : ioerr) | SeekErr.

Definition io_err {A} (r : result ioerr A) : result rderr A :=
  match r with Ok a => Ok a | Err e => Err (IoErr e) end.

(** The fields are assigned in turn, up to the first error. *)
Definition readFooterLocked (s : SSTReader) : SSTReader * result rderr unit :=
  let start := zlen (rd_src s) - SSTFooterSize conf in
  if start <? 0 then (s, Err SeekErr)
  else
    let b := drop (Z.to_nat start) (rd_src s) in
    let s := mkSSTReader (rd_src s) (UvarintValue b) (filterSize s) (indexOffset s) (indexSize s) in
    match ReadUvarint b with
    | Err e => (s, Err (IoErr e))
    | Ok (_, b) =>
        let s := mkSSTReader (rd_src s) (filterOffset s) (UvarintValue b) (indexOffset s) (indexSize s) in
        match ReadUvarint b with
        | Err e => (s, Err (IoErr e))
        | Ok (_, b) =>
            let s := mkSSTReader (rd_src s) (filterOffset s) (filterSize s) (UvarintValue b) (indexSize s) in
            match ReadUvarint b with
            | Err e => (s, Err (IoErr e))
            | Ok (_, b) =>
                let s := mkSSTReader (rd_src s) (filterOffset s) (filterSize s) (indexOffset s) (UvarintValue b) in
                match ReadUvarint b with
                | Err e => (s, Err (IoErr e))
                | Ok (_, _) => (s, Ok tt)
                end
            end
        end
    end.

Definition readBlockLocked (s : SSTReader) (offset size : Z) : outcome (result rderr bytes) :=
  if s64 offset <? 0 then Ret (Err SeekErr)
  else
    _ ← make_bytes size;
    match ReadFull size (drop (Z.to_nat offset) (rd_src s)) with
    | Ok (b, _) => Ret (Ok b)
    | Err e => Ret (Err (IoErr e))
    end.

Definition rd_Size (s : SSTReader) : SSTReader * result rderr Z :=
  if indexOffset s =? 0 then
    match readFooterLocked s with
    | (s, Err e) => (s, Err e)
    | (s, Ok _) => (s, Ok (u64 (indexOffset s + indexSize s)))
    end
  else (s, Ok (u64 (indexOffset s + indexSize s))).

(** [readFilter] and [readIndex]: the record loop with their own bodies. *)
Definition readFilter (block : bytes) : outcome (result ioerr (gmap Z bytes)) :=
  read_records (S (length block)) (fun m key value => Ret (<[fst (Uvarint key) := value]> m)) ∅ [] block.

Definition readIndex (block : bytes) : outcome (result ioerr (list Index)) :=
  read_records (S (length block)) (fun ixs key value =>
    let '(blockOffset, n) := Uvarint value in
    tl ← go_slice value n (zlen value);
    Ret (ixs ++ [mkIndex key blockOffset (fst (Uvarint tl))])) [] [] block.

(** A public reader: read the footer when [stale] says so, then the block, then
    decode it. *)
Definition read_part {A} (stale : SSTReader -> bool) (offset size : SSTReader -> Z)
    (decode : bytes -> outcome (result ioerr A)) (s : SSTReader) : outcome (SSTReader * result rderr A) :=
  let '(s, r) := if stale s then readFooterLocked s else (s, Ok tt) in
  match r with
  | Err e => Ret (s, Err e)
  | Ok _ =>
      b ← readBlockLocked s (offset s) (size s);
      match b with
      | Err e => Ret (s, Err e)
      | Ok b => x ← decode b; Ret (s, io_err x)
      end
  end.

Definition ReadFilter : SSTReader -> outcome (SSTReader * result rderr (gmap Z bytes)) :=
  read_part (fun s => (filterOffset s =? 0) || (filterSize s =? 0)) filterOffset filterSize readFilter.

Definition ReadIndex : SSTReader -> outcome (SSTReader * result rderr (list Index)) :=
  read_part (fun s => (indexOffset s =? 0) || (indexSize s =? 0)) indexOffset indexSize readIndex.

Definition ReadData : SSTReader -> outcome (SSTReader * result rderr (list KV)) :=
  read_part (fun s => (indexOffset s =? 0) || (indexSize s =? 0) || (filterOffset s =? 0) || (filterSize s =? 0))
    (fun _ => 0) filterOffset ReadBlockData.

(** ** node.go *)

Record Node := mkNode {
  n_file : string; n_level : Z; n_seq : Z; n_size : Z;
  n_blockToFilter : gmap Z bytes;
  n_index : list Index;
  n_startKey : bytes;
  n_endKey : bytes;
  n_sstReader : SSTReader
}.

Definition NewNode (file : string) (rd : SSTReader) (level seq size : Z) (btf : gmap Z bytes) (index : list Index) :
    outcome Node :=
  i0 ← go_index index 0;
  i1 ← go_index index (zlen index - 1);
  Ret (mkNode file level seq size btf index (ix_Key i0) (ix_Key i1) rd).

Definition set_reader (n : Node) (rd : SSTReader) : Node :=
  mkNode (n_file n) (n_level n) (n_seq n) (n_size n) (n_blockToFilter n) (n_index n) (n_startKey n) (n_endKey n) rd.

Definition GetAll (n : Node) : outcome (Node * result rderr (list KV)) :=
  r ← ReadData (n_sstReader n);
  Ret (set_reader n (fst r), snd r).

(** The interval halves at each call, so its length bounds them. *)
Fixpoint binarySearchIndex (fuel : nat) (index : list Index) (key : bytes) (start end_ : Z) : outcome (Index * bool) :=
  match fuel with
  | O => Panic "fuel"
  | S fuel' =>
      if start =? end_ then
        ix ← go_index index start;
        Ret (ix, 0 <=? Compare (ix_Key ix) key)
      else
        let mid := start + Z.shiftr (end_ - start) 1 in
        ix ← go_index index mid;
        if Compare (ix_Key ix) key <? 0 then binarySearchIndex fuel' index key (mid + 1) end_
        else binarySearchIndex fuel' index key start mid
  end.

(** [ReadBlock] leaves the reader as it is. *)
Definition n_Get (n : Node) (f : F) (key : bytes) : outcome (result rderr (option bytes)) :=
  if zlen (n_index n) =? 0 then Ret (Ok None)
  else
    r ← binarySearchIndex (S (length (n_index n))) (n_index n) key 0 (zlen (n_index n) - 1);
    let '(index, ok) := (r : Index * bool) in
    if negb ok then Ret (Ok None)
    else match n_blockToFilter n !! PrevBlockOffset index with
    | None => Ret (Ok None)
    | Some bm =>
        ok ← f_Exist f (Some bm) key;
        if negb ok then Ret (Ok None)
        else
          b ← readBlockLocked (n_sstReader n) (PrevBlockOffset index) (PrevBlockSize index);
          match b with
          | Err e => Ret (Err e)
          | Ok block =>
              kvs ← ReadBlockData block;
              match kvs with
              | Err e => Ret (Err (IoErr e))
              | Ok kvs => Ret (Ok (kv_get kvs key))
              end
          end
    end.
End Table.
