(* ===== verification/LsmTableProof.v ===== *)
(** * LSM tree: tables read back

    What a writer has written after a sequence of [w_Append]s, as blocks of the
    run, and the theorems about [Finish], the reader and [n_Get]. *)
From S2P Require Import Prelude LsmCodec LsmFilter LsmKeys LsmTable.

(** ** Blocks of a run *)

Definition enc (kvs : list KV) : bytes := enc_records [] kvs.
Definition block_of (kvs : list KV) : Block := mkBlock (enc kvs) (zlen kvs) (last_key [] kvs).

Lemma last_key_snoc prev kvs kv : last_key prev (kvs ++ [kv]) = Key kv.
Proof. unfold last_key. by rewrite last_snoc. Qed.

Lemma last_key_app prev l k : k <> [] -> last_key prev (l ++ k) = last_key [] k.
Proof. intros Hk. destruct k as [| kv k _] using rev_ind; [done |]. by rewrite app_assoc, !last_key_snoc. Qed.

Lemma enc_records_app prev l k : enc_records prev (l ++ k) = enc_records prev l ++ enc_records (last_key prev l) k.
Proof.
  revert prev. induction l as [| kv l IH]; intros prev; simpl; [done |].
  by rewrite IH, last_key_cons, <- app_assoc.
Qed.

Lemma Append_block_of kvs kv : kv_fits kv ->
  Append (block_of kvs) (Key kv) (Value kv) = Ret (block_of (kvs ++ [kv])).
Proof.
  intros [Hk Hv]. rewrite Append_spec by done. unfold block_of, enc. simpl.
  rewrite enc_records_app, last_key_snoc, zlen_app. simpl. by rewrite app_nil_r.
Qed.

Lemma enc_record_zlen prev key value : fits key -> fits value ->
  0 < zlen (enc_record prev key value) <= 30 + zlen key + zlen value.
Proof.
  intros Hk Hv. unfold enc_record. set (n := SharedPrefixLen prev key).
  pose proof (uvarint_zlen n). pose proof (uvarint_zlen (zlen key - n)). pose proof (uvarint_zlen (zlen value)).
  zl.
Qed.

Lemma enc_records_zlen prev kvs : Forall kv_fits kvs -> zlen (enc_records prev kvs) <= kv_size kvs + 30 * zlen kvs.
Proof.
  intros HF. revert prev. induction HF as [| kv kvs [Hk Hv] HF IH]; intros prev; [unfold zlen; simpl; lia |].
  cbn [enc_records kv_size foldr]. fold (kv_size kvs).
  pose proof (enc_record_zlen prev (Key kv) (Value kv) Hk Hv). specialize (IH (Key kv)).
  rewrite zlen_app, zlen_cons. lia.
Qed.

Lemma enc_pos kvs : Forall kv_fits kvs -> kvs <> [] -> 0 < zlen (enc kvs).
Proof.
  intros HF Hne. destruct HF as [| kv kvs [Hk Hv] HF]; [done |]. unfold enc. simpl.
  pose proof (enc_record_zlen [] (Key kv) (Value kv) Hk Hv). zl.
Qed.

Definition data_of (blocks : list (list KV)) : bytes := mjoin (enc <$> blocks).

(** Offset and size of every block. *)
Fixpoint places (off : Z) (blocks : list (list KV)) : list (Z * Z) :=
  match blocks with
  | [] => []
  | b :: bs => (off, zlen (enc b)) :: places (off + zlen (enc b)) bs
  end.

Lemma data_of_app bs cs : data_of (bs ++ cs) = data_of bs ++ data_of cs.
Proof. unfold data_of. rewrite fmap_app. apply join_app. Qed.

Lemma data_of_single b : data_of [b] = enc b.
Proof. unfold data_of. simpl. by rewrite app_nil_r. Qed.

Lemma places_app off bs cs : places off (bs ++ cs) = places off bs ++ places (off + zlen (data_of bs)) cs.
Proof.
  revert off. induction bs as [| b bs IH]; intros off; [by rewrite zlen_nil, Z.add_0_r |].
  cbn [places app]. rewrite IH. change (data_of (b :: bs)) with (enc b ++ data_of bs).
  by rewrite zlen_app, Z.add_assoc.
Qed.

Lemma places_length off bs : length (places off bs) = length bs.
Proof. revert off. induction bs as [| b bs IH]; intros off; simpl; [done |]. by rewrite IH. Qed.

Lemma places_range off bs p : 0 <= off -> p ∈ places off bs -> off <= p.1 /\ 0 <= p.2 /\ p.1 + p.2 <= off + zlen (data_of bs).
Proof.
  revert off. induction bs as [| b bs IH]; intros off Hoff; simpl; [by intros ?%not_elem_of_nil |].
  change (data_of (b :: bs)) with (enc b ++ data_of bs). rewrite zlen_app.
  pose proof (zlen_nonneg (enc b)). pose proof (zlen_nonneg (data_of bs)).
  intros [-> | Hp]%elem_of_cons; simpl; [lia |]. apply IH in Hp; lia.
Qed.

(** The bytes at a place are the block's. *)
Lemma places_data off bs j b p rest : bs !! j = Some b -> places off bs !! j = Some p -> 0 <= off ->
  exists pre, zlen pre + off = p.1 /\ p.2 = zlen (enc b) /\ exists post, data_of bs ++ rest = pre ++ enc b ++ post.
Proof.
  intros Hb Hp Hoff. pose proof (take_drop_middle bs j b Hb) as E. rewrite <- E in Hp.
  assert (length (take j bs) = j) as Hl by (rewrite length_take; apply lookup_lt_Some in Hb; lia).
  rewrite places_app, lookup_app_r in Hp; rewrite places_length, Hl in *; [| lia].
  rewrite Nat.sub_diag in Hp. injection Hp as <-. exists (data_of (take j bs)). simpl.
  split; [lia |]. split; [done |]. exists (data_of (drop (S j) bs) ++ rest).
  rewrite <- E at 1. rewrite data_of_app, <- app_assoc. f_equal.
  unfold data_of at 1. simpl. fold (data_of (drop (S j) bs)). by rewrite <- app_assoc.
Qed.

(** The records of the filter block and of the index block, and the map and the
    index they stand for. *)
Definition filter_kv (p : Z * Z) (bm : bytes) : KV := mkKV (uvarint_bytes MaxVarintLen64 p.1) bm.
Definition filter_kvs (blocks : list (list KV)) (bms : list bytes) : list KV := zip_with filter_kv (places 0 blocks) bms.
Definition btf_add (m : gmap Z bytes) (x : Z * Z * bytes) : gmap Z bytes := <[x.1.1 := x.2]> m.
Definition btf_of (blocks : list (list KV)) (bms : list bytes) : gmap Z bytes :=
  foldl btf_add ∅ (zip (places 0 blocks) bms).
Definition index_kv (ix : Index) : KV :=
  mkKV (ix_Key ix) (uvarint_bytes MaxVarintLen64 (PrevBlockOffset ix) ++ uvarint_bytes MaxVarintLen64 (PrevBlockSize ix)).
Definition index_of (blocks : list (list KV)) : list Index :=
  zip_with (fun b p => mkIndex (last_key [] b) p.1 p.2) blocks (places 0 blocks).

Lemma filter_kvs_snoc bs bms b bm : length bms = length bs ->
  filter_kvs (bs ++ [b]) (bms ++ [bm]) = filter_kvs bs bms ++ [filter_kv (zlen (data_of bs), zlen (enc b)) bm].
Proof.
  intros Hl. unfold filter_kvs. rewrite places_app, zip_with_app by (by rewrite places_length). done.
Qed.

Lemma btf_of_snoc bs bms b bm : length bms = length bs ->
  btf_of (bs ++ [b]) (bms ++ [bm]) = <[zlen (data_of bs) := bm]> (btf_of bs bms).
Proof.
  intros Hl. unfold btf_of. rewrite places_app, zip_with_app, foldl_app by (by rewrite places_length). done.
Qed.

Lemma index_of_snoc bs b : index_of (bs ++ [b]) = index_of bs ++ [mkIndex (last_key [] b) (zlen (data_of bs)) (zlen (enc b))].
Proof. unfold index_of. rewrite places_app, zip_with_app by (by rewrite places_length). done. Qed.

(** ** What a writer has written *)

(** Runs small enough for the offsets to fit the footer: at most 2^24 pairs of at
    most 2^40 bytes together. *)
Definition run_ok (kvs : list KV) : Prop :=
  zlen kvs <= 16777216 /\ kv_size kvs <= 1099511627776 /\ Forall (fun kv => Key kv <> []) kvs.

Lemma kv_size_nonneg l : 0 <= kv_size l.
Proof. induction l as [| kv l IH]; simpl; [done |]. pose proof (zlen_nonneg (Key kv)). pose proof (zlen_nonneg (Value kv)). lia. Qed.

Lemma kv_size_le kvs kv : kv ∈ kvs -> zlen (Key kv) + zlen (Value kv) <= kv_size kvs.
Proof.
  induction kvs as [| x kvs IH]; [by intros ?%not_elem_of_nil |]. simpl. pose proof (kv_size_nonneg kvs).
  pose proof (zlen_nonneg (Key x)). pose proof (zlen_nonneg (Value x)).
  intros [-> | Hin]%elem_of_cons; [lia |]. specialize (IH Hin). lia.
Qed.

Lemma run_fits kvs : run_ok kvs -> Forall kv_fits kvs.
Proof.
  intros (_ & Hs & _). apply Forall_forall. intros kv Hin. pose proof (kv_size_le _ _ Hin).
  pose proof (zlen_nonneg (Key kv)). pose proof (zlen_nonneg (Value kv)). unfold kv_fits, fits, maxAlloc. lia.
Qed.

Lemma run_ok_app_l l k : run_ok (l ++ k) -> run_ok l.
Proof.
  intros (Hl & Hs & Hk). rewrite zlen_app, kv_size_app in *. pose proof (kv_size_nonneg k). pose proof (zlen_nonneg k).
  apply Forall_app in Hk as [Hk _]. split_and!; [lia | lia | done].
Qed.

Lemma run_ok_app_r l k : run_ok (l ++ k) -> run_ok k.
Proof.
  intros (Hl & Hs & Hk). rewrite zlen_app, kv_size_app in *. pose proof (kv_size_nonneg l). pose proof (zlen_nonneg l).
  apply Forall_app in Hk as [_ Hk]. split_and!; [lia | lia | done].
Qed.

(** 2^42 bounds the data of such a run. *)
Definition data_max : Z := 4398046511104.

Lemma data_of_zlen bs : run_ok (mjoin bs) -> zlen (data_of bs) <= kv_size (mjoin bs) + 30 * zlen (mjoin bs).
Proof.
  induction bs as [| b bs IH]; intros Hr; [done |]. change (mjoin (b :: bs)) with (b ++ mjoin bs) in *.
  change (data_of (b :: bs)) with (enc b ++ data_of bs). rewrite !zlen_app, kv_size_app.
  pose proof (enc_records_zlen [] b (run_fits _ (run_ok_app_l _ _ Hr))). specialize (IH (run_ok_app_r _ _ Hr)).
  unfold enc. lia.
Qed.

Lemma data_of_max bs : run_ok (mjoin bs) -> 0 <= zlen (data_of bs) <= data_max.
Proof.
  intros Hr. pose proof (data_of_zlen bs Hr). destruct Hr as (Hl & Hs & _). pose proof (zlen_nonneg (data_of bs)).
  unfold data_max. lia.
Qed.

Section Written.
Context {F : Type} `{FilterLaws F}.
Context (conf : TableConf).

(** A bitmap answers for a block, whichever filter of width [wd] reads it. *)
Definition answers (wd : Z) (b : list KV) (bm : bytes) : Prop :=
  zlen bm <= bitmap_max /\
  forall f keys, f_rep f keys -> f_width f = wd ->
    forall k, exists r, f_Exist f (Some bm) k = Ret r /\ (k ∈ Key <$> b -> r = true).

(** The index with the entry of the last block, which is inserted when the next
    block starts. *)
Definition full_index (w : SSTWriter) : list Index :=
  if entriesCnt (w_dataBlock w) =? 0
  then w_index w ++ [mkIndex (w_prevKey w) (w_prevBlockOffset w) (w_prevBlockSize w)]
  else w_index w.

(** The writer has written [blocks] and holds [cur]. *)
Record stored (old : bytes) (wd : Z) (w : SSTWriter) (f : F) (blocks : list (list KV)) (cur : list KV)
    (bms : list bytes) : Prop := {
  ws_dest : w_dest w = (old, 0);
  ws_bufs : w_filterBuf w = [] /\ w_indexBuf w = [];
  ws_data : w_dataBuf w = data_of blocks;
  ws_block : w_dataBlock w = block_of cur;
  ws_rep : f_rep f (Key <$> cur);
  ws_width : f_width f = wd;
  ws_answers : Forall2 (answers wd) blocks bms;
  ws_filter : w_filterBlock w = block_of (filter_kvs blocks bms);
  ws_btf : w_blockToFilter w = btf_of blocks bms;
  ws_indexBlock : w_indexBlock w = block_of (index_kv <$> w_index w);
  ws_prev : w_prevKey w = last_key [] (mjoin blocks ++ cur);
  ws_place : (w_prevBlockOffset w, w_prevBlockSize w) = default (0, 0) (last (places 0 blocks));
  ws_blocks : Forall (fun b => b <> []) blocks
}.

(** Its index has an entry for every block, after the first key [e0]. *)
Definition written (old e0 : bytes) (wd : Z) (w : SSTWriter) (f : F) blocks cur bms : Prop :=
  stored old wd w f blocks cur bms /\ full_index w = mkIndex e0 0 0 :: index_of blocks /\ mjoin blocks ++ cur <> [].

(** [insertIndex], given the separator. *)
Lemma insertIndex_spec (w : SSTWriter) key ik :
  GetSeparatorBetween (w_prevKey w) key = Ret ik -> fits ik ->
  0 <= w_prevBlockOffset w <= data_max -> 0 <= w_prevBlockSize w <= data_max ->
  w_indexBlock w = block_of (index_kv <$> w_index w) ->
  insertIndex w key =
    let ix := w_index w ++ [mkIndex ik (w_prevBlockOffset w) (w_prevBlockSize w)] in
    Ret (mkSSTWriter (w_dest w) (w_dataBuf w) (w_filterBuf w) (w_indexBuf w) (w_blockToFilter w) ix
           (w_dataBlock w) (w_filterBlock w) (block_of (index_kv <$> ix)) (w_prevKey w)
           (w_prevBlockOffset w) (w_prevBlockSize w)).
Proof.
  intros Es Hf Ho Hz Hb. unfold insertIndex, data_max in *. rewrite Es. cbn [mbind outcome_bind].
  rewrite PutUvarint_ok by lia. cbn [mbind outcome_bind]. pose proof (uvarint_zlen (w_prevBlockOffset w)).
  pose proof (uvarint_zlen (w_prevBlockSize w)).
  rewrite PutUvarint_ok by lia. cbn [mbind outcome_bind]. rewrite Hb.
  set (kv := index_kv (mkIndex ik (w_prevBlockOffset w) (w_prevBlockSize w))).
  pose proof (Append_block_of (index_kv <$> w_index w) kv) as E. unfold kv at 2 3 in E. simpl in E.
  rewrite E; [| split; [done |]].
  - cbn [mbind outcome_bind]. by rewrite fmap_app.
  - unfold fits, maxAlloc. simpl. rewrite zlen_app. lia.
Qed.

Lemma last_place blocks o z : default (0, 0) (last (places 0 blocks)) = (o, z) -> run_ok (mjoin blocks) ->
  0 <= o <= data_max /\ 0 <= z <= data_max.
Proof.
  intros E Hr. pose proof (data_of_max blocks Hr).
  destruct (last (places 0 blocks)) as [p |] eqn:El; simpl in E; [| injection E as <- <-; unfold data_max; lia].
  subst p. apply last_Some_elem_of in El. apply places_range in El; [| done]. simpl in El. lia.
Qed.

(** A full block goes out. *)
Lemma refreshBlock_spec old e0 wd w f blocks cur bms : written old e0 wd w f blocks cur bms -> cur <> [] ->
  run_ok (mjoin blocks ++ cur) ->
  exists w' f' bm, refreshBlock w f = Ret (w', f') /\ written old e0 wd w' f' (blocks ++ [cur]) [] (bms ++ [bm]).
Proof.
  intros (Hw & ws_index0 & Hsome) Hne Hr. destruct Hw.
  pose proof (data_of_max blocks (run_ok_app_l _ _ Hr)) as Hd. unfold data_max in Hd.
  assert (length bms = length blocks) as Hlen by (symmetry; by eapply Forall2_length).
  unfold refreshBlock. rewrite (f_KeyLen_rep f _ ws_rep0).
  destruct (Z.eqb_spec (zlen (Key <$> cur)) 0) as [E | _]; [apply zlen_0_nil in E; by destruct cur |].
  destruct (f_Hash_rep f _ ws_rep0) as (bm & -> & Hbm & Hans); [by destruct cur |].
  cbn [mbind outcome_bind]. rewrite ws_data0, PutUvarint_ok by lia. cbn [mbind outcome_bind]. rewrite ws_filter0.
  pose proof (Append_block_of (filter_kvs blocks bms) (filter_kv (zlen (data_of blocks), zlen (enc cur)) bm)) as E.
  simpl in E. rewrite E; cycle 1.
  { pose proof (uvarint_zlen (zlen (data_of blocks))). unfold bitmap_max in Hbm.
    split; unfold fits, maxAlloc; simpl; lia. }
  cbn [mbind outcome_bind]. rewrite ws_block0. unfold FlushTo, clear, ToBytes. cbn [record block_of].
  destruct (f_Reset_rep f _ ws_rep0) as [Hrep Hwid]. eexists _, _, bm. split; [reflexivity |].
  assert (mjoin (blocks ++ [cur]) ++ [] = mjoin blocks ++ cur) as Ej.
  { rewrite app_nil_r, join_app. f_equal. simpl. apply app_nil_r. }
  split; [split | split]; cbn [w_dest w_filterBuf w_indexBuf w_dataBuf w_dataBlock w_filterBlock w_blockToFilter w_index
              w_indexBlock w_prevKey w_prevBlockOffset w_prevBlockSize]; try done.
  - by rewrite data_of_app, data_of_single.
  - congruence.
  - apply Forall2_app; [done |]. constructor; [| constructor]. split; [done |].
    intros f' keys' Hf' Hw'. apply (Hans f' keys' Hf'). congruence.
  - by rewrite filter_kvs_snoc.
  - by rewrite btf_of_snoc, ws_btf0.
  - by rewrite Ej.
  - rewrite places_app, last_app. simpl. done.
  - apply Forall_app. split; [done | by constructor].
  - unfold full_index in *. cbn [w_dataBlock entriesCnt w_index w_prevKey w_prevBlockOffset w_prevBlockSize Z.eqb].
    rewrite index_of_snoc.
    rewrite ws_block0 in ws_index0. cbn [entriesCnt block_of] in ws_index0.
    destruct (Z.eqb_spec (zlen cur) 0) as [Ez | _]; [by apply zlen_0_nil in Ez |].
    rewrite ws_index0, ws_prev0, last_key_app by done. done.
  - by rewrite Ej.
Qed.

Lemma separator_same prev key : prev <> [] -> key <> [] -> GetSeparatorBetween prev key = Ret prev.
Proof.
  intros Hp Hk. unfold GetSeparatorBetween.
  destruct (Z.eqb_spec (zlen key) 0) as [E |]; [by apply zlen_0_nil in E |].
  by destruct (Z.eqb_spec (zlen prev) 0) as [E |]; [apply zlen_0_nil in E |].
Qed.

Lemma last_key_In kvs : kvs <> [] -> exists kv, kv ∈ kvs /\ last_key [] kvs = Key kv.
Proof.
  intros Hne. destruct kvs as [| kv kvs _] using rev_ind; [done |]. exists kv.
  split; [apply elem_of_app; right; by left | apply last_key_snoc].
Qed.

(** The second half of [w_Append]: the pair goes into the current block. *)
Lemma add_to_block old e0 wd w f blocks cur bms kv : stored old wd w f blocks cur bms ->
  w_index w = mkIndex e0 0 0 :: index_of blocks -> run_ok (mjoin blocks ++ cur ++ [kv]) ->
  exists w' f' blocks' cur' bms',
    (db ← Append (w_dataBlock w) (Key kv) (Value kv);
     let f := f_Add f (Key kv) in
     let w := set_data w db (Key kv) in
     if SSTDataBlockSize conf <=? Size db then refreshBlock w f else Ret (w, f)) = Ret (w', f') /\
    written old e0 wd w' f' blocks' cur' bms' /\ mjoin blocks' ++ cur' = mjoin blocks ++ cur ++ [kv].
Proof.
  intros Hw Hix Hr. assert (kv_fits kv) as Hkv.
  { pose proof (run_fits _ Hr) as HF. rewrite !Forall_app in HF. destruct HF as (_ & _ & HF). by inversion HF. }
  rewrite (ws_block _ _ _ _ _ _ _ Hw), Append_block_of by done. cbn [mbind outcome_bind].
  assert (written old e0 wd (set_data w (block_of (cur ++ [kv])) (Key kv)) (f_Add f (Key kv)) blocks (cur ++ [kv]) bms) as Hw'.
  { destruct Hw. destruct (f_Add_rep f _ (Key kv) ws_rep0) as [Hrep Hwid].
    split; [split | split]; try done.
    - by rewrite fmap_app.
    - by rewrite Hwid.
    - cbn [set_data w_prevKey]. rewrite last_key_app by (by destruct cur). by rewrite last_key_snoc.
    - unfold full_index in *. cbn [set_data w_dataBlock entriesCnt block_of w_index].
      by destruct (Z.eqb_spec (zlen (cur ++ [kv])) 0) as [E |]; [apply zlen_0_nil in E; destruct cur |].
    - by destruct (mjoin blocks); [destruct cur |]. }
  destruct (SSTDataBlockSize conf <=? Size (block_of (cur ++ [kv]))).
  - destruct (refreshBlock_spec _ _ _ _ _ _ _ _ Hw') as (w' & f' & bm & E & Hw''); [by destruct cur | done |].
    eexists _, _, _, _, _. split; [exact E |]. split; [exact Hw'' |].
    rewrite app_nil_r, join_app. f_equal. simpl. by rewrite app_nil_r.
  - eexists _, _, _, _, _. split; [done |]. split; [exact Hw' | done].
Qed.

(** The index entry of the last block is inserted. *)
Lemma flush_index old e0 wd w f blocks bms key : written old e0 wd w f blocks [] bms ->
  run_ok (mjoin blocks) -> key <> [] ->
  exists w', insertIndex w key = Ret w' /\ stored old wd w' f blocks [] bms /\
    w_index w' = mkIndex e0 0 0 :: index_of blocks.
Proof.
  intros (Hw & Hix & Hsome) Hrb Hkne. pose proof Hw as Hw0. destruct Hw0. rewrite app_nil_r in ws_prev0, Hsome.
  destruct (last_key_In _ Hsome) as (lkv & Hlin & Hlk). rewrite Hlk in ws_prev0.
  assert (Key lkv <> []) as Hpne by (destruct Hrb as (_ & _ & HF); rewrite Forall_forall in HF; auto).
  assert (fits (Key lkv)) as Hpf by (pose proof (run_fits _ Hrb) as HF; rewrite Forall_forall in HF; apply (HF _ Hlin)).
  destruct (last_place blocks (w_prevBlockOffset w) (w_prevBlockSize w) (eq_sym ws_place0) Hrb) as [Ho Hz].
  rewrite (insertIndex_spec w key (Key lkv)); [| | done | done | done | done].
  2: { rewrite ws_prev0. by apply separator_same. }
  unfold full_index in Hix. rewrite ws_block0, ws_prev0 in Hix. simpl in Hix.
  eexists. split; [done |]. split; [| exact Hix]. split; try done; cbn [w_prevKey]; rewrite ?app_nil_r; congruence.
Qed.

Lemma w_Append_spec old e0 wd w f blocks cur bms kv : written old e0 wd w f blocks cur bms ->
  run_ok ((mjoin blocks ++ cur) ++ [kv]) ->
  exists w' f' blocks' cur' bms', w_Append conf w f (Key kv) (Value kv) = Ret (w', f') /\
    written old e0 wd w' f' blocks' cur' bms' /\ mjoin blocks' ++ cur' = (mjoin blocks ++ cur) ++ [kv].
Proof.
  intros Hw Hr. unfold w_Append. pose proof (ws_block _ _ _ _ _ _ _ (proj1 Hw)) as Eb.
  assert (entriesCnt (w_dataBlock w) = zlen cur) as -> by (by rewrite Eb). rewrite <- app_assoc in Hr |- *.
  destruct (Z.eqb_spec (zlen cur) 0) as [Ez | Hne].
  - apply zlen_0_nil in Ez as ->. destruct (flush_index _ _ _ _ _ _ _ (Key kv) Hw) as (w1 & -> & Hw1 & Hix).
    + by apply run_ok_app_l in Hr.
    + destruct Hr as (_ & _ & HF). rewrite !Forall_app in HF. destruct HF as (_ & _ & HF). by inversion HF.
    + cbn [mbind outcome_bind]. by apply (add_to_block old e0 wd w1 f blocks [] bms kv).
  - cbn [mbind outcome_bind]. destruct Hw as (Hw & Hix & _). apply (add_to_block old e0 wd w f blocks cur bms kv); [done | | done].
    unfold full_index in Hix. rewrite Eb in Hix. cbn [entriesCnt block_of] in Hix.
    by destruct (Z.eqb_spec (zlen cur) 0) as [E |].
Qed.

Lemma w_Appends_spec old e0 wd kvs : forall w f blocks cur bms, written old e0 wd w f blocks cur bms ->
  run_ok ((mjoin blocks ++ cur) ++ kvs) ->
  exists w' f' blocks' cur' bms', w_Appends conf w f kvs = Ret (w', f') /\
    written old e0 wd w' f' blocks' cur' bms' /\ mjoin blocks' ++ cur' = (mjoin blocks ++ cur) ++ kvs.
Proof.
  induction kvs as [| kv kvs IH]; intros w f blocks cur bms Hw Hr; cbn [w_Appends].
  { exists w, f, blocks, cur, bms. by rewrite app_nil_r. }
  change (kv :: kvs) with ([kv] ++ kvs) in *. rewrite app_assoc in Hr |- *.
  destruct (w_Append_spec _ _ _ _ _ _ _ _ kv Hw) as (w1 & f1 & blocks1 & cur1 & bms1 & -> & Hw1 & E1);
    [by apply run_ok_app_l in Hr |].
  cbn [mbind outcome_bind fst snd]. rewrite <- E1 in Hr |- *. by apply IH with bms1.
Qed.

(** The first pair: its index entry has the separator before its key. *)
Lemma w_Append_first old e0 f kv : f_rep f [] -> GetSeparatorBetween [] (Key kv) = Ret e0 -> fits e0 -> run_ok [kv] ->
  exists w' f' blocks' cur' bms', w_Append conf (NewSSTWriter old) f (Key kv) (Value kv) = Ret (w', f') /\
    written old e0 (f_width f) w' f' blocks' cur' bms' /\ mjoin blocks' ++ cur' = [kv].
Proof.
  intros Hrep Hsep Hfit Hr. unfold w_Append. cbn [entriesCnt w_dataBlock NewSSTWriter NewBlock Z.eqb].
  rewrite (insertIndex_spec _ _ e0); [| done | done | unfold data_max; simpl; lia | unfold data_max; simpl; lia | done].
  cbv zeta. cbn [mbind outcome_bind]. eapply (add_to_block old e0 (f_width f) _ f [] [] []); [| done | done].
  by split.
Qed.

Lemma w_Appends_new old e0 f kv kvs : f_rep f [] -> GetSeparatorBetween [] (Key kv) = Ret e0 -> fits e0 ->
  run_ok (kv :: kvs) ->
  exists w' f' blocks' cur' bms', w_Appends conf (NewSSTWriter old) f (kv :: kvs) = Ret (w', f') /\
    written old e0 (f_width f) w' f' blocks' cur' bms' /\ mjoin blocks' ++ cur' = kv :: kvs.
Proof.
  intros Hrep Hsep Hfit Hr. change (kv :: kvs) with ([kv] ++ kvs) in Hr |- *. cbn [w_Appends app].
  destruct (w_Append_first old e0 f kv Hrep Hsep Hfit) as (w1 & f1 & b1 & c1 & bm1 & -> & Hw1 & E1);
    [by apply run_ok_app_l in Hr |].
  cbn [mbind outcome_bind fst snd]. destruct (w_Appends_spec old e0 (f_width f) kvs w1 f1 b1 c1 bm1 Hw1)
    as (w2 & f2 & b2 & c2 & bm2 & E & Hw2 & E2); [by rewrite E1 |].
  exists w2, f2, b2, c2, bm2. rewrite E1 in E2. done.
Qed.

(** ** The file *)

Definition footer_max : Z := 72057594037927936. (* 2^56 *)

Lemma uvarint_8 x : 0 <= x < footer_max -> 0 < zlen (uvarint_bytes MaxVarintLen64 x) <= 8.
Proof.
  intros Hx. pose proof (uvarint_zlen x). pose proof (uvarint_short MaxVarintLen64 x 8 ltac:(lia)) as Hs.
  unfold footer_max in Hx. change (2 ^ (7 * Z.of_nat 8)) with 72057594037927936 in Hs. unfold zlen in *. specialize (Hs Hx). lia.
Qed.

Lemma PutUvarint_8 room x : 8 <= room -> 0 <= x < footer_max -> PutUvarint room x = Ret (uvarint_bytes MaxVarintLen64 x).
Proof.
  intros Hr Hx. pose proof (uvarint_8 x Hx). unfold footer_max in Hx. unfold PutUvarint. rewrite u64_small by lia. zcase; [lia | done].
Qed.

Definition foot (a b c d : Z) : bytes :=
  uvarint_bytes MaxVarintLen64 a ++ uvarint_bytes MaxVarintLen64 b ++ uvarint_bytes MaxVarintLen64 c ++
  uvarint_bytes MaxVarintLen64 d.

Lemma footer_spec a b c d : SSTFooterSize conf = 32 ->
  0 <= a < footer_max -> 0 <= b < footer_max -> 0 <= c < footer_max -> 0 <= d < footer_max ->
  exists z, footer conf a b c d = Ret (foot a b c d ++ z) /\ zlen (foot a b c d ++ z) = 32.
Proof.
  intros Hc Ha Hb Hc' Hd. unfold footer. rewrite Hc.
  pose proof (uvarint_8 a Ha). pose proof (uvarint_8 b Hb). pose proof (uvarint_8 c Hc'). pose proof (uvarint_8 d Hd).
  do 4 (rewrite PutUvarint_8 by (done || lia); cbn [mbind outcome_bind]).
  fold (foot a b c d). eexists. split; [reflexivity |]. rewrite zlen_app. unfold zlen at 2. rewrite length_replicate.
  assert (zlen (foot a b c d) <= 32) by (unfold foot; rewrite !zlen_app; lia).
  pose proof (zlen_nonneg (foot a b c d)). lia.
Qed.

(** Writing at the end of what was written from the start. *)
Lemma dest_Write_at pre old b :
  dest_Write (pre ++ drop (length pre) old, zlen pre) b = ((pre ++ b) ++ drop (length (pre ++ b)) old, zlen (pre ++ b)).
Proof.
  unfold dest_Write. rewrite zlen_app. unfold zlen at 1. rewrite Nat2Z.id, take_app_length.
  f_equal. rewrite <- app_assoc. do 2 f_equal.
  replace (Z.to_nat (zlen pre + zlen b)) with (length pre + length b)%nat by (unfold zlen; lia).
  rewrite <- drop_drop, drop_app_length, drop_drop, length_app. done.
Qed.

Lemma blocks_le bs : Forall (fun b : list KV => b <> []) bs -> zlen bs <= zlen (mjoin bs).
Proof.
  induction 1 as [| b bs Hb HF IH]; [done |]. change (mjoin (b :: bs)) with (b ++ mjoin bs).
  rewrite zlen_app, zlen_cons. destruct b; [done |]. rewrite zlen_cons. pose proof (zlen_nonneg b). lia.
Qed.

Lemma filter_kvs_size bs bms off : length bms = length bs -> Forall (fun bm => zlen bm <= bitmap_max) bms ->
  let l := zip_with filter_kv (places off bs) bms in
  Forall kv_fits l /\ kv_size l <= zlen bs * (10 + bitmap_max) /\ zlen l = zlen bs.
Proof.
  intros Hl HF. revert bs off Hl. induction HF as [| bm bms Hbm HF IH]; intros [| b bs] off Hl; try done.
  cbn [places zip_with]. injection Hl as Hl. destruct (IH bs (off + zlen (enc b)) Hl) as (Hf & Hs & Hn). cbv zeta in *.
  set (l := zip_with _ _ _) in *. pose proof (uvarint_zlen off).
  split; [constructor; [| done] |].
  - unfold kv_fits, fits, maxAlloc, bitmap_max in *. simpl. lia.
  - cbn [kv_size foldr]. fold (kv_size l). rewrite !zlen_cons. simpl Key. simpl Value. lia.
Qed.

Lemma last_key_le b : zlen (last_key [] b) <= kv_size b.
Proof.
  destruct b as [| kv b _] using rev_ind; [done |]. rewrite last_key_snoc.
  pose proof (kv_size_le (b ++ [kv]) kv ltac:(apply elem_of_app; right; by left)). pose proof (zlen_nonneg (Value kv)). lia.
Qed.

Lemma index_kvs_size bs off : run_ok (mjoin bs) ->
  let l := index_kv <$> zip_with (fun b p => mkIndex (last_key [] b) p.1 p.2) bs (places off bs) in
  Forall kv_fits l /\ kv_size l <= kv_size (mjoin bs) + 20 * zlen bs /\ zlen l = zlen bs.
Proof.
  revert off. induction bs as [| b bs IH]; intros off Hr; [done |]. change (mjoin (b :: bs)) with (b ++ mjoin bs) in *.
  cbn [places zip_with]. cbv zeta. rewrite fmap_cons.
  destruct (IH (off + zlen (enc b)) (run_ok_app_r _ _ Hr)) as (Hf & Hs & Hn). cbv zeta in *.
  set (l := index_kv <$> _) in *. rewrite kv_size_app.
  pose proof (uvarint_zlen off). pose proof (uvarint_zlen (zlen (enc b))). pose proof (last_key_le b).
  destruct (run_ok_app_l _ _ Hr) as (_ & Hsz & _).
  split; [constructor; [| done] |].
  - unfold kv_fits, fits, maxAlloc. simpl. rewrite zlen_app. lia.
  - cbn [kv_size foldr]. fold (kv_size l). rewrite !zlen_cons. simpl Key. simpl Value. rewrite zlen_app. lia.
Qed.

(** A finished table: the run cut into blocks, one bitmap a block, and the file
    with the four parts in it, before what is left of an older file. *)
Definition filter_part (blocks : list (list KV)) (bms : list bytes) : bytes := enc (filter_kvs blocks bms).
Definition table_index (e0 : bytes) (blocks : list (list KV)) : list Index := mkIndex e0 0 0 :: index_of blocks.
Definition index_part (e0 : bytes) (blocks : list (list KV)) : bytes := enc (index_kv <$> table_index e0 blocks).

Record table (e0 : bytes) (wd : Z) (kvs : list KV) (blocks : list (list KV)) (bms : list bytes) (old file : bytes) : Prop := {
  tb_run : mjoin blocks = kvs;
  tb_blocks : Forall (fun b => b <> []) blocks;
  tb_answers : Forall2 (answers wd) blocks bms;
  tb_sizes : 0 <= zlen (filter_part blocks bms) < maxAlloc /\ 0 <= zlen (index_part e0 blocks) < maxAlloc;
  tb_parts : Forall kv_fits (filter_kvs blocks bms) /\ Forall kv_fits (index_kv <$> table_index e0 blocks);
  tb_file : exists z,
    let d := data_of blocks in let fb := filter_part blocks bms in let ib := index_part e0 blocks in
    let ft := foot (zlen d) (zlen fb) (zlen d + zlen fb) (zlen ib) ++ z in
    let t := d ++ fb ++ ib ++ ft in
    zlen ft = 32 /\ file = t ++ drop (length t) old
}.

Lemma parts_spec e0 wd blocks bms : Forall2 (answers wd) blocks bms -> Forall (fun b => b <> []) blocks ->
  run_ok (mjoin blocks) -> zlen e0 <= data_max ->
  (0 <= zlen (filter_part blocks bms) < maxAlloc /\ 0 <= zlen (index_part e0 blocks) < maxAlloc) /\
  Forall kv_fits (filter_kvs blocks bms) /\ Forall kv_fits (index_kv <$> table_index e0 blocks).
Proof.
  intros Ha Hb Hr He. pose proof (blocks_le _ Hb) as Hn. pose proof Hr as (Hl & Hs & _).
  destruct (filter_kvs_size blocks bms 0) as (Hff & Hfs & Hfn).
  { symmetry. by eapply Forall2_length. }
  { clear -Ha. induction Ha as [| b bm bs bms [Hbm _] Ha IH]; constructor; done. }
  destruct (index_kvs_size blocks 0 Hr) as (Hif & His & Hin). cbv zeta in *.
  fold (filter_kvs blocks bms) in Hff, Hfs, Hfn. fold (index_of blocks) in Hif, His, Hin.
  assert (kv_fits (index_kv (mkIndex e0 0 0))) as Hk0 by (unfold kv_fits, fits, maxAlloc, data_max in *; simpl; split; [lia | done]).
  assert (Forall kv_fits (index_kv <$> table_index e0 blocks)) as Hif' by (by constructor).
  pose proof (enc_records_zlen [] _ Hff) as Hf. pose proof (enc_records_zlen [] _ Hif') as Hi.
  assert (kv_size (index_kv <$> table_index e0 blocks) = zlen e0 + 2 + kv_size (index_kv <$> index_of blocks)) as Ek by done.
  assert (zlen (index_kv <$> table_index e0 blocks) = zlen (index_kv <$> index_of blocks) + 1) as En by apply zlen_cons.
  split; [| done]. unfold filter_part, index_part, enc, maxAlloc, bitmap_max, data_max in *.
  pose proof (zlen_nonneg (enc_records [] (filter_kvs blocks bms))).
  pose proof (zlen_nonneg (enc_records [] (index_kv <$> table_index e0 blocks))). pose proof (zlen_nonneg blocks).
  rewrite Ek, En in Hi. lia.
Qed.

Lemma Finish_spec old e0 wd w f blocks cur bms : SSTFooterSize conf = 32 ->
  written old e0 wd w f blocks cur bms -> run_ok (mjoin blocks ++ cur) -> zlen e0 <= data_max ->
  exists blocks' bms' w' f', 
    Finish conf w f = Ret (zlen (data_of blocks') + zlen (filter_part blocks' bms') + zlen (index_part e0 blocks'),
                           btf_of blocks' bms', table_index e0 blocks', w', f') /\
    table e0 wd (mjoin blocks ++ cur) blocks' bms' old (fst (w_dest w')) /\ f_rep f' [] /\ f_width f' = wd.
Proof.
  intros Hc Hw Hr He. unfold Finish.
  assert (exists w1 f1 blocks1 bms1, refreshBlock w f = Ret (w1, f1) /\ written old e0 wd w1 f1 blocks1 [] bms1 /\
            mjoin blocks1 = mjoin blocks ++ cur) as (w1 & f1 & bs & bms1 & -> & Hw1 & Ej).
  { destruct cur as [| kv cur].
    - exists w, f, blocks, bms. unfold refreshBlock.
      rewrite (f_KeyLen_rep f _ (ws_rep _ _ _ _ _ _ _ (proj1 Hw))). rewrite app_nil_r. done.
    - destruct (refreshBlock_spec _ _ _ _ _ _ _ _ Hw) as (w1 & f1 & bm & E & Hw1); [done | done |].
      eexists _, _, _, _. split; [exact E |]. split; [exact Hw1 |]. rewrite join_app. simpl. by rewrite app_nil_r. }
  cbn [mbind outcome_bind]. rewrite <- Ej in *.
  assert (w_prevKey w1 <> []) as Hpk.
  { destruct Hw1 as (Hs & _ & Hne). rewrite (ws_prev _ _ _ _ _ _ _ Hs). rewrite app_nil_r in *.
    destruct (last_key_In _ Hne) as (kv & Hin & ->). destruct Hr as (_ & _ & HF). rewrite Forall_forall in HF. auto. }
  destruct (flush_index _ _ _ _ _ _ _ (w_prevKey w1) Hw1 Hr Hpk) as (w2 & -> & Hw2 & Hix). destruct Hw2.
  cbn [mbind outcome_bind]. destruct ws_bufs0 as [Ef Ei].
  unfold FlushTo, ToBytes. rewrite ws_filter0, ws_indexBlock0, Hix, Ef, Ei. cbn [record block_of app].
  fold (filter_part bs bms1) (table_index e0 bs) (index_part e0 bs).
  destruct (parts_spec e0 wd bs bms1 ws_answers0 ws_blocks0 Hr He) as [Hsz Hfit].
  pose proof (data_of_max bs Hr) as Hd. rewrite ws_data0.
  unfold data_max in Hd. pose proof Hsz as Hsz'. unfold maxAlloc in Hsz'.
  rewrite (u64_small (zlen (data_of bs) + _)) by lia. rewrite u64_small by lia.
  destruct (footer_spec (zlen (data_of bs)) (zlen (filter_part bs bms1)) (zlen (data_of bs) + zlen (filter_part bs bms1))
              (zlen (index_part e0 bs)) Hc) as (z & -> & Hz); [unfold footer_max; lia .. |].
  cbn [mbind outcome_bind]. eexists bs, bms1, _, f1. split; [by rewrite ws_btf0 |].
  split; [| split; [done | done]]. split; try done. exists z. cbv zeta. split; [done |].
  cbn [w_set_bufs w_dest]. rewrite ws_dest0.
  pose proof (dest_Write_at [] old (data_of bs)) as E1. cbn [app length] in E1. rewrite drop_0 in E1.
  rewrite zlen_nil in E1. rewrite E1, !dest_Write_at. cbn [fst]. by rewrite <- !app_assoc.
Qed.

(** ** Looking up *)

Definition ix_lt (a b : Index) : Prop := ix_Key a ≺ ix_Key b.

Lemma binarySearchIndex_spec index key fuel start end_ :
  StronglySorted ix_lt index -> 0 <= start <= end_ -> end_ < zlen index -> end_ - start < Z.of_nat fuel ->
  exists i ix, binarySearchIndex fuel index key start end_ = Ret (ix, 0 <=? Compare (ix_Key ix) key) /\
    start <= i <= end_ /\ zlookup index i = Some ix /\
    (forall j jx, start <= j < i -> zlookup index j = Some jx -> ix_Key jx ≺ key) /\
    (i < end_ -> 0 <= Compare (ix_Key ix) key).
Proof.
  intros Hs. revert start end_. induction fuel as [| fuel IH]; intros start end_ Hse He Hf; [lia |].
  cbn [binarySearchIndex]. destruct (Z.eqb_spec start end_) as [-> | Hne].
  { destruct (zlookup_is_Some index end_) as [ix Hix]; [lia |]. exists end_, ix.
    rewrite (go_index_Some _ _ _ Hix). split; [done |]. split; [lia |]. split; [done |]. split; [lia | lia]. }
  rewrite Z.shiftr_div_pow2 by done. change (2 ^ 1) with 2.
  pose proof (Z.div_mod (end_ - start) 2 ltac:(done)). pose proof (Z.mod_pos_bound (end_ - start) 2 ltac:(done)).
  set (mid := start + (end_ - start) / 2) in *.
  destruct (zlookup_is_Some index mid) as [mx Hmx]; [lia |]. rewrite (go_index_Some _ _ _ Hmx). cbn [mbind outcome_bind].
  destruct (Z.ltb_spec (Compare (ix_Key mx) key) 0) as [Hlt | Hge].
  - destruct (IH (mid + 1) end_) as (i & ix & E & Hi & Hix & Hlow & Hhigh); [lia | lia | lia |].
    exists i, ix. split; [done |]. split; [lia |]. split; [done |]. split; [| done].
    intros j jx Hj Hjx. destruct (decide (mid + 1 <= j)); [apply (Hlow j jx); [lia | done] |].
    destruct (decide (j = mid)) as [-> |]; [congruence |].
    unfold zlookup in Hjx, Hmx. zcase_in Hjx; [lia |]. zcase_in Hmx; [lia |].
    pose proof (StronglySorted_lookup_lt _ _ (Z.to_nat j) (Z.to_nat mid) jx mx Hs ltac:(lia) Hjx Hmx) as Hjm.
    exact (Compare_trans _ _ _ Hjm Hlt).
  - destruct (IH start mid) as (i & ix & E & Hi & Hix & Hlow & Hhigh); [lia | lia | lia |].
    exists i, ix. split; [done |]. split; [lia |]. split; [done |]. split; [done |].
    intros _. destruct (decide (i < mid)); [auto |]. replace i with mid in Hix by lia. congruence.
Qed.

(** Every key of a sorted run is at most its last. *)
Lemma sorted_last l kv : sorted l -> kv ∈ l -> Key kv ≺ last_key [] l \/ Key kv = last_key [] l.
Proof.
  intros Hs Hin. destruct l as [| x l _] using rev_ind; [by apply not_elem_of_nil in Hin |].
  rewrite last_key_snoc. apply elem_of_app in Hin as [Hin | ->%list_elem_of_singleton]; [left | by right].
  refine (StronglySorted_app_1_elem_of klt l [x] kv x Hs Hin _). by left.
Qed.

Lemma index_sorted lo o z off bs : (forall kv, kv ∈ mjoin bs -> lo ≺ Key kv) -> sorted (mjoin bs) ->
  Forall (fun b => b <> []) bs ->
  StronglySorted ix_lt (mkIndex lo o z :: zip_with (fun b p => mkIndex (last_key [] b) p.1 p.2) bs (places off bs)).
Proof.
  intros Hlo Hs Hne. revert lo o z off Hlo Hs. induction Hne as [| b bs Hb Hne IH]; intros lo o z off Hlo Hs;
    [by repeat constructor |].
  change (mjoin (b :: bs)) with (b ++ mjoin bs) in *. cbn [places zip_with].
  destruct (last_key_In b Hb) as (kv & Hin & Hk).
  assert (forall x, x ∈ mjoin bs -> last_key [] b ≺ Key x) as Hlo'.
  { intros x Hx. rewrite Hk. exact (StronglySorted_app_1_elem_of klt b (mjoin bs) kv x Hs Hin Hx). }
  assert (lo ≺ last_key [] b) as Hl by (rewrite Hk; apply Hlo; apply elem_of_app; by left).
  assert (sorted (mjoin bs)) as Hs' by (by apply StronglySorted_app_1_r in Hs).
  pose proof (IH (last_key [] b) off (zlen (enc b)) (off + zlen (enc b)) Hlo' Hs') as H1.
  constructor; [exact H1 |]. inversion H1 as [| ? ? _ HF]; subst. constructor; [exact Hl |].
  eapply Forall_impl; [exact HF |]. intros ix Hix. exact (Compare_trans _ _ _ Hl Hix).
Qed.

(** The value of a key is in the block whose range it is in. *)
Lemma kv_get_block bs j b key : sorted (mjoin bs) -> bs !! j = Some b ->
  (forall c, (0 < j)%nat -> bs !! (j - 1)%nat = Some c -> last_key [] c ≺ key) -> Forall (fun b => b <> []) bs ->
  ~ last_key [] b ≺ key -> kv_get (mjoin bs) key = kv_get b key.
Proof.
  intros Hs Hb Hlow Hne Hhigh. pose proof (take_drop_middle bs j b Hb) as E. rewrite <- E in Hs |- *.
  rewrite join_app in Hs |- *. change (mjoin (b :: drop (S j) bs)) with (b ++ mjoin (drop (S j) bs)) in *.
  assert (kv_get (mjoin (take j bs)) key = None) as HA.
  { apply kv_get_None. intros (kv & -> & Hkv)%list_elem_of_fmap.
    destruct j as [| j]; [by apply not_elem_of_nil in Hkv |].
    destruct (lookup_lt_is_Some_2 bs j) as [c Hc]; [apply lookup_lt_Some in Hb; lia |].
    specialize (Hlow c ltac:(lia)). replace (S j - 1)%nat with j in Hlow by lia. specialize (Hlow Hc).
    rewrite (take_S_r _ _ _ Hc), join_app in Hkv, Hs. simpl in Hkv, Hs. rewrite app_nil_r in Hkv, Hs.
    assert (c <> []) as Hcne by (rewrite Forall_lookup in Hne; by apply (Hne j)).
    apply StronglySorted_app_1_l in Hs. destruct (sorted_last _ _ Hs Hkv) as [Hl | Hl];
      rewrite last_key_app in Hl by done; [border | rewrite <- Hl in Hlow; border]. }
  rewrite !kv_get_app, HA. destruct (kv_get b key) eqn:Eb; [done |].
  apply kv_get_None. intros (kv & -> & Hkv)%list_elem_of_fmap. apply Hhigh.
  assert (b <> []) as Hbne by (rewrite Forall_lookup in Hne; by apply (Hne j)).
  destruct (last_key_In b Hbne) as (x & Hx & ->). apply StronglySorted_app_1_r in Hs.
  exact (StronglySorted_app_1_elem_of klt b _ x kv Hs Hx Hkv).
Qed.

Lemma btf_lookup bs bms j p bm : Forall (fun b => b <> []) bs -> run_ok (mjoin bs) -> length bms = length bs ->
  places 0 bs !! j = Some p -> bms !! j = Some bm -> btf_of bs bms !! p.1 = Some bm.
Proof.
  revert bms. induction bs as [| b bs IH] using rev_ind; intros bms Hne Hr Hl Hp Hbm; [done |].
  rewrite length_app in Hl. simpl in Hl.
  destruct bms as [| x bms _] using rev_ind; [simpl in Hl; lia |]. rewrite length_app in Hl. simpl in Hl.
  rewrite btf_of_snoc by lia. rewrite join_app in Hr. simpl in Hr. rewrite app_nil_r in Hr.
  apply Forall_app in Hne as [Hne Hb]. rewrite places_app in Hp. simpl in Hp.
  destruct (decide (j < length bs)%nat) as [Hj | Hj].
  - rewrite lookup_app_l in Hp by (by rewrite places_length). rewrite lookup_app_l in Hbm by lia.
    pose proof (IH bms Hne (run_ok_app_l _ _ Hr) ltac:(lia) Hp Hbm) as IHp.
    rewrite lookup_insert_ne; [done |].
    destruct (lookup_lt_is_Some_2 bs j Hj) as [c Hc].
    destruct (places_data 0 bs j c p [] Hc Hp) as (pre & Hpre & Hsz & post & Ed); [done |].
    apply (f_equal zlen) in Ed. rewrite !zlen_app, zlen_nil in Ed. pose proof (zlen_nonneg post).
    assert (0 < zlen (enc c)); [| lia]. apply enc_pos; [| rewrite Forall_lookup in Hne; by apply (Hne j)].
    pose proof (run_fits _ (run_ok_app_l _ _ Hr)) as HF. rewrite Forall_forall in HF. apply Forall_forall.
    intros kv Hkv. apply HF. apply list_elem_of_join. exists c. split; [done |]. by eapply list_elem_of_lookup_2.
  - rewrite lookup_app_r in Hp by (rewrite places_length; lia). rewrite lookup_app_r in Hbm by lia.
    rewrite places_length in Hp. destruct (j - length bs)%nat as [| n] eqn:En; [| done].
    replace (j - length bms)%nat with 0%nat in Hbm by lia. injection Hp as <-. injection Hbm as ->.
    rewrite Z.add_0_l. apply lookup_insert_eq.
Qed.

(** The block at a place reads back. *)
Lemma read_block e0 wd kvs bs bms old file rd j b p : table e0 wd kvs bs bms old file -> run_ok kvs ->
  rd_src rd = file -> bs !! j = Some b -> places 0 bs !! j = Some p ->
  readBlockLocked rd p.1 p.2 = Ret (Ok (enc b)).
Proof.
  intros Ht Hr Hf Hb Hp. destruct Ht as [Hrun _ _ _ _ (z & _ & Efile)]. cbv zeta in Efile.
  rewrite <- !app_assoc in Efile. set (rest := filter_part bs bms ++ _) in Efile.
  destruct (places_data 0 bs j b p rest Hb Hp) as (pre & Hpre & Hsz & post & Ed); [done |].
  assert (p ∈ places 0 bs) as Hin by (by eapply list_elem_of_lookup_2).
  apply places_range in Hin; [| done]. rewrite <- Hrun in Hr. pose proof (data_of_max bs Hr) as Hd. unfold data_max in Hd.
  unfold readBlockLocked. rewrite s64_small by lia. destruct (Z.ltb_spec p.1 0); [lia |].
  rewrite make_bytes_ok by (unfold maxAlloc; lia). cbn [mbind outcome_bind].
  rewrite Hf, Efile, Ed, Hsz. replace (Z.to_nat p.1) with (length pre) by (unfold zlen in Hpre; lia).
  by rewrite drop_app_length, ReadFull_app.
Qed.

(** A node over a table: what [NewNode] makes of the results of [Finish]. *)
Record node_of (e0 : bytes) (wd : Z) (kvs : list KV) (n : Node) : Prop := {
  nd_table : exists bs bms old, table e0 wd kvs bs bms old (rd_src (n_sstReader n)) /\
    n_index n = table_index e0 bs /\ n_blockToFilter n = btf_of bs bms;
  nd_run : run_ok kvs;
  nd_sorted : sorted kvs;
  nd_first kv : kv ∈ kvs -> e0 ≺ Key kv
}.

(** Entry [j + 1] of the index is that of block [j]. *)
Lemma index_entry e0 bs j b p : bs !! j = Some b -> places 0 bs !! j = Some p ->
  zlookup (table_index e0 bs) (Z.of_nat j + 1) = Some (mkIndex (last_key [] b) p.1 p.2).
Proof.
  intros Hb Hp. unfold zlookup. destruct (Z.ltb_spec (Z.of_nat j + 1) 0); [lia |].
  replace (Z.to_nat (Z.of_nat j + 1)) with (S j) by lia. unfold table_index, index_of. simpl.
  apply lookup_zip_with_Some. eauto.
Qed.

Lemma table_index_zlen e0 bs : zlen (table_index e0 bs) = zlen bs + 1.
Proof. unfold table_index, index_of. rewrite zlen_cons. unfold zlen. rewrite length_zip_with, places_length. lia. Qed.

(** A key after the last entry is not in the table. *)
Lemma past_last e0 bs ix key : sorted (mjoin bs) -> Forall (fun b => b <> []) bs ->
  zlookup (table_index e0 bs) (zlen (table_index e0 bs) - 1) = Some ix -> ix_Key ix ≺ key -> kv_get (mjoin bs) key = None.
Proof.
  intros Hs Hbs Hlook Hlt. apply kv_get_None. intros (kv & -> & Hkv)%list_elem_of_fmap.
  destruct bs as [| b bs _] using rev_ind; [by apply not_elem_of_nil in Hkv |].
  assert (b <> []) as Hbne by (apply Forall_app in Hbs as [_ Hbs]; by inversion Hbs).
  rewrite join_app in Hkv, Hs. simpl in Hkv, Hs. rewrite app_nil_r in Hkv, Hs.
  assert (ix_Key ix = last_key [] b) as Eb.
  { unfold table_index in Hlook. rewrite index_of_snoc, app_comm_cons, zlen_app, zlookup_app_r in Hlook by (unfold zlen; simpl; lia).
    replace (_ - 1 - _) with 0 in Hlook by (unfold zlen; simpl; lia). by injection Hlook as <-. }
  rewrite Eb in Hlt. destruct (sorted_last _ _ Hs Hkv) as [Hl | Hl]; rewrite last_key_app in Hl by done.
  - border.
  - rewrite <- Hl in Hlt. border.
Qed.

(** The entry the search stops at names the block of the key: the first entry an
    empty block at the start, for no key is so small. *)
Lemma entry_block e0 (bs : list (list KV)) (bms : list bytes) i ix key : sorted (mjoin bs) -> Forall (fun b => b <> []) bs -> bs <> [] ->
  length bms = length bs -> (forall kv, kv ∈ mjoin bs -> e0 ≺ Key kv) ->
  zlookup (table_index e0 bs) i = Some ix -> 0 <= Compare (ix_Key ix) key ->
  (forall j y, 0 <= j < i -> zlookup (table_index e0 bs) j = Some y -> ix_Key y ≺ key) ->
  exists j b p bm, bs !! j = Some b /\ places 0 bs !! j = Some p /\ bms !! j = Some bm /\ PrevBlockOffset ix = p.1 /\
    (PrevBlockSize ix = 0 /\ kv_get (mjoin bs) key = None \/
     (PrevBlockSize ix = p.2 /\ kv_get (mjoin bs) key = kv_get b key)).
Proof.
  intros Hs Hbs Hne Hlen Hfirst Hlook Hge Hlow. pose proof (zlookup_Some_range _ _ _ Hlook) as Hi. rewrite table_index_zlen in Hi.
  assert (forall j b, bs !! j = Some b -> exists p bm, places 0 bs !! j = Some p /\ bms !! j = Some bm) as Hget.
  { intros j b Hb. apply lookup_lt_Some in Hb.
    destruct (lookup_lt_is_Some_2 (places 0 bs) j) as [p Hp]; [by rewrite places_length |].
    destruct (lookup_lt_is_Some_2 bms j) as [bm Hbm]; [lia |]. eauto. }
  destruct (decide (i = 0)) as [-> | Hi0].
  - injection Hlook as <-. destruct bs as [| b bs]; [done |]. destruct (Hget 0%nat b eq_refl) as (p & bm & Hp & Hbm).
    exists 0%nat, b, p, bm. split; [done |]. split; [done |]. split; [done |]. simpl in Hp. injection Hp as <-.
    split; [done |]. left. split; [done |]. apply kv_get_None. intros (kv & -> & Hkv)%list_elem_of_fmap.
    specialize (Hfirst kv Hkv). simpl in Hge. lia.
  - destruct (lookup_lt_is_Some_2 bs (Z.to_nat (i - 1))) as [b Hb]; [unfold zlen in *; lia |].
    destruct (Hget _ _ Hb) as (p & bm & Hp & Hbm). exists (Z.to_nat (i - 1)), b, p, bm.
    pose proof (index_entry e0 _ _ _ _ Hb Hp) as He. replace (Z.of_nat (Z.to_nat (i - 1)) + 1) with i in He by lia.
    rewrite Hlook in He. injection He as ->. split; [done |]. split; [done |]. split; [done |]. split; [done |].
    right. split; [done |]. apply (kv_get_block bs (Z.to_nat (i - 1))); [done | done | | done | simpl in Hge; lia].
    intros c Hj Hc. destruct (Hget _ _ Hc) as (p' & bm' & Hp' & _).
    apply (Hlow (i - 1) (mkIndex (last_key [] c) p'.1 p'.2)); [lia |].
    rewrite <- (index_entry e0 _ _ _ _ Hc Hp'). f_equal. lia.
Qed.

Lemma read_empty (rd : SSTReader) o : 0 <= o < 9223372036854775808 -> readBlockLocked rd o 0 = Ret (Ok []).
Proof.
  intros Ho. unfold readBlockLocked. rewrite s64_small by lia. destruct (Z.ltb_spec o 0); [lia |].
  cbn [mbind outcome_bind make_bytes]. unfold ReadFull. pose proof (zlen_nonneg (drop (Z.to_nat o) (rd_src rd))).
  by destruct (Z.ltb_spec (zlen (drop (Z.to_nat o) (rd_src rd))) 0); [lia |].
Qed.

Lemma n_Get_spec e0 wd kvs n f keys key : node_of e0 wd kvs n -> kvs <> [] -> f_rep f keys -> f_width f = wd ->
  n_Get n f key = Ret (Ok (kv_get kvs key)).
Proof.
  intros [(bs & bms & old & Ht & Hix & Hbtf) Hr Hs Hfirst] Hne Hrep Hwd.
  pose proof Ht as Ht0. destruct Ht0 as [Hrun Hbs Hans _ _ _]. subst kvs.
  assert (bs <> []) as Hbne by (by intros ->).
  assert (StronglySorted ix_lt (table_index e0 bs)) as Hsorted by (by apply index_sorted).
  assert (length bms = length bs) as Hlen by (symmetry; by eapply Forall2_length).
  unfold n_Get. rewrite Hix. pose proof (table_index_zlen e0 bs) as Hli. pose proof (zlen_nonneg bs).
  destruct (Z.eqb_spec (zlen (table_index e0 bs)) 0); [lia |].
  destruct (binarySearchIndex_spec (table_index e0 bs) key (S (length (table_index e0 bs))) 0 (zlen (table_index e0 bs) - 1) Hsorted)
    as (i & ix & E & Hi & Hlook & Hlow & Hhigh); [lia | lia | unfold zlen; lia |].
  rewrite E. cbn [mbind outcome_bind].
  destruct (Z.leb_spec 0 (Compare (ix_Key ix) key)) as [Hge | Hlt]; cbn [negb].
  2: { assert (i = zlen (table_index e0 bs) - 1) as -> by (destruct (decide (i = zlen (table_index e0 bs) - 1)); [done |]; lia).
       by rewrite (past_last e0 bs ix key). }
  destruct (entry_block e0 bs bms i ix key Hs Hbs Hbne Hlen Hfirst Hlook Hge Hlow) as (j & b & p & bm & Hb & Hp & Hbm & Ho & Hz).
  rewrite Ho, Hbtf, (btf_lookup bs bms j p bm Hbs Hr Hlen Hp Hbm).
  destruct (Forall2_lookup_lr _ _ _ _ _ _ Hans Hb Hbm) as [_ Ha]. destruct (Ha f keys Hrep Hwd key) as (r & -> & Hr').
  cbn [mbind outcome_bind].
  assert (negb r = true -> kv_get (mjoin bs) key = None) as Hneg.
  { intros Hn. destruct Hz as [[_ ?] | [_ ->]]; [done |]. apply kv_get_None. intros Hin. by rewrite Hr' in Hn. }
  destruct (negb r); [by rewrite Hneg |].
  destruct Hz as [[-> Hg] | [-> Hg]]; rewrite Hg.
  - assert (p ∈ places 0 bs) as Hin by (by eapply list_elem_of_lookup_2). apply places_range in Hin; [| done].
    pose proof (data_of_max bs Hr) as Hd. unfold data_max in Hd. by rewrite read_empty by lia.
  - rewrite (read_block _ _ _ _ _ _ _ (n_sstReader n) j b p Ht Hr eq_refl Hb Hp). cbn [mbind outcome_bind].
    unfold enc. rewrite ReadBlockData_enc; [done |].
    pose proof (run_fits _ Hr) as HF. rewrite Forall_forall in HF. apply Forall_forall.
    intros kv Hkv. apply HF. apply list_elem_of_join. exists b. split; [done |]. by eapply list_elem_of_lookup_2.
Qed.

(** ** Reopening *)

(** A record encoded after [p] reads after [q] too, when nothing is shared. *)
Lemma ReadRecord_any p q key value r : p = q \/ p = [] -> fits q -> fits key -> fits value ->
  ReadRecord q (enc_record p key value ++ r) = Ret (Ok (key, value, r)).
Proof.
  intros [-> | ->] Hq Hk Hv; [by apply ReadRecord_enc |].
  unfold ReadRecord, enc_record, fits, maxAlloc in *. change (SharedPrefixLen [] key) with 0.
  pose proof (zlen_nonneg key). pose proof (zlen_nonneg value). pose proof (zlen_nonneg q). rewrite Z.sub_0_r, drop_0.
  rewrite <- !app_assoc. do 3 (rewrite ReadUvarint_bytes by lia; cbn [err_bind]).
  rewrite !make_bytes_ok by (unfold maxAlloc; lia). cbn [mbind outcome_bind].
  rewrite ReadFull_app. cbn [err_bind mbind outcome_bind]. rewrite ReadFull_app. cbn [err_bind mbind outcome_bind].
  rewrite go_slice_ok by lia. done.
Qed.

Definition snoc_kv (data : list KV) (key value : bytes) : outcome (list KV) := Ret (data ++ [mkKV key value]).

Lemma read_records_any p q kvs fuel acc rest : p = q \/ p = [] -> fits q -> Forall kv_fits kvs -> (length kvs <= fuel)%nat ->
  exists fuel', (fuel - length kvs <= fuel')%nat /\
    read_records fuel snoc_kv acc q (enc_records p kvs ++ rest) =
    read_records fuel' snoc_kv (acc ++ kvs) (last_key q kvs) rest.
Proof.
  intros Hpq Hq HF. revert p q fuel acc Hpq Hq. induction HF as [| kv kvs [Hk Hv] HF IH]; intros p q fuel acc Hpq Hq Hl.
  { exists fuel. rewrite app_nil_r. split; [lia | done]. }
  destruct fuel as [| fuel]; [simpl in Hl; lia |]. cbn [enc_records read_records]. rewrite <- app_assoc.
  rewrite (ReadRecord_any p q) by done. cbn [mbind outcome_bind snoc_kv].
  destruct (IH (Key kv) (Key kv) fuel (acc ++ [mkKV (Key kv) (Value kv)])) as (fuel' & Hf & E); [by left | done | simpl in Hl; lia |].
  exists fuel'. split; [simpl; lia |]. rewrite E, last_key_cons, <- app_assoc. by destruct kv.
Qed.

Lemma read_data bs q fuel acc : fits q -> Forall kv_fits (mjoin bs) -> (length (mjoin bs) < fuel)%nat ->
  read_records fuel snoc_kv acc q (data_of bs) = Ret (Ok (acc ++ mjoin bs)).
Proof.
  revert q fuel acc. induction bs as [| b bs IH]; intros q fuel acc Hq HF Hl.
  { destruct fuel; [lia |]. simpl. by rewrite app_nil_r. }
  change (mjoin (b :: bs)) with (b ++ mjoin bs) in *. change (data_of (b :: bs)) with (enc b ++ data_of bs).
  apply Forall_app in HF as [Hb HF]. rewrite length_app in Hl.
  destruct (read_records_any [] q b fuel acc (data_of bs)) as (fuel' & Hf & E); [by right | done | done | lia |].
  unfold enc. rewrite E, IH; [by rewrite <- app_assoc | | done | lia].
  destruct b as [| kv b _] using rev_ind; [done |]. rewrite last_key_snoc.
  apply Forall_app in Hb as [_ Hb]. inversion Hb as [| ? ? [Hk _] _]. done.
Qed.

Lemma enc_records_many prev kvs : (length kvs <= length (enc_records prev kvs))%nat.
Proof.
  revert prev. induction kvs as [| kv kvs IH]; intros prev; simpl; [lia |]. rewrite length_app.
  pose proof (enc_record_length prev (Key kv) (Value kv)). specialize (IH (Key kv)). lia.
Qed.

Lemma data_of_many bs : (length (mjoin bs) <= length (data_of bs))%nat.
Proof.
  induction bs as [| b bs IH]; [done |]. change (mjoin (b :: bs)) with (b ++ mjoin bs).
  change (data_of (b :: bs)) with (enc b ++ data_of bs). rewrite !length_app.
  pose proof (enc_records_many [] b). unfold enc. lia.
Qed.

(** [n] for the reader once it has read the footer. *)
Definition opened (e0 : bytes) (bs : list (list KV)) (bms : list bytes) (file : bytes) : SSTReader :=
  mkSSTReader file (zlen (data_of bs)) (zlen (filter_part bs bms)) (zlen (data_of bs) + zlen (filter_part bs bms))
    (zlen (index_part e0 bs)).

Lemma readFooter_spec e0 wd kvs bs bms file rd : SSTFooterSize conf = 32 ->
  table e0 wd kvs bs bms [] file -> run_ok kvs -> rd_src rd = file ->
  readFooterLocked conf rd = (opened e0 bs bms file, Ok tt).
Proof.
  intros Hc Ht Hr Hrd. destruct Ht as [Hrun _ _ [Hf Hi] _ (z & Hz & Efile)]. cbv zeta in *. subst kvs.
  pose proof (data_of_max bs Hr) as Hd. unfold data_max, maxAlloc in *.
  set (ft := foot _ _ _ _ ++ z) in *. set (t := data_of bs ++ filter_part bs bms ++ index_part e0 bs ++ ft) in *.
  rewrite drop_nil, app_nil_r in Efile.
  unfold readFooterLocked. rewrite Hrd, Hc. rewrite Efile.
  assert (zlen t - 32 = zlen (data_of bs ++ filter_part bs bms ++ index_part e0 bs)) as Ez
    by (unfold t; rewrite !zlen_app, Hz; lia).
  rewrite Ez. destruct (Z.ltb_spec (zlen (data_of bs ++ filter_part bs bms ++ index_part e0 bs)) 0) as [Hn |];
    [pose proof (zlen_nonneg (data_of bs ++ filter_part bs bms ++ index_part e0 bs)); lia |].
  assert (drop (Z.to_nat (zlen (data_of bs ++ filter_part bs bms ++ index_part e0 bs))) t = ft) as ->.
  { assert (t = (data_of bs ++ filter_part bs bms ++ index_part e0 bs) ++ ft) as -> by (unfold t; by rewrite <- !app_assoc).
    unfold zlen. rewrite Nat2Z.id. apply drop_app_length. }
  unfold ft, foot. rewrite <- !app_assoc.
  do 4 (rewrite ReadUvarint_bytes, UvarintValue_bytes by lia; cbn [rd_src filterOffset filterSize indexOffset indexSize]).
  done.
Qed.

Lemma foldl_zip_filter bs bms off m : length bms = length bs -> 0 <= off -> off + zlen (data_of bs) <= data_max ->
  foldl (fun m kv => <[fst (Uvarint (Key kv)) := Value kv]> m) m (zip_with filter_kv (places off bs) bms) =
  foldl btf_add m (zip (places off bs) bms).
Proof.
  revert bms off m. induction bs as [| b bs IH]; intros [| bm bms] off m Hl Ho Hd; try done.
  cbn [places zip_with foldl filter_kv Key Value]. injection Hl as Hl.
  change (data_of (b :: bs)) with (enc b ++ data_of bs) in Hd. rewrite zlen_app in Hd.
  pose proof (zlen_nonneg (enc b)). pose proof (zlen_nonneg (data_of bs)). unfold data_max in *.
  pose proof (Uvarint_bytes off []) as E. rewrite app_nil_r in E. cbn [fst]. rewrite E by lia.
  rewrite IH by (done || lia). done.
Qed.

Definition dec_index (kv : KV) : Index :=
  let '(o, n) := Uvarint (Value kv) in mkIndex (Key kv) o (fst (Uvarint (drop (Z.to_nat n) (Value kv)))).

Definition ix_ok (ix : Index) : Prop :=
  0 <= PrevBlockOffset ix <= data_max /\ 0 <= PrevBlockSize ix <= data_max.

Lemma dec_index_kv ix : ix_ok ix ->
  dec_index (index_kv ix) = ix /\
  Uvarint (Value (index_kv ix)) = (PrevBlockOffset ix, zlen (uvarint_bytes MaxVarintLen64 (PrevBlockOffset ix))).
Proof.
  intros [Ho Hz]. unfold data_max in *. unfold dec_index, index_kv. cbn [Value Key].
  rewrite Uvarint_bytes by lia. split; [| done]. unfold zlen. rewrite Nat2Z.id, drop_app_length.
  pose proof (Uvarint_bytes (PrevBlockSize ix) []) as E. rewrite app_nil_r in E. rewrite E by lia. by destruct ix.
Qed.

Lemma table_index_ok e0 bs ix : run_ok (mjoin bs) -> ix ∈ table_index e0 bs -> ix_ok ix.
Proof.
  intros Hr [-> | Hin]%elem_of_cons; [done |]. unfold index_of in Hin.
  apply elem_of_lookup_zip_with in Hin as (j & b & p & -> & Hb & Hp). pose proof (data_of_max bs Hr).
  apply list_elem_of_lookup_2 in Hp. apply places_range in Hp; [| done]. unfold ix_ok. simpl. lia.
Qed.

Lemma readIndex_enc e0 bs : run_ok (mjoin bs) -> Forall kv_fits (index_kv <$> table_index e0 bs) ->
  readIndex (index_part e0 bs) = Ret (Ok (table_index e0 bs)).
Proof.
  intros Hr HF. unfold readIndex, index_part, enc.
  rewrite (read_records_enc _ (fun ixs kv => ixs ++ [dec_index kv])); [| | done | done | lia].
  - do 2 f_equal. assert (forall l acc, (forall ix, ix ∈ l -> ix_ok ix) ->
      foldl (fun ixs kv => ixs ++ [dec_index kv]) acc (index_kv <$> l) = acc ++ l) as Hfold.
    { induction l as [| ix l IH]; intros acc Hl; simpl; [by rewrite app_nil_r |].
      destruct (dec_index_kv ix) as [-> _]; [apply Hl; by left |].
      rewrite IH by (intros y Hy; apply Hl; by right). by rewrite <- app_assoc. }
    apply (Hfold _ []). intros ix. by apply table_index_ok.
  - intros ixs kv (ix & -> & Hix)%list_elem_of_fmap. apply table_index_ok in Hix; [| done].
    destruct (dec_index_kv ix Hix) as [Hd ->]. rewrite go_slice_ok.
    + cbn [mbind outcome_bind]. rewrite take_ge by (rewrite length_drop; unfold zlen; lia).
      rewrite <- Hd at 3. unfold dec_index. destruct (dec_index_kv ix Hix) as [_ ->]. done.
    + apply zlen_nonneg.
    + unfold index_kv. cbn [Value]. rewrite zlen_app. pose proof (zlen_nonneg (uvarint_bytes MaxVarintLen64 (PrevBlockSize ix))). lia.
    + lia.
Qed.

Lemma readFilter_enc bs bms : run_ok (mjoin bs) -> length bms = length bs -> Forall kv_fits (filter_kvs bs bms) ->
  readFilter (filter_part bs bms) = Ret (Ok (btf_of bs bms)).
Proof.
  intros Hr Hl HF. unfold readFilter, filter_part, enc.
  rewrite (read_records_enc _ (fun m kv => <[fst (Uvarint (Key kv)) := Value kv]> m)); [| done | done | done | lia].
  do 2 f_equal. apply foldl_zip_filter; [done | done |]. pose proof (data_of_max bs Hr). lia.
Qed.

(** A part of the file, at its place. *)
Lemma read_at rd pre part post : rd_src rd = pre ++ part ++ post -> zlen pre < 9223372036854775808 -> fits part ->
  readBlockLocked rd (zlen pre) (zlen part) = Ret (Ok part).
Proof.
  intros E Hp Hf. unfold readBlockLocked. pose proof (zlen_nonneg pre). rewrite s64_small by lia.
  destruct (Z.ltb_spec (zlen pre) 0); [lia |]. rewrite make_bytes_ok by done. cbn [mbind outcome_bind].
  rewrite E. unfold zlen at 2. rewrite Nat2Z.id, drop_app_length, ReadFull_app. done.
Qed.

(** Everything the reader of a table reads. *)
Lemma reopen_spec e0 wd kvs bs bms file : SSTFooterSize conf = 32 -> table e0 wd kvs bs bms [] file ->
  run_ok kvs -> kvs <> [] ->
  let rd := opened e0 bs bms file in
  ReadFilter conf (NewSSTReader file) = Ret (rd, Ok (btf_of bs bms)) /\
  ReadIndex conf rd = Ret (rd, Ok (table_index e0 bs)) /\
  rd_Size conf rd = (rd, Ok (zlen (data_of bs) + zlen (filter_part bs bms) + zlen (index_part e0 bs))) /\
  ReadData conf (NewSSTReader file) = Ret (rd, Ok kvs) /\ ReadData conf rd = Ret (rd, Ok kvs).
Proof.
  intros Hc Ht Hr Hne rd.
  assert (readFooterLocked conf (NewSSTReader file) = (rd, Ok tt)) as Hfoot by (by eapply readFooter_spec).
  destruct Ht as [Hrun Hbs Hans [Hf Hi] [Hff Hfi] (z & Hz & Efile)]. cbv zeta in *. subst kvs.
  rewrite drop_nil, app_nil_r in Efile. pose proof (data_of_max bs Hr) as Hd. unfold data_max in Hd.
  assert (length bms = length bs) as Hlen by (symmetry; by eapply Forall2_length).
  assert (0 < zlen (data_of bs)) as Hpos.
  { pose proof (data_of_many bs). destruct (mjoin bs) as [| kv l] eqn:E; [done |]. simpl in *. unfold zlen. lia. }
  assert (0 < zlen (index_part e0 bs)) as Hipos by (by apply enc_pos).
  assert (0 < zlen (filter_part bs bms)) as Hfpos.
  { apply enc_pos; [done |]. destruct bs as [| b bs]; [done |]. by destruct bms. }
  unfold maxAlloc in Hf, Hi.
  assert (rd_src rd = file /\ filterOffset rd = zlen (data_of bs) /\ filterSize rd = zlen (filter_part bs bms) /\
          indexOffset rd = zlen (data_of bs) + zlen (filter_part bs bms) /\ indexSize rd = zlen (index_part e0 bs))
    as (Es & E1 & E2 & E3 & E4) by done.
  clearbody rd. rewrite <- Es in Efile.
  assert (readBlockLocked rd 0 (zlen (data_of bs)) = Ret (Ok (data_of bs))) as R0.
  { rewrite <- (zlen_nil Z). eapply read_at; [exact Efile | rewrite zlen_nil; lia | unfold fits, maxAlloc; lia]. }
  assert (readBlockLocked rd (zlen (data_of bs)) (zlen (filter_part bs bms)) = Ret (Ok (filter_part bs bms))) as R1.
  { eapply read_at; [exact Efile | lia | unfold fits, maxAlloc; lia]. }
  assert (readBlockLocked rd (zlen (data_of bs) + zlen (filter_part bs bms)) (zlen (index_part e0 bs)) =
          Ret (Ok (index_part e0 bs))) as R2.
  { rewrite <- zlen_app. eapply read_at; [rewrite Efile, <- app_assoc; reflexivity | rewrite zlen_app; lia |
      unfold fits, maxAlloc; lia]. }
  assert (ReadBlockData (data_of bs) = Ret (Ok (mjoin bs))) as RD.
  { apply (read_data bs [] _ []); [done | by apply run_fits |]. pose proof (data_of_many bs). lia. }
  assert (forall x, 0 < x -> (x =? 0) = false) as Hnz by (intros; apply Z.eqb_neq; lia).
  unfold ReadFilter, ReadIndex, ReadData, read_part, rd_Size. rewrite Hfoot.
  cbn [filterOffset filterSize indexOffset indexSize NewSSTReader Z.eqb orb].
  rewrite E1, E2, E3, E4, !Hnz by lia. cbn [orb]. rewrite ?E1, ?E2, ?E3, ?E4, R0, R1, R2. cbn [mbind outcome_bind].
  rewrite RD, readFilter_enc, readIndex_enc by done. cbn [mbind outcome_bind]. rewrite u64_small by lia. done.
Qed.

(** ** Whole tables *)

(** The separator before the first key is smaller than it, unless its last byte
    is zero. *)
Definition first_key_ok (kvs : list KV) : Prop :=
  match kvs with kv :: _ => exists hd b, Key kv = hd ++ [b] /\ 0 < b < 256 | [] => True end.

Lemma Compare_snoc hd a b : a < b -> hd ++ [a] ≺ hd ++ [b].
Proof.
  intros Hab. induction hd as [| x hd IH]; simpl; [destruct (Z.ltb_spec a b); lia |]. by rewrite Z.ltb_irrefl.
Qed.

Lemma separator_first hd b : 0 < b < 256 ->
  GetSeparatorBetween [] (hd ++ [b]) = Ret (hd ++ [b - 1]) /\ hd ++ [b - 1] ≺ hd ++ [b].
Proof.
  intros Hb. split; [| apply Compare_snoc; lia]. unfold GetSeparatorBetween.
  pose proof (zlen_nonneg hd). assert (zlen (hd ++ [b]) = zlen hd + 1) as Hl by (rewrite zlen_app; done).
  rewrite Hl. destruct (Z.eqb_spec (zlen hd + 1) 0); [lia |]. rewrite zlen_nil. cbn [Z.eqb].
  replace (zlen hd + 1 - 1) with (zlen hd) by lia. rewrite go_slice_ok by lia. cbn [mbind outcome_bind].
  rewrite (go_index_Some _ _ b) by (rewrite zlookup_app_r, Z.sub_diag by lia; done). cbn [mbind outcome_bind].
  rewrite drop_0, Z.sub_0_r. unfold zlen. rewrite Nat2Z.id, take_app_length, u8_small by lia. done.
Qed.

(** Writing a sorted run and making a node of it. *)
Lemma build_spec old f kvs name level seq : SSTFooterSize conf = 32 -> f_rep f [] -> kvs <> [] -> run_ok kvs ->
  sorted kvs -> first_key_ok kvs ->
  exists w1 f1 size btf ix w2 f2 n e0 bs bms,
    w_Appends conf (NewSSTWriter old) f kvs = Ret (w1, f1) /\ Finish conf w1 f1 = Ret (size, btf, ix, w2, f2) /\
    NewNode name (NewSSTReader (fst (w_dest w2))) level seq size btf ix = Ret n /\
    node_of e0 (f_width f) kvs n /\ f_rep f2 [] /\ f_width f2 = f_width f /\
    table e0 (f_width f) kvs bs bms old (fst (w_dest w2)) /\ btf = btf_of bs bms /\ ix = table_index e0 bs /\
    size = zlen (data_of bs) + zlen (filter_part bs bms) + zlen (index_part e0 bs).
Proof.
  intros Hc Hrep Hne Hr Hs Hfirst. destruct kvs as [| kv kvs]; [done |]. destruct Hfirst as (hd & b & Ek & Hb).
  destruct (separator_first hd b Hb) as [Hsep Hlt]. rewrite <- Ek in Hsep, Hlt. set (e0 := hd ++ [b - 1]) in *.
  assert (zlen e0 <= 1099511627776) as He.
  { assert (zlen e0 = zlen (Key kv)) as -> by (rewrite Ek; unfold e0; by rewrite !zlen_app).
    destruct Hr as (_ & Hsz & _). pose proof (kv_size_le (kv :: kvs) kv ltac:(by left)). pose proof (zlen_nonneg (Value kv)). lia. }
  destruct (w_Appends_new old e0 f kv kvs Hrep Hsep) as (w1 & f1 & bs1 & cur & bms1 & E1 & Hw & Ej);
    [unfold fits, maxAlloc; lia | done |].
  rewrite <- Ej in Hr. destruct (Finish_spec old e0 (f_width f) w1 f1 bs1 cur bms1 Hc Hw Hr) as
    (bs & bms & w2 & f2 & E2 & Ht & Hrep2 & Hwd); [unfold data_max; lia |]. rewrite Ej in *.
  assert (exists n, NewNode name (NewSSTReader (fst (w_dest w2))) level seq
            (zlen (data_of bs) + zlen (filter_part bs bms) + zlen (index_part e0 bs)) (btf_of bs bms) (table_index e0 bs) = Ret n /\
            rd_src (n_sstReader n) = fst (w_dest w2) /\ n_index n = table_index e0 bs /\ n_blockToFilter n = btf_of bs bms)
    as (n & En & Hsrc & Hix & Hbtf).
  { unfold NewNode. destruct (zlookup_is_Some (table_index e0 bs) (zlen (table_index e0 bs) - 1)) as [l Hl];
      [unfold table_index; rewrite zlen_cons; pose proof (zlen_nonneg (index_of bs)); lia |].
    cbn [go_index zlookup table_index]. rewrite (go_index_Some _ _ _ Hl). cbn [mbind outcome_bind]. by eexists. }
  exists w1, f1, (zlen (data_of bs) + zlen (filter_part bs bms) + zlen (index_part e0 bs)), (btf_of bs bms), (table_index e0 bs),
    w2, f2, n, e0, bs, bms. split_and!; try done.
  split; [exists bs, bms, old; by rewrite Hsrc | done | done |].
  intros x [-> | Hx]%elem_of_cons; [done |]. inversion_clear Hs as [| ? ? _ HF]. rewrite Forall_forall in HF.
  exact (Compare_trans _ _ _ Hlt (HF x Hx)).
Qed.

(** A table answers like the run it was written from.  Writing any sorted,
    non-empty run whose first key does not end in a zero byte succeeds; [Get] on
    the resulting node, through index, bloom filter, block and record decoding,
    returns for every key, present or absent, what the run holds, whatever the
    shared filter has been used for since. *)
Theorem table_get old f kvs name level seq f' keys' : SSTFooterSize conf = 32 -> f_rep f [] -> kvs <> [] -> run_ok kvs ->
  sorted kvs -> first_key_ok kvs -> f_rep f' keys' -> f_width f' = f_width f ->
  exists w1 f1 size btf ix w2 f2 n,
    w_Appends conf (NewSSTWriter old) f kvs = Ret (w1, f1) /\ Finish conf w1 f1 = Ret (size, btf, ix, w2, f2) /\
    NewNode name (NewSSTReader (fst (w_dest w2))) level seq size btf ix = Ret n /\
    forall key, n_Get n f' key = Ret (Ok (kv_get kvs key)).
Proof.
  intros Hc Hrep Hne Hr Hs Hfirst Hrep' Hw'.
  destruct (build_spec old f kvs name level seq Hc Hrep Hne Hr Hs Hfirst) as
    (w1 & f1 & size & btf & ix & w2 & f2 & n & e0 & bs & bms & E1 & E2 & E3 & Hn & _).
  exists w1, f1, size, btf, ix, w2, f2, n. split; [done |]. split; [done |]. split; [done |].
  intros key. by apply (n_Get_spec e0 (f_width f) kvs n f' keys').
Qed.

(** A table reads back from its file.  A reader that opens the file a writer
    has finished finds in it the filters, the index, the size and all the pairs
    that the writer had, so a restart rebuilds the node. *)
Theorem table_reopens f kvs : SSTFooterSize conf = 32 -> f_rep f [] -> kvs <> [] -> run_ok kvs ->
  sorted kvs -> first_key_ok kvs ->
  exists w1 f1 size btf ix w2 f2 rd,
    w_Appends conf (NewSSTWriter []) f kvs = Ret (w1, f1) /\ Finish conf w1 f1 = Ret (size, btf, ix, w2, f2) /\
    ReadFilter conf (NewSSTReader (fst (w_dest w2))) = Ret (rd, Ok btf) /\ ReadIndex conf rd = Ret (rd, Ok ix) /\
    rd_Size conf rd = (rd, Ok size) /\ ReadData conf rd = Ret (rd, Ok kvs).
Proof.
  intros Hc Hrep Hne Hr Hs Hfirst.
  destruct (build_spec [] f kvs "" 0 0 Hc Hrep Hne Hr Hs Hfirst) as
    (w1 & f1 & size & btf & ix & w2 & f2 & n & e0 & bs & bms & E1 & E2 & _ & _ & _ & _ & Ht & -> & -> & ->).
  destruct (reopen_spec e0 (f_width f) kvs bs bms _ Hc Ht Hr Hne) as (R1 & R2 & R3 & _ & R4). cbv zeta in *.
  eexists w1, f1, _, _, _, w2, f2, _. split_and!; eassumption.
Qed.
End Written.

(** ** Witnesses *)

Definition ex_conf : TableConf := mkTableConf 8 32.
Definition ex_bloom : BloomFilter := mkBloom 64 [].
Definition ex_run : list KV := [mkKV [97] [1]; mkKV [98] [2; 2]; mkKV [98; 99] [3]; mkKV [100] [4]].

Lemma ex_run_ok : run_ok ex_run /\ sorted ex_run /\ first_key_ok ex_run.
Proof.
  split; [split; [by vm_compute |]; split; [by vm_compute | by repeat constructor] |].
  split; [repeat constructor; by vm_compute |]. by exists [], 97.
Qed.

Lemma ex_bloom_rep : f_rep ex_bloom [].
Proof. by split; [split |]. Qed.

Lemma table_get_witness : exists w1 f1 size btf ix w2 f2 n,
  w_Appends ex_conf (NewSSTWriter []) ex_bloom ex_run = Ret (w1, f1) /\
  Finish ex_conf w1 f1 = Ret (size, btf, ix, w2, f2) /\
  NewNode "0_1.sst" (NewSSTReader (fst (w_dest w2))) 0 1 size btf ix = Ret n /\
  forall key, n_Get n ex_bloom key = Ret (Ok (kv_get ex_run key)).
Proof.
  apply (table_get ex_conf [] ex_bloom ex_run "0_1.sst" 0 1 ex_bloom []); try apply ex_run_ok; try apply ex_bloom_rep; done.
Defined.

Lemma table_reopens_witness : exists w1 f1 size btf ix w2 f2 rd,
  w_Appends ex_conf (NewSSTWriter []) ex_bloom ex_run = Ret (w1, f1) /\
  Finish ex_conf w1 f1 = Ret (size, btf, ix, w2, f2) /\
  ReadFilter ex_conf (NewSSTReader (fst (w_dest w2))) = Ret (rd, Ok btf) /\ ReadIndex ex_conf rd = Ret (rd, Ok ix) /\
  rd_Size ex_conf rd = (rd, Ok size) /\ ReadData ex_conf rd = Ret (rd, Ok ex_run).
Proof.
  apply (table_reopens ex_conf ex_bloom ex_run); try apply ex_run_ok; try apply ex_bloom_rep; done.
Defined.

(** Appending a run, finishing the table and asking its node. *)
Definition build_and_get {F} `{Filter F} (conf : TableConf) (f : F) (kvs : list KV) (key : bytes) :
    outcome (result rderr (option bytes)) :=
  r ← w_Appends conf (NewSSTWriter []) f kvs;
  p ← Finish conf (fst r) (snd r);
  let '(size, btf, ix, w, f) := (p : Z * gmap Z bytes * list Index * SSTWriter * F) in
  n ← NewNode "0_1.sst" (NewSSTReader (fst (w_dest w))) 0 1 size btf ix;
  n_Get n f key.

(** The condition on the first key is needed: the separator before a first key
    that ends in a zero byte wraps to 255 and lies after it, so [Get] stops at
    the wrong index entry and does not find a key the table holds. *)
Theorem zero_key_lost : build_and_get ex_conf ex_bloom [mkKV [0] [1]] [0] = Ret (Ok None) /\
  build_and_get ex_conf ex_bloom [mkKV [1] [1]] [1] = Ret (Ok (Some [1])).
Proof. by vm_compute. Qed.
