(* ===== verification/LsmNames.v ===== *)
(** * LSM tree: file names

    The names of table and log files: [sstFile], [walFile],
    [walFileToMemTableIndex] of [components/lsm_tree/tree_compact.go] and
    [isSSTFile], [getLevelSeqFromSSTFile] of [tree_restore.go].  The theorems: names
    read back as the numbers they were made of. *)
From stdpp Require Import pretty.
From Stdlib Require Import Ascii.
From S2P Require Import Prelude GoStrings.

(** ** The names of the tree's files; [fmt.Sprintf("%d")] is [pretty]. *)

Definition sstFile (level seq : Z) : string := pretty level +:+ "_" +:+ pretty seq +:+ ".sst".

Definition walFile (memTableIndex : Z) : string := pretty memTableIndex +:+ ".wal".

Definition walFileToMemTableIndex (walFile : string) : Z := fst (Atoi (ReplaceAll_empty walFile ".wal")).

Definition isSSTFile (name : string) : bool :=
  if negb (HasSuffix name ".sst") then false
  else
    let parts := Split "_" (TrimSuffix name ".sst") in
    if negb (length parts =? 2)%nat then false
    else forallb (fun part => snd (Atoi part)) parts.

(** [int32(_seq)] keeps the low 32 bits. *)
Definition getLevelSeqFromSSTFile (file : string) : Z * Z :=
  let arr := Split "_" (ReplaceAll_empty file ".sst") in
  let level := fst (Atoi (default EmptyString (arr !! 0%nat))) in
  let seq := match arr !! 1%nat with Some a => s32 (fst (Atoi a)) | None => 0 end in
  (level, seq).

(** ** Names read back *)

Definition name_range (z : Z) : Prop := 0 <= z < 9223372036854775808.

Lemma walFile_index i : name_range i -> walFileToMemTableIndex (walFile i) = i.
Proof.
  intros Hi. unfold walFileToMemTableIndex, walFile. destruct (pretty_Z_spec i) as (_ & Ha & _); [apply Hi |].
  rewrite erase_plain by (done || (simpl; lia) || by apply digits_plain). by rewrite Atoi_pretty.
Qed.

Lemma walFile_suffix i : HasSuffix (walFile i) ".wal" = true.
Proof. apply HasSuffix_app. Qed.

Lemma sstFile_parts level seq : sstFile level seq = (pretty level +:+ "_" +:+ pretty seq) +:+ ".sst".
Proof. unfold sstFile. by rewrite !string_app_assoc. Qed.

Lemma sstFile_is level seq : name_range level -> name_range seq -> isSSTFile (sstFile level seq) = true.
Proof.
  intros Hl Hs. unfold isSSTFile. rewrite sstFile_parts, HasSuffix_app, TrimSuffix_app. cbn [negb].
  destruct (pretty_Z_spec level) as (_ & Ha & _); [apply Hl |]. destruct (pretty_Z_spec seq) as (_ & Hb & _); [apply Hs |].
  rewrite (Split_digits _ (pretty seq)) by done. rewrite Split_all_digits by done. simpl. by rewrite !Atoi_pretty.
Qed.

Lemma sstFile_level_seq level seq : name_range level -> 0 <= seq < 2147483648 ->
  getLevelSeqFromSSTFile (sstFile level seq) = (level, seq).
Proof.
  intros Hl Hs. unfold getLevelSeqFromSSTFile. rewrite sstFile_parts.
  destruct (pretty_Z_spec level) as (_ & Ha & _); [apply Hl |]. destruct (pretty_Z_spec seq) as (_ & Hb & _); [lia |].
  rewrite erase_plain; [| | done | simpl; lia].
  2: { apply all_plain_app; [by apply digits_plain |]. split; [done |]. by apply digits_plain. }
  rewrite (Split_digits _ (pretty seq)) by done. rewrite Split_all_digits by done. simpl.
  rewrite Atoi_pretty by done. rewrite Atoi_pretty by lia. simpl. by rewrite s32_small by lia.
Qed.
