(* ===== verification/LsmTree.v ===== *)
(** * LSM tree: the tree

    [components/lsm_tree]: [config.go], [tree.go], [tree_compact.go],
    [tree_restore.go] and [WALReader.RestoreToMemtable] of [wal/reader.go].

    The disk is a directory of tables and a directory of logs; opening, reading
    and writing files does what POSIX says and fails only on a missing file or on
    a directory, except for a log write, which may be cut short.  A reader keeps
    the bytes its file had when it was opened: the tree never writes to a file
    twice.  The goroutines that offer a memtable or a level to the compactor are
    the pending requests [t_memC] and [t_levelC]; the compactor takes any of them.
    Memtables and nodes carry the address the source compares them by. *)
From S2P Require Import Prelude LsmCodec LsmFilter LsmKeys LsmTable GoStrings LsmNames.

(** ** The disk *)

Inductive dirent := EDir | EFile (b : bytes).
Abbreviation dir := (gmap string dirent).

Record disk := mkDisk { d_sst : dir; d_wal : dir }.

Inductive treeerr := NotExist | IsDirectory | ReadErr (e : rderr) | LogErr (e : ioerr).

(** [os.ReadDir]: the entries by file name. *)
Definition ReadDir (d : dir) : list (string * dirent) := merge_sort (fun a b => String.le a.1 b.1) (map_to_list d).

(** [os.OpenFile] to read, and to write creating the file: its bytes. *)
Definition open_read (d : dir) (name : string) : result treeerr bytes :=
  match d !! name with Some (EFile b) => Ok b | Some EDir => Err IsDirectory | None => Err NotExist end.

Definition open_write (d : dir) (name : string) : result treeerr bytes :=
  match d !! name with Some (EFile b) => Ok b | Some EDir => Err IsDirectory | None => Ok [] end.

(** [os.Remove]; the directories of the tree are not empty or not its own. *)
Definition os_Remove (d : dir) (name : string) : dir :=
  match d !! name with Some (EFile _) => delete name d | _ => d end.

Section Tree.
Context {F M : Type} `{Filter F} `{MemTable M}.

(** ** config.go *)

(** A field that is [nil] is [None]; [Dir] is the disk. *)
Record Config := mkConfig {
  MaxLevel : Z;
  SSTSize : Z;
  SSTNumPerLevel : Z;
  c_DataBlockSize : Z;
  c_FooterSize : Z;
  c_Filter : option F;
  c_MemTableConstructor : option M
}.

Definition WithMaxLevel (maxLevel : Z) (c : Config) : Config :=
  mkConfig maxLevel (SSTSize c) (SSTNumPerLevel c) (c_DataBlockSize c) (c_FooterSize c) (c_Filter c) (c_MemTableConstructor c).
Definition WithSSTSize (sstSize : Z) (c : Config) : Config :=
  mkConfig (MaxLevel c) sstSize (SSTNumPerLevel c) (c_DataBlockSize c) (c_FooterSize c) (c_Filter c) (c_MemTableConstructor c).
Definition WithSSTDataBlockSize (sstDataBlockSize : Z) (c : Config) : Config :=
  mkConfig (MaxLevel c) (SSTSize c) (SSTNumPerLevel c) sstDataBlockSize (c_FooterSize c) (c_Filter c) (c_MemTableConstructor c).
Definition WithSSTNumPerLevel (sstNumPerLevel : Z) (c : Config) : Config :=
  mkConfig (MaxLevel c) (SSTSize c) sstNumPerLevel (c_DataBlockSize c) (c_FooterSize c) (c_Filter c) (c_MemTableConstructor c).
Definition WithFilter (filter : F) (c : Config) : Config :=
  mkConfig (MaxLevel c) (SSTSize c) (SSTNumPerLevel c) (c_DataBlockSize c) (c_FooterSize c) (Some filter) (c_MemTableConstructor c).
Definition WithMemtableConstructor (m : M) (c : Config) : Config :=
  mkConfig (MaxLevel c) (SSTSize c) (SSTNumPerLevel c) (c_DataBlockSize c) (c_FooterSize c) (c_Filter c) (Some m).

(** The filter and the memtable that [repair] falls back to are arguments. *)
Definition repair (bloom : F) (skiplist : M) (c : Config) : Config :=
  mkConfig
    (if MaxLevel c <=? 1 then 7 else MaxLevel c)
    (if SSTSize c <=? 0 then 1024 * 1024 else SSTSize c)
    (if SSTNumPerLevel c <=? 0 then 10 else SSTNumPerLevel c)
    (if c_DataBlockSize c <=? 0 then 16 * 1024 else c_DataBlockSize c)
    (c_FooterSize c)
    (Some (default bloom (c_Filter c)))
    (Some (default skiplist (c_MemTableConstructor c))).

(** The directories that [check] makes are part of the disk. *)
Definition NewConfig (bloom : F) (skiplist : M) (opts : list (Config -> Config)) : Config :=
  repair bloom skiplist (foldl (fun c opt => opt c) (mkConfig 0 0 0 0 32 None None) opts).

(** ** tree.go: the state *)

Record memTableCompactItem := mkItem { it_walFile : string; it_addr : Z; it_memTable : M }.

(** A node and its address. *)
Record pnode := mkPnode { pn_addr : Z; pn_node : Node }.

Record Tree := mkTree {
  t_disk : disk;
  t_filter : F;
  t_memTable : M;
  t_memAddr : Z;
  t_rOnly : list memTableCompactItem;
  t_wal : option string;
  t_nodes : list (list pnode);
  t_memTableIndex : Z;
  t_levelToSeq : list Z;
  t_next : Z;
  t_memC : list memTableCompactItem;
  t_levelC : list Z
}.

Context (conf : Config).

Definition table_conf : TableConf := mkTableConf (c_DataBlockSize conf) (c_FooterSize conf).

Definition new_memtable : outcome M :=
  match c_MemTableConstructor conf with Some m => Ret m | None => Panic "nil constructor" end.

Definition set_disk (t : Tree) (d : disk) (f : F) : Tree :=
  mkTree d f (t_memTable t) (t_memAddr t) (t_rOnly t) (t_wal t) (t_nodes t) (t_memTableIndex t) (t_levelToSeq t)
    (t_next t) (t_memC t) (t_levelC t).

Definition set_mem (t : Tree) (m : M) (addr : Z) (wal : option string) (index next : Z) : Tree :=
  mkTree (t_disk t) (t_filter t) m addr (t_rOnly t) wal (t_nodes t) index (t_levelToSeq t) next (t_memC t) (t_levelC t).

Definition set_rOnly (t : Tree) (l c : list memTableCompactItem) : Tree :=
  mkTree (t_disk t) (t_filter t) (t_memTable t) (t_memAddr t) l (t_wal t) (t_nodes t) (t_memTableIndex t) (t_levelToSeq t)
    (t_next t) c (t_levelC t).

Definition set_nodes (t : Tree) (nodes : list (list pnode)) (seqs : list Z) (next : Z) (levelC : list Z) : Tree :=
  mkTree (t_disk t) (t_filter t) (t_memTable t) (t_memAddr t) (t_rOnly t) (t_wal t) nodes (t_memTableIndex t) seqs
    next (t_memC t) levelC.

(** [NewWALWriter] on a file: it is created, or kept, for the writer appends. *)
Definition open_wal (t : Tree) (name : string) : result treeerr Tree :=
  match open_write (d_wal (t_disk t)) name with
  | Err e => Err e
  | Ok b => Ok (set_disk t (mkDisk (d_sst (t_disk t)) (<[name := EFile b]> (d_wal (t_disk t)))) (t_filter t))
  end.

Definition newMemTable (t : Tree) : outcome (Tree * result treeerr unit) :=
  let name := walFile (t_memTableIndex t) in
  match open_wal t name with
  | Err e => Ret (t, Err e)
  | Ok t =>
      m ← new_memtable;
      Ret (set_mem t m (t_next t) (Some name) (t_memTableIndex t) (t_next t + 1), Ok tt)
  end.

Definition refreshMemTableLocked (t : Tree) : outcome (Tree * result treeerr unit) :=
  let oldItem := mkItem (walFile (t_memTableIndex t)) (t_memAddr t) (t_memTable t) in
  let t := set_rOnly t (t_rOnly t ++ [oldItem]) (t_memC t ++ [oldItem]) in
  newMemTable (set_mem t (t_memTable t) (t_memAddr t) (t_wal t) (s64 (t_memTableIndex t + 1)) (t_next t)).

(** [written] is how much of the record reaches the log, all when [None].  A log
    that was removed while open takes the record and keeps it from the disk. *)
Definition Put (t : Tree) (key value : bytes) (written : option nat) : outcome (Tree * result treeerr unit) :=
  match t_wal t with
  | None => Panic "nil pointer dereference"
  | Some name =>
      let d := t_disk t in
      r ← wal_Write (match d_wal d !! name with Some (EFile b) => b | _ => [] end) key value written;
      let '(file, err) := (r : bytes * result ioerr unit) in
      let wal := match d_wal d !! name with Some (EFile _) => <[name := EFile file]> (d_wal d) | _ => d_wal d end in
      let t := set_disk t (mkDisk (d_sst d) wal) (t_filter t) in
      match err with
      | Err e => Ret (t, Err (LogErr e))
      | Ok _ =>
          m ← mt_Put (t_memTable t) key value;
          let t := set_mem t m (t_memAddr t) (t_wal t) (t_memTableIndex t) (t_next t) in
          if u64 (Z.quot (s64 (mt_Size m * 5)) 4) <=? SSTSize conf then Ret (t, Ok tt)
          else refreshMemTableLocked t
      end
  end.

(** ** tree.go: Get *)

Fixpoint get_rOnly (items : list memTableCompactItem) (key : bytes) : outcome (option bytes) :=
  match items with
  | [] => Ret None
  | it :: items' =>
      v ← mt_Get (it_memTable it) key;
      match v with Some v => Ret (Some v) | None => get_rOnly items' key end
  end.

(** Under [dataLock]: the memtable, then the read-only ones, newest first. *)
Definition get_memory (t : Tree) (key : bytes) : outcome (option bytes) :=
  v ← mt_Get (t_memTable t) key;
  match v with Some v => Ret (Some v) | None => get_rOnly (rev (t_rOnly t)) key end.

(** A lookup of the tree: the value, absence or an error. *)
Definition answer := result rderr (option bytes).

(** Level 0, newest first. *)
Fixpoint get_nodes (f : F) (nodes : list pnode) (key : bytes) : outcome answer :=
  match nodes with
  | [] => Ret (Ok None)
  | n :: nodes' =>
      v ← n_Get (pn_node n) f key;
      match v with Ok None => get_nodes f nodes' key | _ => Ret v end
  end.

Fixpoint levelBinarySearch (fuel : nat) (nodes : list pnode) (key : bytes) (start end_ : Z) : outcome (option pnode) :=
  match fuel with
  | O => Panic "fuel"
  | S fuel' =>
      if end_ <? start then Ret None
      else
        let mid := start + Z.shiftr (end_ - start) 1 in
        n ← go_index nodes mid;
        if Compare (n_endKey (pn_node n)) key <? 0 then levelBinarySearch fuel' nodes key (mid + 1) end_
        else if 0 <=? Compare (n_startKey (pn_node n)) key then levelBinarySearch fuel' nodes key start (mid - 1)
        else Ret (Some n)
  end.

(** The levels from 1 on. *)
Fixpoint get_levels (f : F) (levels : list (list pnode)) (key : bytes) : outcome answer :=
  match levels with
  | [] => Ret (Ok None)
  | nodes :: levels' =>
      n ← levelBinarySearch (S (length nodes)) nodes key 0 (zlen nodes - 1);
      match n with
      | None => get_levels f levels' key
      | Some n =>
          v ← n_Get (pn_node n) f key;
          match v with Ok None => get_levels f levels' key | _ => Ret v end
      end
  end.

(** Under the level locks: the nodes. *)
Definition get_disk (t : Tree) (key : bytes) : outcome answer :=
  nodes ← go_index (t_nodes t) 0;
  v ← get_nodes (t_filter t) (rev nodes) key;
  match v with Ok None => get_levels (t_filter t) (drop 1 (t_nodes t)) key | _ => Ret v end.

Definition Get (t : Tree) (key : bytes) : outcome answer :=
  v ← get_memory t key;
  match v with Some v => Ret (Ok (Some v)) | None => get_disk t key end.

(** ** tree_compact.go *)

(** [uint64(math.Pow10(n))]: exact up to [n = 19]; past it the conversion of the
    float is the platform's, here that of amd64. *)
Definition Pow10 (n : Z) : Z := if n <? 20 then 10 ^ n else 9223372036854775808.

Definition tryTriggerCompact (t : Tree) (level : Z) : outcome Tree :=
  if level =? zlen (t_nodes t) - 1 then Ret t
  else
    nodes ← go_index (t_nodes t) level;
    let size := foldl (fun s n => u64 (s + n_size (pn_node n))) 0 nodes in
    if size <=? u64 (u64 (SSTSize conf * Pow10 level) * u64 (SSTNumPerLevel conf)) then Ret t
    else Ret (set_nodes t (t_nodes t) (t_levelToSeq t) (t_next t) (t_levelC t ++ [level])).

(** The place after the first node, from position 1 on, whose successor starts
    past the new node. *)
Fixpoint insert_pos (new : Node) (i : nat) (nodes : list pnode) : option nat :=
  match nodes with
  | [] => None
  | n :: nodes' => if Compare (n_endKey new) (n_startKey (pn_node n)) <? 0 then Some i else insert_pos new (S i) nodes'
  end.

Definition insert_node (level : Z) (nodes : list pnode) (new : pnode) : list pnode :=
  if level =? 0 then nodes ++ [new]
  else match insert_pos (pn_node new) 0 (drop 1 nodes) with
    | Some i => take (i + 1) nodes ++ new :: drop (i + 1) nodes
    | None => nodes ++ [new]
    end.

Definition insertNodeWithReader (t : Tree) (rd : SSTReader) (level seq size : Z) (btf : gmap Z bytes) (index : list Index) :
    outcome Tree :=
  _ ← go_index (t_levelToSeq t) level;
  n ← NewNode (sstFile level seq) rd level seq size btf index;
  nodes ← go_index (t_nodes t) level;
  Ret (set_nodes t (<[Z.to_nat level := insert_node level nodes (mkPnode (t_next t) n)]> (t_nodes t))
        (<[Z.to_nat level := seq]> (t_levelToSeq t)) (t_next t + 1) (t_levelC t)).

Definition insertNode (t : Tree) (level seq size : Z) (btf : gmap Z bytes) (index : list Index) : outcome Tree :=
  match open_read (d_sst (t_disk t)) (sstFile level seq) with
  | Err _ => Ret t
  | Ok b => insertNodeWithReader t (NewSSTReader b) level seq size btf index
  end.

(** [NewSSTWriter] on a file: it is created if need be. *)
Definition open_sst (t : Tree) (name : string) : result treeerr (Tree * SSTWriter) :=
  match open_write (d_sst (t_disk t)) name with
  | Err e => Err e
  | Ok b => Ok (set_disk t (mkDisk (<[name := EFile b]> (d_sst (t_disk t))) (d_wal (t_disk t))) (t_filter t), NewSSTWriter b)
  end.

(** [sstWriter.Finish] with the file's bytes reaching the disk, then [insertNode]. *)
Definition finish_table (t : Tree) (w : SSTWriter) (level seq : Z) : outcome Tree :=
  r ← Finish table_conf w (t_filter t);
  let '(size, btf, index, w, f) := (r : Z * gmap Z bytes * list Index * SSTWriter * F) in
  let t := set_disk t (mkDisk (<[sstFile level seq := EFile (fst (w_dest w))]> (d_sst (t_disk t))) (d_wal (t_disk t))) f in
  insertNode t level seq size btf index.

Definition flushMemTable (t : Tree) (m : M) : outcome (Tree * result treeerr unit) :=
  s ← go_index (t_levelToSeq t) 0;
  let seq := s32 (s + 1) in
  match open_sst t (sstFile 0 seq) with
  | Err e => Ret (t, Err e)
  | Ok (t, w) =>
      kvs ← mt_All m;
      r ← w_Appends table_conf w (t_filter t) kvs;
      t ← finish_table (set_disk t (t_disk t) (snd r)) (fst r) 0 seq;
      t ← tryTriggerCompact t 0;
      Ret (t, Ok tt)
  end.

(** [rOnlyMemTable[i+1:]] at the first item with the memtable. *)
Fixpoint after_item (addr : Z) (items : list memTableCompactItem) : option (list memTableCompactItem) :=
  match items with
  | [] => None
  | it :: items' => if it_addr it =? addr then Some items' else after_item addr items'
  end.

Definition compactMemTable (t : Tree) (it : memTableCompactItem) : outcome Tree :=
  r ← flushMemTable t (it_memTable it);
  let '(t, err) := (r : Tree * result treeerr unit) in
  match err with
  | Err _ => Ret t
  | Ok _ =>
      let t := set_rOnly t (default (t_rOnly t) (after_item (it_addr it) (t_rOnly t))) (t_memC t) in
      Ret (set_disk t (mkDisk (d_sst (t_disk t)) (os_Remove (d_wal (t_disk t)) (it_walFile it))) (t_filter t))
  end.

Definition overlaps (startKey endKey : bytes) (n : pnode) : bool :=
  negb ((Compare endKey (n_startKey (pn_node n)) <? 0) || (0 <? Compare startKey (n_endKey (pn_node n)))).

Definition pickCompactNodes (t : Tree) (level : Z) : outcome (list pnode) :=
  nodes ← go_index (t_nodes t) level;
  n0 ← go_index nodes 0;
  nm ← go_index nodes (Z.shiftr (zlen nodes) 1);
  let startKey := if Compare (n_startKey (pn_node nm)) (n_startKey (pn_node n0)) <? 0
                  then n_startKey (pn_node nm) else n_startKey (pn_node n0) in
  let endKey := if 0 <? Compare (n_endKey (pn_node nm)) (n_endKey (pn_node n0))
                then n_endKey (pn_node nm) else n_endKey (pn_node n0) in
  below ← go_index (t_nodes t) (level + 1);
  Ret (List.filter (overlaps startKey endKey) below ++ List.filter (overlaps startKey endKey) nodes).

Fixpoint put_all (m : M) (kvs : list KV) : outcome M :=
  match kvs with
  | [] => Ret m
  | kv :: kvs' => m ← mt_Put m (Key kv) (Value kv); put_all m kvs'
  end.

(** The error of [GetAll] is dropped, and the pairs with it.  The footer that
    [GetAll] caches in the reader is lost with the picked node. *)
Fixpoint merge_nodes (m : M) (nodes : list pnode) : outcome M :=
  match nodes with
  | [] => Ret m
  | n :: nodes' =>
      r ← GetAll table_conf (pn_node n);
      m ← put_all m (match snd r with Ok kvs => kvs | Err _ => [] end);
      merge_nodes m nodes'
  end.

Definition pickedNodesToKVs (nodes : list pnode) : outcome (list KV) :=
  m ← new_memtable;
  m ← merge_nodes m nodes;
  mt_All m.

Fixpoint remove_addr (addr : Z) (nodes : list pnode) : option (list pnode) :=
  match nodes with
  | [] => None
  | n :: nodes' => if pn_addr n =? addr then Some nodes' else cons n <$> remove_addr addr nodes'
  end.

(** A node is taken out of the lower level if it is there, else out of the upper. *)
Fixpoint unlink (level : Z) (picked : list pnode) (all : list (list pnode)) : outcome (list (list pnode)) :=
  match picked with
  | [] => Ret all
  | n :: picked' =>
      below ← go_index all (level + 1);
      match remove_addr (pn_addr n) below with
      | Some below' => unlink level picked' (<[Z.to_nat (level + 1) := below']> all)
      | None =>
          here ← go_index all level;
          unlink level picked' (match remove_addr (pn_addr n) here with
            | Some here' => <[Z.to_nat level := here']> all | None => all end)
      end
  end.

(** The files of the nodes are removed by a goroutine of their own. *)
Definition removeNodes (t : Tree) (level : Z) (picked : list pnode) : outcome Tree :=
  nodes ← unlink level picked (t_nodes t);
  let sst := foldl (fun d n => os_Remove d (n_file (pn_node n))) (d_sst (t_disk t)) picked in
  Ret (set_disk (set_nodes t nodes (t_levelToSeq t) (t_next t) (t_levelC t)) (mkDisk sst (d_wal (t_disk t))) (t_filter t)).

(** A table that has passed the limit is finished and another one started; [None]
    when its file cannot be opened. *)
Definition next_table (level limit : Z) (t : Tree) (w : SSTWriter) (seq : Z) : outcome (Tree * option (SSTWriter * Z)) :=
  if limit <? w_Size w then
    t ← finish_table t w level seq;
    s ← go_index (t_levelToSeq t) level;
    let seq := s32 (s + 1) in
    Ret match open_sst t (sstFile level seq) with Err _ => (t, None) | Ok (t, w) => (t, Some (w, seq)) end
  else Ret (t, Some (w, seq)).

(** The loop of [compactLevel]; whether it came to its end. *)
Fixpoint compact_loop (level limit : Z) (kvs : list KV) (t : Tree) (w : SSTWriter) (seq : Z) : outcome (Tree * bool) :=
  match kvs with
  | [] => Ret (t, true)
  | kv :: kvs' =>
      x ← next_table level limit t w seq;
      match x with
      | (t, None) => Ret (t, false)
      | (t, Some (w, seq)) =>
          r ← w_Append table_conf w (t_filter t) (Key kv) (Value kv);
          let t := set_disk t (t_disk t) (snd r) in
          t ← (if (length kvs' =? 0)%nat then finish_table t (fst r) level seq else Ret t);
          compact_loop level limit kvs' t (fst r) seq
      end
  end.

Definition compactLevel (t : Tree) (level : Z) : outcome Tree :=
  nodes ← go_index (t_nodes t) level;
  if (length nodes =? 0)%nat then Ret t
  else
    picked ← pickCompactNodes t level;
    s ← go_index (t_levelToSeq t) (level + 1);
    let seq := s32 (s + 1) in
    match open_sst t (sstFile (level + 1) seq) with
    | Err _ => Ret t
    | Ok (t, w) =>
        kvs ← pickedNodesToKVs picked;
        r ← compact_loop (level + 1) (u64 (SSTSize conf * Pow10 (level + 1))) kvs t w seq;
        let '(t, done_) := (r : Tree * bool) in
        if negb done_ then Ret t
        else t ← removeNodes t level picked; tryTriggerCompact t (level + 1)
    end.

(** A round of [compact]: a pending memtable or a pending level. *)
Inductive request := MemReq (i : nat) | LevelReq (i : nat).

Definition compact_round (t : Tree) (r : request) : outcome Tree :=
  match r with
  | MemReq i =>
      match t_memC t !! i with
      | Some it => compactMemTable (set_rOnly t (t_rOnly t) (delete i (t_memC t))) it
      | None => Ret t
      end
  | LevelReq i =>
      match t_levelC t !! i with
      | Some level => compactLevel (set_nodes t (t_nodes t) (t_levelToSeq t) (t_next t) (delete i (t_levelC t))) level
      | None => Ret t
      end
  end.

(** ** tree_restore.go *)

Definition is_file (e : string * dirent) : bool := match e.2 with EFile _ => true | EDir => false end.

Definition sst_le (a b : string * dirent) : Prop :=
  let '(levelI, seqI) := getLevelSeqFromSSTFile a.1 in
  let '(levelJ, seqJ) := getLevelSeqFromSSTFile b.1 in
  levelI < levelJ \/ levelI = levelJ /\ seqI <= seqJ.

#[export] Instance sst_le_dec : RelDecision sst_le.
Proof. intros a b. unfold sst_le. destruct (getLevelSeqFromSSTFile a.1), (getLevelSeqFromSSTFile b.1). apply _. Defined.

Definition getSortedSSTEntries (d : dir) : list (string * dirent) :=
  merge_sort sst_le (List.filter (fun e => is_file e && isSSTFile e.1) (ReadDir d)).

Definition loadNode (t : Tree) (name : string) : outcome (Tree * result treeerr unit) :=
  match open_read (d_sst (t_disk t)) name with
  | Err e => Ret (t, Err e)
  | Ok b =>
      r ← ReadFilter table_conf (NewSSTReader b);
      let '(rd, btf) := (r : SSTReader * result rderr (gmap Z bytes)) in
      match btf with
      | Err e => Ret (t, Err (ReadErr e))
      | Ok btf =>
          r ← ReadIndex table_conf rd;
          let '(rd, index) := (r : SSTReader * result rderr (list Index)) in
          match index with
          | Err e => Ret (t, Err (ReadErr e))
          | Ok index =>
              let '(rd, size) := rd_Size table_conf rd in
              match size with
              | Err e => Ret (t, Err (ReadErr e))
              | Ok size =>
                  let '(level, seq) := getLevelSeqFromSSTFile name in
                  t ← insertNodeWithReader t rd level seq size btf index;
                  Ret (t, Ok tt)
              end
          end
      end
  end.

Fixpoint load_nodes (t : Tree) (entries : list (string * dirent)) : outcome (Tree * result treeerr unit) :=
  match entries with
  | [] => Ret (t, Ok tt)
  | e :: entries' =>
      r ← loadNode t e.1;
      match r with (t, Err err) => Ret (t, Err err) | (t, Ok _) => load_nodes t entries' end
  end.

Definition constructTree (t : Tree) : outcome (Tree * result treeerr unit) :=
  load_nodes t (getSortedSSTEntries (d_sst (t_disk t))).

Definition RestoreToMemtable (file : bytes) (m : M) : outcome (result treeerr M) :=
  r ← readAll file;
  match r with
  | Err e => Ret (Err (LogErr e))
  | Ok kvs => m ← put_all m kvs; Ret (Ok m)
  end.

Definition wal_le (a b : string * dirent) : Prop := walFileToMemTableIndex a.1 <= walFileToMemTableIndex b.1.

#[export] Instance wal_le_dec : RelDecision wal_le.
Proof. intros a b. unfold wal_le. apply _. Defined.

(** The loop over the sorted logs: the last becomes the memtable, the others
    are offered to the compactor in turn. *)
Fixpoint restore_loop (t : Tree) (wals : list (string * dirent)) : outcome (Tree * result treeerr unit) :=
  match wals with
  | [] => Ret (t, Ok tt)
  | e :: wals' =>
      match open_read (d_wal (t_disk t)) e.1 with
      | Err err => Ret (t, Err err)
      | Ok b =>
          m ← new_memtable;
          r ← RestoreToMemtable b m;
          match r with
          | Err err => Ret (t, Err err)
          | Ok m =>
              if (length wals' =? 0)%nat then
                let t := set_mem t m (t_next t) (t_wal t) (walFileToMemTableIndex e.1) (t_next t + 1) in
                match open_wal t e.1 with
                | Err err => Ret (set_mem t m (t_memAddr t) None (t_memTableIndex t) (t_next t), Err err)
                | Ok t => Ret (set_mem t m (t_memAddr t) (Some e.1) (t_memTableIndex t) (t_next t), Ok tt)
                end
              else
                let it := mkItem e.1 (t_next t) m in
                let t := set_mem t (t_memTable t) (t_memAddr t) (t_wal t) (t_memTableIndex t) (t_next t + 1) in
                restore_loop (set_rOnly t (t_rOnly t ++ [it]) (t_memC t ++ [it])) wals'
          end
      end
  end.

Definition restoreMemTable (t : Tree) (wals : list (string * dirent)) : outcome (Tree * result treeerr unit) :=
  restore_loop t (merge_sort wal_le wals).

Definition constructMemtable (t : Tree) : outcome (Tree * result treeerr unit) :=
  let wals := List.filter (fun e => is_file e && HasSuffix e.1 ".wal") (ReadDir (d_wal (t_disk t))) in
  if (length wals =? 0)%nat then newMemTable t else restoreMemTable t wals.

(** ** NewTree: the memtable is [nil] until [constructMemtable] has set it; [m0]
    stands for it. *)
Definition empty_tree (d : disk) (f : F) (m0 : M) : Tree :=
  let n := Z.to_nat (MaxLevel conf) in
  mkTree d f m0 0 [] None (replicate n []) 0 (replicate n 0) 1 [] [].

Definition NewTree (d : disk) : outcome (result treeerr Tree) :=
  match c_Filter conf, c_MemTableConstructor conf with
  | Some f, Some m0 =>
      r ← constructTree (empty_tree d f m0);
      match r with
      | (_, Err e) => Ret (Err e)
      | (t, Ok _) =>
          r ← constructMemtable t;
          match r with (_, Err e) => Ret (Err e) | (t, Ok _) => Ret (Ok t) end
      end
  | _, _ => Panic "nil pointer dereference"
  end.
End Tree.
