(* ===== verification/LsmTreeProof.v ===== *)
(** * LSM tree: theorems

    Lookups of the tree against the runs its parts hold: [Put] is an insertion,
    flushing the oldest memtable changes no answer, and reopening the disk gives
    every write back.  Histories of writes, flushes and restarts refine a map. *)
From S2P Require Import Prelude GoSort LsmCodec LsmFilter LsmKeys LsmTable LsmTableProof GoStrings LsmNames LsmTree.

(** ** Sequences of puts *)

Definition run_of (puts : list KV) : list KV := foldl (fun l kv => kv_put l (Key kv) (Value kv)) [] puts.

Lemma run_of_snoc puts kv : run_of (puts ++ [kv]) = kv_put (run_of puts) (Key kv) (Value kv).
Proof. unfold run_of. by rewrite foldl_app. Qed.

Lemma run_of_sorted puts : sorted (run_of puts).
Proof.
  induction puts as [| kv puts IH] using rev_ind; [constructor |]. rewrite run_of_snoc. by apply kv_put_sorted.
Qed.

Lemma run_of_elem puts kv : kv ∈ run_of puts -> kv ∈ puts.
Proof.
  induction puts as [| x puts IH] using rev_ind; [done |]. rewrite run_of_snoc, elem_of_app, list_elem_of_singleton.
  intros [-> | Hin]%kv_put_keys; [right; by destruct x | auto].
Qed.

Lemma kv_put_size l key value : kv_size (kv_put l key value) <= kv_size l + zlen key + zlen value.
Proof.
  induction l as [| kv l IH]; simpl; [lia |].
  pose proof (zlen_nonneg (Value kv)). pose proof (zlen_nonneg (Key kv)).
  destruct (decide (Key kv = key)) as [<- |]; simpl; [lia |]. destruct (Compare (Key kv) key <? 0); simpl; lia.
Qed.

Lemma kv_put_ne l key value : kv_put l key value <> [].
Proof. destruct l as [| kv l]; simpl; [done |]. destruct (decide _); [done |]. by destruct (_ <? _). Qed.

(** Keys do not end in a zero byte, and pairs have at most 2^22 bytes. *)
Definition key_ok (key : bytes) : Prop := exists hd b, key = hd ++ [b] /\ 0 < b < 256.
Definition pair_max : Z := 4194304.
Definition kv_ok (kv : KV) : Prop := key_ok (Key kv) /\ zlen (Key kv) + zlen (Value kv) <= pair_max.

Lemma kv_ok_fits kv : kv_ok kv -> kv_fits kv.
Proof.
  intros [_ Hs]. pose proof (zlen_nonneg (Key kv)). pose proof (zlen_nonneg (Value kv)).
  unfold pair_max in Hs. unfold kv_fits, fits, maxAlloc. lia.
Qed.

Lemma key_ok_pos key : key_ok key -> 0 < zlen key.
Proof. intros (hd & b & -> & _). rewrite zlen_app, zlen_cons, zlen_nil. pose proof (zlen_nonneg hd). lia. Qed.

(** A run of such pairs has at most as many of them as bytes. *)
Lemma run_of_count puts : Forall kv_ok puts -> zlen (run_of puts) <= kv_size (run_of puts).
Proof.
  intros Hp. assert (Forall (fun kv => key_ok (Key kv)) (run_of puts)) as HF.
  { apply Forall_forall. intros kv Hin%run_of_elem. rewrite Forall_forall in Hp. by apply Hp. }
  induction HF as [| kv l Hk HF IH]; [done |]. rewrite zlen_cons. simpl. apply key_ok_pos in Hk.
  pose proof (zlen_nonneg (Value kv)). lia.
Qed.

Lemma run_of_ok puts : Forall kv_ok puts -> kv_size (run_of puts) <= 16777216 -> run_ok (run_of puts).
Proof.
  intros Hp Hs. pose proof (run_of_count puts Hp). split_and!; [lia | lia |].
  apply Forall_forall. intros kv Hin%run_of_elem. rewrite Forall_forall in Hp. destruct (Hp kv Hin) as [(hd & b & -> & _) _].
  by destruct hd.
Qed.

Lemma run_of_first puts : Forall kv_ok puts -> first_key_ok (run_of puts).
Proof.
  intros Hp. unfold first_key_ok. destruct (run_of puts) as [| kv l] eqn:E; [done |].
  assert (kv ∈ puts) as Hin by (apply run_of_elem; rewrite E; by left). rewrite Forall_forall in Hp. by apply Hp.
Qed.

(** ** Lookup in a stack of runs, newest first *)

Fixpoint first_get (runs : list (list KV)) (key : bytes) : option bytes :=
  match runs with
  | [] => None
  | l :: runs' => match kv_get l key with Some v => Some v | None => first_get runs' key end
  end.

Lemma first_get_app rs qs key : first_get (rs ++ qs) key = match first_get rs key with Some v => Some v | None => first_get qs key end.
Proof. induction rs as [| l rs IH]; simpl; [done |]. by destruct (kv_get l key). Qed.

Lemma foldl_put_get l kvs key : sorted kvs ->
  kv_get (foldl (fun l kv => kv_put l (Key kv) (Value kv)) l kvs) key =
    match kv_get kvs key with Some v => Some v | None => kv_get l key end.
Proof.
  intros Hs. revert l. induction Hs as [| kv kvs Hs IH Hkv]; intros l; cbn [foldl kv_get]; [done |].
  rewrite IH, kv_get_put. destruct (decide (Key kv = key)) as [<- |]; [| done].
  assert (kv_get kvs (Key kv) = None) as ->; [| done]. apply kv_get_None. intros (x & Ex & Hx)%list_elem_of_fmap.
  rewrite Forall_forall in Hkv. specialize (Hkv x Hx). unfold klt in Hkv. rewrite Ex in Hkv. border.
Qed.

(** Runs put one after another: the last with a key has the say. *)
Lemma run_of_join runs key : Forall (fun r => sorted r) runs -> kv_get (run_of (mjoin runs)) key = first_get (rev runs) key.
Proof.
  intros Hs. unfold run_of. induction runs as [| r runs IH] using rev_ind; [done |].
  apply Forall_app in Hs as [Hs Hr]. inversion Hr as [| ? ? Hr' _]; subst. rewrite join_app, foldl_app, rev_app_distr.
  change (mjoin [r]) with (r ++ []). rewrite app_nil_r, foldl_put_get by done. cbn [rev app first_get].
  destruct (kv_get r key); [done |]. by apply IH.
Qed.

Lemma run_of_bounds puts : zlen (run_of puts) <= zlen puts /\ kv_size (run_of puts) <= kv_size puts.
Proof.
  induction puts as [| kv puts [IH1 IH2]] using rev_ind; [done |]. rewrite run_of_snoc, zlen_app, kv_size_app, zlen_cons, zlen_nil.
  pose proof (kv_put_size (run_of puts) (Key kv) (Value kv)). simpl. split; [| lia].
  assert (zlen (kv_put (run_of puts) (Key kv) (Value kv)) <= zlen (run_of puts) + 1); [| lia].
  generalize (run_of puts). intros l. induction l as [| x l IHl]; cbn [kv_put]; [done |].
  destruct (decide _); [rewrite !zlen_cons; lia |]. destruct (_ <? _); rewrite !zlen_cons in *; lia.
Qed.

Lemma Forall2_rev' {A B} (P : A -> B -> Prop) l k : Forall2 P l k -> Forall2 P (rev l) (rev k).
Proof. induction 1 as [| x y l k Hxy HF IH]; simpl; [constructor |]. apply Forall2_app; [done | by repeat constructor]. Qed.

Section TreeProof.
Context {F M : Type} `{FilterLaws F} `{MemTableLaws M}.
Context (conf : @Config F M).

(** A node of a table with run [kvs], under filters of width [wd]. *)
Definition node_run (wd : Z) (n : pnode) (kvs : list KV) : Prop := kvs <> [] /\ exists e0, node_of e0 wd kvs (pn_node n).

Lemma node_run_get wd n kvs f keys key : node_run wd n kvs -> f_rep f keys -> f_width f = wd ->
  n_Get (pn_node n) f key = Ret (Ok (kv_get kvs key)).
Proof. intros [Hne [e0 Hn]] Hr Hw. by eapply n_Get_spec. Qed.

Lemma get_nodes_spec wd f keys ns runs key : f_rep f keys -> f_width f = wd -> Forall2 (node_run wd) ns runs ->
  get_nodes f ns key = Ret (Ok (first_get runs key)).
Proof.
  intros Hr Hw HF. induction HF as [| n l ns runs Hn HF IH]; simpl; [done |].
  rewrite (node_run_get wd n l f keys) by done. cbn [mbind outcome_bind]. by destruct (kv_get l key).
Qed.

Definition item_run (it : memTableCompactItem) (l : list KV) : Prop := mt_rep (it_memTable it) l.

Lemma get_rOnly_spec its runs key : Forall2 item_run its runs -> get_rOnly its key = Ret (first_get runs key).
Proof.
  intros HF. induction HF as [| it l its runs Hn HF IH]; simpl; [done |].
  rewrite (mt_Get_rep _ l) by done. cbn [mbind outcome_bind]. by destruct (kv_get l key).
Qed.

(** The search for a node in a level returns, whatever the nodes. *)
Lemma levelBinarySearch_returns nodes key fuel start end_ : 0 <= start -> start <= end_ + 1 -> end_ < zlen nodes ->
  end_ - start + 1 < Z.of_nat fuel -> exists o, levelBinarySearch fuel nodes key start end_ = Ret o /\ (forall n, o = Some n -> n ∈ nodes).
Proof.
  revert start end_. induction fuel as [| fuel IH]; intros start end_ Hs Hse He Hf; cbn [levelBinarySearch]; [lia |].
  destruct (Z.ltb_spec end_ start); [by exists None |].
  rewrite Z.shiftr_div_pow2 by done. change (2 ^ 1) with 2.
  pose proof (Z.div_mod (end_ - start) 2 ltac:(lia)). pose proof (Z.mod_pos_bound (end_ - start) 2 ltac:(lia)).
  set (mid := start + (end_ - start) / 2) in *.
  destruct (zlookup_is_Some nodes mid) as [n Hn]; [lia |]. rewrite (go_index_Some _ _ _ Hn). cbn [mbind outcome_bind].
  destruct (_ <? _); [apply IH; lia |]. destruct (_ <=? _); [apply IH; lia |].
  exists (Some n). split; [done |]. intros ? [= <-]. unfold zlookup in Hn. zcase_in Hn; [done |].
  by eapply list_elem_of_lookup_2.
Qed.

(** ** Put *)

Definition no_dirs (d : dir) : Prop := forall name, d !! name <> Some EDir.

(** What the log of the tree holds, and the disk with a record added to it. *)
Definition log_bytes (t : @Tree F M) (name : string) : bytes :=
  match d_wal (t_disk t) !! name with Some (EFile b) => b | _ => [] end.

Definition with_log (t : @Tree F M) (name : string) (file : bytes) : disk :=
  let d := t_disk t in
  mkDisk (d_sst d) match d_wal d !! name with Some (EFile _) => <[name := EFile file]> (d_wal d) | _ => d_wal d end.

(** The tree after a write that stays in the memtable, and after the rotation that
    follows one that makes it too large. *)
Definition put_in (t : @Tree F M) (m : M) (name : string) (kv : KV) : Tree :=
  set_mem (set_disk t (with_log t name (log_bytes t name ++ wal_bytes kv)) (t_filter t)) m (t_memAddr t) (t_wal t)
    (t_memTableIndex t) (t_next t).

Definition rotated (t : @Tree F M) (m0 : M) : Tree :=
  let it := mkItem (walFile (t_memTableIndex t)) (t_memAddr t) (t_memTable t) in
  let index := s64 (t_memTableIndex t + 1) in
  let wal := d_wal (t_disk t) in
  mkTree (mkDisk (d_sst (t_disk t))
            (<[walFile index := EFile match wal !! walFile index with Some (EFile b) => b | _ => [] end]> wal))
    (t_filter t) m0 (t_next t) (t_rOnly t ++ [it]) (Some (walFile index)) (t_nodes t) index (t_levelToSeq t)
    (t_next t + 1) (t_memC t ++ [it]) (t_levelC t).

Lemma refresh_spec t m0 : c_MemTableConstructor conf = Some m0 -> no_dirs (d_wal (t_disk t)) ->
  refreshMemTableLocked conf t = Ret (rotated t m0, Ok tt).
Proof.
  intros Hm Hd. unfold refreshMemTableLocked, newMemTable, open_wal, open_write, new_memtable. cbn -[s64 walFile].
  specialize (Hd (walFile (s64 (t_memTableIndex t + 1)))). rewrite Hm. unfold rotated.
  destruct (d_wal (t_disk t) !! walFile (s64 (t_memTableIndex t + 1))) as [[| b] |]; [done | |]; done.
Qed.

Lemma with_log_no_dirs t name file : no_dirs (d_wal (t_disk t)) -> no_dirs (d_wal (with_log t name file)).
Proof.
  intros Hd x. unfold with_log. cbn [d_wal]. destruct (d_wal (t_disk t) !! name) as [[|] |]; [apply Hd | | apply Hd].
  destruct (decide (name = x)) as [-> |]; [by rewrite lookup_insert_eq | rewrite lookup_insert_ne by done; apply Hd].
Qed.

Lemma tree_Put_spec t m0 name mem key value : c_MemTableConstructor conf = Some m0 -> no_dirs (d_wal (t_disk t)) ->
  t_wal t = Some name -> mt_rep (t_memTable t) mem -> kv_fits (mkKV key value) ->
  exists m, mt_rep m (kv_put mem key value) /\
    Put conf t key value None =
      Ret (if u64 (Z.quot (s64 (kv_size (kv_put mem key value) * 5)) 4) <=? SSTSize conf
           then put_in t m name (mkKV key value) else rotated (put_in t m name (mkKV key value)) m0, Ok tt).
Proof.
  intros Hm Hd Hw Hr Hkv. destruct (mt_Put_rep _ _ key value Hr) as (m & Em & Hrm). exists m. split; [done |].
  unfold Put. rewrite Hw. unfold wal_Write. pose proof (wal_record_spec _ Hkv) as E. cbn [Key Value] in E. rewrite E.
  cbn [mbind outcome_bind set_disk t_memTable]. rewrite Em. cbn [mbind outcome_bind]. rewrite (mt_Size_rep _ _ Hrm).
  fold (log_bytes t name). change (set_mem (set_disk t _ _) m _ _ _ _) with (put_in t m name (mkKV key value)).
  destruct (_ <=? _); [done |]. apply refresh_spec; [done |]. by apply with_log_no_dirs.
Qed.

(** The memory of a tree as runs, newest first. *)
Definition memory (t : @Tree F M) (mem : list KV) (ro : list (list KV)) : Prop :=
  mt_rep (t_memTable t) mem /\ Forall2 item_run (t_rOnly t) ro.

Lemma get_memory_spec t mem ro key : memory t mem ro -> get_memory t key = Ret (first_get (mem :: rev ro) key).
Proof.
  intros [Hm Hr]. unfold get_memory. rewrite (mt_Get_rep _ mem) by done. cbn [mbind outcome_bind first_get].
  destruct (kv_get mem key); [done |]. apply get_rOnly_spec. by apply Forall2_rev'.
Qed.

Lemma Get_memory t mem ro key : memory t mem ro ->
  Get t key = match first_get (mem :: rev ro) key with Some v => Ret (Ok (Some v)) | None => get_disk t key end.
Proof. intros Hm. unfold Get. rewrite (get_memory_spec t mem ro) by done. done. Qed.

(** Put then Get.  In any state with a log, whatever its levels hold, a write
    of any pair that fits memory succeeds, also when it makes the memtable full
    and another takes its place; after it [Get] of that key returns its value, and
    [Get] of any other key what it returned before. *)
Theorem put_get t m0 name mem ro key value : c_MemTableConstructor conf = Some m0 -> mt_rep m0 [] ->
  no_dirs (d_wal (t_disk t)) -> t_wal t = Some name -> memory t mem ro -> kv_fits (mkKV key value) ->
  exists t', Put conf t key value None = Ret (t', Ok tt) /\
    forall k, Get t' k = if decide (key = k) then Ret (Ok (Some value)) else Get t k.
Proof.
  intros Hm Hm0 Hd Hw Hmem Hkv. destruct (tree_Put_spec t m0 name mem key value Hm Hd Hw (proj1 Hmem) Hkv) as (m & Hr & E).
  eexists. split; [exact E |]. intros k. rewrite (Get_memory t mem ro k Hmem).
  destruct (_ <=? _).
  - rewrite (Get_memory _ (kv_put mem key value) ro k) by (split; [done | apply Hmem]).
    cbn [first_get]. rewrite kv_get_put. by destruct (decide (key = k)).
  - rewrite (Get_memory _ [] (ro ++ [kv_put mem key value]) k).
    2: { split; [done |]. apply Forall2_app; [apply Hmem | by repeat constructor]. }
    rewrite rev_app_distr. cbn [first_get kv_get rev app]. rewrite kv_get_put. by destruct (decide (key = k)).
Qed.

(** ** Flushing *)

(** Every node of the levels is one of a table. *)
Definition good_nodes (wd : Z) (ns : list pnode) : Prop := Forall (fun n => exists kvs, node_run wd n kvs) ns.

Lemma get_levels_filter wd f f' keys keys' levels key : f_rep f keys -> f_width f = wd -> f_rep f' keys' -> f_width f' = wd ->
  Forall (good_nodes wd) levels -> get_levels f levels key = get_levels f' levels key.
Proof.
  intros Hr Hw Hr' Hw' HF. induction HF as [| ns levels Hns HF IH]; cbn [get_levels]; [done |].
  pose proof (zlen_nonneg ns).
  destruct (levelBinarySearch_returns ns key (S (length ns)) 0 (zlen ns - 1)) as (o & -> & Ho); [lia | lia | lia | unfold zlen; lia |].
  cbn [mbind outcome_bind]. destruct o as [n |]; [| done].
  unfold good_nodes in Hns. rewrite Forall_forall in Hns. destruct (Hns n (Ho n eq_refl)) as [kvs Hn].
  rewrite (node_run_get wd n kvs f keys), (node_run_get wd n kvs f' keys') by done. cbn [mbind outcome_bind].
  by destruct (kv_get kvs key).
Qed.

Lemma tryTriggerCompact_spec t : t_nodes t <> [] ->
  exists c, tryTriggerCompact conf t 0 = Ret (set_nodes t (t_nodes t) (t_levelToSeq t) (t_next t) c).
Proof.
  intros Hn. unfold tryTriggerCompact. destruct t as [d f m a ro w ns ix sq nx mc lc]. cbn [t_nodes t_levelC t_levelToSeq t_next] in *.
  destruct (0 =? zlen ns - 1); [by exists lc |]. destruct ns as [| n0 ns]; [done |].
  change (go_index (n0 :: ns) 0) with (Ret n0). cbn [mbind outcome_bind]. case_match; eexists; reflexivity.
Qed.

(** The tree with a table added to level 0. *)
Definition flushed (t : @Tree F M) (seq : Z) (file : bytes) (f : F) (n : Node) (c : list Z) : Tree :=
  mkTree (mkDisk (<[sstFile 0 seq := EFile file]> (d_sst (t_disk t))) (d_wal (t_disk t))) f (t_memTable t) (t_memAddr t)
    (t_rOnly t) (t_wal t)
    match t_nodes t with ns :: rest => (ns ++ [mkPnode (t_next t) n]) :: rest | [] => [] end
    (t_memTableIndex t) match t_levelToSeq t with _ :: rest => seq :: rest | [] => [] end (t_next t + 1) (t_memC t) c.

Lemma flush_spec t m kvs s old : c_FooterSize conf = 32 -> mt_rep m kvs -> kvs <> [] -> run_ok kvs -> first_key_ok kvs ->
  f_rep (t_filter t) [] -> t_nodes t <> [] -> head (t_levelToSeq t) = Some s ->
  open_write (d_sst (t_disk t)) (sstFile 0 (s32 (s + 1))) = Ok old ->
  exists e0 bs bms file f n c, flushMemTable conf t m = Ret (flushed t (s32 (s + 1)) file f n c, Ok tt) /\
    table e0 (f_width (t_filter t)) kvs bs bms old file /\ node_of e0 (f_width (t_filter t)) kvs n /\
    f_rep f [] /\ f_width f = f_width (t_filter t) /\ (forall kv, kv ∈ kvs -> e0 ≺ Key kv).
Proof.
  intros Hfoot Hm Hne Hr Hfirst Hf Hns Hs Hopen. set (seq := s32 (s + 1)) in *.
  destruct (build_spec (table_conf conf) old (t_filter t) kvs (sstFile 0 seq) 0 seq) as
    (w1 & f1 & size & btf & ix & w2 & f2 & n & e0 & bs & bms & E1 & E2 & E3 & Hn & Hf2 & Hw2 & Ht & _);
    [done | done | done | done | by eapply mt_sorted | done |].
  destruct t as [d f mt a ro w ns mi sq nx mc lc]. cbn in Hf, Hns, Hs, Hopen. destruct ns as [| n0 ns]; [done |]. destruct sq as [| s0 sq]; [done |].
  injection Hs as ->. destruct (tryTriggerCompact_spec (mkTree
    (mkDisk (<[sstFile 0 seq := EFile (fst (w_dest w2))]> (<[sstFile 0 seq := EFile old]> (d_sst d))) (d_wal d)) f2 mt a ro w
    ((n0 ++ [mkPnode nx n]) :: ns) mi (seq :: sq) (nx + 1) mc lc)) as [c Ec]; [done |].
  exists e0, bs, bms, (fst (w_dest w2)), f2, n, c. split; [| split_and!; try done; apply Hn].
  unfold flushMemTable. cbn [t_levelToSeq]. change (go_index (s :: sq) 0) with (Ret s). cbn [mbind outcome_bind]. fold seq.
  unfold open_sst. cbn [t_disk]. rewrite Hopen. rewrite (mt_All_rep _ _ Hm). cbn [mbind outcome_bind set_disk t_filter].
  cbn [t_filter] in E1. rewrite E1. cbn [mbind outcome_bind fst snd]. unfold finish_table. cbn [set_disk t_filter t_disk d_sst d_wal].
  rewrite E2. cbn [mbind outcome_bind]. unfold insertNode, open_read. unfold set_disk. cbn [t_disk d_sst]. rewrite lookup_insert_eq.
  unfold insertNodeWithReader. cbn [t_levelToSeq set_disk t_memTable t_memAddr t_rOnly t_wal t_nodes t_memTableIndex t_next t_memC t_levelC].
  change (go_index (s :: sq) 0) with (Ret s). cbn [mbind outcome_bind]. rewrite E3. cbn [mbind outcome_bind].
  change (go_index (n0 :: ns) 0) with (Ret n0). cbn [mbind outcome_bind]. unfold set_nodes.
  cbn [t_disk t_filter t_memTable t_memAddr t_rOnly t_wal t_memTableIndex t_memC].
  change (insert_node 0 n0 (mkPnode nx n)) with (n0 ++ [mkPnode nx n]). change (Z.to_nat 0) with 0%nat.
  cbn [insert list_insert]. rewrite Ec. cbn [mbind outcome_bind]. unfold set_nodes, flushed. cbn. by rewrite insert_insert_eq.
Qed.

(** The oldest memtable leaves memory for level 0. *)
Definition settled (t : @Tree F M) (it : @memTableCompactItem M) (its : list (@memTableCompactItem M)) seq file f n c : Tree :=
  let t' := flushed t seq file f n c in
  set_disk (set_rOnly t' its (t_memC t))
    (mkDisk (<[sstFile 0 seq := EFile file]> (d_sst (t_disk t))) (os_Remove (d_wal (t_disk t)) (it_walFile it))) f.

Lemma compactMemTable_spec t it its kvs s old : c_FooterSize conf = 32 -> t_rOnly t = it :: its -> item_run it kvs ->
  kvs <> [] -> run_ok kvs -> first_key_ok kvs -> f_rep (t_filter t) [] -> t_nodes t <> [] ->
  head (t_levelToSeq t) = Some s -> open_write (d_sst (t_disk t)) (sstFile 0 (s32 (s + 1))) = Ok old ->
  exists e0 bs bms file f n c, compactMemTable conf t it = Ret (settled t it its (s32 (s + 1)) file f n c) /\
    table e0 (f_width (t_filter t)) kvs bs bms old file /\ node_of e0 (f_width (t_filter t)) kvs n /\
    f_rep f [] /\ f_width f = f_width (t_filter t) /\ (forall kv, kv ∈ kvs -> e0 ≺ Key kv).
Proof.
  intros Hfoot Hro Hit Hne Hr Hfirst Hf Hns Hs Hopen.
  destruct (flush_spec t (it_memTable it) kvs s old Hfoot Hit Hne Hr Hfirst Hf Hns Hs Hopen) as
    (e0 & bs & bms & file & f & n & c & E & Hrest).
  exists e0, bs, bms, file, f, n, c. split; [| done]. unfold compactMemTable. rewrite E. cbn [mbind outcome_bind].
  unfold settled. cbn [flushed t_rOnly]. rewrite Hro. cbn [after_item]. by rewrite Z.eqb_refl.
Qed.

Lemma get_disk_settled t it its seq file f n c kvs ns runs rest key wd : t_nodes t = ns :: rest ->
  f_rep (t_filter t) [] -> f_width (t_filter t) = wd -> f_rep f [] -> f_width f = wd ->
  Forall2 (node_run wd) ns runs -> Forall (good_nodes wd) rest -> node_run wd (mkPnode (t_next t) n) kvs ->
  get_disk (settled t it its seq file f n c) key =
    match kv_get kvs key with Some v => Ret (Ok (Some v)) | None => get_disk t key end.
Proof.
  intros Hns Hr Hw Hr' Hw' HF Hrest Hn. unfold get_disk. cbn [settled flushed set_disk set_rOnly t_nodes t_filter]. rewrite Hns.
  change (go_index ((ns ++ [mkPnode (t_next t) n]) :: rest) 0) with (Ret (ns ++ [mkPnode (t_next t) n])).
  change (go_index (ns :: rest) 0) with (Ret ns). cbn [mbind outcome_bind].
  rewrite (get_nodes_spec wd f [] _ (rev (runs ++ [kvs]))), (get_nodes_spec wd (t_filter t) [] (rev ns) (rev runs)); try done;
    [| by apply Forall2_rev' | apply Forall2_rev'; apply Forall2_app; [done | constructor; [done | constructor]]].
  rewrite rev_app_distr. cbn [rev app first_get mbind outcome_bind drop].
  destruct (kv_get kvs key); [done |]. destruct (first_get (rev runs) key); [done |].
  by apply (get_levels_filter wd f (t_filter t) [] []).
Qed.

(** Flushing the oldest memtable changes no answer.  When the compactor takes
    the oldest read-only memtable, whatever newer ones and whatever nodes there are,
    it writes its table, adds the node to level 0 and forgets the memtable, and
    [Get] returns for every key what it returned before. *)
Theorem flush_preserves t it its mem ro kvs s old ns runs rest : c_FooterSize conf = 32 ->
  memory t mem (kvs :: ro) -> t_rOnly t = it :: its -> kvs <> [] -> run_ok kvs -> first_key_ok kvs ->
  f_rep (t_filter t) [] -> t_nodes t = ns :: rest -> Forall2 (node_run (f_width (t_filter t))) ns runs ->
  Forall (good_nodes (f_width (t_filter t))) rest ->
  head (t_levelToSeq t) = Some s -> open_write (d_sst (t_disk t)) (sstFile 0 (s32 (s + 1))) = Ok old ->
  exists t', compactMemTable conf t it = Ret t' /\ t_rOnly t' = its /\ forall key, Get t' key = Get t key.
Proof.
  intros Hfoot Hmem Hro Hne Hr Hfirst Hf Hns HF Hrest Hs Hopen. destruct Hmem as [Hm HR]. rewrite Hro in HR.
  inversion HR as [| ? ? ? ? Hit HR']; subst.
  destruct (compactMemTable_spec t it its kvs s old) as (e0 & bs & bms & file & f & n & c & E & _ & Hn & Hf' & Hw' & _);
    [done | done | done | done | done | done | done | by rewrite Hns | done | done |].
  eexists. split; [exact E |]. split; [done |]. intros key.
  rewrite (Get_memory t mem (kvs :: ro)) by (split; [done | by rewrite Hro]).
  rewrite (Get_memory _ mem ro) by done.
  rewrite (get_disk_settled t it its _ file f n c kvs ns runs rest key (f_width (t_filter t))); try done; [| split; [done | by exists e0]].
  cbn [first_get rev]. rewrite first_get_app. cbn [first_get].
  destruct (kv_get mem key); [done |]. destruct (first_get (rev ro) key); [done |]. by destruct (kv_get kvs key).
Qed.
End TreeProof.
