(* ===== verification/LsmRecover.v ===== *)
(** * LSM tree: recovery and histories

    Reopening the disk of a tree gives back its memtables from the logs and its
    nodes from the tables, and any history of writes, flushes in order and restarts
    behaves as a map. *)
From S2P Require Import Prelude GoSort LsmCodec LsmFilter LsmKeys LsmSkiplist LsmTable LsmTableProof GoStrings LsmNames LsmTree LsmTreeProof.

(** ** Directories *)

Lemma List_filter_perm {A} (p : A -> bool) l k : l ≡ₚ k -> List.filter p l ≡ₚ List.filter p k.
Proof.
  induction 1 as [| x l k Hp IH | x y l | l k j H1 IH1 H2 IH2]; simpl; [done | | | by etrans].
  - destruct (p x); [by constructor | done].
  - destruct (p x), (p y); try done. apply perm_swap.
Qed.

Lemma List_filter_all {A} (p : A -> bool) l : Forall (fun x => p x = true) l -> List.filter p l = l.
Proof. induction 1 as [| x l Hx HF IH]; simpl; [done |]. by rewrite Hx, IH. Qed.

Lemma ReadDir_perm (d : dir) : ReadDir d ≡ₚ map_to_list d.
Proof. apply merge_sort_Permutation. Qed.

(** Logs, oldest first: their numbers and the writes in them. *)
Definition log_entry (l : Z * list KV) : string * dirent := (walFile l.1, EFile (wal_image l.2)).
Definition logs_map (logs : list (Z * list KV)) : dir := list_to_map (log_entry <$> logs).
Definition logs_ok (logs : list (Z * list KV)) : Prop := StronglySorted Z.lt logs.*1 /\ Forall name_range logs.*1.

Lemma walFile_inj i j : name_range i -> name_range j -> walFile i = walFile j -> i = j.
Proof. intros Hi Hj E. by rewrite <- (walFile_index i), E, walFile_index. Qed.

Lemma Zlt_NoDup l : StronglySorted Z.lt l -> NoDup l.
Proof.
  induction 1 as [| x l Hs IH Hx]; constructor; [| done]. intros Hin. rewrite Forall_forall in Hx. specialize (Hx x Hin). lia.
Qed.

Lemma log_names (logs : list (Z * list KV)) : (log_entry <$> logs).*1 = walFile <$> logs.*1.
Proof. by rewrite <- !list_fmap_compose. Qed.

Lemma log_names_NoDup logs : logs_ok logs -> NoDup (log_entry <$> logs).*1.
Proof.
  intros [Hs Hr]. rewrite log_names. apply NoDup_fmap_2_strong; [| by apply Zlt_NoDup].
  rewrite Forall_forall in Hr. intros i j Hi Hj. apply walFile_inj; auto.
Qed.

#[export] Instance wal_le_trans : Transitive wal_le.
Proof. intros a b c. unfold wal_le. lia. Qed.
#[export] Instance wal_le_total : Total wal_le.
Proof. intros a b. unfold wal_le. lia. Qed.

Definition wal_lt (a b : string * dirent) : Prop := walFileToMemTableIndex a.1 < walFileToMemTableIndex b.1.

Lemma logs_sorted logs : logs_ok logs -> StronglySorted wal_lt (log_entry <$> logs).
Proof.
  intros [Hs Hr]. induction logs as [| [i p] logs IH]; [constructor |].
  cbn [fmap list_fmap] in *. inversion Hs as [| ? ? Hs' Hi]. inversion Hr as [| ? ? Hri Hr']. subst. constructor; [by apply IH |].
  apply Forall_forall. intros e ([j q] & -> & Hin)%list_elem_of_fmap. unfold wal_lt, log_entry. cbn [fst].
  assert (j ∈ logs.*1) as Hj by (apply list_elem_of_fmap; by exists (j, q)). rewrite Forall_forall in Hi, Hr'.
  rewrite !walFile_index by auto. auto.
Qed.

Definition wal_entry (e : string * dirent) : bool := is_file e && HasSuffix e.1 ".wal".

Lemma logs_listed logs : logs_ok logs -> List.filter wal_entry (ReadDir (logs_map logs)) ≡ₚ log_entry <$> logs.
Proof.
  intros Hl. rewrite (List_filter_perm _ _ _ (ReadDir_perm _)). unfold logs_map.
  rewrite (List_filter_perm _ _ _ (map_to_list_to_map (M := gmap string) _ (log_names_NoDup _ Hl))).
  rewrite List_filter_all; [done |]. apply Forall_forall. intros e (l & -> & _)%list_elem_of_fmap.
  unfold wal_entry. cbn [log_entry is_file fst snd]. apply HasSuffix_app.
Qed.

Lemma logs_sort logs l : logs_ok logs -> l ≡ₚ log_entry <$> logs -> merge_sort wal_le l = log_entry <$> logs.
Proof.
  intros Hl Hp. apply (sort_Slice_unique wal_le wal_lt); [| done | by apply logs_sorted].
  intros x y. unfold wal_lt, wal_le. lia.
Qed.

(** Tables of level 0, oldest first. *)
Fixpoint sst_entries (k : Z) (files : list bytes) : list (string * dirent) :=
  match files with [] => [] | b :: files' => (sstFile 0 k, EFile b) :: sst_entries (k + 1) files' end.

Definition sst_map (files : list bytes) : dir := <["walfile" := EDir]> (list_to_map (sst_entries 1 files)).
Definition sst_max : Z := 2147483647.

Lemma sst_entries_app k l r : sst_entries k (l ++ r) = sst_entries k l ++ sst_entries (k + zlen l) r.
Proof.
  revert k. induction l as [| b l IH]; intros k; simpl; [by rewrite zlen_nil, Z.add_0_r |].
  rewrite IH, zlen_cons. do 3 f_equal. lia.
Qed.

Lemma sst_entries_elem k files e : e ∈ sst_entries k files ->
  exists j b, k <= j < k + zlen files /\ e = (sstFile 0 j, EFile b).
Proof.
  revert k. induction files as [| b files IH]; intros k; simpl; [by intros ?%not_elem_of_nil |].
  rewrite zlen_cons. pose proof (zlen_nonneg files). intros [-> | (j & c & Hj & ->)%IH]%elem_of_cons.
  - exists k, b. split; [lia | done].
  - exists j, c. split; [lia | done].
Qed.

#[export] Instance sst_le_trans : Transitive sst_le.
Proof.
  intros a b c. unfold sst_le. destruct (getLevelSeqFromSSTFile a.1), (getLevelSeqFromSSTFile b.1), (getLevelSeqFromSSTFile c.1). lia.
Qed.
#[export] Instance sst_le_total : Total sst_le.
Proof. intros a b. unfold sst_le. destruct (getLevelSeqFromSSTFile a.1), (getLevelSeqFromSSTFile b.1). lia. Qed.

Definition sst_lt (a b : string * dirent) : Prop :=
  (getLevelSeqFromSSTFile a.1).1 = (getLevelSeqFromSSTFile b.1).1 /\ (getLevelSeqFromSSTFile a.1).2 < (getLevelSeqFromSSTFile b.1).2.

Lemma sst_sorted k files : 0 <= k -> k + zlen files <= sst_max -> StronglySorted sst_lt (sst_entries k files).
Proof.
  revert k. induction files as [| b files IH]; intros k Hk Hm; simpl; [constructor |].
  rewrite zlen_cons in Hm. pose proof (zlen_nonneg files). unfold sst_max in *.
  constructor; [apply IH; lia |]. apply Forall_forall. intros e (j & c & Hj & ->)%sst_entries_elem.
  unfold sst_lt. cbn [fst]. rewrite !sstFile_level_seq by (unfold name_range; lia). simpl. lia.
Qed.

Lemma sst_names_NoDup k files : 0 <= k -> k + zlen files <= sst_max -> NoDup (sst_entries k files).*1.
Proof.
  intros Hk Hm. pose proof (sst_sorted k files Hk Hm) as Hs. induction Hs as [| x l Hs IH Hx]; simpl; constructor; [| done].
  intros (y & E & Hy)%list_elem_of_fmap. rewrite Forall_forall in Hx. destruct (Hx y Hy) as [_ Hlt]. rewrite E in Hlt. lia.
Qed.

Lemma walfile_fresh k files : 0 <= k -> k + zlen files <= sst_max -> "walfile" ∉ (sst_entries k files).*1.
Proof.
  intros Hk Hm (e & E & (j & b & Hj & ->)%sst_entries_elem)%list_elem_of_fmap. cbn [fst] in E.
  assert (isSSTFile "walfile" = true) as Hi; [| done]. rewrite E.
  unfold sst_max in *. apply sstFile_is; unfold name_range; lia.
Qed.

Lemma sst_fresh files : 1 + zlen files <= sst_max -> (list_to_map (sst_entries 1 files) : dir) !! "walfile" = None.
Proof. intros Hm. apply not_elem_of_list_to_map_1. by apply walfile_fresh. Qed.

Lemma sst_listed files : 1 + zlen files <= sst_max -> getSortedSSTEntries (sst_map files) = sst_entries 1 files.
Proof.
  intros Hm. unfold getSortedSSTEntries. apply (sort_Slice_unique sst_le sst_lt); [| | by apply sst_sorted].
  { intros x y. unfold sst_lt, sst_le. destruct (getLevelSeqFromSSTFile x.1), (getLevelSeqFromSSTFile y.1). simpl. lia. }
  rewrite (List_filter_perm _ _ _ (ReadDir_perm _)). unfold sst_map.
  rewrite (List_filter_perm _ _ _ (map_to_list_insert _ _ EDir (sst_fresh files Hm))).
  cbn [List.filter is_file snd andb].
  rewrite (List_filter_perm _ _ _ (map_to_list_to_map (M := gmap string) _ (sst_names_NoDup 1 files ltac:(done) Hm))).
  rewrite List_filter_all; [done |]. apply Forall_forall. intros e (j & b & Hj & ->)%sst_entries_elem.
  cbn [is_file fst snd andb]. unfold sst_max in *. apply sstFile_is; unfold name_range; lia.
Qed.

Lemma sst_map_lookup files k b : 1 + zlen files <= sst_max -> (sstFile 0 k, EFile b) ∈ sst_entries 1 files ->
  sst_map files !! sstFile 0 k = Some (EFile b).
Proof.
  intros Hm Hin. unfold sst_map. rewrite lookup_insert_ne.
  - apply elem_of_list_to_map_1; [by apply sst_names_NoDup | done].
  - intros E. apply (walfile_fresh 1 files); [done | done |]. rewrite E. apply list_elem_of_fmap. by exists (sstFile 0 k, EFile b).
Qed.

Section Recover.
Context {F M : Type} `{FilterLaws F} `{MemTableLaws M}.
Context (conf : @Config F M) (f0 : F) (m0 : M).

(** A configuration with a fresh filter and an empty memtable; tables of at most
    eight megabytes, so that runs stay within the bounds of [run_ok]. *)
Record conf_ok : Prop := {
  ck_filter : c_Filter conf = Some f0 /\ f_rep f0 [];
  ck_mem : c_MemTableConstructor conf = Some m0 /\ mt_rep m0 [];
  ck_footer : c_FooterSize conf = 32;
  ck_size : 0 < SSTSize conf <= 8388608;
  ck_levels : 2 <= MaxLevel conf
}.
Context (Hconf : conf_ok).

Local Abbreviation wd := (f_width f0).

(** ** Nodes *)

(** A file that holds the table of a run. *)
Definition table_of (kvs : list KV) (file : bytes) : Prop :=
  kvs <> [] /\ run_ok kvs /\ sorted kvs /\
  exists e0 bs bms, table e0 wd kvs bs bms [] file /\ forall kv, kv ∈ kvs -> e0 ≺ Key kv.

(** The tree with nodes added to level 0. *)
Definition with_nodes (t : @Tree F M) (ns : list pnode) (seq next : Z) : Tree :=
  set_nodes t match t_nodes t with l :: rest => (l ++ ns) :: rest | [] => [] end
    match t_levelToSeq t with _ :: rest => seq :: rest | [] => [] end next (t_levelC t).

Lemma loadNode_spec t k file kvs : table_of kvs file -> d_sst (t_disk t) !! sstFile 0 k = Some (EFile file) ->
  0 <= k < sst_max -> t_nodes t <> [] -> t_levelToSeq t <> [] ->
  exists n, loadNode conf t (sstFile 0 k) = Ret (with_nodes t [mkPnode (t_next t) n] k (t_next t + 1), Ok tt) /\
    node_run wd (mkPnode (t_next t) n) kvs.
Proof.
  intros (Hne & Hr & Hs & e0 & bs & bms & Ht & He) Hfile Hk Hns Hsq.
  destruct (reopen_spec (table_conf conf) e0 wd kvs bs bms file) as (R1 & R2 & R3 & _); [apply Hconf | done | done | done |].
  set (size := _ + _ + _) in R3. cbv zeta in *. set (rd := opened e0 bs bms file) in *.
  destruct (zlookup_is_Some (table_index e0 bs) (zlen (table_index e0 bs) - 1)) as [l Hl];
    [rewrite table_index_zlen; pose proof (zlen_nonneg bs); lia |].
  exists (mkNode (sstFile 0 k) 0 k size (btf_of bs bms) (table_index e0 bs) e0 (ix_Key l) rd). split.
  - unfold loadNode, open_read. rewrite Hfile, R1. cbn [mbind outcome_bind]. rewrite R2. cbn [mbind outcome_bind]. rewrite R3.
    unfold sst_max in Hk. rewrite sstFile_level_seq by (unfold name_range; lia). unfold insertNodeWithReader, with_nodes.
    destruct (t_nodes t) as [| ns rest]; [done |]. destruct (t_levelToSeq t) as [| s sq]; [done |].
    change (go_index (s :: sq) 0) with (Ret s). change (go_index (ns :: rest) 0) with (Ret ns). cbn [mbind outcome_bind].
    unfold NewNode. rewrite (go_index_Some _ _ _ Hl). change (go_index (table_index e0 bs) 0) with (Ret (mkIndex e0 0 0)). done.
  - split; [done |]. exists e0. split; [| done | done | done]. by exists bs, bms, [].
Qed.

Lemma with_nodes_twice t ns ns' s s' n n' : with_nodes (with_nodes t ns s n) ns' s' n' = with_nodes t (ns ++ ns') s' n'.
Proof.
  unfold with_nodes. destruct t as [d f m a ro w tn mi sq nx mc lc]. cbn. destruct tn, sq; cbn; by rewrite ?app_assoc.
Qed.

Lemma load_nodes_spec tabs files t k : Forall2 table_of tabs files -> 0 <= k -> k + zlen files <= sst_max ->
  (forall j b, (sstFile 0 j, EFile b) ∈ sst_entries k files -> d_sst (t_disk t) !! sstFile 0 j = Some (EFile b)) ->
  t_nodes t <> [] -> t_levelToSeq t <> [] -> files <> [] ->
  exists ns, load_nodes conf t (sst_entries k files) = Ret (with_nodes t ns (k + zlen files - 1) (t_next t + zlen files), Ok tt) /\
    Forall2 (node_run wd) ns tabs.
Proof.
  intros HF. revert t k. induction HF as [| kvs file tabs files Hf HF IH]; intros t k Hk Hm Hd Hn Hq Hne; [done |].
  rewrite zlen_cons in *. pose proof (zlen_nonneg files).
  destruct (loadNode_spec t k file kvs Hf) as (n & E & Hrun); [apply Hd; by left | lia | done | done |].
  cbn [sst_entries load_nodes fst]. rewrite E. cbn [mbind outcome_bind]. set (t1 := with_nodes t _ _ _).
  destruct (decide (files = [])) as [-> | Hne'].
  - inversion HF; subst. exists [mkPnode (t_next t) n]. cbn [sst_entries load_nodes]. unfold t1.
    rewrite zlen_nil. replace (k + (0 + 1) - 1) with k by lia. replace (t_next t + (0 + 1)) with (t_next t + 1) by lia.
    split; [done |]. by constructor.
  - destruct (IH t1 (k + 1)) as (ns & E' & HF'); [lia | lia | | | | done |].
    + intros j b Hin. apply Hd. by right.
    + unfold t1, with_nodes. cbn. by destruct (t_nodes t).
    + unfold t1, with_nodes. cbn. by destruct (t_levelToSeq t).
    + exists (mkPnode (t_next t) n :: ns). rewrite E'. unfold t1 at 1. rewrite with_nodes_twice.
      unfold t1. cbn [with_nodes set_nodes t_next app].
      replace (k + 1 + zlen files - 1) with (k + (zlen files + 1) - 1) by lia.
      replace (t_next t + 1 + zlen files) with (t_next t + (zlen files + 1)) by lia. split; [done |]. by constructor.
Qed.

(** ** Logs *)

Lemma put_all_spec m l kvs : mt_rep m l ->
  exists m', put_all m kvs = Ret m' /\ mt_rep m' (foldl (fun l kv => kv_put l (Key kv) (Value kv)) l kvs).
Proof.
  revert m l. induction kvs as [| kv kvs IH]; intros m l Hm; cbn [put_all foldl]; [by exists m |].
  destruct (mt_Put_rep m l (Key kv) (Value kv) Hm) as (m' & -> & Hm'). cbn [mbind outcome_bind]. by apply IH.
Qed.

Lemma RestoreToMemtable_spec puts : Forall kv_ok puts ->
  exists m, RestoreToMemtable (wal_image puts) m0 = Ret (Ok m) /\ mt_rep m (run_of puts).
Proof.
  intros Hp. unfold RestoreToMemtable. rewrite readAll_image by (eapply Forall_impl; [exact Hp | apply kv_ok_fits]).
  cbn [mbind outcome_bind]. destruct (put_all_spec m0 [] puts) as (m & -> & Hm); [apply Hconf |]. by exists m.
Qed.

(** A read-only memtable and its log. *)
Definition item_log (it : memTableCompactItem) (l : Z * list KV) : Prop :=
  it_walFile it = walFile l.1 /\ mt_rep (it_memTable it) (run_of l.2).

Lemma new_memtable_spec : new_memtable conf = Ret m0.
Proof. unfold new_memtable. by rewrite (proj1 (ck_mem Hconf)). Qed.

(** What the restored logs leave in the tree. *)
Record restored (t t' : @Tree F M) (logs : list (Z * list KV)) (ci : Z) (cur : list KV) (d : dir) : Prop := {
  rs_mem : mt_rep (t_memTable t') (run_of cur);
  rs_rOnly : exists its, t_rOnly t' = t_rOnly t ++ its /\ t_memC t' = t_memC t ++ its /\ Forall2 item_log its logs;
  rs_wal : t_wal t' = Some (walFile ci) /\ t_memTableIndex t' = ci;
  rs_disk : t_disk t' = mkDisk (d_sst (t_disk t)) d;
  rs_rest : t_filter t' = t_filter t /\ t_nodes t' = t_nodes t /\ t_levelToSeq t' = t_levelToSeq t
}.

Lemma restore_loop_spec logs ci cur t : name_range ci -> Forall (fun l => Forall kv_ok l.2) (logs ++ [(ci, cur)]) ->
  (forall l, l ∈ logs ++ [(ci, cur)] -> d_wal (t_disk t) !! walFile l.1 = Some (EFile (wal_image l.2))) ->
  exists t', restore_loop conf t (log_entry <$> (logs ++ [(ci, cur)])) = Ret (t', Ok tt) /\
    restored t t' logs ci cur (d_wal (t_disk t)).
Proof.
  intros Hci. revert t. induction logs as [| l logs IH]; intros t Hok Hd.
  - specialize (Hd (ci, cur) ltac:(by left)). inversion Hok as [| ? ? Hk _]; subst. cbn [fst snd] in *.
    destruct (RestoreToMemtable_spec cur Hk) as (m & E & Hm).
    cbn [fmap list_fmap app log_entry fst snd restore_loop]. unfold open_read. rewrite Hd, new_memtable_spec. cbn [mbind outcome_bind].
    rewrite E. cbn [mbind outcome_bind length Nat.eqb]. unfold open_wal, open_write. cbn [set_mem t_disk]. rewrite Hd, insert_id by done.
    eexists. split; [reflexivity |]. split; cbn; [done | | by rewrite walFile_index | done | done].
    exists []. by rewrite !app_nil_r.
  - inversion Hok as [| ? ? Hk Hok']; subst. pose proof (Hd l ltac:(by left)) as Hl.
    destruct (RestoreToMemtable_spec l.2 Hk) as (m & E & Hm).
    cbn [fmap list_fmap app restore_loop]. unfold open_read. cbn [log_entry fst]. rewrite Hl, new_memtable_spec. cbn [mbind outcome_bind].
    rewrite E. cbn [mbind outcome_bind].
    rewrite (proj2 (Nat.eqb_neq _ 0)) by (rewrite length_fmap, length_app; simpl; lia).
    set (it := mkItem _ _ m). set (t1 := set_rOnly _ _ _).
    destruct (IH t1 Hok') as (t' & E' & Hr); [intros x Hx; apply Hd; by right |].
    exists t'. split; [exact E' |]. destruct Hr as [R1 (its & R2 & R3 & R4) R5 R6 R7]. split; try done.
    exists (it :: its). rewrite R2, R3. cbn. rewrite <- !app_assoc. split_and!; [done | done |]. by constructor.
Qed.

(** ** The invariant of a history *)

Local Abbreviation upper := (Z.to_nat (MaxLevel conf) - 1)%nat.

(** The tree holds the writes [cur] in memtable [ci], the older memtables [logs] and
    the tables [tabs] in [files]; levels from 1 on are empty. *)
Record inv (t : @Tree F M) (logs : list (Z * list KV)) (ci : Z) (cur : list KV) (tabs : list (list KV)) (files : list bytes) : Prop := {
  v_filter : f_rep (t_filter t) [] /\ f_width (t_filter t) = wd;
  v_mem : mt_rep (t_memTable t) (run_of cur);
  v_rOnly : Forall2 item_log (t_rOnly t) logs;
  v_memC : t_memC t = t_rOnly t;
  v_wal : t_wal t = Some (walFile ci) /\ t_memTableIndex t = ci;
  v_dwal : d_wal (t_disk t) = logs_map (logs ++ [(ci, cur)]);
  v_order : logs_ok (logs ++ [(ci, cur)]);
  v_cur : Forall kv_ok cur /\ kv_size (run_of cur) <= SSTSize conf;
  v_logs : Forall (fun l => Forall kv_ok l.2 /\ run_of l.2 <> [] /\ kv_size (run_of l.2) <= SSTSize conf + pair_max) logs;
  v_dsst : d_sst (t_disk t) = sst_map files;
  v_tabs : Forall2 table_of tabs files;
  v_nodes : exists ns, t_nodes t = ns :: replicate upper [] /\ Forall2 (node_run wd) ns tabs;
  v_seq : t_levelToSeq t = zlen tabs :: replicate upper 0
}.

(** Its runs, newest first. *)
Definition stack (logs : list (Z * list KV)) (cur : list KV) (tabs : list (list KV)) : list (list KV) :=
  run_of cur :: rev (run_of <$> logs.*2) ++ rev tabs.

Lemma inv_memory t logs ci cur tabs files : inv t logs ci cur tabs files -> memory t (run_of cur) (run_of <$> logs.*2).
Proof.
  intros Hv. split; [apply Hv |]. apply Forall2_fmap_r, Forall2_fmap_r. eapply Forall2_impl; [exact (v_rOnly _ _ _ _ _ _ Hv) |].
  by intros it l [_ Hm].
Qed.

Lemma get_levels_empty f n key : get_levels f (replicate n []) key = Ret (Ok None).
Proof. induction n as [| n IH]; [done |]. exact IH. Qed.

Lemma inv_Get t logs ci cur tabs files key : inv t logs ci cur tabs files ->
  Get t key = Ret (Ok (first_get (stack logs cur tabs) key)).
Proof.
  intros Hv. rewrite (Get_memory t _ _ key (inv_memory _ _ _ _ _ _ Hv)). unfold stack. rewrite app_comm_cons, first_get_app.
  destruct (first_get (run_of cur :: rev _) key); [done |].
  destruct (v_nodes _ _ _ _ _ _ Hv) as (ns & Hns & HF). destruct (v_filter _ _ _ _ _ _ Hv) as [Hf Hw].
  unfold get_disk. rewrite Hns. change (go_index (ns :: replicate upper []) 0) with (Ret ns). cbn [mbind outcome_bind].
  rewrite (get_nodes_spec wd _ [] (rev ns) (rev tabs)) by (done || by apply Forall2_rev'). cbn [mbind outcome_bind].
  destruct (first_get (rev tabs) key); [done |]. apply get_levels_empty.
Qed.

(** ** Writes *)

Lemma logs_map_snoc logs i p : logs_ok (logs ++ [(i, p)]) ->
  logs_map (logs ++ [(i, p)]) = <[walFile i := EFile (wal_image p)]> (logs_map logs) /\ logs_map logs !! walFile i = None.
Proof.
  intros Hl%log_names_NoDup. unfold logs_map. rewrite fmap_app in *. cbn [fmap list_fmap log_entry fst snd] in *.
  rewrite fmap_app in Hl. cbn [fmap list_fmap fst] in Hl. apply NoDup_app in Hl as (_ & Hnot & _).
  assert (walFile i ∉ (log_entry <$> logs).*1) as Hn by (intros Hin; apply (Hnot _ Hin); by left).
  split; [by apply list_to_map_snoc | by apply not_elem_of_list_to_map_1].
Qed.

Lemma logs_no_dirs logs : logs_ok logs -> no_dirs (logs_map logs).
Proof.
  intros Hl name E. apply elem_of_list_to_map_2 in E. apply list_elem_of_fmap in E as (l & E & _). done.
Qed.

Lemma logs_ok_puts logs i p q : logs_ok (logs ++ [(i, p)]) -> logs_ok (logs ++ [(i, q)]).
Proof. unfold logs_ok. rewrite !fmap_app. done. Qed.

Lemma wal_image_snoc p kv : wal_image (p ++ [kv]) = wal_image p ++ wal_bytes kv.
Proof. unfold wal_image. rewrite fmap_app, join_app. simpl. by rewrite app_nil_r. Qed.

(** A write that stays in the memtable, but for the bound on its size. *)
Lemma put_in_inv t logs ci cur tabs files m kv : inv t logs ci cur tabs files -> mt_rep m (run_of (cur ++ [kv])) ->
  d_wal (t_disk (put_in t m (walFile ci) kv)) = logs_map (logs ++ [(ci, cur ++ [kv])]).
Proof.
  intros Hv Hm. unfold put_in, with_log, log_bytes. cbn [set_mem set_disk t_disk d_wal].
  destruct (logs_map_snoc logs ci cur (v_order _ _ _ _ _ _ Hv)) as [E Hn].
  rewrite (v_dwal _ _ _ _ _ _ Hv), E, lookup_insert_eq, insert_insert_eq.
  destruct (logs_map_snoc logs ci (cur ++ [kv])) as [-> _]; [eapply logs_ok_puts; apply Hv |]. by rewrite wal_image_snoc.
Qed.

Lemma logs_ok_next logs ci cur : logs_ok (logs ++ [(ci, cur)]) -> ci + 1 < 9223372036854775808 ->
  logs_ok ((logs ++ [(ci, cur)]) ++ [(ci + 1, [])]).
Proof.
  intros [Hs Hr] Hi. unfold logs_ok. rewrite !fmap_app in *. cbn [fmap list_fmap fst] in *.
  assert (0 <= ci) as Hci0 by (apply Forall_app in Hr as [_ Hr]; inversion Hr as [| ? ? Hc _]; apply Hc).
  split; [| apply Forall_app; split; [done | repeat constructor; lia]].
  assert (forall x, x ∈ logs.*1 ++ [ci] -> x <= ci) as Hx.
  { intros x [Hin | ->%list_elem_of_singleton]%elem_of_app; [| lia].
    pose proof (StronglySorted_app_1_elem_of Z.lt logs.*1 [ci] x ci Hs Hin ltac:(by left)). lia. }
  apply StronglySorted_app_2; [| done | repeat constructor].
  intros x y Hin ->%list_elem_of_singleton. specialize (Hx x Hin). lia.
Qed.

Lemma threshold s n : 0 <= s <= 33554432 -> (u64 (Z.quot (s64 (s * 5)) 4) <=? n) = true -> s <= n.
Proof.
  intros Hs Hn. rewrite s64_small in Hn by lia. rewrite Z.quot_div_nonneg in Hn by lia.
  pose proof (Z.div_mod (s * 5) 4 ltac:(lia)). pose proof (Z.mod_pos_bound (s * 5) 4 ltac:(lia)).
  rewrite u64_small in Hn by lia. zb. lia.
Qed.

Lemma Put_inv t logs ci cur tabs files key value : inv t logs ci cur tabs files -> kv_ok (mkKV key value) ->
  ci + 1 < 9223372036854775808 ->
  exists t' logs' ci' cur', Put conf t key value None = Ret (t', Ok tt) /\ inv t' logs' ci' cur' tabs files /\
    ci <= ci' <= ci + 1 /\ zlen logs' <= zlen logs + 1 /\
    forall k, first_get (stack logs' cur' tabs) k = if decide (key = k) then Some value else first_get (stack logs cur tabs) k.
Proof.
  intros Hv Hkv Hci. destruct (ck_mem Hconf) as [Hm0 Hrep0]. destruct (ck_size Hconf) as [Hsz0 Hsz].
  destruct (tree_Put_spec conf t m0 (walFile ci) (run_of cur) key value) as (m & Hm & E);
    [done | rewrite (v_dwal _ _ _ _ _ _ Hv); apply logs_no_dirs; apply Hv | apply Hv | apply Hv | by apply kv_ok_fits |].
  pose proof (kv_put_size (run_of cur) key value) as Hsize. pose proof (proj2 Hkv) as Hpair. cbn [Key Value] in Hpair.
  pose proof (proj2 (v_cur _ _ _ _ _ _ Hv)) as Hcur. unfold pair_max in *.
  pose proof (kv_size_nonneg (kv_put (run_of cur) key value)).
  change (kv_put (run_of cur) key value) with (kv_put (run_of cur) (Key (mkKV key value)) (Value (mkKV key value))) in *.
  rewrite <- run_of_snoc in *. set (cur' := cur ++ [mkKV key value]) in *.
  pose proof (put_in_inv t logs ci cur tabs files m _ Hv Hm) as Hdw. fold cur' in Hdw.
  assert (Forall kv_ok cur') as Hok by (apply Forall_app; split; [apply Hv | by constructor]).
  assert (forall k, kv_get (run_of cur') k = if decide (key = k) then Some value else kv_get (run_of cur) k) as Hget
    by (intros k; unfold cur'; rewrite run_of_snoc; apply kv_get_put).
  destruct (u64 _ <=? _) eqn:Et.
  - exists (put_in t m (walFile ci) (mkKV key value)), logs, ci, cur'. split; [exact E |].
    apply threshold in Et; [| lia]. destruct Hv. split; [split; try done; by eapply logs_ok_puts |].
    split; [lia |]. split; [lia |]. intros k. unfold stack. cbn [first_get]. rewrite Hget. by destruct (decide (key = k)).
  - exists (rotated (put_in t m (walFile ci) (mkKV key value)) m0), (logs ++ [(ci, cur')]), (ci + 1), [].
    split; [exact E |]. destruct Hv as [V1 V2 V3 V4 [V5 V5'] V6 V7 V8 V9 V10 V11 V12 V13].
    pose proof (logs_ok_puts _ _ _ cur' V7) as Hl. pose proof (logs_ok_next _ _ _ Hl Hci) as Hl'.
    assert (0 <= ci) as Hci0 by (destruct V7 as [_ V7]; rewrite fmap_app in V7; apply Forall_app in V7 as [_ V7]; inversion V7 as [| ? ? Hc _]; apply Hc).
    destruct (logs_map_snoc _ _ _ Hl') as [Em En].
    split; [| split; [lia | split; [rewrite zlen_app, zlen_cons, zlen_nil; lia |]]].
    + unfold rotated. cbn [put_in set_mem t_memTableIndex t_memAddr t_memTable t_filter t_rOnly t_wal t_nodes t_levelToSeq t_next t_memC t_levelC].
      rewrite V5', s64_small by lia. rewrite Hdw, En. split; cbn; try done.
      * apply Forall2_app; [done |]. repeat constructor. done.
      * by rewrite V4.
      * split; [done |]. unfold run_of. simpl. lia.
      * apply Forall_app. split; [done |]. constructor; [| constructor]. cbn [snd]. unfold pair_max.
        split_and!; [done | | lia]. unfold cur'. rewrite run_of_snoc. apply kv_put_ne.
    + intros k. unfold stack. rewrite !fmap_app, rev_app_distr. cbn [fmap list_fmap rev app first_get snd]. rewrite Hget.
      by destruct (decide (key = k)).
Qed.

(** ** Flushes *)

Lemma sst_map_snoc files file : 1 + (zlen files + 1) <= sst_max ->
  <[sstFile 0 (zlen files + 1) := EFile file]> (sst_map files) = sst_map (files ++ [file]) /\
  sst_map files !! sstFile 0 (zlen files + 1) = None.
Proof.
  intros Hm. pose proof (zlen_nonneg files).
  assert (1 + zlen (files ++ [file]) <= sst_max) as Hm' by (rewrite zlen_app, zlen_cons, zlen_nil; lia).
  pose proof (sst_names_NoDup 1 (files ++ [file]) ltac:(done) Hm') as Hnd.
  pose proof (walfile_fresh 1 (files ++ [file]) ltac:(done) Hm') as Hw.
  rewrite sst_entries_app in Hnd, Hw. cbn [sst_entries] in Hnd, Hw. replace (1 + zlen files) with (zlen files + 1) in Hnd, Hw by lia.
  rewrite fmap_app in Hnd, Hw. apply NoDup_app in Hnd as (_ & Hnot & _).
  assert (sstFile 0 (zlen files + 1) ∉ (sst_entries 1 files).*1) as Hn by (intros Hin; apply (Hnot _ Hin); by left).
  assert ("walfile" <> sstFile 0 (zlen files + 1)) as Hne.
  { intros E. apply Hw. apply elem_of_app. right. rewrite E. by left. }
  unfold sst_map. rewrite sst_entries_app. cbn [sst_entries]. replace (1 + zlen files) with (zlen files + 1) by lia. split.
  - rewrite list_to_map_snoc by done. by apply insert_insert_ne.
  - rewrite lookup_insert_ne by done. by apply not_elem_of_list_to_map_1.
Qed.

Lemma logs_map_remove l logs : logs_ok (l :: logs) -> os_Remove (logs_map (l :: logs)) (walFile l.1) = logs_map logs.
Proof.
  intros Hl%log_names_NoDup. unfold os_Remove, logs_map.
  change (log_entry <$> l :: logs) with ((walFile l.1, EFile (wal_image l.2)) :: (log_entry <$> logs)) in *.
  rewrite list_to_map_cons, lookup_insert_eq. apply delete_insert_id. apply not_elem_of_list_to_map_1.
  inversion Hl. done.
Qed.

Lemma logs_ok_tail l logs : logs_ok (l :: logs) -> logs_ok logs.
Proof. intros [Hs Hr]. inversion Hs. inversion Hr. by split. Qed.

Lemma flush_inv t l logs ci cur tabs files : inv t (l :: logs) ci cur tabs files -> zlen files + 2 <= sst_max ->
  exists t' file, compact_round conf t (MemReq 0) = Ret t' /\ inv t' logs ci cur (tabs ++ [run_of l.2]) (files ++ [file]).
Proof.
  intros Hv Hmax. destruct Hv as [[V1 V1'] V2 V3 V4 V5 V6 V7 V8 V9 V10 V11 (ns & V12 & V12') V13].
  inversion V3 as [| it ? its ? [Hit Hrep] Hits Eits]; subst. inversion V9 as [| ? ? (Hok & Hne & Hsz) Hlogs]; subst.
  assert (zlen tabs = zlen files) as Hlen by (apply Forall2_length in V11; unfold zlen; lia).
  pose proof (zlen_nonneg files). destruct (ck_size Hconf) as [_ Hc]. unfold sst_max, pair_max in *.
  unfold compact_round. rewrite V4, <- Eits. cbn [lookup list_lookup delete list_delete].
  set (t1 := set_rOnly t (it :: its) its).
  destruct (sst_map_snoc files []) as [_ Hfree]; [unfold sst_max; lia |].
  destruct (compactMemTable_spec conf t1 it its (run_of l.2) (zlen tabs) []) as
    (e0 & bs & bms & file & f & n & c & E & Ht & Hn & Hf & Hw & He);
    [apply Hconf | done | done | done | apply run_of_ok; [done | lia] | by apply run_of_first | done
     | cbn; by rewrite V12 | cbn; by rewrite V13 | |].
  { cbn [t1 set_rOnly t_disk]. unfold open_write. rewrite V10, Hlen, s32_small, Hfree by lia. done. }
  exists (settled t1 it its (zlen tabs + 1) file f n c), file. rewrite s32_small in E by lia. split; [exact E |].
  cbn [t1 set_rOnly t_filter] in Ht, Hn, Hw. rewrite V1' in Ht, Hn, Hw.
  destruct (sst_map_snoc files file) as [Esst _]; [unfold sst_max; lia |].
  split; cbn [settled flushed set_disk set_rOnly t1 t_filter t_memTable t_rOnly t_memC t_wal t_memTableIndex t_disk d_wal d_sst t_nodes t_levelToSeq];
    try done.
  - rewrite V6, Hit. by apply (logs_map_remove l).
  - by eapply logs_ok_tail.
  - by rewrite V10, Hlen.
  - apply Forall2_app; [done |]. constructor; [| constructor]. split; [done |].
    split; [apply run_of_ok; [done | lia] |]. split; [apply run_of_sorted |]. by exists e0, bs, bms.
  - rewrite V12. eexists. split; [reflexivity |]. apply Forall2_app; [done |]. constructor; [| constructor].
    split; [done |]. by exists e0.
  - rewrite V13, zlen_app, zlen_cons, zlen_nil. done.
Qed.

(** The stack does not change when its oldest memtable becomes its newest table. *)
Lemma stack_flush l logs cur tabs : stack logs cur (tabs ++ [run_of l.2]) = stack (l :: logs) cur tabs.
Proof. unfold stack. rewrite rev_app_distr. cbn [fmap list_fmap rev app]. by rewrite <- app_assoc. Qed.

(** ** Restarts *)

Lemma empty_tree_levels d :
  t_nodes (empty_tree conf d f0 m0) = [] :: replicate upper [] /\ t_levelToSeq (empty_tree conf d f0 m0) = 0 :: replicate upper 0.
Proof.
  pose proof (ck_levels Hconf) as HL. unfold empty_tree. cbn [t_nodes t_levelToSeq].
  destruct (Z.to_nat (MaxLevel conf)) as [| L] eqn:EL; [lia |]. cbn [replicate]. by rewrite Nat.sub_succ, Nat.sub_0_r.
Qed.

Lemma constructTree_spec d tabs files : d_sst d = sst_map files -> Forall2 table_of tabs files -> zlen files + 1 <= sst_max ->
  exists ns nx, constructTree conf (empty_tree conf d f0 m0) = Ret (with_nodes (empty_tree conf d f0 m0) ns (zlen tabs) nx, Ok tt) /\
    Forall2 (node_run wd) ns tabs.
Proof.
  intros Hd HF Hmax. set (t0 := empty_tree conf d f0 m0). destruct (empty_tree_levels d) as [Hn0 Hs0]. fold t0 in Hn0, Hs0.
  assert (zlen tabs = zlen files) as Hlen by (apply Forall2_length in HF; unfold zlen; lia).
  unfold constructTree. cbn [t0 empty_tree t_disk]. rewrite Hd, sst_listed by lia. fold t0.
  destruct (decide (files = [])) as [-> | Hne].
  - inversion HF; subst. exists [], 1. split; [| done]. cbn [sst_entries load_nodes]. do 2 f_equal.
    unfold with_nodes. rewrite Hn0, Hs0. cbn [app]. rewrite zlen_nil. by rewrite <- Hn0, <- Hs0.
  - destruct (load_nodes_spec tabs files t0 1 HF) as (ns & E & HF');
      [done | lia | | by rewrite Hn0 | by rewrite Hs0 | done |].
    + intros j b Hin. cbn [t0 empty_tree t_disk]. rewrite Hd. apply sst_map_lookup; [lia | done].
    + exists ns, (t_next t0 + zlen files). split; [| done]. rewrite E, Hlen. by replace (1 + zlen files - 1) with (zlen files) by lia.
Qed.

Lemma restart_inv t logs ci cur tabs files : inv t logs ci cur tabs files -> zlen files + 1 <= sst_max ->
  exists t', NewTree conf (t_disk t) = Ret (Ok t') /\ inv t' logs ci cur tabs files.
Proof.
  intros Hv Hmax. destruct Hv as [_ _ _ _ _ V6 V7 V8 V9 V10 V11 _ _].
  destruct (ck_filter Hconf) as [Ef Hf]. destruct (ck_mem Hconf) as [Em _]. unfold NewTree. rewrite Ef, Em.
  destruct (empty_tree_levels (t_disk t)) as [Hn0 Hs0].
  destruct (constructTree_spec (t_disk t) tabs files V10 V11 Hmax) as (ns & nx & E & Hns).
  set (t0 := empty_tree conf (t_disk t) f0 m0) in *.
  rewrite E. cbn [mbind outcome_bind]. set (t1 := with_nodes t0 ns (zlen tabs) nx).
  assert (t_disk t1 = t_disk t) as Hd1 by done. unfold constructMemtable. rewrite Hd1, V6.
  pose proof (logs_listed _ V7) as Hp. fold wal_entry. change (fun e : string * dirent => is_file e && HasSuffix e.1 ".wal") with wal_entry.
  rewrite (proj2 (Nat.eqb_neq _ 0)) by (rewrite Hp, length_fmap, length_app; simpl; lia).
  unfold restoreMemTable. rewrite (logs_sort _ _ V7 Hp).
  destruct (restore_loop_spec logs ci cur t1) as (t2 & E2 & [R1 (its & R2 & R2' & R3) R4 R5 (R6 & R7 & R8)]).
  { destruct V7 as [_ V7]. rewrite fmap_app in V7. apply Forall_app in V7 as [_ V7]. by inversion V7. }
  { apply Forall_app. split; [eapply Forall_impl; [exact V9 |]; by intros ? [? _] | constructor; [apply V8 | constructor]]. }
  { intros l Hin. rewrite Hd1, V6. apply elem_of_list_to_map_1; [by apply log_names_NoDup |].
    change (walFile l.1, EFile (wal_image l.2)) with (log_entry l). by apply list_elem_of_fmap_2. }
  rewrite E2. cbn [mbind outcome_bind]. exists t2. split; [done |].
  split; try done.
  - by rewrite R6.
  - by rewrite R2.
  - by rewrite R2, R2'.
  - by rewrite R5, Hd1, V6.
  - by rewrite R5, Hd1, V10.
  - exists ns. rewrite R7. unfold t1, with_nodes. cbn [set_nodes t_nodes]. by rewrite Hn0.
  - rewrite R8. unfold t1, with_nodes. cbn [set_nodes t_levelToSeq]. by rewrite Hs0.
Qed.

(** ** Histories *)

(** An empty directory, as [Config.check] leaves it. *)
Definition fresh_disk : disk := mkDisk (<["walfile" := EDir]> ∅) ∅.

Lemma fresh_inv : exists t, NewTree conf fresh_disk = Ret (Ok t) /\ inv t [] 0 [] [] [].
Proof.
  destruct (ck_filter Hconf) as [Ef Hf]. destruct (ck_mem Hconf) as [Em Hm]. unfold NewTree. rewrite Ef, Em.
  destruct (empty_tree_levels fresh_disk) as [Hn0 Hs0].
  destruct (constructTree_spec fresh_disk [] []) as (ns & nx & E & Hns); [done | constructor | done |].
  inversion Hns; subst. rewrite E. clear E. cbn [mbind outcome_bind]. unfold constructMemtable.
  cbn [with_nodes set_nodes t_disk empty_tree fresh_disk d_wal]. unfold ReadDir. rewrite map_to_list_empty.
  change (length (List.filter _ (merge_sort _ [])) =? 0)%nat with true. cbv iota.
  unfold newMemTable, open_wal, open_write. cbn -[walFile with_nodes replicate].
  rewrite new_memtable_spec. cbn [mbind outcome_bind]. eexists. split; [reflexivity |].
  unfold with_nodes. rewrite Hn0, Hs0.
  split; cbn [set_mem set_disk set_nodes t_disk t_filter t_memTable t_rOnly t_wal t_nodes t_memTableIndex t_levelToSeq t_memC app].
  - done.
  - done.
  - constructor.
  - done.
  - done.
  - done.
  - split; [repeat constructor | by repeat constructor].
  - split; [constructor | destruct (ck_size Hconf); unfold run_of; simpl; lia].
  - constructor.
  - done.
  - constructor.
  - by exists [].
  - by rewrite zlen_nil.
Qed.

Inductive op := OPut (key value : bytes) | OFlush | ORestart.

(** A flush takes the oldest pending memtable, if there is one; a restart opens
    the disk with a new process. *)
Definition apply_op (t : @Tree F M) (o : op) : outcome (result treeerr Tree) :=
  match o with
  | OPut key value =>
      r ← Put conf t key value None;
      match r with (t, Ok _) => Ret (Ok t) | (_, Err e) => Ret (Err e) end
  | OFlush => t ← compact_round conf t (MemReq 0); Ret (Ok t)
  | ORestart => NewTree conf (t_disk t)
  end.

Definition run_ops (ops : list op) : outcome (result treeerr Tree) :=
  foldl (fun r o => t ← r; match t with Err e => Ret (Err e) | Ok t => apply_op t o end) (NewTree conf fresh_disk) ops.

Definition op_ok (o : op) : Prop := match o with OPut key value => kv_ok (mkKV key value) | _ => True end.

Definition spec_op (m : gmap bytes bytes) (o : op) : gmap bytes bytes :=
  match o with OPut key value => <[key := value]> m | _ => m end.

(** One step of the simulation; [n] bounds the operations so far. *)
Definition simulates (n : Z) (t : @Tree F M) (m : gmap bytes bytes) : Prop :=
  exists logs ci cur tabs files, inv t logs ci cur tabs files /\ ci <= n /\ zlen tabs + zlen logs <= n /\
    forall key, first_get (stack logs cur tabs) key = m !! key.

Lemma apply_op_simulates n t m o : simulates n t m -> op_ok o -> 0 <= n < 1073741824 ->
  exists t', apply_op t o = Ret (Ok t') /\ simulates (n + 1) t' (spec_op m o).
Proof.
  intros (logs & ci & cur & tabs & files & Hv & Hci & Hn & Hget) Ho Hb.
  assert (zlen tabs = zlen files) as Hlen by (pose proof (v_tabs _ _ _ _ _ _ Hv) as HF; apply Forall2_length in HF; unfold zlen; lia).
  pose proof (zlen_nonneg logs). pose proof (zlen_nonneg tabs). destruct o as [key value | |]; cbn [apply_op spec_op].
  - destruct (Put_inv t logs ci cur tabs files key value Hv Ho) as (t' & logs' & ci' & cur' & E & Hv' & Hc' & Hl' & Hg); [lia |].
    exists t'. rewrite E. split; [done |]. exists logs', ci', cur', tabs, files. split; [done |]. split; [lia |]. split; [lia |].
    intros k. rewrite Hg, Hget. destruct (decide (key = k)) as [-> |]; [by rewrite lookup_insert_eq | by rewrite lookup_insert_ne].
  - destruct logs as [| l logs].
    + exists t. unfold compact_round. rewrite (v_memC _ _ _ _ _ _ Hv). pose proof (v_rOnly _ _ _ _ _ _ Hv) as HR. inversion HR.
      split; [done |]. exists [], ci, cur, tabs, files. split; [done |]. split; [lia |]. split; [lia | done].
    + rewrite zlen_cons in *. destruct (flush_inv t l logs ci cur tabs files Hv) as (t' & file & E & Hv'); [unfold sst_max; lia |].
      exists t'. rewrite E. split; [done |]. exists logs, ci, cur, (tabs ++ [run_of l.2]), (files ++ [file]). split; [done |].
      split; [lia |]. split; [rewrite zlen_app, zlen_cons, zlen_nil; lia |]. intros k. by rewrite stack_flush.
  - destruct (restart_inv t logs ci cur tabs files Hv) as (t' & E & Hv'); [unfold sst_max; lia |].
    exists t'. split; [done |]. exists logs, ci, cur, tabs, files. split; [done |]. split; [lia |]. split; [lia | done].
Qed.

Lemma run_ops_simulates ops : Forall op_ok ops -> zlen ops < 1073741824 ->
  exists t, run_ops ops = Ret (Ok t) /\ simulates (zlen ops) t (foldl spec_op ∅ ops).
Proof.
  intros Hops. induction ops as [| o ops IH] using rev_ind; intros Hn.
  - destruct fresh_inv as (t & E & Hv). exists t. split; [exact E |]. exists [], 0, [], [], []. by split.
  - apply Forall_app in Hops as [Hops Ho]. inversion Ho as [| ? ? Ho' _]; subst.
    rewrite zlen_app, zlen_cons, zlen_nil in *. destruct IH as (t & E & Hs); [done | lia |].
    destruct (apply_op_simulates _ t _ o Hs Ho') as (t' & E' & Hs'); [pose proof (zlen_nonneg ops); lia |].
    exists t'. unfold run_ops in *. rewrite !foldl_app, E. done.
Qed.

(** C3: The tree is a map that survives restarts.  Starting from an empty
    directory, any history of writes, flushes of the oldest memtable and restarts
    (the process is stopped at any point between operations and the directory is
    opened again) runs without error, and then [Get] of every key returns the value
    last written to it, or nothing: no acknowledged write is lost and no older value
    comes back.  Keys are non-empty and do not end in a zero byte, a pair has at
    most 2^22 bytes, tables are at most 8 megabytes, and there are fewer than 2^30
    operations. *)
Theorem history_refines ops : Forall op_ok ops -> zlen ops < 1073741824 ->
  exists t, run_ops ops = Ret (Ok t) /\ forall key, Get t key = Ret (Ok (foldl spec_op ∅ ops !! key)).
Proof.
  intros Hops Hn. destruct (run_ops_simulates ops Hops Hn) as (t & E & logs & ci & cur & tabs & files & Hv & _ & _ & Hget).
  exists t. split; [done |]. intros key. by rewrite (inv_Get t logs ci cur tabs files key Hv), Hget.
Qed.

(** ** Merging *)

(** A node whose file is the table of a run, with its reader fresh or with the
    footer read. *)
Definition readable (n : pnode) (kvs : list KV) : Prop :=
  kvs <> [] /\ run_ok kvs /\ exists e0 bs bms file, table e0 wd kvs bs bms [] file /\
    (n_sstReader (pn_node n) = NewSSTReader file \/ n_sstReader (pn_node n) = opened e0 bs bms file).

Lemma GetAll_spec n kvs : readable n kvs -> exists n', GetAll (table_conf conf) (pn_node n) = Ret (n', Ok kvs).
Proof.
  intros (Hne & Hr & e0 & bs & bms & file & Ht & Hrd).
  destruct (reopen_spec (table_conf conf) e0 wd kvs bs bms file) as (_ & _ & _ & R1 & R2); [apply Hconf | done | done | done |].
  unfold GetAll. destruct Hrd as [-> | ->]; rewrite ?R1, ?R2; by eexists.
Qed.

Lemma merge_nodes_spec nodes runs m l : Forall2 readable nodes runs -> mt_rep m l ->
  exists m', merge_nodes conf m nodes = Ret m' /\ mt_rep m' (foldl (fun l kv => kv_put l (Key kv) (Value kv)) l (mjoin runs)).
Proof.
  intros HF. revert m l. induction HF as [| n kvs nodes runs Hn HF IH]; intros m l Hm; cbn [merge_nodes].
  { by exists m. }
  destruct (GetAll_spec n kvs Hn) as [n' ->]. cbn [mbind outcome_bind snd].
  destruct (put_all_spec m l kvs Hm) as (m1 & -> & Hm1). cbn [mbind outcome_bind].
  destruct (IH m1 _ Hm1) as (m' & E & Hm'). exists m'. split; [done |].
  change (mjoin (kvs :: runs)) with (kvs ++ mjoin runs). by rewrite foldl_app.
Qed.

Lemma picked_spec nodes runs : Forall2 readable nodes runs -> pickedNodesToKVs conf nodes = Ret (run_of (mjoin runs)).
Proof.
  intros HF. unfold pickedNodesToKVs. rewrite new_memtable_spec. cbn [mbind outcome_bind].
  destruct (merge_nodes_spec nodes runs m0 [] HF (proj2 (ck_mem Hconf))) as (m & -> & Hm).
  cbn [mbind outcome_bind]. by apply mt_All_rep.
Qed.
End Recover.
