(* ===== verification/LsmCompact.v ===== *)
(** * LSM tree: compaction of a level

    What [compactLevel] does to the tables: the picked nodes are merged into one
    run, written out as tables of the next level and taken out of both levels. *)
From S2P Require Import Prelude LsmCodec LsmFilter LsmKeys LsmTable LsmTableProof GoStrings LsmNames LsmTree LsmTreeProof LsmRecover.

Lemma w_Appends_app {F} `{Filter F} conf w (f : F) l k :
  w_Appends conf w f (l ++ k) = (r ← w_Appends conf w f l; w_Appends conf (fst r) (snd r) k).
Proof.
  revert w f. induction l as [| kv l IH]; intros w f; cbn [w_Appends app mbind outcome_bind fst snd]; [done |].
  destruct (w_Append conf w f (Key kv) (Value kv)) as [[w' f'] |]; cbn [mbind outcome_bind fst snd]; [apply IH | done].
Qed.

Lemma go_index_nat {A} (l : list A) i x : l !! i = Some x -> go_index l (Z.of_nat i) = Ret x.
Proof. intros Hx. apply go_index_Some. unfold zlookup. destruct (Z.ltb_spec (Z.of_nat i) 0); [lia |]. by rewrite Nat2Z.id. Qed.

(** ** Taking nodes out *)

Definition addrs (ns : list pnode) : list Z := pn_addr <$> ns.
Definition without (picked ns : list pnode) : list pnode := filter (fun n => pn_addr n ∉ addrs picked) ns.

Lemma without_nil ns : without [] ns = ns.
Proof.
  unfold without. induction ns as [| n ns IH]; [done |]. rewrite filter_cons_True by (apply not_elem_of_nil). by rewrite IH.
Qed.

Lemma without_cons n picked ns : without (n :: picked) ns = without picked (filter (fun x => pn_addr x <> pn_addr n) ns).
Proof.
  unfold without. rewrite list_filter_filter. apply list_filter_iff. intros x. cbn [addrs fmap list_fmap].
  rewrite not_elem_of_cons. tauto.
Qed.

Lemma remove_addr_spec a ns : NoDup (addrs ns) ->
  remove_addr a ns = if decide (a ∈ addrs ns) then Some (filter (fun x => pn_addr x <> a) ns) else None.
Proof.
  induction ns as [| n ns IH]; intros Hnd; cbn [remove_addr addrs fmap list_fmap].
  { destruct (decide _) as [Hin |]; [by apply not_elem_of_nil in Hin | done]. }
  inversion Hnd as [| ? ? Hn Hnd']; subst. destruct (Z.eqb_spec (pn_addr n) a) as [<- | Hne].
  - rewrite decide_True by (by left). f_equal. rewrite filter_cons_False by (by intros Hx).
    symmetry. apply filter_all, Forall_forall. intros x Hx E. apply Hn. rewrite <- E. by apply list_elem_of_fmap_2.
  - rewrite IH by done. rewrite filter_cons_True by done. fold (addrs ns).
    destruct (decide (a ∈ addrs ns)) as [Hin | Hin]; [by rewrite decide_True by (by right) |].
    rewrite decide_False; [done |]. intros [E | ?]%elem_of_cons; [by apply Hne | done].
Qed.

Lemma addrs_filter (P : pnode -> Prop) `{!forall x, Decision (P x)} ns : NoDup (addrs ns) -> NoDup (addrs (filter P ns)).
Proof. intros Hnd. eapply sublist_NoDup; [exact Hnd |]. apply fmap_sublist, sublist_filter. Qed.

Lemma filter_ne_notin a ns : a ∉ addrs ns -> filter (fun x => pn_addr x <> a) ns = ns.
Proof. intros Hn. apply filter_all, Forall_forall. intros x Hx E. apply Hn. rewrite <- E. by apply list_elem_of_fmap_2. Qed.

(** [unlink] on the two levels, whose nodes have different addresses. *)
Lemma unlink_spec (level : nat) picked all here below :
  all !! level = Some here -> all !! S level = Some below -> NoDup (addrs here) -> NoDup (addrs below) ->
  (forall a, a ∈ addrs here -> a ∈ addrs below -> False) ->
  unlink (Z.of_nat level) picked all = Ret (<[S level := without picked below]> (<[level := without picked here]> all)).
Proof.
  revert all here below. induction picked as [| n picked IH]; intros all here below Hh Hb Nh Nb Hd; cbn [unlink].
  { rewrite !without_nil. f_equal. rewrite (list_insert_id all level here) by done. by rewrite list_insert_id. }
  replace (Z.of_nat level + 1) with (Z.of_nat (S level)) by lia. rewrite (go_index_nat _ _ _ Hb). cbn [mbind outcome_bind].
  pose proof (lookup_lt_Some _ _ _ Hh). pose proof (lookup_lt_Some _ _ _ Hb).
  rewrite remove_addr_spec by done. rewrite !without_cons. rewrite !Nat2Z.id.
  destruct (decide (pn_addr n ∈ addrs below)) as [Hin | Hin].
  - rewrite (IH _ here (filter (fun x => pn_addr x <> pn_addr n) below)).
    + f_equal. rewrite (filter_ne_notin (pn_addr n) here) by (intros Hx; by apply (Hd (pn_addr n))).
      rewrite (list_insert_insert_ne _ level (S level)) by lia. by rewrite list_insert_insert_eq.
    + by rewrite list_lookup_insert_ne by lia.
    + by apply list_lookup_insert_eq.
    + done.
    + by apply addrs_filter.
    + intros a Ha (x & -> & [_ Hx]%list_elem_of_filter)%list_elem_of_fmap. apply (Hd (pn_addr x) Ha). by apply list_elem_of_fmap_2.
  - rewrite (go_index_nat _ _ _ Hh). cbn [mbind outcome_bind]. rewrite (filter_ne_notin (pn_addr n) below) by done.
    rewrite remove_addr_spec by done. destruct (decide (pn_addr n ∈ addrs here)) as [Hi | Hi].
    + rewrite (IH _ (filter (fun x => pn_addr x <> pn_addr n) here) below); [| | | by apply addrs_filter | done |].
      * f_equal. by rewrite list_insert_insert_eq.
      * by apply list_lookup_insert_eq.
      * by rewrite list_lookup_insert_ne by lia.
      * intros a (x & -> & [_ Hx]%list_elem_of_filter)%list_elem_of_fmap Ha. apply (Hd (pn_addr x)); [by apply list_elem_of_fmap_2 | done].
    + rewrite (filter_ne_notin (pn_addr n) here) by done. by apply IH.
Qed.

(** [insertNodeWithReader] adds the node, wherever it puts it. *)
Lemma insert_node_perm level ns n : insert_node level ns n ≡ₚ ns ++ [n].
Proof.
  unfold insert_node. destruct (level =? 0); [done |]. destruct (insert_pos _ _ _) as [i |]; [| done].
  rewrite <- Permutation_middle. rewrite take_drop. by rewrite Permutation_app_comm.
Qed.

Lemma insert_nodes_perm level ns new : foldl (insert_node level) ns new ≡ₚ ns ++ new.
Proof.
  revert ns. induction new as [| n new IH]; intros ns; cbn [foldl]; [by rewrite app_nil_r |].
  rewrite IH, insert_node_perm, <- app_assoc. done.
Qed.

Section Compact.
Context {F M : Type} `{FilterLaws F} `{MemTableLaws M}.
Context (conf : @Config F M) (f0 : F) (m0 : M).
Context (Hconf : conf_ok conf f0 m0).
Implicit Types t : @Tree F M.

Local Abbreviation wd := (f_width f0).

(** ** Writing tables *)

(** No directory has the name of a table. *)
Definition sst_free t : Prop := forall level seq, d_sst (t_disk t) !! sstFile level seq <> Some EDir.

(** The nodes [ns] were added to a level; memory is as it was. *)
Record grown t t' (level : nat) (ns : list pnode) : Prop := {
  gr_nodes l : t_nodes t !! level = Some l -> t_nodes t' = <[level := foldl (insert_node (Z.of_nat level)) l ns]> (t_nodes t);
  gr_mem : t_memTable t' = t_memTable t /\ t_rOnly t' = t_rOnly t /\ t_memC t' = t_memC t /\ t_wal t' = t_wal t;
  gr_wal : d_wal (t_disk t') = d_wal (t_disk t);
  gr_next : t_next t' = t_next t + zlen ns;
  gr_addrs : addrs ns = seqZ (t_next t) (zlen ns);
  gr_seq : length (t_levelToSeq t') = length (t_levelToSeq t);
  gr_free : sst_free t -> sst_free t'
}.

Lemma grown_trans t1 t2 t3 level ns ms : is_Some (t_nodes t1 !! level) ->
  grown t1 t2 level ns -> grown t2 t3 level ms -> grown t1 t3 level (ns ++ ms).
Proof.
  intros [l Hl] [A1 A2 A3 A4 A5 A6 A7] [B1 B2 B3 B4 B5 B6 B7]. pose proof (lookup_lt_Some _ _ _ Hl).
  assert (t_nodes t2 !! level = Some (foldl (insert_node (Z.of_nat level)) l ns)) as Hl2.
  { rewrite (A1 l Hl). by apply list_lookup_insert_eq. }
  split.
  - intros l' Hl'. rewrite Hl in Hl'. injection Hl' as <-. rewrite (B1 _ Hl2), (A1 l Hl), list_insert_insert_eq. by rewrite foldl_app.
  - destruct A2 as (-> & -> & -> & ->) in B2. done.
  - by rewrite B3.
  - rewrite B4, A4, zlen_app. lia.
  - unfold addrs in *. rewrite fmap_app, A5, B5, A4, zlen_app. symmetry. apply seqZ_app; apply zlen_nonneg.
  - by rewrite B6.
  - auto.
Qed.

Lemma grown_refl t level : grown t t level [].
Proof. split; try done; [intros l Hl; by rewrite list_insert_id | by rewrite zlen_nil, Z.add_0_r]. Qed.

(** Changing the filter, or creating a file, adds no node. *)
Lemma grown_disk t d f level : d_wal d = d_wal (t_disk t) ->
  (sst_free t -> forall l s, d_sst d !! sstFile l s <> Some EDir) -> grown t (set_disk t d f) level [].
Proof.
  intros Hd Hf. split; cbn; try done.
  - intros l Hl. by rewrite list_insert_id.
  - by rewrite zlen_nil, Z.add_0_r.
Qed.

Lemma sst_free_insert (d : dir) l s b : (forall l s, d !! sstFile l s <> Some EDir) ->
  forall l' s', (<[sstFile l s := EFile b]> d) !! sstFile l' s' <> Some EDir.
Proof.
  intros Hf l' s'. destruct (decide (sstFile l s = sstFile l' s')) as [-> |]; [by rewrite lookup_insert_eq |].
  rewrite lookup_insert_ne by done. apply Hf.
Qed.

Lemma open_sst_spec t level seq : sst_free t ->
  exists b t', open_sst t (sstFile level seq) = Ok (t', NewSSTWriter b) /\ t_filter t' = t_filter t /\ forall l, grown t t' l [].
Proof.
  intros Hf. unfold open_sst, open_write. pose proof (Hf level seq) as Hn.
  destruct (d_sst (t_disk t) !! sstFile level seq) as [[| b] |]; [done | exists b | exists []]; eexists; (split; [reflexivity |]); (split; [done |]);
    intros l; apply grown_disk; try done; intros Hf'; by apply sst_free_insert.
Qed.

(** A chunk that can be a table. *)
Definition chunk_ok (kvs : list KV) : Prop := run_ok kvs /\ sorted kvs /\ Forall (fun kv => key_ok (Key kv)) kvs.

Lemma chunk_ok_app_l l k : chunk_ok (l ++ k) -> chunk_ok l.
Proof.
  intros (Hr & Hs & Hk). split; [by eapply run_ok_app_l |]. split; [by apply StronglySorted_app_1_l in Hs |].
  by apply Forall_app in Hk as [Hk _].
Qed.

Lemma chunk_ok_app_r l k : chunk_ok (l ++ k) -> chunk_ok k.
Proof.
  intros (Hr & Hs & Hk). split; [by eapply run_ok_app_r |]. split; [by apply StronglySorted_app_1_r in Hs |].
  by apply Forall_app in Hk as [_ Hk].
Qed.

Lemma chunk_first l : chunk_ok l -> first_key_ok l.
Proof. intros (_ & _ & Hk). destruct l; [done |]. by inversion Hk. Qed.

(** The writer and the filter have taken the pairs of a chunk. *)
Definition taken (w : SSTWriter) (f : F) (chunk : list KV) : Prop :=
  exists old f1, f_rep f1 [] /\ f_width f1 = wd /\ w_Appends (table_conf conf) (NewSSTWriter old) f1 chunk = Ret (w, f).

Lemma taken_append w f chunk kv : taken w f chunk -> chunk_ok (chunk ++ [kv]) ->
  exists w' f', w_Append (table_conf conf) w f (Key kv) (Value kv) = Ret (w', f') /\ taken w' f' (chunk ++ [kv]).
Proof.
  intros (old & f1 & Hr & Hw & E) Hc.
  destruct (build_spec (table_conf conf) old f1 (chunk ++ [kv]) "" 0 0) as (w' & f' & ? & ? & ? & ? & ? & ? & ? & ? & ? & E' & _);
    [apply Hconf | done | by destruct chunk | apply Hc | apply Hc | by apply chunk_first |].
  exists w', f'. split; [| by exists old, f1]. rewrite w_Appends_app, E in E'. cbn [mbind outcome_bind fst snd w_Appends] in E'.
  destruct (w_Append _ w f _ _) as [[a b] |]; [| done]. exact E'.
Qed.

Lemma finish_table_spec t w (level : nat) seq chunk nodes s : chunk <> [] -> chunk_ok chunk -> taken w (t_filter t) chunk ->
  t_nodes t !! level = Some nodes -> t_levelToSeq t !! level = Some s ->
  exists t' n, finish_table conf t w (Z.of_nat level) seq = Ret t' /\ grown t t' level [n] /\ node_run wd n chunk /\
    f_rep (t_filter t') [] /\ f_width (t_filter t') = wd.
Proof.
  intros Hne Hc (old & f1 & Hr & Hw & E) Hn Hs.
  destruct (build_spec (table_conf conf) old f1 chunk (sstFile (Z.of_nat level) seq) (Z.of_nat level) seq) as
    (w1 & f2 & size & btf & ix & w2 & f3 & n & e0 & bs & bms & E1 & E2 & E3 & Hnode & Hr3 & Hw3 & _);
    [apply Hconf | done | done | apply Hc | apply Hc | by apply chunk_first |].
  rewrite E in E1. injection E1 as <- <-.
  unfold finish_table. rewrite E2. cbn [mbind outcome_bind]. unfold insertNode, open_read. cbn [set_disk t_disk d_sst].
  rewrite lookup_insert_eq. unfold insertNodeWithReader. cbn [set_disk t_levelToSeq t_nodes t_next].
  rewrite (go_index_nat _ _ _ Hs). cbn [mbind outcome_bind]. rewrite E3. cbn [mbind outcome_bind]. rewrite (go_index_nat _ _ _ Hn). cbn [mbind outcome_bind].
  rewrite Nat2Z.id. eexists _, (mkPnode (t_next t) n). split; [reflexivity |]. rewrite Hw in Hnode, Hw3.
  split; [| split; [split; [done | by exists e0] | done]].
  split; cbn [set_nodes set_disk t_nodes t_memTable t_rOnly t_memC t_wal t_disk d_wal d_sst t_next t_levelToSeq foldl].
  - intros l Hl. rewrite Hn in Hl. by injection Hl as ->.
  - done.
  - done.
  - done.
  - by rewrite zlen_cons, zlen_nil.
  - by rewrite length_insert.
  - intros Hf l' s'. cbn [set_nodes set_disk t_disk d_sst]. by apply sst_free_insert.
Qed.

(** ** The loop *)

Lemma taken_size w f chunk limit : taken w f chunk -> 0 <= limit -> limit < w_Size w -> chunk <> [].
Proof. intros (old & f1 & _ & _ & E) Hl Hs ->. injection E as <- _. change (w_Size (NewSSTWriter old)) with 0 in Hs. lia. Qed.

(** The chunk a pair goes to, after the table that may be finished first. *)
Lemma next_table_spec t w (level : nat) limit seq chunk : 0 <= limit -> taken w (t_filter t) chunk -> chunk_ok chunk ->
  is_Some (t_nodes t !! level) -> (level < length (t_levelToSeq t))%nat -> sst_free t ->
  exists t' w' seq' chunk' chunks ns, next_table conf (Z.of_nat level) limit t w seq = Ret (t', Some (w', seq')) /\
    mjoin chunks ++ chunk' = chunk /\ Forall2 (node_run wd) ns chunks /\ grown t t' level ns /\ taken w' (t_filter t') chunk'.
Proof.
  intros Hl Htk Hc [nodes Hn] Hs Hf. unfold next_table. destruct (Z.ltb_spec limit (w_Size w)) as [Hlt | Hge].
  - pose proof (taken_size _ _ _ _ Htk Hl Hlt) as Hcne. destruct (lookup_lt_is_Some_2 (t_levelToSeq t) level Hs) as [s0 Hs0].
    destruct (finish_table_spec t w level seq chunk nodes s0) as (t1 & n & E & Hg & Hr & Hrep & Hw); [done.. |].
    rewrite E. cbn [mbind outcome_bind].
    destruct (lookup_lt_is_Some_2 (t_levelToSeq t1) level) as [s1 Hs1]; [by rewrite (gr_seq _ _ _ _ Hg) |].
    rewrite (go_index_nat _ _ _ Hs1). cbn [mbind outcome_bind].
    destruct (open_sst_spec t1 (Z.of_nat level) (s32 (s1 + 1))) as (b & t2 & E2 & Hflt & Hg2); [by apply (gr_free _ _ _ _ Hg) |].
    rewrite E2. exists t2, (NewSSTWriter b), (s32 (s1 + 1)), [], [chunk], [n]. split; [done |].
    split; [cbn; by rewrite !app_nil_r |]. split; [by constructor |].
    split; [apply (grown_trans t t1 t2 level [n] []); [by eexists | done | apply Hg2] |].
    exists b, (t_filter t1). by rewrite Hflt.
  - exists t, w, seq, chunk, [], []. split; [done |]. split; [done |]. split; [constructor |]. split; [apply grown_refl | done].
Qed.

Lemma compact_loop_spec (level : nat) limit kvs : forall t w seq chunk, kvs <> [] -> 0 <= limit ->
  taken w (t_filter t) chunk -> chunk_ok (chunk ++ kvs) ->
  is_Some (t_nodes t !! level) -> (level < length (t_levelToSeq t))%nat -> sst_free t ->
  exists t' chunks ns, compact_loop conf (Z.of_nat level) limit kvs t w seq = Ret (t', true) /\
    mjoin chunks = chunk ++ kvs /\ Forall2 (node_run wd) ns chunks /\ grown t t' level ns /\
    f_rep (t_filter t') [] /\ f_width (t_filter t') = wd.
Proof.
  induction kvs as [| kv kvs IH]; intros t w seq chunk Hne Hl Htk Hc [nodes Hn] Hs Hf; [done |]. cbn [compact_loop].
  destruct (next_table_spec t w level limit seq chunk) as (t1 & w1 & seq1 & chunk1 & chunks1 & ns1 & E1 & Ej & HF1 & Hg1 & Htk1);
    [done | done | by eapply chunk_ok_app_l | by eexists | done | done |]. rewrite E1.
  cbn [mbind outcome_bind]. assert (chunk_ok (chunk1 ++ kv :: kvs)) as Hc1.
  { rewrite <- Ej, <- app_assoc in Hc. by eapply chunk_ok_app_r. }
  assert (chunk_ok ((chunk1 ++ [kv]) ++ kvs)) as Hc2 by (by rewrite <- app_assoc).
  destruct (taken_append w1 (t_filter t1) chunk1 kv Htk1) as (w2 & f2 & E & Htk2); [by eapply chunk_ok_app_l |].
  rewrite E. cbn [mbind outcome_bind fst snd]. set (t2 := set_disk t1 (t_disk t1) f2).
  assert (grown t t2 level ns1) as Hg2.
  { rewrite <- (app_nil_r ns1). apply (grown_trans t t1 t2); [by eexists | done |]. by apply grown_disk. }
  assert (is_Some (t_nodes t2 !! level)) as [nodes2 Hn2].
  { rewrite (gr_nodes _ _ _ _ Hg2 _ Hn). rewrite list_lookup_insert_eq by (by eapply lookup_lt_Some). by eexists. }
  assert (level < length (t_levelToSeq t2))%nat as Hs2 by (by rewrite (gr_seq _ _ _ _ Hg2)).
  assert (sst_free t2) as Hf2 by (by apply (gr_free _ _ _ _ Hg2)).
  destruct kvs as [| kv' kvs].
  - destruct (lookup_lt_is_Some_2 _ _ Hs2) as [s2 Hs2'].
    destruct (finish_table_spec t2 w2 level seq1 (chunk1 ++ [kv]) nodes2 s2) as (t3 & n & E3 & Hg3 & Hr3 & Hrep3 & Hw3);
      [by destruct chunk1 | done | done | done | done |].
    cbn [length Nat.eqb]. rewrite E3. cbn [mbind outcome_bind compact_loop].
    exists t3, (chunks1 ++ [chunk1 ++ [kv]]), (ns1 ++ [n]). split; [done |].
    split; [rewrite join_app; cbn; rewrite app_nil_r, app_assoc, Ej; done |].
    split; [apply Forall2_app; [done | by constructor] |]. split; [| done]. apply (grown_trans t t2 t3); [by eexists | done | done].
  - cbn [length Nat.eqb mbind outcome_bind].
    destruct (IH t2 w2 seq1 (chunk1 ++ [kv])) as (t3 & chunks & ns & E3 & Ej3 & HF3 & Hg3 & Hrep3 & Hw3);
      [done | done | done | done | by eexists | done | done |].
    rewrite E3. exists t3, (chunks1 ++ chunks), (ns1 ++ ns). split; [done |].
    split; [rewrite join_app, Ej3, <- Ej, <- !app_assoc; done |].
    split; [by apply Forall2_app |]. split; [| done]. apply (grown_trans t t2 t3); [by eexists | done | done].
Qed.

(** ** The whole compaction *)

Lemma tryTriggerCompact_at t (level : nat) : is_Some (t_nodes t !! level) ->
  exists c, tryTriggerCompact conf t (Z.of_nat level) = Ret (set_nodes t (t_nodes t) (t_levelToSeq t) (t_next t) c).
Proof.
  intros [l Hl]. unfold tryTriggerCompact. destruct t as [d f m a ro w ns ix sq nx mc lc]. cbn [t_nodes t_levelC t_levelToSeq t_next] in *.
  destruct (Z.of_nat level =? zlen ns - 1); [by exists lc |]. rewrite (go_index_nat _ _ _ Hl). cbn [mbind outcome_bind].
  case_match; eexists; reflexivity.
Qed.

(** The picked nodes are some of the lower level followed by some of the upper. *)
Lemma pickCompactNodes_spec t (level : nat) here below : t_nodes t !! level = Some here -> t_nodes t !! S level = Some below ->
  here <> [] -> exists p, pickCompactNodes t (Z.of_nat level) = Ret (List.filter p below ++ List.filter p here).
Proof.
  intros Hh Hb Hne. unfold pickCompactNodes. rewrite (go_index_nat _ _ _ Hh). cbn [mbind outcome_bind].
  destruct here as [| n0 here]; [done |]. change (go_index (n0 :: here) 0) with (Ret n0). cbn [mbind outcome_bind].
  destruct (zlookup_is_Some (n0 :: here) (Z.shiftr (zlen (n0 :: here)) 1)) as [nm Hm].
  { rewrite Z.shiftr_div_pow2 by done. change (2 ^ 1) with 2. rewrite zlen_cons. pose proof (zlen_nonneg here).
    split; [apply Z.div_pos; lia |]. apply Z.div_lt_upper_bound; lia. }
  rewrite (go_index_Some _ _ _ Hm). cbn [mbind outcome_bind]. replace (Z.of_nat level + 1) with (Z.of_nat (S level)) by lia.
  rewrite (go_index_nat _ _ _ Hb). cbn [mbind outcome_bind]. by eexists.
Qed.

Lemma List_filter_sublist {A} (p : A -> bool) l : sublist (List.filter p l) l.
Proof. induction l as [| x l IH]; cbn [List.filter]; [constructor |]. destruct (p x); by constructor. Qed.

Lemma join_sublist {A} (l k : list (list A)) : sublist l k -> sublist (mjoin l) (mjoin k).
Proof.
  induction 1 as [| x l k Hs IH | x l k Hs IH]; [done | |].
  - change (mjoin (x :: l)) with (x ++ mjoin l). change (mjoin (x :: k)) with (x ++ mjoin k). by apply sublist_app.
  - change (mjoin (x :: k)) with (x ++ mjoin k). by apply sublist_inserts_l.
Qed.

Lemma kv_size_sublist l k : sublist l k -> kv_size l <= kv_size k.
Proof.
  induction 1 as [| x l k Hs IH | x l k Hs IH]; simpl; [done | lia |].
  pose proof (zlen_nonneg (Key x)). pose proof (zlen_nonneg (Value x)). lia.
Qed.

(** The nodes of both levels: [run] gives the run of each. *)
Record mergeable t (here below : list pnode) (run : pnode -> list KV) : Prop := {
  mg_addrs : NoDup (addrs (below ++ here)) /\ Forall (fun a => a < t_next t) (addrs (below ++ here));
  mg_runs : Forall (fun n => readable f0 n (run n) /\ sorted (run n) /\ Forall (fun kv => key_ok (Key kv)) (run n)) (below ++ here);
  mg_size : zlen (mjoin (run <$> below ++ here)) <= 16777216 /\ kv_size (mjoin (run <$> below ++ here)) <= 1099511627776
}.

Lemma merged_ok t here below run picked : mergeable t here below run -> sublist picked (below ++ here) ->
  Forall2 (readable f0) picked (run <$> picked) /\ Forall (fun r => sorted r) (run <$> picked) /\
  chunk_ok (run_of (mjoin (run <$> picked))).
Proof.
  intros [_ Hr [Hn Hs]] Hsub. rewrite Forall_forall in Hr.
  assert (forall n, n ∈ picked -> readable f0 n (run n) /\ sorted (run n) /\ Forall (fun kv => key_ok (Key kv)) (run n)) as Hp
    by (intros n Hin; apply Hr; by eapply sublist_subseteq).
  split; [apply Forall2_fmap_r, Forall_Forall2_diag, Forall_forall; intros x Hx; by apply Hp |].
  split; [apply Forall_fmap, Forall_forall; intros x Hx; by apply Hp |].
  assert (sublist (mjoin (run <$> picked)) (mjoin (run <$> below ++ here))) as Hj by (by apply join_sublist, fmap_sublist).
  assert (Forall (fun kv => key_ok (Key kv)) (mjoin (run <$> picked))) as Hk.
  { apply Forall_forall. intros kv (r & Hkv & (n & -> & Hin)%list_elem_of_fmap)%list_elem_of_join. destruct (Hp n Hin) as (_ & _ & HF).
    rewrite Forall_forall in HF. by apply HF. }
  destruct (run_of_bounds (mjoin (run <$> picked))) as [B1 B2]. pose proof (kv_size_sublist _ _ Hj). apply sublist_length in Hj.
  assert (Forall (fun kv => key_ok (Key kv)) (run_of (mjoin (run <$> picked)))) as Hk'.
  { apply Forall_forall. intros kv Hin%run_of_elem. rewrite Forall_forall in Hk. by apply Hk. }
  split; [split; [unfold zlen in *; lia |]; split; [lia |] | split; [apply run_of_sorted | done]].
  eapply Forall_impl; [exact Hk' |]. intros kv (hd & b & -> & _). by destruct hd.
Qed.

Lemma seqZ_fresh next n ns picked : addrs ns = seqZ next n -> Forall (fun a => a < next) (addrs picked) ->
  NoDup (addrs ns) /\ forall a, a ∈ addrs ns -> a ∈ addrs picked -> False.
Proof.
  intros E Hp. rewrite E. split; [apply NoDup_seqZ |]. intros a [Ha _]%elem_of_seqZ Hin. rewrite Forall_forall in Hp.
  specialize (Hp a Hin). lia.
Qed.

Lemma without_fresh picked ns : (forall a, a ∈ addrs ns -> a ∈ addrs picked -> False) -> without picked ns = ns.
Proof. intros Hf. apply filter_all, Forall_forall. intros n Hn Hin. apply (Hf (pn_addr n)); [by apply list_elem_of_fmap_2 | done]. Qed.

(** Taking the picked nodes out of the levels, the new ones being in place. *)
Lemma removeNodes_spec t t2 (level : nat) here below run picked ns : mergeable t here below run ->
  sublist picked (below ++ here) -> t_nodes t !! level = Some here -> t_nodes t !! S level = Some below ->
  grown t t2 (S level) ns ->
  exists t3 l, removeNodes t2 (Z.of_nat level) picked = Ret t3 /\ t_nodes t3 !! level = Some (without picked here) /\
    t_nodes t3 !! S level = Some l /\ l ≡ₚ without picked below ++ ns /\
    t_memTable t3 = t_memTable t2 /\ t_rOnly t3 = t_rOnly t2 /\ t_filter t3 = t_filter t2.
Proof.
  intros [[Hnd Hlt] _ _] Hsub Hh Hb Hg. unfold addrs in Hnd, Hlt. rewrite fmap_app in Hnd, Hlt.
  apply NoDup_app in Hnd as (Nb & Hdisj & Nh). pose proof (insert_nodes_perm (Z.of_nat (S level)) below ns) as Hp.
  assert (Forall (fun a => a < t_next t) (addrs picked)) as Hpl.
  { apply Forall_forall. intros a (n & -> & Hin)%list_elem_of_fmap. rewrite <- fmap_app, Forall_forall in Hlt. apply Hlt.
    apply list_elem_of_fmap_2. by eapply sublist_subseteq. }
  apply Forall_app in Hlt as [Lb Lh]. pose proof (gr_addrs _ _ _ _ Hg) as Ha.
  destruct (seqZ_fresh _ _ _ below Ha Lb) as [Nn Fb]. destruct (seqZ_fresh _ _ _ here Ha Lh) as [_ Fh].
  destruct (seqZ_fresh _ _ _ picked Ha Hpl) as [_ Fp]. set (below2 := foldl _ below ns) in *.
  pose proof (gr_nodes _ _ _ _ Hg _ Hb) as En. fold below2 in En.
  assert (addrs below2 ≡ₚ addrs below ++ addrs ns) as Hpa by (unfold addrs; by rewrite Hp, fmap_app).
  pose proof (lookup_lt_Some _ _ _ Hh). pose proof (lookup_lt_Some _ _ _ Hb).
  unfold removeNodes. rewrite (unlink_spec level picked (t_nodes t2) here below2).
  - cbn [mbind outcome_bind]. eexists _, (without picked below2). split; [reflexivity |]. cbn [set_disk set_nodes t_nodes t_memTable t_rOnly t_filter].
    rewrite En. split; [rewrite list_lookup_insert_ne by lia; apply list_lookup_insert_eq; by rewrite length_insert |].
    split; [apply list_lookup_insert_eq; by rewrite !length_insert |]. split; [| done].
    unfold without at 1. rewrite Hp, filter_app. fold (without picked below). fold (without picked ns). by rewrite (without_fresh picked ns Fp).
  - rewrite En. by rewrite list_lookup_insert_ne by lia.
  - rewrite En. by apply list_lookup_insert_eq.
  - done.
  - rewrite Hpa. apply NoDup_app. split; [done |]. split; [| done]. intros a Ha1 Ha2. by apply (Fb a).
  - intros a Ha1. rewrite Hpa. intros [Ha2 | Ha2]%elem_of_app; [by apply (Hdisj a) | by apply (Fh a)].
Qed.

(** C27: Compaction of a level moves the picked tables down.  When level [level] is
    compacted, the picked nodes are merged into one run in which each key has the
    value of the last picked table that holds it (the lower level first, then the
    upper one from old to new) and no other key is present; the run is written
    without gaps as tables of the next level; the picked nodes, and no others, are
    taken out of both levels; memory does not change. *)
Theorem compactLevel_merges t (level : nat) here below run :
  t_nodes t !! level = Some here -> t_nodes t !! S level = Some below -> here <> [] -> mergeable t here below run ->
  f_rep (t_filter t) [] -> f_width (t_filter t) = wd -> (S level < length (t_levelToSeq t))%nat -> sst_free t ->
  exists picked t' chunks ns l, pickCompactNodes t (Z.of_nat level) = Ret picked /\ compactLevel conf t (Z.of_nat level) = Ret t' /\
    Forall2 (node_run wd) ns chunks /\ sorted (mjoin chunks) /\
    (forall key, kv_get (mjoin chunks) key = first_get (rev (run <$> picked)) key) /\
    t_nodes t' !! level = Some (without picked here) /\
    t_nodes t' !! S level = Some l /\ l ≡ₚ without picked below ++ ns /\
    t_memTable t' = t_memTable t /\ t_rOnly t' = t_rOnly t.
Proof.
  intros Hh Hb Hne Hmg Hrep Hw Hs Hf. destruct (pickCompactNodes_spec t level here below Hh Hb Hne) as [p Ep].
  set (picked := List.filter p below ++ List.filter p here) in *.
  assert (sublist picked (below ++ here)) as Hsub by (apply sublist_app; apply List_filter_sublist).
  destruct (merged_ok t here below run picked Hmg Hsub) as (Hread & Hsort & Hck).
  destruct (lookup_lt_is_Some_2 _ _ Hs) as [s Es].
  destruct (open_sst_spec t (Z.of_nat (S level)) (s32 (s + 1)) Hf) as (b & t1 & E1 & Hflt & Hg1).
  set (kvs := run_of (mjoin (run <$> picked))) in *. set (limit := u64 (SSTSize conf * Pow10 (Z.of_nat (S level)))).
  assert (exists t2 chunks ns, compact_loop conf (Z.of_nat (S level)) limit kvs t1 (NewSSTWriter b) (s32 (s + 1)) = Ret (t2, true) /\
    mjoin chunks = kvs /\ Forall2 (node_run wd) ns chunks /\ grown t t2 (S level) ns) as (t2 & chunks & ns & E2 & Ej & HF & Hg2).
  { destruct (decide (kvs = [])) as [-> | Hkne]; [exists t1, [], []; split; [done |]; split; [done |]; by split |].
    destruct (compact_loop_spec (S level) limit kvs t1 (NewSSTWriter b) (s32 (s + 1)) []) as (t2 & chunks & ns & E & Ej & HF & Hg & _).
    - done.
    - apply u64_range.
    - exists b, (t_filter t1). rewrite Hflt. done.
    - done.
    - rewrite (gr_nodes _ _ _ _ (Hg1 (S level)) _ Hb). rewrite list_lookup_insert_eq by (by eapply lookup_lt_Some). by eexists.
    - by rewrite (gr_seq _ _ _ _ (Hg1 (S level))).
    - by apply (gr_free _ _ _ _ (Hg1 (S level))).
    - exists t2, chunks, ns. split; [done |]. split; [done |]. split; [done |]. apply (grown_trans t t1 t2 (S level) [] ns); [by eexists | done | done]. }
  destruct (removeNodes_spec t t2 level here below run picked ns Hmg Hsub Hh Hb Hg2) as (t3 & l & E3 & N1 & N2 & Hl & M1 & M2 & _).
  destruct (tryTriggerCompact_at t3 (S level)) as [c E4]; [by eexists |]. destruct (gr_mem _ _ _ _ Hg2) as (G1 & G2 & _).
  exists picked, (set_nodes t3 (t_nodes t3) (t_levelToSeq t3) (t_next t3) c), chunks, ns, l. split; [done |]. split.
  - unfold compactLevel. rewrite (go_index_nat _ _ _ Hh). cbn [mbind outcome_bind].
    destruct here as [| n0 here]; [done |]. cbn [length Nat.eqb]. rewrite Ep. cbn [mbind outcome_bind].
    replace (Z.of_nat level + 1) with (Z.of_nat (S level)) by lia. rewrite (go_index_nat _ _ _ Es). cbn [mbind outcome_bind].
    rewrite E1, (picked_spec conf f0 m0 Hconf picked _ Hread). cbn [mbind outcome_bind]. fold limit kvs. rewrite E2. cbn [mbind outcome_bind negb].
    rewrite E3. cbn [mbind outcome_bind]. exact E4.
  - split; [done |]. split; [rewrite Ej; apply run_of_sorted |]. split; [intros key; rewrite Ej; by apply run_of_join |].
    cbn [set_nodes t_nodes t_memTable t_rOnly]. rewrite M1, M2. done.
Qed.
End Compact.
