(* ===== verification/LsmCases.v ===== *)
(** * LSM tree: concrete trees

    Witnesses of the theorems on the tree, with the bloom filter and the skip list
    of the repository, and histories on which it loses a write or answers with an
    older value. *)
From S2P Require Import Prelude LsmCodec LsmFilter LsmKeys LsmSkiplist LsmTable LsmTableProof GoStrings LsmNames LsmTree LsmTreeProof LsmRecover LsmCompact.

Definition ex_skiplist : Skiplist := NewSkiplist (fun _ => 0%nat).

(** Tables of 20 bytes, blocks of 8. *)
Definition ex_tree_conf : Config :=
  NewConfig ex_bloom ex_skiplist [WithSSTSize 20; WithSSTDataBlockSize 8; WithFilter ex_bloom; WithMemtableConstructor ex_skiplist].

Lemma ex_conf_ok : conf_ok ex_tree_conf ex_bloom ex_skiplist.
Proof. split; [split; [done | apply ex_bloom_rep] | split; [done | exists []; split; [apply NewSkiplist_ok | done]] | done | by vm_compute | by vm_compute]. Qed.

(** Operations with the compactor's choices written out. *)
Inductive step := SPut (key value : bytes) | SRound (r : request).

Definition do_step (t : outcome (result treeerr Tree)) (s : step) : outcome (result treeerr Tree) :=
  t ← t;
  match t with
  | Err e => Ret (Err e)
  | Ok t =>
      match s with
      | SPut key value =>
          r ← Put ex_tree_conf t key value None;
          match r with (t, Ok _) => Ret (Ok t) | (_, Err e) => Ret (Err e) end
      | SRound r => t ← compact_round ex_tree_conf t r; Ret (Ok t)
      end
  end.

Definition do_steps (steps : list step) : outcome (result treeerr Tree) :=
  foldl do_step (NewTree ex_tree_conf fresh_disk) steps.

Definition get_after (steps : list step) (key : bytes) : outcome answer :=
  t ← do_steps steps; match t with Err _ => Panic "no tree" | Ok t => Get t key end.

Definition big : bytes := replicate 250 7.

(** Two full memtables: [97] is 1 in the older and 2 in the newer, [98] is only in
    the older. *)
Definition two_tables : list step :=
  [SPut [98] [5]; SPut [97] (1 :: replicate 20 0); SPut [97] (2 :: replicate 20 0)].

(** Memtables are offered to the compactor by goroutines of their own, so a newer
    one may be taken first.  Then the older one is dropped from memory before it
    is on disk, and its write of [98] is gone; and once it is on disk it counts as
    newer, so [97] has its old value again. *)
Theorem out_of_order_flush :
  get_after two_tables [98] = Ret (Ok (Some [5])) /\
  get_after (two_tables ++ [SRound (MemReq 1)]) [98] = Ret (Ok None) /\
  get_after two_tables [97] = Ret (Ok (Some (2 :: replicate 20 0))) /\
  get_after (two_tables ++ [SRound (MemReq 1); SRound (MemReq 0)]) [97] = Ret (Ok (Some (1 :: replicate 20 0))).
Proof. by vm_compute. Qed.

(** Keys aa, abb, abc in a first table, b in a second and c in a third. *)
Definition three_tables : list step :=
  [SPut [97; 97] [1]; SPut [97; 98; 98] [2]; SPut [97; 98; 99] big; SPut [98] big; SPut [99] big;
   SRound (MemReq 0); SRound (MemReq 0); SRound (MemReq 0)].

(** Compaction can hide a write.  The start key of a node is the separator
    before its first key, "a" for a node that starts at "b", so the ranges of
    neighbouring nodes overlap; [levelBinarySearch] takes the node of "b" for "abb"
    and stops there.  After a compaction of level 0 that writes three tables, [Get]
    does not find "abb", which it found before. *)
Theorem level_search_misses :
  get_after three_tables [97; 98; 98] = Ret (Ok (Some [2])) /\
  get_after (three_tables ++ [SRound (LevelReq 0)]) [97; 98; 98] = Ret (Ok None) /\
  get_after (three_tables ++ [SRound (LevelReq 0)]) [98] = Ret (Ok (Some big)).
Proof. by vm_compute. Qed.

(** Four tables of level 0: b; x with value 1; b; b and x with value 2. *)
Definition four_tables : list step :=
  [SPut [98] big; SPut [120] (1 :: big); SPut [98] big; SPut [98] [3]; SPut [120] (2 :: big);
   SRound (MemReq 0); SRound (MemReq 0); SRound (MemReq 0); SRound (MemReq 0)].

(** Compaction can bring an older value back.  [pickCompactNodes] picks the nodes
    of level 0 that meet the range of two of them.  A newer node that meets it is
    merged into level 1 while an older node of level 0 that does not, but has a key
    in common with the newer one, stays and is asked first: [Get] of "x" is 2 before
    the compaction and 1 after it. *)
Theorem level_compaction_stale :
  get_after four_tables [120] = Ret (Ok (Some (2 :: big))) /\
  get_after (four_tables ++ [SRound (LevelReq 0)]) [120] = Ret (Ok (Some (1 :: big))).
Proof. by vm_compute. Qed.

(** A crash between the creation of a table's file and its contents leaves an empty
    file; the tree does not open again. *)
Definition crash_in_flush (t : @Tree BloomFilter Skiplist) : outcome (result treeerr Tree) :=
  match open_sst t (sstFile 0 1) with Ok (t, _) => NewTree ex_tree_conf (t_disk t) | Err e => Ret (Err e) end.

Theorem empty_table_blocks :
  (t ← do_steps two_tables; match t with Ok t => r ← crash_in_flush t; Ret (match r with Err e => Some e | Ok _ => None end) | Err e => Ret (Some e) end) =
  Ret (Some (ReadErr SeekErr)).
Proof. by vm_compute. Qed.

(** ** Witnesses *)

Definition ex_ops : list op :=
  [OPut [97] [1]; OPut [98] big; OFlush; OPut [97] [2]; ORestart; OPut [99] big; ORestart; OFlush; OPut [98] [3]].

Lemma ex_ops_ok : Forall op_ok ex_ops.
Proof.
  assert (forall b v, 0 < b < 256 -> zlen v <= 300 -> kv_ok (mkKV [b] v)) as Hk.
  { intros b v Hb Hv. split; [by exists [], b |]. unfold pair_max. cbn [Key Value]. rewrite zlen_cons, zlen_nil. lia. }
  repeat constructor; apply Hk; by vm_compute.
Qed.

Lemma history_refines_witness : exists t, run_ops ex_tree_conf ex_ops = Ret (Ok t) /\
  forall key, Get t key = Ret (Ok (foldl spec_op ∅ ex_ops !! key)).
Proof. exact (history_refines ex_tree_conf ex_bloom ex_skiplist ex_conf_ok ex_ops ex_ops_ok eq_refl). Defined.

Definition ex_tree : @Tree BloomFilter Skiplist :=
  mkTree (mkDisk ∅ (<["0.wal" := EFile []]> ∅)) ex_bloom ex_skiplist 1 [] (Some "0.wal") [[]; []] 0 [0; 0] 2 [] [].

Lemma ex_skiplist_rep : mt_rep ex_skiplist [].
Proof. exists []. split; [apply NewSkiplist_ok | done]. Qed.

Lemma put_get_witness : exists t', Put ex_tree_conf ex_tree [97] big None = Ret (t', Ok tt) /\
  forall k, Get t' k = if decide ([97] = k) then Ret (Ok (Some big)) else Get ex_tree k.
Proof.
  apply (put_get ex_tree_conf ex_tree ex_skiplist "0.wal" [] [] [97] big).
  - reflexivity.
  - apply ex_skiplist_rep.
  - intros name. cbn [ex_tree t_disk d_wal].
    destruct (decide ("0.wal" = name)) as [<- |]; [by rewrite lookup_insert_eq | by rewrite lookup_insert_ne].
  - reflexivity.
  - split; [apply ex_skiplist_rep | constructor].
  - split; by vm_compute.
Defined.

(** A memtable with the pair a = 1. *)
Definition ex_full : Skiplist := match LsmSkiplist.Put ex_skiplist [97] [1] with Ret s => s | Panic _ => ex_skiplist end.

Lemma ex_full_rep : mt_rep ex_full [mkKV [97] [1]].
Proof. destruct (mt_Put_rep ex_skiplist [] [97] [1] ex_skiplist_rep) as (s & E & Hs). injection E as <-. exact Hs. Qed.

Definition ex_item : memTableCompactItem := mkItem "0.wal" 1 ex_full.
Definition ex_tree2 : @Tree BloomFilter Skiplist :=
  mkTree (mkDisk ∅ (<["0.wal" := EFile []]> ∅)) ex_bloom ex_skiplist 2 [ex_item] (Some "1.wal") [[]; []] 1 [0; 0] 3 [] [].

Lemma flush_preserves_witness : exists t', compactMemTable ex_tree_conf ex_tree2 ex_item = Ret t' /\ t_rOnly t' = [] /\
  forall key, Get t' key = Get ex_tree2 key.
Proof.
  apply (flush_preserves ex_tree_conf ex_tree2 ex_item [] [] [] [mkKV [97] [1]] 0 [] [] [] [[]]).
  - reflexivity.
  - split; [apply ex_skiplist_rep |]. constructor; [apply ex_full_rep | constructor].
  - reflexivity.
  - discriminate.
  - split; [by vm_compute |]. split; [by vm_compute |]. constructor; [discriminate | constructor].
  - exists [], 97. split; [reflexivity | lia].
  - apply ex_bloom_rep.
  - reflexivity.
  - constructor.
  - constructor; [constructor | constructor].
  - reflexivity.
  - reflexivity.
Defined.

(** Two nodes over the run of [ex_run]. *)
Definition ex_built : outcome (list pnode) :=
  r ← w_Appends (table_conf ex_tree_conf) (NewSSTWriter []) ex_bloom ex_run;
  p ← Finish (table_conf ex_tree_conf) (fst r) (snd r);
  let '(size, btf, ix, w, f) := (p : Z * gmap Z bytes * list Index * SSTWriter * BloomFilter) in
  n ← NewNode "0_1.sst" (NewSSTReader (fst (w_dest w))) 0 1 size btf ix;
  Ret [mkPnode 1 n; mkPnode 2 n].

Definition ex_nodes : list pnode := match ex_built with Ret l => l | Panic _ => [] end.

Lemma ex_nodes_shape : exists n, ex_nodes = [mkPnode 1 n; mkPnode 2 n] /\ forall a, readable ex_bloom (mkPnode a n) ex_run.
Proof.
  destruct (build_spec (table_conf ex_tree_conf) [] ex_bloom ex_run "0_1.sst" 0 1) as
    (w1 & f1 & size & btf & ix & w2 & f2 & n & e0 & bs & bms & E1 & E2 & E3 & _ & _ & _ & Ht & _);
    [done | apply ex_bloom_rep | done | apply ex_run_ok | apply ex_run_ok | apply ex_run_ok |].
  exists n. split.
  { unfold ex_nodes, ex_built. rewrite E1. cbn [mbind outcome_bind fst snd]. rewrite E2. cbn [mbind outcome_bind]. by rewrite E3. }
  assert (n_sstReader n = NewSSTReader (fst (w_dest w2))) as Hrd.
  { unfold NewNode in E3. inv_bind. done. }
  intros a. split; [done |]. split; [apply ex_run_ok |]. exists e0, bs, bms, (fst (w_dest w2)). split; [done | by left].
Qed.

Definition ex_tree3 : @Tree BloomFilter Skiplist :=
  mkTree (mkDisk ∅ ∅) ex_bloom ex_skiplist 0 [] (Some "1.wal") [ex_nodes; []] 1 [2; 0] 3 [] [].

Lemma ex_mergeable : mergeable ex_bloom ex_tree3 ex_nodes [] (fun _ => ex_run).
Proof.
  destruct ex_nodes_shape as (n & E & Hr). rewrite E. clear E. cbn [app]. split.
  - split; [apply NoDup_cons; split; [intros Hin%list_elem_of_singleton; done | apply NoDup_singleton] |].
    cbn [addrs fmap list_fmap pn_addr]. constructor; [by vm_compute |]. constructor; [by vm_compute | constructor].
  - assert (forall a, readable ex_bloom (mkPnode a n) ex_run /\ sorted ex_run /\ Forall (fun kv => key_ok (Key kv)) ex_run) as Hn.
    { intros a. split; [apply Hr |]. split; [apply ex_run_ok |].
      repeat constructor; [by exists [], 97 | by exists [], 98 | by exists [98], 99 | by exists [], 100]. }
    constructor; [apply Hn |]. constructor; [apply Hn | constructor].
  - split; by vm_compute.
Qed.

Lemma compactLevel_merges_witness : exists picked t' chunks ns l,
  pickCompactNodes ex_tree3 0 = Ret picked /\ compactLevel ex_tree_conf ex_tree3 0 = Ret t' /\
  Forall2 (node_run (f_width ex_bloom)) ns chunks /\ sorted (mjoin chunks) /\
  (forall key, kv_get (mjoin chunks) key = first_get (rev ((fun _ => ex_run) <$> picked)) key) /\
  t_nodes t' !! 0%nat = Some (without picked ex_nodes) /\
  t_nodes t' !! 1%nat = Some l /\ l ≡ₚ without picked [] ++ ns /\ t_memTable t' = t_memTable ex_tree3 /\ t_rOnly t' = t_rOnly ex_tree3.
Proof.
  apply (compactLevel_merges ex_tree_conf ex_bloom ex_skiplist ex_conf_ok ex_tree3 0%nat ex_nodes [] (fun _ => ex_run)).
  - reflexivity.
  - reflexivity.
  - destruct ex_nodes_shape as (n & E & _). rewrite E. clear E. discriminate.
  - exact ex_mergeable.
  - apply ex_bloom_rep.
  - reflexivity.
  - cbn. lia.
  - intros l s. cbn [ex_tree3 t_disk d_sst]. by rewrite lookup_empty.
Defined.
