(* ===== verification/HttpRouterProof.v ===== *)
(** * HTTP framework: theorems on routing

    The trie as a table from lists of parts to patterns, [search] against the
    relation [matches] between patterns and paths, the router as a table of
    handlers, and [compose] as nested calls. *)
From Stdlib Require Import Ascii.
From S2P Require Import Prelude GoStrings HttpRouter.

(** ** Patterns *)

Abbreviation star := "*"%char.
Abbreviation colon := ":"%char.

(** Parts as [parsePattern] makes them: not empty, and nothing after a star. *)
Fixpoint valid (ps : list string) : Prop :=
  match ps with
  | [] => True
  | p :: ps' => (exists b s, p = String b s /\ (b = star -> ps' = [])) /\ valid ps'
  end.

(** The parts of a path: what stands between its slashes, without the empty ones. *)
Definition path_parts (path : string) : list string := List.filter (fun p => negb (bool_decide (p = ""))) (Split "/" path).

(** A part that does not begin with a star. *)
Definition starless (p : string) : Prop := forall s, p <> String "*"%char s.

(** A pattern and the parts of a path. *)
Fixpoint matches (ps xs : list string) : bool :=
  match ps, xs with
  | [], [] => true
  | (String b _) as p :: ps', x :: xs' =>
      if decide (b = star) then true else (bool_decide (p = x) || bool_decide (b = colon)) && matches ps' xs'
  | _, _ => false
  end.

Lemma take_parts_valid vs : valid (take_parts vs).
Proof.
  induction vs as [| [| c s] vs IH]; cbn [take_parts]; [done | done |].
  destruct (decide (c = "*"%char)) as [-> | Hc]; split; try done.
  - by exists star, s.
  - exists c, s. split; [done |]. by intros ->.
Qed.

Lemma parsePattern_valid pat : valid (parsePattern pat).
Proof. apply take_parts_valid. Qed.

Lemma take_parts_id ps : valid ps -> take_parts ps = ps.
Proof.
  induction ps as [| p ps IH]; intros Hv; [done |]. destruct Hv as [(b & s & -> & Hb) Hv]. cbn [take_parts].
  destruct (decide (b = "*"%char)) as [-> |]; [by rewrite Hb | by rewrite IH].
Qed.

Lemma take_parts_lacks vs : Forall (lacks "/") vs -> Forall (lacks "/") (take_parts vs).
Proof.
  induction 1 as [| [| c s] vs Hv HF IH]; cbn [take_parts]; [constructor | done |].
  destruct (decide _); [constructor; [done | constructor] | by constructor].
Qed.

(** A path without stars is split as it stands. *)
Lemma parse_starless path : Forall starless (path_parts path) -> parsePattern path = path_parts path.
Proof.
  unfold parsePattern, path_parts. induction (Split "/" path) as [| [| c s] vs IH]; cbn [take_parts List.filter]; [done | |].
  - rewrite bool_decide_true by done. exact IH.
  - rewrite bool_decide_false by done. cbn [negb]. intros [Hc Hv]%Forall_cons. rewrite IH by done. rewrite decide_False; [done |].
    intros ->. by apply (Hc s).
Qed.

(** A pattern reads back from its normal form. *)
Lemma route_pattern_parts ps : valid ps -> Forall (lacks "/") ps -> parsePattern (route_pattern ps) = ps.
Proof.
  intros Hv Hl. unfold parsePattern, route_pattern. change ("/" +:+ Join "/" ps) with (String "/" (Join "/" ps)).
  cbn [Split]. rewrite decide_True by done. cbn [take_parts]. destruct (decide (ps = [])) as [-> | Hne]; [done |].
  rewrite Split_Join by done. by apply take_parts_id.
Qed.

Lemma parse_lacks pat : Forall (lacks "/") (parsePattern pat).
Proof. apply take_parts_lacks, Split_parts. Qed.

Lemma parse_route pat : parsePattern (route_pattern (parsePattern pat)) = parsePattern pat.
Proof. apply route_pattern_parts; [apply parsePattern_valid | apply parse_lacks]. Qed.

(** ** The trie as a table *)

Fixpoint find_child (key : string) (cs : list node) : option node :=
  match cs with
  | [] => None
  | c :: cs' => if decide (part c = key) then Some c else find_child key cs'
  end.

(** The pattern at the end of a path of exact parts; empty if there is none. *)
Fixpoint pattern_at (n : node) (ps : list string) : string :=
  match ps with
  | [] => pattern n
  | p :: ps' => match find_child p (children n) with Some c => pattern_at c ps' | None => "" end
  end.

Lemma find_child_Some key cs c : find_child key cs = Some c -> c ∈ cs /\ part c = key.
Proof.
  induction cs as [| d cs IH]; cbn [find_child]; [done |]. destruct (decide (part d = key)) as [Ed |].
  - intros [= ->]. split; [by left | done].
  - intros [Hin Hp]%IH. split; [by right | done].
Qed.

Lemma find_child_In cs c : NoDup (part <$> cs) -> c ∈ cs -> find_child (part c) cs = Some c.
Proof.
  induction cs as [| d cs IH]; intros Hnd Hin; [by apply not_elem_of_nil in Hin |]. inversion Hnd as [| ? ? Hn Hnd']; subst.
  cbn [find_child]. apply elem_of_cons in Hin as [-> | Hin]; [by rewrite decide_True |].
  rewrite decide_False; [by apply IH |]. intros E. apply Hn. rewrite E. by apply list_elem_of_fmap_2.
Qed.

(** The children of a node have different parts, the wildcards are marked, and
    below a star there is nothing. *)
Definition child_ok (c : node) : Prop := exists b s, part c = String b s /\ isWild c = bool_decide (b = colon \/ b = star) /\
  (b = star -> children c = [] /\ pattern c <> "").

Inductive wf : node -> Prop :=
  wf_node pat prt cs w : NoDup (part <$> cs) -> Forall wf cs -> Forall child_ok cs -> wf (Node pat prt cs w).

Lemma wf_inv n : wf n -> NoDup (part <$> children n) /\ Forall wf (children n) /\ Forall child_ok (children n).
Proof. by intros []. Qed.

Lemma update_child_spec f key cs : (forall c, c ∈ cs -> part c = key -> exists c', f c = Ret c' /\ part c' = part c) ->
  match find_child key cs with
  | None => update_child f key cs = None
  | Some c => exists c' cs', update_child f key cs = Some (Ret cs') /\ f c = Ret c' /\
      part <$> cs' = part <$> cs /\ (forall x, x ∈ cs' -> x = c' \/ x ∈ cs) /\
      forall k, find_child k cs' = if decide (k = key) then Some c' else find_child k cs
  end.
Proof.
  induction cs as [| d cs IH]; intros Hf; cbn [find_child update_child]; [done |].
  destruct (decide (part d = key)) as [Ed | Ed].
  - destruct (Hf d) as (c' & E & Ep); [by left | done |]. exists c', (c' :: cs). rewrite E. split; [done |]. split; [done |].
    split; [cbn; by rewrite Ep |]. split; [intros x [-> | Hx]%elem_of_cons; [by left | right; by right] |].
    intros k. cbn [find_child]. rewrite Ep, Ed. destruct (decide (key = k)), (decide (k = key)); congruence.
  - specialize (IH ltac:(intros c Hc; apply Hf; by right)). destruct (find_child key cs) as [c |]; [| by rewrite IH].
    destruct IH as (c' & cs' & E & Ef & Ep & Hin & Hk). exists c', (d :: cs'). rewrite E. split; [done |]. split; [done |].
    split; [cbn; by rewrite Ep |]. split; [intros x [-> | Hx]%elem_of_cons; [right; by left | destruct (Hin x Hx); [by left | right; by right]] |].
    intros k. cbn [find_child]. rewrite Hk. destruct (decide (part d = k)) as [<- |]; [by rewrite decide_False | done].
Qed.

Lemma find_child_app key cs c : part c ∉ part <$> cs ->
  find_child key (cs ++ [c]) = if decide (key = part c) then Some c else find_child key cs.
Proof.
  induction cs as [| d cs IH]; intros Hn; cbn [app find_child].
  - destruct (decide (part c = key)), (decide (key = part c)); congruence.
  - cbn in Hn. apply not_elem_of_cons in Hn as [Hd Hn]. destruct (decide (part d = key)) as [<- |]; [by rewrite decide_False |].
    by apply IH.
Qed.

Lemma find_child_None key cs : find_child key cs = None -> key ∉ part <$> cs.
Proof.
  induction cs as [| d cs IH]; cbn [find_child]; intros E; [apply not_elem_of_nil |].
  destruct (decide (part d = key)) as [-> |] eqn:Ed; [done |]. cbn. apply not_elem_of_cons. split; [congruence | by apply IH].
Qed.

Lemma pattern_at_fresh p w ps : pattern_at (Node "" p [] w) ps = "".
Proof. by destruct ps. Qed.

(** What an insertion keeps of the node itself. *)
Definition same_node (n n' : node) (ps : list string) (pat : string) : Prop :=
  part n' = part n /\ isWild n' = isWild n /\ (ps = [] -> children n' = children n /\ pattern n' = pat).

Lemma insert_spec ps : forall n pat, valid ps -> wf n -> pat <> "" ->
  exists n', insert_node n pat ps = Ret n' /\ wf n' /\ same_node n n' ps pat /\
    forall qs, pattern_at n' qs = if decide (qs = ps) then pat else pattern_at n qs.
Proof.
  induction ps as [| p ps IH]; intros n pat Hv Hn Hpat; cbn [insert_node].
  { exists (Node pat (part n) (children n) (isWild n)). split; [done |]. apply wf_inv in Hn as (H1 & H2 & H3).
    split; [by constructor |]. split; [done |]. intros [| q qs]; by rewrite ?decide_True, ?decide_False by done. }
  destruct Hv as [(b & s & -> & Hb) Hv]. pose proof (wf_inv n Hn) as (H1 & H2 & H3).
  rewrite Forall_forall in H2, H3.
  assert (forall c, c ∈ children n -> part c = String b s -> exists c', insert_node c pat ps = Ret c' /\ part c' = part c) as Hf.
  { intros c Hc _. destruct (IH c pat Hv (H2 c Hc) Hpat) as (c' & E & _ & [Hp _] & _). by exists c'. }
  pose proof (update_child_spec (fun c => insert_node c pat ps) (String b s) (children n) Hf) as Hu.
  destruct (find_child (String b s) (children n)) as [c |] eqn:Ec.
  - destruct Hu as (c' & cs' & -> & Ec' & Ep & Hin & Hk). cbn [mbind outcome_bind].
    apply find_child_Some in Ec as Hc. destruct Hc as [Hc Hpc].
    destruct (IH c pat Hv (H2 c Hc) Hpat) as (c2 & E2 & Hw2 & (Hs1 & Hs2 & Hs3) & Hat). rewrite E2 in Ec'. injection Ec' as ->.
    eexists. split; [reflexivity |]. split; [constructor |].
    + by rewrite Ep.
    + apply Forall_forall. intros x [-> | Hx]%Hin; auto.
    + apply Forall_forall. intros x [-> | Hx]%Hin; [| by apply H3]. destruct (H3 c Hc) as (b' & s' & Eb & Ew & Hst).
      exists b', s'. rewrite Hs1, Hs2. split; [done |]. split; [done |]. intros ->. destruct (Hst eq_refl) as [Hch Hpn].
      assert (b = star) as -> by congruence. destruct (Hs3 (Hb eq_refl)) as [-> ->]. done.
    + split; [split; [done |]; split; [done | done] |]. intros [| q qs]; cbn [pattern_at children]; [done |].
      rewrite Hk. destruct (decide (q = String b s)) as [-> | Hq].
      * rewrite Hat, Ec. destruct (decide (qs = ps)) as [-> |]; [by rewrite decide_True | rewrite decide_False by congruence; done].
      * rewrite decide_False by congruence. done.
  - rewrite Hu. cbn [first_byte mbind outcome_bind]. set (w := bool_decide _).
    assert (wf (Node "" (String b s) [] w)) as Hw0 by (constructor; constructor).
    destruct (IH (Node "" (String b s) [] w) pat Hv Hw0 Hpat) as (c' & E & Hw & (Hs1 & Hs2 & Hs3) & Hat). rewrite E. cbn [mbind outcome_bind].
    cbn [part isWild] in Hs1, Hs2. apply find_child_None in Ec as Hnot.
    eexists. split; [reflexivity |]. split; [constructor |].
    + rewrite fmap_app. apply NoDup_app. split; [done |]. cbn. rewrite Hs1. split; [| apply NoDup_singleton].
      intros x Hx ->%list_elem_of_singleton. done.
    + apply Forall_app. split; [by apply Forall_forall | by constructor].
    + apply Forall_app. split; [by apply Forall_forall |]. constructor; [| constructor].
      exists b, s. split; [done |]. split; [done |]. intros ->. destruct (Hs3 (Hb eq_refl)) as [-> ->]. done.
    + split; [done |]. intros [| q qs]; cbn [pattern_at children]; [done |]. rewrite find_child_app by (by rewrite Hs1). rewrite Hs1.
      destruct (decide (q = String b s)) as [-> | Hq].
      * rewrite Hat, Ec, pattern_at_fresh. destruct (decide (qs = ps)) as [-> |]; [by rewrite decide_True | by rewrite decide_False by congruence].
      * by rewrite decide_False by congruence.
Qed.

(** ** Search *)

Lemma first_result_Some f cs r : first_result f cs = Some r -> exists c, c ∈ cs /\ f c = Some r.
Proof.
  induction cs as [| c cs IH]; cbn [first_result]; [done |]. destruct (f c) as [x |] eqn:Ec.
  - intros [= ->]. exists c. split; [by left | done].
  - intros (d & Hd & Ed)%IH. exists d. split; [by right | done].
Qed.

Lemma first_result_None f cs c : first_result f cs = None -> c ∈ cs -> f c = None.
Proof.
  induction cs as [| d cs IH]; cbn [first_result]; intros E Hin; [by apply not_elem_of_nil in Hin |].
  destruct (f d) eqn:Ed; [done |]. apply elem_of_cons in Hin as [-> | Hin]; [done | by apply IH].
Qed.

Lemma matchChildren_elem n p c : c ∈ matchChildren n p <-> c ∈ children n /\ (part c = p \/ isWild c = true).
Proof.
  unfold matchChildren. rewrite elem_of_app, !list_elem_of_In, !filter_In, <- !list_elem_of_In.
  rewrite andb_true_iff, negb_true_iff, bool_decide_eq_true, bool_decide_eq_false. destruct (decide (part c = p)); tauto.
Qed.

(** A node below the root that is a star answers with itself. *)
Lemma search_star n xs : wf n -> forall c s, c ∈ children n -> part c = String star s -> search c xs = Some c.
Proof.
  intros Hn c s Hc Ep. apply wf_inv in Hn as (_ & _ & H3). rewrite Forall_forall in H3.
  destruct (H3 c Hc) as (b' & s' & Eb & _ & Hst). rewrite Ep in Eb. injection Eb as <- <-. destruct (Hst eq_refl) as [_ Hp].
  assert (with_pattern c = Some c) as Ec by (unfold with_pattern; by rewrite decide_False). destruct xs; cbn [search]; [done |].
  rewrite Ep. assert (String.prefix "*" (String star s) = true) as -> by (by destruct s). exact Ec.
Qed.

Lemma search_step n x xs : (forall s, part n <> String star s) -> search n (x :: xs) = first_result (fun c => search c xs) (matchChildren n x).
Proof.
  intros Hns. cbn [search]. destruct (part n) as [| b s] eqn:E; [done |]. cbn [String.prefix].
  destruct (ascii_dec "*" b) as [<- |]; [by destruct (Hns s) | done].
Qed.

Lemma search_complete ps : forall n xs, wf n -> (forall s, part n <> String star s) -> pattern_at n ps <> "" ->
  matches ps xs = true -> search n xs <> None.
Proof.
  induction ps as [| p ps IH]; intros n xs Hn Hns Hp Hm.
  { destruct xs; [| done]. cbn. unfold with_pattern. by rewrite decide_False. }
  destruct p as [| b s]; [done |]. destruct xs as [| x xs]; [done |]. cbn [pattern_at] in Hp.
  destruct (find_child (String b s) (children n)) as [c |] eqn:Ec; [| done]. apply find_child_Some in Ec as [Hc Ep].
  pose proof (wf_inv n Hn) as (H1 & H2 & H3). rewrite Forall_forall in H2, H3. destruct (H3 c Hc) as (b' & s' & Ep' & Ew & Hst).
  rewrite Ep in Ep'. injection Ep' as <- <-. rewrite search_step by done. intros E. cbn [matches] in Hm.
  assert (c ∈ matchChildren n x) as Hin.
  { apply matchChildren_elem. split; [done |]. rewrite Ep, Ew, bool_decide_eq_true. destruct (decide (b = star)); [tauto |].
    apply andb_true_iff in Hm as [Hm _]. apply orb_true_iff in Hm as [Hm | Hm]; apply bool_decide_eq_true in Hm; tauto. }
  pose proof (first_result_None _ _ _ E Hin) as Hnone. cbv beta in Hnone. destruct (decide (b = star)) as [-> | Hb].
  - by rewrite (search_star n xs Hn c s Hc Ep) in Hnone.
  - apply andb_true_iff in Hm as [_ Hm]. apply (IH c xs (H2 c Hc)) in Hnone; [done | intros s' E'; congruence | done | done].
Qed.

(** *** Priority *)

(** Where two patterns part, [ps] has the part of the path itself, or [qs] has not. *)
Fixpoint prefers (ps qs xs : list string) : Prop :=
  match ps, qs, xs with
  | p :: ps', q :: qs', x :: xs' => if decide (p = q) then prefers ps' qs' xs' else p = x \/ q <> x
  | _, _, _ => True
  end.

Lemma first_result_app f cs ds : first_result f (cs ++ ds) = match first_result f cs with Some r => Some r | None => first_result f ds end.
Proof. induction cs as [| c cs IH]; cbn [app first_result]; [done |]. by destruct (f c). Qed.

(** The child with the part of the path is asked first. *)
Lemma search_exact_first n x xs : (forall s, part n <> String star s) -> NoDup (part <$> children n) ->
  match find_child x (children n) with
  | Some d => forall m, search d xs = Some m -> search n (x :: xs) = Some m
  | None => True
  end.
Proof.
  intros Hns Hnd. destruct (find_child x (children n)) as [d |] eqn:Ed; [| done]. intros m Hm. rewrite search_step by done.
  unfold matchChildren. rewrite first_result_app. apply find_child_Some in Ed as [Hd Hp].
  destruct (first_result (fun c => search c xs) (List.filter (fun c => bool_decide (part c = x)) (children n))) as [r |] eqn:Er.
  - apply first_result_Some in Er as (c & Hc & Es). apply list_elem_of_In, filter_In in Hc as [Hc%list_elem_of_In Ep%bool_decide_eq_true].
    pose proof (find_child_In _ _ Hnd Hc) as E1. pose proof (find_child_In _ _ Hnd Hd) as E2. rewrite Ep in E1. rewrite Hp in E2. congruence.
  - assert (d ∈ List.filter (fun c => bool_decide (part c = x)) (children n)) as Hin.
    { apply list_elem_of_In, filter_In. rewrite <- list_elem_of_In, bool_decide_eq_true. done. }
    pose proof (first_result_None _ _ _ Er Hin). congruence.
Qed.

(** What [search] finds, and that it is preferred to every other pattern that matches. *)
Lemma search_best xs : forall n m, wf n -> (forall s, part n <> String star s) -> search n xs = Some m ->
  exists ps, pattern_at n ps = pattern m /\ pattern m <> "" /\ matches ps xs = true /\
    forall qs, pattern_at n qs <> "" -> matches qs xs = true -> prefers ps qs xs.
Proof.
  induction xs as [| x xs IH]; intros n m Hn Hns E.
  { cbn in E. unfold with_pattern in E. destruct (decide (pattern n = "")); [done |]. injection E as <-. by exists []. }
  pose proof (wf_inv n Hn) as (H1 & H2 & H3). rewrite Forall_forall in H2, H3.
  assert (HX : exists c, c ∈ children n /\ (part c = x \/ isWild c = true) /\ search c xs = Some m /\
    forall q qs, q <> part c -> pattern_at n (q :: qs) <> "" -> matches (q :: qs) (x :: xs) = true -> part c = x \/ q <> x).
  { pose proof (search_exact_first n x xs Hns H1) as Hex. destruct (find_child x (children n)) as [d |] eqn:Ed.
    - apply find_child_Some in Ed as Hd. destruct Hd as [Hd Hp]. destruct (search d xs) as [m' |] eqn:Esd.
      + rewrite (Hex m' eq_refl) in E. injection E as ->. exists d. split_and!; [done | by left | done | by left].
      + rewrite search_step in E by done. apply first_result_Some in E as (c & [Hc Hm]%matchChildren_elem & Es). exists c. split_and!; try done.
        intros q qs Hq Hpat Hmt. right. intros ->. cbn [pattern_at] in Hpat. rewrite Ed in Hpat. destruct (H3 d Hd) as (b & s & Epd & _ & Hst).
        assert (x = String b s) as -> by congruence. destruct (decide (b = star)) as [-> | Hb].
        * by rewrite (search_star n xs Hn d s Hd Hp) in Esd.
        * cbn [matches] in Hmt. rewrite decide_False in Hmt by done. apply andb_true_iff in Hmt as [_ Hmt].
          apply (search_complete qs d xs (H2 d Hd)) in Esd; [done | intros s' E'; congruence | done | done].
    - rewrite search_step in E by done. apply first_result_Some in E as (c & [Hc Hm]%matchChildren_elem & Es). exists c. split_and!; try done.
      intros q qs Hq Hpat _. right. intros ->. cbn [pattern_at] in Hpat. by rewrite Ed in Hpat. }
  destruct HX as (c & Hc & Hm & Es & Hpref). destruct (H3 c Hc) as (b & s & Ep & Ew & Hst). destruct (decide (b = star)) as [-> | Hb].
  - rewrite (search_star n xs Hn c s Hc Ep) in Es. injection Es as <-. exists [part c]. cbn [pattern_at].
    rewrite (find_child_In _ c H1 Hc). split; [done |]. split; [by apply Hst |]. split; [by rewrite Ep |].
    intros [| q qs] Hq Hmt; [done |]. cbn [prefers]. destruct (decide (part c = q)) as [Eq | Hne]; [done |]. by eapply Hpref.
  - destruct (IH c m (H2 c Hc)) as (ps & Eps & Hne & Hmt & Hbest); [intros s' E'; congruence | done |].
    exists (part c :: ps). cbn [pattern_at]. rewrite (find_child_In _ c H1 Hc). split; [done |]. split; [done |]. split.
    { rewrite Ep. cbn [matches]. rewrite decide_False by done. rewrite Hmt, andb_true_r. apply orb_true_iff.
      destruct Hm as [Hm | Hm]; [left; apply bool_decide_eq_true; congruence |]. right. rewrite Ew in Hm. apply bool_decide_eq_true in Hm.
      apply bool_decide_eq_true. destruct Hm; [done | by destruct Hb]. }
    intros [| q qs] Hq Hmq; [done |]. cbn [prefers]. destruct (decide (part c = q)) as [<- | Hnq]; [| by eapply Hpref].
    cbn [pattern_at] in Hq. rewrite (find_child_In _ c H1 Hc) in Hq. apply Hbest; [done |]. rewrite Ep in Hmq. cbn [matches] in Hmq.
    rewrite decide_False in Hmq by done. by apply andb_true_iff in Hmq as [_ Hmq].
Qed.

(** ** Parameters *)

(** The parameters of a pattern on the parts of a path, part by part. *)
Fixpoint params_of (ps xs : list string) (params : gmap string string) : gmap string string :=
  match ps, xs with
  | (String b name) :: ps', x :: xs' =>
      if decide (b = colon) then params_of ps' xs' (<[name := x]> params)
      else if decide (b = star /\ name <> "") then <[name := Join "/" (x :: xs')]> params
      else params_of ps' xs' params
  | _, _ => params
  end.

Lemma bind_params_spec ps : forall pre xs params, valid ps -> matches ps xs = true ->
  bind_params ps (zlen pre) (pre ++ xs) params = Ret (params_of ps xs params).
Proof.
  induction ps as [| p ps IH]; intros pre xs params Hv Hm; [by destruct xs |].
  destruct Hv as [(b & s & -> & Hb) Hv]. destruct xs as [| x xs]; [done |]. cbn [bind_params first_byte mbind outcome_bind params_of tail_string].
  assert (go_index (pre ++ x :: xs) (zlen pre) = Ret x) as Hx.
  { apply go_index_Some. rewrite zlookup_app_r by lia. by rewrite Z.sub_diag. }
  assert (forall prm, matches ps xs = true -> bind_params ps (zlen pre + 1) (pre ++ x :: xs) prm = Ret (params_of ps xs prm)) as Hnext.
  { intros prm Hmt. specialize (IH (pre ++ [x]) xs prm Hv Hmt). rewrite zlen_app, zlen_cons, zlen_nil, <- app_assoc in IH. exact IH. }
  cbn [matches] in Hm. destruct (decide (b = colon)) as [-> | Hc].
  - rewrite Hx. cbn [mbind outcome_bind]. rewrite decide_False by (intros [? _]; done). apply Hnext.
    rewrite decide_False in Hm by done. by apply andb_true_iff in Hm as [_ Hm].
  - cbn [mbind outcome_bind]. destruct (decide (b = star)) as [-> | Hst].
    + destruct (decide (s = "")) as [-> | Hs].
      * rewrite decide_False by (simpl; lia). rewrite decide_False by tauto. rewrite (Hb eq_refl). by destruct xs.
      * rewrite decide_True by (split; [done |]; destruct s; [done | simpl; lia]). rewrite decide_True by done.
        rewrite go_slice_ok by (pose proof (zlen_nonneg pre); rewrite ?zlen_app; pose proof (zlen_nonneg (x :: xs)); lia).
        cbn [mbind outcome_bind]. rewrite take_ge by (rewrite length_drop; unfold zlen; lia).
        unfold zlen. rewrite Nat2Z.id, drop_app_length. done.
    + rewrite decide_False by tauto. rewrite decide_False by tauto. apply Hnext. by apply andb_true_iff in Hm as [_ Hm].
Qed.

(** ** The router *)

Section RouterProof.
Context {Hd : Type}.
Implicit Types r : @router Hd.

(** The table of routes: the handler last registered for a method and parts. *)
Abbreviation table := (gmap (string * list string) Hd).

Definition route_entry (t : table) (route : string * string * Hd) : table :=
  let '(method, pat, h) := route in <[(method, parsePattern pat) := h]> t.

Fixpoint add_all r (routes : list (string * string * Hd)) : outcome router :=
  match routes with
  | [] => Ret r
  | (method, pat, h) :: routes' => r ← addRoute r method pat h; add_all r routes'
  end.

(** Keys are told apart when method names have no dash. *)
Lemma route_key_inj m m' p p' : lacks "-" m -> lacks "-" m' -> route_key m p = route_key m' p' -> m = m' /\ p = p'.
Proof.
  assert (forall m p, route_key m p = m +:+ String "-" p) as Hk by done. rewrite !Hk. clear Hk.
  revert m'. induction m as [| c m IH]; intros [| c' m'] Hm Hm' E; rewrite ?app_Empty, ?app_String in E.
  - by injection E as ->.
  - injection E as <- _. by destruct Hm' as [? _].
  - injection E as -> _. by destruct Hm as [? _].
  - injection E as -> E2. destruct Hm as [_ Hm], Hm' as [_ Hm']. by destruct (IH m' Hm Hm' E2) as [-> ->].
Qed.

Lemma route_pattern_ne ps : route_pattern ps <> "".
Proof. done. Qed.

Record rep r (t : table) : Prop := {
  rp_wf m root : roots r !! m = Some root -> wf root /\ part root = "";
  rp_routes m ps : match roots r !! m with Some root => pattern_at root ps | None => "" end =
    match t !! (m, ps) with Some _ => route_pattern ps | None => "" end;
  rp_handlers m ps h : t !! (m, ps) = Some h -> handlers r !! route_key m (route_pattern ps) = Some h;
  rp_keys m ps : is_Some (t !! (m, ps)) -> lacks "-" m /\ valid ps /\ Forall (lacks "/") ps
}.

Lemma new_rep : rep newRouter ∅.
Proof. split; intros; cbn in *; rewrite ?lookup_empty in *; try done. Qed.

Lemma addRoute_rep r t method pat h : rep r t -> lacks "-" method ->
  exists r', addRoute r method pat h = Ret r' /\ rep r' (route_entry t (method, pat, h)).
Proof.
  intros [R1 R2 R3 R4] Hm. unfold addRoute, route_entry. set (ps := parsePattern pat).
  set (root := default empty_node (roots r !! method)).
  assert (wf root /\ part root = "") as [Hw Hp].
  { unfold root. destruct (roots r !! method) as [x |] eqn:E; [by eapply R1 |]. split; [constructor; constructor | done]. }
  destruct (insert_spec ps root (route_pattern ps)) as (root' & E & Hw' & [Hp' _] & Hat);
    [apply parsePattern_valid | done | done |].
  rewrite E. cbn [mbind outcome_bind]. eexists. split; [reflexivity |]. split; cbn [roots handlers].
  - intros m x. destruct (decide (method = m)) as [<- | Hne]; [rewrite lookup_insert_eq | rewrite lookup_insert_ne by done; apply R1].
    intros [= <-]. split; [done | congruence].
  - intros m qs. destruct (decide (method = m)) as [<- | Hne].
    + rewrite lookup_insert_eq, Hat. destruct (decide (qs = ps)) as [-> | Hq]; [by rewrite lookup_insert_eq |].
      rewrite lookup_insert_ne by congruence. rewrite <- R2. unfold root. destruct (roots r !! method); [done | by destruct qs].
    + rewrite !lookup_insert_ne by congruence. apply R2.
  - intros m qs h'. destruct (decide ((method, ps) = (m, qs))) as [[= <- <-] | Hne].
    + rewrite lookup_insert_eq. intros [= <-]. by rewrite lookup_insert_eq.
    + rewrite lookup_insert_ne by done. intros Hl. rewrite lookup_insert_ne; [by apply R3 |]. intros Ek.
      destruct (R4 m qs) as (Hm' & Hv & Hlk); [by eexists |]. destruct (route_key_inj _ _ _ _ Hm Hm' Ek) as [-> Epat].
      apply Hne. f_equal. rewrite <- (route_pattern_parts qs Hv Hlk), <- Epat. unfold ps. by rewrite parse_route.
  - intros m qs. destruct (decide ((method, ps) = (m, qs))) as [[= <- <-] | Hne].
    + intros _. split; [done |]. split; [apply parsePattern_valid | apply parse_lacks].
    + rewrite lookup_insert_ne by done. apply R4.
Qed.

Lemma add_all_rep routes : forall r t, rep r t -> Forall (fun x => lacks "-" x.1.1) routes ->
  exists r', add_all r routes = Ret r' /\ rep r' (foldl route_entry t routes).
Proof.
  induction routes as [| [[m p] h] routes IH]; intros r t Hr Hm; cbn [add_all foldl]; [by exists r |].
  inversion Hm as [| ? ? Hm1 Hm']; subst. destruct (addRoute_rep r t m p h Hr Hm1) as (r1 & -> & Hr1). cbn [mbind outcome_bind].
  by apply IH.
Qed.

(** C40: Routing is exact.  After any sequence of registrations, under any methods
    without a dash in their name, a request for a path none of whose parts begins with a
    star gets a handler exactly when some pattern registered for its method matches the
    path, part by part (":x" matches any part, "*x" the rest of one part or more, and ends
    its pattern; empty parts are left out).  The handler is the one last registered for
    such a pattern, and exact parts take priority: where another pattern that matches
    parts from the chosen one, the chosen one has the part of the path there or the other
    has not.  The parameters are the parts of the path at the places of the names, and
    neither registration nor lookup panics. *)
Theorem route_exact routes notFound : Forall (fun x => lacks "-" x.1.1) routes ->
  exists r, add_all newRouter routes = Ret r /\
    forall method path, Forall starless (path_parts path) ->
      let xs := path_parts path in let t := foldl route_entry ∅ routes in
      (exists ps h, t !! (method, ps) = Some h /\ matches ps xs = true /\
         (forall qs, is_Some (t !! (method, qs)) -> matches qs xs = true -> prefers ps qs xs) /\
         route_handler r notFound method path = Ret (Some h, Some (params_of ps xs ∅))) \/
      ((forall ps, is_Some (t !! (method, ps)) -> matches ps xs = false) /\
         route_handler r notFound method path = Ret (Some notFound, None)).
Proof.
  intros Hm. destruct (add_all_rep routes newRouter ∅ new_rep Hm) as (r & E & [R1 R2 R3 R4]). exists r. split; [done |].
  intros method path Hpl xs t. unfold route_handler, getRoute. rewrite (parse_starless path Hpl). fold xs. fold t in R2, R3, R4.
  specialize (R2 method). destruct (roots r !! method) as [root |] eqn:Er.
  - destruct (R1 _ _ Er) as [Hw Hp]. assert (forall s, part root <> String star s) as Hns by (intros s; by rewrite Hp).
    destruct (search root xs) as [n |] eqn:Es.
    + left. destruct (search_best xs root n Hw Hns Es) as (ps & Eps & Hne & Hmt & Hbest). rewrite R2 in Eps.
      destruct (t !! (method, ps)) as [h |] eqn:Et; [| by destruct Hne]. exists ps, h. split; [done |]. split; [done |]. split.
      { intros qs [h' Hq] Hmq. apply Hbest; [by rewrite R2, Hq | done]. }
      destruct (R4 method ps) as (_ & Hv & Hl); [by eexists |]. rewrite <- Eps, route_pattern_parts by done.
      rewrite (bind_params_spec ps [] xs ∅ Hv Hmt : bind_params ps 0 xs ∅ = _). cbn [mbind outcome_bind]. rewrite <- Eps. by rewrite (R3 _ _ _ Et).
    + right. split; [| done]. intros ps [h Hh]. destruct (matches ps xs) eqn:Hmt; [| done].
      destruct (search_complete ps root xs Hw Hns); [by rewrite R2, Hh | done | done].
  - right. split; [| done]. intros ps [h Hh]. specialize (R2 ps). rewrite Hh in R2. done.
Qed.
End RouterProof.

(** ** Middlewares *)

Section ComposeProof.
Context {C : Type}.
Implicit Types m : @Middleware C.

(** A run that calls [next] at most once. *)
Inductive once : run_of_mw C -> Prop :=
  | once_Done c : once (Done c)
  | once_Next c k : (forall c', exists d, k c' = Done d) -> once (CallNext c k).

(** The last handler: its calls of [next] do nothing. *)
Fixpoint drain (x : run_of_mw C) : C := match x with Done c => c | CallNext c k => drain (k c) end.

(** Each middleware around the ones after it. *)
Fixpoint onion (ms : list (@Middleware C)) (final : option (@Middleware C)) (c : C) : C :=
  match ms with
  | [] => match final with Some f => drain (f c) | None => c end
  | m :: ms' => match m c with Done c' => c' | CallNext c' k => drain (k (onion ms' final c')) end
  end.

Lemma run_drain x : forall i, run_mw (fun index c => Ret (index, c)) i x = Ret (i, drain x).
Proof. induction x as [c | c k IH]; intros i; cbn; [done |]. by rewrite IH. Qed.

Lemma dispatch_spec (ms : list (@Middleware C)) final : Forall (fun m => forall c, once (m c)) ms -> forall i index c, index < i ->
  exists j, i <= j /\ dispatch ms final i index c = Ret (j, onion ms final c).
Proof.
  induction 1 as [| m ms Hm HF IH]; intros i index c Hi; cbn [dispatch onion]; (destruct (Z.leb_spec i index); [lia |]).
  - exists i. split; [lia |]. destruct final as [f |]; [| done]. by rewrite run_drain.
  - destruct (Hm c) as [c' | c' k Hk]; cbn [run_mw]; [exists i; split; [lia | done] |].
    destruct (IH (i + 1) i c') as (j & Hj & ->); [lia |]. cbn [mbind outcome_bind fst snd].
    destruct (Hk (onion ms final c')) as [d ->]. exists j. split; [lia | done].
Qed.

(** Once a middleware has called [next], a second call of it panics. *)
Lemma dispatch_again (ms : list (@Middleware C)) final i index c : i <= index -> exists s, dispatch ms final i index c = Panic s.
Proof. intros Hi. destruct ms; cbn [dispatch]; (destruct (Z.leb_spec i index); [| lia]); by eexists. Qed.

(** Middlewares nest.  When every middleware calls [next] at most once, [compose]
    runs them in order, each around all that come after it, and the handler at the
    centre; a middleware that does not call [next] cuts off the rest.  A middleware
    that calls [next] twice panics. *)
Theorem compose_nests (ms : list (@Middleware C)) final c : Forall (fun m => forall c, once (m c)) ms ->
  compose ms final c = Ret (onion ms final c) /\
  forall m, (forall c, exists c1 k1, m c = CallNext c1 k1 /\ forall c', exists c2 k2, k1 c' = CallNext c2 k2) ->
    exists s, compose (m :: ms) final c = Panic s.
Proof.
  intros HF. unfold compose. split.
  - destruct (dispatch_spec ms final HF 0 (-1) c) as (j & _ & ->); [lia | done].
  - intros m Hm. destruct (Hm c) as (c1 & k1 & E & Hk). cbn [dispatch]. destruct (Z.leb_spec 0 (-1)); [lia |].
    rewrite E. cbn [run_mw]. destruct (dispatch_spec ms final HF (0 + 1) 0 c1) as (j & Hj & ->); [lia |].
    cbn [mbind outcome_bind fst snd]. destruct (Hk (onion ms final c1)) as (c2 & k2 & ->). cbn [run_mw].
    destruct (dispatch_again ms final (0 + 1) j c2 Hj) as [s ->]. by exists s.
Qed.
End ComposeProof.

(** ** Witnesses *)

Definition ex_routes : list (string * string * nat) :=
  [("GET", "/a/:id", 1%nat); ("GET", "/a/b", 2%nat); ("POST", "a//b/", 3%nat); ("GET", "/static/*file", 4%nat); ("GET", "/a/b", 5%nat); ("GET", "/:id/b", 6%nat); ("GET", "/users/:id", 7%nat)].

Lemma ex_routes_ok : Forall (fun x : string * string * nat => lacks "-" x.1.1) ex_routes.
Proof. repeat (constructor; [by repeat split |]). constructor. Qed.

Lemma route_exact_witness : exists r, add_all newRouter ex_routes = Ret r /\
  exists ps h, foldl route_entry ∅ ex_routes !! ("GET", ps) = Some h /\ matches ps ["a"; "b"] = true /\ prefers ps [":id"; "b"] ["a"; "b"] /\
    route_handler r 0%nat "GET" "/a/b" = Ret (Some h, Some (params_of ps ["a"; "b"] ∅)).
Proof.
  destruct (route_exact ex_routes 0%nat ex_routes_ok) as (r & E & Hr). exists r. split; [done |].
  destruct (Hr "GET" "/a/b") as [(ps & h & Ht & Hm & Hp & Hh) | [Hn _]].
  - vm_compute. repeat constructor; done.
  - exists ps, h. split; [exact Ht |]. split; [exact Hm |]. split; [| exact Hh]. apply Hp; [by vm_compute; eauto | by vm_compute].
  - specialize (Hn ["a"; "b"] ltac:(by vm_compute; eauto)). by vm_compute in Hn.
Defined.

(** An exact part wins over a parameter, and the last registration over the first. *)
Definition ask (method path key : string) : outcome (option nat * option string) :=
  r ← add_all newRouter ex_routes;
  a ← route_handler r 0%nat method path;
  Ret (fst a, match snd a with Some params => params !! key | None => None end).

Example ex_route_choice : ask "GET" "/a/b" "id" = Ret (Some 5%nat, None) /\ ask "GET" "/a/c" "id" = Ret (Some 1%nat, Some "c") /\
  ask "GET" "/static/x/y" "file" = Ret (Some 4%nat, Some "x/y") /\ ask "POST" "/a/c" "id" = Ret (Some 0%nat, None).
Proof. by vm_compute. Qed.

(** The path of a request is cut off after a part that begins with a star, as if it were a
    pattern: the route of a user answers for everything below such a part. *)
Theorem star_path_cut_off : ask "GET" "/users/*x/admin/delete" "id" = Ret (Some 7%nat, Some "*x") /\
  path_parts "/users/*x/admin/delete" = ["users"; "*x"; "admin"; "delete"] /\
  matches ["users"; ":id"] (path_parts "/users/*x/admin/delete") = false.
Proof. by vm_compute. Qed.

(** Two middlewares that log around [next], and a handler. *)
Definition logs (a b : nat) : list nat -> run_of_mw (list nat) := fun c => CallNext (c ++ [a]) (fun c' => Done (c' ++ [b])).

Lemma compose_nests_witness : compose [logs 1 2; logs 3 4] (Some (fun c => Done (c ++ [0%nat]))) [] = Ret [1; 3; 0; 4; 2]%nat /\
  forall m, (forall c, exists c1 k1, m c = CallNext c1 k1 /\ forall c', exists c2 k2, k1 c' = CallNext c2 k2) ->
    exists s, compose (m :: [logs 1 2; logs 3 4]) (Some (fun c => Done (c ++ [0%nat]))) [] = Panic s.
Proof.
  apply (compose_nests [logs 1 2; logs 3 4] (Some (fun c => Done (c ++ [0%nat]))) []).
  repeat (constructor; [intros c; constructor; intros c'; by eexists |]). constructor.
Defined.
