(* ===== verification/RingHash.v ===== *)
(** * Consistent hashing with migration

    [components/consistent_hash]: [hash_ring.go] (the [HashRing] interface as a
    class with the laws its client relies on), [encryptor.go], [option.go],
    [consistent_hash.go] and [migration.go].  An operation of a ring is a
    computation on its state that returns a value or an error ([ringM]); Go's
    [if err != nil { return err }] is its bind.  The migrator is the user's: the
    operations return the tasks they hand to [batchExecuteMigrator], which runs
    all of them, in any order. *)
From stdpp Require Import pretty.
From Stdlib Require Import Ascii.
From S2P Require Import Prelude GoStrings GoSort.

(** ** Computations on a ring *)

Definition ringM (R A : Type) : Type := R -> outcome (result string A * R).

#[export] Instance ringM_ret R : MRet (ringM R) := fun A a r => Ret (Ok a, r).
#[export] Instance ringM_bind R : MBind (ringM R) := fun A B f m r =>
  match m r with
  | Ret (Ok a, r) => f a r
  | Ret (Err e, r) => Ret (Err e, r)
  | Panic s => Panic s
  end.

Definition out_of_fuel {R A} : ringM R A := fun _ => Panic "fuel".

Definition fail {R A} (e : string) : ringM R A := fun r => Ret (Err e, r).

(** ** The interface *)

Class HashRing (R : Type) := {
  Lock : Z -> ringM R unit;
  Unlock : ringM R unit;
  Add : Z -> string -> ringM R unit;
  Ceiling : Z -> ringM R Z;
  Floor : Z -> ringM R Z;
  Rem : Z -> string -> ringM R unit;
  Nodes : ringM R (gmap string Z);
  AddNodeToReplica : string -> Z -> ringM R unit;
  DeleteNodeToReplica : string -> ringM R unit;
  Node : Z -> ringM R (list string);
  DataKeys : string -> ringM R (gset string);
  AddNodeToDataKeys : string -> gset string -> ringM R unit;
  DeleteNodeToDataKeys : string -> gset string -> ringM R unit
}.

(** ** What a ring promises

    A ring holds the virtual nodes at each score, the number of replicas of each
    node and the data keys recorded for each node.  Looking up goes around: past
    the last score the first one follows. *)

Definition MaxInt32 : Z := 2147483647.

Record Ring := mkRing {
  r_scores : gmap Z (list string);
  r_nodes : gmap string Z;
  r_data : gmap string (gset string)
}.

Definition score_ok (s : Z) : Prop := 0 <= s < MaxInt32.

Definition ring_ok (a : Ring) : Prop :=
  forall s l, r_scores a !! s = Some l -> score_ok s /\ l <> [] /\ NoDup l.

Definition data_of (a : Ring) (n : string) : gset string := default ∅ (r_data a !! n).

Definition set_data (a : Ring) (n : string) (ks : gset string) : Ring :=
  mkRing (r_scores a) (r_nodes a) (if decide (ks = ∅) then delete n (r_data a) else <[n := ks]> (r_data a)).

Definition is_ceiling (D : gset Z) (s x : Z) : Prop :=
  (x ∈ D /\ s <= x /\ forall y, y ∈ D -> s <= y -> x <= y) \/
  (x ∈ D /\ forall y, y ∈ D -> y < s /\ x <= y) \/
  (D = ∅ /\ x = -1).

Definition is_floor (D : gset Z) (s x : Z) : Prop :=
  (x ∈ D /\ x <= s /\ forall y, y ∈ D -> y <= s -> y <= x) \/
  (x ∈ D /\ forall y, y ∈ D -> s < y /\ y <= x) \/
  (D = ∅ /\ x = -1).

Definition ring_Add (a : Ring) (s : Z) (n : string) : Ring :=
  let l := default [] (r_scores a !! s) in
  mkRing (if decide (n ∈ l) then r_scores a else <[s := l ++ [n]]> (r_scores a)) (r_nodes a) (r_data a).

(** The data keys recorded for a node of the name of the virtual node go too. *)
Definition ring_Rem (a : Ring) (s : Z) (n : string) : Ring :=
  let l := filter (fun x => x <> n) (default [] (r_scores a !! s)) in
  mkRing (if decide (l = []) then delete s (r_scores a) else <[s := l]> (r_scores a))
    (r_nodes a) (delete n (r_data a)).

Class HashRingLaws (R : Type) `{HashRing R} := {
  ring_rep : bool -> R -> Ring -> Prop;
  runs {A} (b b' : bool) (m : ringM R A) (a : Ring) (x : result string A) (a' : Ring) : Prop :=
    forall r, ring_rep b r a -> exists r', m r = Ret (x, r') /\ ring_rep b' r' a';
  rep_ok b r a : ring_rep b r a -> ring_ok a;
  Lock_runs e a : runs false true (Lock e) a (Ok tt) a;
  Unlock_runs a : runs true false Unlock a (Ok tt) a;
  Add_runs b s n a : score_ok s -> runs b b (Add s n) a (Ok tt) (ring_Add a s n);
  Ceiling_runs b s x a : is_ceiling (dom (r_scores a)) s x -> runs b b (Ceiling s) a (Ok x) a;
  Floor_runs b s x a : is_floor (dom (r_scores a)) s x -> runs b b (Floor s) a (Ok x) a;
  Rem_runs b s n l a : r_scores a !! s = Some l -> n ∈ l -> runs b b (Rem s n) a (Ok tt) (ring_Rem a s n);
  Rem_fails b s n a r : n ∉ default [] (r_scores a !! s) -> ring_rep b r a -> exists e, Rem s n r = Ret (Err e, r);
  Nodes_runs b a : runs b b Nodes a (Ok (r_nodes a)) a;
  AddNodeToReplica_runs b n k a :
    runs b b (AddNodeToReplica n k) a (Ok tt) (mkRing (r_scores a) (<[n := k]> (r_nodes a)) (r_data a));
  DeleteNodeToReplica_runs b n a :
    runs b b (DeleteNodeToReplica n) a (Ok tt) (mkRing (r_scores a) (delete n (r_nodes a)) (r_data a));
  Node_runs b s l a : r_scores a !! s = Some l -> runs b b (Node s) a (Ok l) a;
  Node_fails b s a r : r_scores a !! s = None -> ring_rep b r a -> exists e, Node s r = Ret (Err e, r);
  DataKeys_runs b n a : runs b b (DataKeys n) a (Ok (data_of a n)) a;
  AddNodeToDataKeys_runs b n ks a :
    runs b b (AddNodeToDataKeys n ks) a (Ok tt) (mkRing (r_scores a) (r_nodes a) (<[n := data_of a n ∪ ks]> (r_data a)));
  DeleteNodeToDataKeys_runs b n ks a :
    runs b b (DeleteNodeToDataKeys n ks) a (Ok tt) (set_data a n (data_of a n ∖ ks))
}.

(** [defer Unlock]: the ring is unlocked when [body] is left, and an error of
    [Unlock] is dropped. *)
Definition unlock_after {R A} `{HashRing R} (body : ringM R A) : ringM R A := fun r =>
  match body r with
  | Ret (x, r) => match Unlock r with Ret (_, r) => Ret (x, r) | Panic s => Panic s end
  | Panic s => Panic s
  end.

Definition locked {R A} `{HashRing R} (expireSeconds : Z) (body : ringM R A) : ringM R A :=
  _ ← Lock expireSeconds; unlock_after body.

(** ** Options *)

Record ConsistentHashOptions := mkOptions { lockExpireSeconds : Z; replicas : Z }.

Definition repair (opts : ConsistentHashOptions) : ConsistentHashOptions :=
  mkOptions (if lockExpireSeconds opts <=? 0 then 15 else lockExpireSeconds opts)
    (if replicas opts <=? 0 then 5 else replicas opts).

(** The ring is the state of the operations; whether there is a migrator is all
    they ask about it. *)
Record ConsistentHash := mkConsistentHash {
  migrator : bool;
  encrypt : string -> Z;
  opts : ConsistentHashOptions
}.

Definition NewConsistentHash (enc : string -> Z) (mig : bool) (o : ConsistentHashOptions) : ConsistentHash :=
  mkConsistentHash mig enc (repair o).

(** ** The hash *)

Definition Encrypt (origin : string) : Z := s32 (Sum32a (string_bytes origin) mod MaxInt32).

Lemma Encrypt_score origin : score_ok (Encrypt origin).
Proof.
  unfold Encrypt, score_ok, MaxInt32. pose proof (Z.mod_pos_bound (Sum32a (string_bytes origin)) 2147483647 eq_refl).
  rewrite s32_small; lia.
Qed.

(** ** Names of virtual nodes *)

Definition getValidWeight (weight : Z) : Z :=
  if weight <=? 0 then 1 else if 10 <=? weight then 10 else weight.

Definition getRawNodeKey (nodeID : string) (index : Z) : string := nodeID +:+ "_" +:+ pretty index.

(** [strings.LastIndex(s, "_")]: the text before the last underscore, if any. *)
Fixpoint before_last (s : string) : option string :=
  match s with
  | EmptyString => None
  | String c s' =>
      match before_last s' with
      | Some p => Some (String c p)
      | None => if decide (c = "_"%char) then Some EmptyString else None
      end
  end.

Definition getNodeID (rawNodeKey : string) : string := default rawNodeKey (before_last rawNodeKey).

(** ** Scores: [int32], from 0 to [MaxInt32 - 1] *)

Definition incrScore (score : Z) : Z := if score =? MaxInt32 - 1 then 0 else s32 (score + 1).

Definition decreaseScore (score : Z) : Z := if score =? 0 then MaxInt32 - 1 else s32 (score - 1).

(** ** Migration *)

Record task := Task { t_keys : gset string; t_from : string; t_to : string }.

Section ConsistentHash.
Context {R : Type} `{HashRing R} (c : ConsistentHash).

(** [nodes[i]] of a list whose length has been checked. *)
Definition first_node (nodes : list string) : string := getNodeID (default EmptyString (nodes !! 0%nat)).
Definition second_node (nodes : list string) : string := getNodeID (default EmptyString (nodes !! 1%nat)).

Definition migrateIn (virtualScore : Z) (nodeID : string) : ringM R (string * string * gset string) :=
  let nothing : ringM R (string * string * gset string) := mret (EmptyString, EmptyString, ∅) in
  if negb (migrator c) then nothing
  else
    nodes ← Node virtualScore;
    if 1 <? zlen nodes then nothing
    else
      lastScore ← Floor (decreaseScore virtualScore);
      if (lastScore =? -1) || (lastScore =? virtualScore) then nothing
      else
        nextScore ← Ceiling (incrScore virtualScore);
        if (nextScore =? -1) || (nextScore =? virtualScore) then nothing
        else
          let patternOne := virtualScore <? lastScore in
          let patternTwo := nextScore <? virtualScore in
          let lastScore := if patternOne then s32 (lastScore - MaxInt32) else lastScore in
          let virtualScore := if patternTwo then s32 (virtualScore - MaxInt32) else virtualScore in
          let lastScore := if patternTwo then s32 (lastScore - MaxInt32) else lastScore in
          nextNodes ← Node nextScore;
          if zlen nextNodes =? 0 then nothing
          else
            dataKeys ← DataKeys (first_node nextNodes);
            let moves (dataKey : string) : bool :=
              let score := encrypt c dataKey in
              let score := if patternOne && (s32 (lastScore + MaxInt32) <? score)
                           then s32 (score - MaxInt32) else score in
              let score := if patternTwo then s32 (score - MaxInt32) else score in
              negb ((score <=? lastScore) || (virtualScore <? score)) in
            let dataSet := filter (fun k => moves k = true) dataKeys in
            _ ← DeleteNodeToDataKeys (first_node nextNodes) dataSet;
            _ ← AddNodeToDataKeys nodeID dataSet;
            mret (first_node nextNodes, nodeID, dataSet).

(** One call of [getValidNextNode]: the result, or the arguments of the
    recursive call. *)
Definition nextNode_step (nodeID : string) (x : Z * gset Z) : ringM R (Z * gset Z + string) :=
  let '(score, ranged) := x in
  nextScore ← Ceiling (incrScore score);
  if nextScore =? -1 then mret (inr EmptyString)
  else if decide (nextScore ∈ ranged) then mret (inr EmptyString)
  else
    nextNodes ← Node nextScore;
    if zlen nextNodes =? 0 then fail "next node empty"
    else if decide (first_node nextNodes <> nodeID) then mret (inr (first_node nextNodes))
    else if 1 <? zlen nextNodes then mret (inr (second_node nextNodes))
    else mret (inl (nextScore, ranged ∪ {[score]})).

(** At most [2 ^ n] calls. *)
Fixpoint nextNode_loop (n : nat) (nodeID : string) (x : Z * gset Z) : ringM R (Z * gset Z + string) :=
  match n with
  | O => nextNode_step nodeID x
  | S n =>
      y ← nextNode_loop n nodeID x;
      match y with
      | inl x => nextNode_loop n nodeID x
      | inr b => mret (inr b)
      end
  end.

(** Scores are 32-bit, and no score is visited twice. *)
Definition getValidNextNode (score : Z) (nodeID : string) : ringM R string :=
  y ← nextNode_loop 32 nodeID (score, ∅);
  match y with
  | inr b => mret b
  | inl _ => out_of_fuel
  end.

(** [migrateOut] up to its deferred function: the receiver, the keys, the error. *)
Definition migrateOut_body (virtualScore : Z) (nodeID : string) : ringM R (string * gset string) :=
  let nothing : ringM R (string * gset string) := mret (EmptyString, ∅) in
  nodes ← Node virtualScore;
  if zlen nodes =? 0 then nothing
  else if decide (first_node nodes <> nodeID) then nothing
  else
    allDataSet ← DataKeys nodeID;
    if decide (allDataSet = ∅) then nothing
    else
      lastScore ← Floor (decreaseScore virtualScore);
      let onlyScore := (lastScore =? -1) || (lastScore =? virtualScore) in
      if onlyScore && (zlen nodes =? 1) then fail "no other no"
      else
        let pattern := virtualScore <? lastScore in
        let lastScore := if pattern then s32 (lastScore - MaxInt32) else lastScore in
        let moves (data : string) : bool :=
          onlyScore ||
          (let score := encrypt c data in
           let score := if pattern && (s32 (lastScore + MaxInt32) <? score)
                        then s32 (score - MaxInt32) else score in
           negb ((score <=? lastScore) || (virtualScore <? score))) in
        let dataSet := filter (fun k => moves k = true) allDataSet in
        if 1 <? zlen nodes then mret (second_node nodes, dataSet)
        else
          to ← getValidNextNode virtualScore nodeID;
          if decide (to = EmptyString) then fail "no other node" else mret (to, dataSet).

Definition migrateOut (virtualScore : Z) (nodeID : string) : ringM R (string * string * gset string) :=
  if negb (migrator c) then mret (EmptyString, EmptyString, ∅)
  else
    '(to, dataSet) ← migrateOut_body virtualScore nodeID;
    if decide (to = EmptyString \/ dataSet = ∅) then mret (nodeID, to, dataSet)
    else
      _ ← DeleteNodeToDataKeys nodeID dataSet;
      _ ← AddNodeToDataKeys to dataSet;
      mret (nodeID, to, dataSet).

(** ** Operations *)

Definition with_task (dataSet : gset string) (from to : string) (tasks : list task) : list task :=
  if decide (dataSet = ∅) then tasks else Task dataSet from to :: tasks.

Fixpoint add_loop (nodeID : string) (i : Z) (n : nat) : ringM R (list task) :=
  match n with
  | O => mret []
  | S n =>
      let nodeKey := getRawNodeKey nodeID i in
      let virtualScore := encrypt c nodeKey in
      _ ← Add virtualScore nodeKey;
      '(from, to, dataSet) ← migrateIn virtualScore nodeID;
      tasks ← add_loop nodeID (i + 1) n;
      mret (with_task dataSet from to tasks)
  end.

Definition AddNode (nodeID : string) (weight : Z) : ringM R (list task) :=
  locked (lockExpireSeconds (opts c)) (
    nodes ← Nodes;
    if decide (is_Some (nodes !! nodeID)) then fail "repeat node"
    else
      let reps := s64 (getValidWeight weight * replicas (opts c)) in
      _ ← AddNodeToReplica nodeID reps;
      add_loop nodeID 0 (Z.to_nat reps)).

Fixpoint remove_loop (nodeID : string) (i : Z) (n : nat) : ringM R (list task) :=
  match n with
  | O => mret []
  | S n =>
      let virtualScore := encrypt c (getRawNodeKey nodeID i) in
      '(from, to, dataSet) ← migrateOut virtualScore nodeID;
      _ ← Rem virtualScore (getRawNodeKey nodeID i);
      tasks ← remove_loop nodeID (i + 1) n;
      mret (with_task dataSet from to tasks)
  end.

Definition RemoveNode (nodeID : string) : ringM R (list task) :=
  locked (lockExpireSeconds (opts c)) (
    nodes ← Nodes;
    match nodes !! nodeID with
    | None => fail "invalid node id"
    | Some reps =>
        _ ← DeleteNodeToReplica nodeID;
        remove_loop nodeID 0 (Z.to_nat reps)
    end).

Definition GetNode (dataKey : string) : ringM R string :=
  locked (lockExpireSeconds (opts c)) (
    let dataScore := encrypt c dataKey in
    ceilingScore ← Ceiling dataScore;
    if ceilingScore =? -1 then fail "no node available"
    else
      nodes ← Node ceilingScore;
      if zlen nodes =? 0 then fail "no node available with empty score"
      else
        let nodeID := first_node nodes in
        _ ← AddNodeToDataKeys nodeID {[dataKey]};
        mret nodeID).
End ConsistentHash.
