(* ===== verification/RingProof.v ===== *)
(** * Consistent hashing: data keys are recorded at their owners

    The clockwise distance between scores, what adding and removing a virtual
    node does to the owner of a score, and the theorems on [GetNode], [AddNode]
    and [RemoveNode], proved against the laws of [HashRing]. *)
From stdpp Require Import pretty.
From Stdlib Require Import Ascii.
From S2P Require Import Prelude GoStrings RingHash.

(** ** The clockwise distance *)

Definition dist (x y : Z) : Z := if x <=? y then y - x else y - x + MaxInt32.

Definition nearest (D : gset Z) (f : Z -> Z) (x : Z) : Prop := x ∈ D /\ forall y, y ∈ D -> f x <= f y.

Definition scores_ok (D : gset Z) : Prop := forall y, y ∈ D -> score_ok y.

(** Decide goals on distances of scores. *)
Ltac ring_lia :=
  unfold dist, incrScore, decreaseScore, score_ok, MaxInt32 in *;
  repeat (zcase || (match goal with H : context [if ?b then _ else _] |- _ =>
    let E := fresh "Eb" in destruct b eqn:E; zb end));
  rewrite ?s32_small in * by lia; lia.

Lemma nearest_exists D f : D <> ∅ -> exists x, nearest D f x.
Proof.
  intros HD. induction D as [| z D Hz IH] using set_ind_L; [done |].
  destruct (decide (D = ∅)) as [-> | HD'].
  - exists z. split; [set_solver |]. intros y. rewrite union_empty_r_L, elem_of_singleton. intros ->. lia.
  - destruct (IH HD') as (x & Hx & Hmin). destruct (Z.le_gt_cases (f z) (f x)).
    + exists z. split; [set_solver |]. intros y [->%elem_of_singleton | Hy]%elem_of_union; [lia |]. specialize (Hmin y Hy). lia.
    + exists x. split; [set_solver |]. intros y [->%elem_of_singleton | Hy]%elem_of_union; [lia |]. auto.
Qed.

Lemma nearest_ceiling D s x : scores_ok D -> score_ok s -> nearest D (dist s) x -> is_ceiling D s x.
Proof.
  intros HD Hs [Hx Hmin]. pose proof (HD x Hx). destruct (Z.le_gt_cases s x).
  - left. split_and!; [done | done |]. intros y Hy Hsy. specialize (Hmin y Hy). pose proof (HD y Hy). ring_lia.
  - right. left. split; [done |]. intros y Hy. specialize (Hmin y Hy). pose proof (HD y Hy). ring_lia.
Qed.

Lemma nearest_floor D s x : scores_ok D -> score_ok s -> nearest D (fun y => dist y s) x -> is_floor D s x.
Proof.
  intros HD Hs [Hx Hmin]. pose proof (HD x Hx). destruct (Z.le_gt_cases x s).
  - left. split_and!; [done | done |]. intros y Hy Hsy. specialize (Hmin y Hy). pose proof (HD y Hy). ring_lia.
  - right. left. split; [done |]. intros y Hy. specialize (Hmin y Hy). pose proof (HD y Hy). ring_lia.
Qed.

Lemma nearest_unique D s x y : scores_ok D -> score_ok s -> nearest D (dist s) x -> nearest D (dist s) y -> x = y.
Proof.
  intros HD Hs [Hx Hxm] [Hy Hym]. specialize (Hxm y Hy). specialize (Hym x Hx).
  pose proof (HD x Hx). pose proof (HD y Hy). ring_lia.
Qed.

(** The score before [v], and the one after it: [v] itself only when alone. *)
Lemma nearest_before D v x : scores_ok D -> v ∈ D -> nearest D (fun y => dist y (decreaseScore v)) x ->
  (x = v /\ forall y, y ∈ D -> y = v) \/ (x <> v /\ forall y, y ∈ D -> y <> v -> dist x v <= dist y v).
Proof.
  intros HD Hv [Hx Hmin]. pose proof (HD v Hv). pose proof (HD x Hx). destruct (decide (x = v)) as [-> | Hne].
  - left. split; [done |]. intros y Hy. specialize (Hmin y Hy). pose proof (HD y Hy).
    destruct (decide (y = v)); [done | ring_lia].
  - right. split; [done |]. intros y Hy Hyv. specialize (Hmin y Hy). pose proof (HD y Hy). ring_lia.
Qed.

Lemma nearest_after D v x : scores_ok D -> v ∈ D -> nearest D (dist (incrScore v)) x ->
  (x = v /\ forall y, y ∈ D -> y = v) \/ (x <> v /\ forall y, y ∈ D -> y <> v -> dist v x <= dist v y).
Proof.
  intros HD Hv [Hx Hmin]. pose proof (HD v Hv). pose proof (HD x Hx). destruct (decide (x = v)) as [-> | Hne].
  - left. split; [done |]. intros y Hy. specialize (Hmin y Hy). pose proof (HD y Hy).
    destruct (decide (y = v)); [done | ring_lia].
  - right. split; [done |]. intros y Hy Hyv. specialize (Hmin y Hy). pose proof (HD y Hy). ring_lia.
Qed.

(** [h] is after [last] and not after [v]. *)
Definition in_arc (last v h : Z) : Prop := dist h v < dist h last.

#[export] Instance in_arc_dec last v h : Decision (in_arc last v h).
Proof. unfold in_arc. apply _. Defined.

Section arc.
Context (D : gset Z) (HD : scores_ok D) (v last : Z) (Hv : v ∈ D) (Hlast : last ∈ D) (Hne : last <> v).
Context (Hbefore : forall y, y ∈ D -> y <> v -> dist last v <= dist y v).

Lemma arc_nearest h : score_ok h -> in_arc last v h <-> nearest D (dist h) v.
Proof.
  intros Hh. pose proof (HD v Hv). pose proof (HD last Hlast). unfold in_arc. split.
  - intros Harc. split; [done |]. intros y Hy. pose proof (HD y Hy). destruct (decide (y = v)) as [-> | Hyv]; [lia |].
    specialize (Hbefore y Hy Hyv). ring_lia.
  - intros [_ Hmin]. specialize (Hmin last Hlast). ring_lia.
Qed.

(** Without [v], the score after it is the nearest to its arc. *)
Lemma arc_next h next : score_ok h -> in_arc last v h -> next ∈ D -> next <> v ->
  (forall y, y ∈ D -> y <> v -> dist v next <= dist v y) -> nearest (D ∖ {[v]}) (dist h) next.
Proof.
  intros Hh Harc Hn Hnv Hafter. pose proof (HD v Hv). pose proof (HD last Hlast). pose proof (HD next Hn).
  unfold in_arc in *. split; [set_solver |]. intros y [Hy Hyv%not_elem_of_singleton]%elem_of_difference.
  pose proof (HD y Hy). specialize (Hbefore y Hy Hyv). specialize (Hafter y Hy Hyv). ring_lia.
Qed.
End arc.

Lemma nearest_other D v h x : nearest D (dist h) x -> x <> v -> nearest (D ∖ {[v]}) (dist h) x.
Proof. intros [Hx Hmin] Hne. split; [set_solver |]. intros y Hy. apply Hmin. set_solver. Qed.

(** ** The tests of the source *)

Definition moves_in (last v next h : Z) : bool :=
  let patternOne := v <? last in
  let patternTwo := next <? v in
  let last := if patternOne then s32 (last - MaxInt32) else last in
  let v := if patternTwo then s32 (v - MaxInt32) else v in
  let last := if patternTwo then s32 (last - MaxInt32) else last in
  let h := if patternOne && (s32 (last + MaxInt32) <? h) then s32 (h - MaxInt32) else h in
  let h := if patternTwo then s32 (h - MaxInt32) else h in
  negb ((h <=? last) || (v <? h)).

Lemma moves_in_arc last v next h : score_ok last -> score_ok v -> score_ok next -> score_ok h ->
  last <> v -> next <> v -> dist last v <= dist next v ->
  moves_in last v next h = true <-> in_arc last v h.
Proof.
  unfold moves_in, in_arc, score_ok, MaxInt32. intros Hl Hv Hn Hh Hlv Hnv Hd.
  rewrite negb_true_iff, orb_false_iff, Z.leb_gt, Z.ltb_ge.
  destruct (v <? last) eqn:E1, (next <? v) eqn:E2; zb; cbn [andb].
  - unfold dist, MaxInt32 in Hd. repeat zcase_in Hd; lia.
  - rewrite !(s32_small (last - _)), (s32_small (_ + _)) by lia.
    unfold dist, MaxInt32. repeat zcase; rewrite ?s32_small by lia; lia.
  - rewrite !s32_small by lia. unfold dist, MaxInt32. repeat zcase; lia.
  - unfold dist, MaxInt32. repeat zcase; lia.
Qed.

Definition moves_out (last v h : Z) : bool :=
  let pattern := v <? last in
  let last := if pattern then s32 (last - MaxInt32) else last in
  let h := if pattern && (s32 (last + MaxInt32) <? h) then s32 (h - MaxInt32) else h in
  negb ((h <=? last) || (v <? h)).

Lemma moves_out_arc last v h : score_ok last -> score_ok v -> score_ok h -> last <> v ->
  moves_out last v h = true <-> in_arc last v h.
Proof.
  unfold moves_out, in_arc, score_ok, MaxInt32. intros Hl Hv Hh Hlv.
  rewrite negb_true_iff, orb_false_iff, Z.leb_gt, Z.ltb_ge. destruct (v <? last) eqn:E1; zb; cbn [andb].
  - rewrite !(s32_small (last - _)), (s32_small (_ + _)) by lia.
    unfold dist, MaxInt32. repeat zcase; rewrite ?s32_small by lia; lia.
  - unfold dist, MaxInt32. repeat zcase; lia.
Qed.

(** ** Names *)

Lemma before_last_digits s : all_digits s -> before_last s = None.
Proof.
  induction s as [| ch s IH]; [done |]. cbn. intros [Hc Hs]. rewrite (IH Hs).
  destruct (decide (ch = "_"%char)) as [-> |]; [| done]. by destruct Hc.
Qed.

Lemma before_last_app n s : before_last s = None -> before_last (n +:+ String "_" s) = Some n.
Proof.
  intros Hs. induction n as [| ch n IH].
  - rewrite app_Empty. cbn. by rewrite Hs.
  - rewrite app_String. cbn. by rewrite IH.
Qed.

Lemma getNodeID_raw n i : 0 <= i -> getNodeID (getRawNodeKey n i) = n.
Proof.
  intros Hi. unfold getNodeID, getRawNodeKey. destruct (pretty_Z_spec i Hi) as (_ & Hd & _).
  rewrite app_String, app_Empty, before_last_app by (by apply before_last_digits). done.
Qed.

(** ** Computations *)

Section runs.
Context {R : Type} `{HashRingLaws R}.

Lemma ring_bind {A B} b1 b2 b3 (m : ringM R A) (f : A -> ringM R B) a1 a2 a3 x y :
  runs b1 b2 m a1 (Ok x) a2 -> runs b2 b3 (f x) a2 y a3 -> runs b1 b3 (m ≫= f) a1 y a3.
Proof.
  intros Hm Hf r Hr. destruct (Hm r Hr) as (r1 & E1 & Hr1). destruct (Hf r1 Hr1) as (r2 & E2 & Hr2).
  exists r2. split; [| done]. unfold mbind, ringM_bind. by rewrite E1.
Qed.

Lemma runs_fail {A B} b1 b2 (m : ringM R A) (f : A -> ringM R B) a1 a2 e :
  runs b1 b2 m a1 (Err e) a2 -> runs b1 b2 (m ≫= f) a1 (Err e) a2.
Proof.
  intros Hm r Hr. destruct (Hm r Hr) as (r1 & E1 & Hr1). exists r1. split; [| done].
  unfold mbind, ringM_bind. by rewrite E1.
Qed.

Lemma ring_ret {A} b (x : A) a : runs b b (mret x) a (Ok x) a.
Proof. intros r Hr. by exists r. Qed.

Lemma runs_error {A} b e a : runs b b (fail e : ringM R A) a (Err e) a.
Proof. intros r Hr. by exists r. Qed.

Lemma runs_locked {A} e (m : ringM R A) a x a' : runs true true m a x a' -> runs false false (locked e m) a x a'.
Proof.
  intros Hm. eapply ring_bind; [apply Lock_runs |]. intros r Hr. unfold unlock_after.
  destruct (Hm r Hr) as (r1 & -> & Hr1). destruct (Unlock_runs a' r1 Hr1) as (r2 & -> & Hr2). eauto.
Qed.

(** A computation may assume what holds of every ring it runs on. *)
Lemma runs_ok {A} b b' (m : ringM R A) a x a' : (ring_ok a -> runs b b' m a x a') -> runs b b' m a x a'.
Proof. intros Hm r Hr. apply Hm; [by eapply rep_ok | done]. Qed.
End runs.

(** ** Moving data keys *)

Definition moved (a : Ring) (from to : string) (ds : gset string) : Ring :=
  let a1 := set_data a from (data_of a from ∖ ds) in
  mkRing (r_scores a1) (r_nodes a1) (<[to := data_of a1 to ∪ ds]> (r_data a1)).

Lemma data_of_set_data a n ks m : data_of (set_data a n ks) m = if decide (m = n) then ks else data_of a m.
Proof.
  unfold data_of, set_data. cbn. destruct (decide (ks = ∅)) as [-> |]; case_decide; subst;
    rewrite ?lookup_delete_eq, ?lookup_delete_ne, ?lookup_insert_eq, ?lookup_insert_ne by done; done.
Qed.

Lemma data_of_insert a n ks m :
  data_of (mkRing (r_scores a) (r_nodes a) (<[n := ks]> (r_data a))) m = if decide (m = n) then ks else data_of a m.
Proof. unfold data_of. cbn. case_decide; subst; rewrite ?lookup_insert_eq, ?lookup_insert_ne by done; done. Qed.

Lemma data_of_moved a from to ds m k :
  k ∈ data_of (moved a from to ds) m <-> (m = to /\ k ∈ ds) \/ (k ∈ data_of a m /\ ~ (m = from /\ k ∈ ds)).
Proof.
  unfold moved. set (a1 := set_data a from (data_of a from ∖ ds)).
  assert (forall m, data_of a1 m = if decide (m = from) then data_of a from ∖ ds else data_of a m) as H1
    by (intros; apply data_of_set_data).
  rewrite data_of_insert. destruct (decide (m = to)) as [-> | Hne]; rewrite H1; case_decide; subst; set_solver.
Qed.

(** The node that owns score [h]: the first of the nearest score. *)
Definition owns (S : gmap Z (list string)) (h : Z) (n : string) : Prop :=
  exists x l, nearest (dom S) (dist h) x /\ S !! x = Some l /\ first_node l = n.

Lemma ring_scores_ok a : ring_ok a -> scores_ok (dom (r_scores a)).
Proof. intros Ha s [l Hl]%elem_of_dom. apply (Ha s l Hl). Qed.

Lemma owns_unique S h n m : scores_ok (dom S) -> score_ok h -> owns S h n -> owns S h m -> n = m.
Proof.
  intros HS Hh (x & l & Hx & Hl & <-) (y & l' & Hy & Hl' & <-).
  rewrite (nearest_unique _ _ _ _ HS Hh Hx Hy) in Hl. congruence.
Qed.

Section around.
Context {R : Type} `{HashRingLaws R}.

Lemma Floor_before b a v l : ring_ok a -> r_scores a !! v = Some l ->
  exists x, x ∈ dom (r_scores a) /\ runs b b (Floor (decreaseScore v)) a (Ok x) a /\
    ((x = v /\ forall y, y ∈ dom (r_scores a) -> y = v) \/
     (x <> v /\ forall y, y ∈ dom (r_scores a) -> y <> v -> dist x v <= dist y v)).
Proof.
  intros Ha Hl. pose proof (ring_scores_ok a Ha) as HD. assert (v ∈ dom (r_scores a)) as Hv by (apply elem_of_dom; eauto).
  destruct (nearest_exists (dom (r_scores a)) (fun y => dist y (decreaseScore v))) as (x & Hx); [set_solver |].
  exists x. split; [apply Hx |]. split; [| by apply nearest_before].
  apply Floor_runs, nearest_floor; [done | | done]. pose proof (HD v Hv). ring_lia.
Qed.

Lemma Ceiling_after b a v l : ring_ok a -> r_scores a !! v = Some l ->
  exists x, x ∈ dom (r_scores a) /\ runs b b (Ceiling (incrScore v)) a (Ok x) a /\
    ((x = v /\ forall y, y ∈ dom (r_scores a) -> y = v) \/
     (x <> v /\ forall y, y ∈ dom (r_scores a) -> y <> v -> dist v x <= dist v y)).
Proof.
  intros Ha Hl. pose proof (ring_scores_ok a Ha) as HD. assert (v ∈ dom (r_scores a)) as Hv by (apply elem_of_dom; eauto).
  destruct (nearest_exists (dom (r_scores a)) (dist (incrScore v))) as (x & Hx); [set_solver |].
  exists x. split; [apply Hx |]. split; [| by apply nearest_after].
  apply Ceiling_runs, nearest_ceiling; [done | | done]. pose proof (HD v Hv). ring_lia.
Qed.

End around.

Section hash.
Context {R : Type} `{HashRingLaws R} (c : ConsistentHash).
Context (Henc : forall k, score_ok (encrypt c k)) (Hmig : migrator c = true).

(** Every recorded data key is recorded at its owner. *)
Definition placed (a : Ring) : Prop :=
  forall n k, k ∈ data_of a n -> owns (r_scores a) (encrypt c k) n.

(** [migrateIn] moves the keys of the arc of [v] from the node after it, when [v] has
    one virtual node and is not alone. *)
Record arc_move (a : Ring) (v : Z) (l : list string) (from : string) (ds : gset string) (last next : Z) : Prop := {
  am_single : zlen l = 1;
  am_last : last ∈ dom (r_scores a);
  am_last_ne : last <> v;
  am_before : forall y, y ∈ dom (r_scores a) -> y <> v -> dist last v <= dist y v;
  am_next : exists ln, r_scores a !! next = Some ln /\ from = first_node ln;
  am_next_ne : next <> v;
  am_after : forall y, y ∈ dom (r_scores a) -> y <> v -> dist v next <= dist v y;
  am_keys : forall k, k ∈ ds <-> k ∈ data_of a from /\ in_arc last v (encrypt c k)
}.

Lemma migrateIn_runs b a v l n : ring_ok a -> r_scores a !! v = Some l ->
  (runs b b (migrateIn c v n) a (Ok (EmptyString, EmptyString, ∅)) a /\
     (1 < zlen l \/ forall y, y ∈ dom (r_scores a) -> y = v)) \/
  exists from ds last next, runs b b (migrateIn c v n) a (Ok (from, n, ds)) (moved a from n ds) /\
    arc_move a v l from ds last next.
Proof.
  intros Ha Hl. pose proof (ring_scores_ok a Ha) as HD. unfold migrateIn. rewrite Hmig. cbn [negb].
  destruct (Ha v l Hl) as (Hv & Hne & _).
  assert (1 <= zlen l) as Hlen by (destruct l; [done | zl]).
  destruct (1 <? zlen l) eqn:E1; zb.
  { left. split; [| by left]. eapply ring_bind; [by apply Node_runs |]. rewrite (proj2 (Z.ltb_lt _ _)) by done. apply ring_ret. }
  destruct (Floor_before b a v l Ha Hl) as (last & Hlast & Rlast & Clast). pose proof (HD last Hlast) as Hlast_ok.
  destruct Clast as [[-> Hall] | [Hlv Hbefore]].
  { left. split; [| by right]. eapply ring_bind; [by apply Node_runs |]. rewrite (proj2 (Z.ltb_ge _ _)) by done.
    eapply ring_bind; [exact Rlast |]. rewrite Z.eqb_refl, orb_true_r. apply ring_ret. }
  destruct (Ceiling_after b a v l Ha Hl) as (next & Hnext & Rnext & Cnext). pose proof (HD next Hnext) as Hnext_ok.
  destruct Cnext as [[-> Hall] | [Hnv Hafter]]; [by apply Hall in Hlast |].
  apply elem_of_dom in Hnext as Hnl. destruct Hnl as [ln Hln]. destruct (Ha next ln Hln) as (_ & Hne' & _).
  right. exists (first_node ln).
  exists (filter (fun k => moves_in last v next (encrypt c k) = true) (data_of a (first_node ln))), last, next.
  split.
  - eapply ring_bind; [by apply Node_runs |]. rewrite (proj2 (Z.ltb_ge _ _)) by done.
    eapply ring_bind; [exact Rlast |]. rewrite (proj2 (Z.eqb_neq last (-1))), (proj2 (Z.eqb_neq last v)) by (done || unfold score_ok in *; lia).
    eapply ring_bind; [exact Rnext |]. rewrite (proj2 (Z.eqb_neq next (-1))), (proj2 (Z.eqb_neq next v)) by (done || unfold score_ok in *; lia).
    cbn [orb]. eapply ring_bind; [by apply Node_runs |].
    rewrite (proj2 (Z.eqb_neq (zlen ln) 0)) by (destruct ln; [done | zl]).
    eapply ring_bind; [apply DataKeys_runs |].
    eapply ring_bind; [apply DeleteNodeToDataKeys_runs |].
    eapply ring_bind; [apply AddNodeToDataKeys_runs |]. apply ring_ret.
  - split; try done; [lia | by exists ln |].
    intros k. rewrite elem_of_filter, moves_in_arc; [tauto | done | done | done | apply Henc | done | done |].
    apply Hbefore; [by apply elem_of_dom; exists ln | done].
Qed.

(** The keys in arc of [v] are owned by its first node. *)
Lemma arc_owner a v l from ds last next h : ring_ok a -> r_scores a !! v = Some l ->
  arc_move a v l from ds last next -> score_ok h -> in_arc last v h -> owns (r_scores a) h (first_node l).
Proof.
  intros Ha Hl [] Hh Harc. exists v, l. split_and!; try done.
  apply (arc_nearest (dom (r_scores a)) (ring_scores_ok a Ha) v last); try done. apply elem_of_dom; eauto.
Qed.

(** What one virtual node more does to the records: keys stay recorded, and those
    that leave a node are in the task from that node. *)
Record carried (a a' : Ring) (n : string) (from to : string) (ds : gset string) : Prop := {
  ca_nodes : r_nodes a' = r_nodes a;
  ca_kept m k : k ∈ data_of a m -> k ∈ data_of a' m \/ (k ∈ ds /\ from = m /\ k ∈ data_of a' n);
  ca_old m k : k ∈ data_of a' m -> exists m0, k ∈ data_of a m0;
  ca_task k : k ∈ ds -> to = n /\ k ∈ data_of a' n
}.

Lemma carried_same a1 a n : r_nodes a1 = r_nodes a -> r_data a1 = r_data a -> carried a a1 n EmptyString EmptyString ∅.
Proof.
  intros Hn Hd. assert (forall m, data_of a1 m = data_of a m) as E by (intros; unfold data_of; by rewrite Hd).
  split; [done | | |].
  - intros m k. rewrite E. auto.
  - intros m k. rewrite E. eauto.
  - intros k ?%not_elem_of_empty. done.
Qed.

Lemma carried_moved a1 a n from ds : r_nodes a1 = r_nodes a -> r_data a1 = r_data a ->
  (forall k, k ∈ ds -> k ∈ data_of a1 from) -> carried a (moved a1 from n ds) n from n ds.
Proof.
  intros Hn Hd Hds. assert (forall m, data_of a1 m = data_of a m) as E by (intros; unfold data_of; by rewrite Hd).
  split; [done | | |].
  - intros m k Hk. rewrite !data_of_moved, E. destruct (decide (m = from /\ k ∈ ds)) as [[-> Hin] | Hno]; [| tauto].
    right. tauto.
  - intros m k. rewrite data_of_moved, E. intros [[_ Hin] | [Hk _]]; [| eauto]. exists from. rewrite <- E. auto.
  - intros k Hk. rewrite data_of_moved. tauto.
Qed.

Lemma add_same_head a v nk l : r_scores a !! v = Some l -> l <> [] ->
  forall h m, owns (r_scores a) h m -> owns (r_scores (ring_Add a v nk)) h m.
Proof.
  intros Hl Hne h m (x & lx & Hx & Hlx & <-). unfold ring_Add. cbn. rewrite Hl. cbn.
  case_decide; [by exists x, lx |]. 
  assert (dom (<[v := l ++ [nk]]> (r_scores a)) = dom (r_scores a)) as Hdom.
  { rewrite dom_insert_L. apply subseteq_union_1_L, singleton_subseteq_l, elem_of_dom. eauto. }
  destruct (decide (x = v)) as [-> | Hxv].
  - exists v, (l ++ [nk]). rewrite Hdom, lookup_insert_eq. split_and!; try done.
    assert (lx = l) as -> by congruence. by destruct l.
  - exists x, lx. by rewrite Hdom, lookup_insert_ne.
Qed.

Lemma add_new_owner a v nk from ds last next h m : ring_ok (ring_Add a v nk) -> r_scores a !! v = None ->
  let a1 := ring_Add a v nk in
  arc_move a1 v [nk] from ds last next -> score_ok h -> owns (r_scores a) h m ->
  (in_arc last v h /\ m = from) \/ (~ in_arc last v h /\ owns (r_scores a1) h m).
Proof.
  intros Ha Hv a1 Harc Hh (x & lx & Hx & Hlx & <-). pose proof (ring_scores_ok _ Ha) as HD. fold a1 in HD.
  assert (r_scores a1 = <[v := [nk]]> (r_scores a)) as E1.
  { unfold a1, ring_Add. cbn. rewrite Hv. cbn. rewrite decide_False by apply not_elem_of_nil. done. }
  assert (dom (r_scores a1) ∖ {[v]} = dom (r_scores a)) as Hdom.
  { rewrite E1, dom_insert_L. apply not_elem_of_dom in Hv. set_solver. }
  assert (v ∈ dom (r_scores a1)) as Hvd by (rewrite E1, dom_insert_L; set_solver).
  destruct Harc as [_ Hlast Hlv Hbef (ln & Hln & ->) Hnv Haft _].
  assert (scores_ok (dom (r_scores a))) as HD0 by (intros y Hy; apply HD; rewrite <- Hdom in Hy; set_solver).
  destruct (decide (in_arc last v h)) as [Hin | Hout].
  - left. split; [done |]. assert (next ∈ dom (r_scores a1)) as Hnd by (apply elem_of_dom; eauto).
    pose proof (arc_next _ HD v last Hvd Hlast Hlv Hbef h next Hh Hin Hnd Hnv Haft) as Hn.
    rewrite Hdom in Hn. rewrite (nearest_unique _ _ _ _ HD0 Hh Hx Hn) in Hlx.
    rewrite E1, lookup_insert_ne in Hln by done. congruence.
  - right. split; [done |]. destruct (nearest_exists (dom (r_scores a1)) (dist h)) as (z & Hz); [set_solver |].
    destruct (decide (z = v)) as [-> | Hzv].
    { exfalso. by apply Hout, (arc_nearest _ HD v last Hvd Hlast Hlv Hbef h Hh). }
    pose proof (nearest_other _ v _ _ Hz Hzv) as Hz'. rewrite Hdom in Hz'.
    assert (x = z) as -> by exact (nearest_unique _ _ _ _ HD0 Hh Hx Hz').
    exists z, lx. split_and!; try done. by rewrite E1, lookup_insert_ne.
Qed.

Lemma add_step b a n i : 0 <= i -> placed a ->
  let nk := getRawNodeKey n i in let v := encrypt c nk in
  ring_ok a -> ring_ok (ring_Add a v nk) ->
  exists from to ds a', runs b b (migrateIn c v n) (ring_Add a v nk) (Ok (from, to, ds)) a' /\
    r_scores a' = r_scores (ring_Add a v nk) /\ placed a' /\ carried a a' n from to ds.
Proof.
  intros Hi Hp nk v Ha Ha1. set (a1 := ring_Add a v nk) in *.
  assert (exists l, r_scores a1 !! v = Some l /\
    ((exists l0, r_scores a !! v = Some l0 /\ l0 <> [] /\ (l = l0 /\ nk ∈ l0 \/ l = l0 ++ [nk])) \/ (r_scores a !! v = None /\ l = [nk])))
    as (l & Hl & Hcase).
  { unfold a1, ring_Add. cbn. destruct (r_scores a !! v) as [l0 |] eqn:E0; cbn.
    - destruct (Ha v l0 E0) as (_ & Hne & _). case_decide; [exists l0 | exists (l0 ++ [nk])].
      + split; [done |]. left. exists l0. auto.
      + rewrite lookup_insert_eq. split; [done |]. left. exists l0. auto.
    - exists [nk]. rewrite decide_False by apply not_elem_of_nil. rewrite lookup_insert_eq. auto. }
  assert (first_node [nk] = n) as Hfn by (unfold first_node; cbn; by apply getNodeID_raw).
  destruct (migrateIn_runs b a1 v l n Ha1 Hl) as [[Hrun Hwhy] | (from & ds & last & next & Hrun & Harc)].
  - exists EmptyString, EmptyString, ∅, a1. split_and!; [done | done | | by apply carried_same].
    intros m k Hk. change (data_of a1 m) with (data_of a m) in Hk. specialize (Hp m k Hk).
    destruct Hcase as [(l0 & E0 & Hne & _) | [E0 ->]]; [by eapply add_same_head |].
    destruct Hwhy as [Hlen | Hall]; [unfold zlen in Hlen; cbn in Hlen; lia |].
    destruct Hp as (x & lx & _ & Hx & _). exfalso.
    assert (x = v) as ->; [| congruence]. apply Hall, elem_of_dom. exists lx. unfold a1, ring_Add. cbn. rewrite E0. cbn.
    rewrite decide_False by apply not_elem_of_nil. rewrite lookup_insert_ne; [done |]. congruence.
  - exists from, n, ds, (moved a1 from n ds). pose proof (am_keys _ _ _ _ _ _ _ Harc) as Hds.
    split_and!; [done | done | | apply carried_moved; [done | done | intros k Hk; by apply Hds]].
    assert (l = [nk]) as Hl1.
    { pose proof (am_single _ _ _ _ _ _ _ Harc) as Hs.
      destruct Hcase as [(l0 & E0 & Hne & [[-> Hin] | ->]) | [_ ->]]; [| | done].
      - destruct l0 as [| y [| ? ?]]; [done | | autorewrite with zlen in Hs; zl]. apply list_elem_of_singleton in Hin. by rewrite Hin.
      - destruct l0; [done | autorewrite with zlen in Hs; zl]. }
    intros m k. rewrite data_of_moved. change (data_of a1 m) with (data_of a m). intros [[-> Hk] | [Hk Hno]].
    + apply Hds in Hk as [_ Hin]. pose proof (arc_owner a1 v l _ _ _ _ _ Ha1 Hl Harc (Henc k) Hin) as Ho.
      by rewrite Hl1, Hfn in Ho.
    + specialize (Hp m k Hk). destruct Hcase as [(l0 & E0 & Hne & _) | [E0 ->]]; [by eapply add_same_head |].
      destruct (add_new_owner a v nk from ds last next _ m Ha1 E0 Harc (Henc k) Hp) as [[Hin ->] | [_ Ho]]; [| done].
      destruct Hno. split; [done |]. by apply Hds.
Qed.

(** ** Virtual nodes of a ring *)

Definition at_score (a : Ring) (s : Z) (x : string) : Prop := x ∈ default [] (r_scores a !! s).

Lemma at_Add a v nk s x : at_score (ring_Add a v nk) s x <-> at_score a s x \/ (s = v /\ x = nk).
Proof.
  unfold at_score, ring_Add. cbn. case_decide as Hd.
  - split; [by left |]. by intros [| [-> ->]].
  - destruct (decide (s = v)) as [-> | Hne].
    + rewrite lookup_insert_eq. cbn. rewrite elem_of_app, list_elem_of_singleton. naive_solver.
    + rewrite lookup_insert_ne by done. naive_solver.
Qed.

Lemma at_Rem a v nk s x : at_score (ring_Rem a v nk) s x <-> at_score a s x /\ ~ (s = v /\ x = nk).
Proof.
  unfold at_score, ring_Rem. cbn. destruct (decide (s = v)) as [-> | Hne].
  - assert (default [] ((if decide (filter (fun y => y <> nk) (default [] (r_scores a !! v)) = []) then delete v (r_scores a)
       else <[v := filter (fun y => y <> nk) (default [] (r_scores a !! v))]> (r_scores a)) !! v)
       = filter (fun y => y <> nk) (default [] (r_scores a !! v))) as ->.
    { case_decide as Hd; [by rewrite lookup_delete_eq, Hd | by rewrite lookup_insert_eq]. }
    rewrite list_elem_of_filter. naive_solver.
  - case_decide; [rewrite lookup_delete_ne by done | rewrite lookup_insert_ne by done]; naive_solver.
Qed.

Lemma ring_Add_ok a v nk : ring_ok a -> score_ok v -> ring_ok (ring_Add a v nk).
Proof.
  intros Ha Hv s l. unfold ring_Add. cbn. case_decide as Hd; [by apply Ha |].
  intros [[<- <-] | [Hne Hl]]%lookup_insert_Some; [| by apply Ha]. split; [done |].
  split; [by destruct (default [] (r_scores a !! v)) |]. apply NoDup_app. split_and!.
  - destruct (r_scores a !! v) as [l |] eqn:E; [by apply (Ha v l E) | constructor].
  - intros x Hx ->%list_elem_of_singleton. done.
  - apply NoDup_singleton.
Qed.

(** The virtual nodes are those of the registered nodes, each at its score. *)
Definition holds (a : Ring) (V : string -> Z -> Prop) : Prop :=
  forall s x, at_score a s x <-> exists n i, V n i /\ 0 <= i /\ x = getRawNodeKey n i /\ s = encrypt c x.

Definition consistent (a : Ring) : Prop :=
  holds a (fun n i => exists reps, r_nodes a !! n = Some reps /\ i < reps).

Lemma raw_inj n i m j : 0 <= i -> 0 <= j -> getRawNodeKey n i = getRawNodeKey m j -> n = m /\ i = j.
Proof.
  intros Hi Hj E. assert (n = m) as -> by (rewrite <- (getNodeID_raw n i), <- (getNodeID_raw m j); congruence).
  split; [done |]. unfold getRawNodeKey in E. apply (inj (String.append m)) in E.
  rewrite !app_String, !app_Empty in E. injection E as E. by apply (inj pretty) in E.
Qed.

Definition recorded (a : Ring) (k : string) : Prop := exists n, k ∈ data_of a n.

(** What a sequence of migrations to [n] does. *)
Record migrated (a a' : Ring) (n : string) (tasks : list task) : Prop := {
  mg_nodes : r_nodes a' = r_nodes a;
  mg_kept m k : k ∈ data_of a m -> k ∈ data_of a' m \/
    (k ∈ data_of a' n /\ exists t, t ∈ tasks /\ t_from t = m /\ k ∈ t_keys t);
  mg_old k : recorded a' k -> recorded a k;
  mg_tasks t k : t ∈ tasks -> k ∈ t_keys t -> t_to t = n /\ k ∈ data_of a' n
}.

Lemma with_task_in (ds : gset string) from to tasks t : t ∈ with_task ds from to tasks <-> (t = Task ds from to /\ ds <> ∅) \/ t ∈ tasks.
Proof. unfold with_task. case_decide; [naive_solver |]. rewrite elem_of_cons. naive_solver. Qed.

Lemma migrated_step a a1 a2 n from to ds tasks : carried a a1 n from to ds -> migrated a1 a2 n tasks ->
  migrated a a2 n (with_task ds from to tasks).
Proof.
  intros [] [].
  assert (forall k, k ∈ data_of a1 n -> k ∈ data_of a2 n) as Hn.
  { intros k Hk. by destruct (mg_kept0 n k Hk) as [| [? _]]. }
  split.
  - congruence.
  - intros m k Hk. destruct (ca_kept0 m k Hk) as [H1 | (Hin & -> & H1)].
    + destruct (mg_kept0 m k H1) as [| (H2 & t & Ht & Hf & Hkt)]; [by left |]. right. split; [done |].
      exists t. rewrite with_task_in. auto.
    + right. split; [auto |]. exists (Task ds m to). rewrite with_task_in. cbn. split; [| done]. left. set_solver.
  - intros k Hk. destruct (mg_old0 k Hk) as [m Hm]. exact (ca_old0 m k Hm).
  - intros t k [[-> _] | Ht]%with_task_in Hk; [| by apply mg_tasks0]. cbn in *. destruct (ca_task0 k Hk). auto.
Qed.

Lemma add_loop_runs n V : forall k i a, 0 <= i -> ring_ok a -> placed a ->
  holds a (fun m j => V m j \/ (m = n /\ j < i)) ->
  exists tasks a', runs true true (add_loop c n i k) a (Ok tasks) a' /\ ring_ok a' /\ placed a' /\
    migrated a a' n tasks /\ holds a' (fun m j => V m j \/ (m = n /\ j < i + Z.of_nat k)).
Proof.
  induction k as [| k IH]; intros i a Hi Ha Hp Hh; cbn [add_loop].
  { exists [], a. split_and!; try done; [apply ring_ret | | by rewrite Z.add_0_r].
    split; [done | by left | done |]. by intros t x ?%not_elem_of_nil. }
  set (nk := getRawNodeKey n i). set (v := encrypt c nk).
  assert (ring_ok (ring_Add a v nk)) as Ha1 by (apply ring_Add_ok; [done | apply Henc]).
  destruct (add_step true a n i Hi Hp Ha Ha1) as (from & to & ds & a2 & Hrun & Hs2 & Hp2 & Hc). fold nk v in Hrun, Hs2.
  assert (ring_ok a2) as Ha2 by (intros s l; rewrite Hs2; apply Ha1).
  assert (holds a2 (fun m j => V m j \/ (m = n /\ j < i + 1))) as Hh2.
  { intros s x. unfold at_score. rewrite Hs2. fold (at_score (ring_Add a v nk) s x). rewrite at_Add, (Hh s x). split.
    - intros [(m & j & HV & Hj & -> & ->) | [-> ->]].
      + exists m, j. split_and!; try done. destruct HV as [| [-> ?]]; [by left | right; split; [done | lia]].
      + exists n, i. split_and!; try done. right. split; [done | lia].
    - intros (m & j & HV & Hj & -> & ->). destruct (decide (m = n /\ j = i)) as [[-> ->] | Hno]; [by right |]. left.
      exists m, j. split_and!; try done. destruct HV as [| [-> ?]]; [by left | right]. split; [done |].
      destruct (decide (j = i)) as [-> |]; [by destruct Hno | lia]. }
  destruct (IH (i + 1) a2 ltac:(lia) Ha2 Hp2 Hh2) as (tasks & a3 & Hrun3 & Ha3 & Hp3 & Hm3 & Hh3).
  exists (with_task ds from to tasks), a3. split_and!; try done.
  - eapply ring_bind; [apply Add_runs, Henc |]. eapply ring_bind; [exact Hrun |]. cbn beta iota.
    eapply ring_bind; [exact Hrun3 |]. apply ring_ret.
  - by eapply migrated_step.
  - by replace (i + Z.of_nat (S k)) with (i + 1 + Z.of_nat k) by lia.
Qed.

Definition reps_of (weight : Z) : Z := getValidWeight weight * replicas (opts c).

Definition added (a a' : Ring) (n : string) (weight : Z) (tasks : list task) : Prop :=
  placed a' /\ consistent a' /\ r_nodes a' = <[n := reps_of weight]> (r_nodes a) /\
  (forall k, recorded a' k <-> recorded a k) /\
  (forall m k, k ∈ data_of a m -> k ∈ data_of a' m \/
     (k ∈ data_of a' n /\ exists t, t ∈ tasks /\ t_from t = m /\ k ∈ t_keys t)) /\
  (forall t k, t ∈ tasks -> k ∈ t_keys t -> t_to t = n /\ k ∈ data_of a' n).

Lemma AddNode_runs a n weight : 0 < replicas (opts c) < 576460752303423488 ->
  ring_ok a -> placed a -> consistent a -> r_nodes a !! n = None ->
  exists tasks a', runs false false (AddNode c n weight) a (Ok tasks) a' /\ added a a' n weight tasks.
Proof.
  intros Hreps Ha Hp Hc Hn.
  assert (0 <= reps_of weight < 9223372036854775808) as Hw.
  { unfold reps_of, getValidWeight. repeat zcase; nia. }
  set (a1 := mkRing (r_scores a) (<[n := reps_of weight]> (r_nodes a)) (r_data a)).
  set (V := fun m i => exists reps, r_nodes a !! m = Some reps /\ i < reps).
  destruct (add_loop_runs n V (Z.to_nat (reps_of weight)) 0 a1) as (tasks & a2 & Hrun & Ha2 & Hp2 & Hm2 & Hh2).
  - done.
  - done.
  - exact Hp.
  - intros s x. change (at_score a1 s x) with (at_score a s x). rewrite (Hc s x). subst V. cbn. split; intros (m & i & HV & Hi & E); exists m, i; (split; [| by split]).
    + by left.
    + destruct HV as [HV | [_ Hlt]]; [done | lia].
  - assert (runs false false (AddNode c n weight) a (Ok tasks) a2) as Hall.
    { apply runs_locked. eapply ring_bind; [apply Nodes_runs |].
      rewrite decide_False by (rewrite Hn; by intros [? ?]). fold (reps_of weight). rewrite s64_small by lia.
      eapply ring_bind; [apply AddNodeToReplica_runs |]. exact Hrun. }
    exists tasks, a2. split; [done |]. unfold added.
    assert (r_nodes a2 = <[n := reps_of weight]> (r_nodes a)) as Hnodes by (by rewrite (mg_nodes _ _ _ _ Hm2)).
    split_and!; try done.
    + intros s x. rewrite (Hh2 s x), Hnodes. subst V. cbn. rewrite Z2Nat.id by lia.
      split; intros (m & i & HV & Hi & Hx); exists m, i; (split; [| by split]).
      * destruct HV as [(reps & Hm & Hlt) | [-> Hlt]].
        -- exists reps. rewrite lookup_insert_ne by congruence. done.
        -- exists (reps_of weight). rewrite lookup_insert_eq. by split; [| lia].
      * destruct HV as (reps & [[<- <-] | [Hne Hm]]%lookup_insert_Some & Hlt); [right; split; [done | lia] | left; eauto].
    + intros k. split; [by apply (mg_old _ _ _ _ Hm2) |]. intros [m Hm].
      destruct (mg_kept _ _ _ _ Hm2 m k Hm) as [Hk | [Hk _]]; eexists; exact Hk.
    + apply (mg_kept _ _ _ _ Hm2).
    + apply (mg_tasks _ _ _ _ Hm2).
Qed.

(** C11: Adding a node moves exactly the keys it takes over.  [AddNode] of a new node,
    of any weight, succeeds; afterwards every recorded key is still recorded, and
    at the node that owns it on the new ring; a key that has left a node is now
    recorded at the new one, and a task from that node to the new one carries it;
    the ring holds the virtual nodes of the registered nodes and no others. *)
Theorem add_node_migrates r a n weight : 0 < replicas (opts c) < 576460752303423488 ->
  ring_rep false r a -> placed a -> consistent a -> r_nodes a !! n = None ->
  exists tasks r' a', AddNode c n weight r = Ret (Ok tasks, r') /\ ring_rep false r' a' /\
    placed a' /\ consistent a' /\ r_nodes a' = <[n := reps_of weight]> (r_nodes a) /\
    (forall k, recorded a' k <-> recorded a k) /\
    (forall m k, k ∈ data_of a m -> k ∈ data_of a' m \/
       (k ∈ data_of a' n /\ exists t, t ∈ tasks /\ t_from t = m /\ k ∈ t_keys t)) /\
    (forall t k, t ∈ tasks -> k ∈ t_keys t -> t_to t = n /\ k ∈ data_of a' n).
Proof.
  intros Hreps Hr Hp Hc Hn.
  destruct (AddNode_runs a n weight Hreps (rep_ok _ _ _ Hr) Hp Hc Hn) as (tasks & a' & Hrun & Hadd).
  destruct (Hrun r Hr) as (r' & E & Hr'). exists tasks, r', a'. by split_and!; [| | apply Hadd ..].
Qed.

(** A node that is registered is refused, and nothing changes. *)
Lemma AddNode_repeat a n weight reps : r_nodes a !! n = Some reps ->
  runs false false (AddNode c n weight) a (Err "repeat node") a.
Proof.
  intros Hn. apply runs_locked. eapply ring_bind; [apply Nodes_runs |].
  rewrite decide_True by (rewrite Hn; eauto). apply runs_error.
Qed.

Lemma RemoveNode_unknown a n : r_nodes a !! n = None ->
  runs false false (RemoveNode c n) a (Err "invalid node id") a.
Proof.
  intros Hn. apply runs_locked. eapply ring_bind; [apply Nodes_runs |]. rewrite Hn. apply runs_error.
Qed.
End hash.
