(* ===== verification/RingRemove.v ===== *)
(** * Consistent hashing: removing a node

    The ring without the virtual nodes of one node, [getValidNextNode] as the
    search for an owner on it, and the theorem on [RemoveNode]. *)
From S2P Require Import Prelude GoStrings RingHash RingProof.

(** ** The ring without a node *)

Definition others (n : string) (l : list string) : list string := filter (fun x => getNodeID x <> n) l.

Definition strip (n : string) (S : gmap Z (list string)) : gmap Z (list string) :=
  omap (fun l => if decide (others n l = []) then None else Some (others n l)) S.

Lemma strip_Some n S x l' : strip n S !! x = Some l' <-> exists l, S !! x = Some l /\ l' = others n l /\ l' <> [].
Proof.
  unfold strip. rewrite lookup_omap. destruct (S !! x) as [l |]; cbn; [| naive_solver].
  case_decide as Hd; split; [done | | |].
  - intros (l0 & [= <-] & -> & Hne). done.
  - intros [= <-]. eauto.
  - intros (l0 & [= <-] & -> & _). done.
Qed.

Lemma strip_dom n S x : x ∈ dom (strip n S) <-> exists l, S !! x = Some l /\ others n l <> [].
Proof.
  rewrite elem_of_dom. split.
  - intros [l' (l & Hl & -> & Hne)%strip_Some]. eauto.
  - intros (l & Hl & Hne). exists (others n l). apply strip_Some. eauto.
Qed.

Lemma strip_sub n S : dom (strip n S) ⊆ dom S.
Proof. intros x (l & Hl & _)%strip_dom. apply elem_of_dom. eauto. Qed.

Lemma others_first n l : l <> [] -> first_node l <> n -> others n l <> [] /\ first_node (others n l) = first_node l.
Proof. destruct l as [| x l]; [done |]. intros _ Hx. unfold others. by rewrite filter_cons, decide_True. Qed.

(** A node that owns a score keeps it when another node goes. *)
Lemma strip_owns n S h m : (forall x l, S !! x = Some l -> l <> []) -> owns S h m -> m <> n -> owns (strip n S) h m.
Proof.
  intros HS (x & l & [Hx Hmin] & Hl & <-) Hne. destruct (others_first n l) as [Hn Hf]; [by eapply HS | done |].
  exists x, (others n l). split_and!; [| apply strip_Some; eauto | done].
  split; [apply strip_dom; eauto |]. intros y Hy. apply Hmin. by apply (strip_sub n S).
Qed.

(** At most one virtual node of [n] at each score. *)
Definition spread (n : string) (S : gmap Z (list string)) : Prop :=
  forall s l x y, S !! s = Some l -> x ∈ l -> y ∈ l -> getNodeID x = n -> getNodeID y = n -> x = y.

Section list.
Context (n : string) (l : list string) (Hnd : NoDup l).
Context (Hone : forall x y, x ∈ l -> y ∈ l -> getNodeID x = n -> getNodeID y = n -> x = y).

Lemma others_second : first_node l = n -> 1 < zlen l ->
  others n l <> [] /\ first_node (others n l) = second_node l.
Proof.
  destruct l as [| x [| y k]]; [done | unfold zlen; cbn; lia |]. intros Hf _. cbn in Hf.
  apply NoDup_cons in Hnd as [Hx _].
  assert (getNodeID y <> n) as Hy.
  { intros Hy. apply Hx. rewrite (Hone x y); [by left | by left | by right; left | done | done]. }
  unfold others. rewrite filter_cons, decide_False by (intros Hc; by apply Hc).
  rewrite filter_cons, decide_True by done. done.
Qed.

Lemma others_nil : l <> [] -> others n l = [] -> first_node l = n /\ zlen l = 1.
Proof.
  intros Hne Ho. assert (first_node l = n) as Hf.
  { destruct (decide (first_node l = n)); [done |]. by destruct (others_first n l) as [? _]. }
  split; [done |]. destruct (Z.le_gt_cases (zlen l) 1).
  - destruct l; [done |]. zl.
  - by destruct (others_second Hf) as [? _]; [lia |].
Qed.
End list.

Section remove.
Context {R : Type} `{HashRingLaws R} (c : ConsistentHash).
Context (Henc : forall k, score_ok (encrypt c k)) (Hmig : migrator c = true).

(** ** [getValidNextNode] *)

Section next.
Context (a : Ring) (Ha : ring_ok a) (n : string) (Hone : spread n (r_scores a)).
Context (v : Z) (y : Z) (Hy : nearest (dom (strip n (r_scores a))) (dist v) y).
Context (ly : list string) (Hly : strip n (r_scores a) !! y = Some ly).

(** All scores from [v] to [score] have virtual nodes of [n] only. *)
Record looking (x : Z * gset Z) : Prop := {
  lk_score : x.1 ∈ dom (r_scores a);
  lk_before : dist v x.1 < dist v y;
  lk_ranged : forall s, s ∈ x.2 -> s ∈ dom (r_scores a) /\ dist v s <= dist v x.1
}.

Lemma nextNode_step_runs x : v ∈ dom (r_scores a) -> looking x ->
  runs true true (nextNode_step n x) a (Ok (inr (first_node ly))) a \/
  exists x', runs true true (nextNode_step n x) a (Ok (inl x')) a /\ looking x' /\ dist v x.1 < dist v x'.1.
Proof.
  intros Hv [Hs Hb Hr]. destruct x as [score ranged]. cbn [fst snd] in *.
  pose proof (ring_scores_ok a Ha) as HD. apply elem_of_dom in Hs as Hl. destruct Hl as [l Hl].
  destruct (Ceiling_after true a score l Ha Hl) as (next & Hnext & Rnext & Cnext).
  assert (y ∈ dom (r_scores a)) as Hyd by (apply (strip_sub n), Hy).
  pose proof (HD v Hv). pose proof (HD score Hs). pose proof (HD y Hyd). pose proof (HD next Hnext).
  assert (y <> score) as Hys by (intros ->; lia).
  destruct Cnext as [[-> Hall] | [Hns Hafter]]; [by apply Hall in Hyd |].
  specialize (Hafter y Hyd Hys).
  assert (dist v score < dist v next <= dist v y) as Hbetween by ring_lia.
  assert (next ∉ ranged) as Hnr.
  { intros Hin. destruct (Hr next Hin) as [_ Hle]. lia. }
  apply elem_of_dom in Hnext as Hln. destruct Hln as [ln Hln]. destruct (Ha next ln Hln) as (_ & Hne & Hnd).
  assert (forall u w, u ∈ ln -> w ∈ ln -> getNodeID u = n -> getNodeID w = n -> u = w) as Hone'
    by (intros u w; by apply (Hone next ln)).
  assert (next = y \/ others n ln = []) as Hcase.
  { destruct (decide (others n ln = [])) as [| Ho]; [by right | left].
    destruct Hy as [_ Hmin]. specialize (Hmin next). rewrite strip_dom in Hmin. specialize (Hmin ltac:(eauto)). ring_lia. }
  assert ((zlen ln =? 0) = false) as El0 by (apply Z.eqb_neq; destruct ln; [done | zl]).
  destruct (decide (others n ln = [])) as [Ho | Ho].
  - destruct (others_nil n ln Hnd Hone' Hne Ho) as [Hf Hl1]. right. exists (next, ranged ∪ {[score]}). split_and!.
    + eapply ring_bind; [exact Rnext |]. rewrite (proj2 (Z.eqb_neq next (-1))) by (unfold score_ok in *; lia).
      rewrite decide_False by done. eapply ring_bind; [by apply Node_runs |]. rewrite El0.
      rewrite decide_False by (intros Hc; by apply Hc). rewrite (proj2 (Z.ltb_ge _ _)) by lia. apply ring_ret.
    + split; cbn [fst snd]; [done | |].
      * destruct (decide (next = y)) as [-> | Hny]; [| ring_lia].
        apply strip_Some in Hly as (l0 & Hl0 & -> & Hne0). congruence.
      * intros s [Hin | ->%elem_of_singleton]%elem_of_union; [| by split; [| lia]].
        destruct (Hr s Hin). split; [done | lia].
    + cbn. lia.
  - left. destruct Hcase as [-> | ?]; [| done]. apply strip_Some in Hly as (l0 & Hl0 & -> & _).
    assert (l0 = ln) as -> by congruence.
    eapply ring_bind; [exact Rnext |]. rewrite (proj2 (Z.eqb_neq y (-1))) by (unfold score_ok in *; lia).
    rewrite decide_False by done. eapply ring_bind; [by apply Node_runs |]. rewrite El0.
    destruct (decide (first_node ln <> n)) as [Hf | Hf%dec_stable].
    + destruct (others_first n ln Hne Hf) as [_ ->]. apply ring_ret.
    + destruct (1 <? zlen ln) eqn:E1; zb.
      * destruct (others_second n ln Hnd Hone' Hf) as [_ ->]; [done |]. apply ring_ret.
      * exfalso. apply Ho. unfold others. destruct ln as [| u [| w k]]; [done | | zl].
        rewrite filter_cons, decide_False by (intros Hc; by apply Hc). done.
Qed.

Lemma nextNode_loop_runs k : forall x, v ∈ dom (r_scores a) -> looking x ->
  runs true true (nextNode_loop k n x) a (Ok (inr (first_node ly))) a \/
  exists x', runs true true (nextNode_loop k n x) a (Ok (inl x')) a /\ looking x' /\ dist v x.1 + 2 ^ Z.of_nat k <= dist v x'.1.
Proof.
  induction k as [| k IH]; intros x Hv Hx; cbn [nextNode_loop].
  { destruct (nextNode_step_runs x Hv Hx) as [| (x' & Hr & Hx' & Hd)]; [by left | right]. exists x'. by split_and!; [| | lia]. }
  destruct (IH x Hv Hx) as [Hr | (x1 & Hr1 & Hx1 & Hd1)].
  { left. eapply ring_bind; [exact Hr |]. apply ring_ret. }
  destruct (IH x1 Hv Hx1) as [Hr | (x2 & Hr2 & Hx2 & Hd2)].
  { left. eapply ring_bind; [exact Hr1 |]. exact Hr. }
  right. exists x2. split_and!; [eapply ring_bind; [exact Hr1 | exact Hr2] | done |].
  rewrite Nat2Z.inj_succ, Z.pow_succ_r by lia. lia.
Qed.

(** The search finds the first node of the next score that is not only [n]'s. *)
Lemma getValidNextNode_runs : v ∈ dom (r_scores a) -> v ∉ dom (strip n (r_scores a)) ->
  runs true true (getValidNextNode v n) a (Ok (first_node ly)) a.
Proof.
  intros Hv Hnv. pose proof (ring_scores_ok a Ha) as HD. assert (y ∈ dom (r_scores a)) as Hyd by (apply (strip_sub n), Hy).
  pose proof (HD v Hv). pose proof (HD y Hyd). assert (y <> v) as Hyv by (intros ->; by apply Hnv, Hy).
  destruct (nextNode_loop_runs 32 (v, ∅) Hv) as [Hr | (x' & _ & [] & Hd)].
  - split; cbn; [done | ring_lia | set_solver].
  - eapply ring_bind; [exact Hr |]. apply ring_ret.
  - exfalso. pose proof (HD _ lk_score0). cbn [fst] in Hd. change (2 ^ Z.of_nat 32) with 4294967296 in Hd. ring_lia.
Qed.
End next.

(** ** One virtual node less *)

(** While the virtual nodes of [n] go one by one: the keys of other nodes are where
    they belong without [n], and those still recorded for [n] are owned by it. *)
Definition placing (n : string) (a : Ring) : Prop :=
  forall m k, k ∈ data_of a m ->
    (m <> n /\ owns (strip n (r_scores a)) (encrypt c k) m) \/ (m = n /\ owns (r_scores a) (encrypt c k) n).

(** The names that the removal of [n] would confuse. *)
Definition clear_names (n : string) (a : Ring) : Prop :=
  forall s y, at_score a s y -> getNodeID y <> EmptyString /\ forall i, 0 <= i -> getNodeID y <> getRawNodeKey n i.

Lemma owns_at S h n : (forall x l, S !! x = Some l -> l <> []) -> owns S h n ->
  exists s l y, S !! s = Some l /\ y ∈ l /\ getNodeID y = n.
Proof.
  intros HS (x & l & _ & Hl & <-). destruct l as [| y l]; [by apply HS in Hl |]. exists x, (y :: l), y. by split_and!; [| left |].
Qed.

Lemma strip_owner_at n a h m : owns (strip n (r_scores a)) h m -> exists s y, at_score a s y /\ getNodeID y = m.
Proof.
  intros Ho. apply owns_at in Ho as (s & l & y & Hl & Hy & <-); [| intros x l; rewrite strip_Some; naive_solver].
  apply strip_Some in Hl as (l0 & Hl0 & -> & _). exists s, y. split; [| done]. unfold at_score. rewrite Hl0. cbn.
  by apply list_elem_of_filter in Hy as [_ ?].
Qed.

Lemma placing_name n a i : ring_ok a -> placing n a -> clear_names n a -> 0 <= i -> data_of a (getRawNodeKey n i) = ∅.
Proof.
  intros Ha Hp Hc Hi. apply set_eq_subseteq. split; [| set_solver]. intros k Hk. exfalso.
  assert (exists s y, at_score a s y /\ getNodeID y = getRawNodeKey n i) as (s & y & Hy & E).
  { destruct (Hp _ k Hk) as [[_ Ho] | [E Ho]]; [by apply strip_owner_at in Ho |].
    apply owns_at in Ho as (s & l & y & Hl & Hy & En); [| intros x l Hl; apply (Ha x l Hl)].
    exists s, y. unfold at_score. rewrite Hl, E. done. }
  by apply (Hc s y Hy) in E.
Qed.

Lemma data_of_Rem a v nk m : data_of a nk = ∅ -> data_of (ring_Rem a v nk) m = data_of a m.
Proof.
  intros E. unfold data_of, ring_Rem. cbn. destruct (decide (m = nk)) as [-> | Hne].
  - rewrite lookup_delete_eq. done.
  - by rewrite lookup_delete_ne.
Qed.

Lemma Rem_lookup a v nk l x : r_scores a !! v = Some l ->
  r_scores (ring_Rem a v nk) !! x =
    if decide (x = v) then (if decide (filter (fun y => y <> nk) l = []) then None else Some (filter (fun y => y <> nk) l))
    else r_scores a !! x.
Proof.
  intros Hl. unfold ring_Rem. cbn. rewrite Hl. cbn. destruct (decide (x = v)) as [-> | Hne].
  - case_decide; [apply lookup_delete_eq | apply lookup_insert_eq].
  - case_decide; [by apply lookup_delete_ne | by apply lookup_insert_ne].
Qed.

Lemma ring_Rem_ok a v nk l : ring_ok a -> r_scores a !! v = Some l -> ring_ok (ring_Rem a v nk).
Proof.
  intros Ha Hl s k. rewrite (Rem_lookup _ _ _ _ _ Hl). case_decide as Hd; [subst s | apply Ha].
  case_decide as He; [done |]. intros [= <-]. destruct (Ha v l Hl) as (Hv & _ & Hnd). split_and!; try done.
  by apply NoDup_filter.
Qed.

Lemma strip_Rem n a v nk l : getNodeID nk = n -> r_scores a !! v = Some l ->
  strip n (r_scores (ring_Rem a v nk)) = strip n (r_scores a).
Proof.
  intros Hn Hl. apply map_eq. intros x. unfold strip. rewrite !lookup_omap, (Rem_lookup _ _ _ _ _ Hl).
  case_decide as Hd; [subst x; rewrite Hl; cbn | done].
  assert (others n (filter (fun y => y <> nk) l) = others n l) as Ho.
  { unfold others. rewrite list_filter_filter_l; [done |]. intros y Hy ->. done. }
  case_decide as He; cbn; [| by rewrite Ho]. rewrite He in Ho. by rewrite <- Ho.
Qed.

(** A score not nearest to [v] keeps its owner, and so does every score when [n]
    is not the first at [v]. *)
Lemma Rem_owns a v nk l h x lx : r_scores a !! v = Some l ->
  nearest (dom (r_scores a)) (dist h) x -> r_scores a !! x = Some lx -> x <> v ->
  owns (r_scores (ring_Rem a v nk)) h (first_node lx).
Proof.
  intros Hl [Hx Hmin] Hlx Hne. exists x, lx. rewrite (Rem_lookup _ _ _ _ _ Hl), decide_False by done. split_and!; try done.
  split; [apply elem_of_dom; exists lx; by rewrite (Rem_lookup _ _ _ _ _ Hl), decide_False |].
  intros y [ly Hy]%elem_of_dom. apply Hmin, elem_of_dom. rewrite (Rem_lookup _ _ _ _ _ Hl) in Hy.
  case_decide; [subst; eauto | eauto].
Qed.

(** What [migrateOut] moves, and where. *)
Record moved_out (a a' : Ring) (n : string) (v : Z) (to : string) (ds : gset string) : Prop := {
  mo_scores : r_scores a' = r_scores a;
  mo_nodes : r_nodes a' = r_nodes a;
  mo_data m k : k ∈ data_of a' m <-> (m = to /\ k ∈ ds) \/ (k ∈ data_of a m /\ ~ (m = n /\ k ∈ ds));
  mo_keys k : k ∈ ds -> k ∈ data_of a n /\ to <> n /\ owns (strip n (r_scores a)) (encrypt c k) to;
  mo_rest k : k ∈ data_of a n -> k ∉ ds -> ~ nearest (dom (r_scores a)) (dist (encrypt c k)) v \/
    (forall l, r_scores a !! v = Some l -> first_node l <> n)
}.

Lemma moved_out_none a n v to : (data_of a n = ∅ \/ forall l, r_scores a !! v = Some l -> first_node l <> n) ->
  moved_out a a n v to ∅.
Proof.
  intros Hwhy. split; [done | done | set_solver | set_solver |]. intros k Hk _. right. destruct Hwhy as [E | ?]; [| done].
  rewrite E in Hk. by apply not_elem_of_empty in Hk.
Qed.

(** The keys at [v] and the node they go to, once [to] is known. *)
Lemma migrate_keys a v l n last : ring_ok a -> r_scores a !! v = Some l -> last ∈ dom (r_scores a) ->
  ((last = v /\ forall y, y ∈ dom (r_scores a) -> y = v) \/
   (last <> v /\ forall y, y ∈ dom (r_scores a) -> y <> v -> dist last v <= dist y v)) ->
  let ds := filter (fun k => ((last =? -1) || (last =? v)) || moves_out last v (encrypt c k) = true) (data_of a n) in
  forall k, k ∈ ds <-> k ∈ data_of a n /\ nearest (dom (r_scores a)) (dist (encrypt c k)) v.
Proof.
  intros Ha Hl Hlast Hcase ds k. subst ds. rewrite elem_of_filter. pose proof (ring_scores_ok a Ha) as HD.
  assert (v ∈ dom (r_scores a)) as Hv by (apply elem_of_dom; eauto). pose proof (HD v Hv). pose proof (HD last Hlast).
  rewrite (proj2 (Z.eqb_neq last (-1))) by (unfold score_ok in *; lia). cbn [orb].
  destruct Hcase as [[-> Hall] | [Hne Hbef]].
  - rewrite Z.eqb_refl. cbn. split; [| tauto]. intros [_ Hk]. split; [done |]. split; [done |].
    intros y Hy. rewrite (Hall y Hy). lia.
  - rewrite (proj2 (Z.eqb_neq last v)) by done. cbn [orb]. rewrite moves_out_arc by (done || apply Henc).
    rewrite (arc_nearest (dom (r_scores a)) HD v last) by (done || apply Henc). tauto.
Qed.

Lemma strip_next n a v h y ly : ring_ok a -> score_ok h -> nearest (dom (r_scores a)) (dist h) v -> v ∉ dom (strip n (r_scores a)) ->
  nearest (dom (strip n (r_scores a))) (dist v) y -> strip n (r_scores a) !! y = Some ly ->
  owns (strip n (r_scores a)) h (first_node ly).
Proof.
  intros Ha Hh [Hv Hmin] Hnv [Hy Hymin] Hly. pose proof (ring_scores_ok a Ha) as HD. exists y, ly. split_and!; try done.
  split; [done |]. intros z Hz. specialize (Hymin z Hz).
  assert (y <> v) by (intros ->; done). assert (z <> v) by (intros ->; done).
  apply (strip_sub n) in Hy. apply (strip_sub n) in Hz. pose proof (Hmin y Hy). pose proof (Hmin z Hz).
  pose proof (HD v Hv). pose proof (HD y Hy). pose proof (HD z Hz). ring_lia.
Qed.

(** [migrateOut] once the receiver is known. *)
Lemma migrateOut_finish a n v to ds : ring_ok a -> to <> EmptyString -> to <> n ->
  runs true true (migrateOut_body c v n) a (Ok (to, ds)) a ->
  (forall k, k ∈ ds <-> k ∈ data_of a n /\ nearest (dom (r_scores a)) (dist (encrypt c k)) v) ->
  (forall k, k ∈ ds -> owns (strip n (r_scores a)) (encrypt c k) to) ->
  exists a', runs true true (migrateOut c v n) a (Ok (n, to, ds)) a' /\ moved_out a a' n v to ds.
Proof.
  intros Ha Hto Hne Hrun Hds Hown. exists (if decide (ds = ∅) then a else moved a n to ds). split.
  - unfold migrateOut. rewrite Hmig. cbn [negb]. eapply ring_bind; [exact Hrun |]. cbn beta iota.
    destruct (decide (ds = ∅)) as [-> | Hd].
    + rewrite decide_True by (by right). apply ring_ret.
    + rewrite decide_False by (by intros [|]).
      eapply ring_bind; [apply DeleteNodeToDataKeys_runs |].
      eapply ring_bind; [apply AddNodeToDataKeys_runs |]. apply ring_ret.
  - destruct (decide (ds = ∅)) as [-> | Hd]; (split; [done | done | | |]).
    + set_solver.
    + set_solver.
    + intros k Hk _. left. intros Hn. by apply (not_elem_of_empty (C := gset string) k), Hds.
    + intros m k. apply data_of_moved.
    + intros k Hk. split; [by apply Hds | auto].
    + intros k Hk Hnk. left. intros Hn. by apply Hnk, Hds.
Qed.

Definition removable (n : string) (a : Ring) : Prop :=
  ring_ok a /\ spread n (r_scores a) /\ clear_names n a /\ placing n a /\
  (dom (strip n (r_scores a)) <> ∅ \/ data_of a n = ∅).

Lemma clear_second n a v l : clear_names n a -> r_scores a !! v = Some l -> 1 < zlen l -> second_node l <> EmptyString.
Proof.
  intros Hc Hl Hlen. destruct l as [| x [| y l]]; [done | unfold zlen in Hlen; cbn in Hlen; lia |].
  apply (Hc v y). unfold at_score. rewrite Hl. cbn. right. by left.
Qed.

(** Nothing is moved when [n] is not first at [v], or has no keys. *)
Lemma migrateOut_nothing a n v l : ring_ok a -> r_scores a !! v = Some l -> (first_node l <> n \/ data_of a n = ∅) ->
  runs true true (migrateOut c v n) a (Ok (n, EmptyString, ∅)) a.
Proof.
  intros Ha Hl Hwhy. destruct (Ha v l Hl) as (_ & Hne & _).
  unfold migrateOut. rewrite Hmig. cbn [negb]. eapply ring_bind.
  - eapply ring_bind; [by apply Node_runs |]. rewrite (proj2 (Z.eqb_neq (zlen l) 0)) by (destruct l; [done | zl]).
    destruct (decide (first_node l <> n)) as [Hf | Hf]; [apply ring_ret |].
    eapply ring_bind; [apply DataKeys_runs |]. rewrite decide_True by tauto. apply ring_ret.
  - cbn beta iota. rewrite decide_True by (by left). apply ring_ret.
Qed.

Section move.
Context (a : Ring) (n : string) (v : Z) (l : list string) (Hrem : removable n a) (Hl : r_scores a !! v = Some l).
Context (Hf : first_node l = n) (Hd : data_of a n <> ∅).

(** [migrateOut_body] up to the choice of the receiver. *)
Lemma migrateOut_keys : exists last ds, last ∈ dom (r_scores a) /\
  (last = v -> forall y, y ∈ dom (r_scores a) -> y = v) /\
  (forall k, k ∈ ds <-> k ∈ data_of a n /\ nearest (dom (r_scores a)) (dist (encrypt c k)) v) /\
  forall z, ((last =? -1) || (last =? v)) && (zlen l =? 1) = false ->
    runs true true (if 1 <? zlen l then mret (second_node l, ds) else
       to ← getValidNextNode v n; if decide (to = EmptyString) then fail "no other node" else mret (to, ds)) a z a ->
    runs true true (migrateOut_body c v n) a z a.
Proof.
  destruct Hrem as (Ha & _). destruct (Ha v l Hl) as (_ & Hne & _).
  destruct (Floor_before true a v l Ha Hl) as (last & Hlast & Rlast & Clast).
  exists last. eexists. split; [done |]. split; [by intros ->; destruct Clast as [[_ ?] | [? _]] |].
  split; [by apply (migrate_keys a v l n last) |]. intros z Eonly Hz.
  eapply ring_bind; [by apply Node_runs |]. rewrite (proj2 (Z.eqb_neq (zlen l) 0)) by (destruct l; [done | zl]).
  rewrite decide_False by tauto. eapply ring_bind; [apply DataKeys_runs |]. rewrite decide_False by done.
  eapply ring_bind; [exact Rlast |]. cbv zeta. rewrite Eonly. exact Hz.
Qed.

Lemma one_at_v x y : x ∈ l -> y ∈ l -> getNodeID x = n -> getNodeID y = n -> x = y.
Proof. destruct Hrem as (_ & Hone & _). by apply (Hone v l). Qed.

(** The receiver is the second node at [v]. *)
Lemma migrateOut_second : 1 < zlen l ->
  exists to ds a', runs true true (migrateOut c v n) a (Ok (n, to, ds)) a' /\ moved_out a a' n v to ds.
Proof.
  intros Hlen. pose proof Hrem as (Ha & _ & Hc & _). destruct (Ha v l Hl) as (_ & _ & Hnd).
  destruct migrateOut_keys as (last & ds & _ & _ & Hds & Hbody).
  destruct (others_second n l Hnd one_at_v Hf Hlen) as [Ho1 Ho2].
  exists (second_node l), ds. apply migrateOut_finish; [done | by eapply clear_second | | | done |].
  - rewrite <- Ho2. destruct (others n l) as [| u k] eqn:Eo; [done |]. cbn.
    assert (u ∈ others n l) as Hu by (rewrite Eo; by left). by apply list_elem_of_filter in Hu as [? _].
  - apply Hbody; [| rewrite (proj2 (Z.ltb_lt _ _)) by done; apply ring_ret].
    rewrite (proj2 (Z.eqb_neq (zlen l) 1)) by lia. by rewrite andb_false_r.
  - intros k [_ [Hvd Hmin]]%Hds. exists v, (others n l). split_and!; [| apply strip_Some; eauto | done].
    split; [apply strip_dom; eauto |]. intros y Hy. by apply Hmin, (strip_sub n).
Qed.

(** The receiver is the next node that is not [n]. *)
Lemma migrateOut_next : zlen l = 1 -> dom (strip n (r_scores a)) <> ∅ ->
  exists to ds a', runs true true (migrateOut c v n) a (Ok (n, to, ds)) a' /\ moved_out a a' n v to ds.
Proof.
  intros Hlen Hstrip. pose proof Hrem as (Ha & Hone & Hc & _).
  destruct migrateOut_keys as (last & ds & Hlast & Honly & Hds & Hbody).
  assert (v ∉ dom (strip n (r_scores a))) as Hnv.
  { intros (l0 & Hl0 & Hn0)%strip_dom. assert (l0 = l) as -> by congruence. apply Hn0.
    destruct l as [| u [| w k]]; [done | | zl]. unfold others. rewrite filter_cons, decide_False; [done |].
    intros Hx. by apply Hx. }
  destruct (nearest_exists _ (dist v) Hstrip) as (y & Hy). pose proof Hy as [Hyd _].
  apply elem_of_dom in Hyd as [ly Hly].
  assert (last <> v) as Hlv.
  { intros ->. destruct Hy as [Hy _]. apply Hnv. rewrite <- (Honly eq_refl y (strip_sub _ _ _ Hy)). done. }
  assert (v ∈ dom (r_scores a)) as Hvd by (apply elem_of_dom; eauto).
  pose proof (ring_scores_ok a Ha last Hlast) as Hlok.
  pose proof (getValidNextNode_runs a Ha n Hone v y Hy ly Hly Hvd Hnv) as Rnext.
  assert (exists u k, ly = u :: k /\ getNodeID u <> n /\ getNodeID u <> EmptyString) as (u & k & -> & Hun & Hue).
  { apply strip_Some in Hly as (l0 & Hl0 & E & Hn0). destruct ly as [| u k]; [done |]. exists u, k. split; [done |].
    assert (u ∈ others n l0) as [Hu Hin]%list_elem_of_filter by (rewrite <- E; by left). split; [done |].
    apply (Hc y u). unfold at_score. by rewrite Hl0. }
  exists (getNodeID u), ds. apply migrateOut_finish; [done | done | done | | done |].
  - apply Hbody.
    + rewrite (proj2 (Z.eqb_neq last (-1))), (proj2 (Z.eqb_neq last v)) by (done || unfold score_ok in *; lia). done.
    + rewrite (proj2 (Z.ltb_ge _ _)) by lia. eapply ring_bind; [exact Rnext |]. cbn. rewrite decide_False by done. apply ring_ret.
  - intros x [_ Hx]%Hds. exact (strip_next n a v _ y (u :: k) Ha (Henc x) Hx Hnv Hy Hly).
Qed.
End move.

Lemma migrateOut_runs a n v l : removable n a -> r_scores a !! v = Some l ->
  exists to ds a', runs true true (migrateOut c v n) a (Ok (n, to, ds)) a' /\ moved_out a a' n v to ds.
Proof.
  intros Hrem Hl. pose proof Hrem as (Ha & _ & _ & _ & Hmore). destruct (Ha v l Hl) as (_ & Hne & _).
  assert (1 <= zlen l) as Hlen by (destruct l; [done | zl]).
  destruct (decide (first_node l = n)) as [Hf | Hf]; [destruct (decide (data_of a n = ∅)) as [Hd | Hd] |].
  - exists EmptyString, ∅, a. split; [apply (migrateOut_nothing a n v l); auto | apply moved_out_none; by left].
  - destruct (Z.le_gt_cases (zlen l) 1) as [H1 | H1]; [| by apply (migrateOut_second a n v l)].
    destruct Hmore as [Hs | ?]; [| done]. apply (migrateOut_next a n v l); try done. lia.
  - exists EmptyString, ∅, a. split; [apply (migrateOut_nothing a n v l); auto |].
    apply moved_out_none. right. intros l' Hl'. congruence.
Qed.

Lemma remove_step a n i l : removable n a -> 0 <= i ->
  let nk := getRawNodeKey n i in let v := encrypt c nk in
  r_scores a !! v = Some l -> nk ∈ l ->
  exists to ds a1, runs true true (migrateOut c v n) a (Ok (n, to, ds)) a1 /\
    moved_out a a1 n v to ds /\ runs true true (Rem v nk) a1 (Ok tt) (ring_Rem a1 v nk) /\
    removable n (ring_Rem a1 v nk) /\ forall m, data_of (ring_Rem a1 v nk) m = data_of a1 m.
Proof.
  intros Hrem Hi nk v Hl Hnk. pose proof (getNodeID_raw n i Hi) as Hid. fold nk in Hid.
  destruct (migrateOut_runs a n v l Hrem Hl) as (to & ds & a1 & Hrun & Hmo). exists to, ds, a1.
  destruct Hrem as (Ha & Hone & Hc & Hp & Hmore). pose proof Hmo as [Hs Hnodes Hdata Hkeys Hrest].
  assert (r_scores a1 !! v = Some l) as Hl1 by (by rewrite Hs).
  assert (ring_ok a1) as Ha1 by (intros s k; rewrite Hs; apply Ha).
  assert (strip n (r_scores (ring_Rem a1 v nk)) = strip n (r_scores a)) as Hst by (by rewrite (strip_Rem _ _ _ _ l), Hs).
  assert (data_of a1 nk = ∅) as Hempty.
  { apply set_eq_subseteq. split; [| set_solver]. intros k. rewrite (Hdata nk k). intros [[E Hk] | [Hk _]].
    - destruct (Hkeys k Hk) as (_ & _ & (s & y & Hy & Ey)%strip_owner_at). exfalso.
      destruct (Hc s y Hy) as [_ Hbad]. apply (Hbad i Hi). by rewrite Ey, <- E.
    - unfold nk in Hk. rewrite placing_name in Hk by done. done. }
  assert (forall m, data_of (ring_Rem a1 v nk) m = data_of a1 m) as Hd2 by (intros; by apply data_of_Rem).
  split_and!; try done.
  - eapply Rem_runs; done.
  - split_and!.
    + by eapply ring_Rem_ok.
    + intros s k x y Hk Hx Hy. rewrite (Rem_lookup _ _ _ _ _ Hl1) in Hk. case_decide as Hd.
      * subst s. case_decide; [done |]. injection Hk as <-. apply list_elem_of_filter in Hx as [_ Hx], Hy as [_ Hy].
        by apply (Hone v l).
      * rewrite Hs in Hk. by apply (Hone s k).
    + intros s y Hy. apply at_Rem in Hy as [Hy _]. apply (Hc s y). unfold at_score in *. by rewrite <- Hs.
    + intros m k. rewrite Hd2, Hst, (Hdata m k). intros [[-> Hk] | [Hk Hno]].
      * left. destruct (Hkeys k Hk) as (_ & Hne & Ho). done.
      * destruct (Hp m k Hk) as [Ho | [-> (x & lx & Hx & Hlx & Hfx)]]; [by left | right]. split; [done |].
        assert (x <> v) as Hxv.
        { intros ->. destruct (Hrest k Hk) as [Hnn | Hnn]; [tauto | done |]. by apply (Hnn lx). }
        rewrite <- Hs in Hx, Hlx. pose proof (Rem_owns a1 v nk l _ x lx Hl1 Hx Hlx Hxv) as Ho. by rewrite Hfx in Ho.
    + rewrite Hst. destruct Hmore as [| E]; [by left | right]. rewrite Hd2. apply set_eq_subseteq. split; [| set_solver].
      intros k. rewrite (Hdata n k). intros [[-> Hk] | [Hk _]].
      * by destruct (Hkeys k Hk) as (_ & ? & _).
      * by rewrite E in Hk.
Qed.

(** What a sequence of migrations from [n] does. *)
Record emptied (a a' : Ring) (n : string) (tasks : list task) : Prop := {
  em_nodes : r_nodes a' = r_nodes a;
  em_kept m k : k ∈ data_of a m -> k ∈ data_of a' m \/
    (m = n /\ exists t, t ∈ tasks /\ k ∈ t_keys t /\ k ∈ data_of a' (t_to t));
  em_old k : recorded a' k -> recorded a k;
  em_tasks t k : t ∈ tasks -> k ∈ t_keys t -> t_from t = n /\ k ∈ data_of a n
}.

Lemma emptied_step a a1 a2 a3 n v to ds tasks : moved_out a a1 n v to ds ->
  r_nodes a2 = r_nodes a1 -> (forall m, data_of a2 m = data_of a1 m) ->
  emptied a2 a3 n tasks -> emptied a a3 n (with_task ds n to tasks).
Proof.
  intros [_ Hn1 Hd1 Hk1 _] Hn2 Hd2 [Hn3 Hkept Hold Htasks]. split.
  - congruence.
  - intros m k Hk. destruct (decide (m = n /\ k ∈ ds)) as [[-> Hin] | Hno].
    + right. split; [done |]. destruct (Hk1 k Hin) as (_ & Hne & _).
      assert (k ∈ data_of a2 to) as Hto by (rewrite Hd2; apply Hd1; by left).
      exists (Task ds n to). rewrite with_task_in. split; [left; set_solver |]. split; [done |]. cbn.
      by destruct (Hkept to k Hto) as [| [-> _]].
    + assert (k ∈ data_of a2 m) as Hm by (rewrite Hd2; apply Hd1; by right).
      destruct (Hkept m k Hm) as [| (-> & t & Ht & Hkt & Hto)]; [by left | right]. split; [done |].
      exists t. rewrite with_task_in. auto.
  - intros k Hk. destruct (Hold k Hk) as [m Hm]. rewrite Hd2, (Hd1 m k) in Hm. destruct Hm as [[_ Hin] | [Hm _]]; [| by exists m].
    exists n. by apply Hk1.
  - intros t k [[-> _] | Ht]%with_task_in Hk.
    + split; [done |]. by apply Hk1.
    + destruct (Htasks t k Ht Hk) as [Hf Hin]. split; [done |]. rewrite Hd2, (Hd1 n k) in Hin.
      destruct Hin as [[_ Hin] | [? _]]; [by apply Hk1 | done].
Qed.

Lemma at_score_Some a s x : at_score a s x -> exists l, r_scores a !! s = Some l /\ x ∈ l.
Proof. unfold at_score. destruct (r_scores a !! s); cbn; [eauto | by intros ?%not_elem_of_nil]. Qed.

Lemma remove_loop_runs n V : (forall m j, V m j -> m <> n) ->
  forall k i a, 0 <= i -> removable n a -> holds c a (fun m j => V m j \/ (m = n /\ i <= j < i + Z.of_nat k)) ->
  exists tasks a', runs true true (remove_loop c n i k) a (Ok tasks) a' /\ removable n a' /\
    emptied a a' n tasks /\ holds c a' V.
Proof.
  intros HV. induction k as [| k IH]; intros i a Hi Hrem Hh; cbn [remove_loop].
  { exists [], a. split_and!; [apply ring_ret | done | |].
    - split; [done | by left | done |]. by intros t x ?%not_elem_of_nil.
    - intros s x. rewrite (Hh s x). split; intros (m & j & HVm & Hj & E); exists m, j; (split; [| by split]).
      + destruct HVm as [| [_ ?]]; [done | lia].
      + by left. }
  set (nk := getRawNodeKey n i). set (v := encrypt c nk).
  assert (at_score a v nk) as Hat.
  { apply Hh. exists n, i. split_and!; try done. right. split; [done | lia]. }
  apply at_score_Some in Hat as (l & Hl & Hin).
  destruct (remove_step a n i l Hrem Hi Hl Hin) as (to & ds & a1 & Hrun & Hmo & Rrem & Hrem2 & Hd2). fold nk v in Hrun, Hmo, Rrem, Hrem2, Hd2.
  set (a2 := ring_Rem a1 v nk) in *.
  assert (holds c a2 (fun m j => V m j \/ (m = n /\ i + 1 <= j < i + 1 + Z.of_nat k))) as Hh2.
  { intros s x. unfold a2. rewrite at_Rem. unfold at_score. rewrite (mo_scores _ _ _ _ _ _ Hmo).
    fold (at_score a s x). rewrite (Hh s x). split.
    - intros [(m & j & HVm & Hj & -> & ->) Hno]. exists m, j. split_and!; try done.
      destruct HVm as [| [-> ?]]; [by left | right]. split; [done |].
      destruct (decide (j = i)) as [-> |]; [by destruct Hno | lia].
    - intros (m & j & HVm & Hj & -> & ->). split.
      + exists m, j. split_and!; try done. destruct HVm as [| [-> ?]]; [by left | right]. split; [done | lia].
      + intros [_ E]. apply raw_inj in E as [-> ->]; [| done | done]. destruct HVm as [Hbad | [_ ?]]; [by apply HV in Hbad | lia]. }
  destruct (IH (i + 1) a2 ltac:(lia) Hrem2 Hh2) as (tasks & a3 & Hrun3 & Hrem3 & Hem3 & Hh3).
  exists (with_task ds n to tasks), a3. split_and!; try done.
  - eapply ring_bind; [exact Hrun |]. cbn beta iota. eapply ring_bind; [exact Rrem |].
    eapply ring_bind; [exact Hrun3 |]. apply ring_ret.
  - eapply (emptied_step a a1 a2 a3); [exact Hmo | done | exact Hd2 | done].
Qed.

Lemma strip_gone n S : (forall s l x, S !! s = Some l -> x ∈ l -> getNodeID x <> n) ->
  (forall s l, S !! s = Some l -> l <> []) -> strip n S = S.
Proof.
  intros Hno Hne. apply map_eq. intros s. unfold strip. rewrite lookup_omap. destruct (S !! s) as [l |] eqn:E; [| done]. cbn.
  assert (others n l = l) as -> by (apply filter_all, Forall_forall; intros x Hx; by apply (Hno s l)).
  rewrite decide_False by (by eapply Hne). done.
Qed.

(** No two virtual nodes of [n] have the same score. *)
Definition no_collision (n : string) (reps : Z) : Prop :=
  forall i j, 0 <= i < reps -> 0 <= j < reps ->
    encrypt c (getRawNodeKey n i) = encrypt c (getRawNodeKey n j) -> i = j.

Lemma removable_start a n reps : ring_ok a -> placed c a -> consistent c a -> r_nodes a !! n = Some reps ->
  no_collision n reps -> r_nodes a !! EmptyString = None ->
  (forall i, 0 <= i -> r_nodes a !! getRawNodeKey n i = None) ->
  (data_of a n = ∅ \/ exists m k, m <> n /\ r_nodes a !! m = Some k /\ 0 < k) -> removable n a.
Proof.
  intros Ha Hp Hc Hn Hcol He Hnames Hmore. split_and!.
  - done.
  - intros s l x y Hl Hx Hy Ex Ey.
    assert (at_score a s x /\ at_score a s y) as [Hax Hay] by (unfold at_score; by rewrite Hl).
    apply Hc in Hax as (m & i & (k & Hm & Hlt) & Hi & -> & Es). apply Hc in Hay as (m' & j & (k' & Hm' & Hlt') & Hj & -> & Es').
    rewrite getNodeID_raw in Ex, Ey by done. subst m m'. assert (k = reps) by congruence. assert (k' = reps) by congruence. subst.
    by rewrite (Hcol i j) by (lia || congruence).
  - intros s y (m & i & (k & Hm & Hlt) & Hi & -> & _)%Hc. rewrite getNodeID_raw by done. split; [congruence |].
    intros j Hj ->. specialize (Hnames j Hj). congruence.
  - intros m k Hk. specialize (Hp m k Hk). destruct (decide (m = n)) as [-> | Hne]; [by right | left].
    split; [done |]. apply strip_owns; [| done | done]. intros x l Hl. apply (Ha x l Hl).
  - destruct Hmore as [| (m & k & Hne & Hm & Hk)]; [by right | left]. intros E.
    assert (at_score a (encrypt c (getRawNodeKey m 0)) (getRawNodeKey m 0)) as (l & Hl & Hin)%at_score_Some.
    { apply Hc. exists m, 0. split_and!; eauto. lia. }
    apply (not_elem_of_empty (C := gset Z) (encrypt c (getRawNodeKey m 0))). rewrite <- E. apply strip_dom.
    exists l. split; [done |]. intros Ho. apply (not_elem_of_nil (getRawNodeKey m 0)). rewrite <- Ho.
    apply list_elem_of_filter. by rewrite getNodeID_raw.
Qed.

(** Removing a node hands its keys to their next owners.  When another node is
    left (or nothing is recorded for the node), [RemoveNode] succeeds: the keys
    recorded for the node are each in a task to the node that owns it on the
    remaining ring and are recorded there; the keys of the others stay where they
    are; every recorded key is at its owner on the remaining ring, which holds the
    virtual nodes of the remaining nodes.  The virtual nodes of the node must have
    different scores, and no node may be called like one of them or have an empty
    name. *)
Theorem remove_node_migrates r a n reps : ring_rep false r a -> placed c a -> consistent c a ->
  r_nodes a !! n = Some reps -> 0 <= reps -> no_collision n reps -> r_nodes a !! EmptyString = None ->
  (forall i, 0 <= i -> r_nodes a !! getRawNodeKey n i = None) ->
  (data_of a n = ∅ \/ exists m k, m <> n /\ r_nodes a !! m = Some k /\ 0 < k) ->
  exists tasks r' a', RemoveNode c n r = Ret (Ok tasks, r') /\ ring_rep false r' a' /\
    placed c a' /\ consistent c a' /\ r_nodes a' = delete n (r_nodes a) /\
    (forall k, recorded a' k <-> recorded a k) /\
    (forall m k, m <> n -> k ∈ data_of a m -> k ∈ data_of a' m) /\
    (forall k, k ∈ data_of a n -> exists t, t ∈ tasks /\ k ∈ t_keys t /\ k ∈ data_of a' (t_to t)) /\
    (forall t k, t ∈ tasks -> k ∈ t_keys t -> t_from t = n /\ k ∈ data_of a n).
Proof.
  intros Hr Hp Hc Hn Hreps Hcol He Hnames Hmore. pose proof (rep_ok _ _ _ Hr) as Ha.
  pose proof (removable_start a n reps Ha Hp Hc Hn Hcol He Hnames Hmore) as Hrem.
  set (V := fun m i => exists k, delete n (r_nodes a) !! m = Some k /\ i < k).
  set (a1 := mkRing (r_scores a) (delete n (r_nodes a)) (r_data a)).
  assert (forall m j, V m j -> m <> n) as HV by (intros m j (k & [? _]%lookup_delete_Some & _); congruence).
  destruct (remove_loop_runs n V HV (Z.to_nat reps) 0 a1) as (tasks & a2 & Hrun & Hrem2 & Hem & Hh); [done | exact Hrem | |].
  { intros s x. change (at_score a1 s x) with (at_score a s x). rewrite (Hc s x), Z2Nat.id by done.
    split; intros (m & i & Hm & Hi & E); exists m, i; (split; [| by split]).
    - destruct Hm as (k & Hm & Hlt). destruct (decide (m = n)) as [-> | Hne].
      + right. assert (k = reps) as -> by congruence. split; [done | lia].
      + left. exists k. by rewrite lookup_delete_ne.
    - destruct Hm as [(k & [_ Hm]%lookup_delete_Some & Hlt) | [-> ?]]; [eauto |]. exists reps. split; [done | lia]. }
  assert (runs false false (RemoveNode c n) a (Ok tasks) a2) as Hall.
  { apply runs_locked. eapply ring_bind; [apply Nodes_runs |]. rewrite Hn.
    eapply ring_bind; [apply DeleteNodeToReplica_runs |]. exact Hrun. }
  destruct (Hall r Hr) as (r' & E & Hr'). exists tasks, r', a2.
  assert (r_nodes a2 = delete n (r_nodes a)) as Hnodes by (by rewrite (em_nodes _ _ _ _ Hem)).
  assert (consistent c a2) as Hc2 by (unfold consistent; rewrite Hnodes; exact Hh).
  destruct Hrem2 as (Ha2 & _ & _ & Hp2 & _).
  assert (forall s y, at_score a2 s y -> getNodeID y <> n) as Hgone.
  { intros s y (m & i & HVm & Hi & -> & _)%Hh. rewrite getNodeID_raw by done. by eapply HV. }
  assert (placed c a2) as Hplaced.
  { intros m k Hk. destruct (Hp2 m k Hk) as [[Hne Ho] | [-> Ho]].
    - rewrite strip_gone in Ho; [done | |]; intros s l; [| intros Hl; apply (Ha2 s l Hl)].
      intros x Hl Hx. apply (Hgone s). unfold at_score. by rewrite Hl.
    - exfalso. apply owns_at in Ho as (s & l & y & Hl & Hy & Ey); [| intros x l Hl; apply (Ha2 x l Hl)].
      apply (Hgone s y); [| done]. unfold at_score. by rewrite Hl. }
  assert (data_of a2 n = ∅) as Hempty.
  { apply set_eq_subseteq. split; [| set_solver]. intros k Hk. exfalso.
    apply Hplaced, owns_at in Hk as (s & l & y & Hl & Hy & Ey); [| intros x l Hl; apply (Ha2 x l Hl)].
    apply (Hgone s y); [| done]. unfold at_score. by rewrite Hl. }
  split_and!; try done.
  - intros k. split; [by apply (em_old _ _ _ _ Hem) |]. intros [m Hm].
    destruct (em_kept _ _ _ _ Hem m k Hm) as [Hk | (_ & t & _ & _ & Hk)]; eexists; exact Hk.
  - intros m k Hne Hk. by destruct (em_kept _ _ _ _ Hem m k Hk) as [| [? _]].
  - intros k Hk. destruct (em_kept _ _ _ _ Hem n k Hk) as [Hk' | (_ & Ht)]; [| done]. rewrite Hempty in Hk'. by apply not_elem_of_empty in Hk'.
  - apply (em_tasks _ _ _ _ Hem).
Qed.

(** ** Lookup *)

Lemma GetNode_runs a k : ring_ok a -> r_scores a <> ∅ ->
  exists n, let a' := mkRing (r_scores a) (r_nodes a) (<[n := data_of a n ∪ {[k]}]> (r_data a)) in
    runs false false (GetNode c k) a (Ok n) a' /\ owns (r_scores a) (encrypt c k) n /\
    forall m y, y ∈ data_of a' m <-> y ∈ data_of a m \/ (m = n /\ y = k).
Proof using Henc.
  clear Hmig. intros Ha He. pose proof (ring_scores_ok a Ha) as HD.
  destruct (nearest_exists (dom (r_scores a)) (dist (encrypt c k))) as (x & Hx); [by rewrite dom_empty_iff_L |].
  pose proof Hx as [Hxd _]. apply elem_of_dom in Hxd as Hl. destruct Hl as [l Hl]. destruct (Ha x l Hl) as (Hxs & Hne & _).
  exists (first_node l). split_and!; [| by exists x, l |].
  - apply runs_locked. eapply ring_bind; [apply Ceiling_runs, nearest_ceiling; [done | apply Henc | done] |].
    rewrite (proj2 (Z.eqb_neq x (-1))) by (unfold score_ok in *; lia).
    eapply ring_bind; [by apply Node_runs |]. rewrite (proj2 (Z.eqb_neq (zlen l) 0)) by (destruct l; [done | zl]).
    eapply ring_bind; [apply AddNodeToDataKeys_runs |]. apply ring_ret.
  - intros m y. rewrite data_of_insert. case_decide; subst; set_solver.
Qed.

(** [GetNode] returns the owner and records the key at it.  On a ring with virtual
    nodes it succeeds; the key is recorded at the node returned, which owns it, and
    no other record changes; on an empty ring it reports that no node is
    available and changes nothing. *)
Theorem get_node_owner r a k : ring_rep false r a -> placed c a ->
  (r_scores a <> ∅ /\ exists n r' a', GetNode c k r = Ret (Ok n, r') /\ ring_rep false r' a' /\
     owns (r_scores a) (encrypt c k) n /\ r_scores a' = r_scores a /\ r_nodes a' = r_nodes a /\ placed c a' /\
     forall m x, x ∈ data_of a' m <-> x ∈ data_of a m \/ (m = n /\ x = k)) \/
  (r_scores a = ∅ /\ exists r', GetNode c k r = Ret (Err "no node available", r') /\ ring_rep false r' a).
Proof using Henc.
  clear Hmig. intros Hr Hp. pose proof (rep_ok _ _ _ Hr) as Ha. destruct (decide (r_scores a = ∅)) as [He | He].
  - right. split; [done |].
    assert (runs false false (GetNode c k) a (Err "no node available") a) as Hall; [| destruct (Hall r Hr) as (r' & E & Hr'); eauto].
    apply runs_locked. eapply ring_bind; [apply Ceiling_runs; right; right; by rewrite He |]. apply runs_error.
  - left. split; [done |]. destruct (GetNode_runs a k Ha He) as (n & Hrun & Hown & Hdata).
    destruct (Hrun r Hr) as (r' & E & Hr'). eexists n, r', _. split_and!; try done.
    intros m y [Hy | [-> ->]]%Hdata; [by apply Hp | done].
Qed.
End remove.
