(* ===== verification/RingLocal.v ===== *)
(** * Consistent hashing: the ring in memory

    [components/consistent_hash/local/hash_ring.go]: [SkiplistHashRing], on the
    linked structure of [SkipCore], as an instance of [HashRing] that keeps its
    laws.  A score carries the names of its virtual nodes; the number of ones a
    [roll] sees is a function of the number of rolls before.  [Lock] waits until
    the mutex is free: what is modelled is its effect from then on.  The identity
    of the calling goroutine is the parameter [token]; the timer that releases an
    expired lock calls [unlock] with it. *)
From stdpp Require Import pretty.
From S2P Require Import Prelude SkipCore GoStrings RingHash.

#[export] Instance Z_order : SkipOrder Z := Z.ltb.

#[export] Instance Z_order_laws : SkipOrderLaws Z.
Proof.
  split; unfold klt, Z_order; intros *; rewrite ?Z.ltb_lt, ?Z.ltb_ge; lia.
Qed.

#[local] Abbreviation heap := (list (skipNode Z (list string))).

Record SkiplistHashRing := mkSkiplistHashRing {
  root : heap;   (* the root is node 0 *)
  nodeToReplicas : gmap string Z;
  nodeToDataKey : gmap string (gset string);
  owner : string;
  flips : nat -> nat;
  rolls : nat
}.

Definition NewSkiplistHashRing (flips : nat -> nat) : SkiplistHashRing :=
  mkSkiplistHashRing [mkSkipNode [] 0 []] ∅ ∅ EmptyString flips 0.

Definition with_root (r : SkiplistHashRing) (h : heap) : SkiplistHashRing :=
  mkSkiplistHashRing h (nodeToReplicas r) (nodeToDataKey r) (owner r) (flips r) (rolls r).

Definition with_data (r : SkiplistHashRing) (m : gmap string (gset string)) : SkiplistHashRing :=
  mkSkiplistHashRing (root r) (nodeToReplicas r) m (owner r) (flips r) (rolls r).

Definition with_nodes (r : SkiplistHashRing) (m : gmap string Z) : SkiplistHashRing :=
  mkSkiplistHashRing (root r) m (nodeToDataKey r) (owner r) (flips r) (rolls r).

Definition with_owner (r : SkiplistHashRing) (o : string) : SkiplistHashRing :=
  mkSkiplistHashRing (root r) (nodeToReplicas r) (nodeToDataKey r) o (flips r) (rolls r).

(** ** The lock *)

Definition Lock (token : string) (expireSeconds : Z) : ringM SkiplistHashRing unit :=
  fun r => Ret (Ok tt, with_owner r token).

Definition unlock (token : string) : ringM SkiplistHashRing unit := fun r =>
  if decide (owner r = token) then Ret (Ok tt, with_owner r EmptyString)
  else Ret (Err "not your lock", r).

(** ** Scores *)

Definition get (h : heap) (score : Z) : outcome (option nat) := getNode h score.

Definition roll (r : SkiplistHashRing) : nat := flips r (rolls r).

Definition rolled (r : SkiplistHashRing) (h : heap) : SkiplistHashRing :=
  mkSkiplistHashRing h (nodeToReplicas r) (nodeToDataKey r) (owner r) (flips r) (S (rolls r)).

Definition Add (score : Z) (nodeID : string) : ringM SkiplistHashRing unit := fun r =>
  let h := root r in
  target ← get h score;
  match target with
  | Some i =>
      n ← deref h i;
      if decide (nodeID ∈ sn_value n) then Ret (Ok tt, r)
      else Ret (Ok tt, with_root r (<[i := mkSkipNode (sn_nexts n) (sn_key n) (sn_value n ++ [nodeID])]> h))
  | None =>
      let rLevel := roll r in
      hd ← deref h 0;
      let len := length (sn_nexts hd) in
      let h := if (len <? rLevel + 1)%nat
               then <[0%nat := mkSkipNode (sn_nexts hd ++ replicate (rLevel + 1 - len) None)
                                    (sn_key hd) (sn_value hd)]> h
               else h in
      let new := length h in
      h ← link_loop (h ++ [mkSkipNode (replicate (rLevel + 1) None) score [nodeID]]) (rLevel + 1) 0 new score;
      Ret (Ok tt, rolled r h)
  end.

Definition ceiling (h : heap) (score : Z) : outcome (Z * bool) :=
  hd ← deref h 0;
  if (length (sn_nexts hd) =? 0)%nat then Ret (-1, false)
  else
    move ← descend h (length (sn_nexts hd)) 0 (fun k => k <? score);
    nx ← next h move 0;
    match nx with
    | None => Ret (-1, false)
    | Some j => n ← deref h j; Ret (sn_key n, true)
    end.

Definition first (h : heap) : outcome (Z * bool) :=
  hd ← deref h 0;
  if (length (sn_nexts hd) =? 0)%nat then Ret (-1, false)
  else
    nx ← next h 0 0;
    match nx with
    | None => Panic "nil pointer dereference"
    | Some j => n ← deref h j; Ret (sn_key n, true)
    end.

Definition Ceiling (score : Z) : ringM SkiplistHashRing Z := fun r =>
  '(target, ok) ← ceiling (root r) score;
  if (ok : bool) then Ret (Ok target, r)
  else '(f, _) ← first (root r); Ret (Ok f, r).

Definition floor (h : heap) (score : Z) : outcome (Z * bool) :=
  hd ← deref h 0;
  if (length (sn_nexts hd) =? 0)%nat then Ret (-1, false)
  else
    move ← descend h (length (sn_nexts hd)) 0 (fun k => k <? score);
    nx ← next h move 0;
    hit ← match nx with
          | None => Ret false
          | Some j => n ← deref h j; Ret (sn_key n =? score)
          end;
    if (hit : bool) then Ret (score, true)
    else if (move =? 0)%nat then Ret (-1, false)
    else n ← deref h move; Ret (sn_key n, true).

Definition last (h : heap) : outcome (Z * bool) :=
  hd ← deref h 0;
  move ← descend h (length (sn_nexts hd)) 0 (fun _ => true);
  if (move =? 0)%nat then Ret (-1, false)
  else n ← deref h move; Ret (sn_key n, true).

Definition Floor (score : Z) : ringM SkiplistHashRing Z := fun r =>
  '(target, ok) ← floor (root r) score;
  if (ok : bool) then Ret (Ok target, r)
  else '(l, _) ← last (root r); Ret (Ok l, r).

(** The first place of [x] in a list. *)
Fixpoint index_of (x : string) (l : list string) : option nat :=
  match l with
  | [] => None
  | y :: l => if decide (y = x) then Some 0%nat else S <$> index_of x l
  end.

(** The first level without a node. *)
Fixpoint empty_level (nexts : list (option nat)) : option nat :=
  match nexts with
  | [] => None
  | None :: _ => Some 0%nat
  | Some _ :: nexts => S <$> empty_level nexts
  end.

Definition Rem (score : Z) (nodeID : string) : ringM SkiplistHashRing unit := fun r =>
  let h := root r in
  target ← get h score;
  match target with
  | None => Ret (Err ("score: " +:+ pretty score +:+ " not exist"), r)
  | Some i =>
      n ← deref h i;
      match index_of nodeID (sn_value n) with
      | None => Ret (Err ("node: " +:+ nodeID +:+ " not exist in score: " +:+ pretty score), r)
      | Some index =>
          let r := with_data r (delete nodeID (nodeToDataKey r)) in
          if 1 <? zlen (sn_value n) then
            let ids := take index (sn_value n) ++ drop (index + 1) (sn_value n) in
            Ret (Ok tt, with_root r (<[i := mkSkipNode (sn_nexts n) (sn_key n) ids]> h))
          else
            hd ← deref h 0;
            h ← unlink_loop h (length (sn_nexts hd)) 0 score;
            hd ← deref h 0;
            match empty_level (sn_nexts hd) with
            | None => Ret (Ok tt, with_root r h)
            | Some level =>
                Ret (Ok tt, with_root r (<[0%nat := mkSkipNode (take level (sn_nexts hd)) (sn_key hd) (sn_value hd)]> h))
            end
      end
  end.

(** ** Nodes and data keys *)

Definition Nodes : ringM SkiplistHashRing (gmap string Z) := fun r => Ret (Ok (nodeToReplicas r), r).

Definition AddNodeToReplica (nodeID : string) (replicas : Z) : ringM SkiplistHashRing unit := fun r =>
  Ret (Ok tt, with_nodes r (<[nodeID := replicas]> (nodeToReplicas r))).

Definition DeleteNodeToReplica (nodeID : string) : ringM SkiplistHashRing unit := fun r =>
  Ret (Ok tt, with_nodes r (delete nodeID (nodeToReplicas r))).

Definition Node (score : Z) : ringM SkiplistHashRing (list string) := fun r =>
  target ← get (root r) score;
  match target with
  | None => Ret (Err ("score: " +:+ pretty score +:+ " not exist"), r)
  | Some i => n ← deref (root r) i; Ret (Ok (sn_value n), r)
  end.

Definition DataKeys (nodeID : string) : ringM SkiplistHashRing (gset string) := fun r =>
  Ret (Ok (default ∅ (nodeToDataKey r !! nodeID)), r).

Definition AddNodeToDataKeys (nodeID : string) (dataKeys : gset string) : ringM SkiplistHashRing unit := fun r =>
  let oldDataKeys := default ∅ (nodeToDataKey r !! nodeID) in
  Ret (Ok tt, with_data r (<[nodeID := oldDataKeys ∪ dataKeys]> (nodeToDataKey r))).

Definition DeleteNodeToDataKeys (nodeID : string) (dataKeys : gset string) : ringM SkiplistHashRing unit := fun r =>
  match nodeToDataKey r !! nodeID with
  | None => Ret (Ok tt, r)
  | Some oldDataKeys =>
      let oldDataKeys := oldDataKeys ∖ dataKeys in
      Ret (Ok tt, with_data r (if decide (oldDataKeys = ∅) then delete nodeID (nodeToDataKey r)
                               else <[nodeID := oldDataKeys]> (nodeToDataKey r)))
  end.

Definition Local_HashRing (token : string) : HashRing SkiplistHashRing := {|
  RingHash.Lock := Lock token;
  RingHash.Unlock := unlock token;
  RingHash.Add := Add;
  RingHash.Ceiling := Ceiling;
  RingHash.Floor := Floor;
  RingHash.Rem := Rem;
  RingHash.Nodes := Nodes;
  RingHash.AddNodeToReplica := AddNodeToReplica;
  RingHash.DeleteNodeToReplica := DeleteNodeToReplica;
  RingHash.Node := Node;
  RingHash.DataKeys := DataKeys;
  RingHash.AddNodeToDataKeys := AddNodeToDataKeys;
  RingHash.DeleteNodeToDataKeys := DeleteNodeToDataKeys
|}.

(** ** Representation *)

Definition holds_scores (h : heap) (L : list nat) (S : gmap Z (list string)) : Prop :=
  heap_ok h L /\ ((0 < height h 0)%nat -> L <> []) /\ forall s l, S !! s = Some l <-> (s, l) ∈ content h L.

Definition local_rep (token : string) (b : bool) (r : SkiplistHashRing) (a : Ring) : Prop :=
  (b = true -> owner r = token) /\ r_nodes a = nodeToReplicas r /\ r_data a = nodeToDataKey r /\ ring_ok a /\
  exists L, holds_scores (root r) L (r_scores a).

Lemma in_content (h : heap) L s l : (s, l) ∈ content h L <-> exists i, i ∈ L /\ keyof h i = s /\ valof h i = l.
Proof.
  unfold content. rewrite list_elem_of_fmap. split.
  - intros (i & [= -> ->] & Hi). eauto.
  - intros (i & Hi & <- & <-). eauto.
Qed.

Section scores.
Context (h : heap) (L : list nat) (S : gmap Z (list string)) (HS : holds_scores h L S).

Lemma hs_ok : heap_ok h L.
Proof. apply HS. Qed.

Lemma hs_in i : i ∈ L -> S !! keyof h i = Some (valof h i).
Proof. intros Hi. apply HS, in_content. eauto. Qed.

Lemma hs_dom s : s ∈ dom S <-> exists i, i ∈ L /\ keyof h i = s.
Proof.
  rewrite elem_of_dom. split.
  - intros [l Hl]. apply HS, in_content in Hl as (i & Hi & Hk & _). eauto.
  - intros (i & Hi & <-). exists (valof h i). by apply hs_in.
Qed.

Lemma hs_get s : exists r, get h s = Ret r /\
  match r with
  | Some j => j ∈ L /\ keyof h j = s /\ S !! s = Some (valof h j)
  | None => S !! s = None
  end.
Proof.
  destruct (getNode_spec h L s hs_ok) as (r & E & Hr). exists r. split; [done |]. destruct r as [j |].
  - destruct Hr as [Hj <-]. split_and!; [done | done | by apply hs_in].
  - apply not_elem_of_dom. intros (i & Hi & Hk)%hs_dom. by apply (Hr i).
Qed.

Lemma hs_deref j : j ∈ L -> exists n, h !! j = Some n /\ deref h j = Ret n /\ sn_key n = keyof h j /\ sn_value n = valof h j.
Proof. intros Hj. apply (deref_tall h j 0). apply (ok_heights _ _ hs_ok j Hj). Qed.

Lemma hs_head : exists hd, h !! 0%nat = Some hd /\ deref h 0 = Ret hd /\ length (sn_nexts hd) = height h 0.
Proof.
  destruct (ok_head h L hs_ok) as (hd & E & Hl). exists hd. split_and!; try done. by apply deref_Some.
Qed.

(** The head is of height 0 exactly when there is no score. *)
Lemma hs_empty : height h 0 = 0%nat -> L = [] /\ S = ∅.
Proof.
  intros E0. assert (L = []) as EL.
  { apply elem_of_nil_inv. intros i Hi. pose proof (ok_heights _ _ hs_ok i Hi). lia. }
  split; [done |]. apply dom_empty_inv_L. apply set_eq. intros s. rewrite hs_dom, EL. split; [| set_solver].
  by intros (i & ?%not_elem_of_nil & _).
Qed.

(** The order of the list is the order of the scores. *)
Lemma hs_before A i B : L = A ++ i :: B ->
  (forall a, a ∈ A -> keyof h a < keyof h i) /\ (forall b, b ∈ B -> keyof h i < keyof h b).
Proof.
  intros E. destruct (ordered_split h L (ok_ordered _ _ hs_ok) A i B E) as [H1 H2].
  split; intros x Hx; apply Z.ltb_lt; [by apply H1 | by apply H2].
Qed.

Lemma hs_descend s : (0 < height h 0)%nat ->
  exists m A B, descend h (height h 0) 0 (fun k => k <? s) = Ret m /\ L = A ++ B /\
    (forall i, i ∈ A -> keyof h i < s) /\ (forall i, i ∈ B -> s <= keyof h i) /\
    (m = 0%nat /\ A = [] \/ m <> 0%nat /\ exists A', A = A' ++ [m]) /\ next h m 0 = Ret (head B).
Proof.
  intros Hpos. destruct (descend_ok h L (fun k => k <? s) hs_ok (closed_below s) Hpos) as (m & A & B & E & EL & HA & HB & Hm & Hn).
  exists m, A, B. rewrite Forall_forall in HA, HB. split_and!; try done.
  - intros i Hi. apply Z.ltb_lt. by apply HA.
  - intros i Hi. apply Z.ltb_ge. by apply HB.
Qed.

Lemma ceiling_unique D s x y : is_ceiling D s x -> is_ceiling D s y -> x = y.
Proof.
  intros [(Hx & Hsx & Hmx) | [(Hx & Hmx) | [-> ->]]] [(Hy & Hsy & Hmy) | [(Hy & Hmy) | [E ->]]];
    try (subst D); try (by apply not_elem_of_empty in Hx); try (by apply not_elem_of_empty in Hy); try done.
  - pose proof (Hmx y Hy Hsy). pose proof (Hmy x Hx Hsx). lia.
  - pose proof (Hmy x Hx). lia.
  - pose proof (Hmx y Hy). lia.
  - pose proof (Hmx y Hy). pose proof (Hmy x Hx). lia.
Qed.

Lemma floor_unique D s x y : is_floor D s x -> is_floor D s y -> x = y.
Proof.
  intros [(Hx & Hsx & Hmx) | [(Hx & Hmx) | [-> ->]]] [(Hy & Hsy & Hmy) | [(Hy & Hmy) | [E ->]]];
    try (subst D); try (by apply not_elem_of_empty in Hx); try (by apply not_elem_of_empty in Hy); try done.
  - pose proof (Hmx y Hy Hsy). pose proof (Hmy x Hx Hsx). lia.
  - pose proof (Hmy x Hx). lia.
  - pose proof (Hmx y Hy). lia.
  - pose proof (Hmx y Hy). pose proof (Hmy x Hx). lia.
Qed.
End scores.

Lemma local_Ceiling (r : SkiplistHashRing) L S s x : holds_scores (root r) L S -> is_ceiling (dom S) s x ->
  Ceiling s r = Ret (Ok x, r).
Proof.
  intros HS Hx. set (h := root r) in *. destruct (hs_head h L S HS) as (hd & _ & Ed & Hlen).
  unfold Ceiling, ceiling, first. fold h. rewrite Ed. cbn [mbind outcome_bind]. rewrite Hlen.
  destruct (Nat.eqb_spec (height h 0) 0) as [E0 | Hne]; cbn [mbind outcome_bind].
  { destruct (hs_empty h L S HS E0) as [_ ES]. assert (x = -1) as ->; [| done].
    apply (ceiling_unique (dom S) s); [done |]. right. right. split; [by rewrite ES, dom_empty_L | done]. }
  destruct (hs_descend h L S HS s) as (m & A & B & -> & EL & HA & HB & _ & Hn); [lia |].
  cbn [mbind outcome_bind]. rewrite Hn. cbn [mbind outcome_bind]. destruct B as [| j B]; cbn [head].
  - cbn [mbind outcome_bind]. rewrite app_nil_r in EL.
    destruct L as [| i L']; [by destruct HS as (_ & HL & _); destruct HL; [lia |] |].
    assert (next h 0 0 = Ret (Some i)) as Hn0.
    { apply next_spec. destruct (ok_linked _ _ (hs_ok _ _ _ HS) 0%nat ltac:(lia)) as [Hl _].
      rewrite Hl by lia. f_equal. simpl. pose proof (ok_heights _ _ (hs_ok _ _ _ HS) i ltac:(by left)).
      by destruct (Nat.ltb_spec 0 (height h i)); [| lia]. }
    rewrite Hn0. cbn [mbind outcome_bind].
    destruct (hs_deref h _ S HS i) as (n & _ & Edi & Ek & _); [by left |]. rewrite Edi. cbn [mbind outcome_bind].
    rewrite Ek. do 3 f_equal. apply (ceiling_unique (dom S) s); [| done]. right. left. split.
    + apply (hs_dom _ _ _ HS). exists i. split; [by left | done].
    + intros y (k & Hk & <-)%(hs_dom _ _ _ HS). split; [apply HA; by rewrite <- EL |].
      apply elem_of_cons in Hk as [-> | Hk]; [lia |].
      pose proof (proj2 (hs_before _ _ _ HS [] i L' eq_refl) k Hk). lia.
  - destruct (hs_deref h _ S HS j) as (n & _ & Edj & Ek & _); [rewrite EL; apply elem_of_app; right; by left |].
    rewrite Edj. cbn [mbind outcome_bind]. rewrite Ek. do 3 f_equal. apply (ceiling_unique (dom S) s); [| done].
    left. split_and!; [| apply HB; by left |].
    + apply (hs_dom _ _ _ HS). exists j. split; [rewrite EL; apply elem_of_app; right; by left | done].
    + intros y (k & Hk & <-)%(hs_dom _ _ _ HS) Hsy. rewrite EL in Hk.
      apply elem_of_app in Hk as [Hk | [-> | Hk]%elem_of_cons]; [specialize (HA k Hk); lia | lia |].
      pose proof (proj2 (hs_before _ _ _ HS A j B EL) k Hk). lia.
Qed.

Lemma local_last (h : heap) L S : holds_scores h L S -> S <> ∅ ->
  exists x, last h = Ret (x, true) /\ x ∈ dom S /\ forall y, y ∈ dom S -> y <= x.
Proof.
  intros HS Hne. destruct (hs_head h L S HS) as (hd & _ & Ed & Hlen). unfold last. rewrite Ed. cbn [mbind outcome_bind].
  rewrite Hlen. assert (0 < height h 0)%nat as Hpos.
  { destruct (decide (height h 0 = 0)%nat) as [E0 |]; [| lia]. by destruct (hs_empty h L S HS E0) as [_ ?]. }
  destruct (descend_ok h L (fun _ => true) (hs_ok _ _ _ HS) closed_all Hpos) as (m & A & B & -> & EL & _ & HB & Hm & _).
  destruct B as [| j B]; [| by inversion_clear HB]. rewrite app_nil_r in EL. cbn [mbind outcome_bind].
  destruct Hm as [[_ EA] | (Hm & A' & EA)].
  { destruct HS as (_ & HL & _). destruct HL; [done | by rewrite EL]. }
  rewrite (proj2 (Nat.eqb_neq m 0) Hm). rewrite EA in EL. clear EA A.
  destruct (hs_deref h L S HS m) as (n & _ & Edm & Ek & _); [rewrite EL; apply elem_of_app; right; by left |].
  rewrite Edm. cbn [mbind outcome_bind]. rewrite Ek. exists (keyof h m). split_and!; try done.
  - apply (hs_dom _ _ _ HS). exists m. split; [rewrite EL; apply elem_of_app; right; by left | done].
  - intros y (k & Hk & <-)%(hs_dom _ _ _ HS). rewrite EL in Hk.
    apply elem_of_app in Hk as [Hk | ->%list_elem_of_singleton]; [| lia].
    pose proof (proj1 (hs_before _ _ _ HS A' m [] EL) k Hk). lia.
Qed.

Lemma local_Floor (r : SkiplistHashRing) L S s x : holds_scores (root r) L S -> is_floor (dom S) s x ->
  Floor s r = Ret (Ok x, r).
Proof.
  intros HS Hx. set (h := root r) in *. destruct (hs_head h L S HS) as (hd & _ & Ed & Hlen).
  unfold Floor, floor. fold h. rewrite Ed. cbn [mbind outcome_bind]. rewrite Hlen.
  destruct (Nat.eqb_spec (height h 0) 0) as [E0 | Hne]; cbn [mbind outcome_bind].
  { destruct (hs_empty h L S HS E0) as [_ ES]. unfold last. rewrite Ed. cbn [mbind outcome_bind].
    rewrite Hlen, E0. cbn. assert (x = -1) as ->; [| done].
    apply (floor_unique (dom S) s); [done |]. right. right. split; [by rewrite ES, dom_empty_L | done]. }
  destruct (hs_descend h L S HS s) as (m & A & B & -> & EL & HA & HB & Hm & Hn); [lia |].
  cbn [mbind outcome_bind]. rewrite Hn. cbn [mbind outcome_bind].
  assert (exists hit, match head B with Some j => n ← deref h j; Ret (sn_key n =? s) | None => Ret false end = Ret hit /\
    if (hit : bool) then s ∈ dom S else forall i, i ∈ B -> s < keyof h i) as (hit & -> & Hhit).
  { destruct B as [| j B]; cbn [head]; [exists false; split; [done |]; by intros i ?%not_elem_of_nil |].
    destruct (hs_deref h _ S HS j) as (n & _ & Edj & Ek & _); [rewrite EL; apply elem_of_app; right; by left |].
    rewrite Edj. cbn [mbind outcome_bind]. rewrite Ek. eexists. split; [done |].
    destruct (Z.eqb_spec (keyof h j) s) as [<- | Hjs].
    - apply (hs_dom _ _ _ HS). exists j. split; [rewrite EL; apply elem_of_app; right; by left | done].
    - pose proof (HB j ltac:(by left)). intros i [-> | Hi]%elem_of_cons; [lia |].
      pose proof (proj2 (hs_before _ _ _ HS A j B EL) i Hi). lia. }
  cbn [mbind outcome_bind]. destruct hit.
  { cbn [mbind outcome_bind]. do 3 f_equal. apply (floor_unique (dom S) s); [| done]. left. split_and!; [done | lia | done]. }
  destruct Hm as [[-> ->] | (Hm & A' & ->)].
  - cbn [Nat.eqb mbind outcome_bind]. simpl in EL. subst B.
    destruct (local_last h L S HS) as (y & -> & Hy & Hmax).
    { intros ES. destruct HS as (_ & HL & HS'). destruct L as [| i L']; [destruct HL; [lia | done] |].
      assert (S !! keyof h i = Some (valof h i)) as E by (apply HS', in_content; exists i; split; [by left | done]).
      by rewrite ES in E. }
    cbn [mbind outcome_bind]. do 3 f_equal. apply (floor_unique (dom S) s); [| done]. right. left. split; [done |].
    intros z Hz. split; [| auto]. apply (hs_dom _ _ _ HS) in Hz as (k & Hk & <-). auto.
  - rewrite (proj2 (Nat.eqb_neq m 0) Hm).
    assert (L = A' ++ m :: B) as EL' by (by rewrite EL, <- app_assoc).
    destruct (hs_deref h L S HS m) as (n & _ & Edm & Ek & _); [rewrite EL'; apply elem_of_app; right; by left |].
    rewrite Edm. cbn [mbind outcome_bind]. rewrite Ek. do 3 f_equal. apply (floor_unique (dom S) s); [| done].
    assert (keyof h m < s) as Hms by (apply HA, elem_of_app; right; by left).
    left. split_and!; [| lia |].
    + apply (hs_dom _ _ _ HS). exists m. split; [rewrite EL'; apply elem_of_app; right; by left | done].
    + intros y (k & Hk & <-)%(hs_dom _ _ _ HS) Hys. rewrite EL' in Hk.
      apply elem_of_app in Hk as [Hk | [-> | Hk]%elem_of_cons]; [| lia | specialize (Hhit k Hk); lia].
      pose proof (proj1 (hs_before _ _ _ HS A' m B EL') k Hk). lia.
Qed.

(** ** Changing the scores *)

Lemma hs_others h L S A j B : holds_scores h L S -> L = A ++ j :: B ->
  forall s l, (s, l) ∈ content h A \/ (s, l) ∈ content h B <-> s <> keyof h j /\ S !! s = Some l.
Proof.
  intros HS EL s l. destruct (hs_before h L S HS A j B EL) as [HA HB].
  destruct HS as (_ & _ & Hc). rewrite (Hc s l), EL, content_app, content_cons, elem_of_app, elem_of_cons. split.
  - intros [Hin | Hin]; (split; [| tauto]); apply in_content in Hin as (i & Hi & <- & _); [specialize (HA i Hi) | specialize (HB i Hi)]; lia.
  - intros [Hne [| [[= -> _] | ]]]; tauto.
Qed.

Lemma hs_replace h L S j n v : holds_scores h L S -> j ∈ L -> h !! j = Some n ->
  holds_scores (<[j := mkSkipNode (sn_nexts n) (sn_key n) v]> h) L (<[sn_key n := v]> S).
Proof.
  intros HS Hj En. pose proof (hs_ok _ _ _ HS) as Hok.
  destruct (set_value_spec h L j n v Hok Hj En) as (Hok' & _ & Hh & A & B & EL & _ & E2).
  assert (sn_key n = keyof h j) as Ek by (unfold keyof; by rewrite (shape_of_Some _ _ _ En)).
  pose proof (hs_others h L S A j B HS EL) as Ho.
  split; [done |]. split; [rewrite Hh; apply HS |]. intros s l. rewrite E2, elem_of_app, elem_of_cons. split.
  - intros [[<- <-] | [Hne Hl]]%lookup_insert_Some; [tauto |].
    destruct (proj2 (Ho s l)) as [? | ?]; [split; [congruence | done] | tauto | tauto].
  - intros [Hin | [[= -> ->] | Hin]]; [| apply lookup_insert_eq |];
      (destruct (proj1 (Ho s l)) as [Hne Hl]; [tauto |]; rewrite lookup_insert_ne; [done | congruence]).
Qed.

Lemma local_Add r L S s n : holds_scores (root r) L S ->
  exists h' k L', Add s n r = Ret (Ok tt, mkSkiplistHashRing h' (nodeToReplicas r) (nodeToDataKey r) (owner r) (flips r) k) /\
    holds_scores h' L' (if decide (n ∈ default [] (S !! s)) then S else <[s := default [] (S !! s) ++ [n]]> S).
Proof.
  intros HS. set (h := root r) in *. pose proof (hs_ok _ _ _ HS) as Hok. unfold Add. fold h.
  destruct (hs_get h L S HS s) as (t & -> & Ht). cbn [mbind outcome_bind]. destruct t as [j |].
  - destruct Ht as (Hj & Hk & ->). cbn [default from_option id].
    destruct (hs_deref h L S HS j Hj) as (nd & En & -> & Ek & Ev). cbn [mbind outcome_bind]. rewrite Ev.
    destruct (decide (n ∈ valof h j)) as [Hin | Hin].
    + exists h, (rolls r), L. split; [by destruct r | done].
    + exists (<[j := mkSkipNode (sn_nexts nd) (sn_key nd) (valof h j ++ [n])]> h), (rolls r), L. split; [done |].
      pose proof (hs_replace h L S j nd (valof h j ++ [n]) HS Hj En) as H. by rewrite Ek, Hk in H |- *.
  - rewrite Ht. cbn [default from_option id]. rewrite decide_False by apply not_elem_of_nil.
    destruct (hs_head h L S HS) as (hd & Ehd & -> & Hlen). cbn [mbind outcome_bind].
    destruct (skip_insert_spec h L hd (roll r + 1) (roll r + 1 - length (sn_nexts hd)) s [n] Hok Ehd) as
      (h' & A & B & EL & E & Hok' & Hc & _); [lia | lia | |].
    { intros i Hi Hk. pose proof (hs_in _ _ _ HS i Hi) as Hi'. rewrite Hk in Hi'. congruence. }
    unfold raised in E. set (hr := if (length (sn_nexts hd) <? roll r + 1)%nat then _ else h) in *.
    assert (length hr = length h) as -> by (unfold hr; destruct (_ <? _)%nat; [apply length_insert | done]).
    rewrite E. cbn [mbind outcome_bind]. exists h', (Datatypes.S (rolls r)), (A ++ length h :: B). split; [done |].
    split; [done |]. split; [intros _; by destruct A |]. destruct HS as (_ & _ & HSc).
    intros s' l. rewrite Hc, elem_of_app, elem_of_cons.
    assert (S !! s' = Some l <-> (s', l) ∈ content h A \/ (s', l) ∈ content h B) as Hold
      by (by rewrite (HSc s' l), EL, content_app, elem_of_app). split.
    + intros [[<- <-] | [Hne Hl]]%lookup_insert_Some; tauto.
    + intros [Hin | [[= -> ->] | Hin]]; [| apply lookup_insert_eq |];
        (assert (S !! s' = Some l) as Hl by tauto; rewrite lookup_insert_ne; [done | congruence]).
Qed.

Lemma index_of_Some n l : NoDup l -> n ∈ l ->
  exists i, index_of n l = Some i /\ take i l ++ drop (i + 1) l = filter (fun x => x <> n) l.
Proof.
  induction l as [| y l IH]; [by intros _ ?%not_elem_of_nil |]. intros [Hy Hnd]%NoDup_cons Hn. cbn [index_of].
  rewrite filter_cons. destruct (decide (y = n)) as [-> | Hne].
  - exists 0%nat. split; [done |]. rewrite decide_False by tauto. cbn. rewrite drop_0. symmetry. apply filter_all, Forall_forall.
    intros x Hx ->. done.
  - apply elem_of_cons in Hn as [-> | Hn]; [done |]. destruct (IH Hnd Hn) as (i & -> & E). exists (Datatypes.S i).
    split; [done |]. rewrite decide_True by done. cbn. by rewrite E.
Qed.

Lemma index_of_None n l : n ∉ l -> index_of n l = None.
Proof.
  induction l as [| y l IH]; [done |]. intros [Hne Hn]%not_elem_of_cons. cbn. rewrite decide_False by congruence. by rewrite IH.
Qed.

Lemma empty_level_spec nexts : match empty_level nexts with
  | Some k => nexts !! k = Some None /\ forall i, (i < k)%nat -> exists j, nexts !! i = Some (Some j)
  | None => forall i, (i < length nexts)%nat -> exists j, nexts !! i = Some (Some j)
  end.
Proof.
  induction nexts as [| [j |] nexts IH]; cbn [empty_level].
  - cbn. lia.
  - destruct (empty_level nexts) as [k |]; cbn.
    + destruct IH as [Hk Hi]. split; [done |]. intros [| i] Hlt; [by exists j |]. apply Hi. lia.
    + intros [| i] Hlt; [by exists j |]. apply IH. lia.
  - split; [done |]. lia.
Qed.

(** The pointers of the head say which levels have nodes. *)
Lemma head_level (h : heap) L hd l o : heap_ok h L -> h !! 0%nat = Some hd -> sn_nexts hd !! l = Some o ->
  first_tall h l L None = o.
Proof.
  intros Hok Ehd Hl. pose proof (lookup_lt_Some _ _ _ Hl) as Hlt.
  assert (height h 0 = length (sn_nexts hd)) as H0 by (unfold height; by rewrite (shape_of_Some _ _ _ Ehd)).
  destruct (ok_linked _ _ Hok l ltac:(lia)) as [Hn _]. specialize (Hn ltac:(lia)). unfold nexts_at in Hn.
  rewrite Ehd in Hn. cbn in Hn. congruence.
Qed.

(** The head is cut at the first level without a node. *)
Lemma hs_trim (h : heap) L hd S : heap_ok h L -> h !! 0%nat = Some hd -> (forall s l, S !! s = Some l <-> (s, l) ∈ content h L) ->
  holds_scores (match empty_level (sn_nexts hd) with
                | None => h
                | Some k => <[0%nat := mkSkipNode (take k (sn_nexts hd)) (sn_key hd) (sn_value hd)]> h
                end) L S.
Proof.
  intros Hok Ehd Hc. pose proof (empty_level_spec (sn_nexts hd)) as Hlev.
  assert (forall j, sn_nexts hd !! 0%nat = Some (Some j) -> L <> []) as Hne.
  { intros j Hj ->. pose proof (head_level h [] hd 0 _ Hok Ehd Hj) as E. done. }
  destruct (empty_level (sn_nexts hd)) as [k |].
  - destruct Hlev as [Hk Hlow].
    destruct (cut_head h L hd k Hok Ehd) as (Hok' & Hc' & Hh).
    + pose proof (lookup_lt_Some _ _ _ Hk). lia.
    + intros i Hi. pose proof (first_tall_None _ _ _ (head_level h L hd k _ Hok Ehd Hk)) as HF.
      rewrite Forall_forall in HF. auto.
    + split; [done |]. split; [| by intros s l; rewrite Hc', Hc]. rewrite Hh. intros Hpos.
      destruct (Hlow 0%nat Hpos) as [j Hj]. by eapply Hne.
  - split; [done |]. split; [| done]. intros Hpos.
    assert (height h 0 = length (sn_nexts hd)) as H0 by (unfold height; by rewrite (shape_of_Some _ _ _ Ehd)).
    destruct (Hlev 0%nat) as [j Hj]; [lia |]. by eapply Hne.
Qed.

Lemma local_Rem r L S s n l : holds_scores (root r) L S -> S !! s = Some l -> NoDup l -> n ∈ l ->
  let l' := filter (fun x => x <> n) l in
  exists h' L', Rem s n r = Ret (Ok tt, with_root (with_data r (delete n (nodeToDataKey r))) h') /\
    holds_scores h' L' (if decide (l' = []) then delete s S else <[s := l']> S).
Proof.
  intros HS Hl Hnd Hn l'. set (h := root r) in *. pose proof (hs_ok _ _ _ HS) as Hok. unfold Rem. fold h.
  destruct (hs_get h L S HS s) as (t & -> & Ht). cbn [mbind outcome_bind]. destruct t as [j |]; [| congruence].
  destruct Ht as (Hj & Hk & Hlj). assert (valof h j = l) as Hv by congruence.
  destruct (hs_deref h L S HS j Hj) as (nd & En & -> & Ek & Ev). cbn [mbind outcome_bind]. rewrite Ev, Hv.
  destruct (index_of_Some n l Hnd Hn) as (i & -> & Hi). fold l' in Hi. destruct (1 <? zlen l) eqn:E1; zb.
  - rewrite Hi. exists (<[j := mkSkipNode (sn_nexts nd) (sn_key nd) l']> h), L. split; [done |].
    rewrite decide_False.
    + pose proof (hs_replace h L S j nd l' HS Hj En) as H. by rewrite Ek, Hk in H |- *.
    + intros E. destruct l as [| x [| y k]]; [done | unfold zlen in E1; cbn in E1; lia |].
      apply NoDup_cons in Hnd as [Hx _].
      assert (forall z, z ∈ x :: y :: k -> z = n) as Hall.
      { intros z Hz. destruct (decide (z = n)); [done |]. assert (z ∈ l') as Hin by (by apply list_elem_of_filter).
        rewrite E in Hin. by apply not_elem_of_nil in Hin. }
      apply Hx. rewrite (Hall x), (Hall y) by (by constructor; constructor || by left). by left.
  - assert (l = [n]) as El.
    { destruct l as [| x [| y k]]; [by apply not_elem_of_nil in Hn | | zl]. apply list_elem_of_singleton in Hn. by subst. }
    destruct (hs_head h L S HS) as (hd & Ehd & -> & Hlen). cbn [mbind outcome_bind]. rewrite Hlen.
    destruct (remove_spec h L j s Hok Hj Hk) as (h1 & A & B & EL & -> & Hok1 & Hsh). cbn [mbind outcome_bind].
    destruct (ok_head h1 _ Hok1) as (hd1 & Ehd1 & _). rewrite (deref_Some _ _ _ Ehd1). cbn [mbind outcome_bind].
    assert (holds_scores (match empty_level (sn_nexts hd1) with None => h1
      | Some k => <[0%nat := mkSkipNode (take k (sn_nexts hd1)) (sn_key hd1) (sn_value hd1)]> h1 end) (A ++ B) (delete s S)) as Htrim.
    { apply hs_trim; [done | done |]. intros s' k. rewrite (same_content _ _ Hsh), content_app, elem_of_app.
      rewrite (hs_others h L S A j B HS EL s' k), Hk, lookup_delete_Some. naive_solver. }
    rewrite decide_True by (unfold l'; rewrite El, filter_cons, decide_False; [done | tauto]).
    destruct (empty_level (sn_nexts hd1)) as [k |]; eexists _, (A ++ B); split; done.
Qed.

Lemma local_Rem_fails r L S s n : holds_scores (root r) L S -> n ∉ default [] (S !! s) ->
  exists e, Rem s n r = Ret (Err e, r).
Proof.
  intros HS Hn. unfold Rem. destruct (hs_get (root r) L S HS s) as (t & -> & Ht). cbn [mbind outcome_bind].
  destruct t as [j |]; [| eauto]. destruct Ht as (Hj & Hk & Hl). rewrite Hl in Hn.
  destruct (hs_deref _ L S HS j Hj) as (nd & En & -> & Ek & Ev). cbn [mbind outcome_bind]. rewrite Ev, index_of_None by done. eauto.
Qed.

(** ** The laws *)

Section laws.
Context (token : string).
#[local] Instance local_ring : HashRing SkiplistHashRing := Local_HashRing token.

(** An operation that leaves everything but the scores alone. *)
Lemma local_rep_scores b r a h L S k : local_rep token b r a -> holds_scores h L S -> ring_ok (mkRing S (r_nodes a) (r_data a)) ->
  local_rep token b (mkSkiplistHashRing h (nodeToReplicas r) (nodeToDataKey r) (owner r) (flips r) k) (mkRing S (r_nodes a) (r_data a)).
Proof. intros (Ho & Hn & Hd & _ & _) HS Ha. split_and!; try done. by exists L. Qed.

Definition local_laws : HashRingLaws SkiplistHashRing.
Proof.
  refine {| ring_rep := local_rep token |}.
  - by intros b r a (_ & _ & _ & Ha & _).
  - intros e a r (_ & Hn & Hd & Ha & HL). eexists. split; [done |]. by split_and!.
  - intros a r (Ho & Hn & Hd & Ha & HL). cbn. unfold unlock. rewrite decide_True by auto. eexists. split; [done |]. by split_and!.
  - intros b s n a Hs r Hr. pose proof Hr as (_ & _ & _ & Ha & L & HL).
    destruct (local_Add r L (r_scores a) s n HL) as (h' & k & L' & E & HL'). cbn. rewrite E. eexists. split; [done |].
    eapply local_rep_scores; [done | exact HL' |].
    intros s' l. cbn. case_decide as Hd; [by apply Ha |]. intros [[<- <-] | [_ Hl]]%lookup_insert_Some; [| by apply Ha].
    split; [done |]. split; [by destruct (default [] (r_scores a !! s)) |]. apply NoDup_app. split_and!.
    + destruct (r_scores a !! s) as [l |] eqn:El; [by apply (Ha s l El) | constructor].
    + intros x Hx ->%list_elem_of_singleton. done.
    + apply NoDup_singleton.
  - intros b s x a Hx r Hr. pose proof Hr as (_ & _ & _ & _ & L & HL). exists r. split; [by eapply local_Ceiling | done].
  - intros b s x a Hx r Hr. pose proof Hr as (_ & _ & _ & _ & L & HL). exists r. split; [by eapply local_Floor | done].
  - intros b s n l a Hl Hn r Hr. pose proof Hr as (Ho & Hnd & Hdt & Ha & L & HL).
    destruct (Ha s l Hl) as (Hs & _ & Hdup).
    destruct (local_Rem r L (r_scores a) s n l HL Hl Hdup Hn) as (h' & L' & E & HL'). cbn. rewrite E. eexists. split; [done |].
    unfold ring_Rem. rewrite Hl. cbn [default from_option id]. split_and!; cbn; try done; [by rewrite Hdt | | by exists L'].
    intros s' k. cbn. case_decide as Hd.
    + intros [_ Hk]%lookup_delete_Some. by apply Ha.
    + intros [[<- <-] | [_ Hk]]%lookup_insert_Some; [| by apply Ha]. split_and!; try done. by apply NoDup_filter.
  - intros b s n a r Hn (_ & _ & _ & _ & L & HL). by eapply local_Rem_fails.
  - intros b a r Hr. exists r. split; [| done]. cbn. unfold Nodes. by destruct Hr as (_ & -> & _).
  - intros b n k a r (Ho & Hn & Hd & Ha & HL). eexists. split; [done |]. split_and!; cbn; try done. by rewrite Hn.
  - intros b n a r (Ho & Hn & Hd & Ha & HL). eexists. split; [done |]. split_and!; cbn; try done. by rewrite Hn.
  - intros b s l a Hl r Hr. pose proof Hr as (_ & _ & _ & _ & L & HL). exists r. split; [| done]. cbn. unfold Node.
    destruct (hs_get _ _ _ HL s) as (t & -> & Ht). cbn [mbind outcome_bind]. destruct t as [j |]; [| congruence].
    destruct Ht as (Hj & _ & Hlj). destruct (hs_deref _ _ _ HL j Hj) as (n & _ & -> & _ & Ev). cbn [mbind outcome_bind]. congruence.
  - intros b s a r Hs (_ & _ & _ & _ & L & HL). cbn. unfold Node.
    destruct (hs_get _ _ _ HL s) as (t & -> & Ht). cbn [mbind outcome_bind].
    destruct t as [j |]; [| eauto]. destruct Ht as (_ & _ & Hlj). congruence.
  - intros b n a r Hr. exists r. split; [| done]. cbn. unfold DataKeys, data_of. by destruct Hr as (_ & _ & -> & _).
  - intros b n ks a r (Ho & Hn & Hd & Ha & HL). eexists. split; [done |]. split_and!; cbn; try done.
    unfold data_of. by rewrite Hd.
  - intros b n ks a r Hr. pose proof Hr as (Ho & Hn & Hd & Ha & HL). cbn. unfold DeleteNodeToDataKeys, set_data, data_of. rewrite Hd.
    destruct (nodeToDataKey r !! n) as [old |] eqn:E; cbn.
    + eexists. split; [done |]. split_and!; cbn; try done.
    + exists r. split; [done |]. rewrite decide_True by set_solver. split_and!; cbn; try done. rewrite delete_id by done. done.
Defined.
End laws.
