(* ===== verification/RingCases.v ===== *)
(** * Consistent hashing: concrete rings

    The ring in memory with the FNV hash: witnesses of the theorems, and histories
    on which the records of a node are lost or a node is half removed. *)
From S2P Require Import Prelude SkipCore GoStrings GoSort RingHash RingProof RingRemove RingLocal.


Definition me : string := "1_7".
#[local] Instance my_ring : HashRing SkiplistHashRing := Local_HashRing me.
#[local] Instance my_laws : HashRingLaws SkiplistHashRing := local_laws me.

Definition ex_hash : ConsistentHash := NewConsistentHash Encrypt true (mkOptions 0 2).

Definition ex_new : SkiplistHashRing := NewSkiplistHashRing (fun n => n mod 3)%nat.

Definition no_ring : Ring := mkRing ∅ ∅ ∅.

Definition after {A} (m : ringM SkiplistHashRing A) (r : SkiplistHashRing) : SkiplistHashRing :=
  match m r with Ret (_, r) => r | Panic _ => r end.

(** Two nodes, and a key recorded. *)
Definition ex_two : SkiplistHashRing :=
  after (GetNode ex_hash "hello world") (after (AddNode ex_hash "b" 2) (after (AddNode ex_hash "a" 1) ex_new)).

Lemma ex_scores k : score_ok (encrypt ex_hash k).
Proof. apply Encrypt_score. Qed.

Lemma ex_new_rep : ring_rep false ex_new no_ring.
Proof.
  split_and!; try done. exists []. split; [apply heap_ok_empty |]. split; [unfold height; cbn; lia |].
  intros s l. cbn. rewrite lookup_empty. split; [done | by intros ?%not_elem_of_nil].
Qed.

Lemma no_ring_placed c : placed c no_ring.
Proof. intros n k Hk. unfold data_of in Hk. cbn in Hk. by apply not_elem_of_empty in Hk. Qed.

Lemma no_ring_consistent c : consistent c no_ring.
Proof.
  intros s x. split.
  - intros Hx. by apply not_elem_of_nil in Hx.
  - intros (n & i & (reps & Hn & _) & _). done.
Qed.

Lemma after_runs {A} (m : ringM SkiplistHashRing A) r a x a' : runs false false m a x a' -> ring_rep false r a ->
  ring_rep false (after m r) a'.
Proof. intros Hm Hr. destruct (Hm r Hr) as (r' & E & Hr'). unfold after. by rewrite E. Qed.

Lemma ex_two_rep : exists a, ring_rep false ex_two a /\ placed ex_hash a /\ consistent ex_hash a /\
  r_nodes a = <["b" := 4]> (<["a" := 2]> ∅).
Proof.
  destruct (AddNode_runs ex_hash ex_scores eq_refl no_ring "a" 1) as (t1 & a1 & R1 & P1 & C1 & N1 & _);
    [cbn; lia | by intros s l ? | apply no_ring_placed | apply no_ring_consistent | done |].
  pose proof (after_runs _ _ _ _ _ R1 ex_new_rep) as H1.
  destruct (AddNode_runs ex_hash ex_scores eq_refl a1 "b" 2) as (t2 & a2 & R2 & P2 & C2 & N2 & _);
    [cbn; lia | by eapply rep_ok | done | done | by rewrite N1 |].
  pose proof (after_runs _ _ _ _ _ R2 H1) as H2.
  assert (r_scores a2 <> ∅) as Hne.
  { intros E. assert (at_score a2 (encrypt ex_hash (getRawNodeKey "a" 0)) (getRawNodeKey "a" 0)) as Hat.
    { apply C2. exists "a", 0. split_and!; try done. exists 2. rewrite N2, N1. split; [by vm_compute | lia]. }
    unfold at_score in Hat. rewrite E, lookup_empty in Hat. by apply not_elem_of_nil in Hat. }
  destruct (GetNode_runs ex_hash ex_scores a2 "hello world") as (n & R3 & O3 & D3); [by eapply rep_ok | done |].
  pose proof (after_runs _ _ _ _ _ R3 H2) as H3.
  eexists. split; [exact H3 |]. split_and!.
  - intros m k [Hk | [-> ->]]%D3; [by apply P2 | exact O3].
  - exact C2.
  - cbn. by rewrite N2, N1.
Qed.

(** ** Witnesses *)

Lemma add_node_migrates_witness : exists tasks r' a', AddNode ex_hash "a" 1 ex_new = Ret (Ok tasks, r') /\
  ring_rep false r' a' /\ placed ex_hash a' /\ r_nodes a' = <["a" := 2]> ∅.
Proof.
  destruct (add_node_migrates ex_hash ex_scores eq_refl ex_new no_ring "a" 1) as (tasks & r' & a' & E & Hr & Hp & _ & Hn & _).
  - cbn. lia.
  - apply ex_new_rep.
  - apply no_ring_placed.
  - apply no_ring_consistent.
  - reflexivity.
  - exists tasks, r', a'. split; [exact E |]. split; [exact Hr |]. split; [exact Hp | exact Hn].
Defined.

Lemma ex_no_collision : no_collision ex_hash "a" 2.
Proof.
  intros i j Hi Hj E. assert (i = 0 \/ i = 1) as [-> | ->] by lia; assert (j = 0 \/ j = 1) as [-> | ->] by lia;
    try reflexivity; exfalso; revert E; vm_compute; discriminate.
Qed.

Lemma remove_node_migrates_witness : exists tasks r' a', RemoveNode ex_hash "a" ex_two = Ret (Ok tasks, r') /\
  ring_rep false r' a' /\ placed ex_hash a' /\ r_nodes a' = delete "a" (<["b" := 4]> (<["a" := 2]> ∅)).
Proof.
  destruct ex_two_rep as (a & Hr & Hp & Hc & Hn).
  destruct (remove_node_migrates ex_hash ex_scores eq_refl ex_two a "a" 2 Hr Hp Hc) as (tasks & r' & a' & E & Hr' & Hp' & _ & Hn' & _).
  - rewrite Hn. reflexivity.
  - lia.
  - apply ex_no_collision.
  - rewrite Hn. reflexivity.
  - intros i Hi. rewrite Hn. rewrite !lookup_insert_ne; [reflexivity | discriminate | discriminate].
  - right. exists "b", 4. rewrite Hn. split; [discriminate |]. split; [reflexivity | lia].
  - exists tasks, r', a'. split; [exact E |]. split; [exact Hr' |]. split; [exact Hp' |]. rewrite Hn', Hn. reflexivity.
Defined.

Lemma get_node_owner_witness : exists n r', GetNode ex_hash "user:7" ex_two = Ret (Ok n, r').
Proof.
  destruct ex_two_rep as (a & Hr & Hp & Hc & Hn).
  destruct (get_node_owner ex_hash ex_scores ex_two a "user:7" Hr Hp) as [(_ & n & r' & a' & E & _) | (He & _)].
  - exists n, r'. exact E.
  - exfalso. assert (at_score a (encrypt ex_hash (getRawNodeKey "a" 0)) (getRawNodeKey "a" 0)) as Hat.
    { apply Hc. exists "a", 0. split_and!; try done. exists 2. rewrite Hn. split; [reflexivity | lia]. }
    unfold at_score in Hat. rewrite He, lookup_empty in Hat. by apply not_elem_of_nil in Hat.
Defined.

(** ** What the conditions of [RemoveNode] are for *)

Definition value {A} (m : ringM SkiplistHashRing A) (r : SkiplistHashRing) : option (result string A) :=
  match m r with Ret (x, _) => Some x | Panic _ => None end.

(** A node called like a virtual node of another.  Key "x" is recorded at node
    "a_0"; removing node "a" takes the virtual node "a_0" off the ring, and with it
    the records of the node "a_0". *)
Definition ex_clash : SkiplistHashRing :=
  after (GetNode ex_hash "x") (after (AddNode ex_hash "a_0" 2) (after (AddNode ex_hash "a" 1) ex_new)).

Lemma clash_loses_records :
  value (DataKeys "a_0") ex_clash = Some (Ok {["x"]}) /\
  value (DataKeys "a_0") (after (RemoveNode ex_hash "a") ex_clash) = Some (Ok ∅).
Proof. split; vm_compute; reflexivity. Qed.

(** The last node, with a key recorded: [RemoveNode] reports an error after it has
    unregistered the node, whose virtual nodes stay on the ring; a second call says
    that the node is not known. *)
Definition ex_single : SkiplistHashRing := after (GetNode ex_hash "x") (after (AddNode ex_hash "a" 1) ex_new).

Lemma last_node_half_removed :
  let r := after (RemoveNode ex_hash "a") ex_single in
  value (RemoveNode ex_hash "a") ex_single = Some (Err "no other node") /\
  value (GetNode ex_hash "x") r = Some (Ok "a") /\ value (RemoveNode ex_hash "a") r = Some (Err "invalid node id").
Proof. split_and!; vm_compute; reflexivity. Qed.
