(* ===== verification/TimeWheel.v ===== *)
(** * Time wheel

    [components/time_wheel/time_wheel.go].  The goroutine [run] owns the wheel; the
    channel its [select] takes is an [event], and one iteration of its loop is
    [run_iter].  List elements of container/list are shared between a slot and
    [keyToETask]: they are addresses in the store [elems].  Tasks are started in
    goroutines of their own: [tick] returns the ones it starts, in order.  The
    theorem: the wheel is a list of tasks that each wait for a number of ticks. *)
From S2P Require Import Prelude.

Section wheel.
Context {func : Type}.

(** ** State *)

Record taskElement := TaskElement {
  task : func;
  pos : Z;
  cycle : Z;
  key : string;
  executeAt : Z
}.

Record TimeWheel := mkTimeWheel {
  interval : Z;
  slots : list (list Z);
  curSlot : Z;
  keyToETask : gmap string Z;
  elems : gmap Z taskElement;
  fresh : Z
}.

Definition NewTimeWheel (slotNum itv : Z) : TimeWheel :=
  let slotNum := if slotNum <=? 0 then 10 else slotNum in
  let itv := if itv <=? 0 then 1000000000 else itv in
  {| interval := itv; slots := replicate (Z.to_nat slotNum) []; curSlot := 0;
     keyToETask := ∅; elems := ∅; fresh := 0 |}.

Definition with_slots (t : TimeWheel) (i : Z) (l : list Z) : TimeWheel :=
  {| interval := interval t; slots := <[Z.to_nat i := l]> (slots t); curSlot := curSlot t;
     keyToETask := keyToETask t; elems := elems t; fresh := fresh t |}.

Definition with_keys (t : TimeWheel) (m : gmap string Z) : TimeWheel :=
  {| interval := interval t; slots := slots t; curSlot := curSlot t;
     keyToETask := m; elems := elems t; fresh := fresh t |}.

Definition with_elems (t : TimeWheel) (m : gmap Z taskElement) (n : Z) : TimeWheel :=
  {| interval := interval t; slots := slots t; curSlot := curSlot t;
     keyToETask := keyToETask t; elems := m; fresh := n |}.

(** ** Operations *)

(** [time.Until]: the difference, saturated to [int64]. *)
Definition Until (now at_ : Z) : Z :=
  Z.max (-9223372036854775808) (Z.min 9223372036854775807 (at_ - now)).

Definition go_div (a b : Z) : outcome Z :=
  if b =? 0 then Panic "integer divide by zero" else Ret (s64 (Z.quot a b)).

Definition go_mod (a b : Z) : outcome Z :=
  if b =? 0 then Panic "integer divide by zero" else Ret (Z.rem a b).

Definition getPosAndCircle (t : TimeWheel) (now at_ : Z) : outcome (Z * Z) :=
  let delay := Until now at_ in
  let delay := if delay <? 0 then 0 else delay in
  cycle ← go_div delay (s64 (zlen (slots t) * interval t));
  ticks ← go_div delay (interval t);
  pos ← go_mod (s64 (curSlot t + ticks)) (zlen (slots t));
  Ret (pos, cycle).

(** A nil element, were one in the map, would be a nil pointer. *)
Definition deref (t : TimeWheel) (e : Z) : outcome taskElement :=
  match elems t !! e with
  | Some x => Ret x
  | None => Panic "nil pointer dereference"
  end.

Definition removeTask (t : TimeWheel) (k : string) : outcome TimeWheel :=
  match keyToETask t !! k with
  | None => Ret t
  | Some eTask =>
      let t := with_keys t (delete k (keyToETask t)) in
      task ← deref t eTask;
      l ← go_index (slots t) (pos task);
      Ret (with_slots t (pos task) (filter (fun e => e <> eTask) l))
  end.

Definition addTask (t : TimeWheel) (now : Z) (f : func) (k : string) (at_ : Z) : outcome TimeWheel :=
  '(p, c) ← getPosAndCircle t now at_;
  _ ← go_index (slots t) p;
  t ← match keyToETask t !! k with
      | Some _ => removeTask t k
      | None => Ret t
      end;
  let eTask := fresh t in
  let x := {| task := f; pos := p; cycle := c; key := k; executeAt := at_ |} in
  let t := with_elems t (<[eTask := x]> (elems t)) (eTask + 1) in
  l ← go_index (slots t) p;
  let t := with_slots t p (l ++ [eTask]) in
  Ret (with_keys t (<[k := eTask]> (keyToETask t))).

(** The loop of [execute] from the element [e] on: the elements that stay in
    the list, and the tasks started. *)
Fixpoint execute (t : TimeWheel) (l : list Z) : outcome (TimeWheel * list Z * list func) :=
  match l with
  | [] => Ret (t, [], [])
  | e :: l =>
      x ← deref t e;
      if 0 <? cycle x then
        let x := {| task := task x; pos := pos x; cycle := cycle x - 1;
                    key := key x; executeAt := executeAt x |} in
        '(t, l, fs) ← execute (with_elems t (<[e := x]> (elems t)) (fresh t)) l;
        Ret (t, e :: l, fs)
      else
        '(t, l, fs) ← execute (with_keys t (delete (key x) (keyToETask t))) l;
        Ret (t, l, task x :: fs)
  end.

Definition circularIncr (t : TimeWheel) : outcome TimeWheel :=
  c ← go_mod (s64 (curSlot t + 1)) (zlen (slots t));
  Ret {| interval := interval t; slots := slots t; curSlot := c;
         keyToETask := keyToETask t; elems := elems t; fresh := fresh t |}.

Definition tick (t : TimeWheel) : outcome (TimeWheel * list func) :=
  l ← go_index (slots t) (curSlot t);
  '(t, l, fs) ← execute t l;
  t ← circularIncr (with_slots t (curSlot t) l);
  Ret (t, fs).

(** What [select] takes: the ticker, a task sent by [AddTask] with the time at
    which it is received, or a key sent by [RemoveTask]. *)
Inductive event :=
  | EvTick
  | EvAdd (now : Z) (f : func) (k : string) (at_ : Z)
  | EvRemove (k : string).

Definition run_iter (t : TimeWheel) (ev : event) : outcome (TimeWheel * list func) :=
  match ev with
  | EvTick => tick t
  | EvAdd now f k at_ => t ← addTask t now f k at_; Ret (t, [])
  | EvRemove k => t ← removeTask t k; Ret (t, [])
  end.

(** A run of the loop: the tasks that each iteration starts. *)
Fixpoint run (t : TimeWheel) (evs : list event) : outcome (TimeWheel * list (list func)) :=
  match evs with
  | [] => Ret (t, [])
  | ev :: evs =>
      '(t, fs) ← run_iter t ev;
      '(t, out) ← run t evs;
      Ret (t, fs :: out)
  end.

(** ** The abstract wheel

    The waiting tasks in the order they were added, each with the number of
    ticks that pass before the one that starts it. *)
Record waiting := Waiting { w_key : string; w_left : Z; w_task : func }.

Definition ticks_of (itv now at_ : Z) : Z := Z.max 0 (at_ - now) / itv.

Definition w_pred (w : waiting) : waiting :=
  {| w_key := w_key w; w_left := w_left w - 1; w_task := w_task w |}.

Definition spec_iter (itv : Z) (ws : list waiting) (ev : event) : list waiting * list func :=
  match ev with
  | EvTick => (w_pred <$> filter (fun w => 0 < w_left w) ws, w_task <$> filter (fun w => w_left w <= 0) ws)
  | EvAdd now f k at_ =>
      (filter (fun w => w_key w <> k) ws ++ [Waiting k (ticks_of itv now at_) f], [])
  | EvRemove k => (filter (fun w => w_key w <> k) ws, [])
  end.

Fixpoint spec_run (itv : Z) (ws : list waiting) (evs : list event) : list waiting * list (list func) :=
  match evs with
  | [] => (ws, [])
  | ev :: evs =>
      let '(ws, fs) := spec_iter itv ws ev in
      let '(ws, out) := spec_run itv ws evs in
      (ws, fs :: out)
  end.

(** ** Representation *)

(** The element [e] of slot [i] stands for the waiting task [w]. *)
Definition elem_rep (t : TimeWheel) (i : Z) (e : Z) (w : waiting) : Prop :=
  keyToETask t !! w_key w = Some e /\
  exists x, elems t !! e = Some x /\ task x = w_task w /\ key x = w_key w /\ pos x = i /\
    cycle x = w_left w / zlen (slots t).

(** The tasks of slot [i]: those that run when the wheel gets there. *)
Definition in_slot (t : TimeWheel) (i : Z) (w : waiting) : Prop :=
  (curSlot t + w_left w) mod zlen (slots t) = i.

#[local] Instance in_slot_dec t i w : Decision (in_slot t i w).
Proof. unfold in_slot. apply _. Defined.

Record wheel_wf (t : TimeWheel) : Prop := {
  wf_interval : 0 < interval t;
  wf_slots : 0 < zlen (slots t);
  wf_turn : zlen (slots t) * interval t < 4611686018427387904;
  wf_cur : 0 <= curSlot t < zlen (slots t);
  wf_fresh : forall e x, elems t !! e = Some x -> e < fresh t
}.

Record rep (t : TimeWheel) (ws : list waiting) : Prop := {
  rep_wf : wheel_wf t;
  rep_left : Forall (fun w => 0 <= w_left w) ws;
  rep_nodup : NoDup (w_key <$> ws);
  rep_slot : forall i l, zlookup (slots t) i = Some l ->
    Forall2 (elem_rep t i) l (filter (in_slot t i) ws);
  rep_keys : forall k e, keyToETask t !! k = Some e -> k ∈ w_key <$> ws
}.

Lemma rep_in t ws w : rep t ws -> w ∈ ws ->
  exists l e, zlookup (slots t) ((curSlot t + w_left w) mod zlen (slots t)) = Some l /\ e ∈ l /\
    elem_rep t ((curSlot t + w_left w) mod zlen (slots t)) e w.
Proof.
  intros Hr Hw. set (i := (curSlot t + w_left w) mod zlen (slots t)).
  destruct (zlookup_is_Some (slots t) i) as [l Hl].
  { subst i. apply Z.mod_pos_bound, Hr. }
  pose proof (rep_slot _ _ Hr i l Hl) as HF.
  destruct (Forall2_in_r _ _ _ w HF) as (e & He & HR); [by apply list_elem_of_filter |]. by exists l, e.
Qed.

(** ** Removing *)
Definition drop_key (k : string) (ws : list waiting) : list waiting := filter (fun w => w_key w <> k) ws.

Lemma drop_key_in k ws : k ∉ w_key <$> drop_key k ws.
Proof. intros (w & -> & [Hk _]%list_elem_of_filter)%list_elem_of_fmap. done. Qed.

Lemma drop_key_fresh k ws : k ∉ w_key <$> ws -> drop_key k ws = ws.
Proof.
  induction ws as [| w ws IH]; [done |]. rewrite fmap_cons. intros [Hne Hn]%not_elem_of_cons.
  unfold drop_key. rewrite filter_cons, decide_True by congruence. f_equal. by apply IH.
Qed.

Lemma filter_swap {A} (P Q : A -> Prop) `{!forall x, Decision (P x), !forall x, Decision (Q x)} (l : list A) :
  filter P (filter Q l) = filter Q (filter P l).
Proof. rewrite !list_filter_filter. apply list_filter_iff. tauto. Qed.

(** An element of a slot is the one of its key. *)
Lemma elem_rep_key t i e w k e' : elem_rep t i e w -> keyToETask t !! k = Some e' ->
  (forall x, elems t !! e' = Some x -> key x = k) -> e <> e' <-> w_key w <> k.
Proof.
  intros (Hk & x & Hx & _ & Hkey & _) Hk' Hx'. split.
  - intros Hne <-. congruence.
  - intros Hne ->. apply Hne. rewrite <- Hkey. by apply Hx'.
Qed.

Lemma rep_key t ws k e : rep t ws -> keyToETask t !! k = Some e ->
  exists w x l, w ∈ ws /\ w_key w = k /\ elems t !! e = Some x /\ key x = k /\
    zlookup (slots t) (pos x) = Some l /\ elem_rep t (pos x) e w.
Proof.
  intros Hr Hk. pose proof (rep_keys _ _ Hr k e Hk) as (w & -> & Hw)%list_elem_of_fmap.
  destruct (rep_in t ws w Hr Hw) as (l & e' & Hl & He & HR).
  destruct HR as (Hke & x & Hx & Ht & Hkx & Hp & Hc). assert (e' = e) as -> by congruence.
  exists w, x, l. rewrite Hp. split_and!; try done. split; [done |]. by exists x.
Qed.

Lemma in_slot_same t t' i (ws : list waiting) : curSlot t' = curSlot t -> zlen (slots t') = zlen (slots t) ->
  filter (in_slot t' i) ws = filter (in_slot t i) ws.
Proof. intros Hc Hl. apply list_filter_iff. intros w. unfold in_slot. by rewrite Hc, Hl. Qed.

Lemma removeTask_rep t ws k : rep t ws ->
  exists t', removeTask t k = Ret t' /\ rep t' (drop_key k ws) /\
    interval t' = interval t /\ curSlot t' = curSlot t /\ zlen (slots t') = zlen (slots t) /\
    keyToETask t' !! k = None.
Proof.
  intros Hr. unfold removeTask. destruct (keyToETask t !! k) as [e |] eqn:Ek.
  2: { exists t. split_and!; try done. rewrite drop_key_fresh; [done |].
       intros (w & -> & Hw)%list_elem_of_fmap. destruct (rep_in t ws w Hr Hw) as (l & e & _ & _ & Hk & _). congruence. }
  destruct (rep_key t ws k e Hr Ek) as (w & x & l & Hw & Hwk & Hx & Hxk & Hl & HR).
  unfold deref. cbn [elems with_keys]. rewrite Hx. cbn [mbind outcome_bind slots with_keys].
  rewrite (go_index_Some _ _ _ Hl). cbn [mbind outcome_bind].
  pose proof (zlookup_Some_range _ _ _ Hl) as Hp.
  eexists. split; [done |]. split_and!; [| done | done | cbn; apply zlen_insert | cbn; apply lookup_delete_eq].
  destruct Hr as [Hwf Hleft Hnd Hslot Hkeys]. split.
  - destruct Hwf. split; cbn; rewrite ?zlen_insert; done.
  - by apply Forall_filter_keep.
  - by apply NoDup_fmap_filter.
  - cbn. intros i li Hi. rewrite zlookup_insert in Hi by done.
    assert (exists l0, zlookup (slots t) i = Some l0 /\ li = filter (fun e0 => e0 <> e) l0) as (l0 & Hl0 & ->).
    { case_decide as Hd; [subst i; injection Hi as <-; by exists l |].
      exists li. split; [done |]. pose proof (Hslot i li Hi) as HF. symmetry. apply filter_all, Forall_forall.
      intros e0 He0 ->. destruct (Forall2_in_l _ _ _ _ HF He0) as (w' & _ & _ & x' & Hx' & _ & _ & Hp' & _). congruence. }
    rewrite (in_slot_same t) by (cbn; rewrite ?zlen_insert; done). unfold drop_key. rewrite filter_swap.
    apply Forall2_filter_rel. eapply Forall2_impl; [by apply Hslot |].
    intros e0 w0 H0. split; [eapply elem_rep_key; [done | done | congruence] |]. intros Hne.
    destruct H0 as (Hk0 & H0). split; cbn; [by rewrite lookup_delete_ne | by rewrite zlen_insert].
  - cbn. intros k' e' [Hne Hk']%lookup_delete_Some.
    pose proof (Hkeys _ _ Hk') as (w' & -> & Hw')%list_elem_of_fmap.
    apply list_elem_of_fmap_2, list_elem_of_filter. done.
Qed.

(** ** Adding *)

(** The receiver's clock and the time of the task are less than about 146 years
    apart. *)
Definition time_ok (now at_ : Z) : Prop := at_ - now < 4611686018427387904.

Lemma getPosAndCircle_spec t now at_ : wheel_wf t -> time_ok now at_ ->
  let q := ticks_of (interval t) now at_ in
  getPosAndCircle t now at_ = Ret ((curSlot t + q) mod zlen (slots t), q / zlen (slots t)).
Proof.
  intros [Hi Hs Ht Hc _] Hat q. assert (zlen (slots t) < 4611686018427387904) as Hsm by nia. unfold getPosAndCircle, time_ok in *.
  set (delay := if Until now at_ <? 0 then 0 else Until now at_).
  assert (delay = Z.max 0 (at_ - now)) as Hd. { subst delay. unfold Until. zcase; lia. }
  assert (0 <= delay < 4611686018427387904) as Hdr by lia. clearbody delay. clear Hat.
  unfold go_div, go_mod. rewrite (s64_small (_ * _)) by nia.
  rewrite (proj2 (Z.eqb_neq (zlen (slots t) * interval t) 0)) by nia. cbn [mbind outcome_bind].
  rewrite (proj2 (Z.eqb_neq (interval t) 0)) by lia. cbn [mbind outcome_bind].
  rewrite (proj2 (Z.eqb_neq (zlen (slots t)) 0)) by lia. cbn [mbind outcome_bind].
  assert (q = delay / interval t) as Hq by (subst q; unfold ticks_of; by rewrite Hd).
  assert (0 <= q <= delay) as Hqr.
  { rewrite Hq. split; [apply Z.div_pos; lia |]. apply Z.div_le_upper_bound; nia. }
  rewrite !Z.quot_div_nonneg by nia. rewrite <- Hq.
  rewrite (Z.mul_comm (zlen _)), <- Z.div_div, <- Hq by lia.
  assert (0 <= q / zlen (slots t) <= q) as Hqq.
  { split; [apply Z.div_pos; lia |]. apply Z.div_le_upper_bound; nia. }
  rewrite (s64_small (q / _)), (s64_small q), s64_small by lia. rewrite Z.rem_mod_nonneg by lia. done.
Qed.

Lemma addTask_rep t ws now f k at_ : rep t ws -> time_ok now at_ ->
  exists t', addTask t now f k at_ = Ret t' /\
    rep t' (drop_key k ws ++ [Waiting k (ticks_of (interval t) now at_) f]) /\
    interval t' = interval t /\ zlen (slots t') = zlen (slots t).
Proof.
  intros Hr Hat. unfold addTask. rewrite getPosAndCircle_spec by (done || apply Hr). cbn [mbind outcome_bind].
  set (q := ticks_of _ _ _). set (p := (curSlot t + q) mod zlen (slots t)).
  pose proof (rep_wf _ _ Hr) as Hwf.
  assert (0 <= p < zlen (slots t)) as Hp by (apply Z.mod_pos_bound, Hwf).
  destruct (zlookup_is_Some _ _ Hp) as [l0 Hl0]. rewrite (go_index_Some _ _ _ Hl0). cbn [mbind outcome_bind].
  destruct (removeTask_rep t ws k Hr) as (t1 & E1 & Hr1 & Hi1 & Hc1 & Hl1 & Hk1).
  assert (match keyToETask t !! k with Some _ => removeTask t k | None => Ret t end = Ret t1) as ->.
  { destruct (keyToETask t !! k) eqn:Ek; [done |]. unfold removeTask in E1. rewrite Ek in E1. done. }
  cbn [mbind outcome_bind with_elems slots]. rewrite <- Hl1 in Hp.
  destruct (zlookup_is_Some _ _ Hp) as [l Hl]. rewrite (go_index_Some _ _ _ Hl). cbn [mbind outcome_bind].
  eexists. split; [done |]. split; [| cbn; rewrite zlen_insert; done].
  pose proof (rep_wf _ _ Hr1) as [Hitv Hsl Htu Hcu Hfr].
  assert (0 <= q) as Hq by (apply Z.div_pos; [lia | apply Hwf]).
  assert (forall e, elems t1 !! e <> None -> e <> fresh t1) as Hnew.
  { intros e He ->. destruct (elems t1 !! fresh t1) eqn:E; [| done]. apply Hfr in E. lia. }
  split.
  - split; cbn; rewrite ?zlen_insert; try done. intros e x He.
    destruct (decide (e = fresh t1)) as [-> | Hne]; [lia |]. rewrite lookup_insert_ne in He by done.
    apply Hfr in He. lia.
  - apply Forall_app. split; [apply (rep_left _ _ Hr1) |]. constructor; [done | constructor].
  - rewrite fmap_app. apply NoDup_app. split_and!; [apply (rep_nodup _ _ Hr1) | | apply NoDup_singleton].
    intros y Hy ->%list_elem_of_singleton. by apply drop_key_in in Hy.
  - cbn. intros i li Hi. rewrite zlookup_insert in Hi by done.
    rewrite (in_slot_same t1) by (cbn; rewrite ?zlen_insert; done). rewrite filter_app.
    assert (forall lj, zlookup (slots t1) i = Some lj ->
      Forall2 (elem_rep (with_keys (with_slots (with_elems t1
        (<[fresh t1 := {| task := f; pos := p; cycle := q / zlen (slots t); key := k; executeAt := at_ |}]> (elems t1))
        (fresh t1 + 1)) p (l ++ [fresh t1])) (<[k := fresh t1]> (keyToETask t1))) i) lj
        (filter (in_slot t1 i) (drop_key k ws))) as Hold.
    { intros lj Hj. eapply Forall2_impl; [by apply (rep_slot _ _ Hr1) |].
      intros e w (Hk & x & Hx & Hrest). split; cbn.
      - rewrite lookup_insert_ne; [done |]. intros ->. congruence.
      - exists x. rewrite zlen_insert, lookup_insert_ne; [done |]. intros E. apply (Hnew e); [congruence | done]. }
    assert (in_slot t1 i {| w_key := k; w_left := q; w_task := f |} <-> i = p) as Hins.
    { unfold in_slot. cbn. rewrite Hc1, Hl1. fold p. by split. }
    rewrite filter_cons, filter_nil. case_decide as Hd.
    + rewrite decide_True by tauto. injection Hi as <-. rewrite Hd in Hold |- *.
      apply Forall2_app; [by apply Hold |]. constructor; [| constructor]. split; cbn; [apply lookup_insert_eq |].
      eexists. rewrite lookup_insert_eq. split; [done |]. cbn. by rewrite zlen_insert, Hl1.
    + rewrite decide_False by tauto. rewrite app_nil_r. by apply Hold.
  - cbn. intros k' e'. rewrite fmap_app. intros [[-> _] | [_ Hk']]%lookup_insert_Some; apply elem_of_app; [right; by left |].
    left. by apply (rep_keys _ _ Hr1 k' e').
Qed.

(** ** Ticking *)

(** Turns of the wheel a task still waits for. *)
Definition turns (t : TimeWheel) (w : waiting) : Z := w_left w / zlen (slots t).

(** [e] stands for [w] after its cycle has been counted down. *)
Definition elem_dec (t : TimeWheel) (i : Z) (e : Z) (w : waiting) : Prop :=
  keyToETask t !! w_key w = Some e /\
  exists x, elems t !! e = Some x /\ task x = w_task w /\ key x = w_key w /\ pos x = i /\
    cycle x = turns t w - 1.

(** What [execute] leaves alone: the elements and keys not in [ws]. *)
Record frame (t t' : TimeWheel) (ws : list waiting) : Prop := {
  fr_interval : interval t' = interval t;
  fr_slots : slots t' = slots t;
  fr_cur : curSlot t' = curSlot t;
  fr_fresh : fresh t' = fresh t;
  fr_elems : forall e x, elems t !! e = Some x -> key x ∉ w_key <$> ws -> elems t' !! e = Some x;
  fr_dom : forall e x, elems t' !! e = Some x -> is_Some (elems t !! e);
  fr_keys : forall k, k ∉ w_key <$> ws -> keyToETask t' !! k = keyToETask t !! k;
  fr_fired : forall k e, keyToETask t' !! k = Some e ->
    keyToETask t !! k = Some e /\ k ∉ w_key <$> filter (fun w => turns t w <= 0) ws
}.

Lemma elem_rep_frame t t' i e w ws : frame t t' ws -> elem_rep t i e w -> w_key w ∉ w_key <$> ws ->
  elem_rep t' i e w.
Proof.
  intros [] (Hk & x & Hx & Ht & Hkx & Hp & Hc) Hn. split; [by rewrite fr_keys0 |].
  exists x. rewrite fr_slots0. split_and!; try done. apply fr_elems0; [done |]. by rewrite Hkx.
Qed.

Lemma elem_dec_frame t t' i e w ws : frame t t' ws -> elem_dec t i e w -> w_key w ∉ w_key <$> ws ->
  elem_dec t' i e w.
Proof.
  intros [] (Hk & x & Hx & Ht & Hkx & Hp & Hc) Hn. split; [by rewrite fr_keys0 |].
  exists x. unfold turns in *. rewrite fr_slots0. split_and!; try done. apply fr_elems0; [done |]. by rewrite Hkx.
Qed.

Lemma frame_trans t1 t2 t3 w ws : frame t1 t2 [w] -> frame t2 t3 ws -> w_key w ∉ w_key <$> ws ->
  frame t1 t3 (w :: ws).
Proof.
  intros [] [] Hn. split; try congruence.
  - intros e x Hx [Hw Hws]%not_elem_of_cons. apply fr_elems1; [| done]. apply fr_elems0; [done |].
    by intros ?%list_elem_of_singleton.
  - intros e x Hx. destruct (fr_dom1 e x Hx) as [y Hy]. by apply (fr_dom0 e y).
  - intros k [Hw Hws]%not_elem_of_cons. rewrite fr_keys1 by done. apply fr_keys0. by intros ?%list_elem_of_singleton.
  - intros k e Hk. destruct (fr_fired1 k e Hk) as [Hk2 Hf2]. destruct (fr_fired0 k e Hk2) as [Hk1 Hf1].
    split; [done |]. unfold turns in *. rewrite fr_slots0 in Hf2. rewrite filter_cons in Hf1 |- *.
    destruct (decide (w_left w / zlen (slots t1) <= 0)); [| done]. rewrite fmap_cons. apply not_elem_of_cons. split; [| done].
    rewrite fmap_cons in Hf1. by apply not_elem_of_cons in Hf1 as [? _].
Qed.

Lemma execute_spec i l t ws : Forall2 (elem_rep t i) l ws -> NoDup (w_key <$> ws) ->
  exists t' l', execute t l = Ret (t', l', w_task <$> filter (fun w => turns t w <= 0) ws) /\
    frame t t' ws /\ Forall2 (elem_dec t' i) l' (filter (fun w => 0 < turns t w) ws).
Proof.
  intros HF. revert t HF. induction l as [| e l IH] in ws |- *; intros t HF Hnd; cbn [execute].
  { apply Forall2_nil_inv_l in HF as ->. exists t, []. split_and!; [done | | constructor]. split; try done.
    by intros k e ?; split; [| apply not_elem_of_nil]. }
  apply Forall2_cons_inv_l in HF as (w & ws' & Hw & HF & ->). rewrite fmap_cons in Hnd.
  apply NoDup_cons in Hnd as [Hn Hnd]. destruct Hw as (Hk & x & Hx & Ht & Hkx & Hp & Hc).
  unfold deref. rewrite Hx. cbn [mbind outcome_bind]. fold (turns t w) in Hc.
  set (x' := {| task := task x; pos := pos x; cycle := cycle x - 1; key := key x; executeAt := executeAt x |}).
  set (t1 := if 0 <? cycle x then with_elems t (<[e := x']> (elems t)) (fresh t)
             else with_keys t (delete (key x) (keyToETask t))).
  assert (frame t t1 [w]) as Hfr.
  { subst t1. rewrite Hc. zcase; split; try done; cbn [elems keyToETask with_elems with_keys].
    - intros e0 x0 Hx0 Hn0. rewrite lookup_insert_ne; [done |]. intros ->. apply Hn0.
      assert (x0 = x) as -> by congruence. rewrite Hkx. by left.
    - intros e0 x0 Hx0. destruct (decide (e0 = e)) as [-> |]; [eauto |]. rewrite lookup_insert_ne in Hx0 by done. eauto.
    - intros k e0 He0. split; [done |]. rewrite filter_cons, decide_False by lia. apply not_elem_of_nil.
    - intros k Hk0. rewrite lookup_delete_ne; [done |]. rewrite Hkx. intros E. apply Hk0. rewrite <- E. by left.
    - intros k e0 [Hne He0]%lookup_delete_Some. split; [done |]. rewrite filter_cons, decide_True by lia.
      rewrite fmap_cons. cbn. intros ->%list_elem_of_singleton. by apply Hne. }
  assert (slots t1 = slots t) as Hsl by apply Hfr.
  destruct (IH ws' t1) as (t' & l' & E & Hfr' & HF').
  { eapply Forall2_impl_in; [done |]. intros e0 w0 _ Hw0 H0. eapply elem_rep_frame; [done | done |].
    intros E%list_elem_of_singleton. apply Hn. rewrite <- E. by apply list_elem_of_fmap_2. }
  { done. }
  assert (forall w, turns t1 w = turns t w) as Htu by (intros; unfold turns; by rewrite Hsl).
  rewrite (list_filter_iff _ (fun w => turns t w <= 0)) in E by (intros; by rewrite Htu).
  rewrite (list_filter_iff _ (fun w => 0 < turns t w)) in HF' by (intros; by rewrite Htu).
  exists t', (if 0 <? cycle x then e :: l' else l'). rewrite !filter_cons. split_and!.
  - subst t1. rewrite Hc in E |- *. zcase.
    + rewrite decide_False by lia. fold x'. by rewrite E.
    + rewrite decide_True by lia. rewrite E. cbn. by rewrite Ht.
  - by eapply frame_trans.
  - subst t1. rewrite Hc in Hfr, Hfr' |- *. zcase.
    + rewrite decide_True by lia. constructor; [| done]. eapply elem_dec_frame; [done | | done].
      split; [done |]. exists x'. cbn. rewrite lookup_insert_eq. split_and!; try done. cbn. unfold turns in *. cbn. lia.
    + by rewrite decide_False by lia.
Qed.

Lemma next_slot n c w : 0 < n -> ((c + 1) mod n + (w - 1)) mod n = (c + w) mod n.
Proof. intros Hn. rewrite Zplus_mod_idemp_l. f_equal. lia. Qed.

(** The tasks of the current slot are those whose ticks left make full turns. *)
Lemma in_cur_slot t w : wheel_wf t -> in_slot t (curSlot t) w <-> w_left w mod zlen (slots t) = 0.
Proof.
  intros [_ Hs _ Hc _]. unfold in_slot. set (n := zlen (slots t)) in *. split; intros E.
  - replace (w_left w) with (curSlot t + w_left w - curSlot t) by lia.
    rewrite Zminus_mod, E, (Z.mod_small (curSlot t)), Z.sub_diag by lia. apply Z.mod_0_l. lia.
  - rewrite Zplus_mod, E, Z.add_0_r, Zmod_mod. apply Z.mod_small. lia.
Qed.

Lemma due t w : wheel_wf t -> 0 <= w_left w -> (turns t w <= 0 /\ in_slot t (curSlot t) w) <-> w_left w <= 0.
Proof.
  intros Hwf Hl. rewrite in_cur_slot by done. unfold turns. pose proof (wf_slots _ Hwf) as Hs.
  pose proof (Z.div_mod (w_left w) (zlen (slots t)) ltac:(lia)) as Hdm.
  pose proof (Z.div_pos (w_left w) (zlen (slots t)) Hl Hs). split; [nia |].
  intros H0. assert (w_left w = 0) as -> by lia. split; [rewrite Z.div_0_l; lia | apply Z.mod_0_l; lia].
Qed.

Lemma elem_pred_other t t' i e w ws : wheel_wf t -> frame t t' ws -> curSlot t <> i -> in_slot t i w ->
  elem_rep t' i e w -> elem_rep t' i e (w_pred w).
Proof.
  intros Hwf Hfr Hne Hin (Hk & x & Hx & Ht & Hkx & Hp & Hc). split; [done |]. exists x. cbn. split_and!; try done.
  rewrite Hc. rewrite (fr_slots _ _ _ Hfr). pose proof (wf_slots _ Hwf) as Hs.
  assert (w_left w mod zlen (slots t) <> 0) as Hm.
  { intros E. apply in_cur_slot in E; [| done]. unfold in_slot in *. congruence. }
  pose proof (Z.mod_pos_bound (w_left w) (zlen (slots t)) Hs).
  apply Z.div_unique with (w_left w mod zlen (slots t) - 1); [lia |].
  pose proof (Z.div_mod (w_left w) (zlen (slots t)) ltac:(lia)). lia.
Qed.

Lemma elem_pred_cur t t' i e w : wheel_wf t -> slots t' = slots t -> in_slot t (curSlot t) w ->
  elem_dec t' i e w -> elem_rep t' i e (w_pred w).
Proof.
  intros Hwf Hsl Hin (Hk & x & Hx & Ht & Hkx & Hp & Hc). split; [done |]. exists x. cbn. split_and!; try done.
  rewrite Hc. unfold turns. rewrite Hsl. pose proof (wf_slots _ Hwf) as Hs. apply in_cur_slot in Hin; [| done].
  apply Z.div_unique with (zlen (slots t) - 1); [lia |].
  pose proof (Z.div_mod (w_left w) (zlen (slots t)) ltac:(lia)). lia.
Qed.

Lemma tick_filter t t' i (ws : list waiting) : wheel_wf t -> curSlot t' = (curSlot t + 1) mod zlen (slots t) ->
  zlen (slots t') = zlen (slots t) ->
  filter (in_slot t' i) (w_pred <$> filter (fun w => 0 < w_left w) ws)
  = w_pred <$> filter (fun w => 0 < w_left w /\ in_slot t i w) ws.
Proof.
  intros [] Hc Hl. rewrite filter_fmap, list_filter_filter. f_equal. apply list_filter_iff. intros w.
  unfold in_slot. rewrite Hc, Hl. cbn. rewrite next_slot by done. tauto.
Qed.

Lemma tick_rep t ws : rep t ws ->
  exists t', tick t = Ret (t', w_task <$> filter (fun w => w_left w <= 0) ws) /\
    rep t' (w_pred <$> filter (fun w => 0 < w_left w) ws) /\
    interval t' = interval t /\ zlen (slots t') = zlen (slots t).
Proof.
  intros Hr. pose proof (rep_wf _ _ Hr) as Hwf. destruct (zlookup_is_Some _ _ (wf_cur _ Hwf)) as [l Hl].
  pose proof (rep_slot _ _ Hr _ _ Hl) as HF. set (wc := filter (in_slot t (curSlot t)) ws) in *.
  destruct (execute_spec _ _ _ _ HF) as (t1 & l' & E & Hfr & HF').
  { by apply NoDup_fmap_filter, Hr. }
  unfold tick. rewrite (go_index_Some _ _ _ Hl). cbn [mbind outcome_bind]. rewrite E. cbn [mbind outcome_bind].
  unfold circularIncr, go_mod. cbn [slots curSlot with_slots]. rewrite zlen_insert, (fr_slots _ _ _ Hfr), (fr_cur _ _ _ Hfr).
  pose proof Hwf as [Hitv Hs Htu Hcu Hfre].
  rewrite (proj2 (Z.eqb_neq (zlen (slots t)) 0)) by lia. cbn [mbind outcome_bind].
  rewrite s64_small, Z.rem_mod_nonneg by nia.
  pose proof (proj1 (Forall_forall _ _) (rep_left _ _ Hr)) as Hleft.
  eexists. split.
  { do 3 f_equal. subst wc. rewrite list_filter_filter. apply filter_ext_in. intros w Hw. apply due; auto. }
  split; [| split; [apply Hfr | cbn; by rewrite zlen_insert]].
  split.
  - split; cbn; rewrite ?zlen_insert, ?(fr_slots _ _ _ Hfr), ?(fr_interval _ _ _ Hfr), ?(fr_fresh _ _ _ Hfr); try done.
    + by apply Z.mod_pos_bound.
    + intros e x Hx. destruct (fr_dom _ _ _ Hfr e x Hx) as [y Hy]. eauto.
  - apply Forall_forall. intros w' (w & -> & [Hp Hw]%list_elem_of_filter)%list_elem_of_fmap. cbn. lia.
  - rewrite <- list_fmap_compose. cbn. apply NoDup_fmap_filter, Hr.
  - intros i li. match goal with |- context [elem_rep ?x] => set (t2 := x) end. cbn. intros Hi.
    rewrite zlookup_insert in Hi by done.
    rewrite (tick_filter t t2), Forall2_fmap_r by (done || (cbn; by rewrite ?zlen_insert)).
    assert (forall e w, elem_rep t1 i e w -> elem_rep t2 i e w) as H12.
    { intros e w. unfold elem_rep. cbn. by rewrite zlen_insert, (fr_slots _ _ _ Hfr). }
    case_decide as Hd; [subst i; injection Hi as <- |]; cbn [compose].
    + rewrite (filter_ext_in _ (fun w => 0 < turns t w /\ in_slot t (curSlot t) w)), <- list_filter_filter.
      * eapply Forall2_impl_in; [exact HF' |]. intros e w _ [_ [Hw _]%list_elem_of_filter]%list_elem_of_filter Hdec.
        apply H12. by eapply elem_pred_cur, Hdec; [| apply Hfr |].
      * intros w Hw. pose proof (due t w Hwf (Hleft w Hw)). rewrite !Z.lt_nge. tauto.
    + rewrite (filter_ext_in _ (in_slot t i)).
      * eapply Forall2_impl_in; [exact (rep_slot _ _ Hr _ _ Hi) |]. intros e w _ [Hin Hw]%list_elem_of_filter HR.
        apply H12. eapply elem_pred_other; [done | done | congruence | done |].
        eapply elem_rep_frame; [done | done |]. intros (w' & Ew & [Hin' Hw']%list_elem_of_filter)%list_elem_of_fmap.
        pose proof (NoDup_fmap_in _ _ _ _ (rep_nodup _ _ Hr) Hw Hw' Ew). unfold in_slot in *. congruence.
      * intros w Hw. split; [tauto |]. intros Hin. split; [| done]. apply Z.lt_nge. intros H0.
        apply (due t w Hwf (Hleft w Hw)) in H0 as [_ H0]. unfold in_slot in *. congruence.
  - cbn. intros k e Hk. destruct (fr_fired _ _ _ Hfr k e Hk) as [Hk1 Hn].
    pose proof (rep_keys _ _ Hr _ _ Hk1) as (w & -> & Hw)%list_elem_of_fmap.
    rewrite <- list_fmap_compose. apply (list_elem_of_fmap_2 w_key _ w), list_elem_of_filter. split; [| done].
    apply Z.lt_nge. intros Hd. apply Hn, list_elem_of_fmap_2. subst wc. rewrite list_filter_filter.
    apply list_elem_of_filter. split; [| done]. apply due; auto.
Qed.

(** ** Histories *)

Definition event_ok (ev : event) : Prop :=
  match ev with EvAdd now _ _ at_ => time_ok now at_ | _ => True end.

Lemma run_iter_rep t ws ev : rep t ws -> event_ok ev ->
  exists t', run_iter t ev = Ret (t', (spec_iter (interval t) ws ev).2) /\
    rep t' (spec_iter (interval t) ws ev).1 /\ interval t' = interval t.
Proof.
  intros Hr Hev. destruct ev as [| now f k at_ | k]; cbn [run_iter spec_iter fst snd].
  - destruct (tick_rep t ws Hr) as (t' & E & Hr' & Hi & _). eauto.
  - destruct (addTask_rep t ws now f k at_ Hr Hev) as (t' & E & Hr' & Hi & _). rewrite E. eauto.
  - destruct (removeTask_rep t ws k Hr) as (t' & E & Hr' & Hi & _). rewrite E. eauto.
Qed.

Lemma run_rep evs : forall t ws, rep t ws -> Forall event_ok evs ->
  exists t', run t evs = Ret (t', (spec_run (interval t) ws evs).2) /\
    rep t' (spec_run (interval t) ws evs).1.
Proof.
  induction evs as [| ev evs IH]; intros t ws Hr Hev; cbn [run spec_run]; [eauto |].
  apply Forall_cons in Hev as [Hev Hevs]. destruct (run_iter_rep t ws ev Hr Hev) as (t1 & E1 & Hr1 & Hi1).
  rewrite E1. cbn [mbind outcome_bind]. destruct (spec_iter (interval t) ws ev) as [ws1 fs]. cbn in *.
  destruct (IH t1 ws1 Hr1 Hevs) as (t2 & E2 & Hr2). rewrite E2, Hi1 in *. cbn [mbind outcome_bind].
  destruct (spec_run (interval t) ws1 evs) as [ws2 out]. eauto.
Qed.

Definition wheel_conf (slotNum itv : Z) : Prop :=
  0 < slotNum /\ 0 < itv /\ slotNum * itv < 4611686018427387904.

Lemma NewTimeWheel_rep slotNum itv : wheel_conf slotNum itv -> rep (NewTimeWheel slotNum itv) [].
Proof.
  intros (Hs & Hi & Ht). unfold NewTimeWheel.
  rewrite (proj2 (Z.leb_gt slotNum 0)), (proj2 (Z.leb_gt itv 0)) by lia.
  assert (zlen (replicate (Z.to_nat slotNum) (@nil Z)) = slotNum) as Hl.
  { unfold zlen. rewrite length_replicate. lia. }
  split; [split; cbn; rewrite ?Hl; lia || done | constructor | constructor | | done].
  cbn. intros i l. unfold zlookup. zcase; [done |]. intros [-> _]%lookup_replicate. constructor.
Qed.

(** C12: The time wheel is a list of tasks waiting for ticks.  Over any sequence of
    ticks, additions and removals the loop never panics, and each iteration starts
    exactly the tasks that the list in order of addition starts: a task replaces the
    waiting one of the same key, waits for as many ticks as whole intervals fit
    into its delay, and is started by the next one, in order of addition. *)
Theorem wheel_refines slotNum itv evs : wheel_conf slotNum itv -> Forall event_ok evs ->
  exists t, run (NewTimeWheel slotNum itv) evs = Ret (t, (spec_run itv [] evs).2).
Proof.
  intros Hc Hev. destruct (run_rep evs _ _ (NewTimeWheel_rep slotNum itv Hc) Hev) as (t & E & _).
  exists t. rewrite E. destruct Hc as (_ & Hi & _). cbn. by rewrite (proj2 (Z.leb_gt itv 0)) by lia.
Qed.

(** ** A task runs on time *)

Definition is_tick (ev : event) : bool := match ev with EvTick => true | _ => false end.

Definition ticks (evs : list event) : Z := zlen (filter (fun ev => is_tick ev = true) evs).

(** The event neither removes nor replaces the task of key [k], nor adds [f]. *)
Definition apart (k : string) (f : func) (ev : event) : Prop :=
  match ev with
  | EvTick => True
  | EvAdd _ f' k' _ => k' <> k /\ f' <> f
  | EvRemove k' => k' <> k
  end.

(** [f] waits for [n] ticks under key [k] and is not in the list otherwise. *)
Definition waits (k : string) (n : Z) (f : func) (ws : list waiting) : Prop :=
  Waiting k n f ∈ ws /\ forall w, w ∈ ws -> w_task w = f -> w = Waiting k n f.

Lemma spec_iter_waits itv k n f ws ev : waits k n f ws -> apart k f ev -> (ev = EvTick -> 0 < n) ->
  (f ∉ (spec_iter itv ws ev).2) /\
  waits k (if is_tick ev then n - 1 else n) f (spec_iter itv ws ev).1.
Proof.
  intros [Hin Huniq] Ha Hn. destruct ev as [| now f' k' at_ | k']; cbn in *.
  - specialize (Hn eq_refl). split.
    + intros (w & E & [Hl Hw]%list_elem_of_filter)%list_elem_of_fmap. rewrite (Huniq w Hw) in Hl by done. cbn in Hl. lia.
    + split.
      * apply (list_elem_of_fmap_2 w_pred _ (Waiting k n f)), list_elem_of_filter. done.
      * intros w' (w & -> & [_ Hw]%list_elem_of_filter)%list_elem_of_fmap E. by rewrite (Huniq w Hw).
  - destruct Ha as [Hk Hf]. split; [apply not_elem_of_nil |]. split.
    + apply elem_of_app. left. apply list_elem_of_filter. by split; [cbn; congruence |].
    + intros w [[_ Hw]%list_elem_of_filter | ->%list_elem_of_singleton]%elem_of_app E; [by apply Huniq | done].
  - split; [apply not_elem_of_nil |]. split; [apply list_elem_of_filter; by split; [cbn; congruence |] |].
    intros w [_ Hw]%list_elem_of_filter. by apply Huniq.
Qed.

Lemma ticks_cons ev evs : ticks (ev :: evs) = (if is_tick ev then 1 else 0) + ticks evs.
Proof. unfold ticks. rewrite filter_cons. destruct (is_tick ev); cbn; [rewrite decide_True by done; zl | done]. Qed.

Lemma spec_run_waits itv k f evs : forall n ws, waits k n f ws -> Forall (apart k f) evs -> ticks evs <= n ->
  Forall (fun fs => f ∉ fs) (spec_run itv ws evs).2 /\ waits k (n - ticks evs) f (spec_run itv ws evs).1.
Proof.
  induction evs as [| ev evs IH]; intros n ws Hw Ha Hn.
  { cbn. split; [constructor |]. unfold ticks. rewrite filter_nil, zlen_nil, Z.sub_0_r. done. }
  rewrite ticks_cons in *. apply Forall_cons in Ha as [Ha Has].
  assert (0 <= ticks evs) by apply zlen_nonneg.
  destruct (spec_iter_waits itv k n f ws ev Hw Ha) as [Hf Hw1]; [intros ->; cbn in Hn; lia |].
  cbn. destruct (spec_iter itv ws ev) as [ws1 fs]. cbn in Hf, Hw1.
  destruct (IH _ _ Hw1 Has) as [HF Hw2]; [destruct (is_tick ev); lia |].
  destruct (spec_run itv ws1 evs) as [ws2 out]. cbn in *. split; [by constructor |].
  by replace (n - _) with ((if is_tick ev then n - 1 else n) - ticks evs) by (destruct (is_tick ev); lia).
Qed.

Lemma spec_run_app itv evs1 evs2 ws :
  spec_run itv ws (evs1 ++ evs2) =
  let '(ws1, out1) := spec_run itv ws evs1 in
  let '(ws2, out2) := spec_run itv ws1 evs2 in (ws2, out1 ++ out2).
Proof.
  induction evs1 as [| ev evs1 IH] in ws |- *; cbn [spec_run app]; [by destruct (spec_run itv ws evs2) |].
  destruct (spec_iter itv ws ev) as [ws1 fs]. rewrite IH.
  destruct (spec_run itv ws1 evs1) as [ws2 out]. by destruct (spec_run itv ws2 evs2).
Qed.

(** A function no event adds is not in the list, and is not started. *)
Lemma spec_run_never itv f evs : forall ws, (forall w, w ∈ ws -> w_task w <> f) ->
  Forall (fun ev => match ev with EvAdd _ f' _ _ => f' <> f | _ => True end) evs ->
  Forall (fun fs => f ∉ fs) (spec_run itv ws evs).2 /\ forall w, w ∈ (spec_run itv ws evs).1 -> w_task w <> f.
Proof.
  induction evs as [| ev evs IH]; intros ws Hws Ha; [done |]. apply Forall_cons in Ha as [Ha Has]. cbn.
  assert ((f ∉ (spec_iter itv ws ev).2) /\ forall w, w ∈ (spec_iter itv ws ev).1 -> w_task w <> f) as [Hf Hws1].
  { destruct ev as [| now f' k' at_ | k']; cbn; split; try apply not_elem_of_nil.
    - intros (w & -> & [_ Hw]%list_elem_of_filter)%list_elem_of_fmap. by apply (Hws w).
    - intros w' (w & -> & [_ Hw]%list_elem_of_filter)%list_elem_of_fmap. by apply (Hws w).
    - intros w [[_ Hw]%list_elem_of_filter | ->%list_elem_of_singleton]%elem_of_app; [by apply Hws | done].
    - intros w [_ Hw]%list_elem_of_filter. by apply Hws. }
  destruct (spec_iter itv ws ev) as [ws1 fs]. cbn in Hf, Hws1. destruct (IH ws1 Hws1 Has) as [HF Hws2].
  destruct (spec_run itv ws1 evs) as [ws2 out]. cbn in *. split; [by constructor | done].
Qed.

Definition adds (f : func) (ev : event) : Prop :=
  match ev with EvAdd _ f' _ _ => f' = f | _ => False end.

(** A task runs on time, and once.  A task added with key [k] that nothing removes
    or replaces is not started by the ticks of the whole intervals of its delay, and is
    started by the tick after them, whatever other tasks come and go. *)
Theorem wheel_on_time slotNum itv pre now f k at_ mid :
  wheel_conf slotNum itv -> Forall event_ok (pre ++ EvAdd now f k at_ :: mid) ->
  Forall (fun ev => ~ adds f ev) pre -> Forall (apart k f) mid ->
  ticks mid = ticks_of itv now at_ ->
  exists t out fs,
    run (NewTimeWheel slotNum itv) (pre ++ EvAdd now f k at_ :: mid ++ [EvTick]) = Ret (t, out ++ [fs]) /\
    f ∈ fs /\ Forall (fun fs => f ∉ fs) out.
Proof.
  intros Hc Hev Hpre Hmid Ht. set (evs := pre ++ EvAdd now f k at_ :: mid ++ [EvTick]).
  assert (Forall event_ok evs) as Hevs.
  { subst evs. apply Forall_app in Hev as [H1 [H2 H3]%Forall_cons]. apply Forall_app. split; [done |].
    constructor; [done |]. apply Forall_app. split; [done |]. by constructor. }
  destruct (run_rep evs _ _ (NewTimeWheel_rep slotNum itv Hc) Hevs) as (t & E & _).
  assert (interval (NewTimeWheel slotNum itv) = itv) as Hi.
  { destruct Hc as (_ & Hi & _). cbn. by rewrite (proj2 (Z.leb_gt itv 0)) by lia. }
  rewrite Hi in E. clear Hi. exists t. rewrite E. clear E. subst evs.
  destruct (spec_run_never itv f pre []) as [Hn1 Hws]; [by intros w ?%not_elem_of_nil | |].
  { eapply Forall_impl; [exact Hpre |]. by intros []. }
  rewrite spec_run_app. destruct (spec_run itv [] pre) as [ws1 out1]. cbn [fst snd] in *.
  cbn [spec_run spec_iter app]. set (ws2 := filter _ _ ++ _).
  assert (waits k (ticks mid) f ws2) as Hw2.
  { rewrite Ht. subst ws2. split; [apply elem_of_app; right; by left |].
    intros w [[_ Hw]%list_elem_of_filter | ->%list_elem_of_singleton]%elem_of_app Hf; [| done]. by apply Hws in Hw. }
  destruct (spec_run_waits itv k f mid _ ws2 Hw2 Hmid) as [Hn2 Hw3]; [lia |].
  rewrite spec_run_app. destruct (spec_run itv ws2 mid) as [ws3 out2]. cbn [fst snd] in *.
  cbn [spec_run spec_iter fst snd]. exists (out1 ++ [] :: out2), (w_task <$> filter (fun w => w_left w <= 0) ws3).
  split_and!.
  - by rewrite <- app_assoc.
  - destruct Hw3 as [Hw3 _].
    rewrite Z.sub_diag in Hw3. apply (list_elem_of_fmap_2 w_task _ (Waiting k 0 f)), list_elem_of_filter. done.
  - apply Forall_app. split; [done |]. constructor; [apply not_elem_of_nil | done].
Qed.
End wheel.

(** ** A concrete wheel *)

Definition wheel_events : list (event (func := nat)) :=
  [EvAdd 0 1%nat "a" 25; EvTick; EvAdd 7 2%nat "b" 60; EvTick; EvRemove "c"; EvAdd 18 3%nat "b" 18].

Lemma wheel_refines_witness : exists t, run (NewTimeWheel 2 10) (wheel_events ++ [EvTick])
  = Ret (t, [[]; []; []; []; []; []; [1%nat; 3%nat]]).
Proof.
  apply (wheel_refines 2 10 (wheel_events ++ [EvTick])).
  - unfold wheel_conf. lia.
  - repeat (constructor; [unfold event_ok, time_ok; try lia; done |]). constructor.
Defined.

Lemma wheel_on_time_witness : exists t out fs,
  run (NewTimeWheel 2 10) ([] ++ EvAdd 0 1%nat "a" 25 :: tl wheel_events ++ [EvTick]) = Ret (t, out ++ [fs]) /\
  1%nat ∈ fs /\ Forall (fun fs => 1%nat ∉ fs) out.
Proof.
  apply (wheel_on_time 2 10 [] 0 1%nat "a" 25 (tl wheel_events)).
  - unfold wheel_conf. lia.
  - repeat (constructor; [unfold event_ok, time_ok; try lia; done |]). constructor.
  - constructor.
  - repeat (constructor; [cbn; done |]). constructor.
  - reflexivity.
Defined.
