(* ===== verification/GoProg.v ===== *)
(** * Goroutines as programs of calls

    What a goroutine computes between the calls that leave it, as a tree: a call and
    what the goroutine does with each answer.  [E R] is the type of the calls that
    answer an [R]. *)
From S2P Require Import Prelude.

Inductive prog (E : Type -> Type) (A : Type) : Type :=
  | Done (a : A)
  | Call (R : Type) (c : E R) (k : R -> prog E A).
Arguments Done {E A} _.
Arguments Call {E A} {R} _ _.

#[export] Instance prog_ret E : MRet (prog E) := fun A a => Done a.
#[export] Instance prog_bind E : MBind (prog E) := fun A B f =>
  fix bind (m : prog E A) : prog E B :=
    match m with
    | Done a => f a
    | Call c k => Call c (fun r => bind (k r))
    end.

Definition ask {E : Type -> Type} {R} (c : E R) : prog E R := Call c (fun r => Done r).
