(* ===== verification/RpcClient.v ===== *)
(** * The RPC client's connection

    [transport/future.go], [transport/tcp_client.go] and [transport/stream.go] of
    [libs/yukino_rpc/internal].  A goroutine is a
    [prog] of its atomic operations: those of [sync.Map] and [sync/atomic], what a mutex
    encloses, operations on channels, reads and writes of the connection.
    [RpcClientProof] interleaves them. *)
From S2P Require Import Prelude GoProg RpcProtocol.

(** ** Data *)

(** A future; its callback is known by a number, and [f_done] says whether the channel
    [done] is closed. *)
Record Future := mkFuture {
  f_res : bytes;
  f_err : option string;
  f_complete : bool;
  f_onComplete : option nat;
  f_done : bool
}.

Definition NewFuture : Future := mkFuture [] None false None false.

(** A stream: the channel [ch], the error it was terminated with ([termCh] is closed
    then), and whether its context is done. *)
Record ClientStreamConn := mkStream {
  sc_ch : list bytes;
  sc_term : option string;
  sc_cancelled : bool
}.

Definition NewClientStreamConn : ClientStreamConn := mkStream [] None false.

(** The capacity of [ch]. *)
Definition stream_capacity : Z := 64.

Definition StreamData : Z := 1.
Definition StreamEnd : Z := 2.
Definition StreamError : Z := 3.

(** A message that was read: [Decode] gives every message a header. *)
Abbreviation received := (Header * bytes)%type.

Definition set_RequestID (id : Z) (h : Header) : Header :=
  mkHeader id (ServiceName h) (MethodName h) (Error h) (CodecType h) (Compression h) (StreamFlag h).

(** ** Calls *)

(** What the second [select] of [Recv] takes. *)
Inductive recv_case := GotFrame (body : bytes) | Terminated | CtxDone.

Inductive tcall : Type -> Type :=
  (** futures: the locked parts of [Done] and [OnComplete], the callback, the channel *)
  | TComplete (f : nat) (res : bytes) (err : option string) : tcall (option (option nat))
  | TCallback (fn : nat) (err : option string) : tcall unit
  | TCloseDone (f : nat) : tcall unit
  | TRegister (f fn : nat) : tcall (option (option string))
  | TAwait (f : nat) : tcall unit
  | TSelect (f : nat) : tcall bool
  | TResult (f : nat) : tcall (bytes * option string)
  (** the client *)
  | TClosed : tcall bool
  | TNextSeq : tcall Z
  | TNewFuture : tcall nat
  | TStore (seq : Z) (f : nat) : tcall unit
  | TLoadAndDelete (seq : Z) : tcall (option nat)
  | TDelete (seq : Z) : tcall unit
  | TWrite (msg : Message) : tcall (option string)
  | TRead : tcall (result string received)
  | TCompareAndSwap : tcall bool
  | TConnClose : tcall unit
  (** [Range] of [pending]: the keys it calls its function for, and the value it gives it *)
  | TRange : tcall (list Z)
  | TVisit (seq : Z) : tcall (option nat)
  (** streams *)
  | TNewStream : tcall nat
  | TsStore (seq : Z) (st : nat) : tcall unit
  | TsLoad (seq : Z) : tcall (option nat)
  | TsLoadAndDelete (seq : Z) : tcall (option nat)
  | TsDelete (seq : Z) : tcall unit
  | TsRange : tcall (list Z)
  | TsVisit (seq : Z) : tcall (option nat)
  | TPush (st : nat) (body : bytes) : tcall unit
  | TTerminate (st : nat) (err : string) : tcall unit
  | TTryRecv (st : nat) : tcall (option bytes)
  | TSelectRecv (st : nat) : tcall recv_case
  | TTermErr (st : nat) : tcall string
  (** a panic has no answer *)
  | TPanic (msg : string) : tcall Empty_set.

Abbreviation prog := (prog tcall).

Definition panic {A} (msg : string) : prog A := Call (TPanic msg) (fun x : Empty_set => match x with end).

(** ** [future.go] *)

Definition Future_Done (f : nat) (res : bytes) (err : option string) : prog unit :=
  c ← ask (TComplete f res err);
  match c with
  | None => mret tt
  | Some onComplete =>
      _ ← match onComplete with Some fn => ask (TCallback fn err) | None => mret tt end;
      ask (TCloseDone f)
  end.

Definition Future_OnComplete (f fn : nat) : prog unit :=
  r ← ask (TRegister f fn);
  match r with
  | None => mret tt
  | Some err => ask (TCallback fn err)
  end.

Definition Future_Wait (f : nat) : prog (bytes * option string) :=
  _ ← ask (TAwait f); ask (TResult f).

(** [ctx] is the error of the context once it is done. *)
Definition Future_WaitWithContext (f : nat) (ctx : string) : prog (bytes * option string) :=
  b ← ask (TSelect f);
  if (b : bool) then Future_Wait f else mret ([], Some ctx).

(** ** [stream.go] *)

Definition Push (st : nat) (body : bytes) : prog unit := ask (TPush st body).
Definition End_ (st : nat) : prog unit := ask (TTerminate st EOF).
Definition StreamConn_Error (st : nat) (err : string) : prog unit := ask (TTerminate st err).

(** The body that [Unmarshal] gets, or the error. *)
Definition Recv (st : nat) (ctx : string) : prog (result string bytes) :=
  r ← ask (TTryRecv st);
  match r with
  | Some body => mret (Ok body)
  | None =>
      c ← ask (TSelectRecv st);
      match c with
      | GotFrame body => mret (Ok body)
      | Terminated =>
          r ← ask (TTryRecv st);
          match r with
          | Some body => mret (Ok body)
          | None => e ← ask (TTermErr st); mret (Err e)
          end
      | CtxDone => mret (Err ctx)
      end
  end.

(** ** [tcp_client.go] *)

Fixpoint for_each {A} (l : list A) (body : A -> prog unit) : prog unit :=
  match l with
  | [] => mret tt
  | x :: l => _ ← body x; for_each l body
  end.

Definition shutdown (err : string) : prog unit :=
  swapped ← ask TCompareAndSwap;
  if negb swapped then mret tt
  else
    _ ← ask TConnClose;
    ks ← ask TRange;
    _ ← for_each ks (fun key =>
      v ← ask (TVisit key);
      match v with
      | Some future => _ ← Future_Done future [] (Some err); ask (TDelete key)
      | None => mret tt
      end);
    ks ← ask TsRange;
    for_each ks (fun key =>
      v ← ask (TsVisit key);
      match v with
      | Some st => _ ← StreamConn_Error st err; ask (TsDelete key)
      | None => mret tt
      end).

Definition Close : prog unit := shutdown "connection closed".

Definition SendAsyncWithCodec (msg : Message) : prog (result string nat) :=
  closed ← ask TClosed;
  if (closed : bool) then mret (Err "connection closed")
  else
    seq ← ask TNextSeq;
    match m_Header msg with
    | None => panic "nil pointer dereference"
    | Some h =>
        future ← ask TNewFuture;
        _ ← ask (TStore seq future);
        closed ← ask TClosed;
        v ← if (closed : bool) then ask (TLoadAndDelete seq) else mret None;
        match v with
        | Some _ => mret (Err "connection closed")
        | None =>
            err ← ask (TWrite (mkMessage (Some (set_RequestID seq h)) (m_Body msg)));
            match err with
            | Some e => _ ← ask (TDelete seq); _ ← shutdown e; mret (Err e)
            | None => mret (Ok future)
            end
        end
    end.

Definition SendStream (msg : Message) : prog (result string nat) :=
  closed ← ask TClosed;
  if (closed : bool) then mret (Err "connection closed")
  else
    seq ← ask TNextSeq;
    match m_Header msg with
    | None => panic "nil pointer dereference"
    | Some h =>
        stream ← ask TNewStream;
        _ ← ask (TsStore seq stream);
        closed ← ask TClosed;
        v ← if (closed : bool) then ask (TsLoadAndDelete seq) else mret None;
        match v with
        | Some _ => mret (Err "connection closed")
        | None =>
            err ← ask (TWrite (mkMessage (Some (set_RequestID seq h)) (m_Body msg)));
            match err with
            | Some e => _ ← ask (TsDelete seq); _ ← shutdown e; mret (Err e)
            | None => mret (Ok stream)
            end
        end
    end.

(** One round of [readLoop]; [false] when it returns. *)
Definition readLoop_round : prog bool :=
  r ← ask TRead;
  match r with
  | Err e => _ ← shutdown e; mret false
  | Ok (h, body) =>
      let seq := RequestID h in
      if StreamFlag h =? StreamData then
        v ← ask (TsLoad seq);
        _ ← match v with Some st => Push st body | None => mret tt end;
        mret true
      else if StreamFlag h =? StreamEnd then
        v ← ask (TsLoadAndDelete seq);
        _ ← match v with Some st => End_ st | None => mret tt end;
        mret true
      else if StreamFlag h =? StreamError then
        v ← ask (TsLoadAndDelete seq);
        _ ← match v with Some st => StreamConn_Error st (Error h) | None => mret tt end;
        mret true
      else
        v ← ask (TLoadAndDelete seq);
        match v with
        | None => mret true
        | Some future =>
            _ ← (if decide (Error h <> "") then Future_Done future [] (Some (Error h)) else Future_Done future body None);
            mret true
        end
  end.
