(* ===== verification/RpcClientProof.v ===== *)
(** * The RPC client's connection: every call is answered

    The goroutines of one [TCPClient] interleave: senders, its read loop, those that
    close it or time a call out, and those that wait.  Every future that was handed out
    completes once, with the response to its own request or with an error, and none is
    left over when the client is closed. *)
From S2P Require Import Prelude GoProg RpcProtocol RpcClient.

(** ** The system *)

(** Beside the client's fields and the stores of futures and streams, two histories:
    what was stored in [pending], and the messages that were read. *)
Record env := mkEnv {
  e_seq : Z;
  e_closed : bool;
  e_pending : gmap Z nat;
  e_streams : gmap Z nat;
  e_futures : list Future;
  e_sconns : list ClientStreamConn;
  e_hist : gmap Z nat;
  e_read : list received;
  e_calls : list (nat * option string)
}.

Definition set_futures (l : list Future) (E : env) : env :=
  mkEnv (e_seq E) (e_closed E) (e_pending E) (e_streams E) l (e_sconns E) (e_hist E) (e_read E) (e_calls E).
Definition set_pending (m h : gmap Z nat) (E : env) : env :=
  mkEnv (e_seq E) (e_closed E) m (e_streams E) (e_futures E) (e_sconns E) h (e_read E) (e_calls E).
Definition set_seq (n : Z) (E : env) : env :=
  mkEnv n (e_closed E) (e_pending E) (e_streams E) (e_futures E) (e_sconns E) (e_hist E) (e_read E) (e_calls E).
Definition set_closed (E : env) : env :=
  mkEnv (e_seq E) true (e_pending E) (e_streams E) (e_futures E) (e_sconns E) (e_hist E) (e_read E) (e_calls E).
Definition set_streams (m : gmap Z nat) (l : list ClientStreamConn) (E : env) : env :=
  mkEnv (e_seq E) (e_closed E) (e_pending E) m (e_futures E) l (e_hist E) (e_read E) (e_calls E).
Definition log_read (msg : received) (E : env) : env :=
  mkEnv (e_seq E) (e_closed E) (e_pending E) (e_streams E) (e_futures E) (e_sconns E) (e_hist E) (e_read E ++ [msg]) (e_calls E).
Definition log_call (fn : nat) (err : option string) (E : env) : env :=
  mkEnv (e_seq E) (e_closed E) (e_pending E) (e_streams E) (e_futures E) (e_sconns E) (e_hist E) (e_read E) (e_calls E ++ [(fn, err)]).

Definition complete_with (res : bytes) (err : option string) (F : Future) : Future :=
  mkFuture res err true (f_onComplete F) (f_done F).
Definition close_done (F : Future) : Future :=
  mkFuture (f_res F) (f_err F) (f_complete F) (f_onComplete F) true.
Definition register_callback (fn : nat) (F : Future) : Future :=
  mkFuture (f_res F) (f_err F) (f_complete F) (Some fn) (f_done F).

Definition set_stream (st : nat) (S : ClientStreamConn) (E : env) : env :=
  set_streams (e_streams E) (<[st := S]> (e_sconns E)) E.

(** What a call may answer, and what it leaves.  [Range] calls its function for every
    key that is there when it starts, and may do so for others; it may pass a value
    that has been deleted meanwhile. *)
Definition does (E : env) {R} (c : tcall R) : R -> env -> Prop :=
  match c in tcall R return R -> env -> Prop with
  | TComplete f res err => fun x E' => exists F, e_futures E !! f = Some F /\
      if f_complete F then x = None /\ E' = E
      else x = Some (f_onComplete F) /\ E' = set_futures (<[f := complete_with res err F]> (e_futures E)) E
  | TCallback fn err => fun _ E' => E' = log_call fn err E
  | TCloseDone f => fun _ E' => exists F, e_futures E !! f = Some F /\ f_done F = false /\
      E' = set_futures (<[f := close_done F]> (e_futures E)) E
  | TRegister f fn => fun x E' => exists F, e_futures E !! f = Some F /\
      if f_complete F then x = Some (f_err F) /\ E' = E
      else x = None /\ E' = set_futures (<[f := register_callback fn F]> (e_futures E)) E
  | TAwait f => fun _ E' => E' = E /\ exists F, e_futures E !! f = Some F /\ f_done F = true
  | TSelect f => fun x E' => E' = E /\ exists F, e_futures E !! f = Some F /\ (x = true -> f_done F = true)
  | TResult f => fun x E' => E' = E /\ exists F, e_futures E !! f = Some F /\ x = (f_res F, f_err F)
  | TClosed => fun x E' => E' = E /\ x = e_closed E
  | TNextSeq => fun x E' => e_seq E + 1 < 18446744073709551616 /\ x = u64 (e_seq E + 1) /\ E' = set_seq x E
  | TNewFuture => fun x E' => x = length (e_futures E) /\ E' = set_futures (e_futures E ++ [NewFuture]) E
  | TStore seq f => fun _ E' => E' = set_pending (<[seq := f]> (e_pending E)) (<[seq := f]> (e_hist E)) E
  | TLoadAndDelete seq => fun x E' => x = e_pending E !! seq /\ E' = set_pending (delete seq (e_pending E)) (e_hist E) E
  | TDelete seq => fun _ E' => E' = set_pending (delete seq (e_pending E)) (e_hist E) E
  | TWrite _ => fun _ E' => E' = E
  | TRead => fun x E' => E' = match x with Ok msg => log_read msg E | Err _ => E end
  | TCompareAndSwap => fun x E' => x = negb (e_closed E) /\ E' = set_closed E
  | TConnClose => fun _ E' => E' = E
  | TRange => fun ks E' => E' = E /\ forall q, is_Some (e_pending E !! q) -> q ∈ ks
  | TVisit seq => fun x E' => E' = E /\ (x = e_pending E !! seq \/ x = e_hist E !! seq)
  | TNewStream => fun x E' => x = length (e_sconns E) /\
      E' = set_streams (e_streams E) (e_sconns E ++ [NewClientStreamConn]) E
  | TsStore seq st => fun _ E' => E' = set_streams (<[seq := st]> (e_streams E)) (e_sconns E) E
  | TsLoad seq => fun x E' => x = e_streams E !! seq /\ E' = E
  | TsLoadAndDelete seq => fun x E' => x = e_streams E !! seq /\ E' = set_streams (delete seq (e_streams E)) (e_sconns E) E
  | TsDelete seq => fun _ E' => E' = set_streams (delete seq (e_streams E)) (e_sconns E) E
  | TsRange => fun ks E' => E' = E /\ forall q, is_Some (e_streams E !! q) -> q ∈ ks
  | TsVisit seq => fun x E' => E' = E /\ (x = e_streams E !! seq \/ e_streams E !! seq = None)
  | TPush st body => fun _ E' => exists S, e_sconns E !! st = Some S /\
      ((zlen (sc_ch S) < stream_capacity /\
        E' = set_stream st (mkStream (sc_ch S ++ [body]) (sc_term S) (sc_cancelled S)) E) \/
       ((is_Some (sc_term S) \/ sc_cancelled S = true) /\ E' = E))
  | TTerminate st err => fun _ E' => exists S, e_sconns E !! st = Some S /\
      E' = set_stream st (mkStream (sc_ch S) (Some (default err (sc_term S))) (sc_cancelled S)) E
  | TTryRecv st => fun x E' => exists S, e_sconns E !! st = Some S /\ x = head (sc_ch S) /\
      E' = set_stream st (mkStream (tail (sc_ch S)) (sc_term S) (sc_cancelled S)) E
  | TSelectRecv st => fun x E' => exists S, e_sconns E !! st = Some S /\
      match x with
      | GotFrame body => exists rest, sc_ch S = body :: rest /\
          E' = set_stream st (mkStream rest (sc_term S) (sc_cancelled S)) E
      | Terminated => is_Some (sc_term S) /\ E' = E
      | CtxDone => sc_cancelled S = true /\ E' = E
      end
  | TTermErr st => fun x E' => E' = E /\ exists S, e_sconns E !! st = Some S /\ sc_term S = Some x
  | TPanic _ => fun _ _ => False
  end.

(** What a goroutine returns. *)
Inductive returned :=
  | Sent (r : result string nat)
  | Streamed (r : result string nat)
  | Round (again : bool)
  | Waited (f : nat) (r : bytes * option string)
  | Received (r : result string bytes)
  | Nothing.

(** Where a goroutine is.  Number [q] and future [f] belong to a sender; [PHold] and
    [PSweep] are on the way to [Done] of [f], of the keys [ks] that are left. *)
Inductive phase :=
  | PIdle
  | PSeq (q : Z)
  | PMade (q : Z) (f : nat)
  | PStored (q : Z) (f : nat)
  | PSent (q : Z) (f : nat)
  | PRead (msg : received)
  | PHold (q : Z) (f : nat) (msg : option received) (ks : list Z)
  | PClose (f : nat) (next : phase)
  | PDel (q : Z) (f : nat) (ks : list Z)
  | PSweepAll
  | PSweep (ks : list Z)
  | PWoke (f : nat)
  | PGot (f : nat) (r : bytes * option string).

Definition next_phase {R} (c : tcall R) : R -> phase -> phase :=
  match c in tcall R return R -> phase -> phase with
  | TComplete f _ _ => fun x p =>
      let after := match p with PHold q f _ ks => PDel q f ks | _ => p end in
      match x with None => after | Some _ => PClose f after end
  | TCloseDone _ => fun _ p => match p with PClose _ p => p | _ => p end
  | TAwait f => fun _ _ => PWoke f
  | TResult f => fun x _ => PGot f x
  | TClosed => fun x p => match p with PStored q f => if x then p else PSent q f | _ => p end
  | TNextSeq => fun x _ => PSeq x
  | TNewFuture => fun x p => match p with PSeq q => PMade q x | _ => p end
  | TStore _ _ => fun _ p => match p with PMade q f => PStored q f | _ => p end
  | TLoadAndDelete q => fun x p =>
      match p, x with
      | PStored q f, None => PSent q f
      | PStored _ _, Some _ => PIdle
      | PRead msg, Some f => PHold q f (Some msg) []
      | _, _ => PIdle
      end
  | TDelete _ => fun _ p => match p with PDel _ _ ks => PSweep ks | _ => PIdle end
  | TRead => fun x _ => match x with Ok msg => PRead msg | Err _ => PIdle end
  | TCompareAndSwap => fun x p => if x then PSweepAll else p
  | TRange => fun ks _ => PSweep ks
  | TVisit q => fun x p =>
      match p with
      | PSweep (_ :: ks) => match x with Some f => PHold q f None ks | None => PSweep ks end
      | _ => p
      end
  | TNewStream => fun _ _ => PIdle
  | _ => fun _ p => p
  end.

Record thread := mkThread { th_phase : phase; th_prog : prog returned }.

Record sys := mkSys { s_env : env; s_threads : list thread }.

Definition send_thread (msg : Message) : prog returned := r ← SendAsyncWithCodec msg; mret (Sent r).
Definition stream_thread (msg : Message) : prog returned := r ← SendStream msg; mret (Streamed r).
Definition read_thread : prog returned := b ← readLoop_round; mret (Round b).
Definition close_thread : prog returned := _ ← Close; mret Nothing.
Definition done_thread (f : nat) (err : string) : prog returned := _ ← Future_Done f [] (Some err); mret Nothing.
Definition callback_thread (f fn : nat) : prog returned := _ ← Future_OnComplete f fn; mret Nothing.
Definition wait_thread (f : nat) : prog returned := r ← Future_Wait f; mret (Waited f r).
Definition recv_thread (st : nat) (ctx : string) : prog returned := r ← Recv st ctx; mret (Received r).

(** The goroutines that may be started: [done_thread] is what times a call out. *)
Inductive starts : prog returned -> Prop :=
  | starts_send msg : starts (send_thread msg)
  | starts_stream msg : starts (stream_thread msg)
  | starts_close : starts close_thread
  | starts_done f err : starts (done_thread f err)
  | starts_callback f fn : starts (callback_thread f fn)
  | starts_wait f : starts (wait_thread f)
  | starts_recv st ctx : starts (recv_thread st ctx).

Inductive step : sys -> sys -> Prop :=
  | step_start E T p : starts p -> step (mkSys E T) (mkSys E (T ++ [mkThread PIdle p]))
  | step_cancel E T st S : e_sconns E !! st = Some S ->
      step (mkSys E T) (mkSys (set_stream st (mkStream (sc_ch S) (sc_term S) true) E) T)
  | step_again E T i th : T !! i = Some th -> th_prog th = Done (Round true) ->
      step (mkSys E T) (mkSys E (<[i := mkThread PIdle read_thread]> T))
  | step_call E T i th R (c : tcall R) k x E' : T !! i = Some th -> th_prog th = Call c k ->
      does E c x E' ->
      step (mkSys E T) (mkSys E' (<[i := mkThread (next_phase c x (th_phase th)) (k x)]> T)).

(** [newTCPClient] starts the read loop. *)
Definition initial : sys := mkSys (mkEnv 0 false ∅ ∅ [] [] ∅ [] []) [mkThread PIdle read_thread].

Definition reachable (s : sys) : Prop := rtc step initial s.

(** ** What a goroutine keeps to *)

(** The result that a message, or the end of the connection, gives a future. *)
Definition answers (msg : option received) (res : bytes) (err : option string) : Prop :=
  match msg with
  | Some (h, body) => err = None -> res = body /\ Error h = ""
  | None => err <> None
  end.

Definition pre (ph : phase) {R} (c : tcall R) : Prop :=
  match c with
  | TComplete f res err => (exists q msg ks, ph = PHold q f msg ks /\ answers msg res err) \/ (ph = PIdle /\ err <> None)
  | TCloseDone f => exists p, ph = PClose f p
  | TAwait _ | TSelect _ | TNextSeq | TRead | TCompareAndSwap | TSelectRecv _ => ph = PIdle
  | TPush _ _ => exists msg, ph = PRead msg
  | TResult f => ph = PWoke f
  | TClosed => ph = PIdle \/ exists q f, ph = PStored q f
  | TNewFuture => exists q, ph = PSeq q
  | TStore q f => ph = PMade q f
  | TLoadAndDelete q => (exists f, ph = PStored q f) \/ exists msg, ph = PRead msg /\ RequestID msg.1 = q
  | TDelete q => (exists f, ph = PSent q f) \/ exists f ks, ph = PDel q f ks
  | TRange => ph = PSweepAll
  | TVisit q => exists ks, ph = PSweep (q :: ks)
  | TNewStream => exists q, ph = PSeq q
  | _ => True
  end.

Fixpoint keeps {A} (Q : phase -> A -> Prop) (ph : phase) (m : prog A) : Prop :=
  match m with
  | Done a => Q ph a
  | Call c k => pre ph c /\ forall x, keeps Q (next_phase c x ph) (k x)
  end.

Lemma keeps_then {A A'} (Q : phase -> A -> Prop) (Q' : phase -> A' -> Prop) ph (m : prog A) (f : A -> prog A') :
  keeps Q ph m -> (forall ph a, Q ph a -> keeps Q' ph (f a)) -> keeps Q' ph (m ≫= f).
Proof.
  intros Hm Hf. revert ph Hm. induction m as [a | R c k IH]; intros ph Hm; [by apply Hf |].
  destruct Hm as [Hp Hk]. split; [done |]. intros x. by apply IH.
Qed.

Lemma keeps_weaken {A} (Q Q' : phase -> A -> Prop) ph (m : prog A) :
  keeps Q ph m -> (forall ph a, Q ph a -> Q' ph a) -> keeps Q' ph m.
Proof.
  intros Hm HQ. revert ph Hm. induction m as [a | R c k IH]; intros ph Hm; [by apply HQ |].
  destruct Hm as [Hp Hk]. split; [done |]. intros x. by apply IH.
Qed.

(** Nothing is left to do for any future. *)
Definition settled (ph : phase) : Prop :=
  match ph with
  | PIdle | PSeq _ | PSent _ _ | PRead _ | PWoke _ | PGot _ _ => True
  | PDel _ _ ks | PSweep ks => ks = []
  | _ => False
  end.

Definition ends (ph : phase) (r : returned) : Prop :=
  settled ph /\
  match r with
  | Sent (Ok f) => exists q, ph = PSent q f
  | Waited f r => ph = PGot f r
  | _ => True
  end.

Lemma Done_keeps q f msg ks res err : answers msg res err ->
  keeps (fun ph _ => ph = PDel q f ks) (PHold q f msg ks) (Future_Done f res err).
Proof.
  intros Ha. split; [left; eauto 6 |]. intros [[fn |] |]; simpl; [| | done].
  - split; [done |]. intros _. split; [by eexists | done].
  - split; [by eexists | done].
Qed.

#[local] Arguments Future_Done : simpl never.
#[local] Arguments shutdown : simpl never.

Lemma streams_keep ph ks err :
  keeps (fun ph' _ => ph' = ph) ph
    (for_each ks (fun key =>
      v ← ask (TsVisit key);
      match v with
      | Some st => _ ← StreamConn_Error st err; ask (TsDelete key)
      | None => mret tt
      end)).
Proof. induction ks as [| k ks IH]; simpl; [done |]. split; [done |]. intros [st |]; simpl; auto. Qed.

(** What [shutdown] does for a key of [pending]. *)
Definition sweep_one (err : string) (key : Z) : prog unit :=
  v ← ask (TVisit key);
  match v with
  | Some future => _ ← Future_Done future [] (Some err); ask (TDelete key)
  | None => mret tt
  end.

Lemma sweep_one_keeps k ks err : keeps (fun ph _ => ph = PSweep ks) (PSweep (k :: ks)) (sweep_one err k).
Proof.
  split; [simpl; eauto |]. intros [f |]; [| done].
  apply (keeps_then (fun ph _ => ph = PDel k f ks) _ _ (Future_Done f [] (Some err)) (fun _ => ask (TDelete k))).
  - by apply Done_keeps.
  - intros ph a ->. split; [simpl; eauto | done].
Qed.

Lemma sweep_keeps ks err : keeps (fun ph _ => ph = PSweep []) (PSweep ks) (for_each ks (sweep_one err)).
Proof.
  induction ks as [| k ks IH]; [done |].
  apply (keeps_then (fun ph _ => ph = PSweep ks) _ _ (sweep_one err k) (fun _ => for_each ks (sweep_one err))).
  - apply sweep_one_keeps.
  - by intros ph _ ->.
Qed.

Lemma shutdown_keeps err : keeps (fun ph _ => ph = PIdle \/ ph = PSweep []) PIdle (shutdown err).
Proof.
  split; [done |]. intros [|]; simpl; [| by left]. split; [done |]. intros []. split; [done |]. intros ks.
  eapply keeps_then; [apply sweep_keeps |]. intros ph _ ->. split; [done |]. intros ks'.
  eapply keeps_weaken; [apply streams_keep |]. simpl. auto.
Qed.

Lemma send_keeps msg : keeps ends PIdle (send_thread msg).
Proof.
  eapply (keeps_then (fun ph r => ends ph (Sent r))); [| done].
  split; [by left |]. intros [|]; [done |]. split; [done |]. intros q. simpl.
  destruct (m_Header msg) as [h |]; [| by split]. split; [simpl; eauto |]. intros f. split; [done |]. intros []. split; [simpl; eauto |].
  assert (forall (c : option nat), keeps (fun ph r => ends ph (Sent r)) (match c with Some _ => PIdle | None => PSent q f end)
    (match c with
     | Some _ => mret (Err "connection closed")
     | None =>
         err ← ask (TWrite (mkMessage (Some (set_RequestID q h)) (m_Body msg)));
         match err with
         | Some e => _ ← ask (TDelete q); _ ← shutdown e; mret (Err e)
         | None => mret (Ok f)
         end
     end)) as Hrest.
  { intros [g |]; [done |]. split; [done |]. intros [e |]; [| by split; [| exists q]]. split; [simpl; eauto |]. intros [].
    eapply keeps_then; [apply shutdown_keeps |]. by intros ph _ [-> | ->]. }
  intros [|]; [| by apply (Hrest None)]. split; [simpl; eauto |]. intros c. specialize (Hrest c). by destruct c.
Qed.

Lemma stream_keeps msg : keeps ends PIdle (stream_thread msg).
Proof.
  eapply (keeps_then (fun ph _ => settled ph)); [| done].
  split; [by left |]. intros [|]; [done |]. split; [done |]. intros q. simpl.
  destruct (m_Header msg) as [h |]; [| by split]. split; [simpl; eauto |]. intros st. split; [done |]. intros []. split; [by left |].
  assert (keeps (fun ph (_ : result string nat) => settled ph) PIdle
    (err ← ask (TWrite (mkMessage (Some (set_RequestID q h)) (m_Body msg)));
     match err with
     | Some e => _ ← ask (TsDelete q); _ ← shutdown e; mret (Err e)
     | None => mret (Ok st)
     end)) as Hrest.
  { split; [done |]. intros [e |]; [| done]. split; [done |]. intros [].
    eapply keeps_then; [apply shutdown_keeps |]. by intros ph _ [-> | ->]. }
  intros [|]; [| done]. split; [done |]. by intros [c |].
Qed.

Lemma read_keeps : keeps ends PIdle read_thread.
Proof.
  eapply (keeps_then (fun ph _ => settled ph)); [| done]. split; [done |]. intros [[h body] | e]; [simpl |].
  - repeat (case_match; [split; [done |]; intros [st |]; [split; [simpl; eauto |] |]; done |]).
    split; [right; by exists (h, body) |]. intros [f |]; [| done]. eapply keeps_then; [| intros ph a Hs; exact Hs].
    destruct (decide (Error h <> "")) as [Hne | He]; (eapply keeps_weaken; [apply Done_keeps | by intros ph _ ->]); simpl; [done |].
    intros []. split; [done |]. by apply dec_stable.
  - apply (keeps_then (fun ph _ => ph = PIdle \/ ph = PSweep []) _ _ (shutdown e) (fun _ => mret false)).
    + apply shutdown_keeps.
    + by intros ph _ [-> | ->].
Qed.

Lemma starts_keep p : starts p -> keeps ends PIdle p.
Proof.
  intros [msg | msg | | f err | f fn | f | st ctx]; [apply send_keeps | apply stream_keeps | ..].
  - eapply keeps_then; [apply shutdown_keeps |]. by intros ph _ [-> | ->].
  - split; [by right |]. intros [[fn |] |]; simpl; [| | done].
    + split; [done |]. intros []. split; [by eexists | done].
    + split; [by eexists | done].
  - split; [done |]. by intros [err |].
  - split; [done |]. intros []. by split.
  - split; [done |]. intros [b |]; [done |]. split; [done |]. intros [b | |]; [done | | done]. split; [done |].
    by intros [b |].
Qed.

(** ** The invariant *)

Inductive token := TokQ (q : Z) | TokF (f : nat) | TokC (f : nat).

(** What only one goroutine has: the numbers and futures it is sending, and the futures
    whose channel it is about to close. *)
Fixpoint tokens (ph : phase) : list token :=
  match ph with
  | PSeq q => [TokQ q]
  | PMade q f | PStored q f | PSent q f => [TokQ q; TokF f]
  | PClose f p => TokC f :: tokens p
  | _ => []
  end.

Definition holds (f : nat) (ph : phase) : Prop := match ph with PHold _ g _ _ => g = f | _ => False end.

(** The keys that [shutdown] has yet to visit. *)
Fixpoint covers (q : Z) (ph : phase) : Prop :=
  match ph with
  | PSweepAll => True
  | PSweep ks | PHold _ _ _ ks | PDel _ _ ks => q ∈ ks
  | PClose _ p => covers q p
  | _ => False
  end.

Definition completed (E : env) (f : nat) : Prop := exists F, e_futures E !! f = Some F /\ f_complete F = true.

Fixpoint phase_ok (E : env) (ph : phase) : Prop :=
  match ph with
  | PSeq q => 0 < q <= e_seq E /\ e_hist E !! q = None
  | PMade q f => 0 < q <= e_seq E /\ e_hist E !! q = None /\ (f < length (e_futures E))%nat /\ forall q', e_hist E !! q' <> Some f
  | PStored q f | PSent q f => e_hist E !! q = Some f
  | PRead msg => msg ∈ e_read E
  | PHold q f msg _ => e_hist E !! q = Some f /\
      match msg with Some m => m ∈ e_read E /\ RequestID m.1 = q | None => True end
  | PClose f p => (exists F, e_futures E !! f = Some F /\ f_complete F = true /\ f_done F = false) /\ phase_ok E p /\
      match p with PIdle | PDel _ _ _ => True | _ => False end
  | PDel q f _ => e_hist E !! q = Some f /\ completed E f
  | PWoke f => completed E f
  | PGot f r => exists F, e_futures E !! f = Some F /\ f_complete F = true /\ r = (f_res F, f_err F)
  | _ => True
  end.

(** The future of request [q] will complete: it has, or somebody is about to, or it is
    pending, and then the client is open, or [shutdown] will come to it, or its sender
    has yet to look whether the client is closed. *)
Definition good (E : env) (T : list thread) (q : Z) (f : nat) : Prop :=
  completed E f \/ (exists th, th ∈ T /\ holds f (th_phase th)) \/
  (e_pending E !! q = Some f /\
   (e_closed E = false \/ (exists th, th ∈ T /\ covers q (th_phase th)) \/
    exists th, th ∈ T /\ th_phase th = PStored q f)).

(** The result of a future without error is the body of a response to its request. *)
Definition response_of (E : env) (f : nat) (res : bytes) : Prop :=
  exists q h, e_hist E !! q = Some f /\ (h, res) ∈ e_read E /\ RequestID h = q /\ Error h = "".

Record env_ok (E : env) : Prop := {
  eo_seq : 0 <= e_seq E < 18446744073709551616;
  eo_pending q f : e_pending E !! q = Some f -> e_hist E !! q = Some f;
  eo_hist q f : e_hist E !! q = Some f -> 0 < q <= e_seq E /\ (f < length (e_futures E))%nat;
  eo_inj q q' f : e_hist E !! q = Some f -> e_hist E !! q' = Some f -> q = q';
  eo_done f F : e_futures E !! f = Some F -> f_done F = true -> f_complete F = true;
  eo_result f F : e_futures E !! f = Some F -> f_complete F = true -> f_err F = None -> response_of E f (f_res F)
}.

Record inv (s : sys) : Prop := {
  i_env : env_ok (s_env s);
  i_threads th : th ∈ s_threads s -> phase_ok (s_env s) (th_phase th) /\ keeps ends (th_phase th) (th_prog th);
  i_tokens i j th th' t : s_threads s !! i = Some th -> s_threads s !! j = Some th' -> i <> j ->
    t ∈ tokens (th_phase th) -> t ∉ tokens (th_phase th');
  i_closing f F : e_futures (s_env s) !! f = Some F -> f_complete F = true ->
    f_done F = true \/ exists th, th ∈ s_threads s /\ TokC f ∈ tokens (th_phase th);
  i_good th q f : th ∈ s_threads s -> th_phase th = PStored q f \/ th_phase th = PSent q f ->
    good (s_env s) (s_threads s) q f
}.

(** ** One call *)

(** What a call of a goroutine at [ph] leaves to the others. *)
Record respects (ph : phase) (E E' : env) : Prop := {
  re_seq : e_seq E <= e_seq E';
  re_hist q f : e_hist E !! q = Some f -> e_hist E' !! q = Some f;
  re_hist_new q f : e_hist E' !! q = Some f -> e_hist E !! q = Some f \/ (TokQ q ∈ tokens ph /\ TokF f ∈ tokens ph);
  re_read m : m ∈ e_read E -> m ∈ e_read E';
  re_futures f F : e_futures E !! f = Some F -> exists F', e_futures E' !! f = Some F' /\
    (f_complete F = true -> f_complete F' = true /\ f_res F' = f_res F /\ f_err F' = f_err F) /\
    (f_done F' = true -> f_done F = true \/ TokC f ∈ tokens ph)
}.

(** And what becomes of futures that are on their way. *)
Record moves (ph : phase) (E : env) (ph' : phase) (E' : env) : Prop := {
  mv_respects : respects ph E E';
  mv_tokens t : t ∈ tokens ph' -> t ∈ tokens ph \/
    match t with
    | TokQ q => e_seq E < q
    | TokF f => (length (e_futures E) <= f)%nat
    | TokC f => exists F, e_futures E !! f = Some F /\ f_complete F = false
    end;
  mv_holds f : holds f ph -> completed E' f \/ holds f ph';
  mv_pending q f : e_pending E !! q = Some f ->
    e_pending E' !! q = Some f \/ completed E' f \/ holds f ph' \/ (TokQ q ∈ tokens ph /\ TokQ q ∉ tokens ph');
  mv_covers q f : covers q ph -> e_pending E !! q = Some f -> covers q ph' \/ completed E' f \/ holds f ph';
  mv_closed q : e_closed E = false -> e_closed E' = false \/ covers q ph';
  mv_stored q f : ph = PStored q f -> e_pending E !! q = Some f ->
    ph' = PStored q f \/ TokQ q ∉ tokens ph' \/ e_closed E' = false;
  mv_sent q f : ph' = PStored q f \/ ph' = PSent q f ->
    ph = PStored q f \/ ph = PSent q f \/ (ph' = PStored q f /\ e_pending E' !! q = Some f);
  mv_closing f : TokC f ∈ tokens ph -> TokC f ∈ tokens ph' \/ exists F, e_futures E' !! f = Some F /\ f_done F = true;
  mv_complete f F' : e_futures E' !! f = Some F' -> f_complete F' = true ->
    (exists F, e_futures E !! f = Some F /\ f_complete F = true /\ (f_done F = true -> f_done F' = true)) \/ TokC f ∈ tokens ph'
}.

Lemma completed_mono ph E E' f : respects ph E E' -> completed E f -> completed E' f.
Proof. intros Hr (F & HF & Hc). destruct (re_futures _ _ _ Hr f F HF) as (F' & HF' & Hs & _). exists F'. naive_solver. Qed.

Lemma respects_length ph E E' f : respects ph E E' -> (f < length (e_futures E))%nat -> (f < length (e_futures E'))%nat.
Proof.
  intros Hr Hf. destruct (lookup_lt_is_Some_2 _ _ Hf) as [F HF]. destruct (re_futures _ _ _ Hr f F HF) as (F' & HF' & _).
  by eapply lookup_lt_Some.
Qed.

(** What a goroutine knows stays true whatever the others do. *)
Lemma phase_ok_stable ph E E' ph2 : respects ph E E' -> (forall t, t ∈ tokens ph -> t ∉ tokens ph2) ->
  phase_ok E ph2 -> phase_ok E' ph2.
Proof.
  intros Hr. pose proof (re_seq _ _ _ Hr) as Hs. pose proof (re_hist _ _ _ Hr) as Hh. pose proof (re_hist_new _ _ _ Hr) as Hn.
  assert (forall q, TokQ q ∉ tokens ph -> e_hist E !! q = None -> e_hist E' !! q = None) as Hnone.
  { intros q Hq He. destruct (e_hist E' !! q) as [f |] eqn:E1; [| done]. apply Hn in E1. naive_solver. }
  induction ph2 as [| q | q f | q f | q f | msg | q f msg ks | f p IH | q f ks | | ks | f | f r]; simpl; intros Hd Hok; auto.
  - destruct Hok as [Hq He]. split; [lia |]. apply Hnone; [| done]. intros Ht. apply (Hd _ Ht). by left.
  - destruct Hok as (Hq & He & Hf & Hi). split_and!; [lia | lia | | by eapply respects_length |].
    + apply Hnone; [| done]. intros Ht. apply (Hd _ Ht). by left.
    + intros q' Hq'. apply Hn in Hq' as [Hq' | [_ Ht]]; [by eapply Hi |]. apply (Hd _ Ht). right. by left.
  - by apply (re_read _ _ _ Hr).
  - destruct Hok as [Hq Hm]. split; [auto |]. destruct msg as [m |]; [| done]. destruct Hm. split; [| done]. by apply (re_read _ _ _ Hr).
  - destruct Hok as [(F & HF & Hc & Hdn) [Hp Hafter]]. split; [| split; [| done]].
    + destruct (re_futures _ _ _ Hr f F HF) as (F' & HF' & Hsame & Hdone). exists F'. split; [done |]. split; [by apply Hsame |].
      destruct (f_done F') eqn:Ef; [| done]. destruct (Hdone eq_refl) as [? | Ht]; [congruence |]. exfalso. apply (Hd _ Ht). by left.
    + apply IH; [| done]. intros t Ht Ht'. apply (Hd t Ht). by right.
  - destruct Hok. split; [auto | by eapply completed_mono].
  - by eapply completed_mono.
  - destruct Hok as (F & HF & Hc & ->). destruct (re_futures _ _ _ Hr f F HF) as (F' & HF' & Hsame & _).
    destruct (Hsame Hc) as (Hc' & Hres & Herr). exists F'. split_and!; congruence.
Qed.

Section Preserved.
Context (E E' : env) (T : list thread) (i : nat) (th : thread) (ph' : phase) (p' : prog returned).
Context (Hinv : inv (mkSys E T)) (Hth : T !! i = Some th) (Hmv : moves (th_phase th) E ph' E').

Abbreviation T' := (<[i := mkThread ph' p']> T).

Lemma moved_lookup j th2 : T' !! j = Some th2 -> (j = i /\ th2 = mkThread ph' p') \/ (j <> i /\ T !! j = Some th2).
Proof using Hth.
  destruct (decide (i = j)) as [<- | Hne].
  - rewrite list_lookup_insert_eq by (by eapply lookup_lt_Some). intros [= <-]. by left.
  - rewrite list_lookup_insert_ne by done. right. split; congruence.
Qed.

Lemma moved_elem th2 : th2 ∈ T' -> th2 = mkThread ph' p' \/ exists j, j <> i /\ T !! j = Some th2.
Proof using Hth. intros [j Hj]%list_elem_of_lookup_1. apply moved_lookup in Hj as [[_ ->] | [Hj Hl]]; eauto. Qed.

(** Somebody of whom something held, or the goroutine that has moved. *)
Lemma moved_exists (P : phase -> Prop) : (exists th2, th2 ∈ T /\ P (th_phase th2)) ->
  P (th_phase th) \/ exists th2, th2 ∈ T' /\ P (th_phase th2).
Proof using Hth.
  intros (th2 & [j Hj]%list_elem_of_lookup_1 & HP). destruct (decide (j = i)) as [-> | Hne].
  - left. congruence.
  - right. exists th2. split; [| done]. apply list_elem_of_lookup_2 with j. by rewrite list_lookup_insert_ne.
Qed.

Lemma moved_self : mkThread ph' p' ∈ T'.
Proof using Hth. apply list_elem_of_lookup_2 with i. apply list_lookup_insert_eq. by eapply lookup_lt_Some. Qed.

Lemma good_moved q f : good E T q f -> TokQ q ∉ tokens (th_phase th) \/ TokQ q ∈ tokens ph' -> good E' T' q f.
Proof using Hmv Hth.
  intros Hg Hown. pose proof moved_self as Hself. destruct Hmv as [Hr _ Hh Hp Hcv Hcl Hst _ _ _].
  assert (holds f ph' -> good E' T' q f) as Hhold by (intros; right; left; eauto).
  assert (completed E' f -> good E' T' q f) as Hcomp by (intros; by left).
  destruct Hg as [Hc | [Hg | [Hpe Hg]]].
  - apply Hcomp. by eapply completed_mono.
  - apply (moved_exists (holds f)) in Hg as [Hg | Hg]; [| by right; left]. destruct (Hh f Hg); auto.
  - destruct (Hp q f Hpe) as [Hpe' | [? | [? | [? ?]]]]; auto; [| by destruct Hown].
    assert (forall th2, th2 ∈ T' -> covers q (th_phase th2) -> good E' T' q f) as Hcov by (intros; right; right; eauto 6).
    destruct Hg as [Hg | [Hg | Hg]].
    + destruct (Hcl q Hg) as [? | ?]; [right; right; auto | by apply (Hcov _ Hself)].
    + apply (moved_exists (covers q)) in Hg as [Hg | (th2 & H1 & H2)]; [| by apply (Hcov th2)].
      destruct (Hcv q f Hg Hpe) as [? | [? | ?]]; auto. by apply (Hcov _ Hself).
    + apply (moved_exists (fun p => p = PStored q f)) in Hg as [Hg | Hg]; [| right; right; auto].
      assert (TokQ q ∈ tokens (th_phase th)) by (rewrite Hg; by left).
      destruct (Hst q f Hg Hpe) as [? | [? | ?]]; [| by destruct Hown | right; right; auto].
      right; right. split; [done |]. right; right. by exists (mkThread ph' p').
Qed.

Lemma token_known e ph t : env_ok e -> phase_ok e ph -> t ∈ tokens ph ->
  match t with
  | TokQ q => q <= e_seq e
  | TokF f => (f < length (e_futures e))%nat
  | TokC f => completed e f
  end.
Proof using Type.
  intros He. pose proof (eo_hist _ He) as Hh.
  induction ph as [| q | q f | q f | q f | msg | q f msg ks | f p IH | q f ks | | ks | f | f r]; simpl; intros Hok Ht;
    try by apply elem_of_nil in Ht.
  - apply list_elem_of_singleton in Ht as ->. lia.
  - destruct Hok as (Hq & _ & Hf & _). apply elem_of_cons in Ht as [-> | ->%list_elem_of_singleton]; [lia | done].
  - apply Hh in Hok as [Hq Hf]. apply elem_of_cons in Ht as [-> | ->%list_elem_of_singleton]; [lia | done].
  - apply Hh in Hok as [Hq Hf]. apply elem_of_cons in Ht as [-> | ->%list_elem_of_singleton]; [lia | done].
  - destruct Hok as [(F & HF & Hc & _) [Hp _]]. apply elem_of_cons in Ht as [-> | Ht]; [by exists F | exact (IH Hp Ht)].
Qed.

(** The others' tokens are not the ones a goroutine makes. *)
Lemma moved_tokens j th2 t : T !! j = Some th2 -> j <> i -> t ∈ tokens ph' -> t ∉ tokens (th_phase th2).
Proof using Hinv Hth Hmv.
  intros Hj Hne Ht Ht2. destruct Hinv as [He HT Htk _ _]. simpl in *.
  destruct (HT th2) as [Hok _]; [by eapply list_elem_of_lookup_2 |].
  destruct (mv_tokens _ _ _ _ Hmv t Ht) as [Hold | Hnew]; [by eapply (Htk i j) |].
  pose proof (token_known E _ t He Hok Ht2) as Hk. destruct t as [q | f | f]; [lia | lia |].
  destruct Hnew as (F & HF & Hc), Hk as (F2 & HF2 & Hc2). congruence.
Qed.

Lemma closing_moved f F' : e_futures E' !! f = Some F' -> f_complete F' = true ->
  f_done F' = true \/ exists th2, th2 ∈ T' /\ TokC f ∈ tokens (th_phase th2).
Proof using Hinv Hth Hmv.
  intros HF' Hc'. pose proof moved_self as Hself. destruct (mv_complete _ _ _ _ Hmv f F' HF' Hc') as [(F & HF & Hc & Hd) | Ht].
  - destruct (i_closing _ Hinv f F HF Hc) as [Hdone | Hex]; [auto |].
    apply (moved_exists (fun p => TokC f ∈ tokens p)) in Hex as [Hi | Hex]; [| by right].
    destruct (mv_closing _ _ _ _ Hmv f Hi) as [Ht | (F2 & HF2 & Hd2)]; [right; by eexists | left; congruence].
  - right. by eexists.
Qed.

Lemma inv_moved : env_ok E' -> phase_ok E' ph' -> keeps ends ph' p' -> inv (mkSys E' T').
Proof using Hinv Hth Hmv.
  intros He' Hok' Hk'. pose proof Hinv as [He HT Htk _ Hg]. simpl in *. split; simpl.
  - done.
  - intros th2 [-> | (j & Hne & Hj)]%moved_elem; [done |]. destruct (HT th2) as [Hok Hk]; [by eapply list_elem_of_lookup_2 |].
    split; [| done]. eapply phase_ok_stable; [apply (mv_respects _ _ _ _ Hmv) | | done].
    intros t Ht. eapply (Htk i j); eauto.
  - intros a b tha thb t [[-> ->] | [Ha Hla]]%moved_lookup [[-> ->] | [Hb Hlb]]%moved_lookup Hne; simpl.
    + done.
    + by apply (moved_tokens b).
    + intros Ht Ht'. by apply (moved_tokens a tha t Hla Ha).
    + by apply (Htk a b).
  - apply closing_moved.
  - intros th2 q f [-> | (j & Hne & Hj)]%moved_elem Hph; simpl in *.
    + destruct (mv_sent _ _ _ _ Hmv q f Hph) as [Hp | [Hp | [Hp Hpe]]].
      * apply good_moved; [eapply Hg; [by eapply list_elem_of_lookup_2 | by left] |]. right. destruct Hph as [-> | ->]; by left.
      * apply good_moved; [eapply Hg; [by eapply list_elem_of_lookup_2 | by right] |]. right. destruct Hph as [-> | ->]; by left.
      * right; right. split; [done |]. right; right. exists (mkThread ph' p'). split; [apply moved_self | done].
    + apply good_moved; [eapply Hg; [by eapply list_elem_of_lookup_2 | done] |]. left.
      intros Ht. apply (Htk i j th th2 (TokQ q)) in Ht; [| done | done | done]. apply Ht. destruct Hph as [-> | ->]; by left.
Qed.

End Preserved.

(** *** Calls that change nothing here *)

Record same_core (E E' : env) : Prop := {
  sc_seq : e_seq E' = e_seq E;
  sc_closed : e_closed E' = e_closed E;
  sc_pending : e_pending E' = e_pending E;
  sc_futures : e_futures E' = e_futures E;
  sc_hist : e_hist E' = e_hist E;
  sc_read m : m ∈ e_read E -> m ∈ e_read E'
}.

Lemma same_core_refl E : same_core E E.
Proof. by split. Qed.

Lemma same_respects ph E E' : same_core E E' -> respects ph E E'.
Proof. intros [Hs Hc Hp Hf Hh Hr]. split; rewrite ?Hs, ?Hh, ?Hf; auto; [lia |]. intros f F HF. by exists F; auto. Qed.

Lemma same_env_ok E E' : same_core E E' -> env_ok E -> env_ok E'.
Proof.
  intros [Hs Hc Hp Hf Hh Hr] [a b c d e g]. split; rewrite ?Hs, ?Hp, ?Hh, ?Hf; auto.
  intros f F HF Hco Her. destruct (g f F HF Hco Her) as (q & h & H1 & H2 & H3 & H4). exists q, h. rewrite Hh. auto.
Qed.

(** Where a goroutine may go with its hands empty. *)
Record inert (E : env) (ph ph' : phase) : Prop := {
  in_tokens t : t ∈ tokens ph' -> t ∈ tokens ph;
  in_holds f : holds f ph -> completed E f \/ holds f ph';
  in_covers q f : covers q ph -> e_pending E !! q = Some f -> covers q ph' \/ completed E f \/ holds f ph';
  in_stored q f : ph = PStored q f -> e_pending E !! q = Some f -> ph' = PStored q f \/ e_closed E = false;
  in_sent q f : ph' = PStored q f \/ ph' = PSent q f -> ph = PStored q f \/ ph = PSent q f;
  in_closing f : TokC f ∈ tokens ph -> TokC f ∈ tokens ph'
}.

Lemma inert_refl E ph : inert E ph ph.
Proof. split; auto. Qed.

Lemma inert_idle E ph' : tokens ph' = [] -> inert E PIdle ph'.
Proof.
  intros Ht. split; simpl; try done.
  - by rewrite Ht.
  - intros q f [-> | ->]; discriminate Ht.
  - intros f []%elem_of_nil.
Qed.

Lemma inert_moves ph ph' E E' : same_core E E' -> inert E ph ph' -> moves ph E ph' E'.
Proof.
  intros Hs [Ht Hh Hc Hst Hse Hcl]. pose proof Hs as [H1 H2 H3 H4 H5 H6].
  assert (forall f, completed E f -> completed E' f) as Hco by (intros f (F & HF & ?); exists F; by rewrite H4).
  split; rewrite ?H2, ?H3, ?H4; auto.
  - by apply same_respects.
  - intros f Hf. destruct (Hh f Hf); auto.
  - intros q f Hq Hp. destruct (Hc q f Hq Hp) as [? | [? | ?]]; auto.
  - intros q f Hq Hp. destruct (Hst q f Hq Hp) as [? | ?]; auto.
  - intros q f Hq. destruct (Hse q f Hq); auto.
  - intros f F HF Hc'. left. by exists F.
Qed.

(** *** Calls on futures *)

Section Update.
Context (E : env) (ph : phase) (f : nat) (F F' : Future) (HF : e_futures E !! f = Some F).
Context (Hkeep : f_complete F = true -> f_complete F' = true /\ f_res F' = f_res F /\ f_err F' = f_err F).
Context (Hclose : f_done F' = true -> f_done F = true \/ TokC f ∈ tokens ph).

Abbreviation E' := (set_futures (<[f := F']> (e_futures E)) E).

Lemma upd_lookup g G' : e_futures E' !! g = Some G' -> (g = f /\ G' = F') \/ (g <> f /\ e_futures E !! g = Some G').
Proof using HF.
  simpl. destruct (decide (f = g)) as [<- | Hne].
  - rewrite list_lookup_insert_eq by (by eapply lookup_lt_Some). intros [= <-]. by left.
  - rewrite list_lookup_insert_ne by done. right. split; congruence.
Qed.

Lemma upd_self : e_futures E' !! f = Some F'.
Proof using HF. simpl. apply list_lookup_insert_eq. by eapply lookup_lt_Some. Qed.

Lemma upd_respects : respects ph E E'.
Proof using HF Hkeep Hclose.
  split; simpl; auto; [lia |]. intros g G HG. destruct (decide (f = g)) as [<- | Hne].
  - exists F'. rewrite HF in HG. injection HG as <-. split; [apply upd_self | auto].
  - exists G. rewrite list_lookup_insert_ne by done. auto.
Qed.

Lemma upd_env_ok : env_ok E -> (f_done F' = true -> f_complete F' = true) ->
  (f_complete F' = true -> f_err F' = None -> response_of E f (f_res F')) -> env_ok E'.
Proof using HF.
  intros [a b c d e g] Hd Hr. split; simpl; auto.
  - intros q x Hq. rewrite length_insert. auto.
  - intros x X [[-> ->] | [Hne HX]]%upd_lookup; [done | by eapply e].
  - intros x X [[-> ->] | [Hne HX]]%upd_lookup; [done | by apply g].
Qed.

End Update.

(** What is left to show of a call. *)
Definition fine (ph : phase) (E : env) (ph' : phase) (E' : env) : Prop :=
  moves ph E ph' E' /\ env_ok E' /\ phase_ok E' ph'.

Lemma fine_inert ph ph' E E' : env_ok E -> same_core E E' -> inert E ph ph' -> phase_ok E' ph' -> fine ph E ph' E'.
Proof. intros He Hs Hi Hp. split_and!; [by apply inert_moves | by eapply same_env_ok | done]. Qed.

Lemma complete_fine E ph f res err x E' : env_ok E -> phase_ok E ph -> pre ph (TComplete f res err) ->
  does E (TComplete f res err) x E' -> fine ph E (next_phase (TComplete f res err) x ph) E'.
Proof.
  intros He Hok Hpre (F & HF & Hdo). destruct (f_complete F) eqn:Hc; destruct Hdo as [-> ->].
  - assert (completed E f) as Hco by by exists F.
    destruct Hpre as [(q & msg & ks & -> & Ha) | [-> Herr]]; [| by apply fine_inert; [| apply same_core_refl | apply inert_refl |]].
    apply fine_inert; [done | apply same_core_refl | | by destruct Hok]. split; simpl; try done; [by intros g <-; left | by auto |].
    by intros q' g [? | ?].
  - assert (f_done F = false) as Hd by (destruct (f_done F) eqn:Ed; [| done]; apply (eo_done _ He f) in Ed; congruence).
    set (F' := complete_with res err F). set (E' := set_futures (<[f := F']> (e_futures E)) E).
    assert (e_futures E' !! f = Some F') as HF' by by eapply upd_self.
    assert (respects ph E E') as Hr by (eapply upd_respects; simpl; [done | congruence | rewrite Hd; done]).
    assert (env_ok E') as He'.
    { eapply upd_env_ok; [done | done | done |]. intros _ Herr. simpl in *. subst err.
      destruct Hpre as [(q & [[h body] |] & ks & -> & Ha) | [_ ?]]; [| done | done]. destruct (Ha eq_refl) as [-> Her].
      destruct Hok as [Hq [Hm Hid]]. exists q, h. auto. }
    assert (tokens ph = [] /\ forall q g, ph <> PStored q g) as [Ht Hns] by (destruct Hpre as [(q & msg & ks & -> & _) | [-> _]]; done).
    split_and!; [| done |].
    + split; try done; simpl.
      * intros t Ht'. right. enough (t = TokC f) as -> by by exists F.
        destruct Hpre as [(q & msg & ks & -> & _) | [-> _]]; simpl in Ht'; by apply list_elem_of_singleton in Ht'.
      * intros g Hg. left. destruct Hpre as [(q & msg & ks & -> & _) | [-> _]]; simpl in Hg; [subst g | done]. by exists F'.
      * auto.
      * intros q g Hcv Hp. left. by destruct Hpre as [(q' & msg & ks & -> & _) | [-> _]].
      * auto.
      * intros q g Hq. by apply Hns in Hq.
      * by intros q g [? | ?].
      * rewrite Ht. intros g []%elem_of_nil.
      * intros g G' HG Hcg. apply (upd_lookup E f F F' HF) in HG as [[-> ->] | [Hne HG]]; [right; by left | left; by exists G'].
    + split; [by exists F' |]. destruct Hpre as [(q & msg & ks & -> & _) | [-> _]]; [| done]. destruct Hok. simpl.
      split_and!; [done | by exists F' | done].
Qed.

Lemma close_fine E ph f x E' : env_ok E -> phase_ok E ph -> pre ph (TCloseDone f) ->
  does E (TCloseDone f) x E' -> fine ph E (next_phase (TCloseDone f) x ph) E'.
Proof.
  intros He Hok [p ->] (F & HF & Hd & ->). simpl in *. destruct Hok as [(F1 & HF1 & Hc & _) [Hp Hafter]].
  rewrite HF in HF1. injection HF1 as <-. set (F' := close_done F). set (E' := set_futures (<[f := F']> (e_futures E)) E).
  assert (e_futures E' !! f = Some F') as HF' by by eapply upd_self.
  assert (respects (PClose f p) E E') as Hr.
  { eapply upd_respects; simpl; [done | done |]. intros _. right. by left. }
  assert (env_ok E') as He'.
  { eapply upd_env_ok; [done | done | done |]. simpl. intros _ Herr. by apply (eo_result _ He). }
  assert (forall g, completed E g -> completed E' g) as Hco by (intros g; by eapply completed_mono).
  split_and!; [| done | by destruct p; try done; destruct Hp; split; [| apply Hco]].
  split; simpl; try done; auto.
  - intros t Ht. left. by right.
  - by intros q g [-> | ->].
  - intros g [[= ->] | Ht]%elem_of_cons; [right; by exists F' | by left].
  - intros g G' HG Hcg. left. apply (upd_lookup E f F F' HF) in HG as [[-> ->] | [Hne HG]]; [by exists F | by exists G'].
Qed.

Lemma register_fine E ph f fn x E' : env_ok E -> phase_ok E ph -> does E (TRegister f fn) x E' -> fine ph E ph E'.
Proof.
  intros He Hok (F & HF & Hdo). destruct (f_complete F) eqn:Hc; destruct Hdo as [_ ->].
  { by apply fine_inert; [| apply same_core_refl | apply inert_refl |]. }
  assert (f_done F = false) as Hd by (destruct (f_done F) eqn:Ed; [| done]; apply (eo_done _ He f) in Ed; congruence).
  set (F' := register_callback fn F). set (E' := set_futures (<[f := F']> (e_futures E)) E).
  assert (forall p, respects p E E') as Hr by (intros p; eapply upd_respects; simpl; [done | congruence | auto]).
  split_and!.
  - split; simpl; try done; auto.
    + intros q g [? | ?]; auto.
    + intros g G' HG Hcg. apply (upd_lookup E f F F' HF) in HG as [[-> ->] | [Hne HG]]; [simpl in Hcg; congruence | left; by exists G'].
  - eapply upd_env_ok; [done | done | simpl; congruence | simpl; congruence].
  - eapply (phase_ok_stable PIdle); [apply Hr | intros t []%elem_of_nil | done].
Qed.

(** *** Calls on the tables of the client *)

(** A key leaves [pending]. *)
Lemma delete_env_ok E q : env_ok E -> env_ok (set_pending (delete q (e_pending E)) (e_hist E) E).
Proof. intros [a b c d e g]. split; simpl; auto. intros q' f [_ Hq]%lookup_delete_Some. auto. Qed.

Lemma delete_respects ph E q : respects ph E (set_pending (delete q (e_pending E)) (e_hist E) E).
Proof. split; simpl; auto; [lia |]. intros f F HF. exists F. auto. Qed.

Lemma delete_moves E ph ph' q : (forall t, t ∈ tokens ph' -> t ∈ tokens ph) ->
  (forall f, e_pending E !! q = Some f -> completed E f \/ holds f ph' \/ (TokQ q ∈ tokens ph /\ TokQ q ∉ tokens ph')) ->
  (forall f, ~ holds f ph) -> (forall q, covers q ph -> covers q ph') ->
  (forall q' f, ph = PStored q' f -> e_pending E !! q' = Some f -> TokQ q' ∉ tokens ph') ->
  (forall q f, ph' = PStored q f \/ ph' = PSent q f -> ph = PStored q f) ->
  (forall f, TokC f ∈ tokens ph -> TokC f ∈ tokens ph') ->
  moves ph E ph' (set_pending (delete q (e_pending E)) (e_hist E) E).
Proof.
  intros Ht Hq Hh Hc Hst Hse Hcl. split; simpl; auto.
  - apply delete_respects.
  - intros f []%Hh.
  - intros q' f Hp. destruct (decide (q = q')) as [<- | Hne]; [right; exact (Hq f Hp) |]. left. by rewrite lookup_delete_ne.
  - intros q' f H1 H2. right; left. eauto.
  - intros q' f H1. left. eauto.
Qed.

Local Ltac small := simpl in *;
  first [done | congruence | set_solver | by intros ? ? [|] | by intros ? ? [[= -> ->] | [= -> ->]] | idtac].

Lemma load_fine E ph q x E' : env_ok E -> phase_ok E ph -> pre ph (TLoadAndDelete q) ->
  does E (TLoadAndDelete q) x E' -> fine ph E (next_phase (TLoadAndDelete q) x ph) E'.
Proof.
  intros He Hok Hpre [-> ->]. pose proof (delete_env_ok E q He) as He'.
  destruct Hpre as [[f ->] | (msg & -> & Hid)]; simpl in *; destruct (e_pending E !! q) as [g |] eqn:Ep; (split_and!; [| done | small]).
  - apply delete_moves; small.
  - apply delete_moves; small.
  - apply delete_moves; small.
  - split; [by apply (eo_pending _ He) | done].
  - apply delete_moves; small.
Qed.

Lemma delete_fine E ph q x E' : env_ok E -> phase_ok E ph -> pre ph (TDelete q) ->
  does E (TDelete q) x E' -> fine ph E (next_phase (TDelete q) x ph) E'.
Proof.
  intros He Hok Hpre ->. pose proof (delete_env_ok E q He) as He'.
  destruct Hpre as [[f ->] | (f & ks & ->)]; simpl in *; (split_and!; [| done | done]).
  - apply delete_moves; small.
  - destruct Hok as [Hq Hc]. apply delete_moves; small. intros g Hg%(eo_pending _ He). left. congruence.
Qed.

Lemma visit_fine E ph q x E' : env_ok E -> phase_ok E ph -> pre ph (TVisit q) ->
  does E (TVisit q) x E' -> fine ph E (next_phase (TVisit q) x ph) E'.
Proof.
  intros He Hok [ks ->] [-> Hx]. simpl. pose proof (eo_pending _ He q) as Hpe.
  apply fine_inert; [done | apply same_core_refl | |].
  - split; simpl; try done.
    + by destruct x.
    + intros q' g [-> | Hq]%elem_of_cons Hg; [| left; by destruct x].
      assert (x = Some g) as -> by (destruct Hx as [-> | ->]; [done | by apply Hpe]). by right; right.
    + by destruct x; intros ? ? [|].
    + intros f []%elem_of_nil.
  - destruct x as [g |]; [| done]. split; [| done]. destruct Hx as [Hx | Hx]; [by apply Hpe | done].
Qed.

Lemma store_fine E ph q f x E' : env_ok E -> phase_ok E ph -> pre ph (TStore q f) ->
  does E (TStore q f) x E' -> fine ph E (next_phase (TStore q f) x ph) E'.
Proof.
  intros He Hok -> ->. simpl in *. destruct Hok as (Hq & Hnone & Hf & Hnew). destruct He as [a b c d e g].
  split_and!; [| | simpl; by rewrite lookup_insert_eq].
  - split; simpl; auto; try done.
    + split; simpl; auto; [lia | | |].
      * intros q' f' Hq'. rewrite lookup_insert_ne; congruence.
      * intros q' f' [[-> ->] | [_ ?]]%lookup_insert_Some; [right; set_solver | auto].
      * intros g' F HF. exists F. auto.
    + intros q' f' Hp. left. rewrite lookup_insert_ne; [done |]. intros <-. apply b in Hp. congruence.
    + intros q' f' [[= -> ->] | [=]]. right; right. by rewrite lookup_insert_eq.
    + intros f' F HF Hco. left. by exists F.
  - split; simpl; auto.
    + intros q' f' [[-> ->] | [Hne ?]]%lookup_insert_Some; [by rewrite lookup_insert_eq |]. rewrite lookup_insert_ne by done. auto.
    + intros q' f' [[-> ->] | [_ ?]]%lookup_insert_Some; auto.
    + intros q1 q2 f' [[-> ->] | [_ H1]]%lookup_insert_Some [[-> H2] | [_ H2]]%lookup_insert_Some; try done.
      * by apply Hnew in H2.
      * subst f'. by apply Hnew in H1.
      * by eapply d.
    + intros f' F HF Hco Her. destruct (g f' F HF Hco Her) as (q' & h & H1 & H2). exists q', h. simpl.
      rewrite lookup_insert_ne; [done | congruence].
Qed.

Lemma seq_fine E x E' : env_ok E -> does E TNextSeq x E' -> fine PIdle E (PSeq x) E'.
Proof.
  intros [a b c d e g] (Hs & -> & ->). unfold u64. rewrite Z.mod_small by lia.
  assert (e_hist E !! (e_seq E + 1) = None) as Hn.
  { destruct (e_hist E !! (e_seq E + 1)) as [f |] eqn:E1; [| done]. apply c in E1. lia. }
  split_and!.
  - split; simpl; try done; auto.
    + split; simpl; auto; [lia |]. intros f F HF. by exists F; auto.
    + intros t ->%list_elem_of_singleton. right. lia.
    + by intros q f [|].
    + set_solver.
    + intros f F HF Hc. left. by exists F.
  - split; simpl; auto; [lia |]. intros q f Hq. apply c in Hq. split; [lia | lia].
  - simpl. split; [lia | done].
Qed.

Lemma new_fine E ph x E' : env_ok E -> phase_ok E ph -> pre ph TNewFuture ->
  does E TNewFuture x E' -> fine ph E (next_phase TNewFuture x ph) E'.
Proof.
  intros [a b c d e g] Hok [q ->] [-> ->]. simpl in *. destruct Hok as [Hq Hn].
  assert (forall f F, (e_futures E ++ [NewFuture]) !! f = Some F -> e_futures E !! f = Some F \/ F = NewFuture) as Hl.
  { intros f F [HF | [_ HF]]%lookup_app_Some; [by left |]. apply list_lookup_singleton_Some in HF as [_ <-]. by right. }
  split_and!.
  - split; simpl; try done; auto.
    + split; simpl; auto; [lia |]. intros f F HF. exists F. split; [by apply lookup_app_l_Some | auto].
    + intros t [-> | ->%list_elem_of_singleton]%elem_of_cons; [left; set_solver | by right].
    + by intros q' f [|].
    + set_solver.
    + intros f F HF Hc. apply Hl in HF as [HF | ->]; [left; by exists F | done].
  - split; simpl; auto.
    + intros q' f Hq'. apply c in Hq'. rewrite length_app. simpl. lia.
    + intros f F HF Hd. apply Hl in HF as [HF | ->]; [by eapply e | done].
    + intros f F HF Hc Her. apply Hl in HF as [HF | ->]; [| done]. by apply g.
  - simpl. rewrite length_app. simpl. split_and!; [lia | lia | done | lia |]. intros q' Hq'. apply c in Hq'. lia.
Qed.

Lemma swap_fine E x E' : env_ok E -> does E TCompareAndSwap x E' -> fine PIdle E (if x then PSweepAll else PIdle) E'.
Proof.
  intros [a b c d e g] [-> ->]. split_and!; [| by split | by destruct (e_closed E)].
  split; simpl; try done; auto.
  - split; simpl; auto; [lia |]. intros f F HF. by exists F; auto.
  - intros t. destruct (e_closed E); simpl; set_solver.
  - intros q Hc. rewrite Hc. by right.
  - by destruct (e_closed E); intros ? ? [|].
  - set_solver.
  - intros f F HF Hc. left. by exists F.
Qed.

Lemma streams_core E m l : same_core E (set_streams m l E).
Proof. by split. Qed.

Lemma stream_core E st S : same_core E (set_stream st S E).
Proof. by split. Qed.

Lemma await_fine E f x E' : env_ok E -> does E (TAwait f) x E' -> fine PIdle E (PWoke f) E'.
Proof.
  intros He (-> & F & HF & Hd). apply fine_inert; [done | apply same_core_refl | by apply inert_idle |].
  exists F. split; [done | by eapply (eo_done _ He)].
Qed.

Lemma result_fine E f x E' : env_ok E -> phase_ok E (PWoke f) -> does E (TResult f) x E' -> fine (PWoke f) E (PGot f x) E'.
Proof.
  intros He (F1 & HF1 & Hc) (-> & F & HF & ->). apply fine_inert; [done | apply same_core_refl | | exists F; naive_solver].
  split; small.
Qed.

Lemma closed_fine E ph x E' : env_ok E -> phase_ok E ph -> pre ph TClosed -> does E TClosed x E' ->
  fine ph E (next_phase TClosed x ph) E'.
Proof.
  intros He Hok Hpre [-> ->]. apply fine_inert; [done | apply same_core_refl | |].
  - destruct Hpre as [-> | (q & f & ->)]; simpl; [apply inert_refl |]. destruct (e_closed E) eqn:Ec; [apply inert_refl |].
    split; small; auto.
  - destruct Hpre as [-> | (q & f & ->)]; simpl; [done |]. by destruct (e_closed E).
Qed.

Lemma read_fine E x E' : env_ok E -> does E TRead x E' ->
  fine PIdle E (match x with Ok msg => PRead msg | Err _ => PIdle end) E'.
Proof.
  intros He ->. destruct x as [msg | e]; (apply fine_inert; [done | | by apply inert_idle | ]); [| set_solver | apply same_core_refl | done].
  split; simpl; set_solver.
Qed.

Lemma range_fine E x E' : env_ok E -> does E TRange x E' -> fine PSweepAll E (PSweep x) E'.
Proof.
  intros He [-> Hx]. apply fine_inert; [done | apply same_core_refl | | done]. split; small.
Qed.

(** Every call of a goroutine that keeps to its part. *)
Lemma call_fine E ph R (c : tcall R) x E' : env_ok E -> phase_ok E ph -> pre ph c -> does E c x E' ->
  fine ph E (next_phase c x ph) E'.
Proof.
  intros He Hok Hpre Hdo.
  assert (forall E1, same_core E E1 -> E' = E1 -> fine ph E ph E') as Hsame.
  { intros E1 Hs ->. apply fine_inert; [done | done | apply inert_refl |].
    eapply (phase_ok_stable PIdle); [by apply same_respects | set_solver | done]. }
  pose proof (same_core_refl E) as Hrefl.
  destruct c; simpl in Hdo.
  - by apply complete_fine.
  - by eapply Hsame; [| exact Hdo].
  - by apply close_fine.
  - by apply (register_fine E ph f fn x).
  - rewrite Hpre in *. by apply (await_fine E f x).
  - destruct Hdo as [Hdo _]. by apply (Hsame E).
  - simpl in Hpre. subst ph. by apply result_fine.
  - by apply closed_fine.
  - rewrite Hpre in *. by apply seq_fine.
  - by apply new_fine.
  - by apply store_fine.
  - by apply load_fine.
  - by apply delete_fine.
  - by apply (Hsame E).
  - rewrite Hpre in *. by apply read_fine.
  - rewrite Hpre in *. by apply swap_fine.
  - by apply (Hsame E).
  - rewrite Hpre in *. by apply range_fine.
  - by apply visit_fine.
  - destruct Hpre as [q ->], Hdo as [_ ->]. apply fine_inert; [done | apply streams_core | | done]. split; small.
  - eapply Hsame; [| exact Hdo]. apply streams_core.
  - destruct Hdo as [_ Hdo]. by apply (Hsame E).
  - destruct Hdo as [_ Hdo]. eapply Hsame; [| exact Hdo]. apply streams_core.
  - eapply Hsame; [| exact Hdo]. apply streams_core.
  - destruct Hdo as [Hdo _]. by apply (Hsame E).
  - destruct Hdo as [Hdo _]. by apply (Hsame E).
  - destruct Hdo as (S & _ & [[_ Hdo] | [_ Hdo]]); [eapply Hsame; [| exact Hdo]; apply stream_core | by apply (Hsame E)].
  - destruct Hdo as (S & _ & Hdo). eapply Hsame; [| exact Hdo]. apply stream_core.
  - destruct Hdo as (S & _ & _ & Hdo). eapply Hsame; [| exact Hdo]. apply stream_core.
  - destruct Hdo as (S & _ & Hdo). destruct x as [body | |].
    + destruct Hdo as (rest & _ & Hdo). eapply Hsame; [| exact Hdo]. apply stream_core.
    + destruct Hdo as [_ Hdo]. by apply (Hsame E).
    + destruct Hdo as [_ Hdo]. by apply (Hsame E).
  - destruct Hdo as [Hdo _]. by apply (Hsame E).
  - done.
Qed.

(** *** All steps *)

Lemma inert_settled E ph : settled ph -> inert E ph PIdle.
Proof.
  intros Hs. destruct ph as [| q | q f | q f | q f | msg | q f msg ks | f p | q f ks | | ks | f | f r]; simpl in Hs; try done;
    subst; split; small.
Qed.

Lemma good_app E T th q f : good E T q f -> good E (T ++ [th]) q f.
Proof.
  assert (forall P : thread -> Prop, (exists th2, th2 ∈ T /\ P th2) -> exists th2, th2 ∈ T ++ [th] /\ P th2) as Hex.
  { intros P (th2 & Hth2 & HP). exists th2. split; [| done]. apply elem_of_app. by left. }
  intros [Hc | [Hh | [Hp [Hc | [Hc | Hs]]]]]; [by left | right; left | right; right..]; auto.
Qed.

Lemma start_inv E T p : starts p -> inv (mkSys E T) -> inv (mkSys E (T ++ [mkThread PIdle p])).
Proof.
  intros Hst [He HT Htk Hcl Hg]. simpl in *. split; simpl; [done | | | |].
  - intros th [Hth | ->%list_elem_of_singleton]%elem_of_app; [auto |]. split; [done | by apply starts_keep].
  - intros i j th th' t [Hi | [_ Hi]]%lookup_app_Some [Hj | [_ Hj]]%lookup_app_Some Hne; [by eapply Htk | ..];
      first [apply list_lookup_singleton_Some in Hj as [_ <-] | apply list_lookup_singleton_Some in Hi as [_ <-]]; set_solver.
  - intros f F HF Hc. destruct (Hcl f F HF Hc) as [? | (th & Hth & Ht)]; [by left |]. right. exists th. set_solver.
  - intros th q f [Hth | ->%list_elem_of_singleton]%elem_of_app Hph; [apply good_app; eauto |]. by destruct Hph.
Qed.

Lemma core_inv E E' T : same_core E E' -> inv (mkSys E T) -> inv (mkSys E' T).
Proof.
  intros Hs [He HT Htk Hcl Hg]. simpl in *. pose proof (same_respects PIdle _ _ Hs) as Hr. pose proof Hs as [H1 H2 H3 H4 H5 H6].
  split; simpl; auto.
  - by eapply same_env_ok.
  - intros th Hth. destruct (HT th Hth). split; [| done]. eapply phase_ok_stable; [done | set_solver | done].
  - rewrite H4. auto.
  - intros th q f Hth Hph. unfold good, completed. rewrite H2, H3, H4. by apply (Hg th).
Qed.

Lemma step_sound s s' : step s s' -> inv s -> inv s'.
Proof.
  intros Hst Hi. destruct Hst as [E T p Hp | E T st S HS | E T i th Hth Hp | E T i th R c k x E' Hth Hp Hdo].
  - by apply start_inv.
  - eapply core_inv; [apply stream_core | done].
  - destruct (i_threads _ Hi th) as [Hok Hk]; [by eapply list_elem_of_lookup_2 |]. rewrite Hp in Hk. destruct Hk as [Hset _].
    eapply (inv_moved E E T i th); [done | done | | apply Hi | done | apply read_keeps].
    apply inert_moves; [apply same_core_refl | by apply inert_settled].
  - destruct (i_threads _ Hi th) as [Hok Hk]; [by eapply list_elem_of_lookup_2 |]. rewrite Hp in Hk. destruct Hk as [Hpre Hk].
    destruct (call_fine E (th_phase th) R c x E') as (Hm & He & Hok'); [apply Hi | done.. |].
    eapply (inv_moved E E' T i th); [done | done | done | done | done | apply Hk].
Qed.

Lemma initial_sound : inv initial.
Proof.
  split; simpl.
  - by split; simpl; try done; lia.
  - intros th ->%list_elem_of_singleton. split; [done | apply read_keeps].
  - intros [|] [|] th th' t Hi Hj Hne; simplify_eq/=; done.
  - done.
  - intros th q f ->%list_elem_of_singleton. by intros [|].
Qed.

Lemma reachable_sound s : reachable s -> inv s.
Proof. intros Hr. pose proof initial_sound as Hi. unfold reachable in Hr. induction Hr; eauto using step_sound. Qed.

(** ** The theorems *)

(** A goroutine that has returned, or waits for a future, for a stream, or to hand a
    frame to one. *)
Definition at_rest (p : prog returned) : Prop :=
  match p with
  | Done r => r <> Round true
  | Call c _ =>
      match c with
      | TAwait _ | TSelect _ | TSelectRecv _ | TPush _ _ => True
      | _ => False
      end
  end.

Lemma at_rest_settled ph p : keeps ends ph p -> at_rest p -> settled ph.
Proof.
  destruct p as [r | R c k]; [by intros [? _] |]. intros [Hpre _] Hr.
  destruct c; simpl in *; try done; try (by subst ph). by destruct Hpre as [msg ->].
Qed.

Lemma settled_idle ph f q : settled ph -> ~ (holds f ph) /\ ~ (covers q ph) /\ (TokC f ∉ tokens ph) /\ ph <> PStored q f.
Proof.
  destruct ph as [| q' | q' g | q' g | q' g | msg | q' g msg ks | g p | q' g ks | | ks | g | g r]; simpl; intros Hs; try done;
    subst; split_and!; set_solver.
Qed.

(** C25: no call is lost when the connection fails or is closed.  However senders, the read
    loop, the goroutines that close the client and those that time calls out interleave:
    once the client is closed and its goroutines have come to rest, every future that
    [SendAsyncWithCodec] returned is done, so nobody waits for it in vain. *)
Theorem no_call_lost s f : reachable s -> e_closed (s_env s) = true ->
  (forall th, th ∈ s_threads s -> at_rest (th_prog th)) ->
  (exists th, th ∈ s_threads s /\ th_prog th = Done (Sent (Ok f))) ->
  exists F, e_futures (s_env s) !! f = Some F /\ f_complete F = true /\ f_done F = true.
Proof.
  intros Hre Hcl Hrest (th & Hth & Hp). pose proof (reachable_sound s Hre) as Hi.
  assert (forall th2, th2 ∈ s_threads s -> settled (th_phase th2)) as Hset.
  { intros th2 Hth2. eapply at_rest_settled; [by apply (i_threads _ Hi) | by apply Hrest]. }
  destruct (i_threads _ Hi th Hth) as [_ Hk]. rewrite Hp in Hk. destruct Hk as (_ & q & Hq).
  assert (completed (s_env s) f) as (F & HF & Hc).
  { destruct (i_good _ Hi th q f Hth (or_intror Hq)) as [Hc | [(th2 & H2 & Hh) | [_ [? | [(th2 & H2 & Hh) | (th2 & H2 & Hh)]]]]].
    - done.
    - by apply (settled_idle _ f q (Hset th2 H2)) in Hh.
    - congruence.
    - by apply (settled_idle _ f q (Hset th2 H2)) in Hh.
    - by apply (settled_idle _ f q (Hset th2 H2)) in Hh. }
  exists F. split_and!; [done | done |]. destruct (i_closing _ Hi f F HF Hc) as [? | (th2 & H2 & Ht)]; [done |].
  by apply (settled_idle _ f q (Hset th2 H2)) in Ht.
Qed.

(** C26: a call gets its own answer, once.  A future without an error holds the body of a
    message without an error whose [RequestID] is the number the call was registered
    under; a future has one number, as a number has one future; and everybody who waits
    for the future gets the same. *)
Theorem response_matches s th f res err : reachable s -> th ∈ s_threads s -> th_prog th = Done (Waited f (res, err)) ->
  (err = None -> response_of (s_env s) f res) /\
  (forall q q', e_hist (s_env s) !! q = Some f -> e_hist (s_env s) !! q' = Some f -> q = q') /\
  (forall th' r, th' ∈ s_threads s -> th_prog th' = Done (Waited f r) -> r = (res, err)).
Proof.
  intros Hre Hth Hp. pose proof (reachable_sound s Hre) as Hi.
  assert (forall th2 r, th2 ∈ s_threads s -> th_prog th2 = Done (Waited f r) ->
    exists F, e_futures (s_env s) !! f = Some F /\ f_complete F = true /\ r = (f_res F, f_err F)) as Hgot.
  { intros th2 r H2 Hp2. destruct (i_threads _ Hi th2 H2) as [Hok Hk]. rewrite Hp2 in Hk. destruct Hk as [_ Hph].
    simpl in Hph. rewrite Hph in Hok. exact Hok. }
  destruct (Hgot th (res, err) Hth Hp) as (F & HF & Hc & [= -> ->]). split_and!.
  - intros Herr. by apply (eo_result _ (i_env _ Hi)).
  - intros q q'. apply (eo_inj _ (i_env _ Hi)).
  - intros th2 r H2 Hp2. destruct (Hgot th2 r H2 Hp2) as (F2 & HF2 & _ & ->). congruence.
Qed.

(** [close(f.done)] never closes a channel twice, which would panic. *)
Lemma close_never_panics s th f k : reachable s -> th ∈ s_threads s -> th_prog th = Call (TCloseDone f) k ->
  exists F, e_futures (s_env s) !! f = Some F /\ f_done F = false.
Proof.
  intros Hre Hth Hp. destruct (i_threads _ (reachable_sound s Hre) th Hth) as [Hok Hk]. rewrite Hp in Hk.
  destruct Hk as [[p Hph] _]. rewrite Hph in Hok. destruct Hok as [(F & HF & _ & Hd) _]. eauto.
Qed.

(** * The RPC client's connection: cases

    A scheduler for the goroutines of a client, the witnesses of the theorems on it, the
    connection pool, and what the client does not do. *)

(** ** A scheduler *)

(** A call that goes well; [r] is what is read, [w] what a write answers.  [None] when
    the call blocks. *)
Definition perform (r : result string received) (w : option string) (E : env) {R} (c : tcall R) : option (R * env) :=
  match c in tcall R return option (R * env) with
  | TComplete f res err =>
      F ← e_futures E !! f;
      Some (if f_complete F then (None, E)
            else (Some (f_onComplete F), set_futures (<[f := complete_with res err F]> (e_futures E)) E))
  | TCallback fn err => Some (tt, log_call fn err E)
  | TCloseDone f =>
      F ← e_futures E !! f;
      if f_done F then None else Some (tt, set_futures (<[f := close_done F]> (e_futures E)) E)
  | TRegister f fn =>
      F ← e_futures E !! f;
      Some (if f_complete F then (Some (f_err F), E)
            else (None, set_futures (<[f := register_callback fn F]> (e_futures E)) E))
  | TAwait f => F ← e_futures E !! f; if f_done F then Some (tt, E) else None
  | TSelect f => F ← e_futures E !! f; Some (f_done F, E)
  | TResult f => F ← e_futures E !! f; Some ((f_res F, f_err F), E)
  | TClosed => Some (e_closed E, E)
  | TNextSeq =>
      if e_seq E + 1 <? 18446744073709551616 then Some (u64 (e_seq E + 1), set_seq (u64 (e_seq E + 1)) E) else None
  | TNewFuture => Some (length (e_futures E), set_futures (e_futures E ++ [NewFuture]) E)
  | TStore seq f => Some (tt, set_pending (<[seq := f]> (e_pending E)) (<[seq := f]> (e_hist E)) E)
  | TLoadAndDelete seq => Some (e_pending E !! seq, set_pending (delete seq (e_pending E)) (e_hist E) E)
  | TDelete seq => Some (tt, set_pending (delete seq (e_pending E)) (e_hist E) E)
  | TWrite _ => Some (w, E)
  | TRead => Some (r, match r with Ok msg => log_read msg E | Err _ => E end)
  | TCompareAndSwap => Some (negb (e_closed E), set_closed E)
  | TConnClose => Some (tt, E)
  | TRange => Some ((map_to_list (e_pending E)).*1, E)
  | TVisit seq => Some (e_pending E !! seq, E)
  | TsRange => Some ((map_to_list (e_streams E)).*1, E)
  | TsVisit seq => Some (e_streams E !! seq, E)
  | _ => None
  end.

Lemma perform_sound r w E R (c : tcall R) x E' : perform r w E c = Some (x, E') -> does E c x E'.
Proof.
  assert (forall (m : gmap Z nat) q, is_Some (m !! q) -> q ∈ (map_to_list m).*1) as Hkeys.
  { intros m q [f Hf]. apply list_elem_of_fmap. exists (q, f). split; [done | by apply elem_of_map_to_list]. }
  destruct c; simpl; try discriminate; try (by intros [= <- <-]).
  - intros (F & HF & [= Heq])%bind_Some. exists F. split; [done |]. by destruct (f_complete F); injection Heq as <- <-.
  - intros (F & HF & Heq)%bind_Some. exists F. split; [done |]. destruct (f_done F); [done |]. by injection Heq as <- <-.
  - intros (F & HF & [= Heq])%bind_Some. exists F. split; [done |]. by destruct (f_complete F); injection Heq as <- <-.
  - intros (F & HF & Heq)%bind_Some. destruct (f_done F) eqn:Hd; [| done]. injection Heq as <- <-. eauto.
  - intros (F & HF & Heq)%bind_Some. injection Heq as <- <-. eauto.
  - intros (F & HF & Heq)%bind_Some. injection Heq as <- <-. eauto.
  - zcase; [| done]. intros [= <- <-]. done.
  - intros [= <- <-]. split; [done | apply Hkeys].
  - intros [= <- <-]. auto.
  - intros [= <- <-]. split; [done | apply Hkeys].
  - intros [= <- <-]. auto.
Qed.

(** [Start p]: a goroutine starts; [Again i]: the read loop goes round; [Run i r w]: the
    [i]-th goroutine makes its next call. *)
Inductive action :=
  | Start (p : prog returned) (Hp : starts p)
  | Again (i : nat)
  | Run (i : nat) (r : result string received) (w : option string).

Definition act (s : sys) (a : action) : option sys :=
  let '(mkSys E T) := s in
  match a with
  | Start p _ => Some (mkSys E (T ++ [mkThread PIdle p]))
  | Again i =>
      th ← T !! i;
      match th_prog th with
      | Done (Round true) => Some (mkSys E (<[i := mkThread PIdle read_thread]> T))
      | _ => None
      end
  | Run i r w =>
      th ← T !! i;
      match th_prog th with
      | Call c k => '(x, E') ← perform r w E c; Some (mkSys E' (<[i := mkThread (next_phase c x (th_phase th)) (k x)]> T))
      | Done _ => None
      end
  end.

Fixpoint schedule (s : sys) (l : list action) : option sys :=
  match l with
  | [] => Some s
  | a :: l => s ← act s a; schedule s l
  end.

Lemma action_step s a s' : act s a = Some s' -> step s s'.
Proof.
  destruct s as [E T], a as [p Hp | i | i r w]; simpl.
  - intros [= <-]. by apply step_start.
  - intros (th & Hth & Heq)%bind_Some. destruct (th_prog th) as [[| | [|] | | |] |] eqn:Ep; try done. injection Heq as <-.
    by eapply step_again.
  - intros (th & Hth & Heq)%bind_Some. destruct (th_prog th) as [| R c k] eqn:Ep; [done |].
    apply bind_Some in Heq as ([x E'] & Hx & [= <-]). eapply step_call; [done | done | by eapply perform_sound].
Qed.

Lemma schedule_reaches l s : schedule initial l = Some s -> reachable s.
Proof.
  unfold reachable. generalize initial. induction l as [| a l IH]; intros s0; simpl; [by intros [= ->] |].
  intros (s1 & Ha & Hl)%bind_Some. eapply rtc_l; [by eapply action_step | auto].
Qed.

(** ** Two calls, one answer, and the end of the connection *)

Definition ex_header (id : Z) : Header := mkHeader id "users" "Get" "" 0 0 0.
Definition ex_request : Message := mkMessage (Some (ex_header 0)) [1; 2].

Definition runs (i n : nat) : list action := repeat (Run i (Err "") None) n.

Definition ex_schedule : list action :=
  [Start _ (starts_send ex_request); Start _ (starts_wait 0)] ++ runs 1 6 ++
  [Start _ (starts_send ex_request)] ++ runs 3 6 ++ [Start _ (starts_wait 1)] ++
  [Run 0 (Ok (ex_header 1, [7])) None] ++ runs 0 3 ++ [Again 0; Run 0 (Err "EOF") None] ++ runs 0 8 ++ runs 2 2 ++ runs 4 2.

Definition ex_end : sys := default initial (schedule initial ex_schedule).

Example ex_end_returns : map (fun th => match th_prog th with Done r => Some r | Call _ _ => None end) (s_threads ex_end) =
  [Some (Round false); Some (Sent (Ok 0%nat)); Some (Waited 0 ([7], None)); Some (Sent (Ok 1%nat)); Some (Waited 1 ([], Some "EOF"))].
Proof. by vm_compute. Qed.

Lemma ex_end_reachable : reachable ex_end.
Proof. apply (schedule_reaches ex_schedule). by vm_compute. Qed.

Lemma ex_end_thread i th : s_threads ex_end !! i = Some th -> th ∈ s_threads ex_end.
Proof. apply list_elem_of_lookup_2. Qed.

Definition resting (p : prog returned) : bool :=
  match p with
  | Done (Round true) => false
  | Done _ => true
  | Call c _ => match c with TAwait _ | TSelect _ | TSelectRecv _ | TPush _ _ => true | _ => false end
  end.

Lemma all_resting s : forallb (fun th => resting (th_prog th)) (s_threads s) = true ->
  forall th, th ∈ s_threads s -> at_rest (th_prog th).
Proof.
  intros Hall th Hth%list_elem_of_In. rewrite forallb_forall in Hall. specialize (Hall th Hth).
  destruct (th_prog th) as [[| | [|] | | |] | R c k]; try done. by destruct c.
Qed.

Lemma no_call_lost_witness :
  exists F, e_futures (s_env ex_end) !! 1%nat = Some F /\ f_complete F = true /\ f_done F = true.
Proof.
  apply (no_call_lost ex_end).
  - exact ex_end_reachable.
  - by vm_compute.
  - apply all_resting. by vm_compute.
  - eexists. split; [apply (ex_end_thread 3); vm_compute; reflexivity | done].
Defined.

Lemma response_matches_witness : response_of (s_env ex_end) 0 [7].
Proof.
  eapply (response_matches ex_end _ 0 [7] None).
  - exact ex_end_reachable.
  - apply (ex_end_thread 2). vm_compute. reflexivity.
  - done.
  - done.
Defined.

(** ** What the client keeps *)

(** A call that is timed out stays in [pending]: nothing but its answer or the end of
    the connection removes it. *)
Definition timeout_schedule : list action :=
  [Start _ (starts_send ex_request)] ++ runs 1 6 ++ [Start _ (starts_done 0 "context deadline exceeded")] ++ runs 2 2.

Example timed_out_stays :
  (fun s => (e_pending (s_env s) !! 1, f_done <$> e_futures (s_env s) !! 0%nat,
             map (fun th => match th_prog th with Done _ => true | Call _ _ => false end) (s_threads s)))
    <$> schedule initial timeout_schedule = Some (Some 0%nat, Some true, [false; true; true]).
Proof. by vm_compute. Qed.

(** A second [OnComplete] replaces the first callback, which is never called. *)
Definition callback_schedule : list action :=
  [Start _ (starts_send ex_request)] ++ runs 1 6 ++ [Start _ (starts_callback 0 5); Start _ (starts_callback 0 6)] ++
  runs 2 1 ++ runs 3 1 ++ [Run 0 (Ok (ex_header 1, [7])) None] ++ runs 0 4.

Example second_callback_only :
  (fun s => e_calls (s_env s)) <$> schedule initial callback_schedule = Some [(6%nat, None)].
Proof. by vm_compute. Qed.

