(* ===== verification/RpcFuture.v ===== *)
(** * Futures: one result, one callback

    Any number of goroutines complete one future ([Future_Done]: the read loop, the end of
    the connection, a timeout) while one registers its callback ([Future_OnComplete]).
    [invokeAsync] reports the result of a call to the circuit breaker through that
    callback. *)
From S2P Require Import Prelude GoProg RpcProtocol RpcClient RpcClientProof.

(** ** The system: goroutine 0 registers, the others complete *)

Record fsys := mkFsys { fs_env : env; fs_threads : list (prog unit) }.

Inductive fstep : fsys -> fsys -> Prop :=
  | fstep_call E T i R (c : tcall R) k x E' : T !! i = Some (Call c k) -> does E c x E' ->
      fstep (mkFsys E T) (mkFsys E' (<[i := k x]> T)).

Section Future.
(** The number of the callback, and the results that are offered. *)
Context (fn : nat) (offers : list (bytes * option string)).

Definition fstart : fsys :=
  mkFsys (mkEnv 0 false ∅ ∅ [NewFuture] [] ∅ [] [])
    (Future_OnComplete 0 fn :: map (fun '(res, err) => Future_Done 0 res err) offers).

(** Where a goroutine is. *)
Inductive fpos :=
  | DStart (res : bytes) (err : option string)
  | DCall (err : option string)
  | DClose
  | OStart
  | OCall (err : option string)
  | Fin.

Definition prog_of (p : fpos) : prog unit :=
  match p with
  | DStart res err => Future_Done 0 res err
  | DCall err => _ ← ask (TCallback fn err); ask (TCloseDone 0)
  | DClose => ask (TCloseDone 0)
  | OStart => Future_OnComplete 0 fn
  | OCall err => ask (TCallback fn err)
  | Fin => mret tt
  end.

(** The future and the calls of its callback. *)
Inductive fnext : Future * list (nat * option string) -> fpos -> Future * list (nat * option string) -> fpos -> Prop :=
  | fn_late F l res err : f_complete F = true -> fnext (F, l) (DStart res err) (F, l) Fin
  | fn_complete F l res err : f_complete F = false ->
      fnext (F, l) (DStart res err) (complete_with res err F, l)
        (match f_onComplete F with Some _ => DCall err | None => DClose end)
  | fn_call F l err : fnext (F, l) (DCall err) (F, l ++ [(fn, err)]) DClose
  | fn_close F l : f_done F = false -> fnext (F, l) DClose (close_done F, l) Fin
  | fn_register F l : f_complete F = false -> fnext (F, l) OStart (register_callback fn F, l) Fin
  | fn_after F l : f_complete F = true -> fnext (F, l) OStart (F, l) (OCall (f_err F))
  | fn_callback F l err : fnext (F, l) (OCall err) (F, l ++ [(fn, err)]) Fin.

Definition shows (E : env) (X : Future * list (nat * option string)) : Prop :=
  e_futures E = [X.1] /\ e_calls E = X.2 /\ (forall g, f_onComplete X.1 = Some g -> g = fn).

Definition next_ok (E : env) (m : prog unit) (P : prog unit -> env -> Prop) : Prop :=
  match m with
  | Done _ => True
  | Call c k => forall x E', does E c x E' -> P (k x) E'
  end.

Lemma pos_next E X p : shows E X ->
  next_ok E (prog_of p) (fun m E' => exists X' p', m = prog_of p' /\ shows E' X' /\ fnext X p X' p').
Proof.
  destruct X as [F l]. intros (Hf & Hl & Hcb). simpl in *.
  assert (forall G, e_futures E !! 0%nat = Some G -> G = F) as HF by (rewrite Hf; by intros G [= <-]).
  destruct p as [res err | err | | | err |]; simpl; try done; intros x E' Hdo; simpl in Hdo.
  - destruct Hdo as (G & ->%HF & Hdo). destruct (f_complete F) eqn:Ec; destruct Hdo as [-> ->].
    + exists (F, l), Fin. split; [done |]. split; [done | by constructor].
    + eexists (complete_with res err F, l), _. split; [| split; [| by constructor]].
      * destruct (f_onComplete F) as [g |] eqn:Eg; [by rewrite (Hcb g eq_refl) | done].
      * unfold shows. simpl. rewrite Hf. by split_and!.
  - subst E'. exists (F, l ++ [(fn, err)]), DClose. split; [done |]. split; [| by constructor].
    unfold shows. simpl. rewrite Hl. by split_and!.
  - destruct Hdo as (G & ->%HF & Hd & ->). exists (close_done F, l), Fin. split; [by destruct x |]. split; [| by constructor].
    unfold shows. simpl. rewrite Hf. by split_and!.
  - destruct Hdo as (G & ->%HF & Hdo). destruct (f_complete F) eqn:Ec; destruct Hdo as [-> ->].
    + exists (F, l), (OCall (f_err F)). split; [done |]. split; [done | by constructor].
    + exists (register_callback fn F, l), Fin. split; [done |]. split; [| by constructor].
      unfold shows. simpl. rewrite Hf. split_and!; [done | done | by intros g [= <-]].
  - subst E'. exists (F, l ++ [(fn, err)]), Fin. split; [by destruct x |]. split; [| by constructor].
    unfold shows. simpl. rewrite Hl. by split_and!.
Qed.

(** ** The invariant *)

Definition calling (p : fpos) : nat := match p with DCall _ | OCall _ => 1 | _ => 0 end.
Definition closing (p : fpos) : nat := match p with DCall _ | DClose => 1 | _ => 0 end.

Definition total (w : fpos -> nat) (ps : list fpos) : nat := sum_list (map w ps).

Lemma total_insert w ps j p p' : ps !! j = Some p -> (total w (<[j := p']> ps) + w p = total w ps + w p')%nat.
Proof using Type.
  unfold total. revert j. induction ps as [| q ps IH]; intros [| j] Hj; simplify_eq/=; [lia |]. specialize (IH j Hj). lia.
Qed.

(** What goroutine [p] knows of the future. *)
Definition knows (F : Future) (p : fpos) : Prop :=
  match p with
  | DStart res err => (res, err) ∈ offers
  | DCall err => f_complete F = true /\ err = f_err F
  | DClose => f_complete F = true
  | Fin => f_complete F = true
  | _ => False
  end.

(** And the one that registers. *)
Definition registers (F : Future) (o : fpos) : Prop :=
  match o with
  | OStart => f_onComplete F = None
  | OCall err => f_complete F = true /\ err = f_err F
  | Fin => f_complete F = false -> is_Some (f_onComplete F)
  | _ => False
  end.

Definition due (F : Future) (o : fpos) : nat :=
  match o with OStart => 0 | _ => if f_complete F then 1 else 0 end.

Record finv (X : Future * list (nat * option string)) (o : fpos) (ps : list fpos) : Prop := {
  fi_o : registers X.1 o;
  fi_ps p : p ∈ ps -> knows X.1 p;
  fi_done : f_done X.1 = true -> f_complete X.1 = true;
  fi_closed : ((if f_complete X.1 then 1 else 0) = (if f_done X.1 then 1 else 0) + total closing ps)%nat;
  fi_calls : (length X.2 + total calling ps + calling o = due X.1 o)%nat;
  fi_log e : e ∈ X.2 -> f_complete X.1 = true /\ e = (fn, f_err X.1);
  fi_result : f_complete X.1 = true -> (f_res X.1, f_err X.1) ∈ offers
}.

(** A goroutine that completes moves. *)
Lemma finv_done X o ps j p X' p' : finv X o ps -> ps !! j = Some p -> fnext X p X' p' -> finv X' o (<[j := p']> ps).
Proof using Type.
  intros [Ho Hps Hd Hcl Hca Hl Hr] Hj Hn. pose proof (total_insert closing ps j p p' Hj) as Tc.
  pose proof (total_insert calling ps j p p' Hj) as Ta. pose proof (Hps p (list_elem_of_lookup_2 _ _ _ Hj)) as Hp.
  assert (forall X1, knows X1 p' -> (forall q, q ∈ ps -> knows X1 q) -> forall q, q ∈ <[j := p']> ps -> knows X1 q) as Hk.
  { intros X1 H1 H2 q [i Hq]%list_elem_of_lookup_1. destruct (decide (j = i)) as [<- | Hne].
    - rewrite list_lookup_insert_eq in Hq by (by eapply lookup_lt_Some). by injection Hq as <-.
    - rewrite list_lookup_insert_ne in Hq by done. apply H2. by eapply list_elem_of_lookup_2. }
  destruct Hn as [F l res err Hc | F l res err Hc | F l err | F l Hdn | F l Hc | F l Hc | F l err]; simpl in *; try done.
  - split; simpl; auto; lia.
  - assert (f_done F = false) as Hdn by (destruct (f_done F); [by rewrite Hd in Hc | done]).
    assert (forall q, q ∈ ps -> knows (complete_with res err F) q) as Hall.
    { intros q Hq. specialize (Hps q Hq). destruct q; simpl in *; try done; destruct Hps; congruence. }
    assert (forall e, e ∉ l) as Hnil by (intros e [? _]%Hl; congruence).
    rewrite Hc, Hdn in *. destruct (f_onComplete F) as [g |] eqn:Eg.
    + destruct o; simpl in *; try done; try congruence; [by destruct Ho; congruence |].
      rewrite ?Hc in Hca. split; simpl; rewrite ?Hdn; auto; first [lia | by apply Hk | intros e He; by apply Hnil in He].
    + destruct o; simpl in *; try done; [| by destruct Ho; congruence | by destruct (Ho Hc); congruence].
      rewrite ?Hc in Hca. split; simpl; rewrite ?Hdn; auto; first [lia | by apply Hk | intros e He; by apply Hnil in He].
  - destruct Hp as [Hc ->]. split; simpl; auto; [lia | rewrite length_app; simpl; lia |].
    intros e [He | ->%list_elem_of_singleton]%elem_of_app; auto.
  - split; simpl; auto.
    + rewrite Hp, Hdn in *. lia.
    + change (due (close_done F) o) with (due F o). lia.
Qed.

(** The one that registers moves. *)
Lemma finv_register X o ps X' o' : finv X o ps -> fnext X o X' o' -> finv X' o' ps.
Proof using Type.
  intros [Ho Hps Hd Hcl Hca Hl Hr] Hn.
  destruct Hn as [F l res err Hc | F l res err Hc | F l err | F l Hdn | F l Hc | F l Hc | F l err]; simpl in *; try done.
  - split; simpl; auto. by rewrite Hc in *.
  - split; simpl; auto. rewrite Hc. lia.
  - destruct Ho as [Hc ->]. rewrite Hc in *. split; simpl; auto; [by rewrite Hc | by rewrite Hc | rewrite Hc, length_app; simpl; lia |].
    intros e [He | ->%list_elem_of_singleton]%elem_of_app; [rewrite Hc; auto | done].
Qed.

Definition reaches (s : fsys) : Prop := rtc fstep (fstart) s.

Lemma reaches_inv s : reaches s -> exists X o ps, shows (fs_env s) X /\ fs_threads s = map (prog_of) (o :: ps) /\
  length ps = length offers /\ finv X o ps.
Proof using Type.
  assert (exists X o ps, shows (fs_env (fstart)) X /\ fs_threads (fstart) = map (prog_of) (o :: ps) /\
    length ps = length offers /\ finv X o ps) as H0.
  { exists (NewFuture, []), OStart, (map (fun '(res, err) => DStart res err) offers). split_and!; [done | | by rewrite length_map |].
    - simpl. f_equal. rewrite map_map. apply map_ext. by intros [res err].
    - assert (forall w, (forall r e, w (DStart r e) = 0%nat) -> total w (map (fun '(res, err) => DStart res err) offers) = 0%nat) as Hz.
      { intros w Hw. unfold total. induction offers as [| [r e] l IH]; simpl; [done |]. by rewrite Hw, IH. }
      split; simpl; try done; [| by rewrite Hz | by rewrite Hz | set_solver].
      intros p ([r e] & -> & Hin)%list_elem_of_fmap. done. }
  intros Hr. unfold reaches in Hr. generalize dependent (fstart). intros s0 H0 Hr.
  induction Hr as [| s1 s2 s3 Hst _ IH]; [done |]. apply IH. destruct Hst as [E T i R c k x E' Hi Hdo].
  destruct H0 as (X & o & ps & HX & HT & Hlen & Hinv). simpl in *. subst T.
  assert (exists p, (o :: ps) !! i = Some p /\ Call c k = prog_of p) as (p & Hp & Hpp).
  { change (prog_of o :: map (prog_of) ps) with (prog_of <$> (o :: ps)) in Hi. apply list_lookup_fmap_Some in Hi as (p & H1 & H2). by exists p. }
  pose proof (pos_next E X p HX) as Hn. rewrite <- Hpp in Hn. destruct (Hn x E' Hdo) as (X' & p' & Hm & HX' & Hf).
  destruct i as [| j]; simpl in Hp.
  - injection Hp as ->. exists X', p', ps. split_and!; [done | by rewrite Hm | done | by eapply finv_register].
  - exists X', o, (<[j := p']> ps). split_and!; [done | | by rewrite length_insert | by eapply finv_done].
    simpl. rewrite Hm. f_equal. change (<[j := prog_of p']> (prog_of <$> ps) = prog_of <$> <[j := p']> ps).
    by rewrite list_fmap_insert.
Qed.

End Future.

Lemma finished_fin fn p : prog_of fn p = Done tt -> p = Fin.
Proof. by destruct p. Qed.

Lemma total_fin w ps : w Fin = 0%nat -> (forall p, p ∈ ps -> p = Fin) -> total w ps = 0%nat.
Proof.
  intros Hw Hps. unfold total. induction ps as [| p ps IH]; [done |]. simpl.
  rewrite (Hps p) by set_solver. rewrite Hw, IH; [done |]. set_solver.
Qed.

(** a future has one result and runs its callback once.  Whatever goroutines offer
    results, and whenever the callback is registered, it is never called twice; when all
    are done and a result was offered, the future holds one of the results, its channel
    is closed, and the callback has been called once, with the error of that result. *)
Theorem callback_once fn offers s : reaches fn offers s ->
  (length (e_calls (fs_env s)) <= 1)%nat /\
  (offers <> [] -> Forall (fun p => p = Done tt) (fs_threads s) ->
   exists F, e_futures (fs_env s) = [F] /\ f_done F = true /\ (f_res F, f_err F) ∈ offers /\
     e_calls (fs_env s) = [(fn, f_err F)]).
Proof.
  intros Hr. destruct (reaches_inv fn offers s Hr) as ([F l] & o & ps & (Hf & Hl & _) & HT & Hlen & Hi).
  pose proof Hi as [Ho Hps Hd Hcl Hca Hlog Hres]. simpl in *. rewrite Hl. split.
  { unfold due in Hca. destruct o, (f_complete F); lia. }
  intros Hne Hall. rewrite HT in Hall. simpl in Hall. apply Forall_cons in Hall as [->%finished_fin Hps'].
  assert (forall p, p ∈ ps -> p = Fin) as Hfin.
  { intros p Hp. rewrite Forall_map, Forall_forall in Hps'. by apply (finished_fin fn), Hps'. }
  assert (f_complete F = true) as Hc.
  { destruct ps as [| p ps']; [by destruct offers |]. pose proof (Hfin p ltac:(set_solver)) as ->. apply (Hps Fin). set_solver. }
  rewrite (total_fin closing) in Hcl by done. rewrite (total_fin calling) in Hca by done. simpl in Hca. rewrite Hc in *.
  exists F. split_and!; [done | by destruct (f_done F) | auto |].
  destruct l as [| e [|]]; simpl in *; [lia | | lia]. f_equal. apply (Hlog e). set_solver.
Qed.

(** ** A case *)

Definition ex_offers : list (bytes * option string) := [([7], None); ([], Some "timeout")].

(** The second goroutine's result comes first, then the callback is registered. *)
Fixpoint frun (s : fsys) (l : list nat) : option fsys :=
  match l with
  | [] => Some s
  | i :: l =>
      p ← fs_threads s !! i;
      match p with
      | Call c k => '(x, E') ← perform (Err "") None (fs_env s) c; frun (mkFsys E' (<[i := k x]> (fs_threads s))) l
      | Done _ => None
      end
  end.

Lemma frun_steps l s s' : frun s l = Some s' -> rtc fstep s s'.
Proof.
  revert s. induction l as [| i l IH]; intros [E T]; simpl; [intros [= <-]; apply rtc_refl |].
  intros (p & Hp & Heq)%bind_Some. destruct p as [| R c k]; [done |]. apply bind_Some in Heq as ([x E'] & Hx & Heq).
  eapply rtc_l; [| by apply IH]. econstructor; [done | by eapply perform_sound].
Qed.

Definition ex_done : fsys := default (fstart 5 ex_offers) (frun (fstart 5 ex_offers) [2; 0; 0; 1; 2]%nat).

Lemma callback_once_witness :
  exists F, e_futures (fs_env ex_done) = [F] /\ f_done F = true /\ (f_res F, f_err F) ∈ ex_offers /\
    e_calls (fs_env ex_done) = [(5%nat, f_err F)].
Proof.
  apply (callback_once 5 ex_offers ex_done).
  - apply (frun_steps [2; 0; 0; 1; 2]%nat). by vm_compute.
  - done.
  - vm_compute. repeat constructor.
Defined.
