(* ===== verification/RpcPool.v ===== *)
(** * The RPC client's pool of connections

    [transport/tcp_connection_pool.go] of [libs/yukino_rpc/internal]. *)
From S2P Require Import Prelude.


(** The connections of the pool; [closed] says which of them [Acquire] finds closed. *)
Record ConnectionPool := mkPool { maxActive : Z; conns : list nat; p_closed : bool; p_next : Z }.

Definition ErrPoolClosed : string := "connection pool closed".

Section Pool.
Context (closed : nat -> bool).

(** The loop of [Acquire]: the open connection it finds, if any.  [i] stays 0, since it
    is decremented with every removal. *)
Fixpoint acquire_loop (fuel : nat) (n i : Z) (p : ConnectionPool) : outcome (option nat * ConnectionPool) :=
  match fuel with
  | O => Panic "out of fuel"
  | S fuel =>
      if negb (i <? n) then Ret (None, p)
      else
        let idx := Z.rem (p_next p + i) (zlen (conns p)) in
        conn ← go_index (conns p) idx;
        if negb (closed conn) then
          Ret (Some conn, mkPool (maxActive p) (conns p) (p_closed p) (Z.rem (idx + 1) (zlen (conns p))))
        else
          let p := mkPool (maxActive p) (take (Z.to_nat idx) (conns p) ++ drop (Z.to_nat (idx + 1)) (conns p)) (p_closed p) (p_next p) in
          if zlen (conns p) =? 0 then Ret (None, p)
          else acquire_loop fuel (n - 1) i p
  end.

(** [ctx]: the error of the context, if it is done; [dialed]: what [newTCPClient]
    returns. *)
Definition Acquire (ctx : option string) (dialed : result string nat) (p : ConnectionPool) :
    outcome (result string nat * ConnectionPool) :=
  let dial p :=
    match dialed with
    | Err e => (Err e, p)
    | Ok conn => (Ok conn, mkPool (maxActive p) (conns p ++ [conn]) (p_closed p) (p_next p))
    end in
  if p_closed p then Ret (Err ErrPoolClosed, p)
  else
    match ctx with
    | Some e => Ret (Err e, p)
    | None =>
        if zlen (conns p) <? maxActive p then Ret (dial p)
        else
          r ← acquire_loop (S (length (conns p))) (zlen (conns p)) 0 p;
          match r with
          | (Some conn, p) => Ret (Ok conn, p)
          | (None, p) => Ret (dial p)
          end
    end.

End Pool.

(** [Close]: the connections that it closes. *)
Definition Pool_Close (p : ConnectionPool) : list nat * ConnectionPool :=
  if p_closed p then ([], p) else (conns p, mkPool (maxActive p) (conns p) true (p_next p)).

(** ** What [Acquire] returns *)

Lemma acquire_loop_open closed fuel p : (length (conns p) < fuel)%nat -> 0 <= p_next p ->
  exists r p', acquire_loop closed fuel (zlen (conns p)) 0 p = Ret (r, p') /\
    match r with
    | Some conn => conn ∈ conns p' /\ closed conn = false
    | None => conns p' = []
    end /\ conns p' ⊆+ conns p /\ 0 <= p_next p' /\ maxActive p' = maxActive p /\ p_closed p' = p_closed p.
Proof.
  revert p. induction fuel as [| fuel IH]; intros p Hf Hn; [lia |].
  destruct (decide (conns p = [])) as [Ec | Ec]; [exists None, p; simpl; by rewrite Ec |].
  assert (0 < zlen (conns p)) as Hl by (unfold zlen; destruct (conns p); [done | simpl; lia]).
  cbn [acquire_loop]. rewrite Z.add_0_r. destruct (0 <? zlen (conns p)) eqn:E0; zb; [| lia]. simpl.
  set (idx := Z.rem (p_next p) (zlen (conns p))).
  assert (0 <= idx < zlen (conns p)) as Hi by (unfold idx; apply Z.rem_bound_pos; lia).
  destruct (lookup_lt_is_Some_2 (conns p) (Z.to_nat idx)) as [c Hc]; [unfold zlen in *; lia |].
  assert (go_index (conns p) idx = Ret c) as -> by (apply go_index_Some; unfold zlookup; destruct (idx <? 0) eqn:Ei; zb; [lia | done]).
  simpl. destruct (closed c) eqn:Ecl; simpl.
  2: { eexists (Some c), _. split; [done |]. simpl. split_and!; try done; [by eapply list_elem_of_lookup_2 | by apply Z.rem_nonneg; lia]. }
  set (l := take (Z.to_nat idx) (conns p) ++ drop (Z.to_nat (idx + 1)) (conns p)).
  assert (c :: l ≡ₚ conns p) as Hperm.
  { unfold l. rewrite <- (take_drop_middle (conns p) (Z.to_nat idx) c Hc) at 3.
    replace (Z.to_nat (idx + 1)) with (S (Z.to_nat idx)) by lia. by rewrite Permutation_middle. }
  assert (length (conns p) = S (length l)) as Hlen by by rewrite <- Hperm.
  assert (l ⊆+ conns p) as Hsub by (rewrite <- Hperm; by apply submseteq_cons).
  destruct (zlen l =? 0) eqn:El; zb.
  - eexists None, _. split; [done |]. simpl. split_and!; try done. unfold zlen in El. destruct l; [done | simpl in El; lia].
  - destruct (IH (mkPool (maxActive p) l (p_closed p) (p_next p))) as (r & p' & Hr & Hm & Hs & Hrest); [simpl; lia | done |].
    simpl in *. replace (zlen (conns p) - 1) with (zlen l) by (unfold zlen; lia). exists r, p'. split_and!; try done; [by etrans | apply Hrest..].
Qed.

(** [Acquire] gives out a connection that it found open or has just made, and the pool
    stays within its limit. *)
Lemma acquire_live closed ctx dialed p : 0 <= p_next p -> zlen (conns p) <= Z.max 1 (maxActive p) ->
  exists r p', Acquire closed ctx dialed p = Ret (r, p') /\
    (forall conn, r = Ok conn -> conn ∈ conns p' /\ (closed conn = false \/ dialed = Ok conn)) /\
    0 <= p_next p' /\ zlen (conns p') <= Z.max 1 (maxActive p') /\ maxActive p' = maxActive p /\ p_closed p' = p_closed p.
Proof.
  intros Hn Hl. unfold Acquire. destruct (p_closed p) eqn:Ecl; [by eexists _, p |].
  destruct ctx as [e |]; [by eexists _, p |]. destruct (zlen (conns p) <? maxActive p) eqn:Em; zb.
  - destruct dialed as [c | e]; [| by eexists _, p]. eexists _, _. split; [done |]. simpl. split_and!; try done.
    + intros conn [= ->]. split; [set_solver | by right].
    + unfold zlen in *. rewrite length_app. simpl. lia.
  - destruct (acquire_loop_open closed (S (length (conns p))) p) as (r & p' & -> & Hr & Hs & Hn' & Hm & Hc); [lia | done |].
    apply submseteq_length in Hs. simpl. destruct r as [conn |].
    + destruct Hr as [Hin Hop]. eexists _, p'. split; [done |]. split_and!; [intros c [= <-]; auto | done | unfold zlen in *; lia | done | congruence].
    + destruct dialed as [c | e]; eexists _, _; (split; [done |]); simpl; rewrite ?Hr; (split_and!; [| done | unfold zlen; simpl; lia | done | congruence]).
      * intros conn [= ->]. split; [set_solver | by right].
      * done.
Qed.
