(* ===== verification/TccModel.v ===== *)
(** * TCC transactions: the manager

    [components/tcc]: [model.go], [component.go], [txstore.go], [option.go],
    [tccregister.go] and [txmanager.go].  A goroutine of the manager is a [prog]
    of the calls that leave it: the clock, the registry, the store of transactions, the
    components.  [TccSafety]
    interleaves the goroutines. *)
From S2P Require Import Prelude GoProg.

(** ** Data *)

(** [TXStatus] and [ComponentTryStatus] are strings. *)
Definition TXHanging : string := "hanging".
Definition TXSuccessful : string := "successful".
Definition TXFailure : string := "failure".
Definition TryHanging : string := "hanging".
Definition TrySuccessful : string := "successful".
Definition TryFailure : string := "failure".

Record ComponentTryEntity := mkTry { te_ComponentID : string; te_TryStatus : string }.

Record Transaction := mkTX {
  TXID : string;
  Components : list ComponentTryEntity;
  Status : string;
  CreatedAt : Z
}.

(** The loop of [getStatus]: [None] when it returns early. *)
Fixpoint scan_statuses (l : list ComponentTryEntity) (hangingExist : bool) : option bool :=
  match l with
  | [] => Some hangingExist
  | e :: l =>
      if decide (te_TryStatus e = TryFailure) then None
      else scan_statuses l (hangingExist || bool_decide (te_TryStatus e <> TrySuccessful))
  end.

Definition getStatus (t : Transaction) (createdBefore : Z) : string :=
  match scan_statuses (Components t) false with
  | None => TXFailure
  | Some hangingExist =>
      if hangingExist && (CreatedAt t <? createdBefore) then TXFailure
      else if hangingExist then TXHanging else TXSuccessful
  end.

Record TCCResp := mkResp { rs_ComponentID : string; rs_ACK : bool; rs_TXID : string }.

Record TCCReq (D : Type) := mkReq { rq_ComponentID : string; rq_TXID : string; rq_Data : D }.
Arguments mkReq {D} _ _ _.
Arguments rq_ComponentID {D} _.
Arguments rq_TXID {D} _.
Arguments rq_Data {D} _.

(** What a component answers: an error, or a pointer to a response. *)
Definition answer : Type := result string (option TCCResp).

Definition acked (r : answer) : bool := match r with Ok (Some resp) => rs_ACK resp | _ => false end.

(** ** Options *)

Record Options := mkOptions { Timeout : Z; MonitorTick : Z }.

Definition second : Z := 1000000000.

Definition WithTimeout (timeout : Z) (o : Options) : Options :=
  mkOptions (if timeout <=? 0 then 5 * second else timeout) (MonitorTick o).

Definition WithMonitorTick (tick : Z) (o : Options) : Options :=
  mkOptions (Timeout o) (if tick <=? 0 then 10 * second else tick).

Definition repair (o : Options) : Options :=
  mkOptions (if Timeout o <=? 0 then 5 * second else Timeout o)
    (if MonitorTick o <=? 0 then 10 * second else MonitorTick o).

(** The options of [NewTXManager]: applied in order, then repaired. *)
Definition manager_options (opts : list (Options -> Options)) : Options :=
  repair (foldl (fun o f => f o) (mkOptions 0 0) opts).

Definition backOffTick (o : Options) (tick : Z) : Z :=
  let tick := s64 (Z.shiftl tick 1) in
  let threshold := s64 (Z.shiftl (MonitorTick o) 3) in
  if threshold <? tick then threshold else tick.

(** The tick [run] waits for, from the last one and the error of the last round. *)
Definition next_tick (o : Options) (tick : Z) (err : option string) : Z :=
  match err with None => MonitorTick o | Some _ => backOffTick o tick end.

(** ** Components and their registry *)

(** A component is known by its ID; [Try], [Confirm] and [Cancel] are calls. *)
Class TCCComponent (C : Type) := ID : C -> string.

Section Registry.
Context {C : Type} `{TCCComponent C}.

Definition newRegistryCenter : gmap string C := ∅.

Definition register (r : gmap string C) (component : C) : result string (gmap string C) :=
  match r !! ID component with
  | Some _ => Err "repeat component id"
  | None => Ok (<[ID component := component]> r)
  end.

Fixpoint registry_getComponents (r : gmap string C) (componentIDs : list string) : result string (list C) :=
  match componentIDs with
  | [] => Ok []
  | id :: ids =>
      match r !! id with
      | None => Err ("component id: " +:+ id +:+ " not existed")
      | Some c =>
          match registry_getComponents r ids with
          | Ok cs => Ok (c :: cs)
          | Err e => Err e
          end
      end
  end.

End Registry.

(** ** The store of transactions

    Time is an argument of [CreateTX], which stamps the record.  A read lists the
    components of a transaction in the order the store happens to give them: [ord]
    is that order.  [Lock] and [Unlock] are calls of the manager; no theorem about
    it needs them to exclude anybody. *)
Class TXStore (C S : Type) := {
  CreateTX : Z -> list C -> S -> result string string * S;
  TXUpdate : string -> string -> bool -> S -> result string unit * S;
  TXSubmit : string -> bool -> S -> result string unit * S;
  GetHangingTXs : (list ComponentTryEntity -> list ComponentTryEntity) -> S -> result string (list Transaction);
  GetTX : (list ComponentTryEntity -> list ComponentTryEntity) -> string -> S -> result string Transaction
}.

(** ** Calls *)

Inductive call (C D : Type) : Type -> Type :=
  | CNow : call C D Z
  | CLookup (componentIDs : list string) : call C D (result string (list C))
  | CTry (c : C) (req : TCCReq D) : call C D answer
  | CConfirm (c : C) (txID : string) : call C D answer
  | CCancel (c : C) (txID : string) : call C D answer
  | CTXUpdate (txID componentID : string) (accept : bool) : call C D (result string unit)
  | CTXSubmit (txID : string) (success : bool) : call C D (result string unit)
  | CGetTX (txID : string) : call C D (result string Transaction)
  | CGetHangingTXs : call C D (result string (list Transaction))
  | CLock (expire : Z) : call C D (result string unit)
  | CUnlock : call C D (result string unit)
  (** start the workers of [batchAdvanceProgress] and wait for them *)
  | CBatch (txs : list Transaction) : call C D (option string).
Arguments CNow {C D}.
Arguments CLookup {C D} _.
Arguments CTry {C D} _ _.
Arguments CConfirm {C D} _ _.
Arguments CCancel {C D} _ _.
Arguments CTXUpdate {C D} _ _ _.
Arguments CTXSubmit {C D} _ _.
Arguments CGetTX {C D} _.
Arguments CGetHangingTXs {C D}.
Arguments CLock {C D} _.
Arguments CUnlock {C D}.
Arguments CBatch {C D} _.

(** ** The manager *)

Section Manager.
Context {C D : Type} `{TCCComponent C} (opts : Options).
Abbreviation prog := (prog (call C D)).

Record RequestEntity := mkRequest { re_ComponentID : string; re_Request : D }.

Record ComponentEntity := mkEntity { ce_Request : D; ce_Component : C }.

Definition ToComponents (l : list ComponentEntity) : list C := map ce_Component l.

Definition ack_failed (id : string) : string := "component: " +:+ id +:+ " ack failed".

Definition try_failed (id : string) : string := "component: " +:+ id +:+ " try failed".

(** The second phase: every component confirms or cancels, then the store is
    told. *)
Fixpoint finish (success : bool) (txID : string) (l : list ComponentTryEntity) : prog (option string) :=
  match l with
  | [] =>
      r ← ask (CTXSubmit txID success);
      mret (match r with Ok _ => None | Err e => Some e end)
  | component :: l =>
      components ← ask (CLookup [te_ComponentID component]);
      match components with
      | Err _ | Ok [] => mret (Some "get tcc component failed")
      | Ok (c :: _) =>
          resp ← ask (if success then CConfirm c txID else CCancel c txID);
          match resp with
          | Err e => mret (Some e)
          | Ok None => mret (Some (ack_failed (te_ComponentID component)))
          | Ok (Some resp) =>
              if rs_ACK resp then finish success txID l
              else mret (Some (ack_failed (te_ComponentID component)))
          end
      end
  end.

(** [advanceProgress] once the clock has been read. *)
Definition advance_at (tx : Transaction) (now : Z) : prog (option string) :=
  let txStatus := getStatus tx (now - Timeout opts) in
  if decide (txStatus = TXHanging) then mret None
  else finish (bool_decide (txStatus = TXSuccessful)) (TXID tx) (Components tx).

Definition advanceProgress (tx : Transaction) : prog (option string) :=
  now ← ask CNow; advance_at tx now.

Definition advanceProgressByTXID (txID : string) : prog (option string) :=
  r ← ask (CGetTX txID);
  match r with
  | Err e => mret (Some e)
  | Ok tx => advanceProgress tx
  end.

(** A goroutine of the first phase, after the answer to its [Try]; what it sends to
    [errCh], if anything, is the last thing it does and its result. *)
Definition after_try (txID : string) (e : ComponentEntity) (r : answer) : prog (option string) :=
  if acked r then
    u ← ask (CTXUpdate txID (ID (ce_Component e)) true);
    mret (match u with Ok _ => None | Err err => Some err end)
  else
    _ ← ask (CTXUpdate txID (ID (ce_Component e)) false);
    mret (Some (try_failed (ID (ce_Component e)))).

Definition try_one (txID : string) (e : ComponentEntity) : prog (option string) :=
  r ← ask (CTry (ce_Component e) (mkReq (ID (ce_Component e)) txID (ce_Request e)));
  after_try txID e r.

(** One round of the loop of [run]; the error it leaves in [err]. *)
Definition monitor_round : prog (option string) :=
  l ← ask (CLock (s64 (Timeout opts + second)));
  match l with
  | Err _ => mret None
  | Ok _ =>
      r ← ask CGetHangingTXs;
      match r with
      | Err e => _ ← ask CUnlock; mret (Some e)
      | Ok txs =>
          err ← ask (CBatch txs);
          _ ← ask CUnlock;
          mret err
      end
  end.

(** [getComponents]: the requests by component, then the components in the order of
    the requests.  A nil request is [None]. *)
Fixpoint collect (reqs : list (option RequestEntity)) (idToReq : gmap string RequestEntity) :
    result string (gmap string RequestEntity * list string) :=
  match reqs with
  | [] => Ok (idToReq, [])
  | None :: _ => Err "invalid component request"
  | Some req :: reqs =>
      if decide (re_ComponentID req = "") then Err "invalid component request"
      else
        match idToReq !! re_ComponentID req with
        | Some _ => Err ("repeat component: " +:+ re_ComponentID req)
        | None =>
            match collect reqs (<[re_ComponentID req := req]> idToReq) with
            | Ok (m, ids) => Ok (m, re_ComponentID req :: ids)
            | Err e => Err e
            end
        end
  end.

(** [idToReq[component.ID()].Request] dereferences a nil pointer when the ID has no
    request. *)
Fixpoint entities (idToReq : gmap string RequestEntity) (cs : list C) : outcome (list ComponentEntity) :=
  match cs with
  | [] => Ret []
  | c :: cs =>
      match idToReq !! ID c with
      | None => Panic "nil pointer dereference"
      | Some req => l ← entities idToReq cs; Ret (mkEntity (re_Request req) c :: l)
      end
  end.

Definition getComponents (r : gmap string C) (reqs : list (option RequestEntity)) :
    outcome (result string (list ComponentEntity)) :=
  match reqs with
  | [] => Ret (Err "empty task")
  | _ =>
      match collect reqs ∅ with
      | Err e => Ret (Err e)
      | Ok (idToReq, ids) =>
          match registry_getComponents r ids with
          | Err e => Ret (Err e)
          | Ok cs =>
              if decide (length ids <> length cs) then Ret (Err "invalid componentIDs ")
              else l ← entities idToReq cs; Ret (Ok l)
          end
      end
  end.

End Manager.
Arguments RequestEntity D : clear implicits.
Arguments ComponentEntity C D : clear implicits.

(** ** Back-off *)

(** the monitor backs off exponentially, up to eight ticks.  After [n] rounds that
    failed in a row it waits for [MonitorTick * 2^n], or [8 * MonitorTick] if that is
    less; a round that succeeds brings it back to [MonitorTick]. *)
Theorem backoff_bounded o n err : 0 < MonitorTick o < 576460752303423488 ->
  let tick := Nat.iter n (fun tick => next_tick o tick (Some err)) (MonitorTick o) in
  tick = Z.min (MonitorTick o * 2 ^ Z.of_nat n) (8 * MonitorTick o) /\ next_tick o tick None = MonitorTick o.
Proof.
  intros Hm. simpl. split; [| done]. induction n as [| n IH]; [simpl Nat.iter; rewrite Z.pow_0_r; lia |].
  rewrite Nat.iter_succ, IH. unfold next_tick, backOffTick. rewrite !Z.shiftl_mul_pow2 by done.
  change (2 ^ 1) with 2. change (2 ^ 3) with 8. rewrite Nat2Z.inj_succ, Z.pow_succ_r by lia.
  pose proof (Z.pow_pos_nonneg 2 (Z.of_nat n) ltac:(lia) ltac:(lia)) as Hp.
  set (p := 2 ^ Z.of_nat n) in *. rewrite !s64_small by nia. zcase; nia.
Qed.

Lemma backoff_bounded_witness :
  Nat.iter 2 (fun tick => next_tick (mkOptions 5 10) tick (Some "down")) 10 = 40 /\
  Nat.iter 5 (fun tick => next_tick (mkOptions 5 10) tick (Some "down")) 10 = 80.
Proof.
  split; [apply (backoff_bounded (mkOptions 5 10) 2 "down") | apply (backoff_bounded (mkOptions 5 10) 5 "down")]; by vm_compute.
Defined.
