(* ===== verification/TccSafety.v ===== *)
(** * TCC transactions: interleavings of the manager's goroutines

    Any number of transactions and monitor rounds run against one store; their
    calls interleave, take time, fail and lose replies.  A goroutine keeps a
    weakest precondition over the worlds the others may bring about ([wp]), and
    the invariant of the system follows by rule induction.  The last section has
    the theorems on the two phases. *)
From S2P Require Import Prelude GoProg TccModel.

(** ** What a store promises *)

Record TxView := mkView { v_try : gmap string string; v_status : string; v_created : Z }.

Definition try_status (accept : bool) : string := if accept then TrySuccessful else TryFailure.
Definition tx_status (success : bool) : string := if success then TXSuccessful else TXFailure.

Definition set_try (w : TxView) (id st : string) : TxView :=
  mkView (<[id := st]> (v_try w)) (v_status w) (v_created w).

Definition set_status (w : TxView) (st : string) : TxView := mkView (v_try w) st (v_created w).

(** The transaction [t] is [w], its components in any order. *)
Definition shows (w : TxView) (t : Transaction) : Prop :=
  CreatedAt t = v_created w /\
  Components t ≡ₚ map (fun x => mkTry x.1 x.2) (map_to_list (v_try w)).

Definition reorders (ord : list ComponentTryEntity -> list ComponentTryEntity) : Prop := forall l, ord l ≡ₚ l.

Class TXStoreLaws (C S : Type) `{TCCComponent C, TXStore C S} := {
  store_rep : S -> gmap string TxView -> Prop;
  id_ok : string -> Prop;
  CreateTX_law now cs s v : store_rep s v -> Forall (fun c => id_ok (ID c)) cs ->
    let '(r, s') := CreateTX now cs s in
    match r with
    | Ok id => v !! id = None /\
        store_rep s' (<[id := mkView (list_to_map (map (fun c => (ID c, TryHanging)) cs)) TXHanging now]> v)
    | Err _ => store_rep s' v
    end;
  TXUpdate_law txID id accept s v w : store_rep s v -> v !! txID = Some w ->
    let '(r, s') := TXUpdate txID id accept s in
    match r with
    | Ok _ => (v_try w !! id = Some (try_status accept) /\ store_rep s' v) \/
        (v_try w !! id = Some TryHanging /\ store_rep s' (<[txID := set_try w id (try_status accept)]> v))
    | Err _ => store_rep s' v
    end;
  TXSubmit_law txID success s v w : store_rep s v -> v !! txID = Some w ->
    let '(r, s') := TXSubmit txID success s in
    match r with
    | Ok _ => v_status w <> tx_status (negb success) /\
        store_rep s' (<[txID := set_status w (tx_status success)]> v)
    | Err _ => store_rep s' v
    end;
  GetTX_law ord txID s v w t : reorders ord -> store_rep s v -> v !! txID = Some w ->
    GetTX ord txID s = Ok t -> TXID t = txID /\ shows w t;
  GetHangingTXs_law ord s v l : reorders ord -> store_rep s v -> GetHangingTXs ord s = Ok l ->
    Forall (fun t => exists w, v !! TXID t = Some w /\ v_status w = TXHanging /\ shows w t) l
}.

(** ** The system *)

Inductive event :=
  | EvTry (id txID : string) (ack : bool)
  | EvConfirm (id txID : string)
  | EvCancel (id txID : string).

Section System.
Context {C D S : Type} `{HC : !TCCComponent C} `{HS : !TXStore C S} `{HL : !TXStoreLaws C S} (opts : Options).
(** Whether contexts and clocks are punctual: a call on a context that is past its
    deadline changes nothing, and no time passes between the moment a goroutine reads
    a transaction and the moment it judges its age. *)
Context (timely : bool).
Abbreviation prog := (prog (call C D)).

Record env := mkEnv { e_store : S; e_clock : Z; e_reg : gmap string C; e_log : list event }.

Definition log (ev : event) (E : env) : env := mkEnv (e_store E) (e_clock E) (e_reg E) (e_log E ++ [ev]).
Definition set_store (s : S) (E : env) : env := mkEnv s (e_clock E) (e_reg E) (e_log E).

(** A call that changes the store: it fails before, or happens and may lose its
    reply. *)
Definition store_op (live : Prop) (f : S -> result string unit * S) (x : result string unit) (E E' : env) : Prop :=
  ((exists e, x = Err e) /\ E' = E) \/
  (live /\ exists y s', f (e_store E) = (y, s') /\ (x = y \/ exists e, x = Err e) /\ E' = set_store s' E).

Definition read_op {A} (f : S -> result string A) (x : result string A) (E E' : env) : Prop :=
  E' = E /\ (x = f (e_store E) \/ exists e, x = Err e).

(** What a call may answer, and what it leaves. *)
Definition does (live : Prop) (E : env) {R} (c : call C D R) : R -> env -> Prop :=
  match c in call _ _ R return R -> env -> Prop with
  | CNow => fun x E' => x = e_clock E /\ E' = E
  | CLookup ids => fun x E' => x = registry_getComponents (e_reg E) ids /\ E' = E
  | CTry c req => fun x E' => E' = log (EvTry (ID c) (rq_TXID req) (acked x)) E
  | CConfirm c txID => fun _ E' => E' = log (EvConfirm (ID c) txID) E
  | CCancel c txID => fun _ E' => E' = log (EvCancel (ID c) txID) E
  | CTXUpdate txID id accept => fun x E' => store_op live (TXUpdate txID id accept) x E E'
  | CTXSubmit txID success => fun x E' => store_op True (TXSubmit txID success) x E E'
  | CGetTX txID => fun x E' => exists ord, reorders ord /\ read_op (GetTX ord txID) x E E'
  | CGetHangingTXs => fun x E' => exists ord, reorders ord /\ read_op (GetHangingTXs ord) x E E'
  | CLock _ | CUnlock => fun _ E' => E' = E
  | CBatch _ => fun _ E' => E' = E
  end.

(** A goroutine that advances transactions, or a monitor; [th_read] is the time at
    which it last read the store. *)
Record thread := mkThread { th_read : Z; th_prog : prog (option string) }.

Inductive phase :=
  | Waiting
  | Draining
  | Advancing (successful : bool) (thread : nat)
  | Returned (successful : bool).

(** [twoPhaseCommit]: the goroutines of the first phase, the deadline of their
    context, and where the goroutine that started them is: before the first receive
    from [errCh], receiving the rest, in [advanceProgressByTXID], or done.  [errCh]
    holds the results of the goroutines that are done; it has room for all of them. *)
Record run := mkRun {
  r_tx : string;
  r_entities : list (ComponentEntity C D);
  r_deadline : Z;
  r_tries : list (prog (option string));
  r_phase : phase
}.

Definition set_try_prog (j : nat) (p : prog (option string)) (r : run) : run :=
  mkRun (r_tx r) (r_entities r) (r_deadline r) (<[j := p]> (r_tries r)) (r_phase r).
Definition set_phase (p : phase) (r : run) : run :=
  mkRun (r_tx r) (r_entities r) (r_deadline r) (r_tries r) p.

Record sys := mkSys { s_env : env; s_threads : list thread; s_runs : list run }.

Definition is_read {R} (c : call C D R) : bool :=
  match c with CGetTX _ | CGetHangingTXs => true | _ => false end.

Definition is_now {R} (c : call C D R) : bool := match c with CNow => true | _ => false end.

(** The transactions a call hands to workers. *)
Definition batch {R} (c : call C D R) : list Transaction := match c with CBatch txs => txs | _ => [] end.

Definition finished (p : prog (option string)) : Prop := exists a, p = Done a.

Inductive step : sys -> sys -> Prop :=
  | step_tick E T Rs t : e_clock E <= t ->
      step (mkSys E T Rs) (mkSys (mkEnv (e_store E) t (e_reg E) (e_log E)) T Rs)
  | step_register E T Rs c reg : id_ok (ID c) -> register (e_reg E) c = Ok reg ->
      step (mkSys E T Rs) (mkSys (mkEnv (e_store E) (e_clock E) reg (e_log E)) T Rs)
  (** [Transaction] up to [CreateTX]; its context has been running since [t0]. *)
  | step_begin E T Rs reqs l t0 deadline r s' :
      t0 <= e_clock E -> deadline <= t0 + Timeout opts ->
      getComponents (e_reg E) reqs = Ret (Ok l) ->
      CreateTX (e_clock E) (ToComponents l) (e_store E) = (r, s') ->
      step (mkSys E T Rs)
        (mkSys (set_store s' E) T
           (match r with
            | Ok txID => Rs ++ [mkRun txID l deadline (map (try_one txID) l) Waiting]
            | Err _ => Rs
            end))
  | step_try E T Rs i r j R (c : call C D R) k x E' :
      Rs !! i = Some r -> r_tries r !! j = Some (Call c k) ->
      does (timely = true -> e_clock E <= r_deadline r) E c x E' ->
      step (mkSys E T Rs) (mkSys E' T (<[i := set_try_prog j (k x) r]> Rs))
  | step_error E T Rs i r j e :
      Rs !! i = Some r -> r_phase r = Waiting -> r_tries r !! j = Some (Done (Some e)) ->
      step (mkSys E T Rs) (mkSys E T (<[i := set_phase Draining r]> Rs))
  | step_closed E T Rs i r b :
      Rs !! i = Some r -> Forall finished (r_tries r) ->
      (b = true /\ r_phase r = Waiting /\ Forall (fun p => p = Done None) (r_tries r)) \/
      (b = false /\ r_phase r = Draining) ->
      step (mkSys E T Rs)
        (mkSys E (T ++ [mkThread (e_clock E) (advanceProgressByTXID opts (r_tx r))])
           (<[i := set_phase (Advancing b (length T)) r]> Rs))
  | step_return E T Rs i r b n th :
      Rs !! i = Some r -> r_phase r = Advancing b n -> T !! n = Some th -> finished (th_prog th) ->
      step (mkSys E T Rs) (mkSys E T (<[i := set_phase (Returned b) r]> Rs))
  | step_monitor E T Rs :
      step (mkSys E T Rs) (mkSys E (T ++ [mkThread (e_clock E) (monitor_round opts)]) Rs)
  (** Workers that never get a job of the batch are goroutines that make no step. *)
  | step_thread E T Rs i th R (c : call C D R) k x E' :
      T !! i = Some th -> th_prog th = Call c k -> does True E c x E' ->
      (timely = true -> is_now c = true -> e_clock E = th_read th) ->
      step (mkSys E T Rs)
        (mkSys E'
           (<[i := mkThread (if is_read c then e_clock E else th_read th) (k x)]> T ++
            map (fun t => mkThread (th_read th) (advanceProgress opts t)) (batch c)) Rs).

Definition initial (s : sys) : Prop :=
  store_rep (e_store (s_env s)) ∅ /\ e_reg (s_env s) = ∅ /\ e_log (s_env s) = [] /\ s_threads s = [] /\ s_runs s = [].

Definition reachable (s : sys) : Prop := exists s0, initial s0 /\ rtc step s0 s.

(** ** Worlds *)

Record world := mkWorld { k_view : gmap string TxView; k_log : list event; k_clock : Z }.

(** What happens to a transaction: a status other than hanging stays, and so does
    every status once the time is up. *)
Record tx_le (late : Prop) (w w' : TxView) : Prop := {
  tl_created : v_created w' = v_created w;
  tl_dom : dom (v_try w') = dom (v_try w);
  tl_try id st : v_try w !! id = Some st -> st <> TryHanging -> v_try w' !! id = Some st;
  tl_late : timely = true -> late -> v_try w' = v_try w
}.

Definition late (K : world) (w : TxView) : Prop := v_created w + Timeout opts < k_clock K.

Record world_le (K K' : world) : Prop := {
  wl_view id w : k_view K !! id = Some w -> exists w', k_view K' !! id = Some w' /\ tx_le (late K w) w w';
  wl_log ev : ev ∈ k_log K -> ev ∈ k_log K';
  wl_clock : k_clock K <= k_clock K'
}.

Lemma tx_le_refl P w : tx_le P w w.
Proof. by split. Qed.

Lemma world_le_refl K : world_le K K.
Proof. split; [| done | done]. intros id w Hw. exists w. split; [done | apply tx_le_refl]. Qed.

Lemma world_le_trans K1 K2 K3 : world_le K1 K2 -> world_le K2 K3 -> world_le K1 K3.
Proof.
  intros [V1 L1 C1] [V2 L2 C2]. split; [| auto | lia].
  intros id w Hw. destruct (V1 id w Hw) as (w' & Hw' & E1). destruct (V2 id w' Hw') as (w'' & Hw'' & E2).
  exists w''. split; [done |]. destruct E1 as [a1 b1 c1 d1], E2 as [a2 b2 c2 d2]. split.
  - congruence.
  - congruence.
  - intros i st Hi Hs. auto.
  - intros Ht Hl. rewrite d2; [by apply d1 | done |]. unfold late in *. rewrite a1. lia.
Qed.

(** ** What a world says of a transaction *)

Definition all_succ (K : world) (txID : string) : Prop :=
  exists w, k_view K !! txID = Some w /\ forall id st, v_try w !! id = Some st -> st = TrySuccessful.

(** It cannot come to success any more. *)
Definition doomed (K : world) (txID : string) : Prop :=
  exists w, k_view K !! txID = Some w /\
    ((exists id, v_try w !! id = Some TryFailure) \/
     (timely = true -> late K w /\ exists id st, v_try w !! id = Some st /\ st <> TrySuccessful)).

(** [t] was read at [T0]. *)
Definition snapshot (K : world) (T0 : Z) (t : Transaction) : Prop :=
  exists w, k_view K !! TXID t = Some w /\ CreatedAt t = v_created w /\ T0 <= k_clock K /\
    (forall id st, v_try w !! id = Some st -> exists e, e ∈ Components t /\ te_ComponentID e = id) /\
    (forall e, e ∈ Components t -> exists st, v_try w !! te_ComponentID e = Some st /\
       (te_TryStatus e <> TryHanging -> st = te_TryStatus e) /\
       (timely = true -> v_created w + Timeout opts < T0 -> st = te_TryStatus e)).

Definition known (K : world) (txID : string) : Prop := is_Some (k_view K !! txID).

Lemma known_mono K K' txID : world_le K K' -> known K txID -> known K' txID.
Proof. intros [HV _ _] [w Hw]. destruct (HV _ _ Hw) as (w' & Hw' & _). by exists w'. Qed.

Lemma all_succ_mono K K' txID : world_le K K' -> all_succ K txID -> all_succ K' txID.
Proof.
  intros [HV _ _] (w & Hw & Hs). destruct (HV _ _ Hw) as (w' & Hw' & [_ Hd Ht _]). exists w'. split; [done |].
  intros id st Hi. assert (is_Some (v_try w !! id)) as [st0 H0].
  { apply elem_of_dom. rewrite <- Hd. by eapply elem_of_dom_2. }
  pose proof (Hs _ _ H0) as ->. rewrite (Ht id TrySuccessful) in Hi; [| done | done]. congruence.
Qed.

Lemma doomed_mono K K' txID : world_le K K' -> doomed K txID -> doomed K' txID.
Proof.
  intros [HV _ Hc] (w & Hw & Hs). destruct (HV _ _ Hw) as (w' & Hw' & [Hcr Hd Ht Hl]). exists w'. split; [done |].
  destruct Hs as [[id Hi] | Hs]; [left; exists id; by apply Ht |]. right. intros Htm.
  destruct (Hs Htm) as (Hlate & id & st & Hi & Hst). split; [unfold late in *; rewrite Hcr; lia |].
  exists id, st. by rewrite (Hl Htm Hlate).
Qed.

Lemma snapshot_mono K K' T0 t : world_le K K' -> snapshot K T0 t -> snapshot K' T0 t.
Proof.
  intros [HV _ Hc] (w & Hw & Hcr & H0 & Hin & Hst). destruct (HV _ _ Hw) as (w' & Hw' & [Hcr' Hd Ht Hl]).
  exists w'. split; [done |]. split; [congruence |]. split; [lia |]. split.
  - intros id st Hi. assert (is_Some (v_try w !! id)) as [st0 Hi0].
    { apply elem_of_dom. rewrite <- Hd. by eapply elem_of_dom_2. }
    eauto.
  - intros e He. destruct (Hst e He) as (st & Hi & H1 & H2).
    assert (is_Some (v_try w' !! te_ComponentID e)) as [st' Hi'].
    { apply elem_of_dom. rewrite Hd. by eapply elem_of_dom_2. }
    exists st'. split; [done |]. split.
    + intros Hne. pose proof (H1 Hne) as ->. rewrite (Ht _ _ Hi Hne) in Hi'. congruence.
    + intros Htm Hlt. rewrite Hcr' in Hlt. rewrite Hl in Hi'; [| done | unfold late; lia].
      rewrite Hi in Hi'. injection Hi' as <-. auto.
Qed.

(** Success is stable and excludes doom. *)
Lemma succ_not_doomed K txID : timely = true -> all_succ K txID -> doomed K txID -> False.
Proof.
  intros Ht (w & Hw & Hs) (w' & Hw' & Hd). rewrite Hw in Hw'. injection Hw' as <-.
  destruct Hd as [[id Hi] | Hd]; [by apply Hs in Hi |]. destruct (Hd Ht) as (_ & id & st & Hi & Hne). eauto.
Qed.
(** ** What a goroutine needs of the worlds it runs in *)

(** [dl]: the deadline of its context, for a goroutine of the first phase. *)
Definition pre (dl : option Z) (K : world) (T0 : Z) {R} (c : call C D R) : Prop :=
  match c with
  | CNow | CGetHangingTXs => dl = None
  | CConfirm _ txID => all_succ K txID
  | CCancel _ txID => doomed K txID
  | CTXUpdate txID id accept => exists d w, dl = Some d /\ k_view K !! txID = Some w /\
      d <= v_created w + Timeout opts /\ (accept = true -> EvTry id txID true ∈ k_log K)
  | CTXSubmit txID success => if success then all_succ K txID else doomed K txID
  | CGetTX txID => dl = None /\ known K txID
  | CBatch txs => Forall (snapshot K T0) txs
  | _ => True
  end.

Definition recorded (K : world) (txID id st : string) : Prop :=
  exists w, k_view K !! txID = Some w /\ v_try w !! id = Some st.

Definition post (K : world) (T0 : Z) {R} (c : call C D R) : R -> Prop :=
  match c in call _ _ R return R -> Prop with
  | CNow => fun x => x = k_clock K /\ (timely = true -> x = T0)
  | CTry c req => fun x => acked x = true -> EvTry (ID c) (rq_TXID req) true ∈ k_log K
  | CTXUpdate txID id accept => fun x => forall u, x = Ok u -> recorded K txID id (try_status accept)
  | CGetTX txID => fun x => forall t, x = Ok t -> TXID t = txID /\ snapshot K (k_clock K) t
  | CGetHangingTXs => fun x => forall l, x = Ok l -> Forall (snapshot K (k_clock K)) l
  | _ => fun _ => True
  end.

Fixpoint wp (dl : option Z) (Q : world -> option string -> Prop) (K : world) (T0 : Z)
    (p : prog (option string)) : Prop :=
  match p with
  | Done a => Q K a
  | Call c k => pre dl K T0 c /\
      forall x K', world_le K K' -> post K' T0 c x -> wp dl Q K' (if is_read c then k_clock K' else T0) (k x)
  end.

Lemma pre_mono dl K K' T0 R (c : call C D R) : world_le K K' -> pre dl K T0 c -> pre dl K' T0 c.
Proof.
  intros HK. destruct c; simpl; eauto using known_mono, all_succ_mono, doomed_mono.
  - intros (d & w & Hd & Hw & Hle & Hev). destruct (wl_view _ _ HK _ _ Hw) as (w' & Hw' & Htx).
    exists d, w'. split; [done |]. split; [done |]. rewrite (tl_created _ _ _ Htx). split; [done |].
    intros Ha. by apply (wl_log _ _ HK), Hev.
  - case_match; eauto using all_succ_mono, doomed_mono.
  - intros [? ?]. eauto using known_mono.
  - intros HF. eapply Forall_impl; [exact HF |]. intros t. by apply snapshot_mono.
Qed.

Lemma wp_mono dl Q K K' T0 p : (forall K K' a, world_le K K' -> Q K a -> Q K' a) ->
  world_le K K' -> wp dl Q K T0 p -> wp dl Q K' T0 p.
Proof.
  intros HQ HK. destruct p as [a | R c k]; simpl; [eauto |]. intros [Hp Hk].
  split; [by eapply pre_mono |]. intros x K2 HK2. apply Hk. by eapply world_le_trans.
Qed.

Lemma recorded_mono K K' txID id st : world_le K K' -> st <> TryHanging -> recorded K txID id st -> recorded K' txID id st.
Proof.
  intros HK Hst (w & Hw & Hi). destruct (wl_view _ _ HK _ _ Hw) as (w' & Hw' & Htx).
  exists w'. split; [done |]. by apply (tl_try _ _ _ Htx).
Qed.

(** ** The goroutines *)

Definition any (_ : world) (_ : option string) : Prop := True.

Lemma any_mono K K' a : world_le K K' -> any K a -> any K' a.
Proof. done. Qed.

Lemma finish_wp dl K T0 (success : bool) txID l :
  (if success then all_succ K txID else doomed K txID) -> wp dl any K T0 (finish success txID l).
Proof.
  revert K. induction l as [| e l IH]; intros K HK; simpl.
  - split; [done |]. by intros.
  - split; [done |]. intros cs K1 H1 _.
    assert (if success then all_succ K1 txID else doomed K1 txID) as HK1
      by (destruct success; eauto using all_succ_mono, doomed_mono).
    destruct cs as [[| c cs] | err]; [done | | done]. destruct success; simpl.
    + split; [done |]. intros [[resp |] | err] K2 H2 _; [| done | done]. case_match; [| done].
      apply IH. eauto using all_succ_mono.
    + split; [done |]. intros [[resp |] | err] K2 H2 _; [| done | done]. case_match; [| done].
      apply IH. eauto using doomed_mono.
Qed.

Lemma scan_statuses_spec l h :
  match scan_statuses l h with
  | None => exists e, e ∈ l /\ te_TryStatus e = TryFailure
  | Some b => b = true /\ (h = true \/ exists e, e ∈ l /\ te_TryStatus e <> TrySuccessful) \/
              b = false /\ h = false /\ forall e, e ∈ l -> te_TryStatus e = TrySuccessful
  end.
Proof.
  revert h. induction l as [| e l IH]; intros h; simpl.
  - destruct h; [left; auto | right]. split_and!; try done. by intros e ?%not_elem_of_nil.
  - case_decide as Hf; [exists e; split; [left | done] |].
    specialize (IH (h || bool_decide (te_TryStatus e <> TrySuccessful))). case_match.
    + destruct IH as [(-> & IH) | (-> & Hh & IH)].
      * left. split; [done |]. destruct IH as [Hh | (e' & He & Hs)].
        -- apply orb_true_iff in Hh as [-> | Hh]; [by left |]. apply bool_decide_eq_true in Hh.
           right. exists e. split; [left | done].
        -- right. exists e'. split; [by right | done].
      * right. apply orb_false_iff in Hh as [-> Hh]. apply bool_decide_eq_false, dec_stable in Hh. split_and!; try done.
        by intros e' [-> | He]%elem_of_cons; [| apply IH].
    + destruct IH as (e' & He & Hs). exists e'. split; [by right | done].
Qed.

(** What the verdicts of [getStatus] rest on. *)
Lemma getStatus_spec t b :
  (getStatus t b = TXFailure /\
     ((exists e, e ∈ Components t /\ te_TryStatus e = TryFailure) \/
      (CreatedAt t < b /\ exists e, e ∈ Components t /\ te_TryStatus e <> TrySuccessful))) \/
  (getStatus t b = TXHanging /\ b <= CreatedAt t /\
     exists e, e ∈ Components t /\ te_TryStatus e <> TrySuccessful) \/
  (getStatus t b = TXSuccessful /\ forall e, e ∈ Components t -> te_TryStatus e = TrySuccessful).
Proof.
  unfold getStatus. pose proof (scan_statuses_spec (Components t) false) as Hs. case_match; [| left; auto].
  destruct Hs as [(-> & [? | Hs]) | (-> & _ & Hs)]; [done | | right; right; auto]. simpl.
  zcase; [left; auto | right; left; auto].
Qed.

Lemma advance_wp K T0 t : snapshot K T0 t -> wp None any K T0 (advanceProgress opts t).
Proof.
  intros Hsn. split; [done |]. intros now K' HK [-> Hnow]. change (wp None any K' T0 (advance_at opts t (k_clock K'))).
  eapply snapshot_mono in Hsn; [| exact HK]. clear HK. destruct Hsn as (w & Hw & Hcr & H0 & Hin & Hst).
  unfold advance_at. destruct (getStatus_spec t (k_clock K' - Timeout opts)) as [[-> Hv] | [[-> Hv] | [-> Hv]]].
  - change (wp None any K' T0 (finish false (TXID t) (Components t))). apply finish_wp. exists w. split; [done |].
    destruct Hv as [(e & He & Hf) | (Hlt & e & He & Hs)].
    + left. destruct (Hst e He) as (st & Hi & H1 & _). exists (te_ComponentID e). rewrite Hi, H1, Hf; [done |]. by rewrite Hf.
    + right. intros Ht. pose proof (Hnow Ht) as HT. split; [unfold late; lia |].
      destruct (Hst e He) as (st & Hi & _ & H2). exists (te_ComponentID e), st. split; [done |].
      rewrite H2; [done | done | lia].
  - done.
  - change (wp None any K' T0 (finish true (TXID t) (Components t))). apply finish_wp. exists w. split; [done |].
    intros id st Hi. destruct (Hin id st Hi) as (e & He & <-). destruct (Hst e He) as (st' & Hi' & H1 & _).
    rewrite Hi in Hi'. injection Hi' as <-. rewrite H1; [by apply Hv |]. by rewrite (Hv e He).
Qed.

Lemma advance_by_id_wp K T0 txID : known K txID -> wp None any K T0 (advanceProgressByTXID opts txID).
Proof.
  intros Hk. split; [done |]. intros [t | e] K' HK Hp; [| done]. destruct (Hp t eq_refl) as [_ Hsn]. by apply advance_wp.
Qed.

Lemma monitor_wp K T0 : wp None any K T0 (monitor_round opts).
Proof.
  split; [done |]. intros [[] | e] K1 _ _; [| done]. split; [done |]. intros [l | e] K2 _ Hp.
  - split; [by apply Hp |]. intros err K3 _ _. split; [done |]. by intros.
  - split; [done |]. by intros.
Qed.

(** A goroutine of the first phase that sends no error has recorded the success of
    its component. *)
Definition tried (txID id : string) (K : world) (a : option string) : Prop :=
  a = None -> recorded K txID id TrySuccessful.

Lemma tried_mono txID id K K' a : world_le K K' -> tried txID id K a -> tried txID id K' a.
Proof. intros HK Ht Ha. eapply recorded_mono; [done | done | by apply Ht]. Qed.

Lemma try_wp K d w txID e : k_view K !! txID = Some w -> d <= v_created w + Timeout opts ->
  wp (Some d) (tried txID (ID (ce_Component e))) K 0 (try_one txID e).
Proof.
  intros Hw Hd. split; [done |]. intros r K1 H1 Hp. simpl in Hp.
  destruct (wl_view _ _ H1 _ _ Hw) as (w1 & Hw1 & Htx). pose proof (tl_created _ _ _ Htx) as Hcr.
  change (wp (Some d) (tried txID (ID (ce_Component e))) K1 0 (after_try txID e r)).
  unfold after_try. destruct (acked r) eqn:Er; simpl.
  - split; [exists d, w1; split_and!; [done | done | lia | by intros; apply Hp] |].
    intros [u | err] K2 H2 Hq; [intros _; by apply (Hq u) | done].
  - split; [exists d, w1; split_and!; [done | done | lia | done] |]. by intros x K2 _ _.
Qed.

(** ** The invariant *)

Definition W (E : env) (V : gmap string TxView) : world := mkWorld V (e_log E) (e_clock E).

(** Every component acknowledged its [Try] before the first [Confirm]. *)
Definition ordered (V : gmap string TxView) (lg : list event) : Prop :=
  forall l1 l2 id txID, lg = l1 ++ EvConfirm id txID :: l2 ->
  exists w, V !! txID = Some w /\ forall i, i ∈ dom (v_try w) -> EvTry i txID true ∈ l1.

Record env_ok (E : env) (V : gmap string TxView) : Prop := {
  eo_rep : store_rep (e_store E) V;
  eo_reg id c : e_reg E !! id = Some c -> ID c = id /\ id_ok id;
  eo_acked txID w id : V !! txID = Some w -> v_try w !! id = Some TrySuccessful -> EvTry id txID true ∈ e_log E;
  eo_confirm id txID : EvConfirm id txID ∈ e_log E -> all_succ (W E V) txID;
  eo_cancel id txID : EvCancel id txID ∈ e_log E -> doomed (W E V) txID;
  eo_status txID w b : V !! txID = Some w -> v_status w = tx_status b ->
    if b then all_succ (W E V) txID else doomed (W E V) txID;
  eo_order : ordered V (e_log E)
}.

Lemma ordered_mono K K' lg : world_le K K' -> ordered (k_view K) lg -> ordered (k_view K') lg.
Proof.
  intros HK Ho l1 l2 id txID Hl. destruct (Ho l1 l2 id txID Hl) as (w & Hw & Hd).
  destruct (wl_view _ _ HK _ _ Hw) as (w' & Hw' & Htx). exists w'. split; [done |].
  by rewrite (tl_dom _ _ _ Htx).
Qed.

Lemma ordered_snoc V lg ev : ordered V lg ->
  (forall id txID, ev = EvConfirm id txID ->
     exists w, V !! txID = Some w /\ forall i, i ∈ dom (v_try w) -> EvTry i txID true ∈ lg) ->
  ordered V (lg ++ [ev]).
Proof using Type.
  intros Ho Hev l1 l2 id txID Hl. destruct l2 as [| e2 l2 _] using rev_ind.
  - apply app_inj_tail in Hl as [-> ->]. by apply (Hev id).
  - change (l1 ++ EvConfirm id txID :: (l2 ++ [e2])) with (l1 ++ (EvConfirm id txID :: l2) ++ [e2]) in Hl.
    rewrite app_assoc in Hl. apply app_inj_tail in Hl as [-> ->]. by eapply Ho.
Qed.

Lemma log_le E V ev : world_le (W E V) (W (log ev E) V).
Proof.
  split; simpl; [| set_solver | done]. intros id w Hw. exists w. split; [done | apply tx_le_refl].
Qed.

Lemma verdict_mono K K' txID (b : bool) : world_le K K' ->
  (if b then all_succ K txID else doomed K txID) -> if b then all_succ K' txID else doomed K' txID.
Proof. destruct b; [apply all_succ_mono | apply doomed_mono]. Qed.

(** An event of a component is recorded where its verdict allows it. *)
Lemma log_ok E V ev : env_ok E V ->
  match ev with
  | EvTry _ _ _ => True
  | EvConfirm _ txID => all_succ (W E V) txID
  | EvCancel _ txID => doomed (W E V) txID
  end -> env_ok (log ev E) V.
Proof.
  intros [Hrep Hreg Hack Hcf Hcc Hst Hord] Hev. pose proof (log_le E V ev) as Hle. split; simpl; try done.
  - intros txID w id Hw Hi. apply elem_of_app. left. eauto.
  - intros id txID [Hin | <-%list_elem_of_singleton]%elem_of_app; eauto using all_succ_mono.
  - intros id txID [Hin | <-%list_elem_of_singleton]%elem_of_app; eauto using doomed_mono.
  - apply ordered_snoc; [done |]. intros id txID ->. destruct Hev as (w & Hw & Hs). exists w. split; [done |].
    intros i [st Hi]%elem_of_dom. rewrite (Hs i st Hi) in Hi. eauto.
Qed.

Lemma view_le E E' V txID w w' : V !! txID = Some w -> tx_le (late (W E V) w) w w' ->
  e_log E' = e_log E -> e_clock E' = e_clock E -> world_le (W E V) (W E' (<[txID := w']> V)).
Proof.
  intros Hw Htx Hl Hc. split; simpl; [| by rewrite Hl | by rewrite Hc].
  intros id w0 Hw0. destruct (decide (id = txID)) as [-> | Hne].
  - exists w'. rewrite lookup_insert_eq. split; [done |]. rewrite Hw in Hw0. by injection Hw0 as <-.
  - exists w0. rewrite lookup_insert_ne by done. split; [done | apply tx_le_refl].
Qed.

(** A change of one record. *)
Lemma view_ok E s V txID w w' : env_ok E V -> V !! txID = Some w -> tx_le (late (W E V) w) w w' ->
  store_rep s (<[txID := w']> V) ->
  (forall id, v_try w' !! id = Some TrySuccessful -> v_try w !! id = Some TrySuccessful \/ EvTry id txID true ∈ e_log E) ->
  (forall b, v_status w' = tx_status b ->
     v_status w = tx_status b \/ (if b then all_succ (W E V) txID else doomed (W E V) txID)) ->
  env_ok (set_store s E) (<[txID := w']> V) /\ world_le (W E V) (W (set_store s E) (<[txID := w']> V)).
Proof.
  intros [Hrep Hreg Hack Hcf Hcc Hst Hord] Hw Htx Hrep' Hnew Hnst.
  assert (world_le (W E V) (W (set_store s E) (<[txID := w']> V))) as Hle by (by eapply view_le).
  split; [| done]. split; simpl; try done.
  - intros tx w0 id Hw0 Hi. destruct (decide (tx = txID)) as [-> | Hne].
    + rewrite lookup_insert_eq in Hw0. injection Hw0 as <-. destruct (Hnew id Hi) as [? | ?]; [by eapply Hack | done].
    + rewrite lookup_insert_ne in Hw0 by done. eauto.
  - intros id tx Hin. eapply all_succ_mono; [exact Hle | eauto].
  - intros id tx Hin. eapply doomed_mono; [exact Hle | eauto].
  - intros tx w0 b Hw0 Hs. eapply verdict_mono; [exact Hle |]. destruct (decide (tx = txID)) as [-> | Hne].
    + rewrite lookup_insert_eq in Hw0. injection Hw0 as <-. destruct (Hnst b Hs) as [? | ?]; [by eapply Hst | done].
    + rewrite lookup_insert_ne in Hw0 by done. by eapply Hst.
  - by apply (ordered_mono _ _ _ Hle).
Qed.

Lemma set_store_ok E s V : env_ok E V -> store_rep s V -> env_ok (set_store s E) V.
Proof. by intros [Hrep Hreg Hack Hcf Hcc Hst Hord] Hrep'; split. Qed.

Definition alive (dl : option Z) (E : env) : Prop :=
  match dl with Some d => timely = true -> e_clock E <= d | None => True end.

Lemma update_ok dl E V T0 txID id accept x E' : env_ok E V ->
  pre dl (W E V) T0 (CTXUpdate txID id accept) -> does (alive dl E) E (CTXUpdate txID id accept) x E' ->
  exists V', env_ok E' V' /\ world_le (W E V) (W E' V') /\ post (W E' V') T0 (CTXUpdate txID id accept) x.
Proof.
  intros HE (d & w & -> & Hw & Hd & Hev) [[[e ->] ->] | (Hlive & y & s' & Ef & Hx & ->)]; simpl in Hw.
  { exists V. split; [done |]. split; [apply world_le_refl |]. by intros u. }
  pose proof (TXUpdate_law txID id accept _ V w (eo_rep _ _ HE) Hw) as Hlaw. rewrite Ef in Hlaw.
  assert (forall V', (y = Ok tt -> recorded (W (set_store s' E) V') txID id (try_status accept)) ->
    post (W (set_store s' E) V') T0 (CTXUpdate txID id accept) x) as Hpost.
  { intros V' Hr [] ->. destruct Hx as [<- | [e He]]; [by apply Hr | done]. }
  destruct y as [[] | e].
  - destruct Hlaw as [[Hi Hrep] | [Hi Hrep]].
    + exists V. split; [by apply set_store_ok |]. split; [apply world_le_refl |]. apply Hpost. intros _. by exists w.
    + destruct (view_ok E s' V txID w (set_try w id (try_status accept)) HE Hw) as [HE' Hle]; [| done | | |].
      * split; simpl; [done | | |].
        -- apply set_eq. intros i. rewrite dom_insert_L, elem_of_union, elem_of_singleton.
           split; [intros [-> | ?]; [by eapply elem_of_dom_2 | done] | by right].
        -- intros i st Hi' Hst. rewrite lookup_insert_ne; [done | congruence].
        -- intros Ht Hlate. unfold late in Hlate. simpl in Hlate. specialize (Hlive Ht). lia.
      * intros i. simpl. destruct (decide (i = id)) as [-> | Hne].
        -- rewrite lookup_insert_eq. destruct accept; [intros _; right; auto | done].
        -- rewrite lookup_insert_ne by done. auto.
      * by left.
      * eexists. split; [exact HE' |]. split; [exact Hle |]. apply Hpost. intros _.
        exists (set_try w id (try_status accept)). simpl. by rewrite !lookup_insert_eq.
  - exists V. split; [by apply set_store_ok |]. split; [apply world_le_refl |]. by apply Hpost.
Qed.

Lemma tx_status_inj b b' : tx_status b = tx_status b' -> b = b'.
Proof. by destruct b, b'. Qed.

Lemma submit_ok E V T0 dl txID success x E' : env_ok E V ->
  pre dl (W E V) T0 (CTXSubmit txID success) -> store_op True (TXSubmit txID success) x E E' ->
  exists V', env_ok E' V' /\ world_le (W E V) (W E' V').
Proof.
  intros HE Hpre [[_ ->] | (_ & y & s' & Ef & _ & ->)]; [exists V; split; [done | apply world_le_refl] |].
  assert (exists w, V !! txID = Some w) as [w Hw].
  { destruct success; destruct Hpre as (w & Hw & _); eauto. }
  pose proof (TXSubmit_law txID success _ V w (eo_rep _ _ HE) Hw) as Hlaw. rewrite Ef in Hlaw. destruct y as [[] | e].
  - destruct Hlaw as [_ Hrep]. eexists. eapply (view_ok _ _ _ _ _ (set_status w (tx_status success))); [done | exact Hw | by split | exact Hrep | by left |].
    simpl. intros b Hb%tx_status_inj. subst. by right.
  - exists V. split; [by apply set_store_ok | apply world_le_refl].
Qed.

Lemma shows_snapshot E V t w : V !! TXID t = Some w -> shows w t -> snapshot (W E V) (e_clock E) t.
Proof.
  intros Hw [Hcr Hp]. exists w. split; [done |]. split; [done |]. split; [done |]. split.
  - intros id st Hi. exists (mkTry id st). split; [| done]. rewrite Hp. apply list_elem_of_fmap.
    exists (id, st). split; [done |]. by apply elem_of_map_to_list.
  - intros e He. rewrite Hp in He. apply list_elem_of_fmap in He as ([id st] & -> & Hi%elem_of_map_to_list). by exists st.
Qed.

(** Every call keeps the invariant of the environment, in a later world that has
    what the caller relies on. *)
Lemma does_ok dl E V T0 R (c : call C D R) x E' : env_ok E V -> pre dl (W E V) T0 c -> does (alive dl E) E c x E' ->
  (timely = true -> is_now c = true -> e_clock E = T0) ->
  exists V', env_ok E' V' /\ world_le (W E V) (W E' V') /\ post (W E' V') T0 c x.
Proof.
  intros HE Hpre Hdo Hnow.
  assert (E' = E -> post (W E V) T0 c x -> exists V', env_ok E' V' /\ world_le (W E V) (W E' V') /\ post (W E' V') T0 c x) as Hsame.
  { intros -> Hp. exists V. split; [done |]. split; [apply world_le_refl | done]. }
  destruct c; simpl in Hdo.
  - destruct Hdo as [-> ->]. apply Hsame; [done |]. split; [done | auto].
  - destruct Hdo as [-> ->]. by apply Hsame.
  - subst E'. exists V. split; [by apply log_ok |]. split; [apply log_le |]. simpl. intros ->. set_solver.
  - subst E'. exists V. split; [by apply log_ok |]. split; [apply log_le | done].
  - subst E'. exists V. split; [by apply log_ok |]. split; [apply log_le | done].
  - by eapply update_ok.
  - destruct (submit_ok _ _ _ _ _ _ _ _ HE Hpre Hdo) as (V' & ? & ?). by exists V'.
  - destruct Hdo as (ord & Hord & -> & Hx). apply Hsame; [done |]. intros t ->. destruct Hx as [Hx | [e ?]]; [| done].
    destruct Hpre as [_ [w Hw]]. destruct (GetTX_law ord txID _ V w t Hord (eo_rep _ _ HE) Hw (eq_sym Hx)) as [<- Hs].
    split; [done |]. by eapply shows_snapshot.
  - destruct Hdo as (ord & Hord & -> & Hx). apply Hsame; [done |]. intros l ->. destruct Hx as [Hx | [e ?]]; [| done].
    pose proof (GetHangingTXs_law ord _ V l Hord (eo_rep _ _ HE) (eq_sym Hx)) as HF.
    eapply Forall_impl; [exact HF |]. intros t (w & Hw & _ & Hs). by eapply shows_snapshot.
  - by apply Hsame.
  - by apply Hsame.
  - by apply Hsame.
Qed.

Lemma does_clock live E R (c : call C D R) x E' : does live E c x E' -> e_clock E' = e_clock E /\ e_reg E' = e_reg E.
Proof.
  destruct c; simpl; try (by intros ->); try (by intros [_ ->]); try (by intros (ord & _ & -> & _));
    by intros [[_ ->] | (_ & y & s' & _ & _ & ->)].
Qed.

Lemma pre_batch dl K T0 R (c : call C D R) : pre dl K T0 c -> Forall (snapshot K T0) (batch c).
Proof. destruct c; simpl; try done; intros; constructor. Qed.

Definition thread_ok (K : world) (th : thread) : Prop := wp None any K (th_read th) (th_prog th).

Lemma thread_ok_mono K K' th : world_le K K' -> thread_ok K th -> thread_ok K' th.
Proof. intros HK. apply wp_mono; [exact any_mono | done]. Qed.

Definition try_ok (K : world) (r : run) (e : ComponentEntity C D) (p : prog (option string)) : Prop :=
  wp (Some (r_deadline r)) (tried (r_tx r) (ID (ce_Component e))) K 0 p.

Record run_ok (K : world) (r : run) : Prop := {
  ro_view : exists w, k_view K !! r_tx r = Some w /\ r_deadline r <= v_created w + Timeout opts /\
    dom (v_try w) = list_to_set (map (fun e => ID (ce_Component e)) (r_entities r));
  ro_tries : Forall2 (try_ok K r) (r_entities r) (r_tries r);
  ro_phase : match r_phase r with
             | Advancing true _ | Returned true => Forall (fun p => p = Done None) (r_tries r)
             | _ => True
             end
}.

Lemma run_ok_mono K K' r : world_le K K' -> run_ok K r -> run_ok K' r.
Proof.
  intros HK [(w & Hw & Hd & Hdom) Ht Hp]. split; [| | done].
  - destruct (wl_view _ _ HK _ _ Hw) as (w' & Hw' & [Hcr Hd' _ _]). exists w'. split; [done |].
    rewrite Hcr, Hd'. done.
  - eapply Forall2_impl; [exact Ht |]. intros e p. apply wp_mono; [apply tried_mono | done].
Qed.

(** A run that got no error has the success of all its components recorded. *)
Lemma run_succ K r : run_ok K r -> Forall (fun p => p = Done None) (r_tries r) -> all_succ K (r_tx r).
Proof.
  intros [(w & Hw & _ & Hdom) Ht _] HF. exists w. split; [done |]. intros id st Hi.
  assert (id ∈ dom (v_try w)) as Hin by (by eapply elem_of_dom_2).
  rewrite Hdom, elem_of_list_to_set in Hin. apply list_elem_of_fmap in Hin as (e & -> & He).
  destruct (Forall2_in_l _ _ _ _ Ht He) as (p & Hp & Hok). rewrite Forall_forall in HF. rewrite (HF p Hp) in Hok.
  destruct (Hok eq_refl) as (w' & Hw' & Hs). congruence.
Qed.

Definition inv (s : sys) : Prop :=
  exists V, env_ok (s_env s) V /\ Forall (thread_ok (W (s_env s) V)) (s_threads s) /\
    Forall (run_ok (W (s_env s) V)) (s_runs s).

(** ** The components of a transaction *)

Lemma registry_found (r : gmap string C) ids cs : registry_getComponents r ids = Ok cs ->
  Forall2 (fun id c => r !! id = Some c) ids cs.
Proof using Type.
  revert cs. induction ids as [| id ids IH]; intros cs; simpl; [by intros [= <-] |].
  destruct (r !! id) eqn:E; [| done]. case_match; [| done]. intros [= <-]. constructor; auto.
Qed.

Lemma entities_components (m : gmap string (RequestEntity D)) (cs : list C) l :
  entities m cs = Ret l -> ToComponents l = cs.
Proof using Type.
  revert l. induction cs as [| c cs IH]; intros l; simpl; [by intros [= <-] |].
  case_match; [| done]. intros Hl. inv_bind. simpl. f_equal. auto.
Qed.

Lemma getComponents_found (r : gmap string C) (reqs : list (option (RequestEntity D))) l :
  getComponents r reqs = Ret (Ok l) -> Forall (fun c => exists id, r !! id = Some c) (ToComponents l).
Proof using Type.
  unfold getComponents. destruct reqs; [done |]. case_match; [| done]. destruct a as [m ids].
  case_match eqn:Er; [| done]. case_decide; [done |]. intros Hl. inv_bind.
  apply entities_components in Hb. rewrite Hb. apply registry_found in Er.
  apply Forall_forall. intros c Hc. destruct (Forall2_in_r _ _ _ _ Er Hc) as (id & _ & Hr). eauto.
Qed.

Lemma hanging_map (cs : list C) id st :
  (list_to_map (map (fun c => (ID c, TryHanging)) cs) : gmap string string) !! id = Some st -> st = TryHanging.
Proof using Type.
  intros Hi%elem_of_list_to_map_2. by apply list_elem_of_fmap in Hi as (c & [= -> ->] & _).
Qed.

Lemma hanging_dom (cs : list C) :
  dom (list_to_map (map (fun c => (ID c, TryHanging)) cs) : gmap string string) = list_to_set (map ID cs).
Proof using Type.
  rewrite dom_list_to_map_L. f_equal. by induction cs; f_equal/=.
Qed.

(** ** Steps *)

Lemma create_ok E V id w s' : env_ok E V -> V !! id = None -> store_rep s' (<[id := w]> V) ->
  (forall i st, v_try w !! i = Some st -> st = TryHanging) -> v_status w = TXHanging ->
  env_ok (set_store s' E) (<[id := w]> V) /\ world_le (W E V) (W (set_store s' E) (<[id := w]> V)).
Proof.
  intros [Hrep Hreg Hack Hcf Hcc Hst Hord] Hid Hrep' Htry Hh.
  assert (world_le (W E V) (W (set_store s' E) (<[id := w]> V))) as Hle.
  { split; simpl; [| done | done]. intros i w0 Hw0. exists w0. rewrite lookup_insert_ne by congruence.
    split; [done | apply tx_le_refl]. }
  split; [| done]. split; simpl; try done.
  - intros tx w0 i Hw0 Hi. destruct (decide (tx = id)) as [-> | Hne].
    + rewrite lookup_insert_eq in Hw0. injection Hw0 as <-. by apply Htry in Hi.
    + rewrite lookup_insert_ne in Hw0 by done. eauto.
  - intros i tx Hin. eapply all_succ_mono; [exact Hle | eauto].
  - intros i tx Hin. eapply doomed_mono; [exact Hle | eauto].
  - intros tx w0 b Hw0 Hs. eapply verdict_mono; [exact Hle |]. destruct (decide (tx = id)) as [-> | Hne].
    + rewrite lookup_insert_eq in Hw0. injection Hw0 as <-. rewrite Hh in Hs. by destruct b.
    + rewrite lookup_insert_ne in Hw0 by done. by eapply Hst.
  - by apply (ordered_mono _ _ _ Hle).
Qed.

Lemma begin_ok E V reqs l t0 deadline r s' : env_ok E V -> t0 <= e_clock E -> deadline <= t0 + Timeout opts ->
  getComponents (e_reg E) reqs = Ret (Ok l) -> CreateTX (e_clock E) (ToComponents l) (e_store E) = (r, s') ->
  exists V', env_ok (set_store s' E) V' /\ world_le (W E V) (W (set_store s' E) V') /\
    forall txID, r = Ok txID -> run_ok (W (set_store s' E) V') (mkRun txID l deadline (map (try_one txID) l) Waiting).
Proof.
  intros HE Ht0 Hd Hl Hc. pose proof (getComponents_found _ _ _ Hl) as HF.
  pose proof (CreateTX_law (e_clock E) (ToComponents l) _ V (eo_rep _ _ HE)) as Hlaw. rewrite Hc in Hlaw.
  assert (Forall (fun c => id_ok (ID c)) (ToComponents l)) as Hids.
  { eapply Forall_impl; [exact HF |]. intros c (id & Hr). by destruct (eo_reg _ _ HE _ _ Hr) as [-> ?]. }
  specialize (Hlaw Hids). destruct r as [txID | e].
  - destruct Hlaw as [Hid Hrep]. set (w := mkView _ _ _) in Hrep.
    destruct (create_ok E V txID w s' HE Hid Hrep) as [HE' Hle]; [by apply hanging_map | done |].
    eexists. split; [exact HE' |]. split; [exact Hle |]. intros id [= <-].
    assert (k_view (W (set_store s' E) (<[txID := w]> V)) !! txID = Some w) as Hw by (simpl; by rewrite lookup_insert_eq).
    split; simpl; [| | done].
    + exists w. split; [exact Hw |]. simpl. split; [lia |]. rewrite hanging_dom. f_equal. unfold ToComponents.
      by rewrite map_map.
    + apply Forall2_fmap_r, Forall_Forall2_diag, Forall_forall. intros e _. eapply try_wp; [exact Hw |]. simpl. lia.
  - exists V. split; [by apply set_store_ok |]. split; [apply world_le_refl | done].
Qed.

(** The goroutines and runs that a step does not touch. *)
Lemma others_ok K K' T Rs : world_le K K' -> Forall (thread_ok K) T -> Forall (run_ok K) Rs ->
  Forall (thread_ok K') T /\ Forall (run_ok K') Rs.
Proof.
  intros HK HT HR. split; eapply Forall_impl; try done; intros; eauto using thread_ok_mono, run_ok_mono.
Qed.

Lemma pre_try d K T0 R (c : call C D R) : pre (Some d) K T0 c -> is_now c = false /\ is_read c = false.
Proof. destruct c; simpl; try done. by intros [? _]. Qed.

Lemma inv_try E V T Rs i r j R (c : call C D R) k x E' :
  env_ok E V -> Forall (thread_ok (W E V)) T -> Forall (run_ok (W E V)) Rs ->
  Rs !! i = Some r -> r_tries r !! j = Some (Call c k) ->
  does (timely = true -> e_clock E <= r_deadline r) E c x E' -> inv (mkSys E' T (<[i := set_try_prog j (k x) r]> Rs)).
Proof.
  intros HE HT HR Hi Hj Hdo. pose proof (Forall_lookup_1 _ _ _ _ HR Hi) as Hr.
  destruct (Forall2_lookup_r _ _ _ _ _ (ro_tries _ _ Hr) Hj) as (e & He & Hok). destruct Hok as [Hpre Hk].
  destruct (pre_try _ _ _ _ _ Hpre) as [Hn Hrd].
  destruct (does_ok (Some (r_deadline r)) E V 0 R c x E') as (V' & HE' & Hle & Hpost); [done | done | done | congruence |].
  exists V'. split; [done |]. destruct (others_ok _ _ _ _ Hle HT HR) as [HT' HR']. split; [done |]. simpl.
  apply Forall_insert; [done |]. pose proof (run_ok_mono _ _ _ Hle Hr) as [Hv Ht Hp]. split; simpl; [done | |].
  - rewrite <- (list_insert_id _ _ _ He). apply Forall2_insert; [exact Ht |].
    specialize (Hk x _ Hle Hpost). by rewrite Hrd in Hk.
  - assert (~ Forall (fun p => p = Done None) (r_tries r)) as Hno.
    { intros HF. by apply (Forall_lookup_1 _ _ _ _ HF) in Hj. }
    destruct (r_phase r) as [| | [] ? | []]; done.
Qed.

Lemma inv_thread E V T Rs i th R (c : call C D R) k x E' :
  env_ok E V -> Forall (thread_ok (W E V)) T -> Forall (run_ok (W E V)) Rs ->
  T !! i = Some th -> th_prog th = Call c k -> does True E c x E' ->
  (timely = true -> is_now c = true -> e_clock E = th_read th) ->
  inv (mkSys E' (<[i := mkThread (if is_read c then e_clock E else th_read th) (k x)]> T ++
         map (fun t => mkThread (th_read th) (advanceProgress opts t)) (batch c)) Rs).
Proof.
  intros HE HT HR Hi Hp Hdo Hnow. pose proof (Forall_lookup_1 _ _ _ _ HT Hi) as Hth.
  unfold thread_ok in Hth. rewrite Hp in Hth. destruct Hth as [Hpre Hk].
  destruct (does_ok None E V (th_read th) R c x E') as (V' & HE' & Hle & Hpost); [done | done | done | done |].
  exists V'. split; [done |]. destruct (others_ok _ _ _ _ Hle HT HR) as [HT' HR']. split; [| done]. simpl.
  apply Forall_app. split.
  - apply Forall_insert; [done |]. specialize (Hk x _ Hle Hpost). unfold thread_ok. simpl.
    destruct (does_clock _ _ _ _ _ _ Hdo) as [<- _]. exact Hk.
  - apply Forall_map. eapply Forall_impl; [exact (pre_batch _ _ _ _ _ Hpre) |]. intros t Hs.
    apply advance_wp. by eapply snapshot_mono.
Qed.

Lemma inv_phase E V T Rs i r p : env_ok E V -> Forall (thread_ok (W E V)) T -> Forall (run_ok (W E V)) Rs ->
  Rs !! i = Some r ->
  match p with Advancing true _ | Returned true => Forall (fun p => p = Done None) (r_tries r) | _ => True end ->
  inv (mkSys E T (<[i := set_phase p r]> Rs)).
Proof.
  intros HE HT HR Hi Hp. exists V. split; [done |]. split; [done |]. simpl. apply Forall_insert; [done |].
  destruct (Forall_lookup_1 _ _ _ _ HR Hi) as [Hv Ht _]. by split.
Qed.

Lemma inv_initial s : initial s -> inv s.
Proof.
  destruct s as [E T Rs]. intros (Hrep & Hreg & Hlog & HT & HR). simpl in *. subst T Rs. exists ∅.
  split; [| by split; constructor]. split; simpl; rewrite ?Hreg, ?Hlog; try done; try set_solver.
  intros l1 l2 id txID Hl. by apply app_cons_not_nil in Hl.
Qed.

Lemma inv_tick E V t : env_ok E V -> e_clock E <= t ->
  env_ok (mkEnv (e_store E) t (e_reg E) (e_log E)) V /\
  world_le (W E V) (W (mkEnv (e_store E) t (e_reg E) (e_log E)) V).
Proof.
  intros [Hrep Hreg Hack Hcf Hcc Hst Hord] Ht.
  assert (world_le (W E V) (W (mkEnv (e_store E) t (e_reg E) (e_log E)) V)) as Hle.
  { split; simpl; [| done | done]. intros id w Hw. exists w. split; [done | apply tx_le_refl]. }
  split; [| done]. split; simpl; try done.
  - intros id txID Hin. eapply doomed_mono; [exact Hle | eauto].
  - intros txID w b Hw Hs. eapply verdict_mono; [exact Hle |]. by eapply Hst.
Qed.

Lemma inv_register E V c reg : env_ok E V -> id_ok (ID c) -> register (e_reg E) c = Ok reg ->
  env_ok (mkEnv (e_store E) (e_clock E) reg (e_log E)) V.
Proof.
  intros [Hrep Hreg Hack Hcf Hcc Hst Hord] Hid. unfold register. case_match; [done |]. intros [= <-]. split; simpl; try done.
  intros id c'. destruct (decide (id = ID c)) as [-> | Hne].
  - rewrite lookup_insert_eq. by intros [= <-].
  - rewrite lookup_insert_ne by done. auto.
Qed.

Lemma inv_step s s' : inv s -> step s s' -> inv s'.
Proof.
  intros (V & HE & HT & HR) Hs.
  destruct Hs as [E T Rs t Ht | E T Rs c reg Hid Hreg | E T Rs reqs l t0 deadline r s' Ht0 Hd Hl Hc
    | E T Rs i r j R c k x E' Hi Hj Hdo | E T Rs i r j e Hi Hp Hj | E T Rs i r b Hi Hfin Hb
    | E T Rs i r b n th Hi Hp Hn Hfin | E T Rs | E T Rs i th R c k x E' Hi Hp Hdo Hnow]; simpl in *.
  - destruct (inv_tick E V t HE Ht) as [HE' Hle]. exists V. split; [done |]. by eapply others_ok.
  - exists V. split; [by eapply inv_register |]. done.
  - destruct (begin_ok E V reqs l t0 deadline r s' HE Ht0 Hd Hl Hc) as (V' & HE' & Hle & Hrun).
    destruct (others_ok _ _ _ _ Hle HT HR) as [HT' HR']. exists V'. split; [done |]. split; [done |]. simpl.
    destruct r as [txID | e]; [| done]. apply Forall_app. split; [done |]. constructor; [by apply Hrun | constructor].
  - by eapply inv_try.
  - by eapply inv_phase.
  - eapply inv_phase; [done | | done | done |].
    + apply Forall_app. split; [done |]. constructor; [| constructor]. apply advance_by_id_wp.
      destruct (ro_view _ _ (Forall_lookup_1 _ _ _ _ HR Hi)) as (w & Hw & _). by exists w.
    + destruct Hb as [(-> & _ & HF) | [-> _]]; done.
  - eapply inv_phase; try done. destruct (Forall_lookup_1 _ _ _ _ HR Hi) as [_ _ Hph]. by rewrite Hp in Hph.
  - exists V. split; [done |]. split; [| done]. apply Forall_app. split; [done |]. constructor; [apply monitor_wp | constructor].
  - by eapply inv_thread.
Qed.

Lemma inv_reachable s : reachable s -> inv s.
Proof.
  intros (s0 & Hi & Hr). apply inv_initial in Hi. induction Hr; eauto using inv_step.
Qed.

(** ** Theorems *)

(** C10: a component is told to confirm only after every component of the transaction
    acknowledged its [Try]. *)
Theorem confirm_after_all_tries s r l1 l2 id e :
  reachable s -> r ∈ s_runs s -> e_log (s_env s) = l1 ++ EvConfirm id (r_tx r) :: l2 -> e ∈ r_entities r ->
  EvTry (ID (ce_Component e)) (r_tx r) true ∈ l1.
Proof.
  intros (V & HE & _ & HR)%inv_reachable Hr Hl He. rewrite Forall_forall in HR.
  destruct (ro_view _ _ (HR r Hr)) as (w & Hw & _ & Hd).
  destruct (eo_order _ _ HE _ _ _ _ Hl) as (w' & Hw' & Ht). simpl in Hw. rewrite Hw in Hw'. injection Hw' as <-.
  apply Ht. rewrite Hd. apply elem_of_list_to_set, list_elem_of_fmap. eauto.
Qed.

(** C9: with punctual contexts and clocks no transaction is both confirmed and cancelled. *)
Theorem never_both s a b txID :
  timely = true -> reachable s -> EvConfirm a txID ∈ e_log (s_env s) -> EvCancel b txID ∉ e_log (s_env s).
Proof.
  intros Ht (V & HE & _ & _)%inv_reachable Ha Hb.
  eapply succ_not_doomed; [done | by eapply (eo_confirm _ _ HE) | by eapply (eo_cancel _ _ HE)].
Qed.

(** a transaction that returned success has the acknowledgement of every component,
    and is never cancelled when contexts and clocks are punctual. *)
Theorem success_is_final s r :
  reachable s -> r ∈ s_runs s -> r_phase r = Returned true ->
  (forall e, e ∈ r_entities r -> EvTry (ID (ce_Component e)) (r_tx r) true ∈ e_log (s_env s)) /\
  (timely = true -> forall id, EvCancel id (r_tx r) ∉ e_log (s_env s)).
Proof.
  intros (V & HE & _ & HR)%inv_reachable Hr Hp. rewrite Forall_forall in HR. specialize (HR r Hr).
  pose proof (ro_phase _ _ HR) as Hph. rewrite Hp in Hph. pose proof (run_succ _ _ HR Hph) as Hs. split.
  - intros e He. destruct Hs as (w & Hw & Hs). destruct (ro_view _ _ HR) as (w' & Hw' & _ & Hd).
    rewrite Hw in Hw'. injection Hw' as <-.
    assert (ID (ce_Component e) ∈ dom (v_try w)) as [st Hst]%elem_of_dom.
    { rewrite Hd. apply elem_of_list_to_set, list_elem_of_fmap. eauto. }
    eapply (eo_acked _ _ HE); [exact Hw |]. by rewrite <- (Hs _ _ Hst).
  - intros Ht id Hin. eapply succ_not_doomed; [done | exact Hs |]. by eapply (eo_cancel _ _ HE).
Qed.

End System.
