(* ===== verification/TccStore.v ===== *)
(** * TCC transactions: the store on a table

    [components/tcc/example]: [dao/txrecord.go], [dao/option.go] and [txstore.go].
    The table is behind gorm, and the statuses of the components behind
    encoding/json: both are parameters with the laws the code relies on.  The store
    keeps the laws of [TXStoreLaws]. *)
From stdpp Require Import pretty.
From S2P Require Import Prelude GoStrings TccModel TccSafety.

(** ** Records *)

(** [gorm.Model] contributes the key and the time of creation. *)
Record TXRecordPO := mkPO {
  po_ID : Z;
  po_CreatedAt : Z;
  po_Status : string;
  po_ComponentTryStatuses : string
}.

Record ComponentTryStatus := mkStatus { cs_ComponentID : string; cs_TryStatus : string }.

(** ** gorm

    [db_create] fills the key and the time of creation.  [db_first] is [First] with
    a lock; the rows that match [Where] come in the order of the table. *)
Class TxTable (B : Type) := {
  db_create : Z -> TXRecordPO -> B -> result string TXRecordPO * B;
  db_first : Z -> B -> result string TXRecordPO;
  db_updates : TXRecordPO -> B -> result string unit * B;
  db_scan : (TXRecordPO -> bool) -> B -> result string (list TXRecordPO)
}.

(** [Updates] writes the fields that are not zero. *)
Definition nonzero (new old : string) : string := if decide (new = "") then old else new.

Definition updated (new old : TXRecordPO) : TXRecordPO :=
  mkPO (po_ID old) (if po_CreatedAt new =? 0 then po_CreatedAt old else po_CreatedAt new)
    (nonzero (po_Status new) (po_Status old)) (nonzero (po_ComponentTryStatuses new) (po_ComponentTryStatuses old)).

(** Any call may fail; the rows of the table are a map from keys to records. *)
Class TxTableLaws (B : Type) `{TxTable B} := {
  rows : B -> gmap Z TXRecordPO;
  rows_key b n po : rows b !! n = Some po -> po_ID po = n /\ 0 < n < 18446744073709551616;
  db_create_law now po b :
    match db_create now po b with
    | (Ok po', b') => po' = mkPO (po_ID po') now (po_Status po) (po_ComponentTryStatuses po) /\
        rows b !! po_ID po' = None /\ rows b' = <[po_ID po' := po']> (rows b)
    | (Err _, b') => rows b' = rows b
    end;
  db_first_law n b po : db_first n b = Ok po -> rows b !! n = Some po;
  db_updates_law po b :
    match db_updates po b with
    | (Ok _, b') => rows b' = alter (updated po) (po_ID po) (rows b)
    | (Err _, b') => rows b' = rows b
    end;
  db_scan_law f b l : db_scan f b = Ok l -> l ≡ₚ filter (fun po => f po = true) (map snd (map_to_list (rows b)))
}.

(** [db.Transaction]: what [f] did is kept if it returns nil. *)
Definition db_transaction {B} (f : B -> result string unit * B) (b : B) : result string unit * B :=
  match f b with
  | (Ok u, b') => (Ok u, b')
  | (Err e, _) => (Err e, b)
  end.

(** ** encoding/json on the statuses *)

Class StatusJson := {
  Marshal : gmap string ComponentTryStatus -> string;
  Unmarshal : string -> result string (gmap string ComponentTryStatus)
}.

Fixpoint ascii_only (s : string) : Prop :=
  match s with EmptyString => True | String c s => (Ascii.N_of_ascii c < 128)%N /\ ascii_only s end.

(** Strings of ASCII survive, and no object is written as nothing. *)
Class StatusJsonLaws `{StatusJson} := {
  json_back m : map_Forall (fun k st => ascii_only k /\ ascii_only (cs_ComponentID st) /\ ascii_only (cs_TryStatus st)) m ->
    Unmarshal (Marshal m) = Ok m;
  json_some m : Marshal m <> ""
}.

(** ** The DAO *)

Section Store.
Context {B C : Type} `{HB : !TxTable B} `{HJ : !StatusJson} `{HC : !TCCComponent C}.

(** [return record.ID, db.Create(record).Error]: Go leaves open whether the field is
    read before or after the call; [after] is the compiler's choice.  The same holds
    for [records] in [GetTXRecords]. *)
Context (after : bool).

Definition GetTXRecords (f : TXRecordPO -> bool) (b : B) : result string (list TXRecordPO) :=
  match db_scan f b with
  | Ok l => Ok (if after then l else [])
  | Err e => Err e
  end.

Definition WithID (id : Z) (po : TXRecordPO) : bool := po_ID po =? id.
Definition WithStatus (status : string) (po : TXRecordPO) : bool := bool_decide (po_Status po = status).

Definition CreateTXRecord (now : Z) (record : TXRecordPO) (b : B) : result string Z * B :=
  match db_create now record b with
  | (Ok record', b') => (Ok (if after then po_ID record' else po_ID record), b')
  | (Err e, b') => (Err e, b')
  end.

Definition UpdateTXRecord (record : TXRecordPO) (b : B) : result string unit * B := db_updates record b.

Definition LockAndDo (id : Z) (do_ : TXRecordPO -> B -> result string unit * B) (b : B) : result string unit * B :=
  db_transaction (fun b =>
    match db_first id b with
    | Err e => (Err e, b)
    | Ok record => do_ record b
    end) b.

Definition UpdateComponentStatus (id : Z) (componentID status : string) (b : B) : result string unit * B :=
  LockAndDo id (fun record b =>
    match Unmarshal (po_ComponentTryStatuses record) with
    | Err e => (Err e, b)
    | Ok statuses =>
        match statuses !! componentID with
        | None => (Err ("invalid component: " +:+ componentID +:+ " in txid: " +:+ pretty id), b)
        | Some st =>
            if decide (cs_TryStatus st = status) then (Ok tt, b)
            else if decide (cs_TryStatus st = TryHanging) then
              let body := Marshal (<[componentID := mkStatus (cs_ComponentID st) status]> statuses) in
              UpdateTXRecord (mkPO (po_ID record) (po_CreatedAt record) (po_Status record) body) b
            else (Err ("invalid status: " +:+ cs_TryStatus st +:+ " of component: " +:+ componentID +:+
                       ", txid: " +:+ pretty id), b)
        end
    end) b.

(** ** The store *)

Definition mock_CreateTX (now : Z) (components : list C) (b : B) : result string string * B :=
  let statuses := foldl (fun m c => <[ID c := mkStatus (ID c) TryHanging]> m) ∅ components in
  match CreateTXRecord now (mkPO 0 0 TXHanging (Marshal statuses)) b with
  | (Ok txID, b') => (Ok (pretty txID), b')
  | (Err e, b') => (Err e, b')
  end.

Definition mock_TXUpdate (txID componentID : string) (accept : bool) (b : B) : result string unit * B :=
  match ParseUint txID with
  | Err e => (Err e, b)
  | Ok id => UpdateComponentStatus id componentID (if accept then TXSuccessful else TXFailure) b
  end.

(** The components of a record; what does not parse has none, and the order of the
    map is [ord]. *)
Definition components_of (ord : list ComponentTryEntity -> list ComponentTryEntity) (record : TXRecordPO) :
    list ComponentTryEntity :=
  let statuses := match Unmarshal (po_ComponentTryStatuses record) with Ok m => m | Err _ => ∅ end in
  ord (map (fun x => mkTry (cs_ComponentID x.2) (cs_TryStatus x.2)) (map_to_list statuses)).

Definition mock_GetHangingTXs (ord : list ComponentTryEntity -> list ComponentTryEntity) (b : B) :
    result string (list Transaction) :=
  match GetTXRecords (WithStatus TryHanging) b with
  | Err e => Err e
  | Ok records =>
      Ok (map (fun r => mkTX (pretty (po_ID r)) (components_of ord r) TXHanging (po_CreatedAt r)) records)
  end.

Definition mock_TXSubmit (txID : string) (success : bool) (b : B) : result string unit * B :=
  let do_ (record : TXRecordPO) (b : B) : result string unit * B :=
    let forbidden := if success then TXFailure else TXSuccessful in
    if decide (po_Status record = forbidden)
    then (Err ("invalid tx status: " +:+ po_Status record +:+ ", txid: " +:+ txID), b)
    else
      let status := if success then TXSuccessful else TXFailure in
      UpdateTXRecord (mkPO (po_ID record) (po_CreatedAt record) status (po_ComponentTryStatuses record)) b in
  match ParseUint txID with
  | Err e => (Err e, b)
  | Ok id => LockAndDo id do_ b
  end.

Definition mock_GetTX (ord : list ComponentTryEntity -> list ComponentTryEntity) (txID : string) (b : B) :
    result string Transaction :=
  match ParseUint txID with
  | Err e => Err e
  | Ok id =>
      match GetTXRecords (WithID id) b with
      | Err e => Err e
      | Ok [record] => Ok (mkTX txID (components_of ord record) (po_Status record) (po_CreatedAt record))
      | Ok _ => Err "get tx failed"
      end
  end.

#[export] Instance MockTXStore : TXStore C B := {
  CreateTX := mock_CreateTX;
  TXUpdate := mock_TXUpdate;
  TXSubmit := mock_TXSubmit;
  GetHangingTXs := mock_GetHangingTXs;
  GetTX := mock_GetTX
}.

End Store.

(** ** The laws *)

Section Laws.
Context {B C : Type} `{HB : !TxTable B} `{HBL : !TxTableLaws B} `{HJ : !StatusJson} `{HJL : !StatusJsonLaws}
  `{HC : !TCCComponent C}.

Definition statuses_ok (m : gmap string ComponentTryStatus) : Prop :=
  map_Forall (fun k st => ascii_only k /\ cs_ComponentID st = k /\ ascii_only (cs_TryStatus st)) m.

Lemma statuses_back m : statuses_ok m -> Unmarshal (Marshal m) = Ok m.
Proof. intros Hm. apply json_back. intros k st Hk. destruct (Hm k st Hk) as (? & -> & ?). done. Qed.

Definition row_view (po : TXRecordPO) (m : gmap string ComponentTryStatus) : TxView :=
  mkView (cs_TryStatus <$> m) (po_Status po) (po_CreatedAt po).

(** A row of the table is the transaction of its number. *)
Record mock_rep (b : B) (V : gmap string TxView) : Prop := {
  mr_row n po : rows b !! n = Some po -> exists m, Unmarshal (po_ComponentTryStatuses po) = Ok m /\
    statuses_ok m /\ V !! pretty n = Some (row_view po m);
  mr_tx id w : V !! id = Some w -> exists n po, id = pretty n /\ rows b !! n = Some po
}.

Lemma rep_tx b V id w : mock_rep b V -> V !! id = Some w ->
  exists n po m, ParseUint id = Ok n /\ id = pretty n /\ rows b !! n = Some po /\ po_ID po = n /\
    Unmarshal (po_ComponentTryStatuses po) = Ok m /\ statuses_ok m /\ w = row_view po m.
Proof.
  intros [Hrow Htx] Hw. destruct (Htx id w Hw) as (n & po & -> & Hn). destruct (rows_key b n po Hn) as [Hk Hr].
  destruct (Hrow n po Hn) as (m & Hm & Hok & Hv). exists n, po, m. rewrite ParseUint_pretty by lia.
  split_and!; try done. congruence.
Qed.

(** One row is written. *)
Lemma rep_insert b b' V n po m : mock_rep b V -> rows b' = <[n := po]> (rows b) ->
  Unmarshal (po_ComponentTryStatuses po) = Ok m -> statuses_ok m -> mock_rep b' (<[pretty n := row_view po m]> V).
Proof.
  intros [Hrow Htx] Hb Hm Hok. split.
  - intros n' po' Hn'. rewrite Hb in Hn'. destruct (decide (n' = n)) as [-> | Hne].
    + rewrite lookup_insert_eq in Hn'. injection Hn' as <-. exists m. by rewrite lookup_insert_eq.
    + rewrite lookup_insert_ne in Hn' by done. destruct (Hrow n' po' Hn') as (m' & Hm' & Hok' & Hv).
      exists m'. rewrite lookup_insert_ne; [done |]. by intros ?%(inj pretty).
  - intros id w. rewrite Hb. destruct (decide (id = pretty n)) as [-> | Hne].
    + intros _. exists n, po. by rewrite lookup_insert_eq.
    + rewrite lookup_insert_ne by done. intros (n' & po' & -> & Hn')%Htx. exists n', po'.
      split; [done |]. rewrite lookup_insert_ne; [done | congruence].
Qed.

Lemma rep_same b b' V : mock_rep b V -> rows b' = rows b -> mock_rep b' V.
Proof. intros [Hrow Htx] Hb. split; intros; rewrite ?Hb in *; eauto. Qed.

Lemma nonzero_same s : nonzero s s = s.
Proof. unfold nonzero. by case_decide. Qed.

Lemma nonzero_new s t : s <> "" -> nonzero s t = s.
Proof. unfold nonzero. by case_decide. Qed.

(** A record that keeps its key and its time is written as it is. *)
Lemma write_row b n po po' : rows b !! n = Some po -> po_ID po' = n -> po_CreatedAt po' = po_CreatedAt po ->
  nonzero (po_Status po') (po_Status po) = po_Status po' ->
  nonzero (po_ComponentTryStatuses po') (po_ComponentTryStatuses po) = po_ComponentTryStatuses po' ->
  match db_updates po' b with
  | (Ok _, b') => rows b' = <[n := po']> (rows b)
  | (Err _, b') => rows b' = rows b
  end.
Proof.
  intros Hn Hid Hcr Hst Hcs. pose proof (db_updates_law po' b) as Hlaw. destruct (db_updates po' b) as [[u | e] b']; [| done].
  rewrite Hlaw, Hid. destruct (rows_key b n po Hn) as [Hk _]. apply map_eq. intros i.
  destruct (decide (i = n)) as [-> | Hne]; [| by rewrite lookup_alter_ne, lookup_insert_ne by done].
  rewrite lookup_alter_eq, Hn, lookup_insert_eq. simpl. f_equal. destruct po, po'. unfold updated; simpl in *.
  rewrite Hst, Hcs. f_equal; [congruence |]. by zcase; [lia |].
Qed.

Lemma LockAndDo_row b n po do_ : rows b !! n = Some po ->
  LockAndDo n do_ b = db_transaction (do_ po) b \/ exists e, LockAndDo n do_ b = (Err e, b).
Proof.
  intros Hn. unfold LockAndDo, db_transaction. destruct (db_first n b) as [po' | e] eqn:E; [| right; eauto].
  apply db_first_law in E. rewrite Hn in E. injection E as <-. by left.
Qed.

Lemma created_map (cs : list C) (m : gmap string ComponentTryStatus) k :
  foldl (fun (m : gmap string ComponentTryStatus) c => <[ID c := mkStatus (ID c) TryHanging]> m) m cs !! k =
  if decide (k ∈ map ID cs) then Some (mkStatus k TryHanging) else m !! k.
Proof using Type.
  revert m. induction cs as [| c cs IH]; intros m; simpl; [done |]. rewrite IH.
  destruct (decide (k ∈ map ID cs)) as [Hin | Hin]; [by rewrite decide_True by (by right) |].
  destruct (decide (k = ID c)) as [-> | Hne].
  - by rewrite lookup_insert_eq, decide_True by left.
  - rewrite lookup_insert_ne, decide_False by (done || by intros [? | ?]%elem_of_cons). done.
Qed.

Lemma created_view (cs : list C) :
  cs_TryStatus <$> foldl (fun (m : gmap string ComponentTryStatus) c => <[ID c := mkStatus (ID c) TryHanging]> m) ∅ cs =
  (list_to_map (map (fun c => (ID c, TryHanging)) cs) : gmap string string).
Proof using Type.
  apply map_eq. intros k. rewrite lookup_fmap, created_map, lookup_empty. symmetry. case_decide as Hin.
  - apply list_elem_of_fmap in Hin as (c & -> & Hc). simpl.
    destruct (_ !! ID c) as [st |] eqn:E; [by rewrite (hanging_map _ _ _ E) |].
    apply not_elem_of_list_to_map in E. destruct E. rewrite <- list_fmap_compose. apply list_elem_of_fmap. by exists c.
  - apply not_elem_of_list_to_map. intros Hk. apply Hin. by rewrite <- list_fmap_compose in Hk.
Qed.

Lemma CreateTX_keeps now cs b V : mock_rep b V -> Forall (fun c => ascii_only (ID c)) cs ->
  let '(r, b') := mock_CreateTX true now cs b in
  match r with
  | Ok id => V !! id = None /\
      mock_rep b' (<[id := mkView (list_to_map (map (fun c => (ID c, TryHanging)) cs)) TXHanging now]> V)
  | Err _ => mock_rep b' V
  end.
Proof.
  intros Hrep Hids. unfold mock_CreateTX, CreateTXRecord. set (m := foldl _ ∅ cs).
  assert (statuses_ok m) as Hm.
  { intros k st Hk. unfold m in Hk. rewrite created_map, lookup_empty in Hk. case_decide as Hin; [| done].
    injection Hk as <-. apply list_elem_of_fmap in Hin as (c & -> & Hc). rewrite Forall_forall in Hids. by split; [auto |]. }
  pose proof (db_create_law now (mkPO 0 0 TXHanging (Marshal m)) b) as Hlaw.
  destruct (db_create _ _ b) as [[po | e] b']; [| by eapply rep_same]. simpl in Hlaw.
  destruct Hlaw as (Hpo & Hnew & Hb). split.
  - destruct (V !! pretty (po_ID po)) eqn:E; [| done]. apply (mr_tx _ _ Hrep) in E as (n & po' & Hn%(inj pretty) & Hr). congruence.
  - rewrite <- created_view. fold m.
    assert (po_ComponentTryStatuses po = Marshal m) as Hst by (by rewrite Hpo).
    replace (mkView (cs_TryStatus <$> m) TXHanging now) with (row_view po m) by (unfold row_view; by rewrite Hpo).
    eapply rep_insert; [done | done | | done]. rewrite Hst. by apply statuses_back.
Qed.

Lemma try_status_tx (accept : bool) : (if accept then TXSuccessful else TXFailure) = try_status accept.
Proof. by destruct accept. Qed.

Lemma set_try_view po m id st status : m !! id = Some st ->
  set_try (row_view po m) id status =
  row_view (mkPO (po_ID po) (po_CreatedAt po) (po_Status po) (Marshal (<[id := mkStatus (cs_ComponentID st) status]> m)))
    (<[id := mkStatus (cs_ComponentID st) status]> m).
Proof using Type. intros _. unfold set_try, row_view. simpl. by rewrite fmap_insert. Qed.

Lemma TXUpdate_keeps txID id accept b V w : mock_rep b V -> V !! txID = Some w ->
  let '(r, b') := mock_TXUpdate txID id accept b in
  match r with
  | Ok _ => (v_try w !! id = Some (try_status accept) /\ mock_rep b' V) \/
      (v_try w !! id = Some TryHanging /\ mock_rep b' (<[txID := set_try w id (try_status accept)]> V))
  | Err _ => mock_rep b' V
  end.
Proof.
  intros Hrep Hw. destruct (rep_tx b V txID w Hrep Hw) as (n & po & m & Hp & -> & Hn & Hk & Hm & Hok & ->).
  unfold mock_TXUpdate. rewrite Hp, try_status_tx. unfold UpdateComponentStatus.
  match goal with |- context [LockAndDo n ?f b] => destruct (LockAndDo_row b n po f Hn) as [-> | [e ->]]; [| done] end.
  unfold db_transaction. rewrite Hm. destruct (m !! id) as [st |] eqn:Est; [| done].
  assert (v_try (row_view po m) !! id = Some (cs_TryStatus st)) as Hv by (simpl; by rewrite lookup_fmap, Est).
  case_decide as Hs; [left; split; [congruence | done] |]. case_decide as Hh; [| done].
  set (m' := <[id := mkStatus (cs_ComponentID st) (try_status accept)]> m).
  set (po' := mkPO (po_ID po) (po_CreatedAt po) (po_Status po) (Marshal m')).
  assert (statuses_ok m') as Hok'.
  { apply map_Forall_insert_2; [| done]. destruct (Hok id st Est) as (? & ? & ?). split_and!; try done. by destruct accept. }
  pose proof (write_row b n po po' Hn Hk eq_refl (nonzero_same _) (nonzero_new _ _ (json_some m'))) as Hwr.
  unfold UpdateTXRecord. destruct (db_updates po' b) as [[u | e] b'] eqn:Eu; [| done].
  right. split; [congruence |]. rewrite (set_try_view po m id st) by done. by eapply rep_insert; [| | apply statuses_back |].
Qed.

Lemma TXSubmit_keeps txID success b V w : mock_rep b V -> V !! txID = Some w ->
  let '(r, b') := mock_TXSubmit txID success b in
  match r with
  | Ok _ => v_status w <> tx_status (negb success) /\ mock_rep b' (<[txID := set_status w (tx_status success)]> V)
  | Err _ => mock_rep b' V
  end.
Proof.
  intros Hrep Hw. destruct (rep_tx b V txID w Hrep Hw) as (n & po & m & Hp & -> & Hn & Hk & Hm & Hok & ->).
  unfold mock_TXSubmit. rewrite Hp.
  match goal with |- context [LockAndDo n ?f b] => destruct (LockAndDo_row b n po f Hn) as [-> | [e ->]]; [| done] end.
  unfold db_transaction. fold (tx_status success).
  replace (if success then TXFailure else TXSuccessful) with (tx_status (negb success)) by (by destruct success).
  case_decide as Hs; [done |]. set (po' := mkPO (po_ID po) (po_CreatedAt po) (tx_status success) (po_ComponentTryStatuses po)).
  assert (tx_status success <> "") as Hne by (by destruct success).
  pose proof (write_row b n po po' Hn Hk eq_refl (nonzero_new _ _ Hne) (nonzero_same _)) as Hwr.
  unfold UpdateTXRecord. destruct (db_updates po' b) as [[u | e] b'] eqn:Eu; [| done].
  split; [done |]. change (set_status (row_view po m) (tx_status success)) with (row_view po' m). by eapply rep_insert.
Qed.

Lemma components_show ord po m : reorders ord -> Unmarshal (po_ComponentTryStatuses po) = Ok m -> statuses_ok m ->
  components_of ord po ≡ₚ map (fun x => mkTry x.1 x.2) (map_to_list (v_try (row_view po m))).
Proof using Type.
  intros Hord Hm Hok. unfold components_of. rewrite Hm. etrans; [apply Hord |]. simpl.
  rewrite map_to_list_fmap.
  change (map (fun x => mkTry x.1 x.2) (prod_map id cs_TryStatus <$> map_to_list m)) with
    ((fun x => mkTry x.1 x.2) <$> (prod_map id cs_TryStatus <$> map_to_list m)).
  rewrite <- list_fmap_compose. match goal with |- ?a ≡ₚ ?b => enough (a = b) as -> by done end. apply list_fmap_ext. intros i [k st] Hin%list_elem_of_lookup_2%elem_of_map_to_list.
  simpl. by destruct (Hok k st Hin) as (_ & -> & _).
Qed.

Lemma scan_row f b l po : db_scan f b = Ok l -> po ∈ l -> f po = true /\ rows b !! po_ID po = Some po.
Proof.
  intros Hl%db_scan_law Hin. rewrite Hl in Hin. apply list_elem_of_filter in Hin as [Hf Hin].
  apply list_elem_of_fmap in Hin as ([n po'] & -> & Hn%elem_of_map_to_list). simpl.
  by destruct (rows_key b n po' Hn) as [-> _].
Qed.

Lemma GetTX_keeps ord txID b V w t : reorders ord -> mock_rep b V -> V !! txID = Some w ->
  mock_GetTX true ord txID b = Ok t -> TXID t = txID /\ shows w t.
Proof.
  intros Hord Hrep Hw. destruct (rep_tx b V txID w Hrep Hw) as (n & po & m & Hp & -> & Hn & Hk & Hm & Hok & ->).
  unfold mock_GetTX, GetTXRecords. rewrite Hp. destruct (db_scan _ b) as [l | e] eqn:El; [| done].
  destruct l as [| po' [|]]; [done | | done]. intros [= <-]. split; [done |].
  destruct (scan_row _ _ _ po' El) as [Hf Hr]; [by left |]. unfold WithID in Hf. zb. rewrite Hf, Hn in Hr.
  injection Hr as ->. split; [done |]. by apply components_show.
Qed.

Lemma GetHangingTXs_keeps ord b V l : reorders ord -> mock_rep b V -> mock_GetHangingTXs true ord b = Ok l ->
  Forall (fun t => exists w, V !! TXID t = Some w /\ v_status w = TXHanging /\ shows w t) l.
Proof.
  intros Hord Hrep. unfold mock_GetHangingTXs, GetTXRecords. destruct (db_scan _ b) as [rs | e] eqn:El; [| done].
  intros [= <-]. apply Forall_map, Forall_forall. intros po Hin. simpl.
  destruct (scan_row _ _ _ po El Hin) as [Hf Hr]. unfold WithStatus in Hf. apply bool_decide_eq_true in Hf.
  destruct (mr_row _ _ Hrep _ _ Hr) as (m & Hm & Hok & Hv). exists (row_view po m). split; [done |]. split; [done |].
  split; [done |]. by apply components_show.
Qed.

#[export] Instance MockTXStoreLaws : TXStoreLaws C B (H0 := MockTXStore true) := {
  store_rep := mock_rep;
  id_ok := ascii_only;
  CreateTX_law := CreateTX_keeps;
  TXUpdate_law := TXUpdate_keeps;
  TXSubmit_law := TXSubmit_keeps;
  GetTX_law := GetTX_keeps;
  GetHangingTXs_law := GetHangingTXs_keeps
}.

End Laws.

(** Were the field read before the call, every transaction would be called "0". *)
Lemma CreateTX_early {B C : Type} `{TxTable B} `{StatusJson} `{TCCComponent C} now (cs : list C) b id b' :
  mock_CreateTX false now cs b = (Ok id, b') -> id = "0".
Proof. unfold mock_CreateTX, CreateTXRecord. destruct (db_create _ _ b) as [[po | e] b1]; [| done]. by intros [= <- _]. Qed.
