(* ===== verification/TccCases.v ===== *)
(** * TCC transactions: concrete systems

    A scheduler that runs the system of [TccSafety] on an in-memory table, with
    components that acknowledge everything; the schedules below are the witnesses of
    the theorems and the histories in which the manager confirms and cancels the same
    transaction. *)
From stdpp Require Import pretty.
From Stdlib Require Import Ascii.
From S2P Require Import Prelude GoStrings GoProg TccModel TccSafety TccStore.

(** ** A scheduler *)

Section Scheduler.
Context {C D S : Type} `{HC : !TCCComponent C} `{HS : !TXStore C S} `{HL : !TXStoreLaws C S} (opts : Options).
Context (timely : bool).

(** Every component acknowledges, and the store answers. *)
Definition yes (id txID : string) : answer := Ok (Some (mkResp id true txID)).

Definition perform (E : env (C := C) (S := S)) {R} (c : call C D R) : R * env :=
  match c in call _ _ R return R * env with
  | CNow => (e_clock E, E)
  | CLookup ids => (registry_getComponents (e_reg E) ids, E)
  | CTry c req => (yes (ID c) (rq_TXID req), log (EvTry (ID c) (rq_TXID req) true) E)
  | CConfirm c txID => (yes (ID c) txID, log (EvConfirm (ID c) txID) E)
  | CCancel c txID => (yes (ID c) txID, log (EvCancel (ID c) txID) E)
  | CTXUpdate txID id accept => let '(r, s) := TXUpdate txID id accept (e_store E) in (r, set_store s E)
  | CTXSubmit txID success => let '(r, s) := TXSubmit txID success (e_store E) in (r, set_store s E)
  | CGetTX txID => (GetTX (fun l => l) txID (e_store E), E)
  | CGetHangingTXs => (GetHangingTXs (fun l => l) (e_store E), E)
  | CLock _ => (Ok tt, E)
  | CUnlock => (Ok tt, E)
  | CBatch _ => (None, E)
  end.

Lemma perform_does (live : Prop) E R (c : call C D R) : live -> does live E c (perform E c).1 (perform E c).2.
Proof using Type.
  intros Hl. destruct c; simpl; try done.
  - right. split; [done |]. destruct (TXUpdate _ _ _ _) as [r s] eqn:Es. exists r, s. auto.
  - right. split; [done |]. destruct (TXSubmit _ _ _) as [r s] eqn:Es. exists r, s. auto.
  - exists (fun l => l). split; [by intros l |]. by split; [| left].
  - exists (fun l => l). split; [by intros l |]. by split; [| left].
Qed.

Inductive action :=
  | ATick (t : Z)
  | ARegister (c : C)
  | ABegin (reqs : list (option (RequestEntity D)))
  | ATry (run try : nat)
  | AClosed (run : nat)
  | AReturn (run : nat)
  | AMonitor
  | AThread (thread : nat).

Definition done_none (p : prog (call C D) (option string)) : bool := match p with Done None => true | _ => false end.

(** A step of the system, if the action is possible. *)
Definition act (s : sys (C := C) (D := D) (S := S)) (a : action) : option sys :=
  let '(mkSys E T Rs) := s in
  match a with
  | ATick t =>
      if e_clock E <=? t then Some (mkSys (mkEnv (e_store E) t (e_reg E) (e_log E)) T Rs) else None
  | ARegister c =>
      match register (e_reg E) c with
      | Ok reg => Some (mkSys (mkEnv (e_store E) (e_clock E) reg (e_log E)) T Rs)
      | Err _ => None
      end
  | ABegin reqs =>
      match getComponents (e_reg E) reqs with
      | Ret (Ok l) =>
          let '(r, st) := CreateTX (e_clock E) (ToComponents l) (e_store E) in
          Some (mkSys (set_store st E) T
            (match r with
             | Ok txID => Rs ++ [mkRun txID l (e_clock E + Timeout opts) (map (try_one txID) l) Waiting]
             | Err _ => Rs
             end))
      | _ => None
      end
  | ATry i j =>
      match Rs !! i with
      | Some r =>
          match r_tries r !! j with
          | Some (Call c k) =>
              if e_clock E <=? r_deadline r then
                Some (mkSys (perform E c).2 T (<[i := set_try_prog j (k (perform E c).1) r]> Rs))
              else None
          | _ => None
          end
      | None => None
      end
  | AClosed i =>
      match Rs !! i with
      | Some r =>
          match r_phase r with
          | Waiting =>
              if forallb done_none (r_tries r) then
                Some (mkSys E (T ++ [mkThread (e_clock E) (advanceProgressByTXID opts (r_tx r))])
                        (<[i := set_phase (Advancing true (length T)) r]> Rs))
              else None
          | _ => None
          end
      | None => None
      end
  | AReturn i =>
      match Rs !! i with
      | Some r =>
          match r_phase r with
          | Advancing b n =>
              match T !! n with
              | Some (mkThread _ (Done _)) => Some (mkSys E T (<[i := set_phase (Returned b) r]> Rs))
              | _ => None
              end
          | _ => None
          end
      | None => None
      end
  | AMonitor => Some (mkSys E (T ++ [mkThread (e_clock E) (monitor_round opts)]) Rs)
  | AThread i =>
      match T !! i with
      | Some th =>
          match th_prog th with
          | Call c k =>
              if negb timely || negb (is_now c) || (e_clock E =? th_read th) then
                Some (mkSys (perform E c).2
                  (<[i := mkThread (if is_read c then e_clock E else th_read th) (k (perform E c).1)]> T ++
                   map (fun t => mkThread (th_read th) (advanceProgress opts t)) (batch c)) Rs)
              else None
          | Done _ => None
          end
      | None => None
      end
  end.

Fixpoint schedule (s : sys) (l : list action) : option sys :=
  match l with
  | [] => Some s
  | a :: l => match act s a with Some s => schedule s l | None => None end
  end.

Lemma done_none_spec (l : list (prog (call C D) (option string))) : forallb done_none l = true ->
  Forall (fun p => p = Done None) l.
Proof using Type.
  intros Hl. apply Forall_forall. intros p Hp. rewrite forallb_forall in Hl. specialize (Hl p).
  rewrite <- list_elem_of_In in Hl. specialize (Hl Hp). by destruct p as [[|] |].
Qed.

(** The components of the schedules have identifiers the store accepts. *)
Context (ids : forall c : C, id_ok (ID c)).

Lemma act_step s a s' : act s a = Some s' -> step opts timely s s'.
Proof using ids.
  destruct s as [E T Rs]. destruct a as [t | c | reqs | i j | i | i | | i]; simpl.
  - zcase; [| done]. intros [= <-]. by apply step_tick.
  - case_match; [| done]. intros [= <-]. by eapply step_register.
  - destruct (getComponents _ _) as [[l | e] | msg] eqn:El; try done. destruct (CreateTX _ _ _) as [r st] eqn:Ec.
    intros [= <-]. by eapply (step_begin _ _ _ _ _ reqs l (e_clock E)).
  - destruct (Rs !! i) as [r |] eqn:Er; [| done]. destruct (r_tries r !! j) as [[a | R c k] |] eqn:Ej; try done.
    zcase; [| done]. intros [= <-]. eapply step_try; try done. by apply perform_does.
  - destruct (Rs !! i) as [r |] eqn:Er; [| done]. destruct (r_phase r) eqn:Ep; try done. case_match eqn:Ed; [| done].
    intros [= <-]. apply done_none_spec in Ed. eapply step_closed; [done | | by left].
    eapply Forall_impl; [exact Ed |]. intros p ->. by eexists.
  - destruct (Rs !! i) as [r |] eqn:Er; [| done]. destruct (r_phase r) eqn:Ep; try done.
    destruct (T !! thread) as [[rd [a | R c k]] |] eqn:Et; try done. intros [= <-]. eapply step_return; try done. by eexists.
  - intros [= <-]. apply step_monitor.
  - destruct (T !! i) as [th |] eqn:Et; [| done]. destruct (th_prog th) as [a | R c k] eqn:Ep; [done |].
    case_match eqn:Eb; [| done]. intros [= <-]. eapply step_thread; try done; [by apply perform_does |].
    intros Ht Hn. rewrite Ht, Hn in Eb. simpl in Eb. by zb.
Qed.

Lemma schedule_reachable s0 l s : initial s0 -> schedule s0 l = Some s -> reachable opts timely s.
Proof using ids.
  intros H0 Hl. exists s0. split; [done |]. clear H0. revert s0 Hl. induction l as [| a l IH]; intros s0; simpl.
  - by intros [= ->].
  - destruct (act s0 a) as [s1 |] eqn:Ea; [| done]. intros Hl. eapply rtc_l; [by eapply act_step | auto].
Qed.

End Scheduler.

(** ** A table in memory *)

Abbreviation mem := (gmap Z (Z * string * string)).

Definition mem_row (n : Z) (x : Z * string * string) : option TXRecordPO :=
  if (0 <? n) && (n <? 18446744073709551616) then Some (mkPO n x.1.1 x.1.2 x.2) else None.

Definition mem_rows (b : mem) : gmap Z TXRecordPO := map_imap mem_row b.

Definition mem_next (b : mem) : Z := Z.of_nat (size b) + 1.

#[local] Instance mem_table : TxTable mem := {
  db_create now po b :=
    match b !! mem_next b with
    | None =>
        if mem_next b <? 18446744073709551616
        then (Ok (mkPO (mem_next b) now (po_Status po) (po_ComponentTryStatuses po)),
              <[mem_next b := (now, po_Status po, po_ComponentTryStatuses po)]> b)
        else (Err "full", b)
    | Some _ => (Err "duplicate key", b)
    end;
  db_first n b := match mem_rows b !! n with Some po => Ok po | None => Err "record not found" end;
  db_updates po b :=
    match mem_rows b !! po_ID po with
    | Some old =>
        let new := updated po old in
        (Ok tt, <[po_ID po := (po_CreatedAt new, po_Status new, po_ComponentTryStatuses new)]> b)
    | None => (Ok tt, b)
    end;
  db_scan f b := Ok (filter (fun po => f po = true) (map snd (map_to_list (mem_rows b))))
}.

Lemma mem_rows_lookup b n po : mem_rows b !! n = Some po <->
  exists x, b !! n = Some x /\ 0 < n < 18446744073709551616 /\ po = mkPO n x.1.1 x.1.2 x.2.
Proof.
  unfold mem_rows. rewrite map_lookup_imap. destruct (b !! n) as [x |]; simpl.
  - unfold mem_row. split.
    + zcase; [| done]. intros [= <-]. exists x. split_and!; [done | lia | lia | done].
    + intros (x' & [= <-] & Hn & ->). zcase; [done | lia].
  - split; [done | by intros (x & ? & _)].
Qed.

Lemma mem_rows_insert b n x : 0 < n < 18446744073709551616 ->
  mem_rows (<[n := x]> b) = <[n := mkPO n x.1.1 x.1.2 x.2]> (mem_rows b).
Proof.
  intros Hn. unfold mem_rows. apply map_eq. intros i. rewrite map_lookup_imap. destruct (decide (i = n)) as [-> | Hne].
  - rewrite !lookup_insert_eq. simpl. unfold mem_row. by zcase; [| lia].
  - rewrite !lookup_insert_ne by done. by rewrite map_lookup_imap.
Qed.

#[local] Instance mem_laws : TxTableLaws mem.
Proof.
  refine {| rows := mem_rows |}.
  - intros b n po (x & _ & Hn & ->)%mem_rows_lookup. done.
  - intros now po b. simpl. destruct (b !! mem_next b) eqn:E; [done |]. zcase; [| done]. simpl. split; [done |].
    assert (0 < mem_next b) by (unfold mem_next; lia). split.
    + destruct (mem_rows b !! mem_next b) eqn:Er; [| done]. apply mem_rows_lookup in Er as (x & Hx & _). congruence.
    + by rewrite mem_rows_insert.
  - intros n b po. simpl. destruct (mem_rows b !! n) eqn:E; [by intros [= <-] | done].
  - intros po b. simpl. destruct (mem_rows b !! po_ID po) as [old |] eqn:E.
    + pose proof E as (x & Hx & Hn & ->)%mem_rows_lookup. rewrite mem_rows_insert by done. simpl. apply map_eq. intros i.
      destruct (decide (i = po_ID po)) as [-> | Hne]; [| by rewrite lookup_alter_ne, lookup_insert_ne by done].
      by rewrite lookup_alter_eq, lookup_insert_eq, E.
    + apply map_eq. intros i. destruct (decide (i = po_ID po)) as [-> | Hne]; [| by rewrite lookup_alter_ne by done].
      by rewrite lookup_alter_eq, E.
  - by intros f b l [= <-].
Defined.

(** ** Statuses as text *)

Fixpoint bits (p : positive) : string :=
  match p with xH => "1" | xO p => String "0"%char (bits p) | xI p => String "i"%char (bits p) end.

Fixpoint unbits (s : string) : option positive :=
  match s with
  | EmptyString => None
  | String c EmptyString => if decide (c = "1"%char) then Some xH else None
  | String c s => p ← unbits s; if decide (c = "0"%char) then Some (xO p) else Some (xI p)
  end.

Lemma bits_some p : bits p <> "".
Proof. by destruct p. Qed.

Lemma unbits_bits p : unbits (bits p) = Some p.
Proof.
  induction p as [p IH | p IH |]; [| | done]; simpl; pose proof (bits_some p); destruct (bits p) eqn:E; try done;
    rewrite IH; done.
Qed.

Definition flat (m : gmap string ComponentTryStatus) : list (string * (string * string)) :=
  map (fun x => (x.1, (cs_ComponentID x.2, cs_TryStatus x.2))) (map_to_list m).

Definition unflat (l : list (string * (string * string))) : gmap string ComponentTryStatus :=
  list_to_map (map (fun x => (x.1, mkStatus x.2.1 x.2.2)) l).

Lemma unflat_flat m : unflat (flat m) = m.
Proof.
  unfold unflat, flat. rewrite map_map. rewrite <- (list_to_map_to_list m) at 2. f_equal.
  induction (map_to_list m) as [| [k []] l IH]; [done |]. simpl. f_equal. exact IH.
Qed.

#[local] Instance bits_json : StatusJson := {
  Marshal m := bits (encode (flat m));
  Unmarshal s :=
    match unbits s with
    | Some p => match decode p with Some l => Ok (unflat l) | None => Err "invalid" end
    | None => Err "unexpected end of JSON input"
    end
}.

#[local] Instance bits_json_laws : StatusJsonLaws.
Proof.
  split.
  - intros m _. cbn [Marshal Unmarshal bits_json]. by rewrite unbits_bits, decode_encode, unflat_flat.
  - intros m. apply bits_some.
Qed.

(** ** Schedules *)

(** Two components. *)
#[local] Instance named : TCCComponent bool := fun c => if c then "a" else "b".

#[local] Instance ex_store : TXStore bool mem := MockTXStore true.

#[local] Instance ex_laws : TXStoreLaws bool mem := MockTXStoreLaws.

Definition ex_opts : Options := mkOptions 5 1.

Definition ex_start : sys (C := bool) (D := unit) (S := mem) := mkSys (mkEnv ∅ 0 ∅ []) [] [].

Definition ex_reqs : list (option (RequestEntity unit)) := [Some (mkRequest "a" tt); Some (mkRequest "b" tt)].

Definition ex_run (timely : bool) (l : list (action (C := bool) (D := unit))) : sys :=
  default ex_start (schedule ex_opts timely ex_start l).

(** Two components, both tried and recorded. *)
Definition ex_tried : list (action (C := bool) (D := unit)) :=
  [ARegister true; ARegister false; ABegin ex_reqs; ATry 0 0; ATry 0 1; ATry 0 1; ATry 0 0].

(** They confirm, and the transaction returns. *)
Definition ex_commit : list (action (C := bool) (D := unit)) :=
  ex_tried ++ [AClosed 0] ++ repeat (AThread 0) 7 ++ [AReturn 0].

(** The monitor reads the transaction at 4, before its successes are recorded, and
    judges its age at 6. *)
Definition ex_stale : list (action (C := bool) (D := unit)) :=
  [ARegister true; ARegister false; ABegin ex_reqs; ATry 0 0; ATry 0 1; ATick 4] ++
  [AMonitor] ++ repeat (AThread 0) 3 ++ [ATry 0 0; ATry 0 1; ATick 6] ++ repeat (AThread 1) 3 ++
  [AClosed 0] ++ repeat (AThread 2) 7 ++ [AReturn 0].

Lemma ex_initial : initial ex_start.
Proof. by split_and!. Qed.

Lemma ex_ids (c : bool) : id_ok (ID c).
Proof. by destruct c. Qed.

Lemma ex_reachable timely l : reachable ex_opts timely (ex_run timely l).
Proof.
  unfold ex_run. destruct (schedule ex_opts timely ex_start l) as [s |] eqn:E; simpl.
  - eapply schedule_reachable; [exact ex_ids | exact ex_initial | exact E].
  - exists ex_start. split; [exact ex_initial | constructor].
Qed.

Definition ex_first (s : sys (C := bool) (D := unit) (S := mem)) : run :=
  default (mkRun "" [] 0 [] Waiting) (s_runs s !! 0%nat).

Lemma ex_first_in (s : sys (C := bool) (D := unit) (S := mem)) : length (s_runs s) = 1%nat -> ex_first s ∈ s_runs s.
Proof. unfold ex_first. destruct (s_runs s) as [| r [|]]; try done. intros _. by left. Qed.

(** A transaction returns success, all its components confirm, and one is cancelled:
    the age of a transaction is judged by a clock read after the transaction was. *)
Theorem stale_snapshot_cancels : exists (s : sys (C := bool) (D := unit) (S := mem)) (r : run),
  reachable ex_opts false s /\ r ∈ s_runs s /\ r_phase r = Returned true /\
  e_log (s_env s) = [EvTry "a" (r_tx r) true; EvTry "b" (r_tx r) true; EvCancel "a" (r_tx r);
                     EvConfirm "a" (r_tx r); EvConfirm "b" (r_tx r)].
Proof.
  exists (ex_run false ex_stale), (ex_first (ex_run false ex_stale)).
  split; [apply ex_reachable |]. split; [by apply ex_first_in | by vm_compute].
Qed.

(** ** Witnesses *)

Lemma confirm_after_all_tries_witness :
  EvTry "b" "1" true ∈ [EvTry "a" "1" true; EvTry "b" "1" true].
Proof.
  change "b" with (ID false) at 1. replace "1" with (r_tx (ex_first (ex_run true ex_commit))) at 1 by (by vm_compute).
  apply (confirm_after_all_tries ex_opts true (ex_run true ex_commit) (ex_first (ex_run true ex_commit))
           [EvTry "a" "1" true; EvTry "b" "1" true] [EvConfirm "b" "1"] "a" (mkEntity tt false)).
  - apply ex_reachable.
  - by apply ex_first_in.
  - by vm_compute.
  - vm_compute. right. left.
Defined.

Lemma never_both_witness :
  EvConfirm "a" "1" ∈ e_log (s_env (ex_run true ex_commit)) /\ EvCancel "b" "1" ∉ e_log (s_env (ex_run true ex_commit)).
Proof.
  assert (EvConfirm "a" "1" ∈ e_log (s_env (ex_run true ex_commit))) as Hc by (vm_compute; do 2 right; left).
  split; [exact Hc |]. apply (never_both ex_opts true (ex_run true ex_commit) "a" "b" "1"); [done | apply ex_reachable | exact Hc].
Defined.

Lemma success_is_final_witness :
  EvTry "b" "1" true ∈ e_log (s_env (ex_run true ex_commit)) /\ EvCancel "a" "1" ∉ e_log (s_env (ex_run true ex_commit)).
Proof.
  destruct (success_is_final ex_opts true (ex_run true ex_commit) (ex_first (ex_run true ex_commit))) as [Ht Hc].
  - apply ex_reachable.
  - by apply ex_first_in.
  - by vm_compute.
  - split; [apply (Ht (mkEntity tt false)); vm_compute; right; left | by apply Hc].
Defined.
