(* ===== verification/RedisLock.v ===== *)
(** * Locks in Redis

    [components/redis_lock]: [lock.go], [lua.go], [option.go], [red_lock.go] and the
    operations of [redis.go] on keys.  The server is a parameter: a class of its
    commands with the laws of a map of keys that expire.  A client reaches it
    through a network that takes time, drops requests and loses replies ([net]). *)
From stdpp Require Import pretty.
From S2P Require Import Prelude.

(** ** The server *)

(** A value and the time at which it expires, if it does. *)
Abbreviation entry := (string * option Z)%type.

Definition alive (now : Z) (e : entry) : bool := match e.2 with None => true | Some t => now <? t end.

Definition at_time (now : Z) (m : gmap string entry) : gmap string entry :=
  filter (fun x => alive now x.2 = true) m.

Class Redis (R : Type) := {
  GET : Z -> string -> R -> option string;
  SET : Z -> string -> string -> R -> R;
  SETNX : Z -> string -> string -> option Z -> R -> bool * R;
  DEL : Z -> string -> R -> Z * R;
  EXPIRE : Z -> string -> Z -> R -> Z * R
}.

Definition second : Z := 1000000000.

(** What a command does to the keys that are alive at its time. *)
Class RedisLaws (R : Type) `{Redis R} := {
  keys : R -> gmap string entry;
  GET_law now k r : GET now k r = fst <$> at_time now (keys r) !! k;
  SET_law now k v r : at_time now (keys (SET now k v r)) = <[k := (v, None)]> (at_time now (keys r));
  SETNX_law now k v ttl r : match ttl with Some t => 0 < t | None => True end ->
    let '(b, r') := SETNX now k v ttl r in
    match at_time now (keys r) !! k with
    | Some _ => b = false /\ at_time now (keys r') = at_time now (keys r)
    | None => b = true /\ at_time now (keys r') = <[k := (v, (fun t => now + t) <$> ttl)]> (at_time now (keys r))
    end;
  DEL_law now k r : let '(n, r') := DEL now k r in
    n = match at_time now (keys r) !! k with Some _ => 1 | None => 0 end /\ at_time now (keys r') = delete k (at_time now (keys r));
  EXPIRE_law now k secs r : 0 < secs -> let '(n, r') := EXPIRE now k secs r in
    match at_time now (keys r) !! k with
    | Some (v, _) => n = 1 /\ at_time now (keys r') = <[k := (v, Some (now + secs * second))]> (at_time now (keys r))
    | None => n = 0 /\ at_time now (keys r') = at_time now (keys r)
    end
}.

(** ** The scripts of [lua.go], which the server runs as one command *)

Definition LuaCheckAndDeleteDistributionLock {R} `{Redis R} (lockerKey targetToken : string) (now : Z) (r : R) : Z * R :=
  match GET now lockerKey r with
  | None => (0, r)
  | Some getToken => if decide (getToken <> targetToken) then (0, r) else DEL now lockerKey r
  end.

Definition LuaCheckAndExpireDistributionLock {R} `{Redis R} (lockerKey targetToken : string) (duration now : Z) (r : R) :
    Z * R :=
  match GET now lockerKey r with
  | None => (0, r)
  | Some getToken => if decide (getToken <> targetToken) then (0, r) else EXPIRE now lockerKey duration r
  end.

(** ** The network *)

Inductive rerr := Nil | Msg (e : string).

#[export] Instance rerr_eq_dec : EqDecision rerr.
Proof. solve_decision. Defined.

Inductive fate :=
  | Fine
  | Lost (e : string)
  | Down (e : string).

(** The delay and the fate of each call to come; past the end all is well. *)
Record net (R : Type) := mkNet { n_srv : R; n_clock : Z; n_fates : list (Z * fate) }.
Arguments mkNet {R} _ _ _.
Arguments n_srv {R} _.
Arguments n_clock {R} _.
Arguments n_fates {R} _.

Definition redisM (R A : Type) : Type := net R -> A * net R.

#[export] Instance redisM_ret R : MRet (redisM R) := fun A a n => (a, n).
#[export] Instance redisM_bind R : MBind (redisM R) := fun A B f m n => let '(a, n) := m n in f a n.

Definition next_fate {R} (n : net R) : Z * fate * list (Z * fate) :=
  match n_fates n with
  | [] => (0, Fine, [])
  | (d, f) :: l => (Z.max 0 d, f, l)
  end.

Definition remote {R A} (f : Z -> R -> A * R) : redisM R (result rerr A) := fun n =>
  let '(d, ft, l) := next_fate n in
  let now := n_clock n + d in
  match ft with
  | Fine => let '(a, r) := f now (n_srv n) in (Ok a, mkNet r now l)
  | Lost e => (Err (Msg e), mkNet (f now (n_srv n)).2 now l)
  | Down e => (Err (Msg e), mkNet (n_srv n) now l)
  end.

(** ** The client *)

Section Client.
Context {R : Type} `{Redis R}.

Definition Get (key : string) : redisM R (result rerr string) :=
  if decide (key = "") then mret (Err (Msg "redis GET key can't be empty"))
  else
    r ← remote (fun now s => (GET now key s, s));
    mret (match r with Ok (Some v) => Ok v | Ok None => Err Nil | Err e => Err e end).

Definition Set_ (key value : string) : redisM R (result rerr Z) :=
  if decide (key = "" \/ value = "") then mret (Err (Msg "redis SET key or value can't be empty"))
  else
    r ← remote (fun now s => (tt, SET now key value s));
    mret (match r with Ok _ => Ok 1 | Err e => Err e end).

Definition setnx (key value : string) (ttl : option Z) : redisM R (result rerr Z) :=
  r ← remote (fun now s => SETNX now key value ttl s);
  mret (match r with Ok true => Ok 1 | Ok false => Ok 0 | Err e => Err e end).

Definition SetNEX (key value : string) (expireSeconds : Z) : redisM R (result rerr Z) :=
  if decide (key = "" \/ value = "") then mret (Err (Msg "redis SET keyNX or value can't be empty"))
  else if expireSeconds <=? 0 then mret (Err (Msg "redis SET NX expireSeconds must be positive"))
  else setnx key value (Some (s64 (expireSeconds * second))).

Definition SetNX (key value : string) : redisM R (result rerr Z) :=
  if decide (key = "" \/ value = "") then mret (Err (Msg "redis SET key NX or value can't be empty"))
  else setnx key value None.

Definition Del (key : string) : redisM R (result rerr unit) :=
  if decide (key = "") then mret (Err (Msg "redis DEL key can't be empty"))
  else
    r ← remote (fun now s => DEL now key s);
    mret (match r with Ok _ => Ok tt | Err e => Err e end).

(** ** Options of a lock *)

Record LockOptions := mkLockOptions {
  isBlock : bool;
  blockWaitingSeconds : Z;
  expireSeconds : Z;
  watchDogMode : bool
}.

Definition DefaultLockExpireSeconds : Z := 30.
Definition WatchDogWorkStepSeconds : Z := 10.

Definition WithBlock (o : LockOptions) : LockOptions :=
  mkLockOptions true (blockWaitingSeconds o) (expireSeconds o) (watchDogMode o).
Definition WithBlockWaitingSeconds (s : Z) (o : LockOptions) : LockOptions :=
  mkLockOptions (isBlock o) s (expireSeconds o) (watchDogMode o).
Definition WithExpireSeconds (s : Z) (o : LockOptions) : LockOptions :=
  mkLockOptions (isBlock o) (blockWaitingSeconds o) s (watchDogMode o).

Definition repairLock (o : LockOptions) : LockOptions :=
  let waiting := if isBlock o && (blockWaitingSeconds o <=? 0) then 5 else blockWaitingSeconds o in
  if 0 <? expireSeconds o then mkLockOptions (isBlock o) waiting (expireSeconds o) (watchDogMode o)
  else mkLockOptions (isBlock o) waiting DefaultLockExpireSeconds true.

(** ** A lock *)

Record RedisLock := mkLock { l_opts : LockOptions; l_key : string; l_token : string }.

(** The token is the process and the goroutine that make the lock. *)
Definition GetProcessAndGoroutineIDStr (pid gid : Z) : string := pretty pid +:+ "_" +:+ pretty gid.

Definition NewRedisLock (key : string) (pid gid : Z) (opts : list (LockOptions -> LockOptions)) : RedisLock :=
  mkLock (repairLock (foldl (fun o f => f o) (mkLockOptions false 0 0 false) opts)) key
    (GetProcessAndGoroutineIDStr pid gid).

Definition getLockKey (l : RedisLock) : string := "REDIS_LOCK_PREFIX_" +:+ l_key l.

(** [ErrLockAcquiredByOthers], wrapped or not, an error of the client, or the end of
    the context. *)
Inductive lerr := AcquiredByOthers | ClientErr (e : rerr) | CtxDone | LockLost | NotOwner.

#[export] Instance lerr_eq_dec : EqDecision lerr.
Proof. solve_decision. Defined.

Definition IsRetryableErr (e : lerr) : bool := bool_decide (e = AcquiredByOthers).

Definition tryLock (l : RedisLock) : redisM R (option lerr) :=
  r ← SetNEX (getLockKey l) (l_token l) (expireSeconds (l_opts l));
  mret (match r with
        | Err e => Some (ClientErr e)
        | Ok reply => if reply =? 1 then None else Some AcquiredByOthers
        end).

(** What the loop of [blockingLock] finds at a tick. *)
Inductive poll := PollDone | PollTimeout | PollTry.

(** The ticker is stopped only when the function returns, so the loop ends with one
    of its returns: [None] when there were not enough ticks. *)
Fixpoint blockingLock (l : RedisLock) (ticks : list poll) : redisM R (option (option lerr)) :=
  match ticks with
  | [] => mret None
  | PollDone :: _ => mret (Some (Some CtxDone))
  | PollTimeout :: _ => mret (Some (Some AcquiredByOthers))
  | PollTry :: ticks =>
      err ← tryLock l;
      match err with
      | None => mret (Some None)
      | Some e => if IsRetryableErr e then blockingLock l ticks else mret (Some (Some e))
      end
  end.

(** [Lock] without its watch dog, which [watch] is. *)
Definition Lock (l : RedisLock) (ticks : list poll) : redisM R (option (option lerr)) :=
  err ← tryLock l;
  match err with
  | None => mret (Some None)
  | Some e =>
      if negb (isBlock (l_opts l)) then mret (Some (Some e))
      else if negb (IsRetryableErr e) then mret (Some (Some e))
      else blockingLock l ticks
  end.

Definition DelayExpire (l : RedisLock) (secs : Z) : redisM R (option lerr) :=
  r ← remote (LuaCheckAndExpireDistributionLock (getLockKey l) (l_token l) secs);
  mret (match r with
        | Err e => Some (ClientErr e)
        | Ok reply => if reply =? 1 then None else Some LockLost
        end).

Definition Unlock (l : RedisLock) : redisM R (option lerr) :=
  r ← remote (LuaCheckAndDeleteDistributionLock (getLockKey l) (l_token l));
  mret (match r with
        | Err e => Some (ClientErr e)
        | Ok reply => if reply =? 1 then None else Some NotOwner
        end).

(** [runWatchDog]: a renewal per tick of the ticker, [gaps] apart, until the lock is
    lost. *)
Fixpoint watch (l : RedisLock) (gaps : list Z) : redisM R unit :=
  match gaps with
  | [] => mret tt
  | gap :: gaps =>
      err ← (fun n => DelayExpire l (WatchDogWorkStepSeconds + 5) (mkNet (n_srv n) (n_clock n + gap) (n_fates n)));
      match err with
      | Some LockLost => mret tt
      | _ => watch l gaps
      end
  end.

(** ** RedLock *)

Record RedLockOptions := mkRedLockOptions { singleNodesTimeout : Z; expireDuration : Z }.

Definition DefaultSingleLockTimeout : Z := 50000000.

Definition WithSingleNodesTimeout (d : Z) (o : RedLockOptions) : RedLockOptions := mkRedLockOptions d (expireDuration o).
Definition WithRedLockExpireDuration (d : Z) (o : RedLockOptions) : RedLockOptions :=
  mkRedLockOptions (singleNodesTimeout o) d.

Definition repairRedLock (o : RedLockOptions) : RedLockOptions :=
  mkRedLockOptions (if singleNodesTimeout o <=? 0 then DefaultSingleLockTimeout else singleNodesTimeout o) (expireDuration o).

(** [nodes] is the number of configurations.  [Duration.Seconds] is a float64; its
    integer part is the quotient for durations of less than 2^22 seconds. *)
Definition NewRedLock (key : string) (nodes : nat) (pid gid : Z) (opts : list (RedLockOptions -> RedLockOptions)) :
    result string (list RedisLock * RedLockOptions) :=
  if Z.of_nat nodes <? 3 then Err "can not use redLock less than 3 nodes"
  else
    let o := repairRedLock (foldl (fun o f => f o) (mkRedLockOptions 0 0) opts) in
    if (0 <? expireDuration o) && (expireDuration o <? s64 (s64 (Z.of_nat nodes * singleNodesTimeout o) * 10))
    then Err "expire thresholds of single node is too long"
    else Ok (repeat (NewRedisLock key pid gid [WithExpireSeconds (Z.quot (expireDuration o) second)]) nodes, o).

(** One node: its lock counts when it was taken in time. *)
Definition red_one (timeout : Z) (x : RedisLock * net R) : RedisLock * net R * bool :=
  let '(l, n) := x in
  let '(err, n') := Lock l [] n in
  (l, n', bool_decide (err = Some None) && (n_clock n' - n_clock n <=? timeout)).

Definition counted (rs : list (RedisLock * net R * bool)) : Z := zlen (filter (fun x => x.2 = true) rs).

(** The locks of the nodes and the networks to them; what [Lock] leaves there. *)
Definition RedLock_Lock (timeout : Z) (locks : list (RedisLock * net R)) : bool * list (net R) :=
  let rs := map (red_one timeout) locks in
  if counted rs <? Z.shiftr (zlen locks) 1 + 1 then
    (false, map (fun '(l, n, ok) => if (ok : bool) then (Unlock l n).2 else n) rs)
  else (true, map (fun '(l, n, ok) => n) rs).

(** The first error, if any. *)
Definition RedLock_Unlock (locks : list (RedisLock * net R)) : option lerr * list (net R) :=
  let rs := map (fun '(l, n) => Unlock l n) locks in
  (foldl (fun err r => match err with None => r.1 | Some e => Some e end) None rs, map snd rs).

End Client.

(** ** Leases *)

Section Leases.
Context {R : Type} `{HR : !Redis R} `{HL : !RedisLaws R}.

Definition lease (n : net R) (k : string) : option entry := at_time (n_clock n) (keys (n_srv n)) !! k.

(** The lock [l] is held until [e]. *)
Definition held (l : RedisLock) (n : net R) (e : Z) : Prop := lease n (getLockKey l) = Some (l_token l, Some e).

Lemma at_time_lookup now m k x : at_time now m !! k = Some x <-> m !! k = Some x /\ alive now x = true.
Proof using Type. unfold at_time. by rewrite map_lookup_filter_Some. Qed.

Lemma at_time_later now now' m : now <= now' -> at_time now' (at_time now m) = at_time now' m.
Proof using Type.
  intros Hle. apply map_eq. intros k. apply option_eq. intros x. rewrite !at_time_lookup.
  split; [by intros [[? ?] ?] | intros [Hk Ha]]. split_and!; try done. unfold alive in *. destruct x as [v [t |]]; simpl in *; [zb; lia | done].
Qed.

(** Time alone ends a lease. *)
Lemma lease_later now now' m k v e : at_time now m !! k = Some (v, Some e) -> now <= now' < e ->
  at_time now' m !! k = Some (v, Some e).
Proof using Type.
  intros Hk Ht. rewrite <- (at_time_later now now') by lia. apply at_time_lookup. split; [done |]. unfold alive. simpl. lia.
Qed.

Lemma none_later now now' m k : at_time now m !! k = None -> now <= now' -> at_time now' m !! k = None.
Proof using Type.
  intros Hk Ht. rewrite <- (at_time_later now now') by lia. destruct (at_time now' (at_time now m) !! k) eqn:E; [| done].
  apply at_time_lookup in E as [E _]. congruence.
Qed.

(** A command leaves the key [k] alone when it holds [x]. *)
Definition spares {A} (k : string) (x : entry) (f : Z -> R -> A * R) : Prop :=
  forall now r, at_time now (keys r) !! k = Some x -> at_time now (keys (f now r).2) !! k = Some x.

Lemma remote_clock {A} (f : Z -> R -> A * R) n : n_clock n <= n_clock (remote f n).2.
Proof using Type.
  unfold remote, next_fate. destruct (n_fates n) as [| [d ft] l]; [destruct (f _ _); simpl; lia |].
  destruct ft; [destruct (f _ _) | |]; simpl; lia.
Qed.

Lemma remote_spares {A} (f : Z -> R -> A * R) n k v e : spares k (v, Some e) f ->
  lease n k = Some (v, Some e) -> n_clock (remote f n).2 < e -> lease (remote f n).2 k = Some (v, Some e).
Proof using Type.
  intros Hf Hk Ht. pose proof (remote_clock f n) as Hc. unfold lease, remote in *.
  destruct (next_fate n) as [[d ft] l]. destruct ft.
  - specialize (Hf (n_clock n + d) (n_srv n)). destruct (f _ _) as [a r]. simpl in *. apply Hf.
    eapply lease_later; [exact Hk | lia].
  - simpl in *. apply Hf. eapply lease_later; [exact Hk | lia].
  - simpl in *. eapply lease_later; [exact Hk | lia].
Qed.

Lemma SETNX_spares k x key value ttl : match ttl with Some t => 0 < t | None => True end ->
  spares k x (fun now s => SETNX now key value ttl s).
Proof using HL.
  intros Ht now r Hk. pose proof (SETNX_law now key value ttl r Ht) as Hl.
  destruct (SETNX now key value ttl r) as [b r']. simpl.
  destruct (at_time now (keys r) !! key) eqn:E; destruct Hl as [_ ->]; [done |].
  rewrite lookup_insert_ne; [done | congruence].
Qed.

(** The scripts touch a key only with the token it holds. *)
Lemma delete_spares k v e key tok : (key = k -> tok <> v) -> spares k (v, e) (LuaCheckAndDeleteDistributionLock key tok).
Proof using HL.
  intros Hne now r Hk. unfold LuaCheckAndDeleteDistributionLock. rewrite GET_law.
  destruct (at_time now (keys r) !! key) as [[v' e'] |] eqn:E; [| done]. simpl. case_decide as Hd; [done |].
  subst v'. pose proof (DEL_law now key r) as Hl. destruct (DEL now key r) as [m r'].
  simpl. destruct Hl as [_ ->]. rewrite lookup_delete_ne; [done |]. intros ->. rewrite Hk in E. by injection E as -> ->; destruct Hne.
Qed.

Lemma expire_spares k v e key tok secs : 0 < secs -> (key = k -> tok <> v) ->
  spares k (v, e) (LuaCheckAndExpireDistributionLock key tok secs).
Proof using HL.
  intros Hs Hne now r Hk. unfold LuaCheckAndExpireDistributionLock. rewrite GET_law.
  destruct (at_time now (keys r) !! key) as [[v' e'] |] eqn:E; [| done]. simpl. case_decide as Hd; [done |].
  subst v'. pose proof (EXPIRE_law now key secs r Hs) as Hl. destruct (EXPIRE now key secs r) as [m r'].
  rewrite E in Hl. simpl. destruct Hl as [_ ->]. rewrite lookup_insert_ne; [done |]. intros ->. rewrite Hk in E.
  by injection E as -> ->; destruct Hne.
Qed.

(** ** Operations on a lock that is held *)

Lemma remote_cases {A} (f : Z -> R -> A * R) n : exists now l, n_clock n <= now /\
  (remote f n = (Ok (f now (n_srv n)).1, mkNet (f now (n_srv n)).2 now l) \/
   exists e s, remote f n = (Err e, mkNet s now l) /\ (s = n_srv n \/ s = (f now (n_srv n)).2)).
Proof using Type.
  unfold remote. destruct (next_fate n) as [[d ft] l] eqn:Ef. exists (n_clock n + d), l.
  assert (0 <= d) as Hd.
  { unfold next_fate in Ef. destruct (n_fates n) as [| [] ?]; injection Ef as <- <- <-; lia. }
  split; [lia |]. destruct ft; [left; by destruct (f _ _) | right; eauto | right; eauto].
Qed.

Definition lock_ok (l : RedisLock) : Prop := 0 < expireSeconds (l_opts l) < 8589934592 /\ l_token l <> "".

Lemma tryLock_remote l n : lock_ok l ->
  tryLock l n =
    (let '(r, n') := remote (fun now s => SETNX now (getLockKey l) (l_token l) (Some (expireSeconds (l_opts l) * second)) s) n in
     (match r with
      | Err e => Some (ClientErr e)
      | Ok b => if (b : bool) then None else Some AcquiredByOthers
      end, n')).
Proof using Type.
  intros [Hs Ht]. unfold tryLock, SetNEX, setnx, mbind, redisM_bind, mret, redisM_ret.
  rewrite decide_False by (intros [Hk | Hk]; done). zcase; [lia |].
  rewrite s64_small by (unfold second; lia).
  destruct (remote _ n) as [[[] | e] n']; done.
Qed.

(** While a lease lasts nobody takes the key. *)
Lemma tryLock_held l l' n e : lock_ok l' -> held l n e -> n_clock (tryLock l' n).2 < e ->
  held l (tryLock l' n).2 e /\ n_clock n <= n_clock (tryLock l' n).2 /\
  (getLockKey l' = getLockKey l -> (tryLock l' n).1 <> None).
Proof using HL.
  intros Hok Hh. rewrite tryLock_remote by done. set (f := fun now s => SETNX now _ _ _ s).
  pose proof (remote_spares f n (getLockKey l) (l_token l) e) as Hsp. pose proof (remote_clock f n) as Hc.
  destruct Hok as [Hs _]. assert (0 < expireSeconds (l_opts l') * second) as Hpos by (unfold second; lia).
  assert (spares (getLockKey l) (l_token l, Some e) f) as Hf by (by apply SETNX_spares).
  destruct (remote_cases f n) as (now & fs & Hnow & [E | (er & s & E & _)]); rewrite E in *; simpl in *; intros Ht.
  - split; [by apply Hsp |]. split; [done |]. intros Hk. unfold f.
    pose proof (SETNX_law now (getLockKey l') (l_token l') (Some (expireSeconds (l_opts l') * second)) (n_srv n) Hpos) as Hl.
    destruct (SETNX now _ _ _ _) as [b r']. simpl. rewrite Hk in Hl.
    rewrite (lease_later (n_clock n) now _ _ (l_token l) e) in Hl by (done || lia). by destruct Hl as [-> _].
  - split; [by apply Hsp |]. done.
Qed.

Lemma tryLock_clock l n : n_clock n <= n_clock (tryLock l n).2.
Proof using Type.
  unfold tryLock, SetNEX, setnx, mbind, redisM_bind, mret, redisM_ret. case_decide; [simpl; lia |]. zcase; [simpl; lia |].
  match goal with |- context [remote ?f n] => pose proof (remote_clock f n); by destruct (remote f n) end.
Qed.

Lemma blocking_clock l ticks n : n_clock n <= n_clock (blockingLock l ticks n).2.
Proof using Type.
  revert n. induction ticks as [| [] ticks IH]; intros n; simpl; try lia. unfold mbind, redisM_bind.
  pose proof (tryLock_clock l n) as Hc. destruct (tryLock l n) as [[er |] n1]; simpl in *; [| lia].
  case_match; [| simpl; lia]. etrans; [exact Hc | apply IH].
Qed.

Lemma blocking_held l l' ticks n e : lock_ok l' -> held l n e -> n_clock (blockingLock l' ticks n).2 < e ->
  held l (blockingLock l' ticks n).2 e /\
  (getLockKey l' = getLockKey l -> (blockingLock l' ticks n).1 <> Some None).
Proof using HL.
  intros Hok. revert n. induction ticks as [| p ticks IH]; intros n Hh Ht; [by split |].
  destruct p; [by split | by split |]. simpl in *. unfold mbind, redisM_bind in *.
  pose proof (tryLock_held l l' n e Hok Hh) as Hl. pose proof (blocking_clock l' ticks) as Hm.
  destruct (tryLock l' n) as [[er |] n1]; simpl in *.
  - specialize (Hm n1). destruct (IsRetryableErr er); [| by split; [apply Hl |]].
    apply IH; [| done]. apply Hl. lia.
  - destruct Hl as (Hh1 & _ & Hk); [done |]. split; [done |]. intros Hk'. by destruct (Hk Hk').
Qed.

Lemma Lock_held l l' ticks n e : lock_ok l' -> held l n e -> n_clock (Lock l' ticks n).2 < e ->
  held l (Lock l' ticks n).2 e /\ (getLockKey l' = getLockKey l -> (Lock l' ticks n).1 <> Some None).
Proof using HL.
  intros Hok Hh Ht. unfold Lock, mbind, redisM_bind in *. pose proof (tryLock_held l l' n e Hok Hh) as Hl.
  pose proof (blocking_clock l' ticks) as Hm. destruct (tryLock l' n) as [[er |] n1]; simpl in *.
  - destruct (negb _); [by split; [apply Hl |] |]. destruct (negb _); [by split; [apply Hl |] |].
    specialize (Hm n1). apply blocking_held; [done | | done]. apply Hl. lia.
  - destruct Hl as (Hh1 & _ & Hk); [done |]. split; [done |]. intros Hk'. by destruct (Hk Hk').
Qed.

Lemma Unlock_held l l' n e : (getLockKey l' = getLockKey l -> l_token l' <> l_token l) -> held l n e ->
  n_clock (Unlock l' n).2 < e -> held l (Unlock l' n).2 e.
Proof using HL.
  intros Hne Hh. unfold Unlock, mbind, redisM_bind, mret, redisM_ret.
  set (f := LuaCheckAndDeleteDistributionLock _ _). pose proof (remote_spares f n (getLockKey l) (l_token l) e) as Hsp.
  destruct (remote f n) as [r n1]. simpl in *. intros Ht. apply Hsp; [by apply delete_spares | done | done].
Qed.

Lemma DelayExpire_held l l' secs n e : 0 < secs -> (getLockKey l' = getLockKey l -> l_token l' <> l_token l) ->
  held l n e -> n_clock (DelayExpire l' secs n).2 < e -> held l (DelayExpire l' secs n).2 e.
Proof using HL.
  intros Hs Hne Hh. unfold DelayExpire, mbind, redisM_bind, mret, redisM_ret.
  set (f := LuaCheckAndExpireDistributionLock _ _ _). pose proof (remote_spares f n (getLockKey l) (l_token l) e) as Hsp.
  destruct (remote f n) as [r n1]. simpl in *. intros Ht. apply Hsp; [by apply expire_spares | done | done].
Qed.

(** ** What the others may do *)

Inductive lock_op :=
  | OLock (l : RedisLock) (ticks : list poll)
  | OUnlock (l : RedisLock)
  | ODelay (l : RedisLock) (secs : Z)
  | OWait (d : Z).

(** Whether the operation got the lock. *)
Definition do_op (o : lock_op) : redisM R bool :=
  match o with
  | OLock l ticks => r ← Lock l ticks; mret (bool_decide (r = Some None))
  | OUnlock l => _ ← Unlock l; mret false
  | ODelay l secs => _ ← DelayExpire l secs; mret false
  | OWait d => fun n => (false, mkNet (n_srv n) (n_clock n + Z.max 0 d) (n_fates n))
  end.

Fixpoint do_ops (l : list lock_op) : redisM R (list bool) :=
  match l with
  | [] => mret []
  | o :: l => b ← do_op o; bs ← do_ops l; mret (b :: bs)
  end.

(** An operation of another holder on the same key. *)
Definition foreign (l : RedisLock) (o : lock_op) : Prop :=
  match o with
  | OLock l' _ => lock_ok l' /\ getLockKey l' = getLockKey l
  | OUnlock l' => l_token l' <> l_token l
  | ODelay l' secs => 0 < secs /\ l_token l' <> l_token l
  | OWait _ => True
  end.

Lemma do_op_clock o n : n_clock n <= n_clock (do_op o n).2.
Proof using Type.
  destruct o as [l ticks | l | l secs | d]; simpl; [| | | lia]; unfold mbind, redisM_bind, mret, redisM_ret.
  - unfold Lock, mbind, redisM_bind. pose proof (tryLock_clock l n) as Hc.
    destruct (tryLock l n) as [[er |] n1]; simpl in *; [| lia].
    destruct (negb _); [simpl; lia |]. destruct (negb _); [simpl; lia |].
    pose proof (blocking_clock l ticks n1). destruct (blockingLock l ticks n1). simpl in *. lia.
  - unfold Unlock, mbind, redisM_bind. match goal with |- context [remote ?f n] => pose proof (remote_clock f n); by destruct (remote f n) end.
  - unfold DelayExpire, mbind, redisM_bind. match goal with |- context [remote ?f n] => pose proof (remote_clock f n); by destruct (remote f n) end.
Qed.

Lemma do_ops_clock l n : n_clock n <= n_clock (do_ops l n).2.
Proof using Type.
  revert n. induction l as [| o l IH]; intros n; [done |]. simpl. unfold mbind, redisM_bind, mret, redisM_ret.
  pose proof (do_op_clock o n) as Hc. destruct (do_op o n) as [b n1]. specialize (IH n1).
  destruct (do_ops l n1). simpl in *. lia.
Qed.

Lemma do_op_held l o n e : foreign l o -> held l n e -> n_clock (do_op o n).2 < e ->
  held l (do_op o n).2 e /\ (do_op o n).1 = false.
Proof using HL.
  intros Hf Hh. destruct o as [l' ticks | l' | l' secs | d]; simpl in *; unfold mbind, redisM_bind, mret, redisM_ret.
  - destruct Hf as [Hok Hk]. pose proof (Lock_held l l' ticks n e Hok Hh) as Hl. destruct (Lock l' ticks n) as [r n1].
    simpl in *. intros Ht. destruct Hl as [? Hn]; [done |]. split; [done |]. apply bool_decide_eq_false. auto.
  - pose proof (Unlock_held l l' n e (fun _ => Hf) Hh) as Hl. destruct (Unlock l' n). simpl in *. auto.
  - destruct Hf as [Hs Hne]. pose proof (DelayExpire_held l l' secs n e Hs (fun _ => Hne) Hh) as Hl.
    destruct (DelayExpire l' secs n). simpl in *. auto.
  - simpl. intros Ht. split; [| done]. unfold held, lease in *. simpl in *. eapply lease_later; [exact Hh | lia].
Qed.

(** a lease excludes the others.  While it lasts, whatever clients with other tokens
    attempt and whatever the network does to their calls, the lock stays with its
    holder and none of their attempts succeeds. *)
Theorem lease_excludes l ops n e :
  Forall (foreign l) ops -> held l n e -> n_clock (do_ops ops n).2 < e ->
  held l (do_ops ops n).2 e /\ Forall (fun b => b = false) (do_ops ops n).1.
Proof using HL.
  intros HF. revert n. induction HF as [| o ops Ho _ IH]; intros n Hh; [by split |].
  simpl. unfold mbind, redisM_bind, mret, redisM_ret. pose proof (do_op_held l o n e Ho Hh) as Hop.
  destruct (do_op o n) as [b n1]. simpl in *. pose proof (do_ops_clock ops n1) as Hc. specialize (IH n1).
  destruct (do_ops ops n1) as [bs n2]. simpl in *. intros Ht. destruct Hop as [Hh1 ->]; [lia |].
  destruct (IH Hh1 Ht) as [? ?]. split; [done | by constructor].
Qed.

(** ** Acquiring and renewing *)

Lemma tryLock_acquires l n : lock_ok l -> (tryLock l n).1 = None ->
  held l (tryLock l n).2 (n_clock (tryLock l n).2 + expireSeconds (l_opts l) * second).
Proof using HL.
  intros Hok. rewrite tryLock_remote by done. set (f := fun now s => SETNX now _ _ _ s). destruct Hok as [Hs _].
  destruct (remote_cases f n) as (now & fs & Hnow & [E | (er & s & E & _)]); rewrite E; simpl; [| done].
  unfold f, held, lease. assert (0 < expireSeconds (l_opts l) * second) as Hpos by (unfold second; lia).
  pose proof (SETNX_law now (getLockKey l) (l_token l) (Some (expireSeconds (l_opts l) * second)) (n_srv n) Hpos) as Hl.
  destruct (SETNX now _ _ _ _) as [b r']. simpl. destruct (at_time now (keys (n_srv n)) !! getLockKey l); destruct Hl as [-> Hl];
    [done |]. intros _. by rewrite Hl, lookup_insert_eq.
Qed.

Lemma blocking_acquires l ticks n : lock_ok l -> (blockingLock l ticks n).1 = Some None ->
  held l (blockingLock l ticks n).2 (n_clock (blockingLock l ticks n).2 + expireSeconds (l_opts l) * second).
Proof using HL.
  intros Hok. revert n. induction ticks as [| [] ticks IH]; intros n; try done. simpl. unfold mbind, redisM_bind.
  pose proof (tryLock_acquires l n Hok) as Ha. destruct (tryLock l n) as [[er |] n1]; simpl in *; [| auto].
  destruct (IsRetryableErr er); [apply IH | done].
Qed.

(** A lock that returned success is held for its lease. *)
Lemma Lock_acquires l ticks n : lock_ok l -> (Lock l ticks n).1 = Some None ->
  held l (Lock l ticks n).2 (n_clock (Lock l ticks n).2 + expireSeconds (l_opts l) * second).
Proof using HL.
  intros Hok. unfold Lock, mbind, redisM_bind. pose proof (tryLock_acquires l n Hok) as Ha.
  destruct (tryLock l n) as [[er |] n1]; simpl in *; [| auto].
  destruct (negb _); [done |]. destruct (negb _); [done |]. by apply blocking_acquires.
Qed.

(** A release that returned success freed the lock its holder had. *)
Lemma Unlock_releases l n : (Unlock l n).1 = None -> lease (Unlock l n).2 (getLockKey l) = None.
Proof using HL.
  unfold Unlock, mbind, redisM_bind, mret, redisM_ret. set (f := LuaCheckAndDeleteDistributionLock _ _).
  destruct (remote_cases f n) as (now & fs & Hnow & [E | (er & s & E & _)]); rewrite E; simpl; [| done].
  unfold f, LuaCheckAndDeleteDistributionLock. rewrite GET_law. unfold lease. simpl.
  destruct (at_time now (keys (n_srv n)) !! getLockKey l) as [[v e] |] eqn:Ek; simpl; [| done].
  case_decide; simpl; [done |]. pose proof (DEL_law now (getLockKey l) (n_srv n)) as Hl. destruct (DEL _ _ _) as [m r'].
  rewrite Ek in Hl. simpl. destruct Hl as [-> ->]. intros _. apply lookup_delete_eq.
Qed.

Lemma DelayExpire_renews l secs n e d fs : 0 < secs -> held l n e -> n_fates n = (d, Fine) :: fs ->
  n_clock n + Z.max 0 d < e ->
  DelayExpire l secs n = (None, (DelayExpire l secs n).2) /\ n_fates (DelayExpire l secs n).2 = fs /\
  n_clock (DelayExpire l secs n).2 = n_clock n + Z.max 0 d /\
  held l (DelayExpire l secs n).2 (n_clock n + Z.max 0 d + secs * second).
Proof using HL.
  intros Hs Hh Hf Hd. unfold DelayExpire, mbind, redisM_bind, mret, redisM_ret, remote, next_fate. rewrite Hf.
  unfold LuaCheckAndExpireDistributionLock. rewrite GET_law. set (now := n_clock n + Z.max 0 d) in *.
  assert (at_time now (keys (n_srv n)) !! getLockKey l = Some (l_token l, Some e)) as Hk.
  { eapply lease_later; [exact Hh |]. lia. }
  rewrite Hk. simpl. rewrite decide_False by (intros Hn; by apply Hn).
  pose proof (EXPIRE_law now (getLockKey l) secs (n_srv n) Hs) as Hl. destruct (EXPIRE _ _ _ _) as [m r'].
  rewrite Hk in Hl. destruct Hl as [-> Hl]. simpl. split_and!; try done. unfold held, lease. simpl.
  by rewrite Hl, lookup_insert_eq.
Qed.

(** the watch dog keeps the lock.  When every renewal gets through and reaches the
    server less than 15 seconds after the one before it, the lock is still held after
    any number of ticks, for 15 more seconds. *)
Theorem watchdog_keeps l gap gaps d delays n e :
  held l n e -> 0 <= gap -> n_clock n + gap + Z.max 0 d < e -> n_fates n = map (fun d => (d, Fine)) (d :: delays) ->
  Forall2 (fun g d => 0 <= g /\ g + Z.max 0 d < 15 * second) gaps delays ->
  held l (watch l (gap :: gaps) n).2 (n_clock (watch l (gap :: gaps) n).2 + 15 * second).
Proof using HL.
  intros Hh Hg He Hf HF. revert n e gap d Hh Hg He Hf. induction HF as [| g2 d2 gaps delays [Hg2 Hd2] HF IH];
    intros n e gap d Hh Hg He Hf; cbn [watch]; unfold mbind, redisM_bind;
    set (n1 := mkNet (n_srv n) (n_clock n + gap) (n_fates n));
    (assert (held l n1 e) as Hh1 by (unfold held, lease in *; simpl; eapply lease_later; [exact Hh | lia]));
    destruct (DelayExpire_renews l (WatchDogWorkStepSeconds + 5) n1 e d _ eq_refl Hh1 Hf He) as (E & Hf' & Hc & Hh2);
    fold n1; rewrite E.
  - simpl. rewrite Hc. simpl. exact Hh2.
  - simpl in Hc. specialize (IH _ _ g2 d2 Hh2 Hg2). cbn [watch] in IH. unfold mbind, redisM_bind in IH. apply IH; [| exact Hf'].
    rewrite Hc. subst n1. simpl. unfold WatchDogWorkStepSeconds. lia.
Qed.

(** ** Majorities *)

(** Of two majorities of the same nodes one node is in both. *)
Lemma overlap_count {A B} (P : A -> B -> Prop) (f : A -> bool) (g : B -> bool) l k :
  Forall2 P l k -> (forall x y, P x y -> f x = true -> g y = false) ->
  (length (filter (fun x => f x = true) l) + length (filter (fun y => g y = true) k) <= length k)%nat.
Proof using Type.
  intros HF Hx. induction HF as [| x y l k HP _ IH]; [done |]. rewrite !filter_cons.
  specialize (Hx x y HP). repeat case_decide; simpl; try lia. rewrite Hx in *; done.
Qed.

(** A node and what another client has there: its lock and the end of its lease. *)
Definition node_taken (b : RedisLock) (n : net R) (h : option (RedisLock * Z)) : Prop :=
  match h with
  | Some (a, e) => held a n e /\ getLockKey b = getLockKey a /\ n_clock (Lock b [] n).2 < e
  | None => True
  end.

Definition taken (h : option (RedisLock * Z)) : bool := match h with Some _ => true | None => false end.

Lemma red_one_taken timeout b n h : lock_ok b -> node_taken b n h ->
  taken h = true -> (red_one timeout (b, n)).2 = false.
Proof using HL.
  intros Hok Hn Ht. destruct h as [[a e] |]; [| done]. destruct Hn as (Hh & Hk & Hc). simpl.
  destruct (Lock_held a b [] n e Hok Hh Hc) as [_ Hno]. specialize (Hno Hk).
  destruct (Lock b [] n) as [err n']. simpl in *. by rewrite bool_decide_eq_false_2.
Qed.

(** C13: RedLock excludes.  While a client has live leases on a majority of the nodes, the
    attempt of another fails, and leaves the leases as they were. *)
Theorem redlock_excludes timeout (locks : list (RedisLock * net R)) hs :
  Forall (fun x => lock_ok x.1) locks -> Forall2 (fun h x => node_taken x.1 x.2 h) hs locks ->
  zlen locks / 2 + 1 <= zlen (filter (fun h => taken h = true) hs) ->
  (RedLock_Lock timeout locks).1 = false /\
  Forall2 (fun h n => match h with Some (a, e) => held a n e | None => True end) hs (RedLock_Lock timeout locks).2.
Proof using HL.
  intros Hok HF Hmaj. unfold RedLock_Lock, counted. rewrite Z.shiftr_div_pow2 by done. change (2 ^ 1) with 2.
  pose proof (overlap_count (fun h x => node_taken x.1 x.2 h /\ lock_ok x.1) taken (fun x => (red_one timeout x).2) hs locks) as Hc.
  assert (Forall2 (fun h x => node_taken x.1 x.2 h /\ lock_ok x.1) hs locks) as HF2.
  { eapply Forall2_impl_in; [exact HF |]. intros h x _ Hx Hn. rewrite Forall_forall in Hok. split; auto. }
  specialize (Hc HF2). assert (forall (l : list (RedisLock * net R)),
    length (filter (fun y => y.2 = true) (map (red_one timeout) l)) =
    length (filter (fun x => (red_one timeout x).2 = true) l)) as Hmap.
  { induction l as [| x l IHl]; [done |]. simpl. rewrite !filter_cons. repeat case_decide; simpl; congruence. }
  assert (length (filter (fun x => taken x = true) hs) + length (filter (fun x => (red_one timeout x).2 = true) locks)
          <= length locks)%nat as Hle.
  { apply Hc. intros h [b n] [Hn Hb] Ht. by eapply red_one_taken. }
  unfold zlen in *. rewrite Hmap. zcase; [| zify; Z.to_euclidean_division_equations; lia]. split; [done |]. simpl.
  rewrite map_map. apply Forall2_fmap_r. eapply Forall2_impl; [exact HF2 |]. intros [[a e] |] [b n] [Hn Hb]; [| done].
  pose proof (red_one_taken timeout b n (Some (a, e)) Hb Hn eq_refl) as Hno. destruct Hn as (Hh & Hk & Ht). simpl in *.
  pose proof (Lock_held a b [] n e Hb Hh Ht) as [Hh' _]. destruct (Lock b [] n) as [err n']. simpl in *. by rewrite Hno.
Qed.

(** an attempt of RedLock that succeeds has taken the lock on a majority of the
    nodes. *)
Theorem redlock_majority timeout (locks : list (RedisLock * net R)) :
  Forall (fun x => lock_ok x.1) locks -> (RedLock_Lock timeout locks).1 = true ->
  exists won, zlen locks / 2 + 1 <= zlen (filter (fun b => b = true) won) /\ length won = length locks /\
    forall i b n, locks !! i = Some (b, n) -> won !! i = Some true ->
      exists n', (RedLock_Lock timeout locks).2 !! i = Some n' /\
        held b n' (n_clock n' + expireSeconds (l_opts b) * second).
Proof using HL.
  intros Hok. unfold RedLock_Lock, counted. rewrite Z.shiftr_div_pow2 by done. change (2 ^ 1) with 2.
  zcase; [done |]. intros _. exists (map (fun x => (red_one timeout x).2) locks). split; [| split].
  - etrans; [exact Eb |]. unfold zlen. clear. induction locks as [| x l IH]; [done |]. simpl. rewrite !filter_cons.
    repeat case_decide; simpl; try lia; congruence.
  - apply length_fmap.
  - intros i b n Hi Hw. change (map ?f locks !! i = Some true) with ((f <$> locks) !! i = Some true) in Hw.
    rewrite list_lookup_fmap, Hi in Hw. simpl in Hw. injection Hw as Hw.
    pose proof (Forall_lookup_1 _ _ _ _ Hok Hi) as Hb. simpl in Hb. pose proof (Lock_acquires b [] n Hb) as Ha.
    destruct (Lock b [] n) as [err n'] eqn:El. simpl in *. zb. apply bool_decide_eq_true in H.
    exists n'. split; [| by apply Ha]. simpl. rewrite map_map.
    change (map ?f locks !! i) with ((f <$> locks) !! i). rewrite list_lookup_fmap, Hi. simpl. by rewrite El.
Qed.

End Leases.

(** ** A server in memory *)

#[export] Instance mem_redis : Redis (gmap string entry) := {
  GET now k r := fst <$> at_time now r !! k;
  SET now k v r := <[k := (v, None)]> r;
  SETNX now k v ttl r :=
    match at_time now r !! k with
    | Some _ => (false, r)
    | None => (true, <[k := (v, (fun t => now + t) <$> ttl)]> r)
    end;
  DEL now k r := (match at_time now r !! k with Some _ => 1 | None => 0 end, delete k r);
  EXPIRE now k secs r :=
    match at_time now r !! k with
    | Some (v, _) => (1, <[k := (v, Some (now + secs * second))]> r)
    | None => (0, r)
    end
}.

Lemma at_time_insert now k x (m : gmap string entry) : alive now x = true ->
  at_time now (<[k := x]> m) = <[k := x]> (at_time now m).
Proof. intros Hx. unfold at_time. by rewrite map_filter_insert_True. Qed.

#[export] Instance mem_redis_laws : RedisLaws (gmap string entry).
Proof.
  refine {| keys := fun r => r |}; intros; simpl.
  - done.
  - by apply at_time_insert.
  - destruct (at_time now r !! k); [done |]. split; [done |]. apply at_time_insert. destruct ttl; [| done].
    unfold alive. simpl. lia.
  - split; [done |]. unfold at_time. apply map_filter_delete.
  - destruct (at_time now r !! k) as [[v e] |]; [| done]. split; [done |]. apply at_time_insert.
    unfold alive, second. simpl. lia.
Defined.

(** ** Cases *)

Definition ex_lock (pid gid : Z) : RedisLock := NewRedisLock "order" pid gid [].

Definition ex_net : net (gmap string entry) := mkNet ∅ 0 [].

(** The server after process 1 has taken the lock; it is held until 30 seconds. *)
Definition ex_held : net (gmap string entry) := (Lock (ex_lock 1 7) [] ex_net).2.

Lemma ex_held_holds : held (ex_lock 1 7) ex_held (30 * second).
Proof. by vm_compute. Qed.

Lemma lease_excludes_witness :
  held (ex_lock 1 7) (do_ops [OLock (ex_lock 2 7) []; OUnlock (ex_lock 2 7); OWait second] ex_held).2 (30 * second) /\
  Forall (fun b => b = false) (do_ops [OLock (ex_lock 2 7) []; OUnlock (ex_lock 2 7); OWait second] ex_held).1.
Proof.
  apply (lease_excludes (ex_lock 1 7)).
  - repeat constructor; by vm_compute.
  - exact ex_held_holds.
  - by vm_compute.
Defined.

Lemma watchdog_keeps_witness :
  held (ex_lock 1 7) (watch (ex_lock 1 7) [10 * second; 10 * second]
      (mkNet (n_srv ex_held) 0 [(0, Fine); (second, Fine)])).2 (36 * second).
Proof.
  change (36 * second) with (n_clock (watch (ex_lock 1 7) [10 * second; 10 * second]
      (mkNet (n_srv ex_held) 0 [(0, Fine); (second, Fine)])).2 + 15 * second).
  apply (watchdog_keeps (ex_lock 1 7) (10 * second) [10 * second] 0 [second] _ (30 * second)).
  - by vm_compute.
  - by vm_compute.
  - by vm_compute.
  - done.
  - repeat constructor; by vm_compute.
Defined.

(** Three nodes, two of which process 1 has. *)
Definition ex_nodes : list (RedisLock * net (gmap string entry)) :=
  [(ex_lock 2 7, ex_held); (ex_lock 2 7, ex_net); (ex_lock 2 7, ex_held)].

Lemma redlock_excludes_witness : (RedLock_Lock DefaultSingleLockTimeout ex_nodes).1 = false.
Proof.
  apply (redlock_excludes DefaultSingleLockTimeout ex_nodes
           [Some (ex_lock 1 7, 30 * second); None; Some (ex_lock 1 7, 30 * second)]).
  - repeat constructor; by vm_compute.
  - repeat constructor; by vm_compute.
  - by vm_compute.
Defined.

Lemma redlock_majority_witness : exists won,
  2 <= zlen (filter (fun b => b = true) won) /\ length won = 3%nat.
Proof.
  destruct (redlock_majority DefaultSingleLockTimeout [(ex_lock 2 7, ex_net); (ex_lock 2 7, ex_held); (ex_lock 2 7, ex_net)])
    as (won & Hm & Hl & _).
  - repeat constructor; by vm_compute.
  - by vm_compute.
  - exists won. split; [exact Hm | exact Hl].
Defined.

(** The token has no part that tells machines apart: a process of the same number on
    another machine releases the lock. *)
Lemma same_pid_unlocks : (Unlock (ex_lock 1 7) ex_held).1 = None /\
  l_token (NewRedisLock "order" 1 7 []) = l_token (ex_lock 1 7) /\
  lease (Unlock (NewRedisLock "order" 1 7 []) ex_held).2 (getLockKey (ex_lock 1 7)) = None.
Proof. by vm_compute. Qed.

(** A node that answers after the timeout keeps the lock of an attempt that failed. *)
Lemma slow_node_stays_locked :
  let slow := mkNet (∅ : gmap string entry) 0 [(second, Fine)] in
  let r := RedLock_Lock DefaultSingleLockTimeout [(ex_lock 2 7, slow); (ex_lock 2 7, slow); (ex_lock 2 7, ex_net)] in
  r.1 = false /\ map (fun n => bool_decide (lease n (getLockKey (ex_lock 2 7)) = None)) r.2 = [false; false; true].
Proof. by vm_compute. Qed.
