(* ===== verification/TccComponent.v ===== *)
(** * TCC transactions: a component on Redis

    [components/tcc/example]: [tcc_component.go] and the keys of [pkg/redis.go], on the
    client and the lock of [RedisLock].  Without failures a component is a state
    machine ([component_refines]); with a lost write its [Confirm] stops being
    idempotent, and [Cancel] fails for a transaction it never tried. *)
From S2P Require Import Prelude GoStrings TccModel RedisLock.

(** ** Keys *)

Definition BuildTXKey (componentID txID : string) : string := "txKey:" +:+ componentID +:+ ":" +:+ txID.
Definition BuildTXDetailKey (componentID txID : string) : string := "txDetailKey:" +:+ componentID +:+ ":" +:+ txID.
Definition BuildDataKey (componentID txID bizID : string) : string :=
  "txKey:" +:+ componentID +:+ ":" +:+ txID +:+ ":" +:+ bizID.
Definition BuildTXLockKey (componentID txID : string) : string := "txLockKey:" +:+ componentID +:+ ":" +:+ txID.

Definition TXTried : string := "tried".
Definition TXConfirmed : string := "confirmed".
Definition TXCanceled : string := "canceled".
Definition DataFrozen : string := "frozen".
Definition DataSuccessful : string := "successful".

(** ** The component *)

(** What can go wrong: the lock, the client, the status. *)
Inductive cerr := ELock (e : lerr) | ERedis (e : rerr) | EStatus (status : string).

#[export] Instance cerr_eq_dec : EqDecision cerr.
Proof. solve_decision. Defined.

#[export] Instance resp_eq_dec : EqDecision TCCResp.
Proof. solve_decision. Defined.

Section Component.
Context {R : Type} `{Redis R}.

(** The lock is made by the goroutine [gid] of the process [pid]; it is released when
    the body is left, and an error of the release is dropped. *)
Definition tx_lock (id txID : string) (pid gid : Z) : RedisLock := NewRedisLock (BuildTXLockKey id txID) pid gid [].

Definition with_lock {A} (l : RedisLock) (body : redisM R (result cerr A)) : redisM R (result cerr A) :=
  err ← Lock l [];
  match err with
  | Some (Some e) => mret (Err (ELock e))
  | _ => r ← body; _ ← Unlock l; mret r
  end.

(** [if err != nil { return nil, err }] *)
Definition check {A B} (m : redisM R (result rerr A)) (k : A -> redisM R (result cerr B)) : redisM R (result cerr B) :=
  r ← m;
  match r with
  | Err e => mret (Err (ERedis e))
  | Ok a => k a
  end.

(** A missing key is the empty status. *)
Definition check_nil {B} (m : redisM R (result rerr string)) (k : string -> redisM R (result cerr B)) : redisM R (result cerr B) :=
  r ← m;
  match r with
  | Err Nil => k ""
  | Err e => mret (Err (ERedis e))
  | Ok a => k a
  end.

(** [bizID] is [fmt.Sprintf("%v", req.Data["biz_id"])]. *)
Definition Try (id txID bizID : string) (pid gid : Z) : redisM R (result cerr TCCResp) :=
  with_lock (tx_lock id txID pid gid) (
    check_nil (Get (BuildTXKey id txID)) (fun txStatus =>
    if decide (txStatus = TXTried \/ txStatus = TXConfirmed) then mret (Ok (mkResp id true txID))
    else if decide (txStatus = TXCanceled) then mret (Ok (mkResp id false txID))
    else
      check (Set_ (BuildTXDetailKey id txID) bizID) (fun _ =>
      check (SetNX (BuildDataKey id txID bizID) DataFrozen) (fun reply =>
      if negb (reply =? 1) then mret (Ok (mkResp id false txID))
      else
        check (Set_ (BuildTXKey id txID) TXTried) (fun _ =>
        mret (Ok (mkResp id true txID))))))).

Definition Confirm (id txID : string) (pid gid : Z) : redisM R (result cerr TCCResp) :=
  with_lock (tx_lock id txID pid gid) (
    check (Get (BuildTXKey id txID)) (fun txStatus =>
    if decide (txStatus = TXConfirmed) then mret (Ok (mkResp id true txID))
    else if decide (txStatus <> TXTried) then mret (Ok (mkResp id false txID))
    else
      check (Get (BuildTXDetailKey id txID)) (fun bizID =>
      check (Get (BuildDataKey id txID bizID)) (fun dataStatus =>
      if decide (dataStatus <> DataFrozen) then mret (Ok (mkResp id false txID))
      else
        check (Set_ (BuildDataKey id txID bizID) DataSuccessful) (fun _ =>
        _ ← Set_ (BuildTXKey id txID) TXConfirmed;
        mret (Ok (mkResp id true txID))))))).

Definition Cancel (id txID : string) (pid gid : Z) : redisM R (result cerr TCCResp) :=
  with_lock (tx_lock id txID pid gid) (
    check_nil (Get (BuildTXKey id txID)) (fun txStatus =>
    if decide (txStatus = TXConfirmed) then mret (Err (EStatus txStatus))
    else
      check (Get (BuildTXDetailKey id txID)) (fun bizID =>
      check (Del (BuildDataKey id txID bizID)) (fun _ =>
      _ ← Set_ (BuildTXKey id txID) TXCanceled;
      mret (Ok (mkResp id true txID)))))).

End Component.

(** ** The state machine *)

Inductive cstate := Fresh | Tried | Confirmed | Cancelled.

Inductive cop := OTry | OConfirm | OCancel.

(** The answer (acknowledged, refused or an error) and the next state. *)
Definition cstep (s : cstate) (o : cop) : option bool * cstate :=
  match o, s with
  | OTry, (Fresh | Tried) => (Some true, Tried)
  | OTry, Confirmed => (Some true, Confirmed)
  | OTry, Cancelled => (Some false, Cancelled)
  | OConfirm, Fresh => (None, Fresh)
  | OConfirm, (Tried | Confirmed) => (Some true, Confirmed)
  | OConfirm, Cancelled => (Some false, Cancelled)
  | OCancel, Fresh => (None, Fresh)
  | OCancel, (Tried | Cancelled) => (Some true, Cancelled)
  | OCancel, Confirmed => (None, Confirmed)
  end.

Fixpoint cruns (s : cstate) (l : list cop) : list (option bool) * cstate :=
  match l with
  | [] => ([], s)
  | o :: l => let '(a, s) := cstep s o in let '(rs, s) := cruns s l in (a :: rs, s)
  end.

(** ** Calls that get through *)

Section Calm.
Context {R : Type} `{HR : !Redis R} `{HL : !RedisLaws R}.

Definition calm (n : net R) : Prop := Forall (fun x => x.2 = Fine) (n_fates n).

(** The key [k] holds [o], for ever. *)
Definition has (n : net R) (k : string) (o : option string) : Prop := lease n k = (fun v => (v, None)) <$> o.

(** The key [k] is free, or a lease of [tok]. *)
Definition leased (n : net R) (tok k : string) : Prop := lease n k = None \/ exists e, lease n k = Some (tok, Some e).

(** Only [k] changes, but for what expires. *)
Definition eff (n n' : net R) (k : string) : Prop :=
  calm n' /\ forall j, j <> k -> (forall o, has n j o -> has n' j o) /\ forall tok, leased n tok j -> leased n' tok j.

Lemma lapse now now' (m : gmap string entry) j : now <= now' ->
  (forall o, at_time now m !! j = (fun v => (v, None)) <$> o -> at_time now' m !! j = (fun v => (v, None)) <$> (o : option string)) /\
  forall tok : string, at_time now m !! j = None \/ (exists e, at_time now m !! j = Some (tok, Some e)) ->
    at_time now' m !! j = None \/ exists e, at_time now' m !! j = Some (tok, Some e).
Proof using Type.
  intros Hle. split.
  - intros [v |] Hj; [| by eapply none_later]. apply at_time_lookup in Hj as [Hj _]. by apply at_time_lookup.
  - intros tok [Hj | [e Hj]]; [left; by eapply none_later |]. destruct (decide (now' < e)).
    + right. exists e. by eapply lease_later.
    + left. apply at_time_lookup in Hj as [Hj _]. destruct (at_time now' m !! j) as [x |] eqn:E; [| done].
      apply at_time_lookup in E as [E Ha]. rewrite Hj in E. injection E as <-. unfold alive in Ha. simpl in Ha. zb. lia.
Qed.

Lemma remote_calm {A} (f : Z -> R -> A * R) n : calm n -> exists now fs, n_clock n <= now /\
  Forall (fun x => x.2 = Fine) fs /\ remote f n = (Ok (f now (n_srv n)).1, mkNet (f now (n_srv n)).2 now fs).
Proof using Type.
  intros Hc. unfold remote, next_fate, calm in *. destruct (n_fates n) as [| [d ft] fs].
  - exists (n_clock n + 0), []. split; [lia |]. split; [done |]. by destruct (f _ _).
  - inversion Hc as [| ? ? Hft Hfs]; subst. simpl in Hft. subst ft. exists (n_clock n + Z.max 0 d), fs.
    split; [lia |]. split; [done |]. by destruct (f _ _).
Qed.

(** A command that changes at most the key [k]. *)
Lemma eff_now n now fs r k : n_clock n <= now -> Forall (fun x => x.2 = Fine) fs ->
  (forall j, j <> k -> at_time now (keys r) !! j = at_time now (keys (n_srv n)) !! j) -> eff n (mkNet r now fs) k.
Proof using Type.
  intros Hle Hfs Hj. split; [done |]. intros j Hne. unfold has, leased, lease. simpl. rewrite Hj by done.
  apply (lapse (n_clock n)). done.
Qed.

Lemma Get_calm n k o : calm n -> k <> "" -> has n k o -> exists n', eff n n' "" /\
  Get k n = (match o with Some v => Ok v | None => Err Nil end, n').
Proof using HL.
  intros Hc Hk Ho. unfold Get, mbind, redisM_bind, mret, redisM_ret. rewrite decide_False by done.
  match goal with |- context [remote ?f n] => destruct (remote_calm f n Hc) as (now & fs & Hle & Hfs & ->) end.
  eexists. split; [by apply eff_now |]. simpl. rewrite GET_law.
  destruct (lapse (n_clock n) now (keys (n_srv n)) k Hle) as [Hl _]. rewrite (Hl o Ho). by destruct o.
Qed.

Lemma Set_calm n k v : calm n -> k <> "" -> v <> "" -> exists n', eff n n' k /\ has n' k (Some v) /\ Set_ k v n = (Ok 1, n').
Proof using HL.
  intros Hc Hk Hv. unfold Set_, mbind, redisM_bind, mret, redisM_ret. rewrite decide_False by (by intros [? | ?]).
  match goal with |- context [remote ?f n] => destruct (remote_calm f n Hc) as (now & fs & Hle & Hfs & ->) end.
  eexists. split; [| split; [| done]].
  - apply eff_now; [done | done |]. intros j Hj. simpl. by rewrite SET_law, lookup_insert_ne.
  - unfold has, lease. simpl. by rewrite SET_law, lookup_insert_eq.
Qed.

Lemma SetNX_calm n k v o : calm n -> k <> "" -> v <> "" -> has n k o -> exists n', eff n n' k /\
  has n' k (Some (default v o)) /\ SetNX k v n = (Ok match o with Some _ => 0 | None => 1 end, n').
Proof using HL.
  intros Hc Hk Hv Ho. unfold SetNX, setnx, mbind, redisM_bind, mret, redisM_ret. rewrite decide_False by (by intros [? | ?]).
  match goal with |- context [remote ?f n] => destruct (remote_calm f n Hc) as (now & fs & Hle & Hfs & ->) end.
  destruct (lapse (n_clock n) now (keys (n_srv n)) k Hle) as [Hl _]. specialize (Hl o Ho).
  pose proof (SETNX_law now k v None (n_srv n) I) as Hlaw. destruct (SETNX now k v None (n_srv n)) as [b r] eqn:E.
  rewrite Hl in Hlaw. eexists. split; [| split].
  - apply eff_now; [done | done |]. intros j Hj. simpl. destruct o; destruct Hlaw as [_ ->]; [done | by rewrite lookup_insert_ne].
  - unfold has, lease. simpl. destruct o; destruct Hlaw as [_ ->]; [done | by rewrite lookup_insert_eq].
  - simpl. by destruct o; destruct Hlaw as [-> _].
Qed.

Lemma Del_calm n k : calm n -> k <> "" -> exists n', eff n n' k /\ has n' k None /\ Del k n = (Ok tt, n').
Proof using HL.
  intros Hc Hk. unfold Del, mbind, redisM_bind, mret, redisM_ret. rewrite decide_False by done.
  match goal with |- context [remote ?f n] => destruct (remote_calm f n Hc) as (now & fs & Hle & Hfs & ->) end.
  pose proof (DEL_law now k (n_srv n)) as Hlaw. destruct (DEL now k (n_srv n)) as [m r] eqn:E. destruct Hlaw as [_ Hr].
  eexists. split; [| split; [| done]].
  - apply eff_now; [done | done |]. intros j Hj. simpl. by rewrite Hr, lookup_delete_ne.
  - unfold has, lease. simpl. by rewrite Hr, lookup_delete_eq.
Qed.

Lemma Lock_calm l n : calm n -> lock_ok l -> has n (getLockKey l) None -> exists n', eff n n' (getLockKey l) /\
  leased n' (l_token l) (getLockKey l) /\ Lock l [] n = (Some None, n').
Proof using HL.
  intros Hc Hok Ho. unfold Lock, mbind, redisM_bind, mret, redisM_ret. rewrite tryLock_remote by done.
  match goal with |- context [remote ?f n] => destruct (remote_calm f n Hc) as (now & fs & Hle & Hfs & ->) end.
  destruct Hok as [Hs _]. assert (0 < expireSeconds (l_opts l) * second) as Hpos by (unfold second; lia).
  pose proof (SETNX_law now (getLockKey l) (l_token l) (Some (expireSeconds (l_opts l) * second)) (n_srv n) Hpos) as Hlaw.
  destruct (SETNX now _ _ _ _) as [b r] eqn:E. rewrite (none_later (n_clock n)) in Hlaw by done. destruct Hlaw as [-> Hr].
  eexists. split; [| split; [| done]].
  - apply eff_now; [done | done |]. intros j Hj. simpl. by rewrite Hr, lookup_insert_ne.
  - right. unfold lease. simpl. rewrite Hr, lookup_insert_eq. eauto.
Qed.

Lemma Unlock_calm l n : calm n -> leased n (l_token l) (getLockKey l) -> exists n' err, eff n n' (getLockKey l) /\
  has n' (getLockKey l) None /\ Unlock l n = (err, n').
Proof using HL.
  intros Hc Ho. unfold Unlock, mbind, redisM_bind, mret, redisM_ret.
  match goal with |- context [remote ?f n] => destruct (remote_calm f n Hc) as (now & fs & Hle & Hfs & ->) end.
  destruct (lapse (n_clock n) now (keys (n_srv n)) (getLockKey l) Hle) as [_ Hl]. specialize (Hl (l_token l) Ho).
  unfold LuaCheckAndDeleteDistributionLock. rewrite GET_law. do 2 eexists. split; [| split; [| done]].
  - apply eff_now; [done | done |]. intros j Hj. simpl. destruct Hl as [-> | [e ->]]; [done |]. simpl.
    rewrite decide_False by (intros Hn; by apply Hn). pose proof (DEL_law now (getLockKey l) (n_srv n)) as Hlaw.
    destruct (DEL _ _ _) as [m r]. destruct Hlaw as [_ Hr]. simpl. by rewrite Hr, lookup_delete_ne.
  - unfold has, lease. simpl. destruct Hl as [El | [e El]]; rewrite El; [done |]. simpl.
    rewrite decide_False by (intros Hn; by apply Hn). pose proof (DEL_law now (getLockKey l) (n_srv n)) as Hlaw.
    destruct (DEL _ _ _) as [m r]. destruct Hlaw as [_ Hr]. simpl. by rewrite Hr, lookup_delete_eq.
Qed.

End Calm.

(** ** The refinement *)

Section Refine.
Context {R : Type} `{HR : !Redis R} `{HL : !RedisLaws R} (id txID bizID : string).

Abbreviation kT := (BuildTXKey id txID).
Abbreviation kD := (BuildTXDetailKey id txID).
Abbreviation kX := (BuildDataKey id txID bizID).
Abbreviation kL := (getLockKey (tx_lock id txID 0 0)).

Lemma keys_differ : kT <> kD /\ kT <> kX /\ kD <> kX /\ kT <> kL /\ kD <> kL /\ kX <> kL /\
  kT <> "" /\ kD <> "" /\ kX <> "" /\ kL <> "".
Proof using Type.
  split_and!; try (intros E; simpl in E; discriminate E).
  unfold BuildTXKey, BuildDataKey. intros E. apply (f_equal String.length) in E.
  rewrite !string_length_app in E. simpl in E. lia.
Qed.

(** What the three keys hold, the lock being free or leased to [tok]. *)
Record st (n : net R) (tok : string) (t d x : option string) : Prop := {
  st_calm : calm n;
  st_t : has n kT t;
  st_d : has n kD d;
  st_x : has n kX x;
  st_l : leased n tok kL
}.

Lemma lock_key pid gid : getLockKey (tx_lock id txID pid gid) = kL.
Proof using Type. done. Qed.

Lemma tx_lock_ok pid gid : lock_ok (tx_lock id txID pid gid).
Proof using Type.
  split; [by vm_compute |]. simpl. unfold GetProcessAndGoroutineIDStr. intros E. apply (f_equal String.length) in E.
  rewrite !string_length_app in E. simpl in E. lia.
Qed.

Ltac differ := destruct keys_differ as (?HTD & ?HTX & ?HDX & ?HTL & ?HDL & ?HXL & ?HT & ?HD & ?HX & ?HLk).

(** The calls of the component, on its keys. *)
Lemma st_get n tok t d x k o : st n tok t d x -> (k, o) ∈ [(kT, t); (kD, d); (kX, x)] ->
  exists n', st n' tok t d x /\ Get k n = (match o with Some v => Ok v | None => Err Nil end, n').
Proof using HL.
  intros [Hc Ht Hd Hx Hl] Hk. differ.
  assert (k <> "" /\ has n k o) as [Hne Ho] by (set_unfold in Hk; destruct_or! Hk; simplify_eq; done).
  destruct (Get_calm n k o Hc Hne Ho) as (n' & [Hc' He] & E). exists n'. split; [| done].
  split; [done | | | |]; by apply He.
Qed.

Lemma st_set_t n tok t d x v : st n tok t d x -> v <> "" ->
  exists n', st n' tok (Some v) d x /\ Set_ kT v n = (Ok 1, n').
Proof using HL.
  intros [Hc Ht Hd Hx Hl] Hv. differ. destruct (Set_calm n kT v Hc HT Hv) as (n' & [Hc' He] & Hn & E).
  exists n'. split; [| done]. split; [done | done | | |]; by apply He.
Qed.

Lemma st_set_d n tok t d x v : st n tok t d x -> v <> "" ->
  exists n', st n' tok t (Some v) x /\ Set_ kD v n = (Ok 1, n').
Proof using HL.
  intros [Hc Ht Hd Hx Hl] Hv. differ. destruct (Set_calm n kD v Hc HD Hv) as (n' & [Hc' He] & Hn & E).
  exists n'. split; [| done]. split; [done | | done | |]; by apply He.
Qed.

Lemma st_set_x n tok t d x v : st n tok t d x -> v <> "" ->
  exists n', st n' tok t d (Some v) /\ Set_ kX v n = (Ok 1, n').
Proof using HL.
  intros [Hc Ht Hd Hx Hl] Hv. differ. destruct (Set_calm n kX v Hc HX Hv) as (n' & [Hc' He] & Hn & E).
  exists n'. split; [| done]. split; [done | | | done |]; by apply He.
Qed.

Lemma st_setnx n tok t d x v : st n tok t d x -> v <> "" ->
  exists n', st n' tok t d (Some (default v x)) /\ SetNX kX v n = (Ok match x with Some _ => 0 | None => 1 end, n').
Proof using HL.
  intros [Hc Ht Hd Hx Hl] Hv. differ. destruct (SetNX_calm n kX v x Hc HX Hv Hx) as (n' & [Hc' He] & Hn & E).
  exists n'. split; [| done]. split; [done | | | done |]; by apply He.
Qed.

Lemma st_del n tok t d x : st n tok t d x -> exists n', st n' tok t d None /\ Del kX n = (Ok tt, n').
Proof using HL.
  intros [Hc Ht Hd Hx Hl]. differ. destruct (Del_calm n kX Hc HX) as (n' & [Hc' He] & Hn & E).
  exists n'. split; [| done]. split; [done | | | done |]; by apply He.
Qed.

(** Between two operations the lock is free. *)
Record idle (n : net R) (t d x : option string) : Prop := {
  id_calm : calm n;
  id_t : has n kT t;
  id_d : has n kD d;
  id_x : has n kX x;
  id_l : has n kL None
}.

Lemma with_lock_calm {A} pid gid (body : redisM R (result cerr A)) n t d x r t' d' x' :
  idle n t d x ->
  (forall n1, st n1 (l_token (tx_lock id txID pid gid)) t d x ->
     exists n2, body n1 = (r, n2) /\ st n2 (l_token (tx_lock id txID pid gid)) t' d' x') ->
  exists n', with_lock (tx_lock id txID pid gid) body n = (r, n') /\ idle n' t' d' x'.
Proof using HL.
  intros [Hc Ht Hd Hx Hl] Hbody. differ. unfold with_lock, mbind, redisM_bind, mret, redisM_ret.
  destruct (Lock_calm (tx_lock id txID pid gid) n Hc (tx_lock_ok pid gid) Hl) as (n1 & [Hc1 He1] & Hl1 & ->).
  destruct (Hbody n1) as (n2 & -> & [Hc2 Ht2 Hd2 Hx2 Hl2]).
  { split; [done | | | | done]; by apply He1. }
  destruct (Unlock_calm (tx_lock id txID pid gid) n2 Hc2 Hl2) as (n3 & err & [Hc3 He3] & Hl3 & ->).
  exists n3. split; [done |]. split; [done | | | | done]; by apply He3.
Qed.

(** The keys in each state, and the answers. *)
Definition cmem (s : cstate) : option string * option string * option string :=
  match s with
  | Fresh => (None, None, None)
  | Tried => (Some TXTried, Some bizID, Some DataFrozen)
  | Confirmed => (Some TXConfirmed, Some bizID, Some DataSuccessful)
  | Cancelled => (Some TXCanceled, Some bizID, None)
  end.

Definition rep (n : net R) (s : cstate) : Prop := let '(t, d, x) := cmem s in idle n t d x.

Definition cres (s : cstate) (o : cop) : result cerr TCCResp :=
  match (cstep s o).1 with
  | Some ack => Ok (mkResp id ack txID)
  | None => match s with Fresh => Err (ERedis Nil) | _ => Err (EStatus TXConfirmed) end
  end.

Definition do_cop (o : cop) (pid gid : Z) : redisM R (result cerr TCCResp) :=
  match o with
  | OTry => Try id txID bizID pid gid
  | OConfirm => Confirm id txID pid gid
  | OCancel => Cancel id txID pid gid
  end.

(** Runs the next call. *)
Ltac call :=
  match goal with
  | H : st ?n _ ?t ?d ?x |- context [Get kT ?n] =>
      let E := fresh "E" in destruct (st_get n _ t d x kT t H) as (? & ? & E); [by left |]; rewrite E; clear H E
  | H : st ?n _ ?t ?d ?x |- context [Get kD ?n] =>
      let E := fresh "E" in destruct (st_get n _ t d x kD d H) as (? & ? & E); [by right; left |]; rewrite E; clear H E
  | H : st ?n _ ?t ?d ?x |- context [Get kX ?n] =>
      let E := fresh "E" in destruct (st_get n _ t d x kX x H) as (? & ? & E); [by right; right; left |]; rewrite E; clear H E
  | H : st ?n _ _ _ _ |- context [Set_ kT ?v ?n] =>
      let E := fresh "E" in destruct (st_set_t n _ _ _ _ v H) as (? & ? & E); [done |]; rewrite E; clear H E
  | H : st ?n _ _ _ _ |- context [Set_ kD ?v ?n] =>
      let E := fresh "E" in destruct (st_set_d n _ _ _ _ v H) as (? & ? & E); [done |]; rewrite E; clear H E
  | H : st ?n _ _ _ _ |- context [Set_ kX ?v ?n] =>
      let E := fresh "E" in destruct (st_set_x n _ _ _ _ v H) as (? & ? & E); [done |]; rewrite E; clear H E
  | H : st ?n _ _ _ _ |- context [SetNX kX ?v ?n] =>
      let E := fresh "E" in destruct (st_setnx n _ _ _ _ v H) as (? & ? & E); [done |]; rewrite E; clear H E
  | H : st ?n _ _ _ _ |- context [Del kX ?n] =>
      let E := fresh "E" in destruct (st_del n _ _ _ _ H) as (? & ? & E); rewrite E; clear H E
  end; change (negb (1 =? 1)) with false; cbv beta iota.

Lemma op_calm o s pid gid n : bizID <> "" -> rep n s ->
  exists n', do_cop o pid gid n = (cres s o, n') /\ rep n' (cstep s o).2.
Proof using HL.
  intros Hb Hrep.
  destruct o, s; unfold rep in *; cbn [cmem cstep snd] in *; apply (with_lock_calm _ _ _ _ _ _ _ _ _ _ _ Hrep);
    intros n1 Hst; unfold check_nil, check, mbind, redisM_bind, mret, redisM_ret;
    repeat (call || (case_decide; [exfalso; naive_solver | ]) || (case_decide; [| exfalso; naive_solver]));
    (eexists; split; [reflexivity | eassumption]).
Qed.

(** The answers of a sequence of operations, each by some goroutine of some process. *)
Fixpoint do_cops (l : list (cop * Z * Z)) : redisM R (list (option bool)) :=
  match l with
  | [] => mret []
  | (o, pid, gid) :: l =>
      r ← do_cop o pid gid;
      rs ← do_cops l;
      mret (match r with Ok resp => Some (rs_ACK resp) | Err _ => None end :: rs)
  end.

(** C15: without failures the component is the state machine: over any sequence of
    [Try], [Confirm] and [Cancel] of a transaction, in any order and with any delays, its
    answers and its keys are those of [cstep]. *)
Theorem component_refines l s n : bizID <> "" -> rep n s ->
  exists n', do_cops l n = ((cruns s (map (fun x => x.1.1) l)).1, n') /\ rep n' (cruns s (map (fun x => x.1.1) l)).2.
Proof using HL.
  intros Hb. revert s n. induction l as [| [[o pid] gid] l IH]; intros s n Hrep; [by exists n |]. simpl.
  unfold mbind, redisM_bind, mret, redisM_ret. destruct (op_calm o s pid gid n Hb Hrep) as (n1 & -> & Hrep1).
  destruct (IH _ _ Hrep1) as (n2 & -> & Hrep2). unfold cres. destruct (cstep s o) as [a s1]. simpl in *.
  destruct (cruns s1 _) as [rs s2]. exists n2. split; [| done]. do 2 f_equal. destruct a; [done |]. by destruct s.
Qed.

End Refine.

(** ** The lock of the store

    [MockTXStore.Lock] and [Unlock] make a lock each, for the same key; in one goroutine
    they have the same token. *)

Definition BuildTXRecordLockKey : string := "tcc:txRecord:lock".

Definition mock_Lock {R} `{Redis R} (pid gid expireDuration : Z) : redisM R (option (option lerr)) :=
  Lock (NewRedisLock BuildTXRecordLockKey pid gid [WithExpireSeconds (Z.quot expireDuration second)]) [].

Definition mock_Unlock {R} `{Redis R} (pid gid : Z) : redisM R (option lerr) :=
  Unlock (NewRedisLock BuildTXRecordLockKey pid gid []).

(** A round of the monitor leaves the lock free. *)
Lemma store_lock_released {R} `{RedisLaws R} (pid gid expireDuration : Z) (n : net R) :
  calm n -> 0 < Z.quot expireDuration second < 8589934592 ->
  has n (getLockKey (NewRedisLock BuildTXRecordLockKey pid gid [])) None ->
  exists n1 n2 err, mock_Lock pid gid expireDuration n = (Some None, n1) /\ mock_Unlock pid gid n1 = (err, n2) /\
    has n2 (getLockKey (NewRedisLock BuildTXRecordLockKey pid gid [])) None.
Proof.
  intros Hc He Hn. set (l := NewRedisLock BuildTXRecordLockKey pid gid [WithExpireSeconds (Z.quot expireDuration second)]).
  assert (lock_ok l) as Hl.
  { split; [| apply (tx_lock_ok "" "" pid gid)]. subst l. unfold NewRedisLock, repairLock. cbn [foldl WithExpireSeconds l_opts expireSeconds].
    zcase; [done | lia]. }
  destruct (Lock_calm l n Hc Hl Hn) as (n1 & [Hc1 _] & Hl1 & E1).
  destruct (Unlock_calm (NewRedisLock BuildTXRecordLockKey pid gid []) n1 Hc1 Hl1) as (n2 & err & _ & Hn2 & E2).
  exists n1, n2, err. split; [exact E1 |]. split; [exact E2 | exact Hn2].
Qed.

(** ** Cases *)

Abbreviation mem := (gmap string entry).

Lemma component_refines_witness : exists n',
  do_cops "c" "1" "biz" [(OTry, 1, 1); (OConfirm, 1, 1); (OConfirm, 2, 1); (OCancel, 1, 2)] (mkNet (∅ : mem) 0 [(5, Fine)]) =
    ([Some true; Some true; Some true; None], n') /\ rep "c" "1" "biz" n' Confirmed.
Proof.
  apply (component_refines "c" "1" "biz" [(OTry, 1, 1); (OConfirm, 1, 1); (OConfirm, 2, 1); (OCancel, 1, 2)] Fresh).
  - done.
  - split; [by repeat constructor | by vm_compute | by vm_compute | by vm_compute | by vm_compute].
Defined.

(** A transaction the component never tried cannot be cancelled: the detail of the
    transaction is missing, and that is an error. *)
Lemma cancel_untried {R} `{RedisLaws R} (id txID bizID : string) (pid gid : Z) (n : net R) :
  bizID <> "" -> rep id txID bizID n Fresh ->
  exists n', Cancel id txID pid gid n = (Err (ERedis Nil), n') /\ rep id txID bizID n' Fresh.
Proof. apply (op_calm id txID bizID OCancel Fresh). Qed.

(** The network after [Try]; then a [Confirm] whose last write does not get through. *)
Definition ex_tried_net : net mem := (Try "c" "1" "biz" 1 1 (mkNet ∅ 0 [])).2.

Definition ex_confirm : result cerr TCCResp * net mem :=
  Confirm "c" "1" 1 1 (mkNet (n_srv ex_tried_net) 0 (repeat (0, Fine) 5 ++ [(0, Down "EOF")])).

(** The component acknowledges the confirmation, refuses the next one, and then lets the
    confirmed data be cancelled. *)
Theorem confirm_not_idempotent :
  ex_confirm.1 = Ok (mkResp "c" true "1") /\
  lease ex_confirm.2 (BuildDataKey "c" "1" "biz") = Some (DataSuccessful, None) /\
  (Confirm "c" "1" 1 1 ex_confirm.2).1 = Ok (mkResp "c" false "1") /\
  (Cancel "c" "1" 1 1 ex_confirm.2).1 = Ok (mkResp "c" true "1") /\
  lease (Cancel "c" "1" 1 1 ex_confirm.2).2 (BuildDataKey "c" "1" "biz") = None.
Proof. by vm_compute. Qed.
