(* ===== verification/CacheAside.v ===== *)
(** * A cache beside a database

    [components/consistent_cache]: [interface.go], [option.go], [service.go],
    [redis/redis.go], [redis/cache.go], [redis/lua.go] and [mysql/db.go].  [Put] and
    [Get] of the service are [prog]s of the calls to the cache and to the database;
    [CacheCoherent] interleaves them.  The Redis server and gorm are parameters. *)
From stdpp Require Import pretty.
From S2P Require Import Prelude GoProg RedisLock.

(** ** [interface.go] *)

Inductive cerr := ErrorDataNotExist | ErrorCacheMiss | ErrorDBMiss | OtherErr (e : string).

#[export] Instance cerr_eq_dec : EqDecision cerr.
Proof. solve_decision. Defined.

Definition NullData : string := "Err_Syntax_Null_Data".

(** [Read] fills the object, whether it fails or not. *)
Class Object (O : Type) := {
  KeyColumn : O -> string;
  Key : O -> string;
  Write : O -> result cerr string;
  Read : string -> O -> option cerr * O
}.

(** A call to the cache or the database happens at a time and has a [fate]. *)
Class Cache (S : Type) := {
  cEnable : Z -> fate -> string -> Z -> S -> option cerr * S;
  cDisable : Z -> fate -> string -> Z -> S -> option cerr * S;
  cGet : Z -> fate -> string -> S -> result cerr string * S;
  cDel : Z -> fate -> string -> S -> option cerr * S;
  cPutWhenEnable : Z -> fate -> string -> string -> Z -> S -> result cerr bool * S
}.

Class DB (O B : Type) := {
  dbPut : fate -> O -> B -> option cerr * B;
  dbGet : fate -> O -> B -> option cerr * O
}.

(** ** [option.go] *)

Record Options := mkOptions {
  cacheExpireSeconds : Z;
  cacheExpireRandomMode : bool;
  disableExpireSeconds : Z;
  enableDelayMillis : Z
}.

Definition DefaultCacheExpireSeconds : Z := 60.
Definition DefaultDisableExpireSeconds : Z := 10.
Definition DefaultEnableDelayMillis : Z := 1000.

Definition WithCacheExpireSeconds (s : Z) (o : Options) : Options :=
  mkOptions s (cacheExpireRandomMode o) (disableExpireSeconds o) (enableDelayMillis o).
Definition WithCacheExpireRandomMode (o : Options) : Options :=
  mkOptions (cacheExpireSeconds o) true (disableExpireSeconds o) (enableDelayMillis o).
Definition WithDisableExpireSeconds (s : Z) (o : Options) : Options :=
  mkOptions (cacheExpireSeconds o) (cacheExpireRandomMode o) s (enableDelayMillis o).
Definition WithEnableDelayMillis (d : Z) (o : Options) : Options :=
  mkOptions (cacheExpireSeconds o) (cacheExpireRandomMode o) (disableExpireSeconds o) d.

Definition repair (o : Options) : Options :=
  mkOptions
    (if cacheExpireSeconds o <=? 0 then DefaultCacheExpireSeconds else cacheExpireSeconds o)
    (cacheExpireRandomMode o)
    (if disableExpireSeconds o <=? 0 then DefaultDisableExpireSeconds else disableExpireSeconds o)
    (if enableDelayMillis o <=? 0 then DefaultEnableDelayMillis else enableDelayMillis o).

(** The options of [NewService]. *)
Definition service_options (opts : list (Options -> Options)) : Options :=
  repair (foldl (fun o f => f o) (mkOptions 0 false 0 0) opts).

(** ** Calls *)

Inductive ccall (O : Type) : Type -> Type :=
  | KEnable (key : string) (delayMillis : Z) : ccall O (option cerr)
  | KDisable (key : string) (expireSeconds : Z) : ccall O (option cerr)
  | KGet (key : string) : ccall O (result cerr string)
  | KDel (key : string) : ccall O (option cerr)
  | KPutWhenEnable (key value : string) (expireSeconds : Z) : ccall O (result cerr bool)
  | KDbPut (obj : O) : ccall O (option cerr)
  | KDbGet (obj : O) : ccall O (option cerr * O)
  (** the random source; it has no answer to an [n] that is not positive *)
  | KInt63n (n : Z) : ccall O Z
  (** start the goroutine that enables *)
  | KGo (key : string) (delayMillis : Z) : ccall O unit.
Arguments KEnable {O} _ _.
Arguments KDisable {O} _ _.
Arguments KGet {O} _.
Arguments KDel {O} _.
Arguments KPutWhenEnable {O} _ _ _.
Arguments KDbPut {O} _.
Arguments KDbGet {O} _.
Arguments KInt63n {O} _.
Arguments KGo {O} _ _.

(** ** [service.go] *)

Section Service.
Context {O : Type} `{HO : !Object O} (opts : Options).
Abbreviation prog := (prog (ccall O)).

Definition CacheExpireSeconds : prog Z :=
  if negb (cacheExpireRandomMode opts) then mret (cacheExpireSeconds opts)
  else
    n ← ask (KInt63n (s64 (cacheExpireSeconds opts + 1)));
    mret (s64 (cacheExpireSeconds opts + n)).

(** The goroutine that the deferred function of [Put] starts. *)
Definition enable_task (key : string) (delayMillis : Z) : prog (option cerr) := ask (KEnable key delayMillis).

Definition Service_Put (obj : O) : prog (option cerr) :=
  err ← ask (KDisable (Key obj) (disableExpireSeconds opts));
  match err with
  | Some e => mret (Some e)
  | None =>
      err ← ask (KDel (Key obj));
      err ← match err with
            | Some e => mret (Some e)
            | None => ask (KDbPut obj)
            end;
      _ ← ask (KGo (Key obj) (enableDelayMillis opts));
      mret err
  end.

(** [PutWhenEnable] with the expiry of the options; its errors are only logged. *)
Definition repopulate (key v : string) : prog unit :=
  secs ← CacheExpireSeconds;
  _ ← ask (KPutWhenEnable key v secs);
  mret tt.

(** [useCache], the error and the object. *)
Definition Service_Get (obj : O) : prog (bool * option cerr * O) :=
  r ← ask (KGet (Key obj));
  match r with
  | Ok v =>
      if decide (v = NullData) then mret (true, Some ErrorDataNotExist, obj)
      else let '(err, obj) := Read v obj in mret (true, err, obj)
  | Err e =>
      if decide (e <> ErrorCacheMiss) then mret (false, Some e, obj)
      else
        r ← ask (KDbGet obj);
        let '(err, obj) := r in
        match err with
        | Some e =>
            if decide (e <> ErrorDBMiss) then mret (false, Some e, obj)
            else _ ← repopulate (Key obj) NullData; mret (false, Some ErrorDataNotExist, obj)
        | None =>
            match Write obj with
            | Err e => mret (false, Some e, obj)
            | Ok v => _ ← repopulate (Key obj) v; mret (false, None, obj)
            end
        end
  end.

End Service.

(** ** What the cache and the database promise *)

Definition delivered (ft : fate) : Prop := match ft with Down _ => False | _ => True end.

#[export] Instance delivered_dec ft : Decision (delivered ft).
Proof. destruct ft; apply _. Defined.

Definition millisecond : Z := 1000000.

(** A call that returns an error changes nothing, or it happens. *)
Definition fails_or (ft : fate) (failed same happens : Prop) : Prop := (failed /\ same) \/ (delivered ft /\ happens).

(** The time at which something ends, if it does. *)
Abbreviation expiry := (option Z).

Definition until (e : expiry) (t : Z) : Prop := match e with None => True | Some e => t <= e end.

Lemma until_le e t u : until e t -> u <= t -> until e u.
Proof. destruct e; simpl; [lia | done]. Qed.

(** The cached value of a key, the time until which it is disabled if it is, and the
    keys that do not interfere. *)
Class CacheView (S : Type) := {
  cval : S -> Z -> string -> option string;
  mark : S -> Z -> string -> option expiry;
  apart : string -> string -> Prop
}.

Definition leaves {S} `{HV : !CacheView S} (now : Z) (s s' : S) (k : string) (v : option string) (m : option expiry) : Prop :=
  cval s' now k = v /\ mark s' now k = m /\
  forall k', apart k k' -> cval s' now k' = cval s now k' /\ mark s' now k' = mark s now k'.

Class CacheLaws (S : Type) `{HC : !Cache S} `{HV : !CacheView S} := {
  cval_later s now now' k v : now <= now' -> cval s now' k = Some v -> cval s now k = Some v;
  mark_later s now now' k e : now <= now' -> until e (now' + 1) -> mark s now k = Some e -> mark s now' k = Some e;
  cDisable_law now ft k secs s : 0 < secs -> secs * second < 9223372036854775808 ->
    let '(x, s') := cDisable now ft k secs s in
    fails_or ft (x <> None) (s' = s) (leaves now s s' k (cval s now k) (Some (Some (now + secs * second))));
  cEnable_law now ft k millis s : 0 < millis -> millis * millisecond < 9223372036854775808 ->
    let '(x, s') := cEnable now ft k millis s in
    fails_or ft (x <> None) (s' = s)
      (leaves now s s' k (cval s now k) ((fun _ => Some (now + millis * millisecond)) <$> mark s now k));
  cDel_law now ft k s :
    let '(x, s') := cDel now ft k s in
    fails_or ft (x <> None) (s' = s) (leaves now s s' k None (mark s now k));
  cGet_law now ft k s :
    let '(x, s') := cGet now ft k s in
    s' = s /\ forall v, x = Ok v -> cval s now k = Some v;
  cPutWhenEnable_law now ft k v secs s : 0 < secs -> secs * second < 9223372036854775808 ->
    let '(x, s') := cPutWhenEnable now ft k v secs s in
    fails_or ft (exists e, x = Err e) (s' = s)
      (match mark s now k with
       | Some _ => s' = s /\ x <> Ok true
       | None => leaves now s s' k (Some v) None /\ x <> Ok false
       end)
}.

(** [plain o]: the object asks for its row by its key and by nothing else. *)
Class DBLaws (O B : Type) `{HO : !Object O} `{HD : !DB O B} := {
  row : B -> string -> option O;
  plain : O -> Prop;
  row_key b k o : row b k = Some o -> Key o = k;
  dbPut_frame ft o b k : k <> Key o -> row (dbPut ft o b).2 k = row b k;
  dbPut_down ft o b : ~ delivered ft -> (dbPut ft o b).2 = b;
  dbGet_law ft o b : plain o ->
    let '(err, o') := dbGet ft o b in
    Key o' = Key o /\
    match err with
    | None => row b (Key o) = Some o'
    | Some ErrorDBMiss => row b (Key o) = None
    | Some _ => True
    end
}.
