(* ===== verification/CacheCoherent.v ===== *)
(** * A cache beside a database: coherence

    Any number of [Put]s and [Get]s on any objects interleave, and so do the
    goroutines that [Put] leaves behind; calls take time, fail and lose replies.
    What a cached value says of the database, by rule induction. *)
From S2P Require Import Prelude GoProg RedisLock CacheAside.

(** What is cached for a row; [None] when it cannot be written. *)
Definition enc {O} `{HO : !Object O} (r : option O) : option string :=
  match r with
  | None => Some NullData
  | Some o => match Write o with Ok v => Some v | Err _ => None end
  end.

(** Where a goroutine is. *)
Inductive phase :=
  | Free
  | Disabled
  | Deleted
  | Fetched (v : option string).

Definition next_phase {O R} `{HO : !Object O} (c : ccall O R) : R -> phase -> phase :=
  match c in ccall _ R return R -> phase -> phase with
  | KDisable _ _ => fun x p => match x with None => Disabled | Some _ => p end
  | KDel _ => fun x p => match x with None => Deleted | Some _ => p end
  | KDbPut _ | KGo _ _ | KPutWhenEnable _ _ _ => fun _ _ => Free
  | KDbGet _ => fun x _ =>
      match x with
      | (None, o) => Fetched (enc (Some o))
      | (Some ErrorDBMiss, _) => Fetched (enc (O := O) None)
      | (Some _, _) => Free
      end
  | _ => fun _ p => p
  end.

(** The calls whose time the goroutine's next ones are measured from. *)
Definition starts_clock {O R} (c : ccall O R) : bool :=
  match c with KDisable _ _ | KDbGet _ => true | _ => false end.

(** What a goroutine returns. *)
Inductive returned (O : Type) :=
  | PutRet (err : option cerr)
  | GetRet (useCache : bool) (err : option cerr) (obj : O)
  | EnableRet (err : option cerr).
Arguments PutRet {O} _.
Arguments GetRet {O} _ _ _.
Arguments EnableRet {O} _.

(** ** The system *)

Section System.
Context {O S B : Type} `{HO : !Object O} `{HC : !Cache S} `{HV : !CacheView S} `{HD : !DB O B} `{HDL : !DBLaws O B}.
Context (opts : Options) (used : string -> Prop).
(** Whether calls are on time, and whether keys are enabled between writes: see
    [on_time]. *)
Context (timed serial : bool).
Abbreviation prog := (prog (ccall O)).

(** The time for which [Put] disables a key, and what is left of it after. *)
Definition disabling : Z := disableExpireSeconds opts * second.
Definition delay : Z := enableDelayMillis opts * millisecond.

Record thread := mkThread { th_key : string; th_time : Z; th_phase : phase; th_prog : prog (returned O) }.

Record env := mkEnv { e_cache : S; e_db : B; e_clock : Z }.

Record sys := mkSys { s_env : env; s_threads : list thread }.

Definition put_thread (o : O) : prog (returned O) := err ← Service_Put opts o; mret (PutRet err).
Definition get_thread (o : O) : prog (returned O) :=
  r ← Service_Get opts o; let '(hit, err, o) := r in mret (GetRet hit err o).
Definition enable_thread (key : string) (delayMillis : Z) : prog (returned O) :=
  err ← enable_task key delayMillis; mret (EnableRet err).

(** What a call answers, and what it leaves. *)
Definition does (ft : fate) (E : env) {R} (c : ccall O R) : R -> env -> Prop :=
  let now := e_clock E in
  match c in ccall _ R return R -> env -> Prop with
  | KEnable k millis => fun x E' => cEnable now ft k millis (e_cache E) = (x, e_cache E') /\ e_db E' = e_db E /\ e_clock E' = now
  | KDisable k secs => fun x E' => cDisable now ft k secs (e_cache E) = (x, e_cache E') /\ e_db E' = e_db E /\ e_clock E' = now
  | KGet k => fun x E' => cGet now ft k (e_cache E) = (x, e_cache E') /\ e_db E' = e_db E /\ e_clock E' = now
  | KDel k => fun x E' => cDel now ft k (e_cache E) = (x, e_cache E') /\ e_db E' = e_db E /\ e_clock E' = now
  | KPutWhenEnable k v secs => fun x E' =>
      cPutWhenEnable now ft k v secs (e_cache E) = (x, e_cache E') /\ e_db E' = e_db E /\ e_clock E' = now
  | KDbPut o => fun x E' => dbPut ft o (e_db E) = (x, e_db E') /\ e_cache E' = e_cache E /\ e_clock E' = now
  | KDbGet o => fun x E' => dbGet ft o (e_db E) = x /\ E' = E
  | KInt63n n => fun x E' => 0 <= x < n /\ E' = E
  | KGo _ _ => fun _ E' => E' = E
  end.

(** No other [Put] of the key is between its [Disable] and its write. *)
Definition quiet (T : list thread) (k : string) : Prop :=
  forall th, th ∈ T -> th_key th = k -> th_phase th <> Disabled /\ th_phase th <> Deleted.

(** A write reaches the database so early that the key stays disabled for [delay]
    after it; a reader fills the cache within [delay] of its read; and a key is
    enabled when no other write of it is under way. *)
Definition on_time (E : env) (T : list thread) (th : thread) {R} (c : ccall O R) : Prop :=
  match c with
  | KDbPut _ => timed = true -> e_clock E + delay <= th_time th + disabling
  | KPutWhenEnable _ _ _ => timed = true -> e_clock E < th_time th + delay
  | KEnable k _ => serial = true -> quiet T k
  | _ => True
  end.

Definition spawned (now : Z) {R} (c : ccall O R) : list thread :=
  match c with KGo k millis => [mkThread k now Free (enable_thread k millis)] | _ => [] end.

Inductive step : sys -> sys -> Prop :=
  | step_tick E T t : e_clock E <= t -> step (mkSys E T) (mkSys (mkEnv (e_cache E) (e_db E) t) T)
  | step_put E T o : used (Key o) ->
      step (mkSys E T) (mkSys E (T ++ [mkThread (Key o) (e_clock E) Free (put_thread o)]))
  | step_get E T o : used (Key o) -> plain o ->
      step (mkSys E T) (mkSys E (T ++ [mkThread (Key o) (e_clock E) Free (get_thread o)]))
  | step_call E T i th R (c : ccall O R) k ft x E' :
      T !! i = Some th -> th_prog th = Call c k ->
      (delivered ft -> on_time E T th c) ->
      does ft E c x E' ->
      step (mkSys E T)
        (mkSys E'
           (<[i := mkThread (th_key th) (if starts_clock c then e_clock E else th_time th)
                     (next_phase c x (th_phase th)) (k x)]> T ++ spawned (e_clock E) c)).

(** A system starts with nothing cached and no goroutine. *)
Definition initial (s : sys) : Prop :=
  s_threads s = [] /\ forall k, used k -> cval (e_cache (s_env s)) (e_clock (s_env s)) k = None.

Definition reachable (s : sys) : Prop := exists s0, initial s0 /\ rtc step s0 s.

(** ** What a goroutine keeps to *)

Definition pre (key : string) (ph : phase) {R} (c : ccall O R) : Prop :=
  match c with
  | KEnable k millis => k = key /\ millis = enableDelayMillis opts /\ ph = Free
  | KDisable k secs => k = key /\ secs = disableExpireSeconds opts /\ ph = Free
  | KGet k => k = key
  | KDel k => k = key /\ ph = Disabled
  | KPutWhenEnable k v secs => k = key /\ (0 < secs /\ secs * second < 9223372036854775808) /\ ph = Fetched (Some v)
  | KDbPut o => Key o = key /\ ph = Deleted
  | KDbGet o => Key o = key /\ plain o /\ ph = Free
  | KInt63n _ => True
  | KGo k millis => k = key /\ millis = enableDelayMillis opts
  end.

Definition post {R} (c : ccall O R) : R -> Prop :=
  match c in ccall _ R return R -> Prop with
  | KDbGet o => fun x => Key x.2 = Key o
  | KInt63n n => fun x => 0 <= x < n
  | _ => fun _ => True
  end.

Fixpoint keeps {A} (key : string) (Q : phase -> A -> Prop) (ph : phase) (m : prog A) : Prop :=
  match m with
  | Done a => Q ph a
  | Call c k => pre key ph c /\ forall x, post c x -> keeps key Q (next_phase c x ph) (k x)
  end.

Lemma keeps_bind {A A'} key (Q : phase -> A -> Prop) (Q' : phase -> A' -> Prop) ph (m : prog A) (f : A -> prog A') :
  keeps key Q ph m -> (forall ph a, Q ph a -> keeps key Q' ph (f a)) -> keeps key Q' ph (m ≫= f).
Proof using Type.
  intros Hm Hf. revert ph Hm. induction m as [a | R c k IH]; intros ph Hm; [by apply Hf |].
  destruct Hm as [Hp Hk]. split; [done |]. intros x Hx. by apply IH, Hk.
Qed.

Section Keeps.
Context (opts_small : 0 < cacheExpireSeconds opts /\ cacheExpireSeconds opts * 2 * second < 9223372036854775808).

Lemma CacheExpireSeconds_keeps key ph :
  keeps key (fun ph' secs => ph' = ph /\ 0 < secs /\ secs * second < 9223372036854775808) ph (CacheExpireSeconds opts).
Proof using opts_small.
  unfold second in *. unfold CacheExpireSeconds. destruct (cacheExpireRandomMode opts); simpl; [| split; [done | lia]].
  split; [done |]. intros n Hn. rewrite s64_small in Hn by lia. split; [done |]. rewrite s64_small; lia.
Qed.

Lemma repopulate_keeps key v : keeps key (fun _ _ => True) (Fetched (Some v)) (repopulate opts key v).
Proof using opts_small.
  eapply keeps_bind; [apply CacheExpireSeconds_keeps |]. intros ph secs (-> & Hs & Hb). simpl. by split_and!.
Qed.

Lemma put_keeps o : keeps (Key o) (fun _ _ => True) Free (put_thread o).
Proof using Type.
  simpl. split_and!; try done. intros [e |] _; [done |]. simpl. split_and!; try done.
  intros [e |] _; simpl; [done |]. by split_and!.
Qed.

Lemma get_keeps o : plain o -> keeps (Key o) (fun _ _ => True) Free (get_thread o).
Proof using opts_small.
  intros Ho. eapply (keeps_bind _ (fun _ _ => True)); [| by intros ? [[] ?] _].
  simpl. split; [done |]. intros [v | e] _; simpl.
  - case_decide; [done |]. by destruct (Read v o).
  - case_decide; [done |]. simpl. split_and!; try done. intros [[e' |] o'] Ho'; simpl in *.
    + case_decide as He; [done |]. subst e'. rewrite <- Ho'.
      by eapply keeps_bind; [apply repopulate_keeps |].
    + destruct (Write o') as [v | ?]; [| done]. rewrite <- Ho'. by eapply keeps_bind; [apply repopulate_keeps |].
Qed.

End Keeps.

(** ** One key *)

Context `{HL : !CacheLaws S}.

(** What the cache, the marker and the table hold for a key. *)
Record kview := mkView { k_val : option string; k_mark : option expiry; k_row : option O }.

Definition view (E : env) (k : string) : kview :=
  mkView (cval (e_cache E) (e_clock E) k) (mark (e_cache E) (e_clock E) k) (row (e_db E) k).

Definition fresh (V : kview) : Prop := forall v, k_val V = Some v -> enc (k_row V) = Some v.

(** The key is disabled until [t] at least. *)
Definition guarded (now t : Z) (V : kview) : Prop := now < t -> exists e, k_mark V = Some e /\ until e t.

Definition phase_ok (now t : Z) (V : kview) (ph : phase) : Prop :=
  match ph with
  | Free => True
  | Disabled => guarded now (t + disabling) V
  | Deleted => guarded now (t + disabling) V /\ (now < t + disabling -> k_val V = None)
  | Fetched v => enc (k_row V) = v \/ guarded now (t + delay) V
  end.

(** What a call does to a key. *)
Inductive change (now : Z) (alone : Prop) (V : kview) : kview -> Prop :=
  | ch_same : change now alone V V
  | ch_disable : change now alone V (mkView (k_val V) (Some (Some (now + disabling))) (k_row V))
  | ch_enable : alone -> change now alone V (mkView (k_val V) ((fun _ => Some (now + delay)) <$> k_mark V) (k_row V))
  | ch_del : change now alone V (mkView None (k_mark V) (k_row V))
  | ch_fill v : k_mark V = None -> enc (k_row V) = Some v ->
      change now alone V (mkView (Some v) None (k_row V))
  | ch_write r e : k_val V = None -> k_mark V = Some e -> until e (now + delay) ->
      change now alone V (mkView None (Some e) r).

Lemma change_fresh now alone V V' : change now alone V V' -> fresh V -> fresh V'.
Proof using Type. intros Hc Hf v. specialize (Hf v). destruct Hc; simpl in *; intros Hv; simplify_eq; auto. Qed.

Context (delay_small : 0 < delay <= disabling).

(** A marker that lasts is not shortened, but by [Enable]. *)
Lemma change_guarded now alone V V' t : change now alone V V' -> t <= now + disabling ->
  (alone -> t <= now + delay) -> guarded now t V -> guarded now t V'.
Proof using Type.
  intros Hc Ht Ha Hg Hlt. destruct (Hg Hlt) as (e & He & Hle).
  destruct Hc; simpl in *; simplify_eq; eauto.
  rewrite He. exists (Some (now + delay)). simpl. auto.
Qed.

Lemma change_phase now alone V V' t ph : change now alone V V' -> t <= now -> (alone -> ph <> Disabled /\ ph <> Deleted) ->
  phase_ok now t V ph -> phase_ok now t V' ph.
Proof using delay_small.
  intros Hc Ht Ha. destruct ph as [| | | v]; simpl.
  - done.
  - apply (change_guarded _ alone); [done | lia | by intros [? _]%Ha].
  - intros [Hg Hn]. split; [revert Hg; apply (change_guarded _ alone); [done | lia | by intros [_ ?]%Ha] |].
    intros Hlt. destruct (Hg Hlt) as (e & He & _). specialize (Hn Hlt). destruct Hc; simpl in *; congruence.
  - intros [Hr | Hg].
    + destruct Hc; simpl; try by left. right. intros Hlt. simpl. exists e. split; [done |]. eapply until_le; [done | lia].
    + right. revert Hg. apply (change_guarded _ alone); [done | lia | lia].
Qed.

(** Time alone harms nobody. *)
Definition at_clock (E : env) (t : Z) : env := mkEnv (e_cache E) (e_db E) t.

Lemma later_fresh E t k : e_clock E <= t -> fresh (view E k) -> fresh (view (at_clock E t) k).
Proof using HL. intros Ht Hf v Hv. apply Hf. by apply (cval_later _ _ t). Qed.

Lemma later_guarded E t u k : e_clock E <= t -> guarded (e_clock E) u (view E k) -> guarded t u (view (at_clock E t) k).
Proof using HL.
  intros Ht Hg Hlt. destruct (Hg ltac:(lia)) as (e & He & Hle). exists e. split; [| done].
  apply (mark_later _ (e_clock E) t); [done | | done]. eapply until_le; [done | lia].
Qed.

Lemma later_phase E t u k ph : e_clock E <= t -> phase_ok (e_clock E) u (view E k) ph ->
  phase_ok t u (view (at_clock E t) k) ph.
Proof using HL.
  intros Ht. destruct ph as [| | | v]; simpl; [done | by apply later_guarded | |].
  - intros [Hg Hn]. split; [by apply later_guarded |]. intros Hlt.
    destruct (cval _ t k) as [v |] eqn:E1; [| done]. apply (cval_later _ (e_clock E)) in E1; [| done].
    rewrite Hn in E1; [done | lia].
  - intros [Hr | Hg]; [by left | right]. by apply later_guarded.
Qed.
(** ** All keys *)

Context (used_apart : forall k k', used k -> used k' -> k <> k' -> apart k k').
Context (opts_small : 0 < cacheExpireSeconds opts /\ cacheExpireSeconds opts * 2 * second < 9223372036854775808).
Context (disabling_small : disabling < 9223372036854775808).

Definition thread_ok (E : env) (th : thread) : Prop :=
  used (th_key th) /\ th_time th <= e_clock E /\ keeps (th_key th) (fun _ _ => True) (th_phase th) (th_prog th) /\
  phase_ok (e_clock E) (th_time th) (view E (th_key th)) (th_phase th).

Record inv (s : sys) : Prop := {
  inv_fresh k : used k -> fresh (view (s_env s) k);
  inv_threads th : th ∈ s_threads s -> thread_ok (s_env s) th
}.

(** A call changes the key it is about and spares the others. *)
Definition changes (T : list thread) (E E' : env) : Prop :=
  e_clock E' = e_clock E /\ forall k, used k -> change (e_clock E) (quiet T k) (view E k) (view E' k).

Lemma changes_same T E E' : e_cache E' = e_cache E -> e_db E' = e_db E -> e_clock E' = e_clock E -> changes T E E'.
Proof using Type.
  intros Hc Hd Ht. split; [done |]. intros k _. unfold view. rewrite Hc, Hd, Ht. apply ch_same.
Qed.

Lemma leaves_changes T E E' k v m : leaves (e_clock E) (e_cache E) (e_cache E') k v m -> used k ->
  e_db E' = e_db E -> e_clock E' = e_clock E ->
  change (e_clock E) (quiet T k) (view E k) (mkView v m (row (e_db E) k)) -> changes T E E'.
Proof using used_apart.
  intros (Hv & Hm & Ho) Hk Hd Ht Hch. split; [done |]. intros k' Hk'. unfold view at 2. rewrite Hd, Ht.
  destruct (decide (k' = k)) as [-> | Hne]; [by rewrite Hv, Hm |].
  destruct (Ho k') as [-> ->]; [by apply used_apart; [.. | congruence] |]. apply ch_same.
Qed.

Lemma fill_changes E T th v secs ft x E' : thread_ok E th -> th_phase th = Fetched (Some v) ->
  0 < secs /\ secs * second < 9223372036854775808 ->
  (delivered ft -> e_clock E < th_time th + delay) -> does ft E (KPutWhenEnable (th_key th) v secs) x E' -> changes T E E'.
Proof using used_apart HL.
  intros (Hu & _ & _ & Hph) Hf [Hs Hb] Hot (Hc & Hd & Ht). rewrite Hf in Hph.
  pose proof (cPutWhenEnable_law (e_clock E) ft (th_key th) v secs (e_cache E) Hs Hb) as HL'. rewrite Hc in HL'.
  destruct HL' as [[_ Hsame] | [Hdl Hl]]; [by apply changes_same |]. specialize (Hot Hdl).
  destruct (mark _ _ _) as [e |] eqn:Em; [destruct Hl; by apply changes_same |]. destruct Hl as [Hl _].
  eapply leaves_changes; [done.. |]. apply (ch_fill _ _ (view E _)); [done |].
  destruct Hph as [Hr | Hg]; [done |]. destruct (Hg ltac:(lia)) as (e & He & _). simpl in He. congruence.
Qed.

Lemma write_changes E T th o ft x E' : thread_ok E th -> th_phase th = Deleted -> Key o = th_key th ->
  (delivered ft -> e_clock E + delay <= th_time th + disabling) -> does ft E (KDbPut o) x E' -> changes T E E'.
Proof using delay_small.
  intros (_ & _ & _ & Hph) Hdel Hkey Hot (Hc & Hs & Ht). rewrite Hdel in Hph. destruct Hph as [Hg Hn].
  destruct (decide (delivered ft)) as [Hdl | Hdl]; [| apply changes_same; [done | | done]].
  2: { pose proof (dbPut_down ft o (e_db E) Hdl) as Hdn. by rewrite Hc in Hdn. }
  specialize (Hot Hdl). split; [done |]. intros k' Hk'. unfold view at 2. rewrite Hs, Ht.
  destruct (decide (k' = th_key th)) as [-> | Hne].
  - destruct (Hg ltac:(lia)) as (e & He & Hle). specialize (Hn ltac:(lia)).
    simpl in *. rewrite He, Hn. apply ch_write; simpl; [done | done |]. eapply until_le; [done | lia].
  - pose proof (dbPut_frame ft o (e_db E) k') as Hfr. rewrite Hc in Hfr. simpl in Hfr. rewrite Hfr by congruence. apply ch_same.
Qed.

Lemma call_changes E T th R (c : ccall O R) k ft x E' : inv (mkSys E T) -> th ∈ T -> th_prog th = Call c k ->
  timed = true -> serial = true -> (delivered ft -> on_time E T th c) -> does ft E c x E' -> changes T E E' /\ post c x.
Proof using used_apart HL delay_small disabling_small.
  intros [_ HT] Hth Hp Htd Hser Hot Hdo. destruct (HT th Hth) as (Hu & Htm & Hk & Hph). rewrite Hp in Hk. destruct Hk as [Hpre _].
  destruct c as [key ms | key secs | key | key | key v secs | o | o | n | key ms]; simpl in *.
  - destruct Hpre as (-> & -> & Hfree), Hdo as (Hc & Hd & Ht). split; [| done].
    pose proof (cEnable_law (e_clock E) ft (th_key th) (enableDelayMillis opts) (e_cache E)) as HL'. rewrite Hc in HL'.
    destruct HL' as [[_ Hs] | [Hdl Hl]]; [unfold disabling, delay, millisecond, second in *; lia.. | by apply changes_same |].
    eapply leaves_changes; [done.. |]. apply (ch_enable _ _ (view E _)). by apply Hot.
  - destruct Hpre as (-> & -> & Hfree), Hdo as (Hc & Hd & Ht). split; [| done].
    pose proof (cDisable_law (e_clock E) ft (th_key th) (disableExpireSeconds opts) (e_cache E)) as HL'. rewrite Hc in HL'.
    destruct HL' as [[_ Hs] | [Hdl Hl]]; [unfold disabling, delay, millisecond, second in *; lia.. | by apply changes_same |].
    eapply leaves_changes; [done.. |]. apply (ch_disable _ _ (view E _)).
  - destruct Hdo as (Hc & Hd & Ht). split; [| done]. pose proof (cGet_law (e_clock E) ft key (e_cache E)) as HL'.
    rewrite Hc in HL'. destruct HL'. by apply changes_same.
  - destruct Hpre as (-> & Hdis), Hdo as (Hc & Hd & Ht). split; [| done].
    pose proof (cDel_law (e_clock E) ft (th_key th) (e_cache E)) as HL'. rewrite Hc in HL'.
    destruct HL' as [[_ Hs] | [Hdl Hl]]; [by apply changes_same |].
    eapply leaves_changes; [done.. |]. apply (ch_del _ _ (view E _)).
  - destruct Hpre as (-> & Hs & Hf). split; [| done]. eapply fill_changes; eauto.
  - destruct Hpre as (Hkey & Hdel). split; [| done]. eapply write_changes; eauto.
  - destruct Hpre as (Hkey & Hpl & Hf), Hdo as (Hc & ->). split; [by apply changes_same |].
    pose proof (dbGet_law ft o (e_db E) Hpl) as Hg. rewrite Hc in Hg. by destruct x as [err o'], Hg.
  - destruct Hdo as [? ->]. split; [by apply changes_same | done].
  - rewrite Hdo. split; [by apply changes_same | done].
Qed.

(** Where the call leaves the goroutine that makes it. *)
Lemma call_phase E T th R (c : ccall O R) k ft x E' : inv (mkSys E T) -> th ∈ T -> th_prog th = Call c k ->
  changes T E E' -> does ft E c x E' ->
  phase_ok (e_clock E) (if starts_clock c then e_clock E else th_time th) (view E' (th_key th))
    (next_phase c x (th_phase th)).
Proof using HL delay_small disabling_small.
  intros [_ HT] Hth Hp [Hclk Hch] Hdo. destruct (HT th Hth) as (Hu & Htm & Hk & Hph).
  assert (phase_ok (e_clock E) (th_time th) (view E' (th_key th)) (th_phase th)) as Hsame.
  { apply (change_phase _ (quiet T (th_key th)) (view E (th_key th))); auto. }
  rewrite Hp in Hk. destruct Hk as [Hpre _].
  destruct c as [key ms | key secs | key | key | key v secs | o | o | n | key ms]; simpl in *; try done.
  - destruct Hpre as (-> & -> & Hfree), Hdo as (Hc & Hd & Ht).
    pose proof (cDisable_law (e_clock E) ft (th_key th) (disableExpireSeconds opts) (e_cache E)) as HL'. rewrite Hc in HL'.
    destruct HL' as [[Hx _] | [_ (_ & Hm & _)]]; [unfold disabling, delay, millisecond, second in *; lia.. | |].
    + destruct x; [by rewrite Hfree | done].
    + destruct x; [by rewrite Hfree |]. intros _. exists (Some (e_clock E + disabling)). simpl. rewrite Hclk. split; [done | lia].
  - destruct Hpre as (-> & Hdis), Hdo as (Hc & Hd & Ht). destruct x as [e |]; [done |]. rewrite Hdis in Hsame.
    split; [done |]. intros _. pose proof (cDel_law (e_clock E) ft (th_key th) (e_cache E)) as HL'. rewrite Hc in HL'.
    destruct HL' as [[Hx _] | [_ (Hv & _ & _)]]; [done |]. simpl. by rewrite Hclk.
  - destruct Hpre as (<- & Hpl & _), Hdo as (Hc & ->). pose proof (dbGet_law ft o (e_db E) Hpl) as Hg. rewrite Hc in Hg.
    destruct x as [[[] |] o']; try done; left; simpl; by destruct Hg as [_ ->].
Qed.

Lemma thread_ok_changes E T E' th : changes T E E' -> th ∈ T -> thread_ok E th -> thread_ok E' th.
Proof using delay_small.
  intros [Hclk Hch] Hth (Hu & Htm & Hk & Hph). split_and!; [done | lia | done |]. rewrite Hclk.
  apply (change_phase _ (quiet T (th_key th)) (view E (th_key th))); auto.
Qed.

Lemma step_inv s s' : timed = true -> serial = true -> step s s' -> inv s -> inv s'.
Proof using used_apart HL delay_small disabling_small opts_small.
  intros Htd Hser Hst Hi. pose proof Hi as [Hf HT]. destruct Hst as [E T t Ht | E T o Ho | E T o Ho Hpl | E T i th R c k ft x E' Hth Hp Hot Hdo]; simpl in *.
  - split; simpl; [intros k Hk; by apply (later_fresh E); auto |]. intros th Hth. destruct (HT th Hth) as (Hu & Htm & Hk & Hph).
    split_and!; [done | simpl; lia | done |]. by apply (later_phase E).
  - split; simpl; [done |]. intros th [Hth | ->%list_elem_of_singleton]%elem_of_app; [auto |].
    split_and!; simpl; [done | lia | apply put_keeps | done].
  - split; simpl; [done |]. intros th [Hth | ->%list_elem_of_singleton]%elem_of_app; [auto |].
    split_and!; simpl; [done | lia | by apply get_keeps | done].
  - pose proof (list_elem_of_lookup_2 _ _ _ Hth) as Hin.
    destruct (call_changes E T th R c k ft x E') as [Hc Hpost]; auto.
    pose proof (HT th Hin) as (Hu & Htm & Hk & _). rewrite Hp in Hk. destruct Hk as [Hpre Hk].
    split; simpl.
    + intros k' Hk'. destruct Hc as [_ Hc]. by eapply change_fresh; auto.
    + intros th' [Hth' | Hth']%elem_of_app.
      * apply list_elem_of_lookup_1 in Hth' as [j Hj]. destruct (decide (i = j)) as [<- | Hne].
        -- rewrite list_lookup_insert_eq in Hj by (by eapply lookup_lt_Some). injection Hj as <-.
           pose proof (call_phase E T th R c k ft x E' Hi Hin Hp Hc Hdo) as Hph. destruct Hc as [Hclk _].
           split_and!; simpl; [done | destruct (starts_clock c); lia | auto | by rewrite Hclk].
        -- rewrite list_lookup_insert_ne in Hj by done. apply list_elem_of_lookup_2 in Hj.
           eapply thread_ok_changes; eauto.
      * destruct c; simpl in Hth'; try by apply elem_of_nil in Hth'. apply list_elem_of_singleton in Hth' as ->.
        destruct Hpre as [-> ->]. destruct Hc as [Hclk _]. split_and!; simpl; [done | lia | by split_and! | done].
Qed.

Lemma reachable_coherent s : timed = true -> serial = true -> reachable s -> inv s.
Proof using used_apart HL delay_small disabling_small opts_small.
  intros Htd Hser (s0 & [HT Hv] & Hs).
  assert (inv s0) as Hi.
  { split; [| rewrite HT; intros th []%elem_of_nil]. intros k Hk v. simpl. by rewrite Hv. }
  clear HT Hv. induction Hs as [s | s1 s2 s3 Hst _ IH]; [done |]. by apply IH, (step_inv s1).
Qed.

(** ** What a hit returns *)

(** [Read] gives back what [Write] wrote, which is not the sentinel. *)
Context (roundtrip : forall r o v, Key r = Key o -> Write r = Ok v -> Read v o = (None, r) /\ v <> NullData).

Definition hit_of (r : option O) (o : O) : returned O :=
  match r with
  | None => GetRet true (Some ErrorDataNotExist) o
  | Some r => GetRet true None r
  end.

(** One call of a goroutine that has yet to ask the cache. *)
Definition hits_row (o : O) (E : env) (m : prog (returned O)) : Prop :=
  match m with
  | Done _ => False
  | Call c k => forall ft x E', does ft E c x E' -> e_db E' = e_db E /\
      forall err o', k x = Done (GetRet true err o') -> k x = Done (hit_of (row (e_db E) (Key o)) o)
  end.

Lemma get_hits_row o E : fresh (view E (Key o)) -> hits_row o E (get_thread o).
Proof using HL roundtrip.
  intros Hf ft x E' (Hc & Hd & _). split; [done |]. intros err o'. destruct x as [v | e]; simpl; [| by case_decide].
  pose proof (cGet_law (e_clock E) ft (Key o) (e_cache E)) as HL'. rewrite Hc in HL'. destruct HL' as [_ Hv].
  specialize (Hf v (Hv v eq_refl)). simpl in Hf. intros _. unfold hit_of, enc in *.
  destruct (row (e_db E) (Key o)) as [r |] eqn:Hrow; [| injection Hf as <-; by rewrite decide_True].
  destruct (Write r) as [w |] eqn:Hw; [| done]. injection Hf as ->. destruct (roundtrip r o v (row_key _ _ _ Hrow) Hw) as [Hr Hn].
  rewrite decide_False by done. by rewrite Hr.
Qed.

(** C14: a [Get] that is served from the cache returns the row of the database.  Take any
    interleaving of [Put]s, [Get]s and delayed [Enable]s whose calls are on time (a
    write comes so early that the key stays disabled for the delay after it, a reader
    fills the cache within the delay of its read, a key is enabled when no other write
    of it is under way), with calls that fail and replies that are lost.  A [Get] whose
    call to the cache hits returns at once, with [useCache] set, the row that the
    database holds at that moment, or [ErrorDataNotExist] when it holds none. *)
Theorem cache_coherent s s' i th th' o err o' :
  timed = true -> serial = true -> reachable s -> step s s' ->
  s_threads s !! i = Some th -> th_prog th = get_thread o ->
  s_threads s' !! i = Some th' -> th_prog th' = Done (GetRet true err o') ->
  th_prog th' = Done (hit_of (row (e_db (s_env s)) (Key o)) o) /\ e_db (s_env s') = e_db (s_env s).
Proof using used_apart HL delay_small disabling_small opts_small roundtrip.
  intros Htd Hser Hre Hst Hth Hp Hth' Hp'. destruct (reachable_coherent s Htd Hser Hre) as [Hf HT].
  destruct (HT th) as (Hu & _ & Hk & _); [by eapply list_elem_of_lookup_2 |].
  rewrite Hp in Hk. destruct Hk as [Hkey _]. simpl in Hkey. rewrite <- Hkey in Hu.
  pose proof (get_hits_row o (s_env s) (Hf _ Hu)) as Hhit. rewrite <- Hp in Hhit.
  assert (th' = th -> False) as Hmoved by (intros ->; by rewrite Hp in Hp').
  pose proof (lookup_lt_Some _ _ _ Hth) as Hlt.
  destruct Hst as [E T t Ht | E T o1 Ho1 | E T o1 Ho1 Hpl | E T j th1 R c k ft x E' Hth1 Hp1 Hot Hdo]; simpl in *;
    [naive_solver | rewrite lookup_app_l in Hth' by done; naive_solver.. |].
  rewrite lookup_app_l in Hth' by (by rewrite length_insert).
  destruct (decide (j = i)) as [-> | Hne]; [| rewrite list_lookup_insert_ne in Hth' by done; naive_solver].
  rewrite list_lookup_insert_eq in Hth' by done. injection Hth' as <-. simpl in *.
  rewrite Hth1 in Hth. injection Hth as ->. rewrite Hp1 in Hhit. destruct (Hhit ft x E' Hdo) as [Hdb Hres]. eauto.
Qed.

End System.
