(* ===== verification/CacheAdapters.v ===== *)
(** * A cache beside a database: the adapters

    [redis/redis.go], [redis/cache.go] and [redis/lua.go] implement the cache on a
    Redis server, [mysql/db.go] and [mysql/mysql.go] the database on gorm.  What the
    service needs of them ([CacheLaws], [DBLaws]) follows from the laws of the server
    ([RedisLaws], [RedisTTLLaws]) and of gorm ([GormLaws]). *)
From stdpp Require Import pretty.
From S2P Require Import Prelude GoStrings GoProg RedisLock CacheAside.

(** ** The server: keys with a time to live, in nanoseconds *)

Class RedisTTL (R : Type) := {
  SETEX : Z -> string -> string -> Z -> R -> R;
  PEXPIRE : Z -> string -> Z -> R -> Z * R
}.

Class RedisTTLLaws (R : Type) `{HR : !Redis R} `{HL : !RedisLaws R} `{HT : !RedisTTL R} := {
  SETEX_law now k v ttl r : 0 < ttl < 9223372036854775808 -> ttl `mod` second = 0 ->
    at_time now (keys (SETEX now k v ttl r)) = <[k := (v, Some (now + ttl))]> (at_time now (keys r));
  PEXPIRE_law now k ttl r : 0 < ttl < 9223372036854775808 -> ttl `mod` millisecond = 0 ->
    let '(n, r') := PEXPIRE now k ttl r in
    match at_time now (keys r) !! k with
    | Some (v, _) => n = 1 /\ at_time now (keys r') = <[k := (v, Some (now + ttl))]> (at_time now (keys r))
    | None => n = 0 /\ at_time now (keys r') = at_time now (keys r)
    end
}.

(** ** [redis.go] *)

(** The sentinel [ErrorCacheMiss] of the package, or another error. *)
Inductive derr := RedisCacheMiss | RedisMsg (e : string).

Definition of_rerr (e : rerr) : derr :=
  match e with Nil => RedisMsg "redis: nil" | Msg e => RedisMsg e end.

(** An argument of [Eval]; [%v] prints it. *)
Inductive any := AStr (s : string) | AInt (z : Z).

Definition sprint (a : any) : string := match a with AStr s => s | AInt z => pretty z end.

Section Client.
Context {R : Type} `{HR : !Redis R} `{HT : !RedisTTL R}.

(** A script: its keys, its arguments; an error of the script is an error reply. *)
Definition script : Type := list string -> list any -> Z -> R -> result string Z * R.

Definition RClient_Get (key : string) : redisM R (result derr string) :=
  if decide (key = "") then mret (Err (RedisMsg "redis GET key can't be empty"))
  else
    val ← remote (fun now s => (GET now key s, s));
    mret (match val with
          | Ok None => Err RedisCacheMiss
          | Err e => Err (of_rerr e)
          | Ok (Some val) => Ok val
          end).

(** The error of a command whose reply is of no interest. *)
Definition only_err {A} (r : result rerr A) : option derr := match r with Ok _ => None | Err e => Some (of_rerr e) end.

Definition RClient_SetEx (key value : string) (expireSeconds : Z) : redisM R (option derr) :=
  if decide (key = "") then mret (Some (RedisMsg "redis SET EX key can't be empty"))
  else r ← remote (fun now s => (tt, SETEX now key value (s64 (expireSeconds * second)) s)); mret (only_err r).

Definition RClient_Del (key : string) : redisM R (option derr) :=
  if decide (key = "") then mret (Some (RedisMsg "redis DEL key can't be empty"))
  else r ← remote (fun now s => DEL now key s); mret (only_err r).

Definition RClient_PExpire (key : string) (expireMillis : Z) : redisM R (option derr) :=
  if decide (key = "") then mret (Some (RedisMsg "redis PEXPIRE key can't be empty"))
  else r ← remote (fun now s => PEXPIRE now key (s64 (expireMillis * millisecond)) s); mret (only_err r).

Definition RClient_Eval (src : script) (keyCount : Z) (keysAndArgs : list any) : redisM R (result derr Z) :=
  let keyCount := if keyCount <? 0 then 0 else keyCount in
  let keys := map sprint (take (Z.to_nat keyCount) keysAndArgs) in
  let args := drop (Z.to_nat keyCount) keysAndArgs in
  r ← remote (src keys args);
  mret (match r with
        | Ok (Ok n) => Ok n
        | Ok (Err e) => Err (RedisMsg e)
        | Err e => Err (of_rerr e)
        end).

(** ** [lua.go] *)

(** The script, for the keys and arguments of the form that [PutWhenEnable] passes. *)
Definition LuaCheckEnableAndWriteCache : script := fun KEYS ARGV now r =>
  match KEYS, ARGV with
  | [disable_key; key], [AStr value; AInt cache_expire_seconds] =>
      match GET now disable_key r with
      | Some _ => (Ok 0, r)
      | None =>
          if cache_expire_seconds <=? 0 then (Err "ERR invalid expire time in 'set' command", r)
          else (Ok 1, SETEX now key value (cache_expire_seconds * second) r)
      end
  | _, _ => (Err "ERR Error running script", r)
  end.

(** ** [cache.go] *)

Definition disableKey (key : string) : string := "Enable_Lock_Key_{" +:+ key +:+ "}".

Definition of_derr (e : derr) : cerr :=
  match e with RedisCacheMiss => OtherErr "redis cache miss" | RedisMsg e => OtherErr e end.

Definition Cache_Enable (key : string) (delayMillis : Z) : redisM R (option cerr) :=
  err ← RClient_PExpire (disableKey key) delayMillis; mret (of_derr <$> err).

Definition Cache_Disable (key : string) (expireSeconds : Z) : redisM R (option cerr) :=
  err ← RClient_SetEx (disableKey key) "1" expireSeconds; mret (of_derr <$> err).

Definition Cache_Get (key : string) : redisM R (result cerr string) :=
  r ← RClient_Get key;
  mret (match r with
        | Err RedisCacheMiss => Err ErrorCacheMiss
        | Err e => Err (of_derr e)
        | Ok reply => Ok reply
        end).

Definition Cache_PutWhenEnable (key value : string) (expireSeconds : Z) : redisM R (result cerr bool) :=
  r ← RClient_Eval LuaCheckEnableAndWriteCache 2 [AStr (disableKey key); AStr key; AStr value; AInt expireSeconds];
  mret (match r with
        | Err e => Err (of_derr e)
        | Ok n => Ok (n =? 1)
        end).

Definition Cache_Del (key : string) : redisM R (option cerr) :=
  err ← RClient_Del key; mret (of_derr <$> err).

(** One call, with its fate. *)
Definition call_at {A} (now : Z) (ft : fate) (m : redisM R A) (s : R) : A * R :=
  let '(x, n) := m (mkNet s now [(0, ft)]) in (x, n_srv n).

#[export] Instance redis_Cache : Cache R := {
  cEnable now ft k millis := call_at now ft (Cache_Enable k millis);
  cDisable now ft k secs := call_at now ft (Cache_Disable k secs);
  cGet now ft k := call_at now ft (Cache_Get k);
  cDel now ft k := call_at now ft (Cache_Del k);
  cPutWhenEnable now ft k v secs := call_at now ft (Cache_PutWhenEnable k v secs)
}.

End Client.

(** ** The cache that the server is *)

Section CacheOfRedis.
Context {R : Type} `{HR : !Redis R} `{HL : !RedisLaws R} `{HT : !RedisTTL R} `{HTL : !RedisTTLLaws R}.

#[export] Instance redis_CacheView : CacheView R := {
  cval s now k := fst <$> at_time now (keys s) !! k;
  mark s now k := snd <$> at_time now (keys s) !! disableKey k;
  apart k k' := k <> k' /\ disableKey k <> k' /\ disableKey k' <> k
}.

Lemma disableKey_inj k k' : disableKey k = disableKey k' -> k = k'.
Proof using Type. unfold disableKey. intros H%(inj _). by apply append_inj_r in H. Qed.

Lemma disableKey_ne k : disableKey k <> k.
Proof using Type.
  intros H. apply (f_equal String.length) in H. unfold disableKey in H. rewrite !length_append in H. simpl in H. lia.
Qed.

Lemma redis_cval_later s now now' k v : now <= now' -> cval s now' k = Some v -> cval s now k = Some v.
Proof using Type.
  simpl. intros Hle (x & Hx & ->)%fmap_Some_1. rewrite <- (at_time_later now now') in Hx by done.
  apply at_time_lookup in Hx as [-> _]. done.
Qed.

Lemma redis_mark_later s now now' k e : now <= now' -> until e (now' + 1) -> mark s now k = Some e -> mark s now' k = Some e.
Proof using Type.
  simpl. intros Hle Hu ([v e'] & Hx & He)%fmap_Some_1. simpl in He. subst e'.
  apply fmap_Some. exists (v, e). split; [| done]. rewrite <- (at_time_later now now') by done. apply at_time_lookup.
  split; [done |]. unfold alive. destruct e as [e |]; simpl in *; [| done]. zb. lia.
Qed.

(** One key changes, for better or worse. *)
Lemma leaves_marker now s s' k (x : option entry) :
  at_time now (keys s') = partial_alter (fun _ => x) (disableKey k) (at_time now (keys s)) ->
  leaves now s s' k (cval s now k) (snd <$> x).
Proof using Type.
  intros Hs. unfold leaves. simpl. rewrite Hs, lookup_partial_alter_eq.
  rewrite lookup_partial_alter_ne by apply disableKey_ne. split_and!; [done | done |].
  intros k' (Hne & Hd & _). rewrite !lookup_partial_alter_ne; [done | | done]. by intros ?%disableKey_inj.
Qed.

Lemma leaves_value now s s' k (x : option entry) :
  at_time now (keys s') = partial_alter (fun _ => x) k (at_time now (keys s)) ->
  leaves now s s' k (fst <$> x) (mark s now k).
Proof using Type.
  intros Hs. unfold leaves. simpl. rewrite Hs, lookup_partial_alter_eq.
  rewrite lookup_partial_alter_ne by (symmetry; apply disableKey_ne). split_and!; [done | done |].
  intros k' (Hne & _ & Hd). rewrite !lookup_partial_alter_ne; done.
Qed.

(** Runs a call of the client: one case per fate. *)
Local Ltac run ft :=
  unfold call_at, RClient_SetEx, RClient_PExpire, RClient_Del, RClient_Get, RClient_Eval, remote, mbind, redisM_bind, next_fate;
  simpl; destruct ft as [| err | err]; simpl; rewrite ?Z.add_0_r.

Lemma redis_Disable now ft k secs s : 0 < secs -> secs * second < 9223372036854775808 ->
  let '(x, s') := call_at now ft (Cache_Disable k secs) s in
  fails_or ft (x <> None) (s' = s) (leaves now s s' k (cval s now k) (Some (Some (now + secs * second)))).
Proof using HTL.
  intros H0 H1. unfold Cache_Disable.
  assert (leaves now s (SETEX now (disableKey k) "1" (s64 (secs * second)) s) k (cval s now k)
    (Some (Some (now + secs * second)))) as Hl.
  { apply (leaves_marker _ _ _ _ (Some ("1", Some (now + secs * second)))). unfold second in *. rewrite s64_small by lia.
    apply SETEX_law; [lia | by apply Z_mod_mult]. }
  run ft; [by right; split.. | by left].
Qed.

Lemma redis_Enable now ft k millis s : 0 < millis -> millis * millisecond < 9223372036854775808 ->
  let '(x, s') := call_at now ft (Cache_Enable k millis) s in
  fails_or ft (x <> None) (s' = s)
    (leaves now s s' k (cval s now k) ((fun _ => Some (now + millis * millisecond)) <$> mark s now k)).
Proof using HTL.
  intros H0 H1. unfold Cache_Enable.
  assert (leaves now s (PEXPIRE now (disableKey k) (s64 (millis * millisecond)) s).2 k (cval s now k)
    ((fun _ => Some (now + millis * millisecond)) <$> mark s now k)) as Hl.
  { unfold millisecond in *. rewrite s64_small by lia.
    pose proof (PEXPIRE_law now (disableKey k) (millis * 1000000) s ltac:(lia) (Z_mod_mult _ _)) as Hp. simpl in *.
    destruct (PEXPIRE _ _ _ _) as [n r'], (at_time now (keys s) !! disableKey k) as [[v e] |] eqn:Ek, Hp as [_ Hp]; simpl.
    - by apply (leaves_marker _ _ _ _ (Some (v, Some (now + millis * 1000000)))).
    - apply (leaves_marker _ _ _ _ None). rewrite Hp. symmetry. exact (delete_id (at_time now (keys s)) (disableKey k) Ek). }
  run ft; try destruct (PEXPIRE _ _ _ _); [by right; split.. | by left].
Qed.

Lemma redis_Del now ft k s :
  let '(x, s') := call_at now ft (Cache_Del k) s in
  fails_or ft (x <> None) (s' = s) (leaves now s s' k None (mark s now k)).
Proof using HL.
  unfold Cache_Del. assert (leaves now s (DEL now k s).2 k None (mark s now k)) as Hl.
  { apply (leaves_value _ _ _ _ None). pose proof (DEL_law now k s) as Hd. destruct (DEL now k s) as [n r]. by destruct Hd as [_ Hd]. }
  unfold RClient_Del. case_decide; [by left |].
  run ft; try destruct (DEL _ _ _); [by right; split.. | by left].
Qed.

Lemma redis_Get now ft k s : let '(x, s') := call_at now ft (Cache_Get k) s in
  s' = s /\ forall v, x = Ok v -> cval s now k = Some v.
Proof using HL.
  unfold Cache_Get, RClient_Get. case_decide; [by split |]. run ft; [| by split..]. split; [done |].
  rewrite GET_law. intros v. destruct (at_time now (keys s) !! k) as [x |]; simpl; congruence.
Qed.

Lemma redis_PutWhenEnable now ft k v secs s : 0 < secs -> secs * second < 9223372036854775808 ->
  let '(x, s') := call_at now ft (Cache_PutWhenEnable k v secs) s in
  fails_or ft (exists e, x = Err e) (s' = s)
    (match mark s now k with
     | Some _ => s' = s /\ x <> Ok true
     | None => leaves now s s' k (Some v) None /\ x <> Ok false
     end).
Proof using HTL.
  intros H0 H1. unfold Cache_PutWhenEnable. run ft; [.. | left; eauto]; rewrite !GET_law;
    (destruct (at_time now (keys s) !! disableKey k) as [e |] eqn:Ek; simpl; [by right |]);
    (destruct (secs <=? 0) eqn:Es; zb; [lia |]); right; (split; [done |]); (split; [| done]).
  all: replace (None (A := expiry)) with (mark s now k) by (simpl; by rewrite Ek).
  all: apply (leaves_value _ _ _ _ (Some (v, Some (now + secs * second)))), SETEX_law; [unfold second in *; lia | by apply Z_mod_mult].
Qed.

#[export] Instance redis_CacheLaws : CacheLaws R.
Proof using HTL.
  split; [apply redis_cval_later | apply redis_mark_later | apply redis_Disable | apply redis_Enable | apply redis_Del
    | apply redis_Get | apply redis_PutWhenEnable].
Qed.

End CacheOfRedis.

(** ** gorm *)

Inductive gerr := ErrRecordNotFound | GErr (text : string).

(** [err.Error()]. *)
Definition gerr_text (e : gerr) : string := match e with ErrRecordNotFound => "record not found" | GErr t => t end.

(** The table of an object, when its type names one. *)
Class tableInterface (O : Type) := TableName : O -> option string.

(** [Create(obj)], [Where("`column` = ?", key).Updates(obj)] and
    [Where("`column` = ?", key).First(obj)] on a table. *)
Class Gorm (O B : Type) := {
  gCreate : option string -> fate -> O -> B -> option gerr * B;
  gUpdates : option string -> string -> string -> fate -> O -> B -> option gerr * B;
  gFirst : option string -> string -> string -> fate -> O -> B -> option gerr * O
}.

(** ** [mysql.go] and [db.go] *)

Definition IsDuplicateEntryErr (err : option gerr) : bool :=
  match err with None => false | Some e => Contains (gerr_text e) "Error 1062" end.

Definition of_gerr (e : gerr) : cerr := OtherErr (gerr_text e).

Section MySQL.
Context {O B : Type} `{HO : !Object O} `{HTab : !tableInterface O} `{HG : !Gorm O B}.

Definition MySQL_Put (ft : fate) (obj : O) (db : B) : option cerr * B :=
  let '(err, db) := gCreate (TableName obj) ft obj db in
  match err with
  | None => (None, db)
  | Some e =>
      if IsDuplicateEntryErr err then
        let '(err, db) := gUpdates (TableName obj) (KeyColumn obj) (Key obj) ft obj db in (of_gerr <$> err, db)
      else (Some (of_gerr e), db)
  end.

Definition MySQL_Get (ft : fate) (obj : O) (db : B) : option cerr * O :=
  let '(err, obj) := gFirst (TableName obj) (KeyColumn obj) (Key obj) ft obj db in
  match err with
  | None => (None, obj)
  | Some ErrRecordNotFound => (Some ErrorDBMiss, obj)
  | Some e => (Some (of_gerr e), obj)
  end.

#[export] Instance mysql_DB : DB O B := { dbPut := MySQL_Put; dbGet := MySQL_Get }.

(** The rows of the objects' table, whose key column is unique.  An object without a
    primary key is [gplain]: gorm takes a primary key for one more condition.
    [Updates] sets the columns whose fields are not zero. *)
Class GormLaws := {
  grow : B -> string -> option O;
  gplain : O -> Prop;
  created : O -> B -> O;
  updated : O -> O -> O;
  grow_key b k o : grow b k = Some o -> Key o = k;
  gCreate_frame ft o b k : k <> Key o -> grow (gCreate (TableName o) ft o b).2 k = grow b k;
  gCreate_down ft o b : ~ delivered ft -> (gCreate (TableName o) ft o b).2 = b;
  gCreate_law o b : gplain o ->
    let '(err, b') := gCreate (TableName o) Fine o b in
    match grow b (Key o) with
    | None => err = None /\ grow b' (Key o) = Some (created o b)
    | Some _ => IsDuplicateEntryErr err = true /\ b' = b
    end;
  gUpdates_frame ft o b k : k <> Key o ->
    grow (gUpdates (TableName o) (KeyColumn o) (Key o) ft o b).2 k = grow b k;
  gUpdates_down ft o b : ~ delivered ft -> (gUpdates (TableName o) (KeyColumn o) (Key o) ft o b).2 = b;
  gUpdates_law o b r : gplain o -> grow b (Key o) = Some r ->
    let '(err, b') := gUpdates (TableName o) (KeyColumn o) (Key o) Fine o b in
    err = None /\ grow b' (Key o) = Some (updated o r);
  gFirst_law ft o b : gplain o ->
    let '(err, o') := gFirst (TableName o) (KeyColumn o) (Key o) ft o b in
    match err with
    | None => grow b (Key o) = Some o'
    | Some e => o' = o /\ (e = ErrRecordNotFound -> grow b (Key o) = None)
    end
}.

Context `{HGL : !GormLaws}.

#[export] Instance mysql_DBLaws : DBLaws O B.
Proof using HGL.
  refine {| row := grow; plain := gplain |}; simpl.
  - apply grow_key.
  - intros ft o b k Hk. unfold MySQL_Put. pose proof (gCreate_frame ft o b k Hk) as H1.
    destruct (gCreate _ _ _ _) as [[e |] b1]; [| done]. case_match; [| done].
    pose proof (gUpdates_frame ft o b1 k Hk) as H2. destruct (gUpdates _ _ _ _ _ _) as [e2 b2]. simpl in *. congruence.
  - intros ft o b Hd. unfold MySQL_Put. pose proof (gCreate_down ft o b Hd) as H1.
    destruct (gCreate _ _ _ _) as [[e |] b1]; [| done]. case_match; [| done].
    pose proof (gUpdates_down ft o b1 Hd) as H2. destruct (gUpdates _ _ _ _ _ _) as [e2 b2]. simpl in *. congruence.
  - intros ft o b Hp. unfold MySQL_Get. pose proof (gFirst_law ft o b Hp) as Hf.
    destruct (gFirst _ _ _ _ _ _) as [[[| t] |] o'].
    + destruct Hf as [-> Hn]. auto.
    + by destruct Hf as [-> _].
    + split; [by apply grow_key in Hf | done].
Defined.

(** A [Put] that goes well inserts its object or updates the row of its key. *)
Lemma put_upserts o b : gplain o ->
  let '(err, b') := MySQL_Put Fine o b in
  err = None /\ forall k, row b' k =
    if decide (k = Key o) then Some (match row b (Key o) with None => created o b | Some r => updated o r end)
    else row b k.
Proof using HGL.
  intros Hp. pose proof (dbPut_frame Fine o b) as Hfr. simpl in *. unfold MySQL_Put in *.
  pose proof (gCreate_law o b Hp) as Hc. destruct (gCreate _ _ _ _) as [err b1].
  destruct (grow b (Key o)) as [r |] eqn:Er.
  - destruct Hc as [Hd ->]. destruct err as [e |]; [| done]. rewrite Hd in *.
    pose proof (gUpdates_law o b r Hp Er) as Hu. destruct (gUpdates _ _ _ _ _ _) as [e2 b2], Hu as [-> Hu].
    split; [done |]. intros k. case_decide; [by subst | by apply Hfr].
  - destruct Hc as [-> Hc]. split; [done |]. intros k. case_decide; [by subst | by apply Hfr].
Qed.

End MySQL.
Arguments GormLaws O B {_ _ _}.
