(* ===== verification/CacheCases.v ===== *)
(** * A cache beside a database: cases

    Schedules of [Put]s and [Get]s that run, a server and a table in memory, the
    witnesses of the theorems, and the schedule in which two overlapping [Put]s leave a
    stale value in the cache. *)
From S2P Require Import Prelude GoStrings GoProg RedisLock CacheAside CacheCoherent CacheAdapters.

(** ** Schedules *)

Section Scheduler.
Context {O S B : Type} `{HO : !Object O} `{HC : !Cache S} `{HV : !CacheView S} `{HD : !DB O B} `{HDL : !DBLaws O B}.
Context (opts : Options) (used : string -> Prop) (timed serial : bool).
Context `{Hdec : !forall k, Decision (used k)} (all_plain : forall o : O, plain o).

Abbreviation env := (env (S := S) (B := B)).
Abbreviation thread := (thread (O := O)).
Abbreviation sys := (sys (O := O) (S := S) (B := B)).

Definition cached {A} (E : env) (r : A * S) : A * env := (r.1, mkEnv r.2 (e_db E) (e_clock E)).

(** A call that goes well; the random source answers 0. *)
Definition perform (E : env) {R} (c : ccall O R) : R * env :=
  let now := e_clock E in
  match c in ccall _ R return R * env with
  | KEnable k millis => cached E (cEnable now Fine k millis (e_cache E))
  | KDisable k secs => cached E (cDisable now Fine k secs (e_cache E))
  | KGet k => cached E (cGet now Fine k (e_cache E))
  | KDel k => cached E (cDel now Fine k (e_cache E))
  | KPutWhenEnable k v secs => cached E (cPutWhenEnable now Fine k v secs (e_cache E))
  | KDbPut o => let '(x, b) := dbPut Fine o (e_db E) in (x, mkEnv (e_cache E) b (e_clock E))
  | KDbGet o => (dbGet Fine o (e_db E), E)
  | KInt63n _ => (0, E)
  | KGo _ _ => (tt, E)
  end.

Definition writing (ph : phase) : bool := match ph with Disabled | Deleted => true | _ => false end.

Definition allowed (E : env) (T : list thread) (th : thread) {R} (c : ccall O R) : bool :=
  match c with
  | KDbPut _ => negb timed || (e_clock E + delay opts <=? th_time th + disabling opts)
  | KPutWhenEnable _ _ _ => negb timed || (e_clock E <? th_time th + delay opts)
  | KEnable k _ => negb serial || forallb (fun th => negb (bool_decide (th_key th = k) && writing (th_phase th))) T
  | KInt63n n => 0 <? n
  | _ => true
  end.

Inductive action := ATick (t : Z) | APut (o : O) | AGet (o : O) | ARun (i : nat).

Definition act (s : sys) (a : action) : option sys :=
  let '(mkSys E T) := s in
  match a with
  | ATick t => if e_clock E <=? t then Some (mkSys (mkEnv (e_cache E) (e_db E) t) T) else None
  | APut o =>
      if decide (used (Key o)) then Some (mkSys E (T ++ [mkThread (Key o) (e_clock E) Free (put_thread opts o)])) else None
  | AGet o =>
      if decide (used (Key o)) then Some (mkSys E (T ++ [mkThread (Key o) (e_clock E) Free (get_thread opts o)])) else None
  | ARun i =>
      match T !! i with
      | Some th =>
          match th_prog th with
          | Call c k =>
              if allowed E T th c then
                let '(x, E') := perform E c in
                Some (mkSys E' (<[i := mkThread (th_key th) (if starts_clock c then e_clock E else th_time th)
                                      (next_phase c x (th_phase th)) (k x)]> T ++ spawned (e_clock E) c))
              else None
          | Done _ => None
          end
      | None => None
      end
  end.

Fixpoint schedule (s : sys) (l : list action) : option sys :=
  match l with
  | [] => Some s
  | a :: l => match act s a with Some s => schedule s l | None => None end
  end.

Lemma allowed_on_time E T th R (c : ccall O R) : allowed E T th c = true -> on_time opts timed serial E T th c.
Proof using Type.
  destruct c; simpl; try done.
  - intros Ha ->. simpl in Ha. intros th' Hth' Hk. rewrite forallb_forall in Ha. specialize (Ha th').
    rewrite <- list_elem_of_In in Ha. specialize (Ha Hth'). rewrite bool_decide_true in Ha by done.
    by destruct (th_phase th').
  - intros Ha ->. simpl in Ha. by zb.
  - intros Ha ->. simpl in Ha. by zb.
Qed.

Lemma call_performed E T th R (c : ccall O R) : allowed E T th c = true ->
  does Fine E c (perform E c).1 (perform E c).2.
Proof using Type.
  destruct c; simpl; try done; unfold cached; simpl.
  1-5: intros _; split; [apply surjective_pairing | done].
  - intros _. by destruct (dbPut _ _ _).
  - intros Ha. zb. split; [lia | done].
Qed.

Lemma schedule_step s a s' : act s a = Some s' -> step opts used timed serial s s'.
Proof using all_plain.
  destruct s as [E T], a as [t | o | o | i]; simpl.
  - zcase; [| done]. intros [= <-]. by apply step_tick.
  - case_decide; [| done]. intros [= <-]. by apply step_put.
  - case_decide; [| done]. intros [= <-]. by apply step_get.
  - destruct (T !! i) as [th |] eqn:Et; [| done]. destruct (th_prog th) as [a | R c k] eqn:Ep; [done |].
    destruct (allowed E T th c) eqn:Ea; [| done]. pose proof (call_performed E T th R c Ea) as Hd.
    destruct (perform E c) as [x E']. intros [= <-]. eapply step_call; try done. intros _. by apply allowed_on_time.
Qed.

Lemma runs_reachable s0 l s : initial used s0 -> schedule s0 l = Some s -> reachable opts used timed serial s.
Proof using all_plain.
  intros H0 Hl. exists s0. split; [done |]. clear H0. revert s0 Hl. induction l as [| a l IH]; intros s0; simpl.
  - by intros [= ->].
  - destruct (act s0 a) as [s1 |] eqn:Ea; [| done]. intros Hl. eapply rtc_l; [by eapply schedule_step | auto].
Qed.

End Scheduler.

(** ** A server and a table in memory *)

#[local] Instance mem_ttl : RedisTTL (gmap string entry) := {
  SETEX now k v ttl r := <[k := (v, Some (now + ttl))]> r;
  PEXPIRE now k ttl r :=
    match at_time now r !! k with
    | Some (v, _) => (1, <[k := (v, Some (now + ttl))]> r)
    | None => (0, r)
    end
}.

#[local] Instance mem_ttl_laws : RedisTTLLaws (gmap string entry).
Proof.
  split; intros; simpl.
  - apply at_time_insert. unfold alive. simpl. lia.
  - destruct (at_time now r !! k) as [[v e] |]; [| done]. split; [done |]. apply at_time_insert. unfold alive. simpl. lia.
Qed.

(** An object with one field beside its key. *)
Record item := mkItem { it_key : string; it_data : string }.

#[local] Instance item_object : Object item := {
  KeyColumn _ := "key";
  Key := it_key;
  Write o := Ok ("." +:+ it_data o);
  Read v o := (None, mkItem (it_key o) (tail_string v))
}.

#[local] Instance item_table : tableInterface item := fun _ => Some "item".

(** [Updates] leaves a column alone when its field is zero. *)
Definition item_updated (o r : item) : item := if decide (it_data o = "") then r else mkItem (it_key r) (it_data o).

Definition sent {A} (ft : fate) (b : A) (ok : option gerr * A) : option gerr * A :=
  match ft with
  | Fine => ok
  | Lost e => (Some (GErr e), ok.2)
  | Down e => (Some (GErr e), b)
  end.

Abbreviation rows := (gmap string string).

#[local] Instance mem_gorm : Gorm item rows := {
  gCreate _ ft o b := sent ft b
    (match b !! it_key o with
     | None => (None, <[it_key o := it_data o]> b)
     | Some _ => (Some (GErr "Error 1062 (23000): Duplicate entry"), b)
     end);
  gUpdates _ _ key ft o b := sent ft b
    (match b !! key with
     | None => (None, b)
     | Some d => (None, <[key := it_data (item_updated o (mkItem key d))]> b)
     end);
  gFirst _ _ key ft o b :=
    match ft with
    | Fine => match b !! key with Some d => (None, mkItem key d) | None => (Some ErrRecordNotFound, o) end
    | Lost e | Down e => (Some (GErr e), o)
    end
}.

Lemma item_updated_key o r : it_key (item_updated o r) = it_key r.
Proof. unfold item_updated. by case_decide. Qed.

#[local] Instance mem_gorm_laws : GormLaws item rows.
Proof.
  refine {| grow b k := mkItem k <$> b !! k; gplain _ := True; created o _ := o; updated := item_updated |}; simpl.
  - intros b k o (d & _ & ->)%fmap_Some_1. done.
  - intros ft o b k Hk. f_equal. destruct ft, (b !! it_key o); simpl; rewrite ?lookup_insert_ne; done.
  - intros [| |] o b Hd; simpl in *; [by destruct Hd.. | done].
  - intros o b _. destruct (b !! it_key o) as [d |] eqn:E; simpl; [done |]. rewrite lookup_insert_eq. by destruct o.
  - intros ft o b k Hk. f_equal. destruct ft, (b !! it_key o); simpl; rewrite ?lookup_insert_ne; done.
  - intros [| |] o b Hd; simpl in *; [by destruct Hd.. | done].
  - intros o b r _ (d & Hd & ->)%fmap_Some_1. rewrite Hd. simpl. split; [done |]. rewrite lookup_insert_eq. simpl.
    unfold item_updated. by case_decide.
  - intros [| e | e] o b _; simpl; [by destruct (b !! it_key o) | split; [done | by intros [=]]..].
Defined.

(** ** Schedules *)

Abbreviation store := (gmap string entry).

Definition only_a (k : string) : Prop := k = "a".

#[local] Instance only_a_dec k : Decision (only_a k).
Proof. unfold only_a. apply _. Defined.

Definition ex_opts : Options := service_options [].

Definition ex_start : sys (O := item) (S := store) (B := rows) := mkSys (mkEnv ∅ {[ "a" := "1" ]} 0) [].

Lemma ex_start_initial : initial only_a ex_start.
Proof. split; [done |]. by intros k ->. Qed.

Lemma item_roundtrip (r o : item) v : Key r = Key o -> Write r = Ok v -> Read v o = (None, r) /\ v <> NullData.
Proof. intros Hk [= <-]. simpl in *. split; [by destruct r; simpl in *; subst | done]. Qed.

Lemma item_plain (o : item) : plain (B := rows) o.
Proof. exact I. Qed.

(** A read that fills the cache, a write, a read while the key is disabled, the
    delayed [Enable], and after it a read that fills the cache again. *)
Definition ex_schedule : list (action (O := item)) :=
  [AGet (mkItem "a" ""); ARun 0; ARun 0; ARun 0;
   APut (mkItem "a" "2"); ARun 1; ARun 1; AGet (mkItem "a" ""); ARun 2; ARun 2; ARun 1; ARun 1; ARun 2; ARun 3;
   ATick (2 * second); AGet (mkItem "a" ""); ARun 4; ARun 4; ARun 4; AGet (mkItem "a" "")].

Definition returns (s : option (sys (O := item) (S := store) (B := rows))) : option (list (option (returned item))) :=
  s ← s; Some (map (fun th => match th_prog th with Done r => Some r | _ => None end) (s_threads s)).

Example ex_returns :
  returns (schedule ex_opts only_a true true ex_start (ex_schedule ++ [ARun 5])) =
  Some [Some (GetRet false None (mkItem "a" "1")); Some (PutRet None); Some (GetRet false None (mkItem "a" "1"));
        Some (EnableRet None); Some (GetRet false None (mkItem "a" "2")); Some (GetRet true None (mkItem "a" "2"))].
Proof. by vm_compute. Qed.

Definition ex_state : sys := default ex_start (schedule ex_opts only_a true true ex_start ex_schedule).
Definition ex_after : sys := default ex_start (schedule ex_opts only_a true true ex_state [ARun 5]).
Definition ex_thread (s : sys (O := item) (S := store) (B := rows)) : thread :=
  default (mkThread "" 0 Free (Done (PutRet None))) (s_threads s !! 5%nat).

Lemma cache_coherent_witness :
  th_prog (ex_thread ex_after) = Done (GetRet true None (mkItem "a" "2")) /\ row (e_db (s_env ex_state)) "a" = Some (mkItem "a" "2").
Proof.
  split; [| by vm_compute].
  change (GetRet true None (mkItem "a" "2")) with (hit_of (Some (mkItem "a" "2")) (mkItem "a" "")).
  change (Some (mkItem "a" "2")) with (row (e_db (s_env ex_state)) (Key (mkItem "a" ""))).
  eapply proj1, (cache_coherent ex_opts only_a true true) with (s := ex_state) (s' := ex_after) (i := 5%nat)
    (th := ex_thread ex_state) (th' := ex_thread ex_after) (o := mkItem "a" "") (err := None) (o' := mkItem "a" "2").
  - by vm_compute.
  - intros k k' -> -> Hne. by destruct Hne.
  - by vm_compute.
  - by vm_compute.
  - exact item_roundtrip.
  - done.
  - done.
  - eapply (runs_reachable (O := item) (S := store) (B := rows) ex_opts only_a true true item_plain ex_start ex_schedule); [exact ex_start_initial | by vm_compute].
  - eapply (schedule_step (O := item) (S := store) (B := rows) ex_opts only_a true true item_plain ex_state (ARun 5)). by vm_compute.
  - by vm_compute.
  - by vm_compute.
  - by vm_compute.
  - by vm_compute.
Defined.

(** Two [Put]s that overlap: the [Enable] that the first leaves behind cuts the
    second's marker short, and a prompt reader caches the first's value before the
    second's write, which comes well within the time the key should be disabled for. *)
Definition stale_schedule : list (action (O := item)) :=
  [APut (mkItem "a" "2"); ARun 0; ARun 0; APut (mkItem "a" "3"); ARun 1; ARun 1; ARun 0; ARun 0; ARun 2;
   ATick (1500 * millisecond); AGet (mkItem "a" ""); ARun 3; ARun 3; ARun 3; ARun 1; ARun 1].

Definition stale_state : sys := default ex_start (schedule ex_opts only_a true false ex_start stale_schedule).

Lemma overlapping_puts_stale : reachable ex_opts only_a true false stale_state /\
  cval (e_cache (s_env stale_state)) (e_clock (s_env stale_state)) "a" = Some ".2" /\
  row (e_db (s_env stale_state)) "a" = Some (mkItem "a" "3").
Proof.
  split; [| by vm_compute].
  eapply (runs_reachable (O := item) (S := store) (B := rows) ex_opts only_a true false item_plain ex_start stale_schedule); [exact ex_start_initial | by vm_compute].
Qed.

(** [Put] of a row with an empty field does not clear the field. *)
Example put_keeps_old_field : (MySQL_Put Fine (mkItem "a" "") {[ "a" := "1" ]} : option cerr * rows) = (None, {[ "a" := "1" ]}).
Proof. by vm_compute. Qed.
