(* ===== verification/OrmQuery.v ===== *)
(** * The query builder for MongoDB

    [libs/yukino_orm]: [filter.go], [query.go], [query_group.go], [naming.go] and the
    parts of [query_exec.go] that prepare a request.  What is sent to the driver is
    data: filters, projections, options and pipelines. *)
From stdpp Require Import sorting.
From Stdlib Require Import Ascii.
From S2P Require Import Prelude GoStrings.

(** ** Values *)

(** What an [any] holds: the types the builder looks at, and others.  [AFloat] holds the
    bits of a number, [ATime] is [time.Time], [ABytes] is a slice or array of bytes, such as
    [bson.ObjectID], [APair] is [[2]any], the type the builder asserts, [AArray] is any other
    slice or array, [AMap] is [bson.M] or [map[string]any], [ADoc] is [bson.D], [AElem] is
    [bson.E], [ARegex] is [bson.Regex]. *)
Inductive any :=
  | ANil
  | ABool (b : bool)
  | AStr (s : string)
  | AInt (n : Z)
  | AFloat (bits : Z)
  | ATime (t : Z)
  | ABytes (l : list Z)
  | APair (lo hi : any)
  | AArray (l : list any)
  | AMap (l : list (string * any))
  | ADoc (l : list (string * any))
  | AElem (k : string) (v : any)
  | ARegex (pattern options : string)
  | AStruct (id : nat)
  | APtr (a : option any)
  | AOther (id : nat).

(** ** [filter.go] *)

Record condition := mkCond { c_field : string; c_op : string; c_value : any }.

Definition opAliases : list (string * string) :=
  [("=", "="); ("==", "="); ("!=", "$ne"); ("<>", "$ne"); (">", "$gt"); (">=", "$gte"); ("<", "$lt"); ("<=", "$lte");
   ("in", "$in"); ("not in", "$nin"); ("nin", "$nin"); ("like", "like"); ("ilike", "ilike"); ("between", "between");
   ("not between", "notBetween")].

Definition lookup_alias (op : string) : option string :=
  snd <$> List.find (fun x => bool_decide (x.1 = op)) opAliases.

Definition toBetweenPair (value : any) : result string any :=
  match value with
  | APair lo hi => Ok (APair lo hi)
  | AArray [lo; hi] => Ok (APair lo hi)
  | ABytes [lo; hi] => Ok (APair (AInt lo) (AInt hi))
  | ADoc [(k0, v0); (k1, v1)] => Ok (APair (AElem k0 v0) (AElem k1 v1))
  | _ => Err "where: between requires a 2-element slice or array"
  end.

Definition normalizeOp (rawOp : string) (value : any) : result string (string * any) :=
  match lookup_alias (ToLower (TrimSpace rawOp)) with
  | None =>
      if String.prefix "$" rawOp then Ok (rawOp, value)
      else Err ("where: unsupported operator " +:+ rawOp)
  | Some op =>
      if decide (op = "between" \/ op = "notBetween") then
        match toBetweenPair value with Ok p => Ok (op, p) | Err e => Err e end
      else if decide (op = "like" \/ op = "ilike") then
        match value with
        | AStr _ => Ok (op, value)
        | _ => Err ("where: " +:+ op +:+ " requires a string pattern")
        end
      else Ok (op, value)
  end.

(** [sort.Strings] on the keys of a map. *)
Definition key_le (x y : string * any) : Prop := String.leb x.1 y.1 = true.

#[export] Instance key_le_dec : RelDecision key_le.
Proof. intros x y. unfold key_le. apply _. Defined.

Definition sort_keys (l : list (string * any)) : list (string * any) := merge_sort key_le l.

Definition parseWhereMap (arg : any) : result string (list condition) :=
  match arg with
  | AMap doc =>
      Ok (map (fun '(k, v) => match v with ANil => mkCond k "null" ANil | _ => mkCond k "=" v end) (sort_keys doc))
  | _ => Err "where: single argument must be bson.M or map[string]any"
  end.

Definition where_field (a : any) : result string string :=
  match a with
  | AStr field => if decide (TrimSpace field = "") then Err "where: field must be a non-empty string" else Ok field
  | _ => Err "where: field must be a non-empty string"
  end.

Definition parseWhere (args : list any) : result string (list condition) :=
  match args with
  | [arg] => parseWhereMap arg
  | [a0; a1] =>
      match where_field a0 with
      | Err e => Err e
      | Ok field => match a1 with ANil => Ok [mkCond field "null" ANil] | _ => Ok [mkCond field "=" a1] end
      end
  | [a0; a1; a2] =>
      match where_field a0 with
      | Err e => Err e
      | Ok field =>
          match a1 with
          | AStr rawOp =>
              match normalizeOp rawOp a2 with
              | Err e => Err e
              | Ok (op, value) => Ok [mkCond field op value]
              end
          | _ => Err "where: operator must be a string"
          end
      end
  | _ => Err "where: expected 1 (map), 2 or 3 arguments"
  end.

(** [regexp.QuoteMeta] puts a backslash before these. *)
Definition metachar (c : ascii) : bool :=
  bool_decide (c ∈ ["\"; "."; "+"; "*"; "?"; "("; ")"; "|"; "["; "]"; "{"; "}"; "^"; "$"]%char).

Fixpoint QuoteMeta (s : string) : string :=
  match s with
  | EmptyString => EmptyString
  | String c s => if metachar c then String "\" (String c (QuoteMeta s)) else String c (QuoteMeta s)
  end.

Definition likeToRegex (pattern : string) : string :=
  let quoted := QuoteMeta pattern in
  let quoted := ReplaceByte "%" ".*" quoted in
  let quoted := ReplaceByte "_" "." quoted in
  "^" +:+ quoted +:+ "$".

(** A filter: the value of a field, or the operators on it; under [$and] the clauses
    that the builder adds. *)
Inductive clause := CEq (field : string) (v : any) | COp (field op : string) (v : any).

Inductive fval := FVal (v : any) | FOps (m : gmap string any) | FAnd (l : list clause).

Abbreviation bsonM := (gmap string fval).

(** The filter and [andClauses]; [opFields] holds the fields of [FOps]. *)
Record builder := mkBuilder { b_filter : bsonM; b_and : list clause }.

Definition setEquality (field : string) (value : any) (b : builder) : builder :=
  match b_filter b !! field with
  | None => mkBuilder (<[field := FVal value]> (b_filter b)) (b_and b)
  | Some (FOps m) =>
      match m !! "$eq" with
      | None => mkBuilder (<[field := FOps (<["$eq" := value]> m)]> (b_filter b)) (b_and b)
      | Some _ => mkBuilder (b_filter b) (b_and b ++ [CEq field value])
      end
  | Some _ => mkBuilder (b_filter b) (b_and b ++ [CEq field value])
  end.

Definition setOp (field op : string) (value : any) (b : builder) : builder :=
  match b_filter b !! field with
  | None => mkBuilder (<[field := FOps {[ op := value ]}]> (b_filter b)) (b_and b)
  | Some (FOps m) =>
      match m !! op with
      | None => mkBuilder (<[field := FOps (<[op := value]> m)]> (b_filter b)) (b_and b)
      | Some _ => mkBuilder (b_filter b) (b_and b ++ [COp field op value])
      end
  | Some _ => mkBuilder (b_filter b) (b_and b ++ [COp field op value])
  end.

(** A [c.value] of another type than the operator's makes the type assertion panic:
    [c.value.([2]any)] asks for a pair, and no other slice of two will do. *)
Definition add_condition (b : builder) (c : condition) : outcome builder :=
  let '(mkCond field op value) := c in
  if decide (op = "=") then Ret (setEquality field value b)
  else if decide (op = "null") then Ret (setEquality field ANil b)
  else if decide (op = "notNull") then Ret (setOp field "$ne" ANil b)
  else if decide (op = "between") then
    match value with
    | APair lo hi => Ret (setOp field "$lte" hi (setOp field "$gte" lo b))
    | _ => Panic "interface conversion"
    end
  else if decide (op = "notBetween") then
    match value with
    | APair lo hi => Ret (setOp field "$not" (AMap [("$gte", lo); ("$lte", hi)]) b)
    | _ => Panic "interface conversion"
    end
  else if decide (op = "like") then
    match value with
    | AStr p => Ret (setOp field "$regex" (ARegex (likeToRegex p) "") b)
    | _ => Panic "interface conversion"
    end
  else if decide (op = "ilike") then
    match value with
    | AStr p => Ret (setOp field "$regex" (ARegex (likeToRegex p) "i") b)
    | _ => Panic "interface conversion"
    end
  else Ret (setOp field op value b).

Fixpoint add_conditions (b : builder) (cs : list condition) : outcome builder :=
  match cs with
  | [] => Ret b
  | c :: cs => b ← add_condition b c; add_conditions b cs
  end.

Definition buildConditionFilter (conditions : list condition) : outcome bsonM :=
  b ← add_conditions (mkBuilder ∅ []) conditions;
  Ret (match b_and b with [] => b_filter b | _ => <["$and" := FAnd (b_and b)]> (b_filter b) end).

(** ** [query.go] *)

Record aggSpec := mkAgg { a_alias : string; a_op : string; a_field : string }.

(** [q_collection] says whether the query has a collection. *)
Record Query := mkQuery {
  q_collection : bool;
  q_conditions : list condition;
  q_orGroups : list (list condition);
  q_sort : list (string * Z);
  q_limit : Z;
  q_skip : Z;
  q_fields : list string;
  q_groupFields : list string;
  q_havingConds : list condition;
  q_aggSpecs : list aggSpec;
  q_err : option string
}.

(** [Collection] of the engine. *)
Definition NewQuery (database : bool) (name : string) : Query :=
  mkQuery (database && bool_decide (TrimSpace name <> "")) [] [] [] 0 0 [] [] [] [] None.

Definition setErr (err : string) (q : Query) : Query :=
  mkQuery (q_collection q) (q_conditions q) (q_orGroups q) (q_sort q) (q_limit q) (q_skip q) (q_fields q)
    (q_groupFields q) (q_havingConds q) (q_aggSpecs q) (Some (default err (q_err q))).

Definition add_where (cs : list condition) (q : Query) : Query :=
  mkQuery (q_collection q) (q_conditions q ++ cs) (q_orGroups q) (q_sort q) (q_limit q) (q_skip q) (q_fields q)
    (q_groupFields q) (q_havingConds q) (q_aggSpecs q) (q_err q).

Definition add_or (cs : list condition) (q : Query) : Query :=
  mkQuery (q_collection q) (q_conditions q) (q_orGroups q ++ [cs]) (q_sort q) (q_limit q) (q_skip q) (q_fields q)
    (q_groupFields q) (q_havingConds q) (q_aggSpecs q) (q_err q).

Definition Where (args : list any) (q : Query) : Query :=
  match parseWhere args with Err e => setErr e q | Ok cs => add_where cs q end.

Definition WhereNot (field : string) (value : any) : Query -> Query := add_where [mkCond field "$ne" value].
Definition WhereIn (field : string) (values : any) : Query -> Query := add_where [mkCond field "$in" values].
Definition WhereNotIn (field : string) (values : any) : Query -> Query := add_where [mkCond field "$nin" values].
Definition WhereNull (field : string) : Query -> Query := add_where [mkCond field "null" ANil].
Definition WhereNotNull (field : string) : Query -> Query := add_where [mkCond field "notNull" ANil].
Definition WhereBetween (field : string) (low high : any) : Query -> Query :=
  add_where [mkCond field "between" (APair low high)].
Definition WhereNotBetween (field : string) (low high : any) : Query -> Query :=
  add_where [mkCond field "notBetween" (APair low high)].
Definition WhereLike (field pattern : string) : Query -> Query := add_where [mkCond field "like" (AStr pattern)].
Definition WhereILike (field pattern : string) : Query -> Query := add_where [mkCond field "ilike" (AStr pattern)].

Definition OrWhere (args : list any) (q : Query) : Query :=
  match parseWhere args with
  | Err e => setErr e q
  | Ok [] => q
  | Ok cs => add_or cs q
  end.

Definition OrWhereNot (field : string) (value : any) : Query -> Query := add_or [mkCond field "$ne" value].
Definition OrWhereIn (field : string) (values : any) : Query -> Query := add_or [mkCond field "$in" values].
Definition OrWhereNotIn (field : string) (values : any) : Query -> Query := add_or [mkCond field "$nin" values].
Definition OrWhereNull (field : string) : Query -> Query := add_or [mkCond field "null" ANil].
Definition OrWhereNotNull (field : string) : Query -> Query := add_or [mkCond field "notNull" ANil].
Definition OrWhereBetween (field : string) (low high : any) : Query -> Query :=
  add_or [mkCond field "between" (APair low high)].

Definition OrderBy (field : string) (direction : list string) (q : Query) : Query :=
  let dir := match direction with d :: _ => if EqualFold (TrimSpace d) "desc" then -1 else 1 | [] => 1 end in
  mkQuery (q_collection q) (q_conditions q) (q_orGroups q) (q_sort q ++ [(field, dir)]) (q_limit q) (q_skip q) (q_fields q)
    (q_groupFields q) (q_havingConds q) (q_aggSpecs q) (q_err q).

Definition Limit (n : Z) (q : Query) : Query :=
  mkQuery (q_collection q) (q_conditions q) (q_orGroups q) (q_sort q) n (q_skip q) (q_fields q)
    (q_groupFields q) (q_havingConds q) (q_aggSpecs q) (q_err q).

Definition Offset (n : Z) (q : Query) : Query :=
  mkQuery (q_collection q) (q_conditions q) (q_orGroups q) (q_sort q) (q_limit q) n (q_fields q)
    (q_groupFields q) (q_havingConds q) (q_aggSpecs q) (q_err q).

Definition Select (fields : list string) (q : Query) : Query :=
  mkQuery (q_collection q) (q_conditions q) (q_orGroups q) (q_sort q) (q_limit q) (q_skip q) fields
    (q_groupFields q) (q_havingConds q) (q_aggSpecs q) (q_err q).

(** A copy that shares nothing with the query. *)
Definition Clone (q : Query) : Query :=
  mkQuery (q_collection q) (q_conditions q) (q_orGroups q) (q_sort q) (q_limit q) (q_skip q) (q_fields q)
    (q_groupFields q) (q_havingConds q) (q_aggSpecs q) (q_err q).

(** ** What a query sends *)

Inductive whole := One (m : bsonM) | OrOf (l : list bsonM).

Fixpoint build_groups (groups : list (list condition)) : outcome (list bsonM) :=
  match groups with
  | [] => Ret []
  | [] :: groups => build_groups groups
  | g :: groups => m ← buildConditionFilter g; l ← build_groups groups; Ret (m :: l)
  end.

Definition buildFilter (q : Query) : outcome whole :=
  base ← buildConditionFilter (q_conditions q);
  match q_orGroups q with
  | [] => Ret (One base)
  | groups =>
      l ← build_groups groups;
      let orClauses := match q_conditions q with [] => l | _ => base :: l end in
      Ret (match orClauses with
           | [] => One base
           | [m] => One m
           | _ => OrOf orClauses
           end)
  end.

(** [proj[after] = 0] for an exclusion, [proj[f] = 1] otherwise; [None] is no projection. *)
Definition buildProjection (q : Query) : option (gmap string Z) :=
  match q_fields q with
  | [] => None
  | fields =>
      Some (foldl (fun proj f => match f with
                                 | String "-" after => <[after := 0]> proj
                                 | _ => <[f := 1]> proj
                                 end) ∅ fields)
  end.

Record FindOptions := mkFind {
  fo_sort : option (list (string * Z));
  fo_limit : option Z;
  fo_skip : option Z;
  fo_projection : option (gmap string Z)
}.

Definition findOptions (q : Query) : FindOptions :=
  mkFind (match q_sort q with [] => None | s => Some s end)
    (if 0 <? q_limit q then Some (q_limit q) else None) (if 0 <? q_skip q then Some (q_skip q) else None)
    (buildProjection q).

Definition ErrCollectionRequired : string := "collection is required before query execution".

Definition preflightBase (q : Query) : option string :=
  match q_err q with
  | Some e => Some e
  | None => if q_collection q then None else Some ErrCollectionRequired
  end.

Definition preflight (q : Query) : option string :=
  match preflightBase q with
  | Some e => Some e
  | None =>
      match q_groupFields q, q_havingConds q, q_aggSpecs q with
      | [], [], [] => None
      | _, _, _ => Some "GroupBy/Having/aggregation aliases are only supported by Aggregate"
      end
  end.

(** [Find]: the filter and the options that go to the driver. *)
Definition Find (q : Query) : outcome (result string (whole * FindOptions)) :=
  match preflight q with
  | Some e => Ret (Err e)
  | None => f ← buildFilter q; Ret (Ok (f, findOptions q))
  end.

(** [First]: no limit. *)
Definition First (q : Query) : outcome (result string (whole * FindOptions)) :=
  match preflight q with
  | Some e => Ret (Err e)
  | None =>
      f ← buildFilter q;
      Ret (Ok (f, mkFind (match q_sort q with [] => None | s => Some s end) None
                    (if 0 <? q_skip q then Some (q_skip q) else None) (buildProjection q)))
  end.

(** [Cursor], and [Each] over it, send what [Find] does. *)
Definition Cursor : Query -> outcome (result string (whole * FindOptions)) := Find.
Definition Each : Query -> outcome (result string (whole * FindOptions)) := Cursor.

(** [Delete], [Count] and [Distinct] send the filter. *)
Definition filter_request (q : Query) : outcome (result string whole) :=
  match preflight q with
  | Some e => Ret (Err e)
  | None => f ← buildFilter q; Ret (Ok f)
  end.

Definition Delete : Query -> outcome (result string whole) := filter_request.
Definition Count : Query -> outcome (result string whole) := filter_request.
Definition Distinct (field : string) (q : Query) : outcome (result string (string * whole)) :=
  r ← filter_request q;
  Ret (match r with Ok f => Ok (field, f) | Err e => Err e end).

Definition Exists_ : Query -> outcome (result string whole) := Count.
Definition CountDistinct : string -> Query -> outcome (result string (string * whole)) := Distinct.

(** The indexes that are created, if any, and the collection that is dropped. *)
Definition EnsureIndexes {I} (indexes : list I) (q : Query) : result string (option (list I)) :=
  match preflight q with
  | Some e => Err e
  | None => match indexes with [] => Ok None | _ => Ok (Some indexes) end
  end.

Definition DropCollection (q : Query) : result string unit := match preflight q with Some e => Err e | None => Ok tt end.

(** [Pluck]: [slice] says whether [out] is a non-nil pointer to a slice. *)
Definition Pluck (field : string) (slice : bool) (q : Query) : outcome (result string (whole * FindOptions)) :=
  match preflight q with
  | Some e => Ret (Err e)
  | None =>
      if decide (TrimSpace field = "") then Ret (Err "pluck: field is required")
      else if slice then
        f ← buildFilter q;
        let projection := {[ field := 1 ]} in
        let projection := if decide (field = "_id") then projection else <["_id" := 0]> projection in
        Ret (Ok (f, mkFind (match q_sort q with [] => None | s => Some s end)
                      (if 0 <? q_limit q then Some (q_limit q) else None)
                      (if 0 <? q_skip q then Some (q_skip q) else None) (Some projection)))
      else Ret (Err "pluck: out must be a non-nil pointer to a slice")
  end.

(** The documents of an [Insert]. *)
Definition expandInsertDocs (documents : list any) : list any :=
  match documents with
  | [AArray l] => l
  | [APair lo hi] => [lo; hi]
  | _ => documents
  end.

Definition Insert (documents : list any) (q : Query) : result string (list any) :=
  match preflight q with
  | Some e => Err e
  | None =>
      match expandInsertDocs documents with
      | [] => Err "at least one document is required"
      | documents => Ok documents
      end
  end.

Definition is_operator (k : string) : bool := String.prefix "$" k.

Definition hasOperatorKey (doc : list (string * any)) : bool := existsb (fun x => is_operator x.1) doc.

(** The pointers to follow are finite. *)
Fixpoint struct_below (a : any) : bool :=
  match a with
  | AStruct _ | AElem _ _ | ARegex _ _ | ATime _ => true
  | APtr (Some a) => struct_below a
  | _ => false
  end.

Definition normalizeUpdate (update : any) : any :=
  match update with
  | AMap doc | ADoc doc => if hasOperatorKey doc then update else AMap [("$set", update)]
  | _ => if struct_below update then AMap [("$set", update)] else update
  end.

(** [Update]: the filter and the document that go to [UpdateMany]. *)
Definition Update (update : any) (q : Query) : outcome (result string (whole * any)) :=
  match preflight q with
  | Some e => Ret (Err e)
  | None => f ← buildFilter q; Ret (Ok (f, normalizeUpdate update))
  end.

(** [Upsert] sends the same to [UpdateMany], with the upsert option. *)
Definition Upsert (update : any) (q : Query) : outcome (result string (whole * any * bool)) :=
  match preflight q with
  | Some e => Ret (Err e)
  | None => f ← buildFilter q; Ret (Ok (f, normalizeUpdate update, true))
  end.

Definition amount_of (amount : list Z) : Z := match amount with n :: _ => n | [] => 1 end.

Definition Increment (field : string) (amount : list Z) : Query -> outcome (result string (whole * any)) :=
  Update (AMap [("$inc", AMap [(field, AInt (amount_of amount))])]).

Definition Decrement (field : string) (amount : list Z) : Query -> outcome (result string (whole * any)) :=
  Update (AMap [("$inc", AMap [(field, AInt (s64 (- amount_of amount)))])]).

(** ** [query_group.go] *)

Definition add_group (fields : list string) (having : list condition) (specs : list aggSpec) (q : Query) : Query :=
  mkQuery (q_collection q) (q_conditions q) (q_orGroups q) (q_sort q) (q_limit q) (q_skip q) (q_fields q)
    (q_groupFields q ++ fields) (q_havingConds q ++ having) (q_aggSpecs q ++ specs) (q_err q).

Definition GroupBy (fields : list string) (q : Query) : Query :=
  if existsb (fun f => bool_decide (TrimSpace f = "")) fields then setErr "groupBy: field must be a non-empty string" q
  else add_group fields [] [] q.

Definition Having (args : list any) (q : Query) : Query :=
  match parseWhere args with Err e => setErr e q | Ok cs => add_group [] cs [] q end.

Definition addAggSpec (alias op field : string) (q : Query) : Query :=
  if decide (TrimSpace alias = "") then setErr "aggregate: alias must be a non-empty string" q
  else if decide (alias = "_id") then setErr "aggregate: alias _id is reserved" q
  else if String.prefix "$" alias || Contains alias "." then setErr "aggregate: alias must not start with $ or contain ." q
  else add_group [] [] [mkAgg alias op field] q.

Definition addFieldAggSpec (alias op field : string) (q : Query) : Query :=
  if decide (TrimSpace field = "") then setErr (match op with String "$" o => o | _ => op end +:+ ": field must be a non-empty string") q
  else addAggSpec alias op field q.

Definition CountAs (alias : string) : Query -> Query := addAggSpec alias "$sum" "".
Definition SumAs (field alias : string) : Query -> Query := addFieldAggSpec alias "$sum" field.
Definition AvgAs (field alias : string) : Query -> Query := addFieldAggSpec alias "$avg" field.
Definition MinAs (field alias : string) : Query -> Query := addFieldAggSpec alias "$min" field.
Definition MaxAs (field alias : string) : Query -> Query := addFieldAggSpec alias "$max" field.

Definition groupKeyName (field : string) : string := ReplaceByte "." "_" field.

(** An accumulator: [{$sum: 1}] or [{op: "$field"}]. *)
Inductive accumulator := CountOne | Acc (op field : string).

(** The [_id] of a [$group]: nil, a path, or a document of paths under flattened names. *)
Inductive group_id := IdNil | IdPath (path : string) | IdDoc (m : gmap string string).

Inductive stage :=
  | SMatch (f : whole)
  (** the group key and the accumulators *)
  | SGroup (id : group_id) (accs : gmap string accumulator)
  (** what each column is: 0, 1 or a path *)
  | SProject (cols : gmap string (Z + string))
  | SHaving (m : bsonM)
  | SSort (s : list (string * Z))
  | SSkip (n : Z)
  | SLimit (n : Z).

(** The keys must differ once flattened. *)
Fixpoint check_keys (fields : list string) (keyNames : gset string) : result string (gset string) :=
  match fields with
  | [] => Ok keyNames
  | f :: fields =>
      if decide (groupKeyName f ∈ keyNames) then Err "aggregate: duplicate group key"
      else check_keys fields ({[ groupKeyName f ]} ∪ keyNames)
  end.

Fixpoint check_aliases (specs : list aggSpec) (keyNames resultCols : gset string) : result string (gset string) :=
  match specs with
  | [] => Ok resultCols
  | spec :: specs =>
      if decide (a_alias spec ∈ keyNames) then Err "aggregate: alias collides with a group key"
      else if decide (a_alias spec ∈ resultCols) then Err "aggregate: duplicate alias"
      else check_aliases specs keyNames ({[ a_alias spec ]} ∪ resultCols)
  end.

Definition acc_of (spec : aggSpec) : accumulator :=
  if decide (a_field spec = "") then CountOne else Acc (a_op spec) (a_field spec).

Definition whole_empty (f : whole) : bool := match f with One m => bool_decide (m = ∅) | OrOf _ => false end.

Definition id_of (fields : list string) : group_id :=
  match fields with
  | [f] => IdPath ("$" +:+ f)
  | _ => IdDoc (foldl (fun m f => <[groupKeyName f := "$" +:+ f]> m) ∅ fields)
  end.

(** The columns of the result after [$group]: those of the keys, then the aliases. *)
Definition project_cols (q : Query) : gmap string (Z + string) :=
  let cols := match q_groupFields q with
              | [f] => <[groupKeyName f := inr "$_id"]> {[ "_id" := inl 0 ]}
              | fields => foldl (fun m f => <[groupKeyName f := inr ("$_id." +:+ groupKeyName f)]> m) {[ "_id" := inl 0 ]} fields
              end in
  foldl (fun m spec => <[a_alias spec := inl 1]> m) cols (q_aggSpecs q).

Definition buildGroupPipeline (q : Query) : outcome (result string (list stage)) :=
  match q_groupFields q, q_fields q with
  | [], _ => Ret (Err "aggregate: GroupBy is required")
  | _, _ :: _ => Ret (Err "aggregate: Select cannot be combined with GroupBy")
  | _, [] =>
      match check_keys (q_groupFields q) ∅ with
      | Err e => Ret (Err e)
      | Ok keyNames =>
          match check_aliases (q_aggSpecs q) keyNames keyNames with
          | Err e => Ret (Err e)
          | Ok resultCols =>
              if existsb (fun c => bool_decide (c_field c ∉ resultCols)) (q_havingConds q)
              then Ret (Err "aggregate: having references unknown column")
              else if existsb (fun e => bool_decide (e.1 ∉ resultCols)) (q_sort q)
              then Ret (Err "aggregate: order by references unknown column")
              else
                f ← buildFilter q;
                having ← buildConditionFilter (q_havingConds q);
                Ret (Ok (
                  (if whole_empty f then [] else [SMatch f]) ++
                  [SGroup (id_of (q_groupFields q))
                     (foldl (fun m spec => <[a_alias spec := acc_of spec]> m) ∅ (q_aggSpecs q));
                   SProject (project_cols q)] ++
                  (if decide (having = ∅) then [] else [SHaving having]) ++
                  (match q_sort q with [] => [] | s => [SSort s] end) ++
                  (if 0 <? q_skip q then [SSkip (q_skip q)] else []) ++
                  (if 0 <? q_limit q then [SLimit (q_limit q)] else [])))
          end
      end
  end.

Definition Aggregate (q : Query) : outcome (result string (list stage)) :=
  match preflightBase q with
  | Some e => Ret (Err e)
  | None => buildGroupPipeline q
  end.

(** ** [query_aggregate.go] *)

Definition aggregate (acc : accumulator) (q : Query) : outcome (result string (list stage)) :=
  match preflight q with
  | Some e => Ret (Err e)
  | None => f ← buildFilter q; Ret (Ok [SMatch f; SGroup IdNil {[ "result" := acc ]}])
  end.

Definition Sum (field : string) : Query -> outcome (result string (list stage)) := aggregate (Acc "$sum" field).
Definition Avg (field : string) : Query -> outcome (result string (list stage)) := aggregate (Acc "$avg" field).
Definition Min (field : string) : Query -> outcome (result string (list stage)) := aggregate (Acc "$min" field).
Definition Max (field : string) : Query -> outcome (result string (list stage)) := aggregate (Acc "$max" field).

(** ** [naming.go], on names of ASCII *)

Definition ascii_upper (c : ascii) : bool := let n := nat_of_ascii c in (65 <=? n)%nat && (n <=? 90)%nat.

Fixpoint snake_loop (first : bool) (value : string) : string :=
  match value with
  | EmptyString => EmptyString
  | String c value =>
      if negb first && ascii_upper c then String "_" (String c (snake_loop false value)) else String c (snake_loop false value)
  end.

Definition toSnake (value : string) : string := ToLower (snake_loop true value).

Definition isVowel (c : ascii) : bool := bool_decide (c ∈ ["a"; "e"; "i"; "o"; "u"]%char).

(** The byte before the last one. *)
Definition before_last (name : string) : option ascii := String.get (String.length name - 2) name.

Definition pluralize (name : string) : string :=
  if decide (name = "") then ""
  else if HasSuffix name "y" && (2 <=? String.length name)%nat &&
          negb (match before_last name with Some c => isVowel c | None => false end)
  then TrimSuffix name "y" +:+ "ies"
  else if HasSuffix name "s" || HasSuffix name "x" || HasSuffix name "sh" || HasSuffix name "ch" then name +:+ "es"
  else name +:+ "s".

Example plural_names : map (fun n => pluralize (toSnake n)) ["User"; "OrderItem"; "Category"; "Box"; "Day"; "Branch"] =
  ["users"; "order_items"; "categories"; "boxes"; "days"; "branches"].
Proof. by vm_compute. Qed.
