(* ===== verification/OrmProof.v ===== *)
(** * The query builder: what a filter selects

    The queries that the builder's methods can make, and what the server selects with
    the filter built from them.  How the server reads one value or one operator of a
    field is an interface, with the two documented rules the builder relies on. *)
From S2P Require Import Prelude GoStrings OrmQuery.

(** ** The server *)

(** Operators that only change the meaning of another one beside them. *)
Definition modifier (op : string) : bool := bool_decide (op ∈ ["$options"; "$maxDistance"; "$minDistance"]).

(** Values that the server compares for equality: no operator document, no regular
    expression, and none whose encoding is not known (structs, pointers and other types). *)
Definition literal (v : any) : bool :=
  match v with
  | ANil | ABool _ | AStr _ | AInt _ | AFloat _ | ATime _ | ABytes _ | APair _ _ | AArray _ => true
  | AMap l | ADoc l => negb (hasOperatorKey l)
  | AElem _ _ | ARegex _ _ | AStruct _ | APtr _ | AOther _ => false
  end.

(** [field_value d f v]: the document matches [{f: v}]; [field_ops d f m]: it matches
    [{f: m}] for a document [m] of operators.  A name with a dollar is not a field but an
    operator of the whole document, such as [$or] or [$expr]. *)
Class Mongo (D : Type) := {
  field_value : D -> string -> any -> Prop;
  field_ops : D -> string -> gmap string any -> Prop;
  (** the operators on a field are joined by an implicit AND *)
  ops_and d f m :
    is_operator f = false -> m <> ∅ -> map_Forall (fun op _ => is_operator op = true /\ modifier op = false) m ->
    field_ops d f m <-> map_Forall (fun op v => field_ops d f {[ op := v ]}) m;
  (** [{f: v}] is [{f: {$eq: v}}] *)
  eq_literal d f v : is_operator f = false -> literal v = true -> field_value d f v <-> field_ops d f {[ "$eq" := v ]}
}.

Section Matching.
Context {D : Type} `{Mongo D}.

Definition clause_holds (d : D) (c : clause) : Prop :=
  match c with CEq f v => field_value d f v | COp f op v => field_ops d f {[ op := v ]} end.

Definition entry_holds (d : D) (f : string) (x : fval) : Prop :=
  match x with FVal v => field_value d f v | FOps m => field_ops d f m | FAnd l => Forall (clause_holds d) l end.

(** The entries of a filter are joined by an implicit AND. *)
Definition matches (d : D) (m : bsonM) : Prop := map_Forall (entry_holds d) m.

Definition whole_matches (d : D) (w : whole) : Prop :=
  match w with One m => matches d m | OrOf l => Exists (matches d) l end.

(** ** What a query asks for *)

Definition cond_holds (d : D) (c : condition) : Prop :=
  let '(mkCond f op v) := c in
  let holds o x := field_ops d f {[ o := x ]} in
  if decide (op = "=") then field_value d f v
  else if decide (op = "null") then field_value d f ANil
  else if decide (op = "notNull") then holds "$ne" ANil
  else if decide (op = "between") then
    match v with APair lo hi => holds "$gte" lo /\ holds "$lte" hi | _ => False end
  else if decide (op = "notBetween") then
    match v with APair lo hi => holds "$not" (AMap [("$gte", lo); ("$lte", hi)]) | _ => False end
  else if decide (op = "like") then
    match v with AStr p => holds "$regex" (ARegex (likeToRegex p) "") | _ => False end
  else if decide (op = "ilike") then
    match v with AStr p => holds "$regex" (ARegex (likeToRegex p) "i") | _ => False end
  else holds op v.

Definition conds_hold (d : D) (cs : list condition) : Prop := Forall (cond_holds d) cs.

(** The conditions, or one of the groups; a part without conditions does not count,
    unless there is no other. *)
Definition query_holds (d : D) (q : Query) : Prop :=
  match filter (fun g => g <> []) (q_conditions q :: q_orGroups q) with
  | [] => True
  | groups => Exists (conds_hold d) groups
  end.

End Matching.

(** ** Conditions the builder can hold *)

(** The operator is one of the builder's, or one for the server. *)
Definition own_ops : list string := ["="; "null"; "notNull"; "between"; "notBetween"; "like"; "ilike"].

(** The value has the type that [buildConditionFilter] asserts. *)
Definition typed (c : condition) : Prop :=
  (c_op c = "between" \/ c_op c = "notBetween" -> exists lo hi, c_value c = APair lo hi) /\
  (c_op c = "like" \/ c_op c = "ilike" -> exists p, c_value c = AStr p) /\
  (c_op c ∈ own_ops \/ is_operator (c_op c) = true).

Definition typed_query (q : Query) : Prop :=
  Forall typed (q_conditions q) /\ Forall (Forall typed) (q_orGroups q) /\ Forall typed (q_havingConds q).

(** A query that a program can make: [Collection], then any methods in any order. *)
Inductive built : Query -> Prop :=
  | b_new database name : built (NewQuery database name)
  | b_where args q : built q -> built (Where args q)
  | b_whereNot f v q : built q -> built (WhereNot f v q)
  | b_whereIn f v q : built q -> built (WhereIn f v q)
  | b_whereNotIn f v q : built q -> built (WhereNotIn f v q)
  | b_whereNull f q : built q -> built (WhereNull f q)
  | b_whereNotNull f q : built q -> built (WhereNotNull f q)
  | b_whereBetween f lo hi q : built q -> built (WhereBetween f lo hi q)
  | b_whereNotBetween f lo hi q : built q -> built (WhereNotBetween f lo hi q)
  | b_whereLike f p q : built q -> built (WhereLike f p q)
  | b_whereILike f p q : built q -> built (WhereILike f p q)
  | b_orWhere args q : built q -> built (OrWhere args q)
  | b_orWhereNot f v q : built q -> built (OrWhereNot f v q)
  | b_orWhereIn f v q : built q -> built (OrWhereIn f v q)
  | b_orWhereNotIn f v q : built q -> built (OrWhereNotIn f v q)
  | b_orWhereNull f q : built q -> built (OrWhereNull f q)
  | b_orWhereNotNull f q : built q -> built (OrWhereNotNull f q)
  | b_orWhereBetween f lo hi q : built q -> built (OrWhereBetween f lo hi q)
  | b_orderBy f dir q : built q -> built (OrderBy f dir q)
  | b_limit n q : built q -> built (Limit n q)
  | b_offset n q : built q -> built (Offset n q)
  | b_select fs q : built q -> built (Select fs q)
  | b_clone q : built q -> built (Clone q)
  | b_groupBy fs q : built q -> built (GroupBy fs q)
  | b_having args q : built q -> built (Having args q)
  | b_countAs a q : built q -> built (CountAs a q)
  | b_sumAs f a q : built q -> built (SumAs f a q)
  | b_avgAs f a q : built q -> built (AvgAs f a q)
  | b_minAs f a q : built q -> built (MinAs f a q)
  | b_maxAs f a q : built q -> built (MaxAs f a q).

Create HintDb orm discriminated.
#[local] Hint Constructors Forall : orm.
#[local] Hint Resolve Forall_app_2 : orm.

Lemma alias_known raw op : lookup_alias raw = Some op -> op ∈ own_ops \/ is_operator op = true.
Proof.
  unfold lookup_alias. destruct (List.find _ _) as [[k o] |] eqn:E; [| done]. cbn. intros [= <-]. apply find_some in E as [Hin _].
  assert (HA : Forall (fun x : string * string => bool_decide (x.2 ∈ own_ops) || is_operator x.2 = true) opAliases) by (repeat constructor).
  rewrite Forall_forall in HA. apply list_elem_of_In, HA, orb_true_iff in Hin as [H%bool_decide_eq_true | H]; auto.
Qed.

Lemma normalizeOp_typed rawOp v f op x : normalizeOp rawOp v = Ok (op, x) -> typed (mkCond f op x).
Proof.
  unfold normalizeOp. intros E. destruct (lookup_alias _) as [o |] eqn:Eo.
  - apply alias_known in Eo. case_decide as Hb.
    + destruct (toBetweenPair v) as [p | e] eqn:Ep; simplify_eq. split_and!; cbn; try intros [-> | ->]; try (destruct Hb; done); try done;
        unfold toBetweenPair in Ep; repeat case_match; simplify_eq; eauto.
    + case_decide as Hl; [destruct v; simplify_eq; split_and!; cbn; naive_solver |]. simplify_eq. split_and!; cbn; naive_solver.
  - destruct (String.prefix "$" rawOp) eqn:Ep; simplify_eq. split_and!; cbn; [intros [-> | ->]; by cbn in Ep.. | by right].
Qed.

Lemma typed_eq f v : typed (mkCond f "=" v).
Proof. split_and!; cbn; [by intros [? | ?].. | left; left]. Qed.

Lemma typed_null f v : typed (mkCond f "null" v).
Proof. split_and!; cbn; [by intros [? | ?].. | left; right; left]. Qed.

#[local] Hint Resolve typed_eq typed_null normalizeOp_typed : orm.

Lemma parseWhere_typed args cs : parseWhere args = Ok cs -> Forall typed cs.
Proof.
  unfold parseWhere. destruct args as [| a0 [| a1 [| a2 [| ? ?]]]]; try done.
  - unfold parseWhereMap. destruct a0; try done. intros [= <-]. apply Forall_map, Forall_forall.
    intros [k v] _. cbn. destruct v; auto with orm.
  - destruct (where_field a0); [| done]. destruct a1; intros [= <-]; eauto with orm.
  - destruct (where_field a0); [| done]. destruct a1; try done.
    destruct (normalizeOp _ _) as [[op x] |] eqn:E; [| done]. intros [= <-]. eauto with orm.
Qed.

Lemma typed_op f op v : op ∈ ["$ne"; "$in"; "$nin"; "null"; "notNull"] -> typed (mkCond f op v).
Proof.
  intros Hin. split_and!; cbn; [intros [-> | ->]; set_solver.. |]. unfold own_ops.
  rewrite !elem_of_cons in Hin. destruct_or!; subst; try (by right); try (left; set_solver).
Qed.

Lemma typed_pair f op lo hi : op ∈ ["between"; "notBetween"] -> typed (mkCond f op (APair lo hi)).
Proof. intros Hin. split_and!; cbn; [eauto | intros [-> | ->]; set_solver | left; unfold own_ops; set_solver]. Qed.

Lemma typed_pattern f op p : op ∈ ["like"; "ilike"] -> typed (mkCond f op (AStr p)).
Proof. intros Hin. split_and!; cbn; [intros [-> | ->]; set_solver | eauto | left; unfold own_ops; set_solver]. Qed.

#[local] Hint Extern 1 (typed (mkCond _ _ _)) =>
  first [apply typed_op; set_solver | apply typed_pair; set_solver | apply typed_pattern; set_solver] : orm.

Lemma add_where_typed cs q : Forall typed cs -> typed_query q -> typed_query (add_where cs q).
Proof. intros Hc (H1 & H2 & H3). repeat split; cbn; auto with orm. Qed.

Lemma add_or_typed cs q : Forall typed cs -> typed_query q -> typed_query (add_or cs q).
Proof. intros Hc (H1 & H2 & H3). repeat split; cbn; auto with orm. Qed.

Lemma add_group_typed fs cs specs q : Forall typed cs -> typed_query q -> typed_query (add_group fs cs specs q).
Proof. intros Hc (H1 & H2 & H3). repeat split; cbn; auto with orm. Qed.

#[local] Hint Resolve add_where_typed add_or_typed add_group_typed parseWhere_typed : orm.

(** The type invariant of the builder. *)
Lemma built_typed q : built q -> typed_query q.
Proof.
  induction 1; try done;
    unfold Where, OrWhere, Having, CountAs, SumAs, AvgAs, MinAs, MaxAs, addFieldAggSpec, addAggSpec, GroupBy;
    repeat (case_match || case_decide); auto with orm.
  all: try (apply add_where_typed || apply add_or_typed || apply add_group_typed); eauto with orm.
Qed.

(** ** The builder does not panic *)

Lemma add_condition_returns b c : typed c -> exists b', add_condition b c = Ret b'.
Proof.
  destruct c as [f op v]. intros (Hb & Hl & _). cbn in Hb, Hl. unfold add_condition.
  repeat case_decide; eauto; subst op.
  1,2: destruct Hb as (lo & hi & ->); [by auto |]; eauto.
  all: destruct Hl as (p & ->); [by auto |]; eauto.
Qed.

Lemma add_conditions_returns cs : forall b, Forall typed cs -> exists b', add_conditions b cs = Ret b'.
Proof.
  induction cs as [| c cs IH]; intros b HF; [by eexists |]. apply Forall_cons in HF as [Hc HF].
  destruct (add_condition_returns b c Hc) as [b1 E1]. destruct (IH b1 HF) as [b2 E2].
  exists b2. cbn [add_conditions]. by rewrite E1.
Qed.

Lemma buildConditionFilter_returns cs : Forall typed cs -> exists m, buildConditionFilter cs = Ret m.
Proof.
  intros HF. destruct (add_conditions_returns cs (mkBuilder ∅ []) HF) as [b E].
  unfold buildConditionFilter. rewrite E. by eexists.
Qed.

Lemma build_groups_returns gs : Forall (Forall typed) gs -> exists l, build_groups gs = Ret l.
Proof.
  induction 1 as [| g gs Hg HF [l IH]]; [by eexists |]. cbn [build_groups].
  destruct g as [| c g]; [eauto |]. destruct (buildConditionFilter_returns _ Hg) as [m Em].
  rewrite Em. cbn. rewrite IH. by eexists.
Qed.

Lemma buildFilter_returns q : typed_query q -> exists w, buildFilter q = Ret w.
Proof.
  intros (H1 & H2 & _). unfold buildFilter. destruct (buildConditionFilter_returns _ H1) as [m ->].
  destruct (build_groups_returns _ H2) as [l E]. destruct (q_orGroups q); [by eexists |].
  unfold mbind, outcome_bind. rewrite E. by eexists.
Qed.

Lemma buildGroupPipeline_returns q : typed_query q -> exists r, buildGroupPipeline q = Ret r.
Proof.
  intros HT. destruct (buildFilter_returns q HT) as [w Ew]. destruct HT as (_ & _ & H3).
  destruct (buildConditionFilter_returns _ H3) as [m Em].
  unfold buildGroupPipeline. repeat (case_match || rewrite Ew || rewrite Em || cbn); eauto.
Qed.

(** C36: the type assertions of the filter builder never fail: whatever methods a program
    calls on the query of a collection, [Clone] included, in whatever order and with
    whatever arguments, every method that sends a filter or a pipeline returns a request or
    an error and does not panic: [Find], [First], [Cursor] and [Each], [Count] and [Exists],
    [Distinct] and [CountDistinct], [Pluck], [Update], [Upsert], [Increment], [Decrement],
    [Delete], [Sum], [Avg], [Min], [Max] and [Aggregate].  The other methods that run a
    query, [Insert], [EnsureIndexes] and [DropCollection], build no filter. *)
Theorem built_never_panics q :
  built q ->
  (forall update, returns (Update update q) /\ returns (Upsert update q)) /\
  (forall field amount, returns (Increment field amount q) /\ returns (Decrement field amount q)) /\
  (forall field slice, returns (Pluck field slice q)) /\
  (forall field, returns (Distinct field q) /\ returns (CountDistinct field q)) /\
  (forall field, returns (Sum field q) /\ returns (Avg field q) /\ returns (Min field q) /\ returns (Max field q)) /\
  returns (Find q) /\ returns (First q) /\ returns (Cursor q) /\ returns (Each q) /\ returns (Delete q) /\
  returns (Count q) /\ returns (Exists_ q) /\ returns (Aggregate q).
Proof.
  intros HB%built_typed. destruct (buildFilter_returns q HB) as [w Ew].
  destruct (buildGroupPipeline_returns q HB) as [r Er].
  unfold returns, Each, Cursor, Exists_, CountDistinct, Increment, Decrement, Update, Upsert, Pluck, Sum, Avg, Min, Max, OrmQuery.aggregate,
    Find, First, Delete, Count, Distinct, filter_request, Aggregate.
  rewrite Ew, Er. repeat split; intros; repeat case_match; cbn; eauto.
Qed.

(** ** What a filter selects *)

(** Conditions that the server reads one by one: on a field, not with a modifier, and
    equalities of literal values; or an operator of the whole document other than
    [$and], which the builder keeps for itself, with its argument. *)
Definition plain (c : condition) : Prop :=
  if is_operator (c_field c) then c_field c <> "$and" /\ (c_op c = "=" \/ c_op c = "null")
  else modifier (c_op c) = false /\ (c_op c = "=" -> literal (c_value c) = true).

(** The operators that a filter under construction has on a field. *)
Definition ops_wf (k : string) (m : gmap string any) : Prop :=
  is_operator k = false /\ m <> ∅ /\ map_Forall (fun op _ => is_operator op = true /\ modifier op = false) m.

(** A filter under construction has no [$and] entry and no modifier. *)
Definition entry_wf (k : string) (x : fval) : Prop :=
  k <> "$and" /\ match x with FVal _ => True | FOps m => ops_wf k m | FAnd _ => False end.

Definition builder_wf (b : builder) : Prop := map_Forall entry_wf (b_filter b).

Lemma ops_wf_insert k m op v : ops_wf k m -> is_operator op = true -> modifier op = false -> ops_wf k (<[op := v]> m).
Proof. intros (H1 & H2 & H3) Ho Hm. split; [done |]. split; [apply insert_non_empty |]. by apply map_Forall_insert_2. Qed.

Lemma ops_wf_singleton k op v : is_operator k = false -> is_operator op = true -> modifier op = false -> ops_wf k {[ op := v ]}.
Proof. intros Hk Ho Hm. split; [done |]. split; [apply map_non_empty_singleton |]. by apply map_Forall_singleton. Qed.

Section Exact.
Context {D : Type} `{Mongo D}.

Definition builder_holds (d : D) (b : builder) : Prop := matches d (b_filter b) /\ Forall (clause_holds d) (b_and b).

Lemma matches_insert d m k x :
  m !! k = None -> matches d (<[k := x]> m) <-> entry_holds d k x /\ matches d m.
Proof using Type. intros E. unfold matches. by rewrite map_Forall_insert. Qed.

Lemma matches_replace d m k x y :
  m !! k = Some y -> matches d (<[k := x]> m) <-> entry_holds d k x /\ matches d (delete k m).
Proof using Type. intros E. rewrite <- insert_delete_eq. apply matches_insert, lookup_delete_eq. Qed.

Lemma matches_lookup d m k y : m !! k = Some y -> matches d m <-> entry_holds d k y /\ matches d (delete k m).
Proof using Type. intros E. rewrite <- (insert_delete_id m k y E) at 1. apply matches_insert, lookup_delete_eq. Qed.

Lemma ops_insert d f m op v :
  ops_wf f m -> is_operator op = true -> modifier op = false -> m !! op = None ->
  field_ops d f (<[op := v]> m) <-> field_ops d f m /\ field_ops d f {[ op := v ]}.
Proof using Type.
  intros Hm Ho Hop E. destruct (ops_wf_insert f m op v Hm Ho Hop) as (K1 & K2 & K3). destruct Hm as (H1 & H2 & H3).
  rewrite (ops_and d f m), (ops_and d f (<[op := v]> m)), map_Forall_insert by done. tauto.
Qed.

Lemma and_clause d b c :
  builder_holds d (mkBuilder (b_filter b) (b_and b ++ [c])) <-> builder_holds d b /\ clause_holds d c.
Proof using Type. unfold builder_holds. cbn. rewrite Forall_app, Forall_singleton. tauto. Qed.

(** One operator more under a field that has operators. *)
Lemma op_beside d b f m op v :
  builder_wf b -> is_operator op = true -> modifier op = false -> b_filter b !! f = Some (FOps m) -> m !! op = None ->
  builder_holds d (mkBuilder (<[f := FOps (<[op := v]> m)]> (b_filter b)) (b_and b)) <->
  builder_holds d b /\ field_ops d f {[ op := v ]}.
Proof using Type.
  intros HW Ho Hop E Em. unfold builder_holds. cbn. rewrite (matches_replace _ _ _ _ _ E), (matches_lookup _ _ _ _ E).
  destruct (HW _ _ E) as [_ Hm]. cbn. rewrite ops_insert by done. tauto.
Qed.

Lemma setOp_holds d f op v b :
  builder_wf b -> is_operator op = true -> modifier op = false ->
  builder_holds d (setOp f op v b) <-> builder_holds d b /\ field_ops d f {[ op := v ]}.
Proof using Type.
  intros HW Ho Hop. unfold setOp. destruct (b_filter b !! f) as [[x | m | l] |] eqn:E; try apply (and_clause d b (COp f op v)).
  - destruct (m !! op) eqn:Em; [apply (and_clause d b (COp f op v)) | by apply op_beside].
  - unfold builder_holds. cbn. rewrite matches_insert by done. cbn. tauto.
Qed.

Lemma setEquality_holds d f v b :
  builder_wf b -> is_operator f = true \/ literal v = true ->
  builder_holds d (setEquality f v b) <-> builder_holds d b /\ field_value d f v.
Proof using Type.
  intros HW Hv. unfold setEquality. destruct (b_filter b !! f) as [[x | m | l] |] eqn:E; try apply (and_clause d b (CEq f v)).
  - destruct (m !! "$eq") eqn:Em; [apply (and_clause d b (CEq f v)) |]. destruct (HW _ _ E) as [_ [Hf _]].
    rewrite (eq_literal d f v) by (done || by destruct Hv; congruence). by apply op_beside.
  - unfold builder_holds. cbn. rewrite matches_insert by done. cbn. tauto.
Qed.

End Exact.

Lemma setOp_wf f op v b : is_operator f = false -> is_operator op = true -> modifier op = false -> builder_wf b -> builder_wf (setOp f op v b).
Proof.
  intros Hf Ho Hop HW. assert (f <> "$and") by (by intros ->). unfold setOp. destruct (b_filter b !! f) as [[x | m | l] |] eqn:E; try done.
  - destruct (m !! op); [done |]. apply map_Forall_insert_2; [| done]. split; [done |]. apply ops_wf_insert; [by apply (HW _ _ E) | done | done].
  - apply map_Forall_insert_2; [| done]. split; [done |]. by apply ops_wf_singleton.
Qed.

Lemma setEquality_wf f v b : f <> "$and" -> builder_wf b -> builder_wf (setEquality f v b).
Proof.
  intros Hf HW. unfold setEquality. destruct (b_filter b !! f) as [[x | m | l] |] eqn:E; try done.
  - destruct (m !! "$eq"); [done |]. apply map_Forall_insert_2; [| done]. split; [done |].
    apply ops_wf_insert; [by apply (HW _ _ E) | done | done].
  - by apply map_Forall_insert_2.
Qed.

#[local] Hint Resolve setOp_wf setEquality_wf : orm.

Section Filters.
Context {D : Type} `{Mongo D}.

Lemma add_condition_holds b c b' :
  typed c -> plain c -> builder_wf b -> add_condition b c = Ret b' ->
  builder_wf b' /\ forall d : D, builder_holds d b' <-> builder_holds d b /\ cond_holds d c.
Proof using Type.
  destruct c as [f op v]. intros (_ & _ & Hk) HP HW E. unfold plain in HP. cbn [c_op c_field c_value] in Hk, HP.
  unfold add_condition in E. unfold cond_holds. destruct (is_operator f) eqn:Ef.
  - destruct HP as [Hf [-> | ->]]; repeat (rewrite decide_True in * by done || rewrite decide_False in * by done); injection E as <-.
    all: split; [by apply setEquality_wf | intros d; apply setEquality_holds; auto].
  - destruct HP as [Hop Hv]. assert (f <> "$and") by (by intros ->).
    repeat case_decide; repeat case_match; simplify_eq.
    all: try (assert (Ho : is_operator op = true) by (destruct Hk as [Hk | Hk]; [unfold own_ops in Hk; set_solver | done])).
    all: split; [by auto with orm | intros d].
    all: rewrite ?setOp_holds, ?setEquality_holds by auto with orm; tauto.
Qed.

Lemma add_conditions_holds cs : forall b b',
  Forall typed cs -> Forall plain cs -> builder_wf b -> add_conditions b cs = Ret b' ->
  builder_wf b' /\ forall d : D, builder_holds d b' <-> builder_holds d b /\ conds_hold d cs.
Proof using Type.
  induction cs as [| c cs IH]; cbn [add_conditions]; intros b b' HT HP HW E.
  - simplify_eq. split; [done |]. intros d. unfold conds_hold. rewrite Forall_nil. tauto.
  - apply Forall_cons in HT as [Ht HT]. apply Forall_cons in HP as [Hc HP]. apply bind_Ret in E as (b1 & E1 & E).
    destruct (add_condition_holds _ _ _ Ht Hc HW E1) as [HW1 H1]. destruct (IH _ _ HT HP HW1 E) as [HW2 H2].
    split; [done |]. intros d. unfold conds_hold in *. rewrite H2, H1, Forall_cons. tauto.
Qed.

(** A document matches the filter of a list of conditions when it meets each of them. *)
Lemma buildConditionFilter_holds cs m :
  Forall typed cs -> Forall plain cs -> buildConditionFilter cs = Ret m -> forall d : D, matches d m <-> conds_hold d cs.
Proof using Type.
  intros HT HP E d. apply bind_Ret in E as (b & E & Em).
  destruct (add_conditions_holds _ _ _ HT HP (map_Forall_empty _) E) as [HW Hb]. specialize (Hb d).
  assert (He : builder_holds d (mkBuilder ∅ [])) by (split; [apply map_Forall_empty | constructor]).
  assert (Hn : b_filter b !! "$and" = None)
    by (destruct (b_filter b !! "$and") eqn:Ex; [by destruct (HW _ _ Ex) | done]).
  destruct (b_and b) as [| c l] eqn:Ea; simplify_eq; unfold builder_holds in Hb at 1; rewrite Ea in Hb.
  - rewrite Forall_nil in Hb. tauto.
  - rewrite matches_insert by done. cbn [entry_holds]. tauto.
Qed.

(** [m] selects the documents that meet [g]. *)
Definition selects (g : list condition) (m : bsonM) : Prop := forall d : D, matches d m <-> conds_hold d g.

Lemma build_groups_selects gs : forall l,
  Forall (Forall typed) gs -> Forall (Forall plain) gs -> build_groups gs = Ret l -> Forall2 selects (filter (fun g => g <> []) gs) l.
Proof using Type.
  induction gs as [| g gs IH]; intros l HT HP E; [injection E as <-; constructor |].
  apply Forall_cons in HT as [Ht HT]. apply Forall_cons in HP as [Hg HP]. cbn [build_groups] in E. rewrite filter_cons.
  destruct g as [| c g]; [case_decide; [done | auto] |]. case_decide; [| done].
  apply bind_Ret in E as (m & Em & E). apply bind_Ret in E as (l' & El & E). simplify_eq.
  constructor; [| auto]. intros d. by apply buildConditionFilter_holds.
Qed.

Lemma selects_Exists gs l d : Forall2 selects gs l -> Exists (matches d) l <-> Exists (conds_hold d) gs.
Proof using Type. induction 1 as [| g m gs l Hgm HF IH]; rewrite ?Exists_nil, ?Exists_cons; [done |]. by rewrite (Hgm d), IH. Qed.

(** One clause is sent as it is, several under [$or]. *)
Lemma or_clauses gs l base d :
  Forall2 selects gs l -> l <> [] ->
  whole_matches d (match l with [] => One base | [m] => One m | _ => OrOf l end) <-> Exists (conds_hold d) gs.
Proof using Type.
  intros HF Hl. rewrite <- (selects_Exists gs l d) by done. destruct l as [| m [| m' l]]; [done | | done].
  cbn. rewrite Exists_cons, Exists_nil. tauto.
Qed.

(** C35: the filter of a query selects the documents the query asks for: those that meet
    all its conditions, or all those of one of its OR groups.  This is for queries of plain
    conditions: an equality is with nil, a boolean, a number, a string, a time, bytes, an
    array or a document without operators (not with an operator document, a regular
    expression or a type of the program's own), no condition uses an operator that only
    modifies another one ($options, $maxDistance, $minDistance), and none is under the name
    $and, whose entry the builder overwrites; other operators of the whole document
    ($or, $expr) stand as they are given.  Of such conditions, as many as there are on one field
    and in whatever order they came, none is lost: they are joined by AND. *)
Theorem filter_exact q :
  built q -> Forall plain (q_conditions q) -> Forall (Forall plain) (q_orGroups q) ->
  exists w, buildFilter q = Ret w /\ forall d : D, whole_matches d w <-> query_holds d q.
Proof using Type.
  intros HB%built_typed HC HG. destruct (buildFilter_returns q HB) as [w Ew]. destruct HB as (HT1 & HT2 & _). exists w. split; [done |]. intros d.
  unfold buildFilter in Ew. apply bind_Ret in Ew as (base & Eb & E).
  assert (Hb : selects (q_conditions q) base) by (intros d'; by apply buildConditionFilter_holds).
  unfold query_holds. rewrite filter_cons.
  destruct (q_orGroups q) as [| g gs].
  { injection E as <-. cbn. rewrite (Hb d). case_decide as Hc.
    - rewrite Exists_cons, Exists_nil. tauto.
    - destruct (q_conditions q); [| done]. unfold conds_hold. by rewrite Forall_nil. }
  apply bind_Ret in E as (l & El & E). pose proof (build_groups_selects _ _ HT2 HG El) as HF.
  destruct (q_conditions q) as [| c cs] eqn:Ec; case_decide as Hc; try done; injection E as <-.
  - destruct (decide (l = [])) as [-> | Hl].
    + apply Forall2_nil_inv_r in HF as ->. cbn. rewrite (Hb d). unfold conds_hold. by rewrite Forall_nil.
    + rewrite or_clauses by done. destruct HF; done.
  - apply (or_clauses ((c :: cs) :: filter (fun g => g <> []) (g :: gs)) (base :: l) base); [by constructor | done].
Qed.

End Filters.
