(* ===== verification/OrmLike.v ===== *)
(** * LIKE patterns as regular expressions

    [likeToRegex] of [libs/yukino_orm/filter.go]: the expression selects the strings that
    the pattern does.  The engine of regular expressions is an interface with the
    documented meaning of the few constructs that the builder writes. *)
From Stdlib Require Import Ascii.
From S2P Require Import Prelude GoStrings OrmQuery.

(** ** The pattern language *)

(** [%] stands for any sequence, [_] for one character, others for themselves. *)
Inductive like : string -> string -> Prop :=
  | like_end : like "" ""
  | like_any p s t : like p t -> like (String "%" p) (s +:+ t)
  | like_one p c s : like p s -> like (String "_" p) (String c s)
  | like_char p c s : c <> "%"%char -> c <> "_"%char -> like p s -> like (String c p) (String c s).

(** ** Regular expressions *)

(** The constructs used between [^] and [$]: a character (escaped when it is special),
    [.] and [.*]. *)
Inductive item := RLit (c : ascii) | RAny | RStar.

Definition render_item (x : item) : string :=
  match x with
  | RLit c => if metachar c then String "\" (String c "") else String c ""
  | RAny => "."
  | RStar => ".*"
  end.

Fixpoint render (l : list item) : string :=
  match l with [] => "" | x :: l => render_item x +:+ render l end.

Fixpoint imatch (l : list item) (s : string) {struct l} : bool :=
  match l with
  | [] => bool_decide (s = "")
  | RLit c :: l => match s with String c' s' => bool_decide (c = c') && imatch l s' | EmptyString => false end
  | RAny :: l => match s with String _ s' => imatch l s' | EmptyString => false end
  | RStar :: l =>
      (fix star (s : string) : bool :=
         imatch l s || match s with String _ s' => star s' | EmptyString => false end) s
  end.

(** Text of ASCII without NUL and without a newline, which [.] does not match and before
    which [$] does. *)
Definition text_char (c : ascii) : bool :=
  let n := nat_of_ascii c in (0 <? n)%nat && (n <? 128)%nat && negb (n =? 10)%nat.

Fixpoint plain_text (s : string) : bool :=
  match s with EmptyString => true | String c s => text_char c && plain_text s end.

Definition item_text (x : item) : bool := match x with RLit c => text_char c | _ => true end.

Class Regex := {
  regex_match : string -> string -> Prop;
  regex_items l s :
    forallb item_text l = true -> plain_text s = true ->
    regex_match ("^" +:+ render l +:+ "$") s <-> imatch l s = true
}.

(** ** The translation *)

Fixpoint like_items (p : string) : list item :=
  match p with
  | EmptyString => []
  | String c p => (if decide (c = "%"%char) then RStar else if decide (c = "_"%char) then RAny else RLit c) :: like_items p
  end.

Lemma ReplaceByte_app old new s t : ReplaceByte old new (s +:+ t) = ReplaceByte old new s +:+ ReplaceByte old new t.
Proof.
  induction s as [| c s IH]; [done |]. rewrite app_String. cbn [ReplaceByte]. case_decide; rewrite IH; [by rewrite string_app_assoc |].
  by rewrite app_String.
Qed.

Lemma quoted_items p : ReplaceByte "_" "." (ReplaceByte "%" ".*" (QuoteMeta p)) = render (like_items p).
Proof.
  induction p as [| c p IH]; [done |]. cbn [QuoteMeta like_items render].
  destruct (metachar c) eqn:Em.
  - assert (Hp : c <> "%"%char) by (intros ->; by vm_compute in Em).
    assert (Hu : c <> "_"%char) by (intros ->; by vm_compute in Em).
    rewrite (decide_False (P := c = "%"%char)), (decide_False (P := c = "_"%char)) by done. cbn [render_item].
    rewrite Em, app_String, app_String, app_Empty, <- IH.
    by repeat (cbn [ReplaceByte]; rewrite decide_False by done).
  - cbn [ReplaceByte]. destruct (decide (c = "%"%char)) as [-> | Hp]; [by rewrite ReplaceByte_app, IH |].
    cbn [ReplaceByte]. destruct (decide (c = "_"%char)) as [-> | Hu]; [by rewrite IH |].
    cbn [render_item]. by rewrite Em, app_String, app_Empty, IH.
Qed.

Lemma likeToRegex_items p : likeToRegex p = "^" +:+ render (like_items p) +:+ "$".
Proof. unfold likeToRegex. by rewrite quoted_items. Qed.

Lemma like_items_text p : plain_text p = true -> forallb item_text (like_items p) = true.
Proof.
  induction p as [| c p IH]; [done |]. cbn. intros [Hc Hp]%andb_prop. rewrite IH by done. by repeat case_decide; cbn; rewrite ?Hc.
Qed.

(** [.*] takes any prefix. *)
Lemma imatch_star l s : imatch (RStar :: l) s = true <-> exists u t, s = u +:+ t /\ imatch l t = true.
Proof.
  induction s as [| c s IH]; cbn [imatch]; rewrite orb_true_iff.
  - split; [intros [E | E]; [by exists "", "" | done] |]. intros (u & t & E & Ht). destruct u; [rewrite app_Empty in E; subst; by left | done].
  - split.
    + intros [E | E]; [by exists "", (String c s) |]. apply IH in E as (u & t & -> & Ht). by exists (String c u), t.
    + intros (u & t & E & Ht). destruct u as [| c' u]; [rewrite app_Empty in E; subst; by left |]. right. apply IH. exists u, t. rewrite app_String in E. by simplify_eq.
Qed.

Lemma imatch_like p : forall s, imatch (like_items p) s = true <-> like p s.
Proof.
  induction p as [| c p IH]; intros s; cbn [like_items].
  - cbn. rewrite bool_decide_eq_true. split; [intros ->; constructor | by inversion 1].
  - destruct (decide (c = "%"%char)) as [-> | Hp]; [| destruct (decide (c = "_"%char)) as [-> | Hu]].
    + rewrite imatch_star. split.
      * intros (u & t & -> & Ht). constructor. by apply IH.
      * intros HL. inversion HL; subst; [| done]. eexists _, _. split; [done |]. by apply IH.
    + split; [destruct s as [| c s]; [done |]; intros E; constructor; by apply IH |].
      intros HL. inversion HL; subst; [| done]. cbn. by apply IH.
    + split.
      * destruct s as [| c' s]; [done |]. cbn. intros [->%bool_decide_eq_true E]%andb_prop. constructor; auto. by apply IH.
      * intros HL. inversion HL; subst; try done. cbn. rewrite bool_decide_true by done. by apply IH.
Qed.

(** the regular expression of a LIKE pattern, under the documented meaning of the
    constructs it uses, matches exactly the strings that the pattern describes: [%] any
    sequence, [_] one character, every other character itself, whatever it means in a
    regular expression. *)
Theorem like_exact `{Regex} p s :
  plain_text p = true -> plain_text s = true -> regex_match (likeToRegex p) s <-> like p s.
Proof.
  intros Hp Hs. rewrite likeToRegex_items, regex_items by auto using like_items_text. apply imatch_like.
Qed.

(** ** An engine for these expressions *)

Fixpoint parse_items (s : string) : list item :=
  match s with
  | String c s' =>
      if decide (c = "\"%char) then match s' with String c' s'' => RLit c' :: parse_items s'' | EmptyString => [] end
      else if decide (c = "."%char) then
        match s' with
        | String c' s'' => if decide (c' = "*"%char) then RStar :: parse_items s'' else RAny :: parse_items s'
        | EmptyString => [RAny]
        end
      else RLit c :: parse_items s'
  | EmptyString => []
  end.

Lemma render_head c l s : render l +:+ "$" = String c s -> c <> "*"%char.
Proof.
  destruct l as [| [d | |] l]; cbn [render render_item]; [by intros [= <- _] | | |].
  - destruct (metachar d) eqn:E; cbn; intros [= <- _]; [done |]. intros ->. by vm_compute in E.
  - by intros [= <- _].
  - by intros [= <- _].
Qed.

Lemma parse_render l : parse_items (render l +:+ "$") = l ++ [RLit "$"].
Proof.
  induction l as [| x l IH]; [done |]. cbn [render]. rewrite string_app_assoc. destruct x as [c | |]; cbn [render_item].
  - destruct (metachar c) eqn:E; [by rewrite !app_String, app_Empty; cbn [parse_items]; rewrite IH |].
    rewrite app_String, app_Empty. cbn [parse_items].
    rewrite decide_False, decide_False by (intros ->; by vm_compute in E). by rewrite IH.
  - rewrite app_String, app_Empty. cbn [parse_items]. rewrite decide_False, decide_True by done.
    destruct (render l +:+ "$") as [| c s] eqn:Es; [by destruct l as [| [? | |] ?] |].
    rewrite decide_False by (by eapply render_head). by rewrite IH.
  - rewrite !app_String, app_Empty. cbn [parse_items]. rewrite decide_False, decide_True, decide_True by done. by rewrite IH.
Qed.

(** The items between [^] and [$], matched against the whole string. *)
Definition small_match (p s : string) : Prop :=
  match p with String _ p => imatch (removelast (parse_items p)) s = true | EmptyString => False end.

Lemma small_items l s :
  forallb item_text l = true -> plain_text s = true ->
  small_match ("^" +:+ render l +:+ "$") s <-> imatch l s = true.
Proof. intros _ _. rewrite app_String, app_Empty. unfold small_match. by rewrite parse_render, removelast_last. Qed.

Definition small_engine : Regex := {| regex_match := small_match; regex_items := small_items |}.

Lemma like_exact_witness :
  small_match (likeToRegex "a.%_z") "a.bcz" <-> like "a.%_z" "a.bcz".
Proof. exact (like_exact (H := small_engine) "a.%_z" "a.bcz" eq_refl eq_refl). Defined.

(** A dot of the pattern is a dot. *)
Example like_dot : likeToRegex "a.%" = "^a\..*$" /\ ~ small_match (likeToRegex "a.%") "abc".
Proof. split; [by vm_compute | by vm_compute]. Qed.
