(* ===== verification/OrmGroup.v ===== *)
(** * Grouped queries

    The rules of [buildGroupPipeline] in [libs/yukino_orm/query_group.go], and the columns
    of the result. *)
From S2P Require Import Prelude GoStrings OrmQuery OrmProof.

(** The columns of the result: the flattened keys, then the aliases. *)
Definition keys_of (q : Query) : list string := map groupKeyName (q_groupFields q).
Definition aliases_of (q : Query) : list string := map a_alias (q_aggSpecs q).
Definition columns (q : Query) : list string := keys_of q ++ aliases_of q.

(** The rules a grouped query must obey. *)
Record group_rules (q : Query) : Prop := {
  gr_keys : q_groupFields q <> [];
  gr_select : q_fields q = [];
  gr_distinct : NoDup (columns q);
  gr_having : Forall (fun c => c_field c ∈ columns q) (q_havingConds q);
  gr_sort : Forall (fun e => e.1 ∈ columns q) (q_sort q)
}.

(** ** The checks *)

Lemma check_keys_spec fields : forall seen,
  match check_keys fields seen with
  | Ok s => NoDup (map groupKeyName fields) /\ (forall f, f ∈ map groupKeyName fields -> f ∉ seen) /\
            s = list_to_set (map groupKeyName fields) ∪ seen
  | Err _ => ~ (NoDup (map groupKeyName fields) /\ forall f, f ∈ map groupKeyName fields -> f ∉ seen)
  end.
Proof.
  induction fields as [| f fields IH]; intros seen; cbn [check_keys map].
  - split; [constructor |]. split; set_solver.
  - case_decide as Hin; [intros [_ H]; by apply (H (groupKeyName f)); [left |] |].
    specialize (IH ({[ groupKeyName f ]} ∪ seen)). destruct (check_keys _ _); rewrite NoDup_cons; [| set_solver].
    destruct IH as (H1 & H2 & ->). repeat split; set_solver.
Qed.

Lemma check_aliases_spec specs keys : forall cols, keys ⊆ cols ->
  match check_aliases specs keys cols with
  | Ok s => NoDup (map a_alias specs) /\ (forall f, f ∈ map a_alias specs -> f ∉ cols) /\
            s = list_to_set (map a_alias specs) ∪ cols
  | Err _ => ~ (NoDup (map a_alias specs) /\ forall f, f ∈ map a_alias specs -> f ∉ cols)
  end.
Proof.
  induction specs as [| x specs IH]; intros cols HK; cbn [check_aliases map].
  - split; [constructor |]. split; set_solver.
  - case_decide as Hk; [intros [_ H]; apply (H (a_alias x)); [left | set_solver] |].
    case_decide as Hin; [intros [_ H]; by apply (H (a_alias x)); [left |] |].
    specialize (IH ({[ a_alias x ]} ∪ cols) ltac:(set_solver)). destruct (check_aliases _ _ _); rewrite NoDup_cons; [| set_solver].
    destruct IH as (H1 & H2 & ->). repeat split; set_solver.
Qed.

Lemma unknown_column {A} (f : A -> string) (cols : gset string) l :
  existsb (fun x => bool_decide (f x ∉ cols)) l = false <-> Forall (fun x => f x ∈ cols) l.
Proof.
  induction l as [| x l IH]; cbn [existsb]; [rewrite Forall_nil; done |].
  rewrite orb_false_iff, IH, Forall_cons, bool_decide_eq_false. split; intros [H1 H2]; (split; [| done]).
  - by apply dec_stable.
  - auto.
Qed.

(** The stages, once the rules hold. *)
Definition pipeline_of (q : Query) (f : whole) (having : bsonM) : list stage :=
  (if whole_empty f then [] else [SMatch f]) ++
  [SGroup (id_of (q_groupFields q))
     (foldl (fun m spec => <[a_alias spec := acc_of spec]> m) ∅ (q_aggSpecs q));
   SProject (project_cols q)] ++
  (if decide (having = ∅) then [] else [SHaving having]) ++
  (match q_sort q with [] => [] | s => [SSort s] end) ++
  (if 0 <? q_skip q then [SSkip (q_skip q)] else []) ++
  (if 0 <? q_limit q then [SLimit (q_limit q)] else []).

Lemma pipeline_cases q f having :
  buildFilter q = Ret f -> buildConditionFilter (q_havingConds q) = Ret having ->
  (group_rules q /\ buildGroupPipeline q = Ret (Ok (pipeline_of q f having))) \/
  (~ group_rules q /\ exists e, buildGroupPipeline q = Ret (Err e)).
Proof.
  intros Ef Eh. unfold buildGroupPipeline. rewrite Ef, Eh.
  destruct (q_groupFields q) as [| g gs] eqn:Eg; [right; split; [by intros [] | by eexists] |].
  destruct (q_fields q) as [| x xs] eqn:Ex; [| right; split; [intros []; congruence | by eexists]].
  rewrite <- Eg. pose proof (check_keys_spec (q_groupFields q) ∅) as HK. fold (keys_of q) in HK.
  destruct (check_keys _ _) as [keys | e];
    [| right; split; [intros []; apply HK; unfold columns in *; rewrite NoDup_app in *; set_solver | by eexists]].
  destruct HK as (HKn & _ & ->). pose proof (check_aliases_spec (q_aggSpecs q) (list_to_set (keys_of q) ∪ ∅) (list_to_set (keys_of q) ∪ ∅) ltac:(done)) as HA.
  fold (aliases_of q) in HA.
  destruct (check_aliases _ _ _) as [cols | e];
    [| right; split; [intros []; apply HA; unfold columns in *; rewrite NoDup_app in *; set_solver | by eexists]].
  destruct HA as (HAn & HAd & ->).
  assert (Hcols : forall c, c ∈ list_to_set (C := gset string) (aliases_of q) ∪ (list_to_set (keys_of q) ∪ ∅) <-> c ∈ columns q)
    by (intros c; unfold columns; set_solver).
  destruct (existsb _ (q_havingConds q)) eqn:Eh'.
  { right. split; [| by eexists]. intros []. apply not_false_iff_true in Eh'. apply Eh'. apply unknown_column.
    eapply Forall_impl; [done |]. intros c Hc. by apply Hcols. }
  destruct (existsb _ (q_sort q)) eqn:Es.
  { right. split; [| by eexists]. intros []. apply not_false_iff_true in Es. apply Es. apply unknown_column.
    eapply Forall_impl; [done |]. intros c Hc. by apply Hcols. }
  left. split; [| done]. apply unknown_column in Eh'. apply unknown_column in Es. split; try done.
  - congruence.
  - unfold columns. apply NoDup_app. split; [done |]. split; [set_solver | done].
  - eapply Forall_impl; [done |]. intros c Hc. by apply Hcols.
  - eapply Forall_impl; [done |]. intros c Hc. by apply Hcols.
Qed.

(** ** The columns *)

Lemma foldl_insert_other {A V} (k : A -> string) (v : A -> V) l i : forall m : gmap string V,
  i ∉ map k l -> foldl (fun m x => <[k x := v x]> m) m l !! i = m !! i.
Proof.
  induction l as [| x l IH]; intros m Hi; cbn [foldl map] in *; [done |].
  rewrite IH by set_solver. rewrite lookup_insert_ne; [done | set_solver].
Qed.

Lemma foldl_insert_lookup {A V} (k : A -> string) (v : A -> V) l x : forall m : gmap string V,
  NoDup (map k l) -> x ∈ l -> foldl (fun m x => <[k x := v x]> m) m l !! k x = Some (v x).
Proof.
  induction l as [| y l IH]; intros m HN Hx; [by apply not_elem_of_nil in Hx |].
  cbn [foldl map] in *. apply NoDup_cons in HN as [Hy HN]. apply elem_of_cons in Hx as [-> | Hx].
  - rewrite foldl_insert_other by done. apply lookup_insert_eq.
  - by apply IH.
Qed.

(** What the server finds at a path into the [_id] of a group: the path that the group
    key was computed from.  A name below [_id] is one without a dot. *)
Definition read_id (id : group_id) (path : string) : option string :=
  match id with
  | IdNil => None
  | IdPath p => if decide (path = "$_id") then Some p else None
  | IdDoc m => if String.prefix "$_id." path && negb (Contains (String.substring 5 (String.length path) path) ".")
               then m !! String.substring 5 (String.length path) path else None
  end.

Lemma substring_all s : forall n, (String.length s <= n)%nat -> String.substring 0 n s = s.
Proof. induction s as [| c s IH]; intros n Hn; [by destruct n |]. destruct n as [| n]; [cbn in Hn; lia |]. cbn [String.substring]. rewrite IH; [done | cbn in Hn; lia]. Qed.

Lemma flattened f : Contains (groupKeyName f) "." = false.
Proof.
  unfold groupKeyName. induction f as [| c f IH]; [done |]. cbn [ReplaceByte]. case_decide as Hc.
  - cbn. exact IH.
  - cbn [Contains String.prefix]. destruct (Ascii.ascii_dec _ c) as [<- | _]; [done | exact IH].
Qed.

Lemma read_doc m k : Contains k "." = false -> read_id (IdDoc m) ("$_id." +:+ k) = m !! k.
Proof.
  intros Hk. unfold read_id.
  assert (E : String.substring 5 (String.length ("$_id." +:+ k)) ("$_id." +:+ k) = k) by (cbn; apply substring_all; do 5 apply le_S; done).
  assert (Ep : String.prefix "$_id." ("$_id." +:+ k) = true) by (by destruct k). by rewrite E, Ep, Hk.
Qed.

(** The column of a key reads what the documents were grouped by. *)
Lemma project_key q f :
  NoDup (columns q) -> f ∈ q_groupFields q ->
  exists path, project_cols q !! groupKeyName f = Some (inr path) /\ read_id (id_of (q_groupFields q)) path = Some ("$" +:+ f).
Proof.
  unfold columns. intros (HK & Hd & HA)%NoDup_app Hf. unfold project_cols.
  rewrite foldl_insert_other by (apply Hd, list_elem_of_fmap; eauto).
  unfold keys_of in HK. destruct (q_groupFields q) as [| g [| g' gs]]; [by apply not_elem_of_nil in Hf | |].
  - apply list_elem_of_singleton in Hf as ->. exists "$_id". split; [apply lookup_insert_eq | done].
  - exists ("$_id." +:+ groupKeyName f). split; [by apply (foldl_insert_lookup groupKeyName (fun f => inr ("$_id." +:+ groupKeyName f))) |].
    unfold id_of. rewrite read_doc by apply flattened. by apply (foldl_insert_lookup groupKeyName (fun f => "$" +:+ f)).
Qed.

(** There are no other columns, and [_id] is dropped unless it is the name of a key. *)
Lemma project_others q c : c ∉ columns q -> project_cols q !! c = if decide (c = "_id") then Some (inl 0) else None.
Proof.
  unfold columns. intros [Hk Ha]%not_elem_of_app. unfold project_cols. rewrite foldl_insert_other by done.
  assert (HE : forall m : gmap string (Z + string), m = {[ "_id" := inl 0 ]} -> m !! c = if decide (c = "_id") then Some (inl 0) else None).
  { intros m ->. case_decide as E; [subst c; apply lookup_singleton_eq | by apply lookup_singleton_ne]. }
  unfold keys_of in Hk. destruct (q_groupFields q) as [| g [| g' gs]]; [by apply HE | |].
  - rewrite lookup_insert_ne; [by apply HE | cbn in Hk; set_solver].
  - rewrite (foldl_insert_other groupKeyName (fun f => inr ("$_id." +:+ groupKeyName f))) by done. by apply HE.
Qed.

Lemma project_alias q x : NoDup (columns q) -> x ∈ q_aggSpecs q -> project_cols q !! a_alias x = Some (inl 1).
Proof.
  unfold columns. intros (_ & _ & HA)%NoDup_app Hx. unfold project_cols.
  by apply (foldl_insert_lookup a_alias (fun _ => inl 1)).
Qed.

(** No alias is [_id]: the builder refuses it. *)
Lemma built_aliases q : built q -> "_id" ∉ aliases_of q.
Proof.
  assert (HG : forall fs cs specs q, "_id" ∉ aliases_of q -> "_id" ∉ map a_alias specs -> "_id" ∉ aliases_of (add_group fs cs specs q))
    by (intros fs cs specs q' H1 H2; unfold aliases_of; cbn; rewrite map_app; set_solver).
  induction 1; try done; try (cbn; set_solver);
    unfold Where, OrWhere, Having, CountAs, SumAs, AvgAs, MinAs, MaxAs, addFieldAggSpec, addAggSpec, GroupBy;
    repeat (case_match || case_decide); try done; apply HG; cbn; set_solver.
Qed.

(** What stands before the grouping, and after it. *)
Definition before_group (f : whole) : list stage := if whole_empty f then [] else [SMatch f].

Definition after_group (q : Query) (having : bsonM) : list stage :=
  (if decide (having = ∅) then [] else [SHaving having]) ++ (match q_sort q with [] => [] | s => [SSort s] end) ++
  (if 0 <? q_skip q then [SSkip (q_skip q)] else []) ++ (if 0 <? q_limit q then [SLimit (q_limit q)] else []).

(** C37: [Aggregate] sends a pipeline exactly when no method of the builder has recorded an
    error, the query has a collection and the documented rules hold (there is a group key,
    no [Select], the flattened keys and the aliases all differ, and [Having] and [OrderBy]
    name such columns); otherwise it returns an error, the recorded one first.  The pipeline
    filters, groups, renames, and then applies [Having], [OrderBy], [Offset] and [Limit].
    Its columns are exactly the keys and the aliases: the path of each key's column leads to
    what the documents are grouped by for that key, be there one key or several, and each
    alias is an accumulator of the group, that of its aggregate. *)
Theorem group_pipeline_exact q :
  built q ->
  (preflightBase q = None /\ group_rules q /\ exists f having id accs cols,
     buildFilter q = Ret f /\ buildConditionFilter (q_havingConds q) = Ret having /\
     Aggregate q = Ret (Ok (before_group f ++ [SGroup id accs; SProject cols] ++ after_group q having)) /\ accs !! "_id" = None /\
     (forall k, k ∈ q_groupFields q -> exists path, cols !! groupKeyName k = Some (inr path) /\ read_id id path = Some ("$" +:+ k)) /\
     (forall x, x ∈ q_aggSpecs q -> cols !! a_alias x = Some (inl 1) /\ accs !! a_alias x = Some (acc_of x)) /\
     (forall c, c ∉ columns q -> cols !! c = if decide (c = "_id") then Some (inl 0) else None)) \/
  (~ (preflightBase q = None /\ group_rules q) /\
   exists e, Aggregate q = Ret (Err e) /\ forall e', preflightBase q = Some e' -> e = e').
Proof.
  intros HB. pose proof (built_typed q HB) as HT. destruct (buildFilter_returns q HT) as [w Ew].
  destruct HT as (_ & _ & H3). destruct (buildConditionFilter_returns _ H3) as [m Em]. unfold Aggregate.
  destruct (preflightBase q) as [e |] eqn:Ep; [right; split; [by intros [? _] |]; exists e; split; [done |]; by intros e' [= <-] |].
  destruct (pipeline_cases q w m Ew Em) as [[HR E] | [HR (e & E)]]; [left | right; split; [by intros [_ ?] |]; by exists e].
  split; [done |]. split; [done |]. exists w, m, (id_of (q_groupFields q)), (foldl (fun m spec => <[a_alias spec := acc_of spec]> m) ∅ (q_aggSpecs q)), (project_cols q).
  destruct HR as [_ _ HN _ _]. split_and!; [done | done | exact E | | by intros; apply project_key | | intros c; apply project_others].
  - rewrite (foldl_insert_other a_alias acc_of); [done | by apply built_aliases].
  - intros x Hx. split; [by apply project_alias |]. apply (foldl_insert_lookup a_alias acc_of); [| done].
    unfold columns in HN. by apply NoDup_app in HN as (_ & _ & HA).
Qed.

(** * The query builder on concrete queries

    A small server for the interface of [OrmProof], and the theorems applied. *)

(** ** A server on documents of numbers *)

Definition doc := gmap string Z.

Definition doc_value (d : doc) (f : string) (v : any) : Prop :=
  match v with
  | AInt n => d !! f = Some n
  | ABool b => d !! f = Some (if b then 1 else 0)
  | ANil => d !! f = None
  | _ => False
  end.

Definition doc_compare (d : doc) (f : string) (v : any) (R : Z -> Z -> Prop) : Prop :=
  match v with AInt n => exists x, d !! f = Some x /\ R x n | _ => False end.

Definition doc_op (d : doc) (f op : string) (v : any) : Prop :=
  if decide (op = "$eq") then doc_value d f v
  else if decide (op = "$ne") then ~ doc_value d f v
  else if decide (op = "$gt") then doc_compare d f v Z.gt
  else if decide (op = "$gte") then doc_compare d f v Z.ge
  else if decide (op = "$lt") then doc_compare d f v Z.lt
  else if decide (op = "$lte") then doc_compare d f v Z.le
  else False.

Definition doc_ops (d : doc) (f : string) (m : gmap string any) : Prop := map_Forall (doc_op d f) m.

#[refine] Instance doc_server : Mongo doc := {| field_value := doc_value; field_ops := doc_ops |}.
Proof.
  - intros d f m _ _ _. unfold doc_ops. split; intros HF k v E; specialize (HF k v E); by apply map_Forall_singleton.
  - intros d f v _ _. unfold doc_ops. by rewrite map_Forall_singleton.
Defined.

(** ** Two ranges on one field, or another field *)

Definition sample : Query :=
  OrWhere [AStr "vip"; ABool true] (Where [AStr "age"; AStr "<"; AInt 60]
    (Where [AStr "age"; AStr "between"; AArray [AInt 18; AInt 65]] (NewQuery true "users"))).

Lemma sample_built : built sample.
Proof. apply b_orWhere, b_where, b_where, b_new. Qed.

Lemma sample_plain : Forall plain (q_conditions sample) /\ Forall (Forall plain) (q_orGroups sample).
Proof. split; repeat constructor; done. Qed.

Lemma filter_exact_witness :
  exists w, buildFilter sample = Ret w /\ forall d : doc, whole_matches d w <-> query_holds d sample.
Proof. exact (filter_exact sample sample_built (proj1 sample_plain) (proj2 sample_plain)). Defined.

Example sample_filter :
  buildFilter sample =
  Ret (OrOf [{[ "age" := FOps {[ "$gte" := AInt 18; "$lte" := AInt 65; "$lt" := AInt 60 ]} ]}; {[ "vip" := FVal (ABool true) ]}]).
Proof. by vm_compute. Qed.

Lemma built_never_panics_witness : returns (Find sample).
Proof. apply (built_never_panics sample sample_built). Defined.

(** A second equality on the field goes under [$and]. *)
Example twice_equal :
  buildConditionFilter [mkCond "age" "=" (AInt 18); mkCond "age" "$gt" (AInt 10)] =
  Ret {[ "age" := FVal (AInt 18); "$and" := FAnd [COp "age" "$gt" (AInt 10)] ]}.
Proof. by vm_compute. Qed.

(** A condition under [$and] of the program's own is lost when the builder needs the
    entry: the filter is the same without it. *)
Example and_overwritten v :
  buildConditionFilter [mkCond "$and" "=" v; mkCond "age" "=" (AInt 18); mkCond "age" "$gt" (AInt 10)] =
  buildConditionFilter [mkCond "age" "=" (AInt 18); mkCond "age" "$gt" (AInt 10)].
Proof. by vm_compute. Qed.

(** An operator document as the value of an equality is read as operators when it comes
    first, and compared when it comes after another operator. *)
Example operator_document v :
  buildConditionFilter [mkCond "age" "=" (AMap [("$gt", v)])] = Ret {[ "age" := FVal (AMap [("$gt", v)]) ]} /\
  buildConditionFilter [mkCond "age" "$lt" (AInt 60); mkCond "age" "=" (AMap [("$gt", v)])] =
  Ret {[ "age" := FOps {[ "$lt" := AInt 60; "$eq" := AMap [("$gt", v)] ]} ]}.
Proof. by vm_compute. Qed.

(** ** Grouping *)

Definition grouped : Query :=
  OrderBy "total" ["DESC"] (Having [AStr "total"; AStr ">"; AInt 10]
    (SumAs "amount" "total" (CountAs "n" (GroupBy ["user.city"; "kind"] (NewQuery true "orders"))))).

Lemma grouped_built : built grouped.
Proof. apply b_orderBy, b_having, b_sumAs, b_countAs, b_groupBy, b_new. Qed.

Example grouped_pipeline :
  Aggregate grouped =
  Ret (Ok [SGroup (IdDoc {[ "user_city" := "$user.city"; "kind" := "$kind" ]}) {[ "n" := CountOne; "total" := Acc "$sum" "amount" ]};
           SProject {[ "_id" := inl 0; "user_city" := inr "$_id.user_city"; "kind" := inr "$_id.kind"; "n" := inl 1; "total" := inl 1 ]};
           SHaving {[ "total" := FOps {[ "$gt" := AInt 10 ]} ]};
           SSort [("total", -1)]]).
Proof. by vm_compute. Qed.

(** One key is the [_id] itself. *)
Example one_key :
  Aggregate (CountAs "n" (GroupBy ["user.city"] (NewQuery true "orders"))) =
  Ret (Ok [SGroup (IdPath "$user.city") {[ "n" := CountOne ]}; SProject {[ "_id" := inl 0; "user_city" := inr "$_id"; "n" := inl 1 ]}]).
Proof. by vm_compute. Qed.

(** An error of the builder comes first: the rules hold, but an alias was refused. *)
Example refused_alias :
  Aggregate (CountAs "_id" grouped) = Ret (Err "aggregate: alias _id is reserved").
Proof. by vm_compute. Qed.

Lemma group_pipeline_exact_witness :
  exists f having id accs cols path,
    Aggregate grouped = Ret (Ok (before_group f ++ [SGroup id accs; SProject cols] ++ after_group grouped having)) /\
    cols !! "user_city" = Some (inr path) /\ read_id id path = Some "$user.city".
Proof.
  destruct (group_pipeline_exact grouped grouped_built)
    as [(_ & _ & f & having & id & accs & cols & _ & _ & E & _ & H3 & _) | (_ & e & E & _)]; [| by vm_compute in E].
  destruct (H3 "user.city" ltac:(left)) as (path & Ec & Er). exists f, having, id, accs, cols, path. by split_and!.
Defined.
