(* ===== verification/GoBytes.v ===== *)
(** * Bytes

    Numbers in big-endian order ([encoding/binary]), [sha1.Sum] and
    [base64.StdEncoding]. *)
From Stdlib Require Import Ascii.
From S2P Require Import Prelude GoSort.

(** ** Big endian *)

(** [binary.BigEndian.Uint16] and [Uint64], on slices of that length. *)
Definition be_value (b : bytes) : Z := foldl (fun x c => Z.lor (Z.shiftl x 8) c) 0 b.

(** [binary.BigEndian.PutUint16] and [PutUint64]: [n] bytes. *)
Fixpoint be_bytes (n : nat) (x : Z) : bytes :=
  match n with
  | O => []
  | S n => Z.land (Z.shiftr x (8 * Z.of_nat n)) 255 :: be_bytes n x
  end.

Definition is_byte (c : Z) : Prop := 0 <= c < 256.

#[export] Instance is_byte_dec c : Decision (is_byte c).
Proof. unfold is_byte. apply _. Defined.

Lemma shift_or x c : 0 <= c < 256 -> Z.lor (Z.shiftl x 8) c = 256 * x + c.
Proof.
  intros Hc. rewrite Z.shiftl_mul_pow2 by lia. rewrite Z.lor_comm, (Z.mul_comm x).
  change (2 ^ 8) with 256.
  rewrite <- Z.lxor_lor, <- Z.add_nocarry_lxor; [lia | |].
  all: apply Z.bits_inj'; intros n Hn; rewrite Z.land_spec, Z.bits_0, (Z.mul_comm 256); change 256 with (2 ^ 8).
  all: rewrite Z.mul_pow2_bits by lia; destruct (decide (n < 8)); [rewrite (Z.testbit_neg_r x) by lia; by rewrite andb_false_r |].
  all: rewrite Z.bits_above_log2; [done | lia |]; destruct (decide (c = 0)) as [-> | ]; [cbn; lia |].
  all: apply Z.log2_lt_pow2; [lia |]; apply Z.lt_le_trans with (2 ^ 8); [cbn; lia | apply Z.pow_le_mono_r; lia].
Qed.

Lemma be_value_snoc b c : is_byte c -> be_value (b ++ [c]) = 256 * be_value b + c.
Proof. intros Hc. unfold be_value. rewrite foldl_snoc. by apply shift_or. Qed.

Lemma be_bytes_length n x : length (be_bytes n x) = n.
Proof. induction n as [| n IH]; cbn; [done | by rewrite IH]. Qed.

Lemma land_255 x : Z.land x 255 = x mod 256.
Proof. change 255 with (Z.ones 8). by rewrite Z.land_ones. Qed.

Lemma be_bytes_snoc n x : be_bytes (S n) x = be_bytes n (x / 256) ++ [x mod 256].
Proof.
  induction n as [| n IH]; [cbn; by rewrite Z.shiftr_0_r, land_255 |].
  change (be_bytes (S (S n)) x) with (Z.land (Z.shiftr x (8 * Z.of_nat (S n))) 255 :: be_bytes (S n) x). rewrite IH.
  cbn [be_bytes]. rewrite <- app_comm_cons. f_equal. f_equal.
  rewrite !Z.shiftr_div_pow2 by lia. change 256 with (2 ^ 8). rewrite Z.div_div by lia. f_equal.
  rewrite <- Z.pow_add_r by lia. f_equal. lia.
Qed.

Lemma be_bytes_bytes n x : Forall is_byte (be_bytes n x).
Proof. induction n; cbn; constructor; [| done]. rewrite land_255. unfold is_byte. apply Z.mod_pos_bound. lia. Qed.

Lemma be_value_bytes n : forall x, 0 <= x < 256 ^ Z.of_nat n -> be_value (be_bytes n x) = x.
Proof.
  induction n as [| n IH]; intros x Hx; [change (256 ^ Z.of_nat 0) with 1 in Hx; cbn; lia |].
  rewrite be_bytes_snoc, be_value_snoc by (apply Z.mod_pos_bound; lia).
  rewrite IH; [pose proof (Z.div_mod x 256); lia |].
  replace (Z.of_nat (S n)) with (Z.of_nat n + 1) in Hx by lia. rewrite Z.pow_add_r in Hx by lia.
  split; [apply Z.div_pos; lia | apply Z.div_lt_upper_bound; lia].
Qed.

Lemma be_value_bounds b : Forall is_byte b -> 0 <= be_value b < 256 ^ zlen b.
Proof.
  induction b as [| c b IH] using rev_ind; [by vm_compute |]. rewrite Forall_app, Forall_singleton. intros [Hb Hc].
  rewrite be_value_snoc, zlen_app by done. specialize (IH Hb). rewrite Z.pow_add_r by (zlen_pos; lia).
  unfold is_byte in Hc. change (256 ^ zlen [c]) with 256. lia.
Qed.

Lemma be_bytes_value b : Forall is_byte b -> be_bytes (length b) (be_value b) = b.
Proof.
  induction b as [| c b IH] using rev_ind; [done |]. rewrite Forall_app, Forall_singleton. intros [Hb Hc].
  rewrite length_app, Nat.add_1_r, be_bytes_snoc, be_value_snoc by done. unfold is_byte in Hc.
  replace ((256 * be_value b + c) / 256) with (be_value b) by (rewrite Z.mul_comm, Z.div_add_l, Z.div_small; lia).
  replace ((256 * be_value b + c) mod 256) with c
    by (rewrite Z.mul_comm, Z.add_comm, Z.mod_add, Z.mod_small; lia).
  by rewrite IH.
Qed.

(** ** [crypto/sha1] *)

Definition rotl (k x : Z) : Z := Z.lor (u32 (Z.shiftl x k)) (Z.shiftr x (32 - k)).

(** The message, a one bit, zeros, and the length in bits: whole blocks of 64 bytes. *)
Definition sha1_pad (m : bytes) : bytes :=
  m ++ 128 :: replicate (Z.to_nat ((55 - zlen m) mod 64)) 0 ++ be_bytes 8 (8 * zlen m).

(** The sixteen words of a block, the last first. *)
Fixpoint block_words (n : nat) (b : bytes) (acc : list Z) : list Z :=
  match n with
  | O => acc
  | S n => block_words n (drop 4 b) (be_value (take 4 b) :: acc)
  end.

(** The schedule of eighty words; [w] holds those so far, the last first. *)
Fixpoint schedule (n : nat) (w : list Z) : list Z :=
  match n with
  | O => rev w
  | S n =>
      let at_ i := nth i w 0 in
      schedule n (rotl 1 (Z.lxor (Z.lxor (at_ 2%nat) (at_ 7%nat)) (Z.lxor (at_ 13%nat) (at_ 15%nat))) :: w)
  end.

Definition sha1_state : Type := Z * Z * Z * Z * Z.

Definition sha1_round (i : Z) (w : Z) (s : sha1_state) : sha1_state :=
  let '(a, b, c, d, e) := s in
  let '(f, k) :=
    if i <? 20 then (Z.lor (Z.land b c) (Z.land (Z.lxor b 4294967295) d), 1518500249)
    else if i <? 40 then (Z.lxor b (Z.lxor c d), 1859775393)
    else if i <? 60 then (Z.lor (Z.land (Z.lor b c) d) (Z.land b c), 2400959708)
    else (Z.lxor b (Z.lxor c d), 3395469782) in
  (u32 (rotl 5 a + f + e + w + k), a, rotl 30 b, c, d).

Fixpoint sha1_rounds (i : Z) (w : list Z) (s : sha1_state) : sha1_state :=
  match w with [] => s | x :: w => sha1_rounds (i + 1) w (sha1_round i x s) end.

Definition sha1_block (s : sha1_state) (b : bytes) : sha1_state :=
  let '(h0, h1, h2, h3, h4) := s in
  let '(a, b, c, d, e) := sha1_rounds 0 (schedule 64 (block_words 16 b [])) s in
  (u32 (h0 + a), u32 (h1 + b), u32 (h2 + c), u32 (h3 + d), u32 (h4 + e)).

Fixpoint sha1_blocks (n : nat) (m : bytes) (s : sha1_state) : sha1_state :=
  match n with O => s | S n => sha1_blocks n (drop 64 m) (sha1_block s (take 64 m)) end.

Definition sha1_sum (m : bytes) : bytes :=
  let p := sha1_pad m in
  let '(a, b, c, d, e) :=
    sha1_blocks (Z.to_nat (zlen p / 64)) p (1732584193, 4023233417, 2562383102, 271733878, 3285377520) in
  be_bytes 4 a ++ be_bytes 4 b ++ be_bytes 4 c ++ be_bytes 4 d ++ be_bytes 4 e.

(** FIPS 180, the message of three letters and the one of two blocks. *)
Example sha1_abc : sha1_sum (string_bytes "abc") =
  [169; 153; 62; 54; 71; 6; 129; 106; 186; 62; 37; 113; 120; 80; 194; 108; 156; 208; 216; 157].
Proof. by vm_compute. Qed.

Example sha1_two_blocks : sha1_sum (string_bytes "abcdbcdecdefdefgefghfghighijhijkijkljklmklmnlmnomnopnopq") =
  [132; 152; 62; 68; 28; 59; 210; 110; 186; 174; 74; 161; 249; 81; 41; 229; 229; 70; 112; 241].
Proof. by vm_compute. Qed.

(** ** [base64.StdEncoding] *)

Definition base64_alphabet : string := "ABCDEFGHIJKLMNOPQRSTUVWXYZabcdefghijklmnopqrstuvwxyz0123456789+/".

Definition base64_char (n : Z) : ascii := default "="%char (String.get (Z.to_nat n) base64_alphabet).

Fixpoint EncodeToString (b : bytes) : string :=
  match b with
  | [] => ""
  | [x] =>
      String (base64_char (Z.shiftr x 2)) (String (base64_char (Z.shiftl (Z.land x 3) 4)) "==")
  | [x; y] =>
      String (base64_char (Z.shiftr x 2)) (String (base64_char (Z.lor (Z.shiftl (Z.land x 3) 4) (Z.shiftr y 4)))
        (String (base64_char (Z.shiftl (Z.land y 15) 2)) "="))
  | x :: y :: z :: b =>
      String (base64_char (Z.shiftr x 2)) (String (base64_char (Z.lor (Z.shiftl (Z.land x 3) 4) (Z.shiftr y 4)))
        (String (base64_char (Z.lor (Z.shiftl (Z.land y 15) 2) (Z.shiftr z 6)))
          (String (base64_char (Z.land z 63)) (EncodeToString b))))
  end.

(** RFC 4648, section 10. *)
Example base64_foobar :
  map (fun s => EncodeToString (string_bytes s)) ["f"; "fo"; "foo"; "foob"; "fooba"; "foobar"] =
  ["Zg=="; "Zm8="; "Zm9v"; "Zm9vYg=="; "Zm9vYmE="; "Zm9vYmFy"].
Proof. by vm_compute. Qed.
