(* ===== verification/HttpResponse.v ===== *)
(** * Contexts, deferred responses and server-sent events

    [libs/yukino_http]: [context.go], [response.go], the handler of [recovery.go] and
    [sse.go].  The writer of net/http is its headers, the status once it is written, and
    the body. *)
From Stdlib Require Import Ascii.
From S2P Require Import Prelude GoStrings.

(** ** Headers *)

(** [http.CanonicalHeaderKey] of a name of letters, digits and hyphens. *)
Definition ascii_upcase (c : ascii) : ascii :=
  let n := nat_of_ascii c in if (97 <=? n)%nat && (n <=? 122)%nat then ascii_of_nat (n - 32) else c.

Fixpoint canonical (up : bool) (s : string) : string :=
  match s with
  | EmptyString => EmptyString
  | String c s => String (if up then ascii_upcase c else ascii_lower c) (canonical (bool_decide (c = "-"%char)) s)
  end.

Definition CanonicalHeaderKey (s : string) : string := canonical true s.

(** ** [context.go] *)

(** The objects of the package's own and those of the program. *)
Inductive jobj := JMessage (msg : string) | JError (msg : string) | JOther (n : nat).

Inductive body :=
  | BJson (o : jobj)
  | BString (s : string)
  | BBytes (s : string)
  | BReader (s : string)
  | BHtml (name : string) (data : jobj).

Record ResponseWriter := mkWriter { w_header : gmap string string; w_status : option Z; w_body : string }.

Definition Header_Set (k v : string) (w : ResponseWriter) : ResponseWriter :=
  mkWriter (<[CanonicalHeaderKey k := v]> (w_header w)) (w_status w) (w_body w).

(** The first call counts. *)
Definition WriteHeader (status : Z) (w : ResponseWriter) : ResponseWriter :=
  mkWriter (w_header w) (Some (default status (w_status w))) (w_body w).

Definition Write (s : string) (w : ResponseWriter) : ResponseWriter :=
  mkWriter (w_header w) (Some (default 200 (w_status w))) (w_body w +:+ s).

Record Context := mkContext {
  c_Writer : ResponseWriter;
  c_Status : Z;
  c_Body : option body;
  c_Type : string;
  c_headers : gmap string string;
  c_flushed : bool;
  c_statusSet : bool
}.

Definition newContext (w : ResponseWriter) : Context := mkContext w 404 None "" ∅ false false.

Definition with_writer (f : ResponseWriter -> ResponseWriter) (c : Context) : Context :=
  mkContext (f (c_Writer c)) (c_Status c) (c_Body c) (c_Type c) (c_headers c) (c_flushed c) (c_statusSet c).

Definition with_body (b : option body) (c : Context) : Context :=
  mkContext (c_Writer c) (c_Status c) b (c_Type c) (c_headers c) (c_flushed c) (c_statusSet c).

Definition with_type (t : string) (c : Context) : Context :=
  mkContext (c_Writer c) (c_Status c) (c_Body c) t (c_headers c) (c_flushed c) (c_statusSet c).

Definition SetStatus (status : Z) (c : Context) : Context :=
  mkContext (c_Writer c) status (c_Body c) (c_Type c) (c_headers c) (c_flushed c) true.

Definition Throw (status : Z) (msg : string) (c : Context) : Context := with_body (Some (BJson (JMessage msg))) (SetStatus status c).

Definition set_headers (hs : gmap string string) (w : ResponseWriter) : ResponseWriter :=
  foldr (fun '(k, v) w => Header_Set k v w) w (map_to_list hs).

Definition TakeOver (c : Context) : Context :=
  if c_flushed c then c
  else mkContext (set_headers (c_headers c) (c_Writer c)) (c_Status c) (c_Body c) (c_Type c) (c_headers c) true (c_statusSet c).

Definition Set_ (header value : string) (c : Context) : Context :=
  mkContext (c_Writer c) (c_Status c) (c_Body c) (c_Type c) (<[CanonicalHeaderKey header := value]> (c_headers c)) (c_flushed c) (c_statusSet c).

(** ** [response.go] *)

Definition promoteStatus (c : Context) : Context :=
  if negb (c_statusSet c) && (c_Status c =? 404)
  then mkContext (c_Writer c) 200 (c_Body c) (c_Type c) (c_headers c) (c_flushed c) (c_statusSet c) else c.

Definition JSON (o : jobj) (c : Context) : Context := promoteStatus (with_body (Some (BJson o)) (with_type "application/json" c)).

(** [String], with the formatted text. *)
Definition String_ (s : string) (c : Context) : Context := promoteStatus (with_body (Some (BString s)) (with_type "text/plain" c)).

Definition Data (s : string) (c : Context) : Context := promoteStatus (with_body (Some (BBytes s)) c).

Definition HTML (name : string) (data : jobj) (c : Context) : Context :=
  promoteStatus (with_body (Some (BHtml name data)) (with_type "text/html" c)).

Definition Redirect (url : string) (c : Context) : Context :=
  let status := if decide (c_Status c ∈ [300; 301; 302; 303; 305; 307; 308]) then c_Status c else 302 in
  let headers := <["Location" := url]> (c_headers c) in
  match c_Body c with
  | Some b => mkContext (c_Writer c) status (Some b) (c_Type c) headers (c_flushed c) true
  | None => mkContext (c_Writer c) status (Some (BString ("Redirecting to " +:+ url))) "text/plain" headers (c_flushed c) true
  end.

Definition emptyStatus (code : Z) : bool := (code =? 204) || (code =? 205) || (code =? 304).

Definition setContentType (value : string) (c : Context) : Context :=
  if decide (value = "") then c
  else if decide (default "" (w_header (c_Writer c) !! "Content-Type") = "") then with_writer (Header_Set "Content-Type" value) c else c.

Definition type_or (t : string) (c : Context) : Context := if decide (c_Type c = "") then with_type t c else c.

Definition write_response (status : Z) (s : string) (c : Context) : Context :=
  with_writer (fun w => Write s (WriteHeader status w)) c.

(** The text of an object with one field, [message]. *)
Definition quote : string := String (ascii_of_nat 34) "".
Definition json_message (msg : string) : string := "{" +:+ quote +:+ "message" +:+ quote +:+ ":" +:+ quote +:+ msg +:+ quote +:+ "}".

Section Respond.

(** [json.Marshal], and the templates if they are loaded: what a template writes. *)
Context (marshal : jobj -> option string) (templates : option (string -> jobj -> string)).

Definition respondJSON (o : jobj) (c : Context) : Context :=
  match marshal o with
  | None => write_response 500 (json_message "Internal Server Error") (with_writer (Header_Set "Content-Type" "application/json") c)
  | Some data =>
      let c := type_or "application/json" c in
      let c := setContentType (c_Type c) c in
      write_response (c_Status c) data c
  end.

Definition respondString (s : string) (c : Context) : Context :=
  let c := type_or "text/plain" c in
  let c := setContentType (c_Type c) c in
  write_response (c_Status c) s c.

Definition respondBytes (s : string) (c : Context) : Context :=
  let c := setContentType (c_Type c) c in
  write_response (c_Status c) s c.

Definition respondHTML (name : string) (data : jobj) (c : Context) : Context :=
  match templates with
  | None => write_response 500 (json_message "HTML templates are not loaded") c
  | Some t =>
      let c := setContentType "text/html" c in
      write_response (c_Status c) (t name data) c
  end.

Definition respond (c : Context) : Context :=
  if c_flushed c then c
  else
    let c := match c_Body c with Some _ => promoteStatus c | None => c end in
    let c :=
      if emptyStatus (c_Status c)
      then mkContext (c_Writer c) (c_Status c) None (c_Type c)
             (delete "Transfer-Encoding" (delete "Content-Length" (delete "Content-Type" (c_headers c)))) (c_flushed c) (c_statusSet c)
      else c in
    let c := with_writer (set_headers (c_headers c)) c in
    match c_Body c with
    | None => with_writer (WriteHeader (c_Status c)) c
    | Some (BHtml name data) => respondHTML name data c
    | Some (BBytes s) => respondBytes s c
    | Some (BString s) => respondString s c
    | Some (BReader s) => respondBytes s c
    | Some (BJson o) => respondJSON o c
    end.

End Respond.

(** [Recovery] on a panic other than [http.ErrAbortHandler]. *)
Definition Recovery_context (c : Context) : Context :=
  mkContext (c_Writer c) 500 (Some (BJson (JError "Internal Server Error"))) "" ∅ (c_flushed c) true.

(** ** What a response is *)

(** A status that was set stands; otherwise a body makes it 200. *)
Definition final_status (c : Context) : Z :=
  match c_Body c with
  | Some _ => if negb (c_statusSet c) && (c_Status c =? 404) then 200 else c_Status c
  | None => c_Status c
  end.

Section Responses.
Context (marshal : jobj -> option string) (templates : option (string -> jobj -> string)).

(** The text of a body, if it can be rendered. *)
Definition rendered (b : body) : option string :=
  match b with
  | BJson o => marshal o
  | BString s | BBytes s | BReader s => Some s
  | BHtml name data => templates ≫= fun t => Some (t name data)
  end.

Lemma set_headers_rest hs w : w_status (set_headers hs w) = w_status w /\ w_body (set_headers hs w) = w_body w.
Proof using Type. unfold set_headers. induction (map_to_list hs) as [| [k v] l IH]; [done |]. cbn. exact IH. Qed.

Lemma write_response_writer status s c : w_status (c_Writer c) = None ->
  w_status (c_Writer (write_response status s c)) = Some status /\ w_body (c_Writer (write_response status s c)) = w_body (c_Writer c) +:+ s.
Proof using Type. intros E. cbn. by rewrite E. Qed.

Lemma setContentType_rest t c :
  w_status (c_Writer (setContentType t c)) = w_status (c_Writer c) /\ w_body (c_Writer (setContentType t c)) = w_body (c_Writer c) /\
  c_Status (setContentType t c) = c_Status c.
Proof using Type. unfold setContentType. by repeat case_decide. Qed.

Lemma respond_type t s c : w_status (c_Writer c) = None ->
  let c' := setContentType t c in
  w_status (c_Writer (write_response (c_Status c') s c')) = Some (c_Status c) /\
  w_body (c_Writer (write_response (c_Status c') s c')) = w_body (c_Writer c) +:+ s.
Proof using Type.
  intros E. destruct (setContentType_rest t c) as (E1 & E2 & E3). cbv zeta.
  destruct (write_response_writer (c_Status (setContentType t c)) s (setContentType t c)) as [H1 H2]; [congruence |].
  by rewrite H1, H2, E2, E3.
Qed.

Lemma respond_body b c s : w_status (c_Writer c) = None -> rendered b = Some s ->
  let c' := match b with
            | BHtml name data => respondHTML templates name data c
            | BBytes s | BReader s => respondBytes s c
            | BString s => respondString s c
            | BJson o => respondJSON marshal o c
            end in
  w_status (c_Writer c') = Some (c_Status c) /\ w_body (c_Writer c') = w_body (c_Writer c) +:+ s.
Proof using Type.
  intros E Hr. assert (HT : forall t, c_Writer (type_or t c) = c_Writer c /\ c_Status (type_or t c) = c_Status c)
    by (intros t; unfold type_or; by case_decide).
  destruct b as [o | s' | s' | s' | name data]; cbn [rendered] in Hr; cbv zeta.
  - unfold respondJSON. rewrite Hr. destruct (HT "application/json") as [H1 H2]. rewrite <- H2, <- H1. apply respond_type. congruence.
  - simplify_eq. unfold respondString. destruct (HT "text/plain") as [H1 H2]. rewrite <- H2, <- H1. apply respond_type. congruence.
  - simplify_eq. by apply respond_type.
  - simplify_eq. by apply respond_type.
  - unfold respondHTML. destruct templates as [t |]; [| done]. cbn in Hr. simplify_eq. by apply respond_type.
Qed.

(** a deferred response is written once: its status is the one that was set, or 200
    when there is a body and 404 when there is none, and its body is the rendered body,
    or nothing for a status that has none. *)
Theorem respond_exact c s :
  c_flushed c = false -> w_status (c_Writer c) = None ->
  match c_Body c with Some b => rendered b = Some s | None => s = "" end ->
  w_status (c_Writer (respond marshal templates c)) = Some (final_status c) /\
  w_body (c_Writer (respond marshal templates c)) = w_body (c_Writer c) +:+ (if emptyStatus (final_status c) then "" else s).
Proof using Type.
  intros Hf Hw Hb. unfold respond. rewrite Hf.
  set (c1 := match c_Body c with Some _ => promoteStatus c | None => c end).
  assert (H1 : c_Status c1 = final_status c /\ c_Writer c1 = c_Writer c /\ c_Body c1 = c_Body c).
  { unfold c1, final_status, promoteStatus. destruct (c_Body c) eqn:E; [case_match |]; by rewrite ?E. }
  destruct H1 as (ES & EW & EB). rewrite ES. destruct (emptyStatus (final_status c)).
  - cbn [c_Body with_writer c_Writer c_Status WriteHeader w_status w_body c_headers].
    destruct (set_headers_rest (delete "Transfer-Encoding" (delete "Content-Length" (delete "Content-Type" (c_headers c1)))) (c_Writer c1)) as [E1 E2].
    rewrite E1, E2, EW, Hw. split; [done | by rewrite append_nil_r].
  - set (c2 := with_writer (set_headers (c_headers c1)) c1).
    destruct (set_headers_rest (c_headers c1) (c_Writer c1)) as [E1 E2].
    assert (H2 : c_Status c2 = final_status c /\ c_Body c2 = c_Body c /\ w_status (c_Writer c2) = None /\ w_body (c_Writer c2) = w_body (c_Writer c)).
    { unfold c2. cbn. rewrite E1, E2, EW, ES, EB. done. }
    destruct H2 as (S2 & B2 & W2 & D2). rewrite B2, <- S2, <- D2. destruct (c_Body c) as [b |].
    { pose proof (respond_body b c2 s W2 Hb) as HR. by destruct b. }
    subst s. rewrite append_nil_r. split; [| done].
    change (Some (default (c_Status c2) (w_status (c_Writer c2))) = Some (c_Status c2)). by rewrite W2.
Qed.

End Responses.

(** ** An example *)

Definition ex_ctx : Context := String_ "hello" (newContext (mkWriter ∅ None "")).

Lemma respond_exact_witness :
  w_status (c_Writer (respond (fun _ => None) None ex_ctx)) = Some 200 /\ w_body (c_Writer (respond (fun _ => None) None ex_ctx)) = "hello".
Proof. apply (respond_exact (fun _ => None) None ex_ctx "hello"); by vm_compute. Defined.
