(* ===== verification/HttpSse.v ===== *)
(** * Server-sent events

    [libs/yukino_http/sse.go]: what each method writes, and what an event source reads
    from it, by the algorithm of the HTML standard. *)
From stdpp Require Import pretty.
From Stdlib Require Import Ascii.
From S2P Require Import Prelude GoStrings HttpResponse.

Definition nl_char : ascii := ascii_of_nat 10.
Definition cr_char : ascii := ascii_of_nat 13.
Definition nl : string := String nl_char "".

(** ** The writer *)

(** A text of lines. *)
Fixpoint text_of (lines : list string) : string :=
  match lines with [] => "" | l :: lines => (l +:+ nl) +:+ text_of lines end.

Definition writeData (data : string) : string := text_of (map (fun line => "data: " +:+ line) (Split nl_char data)) +:+ nl.

Definition Event (event data : string) : string := ("event: " +:+ event +:+ nl) +:+ writeData data.

Definition SSE_Data (data : string) : string := writeData data.

(** [JSON]: [None] is an object that [json.Marshal] refuses. *)
Definition SSE_JSON (event : string) (bytes : option string) : string :=
  match bytes with
  | None => ""
  | Some b => (if decide (event = "") then "" else "event: " +:+ event +:+ nl) +:+ ("data: " +:+ b +:+ nl +:+ nl)
  end.

Definition ID (id : string) : string := "id: " +:+ id +:+ nl.

Definition Retry (ms : Z) : string := "retry: " +:+ pretty ms +:+ nl +:+ nl.

Definition Comment (text : string) : string := text_of (map (fun line => ": " +:+ line) (Split nl_char text)) +:+ nl.

(** One tick of [Heartbeat]. *)
Definition Heartbeat_tick : string := ": keepalive" +:+ nl +:+ nl.

Definition Done_ : string := SSE_Data "[DONE]".

(** [Stream] of the messages received before the channel or the request ends. *)
Definition Stream (msgs : list string) : string := foldr (fun m s => SSE_Data m +:+ s) "" msgs.

(** [SSE] takes the response over and starts it. *)
Definition SSE (c : Context) : Context :=
  let c := SetStatus 200 c in
  let c := with_writer (fun w => Header_Set "Connection" "keep-alive" (Header_Set "Cache-Control" "no-cache"
             (Header_Set "Content-Type" "text/event-stream" w))) c in
  with_writer (WriteHeader 200) (TakeOver c).

(** ** An event source *)

Record message := mkMsg { e_type : string; e_data : string; e_lastId : string }.

Record source := mkSource { s_type : string; s_data : string; s_id : string; s_events : list message }.

(** CR LF and CR end a line as LF does. *)
Fixpoint normalize (s : string) : string :=
  match s with
  | EmptyString => EmptyString
  | String c s' =>
      if decide (c = cr_char) then
        match s' with
        | String c' s'' => if decide (c' = nl_char) then String nl_char (normalize s'') else String nl_char (normalize s')
        | EmptyString => nl
        end
      else String c (normalize s')
  end.

Fixpoint cut_colon (s : string) : string * string :=
  match s with
  | EmptyString => ("", "")
  | String c s => if decide (c = ":"%char) then ("", s) else let '(f, v) := cut_colon s in (String c f, v)
  end.

Definition strip_space (s : string) : string := match s with String " " s' => s' | _ => s end.

Definition dispatch_event (st : source) : source :=
  if decide (s_data st = "") then mkSource "" "" (s_id st) (s_events st)
  else mkSource "" "" (s_id st)
         (s_events st ++ [mkMsg (if decide (s_type st = "") then "message" else s_type st) (TrimSuffix (s_data st) nl) (s_id st)]).

Definition source_line (st : source) (line : string) : source :=
  if decide (line = "") then dispatch_event st
  else
    let '(field, v) := cut_colon line in
    let value := strip_space v in
    if decide (field = "event") then mkSource value (s_data st) (s_id st) (s_events st)
    else if decide (field = "data") then mkSource (s_type st) (s_data st +:+ value +:+ nl) (s_id st) (s_events st)
    else if decide (field = "id") then
      if Contains value (String (ascii_of_nat 0) "") then st else mkSource (s_type st) (s_data st) value (s_events st)
    else st.

Definition source_start : source := mkSource "" "" "" [].

(** An incomplete last line is not processed. *)
Definition read_events (s : string) : list message :=
  s_events (foldl source_line source_start (removelast (Split nl_char (normalize s)))).

(** ** What is sent and what is read *)

Inductive sse_op :=
  | OpEvent (event data : string)
  | OpData (data : string)
  | OpJSON (event bytes : string)
  | OpID (id : string)
  | OpRetry (ms : Z)
  | OpComment (text : string)
  | OpTick.

Definition op_text (o : sse_op) : string :=
  match o with
  | OpEvent e d => Event e d
  | OpData d => SSE_Data d
  | OpJSON e b => SSE_JSON e (Some b)
  | OpID id => ID id
  | OpRetry ms => Retry ms
  | OpComment t => Comment t
  | OpTick => Heartbeat_tick
  end.

Definition one_line (s : string) : Prop := lacks nl_char s /\ lacks cr_char s.

Definition op_clean (o : sse_op) : Prop :=
  match o with
  | OpEvent e d => one_line e /\ lacks cr_char d
  | OpData d => lacks cr_char d
  | OpJSON e b => one_line e /\ one_line b
  | OpID id => one_line id /\ Contains id (String (ascii_of_nat 0) "") = false
  | OpRetry ms => 0 <= ms
  | OpComment t => lacks cr_char t
  | OpTick => True
  end.

Definition event_type (e : string) : string := if decide (e = "") then "message" else e.

(** The events of a sequence of calls, after [id] was the last id sent. *)
Fixpoint expected (id : string) (ops : list sse_op) : list message :=
  match ops with
  | [] => []
  | OpEvent e d :: ops => mkMsg (event_type e) d id :: expected id ops
  | OpData d :: ops => mkMsg "message" d id :: expected id ops
  | OpJSON e b :: ops => mkMsg (event_type e) b id :: expected id ops
  | OpID id' :: ops => expected id' ops
  | _ :: ops => expected id ops
  end.

(** ** Proofs *)

(** The lines a call writes. *)
Definition op_lines (o : sse_op) : list string :=
  match o with
  | OpEvent e d => ("event: " +:+ e) :: map (fun line => "data: " +:+ line) (Split nl_char d) ++ [""]
  | OpData d => map (fun line => "data: " +:+ line) (Split nl_char d) ++ [""]
  | OpJSON e b => (if decide (e = "") then [] else ["event: " +:+ e]) ++ ["data: " +:+ b; ""]
  | OpID id => ["id: " +:+ id]
  | OpRetry ms => ["retry: " +:+ pretty ms; ""]
  | OpComment t => map (fun line => ": " +:+ line) (Split nl_char t) ++ [""]
  | OpTick => [": keepalive"; ""]
  end.

Lemma text_of_app a b : text_of (a ++ b) = text_of a +:+ text_of b.
Proof. induction a as [| l a IH]; [done |]. cbn [text_of app]. by rewrite IH, !string_app_assoc. Qed.

Lemma op_text_lines o : op_text o = text_of (op_lines o).
Proof.
  destruct o as [e d | d | e b | id | ms | t |]; cbn [op_text op_lines];
    unfold Event, SSE_Data, SSE_JSON, writeData, ID, Retry, Comment, Heartbeat_tick.
  - cbn [text_of]. rewrite text_of_app. cbn [text_of]. by rewrite app_Empty, append_nil_r, !string_app_assoc.
  - rewrite text_of_app. cbn [text_of]. by rewrite app_Empty, append_nil_r.
  - case_decide; cbn [text_of app]; by rewrite ?app_Empty, ?append_nil_r, ?string_app_assoc.
  - cbn [text_of]. by rewrite append_nil_r, string_app_assoc.
  - cbn [text_of]. by rewrite app_Empty, append_nil_r, !string_app_assoc.
  - rewrite text_of_app. cbn [text_of]. by rewrite app_Empty, append_nil_r.
  - done.
Qed.

Lemma lacks_app c s t : lacks c s -> lacks c t -> lacks c (s +:+ t).
Proof. induction s as [| x s IH]; [done |]. intros [Hx Hs] Ht. rewrite app_String. split; auto. Qed.

Lemma Split_lacks_parts c sep s : lacks c s -> Forall (lacks c) (Split sep s).
Proof.
  induction s as [| x s IH]; intros Hs; cbn [Split]; [repeat constructor |]. destruct Hs as [Hx Hs]. specialize (IH Hs).
  case_decide; [constructor; done |]. destruct IH as [| p parts Hp HF]; [repeat constructor; done |]. constructor; [| done]. by split.
Qed.

Lemma digits_one_line s : all_digits s -> one_line s.
Proof.
  induction s as [| c s IH]; [done |]. intros [Hc Hs]. destruct (IH Hs) as [H1 H2].
  split; (split; [intros -> | done]); cbn in Hc; by destruct Hc.
Qed.

Lemma op_one_line o : op_clean o -> Forall one_line (op_lines o).
Proof.
  assert (HP : forall pre s, one_line pre -> one_line s -> one_line (pre +:+ s)) by (intros pre s [] []; split; by apply lacks_app).
  assert (HS : forall pre d, one_line pre -> lacks cr_char d -> Forall one_line (map (fun line => pre +:+ line) (Split nl_char d))).
  { intros pre d Hpre Hd. apply Forall_map, Forall_forall. intros l Hl. apply HP; [done |].
    split; [by apply (proj1 (Forall_forall _ _) (Split_parts nl_char d)) | by apply (proj1 (Forall_forall _ _) (Split_lacks_parts _ nl_char d Hd))]. }
  assert (H0 : Forall one_line [""]) by (by repeat constructor).
  destruct o as [e d | d | e b | id | ms | t |]; cbn [op_clean op_lines].
  - intros [He Hd]. constructor; [by apply HP; [vm_compute |] |]. apply Forall_app. split; [by apply HS; [vm_compute |] | done].
  - intros Hd. apply Forall_app. split; [by apply HS; [vm_compute |] | done].
  - intros [He Hb]. apply Forall_app. split; [case_decide; [constructor |]; constructor; [by apply HP; [vm_compute |] | constructor] |].
    constructor; [by apply HP; [vm_compute |] | done].
  - intros [Hid _]. constructor; [by apply HP; [vm_compute |] | constructor].
  - intros Hms. constructor; [| done]. apply HP; [by vm_compute |]. by apply digits_one_line, pretty_Z_spec.
  - intros Ht. apply Forall_app. split; [by apply HS; [vm_compute |] | done].
  - intros _. constructor; [by vm_compute | done].
Qed.

(** Text of whole lines is split into them. *)
Lemma read_lines ls : Forall one_line ls -> removelast (Split nl_char (normalize (text_of ls))) = ls.
Proof.
  assert (HN : forall s t, lacks cr_char s -> normalize (s +:+ t) = s +:+ normalize t).
  { induction s as [| c s IH]; intros t Hs; [done |]. destruct Hs as [Hc Hs]. rewrite app_String. cbn [normalize].
    rewrite decide_False by done. by rewrite IH, app_String. }
  induction 1 as [| l ls [H1 H2] HF IH]; [done |]. cbn [text_of].
  rewrite string_app_assoc, HN by done. unfold nl. rewrite app_String, app_Empty. cbn [normalize].
  rewrite decide_False by done. rewrite Split_app by done.
  pose proof (Split_parts nl_char (normalize (text_of ls))) as HP.
  destruct (Split nl_char (normalize (text_of ls))) as [| p ps] eqn:E; [by destruct (normalize (text_of ls)); cbn in E; repeat case_match |].
  change (removelast (l :: p :: ps)) with (l :: removelast (p :: ps)). by rewrite IH.
Qed.

(** The data of the lines of [d]. *)
Lemma data_lines d : forall typ data id evs,
  foldl source_line (mkSource typ data id evs) (map (fun line => "data: " +:+ line) (Split nl_char d)) =
  mkSource typ (data +:+ d +:+ nl) id evs.
Proof.
  assert (HL : forall line typ data id evs,
    source_line (mkSource typ data id evs) ("data: " +:+ line) = mkSource typ (data +:+ line +:+ nl) id evs) by done.
  induction d as [| c d IH]; intros typ data id evs; [cbn [Split map foldl]; by rewrite HL |]. cbn [Split]. case_decide as Hc.
  - subst c. cbn [map foldl]. rewrite HL, IH. by rewrite !string_app_assoc, app_Empty, app_String.
  - destruct (Split nl_char d) as [| p ps] eqn:E; [by destruct d; cbn in E; repeat case_match |].
    cbn [map foldl] in *. rewrite HL. specialize (IH typ (data +:+ String c "") id evs). rewrite HL in IH.
    rewrite !string_app_assoc, !app_String, !app_Empty in IH. rewrite !app_String. exact IH.
Qed.

Lemma data_event typ d id evs :
  foldl source_line (mkSource typ "" id evs) (map (fun line => "data: " +:+ line) (Split nl_char d) ++ [""]) =
  mkSource "" "" id (evs ++ [mkMsg (event_type typ) d id]).
Proof.
  rewrite foldl_app, data_lines. cbn [foldl]. unfold source_line. rewrite decide_True by done. unfold dispatch_event.
  rewrite app_Empty. cbn [s_data s_type s_id s_events].
  rewrite decide_False by (by destruct d). by rewrite TrimSuffix_app.
Qed.

Definition next_id (id : string) (o : sse_op) : string := match o with OpID id' => id' | _ => id end.

Lemma comment_lines t : forall st, foldl source_line st (map (fun line => ": " +:+ line) (Split nl_char t)) = st.
Proof.
  assert (HL : forall line st, source_line st (": " +:+ line) = st) by (intros line st; done).
  induction (Split nl_char t) as [| l ls IH]; intros st; [done |]. cbn [map foldl]. by rewrite HL, IH.
Qed.

Lemma op_effect o id evs : op_clean o ->
  foldl source_line (mkSource "" "" id evs) (op_lines o) = mkSource "" "" (next_id id o) (evs ++ expected id [o]).
Proof.
  assert (HE : forall e typ data id evs, source_line (mkSource typ data id evs) ("event: " +:+ e) = mkSource e data id evs) by done.
  destruct o as [e d | d | e b | i | ms | t |]; cbn [op_clean op_lines next_id expected].
  - intros _. cbn [foldl]. rewrite HE. apply data_event.
  - intros _. apply data_event.
  - intros [_ [Hb _]]. rewrite foldl_app.
    assert (EE : foldl source_line (mkSource "" "" id evs) (if decide (e = "") then [] else ["event: " +:+ e]) = mkSource e "" id evs)
      by (case_decide as H; [by subst e | cbn [foldl]; by rewrite HE]).
    rewrite EE. pose proof (data_event e b id evs) as HD. rewrite Split_lacks in HD by done. exact HD.
  - intros [_ Hz]. rewrite app_nil_r. cbn [foldl]. unfold source_line. rewrite decide_False by done.
    change (cut_colon ("id: " +:+ i)) with ("id", " " +:+ i). cbn [strip_space]. change (strip_space (" " +:+ i)) with i.
    cbn iota. rewrite decide_False, decide_False, decide_True, Hz by done. done.
  - intros _. by rewrite app_nil_r.
  - intros _. rewrite app_nil_r, foldl_app, comment_lines. done.
  - intros _. by rewrite app_nil_r.
Qed.

Lemma expected_cons id o ops : expected id (o :: ops) = expected id [o] ++ expected (next_id id o) ops.
Proof. by destruct o. Qed.

Lemma ops_effect ops : forall id evs, Forall op_clean ops ->
  s_events (foldl source_line (mkSource "" "" id evs) (concat (map op_lines ops))) = evs ++ expected id ops.
Proof.
  induction ops as [| o ops IH]; intros id evs HF; cbn [map concat]; [by rewrite app_nil_r |].
  apply Forall_cons in HF as [Ho HF]. rewrite foldl_app, op_effect by done. rewrite IH by done.
  by rewrite (expected_cons id o ops), app_assoc.
Qed.

Lemma ops_text ops : foldr (fun o s => op_text o +:+ s) "" ops = text_of (concat (map op_lines ops)).
Proof. induction ops as [| o ops IH]; [done |]. cbn [foldr map concat]. by rewrite text_of_app, op_text_lines, IH. Qed.

(** an event source reads back what was sent: the events in order, with their types,
    their data of any number of lines, and the last id before them; comments, heartbeats
    and retry times between them add and change nothing. *)
Theorem sse_roundtrip ops :
  Forall op_clean ops -> read_events (foldr (fun o s => op_text o +:+ s) "" ops) = expected "" ops.
Proof.
  intros HF. unfold read_events. rewrite ops_text, read_lines.
  - by apply (ops_effect ops "" []).
  - apply Forall_concat, Forall_map. eapply Forall_impl; [exact HF |]. intros o. apply op_one_line.
Qed.

Definition ex_ops : list sse_op :=
  [OpRetry 3000; OpID "7"; OpEvent "tick" ("one" +:+ nl +:+ " two"); OpTick; OpComment "hello"; OpJSON "" "{}"; OpData ""].

Lemma sse_roundtrip_witness :
  read_events (foldr (fun o s => op_text o +:+ s) "" ex_ops) =
  [mkMsg "tick" ("one" +:+ nl +:+ " two") "7"; mkMsg "message" "{}" "7"; mkMsg "message" "" "7"].
Proof.
  rewrite (sse_roundtrip ex_ops); [by vm_compute |]. repeat constructor; by vm_compute.
Defined.

(** A carriage return in the data ends the line: what follows it is read as a field of
    the stream. *)
Example carriage_return_injects :
  read_events (SSE_Data ("hi" +:+ String cr_char "event: login")) = [mkMsg "login" "hi" ""].
Proof. by vm_compute. Qed.

(** So does a newline in the name of an event. *)
Example newline_in_name : read_events (Event ("tick" +:+ nl +:+ "id: 9") "x") = [mkMsg "tick" "x" "9"].
Proof. by vm_compute. Qed.
