(* ===== verification/WsConn.v ===== *)
(** * WebSocket connections

    [libs/yukino_http/websocket.go]: the handshake, frames, messages, and the loop that
    listens.  A connection is the bytes the peer sends until the connection ends, the
    bytes written to it, and whether it is closed. *)
From Stdlib Require Import Ascii.
From S2P Require Import Prelude GoStrings GoSort GoBytes HttpResponse.

Definition TextMessage : Z := 1.
Definition BinaryMessage : Z := 2.
Definition CloseMessage : Z := 8.
Definition PingMessage : Z := 9.
Definition PongMessage : Z := 10.
Definition continuationFrame : Z := 0.

Definition wsGUID : string := "258EAFA5-E914-47DA-95CA-C5AB0DC85B11".
Definition maxFrameSize : Z := 65536.
Definition closeNormal : Z := 1000.

(** [io.EOF], [io.ErrUnexpectedEOF], an error of the network, and the package's own. *)
Inductive wserr := EOF | ErrUnexpectedEOF | NetErr (msg : string) | ErrWSInvalidFrame | ErrWSClosed.

#[export] Instance wserr_eq_dec : EqDecision wserr.
Proof. solve_decision. Defined.

(** ** Reading *)

(** A computation that reads from [ws.br]: its result, and the bytes that are left. *)
Definition reader (A : Type) : Type := bytes -> result wserr A * bytes.

#[export] Instance reader_ret : MRet reader := fun A a r => (Ok a, r).
#[export] Instance reader_bind : MBind reader := fun A B f m r =>
  match m r with (Ok a, r) => f a r | (Err e, r) => (Err e, r) end.

Definition fail {A} (e : wserr) : reader A := fun r => (Err e, r).

Record frame := mkFrame { f_opcode : Z; f_fin : bool; f_payload : bytes }.

Definition unmask (key payload : bytes) : bytes :=
  imap (fun i c => Z.lxor c (nth (i mod 4) key 0)) payload.

Section Reading.

(** The error with which the connection ends, and the limit of a message. *)
Context (tail : wserr) (limit : Z).

(** [io.ReadFull] of [n] bytes. *)
Definition ReadFull (n : Z) : reader bytes := fun r =>
  if zlen r <? n then
    (Err (match r, tail with [], _ => tail | _, EOF => ErrUnexpectedEOF | _, _ => tail end), [])
  else (Ok (take (Z.to_nat n) r), drop (Z.to_nat n) r).

Definition readFrame : reader frame :=
  header ← ReadFull 2;
  let h0 := nth 0 header 0 in
  let h1 := nth 1 header 0 in
  let fin := negb (Z.land h0 128 =? 0) in
  if negb (Z.land h0 112 =? 0) then fail ErrWSInvalidFrame
  else
    let opcode := Z.land h0 15 in
    let masked := negb (Z.land h1 128 =? 0) in
    let length := Z.land h1 127 in
    _ ← (if decide (opcode ∈ [continuationFrame; TextMessage; BinaryMessage]) then mret tt
         else if decide (opcode ∈ [CloseMessage; PingMessage; PongMessage]) then
           if negb fin || (125 <? length) then fail ErrWSInvalidFrame else mret tt
         else fail ErrWSInvalidFrame);
    if negb masked then fail ErrWSInvalidFrame
    else
      length ← (if length =? 126 then ext ← ReadFull 2; mret (be_value ext)
                else if length =? 127 then ext ← ReadFull 8; mret (be_value ext)
                else mret length);
      if limit <? length then fail ErrWSInvalidFrame
      else
        maskKey ← ReadFull 4;
        payload ← ReadFull length;
        mret (mkFrame opcode fin (unmask maskKey payload)).

(** [msgType] and [buf] are the message under assembly. *)
Fixpoint readMessage_loop (fuel : nat) (msgType : Z) (buf : bytes) : reader (Z * bytes) :=
  match fuel with
  | O => fail tail
  | S fuel =>
      '(mkFrame opcode fin data) ← readFrame;
      if decide (opcode ∈ [CloseMessage; PingMessage; PongMessage]) then mret (opcode, data)
      else if opcode =? continuationFrame then
        if msgType =? 0 then fail ErrWSInvalidFrame
        else if limit <? zlen buf + zlen data then fail ErrWSInvalidFrame
        else
          let buf := buf ++ data in
          if fin then mret (msgType, buf) else readMessage_loop fuel msgType buf
      else if negb (msgType =? 0) then fail ErrWSInvalidFrame
      else if fin then mret (opcode, data)
      else readMessage_loop fuel opcode (buf ++ data)
  end.

(** Each frame takes bytes, so there are no more rounds than bytes. *)
Definition readMessage : reader (Z * bytes) := fun r => readMessage_loop (S (length r)) 0 [] r.

End Reading.

(** ** Writing *)

(** The bytes of a frame from the server. *)
Definition frame_header (opcode : Z) (len : Z) : bytes :=
  let b0 := Z.land (Z.lor 128 opcode) 255 in
  if len <=? 125 then [b0; len]
  else if len <=? 65535 then b0 :: 126 :: be_bytes 2 len
  else b0 :: 127 :: be_bytes 8 len.

(** [ws_open]: the network connection takes writes. *)
Record WSConn := mkWS {
  ws_in : bytes;
  ws_out : bytes;
  ws_closed : bool;
  ws_open : bool;
  ws_maxMessageSize : Z
}.

Definition messageLimit (ws : WSConn) : Z :=
  if 0 <? ws_maxMessageSize ws then ws_maxMessageSize ws else maxFrameSize.

Definition set_in (r : bytes) (ws : WSConn) : WSConn :=
  mkWS r (ws_out ws) (ws_closed ws) (ws_open ws) (ws_maxMessageSize ws).

(** [ws.once.Do(func() { close(ws.closed) })] *)
Definition close_once (ws : WSConn) : WSConn :=
  mkWS (ws_in ws) (ws_out ws) true (ws_open ws) (ws_maxMessageSize ws).

Definition write_failed : wserr := NetErr "write on a closed connection".

Definition writeFrame (opcode : Z) (payload : bytes) (ws : WSConn) : WSConn * option wserr :=
  let buf := frame_header opcode (zlen payload) ++ payload in
  if ws_open ws then
    (mkWS (ws_in ws) (ws_out ws ++ buf) (ws_closed ws) (ws_open ws) (ws_maxMessageSize ws), None)
  else (ws, Some write_failed).

Definition WriteMessage (messageType : Z) (data : bytes) : WSConn -> WSConn * option wserr := writeFrame messageType data.
Definition WriteText (text : string) : WSConn -> WSConn * option wserr := WriteMessage TextMessage (string_bytes text).
Definition WriteBinary (data : bytes) : WSConn -> WSConn * option wserr := WriteMessage BinaryMessage data.
Definition Ping : WSConn -> WSConn * option wserr := writeFrame PingMessage [].

(** ** Closing *)

Definition in_range (lo hi c : Z) : bool := (lo <=? c) && (c <=? hi).

(** [utf8.ValidString]. *)
Fixpoint utf8_valid (b : bytes) : bool :=
  match b with
  | [] => true
  | c0 :: b1 =>
      if c0 <? 128 then utf8_valid b1
      else match b1 with
      | [] => false
      | c1 :: b2 =>
          if in_range 194 223 c0 then in_range 128 191 c1 && utf8_valid b2
          else match b2 with
          | [] => false
          | c2 :: b3 =>
              if in_range 224 239 c0 then
                in_range (if c0 =? 224 then 160 else 128) (if c0 =? 237 then 159 else 191) c1 &&
                in_range 128 191 c2 && utf8_valid b3
              else match b3 with
              | [] => false
              | c3 :: b4 =>
                  in_range 240 244 c0 &&
                  in_range (if c0 =? 240 then 144 else 128) (if c0 =? 244 then 143 else 191) c1 &&
                  in_range 128 191 c2 && in_range 128 191 c3 && utf8_valid b4
              end
          end
      end
  end.

Definition parseClosePayload (payload : bytes) : Z * bytes :=
  match payload with
  | c0 :: c1 :: text => (be_value [c0; c1], if utf8_valid text then text else [])
  | _ => (closeNormal, [])
  end.

Definition formatClosePayload (code : Z) (text : bytes) : bytes := be_bytes 2 (u16 code) ++ text.

Definition writeCloseFrame (code : Z) : WSConn -> WSConn * option wserr := writeFrame CloseMessage (formatClosePayload code []).

(** [Close] and [CloseWithMessage] close the network connection last. *)
Definition CloseWithMessage (code : Z) (text : bytes) (ws : WSConn) : WSConn :=
  let '(ws, _) := writeFrame CloseMessage (formatClosePayload code text) (close_once ws) in
  mkWS (ws_in ws) (ws_out ws) (ws_closed ws) false (ws_maxMessageSize ws).

Definition Close : WSConn -> WSConn := CloseWithMessage closeNormal [].

(** ** Listening *)

(** The calls of the program's callbacks. *)
Inductive event :=
  | OnMessage (messageType : Z) (data : bytes)
  | OnClose (code : Z) (text : bytes)
  | OnError (err : wserr)
  | OnPing (data : bytes)
  | OnPong (data : bytes).

Section Listening.

(** The error with which the connection ends, and [react], the messages that a callback
    writes to the connection.  A callback that is not set writes none; its event is
    recorded all the same. *)
Context (tail : wserr) (react : event -> list (Z * bytes)).

Definition write_all (ms : list (Z * bytes)) (ws : WSConn) : WSConn :=
  foldl (fun ws '(t, d) => (WriteMessage t d ws).1) ws ms.

Definition call (e : event) (ws : WSConn) : WSConn := write_all (react e) ws.

Definition handleError (err : wserr) (ws : WSConn) : WSConn * list event :=
  if ws_closed ws then (close_once ws, []) else (close_once (call (OnError err) ws), [OnError err]).

Definition handleClose (payload : bytes) (ws : WSConn) : WSConn * list event :=
  let '(code, text) := parseClosePayload payload in
  let ws := close_once (writeCloseFrame code ws).1 in
  (call (OnClose code text) ws, [OnClose code text]).

Fixpoint Listen_loop (fuel : nat) (ws : WSConn) : WSConn * list event :=
  match fuel with
  | O => (ws, [])
  | S fuel =>
      match readMessage tail (messageLimit ws) (ws_in ws) with
      | (Err e, r) => handleError e (set_in r ws)
      | (Ok (opcode, payload), r) =>
          let ws := set_in r ws in
          if opcode =? PingMessage then
            let ws := (writeFrame PongMessage payload (call (OnPing payload) ws)).1 in
            let '(ws, log) := Listen_loop fuel ws in (ws, OnPing payload :: log)
          else if opcode =? PongMessage then
            let '(ws, log) := Listen_loop fuel (call (OnPong payload) ws) in (ws, OnPong payload :: log)
          else if opcode =? CloseMessage then handleClose payload ws
          else if decide (opcode ∈ [TextMessage; BinaryMessage]) then
            let '(ws, log) := Listen_loop fuel (call (OnMessage opcode payload) ws) in (ws, OnMessage opcode payload :: log)
          else Listen_loop fuel ws
      end
  end.

(** Every round reads bytes or ends. *)
Definition Listen (ws : WSConn) : WSConn * list event := Listen_loop (S (length (ws_in ws))) ws.

(** [ReadMessage] answers pings and skips pongs. *)
Fixpoint ReadMessage_loop (fuel : nat) (ws : WSConn) : WSConn * result wserr (Z * bytes) * list event :=
  match fuel with
  | O => (ws, Err tail, [])
  | S fuel =>
      match readMessage tail (messageLimit ws) (ws_in ws) with
      | (Err e, r) => let '(ws, log) := handleError e (set_in r ws) in (ws, Err e, log)
      | (Ok (opcode, payload), r) =>
          let ws := set_in r ws in
          if opcode =? PingMessage then ReadMessage_loop fuel (writeFrame PongMessage payload ws).1
          else if opcode =? PongMessage then ReadMessage_loop fuel ws
          else if opcode =? CloseMessage then
            let '(ws, log) := handleClose payload ws in (ws, Err ErrWSClosed, log)
          else if decide (opcode ∈ [TextMessage; BinaryMessage]) then (ws, Ok (opcode, payload), [])
          else (ws, Err ErrWSInvalidFrame, [])
      end
  end.

Definition ReadMessage (ws : WSConn) : WSConn * result wserr (Z * bytes) * list event :=
  ReadMessage_loop (S (length (ws_in ws))) ws.

End Listening.

(** ** The handshake *)

Definition computeAcceptKey (key : string) : string :=
  EncodeToString (sha1_sum (string_bytes key ++ string_bytes wsGUID)).

Abbreviation header := (gmap string (list string)).

Definition header_values (h : header) (key : string) : list string := default [] (h !! CanonicalHeaderKey key).

(** [Header.Get]: the first value. *)
Definition header_Get (h : header) (key : string) : string := default "" (head (header_values h key)).

Definition headerContains (h : header) (key value : string) : bool :=
  existsb (fun v => existsb (fun s => EqualFold (TrimSpace s) value) (Split "," v)) (header_values h key).

Definition negotiateSubprotocol (clientHeader : string) (serverProtocols : list string) : string :=
  default "" (List.find (fun sp => existsb (fun cp => bool_decide (TrimSpace cp = sp)) (Split "," clientHeader)) serverProtocols).

Record UpgradeOptions := mkUpgrade {
  MaxMessageSize : Z;
  CheckOrigin : option (header -> bool);
  Subprotocols : list string
}.

Definition crlf : string := String (ascii_of_nat 13) (String (ascii_of_nat 10) "").

Definition handshake (key subprotocol : string) : bytes :=
  string_bytes ("HTTP/1.1 101 Switching Protocols" +:+ crlf +:+ "Upgrade: websocket" +:+ crlf +:+ "Connection: Upgrade" +:+ crlf +:+
    "Sec-WebSocket-Accept: " +:+ computeAcceptKey key +:+ crlf +:+
    (if decide (subprotocol = "") then "" else "Sec-WebSocket-Protocol: " +:+ subprotocol +:+ crlf) +:+ crlf).

(** [Upgrade]: what becomes of the context, and the error or the connection.  [hijacked] is
    what the peer sends on the hijacked connection and whether it takes writes, if the
    writer can be hijacked. *)
Definition Upgrade (method : string) (h : header) (opts : option UpgradeOptions) (hijacked : option (bytes * bool)) (ctx : Context) :
    Context * result string WSConn :=
  if (match opts with Some o => match CheckOrigin o with Some f => negb (f h) | None => false end | None => false end)
  then (Throw 403 "origin not allowed" ctx, Err "websocket: origin check failed")
  else if negb (bool_decide (method = "GET"))
  then (Throw 405 "websocket: request method is not GET" ctx, Err "websocket: request method is not GET")
  else if negb (headerContains h "Connection" "upgrade")
  then (Throw 400 "missing Connection: upgrade" ctx, Err "websocket: missing Connection upgrade")
  else if negb (headerContains h "Upgrade" "websocket")
  then (Throw 400 "missing Upgrade: websocket" ctx, Err "websocket: missing Upgrade header")
  else if negb (headerContains h "Sec-WebSocket-Version" "13")
  then (Throw 400 "unsupported websocket version: 13 required" (Set_ "Sec-WebSocket-Version" "13" ctx), Err "websocket: unsupported version")
  else
    let key := header_Get h "Sec-WebSocket-Key" in
    if decide (key = "") then (Throw 400 "missing Sec-WebSocket-Key" ctx, Err "websocket: missing key")
    else
      let subprotocol :=
        match opts with
        | Some o => match Subprotocols o with
                    | [] => ""
                    | ps => negotiateSubprotocol (header_Get h "Sec-WebSocket-Protocol") ps
                    end
        | None => ""
        end in
      match hijacked with
      | None => (Throw 500 "hijack not supported" ctx, Err "websocket: hijack failed")
      | Some (r, writable) =>
          let ctx := mkContext (c_Writer ctx) 101 (c_Body ctx) (c_Type ctx) (c_headers ctx) true true in
          if writable then
            let size := match opts with Some o => if 0 <? MaxMessageSize o then MaxMessageSize o else 0 | None => 0 end in
            (ctx, Ok (mkWS r (handshake key subprotocol) false true size))
          else (ctx, Err "websocket: write handshake failed")
      end.

(** A connection is made only for a request that RFC 6455 allows, and the context then
    writes no response of its own. *)
Lemma upgrade_checked method h opts hijacked ctx ctx' ws :
  Upgrade method h opts hijacked ctx = (ctx', Ok ws) ->
  method = "GET" /\ headerContains h "Connection" "upgrade" = true /\ headerContains h "Upgrade" "websocket" = true /\
  headerContains h "Sec-WebSocket-Version" "13" = true /\ c_flushed ctx' = true /\ ws_closed ws = false /\
  exists sub, ws_out ws = handshake (header_Get h "Sec-WebSocket-Key") sub /\
    (sub = "" \/ exists o, opts = Some o /\ sub ∈ Subprotocols o).
Proof.
  unfold Upgrade. match goal with |- context [if ?b then (Throw 403 _ _, _) else _] => destruct b; [done |] end. destruct (bool_decide_reflect (method = "GET")); cbn [negb]; [| done].
  destruct (headerContains h "Connection" _) eqn:E1; cbn [negb]; [| done].
  destruct (headerContains h "Upgrade" _) eqn:E2; cbn [negb]; [| done].
  destruct (headerContains h "Sec-WebSocket-Version" _) eqn:E3; cbn [negb]; [| done]. case_decide; [done |].
  destruct hijacked as [[r [|]] |]; [| done | done]. intros [= <- <-]. split_and!; try done. eexists. split; [done |].
  destruct opts as [o |]; [| by left]. destruct (Subprotocols o) as [| p ps] eqn:Eo; [by left |].
  unfold negotiateSubprotocol. destruct (List.find _ _) as [sp |] eqn:Ef; [| by left].
  right. exists o. split; [done |]. rewrite Eo. cbn. apply find_some in Ef as [Hin _]. by apply list_elem_of_In.
Qed.

(** RFC 6455, section 1.3. *)
Example accept_key_rfc : computeAcceptKey "dGhlIHNhbXBsZSBub25jZQ==" = "s3pPLMBiTxaQ9kYGzzhZRbK+xOo=".
Proof. by vm_compute. Qed.

(** The peer of [CloseWithMessage] reads the code and the text. *)
Lemma close_payload code text : 0 <= code < 65536 -> utf8_valid text = true -> parseClosePayload (formatClosePayload code text) = (code, text).
Proof.
  intros Hc Ht. unfold formatClosePayload, u16. rewrite Z.mod_small by lia.
  pose proof (be_value_bytes 2 code) as E. cbn [be_bytes] in *. cbn [app parseClosePayload]. rewrite E, Ht; [done |].
  by change (256 ^ Z.of_nat 2) with 65536.
Qed.
