(* ===== verification/WsFrames.v ===== *)
(** * Frames on the wire

    The frames of RFC 6455: [readFrame] accepts those that are within the limit, and
    besides them only the same frames with a length in more bytes than it needs; what
    [writeFrame] writes reads back as the message. *)
From S2P Require Import Prelude GoBytes WsConn.

(** ** The wire format *)

(** How the length is written. *)
Inductive lenc := L7 | L16 | L64.

Definition len_code (enc : lenc) (n : Z) : Z := match enc with L7 => n | L16 => 126 | L64 => 127 end.

Definition len_ext (enc : lenc) (n : Z) : bytes :=
  match enc with L7 => [] | L16 => be_bytes 2 n | L64 => be_bytes 8 n end.

Definition len_fits (enc : lenc) (n : Z) : Prop :=
  match enc with L7 => n <= 125 | L16 => n < 65536 | L64 => n < 18446744073709551616 end.

Definition control (opcode : Z) : bool := bool_decide (opcode ∈ [CloseMessage; PingMessage; PongMessage]).
Definition known (opcode : Z) : bool :=
  bool_decide (opcode ∈ [continuationFrame; TextMessage; BinaryMessage; CloseMessage; PingMessage; PongMessage]).

Lemma data_not_control o : o ∈ [continuationFrame; TextMessage; BinaryMessage] -> o ∉ [CloseMessage; PingMessage; PongMessage].
Proof.
  rewrite !elem_of_cons, !elem_of_nil. unfold continuationFrame, TextMessage, BinaryMessage, CloseMessage, PingMessage, PongMessage. lia.
Qed.

Definition fin_bit (fin : bool) : Z := if fin then 128 else 0.

(** A masked frame; masking is its own inverse. *)
Definition client_frame (enc : lenc) (key : bytes) (f : frame) : bytes :=
  [fin_bit (f_fin f) + f_opcode f; 128 + len_code enc (zlen (f_payload f))] ++
  len_ext enc (zlen (f_payload f)) ++ key ++ unmask key (f_payload f).

(** RFC 6455, 5.2 writes a length in the fewest bytes. *)
Definition shortest (n : Z) : lenc := if n <=? 125 then L7 else if n <? 65536 then L16 else L64.

(** The frames RFC 6455 lets a client send, apart from the way the length is written:
    5.2 (a known opcode, a length of 63 bits, a masking key) and 5.5 (control frames). *)
Record rfc_legal (key : bytes) (f : frame) : Prop := {
  rl_opcode : known (f_opcode f) = true;
  rl_control : control (f_opcode f) = true -> f_fin f = true /\ zlen (f_payload f) <= 125;
  rl_length : zlen (f_payload f) < 9223372036854775808;
  rl_key : length key = 4%nat /\ Forall is_byte key;
  rl_payload : Forall is_byte (f_payload f)
}.

(** A data frame whose length is written in more bytes than it needs. *)
Definition overlong (enc : lenc) (f : frame) : Prop :=
  enc <> shortest (zlen (f_payload f)) /\ control (f_opcode f) = false /\ len_fits enc (zlen (f_payload f)).

(** The frames the connection takes, with any form of the length that holds it. *)
Record legal (limit : Z) (enc : lenc) (key : bytes) (f : frame) : Prop := {
  l_opcode : known (f_opcode f) = true;
  l_control : control (f_opcode f) = true -> f_fin f = true /\ enc = L7;
  l_fits : len_fits enc (zlen (f_payload f));
  l_limit : zlen (f_payload f) <= limit;
  l_key : length key = 4%nat /\ Forall is_byte key;
  l_payload : Forall is_byte (f_payload f)
}.

(** ** Bytes *)

Lemma byte_cases (P : Z -> bool) : forallb P (seqZ 0 256) = true -> forall c, is_byte c -> P c = true.
Proof. intros HF c Hc. rewrite forallb_forall in HF. apply HF. apply list_elem_of_In, elem_of_seqZ. unfold is_byte in Hc. lia. Qed.

Definition head_of (c : Z) : bool := bool_decide (c = fin_bit (negb (Z.land c 128 =? 0)) + Z.land c 15).

Lemma first_byte c : is_byte c -> Z.land c 112 = 0 -> c = fin_bit (negb (Z.land c 128 =? 0)) + Z.land c 15.
Proof.
  intros Hc E. pose proof (byte_cases (fun c => negb (Z.land c 112 =? 0) || head_of c) ltac:(by vm_compute) c Hc) as H.
  cbn beta in H. rewrite E in H. by apply bool_decide_eq_true in H.
Qed.

Lemma second_byte c : is_byte c -> Z.land c 128 <> 0 -> c = 128 + Z.land c 127 /\ 0 <= Z.land c 127 < 128.
Proof.
  intros Hc E.
  pose proof (byte_cases (fun c => (Z.land c 128 =? 0) ||
    bool_decide (c = 128 + Z.land c 127 /\ 0 <= Z.land c 127 < 128)) ltac:(by vm_compute) c Hc) as H.
  cbn beta in H. rewrite (proj2 (Z.eqb_neq _ _) E) in H. by apply bool_decide_eq_true in H.
Qed.

Lemma len_byte l : 0 <= l < 128 -> Z.land (128 + l) 128 = 128 /\ Z.land (128 + l) 127 = l.
Proof.
  intros Hl. pose proof (byte_cases (fun c => (127 <? c) ||
    bool_decide (Z.land (128 + c) 128 = 128 /\ Z.land (128 + c) 127 = c)) ltac:(by vm_compute) l) as H.
  cbn beta in H. rewrite (proj2 (Z.ltb_ge _ _)) in H by lia. apply bool_decide_eq_true in H; [done |]. unfold is_byte. lia.
Qed.

Lemma lxor_byte a b : is_byte a -> is_byte b -> is_byte (Z.lxor a b).
Proof.
  unfold is_byte. intros Ha Hb. split; [apply Z.lxor_nonneg; lia |].
  destruct (decide (Z.lxor a b = 0)) as [-> |]; [lia |]. change 256 with (2 ^ 8). apply Z.log2_lt_pow2; [pose proof (proj2 (Z.lxor_nonneg a b)); lia |].
  apply Z.le_lt_trans with (Z.max (Z.log2 a) (Z.log2 b)); [apply Z.log2_lxor; lia |].
  assert (Hlog : forall x, 0 <= x < 256 -> Z.log2 x < 8).
  { intros x Hx. destruct (decide (x = 0)) as [-> |]; [cbn; lia |]. apply Z.log2_lt_pow2; cbn; lia. }
  apply Z.max_lub_lt; auto.
Qed.

Lemma key_byte key i : Forall is_byte key -> is_byte (nth i key 0).
Proof.
  intros HF. destruct (Nat.lt_ge_cases i (length key)) as [Hi | Hi]; [| rewrite nth_overflow by lia; unfold is_byte; lia].
  eapply Forall_forall; [done |]. apply list_elem_of_In, nth_In, Hi.
Qed.

Lemma unmask_length key p : length (unmask key p) = length p.
Proof. apply length_imap. Qed.

Lemma unmask_unmask key p : unmask key (unmask key p) = p.
Proof.
  apply list_eq. intros i. unfold unmask. rewrite !list_lookup_imap. destruct (p !! i); cbn; [| done].
  f_equal. by rewrite Z.lxor_assoc, Z.lxor_nilpotent, Z.lxor_0_r.
Qed.

Lemma unmask_bytes key p : Forall is_byte key -> Forall is_byte p -> Forall is_byte (unmask key p).
Proof.
  intros Hk Hp. apply Forall_lookup. intros i c. unfold unmask. rewrite list_lookup_imap.
  destruct (p !! i) as [x |] eqn:E; cbn; [| done]. intros [= <-]. apply lxor_byte; [by eapply Forall_lookup_1 | by apply key_byte].
Qed.

(** ** Reading *)

Lemma reader_bind_ok {A B} (m : reader A) (f : A -> reader B) r b r' :
  (m ≫= f) r = (Ok b, r') <-> exists a r1, m r = (Ok a, r1) /\ f a r1 = (Ok b, r').
Proof.
  unfold mbind, reader_bind. destruct (m r) as [[a | e] r1] eqn:E; naive_solver.
Qed.

Lemma reader_bind_eq {A B} (m : reader A) (f : A -> reader B) r a r1 :
  m r = (Ok a, r1) -> (m ≫= f) r = f a r1.
Proof. intros E. unfold mbind, reader_bind. by rewrite E. Qed.

Section Frames.
Context (tail : wserr) (limit : Z).

Lemma ws_ReadFull_app n b r : zlen b = n -> ReadFull tail n (b ++ r) = (Ok b, r).
Proof using Type.
  intros <-. unfold ReadFull. zcase; [zl |]. unfold zlen. by rewrite Nat2Z.id, take_app_length, drop_app_length.
Qed.

Lemma ReadFull_inv n b r r' : 0 <= n -> ReadFull tail n r = (Ok b, r') -> r = b ++ r' /\ zlen b = n.
Proof using Type.
  intros Hn. unfold ReadFull. zcase; [done |]. intros [= <- <-]. split; [by rewrite take_drop |]. zl.
Qed.

(** The part after the two bytes of the header. *)
Definition frame_rest (fin : bool) (opcode len7 : Z) : reader frame :=
  length ← (if len7 =? 126 then ext ← ReadFull tail 2; mret (be_value ext)
            else if len7 =? 127 then ext ← ReadFull tail 8; mret (be_value ext)
            else mret len7);
  if limit <? length then fail ErrWSInvalidFrame
  else
    maskKey ← ReadFull tail 4;
    payload ← ReadFull tail length;
    mret (mkFrame opcode fin (unmask maskKey payload)).

Lemma frame_rest_encoded fin opcode enc key p r :
  len_fits enc (zlen p) -> zlen p <= limit -> length key = 4%nat ->
  frame_rest fin opcode (len_code enc (zlen p)) (len_ext enc (zlen p) ++ key ++ unmask key p ++ r) = (Ok (mkFrame opcode fin p), r).
Proof using Type.
  intros Hf Hl Hk. pose proof (zlen_nonneg p) as Hp. unfold frame_rest. erewrite reader_bind_eq with (a := zlen p).
  - zcase; [lia |]. erewrite reader_bind_eq by (apply ws_ReadFull_app; unfold zlen; by rewrite Hk).
    erewrite reader_bind_eq by (apply ws_ReadFull_app; unfold zlen; by rewrite unmask_length). unfold mret, reader_ret.
    by rewrite unmask_unmask.
  - destruct enc; cbn [len_code len_ext len_fits] in *.
    + zcase; [lia |]. zcase; [lia |]. done.
    + zcase; [| lia]. erewrite reader_bind_eq by (apply ws_ReadFull_app; unfold zlen; by rewrite be_bytes_length).
      unfold mret, reader_ret. by rewrite be_value_bytes by (change (256 ^ Z.of_nat 2) with 65536; lia).
    + zcase; [lia |]. zcase; [| lia]. erewrite reader_bind_eq by (apply ws_ReadFull_app; unfold zlen; by rewrite be_bytes_length).
      unfold mret, reader_ret.
      by rewrite be_value_bytes by (change (256 ^ Z.of_nat 8) with 18446744073709551616; lia).
Qed.
(** The length that was read, and how it was written. *)
Lemma length_inv len7 r n r1 :
  0 <= len7 < 128 -> Forall is_byte r ->
  (if len7 =? 126 then ext ← ReadFull tail 2; mret (be_value ext)
   else if len7 =? 127 then ext ← ReadFull tail 8; mret (be_value ext)
   else mret len7) r = (Ok n, r1) ->
  exists enc, len7 = len_code enc n /\ r = len_ext enc n ++ r1 /\ len_fits enc n /\ 0 <= n.
Proof using Type.
  intros Hl HB. repeat zcase; rewrite ?reader_bind_ok.
  - intros (b & r2 & E & [= <- <-]). apply ReadFull_inv in E as [-> Hb]; [| lia]. apply Forall_app in HB as [HB _].
    pose proof (be_value_bounds b HB) as Hv. rewrite Hb in Hv. exists L16. cbn [len_code len_ext len_fits].
    replace 2%nat with (length b) by (unfold zlen in Hb; lia). rewrite be_bytes_value by done. change (256 ^ 2) with 65536 in Hv. split_and!; try done; lia.
  - intros (b & r2 & E & [= <- <-]). apply ReadFull_inv in E as [-> Hb]; [| lia]. apply Forall_app in HB as [HB _].
    pose proof (be_value_bounds b HB) as Hv. rewrite Hb in Hv. exists L64. cbn [len_code len_ext len_fits].
    replace 8%nat with (length b) by (unfold zlen in Hb; lia). rewrite be_bytes_value by done.
    change (256 ^ 8) with 18446744073709551616 in Hv. split_and!; try done; lia.
  - intros [= <- <-]. exists L7. cbn [len_code len_ext len_fits]. split_and!; try done; lia.
Qed.

Lemma frame_rest_inv fin opcode len7 r f rest :
  0 <= len7 < 128 -> Forall is_byte r -> frame_rest fin opcode len7 r = (Ok f, rest) ->
  exists enc key p, f = mkFrame opcode fin p /\ len7 = len_code enc (zlen p) /\ len_fits enc (zlen p) /\ zlen p <= limit /\
    length key = 4%nat /\ Forall is_byte key /\ Forall is_byte p /\
    r = len_ext enc (zlen p) ++ key ++ unmask key p ++ rest.
Proof using Type.
  intros Hl HB E. unfold frame_rest in E. apply reader_bind_ok in E as (n & r1 & E1 & E).
  apply length_inv in E1 as (enc & -> & -> & Hf & Hn); [| done | done].
  zcase_in E; [done |]. apply reader_bind_ok in E as (key & r2 & E2 & E). apply ReadFull_inv in E2 as [-> Hk]; [| lia].
  apply reader_bind_ok in E as (p & r3 & E3 & E). apply ReadFull_inv in E3 as [-> Hp]; [| lia]. injection E as <- <-.
  rewrite !Forall_app in HB. destruct HB as (_ & HBk & HBp & _).
  assert (Hu : zlen (unmask key p) = n) by (unfold zlen in *; by rewrite unmask_length).
  exists enc, key, (unmask key p). rewrite Hu, unmask_unmask. split_and!; try done; try lia; [unfold zlen in Hk; lia | by apply unmask_bytes].
Qed.

(** [readFrame] is the check of the two bytes of the header, then the rest. *)
Lemma readFrame_eq h0 h1 r :
  readFrame tail limit (h0 :: h1 :: r) =
  (let fin := negb (Z.land h0 128 =? 0) in
   let opcode := Z.land h0 15 in
   let len7 := Z.land h1 127 in
   if (Z.land h0 112 =? 0) && known opcode && implb (control opcode) (fin && (len7 <=? 125)) && negb (Z.land h1 128 =? 0)
   then frame_rest fin opcode len7 r else (Err ErrWSInvalidFrame, r)).
Proof using Type.
  unfold readFrame. erewrite reader_bind_eq by exact (ws_ReadFull_app 2 [h0; h1] r eq_refl). cbn [nth]. cbv zeta.
  destruct (Z.land h0 112 =? 0); [| done]. cbn [negb andb].
  unfold known, control. case_decide as H1.
  - rewrite (bool_decide_true (_ ∈ _ :: _ :: _ :: _)) by set_solver.
    rewrite bool_decide_false by (by apply data_not_control).
    cbn [andb implb]. by destruct (Z.land h1 128 =? 0).
  - case_decide as H2.
    + rewrite (bool_decide_true (_ ∈ _ :: _ :: _ :: _ :: _)) by set_solver. rewrite bool_decide_true by done. cbn [andb implb].
      destruct (negb (Z.land h0 128 =? 0)); cbn [negb orb andb]; [| done]. rewrite Z.leb_antisym.
      destruct (125 <? _); [done |]. by destruct (Z.land h1 128 =? 0).
    + rewrite (bool_decide_false (_ ∈ _ :: _ :: _ :: _ :: _)) by set_solver. done.
Qed.
(** The two bytes of a legal header pass the check. *)
Lemma legal_header enc key f : legal limit enc key f ->
  let h0 := fin_bit (f_fin f) + f_opcode f in
  let len7 := len_code enc (zlen (f_payload f)) in
  Z.land h0 112 = 0 /\ negb (Z.land h0 128 =? 0) = f_fin f /\ Z.land h0 15 = f_opcode f /\ 0 <= len7 < 128 /\
  implb (control (f_opcode f)) (f_fin f && (len7 <=? 125)) = true.
Proof using Type.
  intros [Ho Hc Hf _ _ _]. cbv zeta. pose proof (zlen_nonneg (f_payload f)) as Hz.
  assert (Hl : 0 <= len_code enc (zlen (f_payload f)) < 128) by (destruct enc; cbn in *; lia).
  destruct f as [o fin p]. cbn [f_opcode f_fin f_payload] in *.
  assert (Hi : implb (control o) (fin && (len_code enc (zlen p) <=? 125)) = true).
  { destruct (control o); [| done]. destruct Hc as [-> ->]; [done |]. cbn in *. by apply Z.leb_le. }
  unfold known in Ho. apply bool_decide_eq_true in Ho. split_and!; try done; try lia.
  all: rewrite !elem_of_cons, elem_of_nil in Ho; destruct_or!; try done; subst o; by destruct fin.
Qed.

Lemma readFrame_encoded enc key f r :
  legal limit enc key f -> readFrame tail limit (client_frame enc key f ++ r) = (Ok f, r).
Proof using Type.
  intros HL. destruct (legal_header _ _ _ HL) as (H1 & H2 & H3 & H4 & H5). destruct HL as [Ho _ Hf Hl [Hk _] _].
  unfold client_frame. rewrite <- !app_assoc. change ([?a; ?b] ++ ?l) with (a :: b :: l).
  rewrite readFrame_eq. cbv zeta. destruct (len_byte _ H4) as [E1 E2]. rewrite H1, H2, H3, E1, E2, Ho, H5. cbn [Z.eqb andb negb].
  destruct f as [o fin p]. by apply frame_rest_encoded.
Qed.

(** The bytes that are accepted. *)
Lemma readFrame_legal r f rest :
  Forall is_byte r ->
  readFrame tail limit r = (Ok f, rest) <->
  exists enc key, legal limit enc key f /\ r = client_frame enc key f ++ rest.
Proof using Type.
  intros HB. split; [| intros (enc & key & HL & ->); by apply readFrame_encoded].
  intros E. destruct r as [| h0 [| h1 r]]; [done | done |]. rewrite readFrame_eq in E. cbv zeta in E.
  apply Forall_cons in HB as [Hb0 HB]. apply Forall_cons in HB as [Hb1 HB].
  destruct (_ && _) eqn:Ec in E; [| done]. rewrite !andb_true_iff, negb_true_iff, Z.eqb_eq, Z.eqb_neq in Ec.
  destruct Ec as (((E0 & Hk) & Hc) & Hm). apply first_byte in E0; [| done]. apply second_byte in Hm as [Em Hl]; [| done].
  apply frame_rest_inv in E as (enc & key & p & -> & El & Hf & Hlim & Hk4 & Hkb & Hp & ->); [| done | done].
  exists enc, key. split.
  - split; cbn [f_opcode f_fin f_payload]; try done. intros Hctl. rewrite Hctl in Hc. cbn in Hc.
    apply andb_prop in Hc as [Hfin Hle%Z.leb_le]. split; [done |]. rewrite El in Hle. by destruct enc; cbn in Hle; [| lia | lia].
  - unfold client_frame. cbn [f_opcode f_fin f_payload]. rewrite <- !app_assoc. cbn [app]. rewrite <- E0, <- El, <- Em. done.
Qed.

Lemma shortest_fits n : n < 18446744073709551616 -> len_fits (shortest n) n.
Proof using Type. unfold shortest. repeat zcase; cbn; lia. Qed.

(** The frames of the RFC, and those with a length that is too long. *)
Lemma legal_rfc enc key f : limit < 9223372036854775808 ->
  legal limit enc key f <-> rfc_legal key f /\ zlen (f_payload f) <= limit /\ (enc = shortest (zlen (f_payload f)) \/ overlong enc f).
Proof using Type.
  intros Hlim. split.
  - intros [H1 H2 H3 H4 H5 H6]. split; [split; try done; try lia; intros Hc; destruct (H2 Hc) as [? ->]; done |]. split; [done |].
    assert (D : {enc = shortest (zlen (f_payload f))} + {enc <> shortest (zlen (f_payload f))}) by (decide equality).
    destruct D as [-> | Hne]; [by left |]. right. split; [done |]. split; [| done]. destruct (control (f_opcode f)); [| done].
    destruct (H2 eq_refl) as [_ ->]. cbn in H3. unfold shortest in Hne. rewrite (proj2 (Z.leb_le _ _) H3) in Hne. done.
  - intros ([H1 H2 H3 H4 H5] & Hl & [-> | (Hne & Hc & Hf)]); split; try done.
    + intros Hc. destruct (H2 Hc) as [Hfin Hz]. split; [done |]. unfold shortest. by rewrite (proj2 (Z.leb_le _ _) Hz).
    + apply shortest_fits. lia.
    + by rewrite Hc.
Qed.

(** C39: [readFrame] accepts every frame that RFC 6455 lets a client send (reserved bits
    clear, a known opcode, control frames whole and at most 125 bytes, masked, the length
    in as few bytes as it needs) and that is within the limit, and gives its payload
    unmasked.  It accepts nothing else but data frames of this kind whose length is written
    in more bytes than it needs, which the RFC forbids; the limit is a 64-bit int. *)
Theorem readFrame_exact r f rest :
  Forall is_byte r -> limit < 9223372036854775808 ->
  readFrame tail limit r = (Ok f, rest) <->
  exists enc key, rfc_legal key f /\ zlen (f_payload f) <= limit /\
    (enc = shortest (zlen (f_payload f)) \/ overlong enc f) /\ r = client_frame enc key f ++ rest.
Proof using Type.
  intros HB Hlim. rewrite readFrame_legal by done. split.
  - intros (enc & key & (H1 & H2 & H3)%legal_rfc & E); [| done]. by exists enc, key.
  - intros (enc & key & H1 & H2 & H3 & E). exists enc, key. split; [by apply legal_rfc | done].
Qed.

End Frames.

(** ** Writing *)

(** How a client reads a frame from the server: unmasked, any length. *)
Definition server_frame (r : bytes) : option (Z * bool * bytes * bytes) :=
  match r with
  | h0 :: h1 :: r =>
      let '(ext, n) :=
        if h1 =? 126 then (2%nat, be_value (take 2 r))
        else if h1 =? 127 then (8%nat, be_value (take 8 r))
        else (0%nat, h1) in
      let r := drop ext r in
      if zlen r <? n then None
      else Some (Z.land h0 15, negb (Z.land h0 128 =? 0), take (Z.to_nat n) r, drop (Z.to_nat n) r)
  | _ => None
  end.

Lemma opcode_byte o : 0 <= o < 16 -> Z.land (Z.land (Z.lor 128 o) 255) 15 = o /\ Z.land (Z.land (Z.lor 128 o) 255) 128 = 128.
Proof.
  intros Ho. pose proof (byte_cases (fun o => (15 <? o) || bool_decide (Z.land (Z.land (Z.lor 128 o) 255) 15 = o /\
    Z.land (Z.land (Z.lor 128 o) 255) 128 = 128)) ltac:(by vm_compute) o) as H.
  cbn beta in H. rewrite (proj2 (Z.ltb_ge _ _)) in H by lia. apply bool_decide_eq_true in H; [done |]. unfold is_byte. lia.
Qed.

(** what [writeFrame] writes is one whole frame: a peer reads the opcode and the
    payload, and then what comes after it, whatever the length of the payload. *)
Theorem server_frame_roundtrip opcode payload ws rest :
  ws_open ws = true -> 0 <= opcode < 16 -> zlen payload < 18446744073709551616 ->
  exists buf, ws_out (writeFrame opcode payload ws).1 = ws_out ws ++ buf /\ (writeFrame opcode payload ws).2 = None /\
    server_frame (buf ++ rest) = Some (opcode, true, payload, rest).
Proof.
  intros Hopen Ho Hp. unfold writeFrame. rewrite Hopen. eexists. split; [done |]. split; [done |].
  pose proof (zlen_nonneg payload) as Hz. destruct (opcode_byte opcode Ho) as [E1 E2].
  assert (Hend : forall h0, Z.land h0 15 = opcode -> Z.land h0 128 = 128 ->
    (if zlen (payload ++ rest) <? zlen payload then None
     else Some (Z.land h0 15, negb (Z.land h0 128 =? 0), take (Z.to_nat (zlen payload)) (payload ++ rest),
                drop (Z.to_nat (zlen payload)) (payload ++ rest))) = Some (opcode, true, payload, rest)).
  { intros h0 -> ->. zcase; [zl |]. unfold zlen. by rewrite Nat2Z.id, take_app_length, drop_app_length. }
  unfold frame_header. repeat zcase; rewrite <- app_assoc; cbn [app server_frame].
  - zcase; [lia |]. zcase; [lia |]. rewrite drop_0. by apply Hend.
  - change (126 =? 126) with true. cbv iota. rewrite take_app_length' by (by rewrite be_bytes_length).
    rewrite drop_app_length' by (by rewrite be_bytes_length). rewrite be_value_bytes by (change (256 ^ Z.of_nat 2) with 65536; lia). by apply Hend.
  - change (127 =? 126) with false. change (127 =? 127) with true. cbv iota. rewrite take_app_length' by (by rewrite be_bytes_length).
    rewrite drop_app_length' by (by rewrite be_bytes_length).
    rewrite be_value_bytes by (change (256 ^ Z.of_nat 8) with 18446744073709551616; lia). by apply Hend.
Qed.
