(* ===== verification/WsProof.v ===== *)
(** * Messages and the listening loop

    What [Listen] and [ReadMessage] make of the frames that a peer sends: messages in
    fragments, pings, pongs and the closing frame. *)
From S2P Require Import Prelude GoBytes WsConn WsFrames.

(** ** What a peer sends *)

(** A fragment: its data, how its length is written, and its mask. *)
Record piece := mkPiece { p_enc : lenc; p_key : bytes; p_data : bytes }.

Definition piece_frame (opcode : Z) (fin : bool) (p : piece) : frame := mkFrame opcode fin (p_data p).
Definition piece_wire (opcode : Z) (fin : bool) (p : piece) : bytes := client_frame (p_enc p) (p_key p) (piece_frame opcode fin p).
Definition piece_legal (limit opcode : Z) (fin : bool) (p : piece) : Prop := legal limit (p_enc p) (p_key p) (piece_frame opcode fin p).

(** A message in fragments: the first has the type of the message, the others continue it. *)
Fixpoint fragments (opcode : Z) (p : piece) (ps : list piece) : bytes :=
  match ps with
  | [] => piece_wire opcode true p
  | p' :: ps => piece_wire opcode false p ++ fragments continuationFrame p' ps
  end.

Fixpoint fragments_legal (limit opcode : Z) (p : piece) (ps : list piece) : Prop :=
  match ps with
  | [] => piece_legal limit opcode true p
  | p' :: ps => piece_legal limit opcode false p /\ fragments_legal limit continuationFrame p' ps
  end.

Definition message_data (ps : list piece) : bytes := concat (map p_data ps).

Inductive item := IMessage (t : Z) (p : piece) (ps : list piece) | IPing (p : piece) | IPong (p : piece).

Definition item_wire (x : item) : bytes :=
  match x with
  | IMessage t p ps => fragments t p ps
  | IPing p => piece_wire PingMessage true p
  | IPong p => piece_wire PongMessage true p
  end.

Definition item_legal (limit : Z) (x : item) : Prop :=
  match x with
  | IMessage t p ps =>
      t ∈ [TextMessage; BinaryMessage] /\ fragments_legal limit t p ps /\ zlen (message_data (p :: ps)) <= limit
  | IPing p => piece_legal limit PingMessage true p
  | IPong p => piece_legal limit PongMessage true p
  end.

Definition item_event (x : item) : event :=
  match x with
  | IMessage t p ps => OnMessage t (message_data (p :: ps))
  | IPing p => OnPing (p_data p)
  | IPong p => OnPong (p_data p)
  end.

(** How the peer ends: it sends a closing frame, and maybe more, or the connection ends. *)
Inductive ending := EndClose (p : piece) (rest : bytes) | EndCut.

Definition ending_wire (e : ending) : bytes :=
  match e with EndClose p rest => piece_wire CloseMessage true p ++ rest | EndCut => [] end.

Definition ending_legal (limit : Z) (e : ending) : Prop :=
  match e with EndClose p _ => piece_legal limit CloseMessage true p | EndCut => True end.

(** ** Fuel *)

Definition shrinks {A} (m : reader A) : Prop := forall r x r', m r = (x, r') -> (length r' <= length r)%nat.

Lemma shrinks_ret {A} (a : A) : shrinks (mret a).
Proof. by intros r x r' [= <- <-]. Qed.

Lemma shrinks_fail {A} e : shrinks (fail (A := A) e).
Proof. by intros r x r' [= <- <-]. Qed.

Lemma shrinks_bind {A B} (m : reader A) (f : A -> reader B) : shrinks m -> (forall a, shrinks (f a)) -> shrinks (m ≫= f).
Proof.
  intros Hm Hf r x r'. unfold mbind, reader_bind. destruct (m r) as [[a | e] r1] eqn:E; apply Hm in E.
  - intros H%Hf. lia.
  - by intros [= <- <-].
Qed.

Lemma shrinks_ReadFull tail n : shrinks (ReadFull tail n).
Proof. intros r x r'. unfold ReadFull. zcase; intros [= <- <-]; [cbn; lia |]. rewrite length_drop. lia. Qed.

Create HintDb shrinks discriminated.
#[local] Hint Resolve shrinks_ret shrinks_fail shrinks_bind shrinks_ReadFull : shrinks.

Section Messages.
Context (tail : wserr) (limit : Z).

Lemma frame_rest_shrinks fin opcode len7 : shrinks (frame_rest tail limit fin opcode len7).
Proof using Type.
  unfold frame_rest. apply shrinks_bind; [repeat case_match; auto with shrinks |].
  intros n. case_match; auto with shrinks.
Qed.

Lemma readFrame_shrinks r f r' : readFrame tail limit r = (Ok f, r') -> (length r' < length r)%nat.
Proof using Type.
  destruct r as [| h0 [| h1 r]]; [done | done |]. rewrite readFrame_eq. cbv zeta. case_match; [| done].
  intros E%frame_rest_shrinks. cbn. lia.
Qed.

(** More fuel than bytes changes nothing. *)
Lemma readMessage_fuel n1 : forall n2 t buf r, (length r < n1)%nat -> (length r < n2)%nat ->
  readMessage_loop tail limit n1 t buf r = readMessage_loop tail limit n2 t buf r.
Proof using Type.
  induction n1 as [| n1 IH]; intros [| n2] t buf r H1 H2; [lia | lia | lia |]. cbn [readMessage_loop].
  unfold mbind, reader_bind. destruct (readFrame tail limit r) as [[[o fin d] | e] r1] eqn:E; [| done].
  apply readFrame_shrinks in E. repeat case_match; try done; apply IH; lia.
Qed.

(** ** Messages *)

Lemma piece_read opcode fin p r :
  piece_legal limit opcode fin p -> readFrame tail limit (piece_wire opcode fin p ++ r) = (Ok (mkFrame opcode fin (p_data p)), r).
Proof using Type. apply readFrame_encoded. Qed.

Lemma message_data_cons p ps : message_data (p :: ps) = p_data p ++ message_data ps.
Proof using Type. done. Qed.

(** One round, for a given frame. *)
Definition after_frame (fuel : nat) (msgType : Z) (buf : bytes) (f : frame) : reader (Z * bytes) :=
  let '(mkFrame opcode fin data) := f in
  if decide (opcode ∈ [CloseMessage; PingMessage; PongMessage]) then mret (opcode, data)
  else if opcode =? continuationFrame then
    if msgType =? 0 then fail ErrWSInvalidFrame
    else if limit <? zlen buf + zlen data then fail ErrWSInvalidFrame
    else if fin then mret (msgType, buf ++ data) else readMessage_loop tail limit fuel msgType (buf ++ data)
  else if negb (msgType =? 0) then fail ErrWSInvalidFrame
  else if fin then mret (opcode, data)
  else readMessage_loop tail limit fuel opcode (buf ++ data).

Lemma loop_frame fuel t buf r f r1 :
  readFrame tail limit r = (Ok f, r1) -> readMessage_loop tail limit (S fuel) t buf r = after_frame fuel t buf f r1.
Proof using Type. intros E. cbn [readMessage_loop]. erewrite reader_bind_eq by done. by destruct f. Qed.

Lemma continued ps : forall p t buf fuel r,
  (length ps < fuel)%nat -> t <> 0 -> fragments_legal limit continuationFrame p ps ->
  zlen buf + zlen (message_data (p :: ps)) <= limit ->
  readMessage_loop tail limit fuel t buf (fragments continuationFrame p ps ++ r) = (Ok (t, buf ++ message_data (p :: ps)), r).
Proof using Type.
  induction ps as [| p' ps IH]; intros p t buf [| fuel] r Hf Ht HL Hlim; try (cbn in Hf; lia); cbn [fragments fragments_legal] in *.
  - rewrite (loop_frame _ _ _ _ _ _ (piece_read _ _ _ _ HL)). unfold after_frame. rewrite decide_False by (by apply data_not_control; left).
    rewrite message_data_cons in *. cbn [message_data map concat] in *. rewrite app_nil_r in *.
    rewrite Z.eqb_refl, (proj2 (Z.eqb_neq _ _) Ht), (proj2 (Z.ltb_ge _ _)) by lia. done.
  - destruct HL as [HL HLs]. rewrite <- app_assoc, (loop_frame _ _ _ _ _ _ (piece_read _ _ _ _ HL)). unfold after_frame.
    rewrite decide_False by (by apply data_not_control; left). rewrite message_data_cons, zlen_app in Hlim.
    pose proof (zlen_nonneg (message_data (p' :: ps))).
    rewrite Z.eqb_refl, (proj2 (Z.eqb_neq _ _) Ht), (proj2 (Z.ltb_ge _ _)) by lia. rewrite IH; [| cbn in Hf; lia | done | done | rewrite zlen_app; lia].
    by rewrite (message_data_cons p), app_assoc.
Qed.

Lemma client_frame_length enc key f : (2 <= length (client_frame enc key f))%nat.
Proof using Type. unfold client_frame. cbn. lia. Qed.

Lemma fragments_length ps : forall opcode p, (length ps < length (fragments opcode p ps))%nat.
Proof using Type.
  induction ps as [| p' ps IH]; intros opcode p; cbn [fragments].
  - pose proof (client_frame_length (p_enc p) (p_key p) (piece_frame opcode true p)). unfold piece_wire. cbn [length]. lia.
  - rewrite length_app. specialize (IH continuationFrame p').
    pose proof (client_frame_length (p_enc p) (p_key p) (piece_frame opcode false p)). unfold piece_wire in *. cbn [length]. lia.
Qed.

(** A message in any number of fragments is put together. *)
Lemma message_read t p ps r :
  t ∈ [TextMessage; BinaryMessage] -> fragments_legal limit t p ps -> zlen (message_data (p :: ps)) <= limit ->
  readMessage tail limit (fragments t p ps ++ r) = (Ok (t, message_data (p :: ps)), r).
Proof using Type.
  intros Ht HL Hlim. unfold readMessage.
  assert (Hctl : t ∉ [CloseMessage; PingMessage; PongMessage]) by (apply data_not_control; set_solver).
  assert (Ht0 : t <> 0) by (rewrite !elem_of_cons, elem_of_nil in Ht; unfold TextMessage, BinaryMessage in Ht; lia).
  assert (Hb : (t =? continuationFrame) = false) by (apply Z.eqb_neq; done).
  pose proof (fragments_length ps t p) as Hlen. destruct ps as [| p' ps]; cbn [fragments fragments_legal] in *.
  - rewrite (loop_frame _ _ _ _ _ _ (piece_read _ _ _ _ HL)). unfold after_frame. rewrite decide_False, Hb by done.
    cbn [negb Z.eqb]. by rewrite message_data_cons, app_nil_r.
  - destruct HL as [HL HLs]. rewrite <- app_assoc, (loop_frame _ _ _ _ _ _ (piece_read _ _ _ _ HL)). unfold after_frame.
    rewrite decide_False, Hb by done. cbn [negb Z.eqb app]. rewrite message_data_cons, zlen_app in Hlim.
    rewrite !length_app in *. cbn [length] in *.
    rewrite (continued ps p' t (p_data p)); [done | lia | done | done | lia].
Qed.

Lemma control_read opcode p r :
  opcode ∈ [CloseMessage; PingMessage; PongMessage] -> piece_legal limit opcode true p ->
  readMessage tail limit (piece_wire opcode true p ++ r) = (Ok (opcode, p_data p), r).
Proof using Type.
  intros Ho HL. unfold readMessage. rewrite (loop_frame _ _ _ _ _ _ (piece_read _ _ _ _ HL)). unfold after_frame. by rewrite decide_True.
Qed.

Lemma end_read : readMessage tail limit [] = (Err tail, []).
Proof using Type. done. Qed.

End Messages.

(** ** The loop *)

Section Listen.
Context (tail : wserr) (react : event -> list (Z * bytes)).

Definition message_bytes (m : Z * bytes) : bytes := frame_header m.1 (zlen m.2) ++ m.2.
Definition written (ms : list (Z * bytes)) : bytes := concat (map message_bytes ms).

(** The messages the server sends for what it reads: those of the callback, and the
    answers that the protocol asks for. *)
Definition answers (x : item) : list (Z * bytes) :=
  react (item_event x) ++ match x with IPing p => [(PongMessage, p_data p)] | _ => [] end.

Definition ending_event (e : ending) : event :=
  match e with EndClose p _ => let '(c, t) := parseClosePayload (p_data p) in OnClose c t | EndCut => OnError tail end.

Definition ending_answers (e : ending) : list (Z * bytes) :=
  match e with EndClose p _ => [(CloseMessage, formatClosePayload (parseClosePayload (p_data p)).1 [])] | EndCut => [] end ++
  react (ending_event e).

Definition open_conn (input out : bytes) (size : Z) : WSConn := mkWS input out false true size.

Lemma write_all_out ms : forall input out closed size,
  write_all ms (mkWS input out closed true size) = mkWS input (out ++ written ms) closed true size.
Proof using Type.
  induction ms as [| [t d] ms IH]; intros input out closed size; cbn [write_all foldl written concat map].
  - by rewrite app_nil_r.
  - unfold write_all in IH. unfold WriteMessage, writeFrame. cbn [ws_open fst ws_in ws_out ws_closed ws_maxMessageSize].
    rewrite IH. by rewrite <- app_assoc.
Qed.

Lemma written_app a b : written (a ++ b) = written a ++ written b.
Proof using Type. unfold written. by rewrite map_app, concat_app. Qed.

Lemma written_cons m ms : written (m :: ms) = message_bytes m ++ written ms.
Proof using Type. done. Qed.

Definition limit_of (size : Z) : Z := messageLimit (open_conn [] [] size).

Lemma item_read x size r :
  item_legal (limit_of size) x ->
  readMessage tail (limit_of size) (item_wire x ++ r) =
  (Ok (match item_event x with OnMessage t d => (t, d) | OnPing d => (PingMessage, d) | OnPong d => (PongMessage, d) | _ => (0, []) end), r).
Proof using Type.
  destruct x as [t p ps | p | p]; cbn [item_legal item_wire item_event].
  - intros (Ht & HL & Hlim). by apply message_read.
  - apply control_read. set_solver.
  - apply control_read. set_solver.
Qed.

Lemma Listen_item fuel x r out size :
  item_legal (limit_of size) x ->
  Listen_loop tail react (S fuel) (open_conn (item_wire x ++ r) out size) =
  (let '(ws, log) := Listen_loop tail react fuel (open_conn r (out ++ written (answers x)) size) in (ws, item_event x :: log)).
Proof using Type.
  intros HL. cbn [Listen_loop]. change (messageLimit (open_conn _ out size)) with (limit_of size). cbn [ws_in open_conn].
  rewrite (item_read x size r HL). destruct x as [t p ps | p | p]; cbn [item_event item_legal] in *; unfold call, open_conn, set_in.
  - destruct HL as [Ht _]. rewrite !elem_of_cons, elem_of_nil in Ht.
    assert (E : (t =? PingMessage) = false /\ (t =? PongMessage) = false /\ (t =? CloseMessage) = false)
      by (unfold PingMessage, PongMessage, CloseMessage, TextMessage, BinaryMessage in *; rewrite !Z.eqb_neq; lia).
    destruct E as (-> & -> & ->). rewrite decide_True by set_solver. cbn [ws_in ws_out ws_closed ws_open ws_maxMessageSize].
    rewrite write_all_out. unfold answers. cbn [item_event]. by rewrite app_nil_r.
  - rewrite Z.eqb_refl. cbn [ws_in ws_out ws_closed ws_open ws_maxMessageSize]. rewrite write_all_out. unfold writeFrame, answers.
    cbn [item_event ws_open fst ws_in ws_out ws_closed ws_maxMessageSize]. rewrite written_app, written_cons. cbn [written map concat].
    by rewrite !app_nil_r, <- app_assoc.
  - change (PongMessage =? PingMessage) with false. rewrite Z.eqb_refl. cbn [ws_in ws_out ws_closed ws_open ws_maxMessageSize].
    rewrite write_all_out. unfold answers. cbn [item_event]. by rewrite app_nil_r.
Qed.

Lemma Listen_ending fuel e out size :
  ending_legal (limit_of size) e ->
  Listen_loop tail react (S fuel) (open_conn (ending_wire e) out size) =
  (mkWS (match e with EndClose _ rest => rest | EndCut => [] end) (out ++ written (ending_answers e)) true true size, [ending_event e]).
Proof using Type.
  intros HL. cbn [Listen_loop]. change (messageLimit (open_conn _ out size)) with (limit_of size). cbn [ws_in open_conn].
  destruct e as [p rest |]; cbn [ending_legal ending_wire] in *.
  - rewrite control_read by (done || set_solver). change (CloseMessage =? PingMessage) with false. change (CloseMessage =? PongMessage) with false.
    rewrite Z.eqb_refl. unfold handleClose, ending_answers, ending_event. destruct (parseClosePayload (p_data p)) as [c t].
    unfold writeCloseFrame, writeFrame, call, close_once, set_in, open_conn. cbn [ws_open fst ws_in ws_out ws_closed ws_maxMessageSize].
    rewrite write_all_out, written_app, written_cons. cbn [written map concat fst]. by rewrite !app_nil_r, <- app_assoc.
  - rewrite end_read. unfold handleError, set_in, open_conn, call, close_once. cbn [ws_closed].
    rewrite write_all_out. done.
Qed.

Lemma Listen_script xs : forall fuel e out size,
  (length xs < fuel)%nat -> Forall (item_legal (limit_of size)) xs -> ending_legal (limit_of size) e ->
  Listen_loop tail react fuel (open_conn (concat (map item_wire xs) ++ ending_wire e) out size) =
  (mkWS (match e with EndClose _ rest => rest | EndCut => [] end)
     (out ++ written (concat (map answers xs) ++ ending_answers e)) true true size,
   map item_event xs ++ [ending_event e]).
Proof using Type.
  induction xs as [| x xs IH]; intros [| fuel] e out size Hf HX HE; try (cbn in Hf; lia); cbn [map concat app].
  - by apply Listen_ending.
  - apply Forall_cons in HX as [Hx HX]. rewrite <- app_assoc, Listen_item by done. rewrite IH by (cbn in Hf; auto with lia).
    rewrite !written_app. by rewrite <- !app_assoc.
Qed.

Lemma item_wire_length x : (0 < length (item_wire x))%nat.
Proof using Type.
  destruct x as [t p ps | p | p]; cbn [item_wire]; [pose proof (fragments_length ps t p); lia | |];
    unfold piece_wire; match goal with |- context [client_frame ?a ?b ?c] => pose proof (client_frame_length a b c) end; lia.
Qed.

Lemma script_length xs : (length xs <= length (concat (map item_wire xs)))%nat.
Proof using Type.
  induction xs as [| x xs IH]; cbn [map concat length]; [done |]. rewrite length_app. pose proof (item_wire_length x). lia.
Qed.

(** C38: [Listen] gives every message to the callback, whole and once, in the order sent,
    however it was cut into fragments, answers every ping with its data, writes what the
    callbacks write in that order, and ends with the closing frame, which it answers with
    its code, or with the error of the connection; then the connection is marked closed.
    (Control frames lie between messages.) *)
Theorem listen_delivers xs e out size :
  Forall (item_legal (limit_of size)) xs -> ending_legal (limit_of size) e ->
  Listen tail react (open_conn (concat (map item_wire xs) ++ ending_wire e) out size) =
  (mkWS (match e with EndClose _ rest => rest | EndCut => [] end)
     (out ++ written (concat (map answers xs) ++ ending_answers e)) true true size,
   map item_event xs ++ [ending_event e]).
Proof using Type.
  intros HX HE. apply Listen_script; [| done | done]. cbn [ws_in open_conn]. rewrite length_app. pose proof (script_length xs). lia.
Qed.

End Listen.
