(* ===== verification/WsCases.v ===== *)
(** * WebSocket connections: bounds and concrete peers *)
From S2P Require Import Prelude GoStrings GoSort GoBytes HttpResponse WsConn WsFrames WsProof.

(** ** The limit *)

Section Bounds.
Context (tail : wserr) (limit : Z) (limit_pos : 0 <= limit).

Lemma ReadFull_size n b r r' : ReadFull tail n r = (Ok b, r') -> zlen b <= Z.max 0 n.
Proof using Type. unfold ReadFull. zcase; [done |]. intros [= <- <-]. rewrite zlen_take. lia. Qed.

Lemma frame_bounded r f r' : readFrame tail limit r = (Ok f, r') -> zlen (f_payload f) <= limit.
Proof using limit_pos.
  destruct r as [| h0 [| h1 r]]; [done | done |]. rewrite readFrame_eq. cbv zeta. case_match; [| done]. unfold frame_rest.
  intros E. apply reader_bind_ok in E as (n & r1 & _ & E). zcase_in E; [done |].
  apply reader_bind_ok in E as (key & r2 & _ & E). apply reader_bind_ok in E as (p & r3 & E3 & E). injection E as <- _.
  apply ReadFull_size in E3. cbn [f_payload]. unfold zlen. rewrite unmask_length. fold (zlen p). lia.
Qed.

Lemma loop_bounded fuel : forall t buf r m d r',
  readMessage_loop tail limit fuel t buf r = (Ok (m, d), r') -> (t = 0 -> buf = []) -> zlen d <= limit.
Proof using limit_pos.
  induction fuel as [| fuel IH]; intros t buf r m d r' E Hbuf; [done |]. cbn [readMessage_loop] in E.
  apply reader_bind_ok in E as ([o fin data] & r1 & Ef & E). apply frame_bounded in Ef. cbn [f_payload] in Ef.
  case_decide; [by injection E as _ <- _ |]. destruct (o =? continuationFrame) eqn:Eo.
  - destruct (t =? 0) eqn:Et; [done |]. destruct (limit <? _) eqn:El; [done |].
    apply Z.ltb_ge in El. apply Z.eqb_neq in Et. destruct fin.
    + injection E as _ <- _. rewrite zlen_app. lia.
    + eapply IH; [done |]. done.
  - destruct (t =? 0) eqn:Et; [| done]. cbn [negb] in E. destruct fin; [by injection E as _ <- _ |]. apply Z.eqb_neq in Eo. eapply IH; [done |]. intros ->. by destruct Eo.
Qed.

(** whatever the peer sends, a message that is accepted has at most as many bytes as
    the limit, over all its fragments. *)
Theorem message_bounded r t d r' : readMessage tail limit r = (Ok (t, d), r') -> zlen d <= limit.
Proof using limit_pos. intros E. eapply loop_bounded; [done |]. done. Qed.

End Bounds.

(** ** A peer *)

Definition ex_piece (s : string) : piece := mkPiece L7 [1; 2; 3; 4] (string_bytes s).

Definition ex_items : list item :=
  [IMessage TextMessage (ex_piece "Hel") [ex_piece "lo"]; IPing (ex_piece "beat"); IMessage BinaryMessage (ex_piece "x") []].

Definition ex_end : ending := EndClose (mkPiece L7 [9; 9; 9; 9] (formatClosePayload 1001 (string_bytes "bye"))) [].

(** An echo server. *)
Definition echo (e : event) : list (Z * bytes) := match e with OnMessage t d => [(t, d)] | _ => [] end.

Lemma ex_items_legal : Forall (item_legal (limit_of 0)) ex_items.
Proof.
  repeat constructor; cbn -[zlen]; try (by vm_compute); try set_solver.
  all: try (repeat constructor; by vm_compute).
Qed.

Lemma ex_end_legal : ending_legal (limit_of 0) ex_end.
Proof. repeat constructor; by vm_compute. Qed.

Lemma readFrame_exact_witness :
  readFrame EOF 65536 (client_frame L7 [1; 2; 3; 4] (mkFrame 1 true [104; 105])) = (Ok (mkFrame 1 true [104; 105]), []).
Proof.
  apply (readFrame_exact EOF 65536); [by vm_compute; repeat constructor | done |].
  exists L7, [1; 2; 3; 4]. split; [split; try done; repeat constructor; done |]. split; [done |]. split; [by left | by rewrite app_nil_r].
Defined.

Lemma server_frame_roundtrip_witness :
  exists buf, ws_out (writeFrame TextMessage (string_bytes "hi") (mkWS [] [] false true 0)).1 = buf /\
    server_frame buf = Some (TextMessage, true, string_bytes "hi", []).
Proof.
  destruct (server_frame_roundtrip TextMessage (string_bytes "hi") (mkWS [] [] false true 0) [] eq_refl ltac:(by vm_compute) ltac:(by vm_compute))
    as (buf & E1 & _ & E3). exists buf. split; [exact E1 |]. rewrite app_nil_r in E3. exact E3.
Defined.

Lemma listen_delivers_witness :
  (Listen EOF echo (open_conn (concat (map item_wire ex_items) ++ ending_wire ex_end) [] 0)).2 =
  [OnMessage TextMessage (string_bytes "Hello"); OnPing (string_bytes "beat"); OnMessage BinaryMessage (string_bytes "x");
   OnClose 1001 (string_bytes "bye")].
Proof. rewrite (listen_delivers EOF echo ex_items ex_end [] 0 ex_items_legal ex_end_legal). by vm_compute. Defined.

Lemma message_bounded_witness : zlen (string_bytes "Hello") <= 100.
Proof.
  apply (message_bounded EOF 100 ltac:(lia) (fragments TextMessage (ex_piece "Hel") [ex_piece "lo"]) TextMessage _ []). by vm_compute.
Defined.

(** ** Control frames inside a message *)

(** RFC 6455 lets a peer send a ping between the fragments of a message, and a client
    sends one on a timer.  [readMessage] then forgets the fragments it has read: the
    ping is answered, and the continuation is refused. *)
Definition ex_interleaved : bytes :=
  piece_wire TextMessage false (ex_piece "Hel") ++ piece_wire PingMessage true (ex_piece "beat") ++
  piece_wire continuationFrame true (ex_piece "lo").

Example ping_inside_message :
  (Listen EOF echo (open_conn ex_interleaved [] 0)).2 = [OnPing (string_bytes "beat"); OnError ErrWSInvalidFrame].
Proof. by vm_compute. Qed.

(** A length in more bytes than it needs, which the RFC forbids, is accepted. *)
Example long_length :
  readFrame EOF 65536 (client_frame L64 [0; 0; 0; 0] (mkFrame 1 true [104])) = (Ok (mkFrame 1 true [104]), []).
Proof. by vm_compute. Qed.

(** ** The handshake *)

Definition ex_header : header :=
  {[ "Connection" := ["keep-alive, Upgrade"]; "Upgrade" := ["websocket"]; "Sec-Websocket-Version" := ["13"];
     "Sec-Websocket-Key" := ["dGhlIHNhbXBsZSBub25jZQ=="]; "Sec-Websocket-Protocol" := ["chat, superchat"] ]}.

Definition ex_context : Context := newContext (mkWriter ∅ None "").

Example handshake_ok :
  (Upgrade "GET" ex_header (Some (mkUpgrade 1024 None ["superchat"; "chat"])) (Some ([], true)) ex_context).2 =
  Ok (mkWS [] (handshake "dGhlIHNhbXBsZSBub25jZQ==" "superchat") false true 1024).
Proof. by vm_compute. Qed.

Example handshake_refused :
  (Upgrade "GET" (delete "Sec-Websocket-Key" ex_header) None (Some ([], true)) ex_context).2 = Err "websocket: missing key".
Proof. by vm_compute. Qed.

(** The refusal is sent when the handler returns. *)
Example refusal_sent :
  let c := respond (fun o => match o with JMessage m => Some m | _ => None end) None
             (Upgrade "POST" ex_header None None ex_context).1 in
  (w_status (c_Writer c), w_body (c_Writer c)) = (Some 405, "websocket: request method is not GET").
Proof. by vm_compute. Qed.
