(* ===== verification/TfModel.v ===== *)
(** * Executions of tasks

    [apps/task_flow/server/internal]: the statuses of an execution and the table it is
    kept in ([model/po], [dao]), claims ([idem]), and the goroutines that move it on:
    [engine/dispatcher.go], [engine/components.go], [engine/executor.go],
    [engine/condition.go], the sweeps of [engine/monitor.go], [registerFire] of
    [engine/migrator.go] and the handlers of [server/api.go].  A goroutine is a program
    of calls to the database, Redis, the queues, the transaction manager and the agent. *)
From stdpp Require Import pretty.
From S2P Require Import Prelude GoStrings GoProg.

(** ** [model/po] *)

Inductive Status :=
  | StatusPending | StatusReserved | StatusQueued | StatusRunning | StatusSucceeded | StatusFailed | StatusCancelled.

#[export] Instance Status_eq_dec : EqDecision Status.
Proof. solve_decision. Defined.

Definition TaskTypeScheduled : string := "scheduled".
Definition TaskTypeCondition : string := "condition".
Definition TaskTypeManual : string := "manual".

Definition status_text (s : Status) : string :=
  match s with
  | StatusPending => "pending" | StatusReserved => "reserved" | StatusQueued => "queued" | StatusRunning => "running"
  | StatusSucceeded => "succeeded" | StatusFailed => "failed" | StatusCancelled => "cancelled"
  end.

(** Times are in nanoseconds.  The columns that only reports and the console read are
    left out. *)
Record Execution := mkExec {
  e_ID : Z;
  e_TaskType : string;
  e_TaskID : Z;
  e_FireKey : string;
  e_TxID : string;
  e_Status : Status;
  e_FireAt : Z;
  e_UpdatedAt : Z;
  e_Error : string
}.

Record ScheduledTask := mkSched {
  st_ID : Z; st_CronExpr : string; st_Timezone : string; st_Enabled : bool; st_CreatedAt : Z; st_NextFireAt : option Z }.
Record ConditionTask := mkCondTask { ct_ID : Z; ct_Enabled : bool }.

(** The creation time of a record, and whether it has one. *)
Record RiskRecord := mkRecord { rr_ID : Z; rr_CreatedAt : option Z }.

(** ** Commands and events *)

Record ExecCommand := mkCmd { cmd_ExecutionID : Z; cmd_TxID : string; cmd_FireKey : string }.

#[export] Instance ExecCommand_eq_dec : EqDecision ExecCommand.
Proof. solve_decision. Defined.

Record CondEvent := mkCondEvent {
  ev_ExecutionID : Z; ev_FireKey : string; ev_TaskID : Z; ev_RecordID : Z; ev_OccurredAt : option Z }.

Record FireCallback := mkFire { fc_ExecutionID : Z; fc_FireKey : string }.

(** ** Calls *)

Inductive err := NotFound | Failed (msg : string).

(** The columns that a transition sets beside the status. *)
Record Updates := mkUpd { u_tx_id : option string; u_error : option string }.

Definition no_updates : Updates := mkUpd None None.

Inductive call : Type -> Type :=
  (* dao *)
  | Transition (id : Z) (from : list Status) (to : Status) (u : Updates) : call (result err Z)
  | TransitionOwned (id : Z) (txID : string) (from : list Status) (to : Status) (u : Updates) : call (result err Z)
  | GetExecution (id : Z) : call (result err Execution)
  | GetExecutionByFireKey (fireKey : string) : call (result err Execution)
  | InsertPending (e : Execution) : call (result err (bool * Z))
  | FindTX (txID : string) : call (result err Z)
  | GetScheduledTask (id : Z) : call (result err ScheduledTask)
  | GetConditionTask (id : Z) : call (result err ConditionTask)
  | GetRiskRecord (id : Z) : call (result err RiskRecord)
  | SetLastFire (task at_ : Z) : call (option err)
  (* idem: claims and the bloom filter *)
  | ClaimFire (fireKey : string) : call (result err bool)
  | ReleaseFire (fireKey : string) : call (option err)
  | MaybeSeen (fireKey : string) : call bool
  | MarkSeen (fireKey : string) : call unit
  (* the clock, time zones by name, and robfig/cron in a time zone *)
  | Now : call Z
  | LoadLocation (timezone : string) : call bool
  | CronParse (expr : string) : call bool
  | CronNext (loc expr : string) (after : Z) : call (option Z)
  | WaitOrDone : call bool
  (* queues, the time wheel in Redis and the transaction manager *)
  | SendExec (cmd : ExecCommand) : call (option err)
  | WheelAdd (fireKey : string) (callback : FireCallback) (at_ : Z) : call (option err)
  | EnabledScheduledTasks : call (result err (list ScheduledTask))
  | SetNextFire (task : Z) (expr timezone : string) (at_ : Z) : call (option err)
  | InvalidateScheduledTask (id : Z) : call unit
  | IsOwner (role : string) : call bool
  | LockRole (key : string) : call bool
  | UnlockRole (key : string) : call unit
  | CtxDone : call bool
  | Transaction (execID : Z) (fireKey : string) : call (result err (string * bool))
  (* the agent, reports, journal and ledger *)
  | LoadDefinition (id : Z) : call (option err)
  | AgentRun (id : Z) : call (option string)
  | RenderReport (id : Z) (runErr : option string) : call (option string)
  | WarmReport (id : Z) : call unit
  | RecordDispatch (fireKey : string) (id : Z) : call (option err)
  | RecordOutcome (fireKey : string) (id : Z) (status : Status) : call (option err)
  | ProposeLedger (key value : string) : call (option err).

Abbreviation prog := (GoProg.prog call).

(** ** [engine/dispatcher.go] *)

Definition matchesSchedule (task : ScheduledTask) (fireAt : Z) : prog bool :=
  loaded ← ask (LoadLocation (st_Timezone task));
  if negb loaded then mret false
  else
    parsed ← ask (CronParse (st_CronExpr task));
    if negb parsed then mret false
    else
      next ← ask (CronNext (st_Timezone task) (st_CronExpr task) (fireAt - 1));
      mret (bool_decide (next = Some fireAt)).

Definition releaseIfPending (exec : Execution) : prog unit :=
  r ← ask (GetExecution (e_ID exec));
  match r with
  | Err _ => mret tt
  | Ok fresh => if decide (e_Status fresh = StatusPending) then _ ← ask (ReleaseFire (e_FireKey fresh)); mret tt else mret tt
  end.

Definition claimStuckThreshold : Z := 300000000000.

Definition dispatched : Type := result err bool.

(** What remains once the fire key is claimed. *)
Definition dispatch_claimed (exec : Execution) : prog dispatched :=
  r ← ask (GetExecution (e_ID exec));
  match r with
  | Err e => _ ← releaseIfPending exec; mret (Err e)
  | Ok fresh =>
      if negb (bool_decide (e_Status fresh = StatusPending)) then mret (Ok false)
      else
        tx ← ask (Transaction (e_ID fresh) (e_FireKey fresh));
        match tx with
        | Err e => _ ← releaseIfPending fresh; mret (Err e)
        | Ok (_, false) => mret (Ok false)
        | Ok (_, true) =>
            _ ← ask (MarkSeen (e_FireKey fresh));
            _ ← ask (RecordDispatch (e_FireKey fresh) (e_ID fresh));
            _ ← ask (ProposeLedger ("dispatch:" +:+ e_FireKey fresh) (pretty (e_ID fresh)));
            mret (Ok true)
        end
  end.

Definition dispatch_claim (exec : Execution) : prog dispatched :=
  ok ← ask (ClaimFire (e_FireKey exec));
  match ok with
  | Err e => mret (Err e)
  | Ok true => dispatch_claimed exec
  | Ok false =>
      r ← ask (GetExecution (e_ID exec));
      match r with
      | Err e => mret (Err e)
      | Ok fresh =>
          if decide (e_Status fresh = StatusPending) then
            now ← ask Now;
            if claimStuckThreshold <? now - e_UpdatedAt fresh then dispatch_claimed exec else mret (Ok false)
          else mret (Ok false)
      end
  end.

Definition dispatch_seen (exec : Execution) : prog dispatched :=
  seen ← ask (MaybeSeen (e_FireKey exec));
  if (seen : bool) then
    r ← ask (GetExecutionByFireKey (e_FireKey exec));
    match r with
    | Ok existing =>
        if bool_decide (e_ID existing = e_ID exec) && negb (bool_decide (e_Status existing = StatusPending))
        then mret (Ok false) else dispatch_claim exec
    | Err _ => dispatch_claim exec
    end
  else dispatch_claim exec.

Definition cancel_changed (exec : Execution) : prog dispatched :=
  r ← ask (Transition (e_ID exec) [StatusPending] StatusCancelled
             (mkUpd None (Some "scheduled definition is disabled, deleted or changed")));
  mret (match r with Ok _ => Ok false | Err e => Err e end).

Definition Dispatch (exec : Execution) : prog dispatched :=
  now ← ask Now;
  if now <? e_FireAt exec then mret (Err (Failed "execution is not due"))
  else if bool_decide (e_TaskType exec = TaskTypeScheduled) && String.prefix "sched:" (e_FireKey exec) then
    r ← ask (GetScheduledTask (e_TaskID exec));
    match r with
    | Err NotFound => cancel_changed exec
    | Err e => mret (Err e)
    | Ok task =>
        if st_Enabled task then
          m ← matchesSchedule task (e_FireAt exec);
          if (m : bool) then dispatch_seen exec else cancel_changed exec
        else cancel_changed exec
    end
  else dispatch_seen exec.

(** ** [engine/components.go] *)

(** Answers of a component: [Ok ack] or an error. *)
Definition reserve_Try (txID : string) (execID : Z) : prog (result err bool) :=
  r ← ask (Transition execID [StatusPending] StatusReserved (mkUpd (Some txID) None));
  match r with
  | Err e => mret (Err e)
  | Ok affected =>
      if affected =? 1 then mret (Ok true)
      else
        r ← ask (GetExecution execID);
        match r with
        | Err e => mret (Err e)
        | Ok exec =>
            mret (Ok (bool_decide (e_TxID exec = txID) && negb (bool_decide (e_Status exec = StatusPending)) &&
                      negb (bool_decide (e_Status exec = StatusCancelled))))
        end
  end.

(** [execIDForTX]: 0 when no row has the transaction. *)
Definition execIDForTX (txID : string) : prog (result err Z) :=
  r ← ask (FindTX txID);
  mret (match r with Ok id => Ok id | Err NotFound => Ok 0 | Err e => Err e end).

Definition reserve_Confirm (txID : string) : prog (result err bool) :=
  r ← execIDForTX txID;
  match r with
  | Err e => mret (Err e)
  | Ok execID =>
      if execID =? 0 then mret (Ok true)
      else
        r ← ask (TransitionOwned execID txID [StatusReserved] StatusQueued no_updates);
        match r with
        | Err e => mret (Err e)
        | Ok affected =>
            if affected =? 1 then mret (Ok true)
            else
              r ← ask (GetExecution execID);
              mret match r with
              | Err e => Err e
              | Ok exec =>
                  if bool_decide (e_TxID exec = txID) &&
                     bool_decide (e_Status exec ∈ [StatusQueued; StatusRunning; StatusSucceeded; StatusFailed])
                  then Ok true else Err (Failed "confirm failed")
              end
        end
  end.

Definition reserve_Cancel (txID : string) : prog (result err bool) :=
  r ← execIDForTX txID;
  match r with
  | Err e => mret (Err e)
  | Ok execID =>
      if execID =? 0 then mret (Ok true)
      else
        r ← ask (GetExecution execID);
        match r with
        | Err e => mret (Err e)
        | Ok exec =>
            if negb (bool_decide (e_TxID exec = txID)) then mret (Ok true)
            else if negb (bool_decide (e_Status exec = StatusReserved)) then mret (Ok true)
            else
              r ← ask (TransitionOwned execID txID [StatusReserved] StatusPending (mkUpd (Some "") None));
              match r with
              | Err e => mret (Err e)
              | Ok affected =>
                  _ ← (if affected =? 1 then ask (ReleaseFire (e_FireKey exec)) else mret None);
                  mret (Ok true)
              end
        end
  end.

Definition mq_Try (txID : string) (execID : Z) (fireKey : string) : prog (result err bool) :=
  r ← ask (SendExec (mkCmd execID txID fireKey));
  mret (match r with Some e => Err e | None => Ok true end).

(** ** [engine/executor.go] *)

(** [Ok None]: there is nothing to run. *)
Fixpoint awaitSettled_loop (attempts : nat) (cmd : ExecCommand) : prog (result err (option Execution)) :=
  match attempts with
  | O => mret (Err (Failed "execution not settled after wait window"))
  | S attempts =>
      r ← ask (GetExecution (cmd_ExecutionID cmd));
      match r with
      | Err e => mret (Err e)
      | Ok exec =>
          let wait :=
            done ← ask WaitOrDone;
            if (done : bool) then mret (Err (Failed "context deadline exceeded")) else awaitSettled_loop attempts cmd in
          match e_Status exec with
          | StatusCancelled | StatusRunning | StatusSucceeded | StatusFailed => mret (Ok None)
          | StatusPending => if decide (e_TxID exec = "") then wait else mret (Ok None)
          | StatusReserved => if decide (e_TxID exec = cmd_TxID cmd) then wait else mret (Ok None)
          | StatusQueued => mret (Ok (if decide (e_TxID exec = cmd_TxID cmd) then Some exec else None))
          end
      end
  end.

Definition awaitSettled (cmd : ExecCommand) : prog (result err (option Execution)) := awaitSettled_loop 12 cmd.

Definition finalize (exec : Execution) (runErr : option string) : prog unit :=
  let status := match runErr with Some _ => StatusFailed | None => StatusSucceeded end in
  reportErr ← ask (RenderReport (e_ID exec) runErr);
  let '(status, runErr) :=
    match reportErr, runErr with
    | Some e, None => (StatusFailed, Some ("render report: " +:+ e))
    | _, _ => (status, runErr)
    end in
  r ← ask (TransitionOwned (e_ID exec) (e_TxID exec) [StatusRunning] status (mkUpd None runErr));
  match r with
  | Err _ => mret tt
  | Ok affected =>
      if affected =? 0 then mret tt
      else
        _ ← (match reportErr with None => ask (WarmReport (e_ID exec)) | Some _ => mret tt end);
        _ ← ask (RecordOutcome (e_FireKey exec) (e_ID exec) status);
        _ ← ask (ProposeLedger ("finish:" +:+ pretty (e_ID exec)) (status_text status));
        if bool_decide (status = StatusSucceeded) && bool_decide (e_TaskType exec = TaskTypeScheduled)
        then _ ← ask (SetLastFire (e_TaskID exec) (e_FireAt exec)); mret tt else mret tt
  end.

Definition runExecution (exec : Execution) : prog unit :=
  r ← ask (LoadDefinition (e_ID exec));
  match r with
  | Some _ => finalize exec (Some "load task definition")
  | None =>
      runErr ← ask (AgentRun (e_ID exec));
      finalize exec runErr
  end.

Definition handle (cmd : ExecCommand) : prog (option err) :=
  r ← awaitSettled cmd;
  match r with
  | Err e => mret (Some e)
  | Ok None => mret None
  | Ok (Some exec) =>
      if negb (bool_decide (cmd_FireKey cmd = e_FireKey exec)) then mret (Some (Failed "execution command fire key mismatch"))
      else
        r ← ask (TransitionOwned (e_ID exec) (cmd_TxID cmd) [StatusQueued] StatusRunning no_updates);
        match r with
        | Err e => mret (Some e)
        | Ok affected => if affected =? 0 then mret None else _ ← runExecution exec; mret None
        end
  end.

(** ** [engine/condition.go] *)

Definition cond_handle (event : CondEvent) : prog (option err) :=
  if negb (ev_ExecutionID event =? 0) then
    r ← ask (GetExecution (ev_ExecutionID event));
    match r with
    | Err e => mret (Some e)
    | Ok exec =>
        if negb (bool_decide (e_FireKey exec = ev_FireKey event)) || negb (e_TaskID exec =? ev_TaskID event)
        then mret (Some (Failed "condition event ownership mismatch"))
        else if negb (bool_decide (e_Status exec = StatusPending)) then mret None
        else r ← Dispatch exec; mret (match r with Err e => Some e | Ok _ => None end)
    end
  else
    r ← ask (GetConditionTask (ev_TaskID event));
    match r with
    | Err NotFound => mret None
    | Err e => mret (Some e)
    | Ok task =>
        if negb (ct_Enabled task) then mret None
        else
          r ← ask (GetRiskRecord (ev_RecordID event));
          match r with
          | Err NotFound => mret None
          | Err e => mret (Some e)
          | Ok record =>
              occurredAt ← (match ev_OccurredAt event with Some t => mret t | None => ask Now end);
              let fireAt := default occurredAt (rr_CreatedAt record) in
              r ← ask (InsertPending (mkExec 0 TaskTypeCondition (ct_ID task) (ev_FireKey event) "" StatusPending fireAt 0 ""));
              match r with
              | Err e => mret (Some e)
              | Ok (_, id) =>
                  r ← ask (GetExecution id);
                  match r with
                  | Err e => mret (Some e)
                  | Ok fresh =>
                      if negb (bool_decide (e_Status fresh = StatusPending)) then mret None
                      else r ← Dispatch fresh; mret (match r with Err e => Some e | Ok _ => None end)
                  end
              end
          end
    end.

(** ** [engine/monitor.go], for one row each *)

Definition fail_stuck (exec : Execution) : prog unit :=
  _ ← ask (Transition (e_ID exec) [StatusRunning] StatusFailed
             (mkUpd None (Some "execution timed out (node crashed or LLM call hung); marked failed by monitor")));
  mret tt.

Definition republish (exec : Execution) : prog unit :=
  if decide (e_TxID exec = "") then mret tt
  else _ ← ask (SendExec (mkCmd (e_ID exec) (e_TxID exec) (e_FireKey exec))); mret tt.

Definition redispatch (exec : Execution) : prog unit := _ ← Dispatch exec; mret tt.

(** ** [engine/migrator.go] *)

Definition second : Z := 1000000000.

Definition SchedFireKey (taskID fireAt : Z) : string := "sched:" +:+ pretty taskID +:+ ":" +:+ pretty (fireAt / second).

Definition registerFire (task : ScheduledTask) (fireAt now : Z) : prog (option err) :=
  let fireKey := SchedFireKey (st_ID task) fireAt in
  r ← ask (InsertPending (mkExec 0 TaskTypeScheduled (st_ID task) fireKey "" StatusPending fireAt 0 ""));
  match r with
  | Err e => mret (Some e)
  | Ok (_, id) =>
      r ← ask (GetExecution id);
      match r with
      | Err e => mret (Some e)
      | Ok exec =>
          if negb (bool_decide (e_Status exec = StatusPending)) then mret None
          else
            let executeAt := if now + second <? fireAt then fireAt else now + 5 * second in
            ask (WheelAdd fireKey (mkFire id fireKey) executeAt)
      end
  end.

(** The loop over the fires of a task; [cronx]'s [Next] answers the zero time when there
    is none. *)
Fixpoint materialize_fires (fuel : nat) (task : ScheduledTask) (loc : string) (cursor windowEnd now : Z) : prog unit :=
  match fuel with
  | O => mret tt
  | S fuel =>
      next ← ask (CronNext loc (st_CronExpr task) cursor);
      match next with
      | None => mret tt
      | Some fireAt =>
          if windowEnd <? fireAt then mret tt
          else _ ← registerFire task fireAt now; materialize_fires fuel task loc fireAt windowEnd now
      end
  end.

Definition defaultTaskTimezone : string := "Asia/Shanghai".

(** The location of a task; [Local] is the name of [time.Local]. *)
Definition task_location (task : ScheduledTask) : prog string :=
  loaded ← ask (LoadLocation (st_Timezone task));
  if negb loaded || bool_decide (st_Timezone task = "") then
    loaded ← ask (LoadLocation defaultTaskTimezone);
    mret (if (loaded : bool) then defaultTaskTimezone else "Local")
  else mret (st_Timezone task).

Definition materializeTask (fuel : nat) (task : ScheduledTask) (now recoverStart windowEnd : Z) : prog unit :=
  loc ← task_location task;
  parsed ← ask (CronParse (st_CronExpr task));
  if negb parsed then mret tt
  else
    let recoverStart := if recoverStart <? st_CreatedAt task then st_CreatedAt task else recoverStart in
    _ ← materialize_fires fuel task loc recoverStart windowEnd now;
    next ← ask (CronNext loc (st_CronExpr task) now);
    match next with
    | None => mret tt
    | Some next =>
        if bool_decide (st_NextFireAt task = Some next) then mret tt
        else
          _ ← ask (SetNextFire (st_ID task) (st_CronExpr task) (st_Timezone task) next);
          ask (InvalidateScheduledTask (st_ID task))
    end.

Fixpoint materialize_tasks (fuel : nat) (tasks : list ScheduledTask) (now recoverStart windowEnd : Z) : prog unit :=
  match tasks with
  | [] => mret tt
  | task :: tasks =>
      done ← ask CtxDone;
      if (done : bool) then mret tt
      else _ ← materializeTask fuel task now recoverStart windowEnd; materialize_tasks fuel tasks now recoverStart windowEnd
  end.

(** The durations of the configuration, in nanoseconds. *)
Record SchedulerConf := mkSchedulerConf { MigrateStep : Z; OverdueRecover : Z }.

Definition materialize (fuel : nat) (cfg : SchedulerConf) : prog unit :=
  r ← ask EnabledScheduledTasks;
  match r with
  | Err _ => mret tt
  | Ok tasks => now ← ask Now; materialize_tasks fuel tasks now (now - OverdueRecover cfg) (now + MigrateStep cfg)
  end.

Definition migratorLockKey : string := "task_flow:lock:migrator".
Definition SingletonMigrator : string := "task_flow:singleton:migrator".

Definition tick (fuel : nat) (cfg : SchedulerConf) : prog unit :=
  owner ← ask (IsOwner SingletonMigrator);
  if negb owner then mret tt
  else
    locked ← ask (LockRole migratorLockKey);
    if negb locked then mret tt else _ ← materialize fuel cfg; ask (UnlockRole migratorLockKey).

(** ** [cdc/relay.go]: the row of a change and a task *)

Definition CondChangeKey (taskID : Z) (eventKey : string) : string := "cond:" +:+ pretty taskID +:+ ":change:" +:+ eventKey.

Definition change_exec (taskID : Z) (eventKey : string) (occurredAt : Z) : Execution :=
  mkExec 0 TaskTypeCondition taskID (CondChangeKey taskID eventKey) "" StatusPending occurredAt 0 "".

(** ** [server/api.go] *)

(** The status of the answer. *)
Definition handleFire (callback : FireCallback) : prog Z :=
  r ← ask (GetExecution (fc_ExecutionID callback));
  match r with
  | Err NotFound => mret 404
  | Err _ => mret 500
  | Ok exec =>
      if negb (bool_decide (e_FireKey exec = fc_FireKey callback)) then mret 400
      else
        now ← ask Now;
        if now <? e_FireAt exec then mret 409
        else
          r ← Dispatch exec;
          match r with
          | Err _ => mret 500
          | Ok _ => _ ← ask (GetExecution (e_ID exec)); mret 200
          end
  end.

Definition handleCancelExecution (id : Z) : prog Z :=
  r ← ask (Transition id [StatusPending; StatusReserved; StatusQueued] StatusCancelled (mkUpd None (Some "cancelled by user")));
  mret match r with Err _ => 500 | Ok affected => if affected =? 0 then 409 else 200 end.

(** A trigger by hand, and the test of a condition: a row and its dispatch. *)
Definition insert_and_dispatch (e : Execution) : prog Z :=
  r ← ask (InsertPending e);
  match r with
  | Err _ => mret 500
  | Ok (_, execID) =>
      r ← Dispatch (mkExec execID (e_TaskType e) (e_TaskID e) (e_FireKey e) (e_TxID e) (e_Status e) (e_FireAt e) (e_UpdatedAt e) (e_Error e));
      mret (match r with Err _ => 500 | Ok _ => 200 end)
  end.

Definition manual_exec (taskType : string) (taskID : Z) (fireKey : string) (fireAt : Z) : Execution :=
  mkExec 0 taskType taskID fireKey "" StatusPending fireAt 0 "".
