(* ===== verification/TfSafety.v ===== *)
(** * Executions of tasks: all interleavings

    Any number of goroutines of any number of nodes run the programs of [TfModel] against
    one database and one queue.  Calls fail, and a write may be done although its answer
    is an error; the queue delivers a command any number of times, in any order; claims
    come and go; the transaction manager calls the components at any time. *)
From S2P Require Import Prelude GoStrings GoProg TfModel.

(** ** The database and the queue *)

Record db := mkDB { d_rows : gmap Z Execution; d_sent : list ExecCommand }.

Definition updated (now : Z) (to : Status) (u : Updates) (e : Execution) : Execution :=
  mkExec (e_ID e) (e_TaskType e) (e_TaskID e) (e_FireKey e) (default (e_TxID e) (u_tx_id u)) to (e_FireAt e) now
    (default (e_Error e) (u_error u)).

(** A conditional update: the rows affected. *)
Definition transition (now : Z) (id : Z) (ok : Execution -> bool) (to : Status) (u : Updates) (d : db) : db * Z :=
  match d_rows d !! id with
  | Some e => if ok e then (mkDB (<[id := updated now to u e]> (d_rows d)) (d_sent d), 1) else (d, 0)
  | None => (d, 0)
  end.

Definition in_status (from : list Status) (e : Execution) : bool := bool_decide (e_Status e ∈ from).
Definition owned (txID : string) (from : list Status) (e : Execution) : bool := bool_decide (e_TxID e = txID) && in_status from e.

(** The row of a fire key, which is unique. *)
Definition has_key (k : string) (d : db) (id : Z) (e : Execution) : Prop := d_rows d !! id = Some e /\ e_FireKey e = k.

Definition new_row (now id : Z) (e : Execution) : Execution :=
  mkExec id (e_TaskType e) (e_TaskID e) (e_FireKey e) (e_TxID e) (e_Status e) (e_FireAt e) now (e_Error e).

(** The insertion that does nothing on a conflict, and the row it leaves. *)
Definition inserted (now : Z) (e : Execution) (d d' : db) (r : bool * Z) : Prop :=
  (exists old, has_key (e_FireKey e) d r.2 old /\ r.1 = false /\ d' = d) \/
  ((forall id old, ~ has_key (e_FireKey e) d id old) /\ d_rows d !! r.2 = None /\ r.1 = true /\
   d' = mkDB (<[r.2 := new_row now r.2 e]> (d_rows d)) (d_sent d)).

(** ... executed: the row of a key and a number that is free. *)
Definition find_row (ok : Execution -> bool) (m : gmap Z Execution) : option (Z * Execution) :=
  List.find (fun x => ok x.2) (map_to_list m).

Definition has_fire_key (k : string) (e : Execution) : bool := bool_decide (e_FireKey e = k).

Definition fresh_id (m : gmap Z Execution) : Z := 1 + foldr Z.max 0 (map fst (map_to_list m)).

Definition insert_pending (now : Z) (e : Execution) (m : gmap Z Execution) : gmap Z Execution * (bool * Z) :=
  match find_row (has_fire_key (e_FireKey e)) m with
  | Some (id, _) => (m, (false, id))
  | None => let id := fresh_id m in (<[id := new_row now id e]> m, (true, id))
  end.

Lemma find_row_some ok m id e : find_row ok m = Some (id, e) -> m !! id = Some e /\ ok e = true.
Proof. intros [H1 H2]%find_some. split; [| done]. by apply elem_of_map_to_list, list_elem_of_In. Qed.

Lemma find_row_none ok m id e : find_row ok m = None -> m !! id = Some e -> ok e = false.
Proof. intros HN He. apply (find_none _ _ HN (id, e)). by apply list_elem_of_In, elem_of_map_to_list. Qed.

Lemma fresh_id_above m id e : m !! id = Some e -> id < fresh_id m.
Proof.
  assert (HM : forall l x, x ∈ l -> x <= foldr Z.max 0 l)
    by (intros l x; induction l as [| y l IH]; [by intros ?%not_elem_of_nil |]; cbn; intros [-> | H%IH]%elem_of_cons; lia).
  intros E. assert (Hin : id ∈ map fst (map_to_list m)) by (apply list_elem_of_fmap; exists (id, e); split; [done | by apply elem_of_map_to_list]).
  apply HM in Hin. unfold fresh_id. lia.
Qed.

Lemma fresh_id_fresh m : m !! fresh_id m = None.
Proof. destruct (m !! fresh_id m) as [e |] eqn:E; [| done]. apply fresh_id_above in E. lia. Qed.

Lemma insert_pending_inserted now e d :
  inserted now e d (mkDB (insert_pending now e (d_rows d)).1 (d_sent d)) (insert_pending now e (d_rows d)).2.
Proof.
  unfold insert_pending. destruct (find_row _ _) as [[id f] |] eqn:E; cbn [fst snd].
  - apply find_row_some in E as [E Hk%bool_decide_eq_true]. left. exists f. by destruct d.
  - right. split_and!; [| apply fresh_id_fresh | done | done].
    intros id old [Hl Hk]. eapply find_row_none in E; [| exact Hl]. by apply bool_decide_eq_false in E.
Qed.

(** A write: done and answered, or answered with an error, done or not. *)
Definition written {A} (ok : A -> db -> Prop) (d : db) (r : result err A) (d' : db) : Prop :=
  match r with
  | Ok a => ok a d'
  | Err _ => d' = d \/ exists a, ok a d'
  end.

Definition read {A} (ok : option A) (d : db) (r : result err A) (d' : db) : Prop :=
  d' = d /\ match r with Ok a => ok = Some a | Err NotFound => ok = None | Err (Failed _) => True end.

Definition answer {R} (c : call R) (d : db) (r : R) (d' : db) : Prop :=
  match c in call R return R -> Prop with
  | Transition id from to u =>
      fun r => written (fun n d' => exists now, transition now id (in_status from) to u d = (d', n)) d r d'
  | TransitionOwned id txID from to u =>
      fun r => written (fun n d' => exists now, transition now id (owned txID from) to u d = (d', n)) d r d'
  | InsertPending e => fun r => written (fun x d' => exists now, inserted now e d d' x) d r d'
  | GetExecution id => fun r => read (d_rows d !! id) d r d'
  | GetExecutionByFireKey k =>
      fun r => d' = d /\ match r with Ok e => has_key k d (e_ID e) e | Err NotFound => forall id e, ~ has_key k d id e | Err _ => True end
  | FindTX txID =>
      fun r => d' = d /\
        match r with
        | Ok id => exists e, d_rows d !! id = Some e /\ e_TxID e = txID /\
                     forall id' e', d_rows d !! id' = Some e' -> e_TxID e' = txID -> id' <= id
        | Err NotFound => forall id e, d_rows d !! id = Some e -> e_TxID e <> txID
        | Err _ => True
        end
  | SendExec cmd =>
      fun r => let d1 := mkDB (d_rows d) (d_sent d ++ [cmd]) in
               match r with None => d' = d1 | Some _ => d' = d \/ d' = d1 end
  | _ => fun _ => d' = d
  end r.

(** ** The system *)

(** A right that a goroutine gets from the database: to run an execution, or to record
    its outcome. *)
Definition token : Type := bool * Z.
Definition run_token (id : Z) : token := (false, id).
Definition outcome_token (id : Z) : token := (true, id).

Definition grants {R} (c : call R) (r : R) : option token :=
  match c in call R return R -> option token with
  | TransitionOwned id _ _ to _ =>
      fun r => match r with
               | Ok n => if n =? 1 then
                           match to with
                           | StatusRunning => Some (run_token id)
                           | StatusSucceeded | StatusFailed => Some (outcome_token id)
                           | _ => None
                           end
                         else None
               | Err _ => None
               end
  | _ => fun _ => None
  end r.

Definition uses {R} (c : call R) : option token :=
  match c with
  | AgentRun id => Some (run_token id)
  | RecordOutcome _ id _ => Some (outcome_token id)
  | _ => None
  end.

(** Who got a right and who used it; the transactions that were told to confirm. *)
Record sys := mkSys {
  s_db : db;
  s_threads : list (prog unit);
  s_granted : list (token * nat);
  s_used : list (token * nat);
  s_confirms : list string
}.

Definition note (t : nat) (o : option token) (l : list (token * nat)) : list (token * nat) :=
  match o with Some x => l ++ [(x, t)] | None => l end.

Definition forget {A} (p : prog A) : prog unit := p ≫= fun _ => Done tt.

(** The goroutines that start. *)
Inductive entry (s : sys) : prog unit -> Prop :=
  | n_dispatch exec : entry s (forget (Dispatch exec))
  | n_handle cmd : cmd ∈ d_sent (s_db s) -> entry s (forget (handle cmd))
  | n_try txID id : entry s (forget (reserve_Try txID id))
  | n_cancel txID : entry s (forget (reserve_Cancel txID))
  | n_mq txID id key : entry s (forget (mq_Try txID id key))
  | n_cond event : entry s (forget (cond_handle event))
  | n_stuck exec : entry s (fail_stuck exec)
  | n_republish exec : entry s (republish exec)
  | n_tick fuel cfg : entry s (tick fuel cfg)
  | n_relay taskID eventKey at_ : entry s (forget (ask (InsertPending (change_exec taskID eventKey at_))))
  | n_fire callback : entry s (forget (handleFire callback))
  | n_user id : entry s (forget (handleCancelExecution id))
  | n_manual ty task key at_ : entry s (forget (insert_and_dispatch (manual_exec ty task key at_))).

Inductive step : sys -> sys -> Prop :=
  | st_call s t R (c : call R) k r d' :
      s_threads s !! t = Some (Call c k) -> answer c (s_db s) r d' ->
      step s (mkSys d' (<[t := k r]> (s_threads s)) (note t (grants c r) (s_granted s)) (note t (uses c) (s_used s)) (s_confirms s))
  | st_start s p : entry s p ->
      step s (mkSys (s_db s) (s_threads s ++ [p]) (s_granted s) (s_used s) (s_confirms s))
  | st_confirm s txID :
      step s (mkSys (s_db s) (s_threads s ++ [forget (reserve_Confirm txID)]) (s_granted s) (s_used s) (s_confirms s ++ [txID])).

Definition start : sys := mkSys (mkDB ∅ []) [] [] [] [].

Inductive reachable : sys -> Prop :=
  | r_start : reachable start
  | r_step s s' : reachable s -> step s s' -> reachable s'.

(** ** What a goroutine keeps to *)

(** The moves that the code makes: between which statuses, and with what of the
    transaction. *)
Definition legal_move (u : Updates) (from to : Status) : Prop :=
  match from, to with
  | StatusPending, StatusReserved | StatusReserved, StatusPending => True
  | StatusReserved, StatusQueued | StatusQueued, StatusRunning
  | StatusRunning, StatusSucceeded | StatusRunning, StatusFailed
  | StatusPending, StatusCancelled | StatusReserved, StatusCancelled | StatusQueued, StatusCancelled => u_tx_id u = None
  | _, _ => False
  end.

(** [own] is the transaction that the goroutine confirms, [T] the rights it has. *)
Definition pre {R : Type} (own : option string) (T : gset token) (c : call R) : Prop :=
  match c with
  | Transition id from to u => Forall (fun f => legal_move u f to) from /\ to <> StatusQueued
  | TransitionOwned id txID from to u => Forall (fun f => legal_move u f to) from /\ (to = StatusQueued -> own = Some txID)
  | InsertPending e => e_Status e = StatusPending
  | AgentRun id => run_token id ∈ T
  | RecordOutcome _ id _ => outcome_token id ∈ T
  | _ => True
  end.

Definition spend (o : option token) (T : gset token) : gset token := match o with Some x => T ∖ {[ x ]} | None => T end.
Definition gain (o : option token) (T : gset token) : gset token := match o with Some x => {[ x ]} ∪ T | None => T end.

Definition next {R : Type} (T : gset token) (c : call R) (r : R) : gset token := gain (grants c r) (spend (uses c) T).

(** A conditional update of one row affects at most one. *)
Definition post {R : Type} (c : call R) (r : R) : Prop :=
  match c in call R return R -> Prop with
  | Transition _ _ _ _ | TransitionOwned _ _ _ _ _ => fun r => match r with Ok n => n = 0 \/ n = 1 | Err _ => True end
  | _ => fun _ => True
  end r.

Fixpoint safe {A : Type} (own : option string) (Q : gset token -> A -> Prop) (T : gset token) (p : prog A) : Prop :=
  match p with
  | Done a => Q T a
  | Call c k => pre own T c /\ forall r, post c r -> safe own Q (next T c r) (k r)
  end.

Lemma safe_ret {A : Type} (own : option string) (Q : gset token -> A -> Prop) T a : Q T a -> safe own Q T (mret a).
Proof. done. Qed.

Lemma safe_bind {A B : Type} (own : option string) (Q : gset token -> B -> Prop) (m : prog A) (f : A -> prog B) : forall T,
  safe own (fun T a => safe own Q T (f a)) T m -> safe own Q T (m ≫= f).
Proof. induction m as [a | R c k IH]; intros T; [done |]. intros [HP HK]. split; [done |]. intros r Hr. apply IH. by apply HK. Qed.

Lemma safe_ask {A R : Type} (own : option string) (Q : gset token -> A -> Prop) (c : call R) (f : R -> prog A) T :
  pre own T c -> (forall r, post c r -> safe own Q (next T c r) (f r)) -> safe own Q T (ask c ≫= f).
Proof. intros HP HK. by split. Qed.

Lemma safe_weaken {A : Type} (own : option string) (Q Q' : gset token -> A -> Prop) (p : prog A) : forall T,
  safe own Q T p -> (forall T a, Q T a -> Q' T a) -> safe own Q' T p.
Proof. induction p as [a | R c k IH]; intros T; [intros H HQ; by apply HQ |]. intros [HP HK] HQ. split; [done |]. intros r Hr. apply IH; [by apply HK | done]. Qed.

Abbreviation any_end := (fun _ _ => True).

Create HintDb tf discriminated.
#[local] Hint Resolve safe_ret : tf.

(** Walk through a program: each call keeps to the rules, each branch is followed. *)
Ltac walk :=
  repeat match goal with
    | |- safe _ _ _ (ask _ ≫= _) => apply safe_ask; [try done; try (split; [by repeat constructor | done]) |]; intros ? ?; cbn [next grants uses gain spend post] in *
    | |- safe _ _ _ (ask _) => split; [try done; try (split; [by repeat constructor | done]) |]; intros ? ?; cbn [next grants uses gain spend post] in *
    | |- safe _ _ _ (Done _) => apply safe_ret; try done
    | |- safe _ _ _ (mret _) => apply safe_ret; try done
    | |- safe _ _ _ (match ?x with _ => _ end) => destruct x
    | |- safe _ _ _ (_ ≫= _) => apply safe_bind
    end.

Abbreviation harmless p := (forall (own : option string) (T : gset token), safe own (fun T' _ => T' = T) T p).

Lemma releaseIfPending_safe exec : harmless (releaseIfPending exec).
Proof. intros own T. unfold releaseIfPending. walk. Qed.

Lemma dispatch_claimed_safe exec : harmless (dispatch_claimed exec).
Proof.
  intros own T. unfold dispatch_claimed. walk.
  all: try (eapply safe_weaken; [apply releaseIfPending_safe |]; intros ? ? ->; walk).
Qed.

Lemma dispatch_claim_safe exec : harmless (dispatch_claim exec).
Proof. intros own T. unfold dispatch_claim. walk; apply dispatch_claimed_safe. Qed.

Lemma dispatch_seen_safe exec : harmless (dispatch_seen exec).
Proof. intros own T. unfold dispatch_seen. walk; apply dispatch_claim_safe. Qed.

Lemma cancel_changed_safe exec : harmless (cancel_changed exec).
Proof. intros own T. unfold cancel_changed. walk. Qed.

Lemma Dispatch_safe exec : harmless (Dispatch exec).
Proof.
  intros own T. unfold Dispatch, matchesSchedule. walk; try apply dispatch_seen_safe; apply cancel_changed_safe.
Qed.

Lemma reserve_Try_safe txID id : harmless (reserve_Try txID id).
Proof. intros own T. unfold reserve_Try. walk. Qed.

Lemma execIDForTX_safe txID : harmless (execIDForTX txID).
Proof. intros own T. unfold execIDForTX. walk. Qed.

Lemma reserve_Confirm_safe txID T : safe (Some txID) any_end T (reserve_Confirm txID).
Proof.
  unfold reserve_Confirm. apply safe_bind. eapply safe_weaken; [apply execIDForTX_safe |]. intros ? r ->. walk.
Qed.

Lemma reserve_Cancel_safe txID : harmless (reserve_Cancel txID).
Proof.
  intros own T. unfold reserve_Cancel. apply safe_bind. eapply safe_weaken; [apply execIDForTX_safe |]. intros ? r ->. walk.
  all: unfold next; cbn; by destruct (_ =? 1).
Qed.

Lemma mq_Try_safe txID id key : harmless (mq_Try txID id key).
Proof. intros own T. unfold mq_Try. walk. Qed.

Lemma awaitSettled_safe n cmd : harmless (awaitSettled_loop n cmd).
Proof.
  induction n as [| n IH]; intros own T; cbn [awaitSettled_loop]; walk; apply IH.
Qed.

Lemma finalize_safe exec runErr own T : safe own any_end T (finalize exec runErr).
Proof.
  unfold finalize. apply safe_ask; [done |]. intros reportErr _. cbn [next grants uses gain spend].
  set (p := match reportErr with Some e => _ | None => _ end). assert (Hp : p.1 = StatusSucceeded \/ p.1 = StatusFailed)
    by (unfold p; destruct reportErr, runErr; cbn; auto). destruct p as [status err]. cbn [fst] in Hp.
  apply safe_ask; [split; [| by destruct Hp; subst]; constructor; [by destruct Hp; subst | constructor] |].
  intros [n | e] Hn; [| by apply safe_ret]. cbn [post] in Hn. destruct (n =? 0) eqn:En; [by apply safe_ret |].
  assert (n = 1) as -> by (apply Z.eqb_neq in En; lia).
  replace (next T _ _) with (gain (Some (outcome_token (e_ID exec))) T) by (by destruct Hp; subst). cbn [gain].
  apply safe_bind. apply (safe_weaken _ (fun T' _ => T' = {[ outcome_token (e_ID exec) ]} ∪ T)); [walk |].
  intros ? ? ->. apply safe_ask; [cbn; set_solver |]. intros ? _. walk.
Qed.

Lemma runExecution_safe exec own T : run_token (e_ID exec) ∈ T -> safe own any_end T (runExecution exec).
Proof.
  intros HT. unfold runExecution. walk; apply finalize_safe.
Qed.

Lemma handle_safe cmd own T : safe own any_end T (handle cmd).
Proof.
  unfold handle. apply safe_bind. eapply safe_weaken; [apply awaitSettled_safe |]. intros ? r ->.
  destruct r as [[exec |] | e]; [| by apply safe_ret | by apply safe_ret]. case_match; [by apply safe_ret |].
  apply safe_ask; [split; [by repeat constructor | done] |]. intros [n | e] Hn; [| by apply safe_ret].
  cbn [post] in Hn. destruct (n =? 0) eqn:En; [by apply safe_ret |]. assert (n = 1) as -> by (apply Z.eqb_neq in En; lia).
  apply safe_bind. eapply safe_weaken; [apply runExecution_safe; cbn; set_solver |]. intros; by apply safe_ret.
Qed.

(** A goroutine that ends with a dispatch. *)
Ltac dispatches := eapply safe_weaken; [apply Dispatch_safe |]; intros ? ? ->; walk.

Lemma cond_handle_safe event own T : safe own any_end T (cond_handle event).
Proof. unfold cond_handle. walk; dispatches. Qed.

Lemma registerFire_safe task fireAt now : harmless (registerFire task fireAt now).
Proof. intros own T. unfold registerFire. walk. Qed.

Lemma materialize_fires_safe fuel task loc windowEnd now : forall cursor, harmless (materialize_fires fuel task loc cursor windowEnd now).
Proof.
  induction fuel as [| fuel IH]; intros cursor own T; cbn [materialize_fires]; walk.
  eapply safe_weaken; [apply registerFire_safe |]. intros ? ? ->. apply IH.
Qed.

Lemma materializeTask_safe fuel task now recoverStart windowEnd : harmless (materializeTask fuel task now recoverStart windowEnd).
Proof.
  intros own T. unfold materializeTask, task_location. walk.
  all: eapply safe_weaken; [apply materialize_fires_safe |]; intros ? ? ->; walk.
Qed.

Lemma tick_safe fuel cfg : harmless (tick fuel cfg).
Proof.
  intros own T. unfold tick, materialize. walk.
  match goal with |- context [materialize_tasks _ ?l] => induction l as [| task l IH]; cbn [materialize_tasks]; walk end.
  eapply safe_weaken; [apply materializeTask_safe |]. intros ? ? ->. apply IH.
Qed.

Lemma handleFire_safe callback own T : safe own any_end T (handleFire callback).
Proof. unfold handleFire. walk; dispatches. Qed.

Lemma manual_safe ty task key at_ own T : safe own any_end T (insert_and_dispatch (manual_exec ty task key at_)).
Proof. unfold insert_and_dispatch. walk; dispatches. Qed.

Lemma forget_safe {A : Type} own T (p : prog A) : safe own any_end T p -> safe own any_end T (forget p).
Proof. intros H. apply safe_bind. eapply safe_weaken; [done |]. done. Qed.

Lemma harmless_safe {A : Type} own T (p : prog A) : harmless p -> safe own any_end T p.
Proof. intros H. eapply safe_weaken; [apply H | done]. Qed.

#[local] Hint Resolve harmless_safe Dispatch_safe handle_safe reserve_Try_safe reserve_Cancel_safe mq_Try_safe cond_handle_safe
  handleFire_safe manual_safe : tf.

(** Every goroutine that starts keeps to the rules, with no rights. *)
Lemma entry_safe s p : entry s p -> safe None any_end ∅ p.
Proof.
  destruct 1; try (apply forget_safe; by auto with tf).
  - unfold fail_stuck. walk.
  - unfold republish. walk.
  - apply harmless_safe, tick_safe.
  - apply forget_safe. unfold handleCancelExecution. walk.
Qed.

(** ** The invariant *)

Definition past_queue (s : Status) : bool := bool_decide (s ∈ [StatusRunning; StatusSucceeded; StatusFailed]).
Definition finished (s : Status) : bool := bool_decide (s ∈ [StatusSucceeded; StatusFailed]).

(** The row of a right that was granted. *)
Definition token_row (x : token) (e : Execution) : Prop := if x.1 then finished (e_Status e) = true else past_queue (e_Status e) = true.

Definition row_ok (confirms : list string) (id : Z) (e : Execution) : Prop :=
  e_ID e = id /\ (e_Status e = StatusQueued \/ past_queue (e_Status e) = true -> e_TxID e ∈ confirms).

Definition keys_unique (d : db) : Prop :=
  forall i j e f, d_rows d !! i = Some e -> d_rows d !! j = Some f -> e_FireKey e = e_FireKey f -> i = j.

Definition thread_ok (s : sys) (t : nat) (p : prog unit) : Prop :=
  exists own T, safe own any_end T p /\ (forall x, x ∈ T -> (x, t) ∈ s_granted s /\ (x, t) ∉ s_used s) /\
    (forall tx, own = Some tx -> tx ∈ s_confirms s).

Record inv (s : sys) : Prop := {
  i_rows : map_Forall (row_ok (s_confirms s)) (d_rows (s_db s));
  i_keys : keys_unique (s_db s);
  i_granted : NoDup (map fst (s_granted s));
  i_tokens : forall x t, (x, t) ∈ s_granted s -> exists e, d_rows (s_db s) !! x.2 = Some e /\ token_row x e;
  i_used : NoDup (s_used s) /\ forall y, y ∈ s_used s -> y ∈ s_granted s;
  i_threads : forall t p, s_threads s !! t = Some p -> thread_ok s t p
}.

(** ** What a call does to the table *)

Inductive change (own : option string) (m : gmap Z Execution) : gmap Z Execution -> Prop :=
  | ch_none : change own m m
  | ch_move now id e to u :
      m !! id = Some e -> legal_move u (e_Status e) to -> (to = StatusQueued -> own = Some (e_TxID e)) ->
      change own m (<[id := updated now to u e]> m)
  | ch_insert now id e :
      m !! id = None -> e_Status e = StatusPending -> (forall j f, m !! j = Some f -> e_FireKey f <> e_FireKey e) ->
      change own m (<[id := new_row now id e]> m).

Lemma transition_change own now id ok from to u d d' n :
  Forall (fun f => legal_move u f to) from -> (forall e, ok e = true -> e_Status e ∈ from) ->
  (forall e, ok e = true -> to = StatusQueued -> own = Some (e_TxID e)) ->
  transition now id ok to u d = (d', n) -> change own (d_rows d) (d_rows d') /\ (n = 0 \/ n = 1).
Proof.
  intros HL Hok Hown. unfold transition. destruct (d_rows d !! id) as [e |] eqn:E; [destruct (ok e) eqn:Eo |];
    intros [= <- <-]; (split; [| auto]); [| constructor | constructor].
  cbn [d_rows]. apply ch_move; [done | | by intros ->; apply Hown]. by apply (proj1 (Forall_forall _ _) HL), Hok.
Qed.

Lemma written_change {A} own (ok : A -> db -> Prop) d r d' :
  (forall a d', ok a d' -> change own (d_rows d) (d_rows d')) -> written ok d r d' -> change own (d_rows d) (d_rows d').
Proof. intros H. destruct r as [a | e]; [apply H |]. intros [-> | [a Ha]]; [constructor | by eapply H]. Qed.

Lemma answer_change {R} own T (c : call R) d r d' :
  pre own T c -> answer c d r d' -> change own (d_rows d) (d_rows d') /\ post c r.
Proof.
  destruct c; cbn [pre answer post]; try (intros _ ->; split; [constructor | done]).
  - intros [HL Hq] Ha. assert (HC : forall n d', (exists now, transition now id (in_status from) to u d = (d', n)) ->
      change own (d_rows d) (d_rows d') /\ (n = 0 \/ n = 1)).
    { intros n d1 [now E]. eapply transition_change; [done | by intros e He%bool_decide_eq_true | by intros e _ Hto | done]. }
    split; [eapply written_change; [| done]; intros n d1 Hn; by apply (HC n d1) |]. destruct r as [n |]; [by apply (HC n d') | done].
  - intros [HL Hq] Ha. assert (HC : forall n d', (exists now, transition now id (owned txID from) to u d = (d', n)) ->
      change own (d_rows d) (d_rows d') /\ (n = 0 \/ n = 1)).
    { intros n d1 [now E]. eapply transition_change; [done | | | done]; intros e [He Hs]%andb_prop.
      - by apply bool_decide_eq_true in Hs.
      - intros Hto. apply bool_decide_eq_true in He. rewrite He. by apply Hq. }
    split; [eapply written_change; [| done]; intros n d1 Hn; by apply (HC n d1) |]. destruct r as [n |]; [by apply (HC n d') | done].
  - intros _ [-> _]. split; [constructor | done].
  - intros _ [-> _]. split; [constructor | done].
  - intros He Ha. split; [| done]. eapply written_change; [| done]. intros [b id] d1 [now [(old & _ & _ & ->) | (Hk & Hn & _ & ->)]]; [constructor |].
    cbn [d_rows snd]. apply ch_insert; [done | done |]. intros j f Hj Hf. by apply (Hk j f).
  - intros _ [-> _]. split; [constructor | done].
  - intros _ Ha. split; [| done]. destruct r; [destruct Ha as [-> | ->] | subst d']; constructor.
Qed.

(** A right is granted when its row takes the step. *)
Lemma grants_row {R} own T (c : call R) d r d' x :
  pre own T c -> answer c d r d' -> grants c r = Some x ->
  exists e e', d_rows d !! x.2 = Some e /\ d_rows d' !! x.2 = Some e' /\ token_row x e' /\ ~ token_row x e.
Proof.
  destruct c; cbn [pre answer grants]; try done. intros [HL _]. destruct r as [n |]; [| done]. cbn [written].
  intros [now E]. destruct (n =? 1) eqn:En; [| done]. apply Z.eqb_eq in En. subst n. unfold transition in E.
  destruct (d_rows d !! id) as [e |] eqn:Ee; [| done]. destruct (owned txID from e) eqn:Eo; [| done]. injection E as <-.
  apply andb_prop in Eo as [_ Hs%bool_decide_eq_true]. pose proof (proj1 (Forall_forall _ _) HL _ Hs) as Hm. cbn beta in Hm.
  intros Hx. exists e, (updated now to u e).
  assert (Hid : x.2 = id) by (by destruct to; simplify_eq). rewrite Hid. cbn [d_rows]. rewrite lookup_insert_eq. split_and!; try done.
  all: clear Hs HL; unfold run_token, outcome_token in Hx; destruct x as [b i]; destruct to; simplify_eq; unfold token_row; cbn; revert Hm; by destruct (e_Status e).
Qed.

(** ** The invariant is kept *)

Lemma change_rows own confirms m m' :
  change own m m' -> (forall tx, own = Some tx -> tx ∈ confirms) -> map_Forall (row_ok confirms) m -> map_Forall (row_ok confirms) m'.
Proof.
  intros HC Hown HR. destruct HC as [| now id e to u E HL Hq | now id e E Hs Hk]; [done | |].
  - apply map_Forall_insert_2; [| done]. destruct (HR _ _ E) as [Hid Htx]. split; [done |]. cbn [updated e_Status e_TxID].
    destruct e as [eid ty ti fk tx st fa ua er]. cbn [e_Status e_TxID e_ID] in *. clear E. intros Hto.
    assert (Hu : u_tx_id u = None) by (destruct st, to; cbn in *; try done; by destruct Hto).
    rewrite Hu. cbn [default]. destruct (decide (to = StatusQueued)) as [-> | Hne]; [by apply Hown, Hq |].
    apply Htx. destruct st, to; cbn in *; try done; auto; by destruct Hto.
  - apply map_Forall_insert_2; [| done]. split; [done |]. cbn [new_row e_Status]. rewrite Hs. intros [? | ?]; done.
Qed.

Lemma change_keys own s s' m m' :
  change own m m' -> keys_unique (mkDB m s) -> keys_unique (mkDB m' s').
Proof.
  unfold keys_unique. cbn [d_rows]. intros HC HK. destruct HC as [| now id e to u E HL Hq | now id e E Hs Hk]; [done | |]; intros i j a b Ha Hb Hab.
  - assert (HX : forall i a, <[id := updated now to u e]> m !! i = Some a -> exists a0, m !! i = Some a0 /\ e_FireKey a0 = e_FireKey a).
    { intros i0 a0 H0. destruct (decide (i0 = id)) as [-> | Hne]; [rewrite lookup_insert_eq in H0; simplify_eq; by exists e |].
      rewrite lookup_insert_ne in H0 by done. by exists a0. }
    destruct (HX _ _ Ha) as (a0 & Ea & Ka). destruct (HX _ _ Hb) as (b0 & Eb & Kb). eapply HK; [exact Ea | exact Eb | congruence].
  - destruct (decide (i = id)) as [-> | Hi], (decide (j = id)) as [-> | Hj]; [done | | |];
      rewrite ?lookup_insert_eq, ?lookup_insert_ne in * by done; simplify_eq.
    + exfalso. by apply (Hk j b).
    + exfalso. by apply (Hk i a).
    + by eapply HK.
Qed.

Lemma change_token own m m' x e :
  change own m m' -> m !! x.2 = Some e -> token_row x e -> exists e', m' !! x.2 = Some e' /\ token_row x e'.
Proof.
  intros HC He HT. destruct HC as [| now id f to u E HL Hq | now id f E Hs Hk]; [by exists e | |].
  - destruct (decide (x.2 = id)) as [Hid | Hne]; [| exists e; by rewrite lookup_insert_ne by done].
    rewrite Hid in *. assert (f = e) as -> by congruence. rewrite lookup_insert_eq. eexists. split; [done |]. unfold token_row in *. cbn [updated e_Status].
    clear He E. destruct e as [eid ty ti fk tx st fa ua er]. cbn [e_Status] in *. by destruct (x.1), st, to.
  - exists e. rewrite lookup_insert_ne; [done |]. intros Hid. congruence.
Qed.

Lemma note_in t o l y : y ∈ note t o l <-> y ∈ l \/ exists x, o = Some x /\ y = (x, t).
Proof. destruct o as [x |]; cbn; [| naive_solver]. rewrite elem_of_app, list_elem_of_singleton. naive_solver. Qed.

Lemma thread_grows s s' t p :
  (forall y, y ∈ s_granted s -> y ∈ s_granted s') -> (forall x, (x, t) ∈ s_used s' -> (x, t) ∈ s_used s) ->
  (forall tx, tx ∈ s_confirms s -> tx ∈ s_confirms s') -> thread_ok s t p -> thread_ok s' t p.
Proof. intros HG HU HC (own & T & HS & HT & HO). exists own, T. naive_solver. Qed.

Lemma call_granted s t R (c : call R) r d' own T :
  inv s -> pre own T c -> answer c (s_db s) r d' ->
  NoDup (map fst (note t (grants c r) (s_granted s))) /\
  (forall x t', (x, t') ∈ note t (grants c r) (s_granted s) -> exists e, d_rows d' !! x.2 = Some e /\ token_row x e).
Proof.
  intros HI HP HA. destruct (answer_change own T c _ _ _ HP HA) as [HC _]. split.
  - destruct (grants c r) as [x |] eqn:Eg; cbn [note]; [| apply (i_granted s HI)].
    rewrite map_app. apply NoDup_app. split; [apply (i_granted s HI) |]. split; [| repeat constructor; set_solver].
    intros y Hy Hx. apply list_elem_of_singleton in Hx as ->. apply list_elem_of_fmap in Hy as ([x' t'] & E & Hin). cbn in E. subst x'.
    destruct (i_tokens s HI _ _ Hin) as (e & Ee & HTr). destruct (grants_row own T c _ _ _ _ HP HA Eg) as (e0 & _ & E0 & _ & _ & Hno).
    by simplify_eq.
  - intros x t' [Hin | (x' & Eg & E)]%note_in.
    + destruct (i_tokens s HI _ _ Hin) as (e & Ee & HTr). by eapply change_token.
    + simplify_eq. destruct (grants_row own T c _ _ _ _ HP HA Eg) as (_ & e' & _ & E' & HT' & _). by exists e'.
Qed.

Lemma call_used s t R (c : call R) (k : R -> prog unit) own T :
  inv s -> safe own any_end T (Call c k) -> (forall x, x ∈ T -> (x, t) ∈ s_granted s /\ (x, t) ∉ s_used s) ->
  NoDup (note t (uses c) (s_used s)) /\ (forall y, y ∈ note t (uses c) (s_used s) -> y ∈ s_granted s).
Proof.
  intros HI [HP _] HT. destruct (i_used s HI) as [HN HU]. destruct (uses c) as [x |] eqn:Eu; cbn [note]; [| done].
  assert (Hx : x ∈ T) by (destruct c; cbn in *; by simplify_eq). destruct (HT x Hx) as [Hg Hn]. split.
  - apply NoDup_app. split; [done |]. split; [| repeat constructor; set_solver]. intros y Hy Hyx. apply list_elem_of_singleton in Hyx as ->. done.
  - intros y. rewrite elem_of_app, list_elem_of_singleton. intros [Hy | ->]; auto.
Qed.

Lemma call_thread s t R (c : call R) (k : R -> prog unit) r d' own T :
  inv s -> safe own any_end T (Call c k) -> (forall x, x ∈ T -> (x, t) ∈ s_granted s /\ (x, t) ∉ s_used s) ->
  answer c (s_db s) r d' ->
  safe own any_end (next T c r) (k r) /\
  (forall x, x ∈ next T c r -> (x, t) ∈ note t (grants c r) (s_granted s) /\ (x, t) ∉ note t (uses c) (s_used s)).
Proof.
  intros HI HS HT HA. destruct HS as [HP HK]. destruct (answer_change own T c _ _ _ HP HA) as [_ Hpost]. split; [by apply HK |].
  intros x Hx. rewrite !note_in. unfold next in Hx.
  assert (HX : x ∈ spend (uses c) T \/ grants c r = Some x) by (destruct (grants c r); cbn in Hx; set_solver).
  destruct HX as [HX | Eg].
  - assert (HxT : x ∈ T) by (destruct (uses c); cbn in HX; set_solver). destruct (HT x HxT) as [Hg Hn]. split; [auto |].
    intros [Hu | (y & Ey & E)]; [done |]. simplify_eq. rewrite Ey in HX. cbn in HX. set_solver.
  - assert (Hnew : forall t', (x, t') ∉ s_granted s).
    { intros t' Hin. destruct (i_tokens s HI _ _ Hin) as (e & Ee & HTr).
      destruct (grants_row own T c _ _ _ _ HP HA Eg) as (e0 & _ & E0 & _ & _ & Hno). by simplify_eq. }
    split; [eauto |]. intros [Hu | (y & Ey & E)]; [by apply (Hnew t), (i_used s HI) |].
    simplify_eq. destruct c; cbn in *; done.
Qed.

Lemma inv_call s t R (c : call R) k r d' :
  inv s -> s_threads s !! t = Some (Call c k) -> answer c (s_db s) r d' ->
  inv (mkSys d' (<[t := k r]> (s_threads s)) (note t (grants c r) (s_granted s)) (note t (uses c) (s_used s)) (s_confirms s)).
Proof.
  intros HI Ht HA. destruct (i_threads s HI t _ Ht) as (own & T & HS & HT & HO). pose proof (proj1 HS) as HP.
  destruct (answer_change own T c _ _ _ HP HA) as [HC _].
  destruct (call_granted s t R c r d' own T HI HP HA) as [HN HTok]. destruct (call_used s t R c k own T HI HS HT) as [HU1 HU2].
  destruct (call_thread s t R c k r d' own T HI HS HT HA) as [HS' HT'].
  split; cbn [s_db s_threads s_granted s_used s_confirms].
  - eapply change_rows; [done | done | apply (i_rows s HI)].
  - destruct d' as [m' q'], (s_db s) as [m q] eqn:Ed. eapply (change_keys own q); [exact HC |]. pose proof (i_keys s HI) as HK. by rewrite Ed in HK.
  - done.
  - done.
  - split; [done |]. intros y Hy. apply note_in. left. by apply HU2.
  - intros t' p. rewrite list_lookup_insert_Some. intros [(-> & <- & _) | [Hne Hp]].
    + exists own, (next T c r). done.
    + eapply thread_grows; [| | | exact (i_threads s HI t' p Hp)]; cbn; [| | done].
      * intros y Hy. apply note_in. by left.
      * intros x [Hx | (y & _ & E)]%note_in; [done |]. by simplify_eq.
Qed.

Lemma inv_start s p confirms own :
  inv s -> safe own any_end ∅ p -> (forall tx, own = Some tx -> tx ∈ confirms) -> (forall tx, tx ∈ s_confirms s -> tx ∈ confirms) ->
  inv (mkSys (s_db s) (s_threads s ++ [p]) (s_granted s) (s_used s) confirms).
Proof.
  intros HI HS HO HC. destruct HI as [H1 H2 H3 H4 H5 H6]. split; cbn; try done.
  - eapply map_Forall_impl; [exact H1 |]. intros id e [Hid Htx]. split; [done |]. auto.
  - intros t q Hq. apply lookup_app_Some in Hq as [Hq | [Hlen Hq]].
    + eapply thread_grows; [| | | exact (H6 t q Hq)]; done.
    + apply list_lookup_singleton_Some in Hq as [_ <-]. exists own, ∅. split; [done |]. split; [set_solver | done].
Qed.

Lemma executions_inv s : reachable s -> inv s.
Proof.
  induction 1 as [| s s' Hr IH Hstep].
  - split; cbn; [apply map_Forall_empty | intros ? ? ? ? H0; cbn [d_rows] in H0; by rewrite lookup_empty in H0 | constructor | set_solver | split; [constructor | set_solver] | done].
  - destruct Hstep as [s t R c k r d' Ht Ha | s p Hp | s tx].
    + by apply inv_call.
    + apply (inv_start s p (s_confirms s) None); [done | by eapply entry_safe | done | done].
    + apply (inv_start s _ _ (Some tx)); [done | apply forget_safe, reserve_Confirm_safe | |]; set_solver.
Qed.

(** ** Theorems *)

(** The runs of the agent and the outcomes recorded. *)
Definition runs (s : sys) : list Z := map snd (filter (fun x => x.1 = false) (map fst (s_used s))).
Definition outcomes (s : sys) : list Z := map snd (filter (fun x => x.1 = true) (map fst (s_used s))).

Lemma used_once s : inv s -> NoDup (map fst (s_used s)).
Proof.
  intros HI. destruct (i_used s HI) as [HN HU]. pose proof (i_granted s HI) as HG.
  assert (HX : forall x t t', (x, t) ∈ s_used s -> (x, t') ∈ s_used s -> t = t').
  { intros x t t' H1%HU H2%HU. clear HN HU. induction (s_granted s) as [| [y u] l IH]; [by apply not_elem_of_nil in H1 |].
    cbn [map fst] in HG. apply NoDup_cons in HG as [Hy HG].
    assert (HM : forall v, (y, v) ∉ l) by (intros v Hv; apply Hy, list_elem_of_fmap; by exists (y, v)).
    apply elem_of_cons in H1 as [E1 | H1], H2 as [E2 | H2]; simplify_eq; try done; [by apply HM in H2 | by apply HM in H1 | auto]. }
  clear HU HG. induction (s_used s) as [| [x t] l IH]; [constructor |]. apply NoDup_cons in HN as [Hx HN]. cbn [map fst]. constructor.
  - intros Hin. apply list_elem_of_fmap in Hin as ([x' t'] & E & Hin). cbn in E. subst x'.
    apply Hx. rewrite (HX x t t'); [done | by left | by right].
  - apply IH; [done |]. intros y u u' H1 H2. apply (HX y); by right.
Qed.

Lemma kind_NoDup (b : bool) (l : list token) : NoDup l -> NoDup (map snd (filter (fun x => x.1 = b) l)).
Proof.
  intros HN. apply NoDup_fmap_2_strong; [| by apply NoDup_filter].
  intros [b1 i] [b2 j] H1 H2 E. apply list_elem_of_filter in H1 as [H1 _], H2 as [H2 _]. cbn in *. by subst.
Qed.

(** C28: an execution is run at most once and its outcome is recorded at most once,
    whatever the nodes, dispatchers, executors, monitors and users do at the same time,
    and however often commands are delivered, calls fail and answers are lost; and the
    fire key of an execution is that of no other. *)
Theorem run_at_most_once s : reachable s -> NoDup (runs s) /\ NoDup (outcomes s) /\ keys_unique (s_db s).
Proof.
  intros HI%executions_inv. pose proof (used_once s HI) as HN. split_and!; [by apply kind_NoDup | by apply kind_NoDup | apply (i_keys s HI)].
Qed.

(** C29: an execution that was run is past its queue: it runs or has finished, so it was
    not cancelled, neither before nor after; and the transaction that owns it was told to
    confirm. *)
Theorem run_was_confirmed s id :
  reachable s -> id ∈ runs s ->
  exists e, d_rows (s_db s) !! id = Some e /\ e_Status e ∈ [StatusRunning; StatusSucceeded; StatusFailed] /\ e_TxID e ∈ s_confirms s.
Proof.
  intros HI%executions_inv Hin. unfold runs in Hin. apply list_elem_of_fmap in Hin as ([b i] & -> & Hin).
  apply list_elem_of_filter in Hin as [Hb Hin]. cbn in Hb. subst b. apply list_elem_of_fmap in Hin as ([x t] & E & Hin). cbn in E. subst x.
  apply (i_used s HI) in Hin. destruct (i_tokens s HI _ _ Hin) as (e & Ee & HT). cbn in Ee, HT. exists e. split; [done |].
  split; [by apply bool_decide_eq_true in HT |]. apply (i_rows s HI _ _ Ee). by right.
Qed.

(** Statuses that can follow. *)
Definition follows (a b : Status) : Prop :=
  match a with
  | StatusSucceeded | StatusFailed | StatusCancelled => b = a
  | StatusRunning => b ∈ [StatusRunning; StatusSucceeded; StatusFailed]
  | _ => True
  end.

Lemma follows_trans a b c : follows a b -> follows b c -> follows a c.
Proof. destruct a; cbn; try done; try by intros ->. intros Hb Hc. destruct b; cbn in *; subst; try done; set_solver. Qed.

Lemma step_follows s s' id e :
  inv s -> step s s' -> d_rows (s_db s) !! id = Some e ->
  exists e', d_rows (s_db s') !! id = Some e' /\ follows (e_Status e) (e_Status e') /\ e_FireKey e' = e_FireKey e /\ e_TaskID e' = e_TaskID e.
Proof.
  intros HI Hs He. assert (HR : follows (e_Status e) (e_Status e)) by (destruct (e_Status e); cbn; set_solver).
  destruct Hs as [s t R c k r d' Ht Ha | s p Hp | s tx]; cbn; [| by exists e | by exists e].
  destruct (i_threads s HI t _ Ht) as (own & T & [HP _] & _). destruct (answer_change own T c _ _ _ HP Ha) as [HC _].
  destruct HC as [| now i f to u E HL Hq | now i f E Hf Hk]; [by exists e | |].
  - destruct (decide (id = i)) as [-> | Hne]; [| exists e; by rewrite lookup_insert_ne by done].
    rewrite lookup_insert_eq. eexists. split; [done |]. assert (f = e) as -> by congruence. split; [| done]. cbn [updated e_Status].
    clear He E HR. destruct e as [eid ty ti fk tx st fa ua er]. cbn [e_Status] in *. destruct st, to; cbn in *; try done; set_solver.
  - exists e. rewrite lookup_insert_ne; [done |]. congruence.
Qed.

(** C30: the status of an execution only moves on: one that is running only finishes, one
    that has succeeded, failed or been cancelled stays so, whatever happens later; its key and its task stay too. *)
Theorem status_moves_on s s' id e :
  reachable s -> rtc step s s' -> d_rows (s_db s) !! id = Some e ->
  exists e', d_rows (s_db s') !! id = Some e' /\ follows (e_Status e) (e_Status e') /\ e_FireKey e' = e_FireKey e /\ e_TaskID e' = e_TaskID e.
Proof.
  intros Hr Hs. revert e. induction Hs as [s | s s1 s2 H1 H2 IH]; intros e He.
  - exists e. split_and!; try done. destruct (e_Status e); cbn; set_solver.
  - destruct (step_follows s s1 id e (executions_inv s Hr) H1 He) as (e1 & E1 & F1 & K1 & I1).
    destruct (IH (r_step _ _ Hr H1) e1 E1) as (e2 & E2 & F2 & K2 & I2). exists e2. split_and!; [done | by eapply follows_trans | congruence | congruence].
Qed.

(** * Executions of tasks: concrete interleavings

    A scheduler that answers the calls of [TfModel] from the database, and histories
    made with it. *)

(** ** Answers *)

Definition unknown : err := Failed "connection lost".

Definition newest (txID : string) (d : db) (id : Z) : bool :=
  bool_decide (map_Forall (fun id' e' => e_TxID e' = txID -> id' <= id) (d_rows d)).

Definition reply {R} (c : call R) (d : db) : R * db :=
  match c in call R return R * db with
  | Transition id from to u => let '(d', n) := transition 0 id (in_status from) to u d in (Ok n, d')
  | TransitionOwned id txID from to u => let '(d', n) := transition 0 id (owned txID from) to u d in (Ok n, d')
  | GetExecution id => (match d_rows d !! id with Some e => Ok e | None => Err NotFound end, d)
  | GetExecutionByFireKey _ => (Err unknown, d)
  | InsertPending e => let '(m, r) := insert_pending 0 e (d_rows d) in (Ok r, mkDB m (d_sent d))
  | FindTX txID =>
      match find_row (fun f => bool_decide (e_TxID f = txID)) (d_rows d) with
      | Some (id, _) => (if newest txID d id then Ok id else Err unknown, d)
      | None => (Err unknown, d)
      end
  | GetScheduledTask _ => (Err unknown, d)
  | GetConditionTask _ => (Err unknown, d)
  | GetRiskRecord _ => (Err unknown, d)
  | SetLastFire _ _ => (None, d)
  | ClaimFire _ => (Ok true, d)
  | ReleaseFire _ => (None, d)
  | MaybeSeen _ => (false, d)
  | MarkSeen _ => (tt, d)
  | Now => (0, d)
  | LoadLocation _ => (true, d)
  | CronParse _ => (true, d)
  | CronNext _ _ _ => (None, d)
  | EnabledScheduledTasks => (Ok [], d)
  | SetNextFire _ _ _ _ => (None, d)
  | InvalidateScheduledTask _ => (tt, d)
  | IsOwner _ => (true, d)
  | LockRole _ => (true, d)
  | UnlockRole _ => (tt, d)
  | CtxDone => (false, d)
  | WaitOrDone => (false, d)
  | SendExec cmd => (None, mkDB (d_rows d) (d_sent d ++ [cmd]))
  | WheelAdd _ _ _ => (None, d)
  | Transaction _ _ => (Ok ("t1", true), d)
  | LoadDefinition _ => (None, d)
  | AgentRun _ => (None, d)
  | RenderReport _ _ => (None, d)
  | WarmReport _ => (tt, d)
  | RecordDispatch _ _ => (None, d)
  | RecordOutcome _ _ _ => (None, d)
  | ProposeLedger _ _ => (None, d)
  end.

Lemma reply_ok {R} (c : call R) d : answer c d (reply c d).1 (reply c d).2.
Proof.
  destruct c; cbn [reply answer]; try done.
  - destruct (transition _ _ _ _ _ _) as [d' n] eqn:E. by exists 0.
  - destruct (transition _ _ _ _ _ _) as [d' n] eqn:E. by exists 0.
  - split; [done |]. by destruct (d_rows d !! id).
  - pose proof (insert_pending_inserted 0 e d). destruct (insert_pending 0 e (d_rows d)) as [m r]. by exists 0.
  - destruct (find_row _ _) as [[id f] |] eqn:E; [| done]. apply find_row_some in E as [E Hk%bool_decide_eq_true]. split; [done |].
    destruct (newest txID d id) eqn:En; [| done]. apply bool_decide_eq_true in En. exists f. split_and!; [done | done |].
    intros id' e' H1 H2. by apply (En id' e').
Qed.

(** ** The scheduler *)

Definition turn (s : sys) (t : nat) : sys :=
  match s_threads s !! t with
  | Some (Call c k) =>
      let '(r, d') := reply c (s_db s) in
      mkSys d' (<[t := k r]> (s_threads s)) (note t (grants c r) (s_granted s)) (note t (uses c) (s_used s)) (s_confirms s)
  | _ => s
  end.

Lemma turn_step s t : turn s t = s \/ step s (turn s t).
Proof.
  unfold turn. destruct (s_threads s !! t) as [[a | R c k] |] eqn:E; [by left | right | by left].
  pose proof (reply_ok c (s_db s)) as HA. destruct (reply c (s_db s)) as [r d']. by apply (st_call s t R c k r d').
Qed.

Lemma turns_rtc ts : forall s, rtc step s (foldl turn s ts).
Proof.
  induction ts as [| t ts IH]; intros s; [constructor |]. cbn [foldl].
  destruct (turn_step s t) as [-> | H]; [apply IH |]. by eapply rtc_l.
Qed.

Lemma turns_reachable ts : forall s, reachable s -> reachable (foldl turn s ts).
Proof.
  induction ts as [| t ts IH]; intros s HR; [done |]. apply IH.
  destruct (turn_step s t) as [-> | H]; [done |]. by eapply r_step.
Qed.

Definition spawn (p : prog unit) (s : sys) : sys := mkSys (s_db s) (s_threads s ++ [p]) (s_granted s) (s_used s) (s_confirms s).

(** ** One execution, delivered twice *)

Definition ex_cmd : ExecCommand := mkCmd 1 "t1" "manual:1".

(** The row is made and the transaction tries, confirms and queues it. *)
Definition ex_queued : sys :=
  let s := spawn (forget (insert_and_dispatch (manual_exec TaskTypeManual 5 "manual:1" 0))) start in
  let s := foldl turn s (replicate 12 0%nat) in
  let s := spawn (forget (mq_Try "t1" 1 "manual:1")) s in
  let s := spawn (forget (reserve_Try "t1" 1)) s in
  let s := foldl turn s [1; 2; 1; 2]%nat in
  let s := mkSys (s_db s) (s_threads s ++ [forget (reserve_Confirm "t1")]) (s_granted s) (s_used s) (s_confirms s ++ ["t1"]) in
  foldl turn s [3; 3; 3]%nat.

Lemma ex_queued_reachable : reachable ex_queued.
Proof.
  unfold ex_queued. apply turns_reachable. eapply r_step; [| apply st_confirm]. apply turns_reachable.
  eapply r_step; [| apply st_start, n_try]. eapply r_step; [| apply st_start, n_mq]. apply turns_reachable.
  eapply r_step; [apply r_start |]. apply st_start, n_manual.
Qed.

(** The command reaches two executors, whose steps alternate. *)
Definition ex_delivered : sys := spawn (forget (handle ex_cmd)) (spawn (forget (handle ex_cmd)) ex_queued).
Definition ex_run : sys := foldl turn ex_delivered (concat (replicate 12 [4; 5]%nat)).

Lemma ex_delivered_reachable : reachable ex_delivered.
Proof.
  eapply r_step; [eapply r_step; [apply ex_queued_reachable |] |]; apply st_start, n_handle; vm_compute; apply list_elem_of_here.
Qed.

Lemma ex_run_reachable : reachable ex_run.
Proof. apply turns_reachable, ex_delivered_reachable. Qed.

Lemma run_at_most_once_witness : runs ex_run = [1] /\ outcomes ex_run = [1] /\ NoDup (runs ex_run).
Proof. split; [by vm_compute |]. split; [by vm_compute |]. apply (run_at_most_once ex_run ex_run_reachable). Defined.

Lemma run_was_confirmed_witness :
  exists e, d_rows (s_db ex_run) !! 1 = Some e /\ e_Status e ∈ [StatusRunning; StatusSucceeded; StatusFailed] /\ e_TxID e ∈ s_confirms ex_run.
Proof. apply (run_was_confirmed ex_run 1 ex_run_reachable). vm_compute. apply list_elem_of_here. Defined.

(** ** A cancelled execution *)

Definition ex_cancelled : sys :=
  foldl turn (spawn (forget (handleCancelExecution 1)) ex_queued) [4; 4]%nat.

Lemma ex_cancelled_reachable : reachable ex_cancelled.
Proof. apply turns_reachable. eapply r_step; [apply ex_queued_reachable |]. apply st_start, n_user. Qed.

Lemma status_moves_on_witness :
  exists e', d_rows (s_db (foldl turn (spawn (forget (handle ex_cmd)) ex_cancelled) (replicate 6 5%nat))) !! 1 = Some e' /\ e_Status e' = StatusCancelled.
Proof.
  destruct (status_moves_on ex_cancelled (foldl turn (spawn (forget (handle ex_cmd)) ex_cancelled) (replicate 6 5%nat)) 1
    (mkExec 1 TaskTypeManual 5 "manual:1" "t1" StatusCancelled 0 0 "cancelled by user")) as (e' & E & F & _).
  - apply ex_cancelled_reachable.
  - eapply rtc_l; [| apply turns_rtc]. apply st_start, n_handle. vm_compute. apply list_elem_of_here.
  - by vm_compute.
  - exists e'. split; [exact E |]. exact F.
Defined.

(** ** Cancelled while reserved *)

(** What a program returns when nobody interferes. *)
Fixpoint eval {A} (p : prog A) (d : db) : A * db :=
  match p with
  | Done a => (a, d)
  | Call c k => let '(r, d') := reply c d in eval (k r) d'
  end.

Definition ex_reserved : db :=
  mkDB {[ 1 := mkExec 1 TaskTypeManual 5 "manual:1" "t1" StatusReserved 0 0 "" ]} [].

(** A user cancels an execution between the two phases of its transaction.  Its
    [Confirm] then fails, now and whenever the manager tries again: the transaction is
    never submitted. *)
Example confirm_fails_for_ever :
  let d := (eval (handleCancelExecution 1) ex_reserved).2 in
  let r := eval (reserve_Confirm "t1") d in
  r = (Err (Failed "confirm failed"), d).
Proof. by vm_compute. Qed.
