(* ===== verification/TfSchedule.v ===== *)
(** * Executions of tasks: the fires of a schedule

    Which executions the migrator of [engine/migrator.go] makes, and that the check of
    [engine/dispatcher.go] accepts them.  Time zones and [robfig/cron] are parameters;
    all other calls answer as they please. *)
From Stdlib Require Import Program.Equality Sorting.Sorted.
From S2P Require Import Prelude GoStrings GoProg TfModel.

(** ** The rows a program inserts *)

Definition inserts {R} (c : call R) : list Execution := match c with InsertPending e => [e] | _ => [] end.

(** A run of a program with answers that [ok] admits: the rows it asks to insert, in
    order, and what it returns. *)
Inductive trace {A} (ok : forall R, call R -> R -> Prop) : prog A -> list Execution -> A -> Prop :=
  | tr_done a : trace ok (Done a) [] a
  | tr_call R (c : call R) k r l a : ok R c r -> trace ok (k r) l a -> trace ok (Call c k) (inserts c ++ l) a.

Section Traces.
Context (ok : forall R, call R -> R -> Prop).

Lemma trace_done {A} (a b : A) l : trace ok (Done a) l b -> l = [] /\ b = a.
Proof. inversion 1; by simplify_eq. Qed.

Lemma trace_call {A R} (c : call R) (k : R -> prog A) l a :
  trace ok (Call c k) l a -> exists r l', l = inserts c ++ l' /\ ok R c r /\ trace ok (k r) l' a.
Proof. intros H. dependent destruction H. eauto. Qed.

Lemma trace_bind {A B} (m : prog A) (f : A -> prog B) : forall l b,
  trace ok (m ≫= f) l b -> exists l1 l2 a, l = l1 ++ l2 /\ trace ok m l1 a /\ trace ok (f a) l2 b.
Proof.
  induction m as [a | R c k IH]; intros l b H; [exists [], l, a; split_and!; [done | constructor | done] |].
  apply trace_call in H as (r & l' & -> & Hok & H). apply IH in H as (l1 & l2 & a & -> & H1 & H2).
  exists (inserts c ++ l1), l2, a. split_and!; [by rewrite app_assoc | by econstructor | done].
Qed.

Lemma trace_ask {A R} (c : call R) (f : R -> prog A) l a :
  trace ok (ask c ≫= f) l a -> exists r l', l = inserts c ++ l' /\ ok R c r /\ trace ok (f r) l' a.
Proof. intros H. by apply trace_call in H. Qed.
End Traces.

(** Follow a run through the next call. *)
Ltac next_call H r :=
  apply trace_ask in H; let l := fresh "l" in destruct H as (r & l & -> & ? & H); cbn [inserts app] in *.

(** ** Schedules *)

(** [robfig/cron].  An expression that parses names instants, all of them whole seconds (five
    fields, or a descriptor such as [@daily]), or it is an interval ([@every]).  In a zone
    [Next] answers the least instant after the one it is given, and none when it finds none
    in five years; for an interval it adds the delay, at least a second and of whole
    seconds, to the instant it is given cut to its second. *)
Definition five_years : Z := 5 * 365 * 86400 * second.

Class Cron := {
  known_zone : string -> bool;
  valid_expr : string -> bool;
  interval_of : string -> option Z;
  cron_next : string -> string -> Z -> option Z
}.

(** An expression that parses and names instants. *)
Definition instants `{Cron} (expr : string) : Prop := valid_expr expr = true /\ interval_of expr = None.

Class CronLaws (cron : Cron) (fires : string -> string -> Z -> Prop) : Prop := {
  next_fires loc expr t n : instants expr -> cron_next loc expr t = Some n -> t < n /\ fires loc expr n;
  whole_second loc expr t : instants expr -> fires loc expr t -> t mod second = 0;
  next_least loc expr t n m : instants expr -> cron_next loc expr t = Some n -> fires loc expr m -> t < m -> n <= m;
  next_none loc expr t m : instants expr -> cron_next loc expr t = None -> fires loc expr m -> t < m -> t + five_years < m;
  interval_delay expr d : valid_expr expr = true -> interval_of expr = Some d -> second <= d /\ d mod second = 0;
  interval_next loc expr d t : valid_expr expr = true -> interval_of expr = Some d -> cron_next loc expr t = Some (t + d - t mod second)
}.

(** What is known of the answers. *)
Definition cron_answers `{Cron} (R : Type) (c : call R) (r : R) : Prop :=
  match c in call R return R -> Prop with
  | LoadLocation tz => fun r => r = known_zone tz
  | CronParse expr => fun r => r = valid_expr expr
  | CronNext loc expr t => fun r => r = cron_next loc expr t
  | _ => fun _ => True
  end r.

(** Follow a run through a call whose answer is known. *)
Ltac next_answer H := let r := fresh "r" in next_call H r; cbn [cron_answers] in *; subst r.

(** The zone in which the fires of a task are computed, and the row of a fire. *)
Definition zone_of `{Cron} (task : ScheduledTask) : string :=
  if known_zone (st_Timezone task) && negb (bool_decide (st_Timezone task = "")) then st_Timezone task
  else if known_zone defaultTaskTimezone then defaultTaskTimezone else "Local".

Definition fire_row (task : ScheduledTask) (fireAt : Z) : Execution :=
  mkExec 0 TaskTypeScheduled (st_ID task) (SchedFireKey (st_ID task) fireAt) "" StatusPending fireAt 0 "".

Section Migrator.
Context {cron : Cron} {fires : string -> string -> Z -> Prop} {laws : CronLaws cron fires}.

Lemma registerFire_row task fireAt now l a :
  trace cron_answers (registerFire task fireAt now) l a -> l = [fire_row task fireAt].
Proof.
  unfold registerFire. intros HT. next_call HT r. f_equal. destruct r as [[b id] | e]; [| by apply trace_done in HT as [-> _]].
  next_call HT r. destruct r as [exec | e]; [| by apply trace_done in HT as [-> _]].
  case_match; [by apply trace_done in HT as [-> _] |].
  apply trace_call in HT as (r & l' & -> & _ & HT). by apply trace_done in HT as [-> _].
Qed.

(** When an expression fires, followed from an instant on: the instants it names, or
    the multiples of its interval from that instant, cut to its second. *)
Definition fires_from (loc expr : string) (start t : Z) : Prop :=
  match interval_of expr with
  | None => fires loc expr t
  | Some d => exists k, 1 <= k /\ t = start - start mod second + k * d
  end.

(** The fires after an instant and up to the end of the window. *)
Definition window_fires (P : Z -> Prop) (after windowEnd : Z) (l : list Z) : Prop :=
  StronglySorted Z.lt l /\ forall t, t ∈ l <-> after < t <= windowEnd /\ P t.

Lemma window_fires_nil (P : Z -> Prop) after windowEnd :
  (forall t, P t -> after < t -> windowEnd < t) -> window_fires P after windowEnd [].
Proof. intros HN. split; [constructor |]. intros t. split; [by intros ?%not_elem_of_nil |]. intros [[H1 H2] HF]. specialize (HN t HF H1). lia. Qed.

(** What the loop relies on: [Next] walks through the fires, from any of them and from the
    instant it starts at. *)
Record walks (next : Z -> option Z) (P : Z -> Prop) (start : Z) : Prop := {
  wk_fires c n : c = start \/ P c -> next c = Some n -> c < n /\ P n;
  wk_second c : P c -> c mod second = 0;
  wk_least c n m : c = start \/ P c -> next c = Some n -> P m -> c < m -> n <= m;
  wk_none c m : c = start \/ P c -> next c = None -> P m -> c < m -> c + five_years < m
}.

Lemma window_fires_cons next P start after windowEnd n l : walks next P start -> after = start \/ P after ->
  next after = Some n -> n <= windowEnd -> window_fires P n windowEnd l -> window_fires P after windowEnd (n :: l).
Proof.
  intros HW Ha HN Hle [HS HL]. destruct (wk_fires _ _ _ HW _ _ Ha HN) as [Hlt HF]. split.
  - constructor; [done |]. apply Forall_forall. intros t Ht. apply HL in Ht. lia.
  - intros t. rewrite elem_of_cons, HL. split; [intros [-> | ?]; [done |]; intuition lia |].
    intros [[H1 H2] Ht]. destruct (decide (t = n)) as [-> | Hne]; [by left |]. right. split; [| done].
    pose proof (wk_least _ _ _ HW _ _ _ Ha HN Ht H1). lia.
Qed.

(** The multiples of an interval. *)
Lemma interval_walks start d : second <= d -> d mod second = 0 ->
  walks (fun t => Some (t + d - t mod second)) (fun t => exists k, 1 <= k /\ t = start - start mod second + k * d) start.
Proof.
  intros Hd Hm. pose proof (Z.div_mod start second ltac:(done)) as Hs. pose proof (Z.mod_pos_bound start second eq_refl) as Hb.
  assert (HX : forall k, (start - start mod second + k * d) mod second = 0).
  { intros k. replace (start - start mod second + k * d) with ((start / second + k * (d / second)) * second); [by rewrite Z.mod_mul |].
    pose proof (Z.div_mod d second ltac:(done)) as Hdd. rewrite Hm in Hdd. unfold second in *. nia. }
  assert (0 < d) by (unfold second in *; lia). split.
  - intros c n [-> | (k & Hk & ->)] [= <-]; [split; [lia |]; exists 1; split; [lia | ring] |]. rewrite HX. split; [lia |]. exists (k + 1). split; [lia | ring].
  - intros c (k & Hk & ->). apply HX.
  - intros c n m [-> | (k & Hk & ->)] [= <-] (k' & Hk' & ->) Hlt; [nia |]. rewrite HX. assert (k < k') by nia. nia.
  - done.
Qed.

Lemma expr_walks loc expr start : valid_expr expr = true -> walks (cron_next loc expr) (fires_from loc expr start) start.
Proof.
  intros HV. unfold fires_from. destruct (interval_of expr) as [d |] eqn:Ei.
  - destruct (interval_delay _ _ HV Ei) as [Hd Hm]. destruct (interval_walks start d Hd Hm) as [W1 W2 W3 W4].
    split; [intros c n Hc; rewrite (interval_next loc expr d c HV Ei); by apply W1 | exact W2 | |].
    + intros c n m Hc. rewrite (interval_next loc expr d c HV Ei). by apply W3.
    + intros c m Hc. by rewrite (interval_next loc expr d c HV Ei).
  - assert (HI : instants expr) by done. split.
    + intros c n _ E. by apply next_fires.
    + intros c. by apply whole_second.
    + intros c n m _. by apply next_least.
    + intros c m _. by apply next_none.
Qed.

Lemma next_second t n : t < n -> n mod second = 0 -> t / second < n / second.
Proof. intros Hlt Hm. apply Z.div_lt_upper_bound; [done |]. pose proof (Z.div_mod n second). unfold second in *. lia. Qed.

Lemma materialize_fires_trace task loc windowEnd now P start : walks (cron_next loc (st_CronExpr task)) P start -> forall fuel cursor l a,
  cursor = start \/ P cursor -> windowEnd <= cursor + five_years -> windowEnd / second - cursor / second < Z.of_nat fuel ->
  trace cron_answers (materialize_fires fuel task loc cursor windowEnd now) l a ->
  exists ts, l = map (fire_row task) ts /\ window_fires P cursor windowEnd ts.
Proof.
  intros HW. induction fuel as [| fuel IH]; intros cursor l a Hcur H5 Hf HT.
  { apply trace_done in HT as [-> _]. exists []. split; [done |]. apply window_fires_nil. intros t _ Hlt.
    destruct (Z.lt_ge_cases windowEnd t); [done |]. pose proof (Z.div_le_mono cursor windowEnd second eq_refl). lia. }
  cbn [materialize_fires] in HT. next_answer HT. destruct (cron_next loc (st_CronExpr task) cursor) as [n |] eqn:En.
  - destruct (Z.ltb_spec windowEnd n).
    + apply trace_done in HT as [-> _]. exists []. split; [done |]. apply window_fires_nil.
      intros t Ht Hlt. pose proof (wk_least _ _ _ HW _ _ _ Hcur En Ht Hlt). lia.
    + apply trace_bind in HT as (l1 & l2 & ? & -> & H1 & H2). apply registerFire_row in H1 as ->.
      pose proof (wk_fires _ _ _ HW _ _ Hcur En) as [Hlt HF]. pose proof (next_second cursor n Hlt (wk_second _ _ _ HW _ HF)).
      apply IH in H2 as (ts & -> & HWF); [| by right | lia | lia].
      exists (n :: ts). split; [done |]. by eapply window_fires_cons.
  - apply trace_done in HT as [-> _]. exists []. split; [done |]. apply window_fires_nil. intros t Ht Hlt.
    pose proof (wk_none _ _ _ HW _ _ Hcur En Ht Hlt). lia.
Qed.

Lemma task_location_trace task l loc : trace cron_answers (task_location task) l loc -> l = [] /\ loc = zone_of task.
Proof.
  unfold task_location, zone_of. intros HT. next_answer HT.
  destruct (known_zone (st_Timezone task)), (bool_decide (st_Timezone task = "")); cbn [negb orb andb] in *.
  all: try (by apply trace_done in HT as [-> ->]).
  all: next_answer HT; by apply trace_done in HT as [-> ->].
Qed.

(** C34: one pass of the migrator over a task whose expression parses makes the rows of
    exactly the instants at which the task fires after the start of the window (or the
    task's creation) and up to its end, each once and in order, whatever the database and
    the wheel answer in between: the instants the expression names, or for an [@every] the
    multiples of its interval counted from that start, cut to its second.  The loop ends by
    itself when the fuel is more than the seconds of the window, which is at most five
    years, as far as [Next] looks ahead. *)
Theorem materialize_exact fuel task now recoverStart windowEnd l a :
  valid_expr (st_CronExpr task) = true ->
  windowEnd <= Z.max recoverStart (st_CreatedAt task) + five_years ->
  windowEnd / second - Z.max recoverStart (st_CreatedAt task) / second < Z.of_nat fuel ->
  trace cron_answers (materializeTask fuel task now recoverStart windowEnd) l a ->
  let start := Z.max recoverStart (st_CreatedAt task) in
  exists ts, l = map (fire_row task) ts /\ window_fires (fires_from (zone_of task) (st_CronExpr task) start) start windowEnd ts.
Proof.
  intros HV H5 Hf HT start. unfold materializeTask in HT. apply trace_bind in HT as (l1 & l2 & loc & -> & H1 & HT).
  apply task_location_trace in H1 as [-> ->]. next_answer HT. rewrite HV in HT. cbn [negb] in HT.
  apply trace_bind in HT as (l1 & l3 & u & -> & H1 & HT).
  replace (if recoverStart <? st_CreatedAt task then st_CreatedAt task else recoverStart) with (Z.max recoverStart (st_CreatedAt task)) in H1
    by (destruct (Z.ltb_spec recoverStart (st_CreatedAt task)); lia).
  eapply materialize_fires_trace in H1 as (ts & -> & HW); [| by apply expr_walks | by left | done | done]. exists ts. split; [| exact HW].
  next_answer HT. assert (l = []) as ->; [| by rewrite app_nil_r].
  destruct (cron_next _ _ now); [| by apply trace_done in HT as [-> _]]. case_match; [by apply trace_done in HT as [-> _] |].
  next_call HT r. apply trace_call in HT as (r' & l' & -> & _ & HT). by apply trace_done in HT as [-> _].
Qed.

(** An instant at which a task fires passes the dispatcher's check of the schedule,
    when its expression names instants and the task has a time zone that is known. *)
Theorem fires_match task fireAt l b :
  instants (st_CronExpr task) -> known_zone (st_Timezone task) = true ->
  fires (st_Timezone task) (st_CronExpr task) fireAt ->
  trace cron_answers (matchesSchedule task fireAt) l b -> b = true.
Proof.
  intros HI HZ HF HT. unfold matchesSchedule in HT. next_answer HT. rewrite HZ in HT. cbn [negb] in HT.
  next_answer HT. rewrite (proj1 HI) in HT. cbn [negb] in HT. next_answer HT.
  apply trace_done in HT as [_ ->]. apply bool_decide_eq_true.
  assert (Hlt : fireAt - 1 < fireAt) by lia.
  destruct (cron_next (st_Timezone task) (st_CronExpr task) (fireAt - 1)) as [n |] eqn:En.
  - pose proof (next_fires _ _ _ _ HI En) as [H1 _]. pose proof (next_least _ _ _ _ _ HI En HF Hlt). f_equal. lia.
  - pose proof (next_none _ _ _ _ HI En HF Hlt) as H1. unfold five_years, second in H1. lia.
Qed.

(** Of a task that fires at intervals of more than a second no whole second passes the
    dispatcher's check, so that each of its executions is cancelled. *)
Theorem every_never_matches task d fireAt l b :
  interval_of (st_CronExpr task) = Some d -> second < d -> fireAt mod second = 0 ->
  trace cron_answers (matchesSchedule task fireAt) l b -> b = false.
Proof.
  intros Hi Hd Hf HT. unfold matchesSchedule in HT. next_answer HT. destruct (known_zone _); cbn [negb] in HT; [| by apply trace_done in HT as [_ ->]].
  next_answer HT. destruct (valid_expr (st_CronExpr task)) eqn:HV; cbn [negb] in HT; [| by apply trace_done in HT as [_ ->]].
  next_answer HT. apply trace_done in HT as [_ ->]. rewrite (interval_next _ _ _ _ HV Hi). apply bool_decide_eq_false. intros [= E].
  assert (Hm : (fireAt - 1) mod second = second - 1); [| rewrite Hm in E; destruct (interval_delay _ _ HV Hi); unfold second in *; lia].
  pose proof (Z.div_mod fireAt second ltac:(done)) as Hdm. replace (fireAt - 1) with ((second - 1) + (fireAt / second - 1) * second) by (unfold second in *; lia).
  by rewrite Z_mod_plus_full.
Qed.
End Migrator.

(** ** Concrete schedules *)

(** A run with fixed answers. *)
Fixpoint exec {A} (h : forall R, call R -> R) (p : prog A) : list Execution * A :=
  match p with
  | Done a => ([], a)
  | Call c k => let '(l, a) := exec h (k (h _ c)) in (inserts c ++ l, a)
  end.

Lemma exec_trace {A} ok h (p : prog A) : (forall R (c : call R), ok R c (h R c)) -> trace ok p (exec h p).1 (exec h p).2.
Proof.
  intros Hh. induction p as [a | R c k IH]; [constructor |]. cbn [exec]. specialize (IH (h R c)).
  destruct (exec h (k (h R c))) as [l a]. econstructor; [apply Hh | exact IH].
Qed.

(** Answers from a schedule; the database keeps nothing. *)
Definition answers `{Cron} (R : Type) (c : call R) : R :=
  match c in call R return R with
  | Transition _ _ _ _ | TransitionOwned _ _ _ _ _ => Ok 0
  | GetExecution _ | GetExecutionByFireKey _ => Err NotFound
  | InsertPending _ => Ok (true, 1)
  | FindTX _ | GetScheduledTask _ | GetConditionTask _ | GetRiskRecord _ | EnabledScheduledTasks => Err NotFound
  | SetLastFire _ _ | ReleaseFire _ | SendExec _ | WheelAdd _ _ _ | SetNextFire _ _ _ _ => None
  | ClaimFire _ => Ok false
  | MaybeSeen _ | WaitOrDone | IsOwner _ | LockRole _ | CtxDone => false
  | MarkSeen _ | InvalidateScheduledTask _ | UnlockRole _ | WarmReport _ => tt
  | Now => 0
  | LoadLocation tz => known_zone tz
  | CronParse expr => valid_expr expr
  | CronNext loc expr t => cron_next loc expr t
  | Transaction _ _ => Err NotFound
  | LoadDefinition _ | RecordDispatch _ _ | RecordOutcome _ _ _ | ProposeLedger _ _ => None
  | AgentRun _ | RenderReport _ _ => None
  end.

Lemma answers_ok `{Cron} R (c : call R) : cron_answers R c (answers R c).
Proof. by destruct c. Qed.

(** Once a day, at midnight of the zone. *)
Definition day : Z := 86400 * second.
Definition offset (loc : string) : Z := if decide (loc = "Asia/Shanghai") then 8 * 3600 * second else 0.
Definition midnight (loc expr : string) (t : Z) : Prop := (t + offset loc) mod day = 0.

(** A library that knows two expressions. *)
Definition ninety : string := "@every 90m".

Definition daily : Cron := {|
  known_zone tz := bool_decide (tz ∈ [""; "UTC"; "Asia/Shanghai"]);
  valid_expr expr := bool_decide (expr ∈ ["0 0 * * *"; ninety]);
  interval_of expr := if decide (expr = ninety) then Some (5400 * second) else None;
  cron_next loc expr t :=
    if decide (expr = ninety) then Some (t + 5400 * second - t mod second)
    else Some (((t + offset loc) / day + 1) * day - offset loc)
|}.

Lemma daily_instants expr : instants (H := daily) expr -> expr <> ninety.
Proof. intros [_ HI] ->. done. Qed.

#[export] Instance daily_laws : CronLaws daily midnight.
Proof.
  assert (Ho : forall loc, exists k, offset loc = k * second) by (intros loc; unfold offset; case_decide; [by exists 28800 | by exists 0]).
  split; cbn [cron_next interval_of daily]; unfold midnight.
  - intros loc expr t n Hi%daily_instants. rewrite decide_False by done. intros [= <-].
    replace (_ - offset loc + offset loc) with (((t + offset loc) / day + 1) * day) by lia.
    split; [| by rewrite Z.mod_mul]. pose proof (Z.mod_pos_bound (t + offset loc) day eq_refl). pose proof (Z.div_mod (t + offset loc) day). unfold day, second in *. lia.
  - intros loc expr t _ Hm. destruct (Ho loc) as [k Hk]. pose proof (Z.div_mod (t + offset loc) day) as Hd. rewrite Hm, Hk in Hd.
    replace t with ((86400 * ((t + offset loc) / day) - k) * second) by (rewrite Hk; unfold day, second in *; lia). by rewrite Z.mod_mul.
  - intros loc expr t n m Hi%daily_instants. rewrite decide_False by done. intros [= <-] Hm Hlt. pose proof (Z.div_mod (m + offset loc) day) as Hd. rewrite Hm in Hd.
    assert ((t + offset loc) / day < (m + offset loc) / day) by (apply Z.div_lt_upper_bound; [done | unfold day, second in *; lia]).
    unfold day, second in *. nia.
  - intros loc expr t m Hi%daily_instants. by rewrite decide_False.
  - intros expr d _. case_decide; [| done]. by intros [= <-].
  - intros loc expr d t _. case_decide; [| done]. by intros [= <-].
Qed.

Definition daily_task (tz : string) : ScheduledTask := mkSched 7 "0 0 * * *" tz true 0 None.
Definition ninety_task : ScheduledTask := mkSched 8 ninety "UTC" true 0 None.

(** Three days, from the first midnight on. *)
Definition daily_run : list Execution * unit :=
  exec (@answers daily) (materializeTask (Z.to_nat 259201) (daily_task "UTC") 0 0 (3 * day)).

(** Four hours, from half a second after the hour on. *)
Definition ninety_run : list Execution * unit :=
  exec (@answers daily) (materializeTask (Z.to_nat 14402) ninety_task 0 500000000 (4 * 3600 * second)).

Lemma materialize_exact_witness :
  (map e_FireAt daily_run.1 = [day; 2 * day; 3 * day] /\
   exists ts, daily_run.1 = map (fire_row (daily_task "UTC")) ts /\ window_fires (midnight "UTC" "0 0 * * *") 0 (3 * day) ts) /\
  map e_FireAt ninety_run.1 = [5400 * second; 10800 * second] /\
  exists ts, ninety_run.1 = map (fire_row ninety_task) ts /\
    window_fires (fun t => exists k, 1 <= k /\ t = 500000000 - 500000000 mod second + k * (5400 * second)) 500000000 (4 * 3600 * second) ts.
Proof.
  split; (split; [by vm_compute |]).
  - apply (materialize_exact (laws := daily_laws) (Z.to_nat 259201) (daily_task "UTC") 0 0 (3 * day) daily_run.1 daily_run.2);
      [by vm_compute | by vm_compute | by vm_compute | apply exec_trace, @answers_ok].
  - apply (materialize_exact (laws := daily_laws) (Z.to_nat 14402) ninety_task 0 500000000 (4 * 3600 * second) ninety_run.1 ninety_run.2);
      [by vm_compute | by vm_compute | by vm_compute | apply exec_trace, @answers_ok].
Defined.

Lemma fires_match_witness : (exec (@answers daily) (matchesSchedule (daily_task "Asia/Shanghai") (16 * 3600 * second))).2 = true.
Proof.
  apply (fires_match (laws := daily_laws) (daily_task "Asia/Shanghai") (16 * 3600 * second)
    (exec (@answers daily) (matchesSchedule (daily_task "Asia/Shanghai") (16 * 3600 * second))).1).
  - by vm_compute.
  - by vm_compute.
  - by vm_compute.
  - apply exec_trace, @answers_ok.
Defined.

(** The fires of an interval are made and cancelled. *)
Lemma every_never_matches_witness : (exec (@answers daily) (matchesSchedule ninety_task (5400 * second))).2 = false.
Proof.
  apply (every_never_matches (laws := daily_laws) ninety_task (5400 * second) (5400 * second) (exec (@answers daily) (matchesSchedule ninety_task (5400 * second))).1);
    [by vm_compute | by vm_compute | by vm_compute | apply exec_trace, @answers_ok].
Defined.

(** A task without a time zone is materialized in the default zone and checked in UTC,
    which is what the empty name loads: its fires do not match. *)
Example empty_zone_cancelled :
  let r := exec (@answers daily) (materializeTask 4 (daily_task "") 0 (16 * 3600 * second - 2) (16 * 3600 * second)) in
  map e_FireAt r.1 = [16 * 3600 * second] /\
  (exec (@answers daily) (matchesSchedule (daily_task "") (16 * 3600 * second))).2 = false.
Proof. by vm_compute. Qed.
