(* ===== verification/TfRelay.v ===== *)
(** * Changes of watched tables, fanned out and published

    [apps/task_flow/server/internal/cdc/relay.go]: each change of a table is turned, in one
    transaction, into an execution and an outbox row for every task that watches the
    table; outbox rows are then sent to the queue.  Relays of several nodes run at the
    same time, skipping rows that another has locked; transactions are rolled back, and a
    message may be sent although the row is not marked. *)
From Stdlib Require Import Ascii.
From stdpp Require Import pretty.
From S2P Require Import Prelude GoStrings GoProg TfModel TfSafety.

(** ** Tables *)

Record ChangeEvent := mkChange {
  ce_ID : Z; ce_EventKey : string; ce_SourceTable : string; ce_Operation : string; ce_OccurredAt : Z; ce_ProcessedAt : option Z }.

(** The task's columns that the query reads. *)
Record WatchTask := mkWatch { wt_ID : Z; wt_Enabled : bool; wt_Table : string; wt_CreatedAt : Z }.

(** The payload's fields that [cond_handle] reads. *)
Record Outbox := mkOutbox { ob_EventKey : string; ob_Payload : CondEvent; ob_PublishedAt : option Z }.

Record tables := mkTables {
  t_changes : list ChangeEvent;
  t_tasks : list WatchTask;
  t_rows : gmap Z Execution;
  t_outbox : list Outbox;
  t_queue : list (string * CondEvent)
}.

(** ** [fanout] *)

(** The insertion that does nothing on a conflict of keys. *)
Definition insert_outbox (o : Outbox) (l : list Outbox) : list Outbox :=
  if existsb (fun o' => bool_decide (ob_EventKey o' = ob_EventKey o)) l then l else l ++ [o].

Definition watches (change : ChangeEvent) (task : WatchTask) : bool :=
  wt_Enabled task && bool_decide (wt_Table task = ce_SourceTable change) && (wt_CreatedAt task <=? ce_OccurredAt change).

Definition change_event (change : ChangeEvent) (task : WatchTask) (id : Z) : CondEvent :=
  mkCondEvent id (CondChangeKey (wt_ID task) (ce_EventKey change)) (wt_ID task) 0 (Some (ce_OccurredAt change)).

Definition fanout_task (now : Z) (change : ChangeEvent) (t : gmap Z Execution * list Outbox) (task : WatchTask) :
    gmap Z Execution * list Outbox :=
  let '(m, (_, id)) := insert_pending now (change_exec (wt_ID task) (ce_EventKey change) (ce_OccurredAt change)) t.1 in
  (m, insert_outbox (mkOutbox (CondChangeKey (wt_ID task) (ce_EventKey change)) (change_event change task id) None) t.2).

Definition processed (now : Z) (c : ChangeEvent) : ChangeEvent :=
  mkChange (ce_ID c) (ce_EventKey c) (ce_SourceTable c) (ce_Operation c) (ce_OccurredAt c) (Some now).

(** The first row that is open and that no other transaction has locked, taken out of the
    list: what precedes it, the row, what follows. *)
Fixpoint pick {A} (open : A -> bool) (l : list A) : option (list A * A * list A) :=
  match l with
  | [] => None
  | x :: l => if open x then Some ([], x, l) else '(l1, y, l2) ← pick open l; Some (x :: l1, y, l2)
  end.

Definition waiting (locked : Z -> bool) (c : ChangeEvent) : bool := bool_decide (ce_ProcessedAt c = None) && negb (locked (ce_ID c)).

(** A transaction that commits: the tables after it and whether there was work. *)
Definition fanout (locked : Z -> bool) (now : Z) (t : tables) : tables * bool :=
  match pick (waiting locked) (t_changes t) with
  | None => (t, false)
  | Some (l1, change, l2) =>
      let '(m, out) :=
        if decide (ce_Operation change = "insert") then
          foldl (fanout_task now change) (t_rows t, t_outbox t) (List.filter (watches change) (t_tasks t))
        else (t_rows t, t_outbox t) in
      (mkTables (l1 ++ processed now change :: l2) (t_tasks t) m out (t_queue t), true)
  end.

(** ** [publish] *)

Definition published (now : Z) (o : Outbox) : Outbox := mkOutbox (ob_EventKey o) (ob_Payload o) (Some now).

Definition unsent (locked : string -> bool) (o : Outbox) : bool := bool_decide (ob_PublishedAt o = None) && negb (locked (ob_EventKey o)).

(** [marked] says whether the update after the send is committed. *)
Definition publish (locked : string -> bool) (marked : bool) (now : Z) (t : tables) : tables * bool :=
  match pick (unsent locked) (t_outbox t) with
  | None => (t, false)
  | Some (l1, o, l2) =>
      (mkTables (t_changes t) (t_tasks t) (t_rows t)
         (if marked then l1 ++ published now o :: l2 else t_outbox t) (t_queue t ++ [(ob_EventKey o, ob_Payload o)]), true)
  end.

(** No row is locked. *)
Definition unlocked {A} (_ : A) : bool := false.

(** ** [Drain] *)

(** How a transaction of the relay ends: it commits, it fails and is rolled back, or its
    message is sent and the rest fails. *)
Inductive fate := Commits | Fails | SendsOnly.

(** What happens around a transaction: what all others do to the tables before it, the
    rows that transactions of other relays have locked, how it ends, and when. *)
Record around := mkAround {
  others_do : tables -> tables; held : Z -> bool; held_out : string -> bool; ends : fate; at_time : Z }.

(** [fanout] and [publish] as [Drain] sees them: whether there was work, or an error. *)
Definition fanout_tx (w : around) (t : tables) : tables * option bool :=
  let t := others_do w t in
  match ends w with
  | Commits => let '(t, worked) := fanout (held w) (at_time w) t in (t, Some worked)
  | _ => (t, None)
  end.

Definition publish_tx (w : around) (t : tables) : tables * option bool :=
  let t := others_do w t in
  match ends w with
  | Commits => let '(t, worked) := publish (held_out w) true (at_time w) t in (t, Some worked)
  | Fails => (t, None)
  | SendsOnly => ((publish (held_out w) false (at_time w) t).1, None)
  end.

(** A loop of [Drain] from [i] on: the tables, the number of the transaction it stopped at,
    and whether that one failed. *)
Fixpoint repeat_work (tx : nat -> tables -> tables * option bool) (budget i : nat) (t : tables) : tables * nat * bool :=
  match budget with
  | O => (t, i, false)
  | S budget =>
      let '(t, r) := tx i t in
      match r with
      | None => (t, i, true)
      | Some false => (t, i, false)
      | Some true => repeat_work tx budget (S i) t
      end
  end.

(** [fs] and [ps] are what happens around the transactions of the two loops. *)
Definition Drain (budget : nat) (fs ps : nat -> around) (t : tables) : tables * (nat * nat) * bool :=
  let '(t, i, err) := repeat_work (fun i => fanout_tx (fs i)) budget 0 t in
  if (err : bool) then (t, (i, 0%nat), true)
  else let '(t, j, err) := repeat_work (fun j => publish_tx (ps j)) budget 0 t in (t, (i, j), err).

(** ** Keys *)

Lemma lacks_digits s : all_digits s -> lacks ":"%char s.
Proof. induction s as [| c s IH]; [done |]. cbn. intros [Hc Hs]. split; [| by apply IH]. intros ->. by apply Hc. Qed.

Lemma lacks_pretty (z : Z) : lacks ":"%char (pretty z).
Proof.
  destruct (Z.lt_ge_cases z 0) as [Hz | Hz]; [| by apply lacks_digits, pretty_Z_spec].
  destruct z as [| p | p]; [lia | lia |]. change (pretty (Z.neg p)) with ("-" +:+ pretty (Z.pos p)).
  split; [done |]. by apply lacks_digits, pretty_Z_spec.
Qed.

Lemma cut_inj sep s s' t t' : lacks sep s -> lacks sep s' -> s +:+ String sep t = s' +:+ String sep t' -> s = s' /\ t = t'.
Proof.
  revert s'. induction s as [| c s IH]; intros [| c' s'] Hs Hs' E; rewrite ?app_Empty, ?app_String in E; simplify_eq; [done | by destruct Hs' | by destruct Hs |].
  destruct Hs as [_ Hs], Hs' as [_ Hs']. edestruct IH as [-> ->]; [exact Hs | exact Hs' | eassumption | done].
Qed.

Lemma CondChangeKey_inj a b x y : CondChangeKey a x = CondChangeKey b y -> a = b /\ x = y.
Proof.
  unfold CondChangeKey. rewrite !app_String, !app_Empty. intros [= E].
  apply cut_inj in E as [Hp E]; [| apply lacks_pretty | apply lacks_pretty]. apply (inj pretty) in Hp as ->.
  by simplify_eq.
Qed.

(** ** Rows and outbox *)

(** Rows stay, with their key and their task. *)
Definition keeps (m m' : gmap Z Execution) : Prop :=
  forall id e, m !! id = Some e -> exists e', m' !! id = Some e' /\ e_FireKey e' = e_FireKey e /\ e_TaskID e' = e_TaskID e.

Lemma keeps_refl m : keeps m m.
Proof. intros id e E. by exists e. Qed.

Lemma keeps_trans m1 m2 m3 : keeps m1 m2 -> keeps m2 m3 -> keeps m1 m3.
Proof.
  intros H1 H2 id e E. destruct (H1 id e E) as (e1 & E1 & K1 & I1). destruct (H2 id e1 E1) as (e2 & E2 & K2 & I2).
  exists e2. split_and!; congruence.
Qed.

(** What the goroutines of [TfModel] do to the table keeps the rows. *)
Lemma step_keeps s s' : reachable s -> step s s' -> keeps (d_rows (s_db s)) (d_rows (s_db s')).
Proof.
  intros Hr Hs id e E. destruct (step_follows s s' id e (executions_inv s Hr) Hs E) as (e' & E' & _ & K & I). by exists e'.
Qed.

(** Keys are unique, and a key that a relay makes is that of its task. *)
Record rows_ok (m : gmap Z Execution) : Prop := {
  ro_keys : keys_unique (mkDB m []);
  ro_tasks : forall id e tid ek, m !! id = Some e -> e_FireKey e = CondChangeKey tid ek -> e_TaskID e = tid;
  ro_ids : forall id e, m !! id = Some e -> 0 < id
}.

(** An event passes the ownership check of [cond_handle]. *)
Definition owned_event (m : gmap Z Execution) (ev : CondEvent) : Prop :=
  ev_ExecutionID ev <> 0 /\
  exists e, m !! ev_ExecutionID ev = Some e /\ e_FireKey e = ev_FireKey ev /\ e_TaskID e = ev_TaskID ev.

Lemma owned_keeps m m' ev : keeps m m' -> owned_event m ev -> owned_event m' ev.
Proof. intros HK (Hid & e & E & K & I). split; [done |]. destruct (HK _ _ E) as (e' & E' & K' & I'). exists e'. split_and!; congruence. Qed.

Definition outbox_ok (m : gmap Z Execution) (out : list Outbox) : Prop :=
  NoDup (map ob_EventKey out) /\ Forall (fun o => ev_FireKey (ob_Payload o) = ob_EventKey o /\ owned_event m (ob_Payload o)) out.

Lemma outbox_keeps m m' out : keeps m m' -> outbox_ok m out -> outbox_ok m' out.
Proof. intros HK [HN HF]. split; [done |]. eapply Forall_impl; [exact HF |]. intros o [H1 H2]. split; [done | by eapply owned_keeps]. Qed.

Lemma insert_pending_ok now tid ek at_ m :
  rows_ok m ->
  let r := insert_pending now (change_exec tid ek at_) m in
  rows_ok r.1 /\ keeps m r.1 /\ owned_event r.1 (mkCondEvent r.2.2 (CondChangeKey tid ek) tid 0 (Some at_)).
Proof.
  intros HR. unfold insert_pending. cbn [change_exec e_FireKey]. destruct (find_row _ m) as [[id e] |] eqn:E; cbn [fst snd].
  - apply find_row_some in E as [E Hk%bool_decide_eq_true]. split_and!; [done | apply keeps_refl |].
    split; cbn; [pose proof (ro_ids m HR _ _ E); lia |]. exists e. split_and!; [done | done |]. by eapply (ro_tasks m HR).
  - pose proof (fresh_id_fresh m) as Hf. assert (Hpos : 0 < fresh_id m).
    { destruct (Z.lt_ge_cases 0 (fresh_id m)) as [? | Hle]; [done |]. unfold fresh_id in *.
      assert (HM : forall l, 0 <= foldr Z.max 0 l) by (intros l; induction l; cbn; lia). specialize (HM (map fst (map_to_list m))). lia. }
    split_and!.
    + split.
      * apply (change_keys None [] [] m); [| apply (ro_keys m HR)]. apply ch_insert; [done | done |].
        intros j f Hj. eapply find_row_none in E; [| exact Hj]. apply bool_decide_eq_false in E. done.
      * intros id e tid' ek'. rewrite lookup_insert_Some. intros [[<- <-] | [_ Hl]]; [| by apply (ro_tasks m HR id)].
        cbn. by intros [-> _]%CondChangeKey_inj.
      * intros id e. rewrite lookup_insert_Some. intros [[<- _] | [_ Hl]]; [done | by eapply (ro_ids m HR)].
    + intros id e Hl. exists e. rewrite lookup_insert_ne by congruence. done.
    + split; cbn; [lia |]. rewrite lookup_insert_eq. by eexists.
Qed.

(** The outbox after a transaction: what was in it, and rows that are not published. *)
Definition extends (out out' : list Outbox) : Prop := exists l, out' = out ++ l /\ Forall (fun o => ob_PublishedAt o = None) l.

Lemma extends_refl out : extends out out.
Proof. exists []. by rewrite app_nil_r. Qed.

Lemma extends_trans a b c : extends a b -> extends b c -> extends a c.
Proof. intros (l & -> & H1) (l' & -> & H2). exists (l ++ l'). split; [by rewrite app_assoc | by apply Forall_app]. Qed.

Lemma extends_keys a b k : extends a b -> k ∈ map ob_EventKey a -> k ∈ map ob_EventKey b.
Proof. intros (l & -> & _) H. rewrite map_app, elem_of_app. by left. Qed.

Lemma insert_outbox_spec o out :
  ob_PublishedAt o = None -> extends out (insert_outbox o out) /\ ob_EventKey o ∈ map ob_EventKey (insert_outbox o out).
Proof.
  intros Ho. unfold insert_outbox. destruct (existsb _ out) eqn:E.
  - split; [apply extends_refl |]. apply existsb_exists in E as (o' & Hin%list_elem_of_In & Hk%bool_decide_eq_true).
    apply list_elem_of_fmap. by exists o'.
  - split; [exists [o]; split; [done | by constructor] |]. rewrite map_app, elem_of_app. right. apply list_elem_of_here.
Qed.

Lemma insert_outbox_ok m o out :
  ev_FireKey (ob_Payload o) = ob_EventKey o -> owned_event m (ob_Payload o) -> outbox_ok m out -> outbox_ok m (insert_outbox o out).
Proof.
  intros Hk Ho [HN HF]. unfold insert_outbox. destruct (existsb _ out) eqn:E; [done |]. split.
  - rewrite map_app. apply NoDup_app. split; [done |]. split; [| repeat constructor; set_solver].
    intros k (o' & -> & Hin)%list_elem_of_fmap Hx. apply list_elem_of_singleton in Hx. apply not_true_iff_false in E. apply E, existsb_exists.
    exists o'. split; [by apply list_elem_of_In | by apply bool_decide_eq_true].
  - apply Forall_app. split; [done |]. by constructor.
Qed.

Lemma fanout_task_ok now change task m out :
  rows_ok m -> outbox_ok m out ->
  let r := fanout_task now change (m, out) task in
  rows_ok r.1 /\ keeps m r.1 /\ outbox_ok r.1 r.2 /\ extends out r.2 /\ CondChangeKey (wt_ID task) (ce_EventKey change) ∈ map ob_EventKey r.2.
Proof.
  intros HR HO. unfold fanout_task. cbn [fst snd].
  destruct (insert_pending_ok now (wt_ID task) (ce_EventKey change) (ce_OccurredAt change) m HR) as (HR' & HK & HE).
  destruct (insert_pending _ _ m) as [m' [b id]]. cbn [fst snd] in *.
  set (o := mkOutbox _ _ _). destruct (insert_outbox_spec o out eq_refl) as [HX HI].
  split_and!; [done | done | | done | done]. apply insert_outbox_ok; [done | done | by eapply outbox_keeps].
Qed.

Lemma fanout_tasks_ok now change tasks : forall m out,
  rows_ok m -> outbox_ok m out ->
  let r := foldl (fanout_task now change) (m, out) tasks in
  rows_ok r.1 /\ keeps m r.1 /\ outbox_ok r.1 r.2 /\ extends out r.2 /\
  forall task, task ∈ tasks -> CondChangeKey (wt_ID task) (ce_EventKey change) ∈ map ob_EventKey r.2.
Proof.
  induction tasks as [| task tasks IH]; intros m out HR HO.
  { split_and!; [done | apply keeps_refl | done | apply extends_refl | by intros ? ?%not_elem_of_nil]. }
  cbn [foldl]. destruct (fanout_task_ok now change task m out HR HO) as (HR1 & HK1 & HO1 & HX1 & HI1).
  destruct (fanout_task now change (m, out) task) as [m1 out1]. cbn [fst snd] in *.
  destruct (IH m1 out1 HR1 HO1) as (HR2 & HK2 & HO2 & HX2 & HI2).
  split_and!; [done | by eapply keeps_trans | done | by eapply extends_trans |].
  intros task' [-> | Hin]%elem_of_cons; [by eapply extends_keys | by apply HI2].
Qed.

(** ** All interleavings *)

(** The pairs of a change and a task that a transaction takes on. *)
Definition fanned (locked : Z -> bool) (t : tables) : list (string * Z) :=
  match pick (waiting locked) (t_changes t) with
  | Some (_, change, _) =>
      if decide (ce_Operation change = "insert") then
        map (fun task => (ce_EventKey change, wt_ID task)) (List.filter (watches change) (t_tasks t))
      else []
  | None => []
  end.

(** What others do to the executions: rows stay, and keys of the relay's form are left to
    the relay. *)
Definition others (m m' : gmap Z Execution) : Prop :=
  keeps m m' /\ keys_unique (mkDB m' []) /\
  forall id e', m' !! id = Some e' -> 0 < id /\ (m !! id = None -> forall tid ek, e_FireKey e' <> CondChangeKey tid ek).

Inductive rstep : tables * list (string * Z) -> tables * list (string * Z) -> Prop :=
  | rs_fanout locked now t g : rstep (t, g) ((fanout locked now t).1, g ++ fanned locked t)
  | rs_publish locked marked now t g : rstep (t, g) ((publish locked marked now t).1, g)
  | rs_capture c t g : ce_ProcessedAt c = None ->
      rstep (t, g) (mkTables (t_changes t ++ [c]) (t_tasks t) (t_rows t) (t_outbox t) (t_queue t), g)
  | rs_tasks tasks t g : rstep (t, g) (mkTables (t_changes t) tasks (t_rows t) (t_outbox t) (t_queue t), g)
  | rs_others m t g : others (t_rows t) m -> rstep (t, g) (mkTables (t_changes t) (t_tasks t) m (t_outbox t) (t_queue t), g).

Definition no_tables : tables := mkTables [] [] ∅ [] [].

Record relay_inv (s : tables * list (string * Z)) : Prop := {
  ri_rows : rows_ok (t_rows s.1);
  ri_outbox : outbox_ok (t_rows s.1) (t_outbox s.1);
  ri_done : forall ek tid, (ek, tid) ∈ s.2 -> CondChangeKey tid ek ∈ map ob_EventKey (t_outbox s.1);
  ri_sent : forall o, o ∈ t_outbox s.1 -> ob_PublishedAt o <> None -> (ob_EventKey o, ob_Payload o) ∈ t_queue s.1;
  ri_queue : forall k ev, (k, ev) ∈ t_queue s.1 -> exists o, o ∈ t_outbox s.1 /\ ob_EventKey o = k /\ ob_Payload o = ev
}.

Lemma pick_some {A} (open : A -> bool) l l1 x l2 :
  pick open l = Some (l1, x, l2) -> l = l1 ++ x :: l2 /\ open x = true.
Proof.
  revert l1. induction l as [| y l IH]; intros l1; [done |]. cbn [pick]. destruct (open y) eqn:Eo; [by intros [= <- <- <-] |].
  destruct (pick open l) as [[[l1' x'] l2'] |]; [| done]. cbn. intros [= <- -> ->]. by destruct (IH l1' eq_refl) as [-> ?].
Qed.

Lemma relay_fanout_inv locked now t g : relay_inv (t, g) -> relay_inv ((fanout locked now t).1, g ++ fanned locked t).
Proof.
  intros HI. unfold fanout, fanned. destruct (pick _ _) as [[[l1 change] l2] |]; [| by rewrite app_nil_r].
  set (r := if decide (ce_Operation change = "insert") then foldl _ _ _ else _).
  set (new := if decide (ce_Operation change = "insert") then map _ _ else _).
  assert (HX : rows_ok r.1 /\ keeps (t_rows t) r.1 /\ outbox_ok r.1 r.2 /\ extends (t_outbox t) r.2 /\
    forall ek tid, (ek, tid) ∈ new -> CondChangeKey tid ek ∈ map ob_EventKey r.2).
  { destruct HI as [H1 H2 _ _ _]. cbn in H1, H2. unfold r, new. case_decide; [| split_and!; [done | apply keeps_refl | done | apply extends_refl | set_solver]].
    destruct (fanout_tasks_ok now change (List.filter (watches change) (t_tasks t)) _ _ H1 H2) as (K1 & K2 & K3 & K4 & K5).
    split_and!; try done. intros ek tid (task & E & Hin)%list_elem_of_fmap. simplify_eq. by apply K5. }
  destruct r as [m out], HX as (K1 & K2 & K3 & K4 & K5). destruct HI as [_ _ H3 H4 H5].
  split; cbn [fst snd t_rows t_outbox t_queue] in *; [done | done | | |].
  - intros ek tid [Hin | Hin]%elem_of_app; [by eapply extends_keys, H3 | by apply K5].
  - intros o Ho Hp. destruct K4 as (l & -> & Hl). apply elem_of_app in Ho as [Ho | Ho]; [by apply H4 |]. by apply (proj1 (Forall_forall _ _) Hl) in Ho.
  - intros k ev (o & Ho & HE)%H5. exists o. split; [| done]. destruct K4 as (l & -> & _). apply elem_of_app. by left.
Qed.

Lemma relay_publish_inv locked marked now t g : relay_inv (t, g) -> relay_inv ((publish locked marked now t).1, g).
Proof.
  intros [H1 [H2 H2'] H3 H4 H5]. cbn [fst snd] in *. unfold publish. destruct (pick _ _) as [[[l1 o] l2] |] eqn:E; [| by split].
  apply pick_some in E as [E _]. assert (Hin : o ∈ t_outbox t) by (rewrite E; set_solver).
  set (out := if marked then _ else _).
  assert (HK : map ob_EventKey out = map ob_EventKey (t_outbox t)) by (unfold out; destruct marked; [rewrite E, !map_app |]; done).
  assert (HB : forall x, x ∈ out -> (exists x', x' ∈ t_outbox t /\ ob_EventKey x' = ob_EventKey x /\ ob_Payload x' = ob_Payload x /\
    (ob_PublishedAt x <> None -> x' = o \/ ob_PublishedAt x' <> None))).
  { intros x. unfold out. destruct marked; [| intros Hx; exists x; auto]. rewrite E, elem_of_app, elem_of_cons. intros [Hx | [-> | Hx]].
    - exists x. rewrite elem_of_app. auto.
    - exists o. rewrite elem_of_app, elem_of_cons. auto.
    - exists x. rewrite elem_of_app, elem_of_cons. auto. }
  assert (HF : forall x, x ∈ t_outbox t -> exists x', x' ∈ out /\ ob_EventKey x' = ob_EventKey x /\ ob_Payload x' = ob_Payload x).
  { intros x. unfold out. destruct marked; [| eauto]. rewrite E, elem_of_app, elem_of_cons. intros [Hx | [-> | Hx]].
    - exists x. rewrite elem_of_app. auto.
    - exists (published now o). rewrite elem_of_app, elem_of_cons. auto.
    - exists x. rewrite elem_of_app, elem_of_cons. auto. }
  split; cbn [fst snd t_rows t_outbox t_queue]; [done | | | |].
  - split; [by rewrite HK |]. apply Forall_forall. intros x (x' & Hx' & <- & <- & _)%HB. by apply (proj1 (Forall_forall _ _) H2').
  - intros ek tid Hd. rewrite HK. by apply H3.
  - intros x (x' & Hx' & <- & <- & Hp)%HB Hpub. rewrite elem_of_app. destruct (Hp Hpub) as [-> | Hn]; [right; apply list_elem_of_here | left; by apply H4].
  - intros k ev [Hq | Hq]%elem_of_app; [apply H5 in Hq as (x & Hx & <- & <-); by apply HF |]. apply list_elem_of_singleton in Hq. simplify_eq. by apply HF.
Qed.

Lemma relay_reachable_inv s : rtc rstep (no_tables, []) s -> relay_inv s.
Proof.
  intros H. remember (no_tables, []) as s0 eqn:E0.
  assert (H0 : relay_inv s0).
  { subst. split; cbn [fst snd t_rows t_outbox t_queue no_tables]; try set_solver; [| by repeat constructor].
    split; [intros i j e f H1; cbn [d_rows] in H1; by apply lookup_empty_Some in H1 | |].
    - intros id e tid ek H1. by apply lookup_empty_Some in H1.
    - intros id e H1. by apply lookup_empty_Some in H1. }
  clear E0. induction H as [s | s s1 s2 Hs _ IH]; [done |]. apply IH. destruct Hs as [locked now t g | locked marked now t g | c t g Hc | tasks t g | m t g (K1 & K2 & K3)].
  - by apply relay_fanout_inv.
  - by apply relay_publish_inv.
  - by destruct H0.
  - by destruct H0.
  - destruct H0 as [H1 H2 H3 H4 H5]. cbn in *. split; cbn; try done; [| by eapply outbox_keeps]. split; [done | | intros id e E; by apply (K3 id e)].
    intros id e tid ek E Hk. destruct (K3 id e E) as [_ Hn]. destruct (t_rows t !! id) as [f |] eqn:Ef; [| by destruct (Hn eq_refl tid ek)].
    destruct (K1 id f Ef) as (f' & E' & Kf & If). rewrite E in E'. injection E' as <-. rewrite If. apply (ro_tasks _ H1 id f tid ek); [done | congruence].
Qed.

(** ** Theorems *)

(** C31: however relays, users and executors interleave and whatever is rolled back, each
    change and task that a relay has taken on has its execution and its row in the outbox,
    a row is marked as published only when its event is in the queue, and every event in
    the queue is of an execution with the event's key and task, so that it passes the
    ownership check of the consumer. *)
Theorem relay_safe t g :
  rtc rstep (no_tables, []) (t, g) ->
  (forall ek tid, (ek, tid) ∈ g -> exists o, o ∈ t_outbox t /\ ob_EventKey o = CondChangeKey tid ek /\ owned_event (t_rows t) (ob_Payload o)) /\
  (forall o, o ∈ t_outbox t -> ob_PublishedAt o <> None -> (ob_EventKey o, ob_Payload o) ∈ t_queue t) /\
  (forall k ev, (k, ev) ∈ t_queue t -> ev_FireKey ev = k /\ owned_event (t_rows t) ev).
Proof.
  intros [_ [HN HF] H3 H4 H5]%relay_reachable_inv. cbn [fst snd] in *. rewrite Forall_forall in HF. split_and!; [| done |].
  - intros ek tid (o & E & Ho)%H3%list_elem_of_fmap. exists o. split_and!; [done | done |]. by apply HF.
  - intros k ev (o & Ho & <- & <-)%H5. by apply HF.
Qed.

Definition backlog {A} (open : A -> bool) (l : list A) : nat := length (List.filter open l).

Lemma pick_none {A} (open : A -> bool) l : pick open l = None <-> backlog open l = 0%nat.
Proof.
  unfold backlog. induction l as [| x l IH]; [done |]. cbn [pick List.filter]. destruct (open x); [done |]. rewrite <- IH.
  destruct (pick open l) as [[[? ?] ?] |]; done.
Qed.

Lemma backlog_none {A} (open : A -> bool) l : backlog open l = 0%nat -> forall x, x ∈ l -> open x = false.
Proof.
  unfold backlog. intros H x Hx. destruct (open x) eqn:E; [| done]. apply length_zero_iff_nil in H.
  assert (Hin : In x (List.filter open l)) by (apply filter_In; split; [by apply list_elem_of_In | done]). rewrite H in Hin. done.
Qed.

(** *** Beside others *)

(** A step that leaves the tasks as they are. *)
Definition beside (s s' : tables * list (string * Z)) : Prop := rstep s s' /\ t_tasks s'.1 = t_tasks s.1.

(** The others are relays, users and executors, who leave the tasks alone meanwhile. *)
Definition lawful (ws : nat -> around) : Prop :=
  forall i t g, exists g', rtc beside (t, g) (others_do (ws i) t, g').

(** The others may hold locks, but do nothing, and no transaction fails. *)
Definition quiet (ws : nat -> around) : Prop := forall i, ends (ws i) = Commits /\ forall t, others_do (ws i) t = t.

Lemma beside_rsteps s s' : rtc beside s s' -> rtc rstep s s'.
Proof. induction 1 as [s | s s1 s2 [Hs _] _ IH]; [done | by eapply rtc_l]. Qed.

Lemma beside_tasks s s' : rtc beside s s' -> t_tasks s'.1 = t_tasks s.1.
Proof. induction 1 as [s | s s1 s2 [_ Ht] _ IH]; congruence. Qed.

Lemma fanout_tasks locked now t : t_tasks (fanout locked now t).1 = t_tasks t.
Proof. unfold fanout. destruct (pick _ _) as [[[l1 c] l2] |]; [| done]. by destruct (if decide _ then _ else _). Qed.

Lemma publish_tasks locked marked now t : t_tasks (publish locked marked now t).1 = t_tasks t.
Proof. unfold publish. by destruct (pick _ _) as [[[l1 c] l2] |]. Qed.

Lemma beside_fanout locked now t g : beside (t, g) ((fanout locked now t).1, g ++ fanned locked t).
Proof. split; [apply rs_fanout | apply fanout_tasks]. Qed.

Lemma beside_publish locked marked now t g : beside (t, g) ((publish locked marked now t).1, g).
Proof. split; [apply rs_publish | apply publish_tasks]. Qed.

(** A change that has been taken on for every task that watches it. *)
Definition taken (c : ChangeEvent) (s : tables * list (string * Z)) : Prop :=
  (exists now, processed now c ∈ t_changes s.1) /\
  (ce_Operation c = "insert" -> forall task, task ∈ t_tasks s.1 -> watches c task = true -> (ce_EventKey c, wt_ID task) ∈ s.2).

(** What a transaction of a relay makes of a row of the changes. *)
Lemma fanout_change locked now t c : c ∈ t_changes t ->
  c ∈ t_changes (fanout locked now t).1 \/
  waiting locked c = true /\ processed now c ∈ t_changes (fanout locked now t).1 /\
  (ce_Operation c = "insert" -> forall task, task ∈ t_tasks t -> watches c task = true -> (ce_EventKey c, wt_ID task) ∈ fanned locked t).
Proof.
  intros Hc. unfold fanout, fanned. destruct (pick _ _) as [[[l1 d] l2] |] eqn:E; [| by left]. apply pick_some in E as [E Hw].
  destruct (if decide (ce_Operation d = "insert") then foldl _ _ _ else _) as [m out]. cbn [fst t_changes]. rewrite E in Hc.
  apply elem_of_app in Hc as [Hc | [-> | Hc]%elem_of_cons]; [left; apply elem_of_app; by left | right | left; rewrite elem_of_app, elem_of_cons; auto].
  split; [done |]. split; [rewrite elem_of_app, elem_of_cons; auto |]. intros Ho task Ht Hwt. rewrite decide_True by done.
  apply list_elem_of_fmap. exists task. split; [done |]. apply list_elem_of_In, filter_In. split; [by apply list_elem_of_In | done].
Qed.

Lemma taken_step c s s' : beside s s' -> taken c s -> taken c s'.
Proof.
  intros [Hs Ht] [(now' & Hc) HG]. destruct Hs as [locked now t g | locked marked now t g | d t g Hd | tasks t g | m t g Hm]; unfold taken; rewrite Ht; cbn [fst snd t_tasks t_changes] in *.
  - split.
    + exists now'. destruct (fanout_change locked now t _ Hc) as [Hc' | [Hw _]]; [done | by unfold waiting in Hw].
    + intros Ho task Hin Hw. apply elem_of_app. left. by apply HG.
  - split; [| done]. exists now'. unfold publish. by destruct (pick _ _) as [[[l1 o] l2] |].
  - split; [| done]. exists now'. apply elem_of_app. by left.
  - split; [by exists now' | done].
  - split; [by exists now' | done].
Qed.

(** A change that waits still waits after a step, or it has been taken on. *)
Lemma waits_step c s s' : beside s s' -> c ∈ t_changes s.1 -> c ∈ t_changes s'.1 \/ taken c s'.
Proof.
  intros [Hs Ht] Hc. destruct Hs as [locked now t g | locked marked now t g | d t g Hd | tasks t g | m t g Hm]; unfold taken; rewrite Ht; cbn [fst snd t_tasks t_changes] in *.
  - destruct (fanout_change locked now t c Hc) as [Hc' | (_ & Hc' & HG)]; [by left |]. right. split; [by exists now |].
    intros Ho task Hin Hw. apply elem_of_app. right. by apply HG.
  - left. unfold publish. by destruct (pick _ _) as [[[l1 o] l2] |].
  - left. apply elem_of_app. by left.
  - by left.
  - by left.
Qed.

Lemma taken_steps c s s' : rtc beside s s' -> taken c s -> taken c s'.
Proof. induction 1 as [s | s s1 s2 Hs _ IH]; [done |]. intros HC. by eapply IH, taken_step. Qed.

Lemma waits_steps c s s' : rtc beside s s' -> c ∈ t_changes s.1 -> c ∈ t_changes s'.1 \/ taken c s'.
Proof.
  induction 1 as [s | s s1 s2 Hs Hr IH]; [by left |]. intros Hc. destruct (waits_step c s s1 Hs Hc) as [Hc' | Hc']; [by apply IH |].
  right. by eapply taken_steps.
Qed.

(** The loops: what they do is steps of a relay beside the others, and one that stops
    before the budget is spent has found no row that was not locked. *)
Lemma fanout_loop fs : lawful fs -> forall budget i t g t' k err,
  repeat_work (fun i => fanout_tx (fs i)) budget i t = (t', k, err) ->
  exists g', rtc beside (t, g) (t', g') /\
    (err = false -> (k < i + budget)%nat -> pick (waiting (held (fs k))) (t_changes t') = None).
Proof.
  intros HL. induction budget as [| budget IH]; intros i t g t' k err E; cbn [repeat_work] in E.
  { injection E as <- <- <-. exists g. split; [constructor |]. lia. }
  unfold fanout_tx in E at 1. destruct (HL i t g) as [g1 H1].
  destruct (ends (fs i)); [| injection E as <- <- <-; by exists g1 | injection E as <- <- <-; by exists g1].
  pose proof (beside_fanout (held (fs i)) (at_time (fs i)) (others_do (fs i) t) g1) as H2. revert H2 E. unfold fanout at 1 2.
  set (g2 := g1 ++ _). destruct (pick _ _) as [[[l1 c] l2] |] eqn:Ep.
  - destruct (if decide _ then _ else _) as [m out]. cbn [fst]. intros H2 E. destruct (IH _ _ g2 _ _ _ E) as (g' & H3 & H4). exists g'. split.
    + etrans; [exact H1 |]. by eapply rtc_l.
    + intros He Hk. apply H4; [done | lia].
  - intros _ E. injection E as <- <- <-. exists g1. by split.
Qed.

Lemma publish_loop ps : lawful ps -> forall budget j t g t' k err,
  repeat_work (fun j => publish_tx (ps j)) budget j t = (t', k, err) ->
  exists g', rtc beside (t, g) (t', g') /\
    (err = false -> (k < j + budget)%nat -> pick (unsent (held_out (ps k))) (t_outbox t') = None).
Proof.
  intros HL. induction budget as [| budget IH]; intros j t g t' k err E; cbn [repeat_work] in E.
  { injection E as <- <- <-. exists g. split; [constructor |]. lia. }
  unfold publish_tx in E at 1. destruct (HL j t g) as [g1 H1]. destruct (ends (ps j)).
  - pose proof (beside_publish (held_out (ps j)) true (at_time (ps j)) (others_do (ps j) t) g1) as H2. revert H2 E. unfold publish at 1 2.
    destruct (pick _ _) as [[[l1 c] l2] |] eqn:Ep; cbn [fst].
    + intros H2 E. destruct (IH _ _ g1 _ _ _ E) as (g' & H3 & H4). exists g'. split; [etrans; [exact H1 |]; by eapply rtc_l |].
      intros He Hk. apply H4; [done | lia].
    + intros _ E. injection E as <- <- <-. exists g1. by split.
  - injection E as <- <- <-. by exists g1.
  - injection E as <- <- <-. exists g1. split; [| done]. eapply rtc_r; [exact H1 | apply beside_publish].
Qed.

(** With nobody else at work a loop stops before a budget that exceeds what waits. *)
Lemma quiet_loop {A} (open : A -> bool) (rows : tables -> list A) tx :
  (forall i t, exists t' worked, tx i t = (t', Some worked) /\ (worked = true -> backlog open (rows t) = S (backlog open (rows t')))) ->
  forall budget i t, (backlog open (rows t) < budget)%nat -> let r := repeat_work tx budget i t in (r.1.2 < i + budget)%nat /\ r.2 = false.
Proof.
  intros HT. induction budget as [| budget IH]; intros i t Hb; [lia |]. cbn [repeat_work].
  destruct (HT i t) as (t' & [|] & -> & Hw); [| cbn; split; [lia | done]]. specialize (Hw eq_refl).
  destruct (IH (S i) t') as [H1 H2]; [lia |]. split; [lia | done].
Qed.

Lemma backlog_split {A} (open : A -> bool) l1 x y l2 : open x = true -> open y = false -> backlog open (l1 ++ x :: l2) = S (backlog open (l1 ++ y :: l2)).
Proof. intros Hx Hy. unfold backlog. rewrite !List.filter_app, !length_app. cbn [List.filter]. rewrite Hx, Hy. cbn. lia. Qed.

Lemma waiting_unlocked locked c : waiting locked c = true -> waiting unlocked c = true.
Proof. unfold waiting, unlocked. rewrite !andb_true_iff. by intros [-> _]. Qed.

Lemma unsent_unlocked locked o : unsent locked o = true -> unsent unlocked o = true.
Proof. unfold unsent, unlocked. rewrite !andb_true_iff. by intros [-> _]. Qed.

Lemma quiet_fanout fs budget t : quiet fs -> (backlog (waiting unlocked) (t_changes t) < budget)%nat ->
  let r := repeat_work (fun i => fanout_tx (fs i)) budget 0 t in (r.1.2 < budget)%nat /\ r.2 = false.
Proof.
  intros HQ Hb. apply (quiet_loop (waiting unlocked) t_changes); [| done]. intros i t0. unfold fanout_tx. destruct (HQ i) as [-> Ho]. rewrite Ho.
  unfold fanout. destruct (pick _ _) as [[[l1 c] l2] |] eqn:E; [| by exists t0, false]. apply pick_some in E as [E Hw].
  destruct (if decide _ then _ else _) as [m out]. do 2 eexists. split; [reflexivity |]. intros _. cbn [t_changes]. rewrite E.
  apply backlog_split; [by eapply waiting_unlocked | done].
Qed.

Lemma quiet_publish ps budget t : quiet ps -> (backlog (unsent unlocked) (t_outbox t) < budget)%nat ->
  let r := repeat_work (fun j => publish_tx (ps j)) budget 0 t in (r.1.2 < budget)%nat /\ r.2 = false.
Proof.
  intros HQ Hb. apply (quiet_loop (unsent unlocked) t_outbox); [| done]. intros i t0. unfold publish_tx. destruct (HQ i) as [-> Ho]. rewrite Ho.
  unfold publish. destruct (pick _ _) as [[[l1 c] l2] |] eqn:E; [| by exists t0, false]. apply pick_some in E as [E Hw].
  do 2 eexists. split; [reflexivity |]. intros _. cbn [t_outbox]. rewrite E. apply backlog_split; [by eapply unsent_unlocked | done].
Qed.

(** The rows left at the end of a loop are locked by another transaction. *)
Lemma waiting_held locked c : waiting locked c = false -> ce_ProcessedAt c = None -> locked (ce_ID c) = true.
Proof. unfold waiting. intros H E. rewrite E, bool_decide_true in H by done. by apply negb_false_iff in H. Qed.

Lemma unsent_held locked o : unsent locked o = false -> ob_PublishedAt o <> None \/ locked (ob_EventKey o) = true.
Proof. unfold unsent. case_bool_decide as E; [| by left]. intros H%negb_false_iff. by right. Qed.

(** C32: a drain, beside other relays, users and executors who do what they like before each
    of its transactions and hold locks on any rows, but leave the tasks alone meanwhile.
    When it returns no error and each loop stopped because it found no more work, not
    because its budget was spent, then every row of the outbox is published or was locked
    by another when it last looked; each change that waited when it began was locked by
    another when it last looked, or is processed, and then the event of every task that
    watches it has its row in the outbox and is in the queue, unless that row was locked by
    another.  When the others only hold locks and nothing fails, a drain whose budget
    exceeds what waits returns no error and stops before the budget is spent. *)
Theorem drain_complete budget fs ps t g t' i j err :
  rtc rstep (no_tables, []) (t, g) -> lawful fs -> lawful ps -> Drain budget fs ps t = (t', (i, j), err) ->
  (err = false -> (i < budget)%nat -> (j < budget)%nat ->
    (forall o, o ∈ t_outbox t' -> ob_PublishedAt o <> None \/ held_out (ps j) (ob_EventKey o) = true) /\
    forall c, c ∈ t_changes t -> ce_ProcessedAt c = None ->
      held (fs i) (ce_ID c) = true \/
      (exists now, processed now c ∈ t_changes t') /\
      (ce_Operation c = "insert" -> forall task, task ∈ t_tasks t -> watches c task = true ->
         let key := CondChangeKey (wt_ID task) (ce_EventKey c) in
         exists o, o ∈ t_outbox t' /\ ob_EventKey o = key /\ ((key, ob_Payload o) ∈ t_queue t' \/ held_out (ps j) key = true))) /\
  (quiet fs -> quiet ps -> (backlog (waiting unlocked) (t_changes t) < budget)%nat ->
   (backlog (unsent unlocked) (t_outbox (repeat_work (fun i => fanout_tx (fs i)) budget 0 t).1.1) < budget)%nat ->
   err = false /\ (i < budget)%nat /\ (j < budget)%nat).
Proof.
  intros HR Hf Hp E. unfold Drain in E. destruct (repeat_work (fun i => fanout_tx (fs i)) budget 0 t) as [[t1 i1] e1] eqn:E1.
  destruct (fanout_loop fs Hf budget 0 t g t1 i1 e1 E1) as (g1 & R1 & N1). split.
  - intros He Hi Hj. subst err. destruct e1; [by injection E |].
    destruct (repeat_work (fun j => publish_tx (ps j)) budget 0 t1) as [[t2 j2] e2] eqn:E2. injection E as <- <- <- ->.
    destruct (publish_loop ps Hp budget 0 t1 g1 t2 j2 false E2) as (g2 & R2 & N2).
    assert (HI : relay_inv (t2, g2)) by (apply relay_reachable_inv; etrans; [exact HR |]; etrans; eapply beside_rsteps; eassumption).
    pose proof (backlog_none _ _ (proj1 (pick_none _ _) (N1 eq_refl Hi))) as B1.
    pose proof (backlog_none _ _ (proj1 (pick_none _ _) (N2 eq_refl Hj))) as B2.
    assert (HO : forall o, o ∈ t_outbox t2 -> ob_PublishedAt o <> None \/ held_out (ps j2) (ob_EventKey o) = true)
      by (intros o Ho; by apply unsent_held, B2). split; [exact HO |]. intros c Hc Hn.
    destruct (waits_steps c _ _ R1 Hc) as [Hw | Hdone]; [left; by apply waiting_held; [apply B1 |] | right].
    destruct (taken_steps c _ _ R2 Hdone) as [Hd HG]. split; [exact Hd |]. intros Ho task Ht Hwt key.
    assert (Htasks : t_tasks t2 = t_tasks t) by (etrans; [exact (beside_tasks _ _ R2) | exact (beside_tasks _ _ R1)]).
    cbn [fst snd] in HG. rewrite Htasks in HG. pose proof (ri_done _ HI _ _ (HG Ho task Ht Hwt)) as Hk. cbn [fst] in Hk.
    apply list_elem_of_fmap in Hk as (o & Ek & Hin). exists o. split; [done |]. split; [done |].
    fold key in Ek. rewrite Ek. destruct (HO o Hin) as [Hpub | Hh]; [left; by apply (ri_sent _ HI) | by right].
  - intros Qf Qp Hb1 Hb2. destruct (quiet_fanout fs budget t Qf Hb1) as [Hi _]. rewrite E1 in Hi. cbn in Hi.
    cbn [fst] in Hb2. destruct (quiet_publish ps budget t1 Qp Hb2) as [Hj He2].
    pose proof (proj2 (quiet_fanout fs budget t Qf Hb1)) as He1. rewrite E1 in He1. cbn in He1. subst e1.
    destruct (repeat_work (fun j => publish_tx (ps j)) budget 0 t1) as [[t2 j2] e2]. cbn in Hj, He2. by injection E as <- <- <- <-.
Qed.

(** ** Two tasks watch a table in which a row is inserted and another deleted *)

Definition ex_change (id : Z) (key operation : string) : ChangeEvent := mkChange id key "orders" operation 50 None.

Definition ex_tables : tables :=
  mkTables [ex_change 1 "k1" "insert"; ex_change 2 "k2" "delete"]
    [mkWatch 1 true "orders" 10; mkWatch 2 true "orders" 20; mkWatch 3 true "orders" 90; mkWatch 4 true "users" 10] ∅ [] [].

Lemma ex_tables_reachable : rtc rstep (no_tables, []) (ex_tables, []).
Proof. eapply rtc_l; [apply (rs_tasks (t_tasks ex_tables)) |]. eapply rtc_l; [by apply (rs_capture (ex_change 1 "k1" "insert")) |]. by apply rtc_once, (rs_capture (ex_change 2 "k2" "delete")). Qed.

(** One relay sends an event and fails to mark it; another sends it again. *)
Definition ex_twice : tables :=
  (publish unlocked true 61 (publish unlocked false 60 (fanout unlocked 60 ex_tables).1).1).1.

Lemma relay_safe_witness :
  map fst (t_queue ex_twice) = ["cond:1:change:k1"; "cond:1:change:k1"] /\
  (forall k ev, (k, ev) ∈ t_queue ex_twice -> ev_FireKey ev = k /\ owned_event (t_rows ex_twice) ev).
Proof.
  split; [by vm_compute |]. apply (relay_safe ex_twice (fanned unlocked ex_tables)).
  eapply rtc_r; [eapply rtc_r; [eapply rtc_r; [apply ex_tables_reachable | apply rs_fanout] | apply rs_publish] | apply rs_publish].
Defined.

(** Another relay has locked the first change when the drain begins, and commits before
    its second transaction. *)
Definition ex_fs (i : nat) : around :=
  match i with
  | O => mkAround id (fun c => c =? 1) unlocked Commits 60
  | S _ => mkAround (fun t => (fanout unlocked 60 t).1) unlocked unlocked Commits 61
  end.

Definition ex_ps (_ : nat) : around := mkAround id unlocked unlocked Commits 62.

Lemma drain_complete_witness :
  let r := Drain 5 ex_fs ex_ps ex_tables in
  r.1.2 = (1%nat, 2%nat) /\ map ce_ProcessedAt (t_changes r.1.1) = [Some 60; Some 60] /\
  (exists o, o ∈ t_outbox r.1.1 /\ ob_EventKey o = "cond:1:change:k1" /\ (("cond:1:change:k1", ob_Payload o) ∈ t_queue r.1.1 \/ false = true)) /\
  forall o, o ∈ t_outbox r.1.1 -> ob_PublishedAt o <> None \/ false = true.
Proof.
  cbv zeta. split; [by vm_compute |]. split; [by vm_compute |].
  destruct (drain_complete 5 ex_fs ex_ps ex_tables [] (Drain 5 ex_fs ex_ps ex_tables).1.1 1 2 false) as [HD _].
  - apply ex_tables_reachable.
  - intros [| i] t g; cbn [ex_fs others_do]; [exists g; constructor |]. eexists. apply rtc_once, beside_fanout.
  - intros i t g. exists g. constructor.
  - by vm_compute.
  - destruct (HD eq_refl ltac:(lia) ltac:(lia)) as [HO HC]. split; [| exact HO].
    destruct (HC (ex_change 1 "k1" "insert")) as [Hh | [_ HT]]; [apply list_elem_of_here | done | by vm_compute in Hh |].
    apply (HT eq_refl (mkWatch 1 true "orders" 10)); [apply list_elem_of_here | done].
Defined.
