(* ===== verification/TfTxStore.v ===== *)
(** * Executions of tasks: the store of transactions

    [apps/task_flow/server/internal/engine/tccstore.go], on a table behind gorm with
    conditional updates.  The store keeps the laws of [TXStoreLaws], so the theorems on the
    transaction manager hold for the dispatcher's. *)
From stdpp Require Import pretty.
From S2P Require Import Prelude GoStrings TccModel TccSafety TccStore TccCases.

(** ** The table

    [db_set_status] is [Update("status", to)] where the key and the status match, with
    the number of rows affected; [db_set_components] sets the other column by key. *)
Class TxTableCond (B : Type) := {
  db_set_status : Z -> string -> string -> B -> result string Z * B;
  db_set_components : Z -> string -> B -> result string unit * B
}.

Definition with_status (status : string) (po : TXRecordPO) : TXRecordPO :=
  mkPO (po_ID po) (po_CreatedAt po) status (po_ComponentTryStatuses po).

Definition with_components (body : string) (po : TXRecordPO) : TXRecordPO :=
  mkPO (po_ID po) (po_CreatedAt po) (po_Status po) body.

Class TxTableCondLaws (B : Type) `{TxTable B, !TxTableLaws B, TxTableCond B} := {
  db_set_status_law n from to b :
    match db_set_status n from to b with
    | (Ok k, b') =>
        match rows b !! n with
        | Some po => if decide (po_Status po = from) then k = 1 /\ rows b' = <[n := with_status to po]> (rows b) else k = 0 /\ rows b' = rows b
        | None => k = 0 /\ rows b' = rows b
        end
    | (Err _, b') => rows b' = rows b
    end;
  db_set_components_law n body b :
    match db_set_components n body b with
    | (Ok _, b') => rows b' = alter (with_components body) n (rows b)
    | (Err _, b') => rows b' = rows b
    end
}.

Definition id_le (a b : TXRecordPO) : Prop := po_ID a <= po_ID b.

#[export] Instance id_le_dec : RelDecision id_le.
Proof. intros a b. unfold id_le. apply _. Defined.

(** ** The store *)

Section Store.
Context {B C : Type} `{HB : !TxTable B} `{HD : !TxTableCond B} `{HJ : !StatusJson} `{HC : !TCCComponent C}.

Definition tf_CreateTX (now : Z) (components : list C) (b : B) : result string string * B :=
  let statuses := foldl (fun m c => <[ID c := mkStatus (ID c) TryHanging]> m) ∅ components in
  match db_create now (mkPO 0 0 TXHanging (Marshal statuses)) b with
  | (Ok record, b') => (Ok (pretty (po_ID record)), b')
  | (Err e, b') => (Err e, b')
  end.

Definition tf_TXUpdate (txID componentID : string) (accept : bool) (b : B) : result string unit * B :=
  match ParseUint txID with
  | Err e => (Err e, b)
  | Ok id =>
      let newStatus := if accept then TrySuccessful else TryFailure in
      LockAndDo id (fun record b =>
        match Unmarshal (po_ComponentTryStatuses record) with
        | Err e => (Err e, b)
        | Ok statuses =>
            match statuses !! componentID with
            | None => (Err "unknown component", b)
            | Some status =>
                if decide (cs_TryStatus status = newStatus) then (Ok tt, b)
                else if negb (bool_decide (cs_TryStatus status = TryHanging)) then (Err "component already settled", b)
                else db_set_components id (Marshal (<[componentID := mkStatus (cs_ComponentID status) newStatus]> statuses)) b
            end
        end) b
  end.

Definition tf_TXSubmit (txID : string) (success : bool) (b : B) : result string unit * B :=
  match ParseUint txID with
  | Err e => (Err e, b)
  | Ok id =>
      let target := if success then TXSuccessful else TXFailure in
      match db_set_status id TXHanging target b with
      | (Err e, b) => (Err e, b)
      | (Ok affected, b) =>
          if affected =? 1 then (Ok tt, b)
          else
            match db_first id b with
            | Err e => (Err e, b)
            | Ok record => if decide (po_Status record = target) then (Ok tt, b) else (Err "tx already submitted", b)
            end
      end
  end.

Definition recordToTransaction (ord : list ComponentTryEntity -> list ComponentTryEntity) (record : TXRecordPO) : result string Transaction :=
  match Unmarshal (po_ComponentTryStatuses record) with
  | Err e => Err e
  | Ok statuses =>
      let components := ord (map (fun x => mkTry (cs_ComponentID x.2) (cs_TryStatus x.2)) (map_to_list statuses)) in
      let txStatus :=
        if decide (po_Status record = TXSuccessful) then TXSuccessful
        else if decide (po_Status record = TXFailure) then TXFailure else TXHanging in
      Ok (mkTX (pretty (po_ID record)) components txStatus (po_CreatedAt record))
  end.

Fixpoint recordsToTransactions (ord : list ComponentTryEntity -> list ComponentTryEntity) (records : list TXRecordPO) :
    result string (list Transaction) :=
  match records with
  | [] => Ok []
  | record :: records =>
      match recordToTransaction ord record with
      | Err e => Err e
      | Ok tx => match recordsToTransactions ord records with Ok txs => Ok (tx :: txs) | Err e => Err e end
      end
  end.

(** [Order("id ASC").Limit(200)] of the rows that match. *)
Definition by_id (records : list TXRecordPO) : list TXRecordPO := merge_sort id_le records.

Definition tf_GetHangingTXs (ord : list ComponentTryEntity -> list ComponentTryEntity) (b : B) : result string (list Transaction) :=
  match db_scan (WithStatus TXHanging) b with
  | Err e => Err e
  | Ok records => recordsToTransactions ord (take 200 (by_id records))
  end.

Definition tf_GetTX (ord : list ComponentTryEntity -> list ComponentTryEntity) (txID : string) (b : B) : result string Transaction :=
  match ParseUint txID with
  | Err e => Err e
  | Ok id => match db_first id b with Err e => Err e | Ok record => recordToTransaction ord record end
  end.

#[export] Instance TfTXStore : TXStore C B := {
  CreateTX := tf_CreateTX;
  TXUpdate := tf_TXUpdate;
  TXSubmit := tf_TXSubmit;
  GetHangingTXs := tf_GetHangingTXs;
  GetTX := tf_GetTX
}.

End Store.

(** ** The laws *)

Section Laws.
Context {B C : Type} `{HB : !TxTable B} `{HBL : !TxTableLaws B} `{HD : !TxTableCond B} `{HDL : !TxTableCondLaws B}
  `{HJ : !StatusJson} `{HJL : !StatusJsonLaws} `{HC : !TCCComponent C}.

Lemma tf_CreateTX_keeps now cs b V : mock_rep b V -> Forall (fun c => ascii_only (ID c)) cs ->
  let '(r, b') := tf_CreateTX now cs b in
  match r with
  | Ok id => V !! id = None /\
      mock_rep b' (<[id := mkView (list_to_map (map (fun c => (ID c, TryHanging)) cs)) TXHanging now]> V)
  | Err _ => mock_rep b' V
  end.
Proof.
  intros Hrep Hids. pose proof (CreateTX_keeps now cs b V Hrep Hids) as H. unfold mock_CreateTX, CreateTXRecord in H. unfold tf_CreateTX.
  by destruct (db_create _ _ b) as [[po | e] b'].
Qed.

Lemma tf_TXUpdate_keeps txID id accept b V w : mock_rep b V -> V !! txID = Some w ->
  let '(r, b') := tf_TXUpdate txID id accept b in
  match r with
  | Ok _ => (v_try w !! id = Some (try_status accept) /\ mock_rep b' V) \/
      (v_try w !! id = Some TryHanging /\ mock_rep b' (<[txID := set_try w id (try_status accept)]> V))
  | Err _ => mock_rep b' V
  end.
Proof.
  intros Hrep Hw. destruct (rep_tx b V txID w Hrep Hw) as (n & po & m & Hp & -> & Hn & Hk & Hm & Hok & ->).
  unfold tf_TXUpdate. rewrite Hp. change (if accept then TrySuccessful else TryFailure) with (try_status accept).
  match goal with |- context [LockAndDo n ?f b] => destruct (LockAndDo_row b n po f Hn) as [-> | [e ->]]; [| done] end.
  unfold db_transaction. rewrite Hm. destruct (m !! id) as [st |] eqn:Est; [| done].
  assert (v_try (row_view po m) !! id = Some (cs_TryStatus st)) as Hv by (simpl; by rewrite lookup_fmap, Est).
  case_decide as Hs; [left; split; [congruence | done] |]. destruct (bool_decide_reflect (cs_TryStatus st = TryHanging)) as [Hh | Hh]; [| done].
  cbn [negb]. set (m' := <[id := mkStatus (cs_ComponentID st) (try_status accept)]> m).
  assert (statuses_ok m') as Hok'.
  { apply map_Forall_insert_2; [| done]. destruct (Hok id st Est) as (? & ? & ?). split_and!; try done. by destruct accept. }
  pose proof (db_set_components_law n (Marshal m') b) as Hlaw. destruct (db_set_components n (Marshal m') b) as [[u | e] b']; [| done].
  right. split; [congruence |]. rewrite (set_try_view po m id st) by done. eapply rep_insert; [done | | apply statuses_back; exact Hok' | exact Hok'].
  rewrite Hlaw. apply map_eq. intros i. destruct (decide (i = n)) as [-> | Hne]; [| by rewrite lookup_alter_ne, lookup_insert_ne by done].
  by rewrite lookup_alter_eq, Hn, lookup_insert_eq.
Qed.

Lemma tf_TXSubmit_keeps txID success b V w : mock_rep b V -> V !! txID = Some w ->
  let '(r, b') := tf_TXSubmit txID success b in
  match r with
  | Ok _ => v_status w <> tx_status (negb success) /\ mock_rep b' (<[txID := set_status w (tx_status success)]> V)
  | Err _ => mock_rep b' V
  end.
Proof.
  intros Hrep Hw. destruct (rep_tx b V txID w Hrep Hw) as (n & po & m & Hp & -> & Hn & Hk & Hm & Hok & ->).
  unfold tf_TXSubmit. rewrite Hp. fold (tx_status success). pose proof (db_set_status_law n TXHanging (tx_status success) b) as Hlaw.
  destruct (db_set_status n TXHanging (tx_status success) b) as [[k | e] b1]; [| by eapply rep_same]. rewrite Hn in Hlaw.
  case_decide as Hs; destruct Hlaw as [-> Hb]; cbn [Z.eqb Pos.eqb].
  - split; [cbn; rewrite Hs; by destruct success |].
    change (set_status (row_view po m) (tx_status success)) with (row_view (with_status (tx_status success) po) m). by eapply rep_insert.
  - destruct (db_first n b1) as [po' | e] eqn:E; [| by eapply rep_same]. apply db_first_law in E. rewrite Hb, Hn in E. injection E as <-.
    case_decide as Ht; [| by eapply rep_same]. split; [cbn; rewrite Ht; by destruct success |].
    assert (Hv : V !! pretty n = Some (row_view po m)) by done.
    replace (set_status (row_view po m) (tx_status success)) with (row_view po m) by (unfold set_status, row_view; cbn; by rewrite Ht).
    rewrite insert_id by done. by eapply rep_same.
Qed.

Lemma recordToTransaction_shows ord b V po t : reorders ord -> mock_rep b V -> rows b !! po_ID po = Some po ->
  recordToTransaction ord po = Ok t -> TXID t = pretty (po_ID po) /\ exists w, V !! TXID t = Some w /\ v_status w = po_Status po /\ shows w t.
Proof.
  intros Hord Hrep Hr. destruct (mr_row _ _ Hrep _ _ Hr) as (m & Hm & Hok & Hv). unfold recordToTransaction. rewrite Hm. intros [= <-].
  split; [done |]. exists (row_view po m). split_and!; [done | done |]. split; [done |].
  pose proof (components_show ord po m Hord Hm Hok) as HS. unfold components_of in HS. by rewrite Hm in HS.
Qed.

Lemma tf_GetTX_keeps ord txID b V w t : reorders ord -> mock_rep b V -> V !! txID = Some w ->
  tf_GetTX ord txID b = Ok t -> TXID t = txID /\ shows w t.
Proof.
  intros Hord Hrep Hw. destruct (rep_tx b V txID w Hrep Hw) as (n & po & m & Hp & -> & Hn & Hk & Hm & Hok & ->).
  unfold tf_GetTX. rewrite Hp. destruct (db_first n b) as [po' | e] eqn:E; [| done]. apply db_first_law in E. rewrite Hn in E. injection E as <-.
  intros HT. rewrite <- Hk in Hn. destruct (recordToTransaction_shows ord b V po t Hord Hrep Hn HT) as (Hid & w' & Hw' & _ & Hs).
  rewrite Hid, Hk in Hw'. rewrite Hk in Hid. split; [done |]. by simplify_eq.
Qed.

Lemma tf_GetHangingTXs_keeps ord b V l : reorders ord -> mock_rep b V -> tf_GetHangingTXs ord b = Ok l ->
  Forall (fun t => exists w, V !! TXID t = Some w /\ v_status w = TXHanging /\ shows w t) l.
Proof.
  intros Hord Hrep. unfold tf_GetHangingTXs. destruct (db_scan _ b) as [rs | e] eqn:El; [| done].
  assert (HF : Forall (fun po => po_Status po = TXHanging /\ rows b !! po_ID po = Some po) (take 200 (by_id rs))).
  { apply Forall_take. unfold by_id. rewrite (merge_sort_Permutation id_le). apply Forall_forall. intros po Hin.
    destruct (scan_row _ _ _ po El Hin) as [Hf Hr]. unfold WithStatus in Hf. by apply bool_decide_eq_true in Hf. }
  revert l. induction HF as [| po rest [Hst Hr] _ IH]; intros l; cbn [recordsToTransactions]; [by intros [= <-] |].
  destruct (recordToTransaction ord po) as [t | e] eqn:Et; [| done]. destruct (recordsToTransactions ord rest) as [ts | e]; [| done].
  intros [= <-]. constructor; [| by apply IH]. destruct (recordToTransaction_shows ord b V po t Hord Hrep Hr Et) as (_ & w & Hw & Hs & HSh).
  exists w. split_and!; [done | congruence | done].
Qed.

#[export] Instance TfTXStoreLaws : TXStoreLaws C B (H0 := TfTXStore) := {
  store_rep := mock_rep;
  id_ok := ascii_only;
  CreateTX_law := tf_CreateTX_keeps;
  TXUpdate_law := tf_TXUpdate_keeps;
  TXSubmit_law := tf_TXSubmit_keeps;
  GetTX_law := tf_GetTX_keeps;
  GetHangingTXs_law := tf_GetHangingTXs_keeps
}.

End Laws.

(** ** On the table in memory *)

#[local] Existing Instances mem_table mem_laws bits_json bits_json_laws named.

Definition mem_put (po : TXRecordPO) (b : mem) : mem := <[po_ID po := (po_CreatedAt po, po_Status po, po_ComponentTryStatuses po)]> b.

#[local] Instance mem_cond : TxTableCond mem := {
  db_set_status n from to b :=
    match mem_rows b !! n with
    | Some po => if decide (po_Status po = from) then (Ok 1, mem_put (with_status to po) b) else (Ok 0, b)
    | None => (Ok 0, b)
    end;
  db_set_components n body b :=
    match mem_rows b !! n with Some po => (Ok tt, mem_put (with_components body po) b) | None => (Ok tt, b) end
}.

Lemma mem_rows_put b n po po' : mem_rows b !! n = Some po -> po_ID po' = n -> mem_rows (mem_put po' b) = <[n := po']> (mem_rows b).
Proof. intros (x & _ & Hn & _)%mem_rows_lookup Hid. unfold mem_put. rewrite Hid, mem_rows_insert by done. f_equal. destruct po'. cbn in *. by subst. Qed.

#[local] Instance mem_cond_laws : TxTableCondLaws mem.
Proof.
  split.
  - intros n from to b. cbn [db_set_status mem_cond]. change (rows b) with (mem_rows b). destruct (mem_rows b !! n) as [po |] eqn:E; [| done].
    pose proof (rows_key b n po E) as [Hk _]. case_decide; [| done]. split; [done |]. by eapply mem_rows_put.
  - intros n body b. cbn [db_set_components mem_cond]. change (rows b) with (mem_rows b). destruct (mem_rows b !! n) as [po |] eqn:E.
    + pose proof (rows_key b n po E) as [Hk _]. change (mem_rows (mem_put (with_components body po) b) = alter (with_components body) n (mem_rows b)).
      rewrite (mem_rows_put b n po) by done. apply map_eq. intros i.
      destruct (decide (i = n)) as [-> | Hne]; [| by rewrite lookup_alter_ne, lookup_insert_ne by done]. by rewrite lookup_alter_eq, E, lookup_insert_eq.
    + change (mem_rows b = alter (with_components body) n (mem_rows b)). apply map_eq. intros i.
      destruct (decide (i = n)) as [-> | Hne]; [by rewrite lookup_alter_eq, E | by rewrite lookup_alter_ne by done].
Qed.

#[local] Instance tf_mem_laws : TXStoreLaws bool mem (H0 := TfTXStore) := TfTXStoreLaws.

(** Two hundred transactions that never settle hide the next one from the monitor. *)
Definition full_table : mem := foldl (fun b _ => (tf_CreateTX (C := bool) 0 [] b).2) ∅ (seq 0 201).

Example newest_not_seen :
  match tf_GetHangingTXs id full_table with
  | Ok txs => length txs = 200%nat /\ existsb (fun t => bool_decide (TXID t = "201")) txs = false
  | Err _ => False
  end.
Proof. by vm_compute. Qed.
