(* ===== verification/TfAudit.v ===== *)
(** * Executions of tasks: the ledger and the journal

    [apps/task_flow/server/internal/consensus/ledger.go]: what a raft node commits is
    replayed into a map.  [journal/journal.go]: one entry per fire key, in a tree of
    [components/lsm_tree].  encoding/json is a parameter of both. *)
From S2P Require Import Prelude RaftModel RaftLog RaftCore RaftStep RaftHandlers RaftEffect RaftCampaign RaftSafety RaftProps RaftNode.

Module Ledger.

Definition recentCap : nat := 64.

Record AppliedEntry := mkApplied { ae_Index : Z; ae_Term : Z; ae_Key : string; ae_Value : string; ae_Time : string }.
Record payload := mkPayload { p_K : string; p_V : string; p_T : string }.

Record t := mk {
  storage : MemoryStorage.t;
  state : gmap string string;
  recent : list AppliedEntry;
  soft : option SoftState;
  hard : HardState;
  applied : Z
}.

Section Replay.
Context (parse_payload : bytes -> option payload) (parse_conf : bytes -> option ConfChange).

Definition apply (index term : Z) (p : payload) (l : t) : t :=
  let entry := mkApplied index term (p_K p) (p_V p) (p_T p) in
  mk (storage l) (<[p_K p := p_V p]> (state l)) (take recentCap (entry :: recent l)) (soft l) (hard l) (applied l).

Definition count (l : t) : t := mk (storage l) (state l) (recent l) (soft l) (hard l) (applied l + 1).

(** One committed entry: the ledger, and what is told to the node. *)
Definition commit (ent : Entry) (l : t) : t * list ConfChange :=
  match e_Type ent with
  | EntryConfChange => (count l, match parse_conf (e_Data ent) with Some cc => [cc] | None => [] end)
  | EntryNormal =>
      match e_Data ent with
      | [] => (count l, [])
      | _ => match parse_payload (e_Data ent) with
             | None => (l, [])
             | Some p => (count (apply (e_Index ent) (e_Term ent) p l), [])
             end
      end
  end.

Fixpoint commit_all (ents : list Entry) (l : t) : t * list ConfChange :=
  match ents with
  | [] => (l, [])
  | ent :: ents =>
      let '(l, cs) := commit ent l in
      let '(l, cs') := commit_all ents l in (l, cs ++ cs')
  end.

(** [Err]: an entry or the hard state could not be stored, and nothing is applied. *)
Definition persistReady (rd : Ready) (l : t) : outcome (result StorageErr (t * list ConfChange)) :=
  r ← MemoryStorage.Append_ (storage l) (rd_Entries rd);
  match r with
  | Err e => Ret (Err e)
  | Ok st =>
      r ← (if IsEmptyHardState (rd_HardState rd) then Ret (Ok st) else MemoryStorage.SetHardState_ st (rd_HardState rd));
      match r with
      | Err e => Ret (Err e)
      | Ok st =>
          let soft' := match rd_SoftState rd with Some s => Some s | None => soft l end in
          let hard' := if IsEmptyHardState (rd_HardState rd) then hard l else rd_HardState rd in
          Ret (Ok (commit_all (rd_CommittedEntries rd) (mk st (state l) (recent l) soft' hard' (applied l))))
      end
  end.

(** ** The replay *)

(** The payloads of entries, newest last. *)
Definition payload_of (ent : Entry) : option AppliedEntry :=
  match e_Type ent, e_Data ent with
  | EntryNormal, _ :: _ => p ← parse_payload (e_Data ent); Some (mkApplied (e_Index ent) (e_Term ent) (p_K p) (p_V p) (p_T p))
  | _, _ => None
  end.

Definition replay (ents : list Entry) (m : gmap string string) : gmap string string :=
  foldl (fun m a => <[ae_Key a := ae_Value a]> m) m (omap payload_of ents).

Lemma commit_spec ent l :
  state (commit ent l).1 = replay [ent] (state l) /\
  recent (commit ent l).1 = match payload_of ent with Some a => take recentCap (a :: recent l) | None => recent l end.
Proof.
  unfold commit, replay, payload_of. cbn [omap list_omap]. destruct (e_Type ent); [| done]. destruct (e_Data ent) as [| b d]; [done |].
  by destruct (parse_payload (b :: d)).
Qed.

Lemma replay_app a b m : replay (a ++ b) m = replay b (replay a m).
Proof. unfold replay. by rewrite omap_app, foldl_app. Qed.

Lemma take_take_app {A} n (l r : list A) : take n (l ++ take n r) = take n (l ++ r).
Proof. rewrite !take_app, take_take. f_equal. f_equal. lia. Qed.

Lemma commit_all_spec ents : forall l,
  (length (recent l) <= recentCap)%nat ->
  state (commit_all ents l).1 = replay ents (state l) /\
  recent (commit_all ents l).1 = take recentCap (reverse (omap payload_of ents) ++ recent l).
Proof.
  induction ents as [| ent ents IH]; intros l Hlen; [cbn [commit_all fst omap list_omap app]; rewrite reverse_nil; split; [done |]; by rewrite take_ge |].
  cbn [commit_all]. destruct (commit_spec ent l) as [Hs Hr]. destruct (commit ent l) as [l1 cs]. cbn [fst] in Hs, Hr.
  assert (Hlen1 : (length (recent l1) <= recentCap)%nat) by (rewrite Hr; destruct (payload_of ent); [rewrite length_take; lia | done]).
  destruct (IH l1 Hlen1) as [IHs IHr]. destruct (commit_all ents l1) as [l2 cs']. cbn [fst] in *. split.
  - by rewrite IHs, Hs, <- replay_app.
  - rewrite IHr, Hr. cbn [omap list_omap]. destruct (payload_of ent) as [a |]; [| done].
    rewrite take_take_app. rewrite reverse_cons, <- app_assoc. done.
Qed.

(** The readies of a run, stored and applied one after the other. *)
Fixpoint persist_all (rds : list Ready) (l : t) : outcome (result StorageErr t) :=
  match rds with
  | [] => Ret (Ok l)
  | rd :: rds =>
      r ← persistReady rd l;
      match r with Err e => Ret (Err e) | Ok (l, _) => persist_all rds l end
  end.

Lemma persist_all_spec rds : forall l l',
  (length (recent l) <= recentCap)%nat -> persist_all rds l = Ret (Ok l') ->
  let ents := concat (map rd_CommittedEntries rds) in
  state l' = replay ents (state l) /\ recent l' = take recentCap (reverse (omap payload_of ents) ++ recent l).
Proof.
  induction rds as [| rd rds IH]; intros l l' Hlen; cbn [persist_all].
  { intros [= <-]. cbn [concat map omap list_omap]. rewrite reverse_nil. split; [done |]. by rewrite app_nil_l, take_ge. }
  unfold persistReady. destruct (MemoryStorage.Append_ _ _) as [[st | e] | e]; cbn [mbind outcome_bind]; try done.
  assert (HX : exists st', (if IsEmptyHardState (rd_HardState rd) then Ret (Ok st) else MemoryStorage.SetHardState_ st (rd_HardState rd)) = Ret (Ok st'))
    by (destruct (IsEmptyHardState _); eexists; done).
  destruct HX as [st' ->]. cbn [mbind outcome_bind].
  set (l1 := mk st' _ _ _ _ _). destruct (commit_all_spec (rd_CommittedEntries rd) l1 Hlen) as [Hs Hr].
  destruct (commit_all _ l1) as [l2 cs]. cbn [fst] in Hs, Hr. cbn [state recent l1] in Hs, Hr.
  intros HP. assert (Hlen2 : (length (recent l2) <= recentCap)%nat) by (rewrite Hr, length_take; lia).
  destruct (IH l2 l' Hlen2 HP) as [IHs IHr]. cbn [map concat]. rewrite replay_app, omap_app, reverse_app, IHs, IHr, Hs, Hr.
  split; [done |]. by rewrite take_take_app, app_assoc.
Qed.

(** C33: the ledger of a node is its log, replayed: when the readies that the node has handed
    out were all stored, the map holds, for every key, the value of the last committed entry
    with the key, over a prefix of the log that is committed, and the recent entries are the
    last of that prefix, newest first and no more than the cap. *)
Theorem ledger_replays {S : Type} `{StorageLaws S} `{GoRuntime} n0 (n : node S) rds l l' :
  node_wf n0 -> node_run n0 (concat (map rd_CommittedEntries rds)) n ->
  (length (recent l) <= recentCap)%nat -> persist_all rds l = Ret (Ok l') ->
  exists k, shown n0 <= k <= rl_commitIndex (r_raftLog (n_raft n)) /\
    let ents := view_slice (log_view (r_raftLog (n_raft n))) (shown n0 + 1) (k + 1) in
    state l' = replay ents (state l) /\ recent l' = take recentCap (reverse (omap payload_of ents) ++ recent l).
Proof.
  intros Hw Hrun Hlen HP. destruct (node_run_shown n0 _ n Hw Hrun) as (Hw' & Hs & Hd). pose proof (shown_bounds _ Hw').
  exists (shown n). split; [lia |]. cbv zeta. rewrite <- Hd. by apply persist_all_spec.
Qed.

End Replay.

(** ** A node of its own *)

#[local] Existing Instances MemoryStorage.storage MemoryStorage.storage_laws.

Definition ex_parse (b : bytes) : option payload :=
  match b with [k; v] => Some (mkPayload (String (Ascii.ascii_of_N (Z.to_N k)) "") (String (Ascii.ascii_of_N (Z.to_N v)) "") "") | _ => None end.

(** The node becomes leader and hands out its first entry, which is stored; two proposals
    are taken and handed out with the next ready, and that is stored too. *)
Definition ready_of (n : node MemoryStorage.t) : Ready := match run_head n with Ret (n, _) => n_rd n | Panic _ => emptyReady end.
Definition proposed1 : node MemoryStorage.t := node_or solo3 (run_iter solo3 (Propose [107; 49])).
Definition proposed2 : node MemoryStorage.t := node_or proposed1 (run_iter proposed1 (Propose [107; 50])).
Definition handed_out : node MemoryStorage.t := node_or proposed2 (run_iter proposed2 EvReady).
Definition advanced : node MemoryStorage.t := node_or handed_out (run_iter handed_out EvAdvance).
Definition two_readies : list Ready := [ready_of solo1; ready_of proposed2].

Lemma proposed_run : node_run solo0 (concat (map rd_CommittedEntries two_readies)) advanced.
Proof.
  replace (concat (map rd_CommittedEntries two_readies))
    with ((((((([] ++ delivered solo0 Campaign) ++ delivered solo1 EvReady) ++ delivered solo2 EvAdvance) ++ delivered solo3 (Propose [107; 49])) ++
            delivered proposed1 (Propose [107; 50])) ++ delivered proposed2 EvReady) ++ delivered handed_out EvAdvance) by (by vm_compute).
  iterate. iterate. iterate. iterate. iterate. iterate. iterate. constructor.
Qed.

Definition empty_ledger : t := mk MemoryStorage.NewMemoryStorage ∅ [] None emptyHardState 0.

Definition ex_ledger : t :=
  match persist_all ex_parse (fun _ => None) two_readies empty_ledger with Ret (Ok l) => l | _ => empty_ledger end.

Lemma ledger_replays_witness :
  state ex_ledger !! "k" = Some "2" /\
  exists k, shown solo0 <= k <= rl_commitIndex (r_raftLog (n_raft advanced)) /\
    let ents := view_slice (log_view (r_raftLog (n_raft advanced))) (shown solo0 + 1) (k + 1) in
    state ex_ledger = replay ex_parse ents ∅ /\ recent ex_ledger = take recentCap (reverse (omap (payload_of ex_parse) ents) ++ []).
Proof.
  split; [by vm_compute |]. apply (ledger_replays ex_parse (fun _ => None) solo0 advanced two_readies empty_ledger ex_ledger).
  - apply solo0_wf.
  - apply proposed_run.
  - cbn. lia.
  - by vm_compute.
Defined.

End Ledger.

Module Journal.

Record Entry := mkEntry {
  FireKey : string; ExecutionID : Z; TaskType : string; TaskName : string; Status : string; Node : string;
  DispatchedAt : string; FinishedAt : string; Error : string; UpdatedAt : string }.

(** The tree and encoding/json. *)
Class Tree (T : Type) := {
  Put : string -> string -> T -> result string unit * T;
  Get : string -> T -> result string (option string)
}.

Class EntryJson := { Marshal : Entry -> string; Unmarshal : string -> result string Entry }.

Record Store (T : Type) := mkStore { tree : T; node : string; closed : bool }.
Arguments mkStore {T} _ _ _.
Arguments tree {T} _.
Arguments node {T} _.
Arguments closed {T} _.

Section Entries.
Context {T : Type} `{Tree T} `{EntryJson}.

Definition entryKey (fireKey : string) : string := "fk:" +:+ fireKey.

Definition get (fireKey : string) (s : Store T) : result string (option Entry) :=
  match Get (entryKey fireKey) (tree s) with
  | Err e => Err e
  | Ok None => Ok None
  | Ok (Some raw) => match Unmarshal raw with Ok entry => Ok (Some entry) | Err e => Err ("journal entry: " +:+ e) end
  end.

Definition put (entry : Entry) (s : Store T) : result string unit * Store T :=
  let '(r, t) := Put (entryKey (FireKey entry)) (Marshal entry) (tree s) in (r, mkStore t (node s) (closed s)).

Definition dispatch_entry (node now fireKey : string) (executionID : Z) (taskType taskName : string) : Entry :=
  mkEntry fireKey executionID taskType taskName "dispatched" node now "" "" now.

Definition RecordDispatch (now fireKey : string) (executionID : Z) (taskType taskName : string) (s : Store T) : result string unit * Store T :=
  if closed s then (Ok tt, s) else put (dispatch_entry (node s) now fireKey executionID taskType taskName) s.

(** The entry that an outcome leaves, from the one that was found. *)
Definition outcome_entry (node now fireKey : string) (executionID : Z) (status runErr : string) (found : option Entry) : Entry :=
  let entry := default (mkEntry fireKey executionID "" "" "" node "" "" "" "") found in
  mkEntry (FireKey entry) executionID (TaskType entry) (TaskName entry) status (Node entry) (DispatchedAt entry) now
    (if decide (runErr = "") then Error entry else runErr) now.

Definition RecordOutcome (now fireKey : string) (executionID : Z) (status runErr : string) (s : Store T) : result string unit * Store T :=
  if decide (fireKey = "") then (Ok tt, s)
  else if closed s then (Ok tt, s)
  else
    let found := match get fireKey s with Ok found => found | Err _ => None end in
    put (outcome_entry (node s) now fireKey executionID status runErr found) s.

Definition Lookup (fireKey : string) (s : Store T) : result string (option Entry) :=
  if closed s then Ok None else get fireKey s.

Definition Close (s : Store T) : Store T := mkStore (tree s) (node s) true.

(** ** The journal as a map *)

Class TreeLaws := {
  contents : T -> gmap string string;
  Put_law k v t : match Put k v t with (Ok _, t') => contents t' = <[k := v]> (contents t) | (Err _, _) => True end;
  Get_law k t v : Get k t = Ok v -> v = contents t !! k;
  json_law e : Unmarshal (Marshal e) = Ok e
}.
Context `{TreeLaws}.

Definition holds (s : Store T) (m : gmap string Entry) : Prop :=
  (forall k e, m !! k = Some e -> FireKey e = k) /\ forall k, contents (tree s) !! entryKey k = Marshal <$> m !! k.

Lemma entryKey_inj a b : entryKey a = entryKey b -> a = b.
Proof. unfold entryKey. intros [= E]. exact E. Qed.

Lemma get_holds s m k r : holds s m -> get k s = Ok r -> r = m !! k.
Proof.
  intros [_ Hm]. unfold get. destruct (Get _ _) as [v |] eqn:E; [| done]. apply Get_law in E. rewrite Hm in E. subst v.
  destruct (m !! k) as [e |]; cbn; [| by intros [= <-]]. rewrite json_law. by intros [= <-].
Qed.

Lemma put_holds s m e s' u : holds s m -> put e s = (Ok u, s') -> holds s' (<[FireKey e := e]> m).
Proof.
  intros [Hk Hm]. unfold put. pose proof (Put_law (entryKey (FireKey e)) (Marshal e) (tree s)) as HL.
  destruct (Put _ _ _) as [[[] | ?] t']; intros [= <- <-]; try done. split; cbn [tree].
  - intros k e'. rewrite lookup_insert_Some. intros [[<- <-] | [_ Hl]]; [done | by apply Hk].
  - intros k. rewrite HL. destruct (decide (k = FireKey e)) as [-> | Hne]; [by rewrite !lookup_insert_eq |].
    rewrite !lookup_insert_ne by (congruence || by intros ?%entryKey_inj). apply Hm.
Qed.

Lemma put_closed e s r s' : put e s = (r, s') -> closed s' = closed s.
Proof. unfold put. destruct (Put _ _ _) as [? t']. by intros [= _ <-]. Qed.

(** What is put is found. *)
Lemma put_Lookup s m e s' u r : holds s m -> closed s = false -> put e s = (Ok u, s') -> Lookup (FireKey e) s' = Ok r -> r = Some e.
Proof.
  intros HS Hc HP HL. unfold Lookup in HL. rewrite (put_closed _ _ _ _ HP), Hc in HL. pose proof (put_holds _ _ _ _ _ HS HP) as HS'.
  apply (get_holds _ _ _ _ HS') in HL as ->. by rewrite lookup_insert_eq.
Qed.

(** An outcome that is recorded without an error keeps what the dispatch wrote, and
    [Lookup] finds it. *)
Lemma outcome_found now k id status runErr s m s' u r :
  holds s m -> k <> "" -> closed s = false -> (exists r, get k s = Ok r) ->
  RecordOutcome now k id status runErr s = (Ok u, s') -> Lookup k s' = Ok r ->
  r = Some (outcome_entry (node s) now k id status runErr (m !! k)).
Proof.
  intros HS Hne Hc [r0 Hg] HR HL. unfold RecordOutcome in HR. rewrite decide_False, Hc, Hg in HR by done.
  apply (get_holds _ _ _ _ HS) in Hg as ->.
  assert (Hk : FireKey (outcome_entry (node s) now k id status runErr (m !! k)) = k)
    by (unfold outcome_entry; cbn [FireKey]; destruct (m !! k) as [e |] eqn:E; cbn; [by apply HS in E | done]).
  eapply put_Lookup; [exact HS | exact Hc | exact HR | by rewrite Hk].
Qed.

(** A dispatch that is recorded after the outcome, as happens when the executor is faster
    than the dispatcher's audit, hides it: whatever the entry was, it says that the
    execution is under way. *)
Lemma dispatch_hides_outcome now k id ty name s m s' u r :
  holds s m -> closed s = false -> RecordDispatch now k id ty name s = (Ok u, s') -> Lookup k s' = Ok r ->
  r = Some (mkEntry k id ty name "dispatched" (node s) now "" "" now).
Proof.
  intros HS Hc HR HL. unfold RecordDispatch in HR. rewrite Hc in HR.
  by apply (put_Lookup s m (dispatch_entry (node s) now k id ty name) s' u r HS Hc HR).
Qed.

End Entries.

End Journal.
