(* ===== verification/CacheFront.v ===== *)
(** * Cache: the cache of a group

    [libs/yukino_cache/cache.go] on the store of [CacheStore]: made at the first write,
    gone after [Close].  An operation has two clocks, [time.Now] and the store's [Now],
    which runs behind it.  Operations run one at a time; the hit rate of [Stats], the
    dashboard and the logs are left out. *)
From S2P Require Import Prelude CacheList CacheLru CacheLruProof CacheStore CacheMaint.
#[local] Open Scope Z_scope.

Record Cache := mkFront {
  store : option (lruStore bytes); opts : StoreOptions; hits : Z; misses : Z; initialized : bool; closed : bool }.

Record clocks := mkClocks { wall : Z; tick : Z }.

(** [ByteView.Len] *)
Definition viewLen (v : bytes) : Z := zlen v.

Section Front.
(** The order in which [Clear] ranges over the keys of a bucket. *)
Context (ord : gset string -> list string).

Definition NewCache (o : StoreOptions) : Cache := mkFront None o 0 0 false false.

Definition with_store (s : lruStore bytes) (c : Cache) : Cache := mkFront (Some s) (opts c) (hits c) (misses c) (initialized c) (closed c).
Definition miss (c : Cache) : Cache := mkFront (store c) (opts c) (hits c) (s64 (misses c + 1)) (initialized c) (closed c).
Definition hit (c : Cache) : Cache := mkFront (store c) (opts c) (s64 (hits c + 1)) (misses c) (initialized c) (closed c).

Definition ensureInitialized (c : Cache) : outcome Cache :=
  if initialized c then Ret c
  else if closed c then Ret c
  else s ← NewStore (opts c); Ret (mkFront (Some s) (opts c) (hits c) (misses c) true (closed c)).

Definition Add (t : clocks) (c : Cache) (key : string) (value : bytes) : outcome Cache :=
  if closed c then Ret c
  else
    c ← ensureInitialized c;
    match store c with
    | None => Ret c
    | Some s => r ← store_Set viewLen s key value (tick t); Ret (with_store r.1 c)
    end.

(** The value, if it was found.  A value of the store that is not a [ByteView] is [None]. *)
Definition Get (t : clocks) (c : Cache) (key : string) : outcome (option bytes * Cache) :=
  if closed c then Ret (None, c)
  else if negb (initialized c) then Ret (None, miss c)
  else match store c with
       | None => Ret (None, miss c)
       | Some s =>
           r ← store_Get viewLen s key (tick t);
           let '(val, found, s', _) := (r : option bytes * bool * lruStore bytes * evicted (V := bytes)) in
           let c := with_store s' c in
           if negb found then Ret (None, miss c)
           else match val with Some v => Ret (Some v, hit c) | None => Ret (None, miss c) end
       end.

(** [time.Until] saturates. *)
Definition Until (expirationTime now : Z) : Z := Z.max (-9223372036854775808) (Z.min 9223372036854775807 (expirationTime - now)).

Definition AddWithExpiration (t : clocks) (c : Cache) (key : string) (value : bytes) (expirationTime : Z) : outcome Cache :=
  if closed c then Ret c
  else
    let expiration := Until expirationTime (wall t) in
    if expiration <=? 0 then Ret c
    else
      c ← ensureInitialized c;
      match store c with
      | None => Ret c
      | Some s => r ← SetWithExpiration viewLen s key value expiration (tick t); Ret (with_store r.1 c)
      end.

Definition Delete (c : Cache) (key : string) : outcome (bool * Cache) :=
  if closed c || negb (initialized c) then Ret (false, c)
  else match store c with
       | None => Ret (false, c)
       | Some s => r ← store_Delete viewLen s key; Ret (r.1.1, with_store r.1.2 c)
       end.

Definition Clear (c : Cache) : outcome Cache :=
  if closed c || negb (initialized c) then Ret c
  else match store c with
       | None => Ret c
       | Some s => r ← CacheMaint.Clear viewLen ord s; Ret (mkFront (Some r.1) (opts c) 0 0 (initialized c) (closed c))
       end.

Definition Len (c : Cache) : outcome Z :=
  if closed c || negb (initialized c) then Ret 0
  else match store c with None => Ret 0 | Some s => CacheMaint.Len s end.

Definition Close (c : Cache) : Cache :=
  if closed c then c else mkFront None (opts c) (hits c) (misses c) false true.

Definition Entries (c : Cache) : outcome (list Entry) :=
  if closed c || negb (initialized c) then Ret []
  else match store c with
       | None => Ret []
       | Some s => Walk viewLen (fun entries e => (entries ++ [e], true)) s []
       end.

(** ** The contract: a map that may lose entries *)

Inductive op :=
  | OAdd (key : string) (value : bytes)
  | OAddWithExpiration (key : string) (value : bytes) (expirationTime : Z)
  | OGet (key : string)
  | ODelete (key : string)
  | OClear
  | OClose
  | OSweep.

(** One operation, or a tick of the store's cleanup; the answer of a [Get]. *)
Definition run_op (c : Cache) (x : clocks * op) : outcome (option bytes * Cache) :=
  let '(t, o) := x in
  match o with
  | OAdd key value => c ← Add t c key value; Ret (None, c)
  | OAddWithExpiration key value at_ => c ← AddWithExpiration t c key value at_; Ret (None, c)
  | OGet key => Get t c key
  | ODelete key => r ← Delete c key; Ret (None, r.2)
  | OClear => c ← Clear c; Ret (None, c)
  | OClose => Ret (None, Close c)
  | OSweep => match store c with
              | None => Ret (None, c)
              | Some s => r ← cleanup viewLen ord (tick t) s; Ret (None, with_store r.1 c)
              end
  end.

Fixpoint run_ops (c : Cache) (l : list (clocks * op)) : outcome (list (option bytes) * Cache) :=
  match l with
  | [] => Ret ([], c)
  | x :: l => r ← run_op c x; r' ← run_ops r.2 l; Ret (r.1 :: r'.1, r'.2)
  end.

(** What was last written for a key, and until when, by the store's clock. *)
Abbreviation written := (gmap string (bytes * Z)).

Definition write_op (m : written) (x : clocks * op) : written :=
  let '(t, o) := x in
  match o with
  | OAdd key value => <[key := (value, maxExpireAt)]> m
  | OAddWithExpiration key value at_ => if at_ <=? wall t then m else <[key := (value, tick t + Until at_ (wall t))]> m
  | OGet _ | OSweep => m
  | ODelete key => delete key m
  | OClear | OClose => ∅
  end.

(** A [Get] finds nothing, or what was last written and has not expired. *)
Definition answers (m : written) (x : clocks * op) (a : option bytes) : Prop :=
  match x.2 with
  | OGet key => forall v, a = Some v -> exists e, m !! key = Some (v, e) /\ tick x.1 < e
  | _ => a = None
  end.

Fixpoint explained (m : written) (l : list (clocks * op)) (rs : list (option bytes)) : Prop :=
  match l, rs with
  | [], [] => True
  | x :: l, a :: rs => answers m x a /\ explained (write_op m x) l rs
  | _, _ => False
  end.

(** ** The cache meets it *)

Definition good_options (o : StoreOptions) : Prop :=
  0 <= BucketCount o <= 32768 /\ 0 <= CapPerBucket o < 65535 /\ 0 <= Level2Cap o < 65535.

(** The entries of the store are what was last written. *)
Definition holds (m : written) (s : lruStore bytes) : Prop :=
  store_wf viewLen s /\ forall k v e, scontent s k = Some (v, e) -> exists v0, v = Some v0 /\ m !! k = Some (v0, e).

Definition front_wf (m : written) (c : Cache) : Prop :=
  good_options (opts c) /\
  match store c with
  | None => initialized c = false
  | Some s => initialized c = true /\ closed c = false /\ holds m s
  end.

(** Clocks do not run past the range of their integers. *)
Definition timely (x : clocks * op) : Prop :=
  0 <= tick x.1 < 9223372036854775808 /\
  match x.2 with OAddWithExpiration _ _ at_ => tick x.1 + Until at_ (wall x.1) < 9223372036854775808 | _ => True end.

Lemma store_Delete_spec s key : store_wf viewLen s ->
  exists ok s' ev, store_Delete viewLen s key = Ret (ok, s', ev) /\ store_wf viewLen s' /\
    forall k, scontent s' k = if decide (k = key) then None else scontent s k.
Proof.
  intros Hw. destruct (bucket_ok viewLen s key Hw) as (b & Hi & Hb & Eb & Hbw). unfold store_Delete. rewrite Eb. cbn [mbind outcome_bind].
  destruct (delete_spec viewLen b key Hbw) as (b' & ev & -> & Hbw' & Hc). cbn [mbind outcome_bind fst snd].
  do 3 eexists. split; [done |]. split; [apply set_bucket_wf; done || lia |]. intros k. rewrite scontent_set by done.
  case_decide as Hd.
  - rewrite Hc. case_decide; [done |]. unfold scontent. by rewrite Hd, Hb.
  - rewrite decide_False; [done |]. intros ->. done.
Qed.

Lemma ensureInitialized_spec m c : front_wf m c -> closed c = false ->
  exists c' s, ensureInitialized c = Ret c' /\ front_wf m c' /\ store c' = Some s /\ closed c' = false.
Proof.
  intros [Ho Hs] Hc. unfold ensureInitialized. destruct (store c) as [s |] eqn:Es.
  - destruct Hs as (Hi & _ & Hh). rewrite Hi. exists c, s. split_and!; try done. unfold front_wf. by rewrite Es.
  - rewrite Hs, Hc. destruct Ho as (H1 & H2 & H3). destruct (NewStore_starts viewLen (opts c) H1 H2 H3) as (s & -> & Hw & _ & He).
    cbn [mbind outcome_bind]. exists (mkFront (Some s) (opts c) (hits c) (misses c) true false), s.
    split; [done |]. split; [| by split]. split; [done |]. do 2 (split; [done |]). split; [done |]. intros k v e E. rewrite He in E. done.
Qed.

(** A write replaces the entry, or the byte limit drops it at once. *)
Lemma write_spec m c key value d t :
  front_wf m c -> closed c = false -> 0 <= tick t -> 0 <= d -> tick t + d < 9223372036854775808 ->
  exists c', (c ← ensureInitialized c;
    match store c with
    | None => Ret c
    | Some s => r ← SetWithExpiration viewLen s key value d (tick t); Ret (with_store r.1 c)
    end) = Ret c' /\ front_wf (<[key := (value, if 0 <? d then tick t + d else maxExpireAt)]> m) c'.
Proof.
  intros HF Hc Ht Hd Hr. destruct (ensureInitialized_spec m c HF Hc) as (c1 & s & -> & HF1 & Es & Hc1). cbn [mbind outcome_bind].
  rewrite Es. destruct HF1 as [Ho HS]. rewrite Es in HS. destruct HS as (Hi & _ & Hw & Hh).
  assert (Ee : (if 0 <? d then s64 (tick t + d) else maxExpireAt) = (if 0 <? d then tick t + d else maxExpireAt)) by (rewrite s64_small by lia; done).
  pose proof (store_Set_spec viewLen s key value d (tick t) Hw) as HSet. cbv zeta in HSet. rewrite Ee in HSet.
  destruct HSet as (s' & ev & -> & Hw' & Hkey & Hk & _); [destruct (Z.ltb_spec 0 d); [lia | done] |]. cbn [mbind outcome_bind fst].
  exists (with_store s' c1). split; [done |]. split; [done |]. cbn [with_store store initialized closed]. split_and!; [done | done |]. split; [done |].
  intros k v e E. destruct (decide (k = key)) as [-> | Hne].
  - rewrite lookup_insert_eq. destruct Hkey as [Hkey | (_ & _ & Hkey)]; [| congruence]. rewrite Hkey in E. injection E as <- <-. eauto.
  - rewrite lookup_insert_ne by done. destruct (Hk k Hne) as [Hs | [_ Hs]]; [| congruence]. apply Hh. by rewrite <- Hs.
Qed.

Lemma Get_answers m c t key : front_wf m c ->
  exists a c', Get t c key = Ret (a, c') /\ front_wf m c' /\ answers m (t, OGet key) a.
Proof.
  intros HF. pose proof HF as [Ho HS]. unfold Get, answers. cbn [fst snd]. destruct (closed c) eqn:Ec; [by exists None, c |].
  destruct (store c) as [s |] eqn:Es.
  - destruct HS as (Hi & _ & Hw & Hh). rewrite Hi. cbn [negb].
    destruct (store_Get_spec viewLen s key (tick t) Hw) as (v & ok & s' & ev & -> & Hw' & Hm & Hk). cbn [mbind outcome_bind].
    assert (HH : holds m s').
    { split; [done |]. intros k v' e' E. destruct (decide (k = key)) as [-> | Hne]; [| destruct (Hk k Hne) as [Hx | [_ Hx]]; [apply Hh; by rewrite <- Hx | congruence]].
      destruct (scontent s key) as [[v0 e0] |] eqn:E0; [| destruct Hm as (_ & _ & Hm); congruence].
      destruct (e0 <=? tick t); destruct Hm as (_ & _ & Hm); [congruence |]. rewrite Hm in E. injection E as <- <-. by apply Hh. }
    destruct ok; cbn [negb]; [| eexists None, _; split_and!; [done | by split | done]].
    destruct v as [v |]; [| eexists None, _; split_and!; [done | by split | done]]. eexists (Some v), _. split; [done |]. split; [by split |].
    intros v' [= <-]. destruct (scontent s key) as [[v0 e0] |] eqn:E0; [| by destruct Hm as (_ & ? & _)].
    destruct (Z.leb_spec e0 (tick t)); [by destruct Hm as (_ & ? & _) |]. destruct Hm as (<- & _ & _).
    destruct (Hh _ _ _ E0) as (v1 & [= <-] & Em). eauto.
  - rewrite HS. cbn [negb]. exists None, (miss c). split; [done |]. split; [| done]. split; [done |]. cbn. by rewrite Es.
Qed.

(** A pass over the store that keeps what it keeps. *)
Lemma pass_wf m m' c s s' h mi :
  front_wf m c -> store c = Some s -> store_wf viewLen s' ->
  (forall k v e, scontent s' k = Some (v, e) -> scontent s k = Some (v, e) /\ m' !! k = m !! k) ->
  front_wf m' (mkFront (Some s') (opts c) h mi (initialized c) (closed c)).
Proof.
  intros [Ho HS] Es Hw Hk. rewrite Es in HS. destruct HS as (Hi & Hc & _ & Hh). split; [done |]. cbn [store initialized closed].
  split_and!; [done | done |]. split; [done |]. intros k v e E. destruct (Hk k v e E) as [E' ->]. by apply Hh.
Qed.

Lemma Delete_wf m c key : front_wf m c -> exists ok c', Delete c key = Ret (ok, c') /\ front_wf (delete key m) c'.
Proof.
  intros HF. pose proof HF as [Ho HS]. unfold Delete. destruct (store c) as [s |] eqn:Es.
  - destruct HS as (Hi & Hc & Hw & Hh). rewrite Hi, Hc. cbn [negb orb]. destruct (store_Delete_spec s key Hw) as (ok & s' & ev & -> & Hw' & Hk).
    cbn [mbind outcome_bind fst snd]. do 2 eexists. split; [done |]. apply (pass_wf m _ c s); try done. intros k v e. rewrite Hk.
    case_decide; [done |]. by rewrite lookup_delete_ne.
  - rewrite HS. cbn [negb]. rewrite orb_true_r. exists false, c. split; [done |]. split; [done |]. by rewrite Es.
Qed.

Lemma Clear_wf m c : iterates ord -> front_wf m c -> exists c', Clear c = Ret c' /\ front_wf ∅ c'.
Proof.
  intros Hord HF. pose proof HF as [Ho HS]. unfold Clear. destruct (store c) as [s |] eqn:Es.
  - destruct HS as (Hi & Hc & Hw & Hh). rewrite Hi, Hc. cbn [negb orb]. destruct (clear_empties viewLen ord s Hord Hw) as (s' & ev & -> & Hw' & Hk).
    cbn [mbind outcome_bind fst snd]. eexists. split; [done |]. rewrite <- Hi, <- Hc at 1. apply (pass_wf m _ c s); try done. intros k v e. by rewrite Hk.
  - rewrite HS. cbn [negb]. rewrite orb_true_r. exists c. split; [done |]. split; [done |]. by rewrite Es.
Qed.

Lemma run_op_spec m c x : iterates ord -> front_wf m c -> timely x ->
  exists a c', run_op c x = Ret (a, c') /\ front_wf (write_op m x) c' /\ answers m x a.
Proof.
  intros Hord HF [Ht HT]. destruct x as [t o]. cbn [fst snd] in Ht, HT.
  assert (Hmono : closed c = true -> forall m', front_wf m' c).
  { intros Hc m'. destruct HF as [Ho HS]. split; [done |]. destruct (store c); [| done]. destruct HS as (_ & ? & _). congruence. }
  destruct o as [key value | key value at_ | key | key | | |]; cbn [run_op write_op].
  - unfold Add, store_Set. destruct (closed c) eqn:Ec; [exists None, c; by split_and!; [| apply Hmono |] |].
    destruct (write_spec m c key value 0 t HF Ec) as (c' & -> & HF'); [lia .. |]. by exists None, c'.
  - unfold AddWithExpiration. destruct (closed c) eqn:Ec; [exists None, c; by split_and!; [| apply Hmono |] |].
    destruct (Z.leb_spec (Until at_ (wall t)) 0) as [Hu | Hu].
    + exists None, c. rewrite (proj2 (Z.leb_le at_ (wall t))) by (unfold Until in Hu; lia). done.
    + rewrite (proj2 (Z.leb_gt at_ (wall t))) by (unfold Until in Hu; lia).
      destruct (write_spec m c key value (Until at_ (wall t)) t HF Ec) as (c' & -> & HF'); [lia .. |].
      rewrite (proj2 (Z.ltb_lt 0 (Until at_ (wall t)))) in HF' by done. by exists None, c'.
  - by apply Get_answers.
  - destruct (Delete_wf m c key HF) as (ok & c' & -> & HF'). by exists None, c'.
  - destruct (Clear_wf m c Hord HF) as (c' & -> & HF'). by exists None, c'.
  - exists None, (Close c). split; [done |]. split; [| done]. unfold Close. destruct (closed c) eqn:Ec; [by apply Hmono |]. by destruct HF as [Ho _].
  - destruct (store c) as [s |] eqn:Es; [| by exists None, c]. assert (Hw : store_wf viewLen s) by (destruct HF as [_ HS]; rewrite Es in HS; apply HS).
    destruct (cleanup_exact viewLen ord (tick t) s Hord Hw) as (s' & ev & -> & Hw' & Hk). cbn [mbind outcome_bind fst]. eexists None, _.
    split; [done |]. split; [| done]. apply (pass_wf m _ c s); try done. intros k v e. rewrite Hk.
    destruct (scontent s k) as [[v0 e0] |]; [| done]. by destruct (e0 <=? tick t).
Qed.

(** C21: the cache of a group is a map that may lose entries: whatever is added, deleted,
    cleared, swept and closed, in any order, no operation fails, and a [Get] finds nothing
    or the value that was last added for the key, not deleted since and not yet expired. *)
Theorem cache_is_lossy_map o l :
  iterates ord -> good_options o -> Forall timely l ->
  exists rs c', run_ops (NewCache o) l = Ret (rs, c') /\ explained ∅ l rs.
Proof.
  intros Hord Ho HT. assert (HX : forall m c, front_wf m c -> exists rs c', run_ops c l = Ret (rs, c') /\ explained m l rs); [| by apply HX].
  induction HT as [| x l Hx _ IH]; intros m c HF; [by exists [], c |]. destruct (run_op_spec m c x Hord HF Hx) as (a & c1 & E & HF1 & Ha).
  destruct (IH _ _ HF1) as (rs & c2 & E2 & HE). exists (a :: rs), c2. cbn [run_ops]. rewrite E. cbn [mbind outcome_bind fst snd].
  rewrite E2. done.
Qed.

End Front.

(** ** A run *)

Definition at_ms (n : Z) : clocks := mkClocks (1000 + n) n.

Definition ex_run : list (clocks * op) :=
  [(at_ms 1, OGet "k"); (at_ms 2, OAdd "k" [1]); (at_ms 3, OGet "k"); (at_ms 4, OAddWithExpiration "k" [2] 1010); (at_ms 5, OGet "k");
   (at_ms 11, OGet "k"); (at_ms 12, OAdd "k" [3]); (at_ms 13, ODelete "k"); (at_ms 14, OGet "k"); (at_ms 15, OClose); (at_ms 16, OAdd "k" [4]); (at_ms 17, OGet "k")].

Example ex_run_answers :
  (fun r => match r with Ret (rs, c) => Some (rs, hits c, misses c) | _ => None end) (run_ops elements (NewCache ex_options) ex_run) =
  Some ([None; None; Some [1]; None; Some [2]; None; None; None; None; None; None; None], 2, 3).
Proof. vm_compute. reflexivity. Qed.

(** An entry that is added with a deadline in the past is left out, and the older one stays. *)
Example past_deadline_keeps_old :
  (fun r => match r with Ret (rs, _) => Some rs | _ => None end)
    (run_ops elements (NewCache ex_options) [(at_ms 1, OAdd "k" [1]); (at_ms 2, OAddWithExpiration "k" [2] 1001); (at_ms 3, OGet "k")]) =
  Some [None; None; Some [1]].
Proof. vm_compute. reflexivity. Qed.

Lemma cache_is_lossy_map_witness : exists rs c', run_ops elements (NewCache ex_options) ex_run = Ret (rs, c') /\ explained ∅ ex_run rs.
Proof.
  apply (cache_is_lossy_map elements ex_options ex_run); [apply elements_iterates | unfold good_options; cbn; lia |].
  repeat constructor; unfold at_ms; cbn; lia.
Defined.
