(* ===== verification/CacheGroup.v ===== *)
(** * Cache: groups, single flight and the server of a peer

    [libs/yukino_cache]: [single_flight.go], [group.go] and the handlers of [server.go].
    A goroutine is a program of calls to the node's cache, to the map of flights, to the
    origin and to peers.  The counters of [Stats], the logs and the
    panic value in the error of a flight are left out. *)
From S2P Require Import Prelude GoProg.

(** The context of a request that a peer sent carries a mark, [isPeerRequest]. *)
Abbreviation peer_mark := bool.

Definition reply : Type := result string bytes.

(** What [PickPeer] answers. *)
Inductive pick := NoPeer | SelfPeer | PeerAt (node : nat).

(** ** Calls *)

Inductive call : Type -> Type :=
  (* the group's flags and its cache *)
  | Closed : call bool
  | CloseOnce : call bool
  | CacheGet (key : string) : call (option bytes)
  | CacheAdd (key : string) (value : bytes) : call unit
  | CacheAddWithExpiration (key : string) (value : bytes) (expiration : Z) : call unit
  | CacheDelete (key : string) : call unit
  | CacheClear : call unit
  | CacheClose : call unit
  | FindGroup : call bool
  | DropGroup : call unit
  (* [sync.Map] and the [call] of a flight *)
  | LoadOrStore (key : string) : call (nat * bool)
  | Wait (c : nat) : call reply
  | Settle (c : nat) (r : reply) : call unit
  | WgDone (c : nat) : call unit
  | MapDelete (key : string) : call unit
  (* the getter: it is entered, and later it returns, or panics ([None]) *)
  | GetterEnter (key : string) : call unit
  | GetterReturn (key : string) : call (option reply)
  (* peers: a request is sent, or could not be, and is awaited up to a deadline *)
  | GetPeers : call bool
  | PickPeer (key : string) : call pick
  | PeerGet (node : nat) (key : string) : call (option nat)
  | PeerSet (node : nat) (key : string) (value : bytes) : call (option nat)
  | PeerDelete (node : nat) (key : string) : call (option nat)
  | Await (request : nat) : call reply
  (* [go g.syncToPeers(...)] *)
  | GoSyncSet (key : string) (value : bytes) : call unit
  | GoSyncDelete (key : string) : call unit.

Abbreviation prog := (GoProg.prog call).

(** ** [single_flight.go]

    The deferred calls run last in, first out: the waiters are released, then the flight
    leaves the map. *)
Definition Do (key : string) (fn : prog (option reply)) : prog reply :=
  x ← ask (LoadOrStore key);
  let '(c, loaded) := (x : nat * bool) in
  if loaded then ask (Wait c)
  else
    r ← fn;
    let r := default (Err "singleflight: panic during call") r in
    _ ← ask (Settle c r);
    _ ← ask (WgDone c);
    _ ← ask (MapDelete key);
    mret r.

(** ** [group.go] *)

Section Group.
Context (expiration : Z).

Definition ErrKeyRequired : string := "key is required".
Definition ErrValueRequired : string := "value is required".
Definition ErrGroupClosed : string := "cache group is closed".

Definition add_to_cache (key : string) (value : bytes) : prog unit :=
  if 0 <? expiration then ask (CacheAddWithExpiration key value expiration) else ask (CacheAdd key value).

Definition getFromPeer (node : nat) (key : string) : prog reply :=
  sent ← ask (PeerGet node key);
  match sent with
  | None => mret (Err "failed to get from peer")
  | Some request =>
      r ← ask (Await request);
      mret (match r with Ok v => Ok v | Err e => Err ("failed to get from peer: " +:+ e) end)
  end.

(** The getter at the end of [loadData]; [None] is a panic that unwinds. *)
Definition from_getter (key : string) : prog (option reply) :=
  _ ← ask (GetterEnter key);
  r ← ask (GetterReturn key);
  mret (match r with Some (Err e) => Some (Err ("failed to get data: " +:+ e)) | _ => r end).

Definition loadData (peer : peer_mark) (key : string) : prog (option reply) :=
  peers ← ask GetPeers;
  if (peers : bool) && negb peer then
    p ← ask (PickPeer key);
    match p with
    | PeerAt node =>
        r ← getFromPeer node key;
        match r with
        | Ok value => mret (Some (Ok value))
        | Err _ => from_getter key
        end
    | _ => from_getter key
    end
  else from_getter key.

(** The function that [load] hands to [Do]. *)
Definition load_fn (peer : peer_mark) (key : string) : prog (option reply) :=
  v ← ask (CacheGet key);
  match v with
  | Some view => mret (Some (Ok view))
  | None =>
      r ← loadData peer key;
      match r with
      | Some (Ok view) => _ ← add_to_cache key view; mret (Some (Ok view))
      | _ => mret r
      end
  end.

Definition load (peer : peer_mark) (key : string) : prog reply := Do key (load_fn peer key).

Definition Get (peer : peer_mark) (key : string) : prog reply :=
  closed ← ask Closed;
  if (closed : bool) then mret (Err ErrGroupClosed)
  else if bool_decide (key = "") then mret (Err ErrKeyRequired)
  else
    v ← ask (CacheGet key);
    match v with
    | Some view => mret (Ok view)
    | None => load peer key
    end.

Definition Set_ (peer : peer_mark) (key : string) (value : bytes) : prog reply :=
  closed ← ask Closed;
  if (closed : bool) then mret (Err ErrGroupClosed)
  else if bool_decide (key = "") then mret (Err ErrKeyRequired)
  else if bool_decide (value = []) then mret (Err ErrValueRequired)
  else
    _ ← add_to_cache key value;
    if negb peer then
      peers ← ask GetPeers;
      if (peers : bool) then _ ← ask (GoSyncSet key value); mret (Ok []) else mret (Ok [])
    else mret (Ok []).

Definition Delete (peer : peer_mark) (key : string) : prog reply :=
  closed ← ask Closed;
  if (closed : bool) then mret (Err ErrGroupClosed)
  else if bool_decide (key = "") then mret (Err ErrKeyRequired)
  else
    _ ← ask (CacheDelete key);
    if negb peer then
      peers ← ask GetPeers;
      if (peers : bool) then _ ← ask (GoSyncDelete key); mret (Ok []) else mret (Ok [])
    else mret (Ok []).

(** [syncToPeers]: [Some value] sets, [None] deletes. *)
Definition syncToPeers (key : string) (value : option bytes) : prog reply :=
  p ← ask (PickPeer key);
  match p with
  | PeerAt node =>
      sent ← ask (match value with Some v => PeerSet node key v | None => PeerDelete node key end);
      match sent with
      | None => mret (Err "failed to sync to peer")
      | Some request => ask (Await request)
      end
  | _ => mret (Ok [])
  end.

Definition Clear : prog reply :=
  closed ← ask Closed;
  if (closed : bool) then mret (Ok []) else _ ← ask CacheClear; mret (Ok []).

Definition Close : prog reply :=
  first ← ask CloseOnce;
  if negb first then mret (Ok [])
  else _ ← ask CacheClose; _ ← ask DropGroup; mret (Ok []).

(** ** [server.go] *)

Definition group_not_found : string := "group not found".

Definition Server_Get (key : string) : prog reply :=
  found ← ask FindGroup;
  if negb found then mret (Err group_not_found) else Get true key.

Definition Server_Set (key : string) (value : bytes) : prog reply :=
  found ← ask FindGroup;
  if negb found then mret (Err group_not_found)
  else r ← Set_ true key value; mret (match r with Ok _ => Ok value | Err e => Err e end).

Definition Server_Delete (key : string) : prog reply :=
  found ← ask FindGroup;
  if negb found then mret (Err group_not_found) else Delete true key.

End Group.
