(* ===== verification/CacheFlight.v ===== *)
(** * Cache: single flight, over all interleavings and nodes

    Any number of goroutines on any number of nodes run the programs of [CacheGroup].
    Entries of a cache expire and are evicted at any time, peers pick each other as they
    please, requests are lost, and answers come late. *)
From S2P Require Import Prelude GoProg CacheGroup.

(** ** The system *)

(** A flight: the [call] of [single_flight.go], with the goroutine that made it. *)
Record flight := mkFlight { fl_node : nat; fl_key : string; fl_owner : nat; fl_res : option reply; fl_done : bool }.

Record node := mkNode { nd_closed : bool; nd_cache : gmap string bytes; nd_map : gmap string nat }.

(** [th_get]: the key that the goroutine gets, if that is its task. *)
Record thread := mkThread { th_node : nat; th_get : option string; th_prog : prog reply }.

(** [s_supplied]: what the getter has returned and what was set, by key. *)
Record sys := mkSys {
  s_nodes : gmap nat node; s_flights : list flight; s_threads : list thread; s_supplied : list (string * bytes) }.

Definition no_node : node := mkNode false ∅ ∅.
Definition node_at (n : nat) (s : sys) : node := default no_node (s_nodes s !! n).

Definition set_node (n : nat) (x : node) (s : sys) : sys := mkSys (<[n := x]> (s_nodes s)) (s_flights s) (s_threads s) (s_supplied s).
Definition set_cache (n : nat) (m : gmap string bytes) (s : sys) : sys :=
  set_node n (mkNode (nd_closed (node_at n s)) m (nd_map (node_at n s))) s.
Definition set_map (n : nat) (m : gmap string nat) (s : sys) : sys :=
  set_node n (mkNode (nd_closed (node_at n s)) (nd_cache (node_at n s)) m) s.
Definition set_flight (c : nat) (f : flight) (s : sys) : sys := mkSys (s_nodes s) (<[c := f]> (s_flights s)) (s_threads s) (s_supplied s).
Definition spawn (th : thread) (s : sys) : sys := mkSys (s_nodes s) (s_flights s) (s_threads s ++ [th]) (s_supplied s).
Definition supply (key : string) (v : bytes) (s : sys) : sys := mkSys (s_nodes s) (s_flights s) (s_threads s) (s_supplied s ++ [(key, v)]).

Section System.
Context (expiration : Z).

(** A request that is sent starts a goroutine on the peer; or it is lost. *)
Definition sends (th : thread) (s : sys) (r : option nat) (s' : sys) : Prop :=
  (r = None /\ s' = s) \/ (r = Some (length (s_threads s)) /\ s' = spawn th s).

(** What a call of goroutine [t] on node [n] does.  A call that has no answer blocks. *)
Definition does (t n : nat) {R} (c : call R) (s : sys) (r : R) (s' : sys) : Prop :=
  match c in call R return R -> Prop with
  | Closed => fun r => r = nd_closed (node_at n s) /\ s' = s
  | CloseOnce => fun r => r = negb (nd_closed (node_at n s)) /\
      s' = set_node n (mkNode true (nd_cache (node_at n s)) (nd_map (node_at n s))) s
  | CacheGet key => fun r => s' = s /\ (r = None \/ r = nd_cache (node_at n s) !! key)
  | CacheAdd key v | CacheAddWithExpiration key v _ =>
      fun _ => s' = s \/ s' = set_cache n (<[key := v]> (nd_cache (node_at n s))) s
  | CacheDelete key => fun _ => s' = set_cache n (delete key (nd_cache (node_at n s))) s
  | CacheClear | CacheClose => fun _ => s' = set_cache n ∅ s
  | FindGroup | GetPeers | PickPeer _ | DropGroup | GetterEnter _ => fun _ => s' = s
  | LoadOrStore key =>
      fun r => match nd_map (node_at n s) !! key with
               | Some c => r = (c, true) /\ s' = s
               | None =>
                   let c := length (s_flights s) in
                   r = (c, false) /\
                   s' = set_map n (<[key := c]> (nd_map (node_at n s)))
                          (mkSys (s_nodes s) (s_flights s ++ [mkFlight n key t None false]) (s_threads s) (s_supplied s))
               end
  | Wait c => fun r => s' = s /\ exists f, s_flights s !! c = Some f /\ fl_done f = true /\ fl_res f = Some r
  | Settle c v => fun _ => exists f, s_flights s !! c = Some f /\
      s' = set_flight c (mkFlight (fl_node f) (fl_key f) (fl_owner f) (Some v) (fl_done f)) s
  | WgDone c => fun _ => exists f, s_flights s !! c = Some f /\
      s' = set_flight c (mkFlight (fl_node f) (fl_key f) (fl_owner f) (fl_res f) true) s
  | MapDelete key => fun _ => s' = set_map n (delete key (nd_map (node_at n s))) s
  | GetterReturn key => fun r => s' = match r with Some (Ok v) => supply key v s | _ => s end
  | PeerGet m key => fun r => sends (mkThread m (Some key) (Server_Get expiration key)) s r s'
  | PeerSet m key v => fun r => sends (mkThread m None (Server_Set expiration key v)) s r s'
  | PeerDelete m key => fun r => sends (mkThread m None (Server_Delete key)) s r s'
  | Await request => fun r => s' = s /\
      ((exists e, r = Err e) \/ exists th, s_threads s !! request = Some th /\ th_prog th = Done r)
  | GoSyncSet key v => fun _ => s' = spawn (mkThread n None (syncToPeers key (Some v))) s
  | GoSyncDelete key => fun _ => s' = spawn (mkThread n None (syncToPeers key None)) s
  end r.

Definition advance (t : nat) (p : prog reply) (s : sys) : sys :=
  mkSys (s_nodes s) (s_flights s) (alter (fun th => mkThread (th_node th) (th_get th) p) t (s_threads s)) (s_supplied s).

Inductive step : sys -> sys -> Prop :=
  | st_call s t th R (c : call R) k r s' :
      s_threads s !! t = Some th -> th_prog th = Call c k -> does t (th_node th) c s r s' -> step s (advance t (k r) s')
  | st_get s n key : step s (spawn (mkThread n (Some key) (Get expiration false key)) s)
  | st_set s n key v : step s (spawn (mkThread n None (Set_ expiration false key v)) (supply key v s))
  | st_delete s n key : step s (spawn (mkThread n None (Delete false key)) s)
  | st_clear s n : step s (spawn (mkThread n None Clear) s)
  | st_close s n : step s (spawn (mkThread n None Close) s)
  | st_evict s n m : m ⊆ nd_cache (node_at n s) -> step s (set_cache n m s).

Definition start : sys := mkSys ∅ [] [] [].

Definition reachable (s : sys) : Prop := rtc step start s.

End System.

(** ** What a goroutine keeps to *)

(** A flight of its own is running, its result is set, or its waiters are released. *)
Inductive stage := Running | Settled | Released.

(** Values it has seen, flights and requests it knows with their keys, the flight it has
    made and not yet taken out of the map, and whether it serves a peer. *)
Record view := mkView {
  kn : list (string * bytes); fls : list (nat * string); reqs : list (nat * string);
  held : option (nat * string * stage); serving : bool }.

Definition see (x : string * bytes) (T : view) : view := mkView (x :: kn T) (fls T) (reqs T) (held T) (serving T).
Definition hold (h : option (nat * string * stage)) (T : view) : view := mkView (kn T) (fls T) (reqs T) h (serving T).

(** The values of the flights and requests with a number. *)
Definition learn (l : list (nat * string)) (i : nat) (v : bytes) (T : view) : view :=
  mkView (map (fun x => (x.2, v)) (filter (fun x => x.1 = i) l) ++ kn T) (fls T) (reqs T) (held T) (serving T).

Definition pre {R : Type} (T : view) (c : call R) : Prop :=
  match c with
  | CacheAdd key v | CacheAddWithExpiration key v _ => (key, v) ∈ kn T
  | LoadOrStore _ => held T = None
  | Wait c => held T = None /\ exists key, (c, key) ∈ fls T
  | Settle c r => exists key, held T = Some (c, key, Running) /\ forall v, r = Ok v -> (key, v) ∈ kn T
  | WgDone c => exists key, held T = Some (c, key, Settled)
  | MapDelete key => exists c, held T = Some (c, key, Released)
  | GetterEnter key | GetterReturn key => exists c, held T = Some (c, key, Running)
  | PeerGet _ _ | PeerDelete _ _ | GoSyncDelete _ => serving T = false
  | PeerSet _ key v | GoSyncSet key v => serving T = false /\ (key, v) ∈ kn T
  | _ => True
  end.

Definition stage_to (st : stage) (T : view) : view :=
  hold (match held T with Some (c, key, _) => Some (c, key, st) | None => None end) T.

Definition next {R : Type} (T : view) (c : call R) (r : R) : view :=
  match c in call R return R -> view with
  | CacheGet key => fun r => match r with Some v => see (key, v) T | None => T end
  | LoadOrStore key => fun r =>
      mkView (kn T) ((r.1, key) :: fls T) (reqs T) (if (r.2 : bool) then held T else Some (r.1, key, Running)) (serving T)
  | Wait c => fun r => match r with Ok v => learn (fls T) c v T | Err _ => T end
  | Settle _ _ => fun _ => stage_to Settled T
  | WgDone _ => fun _ => stage_to Released T
  | MapDelete _ => fun _ => hold None T
  | GetterReturn key => fun r => match r with Some (Ok v) => see (key, v) T | _ => T end
  | PeerGet _ key => fun r =>
      match r with Some i => mkView (kn T) (fls T) ((i, key) :: reqs T) (held T) (serving T) | None => T end
  | Await i => fun r => match r with Ok v => learn (reqs T) i v T | Err _ => T end
  | _ => fun _ => T
  end r.

Lemma stage_held T c key st st' : held T = Some (c, key, st) -> stage_to st' T = hold (Some (c, key, st')) T.
Proof. intros H. unfold stage_to. by rewrite H. Qed.

Fixpoint safe {A : Type} (Q : view -> A -> Prop) (T : view) (p : prog A) : Prop :=
  match p with
  | Done a => Q T a
  | Call c k => pre T c /\ forall r, safe Q (next T c r) (k r)
  end.

Lemma flight_bind {A B : Type} (Q : view -> B -> Prop) (m : prog A) (f : A -> prog B) : forall T,
  safe (fun T a => safe Q T (f a)) T m -> safe Q T (m ≫= f).
Proof. induction m as [a | R c k IH]; intros T; [done |]. intros [HP HK]. split; [done |]. intros r. apply IH, HK. Qed.

Lemma flight_ask {A R : Type} (Q : view -> A -> Prop) (c : call R) (f : R -> prog A) T :
  pre T c -> (forall r, safe Q (next T c r) (f r)) -> safe Q T (ask c ≫= f).
Proof. intros HP HK. by split. Qed.

Lemma flight_weaken {A : Type} (Q Q' : view -> A -> Prop) (p : prog A) : forall T,
  safe Q T p -> (forall T a, Q T a -> Q' T a) -> safe Q' T p.
Proof. induction p as [a | R c k IH]; intros T; [intros H HQ; by apply HQ |]. intros [HP HK] HQ. split; [done |]. intros r. apply IH; [apply HK | done]. Qed.

(** A value of the key is returned only if it was seen, and no flight is left behind. *)
Definition returns (key : option string) (T : view) (r : reply) : Prop :=
  held T = None /\ forall k v, key = Some k -> r = Ok v -> (k, v) ∈ kn T.

(** The same for the function of a flight, which leaves the flight running. *)
Definition fetches (h : option (nat * string * stage)) (peer : bool) (key : string) (T : view) (r : option reply) : Prop :=
  held T = h /\ serving T = peer /\ forall v, r = Some (Ok v) -> (key, v) ∈ kn T.

Lemma learn_in l i key v T : (i, key) ∈ l -> (key, v) ∈ kn (learn l i v T).
Proof.
  intros H. cbn [learn kn]. apply elem_of_app. left. apply list_elem_of_fmap. exists (i, key). split; [done |]. by apply list_elem_of_filter.
Qed.

(** Walk through a program. *)
Ltac fly :=
  repeat match goal with
    | |- safe _ _ (ask _ ≫= _) => apply flight_ask; [try done |]; intros ?; cbn [next see]
    | |- safe _ _ (ask _) => split; [try done |]; intros ?; cbn [next see]
    | |- safe _ _ (Done _) => cbn [safe]
    | |- safe _ _ (mret _) => change (safe ?Q ?T (mret ?a)) with (Q T a); cbn beta
    | |- safe _ _ (match ?x with _ => _ end) => destruct x
    | |- safe _ _ (_ ≫= _) => apply flight_bind
    end.

Section Programs.
Context (expiration : Z).

Lemma add_to_cache_safe key v T : (key, v) ∈ kn T -> safe (fun T' _ => T' = T) T (add_to_cache expiration key v).
Proof. intros H. unfold add_to_cache. by fly. Qed.

Lemma from_getter_safe c key T :
  held T = Some (c, key, Running) -> safe (fetches (held T) (serving T) key) T (from_getter key).
Proof.
  intros Hh. unfold from_getter. apply flight_ask; [by exists c |]. intros u. cbn [next]. apply flight_ask; [by exists c |]. intros r.
  change (fetches (held T) (serving T) key (next T (GetterReturn key) r) (match r with Some (Err e) => Some (Err ("failed to get data: " +:+ e)) | _ => r end)).
  destruct r as [[v | e] |]; cbn [next]; [| done | done]. split_and!; [done | done |]. intros v' [= <-]. apply list_elem_of_here.
Qed.

Lemma getFromPeer_safe m key T :
  serving T = false -> safe (fun T' r => fetches (held T) (serving T) key T' (Some r)) T (getFromPeer m key).
Proof.
  intros HS. unfold getFromPeer. apply flight_ask; [done |]. intros [i |]; cbn [next]; [| done].
  apply flight_ask; [done |]. intros [v | e]; [| done]. cbn [next reqs]. fly. split_and!; [done | done |]. intros v' [= <-].
  apply learn_in. apply list_elem_of_here.
Qed.

Lemma loadData_safe c key T :
  held T = Some (c, key, Running) -> safe (fetches (held T) (serving T) key) T (loadData (serving T) key).
Proof.
  intros Hh. unfold loadData. apply flight_ask; [done |]. intros peers. cbn [next].
  destruct (peers && negb (serving T)) eqn:E; [| by eapply from_getter_safe]. apply andb_prop in E as [_ HS%negb_true_iff].
  apply flight_ask; [done |]. intros [| | m]; cbn [next]; try (by eapply from_getter_safe).
  apply flight_bind. eapply flight_weaken; [by apply getFromPeer_safe |]. intros T' [v | e] (H1 & H2 & H3).
  - split_and!; [done | done |]. intros v' [= <-]. by apply H3.
  - rewrite <- H1, <- H2. eapply (from_getter_safe c). by rewrite H1.
Qed.

Lemma load_fn_safe c key T :
  held T = Some (c, key, Running) -> safe (fetches (held T) (serving T) key) T (load_fn expiration (serving T) key).
Proof.
  intros Hh. unfold load_fn. apply flight_ask; [done |]. intros [v |]; cbn [next].
  - split_and!; [done | done |]. intros v' [= <-]. apply list_elem_of_here.
  - apply flight_bind. eapply flight_weaken; [by eapply loadData_safe |]. intros T' r (H1 & H2 & H3).
    destruct r as [[v | e] |]; [| done | done]. apply flight_bind. eapply flight_weaken; [by apply add_to_cache_safe, H3 |].
    intros ? ? ->. by split_and!.
Qed.

(** A flight is made, settled, released and taken out of the map again. *)
Lemma Do_safe key fn T :
  held T = None ->
  (forall c T', held T' = Some (c, key, Running) -> serving T' = serving T -> safe (fetches (held T') (serving T') key) T' fn) ->
  safe (returns (Some key)) T (Do key fn).
Proof.
  intros Hh Hfn. unfold Do. apply flight_ask; [done |]. intros [c loaded]. cbn [next fst snd]. destruct loaded.
  - split; [split; [done |]; exists key; apply list_elem_of_here |]. intros [v | e]; cbn [next fls]; [| split; [done | done]].
    split; [done |]. intros k v' [= <-] [= <-]. apply learn_in, list_elem_of_here.
  - apply flight_bind. eapply flight_weaken; [by apply (Hfn c) |]. intros T' r (H1 & H2 & H3). cbn [held] in H1. cbv zeta.
    apply flight_ask.
    { exists key. split; [done |]. intros v E. apply H3. destruct r as [[v' | e] |]; cbn in E; congruence. }
    intros []. cbn [next]. rewrite (stage_held _ _ _ _ _ H1). apply flight_ask; [by exists key |]. intros []. cbn [next].
    erewrite stage_held by done. apply flight_ask; [by exists c |]. intros []. cbn [next]. split; [done |]. intros k v [= <-] E. cbn [hold kn].
    apply H3. destruct r as [[v' | e] |]; cbn in E; congruence.
Qed.

Lemma Get_safe peer key T : held T = None -> serving T = peer -> safe (returns (Some key)) T (Get expiration peer key).
Proof.
  intros Hh <-. unfold Get. apply flight_ask; [done |]. intros [|]; cbn [next]; [done |]. case_bool_decide; [done |].
  apply flight_ask; [done |]. intros [v |]; cbn [next].
  - split; [done |]. intros k v' [= <-] [= <-]. apply list_elem_of_here.
  - apply Do_safe; [done |]. intros c T' H1 H2. rewrite <- H2. by eapply load_fn_safe.
Qed.

Lemma Set_safe peer key v T :
  held T = None -> serving T = peer -> (key, v) ∈ kn T -> safe (returns None) T (Set_ expiration peer key v).
Proof.
  intros Hh <- Hk. unfold Set_. apply flight_ask; [done |]. intros [|]; cbn [next]; [done |]. case_bool_decide; [done |].
  case_bool_decide; [done |]. apply flight_bind. eapply flight_weaken; [by apply add_to_cache_safe |]. intros ? ? ->.
  destruct (serving T) eqn:ES; cbn [negb]; [done |]. apply flight_ask; [done |]. intros [|]; cbn [next]; [| done].
  by apply flight_ask.
Qed.

Lemma Delete_safe peer key T : held T = None -> serving T = peer -> safe (returns None) T (Delete peer key).
Proof.
  intros Hh <-. unfold Delete. apply flight_ask; [done |]. intros [|]; cbn [next]; [done |]. case_bool_decide; [done |].
  apply flight_ask; [done |]. intros []. cbn [next]. destruct (serving T) eqn:ES; cbn [negb]; [done |].
  apply flight_ask; [done |]. intros [|]; cbn [next]; [| done]. by apply flight_ask.
Qed.

Lemma await_safe i T : held T = None -> safe (returns None) T (ask (Await i)).
Proof. intros Hh. split; [done |]. by intros [v | e]. Qed.

Lemma syncToPeers_safe key v T :
  held T = None -> serving T = false -> (forall x, v = Some x -> (key, x) ∈ kn T) -> safe (returns None) T (syncToPeers key v).
Proof.
  intros Hh HS Hk. unfold syncToPeers. apply flight_ask; [done |]. intros [| | m]; cbn [next]; [done | done |].
  destruct v as [x |]; (apply flight_ask; [cbn; auto |]); intros [i |]; cbn [next]; try done; by apply await_safe.
Qed.

Lemma Server_Get_safe key T : held T = None -> serving T = true -> safe (returns (Some key)) T (Server_Get expiration key).
Proof. intros Hh HS. unfold Server_Get. apply flight_ask; [done |]. intros [|]; cbn [next negb]; [by apply Get_safe | done]. Qed.

Lemma Server_Set_safe key v T :
  held T = None -> serving T = true -> (key, v) ∈ kn T -> safe (returns None) T (Server_Set expiration key v).
Proof.
  intros Hh HS Hk. unfold Server_Set. apply flight_ask; [done |]. intros [|]; cbn [next negb]; [| done]. apply flight_bind.
  eapply flight_weaken; [by apply Set_safe |]. intros T' r [H _]. by destruct r.
Qed.

Lemma Server_Delete_safe key T : held T = None -> serving T = true -> safe (returns None) T (Server_Delete key).
Proof. intros Hh HS. unfold Server_Delete. apply flight_ask; [done |]. intros [|]; cbn [next negb]; [by apply Delete_safe | done]. Qed.

Lemma Clear_safe T : held T = None -> safe (returns None) T Clear.
Proof. intros Hh. unfold Clear. by fly. Qed.

Lemma Close_safe T : held T = None -> safe (returns None) T Close.
Proof. intros Hh. unfold Close. by fly. Qed.
End Programs.

(** ** The invariant *)

Definition knows (s : sys) (T : view) : Prop :=
  (forall x, x ∈ kn T -> x ∈ s_supplied s) /\
  (forall c key, (c, key) ∈ fls T -> exists f, s_flights s !! c = Some f /\ fl_key f = key) /\
  (forall i key, (i, key) ∈ reqs T -> exists th, s_threads s !! i = Some th /\ th_get th = Some key).

(** The flight that a goroutine holds is in the map of its node, and is as far as it says. *)
Definition holds (s : sys) (t n : nat) (T : view) : Prop :=
  forall c key st, held T = Some (c, key, st) ->
    nd_map (node_at n s) !! key = Some c /\
    exists f, s_flights s !! c = Some f /\ fl_node f = n /\ fl_key f = key /\ fl_owner f = t /\
      fl_done f = match st with Released => true | _ => false end /\ (st = Running \/ is_Some (fl_res f)).

Definition owns (Ts : list view) (t c : nat) (key : string) (ok : stage -> Prop) : Prop :=
  exists T st, Ts !! t = Some T /\ held T = Some (c, key, st) /\ ok st.

Record inv (s : sys) (Ts : list view) : Prop := {
  v_len : length Ts = length (s_threads s);
  v_safe t th T : s_threads s !! t = Some th -> Ts !! t = Some T -> safe (returns (th_get th)) T (th_prog th);
  v_view t th T : s_threads s !! t = Some th -> Ts !! t = Some T -> knows s T /\ holds s t (th_node th) T;
  v_cache n key v : nd_cache (node_at n s) !! key = Some v -> (key, v) ∈ s_supplied s;
  v_map n key c : nd_map (node_at n s) !! key = Some c ->
    exists f, s_flights s !! c = Some f /\ fl_node f = n /\ fl_key f = key /\ owns Ts (fl_owner f) c key (fun _ => True);
  v_value c f v : s_flights s !! c = Some f -> fl_res f = Some (Ok v) -> (fl_key f, v) ∈ s_supplied s;
  v_open c f : s_flights s !! c = Some f -> fl_done f = false -> owns Ts (fl_owner f) c (fl_key f) (fun st => st <> Released);
  v_done c f : s_flights s !! c = Some f -> fl_done f = true -> is_Some (fl_res f)
}.

Lemma owns_app Ts news t c key ok : owns Ts t c key ok -> owns (Ts ++ news) t c key ok.
Proof. intros (T & st & HT & H). exists T, st. split; [by apply lookup_app_l_Some | done]. Qed.

(** A goroutine that starts knows values that were supplied, and holds nothing. *)
Definition fresh (s : sys) (x : thread * view) : Prop :=
  safe (returns (th_get x.1)) x.2 (th_prog x.1) /\ held x.2 = None /\ fls x.2 = [] /\ reqs x.2 = [] /\ forall y, y ∈ kn x.2 -> y ∈ s_supplied s.

(** Steps that leave the flights alone. *)
Lemma inv_frame s Ts s1 news :
  inv s Ts -> s_flights s1 = s_flights s -> (forall n, nd_map (node_at n s1) = nd_map (node_at n s)) ->
  s_threads s1 = s_threads s ++ map fst news -> (forall x, x ∈ s_supplied s -> x ∈ s_supplied s1) ->
  (forall n key v, nd_cache (node_at n s1) !! key = Some v -> (key, v) ∈ s_supplied s1) ->
  Forall (fresh s1) news -> inv s1 (Ts ++ map snd news).
Proof.
  intros [H1 H2 H3 H4 H5 H6 H7 H8] EF EM ET HS HC HN.
  assert (HT : forall t th T, s_threads s1 !! t = Some th -> (Ts ++ map snd news) !! t = Some T ->
    (s_threads s !! t = Some th /\ Ts !! t = Some T) \/ fresh s1 (th, T)).
  { intros t th T Hth HTt. rewrite ET in Hth. apply lookup_app_Some in Hth as [Hth | [Hl Hth]].
    - left. split; [done |]. rewrite lookup_app_l in HTt by (rewrite H1; by eapply lookup_lt_Some). done.
    - right. rewrite lookup_app_r, H1 in HTt by lia. apply list_lookup_fmap_Some in Hth as (x & -> & Hx).
      apply list_lookup_fmap_Some in HTt as (y & -> & Hy). rewrite Hx in Hy. injection Hy as <-.
      destruct x as [a b]. apply list_elem_of_lookup_2 in Hx. by apply (proj1 (Forall_forall _ _) HN) in Hx. }
  split.
  - rewrite ET, !length_app, !length_map. lia.
  - intros t th T Hth HTt. destruct (HT _ _ _ Hth HTt) as [[Ha Hb] | HF]; [by eapply H2 | apply HF].
  - intros t th T Hth HTt. destruct (HT _ _ _ Hth HTt) as [[Ha Hb] | (_ & F1 & F2 & F3 & F4)].
    + destruct (H3 _ _ _ Ha Hb) as [(K1 & K2 & K3) HH]. split.
      * split_and!; [auto | by rewrite EF |]. intros i key Hi. destruct (K3 i key Hi) as (th' & E' & G'). exists th'.
        split; [rewrite ET; by apply lookup_app_l_Some | done].
      * intros c key st E. destruct (HH c key st E) as [M F]. split; [by rewrite EM | by rewrite EF].
    + cbn in *. split; [split_and!; [done | rewrite F2; set_solver | rewrite F3; set_solver] |]. intros c key st E. congruence.
  - done.
  - intros n key c E. rewrite EM in E. destruct (H5 n key c E) as (f & Ef & F1 & F2 & F3). exists f. rewrite EF. split_and!; try done. by apply owns_app.
  - intros c f v E Hv. rewrite EF in E. eauto.
  - intros c f E Hd. rewrite EF in E. apply owns_app. by apply (H7 c f).
  - intros c f E. rewrite EF in E. by apply (H8 c f).
Qed.

(** ... and the goroutine goes on, with what it has learnt. *)
Lemma inv_advance s Ts t th T T' p :
  inv s Ts -> s_threads s !! t = Some th -> Ts !! t = Some T -> held T' = held T -> knows s T' ->
  safe (returns (th_get th)) T' p -> inv (advance t p s) (<[t := T']> Ts).
Proof.
  intros [H1 H2 H3 H4 H5 H6 H7 H8] Hth HT Hh HK HSafe.
  assert (HO : forall t' c key ok, owns Ts t' c key ok -> owns (<[t := T']> Ts) t' c key ok).
  { intros t' c key ok (T0 & st & E0 & E1 & E2). destruct (decide (t' = t)) as [-> | Hne].
    - rewrite HT in E0. injection E0 as <-. exists T', st. rewrite list_lookup_insert_eq by (by eapply lookup_lt_Some). by rewrite Hh.
    - exists T0, st. by rewrite list_lookup_insert_ne. }
  assert (HA : forall t' th', s_threads (advance t p s) !! t' = Some th' ->
    exists th0, s_threads s !! t' = Some th0 /\ th_node th' = th_node th0 /\ th_get th' = th_get th0 /\ (t' = t /\ th_prog th' = p \/ t' <> t /\ th' = th0)).
  { intros t' th' E. cbn [advance s_threads] in E. destruct (decide (t' = t)) as [-> | Hne].
    - rewrite list_lookup_alter_eq, Hth in E. injection E as <-. exists th. split_and!; [done | done | done | by left].
    - rewrite list_lookup_alter_ne in E by done. exists th'. split_and!; [done | done | done | by right]. }
  assert (HB : forall i th0, s_threads s !! i = Some th0 -> exists th', s_threads (advance t p s) !! i = Some th' /\ th_get th' = th_get th0).
  { intros i th0 E. cbn [advance s_threads]. destruct (decide (i = t)) as [-> | Hne]; [rewrite list_lookup_alter_eq, E | rewrite list_lookup_alter_ne by done]; eauto. }
  assert (HKn : forall T0, knows s T0 -> knows (advance t p s) T0).
  { intros T0 (K1 & K2 & K3). split_and!; [done | done |]. intros i key Hi. destruct (K3 i key Hi) as (th0 & E0 & G0).
    destruct (HB i th0 E0) as (th' & E' & G'). exists th'. split; [done | congruence]. }
  split; cbn [advance s_flights s_supplied]; try done.
  - rewrite length_insert, H1. symmetry. apply length_alter.
  - intros t' th' T0 E ET0. destruct (HA t' th' E) as (th0 & E0 & N0 & G0 & [[-> Hp] | [Hne ->]]).
    + rewrite list_lookup_insert_eq in ET0 by (by eapply lookup_lt_Some). injection ET0 as <-. rewrite Hp, G0. assert (th0 = th) as -> by congruence. done.
    + rewrite list_lookup_insert_ne in ET0 by done. by eapply H2.
  - intros t' th' T0 E ET0. destruct (HA t' th' E) as (th0 & E0 & N0 & G0 & Hor). rewrite N0.
    destruct (decide (t' = t)) as [-> | Hne].
    + rewrite list_lookup_insert_eq in ET0 by (by eapply lookup_lt_Some). injection ET0 as <-. split; [by apply HKn |].
      intros c key st Hc. rewrite Hh in Hc. assert (th0 = th) as -> by congruence. by apply (H3 t th T Hth HT).
    + rewrite list_lookup_insert_ne in ET0 by done. destruct (H3 t' th0 T0 E0 ET0) as [K HH]. split; [by apply HKn | done].
  - intros n key c E. destruct (H5 n key c E) as (f & Ef & F1 & F2 & F3). exists f. split_and!; try done. by apply HO.
  - intros c f E Hd. apply HO. by apply (H7 c f).
Qed.

(** Steps of the goroutine that holds a flight: the flight and the map change, and with
    them what the goroutine holds. *)
Lemma inv_flight s Ts s1 t th T T' p :
  inv s Ts -> s_threads s !! t = Some th -> Ts !! t = Some T ->
  s_threads s1 = s_threads s -> s_supplied s1 = s_supplied s ->
  (forall n, nd_cache (node_at n s1) = nd_cache (node_at n s)) ->
  (forall c f, s_flights s !! c = Some f -> exists f', s_flights s1 !! c = Some f' /\ fl_key f' = fl_key f) ->
  (* others keep what they hold *)
  (forall t' n T0, t' <> t -> holds s t' n T0 -> holds s1 t' n T0) ->
  holds s1 t (th_node th) T' ->
  (forall n key c, nd_map (node_at n s1) !! key = Some c ->
    exists f, s_flights s1 !! c = Some f /\ fl_node f = n /\ fl_key f = key /\ owns (<[t := T']> Ts) (fl_owner f) c key (fun _ => True)) ->
  (forall c f v, s_flights s1 !! c = Some f -> fl_res f = Some (Ok v) -> (fl_key f, v) ∈ s_supplied s) ->
  (forall c f, s_flights s1 !! c = Some f ->
    (fl_done f = false -> owns (<[t := T']> Ts) (fl_owner f) c (fl_key f) (fun st => st <> Released)) /\ (fl_done f = true -> is_Some (fl_res f))) ->
  knows s1 T' -> safe (returns (th_get th)) T' p -> inv (advance t p s1) (<[t := T']> Ts).
Proof.
  intros [H1 H2 H3 H4 H5 H6 H7 H8] Hth HT ET ES EC EF HO Hown HM HV HD HK HSafe.
  assert (Ht : (t < length Ts)%nat) by (by eapply lookup_lt_Some).
  assert (HA : forall t' th', s_threads (advance t p s1) !! t' = Some th' -> exists th0, s_threads s !! t' = Some th0 /\ th_node th' = th_node th0 /\
    th_get th' = th_get th0 /\ (t' = t -> th_prog th' = p /\ th0 = th) /\ (t' <> t -> th' = th0)).
  { intros t' th' E. cbn [advance s_threads] in E. rewrite ET in E. destruct (decide (t' = t)) as [-> | Hne].
    - rewrite list_lookup_alter_eq, Hth in E. injection E as <-. exists th. by split_and!.
    - rewrite list_lookup_alter_ne in E by done. exists th'. by split_and!. }
  assert (HKn : forall T0, knows s T0 -> knows s1 T0).
  { intros T0 (K1 & K2 & K3). split_and!; [by rewrite ES | | by rewrite ET]. intros c key Hc. destruct (K2 c key Hc) as (f & Ef & Kf).
    destruct (EF c f Ef) as (f' & Ef' & Kf'). exists f'. split; [done | congruence]. }
  assert (HKa : forall T0, knows s1 T0 -> knows (advance t p s1) T0).
  { intros T0 (K1 & K2 & K3). split_and!; [done | done |]. intros i key Hi. destruct (K3 i key Hi) as (th0 & E0 & G0).
    cbn [advance s_threads]. destruct (decide (i = t)) as [-> | Hne]; [rewrite list_lookup_alter_eq, E0 | rewrite list_lookup_alter_ne by done]; eauto. }
  split.
  - rewrite length_insert, H1, <- ET. symmetry. apply length_alter.
  - intros t' th' T0 E ET0. destruct (HA t' th' E) as (th0 & E0 & N0 & G0 & Hsame & Hother). destruct (decide (t' = t)) as [-> | Hne].
    + rewrite list_lookup_insert_eq in ET0 by done. injection ET0 as <-. destruct (Hsame eq_refl) as [-> ->]. by rewrite G0.
    + rewrite list_lookup_insert_ne in ET0 by done. rewrite (Hother Hne). by apply (H2 t' th0).
  - intros t' th' T0 E ET0. destruct (HA t' th' E) as (th0 & E0 & N0 & G0 & Hsame & Hother). rewrite N0. destruct (decide (t' = t)) as [-> | Hne].
    + rewrite list_lookup_insert_eq in ET0 by done. injection ET0 as <-. destruct (Hsame eq_refl) as [_ ->]. split; [by apply HKa | done].
    + rewrite list_lookup_insert_ne in ET0 by done. destruct (H3 t' th0 T0 E0 ET0) as [K HH]. split; [by apply HKa, HKn | by apply HO].
  - intros n key v E. change (nd_cache (node_at n s1) !! key = Some v) in E. rewrite EC in E. cbn [advance s_supplied]. rewrite ES. by eapply H4.
  - done.
  - intros c f v E Ev. cbn [advance s_supplied]. rewrite ES. by eapply HV.
  - intros c f E. apply (HD c f E).
  - intros c f E. apply (HD c f E).
Qed.

(** What another goroutine owns is not touched by a change of [t]'s. *)
Lemma owns_other Ts t T T' t' c key ok :
  Ts !! t = Some T -> owns Ts t' c key ok -> (t' = t -> owns (<[t := T']> Ts) t c key ok) -> owns (<[t := T']> Ts) t' c key ok.
Proof.
  intros HT (T0 & st & E0 & E1) Hsame. destruct (decide (t' = t)) as [-> | Hne]; [by apply Hsame |].
  exists T0, st. by rewrite list_lookup_insert_ne.
Qed.

Lemma node_set n m x s : node_at m (set_node n x s) = if decide (m = n) then x else node_at m s.
Proof. unfold node_at, set_node. cbn. case_decide as E; [subst; by rewrite lookup_insert_eq | by rewrite lookup_insert_ne]. Qed.

(** A flight is made. *)
Lemma inv_store s Ts t th T key p :
  inv s Ts -> s_threads s !! t = Some th -> Ts !! t = Some T -> held T = None ->
  nd_map (node_at (th_node th) s) !! key = None ->
  let c := length (s_flights s) in let n := th_node th in
  let T' := next T (LoadOrStore key) (c, false) in
  safe (returns (th_get th)) T' p ->
  inv (advance t p (set_map n (<[key := c]> (nd_map (node_at n s)))
         (mkSys (s_nodes s) (s_flights s ++ [mkFlight n key t None false]) (s_threads s) (s_supplied s)))) (<[t := T']> Ts).
Proof.
  intros HI Hth HT Hh Hm c n T' HSafe. pose proof HI as [H1 H2 H3 H4 H5 H6 H7 H8].
  set (s0 := mkSys (s_nodes s) (s_flights s ++ [mkFlight n key t None false]) (s_threads s) (s_supplied s)).
  set (s1 := set_map n _ s0). set (f0 := mkFlight n key t None false) in *.
  assert (EM : forall m, nd_map (node_at m s1) = if decide (m = n) then <[key := c]> (nd_map (node_at n s)) else nd_map (node_at m s)).
  { intros m. unfold s1, set_map. rewrite node_set. by case_decide. }
  assert (EC : forall m, nd_cache (node_at m s1) = nd_cache (node_at m s)).
  { intros m. unfold s1, set_map. rewrite node_set. case_decide as E; [by subst | done]. }
  assert (Ef0 : s_flights s1 !! c = Some f0) by (cbn; rewrite lookup_app_r by (unfold c; lia); unfold c; by rewrite Nat.sub_diag).
  assert (EF : forall c' f, s_flights s !! c' = Some f -> s_flights s1 !! c' = Some f) by (intros c' f E; by apply lookup_app_l_Some).
  assert (EX : forall c' f, s_flights s1 !! c' = Some f -> s_flights s !! c' = Some f \/ c' = c /\ f = f0).
  { intros c' f E. cbn in E. apply lookup_app_Some in E as [E | [Hl E]]; [by left | right]. apply list_lookup_singleton_Some in E as [E <-]. unfold c. split; [lia | done]. }
  assert (HT' : owns (<[t := T']> Ts) t c key (fun st => st <> Released)).
  { exists T', Running. rewrite list_lookup_insert_eq by (by eapply lookup_lt_Some). done. }
  assert (HOw : forall t' c' key' ok, owns Ts t' c' key' ok -> owns (<[t := T']> Ts) t' c' key' ok).
  { intros t' c' key' ok HO. eapply owns_other; [done | done |]. intros ->. destruct HO as (T0 & st & E0 & E1 & _). congruence. }
  apply (inv_flight s Ts s1 t th T); try done.
  - intros c' f E. exists f. auto.
  - intros t' m T0 Hne HH c' key' st E. destruct (HH c' key' st E) as (M & f & Ef & F). split; [| exists f; auto].
    rewrite EM. case_decide as En; [subst m | done]. rewrite lookup_insert_ne; [done |]. intros <-. unfold n in *. congruence.
  - intros c' key' st E. cbn in E. injection E as <- <- <-. split; [rewrite EM, decide_True by done; by rewrite lookup_insert_eq |].
    exists f0. split_and!; try done. by left.
  - intros m key' c' E. rewrite EM in E. assert (HX : (m = n /\ key' = key /\ c' = c) \/ nd_map (node_at m s) !! key' = Some c').
    { case_decide as En; [| by right]. subst m. apply lookup_insert_Some in E as [[<- <-] | [_ E]]; [by left | by right]. }
    destruct HX as [(-> & -> & ->) | HX].
    + exists f0. split_and!; try done. destruct HT' as (T0 & st & E0 & E1 & _). by exists T0, st.
    + destruct (H5 m key' c' HX) as (f & Ef & F1 & F2 & F3). exists f. split_and!; [by apply EF | done | done | by apply HOw].
  - intros c' f v E Ev. destruct (EX c' f E) as [E' | [-> ->]]; [by eapply H6 | done].
  - intros c' f E. destruct (EX c' f E) as [E' | [-> ->]]; [| by split].
    split; [intros Hd; apply HOw; by apply (H7 c' f) | by apply (H8 c' f)].
  - destruct (H3 t th T Hth HT) as [(K1 & K2 & K3) _]. split_and!; [done | | done].
    intros c' key' [E | Hin]%elem_of_cons; [injection E as -> ->; by exists f0 |]. destruct (K2 c' key' Hin) as (f & Ef & Kf). exists f. auto.
Qed.

(** A flight is settled, or its waiters are released. *)
Lemma inv_stage s Ts t th T c key st st' f f' p :
  inv s Ts -> s_threads s !! t = Some th -> Ts !! t = Some T -> held T = Some (c, key, st) -> s_flights s !! c = Some f ->
  f' = mkFlight (fl_node f) (fl_key f) (fl_owner f) (fl_res f') (match st' with Released => true | _ => false end) ->
  is_Some (fl_res f') -> (forall v, fl_res f' = Some (Ok v) -> (key, v) ∈ s_supplied s) ->
  safe (returns (th_get th)) (hold (Some (c, key, st')) T) p ->
  inv (advance t p (set_flight c f' s)) (<[t := hold (Some (c, key, st')) T]> Ts).
Proof.
  intros HI Hth HT Hh Hf Ef' Hres Hval HSafe. pose proof HI as [H1 H2 H3 H4 H5 H6 H7 H8]. set (T' := hold (Some (c, key, st')) T).
  destruct (H3 t th T Hth HT) as [HK HH]. destruct (HH c key st Hh) as (M & f1 & Ef1 & F1 & F2 & F3 & F4 & F5).
  rewrite Hf in Ef1. injection Ef1 as <-. set (s1 := set_flight c f' s).
  assert (Hlt : (c < length (s_flights s))%nat) by (by eapply lookup_lt_Some).
  assert (E1 : s_flights s1 !! c = Some f') by (by apply list_lookup_insert_eq).
  assert (E2 : forall c', c' <> c -> s_flights s1 !! c' = s_flights s !! c') by (intros c' Hne; by apply list_lookup_insert_ne).
  assert (HT' : owns (<[t := T']> Ts) t c key (fun x => x = st')).
  { exists T', st'. rewrite list_lookup_insert_eq by (by eapply lookup_lt_Some). done. }
  assert (HOw : forall t' c' key' ok, c' <> c -> owns Ts t' c' key' ok -> owns (<[t := T']> Ts) t' c' key' ok).
  { intros t' c' key' ok Hne HO. eapply owns_other; [done | done |]. intros ->. destruct HO as (T0 & st0 & Ea & Eb & _). congruence. }
  assert (Kf : fl_node f' = fl_node f /\ fl_key f' = fl_key f /\ fl_owner f' = fl_owner f) by (by rewrite Ef').
  destruct Kf as (K1 & K2 & K3).
  apply (inv_flight s Ts s1 t th T); try done.
  - intros c' f0 E. destruct (decide (c' = c)) as [-> | Hne]; [exists f'; split; [done | congruence] | exists f0; by rewrite E2].
  - intros t' m T0 Hne HH' c' key' st0 E. destruct (HH' c' key' st0 E) as (M' & f0 & Ef0 & G1 & G2 & G3 & G). split; [done |].
    exists f0. split; [| done]. rewrite E2; [done |]. intros ->. congruence.
  - intros c' key' st0 E. cbn in E. injection E as <- <- <-. split; [done |]. exists f'. split_and!; [done | congruence | congruence | congruence | by rewrite Ef' | by right].
  - intros m key' c' E. destruct (H5 m key' c' E) as (f0 & Ef0 & G1 & G2 & G3). destruct (decide (c' = c)) as [-> | Hne].
    + assert (f0 = f) as -> by congruence. exists f'. split_and!; [done | congruence | congruence |]. rewrite K3, F3.
      destruct HT' as (T0 & x & Ea & Eb & _). exists T0, x. split_and!; [done | congruence | done].
    + exists f0. rewrite E2 by done. split_and!; try done. by apply HOw.
  - intros c' f0 v E Ev. destruct (decide (c' = c)) as [-> | Hne]; [| rewrite E2 in E by done; by eapply H6].
    assert (f0 = f') as -> by congruence. rewrite K2, F2. by apply Hval.
  - intros c' f0 E. destruct (decide (c' = c)) as [-> | Hne].
    + assert (f0 = f') as -> by congruence. split; [| done]. intros Hd. rewrite K3, K2, F3, F2. destruct HT' as (T0 & x & Ea & Eb & ->).
      exists T0, st'. split_and!; [done | done |]. rewrite Ef' in Hd. cbn in Hd. by destruct st'.
    + rewrite E2 in E by done. split; [intros Hd; apply HOw; [done | by apply (H7 c' f0)] | by apply (H8 c' f0)].
  - destruct HK as (A1 & A2 & A3). split_and!; [done | | done]. intros c' key' Hin. destruct (A2 c' key' Hin) as (f0 & Ef0 & Kf0).
    destruct (decide (c' = c)) as [-> | Hne]; [exists f'; split; [done | congruence] | exists f0; by rewrite E2].
Qed.

(** A released flight leaves the map. *)
Lemma inv_drop s Ts t th T c key p :
  inv s Ts -> s_threads s !! t = Some th -> Ts !! t = Some T -> held T = Some (c, key, Released) ->
  safe (returns (th_get th)) (hold None T) p -> let n := th_node th in
  inv (advance t p (set_map n (delete key (nd_map (node_at n s))) s)) (<[t := hold None T]> Ts).
Proof.
  intros HI Hth HT Hh HSafe n. pose proof HI as [H1 H2 H3 H4 H5 H6 H7 H8]. set (T' := hold None T).
  destruct (H3 t th T Hth HT) as [HK HH]. destruct (HH c key Released Hh) as (M & f & Ef & F1 & F2 & F3 & F4 & F5).
  set (s1 := set_map n _ s).
  assert (EM : forall m, nd_map (node_at m s1) = if decide (m = n) then delete key (nd_map (node_at n s)) else nd_map (node_at m s)).
  { intros m. unfold s1, set_map. rewrite node_set. by case_decide. }
  assert (EC : forall m, nd_cache (node_at m s1) = nd_cache (node_at m s)).
  { intros m. unfold s1, set_map. rewrite node_set. case_decide as E; [by subst | done]. }
  assert (HOw : forall t' c' key' ok, c' <> c -> owns Ts t' c' key' ok -> owns (<[t := T']> Ts) t' c' key' ok).
  { intros t' c' key' ok Hne HO. eapply owns_other; [done | done |]. intros ->. destruct HO as (T0 & st0 & Ea & Eb & _). congruence. }
  apply (inv_flight s Ts s1 t th T); try done.
  - intros c' f0 E. by exists f0.
  - intros t' m T0 Hne HH' c' key' st0 E. destruct (HH' c' key' st0 E) as (M' & f0 & Ef0 & G1 & G2 & G3 & G). split; [| by exists f0].
    rewrite EM. case_decide as En; [rewrite En in M' | done]. rewrite lookup_delete_ne; [done |]. intros <-. unfold n in *.
    assert (c' = c) as -> by congruence. assert (f0 = f) as -> by congruence. congruence.
  - intros m key' c' E. rewrite EM in E. assert (HX : nd_map (node_at m s) !! key' = Some c' /\ (m <> n \/ key' <> key)).
    { case_decide as En; [| by split; [| left]]. subst m. apply lookup_delete_Some in E as [Hne E]. split; [done | right; congruence]. }
    destruct HX as [HX Hne]. destruct (H5 m key' c' HX) as (f0 & Ef0 & G1 & G2 & G3). exists f0. split_and!; try done. apply HOw; [| done].
    intros ->. assert (f0 = f) as -> by congruence. destruct Hne as [Hne | Hne]; apply Hne; unfold n in *; congruence.
  - intros c' f0 E. change (s_flights s !! c' = Some f0) in E. destruct (decide (c' = c)) as [-> | Hne].
    + rewrite Ef in E. injection E as <-. split; [intros Hd; rewrite F4 in Hd; discriminate | by apply (H8 c f)].
    + split; [intros Hd; apply HOw; [done | by apply (H7 c' f0)] | by apply (H8 c' f0)].
Qed.

(** A step that leaves the flights alone, of a goroutine that goes on with [T']. *)
Lemma inv_move s Ts s1 news t th T T' p :
  inv s Ts -> s_threads s !! t = Some th -> Ts !! t = Some T ->
  s_flights s1 = s_flights s -> (forall n, nd_map (node_at n s1) = nd_map (node_at n s)) ->
  s_threads s1 = s_threads s ++ map fst news -> (forall x, x ∈ s_supplied s -> x ∈ s_supplied s1) ->
  (forall n key v, nd_cache (node_at n s1) !! key = Some v -> (key, v) ∈ s_supplied s1) ->
  Forall (fresh s1) news -> held T' = held T -> (knows s1 T -> knows s1 T') -> safe (returns (th_get th)) T' p ->
  exists Ts', inv (advance t p s1) Ts'.
Proof.
  intros HI Hth HT EF EM ET HS HC HN Hh HK HSafe. pose proof (inv_frame s Ts s1 news HI EF EM ET HS HC HN) as HI1.
  assert (Hth1 : s_threads s1 !! t = Some th) by (rewrite ET; by apply lookup_app_l_Some).
  assert (HT1 : (Ts ++ map snd news) !! t = Some T) by (by apply lookup_app_l_Some).
  exists (<[t := T']> (Ts ++ map snd news)). apply (inv_advance s1 _ t th T); try done. apply HK. by apply (v_view _ _ HI1 t th T).
Qed.

(** ... and changes nothing but its own view. *)
Lemma inv_look s Ts t th T T' p :
  inv s Ts -> s_threads s !! t = Some th -> Ts !! t = Some T -> held T' = held T -> (knows s T -> knows s T') ->
  safe (returns (th_get th)) T' p -> exists Ts', inv (advance t p s) Ts'.
Proof.
  intros HI Hth HT. intros. apply (inv_move s Ts s [] t th T T'); try done; [by rewrite app_nil_r | apply (v_cache _ _ HI)].
Qed.

Lemma cache_set n m x s : nd_cache (node_at m (set_cache n x s)) = if decide (m = n) then x else nd_cache (node_at m s).
Proof. unfold set_cache. rewrite node_set. by case_decide. Qed.

Lemma map_set_cache n m x s : nd_map (node_at m (set_cache n x s)) = nd_map (node_at m s).
Proof. unfold set_cache. rewrite node_set. case_decide as E; [by subst | done]. Qed.

(** ... or changes the cache of its node to one that holds supplied values. *)
Lemma inv_cache s Ts t th T p n m :
  inv s Ts -> s_threads s !! t = Some th -> Ts !! t = Some T -> safe (returns (th_get th)) T p ->
  (forall key v, m !! key = Some v -> (key, v) ∈ s_supplied s) -> exists Ts', inv (advance t p (set_cache n m s)) Ts'.
Proof.
  intros HI Hth HT HSafe Hm. apply (inv_move s Ts _ [] t th T T); try done; [by intros; apply map_set_cache | by rewrite app_nil_r |].
  intros n' key v E. rewrite cache_set in E. case_decide; [by apply Hm | by eapply (v_cache _ _ HI)].
Qed.

(** ... or starts a goroutine. *)
Lemma inv_spawn s Ts t th T T' p th0 T0 :
  inv s Ts -> s_threads s !! t = Some th -> Ts !! t = Some T -> held T' = held T ->
  (knows (spawn th0 s) T -> knows (spawn th0 s) T') -> safe (returns (th_get th)) T' p ->
  fresh (spawn th0 s) (th0, T0) -> exists Ts', inv (advance t p (spawn th0 s)) Ts'.
Proof.
  intros HI Hth HT Hh HK HSafe HF. apply (inv_move s Ts _ [(th0, T0)] t th T T'); try done; [apply (v_cache _ _ HI) | by constructor].
Qed.

Lemma knows_see s T x : x ∈ s_supplied s -> knows s T -> knows s (see x T).
Proof. intros Hx (K1 & K2 & K3). split_and!; [| done | done]. intros y [-> | Hy]%elem_of_cons; [done | by apply K1]. Qed.

Lemma knows_learn s T l i v :
  (forall key, (i, key) ∈ l -> (key, v) ∈ s_supplied s) -> knows s T -> knows s (learn l i v T).
Proof.
  intros Hl (K1 & K2 & K3). split_and!; [| done | done]. intros y [Hy | Hy]%elem_of_app; [| by apply K1].
  apply list_elem_of_fmap in Hy as ([j key] & -> & Hin). apply list_elem_of_filter in Hin as [Hj Hin]. cbn in Hj. subst j. by apply Hl.
Qed.

Section Preservation.
Context (expiration : Z).

Definition served : view := mkView [] [] [] None true.
Definition client_view : view := mkView [] [] [] None false.

Lemma fresh_get s n key : fresh s (mkThread n (Some key) (Get expiration false key), client_view).
Proof. split_and!; try done; [by apply Get_safe | intros y; set_solver]. Qed.

Lemma fresh_set s n key v :
  (key, v) ∈ s_supplied s -> fresh s (mkThread n None (Set_ expiration false key v), mkView [(key, v)] [] [] None false).
Proof. intros H. split_and!; try done; [apply Set_safe; try done; apply list_elem_of_here |]. by intros y ->%list_elem_of_singleton. Qed.

Lemma fresh_plain s n p : safe (returns None) client_view p -> fresh s (mkThread n None p, client_view).
Proof. intros H. split_and!; try done. intros y; set_solver. Qed.

Lemma fresh_served_get s n key : fresh s (mkThread n (Some key) (Server_Get expiration key), served).
Proof. split_and!; try done; [by apply Server_Get_safe | intros y; set_solver]. Qed.

Lemma fresh_served_set s n key v :
  (key, v) ∈ s_supplied s -> fresh s (mkThread n None (Server_Set expiration key v), mkView [(key, v)] [] [] None true).
Proof. intros H. split_and!; try done; [apply Server_Set_safe; try done; apply list_elem_of_here |]. by intros y ->%list_elem_of_singleton. Qed.

Lemma fresh_served_delete s n key : fresh s (mkThread n None (Server_Delete key), served).
Proof. split_and!; try done; [by apply Server_Delete_safe | intros y; set_solver]. Qed.

Lemma fresh_sync s n key v :
  (forall x, v = Some x -> (key, x) ∈ s_supplied s) ->
  fresh s (mkThread n None (syncToPeers key v), mkView (match v with Some x => [(key, x)] | None => [] end) [] [] None false).
Proof.
  intros H. split_and!; try done.
  - apply syncToPeers_safe; try done. intros x ->. apply list_elem_of_here.
  - destruct v; intros y; [intros ->%list_elem_of_singleton; auto | set_solver].
Qed.

(** What a request answered was supplied. *)
Lemma request_value s Ts T i th v key :
  inv s Ts -> knows s T -> (i, key) ∈ reqs T -> s_threads s !! i = Some th -> th_prog th = Done (Ok v) -> (key, v) ∈ s_supplied s.
Proof.
  intros HI (_ & _ & K3) Hi Hth Hp. destruct (K3 i key Hi) as (th' & E' & G'). assert (th' = th) as -> by congruence.
  destruct (lookup_lt_is_Some_2 Ts i) as [Ti HTi]; [rewrite (v_len _ _ HI); by eapply lookup_lt_Some |].
  pose proof (v_safe _ _ HI i th Ti Hth HTi) as HS. rewrite Hp, G' in HS. destruct HS as [_ HS].
  apply (v_view _ _ HI i th Ti Hth HTi). by apply HS.
Qed.

(** A request is sent, or lost. *)
Lemma inv_sends s Ts t th T T0 th0 r s' p (T' : option nat -> view) :
  inv s Ts -> s_threads s !! t = Some th -> Ts !! t = Some T -> sends th0 s r s' -> T' None = T -> (forall r, held (T' r) = held T) ->
  (knows (spawn th0 s) T -> knows (spawn th0 s) (T' (Some (length (s_threads s))))) ->
  safe (returns (th_get th)) (T' r) p -> fresh (spawn th0 s) (th0, T0) -> exists Ts', inv (advance t p s') Ts'.
Proof.
  intros HI Hth HT [[-> ->] | [-> ->]] HN Hh HK HSafe HF; [rewrite HN in HSafe; by apply (inv_look s Ts t th T T) |].
  eapply (inv_spawn s Ts t th T (T' (Some _))); eauto.
Qed.

(** A value that is got comes from the getter. *)
Lemma inv_supply s Ts t th T key v p :
  inv s Ts -> s_threads s !! t = Some th -> Ts !! t = Some T -> safe (returns (th_get th)) (see (key, v) T) p ->
  exists Ts', inv (advance t p (supply key v s)) Ts'.
Proof.
  intros HI Hth HT HSafe. apply (inv_move s Ts _ [] t th T (see (key, v) T)); try done.
  - by rewrite app_nil_r.
  - intros x Hx. apply elem_of_app. by left.
  - intros n k x E. apply elem_of_app. left. by eapply (v_cache _ _ HI).
  - apply knows_see. apply elem_of_app. right. apply list_elem_of_here.
Qed.

Lemma inv_close s Ts t th T p n :
  inv s Ts -> s_threads s !! t = Some th -> Ts !! t = Some T -> safe (returns (th_get th)) T p ->
  exists Ts', inv (advance t p (set_node n (mkNode true (nd_cache (node_at n s)) (nd_map (node_at n s))) s)) Ts'.
Proof.
  intros HI Hth HT HSafe. apply (inv_move s Ts _ [] t th T T); try done.
  - intros m. rewrite node_set. case_decide as E; [by subst | done].
  - by rewrite app_nil_r.
  - intros m key v E. rewrite node_set in E. eapply (v_cache _ _ HI m). case_decide as Em; [by subst | done].
Qed.

Lemma flight_inv_call s Ts t th R (c : call R) k r s' :
  inv s Ts -> s_threads s !! t = Some th -> th_prog th = Call c k -> does expiration t (th_node th) c s r s' ->
  exists Ts', inv (advance t (k r) s') Ts'.
Proof.
  intros HI Hth Hp HD.
  destruct (lookup_lt_is_Some_2 Ts t) as [T HT]; [rewrite (v_len _ _ HI); by eapply lookup_lt_Some |].
  pose proof (v_safe _ _ HI t th T Hth HT) as HS. rewrite Hp in HS. destruct HS as [HP HS]. specialize (HS r). clear Hp.
  destruct (v_view _ _ HI t th T Hth HT) as [HK HH].
  destruct c; cbn [does pre] in HD, HP; cbn [next] in HS.
  all: try (subst s'; by apply (inv_look s Ts t th T T)).
  all: try (subst s'; apply (inv_cache s Ts t th T); try done; intros ? ? ?; first [by eapply (v_cache _ _ HI) | set_solver]; fail).
  all: try (destruct HD as [-> | ->]; [by apply (inv_look s Ts t th T T) |]; apply (inv_cache s Ts t th T); try done;
    intros k' v' [[<- <-] | [_ E]]%lookup_insert_Some; [by apply HK | by eapply (v_cache _ _ HI)]; fail).
  - (* Closed *) destruct HD as [-> ->]. by apply (inv_look s Ts t th T T).
  - (* CloseOnce *) destruct HD as [_ ->]. by apply (inv_close s Ts t th T).
  - (* CacheGet *) destruct HD as [-> HD]. destruct r as [v |]; [| by apply (inv_look s Ts t th T T)].
    destruct HD as [HD | HD]; [done |]. apply (inv_look s Ts t th T (see (key, v) T)); try done. apply knows_see. by eapply (v_cache _ _ HI).
  - (* CacheDelete *) subst s'. apply (inv_cache s Ts t th T); try done. intros k' v' [_ E]%lookup_delete_Some. by eapply (v_cache _ _ HI).
  - (* LoadOrStore *) destruct (nd_map (node_at (th_node th) s) !! key) as [c |] eqn:Em; destruct HD as [-> ->].
    + eapply (inv_look s Ts t th T); [done | done | done | | | exact HS]; [done |]. intros (K1 & K2 & K3). split_and!; [done | | done].
      intros c' key' [[= -> ->] | Hin]%elem_of_cons; [| by apply K2]. destruct (v_map _ _ HI _ _ _ Em) as (f & Ef & _ & F & _). eauto.
    + eexists. by apply (inv_store s Ts t th T).
  - (* Wait *) destruct HD as [-> (f & Ef & _ & Er)]. destruct r as [v | e]; [| by apply (inv_look s Ts t th T T)].
    apply (inv_look s Ts t th T (learn (fls T) c v T)); try done. intros HK'. apply knows_learn; [| done]. intros key Hin.
    destruct HK' as (_ & K2 & _). destruct (K2 c key Hin) as (f' & Ef' & <-). assert (f' = f) as -> by congruence. by eapply (v_value _ _ HI).
  - (* Settle *) destruct HP as (key & Hh & HV). destruct HD as (f & Ef & ->). eexists. rewrite (stage_held _ _ _ _ _ Hh) in HS.
    destruct (HH c key Running Hh) as (_ & f' & Ef' & F1 & F2 & F3 & F4 & _). assert (f' = f) as -> by congruence.
    eapply (inv_stage s Ts t th T c key Running Settled f); try done; cbn [fl_res]; [by rewrite F4 |].
    intros v [= ->]. apply HK. by apply HV.
  - (* WgDone *) destruct HP as (key & Hh). destruct HD as (f & Ef & ->). eexists. rewrite (stage_held _ _ _ _ _ Hh) in HS.
    destruct (HH c key Settled Hh) as (_ & f' & Ef' & F1 & F2 & F3 & F4 & [F5 | F5]); [done |]. assert (f' = f) as -> by congruence.
    eapply (inv_stage s Ts t th T c key Settled Released f); try done; cbn [fl_res].
    intros v Ev. rewrite <- F2. by eapply (v_value _ _ HI).
  - (* MapDelete *) destruct HP as (c & Hh). subst s'. eexists. by eapply (inv_drop s Ts t th T c key).
  - (* GetterReturn *) subst s'. destruct r as [[v | e] |]; [by apply (inv_supply s Ts t th T) | by apply (inv_look s Ts t th T T) ..].
  - (* PeerGet *) eapply (inv_sends s Ts t th T served _ _ _ _
      (fun r => match r with Some i => mkView (kn T) (fls T) ((i, key) :: reqs T) (held T) (serving T) | None => T end)); try done;
      [by intros [] | | apply fresh_served_get].
    intros (K1 & K2 & K3). split_and!; [done | done |]. intros i key' [[= -> ->] | Hin]%elem_of_cons; [| by apply K3].
    eexists. split; [cbn; by rewrite lookup_app_r, Nat.sub_diag by lia | done].
  - (* PeerSet *) destruct HP as [_ HP]. eapply (inv_sends s Ts t th T _ _ _ _ _ (fun _ => T)); try done. apply fresh_served_set. by apply HK.
  - (* PeerDelete *) eapply (inv_sends s Ts t th T _ _ _ _ _ (fun _ => T)); try done. apply fresh_served_delete.
  - (* Await *) destruct HD as [-> HD]. destruct r as [v | e]; [| by apply (inv_look s Ts t th T T)].
    destruct HD as [[e [=]] | (th' & Hth' & Hp')]. apply (inv_look s Ts t th T (learn (reqs T) request v T)); try done.
    intros _. apply knows_learn; [| done]. intros key Hin. by eapply (request_value s Ts T).
  - (* GoSyncSet *) destruct HP as [_ HP]. subst s'. eapply (inv_spawn s Ts t th T T); try done. apply fresh_sync. intros x [= <-]. by apply HK.
  - (* GoSyncDelete *) subst s'. eapply (inv_spawn s Ts t th T T); try done. by apply fresh_sync.
Qed.

Lemma flight_inv_step s Ts s' : inv s Ts -> step expiration s s' -> exists Ts', inv s' Ts'.
Proof.
  intros HI HS. assert (HX : forall th0 T0, fresh (spawn th0 s) (th0, T0) -> exists Ts', inv (spawn th0 s) Ts').
  { intros th0 T0 HF. eexists. apply (inv_frame s Ts _ [(th0, T0)]); try done; [apply (v_cache _ _ HI) | by constructor]. }
  destruct HS as [s t th R c k r s' Hth Hp HD | s n key | s n key v | s n key | s n | s n | s n m Hm].
  - by eapply flight_inv_call.
  - eapply HX, fresh_get.
  - eexists. eapply (inv_frame s Ts _ [(_, _)]); try done.
    + intros x Hx. apply elem_of_app. by left.
    + intros n' k' v' E. apply elem_of_app. left. by eapply (v_cache _ _ HI).
    + constructor; [| done]. apply fresh_set. apply elem_of_app. right. apply list_elem_of_here.
  - eapply HX, fresh_plain. by apply Delete_safe.
  - eapply HX, fresh_plain. by apply Clear_safe.
  - eapply HX, fresh_plain. by apply Close_safe.
  - exists (Ts ++ []). eapply (inv_frame s Ts _ []); try done; [by intros; apply map_set_cache | by rewrite app_nil_r |].
    intros n' key v E. rewrite cache_set in E. apply (v_cache _ _ HI n'). case_decide as En; [rewrite En; by eapply lookup_weaken | done].
Qed.

Lemma flight_inv_start : inv start [].
Proof. by split. Qed.

Lemma flight_inv_reachable s : reachable expiration s -> exists Ts, inv s Ts.
Proof.
  intros H. unfold reachable in H. remember start as s0 eqn:E0. assert (HI : exists Ts, inv s0 Ts) by (exists []; subst; apply flight_inv_start). clear E0.
  induction H as [| s0 s1 s2 HS _ IH]; [done |]. apply IH. destruct HI as [Ts HI]. by eapply flight_inv_step.
Qed.

End Preservation.

(** ** Nothing blocks for good *)

(** The calls that can block, and those that ask a peer. *)
Definition is_wait {R : Type} (c : call R) : bool := match c with Wait _ => true | _ => false end.
Definition forwards {R : Type} (c : call R) : bool :=
  match c with PeerGet _ _ | PeerSet _ _ _ | PeerDelete _ _ | GoSyncSet _ _ | GoSyncDelete _ => true | _ => false end.

Fixpoint never {A : Type} (bad : forall R, call R -> bool) (p : prog A) : Prop :=
  match p with
  | Done _ => True
  | @Call _ _ R c k => bad R c = false /\ forall r, never bad (k r)
  end.

Section Progress.
Context (expiration : Z).

Lemma view_at s Ts t th :
  inv s Ts -> s_threads s !! t = Some th ->
  exists T, Ts !! t = Some T /\ safe (returns (th_get th)) T (th_prog th) /\ knows s T /\ holds s t (th_node th) T.
Proof.
  intros HI Hth. destruct (lookup_lt_is_Some_2 Ts t) as [T HT]; [rewrite (v_len _ _ HI); by eapply lookup_lt_Some |].
  exists T. destruct (v_view _ _ HI t th T Hth HT). split_and!; try done. by apply (v_safe _ _ HI t).
Qed.

(** Every call but [Wait] goes through. *)
Lemma can_step s Ts t th R (c : call R) k :
  inv s Ts -> s_threads s !! t = Some th -> th_prog th = Call c k -> is_wait c = false ->
  exists r s', does expiration t (th_node th) c s r s'.
Proof.
  intros HI Hth Hp Hw. destruct (view_at s Ts t th HI Hth) as (T & HT & HS & HK & HH). rewrite Hp in HS. destruct HS as [HP _].
  destruct c; cbn [does pre] in *; try done.
  all: try (exists tt; eexists; first [done | by left]; fail).
  all: try (by exists true; eexists).
  all: try (by exists None; eexists).
  all: try (by exists NoPeer; eexists).
  all: try (exists None; eexists; by left).
  - do 2 eexists; by split.
  - do 2 eexists; by split.
  - exists None, s. auto.
  - destruct (nd_map (node_at (th_node th) s) !! key); do 2 eexists; by split.
  - destruct HP as (key & Hh & _). destruct (HH _ _ _ Hh) as (_ & f & Ef & _). exists tt. eauto.
  - destruct HP as (key & Hh). destruct (HH _ _ _ Hh) as (_ & f & Ef & _). exists tt. eauto.
  - exists (Err "deadline"), s. split; [done |]. left. by exists "deadline".
Qed.

(** A call starts goroutines at most, and never takes a flight from its maker. *)
Lemma does_keeps t n R (c : call R) s r s' :
  does expiration t n c s r s' ->
  s_threads s `prefix_of` s_threads s' /\
  (forall i f, s_flights s !! i = Some f -> exists f', s_flights s' !! i = Some f' /\ fl_owner f' = fl_owner f).
Proof.
  assert (HS : forall th x, sends th s x s' -> s_threads s `prefix_of` s_threads s' /\ s_flights s' = s_flights s).
  { intros th x [[_ ->] | [_ ->]]; split; try done. by eexists. }
  assert (HF : forall i f f', s_flights s !! i = Some f -> fl_owner f' = fl_owner f -> forall j g, s_flights s !! j = Some g ->
    exists g', <[i := f']> (s_flights s) !! j = Some g' /\ fl_owner g' = fl_owner g).
  { intros i f f' Ei Eo j g Ej. destruct (decide (j = i)) as [-> | Hne]; [| rewrite list_lookup_insert_ne by done; eauto].
    rewrite list_lookup_insert_eq by (by eapply lookup_lt_Some). exists f'. split; [done | congruence]. }
  destruct c; cbn [does]; intros HD.
  all: try (subst s'; split; [done | eauto]; fail).
  all: try (match type of HD with _ /\ _ => destruct HD as [HA HB] end; subst s'; split; [done | eauto]; fail).
  all: try (destruct HD as [-> | ->]; (split; [done | eauto]); fail).
  all: try (apply HS in HD as [HD ->]; split; [done | eauto]; fail).
  all: try (destruct HD as (g & Eg & ->); split; [done |]; by eapply HF).
  all: try (subst s'; split; [by eexists | eauto]; fail).
  - destruct (_ !! _); destruct HD as [-> ->]; (split; [done |]); intros i f Ei; [eauto |]. exists f. split; [by apply lookup_app_l_Some | done].
  - destruct r as [[v | e] |]; subst s'; (split; [done | eauto]).
Qed.

Lemma step_reachable s s' : reachable expiration s -> step expiration s s' -> reachable expiration s'.
Proof. intros H HS. eapply rtc_r; eauto. Qed.

Lemma rtc_reachable s s' : reachable expiration s -> rtc (step expiration) s s' -> reachable expiration s'.
Proof. intros H HS. unfold reachable in *. by etrans. Qed.

(** After its call the goroutine is at what follows, and the others are where they were. *)
Lemma advance_threads t p s s' th :
  s_threads s `prefix_of` s_threads s' -> s_threads s !! t = Some th ->
  s_threads (advance t p s') !! t = Some (mkThread (th_node th) (th_get th) p) /\
  forall i x, i <> t -> s_threads s !! i = Some x -> s_threads (advance t p s') !! i = Some x.
Proof.
  intros HP Hth. cbn [advance s_threads]. split.
  - by rewrite list_lookup_alter_eq, (prefix_lookup_Some _ _ _ _ Hth HP).
  - intros i x Hne Hx. rewrite list_lookup_alter_ne by done. by eapply prefix_lookup_Some.
Qed.

(** The goroutine that holds a flight never waits, so that it can settle the flight alone. *)
Lemma finish_flight p : forall s t th c f,
  reachable expiration s -> s_threads s !! t = Some th -> th_prog th = p -> s_flights s !! c = Some f -> fl_owner f = t -> fl_done f = false ->
  exists s' f', rtc (step expiration) s s' /\ s_flights s' !! c = Some f' /\ fl_done f' = true /\
    forall i x, i <> t -> s_threads s !! i = Some x -> s_threads s' !! i = Some x.
Proof.
  induction p as [r | R cl k IH]; intros s t th c f HR Hth Hp Ef Eo Hd; destruct (flight_inv_reachable _ _ HR) as [Ts HI];
    destruct (v_open _ _ HI c f Ef Hd) as (T & st & HT & Hh & Hst); rewrite Eo in HT; pose proof (v_safe _ _ HI t th T Hth HT) as HS; rewrite Hp in HS.
  - destruct HS as [HS _]. congruence.
  - destruct (is_wait cl) eqn:Ew.
    { destruct cl; try done. destruct HS as [[HS _] _]. congruence. }
    destruct (can_step s Ts t th R cl k HI Hth Hp Ew) as (r & s1 & HD). destruct (does_keeps _ _ _ _ _ _ _ HD) as [HPre HF].
    destruct (HF c f Ef) as (f1 & Ef1 & Eo1). destruct (advance_threads t (k r) s s1 th HPre Hth) as [H1 H2].
    assert (HStep : step expiration s (advance t (k r) s1)) by (by eapply st_call).
    destruct (fl_done f1) eqn:Ed1; [exists (advance t (k r) s1), f1; split_and!; try done; by apply rtc_once |].
    destruct (IH r (advance t (k r) s1) t _ c f1 (step_reachable _ _ HR HStep) H1 eq_refl Ef1 ltac:(congruence) Ed1) as (s2 & f2 & Hs & G1 & G2 & G3).
    exists s2, f2. split_and!; [by eapply rtc_l | done | done |]. intros i x Hne Hx. apply G3; [done |]. by apply H2.
Qed.

(** Where a goroutine waits, another one can settle the flight. *)
Lemma wait_ends s t th c k :
  reachable expiration s -> s_threads s !! t = Some th -> th_prog th = Call (Wait c) k ->
  exists s' f r, rtc (step expiration) s s' /\ s_threads s' !! t = Some th /\ s_flights s' !! c = Some f /\ fl_done f = true /\ fl_res f = Some r.
Proof.
  intros HR Hth Hp. destruct (flight_inv_reachable _ _ HR) as [Ts HI]. destruct (view_at s Ts t th HI Hth) as (T & HT & HS & (_ & K2 & _) & _).
  rewrite Hp in HS. destruct HS as [[Hh [key Hin]] _]. destruct (K2 c key Hin) as (f & Ef & _). destruct (fl_done f) eqn:Ed.
  - destruct (v_done _ _ HI c f Ef Ed) as [r Er]. exists s, f, r. by split_and!.
  - destruct (v_open _ _ HI c f Ef Ed) as (T' & st & HT' & Hh' & _). assert (Hne : t <> fl_owner f) by congruence.
    destruct (lookup_lt_is_Some_2 (s_threads s) (fl_owner f)) as [th' Hth']; [rewrite <- (v_len _ _ HI); by eapply lookup_lt_Some |].
    destruct (finish_flight _ s _ th' c f HR Hth' eq_refl Ef eq_refl Ed) as (s' & f' & Hs & Ef' & Ed' & HO).
    destruct (flight_inv_reachable _ _ (rtc_reachable _ _ HR Hs)) as [Ts' HI']. destruct (v_done _ _ HI' c f' Ef' Ed') as [r Er].
    exists s', f', r. split_and!; try done. by apply HO.
Qed.

Lemma finish_thread p : forall s t th,
  reachable expiration s -> s_threads s !! t = Some th -> th_prog th = p ->
  exists s' th' r, rtc (step expiration) s s' /\ s_threads s' !! t = Some th' /\ th_prog th' = Done r.
Proof.
  induction p as [r | R cl k IH]; intros s t th HR Hth Hp; [by exists s, th, r |].
  assert (HX : exists s1 r s2, rtc (step expiration) s s1 /\ s_threads s1 !! t = Some th /\ does expiration t (th_node th) cl s1 r s2).
  { destruct (is_wait cl) eqn:Ew.
    - destruct cl as [| | | | | | | | | | | c | | | | | | | | | | | | |]; try done.
      destruct (wait_ends s t th c k HR Hth Hp) as (s1 & f & r & Hs & Ht & Ef & Ed & Er). exists s1, r, s1. do 3 (split; [done |]). exists f. auto.
    - destruct (flight_inv_reachable _ _ HR) as [Ts HI]. destruct (can_step s Ts t th R cl k HI Hth Hp Ew) as (r & s2 & HD). by exists s, r, s2. }
  destruct HX as (s1 & r & s2 & Hs & Ht & HD). destruct (does_keeps _ _ _ _ _ _ _ HD) as [HPre _].
  destruct (advance_threads t (k r) s1 s2 th HPre Ht) as [H1 _]. assert (HStep : step expiration s1 (advance t (k r) s2)) by (by eapply st_call).
  destruct (IH r _ t _ (step_reachable _ _ (rtc_reachable _ _ HR Hs) HStep) H1 eq_refl) as (s3 & th3 & r3 & Hs3 & G).
  exists s3, th3, r3. split; [| done]. etrans; [done |]. by eapply rtc_l.
Qed.

(** C20: no goroutine is stuck: in every state that groups, peers and evictions can reach,
    every request - a get that waits for another's load, the load itself, a served
    request, a synchronisation - can run to its answer. *)
Theorem requests_finish s t th :
  reachable expiration s -> s_threads s !! t = Some th ->
  exists s' th' r, rtc (step expiration) s s' /\ s_threads s' !! t = Some th' /\ th_prog th' = Done r.
Proof. intros HR Hth. by eapply finish_thread. Qed.

(** C18: single flight: on one node at most one goroutine at a time runs the getter for a
    key, however many get it. *)
Theorem one_load s t t' th th' key k k' :
  reachable expiration s -> s_threads s !! t = Some th -> s_threads s !! t' = Some th' -> th_node th = th_node th' ->
  th_prog th = Call (GetterReturn key) k -> th_prog th' = Call (GetterReturn key) k' -> t = t'.
Proof.
  intros HR Hth Hth' Hn Hp Hp'. destruct (flight_inv_reachable _ _ HR) as [Ts HI].
  destruct (view_at s Ts t th HI Hth) as (T & _ & HS & _ & HH). destruct (view_at s Ts t' th' HI Hth') as (T' & _ & HS' & _ & HH').
  rewrite Hp in HS. rewrite Hp' in HS'. destruct HS as [[c Hc] _]. destruct HS' as [[c' Hc'] _].
  destruct (HH _ _ _ Hc) as (M & f & Ef & _ & _ & Eo & _). destruct (HH' _ _ _ Hc') as (M' & f' & Ef' & _ & _ & Eo' & _). congruence.
Qed.

(** C19: a value that a get of a key answers - cached, loaded, shared by another goroutine's
    flight, or fetched from a peer - was set for that key or came from the getter for it. *)
Theorem get_provenance s t th key v :
  reachable expiration s -> s_threads s !! t = Some th -> th_get th = Some key -> th_prog th = Done (Ok v) -> (key, v) ∈ s_supplied s.
Proof.
  intros HR Hth Hg Hp. destruct (flight_inv_reachable _ _ HR) as [Ts HI]. destruct (view_at s Ts t th HI Hth) as (T & _ & HS & (K & _) & _).
  rewrite Hp in HS. destruct HS as [_ HS]. apply K. by apply HS.
Qed.

(** When all goroutines are done, no flight is left in a map. *)
Lemma flights_released s n :
  reachable expiration s -> (forall t th, s_threads s !! t = Some th -> exists r, th_prog th = Done r) -> nd_map (node_at n s) = ∅.
Proof.
  intros HR HD. destruct (flight_inv_reachable _ _ HR) as [Ts HI]. apply map_empty. intros key.
  destruct (nd_map (node_at n s) !! key) as [c |] eqn:E; [| done]. destruct (v_map _ _ HI _ _ _ E) as (f & _ & _ & _ & T & st & HT & Hh & _).
  destruct (lookup_lt_is_Some_2 (s_threads s) (fl_owner f)) as [th Hth]; [rewrite <- (v_len _ _ HI); by eapply lookup_lt_Some |].
  pose proof (v_safe _ _ HI _ _ _ Hth HT) as HS. destruct (HD _ _ Hth) as [r Er]. rewrite Er in HS. destruct HS as [HS _]. congruence.
Qed.

(** A request from a peer is served on this node: it is never sent on. *)
Lemma serving_never {A} (Q : view -> A -> Prop) p : forall T, serving T = true -> safe Q T p -> never (@forwards) p.
Proof.
  induction p as [a | R c k IH]; intros T HT; [done |]. intros [HP HK]. split.
  - destruct c; try done; cbn [pre] in HP; first [congruence | destruct HP; congruence].
  - intros r. apply (IH r (next T c r)); [| apply HK]. destruct c; try done; cbn [next]; try (by destruct r).
    by destruct r as [[v | e] |].
Qed.

Lemma Server_Get_local key : never (@forwards) (Server_Get expiration key).
Proof. by eapply (serving_never _ _ served), Server_Get_safe. Qed.

Lemma Server_Set_local key v : never (@forwards) (Server_Set expiration key v).
Proof. eapply (serving_never _ _ (mkView [(key, v)] [] [] None true)), Server_Set_safe; try done. apply list_elem_of_here. Qed.

Lemma Server_Delete_local key : never (@forwards) (Server_Delete key).
Proof. by eapply (serving_never _ _ served), Server_Delete_safe. Qed.

End Progress.

(** * Cache: runs of groups

    An executable schedule for the system of [CacheFlight]: who takes the next step, and
    what the getter, the picker and the network answer.  The runs are instances of the
    theorems and the races that single flight leaves open. *)

(** What the surroundings answer to a call. *)
Record answer := mkAnswer { an_peers : bool; an_pick : pick; an_origin : option reply; an_sent : bool; an_late : bool }.

Definition alone : answer := mkAnswer false NoPeer None true false.
Definition origin (v : bytes) : answer := mkAnswer false NoPeer (Some (Ok v)) true false.
Definition via (m : nat) : answer := mkAnswer true (PeerAt m) None true false.

Section Schedule.
Context (expiration : Z).

Definition send (a : answer) (th : thread) (s : sys) : option nat * sys :=
  if an_sent a then (Some (length (s_threads s)), spawn th s) else (None, s).

Definition act (a : answer) (t n : nat) {R} (c : call R) (s : sys) : option (R * sys) :=
  match c in call R return option (R * sys) with
  | Closed => Some (nd_closed (node_at n s), s)
  | CloseOnce => Some (negb (nd_closed (node_at n s)), set_node n (mkNode true (nd_cache (node_at n s)) (nd_map (node_at n s))) s)
  | CacheGet key => Some (nd_cache (node_at n s) !! key, s)
  | CacheAdd key v | CacheAddWithExpiration key v _ => Some (tt, set_cache n (<[key := v]> (nd_cache (node_at n s))) s)
  | CacheDelete key => Some (tt, set_cache n (delete key (nd_cache (node_at n s))) s)
  | CacheClear | CacheClose => Some (tt, set_cache n ∅ s)
  | FindGroup => Some (true, s)
  | GetPeers => Some (an_peers a, s)
  | PickPeer _ => Some (an_pick a, s)
  | DropGroup | GetterEnter _ => Some (tt, s)
  | LoadOrStore key =>
      match nd_map (node_at n s) !! key with
      | Some c => Some ((c, true), s)
      | None =>
          let c := length (s_flights s) in
          Some ((c, false), set_map n (<[key := c]> (nd_map (node_at n s)))
                 (mkSys (s_nodes s) (s_flights s ++ [mkFlight n key t None false]) (s_threads s) (s_supplied s)))
      end
  | Wait c => match s_flights s !! c with
              | Some f => if fl_done f then option_map (fun r => (r, s)) (fl_res f) else None
              | None => None
              end
  | Settle c v => option_map (fun f => (tt, set_flight c (mkFlight (fl_node f) (fl_key f) (fl_owner f) (Some v) (fl_done f)) s)) (s_flights s !! c)
  | WgDone c => option_map (fun f => (tt, set_flight c (mkFlight (fl_node f) (fl_key f) (fl_owner f) (fl_res f) true) s)) (s_flights s !! c)
  | MapDelete key => Some (tt, set_map n (delete key (nd_map (node_at n s))) s)
  | GetterReturn key => Some (an_origin a, match an_origin a with Some (Ok v) => supply key v s | _ => s end)
  | PeerGet m key => Some (send a (mkThread m (Some key) (Server_Get expiration key)) s)
  | PeerSet m key v => Some (send a (mkThread m None (Server_Set expiration key v)) s)
  | PeerDelete m key => Some (send a (mkThread m None (Server_Delete key)) s)
  | Await i =>
      if an_late a then Some (Err "deadline exceeded", s)
      else match s_threads s !! i with
           | Some th => match th_prog th with Done r => Some (r, s) | _ => None end
           | None => None
           end
  | GoSyncSet key v => Some (tt, spawn (mkThread n None (syncToPeers key (Some v))) s)
  | GoSyncDelete key => Some (tt, spawn (mkThread n None (syncToPeers key None)) s)
  end.

Lemma send_sends a th s r s' : send a th s = (r, s') -> sends th s r s'.
Proof. unfold send, sends. destruct (an_sent a); intros [= <- <-]; auto. Qed.

Lemma act_does a t n R (c : call R) s r s' : act a t n c s = Some (r, s') -> does expiration t n c s r s'.
Proof.
  destruct c; cbn [act does]; intros E; try (injection E as E1 E2; subst; try done; auto; by apply send_sends).
  all: try (injection E as E; by apply send_sends in E).
  - destruct (nd_map (node_at n s) !! key); by injection E as <- <-.
  - destruct (s_flights s !! c) as [f |] eqn:Ef; [| done]. destruct (fl_done f) eqn:Ed; [| done].
    destruct (fl_res f) eqn:Er; [| done]. injection E as <- <-. eauto.
  - destruct (s_flights s !! c) as [f |] eqn:Ef; [| done]. injection E as <- <-. eauto.
  - destruct (s_flights s !! c) as [f |] eqn:Ef; [| done]. injection E as <- <-. eauto.
  - destruct (an_late a); [injection E as <- <-; eauto |]. destruct (s_threads s !! request) as [th |] eqn:Et; [| done].
    destruct (th_prog th) eqn:Ep; [| done]. injection E as <- <-. eauto.
Qed.

(** One event of a run: a client calls, or goroutine [t] takes up to [k] steps. *)
Inductive event :=
  | EvGet (n : nat) (key : string)
  | EvSet (n : nat) (key : string) (v : bytes)
  | EvDelete (n : nat) (key : string)
  | EvRun (t : nat) (k : nat) (a : answer).

Definition move (a : answer) (t : nat) (s : sys) : option sys :=
  match s_threads s !! t with
  | Some th =>
      match th_prog th with
      | Call c k => match act a t (th_node th) c s with Some (r, s') => Some (advance t (k r) s') | None => None end
      | Done _ => None
      end
  | None => None
  end.

Fixpoint run (k : nat) (a : answer) (t : nat) (s : sys) : sys :=
  match k with
  | O => s
  | S k => match move a t s with Some s' => run k a t s' | None => s end
  end.

Definition happen (s : sys) (e : event) : sys :=
  match e with
  | EvGet n key => spawn (mkThread n (Some key) (Get expiration false key)) s
  | EvSet n key v => spawn (mkThread n None (Set_ expiration false key v)) (supply key v s)
  | EvDelete n key => spawn (mkThread n None (Delete false key)) s
  | EvRun t k a => run k a t s
  end.

Definition play (es : list event) : sys := fold_left happen es start.

Lemma move_step a t s s' : move a t s = Some s' -> step expiration s s'.
Proof.
  unfold move. destruct (s_threads s !! t) as [th |] eqn:Et; [| done]. destruct (th_prog th) as [r | R c k] eqn:Ep; [done |].
  destruct (act a t (th_node th) c s) as [[r s1] |] eqn:Ea; [| done]. intros [= <-]. eapply st_call; [done | done |]. by eapply act_does.
Qed.

Lemma run_steps k a t : forall s, rtc (step expiration) s (run k a t s).
Proof.
  induction k as [| k IH]; intros s; [done |]. cbn [run]. destruct (move a t s) as [s' |] eqn:E; [| done].
  eapply rtc_l; [by eapply move_step | apply IH].
Qed.

Lemma happen_steps s e : rtc (step expiration) s (happen s e).
Proof. destruct e; try (apply rtc_once; by constructor). apply run_steps. Qed.

Lemma play_reachable es : reachable expiration (play es).
Proof.
  unfold play, reachable. assert (H : forall s, rtc (step expiration) start s -> rtc (step expiration) start (fold_left happen es s)); [| by apply H].
  induction es as [| e es IH]; intros s Hs; [done |]. apply IH. etrans; [done | apply happen_steps].
Qed.

End Schedule.

(** What goroutine [t] answered. *)
Definition outcome_of (t : nat) (s : sys) : option reply :=
  match s_threads s !! t with Some th => match th_prog th with Done r => Some r | _ => None end | None => None end.

(** The call where goroutine [t] is. *)
Inductive place := AtWait (c : nat) | AtAwait (i : nat) | AtGetter (key : string) | Elsewhere.

Definition place_of (t : nat) (s : sys) : place :=
  match s_threads s !! t with
  | Some th => match th_prog th with
               | Call (Wait c) _ => AtWait c
               | Call (Await i) _ => AtAwait i
               | Call (GetterReturn key) _ => AtGetter key
               | _ => Elsewhere
               end
  | None => Elsewhere
  end.

Definition v1 : bytes := [1; 2]%Z.

(** ** Instances *)

(** Three goroutines get a key of a node at once: one is in the getter, two wait. *)
Definition herd : list event :=
  [EvGet 0 "k"; EvGet 0 "k"; EvGet 0 "k"; EvRun 0 6 alone; EvRun 1 9 alone; EvRun 2 9 alone].

Example herd_waits :
  let s := play 0 herd in (place_of 0 s, place_of 1 s, place_of 2 s) = (AtGetter "k", AtWait 0, AtWait 0).
Proof. vm_compute. reflexivity. Qed.

(** When the getter has returned, all three have its value, and the cache too. *)
Definition herd_done : list event := herd ++ [EvRun 0 9 (origin v1); EvRun 1 9 alone; EvRun 2 9 alone].

Example herd_served :
  let s := play 0 herd_done in
  (outcome_of 0 s, outcome_of 1 s, outcome_of 2 s, nd_cache (node_at 0 s) !! "k") = (Some (Ok v1), Some (Ok v1), Some (Ok v1), Some v1).
Proof. vm_compute. reflexivity. Qed.

(** ** Races *)

(** A get is in the getter, a delete of the key runs from start to end, and the get then
    puts the value it had read before into the cache, where later gets find it. *)
Definition late_load : list event :=
  [EvGet 0 "k"; EvRun 0 6 alone; EvRun 0 1 (origin v1); EvDelete 0 "k"; EvRun 1 9 alone; EvRun 0 9 alone; EvGet 0 "k"; EvRun 2 9 alone].

Theorem deleted_value_back :
  let s := play 0 late_load in
  (outcome_of 1 s, nd_cache (node_at 0 s) !! "k", outcome_of 2 s) = (Some (Ok []), Some v1, Some (Ok v1)).
Proof. vm_compute. reflexivity. Qed.

(** [Do] lets the waiters go before it takes the flight out of the map: a get that starts
    when the load and a later delete are over still joins the flight and has its value,
    which is no longer in the cache. *)
Definition joined_late : list event :=
  [EvGet 0 "k"; EvRun 0 6 alone; EvRun 0 4 (origin v1); EvDelete 0 "k"; EvRun 1 9 alone; EvGet 0 "k"; EvRun 2 9 alone].

Theorem finished_flight_joined :
  let s := play 0 joined_late in
  (outcome_of 1 s, nd_cache (node_at 0 s) !! "k", outcome_of 2 s) = (Some (Ok []), None, Some (Ok v1)).
Proof. vm_compute. reflexivity. Qed.

(** A flight is shared by the gets of this node and the requests of peers.  Two nodes that
    take each other for the owner of a key both fetch it from the other, and the request
    each serves waits for its own fetch: nobody moves before a deadline. *)
Definition crossed : list event :=
  [EvGet 0 "k"; EvGet 1 "k"; EvRun 0 9 (via 1); EvRun 1 9 (via 0); EvRun 2 9 alone; EvRun 3 9 alone].

Theorem peers_wait_for_each_other :
  let s := play 0 crossed in
  map (fun t => place_of t s) [0; 1; 2; 3]%nat = [AtAwait 2; AtAwait 3; AtWait 1; AtWait 0]%nat /\
  Forall (fun t => move 0 alone t s = None) [0; 1; 2; 3]%nat.
Proof. split; [by vm_compute |]. repeat constructor; by vm_compute. Qed.

(** ... and then they load the key themselves. *)
Definition crossed_late : list event :=
  crossed ++ [EvRun 0 9 (mkAnswer true (PeerAt 1) (Some (Ok v1)) true true); EvRun 3 9 alone; EvRun 1 9 alone; EvRun 2 9 alone].

Example crossed_over :
  let s := play 0 crossed_late in
  map (fun t => outcome_of t s) [0; 1; 2; 3]%nat = [Some (Ok v1); Some (Ok v1); Some (Ok v1); Some (Ok v1)].
Proof. vm_compute. done. Qed.

(** ** Witnesses *)

Lemma requests_finish_witness :
  exists s' th' r, rtc (step 0) (play 0 crossed) s' /\ s_threads s' !! 3%nat = Some th' /\ th_prog th' = Done r.
Proof. eapply (requests_finish 0 (play 0 crossed) 3); [apply play_reachable | vm_compute; reflexivity]. Defined.

Lemma one_load_witness : place_of 0 (play 0 herd) = AtGetter "k" /\ 0%nat = 0%nat.
Proof.
  split; [vm_compute; reflexivity |].
  eapply (one_load 0 (play 0 herd) 0 0); [apply play_reachable | vm_compute; reflexivity | vm_compute; reflexivity | vm_compute; reflexivity ..].
Defined.

Lemma get_provenance_witness : ("k", v1) ∈ s_supplied (play 0 herd_done).
Proof. eapply (get_provenance 0 (play 0 herd_done) 2); [apply play_reachable | vm_compute; reflexivity ..]. Defined.
