(* ===== verification/CachePeers.v ===== *)
(** * Cache: the peers of a node

    [libs/yukino_cache/peers.go]: the picker follows the registry of services - a first
    listing, then events, with a listing after every interruption - and keeps a client and
    points on the ring of [CacheHash] for every peer.  Whether gRPC accepts an address is
    a parameter; connections are not modelled beyond their address. *)
From S2P Require Import Prelude GoStrings GoSort CacheHash.

Record Client := mkClient { cl_addr : string; cl_svc : string }.

Record ClientPicker := mkPicker {
  selfAddr : string; svcName : string; consHash : ConsistentHashMap; clients : gmap string Client }.

(** An event of etcd's watch: the key that was put or deleted. *)
Inductive Event := EventTypePut (key : string) | EventTypeDelete (key : string).

Definition TrimPrefix (s prefix : string) : string :=
  if String.prefix prefix s then String.substring (String.length prefix) (String.length s - String.length prefix) s else s.

Section Picker.
Context (HashFunc : string -> Z) (DefaultReplicas : Z) (dials : string -> bool).

Definition NewClient (addr svc : string) : option Client := if dials addr then Some (mkClient addr svc) else None.

Definition servicePrefix (p : ClientPicker) : string := "/services/" +:+ svcName p +:+ "/".

Definition addrFromEventKey (p : ClientPicker) (key : string) : string := TrimPrefix key (servicePrefix p).

(** The error of [Add] is dropped: the list of nodes is not empty. *)
Definition ring_add (m : ConsistentHashMap) (addr : string) : ConsistentHashMap :=
  match Add HashFunc DefaultReplicas m [addr] with Ok m' => m' | Err _ => m end.

Definition ring_remove (m : ConsistentHashMap) (addr : string) : ConsistentHashMap :=
  match Remove m addr with Ok m' => m' | Err _ => m end.

Definition set_ (p : ClientPicker) (addr : string) : ClientPicker :=
  match NewClient addr (svcName p) with
  | Some client => mkPicker (selfAddr p) (svcName p) (ring_add (consHash p) addr) (<[addr := client]> (clients p))
  | None => p
  end.

Definition remove (p : ClientPicker) (addr : string) : ClientPicker :=
  mkPicker (selfAddr p) (svcName p) (ring_remove (consHash p) addr) (delete addr (clients p)).

(** A peer that is listed or put. *)
Definition found (p : ClientPicker) (addr : string) : ClientPicker :=
  match clients p !! addr with Some _ => p | None => set_ p addr end.

Definition skips (p : ClientPicker) (addr : string) : bool := bool_decide (addr = "") || bool_decide (addr = selfAddr p).

Definition handle_event (p : ClientPicker) (event : Event) : ClientPicker :=
  match event with
  | EventTypePut key => let addr := addrFromEventKey p key in if skips p addr then p else found p addr
  | EventTypeDelete key =>
      let addr := addrFromEventKey p key in
      if skips p addr then p else match clients p !! addr with Some _ => remove p addr | None => p end
  end.

Definition handleWatchEvents (p : ClientPicker) (events : list Event) : ClientPicker := foldl handle_event p events.

(** The first loop of [fetchAllServices]: the picker and the set of listed peers. *)
Definition list_one (x : ClientPicker * gset string) (key : string) : ClientPicker * gset string :=
  let '(p, current) := x in
  let addr := addrFromEventKey p key in
  if skips p addr then (p, current) else (found p addr, {[addr]} ∪ current).

Definition fetchAllServices (p : ClientPicker) (kvs : list string) : ClientPicker :=
  let '(p, current) := foldl list_one (p, ∅) kvs in
  foldl (fun p addr => if decide (addr ∈ current) then p else remove p addr) p (map fst (map_to_list (clients p))).

(** [NewClientPicker] with a resolved address and the first listing. *)
Definition NewClientPicker (addr svc : string) (kvs : list string) : ClientPicker :=
  fetchAllServices (mkPicker addr svc (ring_add NewConsistentHash addr) ∅) kvs.

(** The peer, whether there is one, and whether it is this node; and the ring's counters. *)
Definition PickPeer (p : ClientPicker) (key : string) : outcome (option Client * bool * bool * ClientPicker) :=
  x ← CacheHash.Get HashFunc (consHash p) key;
  let '(addr, ring) := x in
  let p' := mkPicker (selfAddr p) (svcName p) ring (clients p) in
  Ret (if bool_decide (addr = "") then (None, false, false, p')
       else if bool_decide (addr = selfAddr p) then (None, true, true, p')
       else match clients p !! addr with
            | Some client => (Some client, true, false, p')
            | None => (None, false, false, p')
            end).

(** ** The points of a ring *)

Definition point (node : string) (i : nat) : Z := HashFunc (replica_name node i).
Definition has_point (node : string) (k : Z) : Prop := exists i, (i < Z.to_nat DefaultReplicas)%nat /\ k = point node i.

Definition members (m : ConsistentHashMap) : gset string := dom (nodeHashes m).

(** The points of the nodes of [A] do not collide. *)
Definition apart (A : gset string) : Prop := forall n n' k, n ∈ A -> n' ∈ A -> has_point n k -> has_point n' k -> n = n'.

Definition ring_full (m : ConsistentHashMap) : Prop :=
  forall node hs, nodeHashes m !! node = Some hs -> forall k, k ∈ hs <-> has_point node k.

Lemma add_replicas_full node rs : forall ks hm hashes,
  (forall k, hm !! k = Some node <-> k ∈ hashes) -> (forall i n, i ∈ rs -> hm !! point node i = Some n -> n = node) ->
  forall k, k ∈ (add_replicas HashFunc node rs ks hm hashes).2 <-> k ∈ hashes \/ exists i, i ∈ rs /\ k = point node i.
Proof.
  induction rs as [| i rs IH]; intros ks hm hashes Hh Ho k; cbn [add_replicas]; [set_solver |]. change (HashFunc (replica_name node i)) with (point node i).
  destruct (hm !! point node i) as [n |] eqn:E.
  - assert (n = node) as -> by (apply (Ho i); [set_solver | done]). apply Hh in E. rewrite IH; [set_solver | done |].
    intros j n Hj. apply Ho. set_solver.
  - rewrite IH; [set_solver | |].
    + intros k'. destruct (decide (k' = point node i)) as [-> | Hne]; [rewrite lookup_insert_eq; set_solver |].
      rewrite lookup_insert_ne, Hh by done. set_solver.
    + intros j n Hj. destruct (decide (point node i = point node j)) as [Ee | Hne]; [rewrite Ee, lookup_insert_eq; congruence |].
      rewrite lookup_insert_ne by done. apply Ho. set_solver.
Qed.

(** *** Adding and removing a node *)

Lemma ring_add_Ok m addr : Add HashFunc DefaultReplicas m [addr] = Ok (ring_add m addr).
Proof. done. Qed.

Lemma ring_add_spec m addr : ring_wf m -> ring_wf (ring_add m addr) /\ grows [addr] m (ring_add m addr).
Proof. intros Hw. by eapply (Add_spec HashFunc DefaultReplicas), ring_add_Ok. Qed.

(** The hashes of the nodes, when [addr] is added. *)
Lemma ring_add_hashes m addr : addr <> "" ->
  nodeHashes (ring_add m addr) =
  match nodeHashes m !! addr with
  | Some _ => nodeHashes m
  | None => <[addr := (add_replicas HashFunc addr (seq 0 (Z.to_nat DefaultReplicas)) (keys m) (hashMap m) []).2]> (nodeHashes m)
  end.
Proof.
  intros Hne. unfold ring_add, Add. cbn [foldl]. rewrite bool_decide_false by done. cbn [nodeHashes]. unfold addNodeLocked.
  destruct (nodeHashes m !! addr); [done |]. by destruct (add_replicas _ _ _ _ _ _) as [[ks hm] hashes].
Qed.

Lemma ring_add_members m addr : addr <> "" -> members (ring_add m addr) = {[addr]} ∪ members m.
Proof.
  intros Hne. unfold members. rewrite ring_add_hashes by done. destruct (nodeHashes m !! addr) eqn:E; [| by rewrite dom_insert_L].
  apply elem_of_dom_2 in E. set_solver.
Qed.

Lemma ring_add_full m addr :
  ring_wf m -> ring_full m -> addr <> "" -> apart ({[addr]} ∪ members m) -> ring_full (ring_add m addr).
Proof.
  intros Hw Hf Hne Ha node hs. rewrite ring_add_hashes by done. destruct (nodeHashes m !! addr) eqn:E; [apply Hf |].
  intros [[<- <-] | [_ Hn]]%lookup_insert_Some; [| by apply Hf]. intros k. rewrite add_replicas_full.
  - split; [intros [[]%not_elem_of_nil | (i & Hi%elem_of_seq & ->)]; exists i; (split; [lia | done]) |].
    intros (i & Hi & ->). right. exists i. split; [apply elem_of_seq; lia | done].
  - intros k'. split; [| by intros []%not_elem_of_nil]. intros (hs & Hh & _)%(rw_nodes _ Hw). congruence.
  - intros i n Hi%elem_of_seq (hs & Hh & Hin)%(rw_nodes _ Hw). apply (Hf _ _ Hh) in Hin.
    apply (Ha n addr (point addr i)); [apply elem_of_dom_2 in Hh; set_solver | set_solver | done |]. exists i. split; [lia | done].
Qed.

(** The first node has a point. *)
Lemma ring_add_first addr : addr <> "" -> 0 < DefaultReplicas ->
  exists hs, nodeHashes (ring_add NewConsistentHash addr) !! addr = Some hs /\ hs <> [].
Proof.
  intros Hne Hr. rewrite ring_add_hashes by done. eexists. split; [apply lookup_insert_eq |]. intros Hnil.
  assert (Hin : point addr 0 ∈ ([] : list Z)); [| by apply not_elem_of_nil in Hin]. rewrite <- Hnil. apply add_replicas_full.
  - intros k. split; [done | by intros []%not_elem_of_nil].
  - done.
  - right. exists 0%nat. split; [apply elem_of_seq; lia | done].
Qed.

Lemma ring_remove_hashes m addr : ring_wf m -> ring_wf (ring_remove m addr) /\ nodeHashes (ring_remove m addr) = delete addr (nodeHashes m).
Proof.
  intros Hw. unfold ring_remove. destruct (Remove m addr) as [m' | e] eqn:E; [by destruct (Remove_spec HashFunc m addr m' Hw E) as (H1 & H2 & _) |].
  split; [done |]. symmetry. apply delete_id. destruct (nodeHashes m !! addr) eqn:Eh; [| done]. exfalso. unfold Remove in E.
  rewrite bool_decide_false in E by (apply (rw_named _ Hw); by eexists). unfold removeNodeLocked in E. by rewrite Eh in E.
Qed.

(** ** Rings of the same nodes *)

Lemma hash_points m k n : ring_wf m -> ring_full m -> hashMap m !! k = Some n <-> n ∈ members m /\ has_point n k.
Proof.
  intros Hw Hf. rewrite (rw_nodes _ Hw). split.
  - intros (hs & Hh & Hin). split; [by apply elem_of_dom_2 in Hh | by apply (Hf _ _ Hh)].
  - intros [Hd Hp]. unfold members in Hd. apply elem_of_dom in Hd as [hs Hh]. exists hs. split; [done | by apply (Hf _ _ Hh)].
Qed.

(** A ring without collisions is determined by its nodes. *)
Lemma ring_determined m m' key :
  ring_wf m -> ring_full m -> ring_wf m' -> ring_full m' -> members m = members m' -> owner HashFunc m key = owner HashFunc m' key.
Proof.
  intros Hw Hf Hw' Hf' Hm. assert (Hh : hashMap m = hashMap m').
  { apply map_eq. intros k. apply option_eq. intros n. rewrite !hash_points by done. by rewrite Hm. }
  assert (Hk : keys m = keys m'); [| unfold owner; by rewrite Hk, Hh].
  apply (StronglySorted_unique Z.le); [apply Hw | apply Hw' |]. apply NoDup_Permutation; [apply Hw | apply Hw' |].
  intros x. by rewrite (rw_keys _ Hw), (rw_keys _ Hw'), Hh.
Qed.

(** ** The invariant of a picker

    The ring holds this node and the peers with a client, and this node has a point.
    [A] holds the addresses that ever appear. *)
Record picker_wf (A : gset string) (p : ClientPicker) : Prop := {
  pw_ring : ring_wf (consHash p);
  pw_members : members (consHash p) = {[selfAddr p]} ∪ dom (clients p);
  pw_self : selfAddr p <> "" /\ clients p !! selfAddr p = None;
  pw_point : exists hs, nodeHashes (consHash p) !! selfAddr p = Some hs /\ hs <> [];
  pw_client addr c : clients p !! addr = Some c -> cl_addr c = addr /\ dials addr = true;
  pw_in : members (consHash p) ⊆ A;
  pw_full : apart A -> ring_full (consHash p)
}.

Definition same_id (p p' : ClientPicker) : Prop := selfAddr p' = selfAddr p /\ svcName p' = svcName p.

Lemma apart_mono A B : A ⊆ B -> apart B -> apart A.
Proof. intros H Ha n n' k Hn Hn'. apply Ha; auto. Qed.

(** A peer that is found gets a client, if gRPC takes its address. *)
Lemma found_spec A p addr :
  picker_wf A p -> skips p addr = false -> addr ∈ A ->
  picker_wf A (found p addr) /\ same_id p (found p addr) /\
  dom (clients (found p addr)) = (if dials addr then {[addr]} else ∅) ∪ dom (clients p).
Proof.
  intros HW HS HA. pose proof HW as [H1 H2 [H3 H3'] (hs & H4 & H4') H5 H6 H7]. apply orb_false_iff in HS as [Hne Hself].
  apply bool_decide_eq_false in Hne, Hself. unfold found. destruct (clients p !! addr) as [c |] eqn:E.
  { split; [done |]. split; [done |]. destruct (H5 _ _ E) as [_ ->]. apply elem_of_dom_2 in E. set_solver. }
  unfold set_, NewClient. destruct (dials addr) eqn:Ed; [| split_and!; [done | done | set_solver]].
  destruct (ring_add_spec (consHash p) addr H1) as [Hw Hg]. pose proof (ring_add_members (consHash p) addr Hne) as Hm.
  split; [| split; [done |]; cbn [clients]; by rewrite dom_insert_L]. split; cbn [consHash selfAddr clients].
  - done.
  - rewrite Hm, H2, dom_insert_L. set_solver.
  - split; [done |]. by rewrite lookup_insert_ne.
  - exists hs. split; [by apply (gr_keep _ _ _ Hg) | done].
  - intros a c. intros [[<- <-] | [_ Ha]]%lookup_insert_Some; [done | by apply H5].
  - rewrite Hm. set_solver.
  - intros Ha. apply ring_add_full; [done | by apply H7 | done |]. eapply apart_mono; [| done]. set_solver.
Qed.

Lemma remove_peer_spec A p addr :
  picker_wf A p -> addr <> selfAddr p ->
  picker_wf A (remove p addr) /\ same_id p (remove p addr) /\ dom (clients (remove p addr)) = dom (clients p) ∖ {[addr]}.
Proof.
  intros [H1 H2 [H3 H3'] (hs & H4 & H4') H5 H6 H7] Hne. destruct (ring_remove_hashes (consHash p) addr H1) as [Hw Hh].
  assert (Hm : members (ring_remove (consHash p) addr) = members (consHash p) ∖ {[addr]}) by (unfold members; by rewrite Hh, dom_delete_L).
  split; [| split; [done |]; cbn [remove clients]; by rewrite dom_delete_L]. split; cbn [remove consHash selfAddr clients].
  - done.
  - rewrite Hm, H2, dom_delete_L. set_solver.
  - split; [done |]. by rewrite lookup_delete_ne.
  - exists hs. split; [by rewrite Hh, lookup_delete_ne | done].
  - intros a c [_ Ha]%lookup_delete_Some. by apply H5.
  - rewrite Hm. set_solver.
  - intros Ha node hs' Hn. rewrite Hh in Hn. apply lookup_delete_Some in Hn as [_ Hn]. by apply (H7 Ha).
Qed.

(** ** Following the registry *)

Definition event_key (e : Event) : string := match e with EventTypePut key | EventTypeDelete key => key end.

(** Keys of the registry whose addresses are in [A]. *)
Definition allowed (A : gset string) (p : ClientPicker) (key : string) : Prop := skips p (addrFromEventKey p key) = false -> addrFromEventKey p key ∈ A.

Lemma allowed_same A p p' key : same_id p p' -> allowed A p key -> allowed A p' key.
Proof. unfold allowed, skips, addrFromEventKey, servicePrefix. by intros [-> ->]. Qed.

(** The peers that a node wants, of the keys in the registry. *)
Definition wanted (p : ClientPicker) (keys : gset string) : gset string :=
  filter (fun addr => skips p addr = false /\ dials addr = true) (set_map (addrFromEventKey p) keys).

Lemma wanted_same p p' keys : same_id p p' -> wanted p' keys = wanted p keys.
Proof. unfold wanted, skips, addrFromEventKey, servicePrefix. by intros [-> ->]. Qed.

Lemma elem_of_wanted p keys a :
  a ∈ wanted p keys <-> (skips p a = false /\ dials a = true) /\ exists k, a = addrFromEventKey p k /\ k ∈ keys.
Proof. unfold wanted. by rewrite elem_of_filter, elem_of_map. Qed.

Lemma wanted_put p key keys (a := addrFromEventKey p key) :
  wanted p ({[key]} ∪ keys) = (if negb (skips p a) && dials a then {[a]} else ∅) ∪ wanted p keys.
Proof.
  apply set_eq. intros x. rewrite elem_of_union, !elem_of_wanted. split.
  - intros (Hp & k & -> & [->%elem_of_singleton | Hin]%elem_of_union); [left | right; eauto]. destruct Hp as [H1 H2]. unfold a. rewrite H1, H2. set_solver.
  - intros [Hx | (Hp & k & -> & Hin)]; [| split; [done |]; exists k; set_solver]. destruct (skips p a) eqn:E1, (dials a) eqn:E2; cbn in Hx; set_solver.
Qed.

(** The registry after an event. *)
Definition registry_after (keys : gset string) (e : Event) : gset string :=
  match e with EventTypePut key => {[key]} ∪ keys | EventTypeDelete key => keys ∖ {[key]} end.

Definition under_prefix (p : ClientPicker) (key : string) : Prop := exists addr, key = servicePrefix p +:+ addr.

Lemma trim_app a b : TrimPrefix (a +:+ b) a = b.
Proof.
  unfold TrimPrefix. assert (H : String.prefix a (a +:+ b) = true).
  { induction a as [| c a IH]; [by destruct b |]. rewrite app_String. cbn [String.prefix]. by destruct (Ascii.ascii_dec c c). }
  rewrite H, string_length_app. replace (String.length a + String.length b - String.length a)%nat with (String.length b) by lia.
  clear H. induction a as [| c a IH]; [| by rewrite app_String; cbn [String.length String.substring]].
  rewrite app_Empty. cbn [String.length]. induction b as [| c b IH]; [done |]. cbn [String.length String.substring]. by f_equal.
Qed.

Lemma trim_inj p k k' : under_prefix p k -> under_prefix p k' -> addrFromEventKey p k = addrFromEventKey p k' -> k = k'.
Proof. intros [a ->] [b ->]. unfold addrFromEventKey. rewrite !trim_app. congruence. Qed.

Lemma handle_event_spec A p e keys :
  picker_wf A p -> allowed A p (event_key e) ->
  picker_wf A (handle_event p e) /\ same_id p (handle_event p e) /\
  (dom (clients p) = wanted p keys -> set_Forall (under_prefix p) keys -> under_prefix p (event_key e) ->
   dom (clients (handle_event p e)) = wanted p (registry_after keys e)).
Proof.
  intros HW HA. destruct e as [key | key]; cbn [handle_event event_key registry_after] in *; unfold allowed in HA.
  - destruct (skips p (addrFromEventKey p key)) eqn:ES.
    + split; [done |]. split; [done |]. intros -> _ _. rewrite wanted_put, ES. cbn [negb andb]. by rewrite (left_id_L ∅ (∪)).
    + destruct (found_spec A p _ HW ES (HA eq_refl)) as (H1 & H2 & ->). split; [done |]. split; [done |]. intros -> _ _. by rewrite wanted_put, ES.
  - assert (HK : dom (clients p) = wanted p keys -> set_Forall (under_prefix p) keys -> under_prefix p key ->
      wanted p (keys ∖ {[key]}) = dom (clients p) ∖ {[addrFromEventKey p key]}).
    { intros -> HU Hk. apply set_eq. intros a. rewrite elem_of_difference, !elem_of_wanted, elem_of_singleton. split.
      - intros (Hp & k & -> & [Hin Hne%not_elem_of_singleton]%elem_of_difference). split; [eauto |]. intros E. apply Hne. apply (trim_inj p); auto.
      - intros [(Hp & k & -> & Hin) Hne]. split; [done |]. exists k. split; [done |]. apply elem_of_difference. split; [done |].
        apply not_elem_of_singleton. congruence. }
    destruct (skips p (addrFromEventKey p key)) eqn:ES.
    + split; [done |]. split; [done |]. intros H1 H2 H3. rewrite (HK H1 H2 H3), H1. apply set_eq. intros a.
      rewrite elem_of_difference, elem_of_wanted, elem_of_singleton. split; [| naive_solver]. intros H. split; [done |]. intros ->. destruct H as [[H _] _]. congruence.
    + destruct (clients p !! addrFromEventKey p key) as [c |] eqn:Ec.
      * apply orb_false_iff in ES as [_ Hself%bool_decide_eq_false]. destruct (remove_peer_spec A p _ HW Hself) as (H1 & H2 & H3).
        split; [done |]. split; [done |]. intros. by rewrite H3, HK.
      * split; [done |]. split; [done |]. intros H1 H2 H3. rewrite (HK H1 H2 H3). apply not_elem_of_dom in Ec. set_solver.
Qed.

Lemma same_id_trans p p' p'' : same_id p p' -> same_id p' p'' -> same_id p p''.
Proof. unfold same_id. intros [-> ->] [-> ->]. done. Qed.

Lemma under_same p p' key : same_id p p' -> under_prefix p key -> under_prefix p' key.
Proof. unfold under_prefix, servicePrefix. by intros [_ ->]. Qed.

Lemma handleWatchEvents_spec A es : forall p keys,
  picker_wf A p -> Forall (fun e => allowed A p (event_key e)) es ->
  picker_wf A (handleWatchEvents p es) /\ same_id p (handleWatchEvents p es) /\
  (dom (clients p) = wanted p keys -> set_Forall (under_prefix p) keys -> Forall (fun e => under_prefix p (event_key e)) es ->
   dom (clients (handleWatchEvents p es)) = wanted p (foldl registry_after keys es)).
Proof.
  induction es as [| e es IH]; intros p keys HW HA; [by split_and!|]. apply Forall_cons in HA as [HA HA'].
  destruct (handle_event_spec A p e keys HW HA) as (H1 & H2 & H3). cbn [handleWatchEvents foldl].
  destruct (IH (handle_event p e) (registry_after keys e) H1) as (G1 & G2 & G3).
  { eapply Forall_impl; [done |]. intros x. by apply allowed_same. }
  split; [done |]. split; [by eapply same_id_trans |]. intros Hd HU HE. apply Forall_cons in HE as [HE HE'].
  rewrite <- (wanted_same p (handle_event p e)) by done. apply G3.
  - rewrite (wanted_same p) by done. by apply H3.
  - intros k Hk. apply (under_same p); [done |]. destruct e as [key | key]; cbn in Hk.
    + apply elem_of_union in Hk as [->%elem_of_singleton | Hk]; [done | by apply HU].
    + apply elem_of_difference in Hk as [Hk _]. by apply HU.
  - eapply Forall_impl; [done |]. intros x. by apply under_same.
Qed.

(** The first loop: the peers that are listed are found. *)
Lemma list_spec A kvs : forall p cur p' cur',
  picker_wf A p -> Forall (allowed A p) kvs -> foldl list_one (p, cur) kvs = (p', cur') ->
  picker_wf A p' /\ same_id p p' /\
  (forall a, a ∈ cur' <-> a ∈ cur \/ skips p a = false /\ exists k, k ∈ kvs /\ a = addrFromEventKey p k) /\
  dom (clients p') = dom (clients p) ∪ wanted p (list_to_set kvs).
Proof.
  induction kvs as [| key kvs IH]; intros p cur p' cur' HW HA E.
  { injection E as <- <-. split_and!; [done | done | set_solver |]. apply set_eq. intros a. rewrite elem_of_union, elem_of_wanted. set_solver. }
  apply Forall_cons in HA as [HA HA']. cbn [foldl list_one] in E. rewrite list_to_set_cons, wanted_put. unfold allowed in HA.
  destruct (skips p (addrFromEventKey p key)) eqn:ES.
  - destruct (IH p cur p' cur' HW HA' E) as (H1 & H2 & H3 & H4). split_and!; [done | done | | cbn [negb andb]; by rewrite H4, (left_id_L ∅ (∪))].
    intros a. rewrite H3. split; [intros [? | (? & k & ? & ?)]; [by left | right; split; [done |]; exists k; by split; [right |]] |].
    intros [? | (Hs & k & [-> | Hk]%elem_of_cons & ->)]; [by left | congruence | right; eauto].
  - destruct (found_spec A p _ HW ES (HA eq_refl)) as (G1 & G2 & G3).
    assert (HA2 : Forall (allowed A (found p (addrFromEventKey p key))) kvs) by (eapply Forall_impl; [done |]; intros x; by apply allowed_same).
    destruct (IH _ _ p' cur' G1 HA2 E) as (H1 & H2 & H3 & H4).
    rewrite (wanted_same p) in H4 by done. split_and!; [done | by eapply same_id_trans | | rewrite H4, G3; cbn [negb andb]; clear; set_solver].
    intros a. rewrite H3, elem_of_union, elem_of_singleton. unfold addrFromEventKey, skips, servicePrefix in *. destruct G2 as [-> ->]. split.
    + intros [[-> | ?] | (? & k & ? & ?)]; [right | by left | right]; (split; [done |]); eexists; (split; [| done]); [left | by right].
    + intros [? | (Hs & k & [-> | Hk]%elem_of_cons & ->)]; [auto | auto | right; eauto].
Qed.

(** The second loop: the peers that are not listed are removed. *)
Lemma drop_spec A (cur : gset string) l : forall p,
  picker_wf A p -> Forall (fun a => a <> selfAddr p) l ->
  let p' := foldl (fun p addr => if decide (addr ∈ cur) then p else remove p addr) p l in
  picker_wf A p' /\ same_id p p' /\ dom (clients p') = filter (fun a => a ∈ cur \/ a ∉ l) (dom (clients p)).
Proof.
  induction l as [| a l IH]; intros p HW HL; cbn [foldl].
  { split_and!; [done | done |]. apply set_eq. intros x. rewrite elem_of_filter. split; [intros Hx; split; [right; apply not_elem_of_nil | done] | by intros []]. }
  apply Forall_cons in HL as [Ha HL]. case_decide as Ec.
  - destruct (IH p HW HL) as (H1 & H2 & H3). split_and!; [done | done |]. rewrite H3. apply set_eq. intros x. rewrite !elem_of_filter, not_elem_of_cons.
    destruct (decide (x = a)) as [-> | Hne]; naive_solver.
  - destruct (remove_peer_spec A p a HW Ha) as (G1 & G2 & G3). destruct (IH (remove p a) G1) as (H1 & H2 & H3); [by destruct G2 as [-> _] |].
    split_and!; [done | by eapply same_id_trans |]. rewrite H3, G3. apply set_eq. intros x.
    rewrite !elem_of_filter, not_elem_of_cons, elem_of_difference, elem_of_singleton. destruct (decide (x = a)) as [-> | Hne]; naive_solver.
Qed.

Lemma fetchAllServices_spec A p kvs :
  picker_wf A p -> Forall (allowed A p) kvs ->
  picker_wf A (fetchAllServices p kvs) /\ same_id p (fetchAllServices p kvs) /\
  dom (clients (fetchAllServices p kvs)) = wanted p (list_to_set kvs).
Proof.
  intros HW HA. unfold fetchAllServices. destruct (foldl list_one (p, ∅) kvs) as [p1 cur] eqn:E.
  destruct (list_spec A kvs p ∅ p1 cur HW HA E) as (H1 & H2 & H3 & H4).
  destruct (drop_spec A cur (map fst (map_to_list (clients p1))) p1 H1) as (G1 & G2 & G3).
  { apply Forall_forall. intros a Ha ->. apply list_elem_of_fmap in Ha as ([a c] & Ea & Hin). cbn in Ea. subst a. apply elem_of_map_to_list in Hin.
    destruct (pw_self _ _ H1) as [_ Hs]. congruence. }
  split; [done |]. split; [by eapply same_id_trans |]. rewrite G3, H4. apply set_eq. intros a.
  rewrite elem_of_filter, elem_of_union, elem_of_wanted, H3. setoid_rewrite elem_of_list_to_set. split.
  - intros [[[Hc | (Hs & k & Hk & ->)] | Hn] Hd]; [set_solver | |].
    + split; [| eauto]. split; [done |]. destruct Hd as [Hd | [[_ Hd] _]]; [| done]. apply elem_of_dom in Hd as [c Hc].
      by destruct (pw_client _ _ HW _ _ Hc).
    + exfalso. apply Hn. assert (Hd' : a ∈ dom (clients p1)) by (rewrite H4; destruct Hd as [? | Hd]; [set_solver |];
        apply elem_of_union; right; apply elem_of_wanted; destruct Hd as (Hp & k & -> & Hk); split; [done |]; exists k; by rewrite elem_of_list_to_set).
      apply elem_of_dom in Hd' as [c Hc]. apply list_elem_of_fmap. exists (a, c). split; [done | by apply elem_of_map_to_list].
  - intros [[Hs Hd] (k & -> & Hk)]. split; [left; right; eauto | right; eauto].
Qed.

(** ** Histories *)

(** What a picker goes through: it is made, lists, follows events, and picks. *)
Inductive history (A : gset string) : ClientPicker -> Prop :=
  | hi_new addr svc kvs :
      addr <> "" -> addr ∈ A -> Forall (allowed A (mkPicker addr svc (ring_add NewConsistentHash addr) ∅)) kvs ->
      history A (NewClientPicker addr svc kvs)
  | hi_fetch p kvs : history A p -> Forall (allowed A p) kvs -> history A (fetchAllServices p kvs)
  | hi_watch p es : history A p -> Forall (fun e => allowed A p (event_key e)) es -> history A (handleWatchEvents p es)
  | hi_pick p key r p' : history A p -> PickPeer p key = Ret (r, p') -> history A p'.

Context (HR : 0 < DefaultReplicas).

Lemma new_wf A addr svc : addr <> "" -> addr ∈ A -> picker_wf A (mkPicker addr svc (ring_add NewConsistentHash addr) ∅).
Proof.
  intros Hne HA. destruct (ring_add_spec NewConsistentHash addr ring_New_wf) as [Hw _].
  pose proof (ring_add_members NewConsistentHash addr Hne) as Hm. unfold members at 2 in Hm. cbn [NewConsistentHash nodeHashes] in Hm.
  rewrite dom_empty_L, (right_id_L ∅ (∪)) in Hm. split; cbn [consHash clients selfAddr].
  - done.
  - by rewrite Hm, dom_empty_L, (right_id_L ∅ (∪)).
  - done.
  - by apply ring_add_first.
  - by intros a c Hc.
  - rewrite Hm. by apply singleton_subseteq_l.
  - intros Ha. apply ring_add_full; [apply ring_New_wf | done | done |]. eapply apart_mono; [| done].
    unfold members. cbn [NewConsistentHash nodeHashes]. rewrite dom_empty_L, (right_id_L ∅ (∪)). by apply singleton_subseteq_l.
Qed.

Lemma PickPeer_spec A p key :
  picker_wf A p -> key <> "" ->
  exists p', picker_wf A p' /\ same_id p p' /\
    (owner HashFunc (consHash p) key = selfAddr p /\ PickPeer p key = Ret (None, true, true, p') \/
     exists c, clients p !! owner HashFunc (consHash p) key = Some c /\ cl_addr c = owner HashFunc (consHash p) key /\
       PickPeer p key = Ret (Some c, true, false, p')).
Proof.
  intros HW Hkey. pose proof HW as [H1 H2 [H3 H3'] (hs & H4 & H4') H5 H6 H7].
  assert (Hk : keys (consHash p) <> []).
  { destruct hs as [| k hs]; [done |]. assert (Hin : k ∈ keys (consHash p)).
    { apply (rw_keys _ H1). exists (selfAddr p). apply (rw_nodes _ H1). exists (k :: hs). split; [done | left]. }
    intros E. rewrite E in Hin. by apply not_elem_of_nil in Hin. }
  destruct (Get_spec HashFunc (consHash p) key H1 Hkey) as (m' & Eg & K1 & K2 & K3).
  destruct (Get_owner HashFunc (consHash p) key H1 Hk Hkey) as (_ & _ & _ & _ & Ho).
  exists (mkPicker (selfAddr p) (svcName p) m' (clients p)). split; [| split; [done |]].
  { split; cbn [consHash selfAddr clients]; try done.
    - destruct H1. split; [by rewrite K1 | by rewrite K1 | by rewrite K1, K2 | by rewrite K2, K3 | by rewrite K3].
    - unfold members. by rewrite K3.
    - exists hs. by rewrite K3.
    - unfold members. by rewrite K3.
    - intros Ha. unfold ring_full. rewrite K3. by apply H7. }
  unfold PickPeer. rewrite Eg. cbn [mbind outcome_bind]. apply elem_of_dom in Ho. change (owner HashFunc (consHash p) key ∈ members (consHash p)) in Ho.
  assert (Hne : owner HashFunc (consHash p) key <> "") by (apply (rw_named _ H1); by apply elem_of_dom).
  rewrite bool_decide_false by done. rewrite H2 in Ho. apply elem_of_union in Ho as [Ho%elem_of_singleton | [c Hc]%elem_of_dom].
  - left. split; [done |]. by rewrite bool_decide_true.
  - right. exists c. destruct (H5 _ _ Hc) as [Hca _]. split_and!; try done. rewrite bool_decide_false; [by rewrite Hc |]. intros E. rewrite E in Hc. congruence.
Qed.

Lemma history_wf A p : history A p -> picker_wf A p.
Proof.
  induction 1 as [addr svc kvs Hne HA Hall | p kvs _ IH Hall | p es _ IH Hall | p key r p' _ IH E].
  - apply fetchAllServices_spec; [by apply new_wf | done].
  - by apply fetchAllServices_spec.
  - by apply (handleWatchEvents_spec A es p ∅).
  - destruct (decide (key = "")) as [-> | Hkey].
    + unfold PickPeer, CacheHash.Get in E. cbn in E. injection E as <- <-. by destruct p.
    + destruct (PickPeer_spec A p key IH Hkey) as (p1 & HW & _ & [[_ E1] | (c & _ & _ & E1)]); rewrite E1 in E; by injection E as <- <-.
Qed.

(** The address of the node that a picker takes for the owner of a key. *)
Definition picked (p : ClientPicker) (key : string) : option string :=
  match PickPeer p key with
  | Ret (Some client, true, false, _) => Some (cl_addr client)
  | Ret (None, true, true, _) => Some (selfAddr p)
  | _ => None
  end.

Lemma picked_owner A p key : picker_wf A p -> key <> "" -> picked p key = Some (owner HashFunc (consHash p) key).
Proof.
  intros HW Hkey. unfold picked. destruct (PickPeer_spec A p key HW Hkey) as (p' & _ & _ & [[-> ->] | (c & _ & <- & ->)]); done.
Qed.

(** whatever listings and events a picker has seen, it has an answer for every key:
    this node, or a peer it holds a client for. *)
Theorem pick_has_answer A p key :
  history A p -> key <> "" ->
  exists p', history A p' /\
    (PickPeer p key = Ret (None, true, true, p') \/
     exists c, clients p !! cl_addr c = Some c /\ cl_addr c <> selfAddr p /\ PickPeer p key = Ret (Some c, true, false, p')).
Proof.
  intros HH Hkey. pose proof (history_wf A p HH) as HW. destruct (PickPeer_spec A p key HW Hkey) as (p' & _ & _ & [[_ E] | (c & Hc & Ea & E)]); exists p'.
  - split; [by eapply hi_pick | by left].
  - split; [by eapply hi_pick |]. right. exists c. rewrite Ea. split_and!; [done | | done]. intros Es. rewrite Es in Hc.
    destruct (pw_self _ _ HW) as [_ Hs]. congruence.
Qed.

(** C23: the peers of a picker are those in the registry: it lists the keys under the prefix
    of its service, follows every event after that, and then holds a client for every
    address there that is not its own and that gRPC takes, and for no other. *)
Theorem peers_follow_registry A p kvs es :
  history A p -> Forall (allowed A p) kvs -> Forall (fun e => allowed A p (event_key e)) es ->
  Forall (under_prefix p) kvs -> Forall (fun e => under_prefix p (event_key e)) es ->
  dom (clients (handleWatchEvents (fetchAllServices p kvs) es)) = wanted p (foldl registry_after (list_to_set kvs) es).
Proof.
  intros HH HA HE HU HUe. destruct (fetchAllServices_spec A p kvs (history_wf A p HH) HA) as (H1 & H2 & H3).
  destruct (handleWatchEvents_spec A es (fetchAllServices p kvs) (list_to_set kvs) H1) as (_ & _ & G).
  { eapply Forall_impl; [exact HE |]. intros x. by apply allowed_same. }
  rewrite <- (wanted_same p (fetchAllServices p kvs)) by done. apply G.
  - by rewrite (wanted_same p).
  - intros k Hk%elem_of_list_to_set. apply (under_same p); [done |]. by apply (proj1 (Forall_forall _ _) HU).
  - eapply Forall_impl; [exact HUe |]. intros x. by apply under_same.
Qed.

Lemma members_registered A p keys :
  picker_wf A p -> dom (clients p) = wanted p keys -> servicePrefix p +:+ selfAddr p ∈ keys ->
  set_Forall (fun k => dials (addrFromEventKey p k) = true) keys ->
  members (consHash p) = set_map (addrFromEventKey p) keys ∖ {[""]}.
Proof.
  intros HW Hd Hs Hdial. rewrite (pw_members _ _ HW), Hd. destruct (pw_self _ _ HW) as [Hne _].
  assert (Ha : addrFromEventKey p (servicePrefix p +:+ selfAddr p) = selfAddr p) by apply trim_app.
  apply set_eq. intros a. rewrite elem_of_union, elem_of_difference, !elem_of_singleton, elem_of_wanted, elem_of_map. unfold skips. split.
  - intros [-> | ([Hsk _] & k & -> & Hk)]; [split; [by exists (servicePrefix p +:+ selfAddr p) | done] |].
    apply orb_false_iff in Hsk as [Hz%bool_decide_eq_false _]. split; [by exists k | done].
  - intros [(k & -> & Hk) Hz]. destruct (decide (addrFromEventKey p k = selfAddr p)) as [E | E]; [by left | right].
    split; [| by exists k]. split; [| by apply Hdial]. by rewrite !bool_decide_false.
Qed.

(** C22: nodes of one service that have seen the same registry, with themselves in it, send
    every key to the same node, whatever they have seen before and in whatever order -
    provided that the points of the addresses do not collide. *)
Theorem same_registry_agree A p q keys key :
  history A p -> history A q -> apart A -> svcName p = svcName q -> key <> "" ->
  dom (clients p) = wanted p keys -> dom (clients q) = wanted q keys ->
  servicePrefix p +:+ selfAddr p ∈ keys -> servicePrefix q +:+ selfAddr q ∈ keys ->
  set_Forall (fun k => dials (addrFromEventKey p k) = true) keys ->
  exists addr, picked p key = Some addr /\ picked q key = Some addr.
Proof.
  intros Hp Hq HA Hsvc Hkey Dp Dq Sp Sq Hd. apply history_wf in Hp, Hq. exists (owner HashFunc (consHash p) key).
  split; [by eapply picked_owner |]. rewrite (picked_owner A q) by done. f_equal. symmetry.
  apply ring_determined; [apply Hp | by apply (pw_full _ _ Hp) | apply Hq | by apply (pw_full _ _ Hq) |].
  assert (Ea : addrFromEventKey p = addrFromEventKey q) by (unfold addrFromEventKey, servicePrefix; by rewrite Hsvc).
  rewrite (members_registered A p keys), (members_registered A q keys) by (try done; by rewrite <- Ea). by rewrite Ea.
Qed.

End Picker.

(** ** Two nodes of a service *)

Definition takes_all (_ : string) : bool := true.
Definition pair_ab : gset string := {["10.0.0.1:80"; "10.0.0.2:80"]}.
Definition key_a : string := "/services/s/10.0.0.1:80".
Definition key_b : string := "/services/s/10.0.0.2:80".
Definition node_a : ClientPicker := NewClientPicker ex_hash 2 takes_all "10.0.0.1:80" "s" [key_a; key_b].
Definition node_b : ClientPicker := handleWatchEvents ex_hash 2 takes_all (NewClientPicker ex_hash 2 takes_all "10.0.0.2:80" "s" [key_b]) [EventTypePut key_a].

Lemma node_a_history : history ex_hash 2 takes_all pair_ab node_a.
Proof. apply hi_new; [done | set_solver |]. repeat constructor; intros _; apply bool_decide_unpack; by vm_compute. Qed.

Lemma node_b_history : history ex_hash 2 takes_all pair_ab node_b.
Proof.
  apply hi_watch; [apply hi_new; [done | set_solver |] |]; repeat constructor; intros _; apply bool_decide_unpack; by vm_compute.
Qed.

Lemma pair_apart : apart ex_hash 2 pair_ab.
Proof.
  assert (H2 : forall n k, has_point ex_hash 2 n k -> k = point ex_hash n 0 \/ k = point ex_hash n 1).
  { intros n k (i & Hi & ->). destruct i as [| [| i]]; [by left | by right | lia]. }
  intros n n' k Hn Hn' [H | H]%H2 [H' | H']%H2; rewrite H in H'; clear H H2; revert H';
    apply elem_of_union in Hn as [->%elem_of_singleton | ->%elem_of_singleton]; apply elem_of_union in Hn' as [->%elem_of_singleton | ->%elem_of_singleton];
    intros H'; first [reflexivity | exfalso; vm_compute in H'; discriminate].
Qed.

Lemma pick_has_answer_witness :
  exists p', history ex_hash 2 takes_all pair_ab p' /\
    (PickPeer ex_hash node_a "some key" = Ret (None, true, true, p') \/
     exists c, clients node_a !! cl_addr c = Some c /\ cl_addr c <> selfAddr node_a /\ PickPeer ex_hash node_a "some key" = Ret (Some c, true, false, p')).
Proof. apply (pick_has_answer ex_hash 2 takes_all eq_refl pair_ab node_a "some key"); [apply node_a_history | done]. Defined.

Lemma peers_follow_registry_witness :
  dom (clients (handleWatchEvents ex_hash 2 takes_all (fetchAllServices ex_hash 2 takes_all node_b [key_b]) [EventTypePut key_a; EventTypeDelete key_a])) =
  wanted takes_all node_b (foldl registry_after (list_to_set [key_b]) [EventTypePut key_a; EventTypeDelete key_a]).
Proof.
  apply (peers_follow_registry ex_hash 2 takes_all eq_refl pair_ab node_b); [apply node_b_history | ..];
    repeat constructor; try (intros _; apply bool_decide_unpack; by vm_compute); eexists; reflexivity.
Defined.

Lemma same_registry_agree_witness : exists addr, picked ex_hash node_a "some key" = Some addr /\ picked ex_hash node_b "some key" = Some addr.
Proof.
  apply (same_registry_agree ex_hash 2 takes_all eq_refl pair_ab node_a node_b {[key_a; key_b]});
    [apply node_a_history | apply node_b_history | apply pair_apart | reflexivity | done | vm_compute; reflexivity | vm_compute; reflexivity |
     apply (bool_decide_unpack _); by vm_compute | apply (bool_decide_unpack _); by vm_compute | by intros k _].
Defined.

(** * Cache: the registry of groups

    The package variable [groups] of [libs/yukino_cache/group.go]: groups are registered
    under their names, found, and destroyed.  Each definition is what runs under
    [groupsMu], or between two times that it is held, so that goroutines interleave
    between them. *)

(** A group, as far as the registry is concerned: whether it has peers, and is closed. *)
Record Group := mkGroup { g_name : string; g_peers : bool; g_closed : bool }.

(** The groups that were made, and those that are registered. *)
Record Registry := mkRegistry { made : list Group; groups : gmap string nat }.

Definition no_groups : Registry := mkRegistry [] ∅.

(** [WithPeers] is the option that matters here. *)
Definition NewGroup (r : Registry) (name : string) (getter : bool) (peers : bool) : outcome (nat * Registry) :=
  if negb getter then Panic "nil Getter"
  else match groups r !! name with
       | Some _ => Panic ("duplicate registration of group " +:+ name)
       | None => let g := length (made r) in
                 Ret (g, mkRegistry (made r ++ [mkGroup name peers false]) (<[name := g]> (groups r)))
       end.

Definition GetGroup (r : Registry) (name : string) : option nat := groups r !! name.

Definition GetAllGroups (r : Registry) : gmap string nat := groups r.

(** In the order of the map. *)
Definition ListGroups (r : Registry) : list string := map fst (map_to_list (groups r)).

Definition RegisterPeers (r : Registry) (g : nat) : outcome Registry :=
  match made r !! g with
  | None => Ret r
  | Some x => if g_peers x then Panic "RegisterPeers called more than once"
              else Ret (mkRegistry (<[g := mkGroup (g_name x) true (g_closed x)]> (made r)) (groups r))
  end.

(** [closed.CompareAndSwap(0, 1)]: whether this call closes the group. *)
Definition close_flag (r : Registry) (g : nat) : bool * Registry :=
  match made r !! g with
  | None => (false, r)
  | Some x => if g_closed x then (false, r)
              else (true, mkRegistry (<[g := mkGroup (g_name x) (g_peers x) true]> (made r)) (groups r))
  end.

(** [delete(groups, g.name)] *)
Definition unregister (r : Registry) (g : nat) : Registry :=
  match made r !! g with
  | None => r
  | Some x => mkRegistry (made r) (delete (g_name x) (groups r))
  end.

Definition Close (r : Registry) (g : nat) : Registry :=
  let '(first, r) := close_flag r g in if first then unregister r g else r.

(** What [DestroyGroup] does under the lock: the group leaves the registry. *)
Definition take (r : Registry) (name : string) : option nat * Registry :=
  match groups r !! name with
  | Some g => (Some g, mkRegistry (made r) (delete name (groups r)))
  | None => (None, r)
  end.

Definition DestroyGroup (r : Registry) (name : string) : bool * Registry :=
  match take r name with
  | (None, r) => (false, r)
  | (Some g, r) => (true, Close r g)
  end.

Definition take_all (r : Registry) : list nat * Registry := (map snd (map_to_list (groups r)), mkRegistry (made r) ∅).

Definition DestroyAllGroups (r : Registry) : Registry := let '(toClose, r) := take_all r in foldl Close r toClose.

(** ** Steps of goroutines *)

Inductive step (r : Registry) : Registry -> Prop :=
  | sp_new name peers g r' : NewGroup r name true peers = Ret (g, r') -> step r r'
  | sp_peers g r' : RegisterPeers r g = Ret r' -> step r r'
  | sp_flag g : step r (close_flag r g).2
  | sp_unregister g x : made r !! g = Some x -> g_closed x = true -> step r (unregister r g)
  | sp_take name : step r (take r name).2
  | sp_take_all : step r (take_all r).2.

(** A name stands for a group of that name. *)
Definition registry_wf (r : Registry) : Prop :=
  forall name g, groups r !! name = Some g -> exists x, made r !! g = Some x /\ g_name x = name.

Lemma made_update r g x peers closed name g' :
  made r !! g = Some x -> (exists y, made r !! g' = Some y /\ g_name y = name) ->
  exists y, <[g := mkGroup (g_name x) peers closed]> (made r) !! g' = Some y /\ g_name y = name.
Proof.
  intros E (y & Ey & En). destruct (decide (g' = g)) as [-> | Hne]; [| rewrite list_lookup_insert_ne by done; eauto].
  rewrite list_lookup_insert_eq by (by eapply lookup_lt_Some). eexists. split; [done |]. cbn. congruence.
Qed.

(** However goroutines interleave, a group is found under its own name. *)
Theorem registry_steps r : rtc step no_groups r -> registry_wf r.
Proof.
  intros HR. assert (Hpres : forall a b, step a b -> registry_wf a -> registry_wf b).
  { intros a b HS HW name g. destruct HS as [nm peers g0 r1 E | g0 r1 E | g0 | g0 x Ex Ec | nm |].
    - unfold NewGroup in E. cbn [negb] in E. destruct (groups a !! nm); [done |]. injection E as <- <-. cbn [groups made].
      intros [[<- <-] | [_ Hg]]%lookup_insert_Some.
      + eexists. split; [by rewrite lookup_app_r, Nat.sub_diag by lia | done].
      + destruct (HW _ _ Hg) as (y & Ey & En). exists y. split; [by apply lookup_app_l_Some | done].
    - unfold RegisterPeers in E. destruct (made a !! g0) as [x |] eqn:Ex; [| injection E as <-; apply HW].
      destruct (g_peers x); [done |]. injection E as <-. intros Hg. by apply made_update; [| apply HW].
    - unfold close_flag. destruct (made a !! g0) as [x |] eqn:Ex; [| apply HW]. destruct (g_closed x); [apply HW |].
      intros Hg. by apply made_update; [| apply HW].
    - unfold unregister. rewrite Ex. cbn [groups]. intros [_ Hg]%lookup_delete_Some. by apply HW.
    - unfold take. destruct (groups a !! nm); [| apply HW]. cbn [snd groups]. intros [_ Hg]%lookup_delete_Some. by apply HW.
    - cbn [take_all snd groups]. by rewrite lookup_empty. }
  assert (H0 : registry_wf no_groups) by (intros name g Hg; cbn [no_groups groups] in Hg; by rewrite lookup_empty in Hg). revert H0.
  induction HR as [| a b c HS _ IH]; [done |]. intros Ha. apply IH. by eapply Hpres.
Qed.

(** [DestroyGroup], alone: the group is closed and its name is free. *)
Theorem destroy_frees r name g x :
  GetGroup r name = Some g -> made r !! g = Some x -> g_name x = name ->
  exists r', DestroyGroup r name = (true, r') /\ GetGroup r' name = None /\
    (exists y, made r' !! g = Some y /\ g_closed y = true) /\ forall n, n <> name -> GetGroup r' n = GetGroup r n.
Proof.
  unfold GetGroup, DestroyGroup, take. intros Hg Hx Hn. rewrite Hg. eexists. split; [done |]. unfold Close, close_flag. cbn [made groups]. rewrite Hx.
  destruct (g_closed x) eqn:Ec; cbn [made groups].
  - split_and!; [apply lookup_delete_eq | eauto | intros n Hne; by rewrite lookup_delete_ne].
  - unfold unregister. cbn [made]. rewrite list_lookup_insert_eq by (by eapply lookup_lt_Some). cbn [g_name made groups].
    split_and!; [rewrite Hn; apply lookup_delete_eq | | intros n Hne; by rewrite Hn, !lookup_delete_ne].
    eexists. split; [by rewrite list_lookup_insert_eq by (by eapply lookup_lt_Some) | done].
Qed.

(** ** A group that is lost *)

(** Between the two halves of [DestroyGroup] another goroutine registers a new group under
    the name; closing the old one then unregisters the new one, which stays open but is
    found no more. *)
Theorem destroy_drops_new_group :
  exists r1 r2,
    NewGroup no_groups "g" true false = Ret (0%nat, r1) /\
    (* the first half of [DestroyGroup], then [NewGroup] of another goroutine *)
    NewGroup (take r1 "g").2 "g" true false = Ret (1%nat, r2) /\ GetGroup r2 "g" = Some 1%nat /\
    (* the second half of [DestroyGroup] *)
    let r := Close r2 0 in GetGroup r "g" = None /\ option_map g_closed (made r !! 1%nat) = Some false.
Proof. do 2 eexists. split; [reflexivity |]. split; [reflexivity |]. by vm_compute. Qed.
